(* ===== verification/_CoqProject ===== *)
-Q . S2P
Prelude.v
Bytes.v
WalCodec.v
WalIndex.v
WalSegment.v
WalLog.v
WalManager.v
Allocator.v
Replay.v
Sharded.v
Sequencer.v
Validator.v
Float64.v
Ring.v
Channel.v
ClientQueue.v
MarketEvent.v
TopicManager.v
Router.v
EventStore.v
ReplaySession.v
Topology.v
Routing.v
RateLimit.v
OrderBook.v
Aggregation.v
Bus.v
Snapshot.v
Recovery.v
WireEnvelope.v
RedisBus.v
Pipeline.v
WsPump.v
WsClient.v
Heartbeat.v
Gateway.v
EventLog.v
EventPublisher.v
WorkerPool.v
Recorder.v
Components.v
ClientSdk.v
ReconnectClient.v
GatewaySession.v
Discovery.v
Normalization.v
Exchange.v
Metadata.v
Health.v
MessagePool.v
Config.v
Transport.v
Admin.v
Simulator.v
Codec.v
App.v
LoadTest.v
Chaos.v
Sanitizer.v
Delivery.v
Endpoints.v
