(* ===== verification/Prelude.v ===== *)
(** * RTMDS: a verification development for the market-data server

    RTMDS takes events from exchanges, numbers them, logs them, and distributes
    them to websocket clients over several gateways. The development models the
    parts of its Go code that decide what is kept, in which order, and who gets
    it, as executable definitions translated from the source, and proves what
    each part promises to the others.

    ** The parts and how they interact

    Adapters ([internal/adapters]) deliver messages of the exchanges, which are
    normalized ([internal/normalization]) and merged into one feed
    ([internal/exchange]); a cache serves the reference data of the instruments
    ([internal/metadata]). The pipeline ([internal/feed]) numbers the quotes of a feed per symbol
    ([internal/sequencer]: in memory, or in blocks reserved from a shared Redis
    counter) and hands them to a chain of publishers ([internal/pubsub]): one
    keeps the latest event of each symbol ([internal/snapshot]), one writes the
    log, the last is the in-memory bus or Redis
    ([internal/distribution/redisbus]). A validator watches the
    numbers for gaps and duplicates. The write-ahead log ([internal/wal]) keeps
    events in segments with sparse indexes; the global allocator restores its
    counter from it, and the replay service ([internal/replay]) reads it for a
    client that resumes. The topic manager ([internal/topicmanager]) keeps who
    subscribes to what and offers each event to the queue of every subscriber,
    and its router keeps the Redis channels subscribed that local clients need;
    the rate limiter ([internal/ratelimit]) guards connections and
    subscriptions; a queue ([internal/clientqueue]) is a backpressure channel
    ([internal/backpressure]) over a ring that drops by policy. Partitions of
    symbols are assigned to gateways by a consistent-hash ring
    ([internal/routing], [internal/hashing]) that follows the registry of
    gateways ([internal/topology]). Recorded events ([internal/recorder/storage])
    are replayed at the pace of a clock by sessions ([internal/replay/engine],
    [internal/replay/scheduler]). After a restart ([internal/recovery]) the
    snapshots come back from a checkpoint and the events after it. The websocket
    gateway ([internal/websocket]) admits clients, dispatches what they ask for to
    the topic manager and the replays, writes what they are sent, and drops those
    that leave its pings unanswered; the client library ([pkg/client]) and the
    reconnecting client of the websocket package keep what a client subscribed to
    and restore it on a new connection, and a second form of the gateway
    ([internal/gateway]) streams the log to a client and then goes on live. Messages
    are serialized once, as JSON, protobuf or FlatBuffers, into pooled buffers
    ([pkg/protocol]). Gateways find each
    other in Redis ([internal/discovery]) and answer probes
    ([internal/healthcheck]). Over HTTP a client queries and exports the persisted
    events ([internal/transport]) and an operator runs commands
    ([internal/platform/admin]). A simulator ([pkg/marketdata/simulator]) stands in
    for an exchange. A process is wired for its mode and configuration from all of
    these ([internal/app]). Live events are recorded in batches
    ([internal/recorder]) or persisted in a table ([internal/eventlog]) that
    replays read page by page; a pool of workers ([internal/workerpool]) stands
    between a producer and a publisher; the process starts and stops its
    components in order ([internal/platform/lifecycle]). Order books
    ([internal/orderbook]) and candles ([internal/aggregation]) are kept from
    increments and trades.

    ** Files

    - [Prelude]: machine integers with their wrap-around, the results [outcome]
      (a value or a panic) and [result] (a value or an error), [sort.Search],
      tactics ([go_lia], [zb]) and lemmas on lists and maps.
    - [Bytes], [WalCodec], [WalIndex], [WalSegment], [WalLog], [WalManager]:
      [internal/wal]. A file is its list of bytes; a writer keeps what has reached
      the file apart from what is still in its buffer. [WalLog] is the interface
      of a log with its laws, as a class; [WalManager] gives the instance.
    - [Allocator], [Sequencer], [Validator]: [internal/sequencer]; [Sharded] is
      the map split over shards that the validator, the client queues and the
      topic manager share; [Float64] is Go's float64, for the drop threshold of
      a channel, the speed of a replay, token buckets, prices and volumes.
    - [Replay]: [internal/replay/engine.go] and [service.go], against [WalLog].
    - [Ring], [Channel]: [internal/backpressure]. The two rings are instances of
      the class [RingLike]; [Channel] is proved against the class.
    - [ClientQueue]: [internal/clientqueue], with queues in a shared store.
    - [MarketEvent], [TopicManager], [Router]: [pkg/marketdata] and
      [internal/topicmanager], with subscribers, atomic pointers and
      immutable lists in stores, compared by address; the router is proved
      against the manager's interface, and drives the Redis subscriber.
    - [EventStore], [ReplaySession]: [internal/models],
      [internal/recorder/storage], [internal/replay/engine] and the clock; the
      store is a class that the sessions are proved against.
    - [Topology], [Routing]: [internal/topology], [internal/routing],
      [internal/hashing]. xxHash64 is a parameter.
    - [RateLimit]: [internal/ratelimit], over float64 tokens.
    - [OrderBook]: [internal/orderbook]; a side is the list of its levels.
    - [Aggregation]: [internal/aggregation], with the aggregators of the symbols
      in a store, since an evicted one can still be held by a goroutine.
    - [Bus]: [internal/pubsub] and [internal/wal/publisher.go]. The publishers
      are instances of the class [Publisher]; the slices of the bus keep the
      address of their array.
    - [Snapshot], [Recovery]: [internal/snapshot] and [internal/recovery]. The
      disk is the three files of a checkpoint, changed call by call.
    - [WireEnvelope], [RedisBus]: [internal/distribution/redisbus], the bytes of a
      message and the publisher's queue with its workers.
    - [Pipeline]: [internal/feed], over the classes [Generator] and [Publisher].
    - [WsPump], [WsClient], [Heartbeat], [Gateway]: [internal/websocket] and the
      negotiation of [pkg/protocol]: the write pump, the read pump over the
      manager's interface, the table of heartbeats, and the gateway that runs them
      together as steps over a heap of clients.
    - [EventLog], [EventPublisher]: [internal/eventlog]; the table is an instance
      of the store that the replay sessions are proved against, the publisher is
      proved against the class [Publisher].
    - [WorkerPool]: [internal/workerpool]; [Recorder]: [internal/recorder/batcher]
      and [internal/recorder/engine], with the recycled buffers in a store of
      arrays.
    - [Components]: [internal/platform/lifecycle]; components are a class with
      their contract, which groups and functions give instances of.

    - [ClientSdk], [ReconnectClient]: [pkg/client] and
      [internal/websocket/reconnect.go], the goroutines of a client, composed with
      the gateway's side of a connection.
    - [GatewaySession]: [internal/gateway], over the replay service and any log.
    - [Discovery]: [internal/discovery]; Redis is a class with the documented
      effect of its commands, a list of entries the instance.
    - [Normalization], [Exchange]: [internal/normalization], [internal/adapters]
      and [internal/exchange]; an adapter is an instance of the class of its
      interface.
    - [Metadata]: [internal/metadata]; [Health]: [internal/healthcheck].
    - [MessagePool]: the manager, the messages and the pool of [pkg/protocol], with
      buffers in a store.
    - [Config]: [internal/config]; what the library reads and decodes is an
      argument of the loader.
    - [Transport]: [internal/transport]; a response is the pieces of its body and the
      header it was sent with. [Admin]: [internal/platform/admin], how the server
      mounts it, and [internal/middleware]; a request is a function on the state
      behind the commands and the audit log.
    - [Simulator]: [pkg/marketdata/simulator] and its adapter, an instance of the class
      of adapters; random numbers are the environment's.
    - [Codec]: the serializers of [pkg/protocol]; the encoding libraries are arguments,
      the slabs of the protobuf serializer are in a store.
    - [App]: [internal/app], over the configuration; the hooks of the components act on
      a history of log lines and calls, whose answers are an argument.
    - [LoadTest]: [internal/loadtest], the measurements of the load generator. [Chaos]:
      [internal/platform/chaos] and [testing/chaos], the runner proved against the
      classes of experiments and validators, Docker a class with its laws.
    - [Delivery]: the subscriber's loop of [internal/distribution/redisbus] and the
      publisher of a client's replay. [Endpoints]: the handlers of [internal/metadata]
      and [internal/orderbook], the adapter of an HTTP server, the carrier of
      correlation headers. [Sanitizer]: the redaction of [internal/log].

    Names are the source's; a method [M] of a type [T] is [T_M], a field gets a
    short prefix. A mutex that a method holds from start to end makes the method
    one step. Where goroutines interleave inside a method (the channel, the
    compare-and-swap loops, the replay sessions, the router, the bus, the Redis
    workers, the worker pool, the recorder, the persisting publisher, ticks
    against the sweeper, the two clients, the reconnect session, the commands of
    discovery, the merged feeds, pooled messages and slabs, the simulator, the run
    of a process) the method is a step relation
    whose steps are the source's atomic operations; the gateway is a
    step function with its reachable states as an inductive relation. A reading of the clock, a
    listing of the registry and the answer of Redis or of the event log are
    arguments. The JSON encoding of events and checkpoints is a parameter, with
    the round trip that a theorem needs as its hypothesis.

    ** What the theorems show

    - The log: what is appended and synced is read back from any start, across
      segments; a crash at any byte yields the records that survive whole and the
      right error; one changed byte is detected; the index search is the floor;
      a seek loses nothing; retention keeps the active segment and the newest
      suffix; the allocator resumes after the surviving records; the replay
      service returns exactly the logged range or the documented error.
    - Numbering: per-symbol numbers have no gaps; Redis blocks never give one
      number twice, whatever the interleaving of instances; the validator's
      statistics account for every message.
    - Backpressure: the ring refines the bounded drop-oldest queue, first in
      first out; the concurrent channel delivers a subsequence of what it
      accepted, in order, and every accepted event is accounted for; nothing that
      is buffered is stuck; the drop window counts the last ten
      seconds and a slow client is disconnected at its limit; the manager lists
      exactly the open queues.
    - Distribution: the topic manager refines the table of subscriptions; an event
      reaches exactly the subscribers of its symbol; concurrent subscriptions all
      land; the router's Redis subscriptions cover the local demand; the bus
      offers an event to exactly its subscribers; what is published is logged and
      passed on; an envelope survives the wire and a truncated one is rejected;
      the Redis publisher accounts for everything it accepted.
    - Limits: the float64 bucket is the integer token bucket at whole seconds and
      never grants more than burst and rate allow; the limiter keeps every client
      below its cap, independently of the others.
    - Books and candles: a book is a pair of price maps and stays sorted and
      bounded; every tick is in exactly one candle that summarises it; a window is
      published once when time does not go back; integer volume-weighted prices
      are exact; a tick is not stuck behind an eviction.
    - Clients: a client is subscribed to what it last asked for, and no
      subscription outlives its connection; after a reconnect it gets every number
      it missed once and in order; the gateway's counter and its heartbeats agree
      with the connections, of which there are at most 10,000 when requests do not
      overlap; a sweep drops exactly the silent clients; a gateway that drains
      accepts nobody. The two client libraries restore on a new connection what was
      subscribed, the first with the numbers to resume from; at most one goroutine of
      a client reads, and none panics unless a reconnect is asked for by hand; a
      reconnect session streams the log and then the live messages without a seam; a
      pooled message stays what it was while it is held.
    - Sources and operation: normalization accepts exactly the valid quotes in
      canonical form; the manager merges every feed in order and drops only what
      normalization refuses; the metadata indexes answer one load; a listing of
      gateways shows those that are alive; a probe reports every check. The loader
      accepts exactly the configurations whose enabled sections are in range; what is
      logged of them does not depend on the secrets; the persisted state survives
      failures and crashes. The limit on queries counts those in flight; an export
      streams the rows of the queries; an operation is authorized and audited; a panic
      of a handler is answered. The simulator accounts for every quote, and its quotes
      are accepted by normalization.
    - Formats: what is serialized is deserialized, up to what a format keeps; pooled
      messages and slabs give the encoding of the event unless the slab was taken
      before its copy.
    - Restart: a crash during a checkpoint loses no checkpoint; a checkpoint
      restores the service; replayed events come before live ones; a recovery from
      the log restores the last 10,000 records over the checkpoint; the restart
      reports its states in order.
    - Routing: a lookup is the first virtual node clockwise; a join or leave moves
      only keys to or from the gateway concerned; the ring depends on the set of
      gateways, not on its history; engines that see one listing agree; redirects
      name the owner; an expired gateway is not routed to.
    - Replay sessions: the session follows its transition table; an undisturbed
      replay publishes exactly the recorded range in order and completes.
    - Recording: the recorder writes every event it accepts once, although its
      goroutines share recycled buffers, and can always end with everything
      written; the persisting publisher accounts for every event and passes every
      one on; paging through the table yields what one sorted query would, and a
      session over it publishes exactly that.
    - The process: the worker pool accounts for every event and a shutdown drains
      it; the manager starts all components or none, and stops in reverse. A wired
      process starts what is used first, stops in reverse when it was cancelled, and is
      ready unless Redis fails. The load generator's statistics are those of the
      samples, however they were recorded; an experiment is torn down on every path; a
      sanitized line does not depend on the secret; pages are complete.
    - Deviations of the code from its intention, each as a theorem about a concrete
      execution or a general fact: appends after reopening a directory panic,
      recovery of an intact file grows it, readers skip after retention, control
      calls can make the run loop panic, the second subscriber panics with a
      registry, a subscription can be lost to a concurrent unsubscription, a send
      can hit a channel being closed, colliding virtual nodes lose the ring, an
      expired symbol starts over, and the verdict Gap is never given; a recovery
      from the log loses records beyond the live buffer, per-symbol numbers hide
      log records from a reader that resumes, a cancellation makes a publication
      skip a subscriber, a deep price panics, a late tick reopens its window, an
      idle client's subscriptions are forgotten, and Redis workers reorder; the end
      of a client's replay is not announced, so that a silent client with a replay
      stops the heartbeats of its gateway, a reconnect repeats events, and
      overlapping handshakes exceed the limit of connections; the flush interval
      of the persisting publisher has no effect, a lost commit duplicates rows, a
      cancelled worker pool abandons its queue, recording after the end panics,
      and a group that fails to start leaves members running; a second subscription
      of a client replaces the first at the gateway, a reconnect can lose its client
      or be refused, a revived gateway is not listed, a disabled adapter shifts the
      symbols of the others, a price that is no number is accepted, and a reconnect
      session can be stuck for ever; a quote that is published by value is lost in the
      binary formats, a slab can be overwritten before it is copied, a failed export
      is answered with success, the default tokens are known, a process that cannot
      start or whose server fails is not stopped, a missing log panics at startup, and
      the loops that were started with the context of the startup end with it.

    ** Fuel and bounds

    Loops that are not structural take fuel, and each is called with, or proved
    at, an amount that suffices. [read_full_loop] and the scans of a file
    ([LogReader_drain], [init_scan], [recover_scan]) take more than the number of
    bytes left, and every turn consumes a byte; [MSR_loop] takes [MSR_fuel], the
    bytes of all segments and one turn for each; [search_loop] and [Lookup_loop]
    take at least the length of the interval they halve; [close_drain] takes the
    length of the ring and one; [Service_Replay] takes any fuel above the number of
    logged messages, and so does [wal_replay]; [ProcessTick] takes one unit for
    each eviction it meets, and as steps it is proved to finish; the loops that
    wait for the event log, dependencies or a feed are folds over the list of
    answers they get; [append_chunks] takes the number of events, and every turn
    inserts one at least; the loops of an export are proved to end with more fuel than
    the table has rows; [insert_attempts] counts the retries; [reset_scan] is the Redis SCAN loop, whose end the
    server decides. A compare-and-swap loop without interference ends in its first
    turn, so [loop_until] takes 1; with interference it is the step relation
    [g_step]. Counters are proved for fewer than 2^63 or 2^64 operations, the
    width of their type; ring capacities up to 2^32, where [nextPow2] is the next
    power of two.

    ** What is not modelled

    Errors of the operating system (a failing write, fsync or open) are not
    modelled outside [Config] and the constructors of [App]; nor are metrics and
    logging, except the panic of a metric name that is registered twice. Real time
    passes as arguments. The rest of the repository is outside the development:
    generated code, metrics and their export, tracing, log output, the landing page and
    the routes of the HTTP library, the connections and the printing of the load
    generator, mocks, and the command lines, which are input and output or call
    libraries. The delays of back-offs are drawn at random and are not followed. Of
    the database and of Redis only the effect of the statements and commands used is
    modelled. *)

From Stdlib Require Export ZArith Lia.
From stdpp Require Export sorting strings option gmap base list.

#[export] Set Default Goal Selector "!".
#[export] Set Warnings "-clear-no-such-hyp".
#[global] Open Scope Z_scope.

(** ** Machine integers

    A Go integer of width w is a [Z]; every arithmetic operation that can leave
    the range is followed by the wrap-around of its type. *)

Definition u8 (z : Z) : Z := z mod 2 ^ 8.
Definition u16 (z : Z) : Z := z mod 2 ^ 16.
Definition u32 (z : Z) : Z := z mod 2 ^ 32.
Definition u64 (z : Z) : Z := z mod 2 ^ 64.
Definition i64 (z : Z) : Z := (z + 2 ^ 63) mod 2 ^ 64 - 2 ^ 63.
Definition i32 (z : Z) : Z := (z + 2 ^ 31) mod 2 ^ 32 - 2 ^ 31.

Definition in_u64 (z : Z) : Prop := 0 ≤ z < 2 ^ 64.
Definition in_u32 (z : Z) : Prop := 0 ≤ z < 2 ^ 32.
Definition in_i64 (z : Z) : Prop := - 2 ^ 63 ≤ z < 2 ^ 63.

Create HintDb goint.
#[export] Hint Unfold in_u64 in_u32 in_i64 : goint.

Lemma u64_range z : in_u64 (u64 z).
Proof. unfold in_u64, u64. apply Z.mod_pos_bound. lia. Qed.

Lemma u32_range z : in_u32 (u32 z).
Proof. unfold in_u32, u32. apply Z.mod_pos_bound. lia. Qed.

Lemma i64_range z : in_i64 (i64 z).
Proof.
  unfold in_i64, i64. pose proof (Z.mod_pos_bound (z + 2 ^ 63) (2 ^ 64)). lia.
Qed.

Lemma u64_small z : in_u64 z → u64 z = z.
Proof. intros H. apply Z.mod_small, H. Qed.

Lemma u32_small z : in_u32 z → u32 z = z.
Proof. intros H. apply Z.mod_small, H. Qed.

Lemma i64_small z : in_i64 z → i64 z = z.
Proof.
  unfold in_i64, i64. intros H. rewrite Z.mod_small; lia.
Qed.

Lemma i32_small z : - 2 ^ 31 ≤ z < 2 ^ 31 → i32 z = z.
Proof. unfold i32. intros H. rewrite Z.mod_small; lia. Qed.

Lemma i64_add a k : i64 (i64 a + k) = i64 (a + k).
Proof.
  unfold i64. f_equal. replace ((a + 2 ^ 63) mod 2 ^ 64 - 2 ^ 63 + k + 2 ^ 63) with ((a + 2 ^ 63) mod 2 ^ 64 + k) by lia.
  rewrite Zplus_mod_idemp_l. f_equal. lia.
Qed.

(** uint64(x) of an int64 x and back: the conversions the WAL header uses. *)
Lemma i64_u64 z : in_i64 z → i64 (u64 z) = z.
Proof.
  unfold in_i64, i64, u64. intros H.
  rewrite Zplus_mod_idemp_l, Z.mod_small; lia.
Qed.

#[export] Hint Resolve u64_range u32_range i64_range : goint.

(** [go_lia]: linear arithmetic after the width predicates are opened. *)
Ltac go_lia := autounfold with goint in *; lia.

(** Turns boolean comparisons in the context and the goal into propositions. *)
Ltac zb :=
  repeat match goal with
  | H : (_ && _) = true |- _ => apply andb_true_iff in H as [? ?]
  | H : (_ || _) = false |- _ => apply orb_false_iff in H as [? ?]
  | H : negb _ = true |- _ => apply negb_true_iff in H
  | H : negb _ = false |- _ => apply negb_false_iff in H
  | H : (_ =? _) = true |- _ => apply Z.eqb_eq in H
  | H : (_ =? _) = false |- _ => apply Z.eqb_neq in H
  | H : (_ <? _) = true |- _ => apply Z.ltb_lt in H
  | H : (_ <? _) = false |- _ => apply Z.ltb_ge in H
  | H : (_ <=? _) = true |- _ => apply Z.leb_le in H
  | H : (_ <=? _) = false |- _ => apply Z.leb_gt in H
  end.

(** Case analysis on the first [if] or [match] scrutinee of the goal, else of the
    context. *)
Ltac case_if :=
  match goal with
  | |- context [if ?b then _ else _] => destruct b eqn:?
  | H : context [if ?b then _ else _] |- _ => destruct b eqn:?
  end; zb.

(** ** Errors and panics *)

(** A Go result pair [(value, err)]: the value is used only when err is nil. *)
Inductive result (A E : Type) : Type :=
| Ok (a : A)
| Err (e : E).
Arguments Ok {A E} a.
Arguments Err {A E} e.

(** A call that may panic (nil dereference, index out of range). *)
Inductive outcome (A : Type) : Type :=
| Ret (a : A)
| Panic.
Arguments Ret {A} a.
Arguments Panic {A}.

Definition outcome_bind {A B} (o : outcome A) (f : A → outcome B) : outcome B :=
  match o with Ret a => f a | Panic => Panic end.

Declare Scope go_scope.
Delimit Scope go_scope with go.
Notation "x <-! o ;; k" := (outcome_bind o (λ x, k))
  (at level 100, o at next level, right associativity) : go_scope.

(** ** Time

    A [time.Time] is the number of nanoseconds since the Unix epoch, a
    [time.Duration] a signed 64-bit count of nanoseconds. *)

Definition Millisecond : Z := 1000000.
Definition Second : Z := 1000 * Millisecond.
Definition Minute : Z := 60 * Second.
Definition Hour : Z := 60 * Minute.

(** [time.Time{}]: January 1, year 1, 00:00 UTC. *)
Definition zero_time : Z := - 62135596800 * Second.

(** [t.Sub(u)] saturates at the ends of the Duration range. *)
Definition time_sub (t u : Z) : Z := Z.max (- 2 ^ 63) (Z.min (2 ^ 63 - 1) (t - u)).
(** [t.Add(d)]. *)
Definition time_add (t d : Z) : Z := t + d.
Definition time_after (t u : Z) : bool := u <? t.

Lemma time_sub_small t u : in_i64 (t - u) → time_sub t u = t - u.
Proof. unfold time_sub. go_lia. Qed.

(** ** sort.Search

    The standard library's binary search over [0, n): the loop keeps
    [f(i-1) = false] and [f(j) = true]. Each turn strictly shrinks [j - i], so
    [n] turns of fuel reach the end of the loop. *)

Fixpoint search_loop (fuel : nat) (f : nat → bool) (i j : nat) : nat :=
  match fuel with
  | O => i
  | S fuel =>
      if (i <? j)%nat then
        let h := Nat.div (i + j) 2 in
        if f h then search_loop fuel f i h else search_loop fuel f (S h) j
      else i
  end.

Definition sort_Search (n : nat) (f : nat → bool) : nat := search_loop n f 0 n.

Section search.
Context (f : nat → bool).

(** The predicate flips once, from false to true, on [0, n). *)
Definition monotone_on (n : nat) : Prop :=
  ∀ i j, (i ≤ j < n)%nat → f i = true → f j = true.

Lemma search_loop_spec fuel i j n :
  monotone_on n → (j - i ≤ fuel)%nat → (i ≤ j ≤ n)%nat →
  (∀ k, (k < i)%nat → f k = false) →
  (∀ k, (j ≤ k < n)%nat → f k = true) →
  let r := search_loop fuel f i j in
  (r ≤ n)%nat ∧ (∀ k, (k < r)%nat → f k = false) ∧
  (∀ k, (r ≤ k < n)%nat → f k = true).
Proof.
  intros Hm. revert i j. induction fuel as [|fuel IH]; intros i j Hf Hij Hlo Hhi;
    cbn [search_loop].
  - assert (i = j) by lia. subst. split_and!; auto; lia.
  - destruct (Nat.ltb_spec i j) as [Hlt|Hge].
    2:{ assert (i = j) by lia. subst. split_and!; auto; lia. }
    set (h := Nat.div (i + j) 2).
    assert (Hh : (i ≤ h < j)%nat).
    { unfold h. split.
      - apply Nat.div_le_lower_bound; lia.
      - apply Nat.Div0.div_lt_upper_bound; lia. }
    destruct (f h) eqn:Hfh; apply IH; auto; try lia.
    + intros k Hk. destruct (decide (j ≤ k)%nat); [apply Hhi; lia|].
      apply (Hm h k); [lia|done].
    + intros k Hk. destruct (f k) eqn:Hfk; [|done].
      assert (f h = true) by (apply (Hm k h); [lia|done]). congruence.
Qed.

Lemma sort_Search_spec n :
  monotone_on n →
  (sort_Search n f ≤ n)%nat ∧
  (∀ k, (k < sort_Search n f)%nat → f k = false) ∧
  (∀ k, (sort_Search n f ≤ k < n)%nat → f k = true).
Proof. intros Hm. apply search_loop_spec; auto with lia. Qed.

Lemma search_loop_bound fuel i j n :
  (i ≤ j ≤ n)%nat → (search_loop fuel f i j ≤ n)%nat.
Proof.
  revert i j. induction fuel as [|fuel IH]; intros i j H;
    cbn [search_loop]; [lia|].
  destruct (Nat.ltb_spec i j); [|lia].
  assert ((i + j) / 2 < j)%nat by (apply Nat.Div0.div_lt_upper_bound; lia).
  assert (i ≤ (i + j) / 2)%nat by (apply Nat.div_le_lower_bound; lia).
  destruct (f _); apply IH; lia.
Qed.

(** [sort.Search] stays inside [0, n] whatever the predicate is. *)
Lemma sort_Search_bound n : (sort_Search n f ≤ n)%nat.
Proof. apply search_loop_bound. lia. Qed.
End search.

Lemma search_loop_ext f g fuel i j n :
  (∀ k, (k < n)%nat → f k = g k) → (j ≤ n)%nat → search_loop fuel f i j = search_loop fuel g i j.
Proof.
  intros Hfg. revert i j. induction fuel as [|fuel IH]; intros i j Hj; cbn [search_loop]; [done|].
  destruct (Nat.ltb_spec i j); [|done].
  assert ((i + j) / 2 < j)%nat by (apply Nat.Div0.div_lt_upper_bound; lia).
  rewrite Hfg by lia. destruct (g _); apply IH; lia.
Qed.

Lemma sort_Search_ext f g n :
  (∀ k, (k < n)%nat → f k = g k) → sort_Search n f = sort_Search n g.
Proof. intros Hfg. by apply (search_loop_ext f g n 0 n n). Qed.

(** The search returns the position where the predicate flips. *)
Lemma sort_Search_split f n m :
  (m ≤ n)%nat → (∀ k, (k < m)%nat → f k = false) → (∀ k, (m ≤ k < n)%nat → f k = true) →
  sort_Search n f = m.
Proof.
  intros Hm Hlo Hhi. destruct (sort_Search_spec f n) as (Hr & Hf & Ht).
  { intros i j Hij Hi. destruct (decide (m ≤ j)%nat); [by apply Hhi; lia|].
    rewrite Hlo in Hi by lia. done. }
  destruct (Nat.lt_trichotomy (sort_Search n f) m) as [H|[H|H]]; [|done|].
  - specialize (Ht (sort_Search n f) ltac:(lia)). rewrite Hlo in Ht by lia. done.
  - specialize (Hf m H). rewrite Hhi in Hf by lia. done.
Qed.

(** ** Lists *)

Section lists.
Context {A : Type}.
Implicit Types l : list A.

Lemma filter_all (P : A → Prop) `{!∀ x, Decision (P x)} l :
  Forall P l → filter P l = l.
Proof.
  induction 1 as [|x l Hx _ IH]; [done|].
  rewrite filter_cons_True by done. by f_equal.
Qed.

Lemma filter_none (P : A → Prop) `{!∀ x, Decision (P x)} l :
  Forall (λ x, ¬ P x) l → filter P l = [].
Proof.
  induction 1 as [|x l Hx _ IH]; [done|]. by rewrite filter_cons_False.
Qed.

Lemma filter_ext_elem (P Q : A → Prop) `{!∀ x, Decision (P x), !∀ x, Decision (Q x)} l :
  (∀ x, x ∈ l → P x ↔ Q x) → filter P l = filter Q l.
Proof.
  induction l as [|x l IH]; intros Hiff; [done|]. rewrite !filter_cons.
  assert (Hx : P x ↔ Q x) by (apply Hiff; by left).
  rewrite IH by (intros y Hy; apply Hiff; by right). by rewrite (decide_ext _ _ _ _ Hx).
Qed.

Lemma Forall_filter_keep (P Q : A → Prop) `{!∀ x, Decision (Q x)} l :
  Forall P l → Forall P (filter Q l).
Proof.
  rewrite !Forall_forall. intros HP x Hx. apply HP.
  by apply list_elem_of_filter in Hx as [_ ?].
Qed.

Lemma sublist_snoc l k x : l `sublist_of` k → l `sublist_of` k ++ [x].
Proof. intros H. by apply sublist_inserts_r. Qed.

Lemma sublist_snoc_both l k x : l `sublist_of` k → l ++ [x] `sublist_of` k ++ [x].
Proof. intros H. by apply sublist_app. Qed.

(** A subsequence as long as the whole is the whole. *)
Lemma sublist_whole l k : l `sublist_of` k → (length k ≤ length l)%nat → l = k.
Proof.
  induction 1 as [|x l k Hs IH|x l k Hs IH]; simpl; intros Hl; [done| |].
  - f_equal. apply IH. lia.
  - apply sublist_length in Hs. lia.
Qed.

(** Membership in a concatenation, by position of the sublist. *)
Lemma concat_elem (ls : list (list A)) x :
  x ∈ concat ls ↔ ∃ i l, ls !! i = Some l ∧ x ∈ l.
Proof.
  rewrite list_elem_of_In, in_concat. split.
  - intros (l & Hl & Hx). apply list_elem_of_In in Hl, Hx.
    apply list_elem_of_lookup in Hl as [i Hi]. by exists i, l.
  - intros (i & l & Hi & Hx). exists l. rewrite <- !list_elem_of_In.
    split; [by eapply list_elem_of_lookup_2|done].
Qed.

(** Writing to a position that is then deleted. *)
Lemma delete_insert_same l i x :
  (i < length l)%nat → delete i (<[i := x]> l) = delete i l.
Proof.
  intros Hi. rewrite !delete_take_drop, insert_take_drop by done.
  rewrite take_app_length' by (rewrite length_take; lia).
  rewrite drop_app_ge by (rewrite length_take; lia). rewrite length_take.
  by replace (S i - i `min` length l)%nat with 1%nat by lia.
Qed.

Lemma StronglySorted_filter (R : A → A → Prop) (P : A → Prop) `{!∀ x, Decision (P x)} l :
  StronglySorted R l → StronglySorted R (filter P l).
Proof.
  induction 1 as [|x l Hl IH Hx]; [constructor|]. rewrite filter_cons.
  case_decide; [|done]. constructor; [done|]. by apply Forall_filter_keep.
Qed.

(** A list cut anywhere is a prefix followed by the rest. *)
Lemma take_app_length_le l k n :
  (length l ≤ n)%nat → take n (l ++ k) = l ++ take (n - length l) k.
Proof. intros H. rewrite take_app. f_equal. by apply take_ge. Qed.
End lists.

Create HintDb rtmds.
#[export] Hint Resolve sublist_snoc sublist_snoc_both : rtmds.
