(* ===== verification/Bytes.v ===== *)
(** * Bytes: little-endian integers and CRC-32

    The parts of [encoding/binary] and [hash/crc32] the write-ahead log uses:
    [LittleEndian.PutUintN]/[UintN] on byte slices and the IEEE CRC-32 in its
    table-driven form. The lemmas are the round trip of the integer codec, the
    incremental law of the checksum (several [Write]s equal one [Write] of the
    concatenation) and its sensitivity: the step function is injective in the
    running checksum and in the byte, so one changed byte always changes the sum.
    The trimming of ASCII white space ([strings.TrimSpace]) is here too, for the
    components that share it. *)

From Stdlib Require Import Strings.Byte Strings.String.
From S2P Require Import Prelude.

Abbreviation byte := Byte.byte.

#[global] Instance byte_eq_dec : EqDecision byte := Byte.byte_eq_dec.

(** ** Bytes as integers *)

Definition byte_to_Z (b : byte) : Z := Z.of_N (Byte.to_N b).
Definition byte_of_Z (z : Z) : byte :=
  match Byte.of_N (Z.to_N (u8 z)) with Some b => b | None => x00 end.

Lemma byte_to_Z_range b : 0 ≤ byte_to_Z b < 256.
Proof. unfold byte_to_Z. pose proof (Byte.to_N_bounded b). lia. Qed.

Lemma byte_to_of_Z z : byte_to_Z (byte_of_Z z) = u8 z.
Proof.
  unfold byte_of_Z, byte_to_Z.
  assert (0 ≤ u8 z < 256) by (unfold u8; apply Z.mod_pos_bound; lia).
  destruct (Byte.of_N (Z.to_N (u8 z))) as [b|] eqn:E.
  - apply Byte.to_of_N in E. rewrite E. lia.
  - apply Byte.of_N_None_iff in E. lia.
Qed.

Lemma byte_to_Z_inj b1 b2 : byte_to_Z b1 = byte_to_Z b2 → b1 = b2.
Proof.
  unfold byte_to_Z. intros H. apply N2Z.inj in H.
  apply (f_equal Byte.of_N) in H. rewrite !Byte.of_to_N in H. congruence.
Qed.

(** ** binary.LittleEndian *)

Fixpoint le_put (n : nat) (v : Z) : list byte :=
  match n with
  | O => []
  | S n => byte_of_Z v :: le_put n (Z.shiftr v 8)
  end.

Fixpoint le_get (l : list byte) : Z :=
  match l with
  | [] => 0
  | b :: l => Z.lor (byte_to_Z b) (Z.shiftl (le_get l) 8)
  end.

Lemma lor_shift_add a b n :
  0 ≤ n → 0 ≤ a < 2 ^ n → Z.lor a (Z.shiftl b n) = a + b * 2 ^ n.
Proof.
  intros Hn Ha. rewrite <- Z.shiftl_mul_pow2 by done.
  assert (Hl : Z.land a (Z.shiftl b n) = 0).
  { apply Z.bits_inj'. intros i Hi. rewrite Z.land_spec, Z.bits_0.
    destruct (Z.lt_ge_cases i n).
    - rewrite Z.shiftl_spec_low by done. by rewrite andb_false_r.
    - destruct (decide (a = 0)) as [->|]; [by rewrite Z.bits_0|].
      rewrite (Z.bits_above_log2 a i); [done|lia|].
      apply Z.log2_lt_pow2; [lia|].
      apply Z.lt_le_trans with (2 ^ n); [lia|]. apply Z.pow_le_mono_r; lia. }
  rewrite <- Z.lxor_lor by done. symmetry. by apply Z.add_nocarry_lxor.
Qed.

Lemma le_get_cons b l : le_get (b :: l) = byte_to_Z b + le_get l * 256.
Proof. apply (lor_shift_add _ _ 8); [lia|]. apply byte_to_Z_range. Qed.

Lemma length_le_put n v : length (le_put n v) = n.
Proof. revert v. induction n; intros v; simpl; auto. Qed.

Lemma le_get_put n v : le_get (le_put n v) = v mod 2 ^ (8 * Z.of_nat n).
Proof.
  revert v. induction n as [|n IH]; intros v.
  - simpl. by rewrite Z.mod_1_r.
  - cbn [le_put]. rewrite le_get_cons, IH, byte_to_of_Z. unfold u8.
    rewrite Z.shiftr_div_pow2 by lia.
    replace (8 * Z.of_nat (S n)) with (8 + 8 * Z.of_nat n) by lia.
    rewrite Z.pow_add_r by lia.
    rewrite (Z.rem_mul_r v (2 ^ 8)) by lia. lia.
Qed.

Lemma le_get_range l : 0 ≤ le_get l < 2 ^ (8 * Z.of_nat (length l)).
Proof.
  induction l as [|b l IH]; [simpl; lia|].
  rewrite le_get_cons. pose proof (byte_to_Z_range b).
  replace (8 * Z.of_nat (length (b :: l))) with (8 + 8 * Z.of_nat (length l))
    by (cbn [length]; lia).
  rewrite Z.pow_add_r by lia. change (2 ^ 8) with 256. lia.
Qed.

Lemma le_get_inj l1 l2 : length l1 = length l2 → le_get l1 = le_get l2 → l1 = l2.
Proof.
  revert l2. induction l1 as [|b1 l1 IH]; intros [|b2 l2] Hlen Heq; try done.
  rewrite !le_get_cons in Heq.
  pose proof (byte_to_Z_range b1). pose proof (byte_to_Z_range b2).
  assert (byte_to_Z b1 = byte_to_Z b2) by lia.
  f_equal; [by apply byte_to_Z_inj|]. apply IH; [by injection Hlen|lia].
Qed.

(** ** Go strings as byte sequences *)

Definition bytes_of_string (s : string) : list byte := list_byte_of_string s.
Definition string_of_bytes (l : list byte) : string := string_of_list_byte l.

Lemma string_of_bytes_of_string s : string_of_bytes (bytes_of_string s) = s.
Proof. apply string_of_list_byte_of_string. Qed.

(** ** hash/crc32 (IEEE) *)

Definition crc_poly : Z := 0xedb88320.

(** [simpleMakeTable]: eight shift-and-reduce turns per entry. *)
Fixpoint crc_shift (k : nat) (crc : Z) : Z :=
  match k with
  | O => crc
  | S k => crc_shift k (if Z.testbit crc 0 then Z.lxor (Z.shiftr crc 1) crc_poly
                        else Z.shiftr crc 1)
  end.
Definition crc_table (i : Z) : Z := crc_shift 8 i.

(** One turn of [simpleUpdate]: tab[byte(crc)^v] ^ (crc >> 8). *)
Definition crc_step (crc : Z) (b : byte) : Z :=
  Z.lxor (crc_table (Z.lxor (u8 crc) (byte_to_Z b))) (Z.shiftr crc 8).

Definition crc_not (crc : Z) : Z := Z.lxor crc 0xffffffff.

(** [crc32.Update(crc, IEEETable, p)], what [Write] does to the digest. *)
Definition crc32_update (crc : Z) (p : list byte) : Z :=
  crc_not (fold_left crc_step p (crc_not crc)).

Definition crc32 (p : list byte) : Z := crc32_update 0 p.

Lemma crc_not_involutive c : crc_not (crc_not c) = c.
Proof. unfold crc_not. by rewrite Z.lxor_assoc, Z.lxor_nilpotent, Z.lxor_0_r. Qed.

(** Writing in pieces is writing the concatenation. *)
Lemma crc32_update_app crc p q :
  crc32_update (crc32_update crc p) q = crc32_update crc (p ++ q).
Proof. unfold crc32_update. by rewrite crc_not_involutive, fold_left_app. Qed.

Lemma crc32_update_nil crc : crc32_update crc [] = crc.
Proof. apply crc_not_involutive. Qed.

(** Range facts: an xor of n-bit numbers is an n-bit number. *)
Lemma lxor_range a b n : 0 ≤ n → 0 ≤ a < 2 ^ n → 0 ≤ b < 2 ^ n → 0 ≤ Z.lxor a b < 2 ^ n.
Proof.
  intros Hn Ha Hb. split; [by apply Z.lxor_nonneg; lia|].
  destruct (decide (Z.lxor a b = 0)) as [->|Hz]; [lia|].
  assert (0 ≤ Z.lxor a b) by (apply Z.lxor_nonneg; lia).
  apply Z.log2_lt_pow2; [lia|].
  pose proof (Z.log2_lxor a b ltac:(lia) ltac:(lia)).
  assert (Hlog : ∀ x, 0 ≤ x < 2 ^ n → Z.log2 x < n ∨ x = 0).
  { intros x Hx. destruct (decide (x = 0)); [by right|left].
    apply Z.log2_lt_pow2; lia. }
  destruct (Hlog a Ha) as [? | ->], (Hlog b Hb) as [? | ->];
    rewrite ?Z.lxor_0_l, ?Z.lxor_0_r in *; simpl in *; lia.
Qed.

Definition byte_indices : list Z := map Z.of_nat (seq 0 256).

Lemma byte_indices_elem i : 0 ≤ i < 256 → i ∈ byte_indices.
Proof.
  intros Hi. apply list_elem_of_In, in_map_iff. exists (Z.to_nat i).
  split; [lia|]. apply in_seq. lia.
Qed.

(** The table's entries are 32-bit numbers ... *)
Lemma crc_table_range i : 0 ≤ i < 256 → 0 ≤ crc_table i < 2 ^ 32.
Proof.
  intros Hi%byte_indices_elem.
  assert (Hall : forallb (λ i, (0 <=? crc_table i) && (crc_table i <? 2 ^ 32)) byte_indices = true)
    by (vm_compute; reflexivity).
  rewrite forallb_forall in Hall. apply list_elem_of_In in Hi.
  specialize (Hall _ Hi). zb. lia.
Qed.

(** ... and their top bytes are pairwise distinct. *)
Definition crc_top (i : Z) : Z := Z.shiftr (crc_table i) 24.
Definition crc_untop (t : Z) : Z :=
  match find (λ i, crc_top i =? t) byte_indices with Some i => i | None => 0 end.

Lemma crc_untop_top i : 0 ≤ i < 256 → crc_untop (crc_top i) = i.
Proof.
  intros Hi%byte_indices_elem.
  assert (Hall : forallb (λ i, crc_untop (crc_top i) =? i) byte_indices = true)
    by (vm_compute; reflexivity).
  rewrite forallb_forall in Hall. apply list_elem_of_In in Hi.
  specialize (Hall _ Hi). by zb.
Qed.

Lemma u8_range z : 0 ≤ u8 z < 256.
Proof. unfold u8. apply Z.mod_pos_bound. lia. Qed.

Lemma crc_index_range c b : 0 ≤ Z.lxor (u8 c) (byte_to_Z b) < 256.
Proof.
  apply (lxor_range _ _ 8); [lia|apply u8_range|apply byte_to_Z_range].
Qed.

Lemma crc_shift_range c : 0 ≤ c < 2 ^ 32 → 0 ≤ Z.shiftr c 8 < 2 ^ 24.
Proof.
  intros Hc. rewrite Z.shiftr_div_pow2 by lia. split; [apply Z.div_pos; lia|].
  apply Z.div_lt_upper_bound; lia.
Qed.

Lemma crc_step_range c b : 0 ≤ c < 2 ^ 32 → 0 ≤ crc_step c b < 2 ^ 32.
Proof.
  intros Hc. apply lxor_range; [lia|apply crc_table_range, crc_index_range|].
  pose proof (crc_shift_range c Hc). lia.
Qed.

(** The top byte of a step names the table entry that was used. *)
Lemma crc_step_top c b :
  0 ≤ c < 2 ^ 32 →
  Z.shiftr (crc_step c b) 24 = crc_top (Z.lxor (u8 c) (byte_to_Z b)).
Proof.
  intros Hc. unfold crc_step, crc_top. rewrite Z.shiftr_lxor.
  pose proof (crc_shift_range c Hc).
  rewrite (Z.shiftr_div_pow2 (Z.shiftr c 8)) by lia.
  rewrite Z.div_small, Z.lxor_0_r; [done|lia].
Qed.

Lemma lxor_cancel_l a b c : Z.lxor a b = Z.lxor a c → b = c.
Proof.
  intros H. apply (f_equal (Z.lxor a)) in H.
  by rewrite <- !Z.lxor_assoc, Z.lxor_nilpotent, !Z.lxor_0_l in H.
Qed.

Lemma crc_step_index c1 c2 b1 b2 :
  0 ≤ c1 < 2 ^ 32 → 0 ≤ c2 < 2 ^ 32 → crc_step c1 b1 = crc_step c2 b2 →
  Z.lxor (u8 c1) (byte_to_Z b1) = Z.lxor (u8 c2) (byte_to_Z b2) ∧
  Z.shiftr c1 8 = Z.shiftr c2 8.
Proof.
  intros H1 H2 Heq.
  assert (Hidx : Z.lxor (u8 c1) (byte_to_Z b1) = Z.lxor (u8 c2) (byte_to_Z b2)).
  { rewrite <- (crc_untop_top _ (crc_index_range c1 b1)).
    rewrite <- (crc_untop_top _ (crc_index_range c2 b2)).
    rewrite <- !crc_step_top by done. by rewrite Heq. }
  split; [done|]. unfold crc_step in Heq. rewrite Hidx in Heq.
  by eapply lxor_cancel_l.
Qed.

(** The step is injective in the checksum for a fixed byte ... *)
Lemma crc_step_inj_crc c1 c2 b :
  0 ≤ c1 < 2 ^ 32 → 0 ≤ c2 < 2 ^ 32 → crc_step c1 b = crc_step c2 b → c1 = c2.
Proof.
  intros H1 H2 [Hidx Hs]%crc_step_index; try done.
  rewrite !(Z.lxor_comm _ (byte_to_Z b)) in Hidx. apply lxor_cancel_l in Hidx.
  unfold u8 in Hidx. rewrite !Z.shiftr_div_pow2 in Hs by lia.
  rewrite (Z.div_mod c1 (2 ^ 8)), (Z.div_mod c2 (2 ^ 8)) by lia. by rewrite Hs, Hidx.
Qed.

(** ... and in the byte for a fixed checksum. *)
Lemma crc_step_inj_byte c b1 b2 :
  0 ≤ c < 2 ^ 32 → crc_step c b1 = crc_step c b2 → b1 = b2.
Proof.
  intros H [Hidx _]%crc_step_index; try done.
  apply lxor_cancel_l in Hidx. by apply byte_to_Z_inj.
Qed.

Lemma crc_fold_range p c : 0 ≤ c < 2 ^ 32 → 0 ≤ fold_left crc_step p c < 2 ^ 32.
Proof. revert c. induction p; intros c Hc; simpl; auto using crc_step_range. Qed.

Lemma crc_fold_inj p c1 c2 :
  0 ≤ c1 < 2 ^ 32 → 0 ≤ c2 < 2 ^ 32 →
  fold_left crc_step p c1 = fold_left crc_step p c2 → c1 = c2.
Proof.
  revert c1 c2. induction p as [|b p IH]; intros c1 c2 H1 H2; simpl; [done|].
  intros Heq%IH; auto using crc_step_range. by eapply crc_step_inj_crc.
Qed.

Lemma crc_not_range c : 0 ≤ c < 2 ^ 32 → 0 ≤ crc_not c < 2 ^ 32.
Proof. intros H. apply lxor_range; [lia|done|lia]. Qed.

Lemma crc32_range p : in_u32 (crc32 p).
Proof.
  unfold in_u32, crc32, crc32_update. apply crc_not_range, crc_fold_range, crc_not_range. lia.
Qed.

(** One changed byte always changes the checksum. *)
Lemma crc32_single_byte p b1 b2 q :
  b1 ≠ b2 → crc32 (p ++ b1 :: q) ≠ crc32 (p ++ b2 :: q).
Proof.
  intros Hne Heq. unfold crc32, crc32_update in Heq.
  apply (f_equal crc_not) in Heq. rewrite !crc_not_involutive in Heq.
  rewrite !fold_left_app in Heq. simpl in Heq.
  set (c := fold_left crc_step p (crc_not 0)) in *.
  assert (0 ≤ c < 2 ^ 32) by (apply crc_fold_range, crc_not_range; lia).
  apply crc_fold_inj in Heq; auto using crc_step_range.
  apply crc_step_inj_byte in Heq; auto.
Qed.

(** The check value of CRC-32/ISO-HDLC on the digits 1 to 9. *)
Example crc32_check : crc32 (bytes_of_string "123456789") = 0xCBF43926.
Proof. vm_compute. reflexivity. Qed.

(** ** White space *)

(** [strings.TrimSpace] on ASCII text. *)
Definition is_space (a : Ascii.ascii) : bool :=
  let n := Ascii.nat_of_ascii a in ((n =? 32) || ((9 <=? n) && (n <=? 13)))%nat.
Fixpoint trim_left (s : string) : string :=
  match s with String a s' => if is_space a then trim_left s' else s | EmptyString => "" end.
Fixpoint trim_right (s : string) : string :=
  match s with
  | EmptyString => ""
  | String a s' => match trim_right s' with
                   | EmptyString => if is_space a then "" else String a EmptyString
                   | t => String a t
                   end
  end.
Definition TrimSpace (s : string) : string := trim_right (trim_left s).
