(* ===== verification/WalCodec.v ===== *)
(** * WalCodec: the record format of the write-ahead log

    [internal/wal/models.go], [writer.go] and [reader.go]: the [Message], the
    [LogWriter] with its 64 KiB [bufio.Writer] and the [LogReader] with its
    64 KiB [bufio.Reader]. A record is a 22-byte header, the topic, the payload
    and a CRC-32 of all three. The theorems are the round trip, the behaviour on
    torn tails and the detection of corrupted records. *)

From S2P Require Import Prelude Bytes.

Abbreviation Zlen l := (Z.of_nat (length l)).

(** ** Messages and errors *)

Record Message := mkMessage {
  Sequence : Z;        (* uint64 *)
  Timestamp : Z;       (* int64 *)
  Topic : string;
  Type_ : string;
  Payload : list byte;
}.

#[global] Instance Message_eq_dec : EqDecision Message.
Proof. solve_decision. Defined.

Inductive WalError :=
| EOF
| ErrCorruptedTail
| ErrSequenceTooOld
| ErrTopicTooLong       (* "topic length %d exceeds max uint16" *)
| ErrIndexEmpty         (* "index is empty" *)
| ErrIndexRead          (* "failed to read index at %d" *)
| ErrNoSegments.        (* "no segments available" *)

#[global] Instance WalError_eq_dec : EqDecision WalError.
Proof. solve_decision. Defined.

(** ** bufio.Writer over an append-only file

    [lw_file] holds the bytes handed to the operating system, [lw_buf] the
    bytes still in user space. *)

Definition bufio_size : Z := 64 * 1024.

Record LogWriter := mkLogWriter {
  lw_file : list byte;
  lw_buf : list byte;
}.

(** [bufio.Writer.Write]: at most one fill-and-flush turn, then a direct write
    when what is left still exceeds the empty buffer. *)
Definition bufio_Write (w : LogWriter) (p : list byte) : LogWriter :=
  let avail := bufio_size - Zlen (lw_buf w) in
  if avail <? Zlen p then
    if decide (lw_buf w = []) then mkLogWriter (lw_file w ++ p) []
    else
      let n := Z.to_nat avail in
      let file := lw_file w ++ lw_buf w ++ take n p in
      let rest := drop n p in
      if bufio_size <? Zlen rest then mkLogWriter (file ++ rest) []
      else mkLogWriter file rest
  else mkLogWriter (lw_file w) (lw_buf w ++ p).

(** The bytes of the log as the writer sees them. *)
Definition lw_bytes (w : LogWriter) : list byte := lw_file w ++ lw_buf w.

Lemma bufio_Write_bytes w p : lw_bytes (bufio_Write w p) = lw_bytes w ++ p.
Proof.
  unfold bufio_Write, lw_bytes. case_if; [|simpl; by rewrite (assoc_L (++))].
  case_decide as Hb; [rewrite Hb; simpl; by rewrite !app_nil_r|].
  case_if; simpl; rewrite ?app_nil_r, <- !(assoc_L (++)); by rewrite ?take_drop.
Qed.

(** Bytes handed to the operating system never leave the file. *)
Lemma bufio_Write_file w p : lw_file w `prefix_of` lw_file (bufio_Write w p).
Proof.
  unfold bufio_Write. repeat first [case_if | case_decide]; simpl; try done;
    rewrite <- ?(assoc_L (++)); by apply prefix_app_r.
Qed.

(** ** LogWriter *)

(** [NewWriter(path)]: opens (or creates) the file for appending. *)
Definition NewWriter (contents : list byte) : LogWriter := mkLogWriter contents [].

(** The fixed header: 8 (seq) + 8 (ts) + 2 (topic len) + 4 (payload len). *)
Definition record_header (msg : Message) (topicLen payloadLen : Z) : list byte :=
  le_put 8 (Sequence msg) ++ le_put 8 (u64 (Timestamp msg)) ++
  le_put 2 (u16 topicLen) ++ le_put 4 (u32 payloadLen).

Definition LogWriter_Append (w : LogWriter) (msg : Message) : LogWriter * result Z WalError :=
  let topic := bytes_of_string (Topic msg) in
  let topicLen := Zlen topic in
  if 65535 <? topicLen then (w, Err ErrTopicTooLong)
  else
    let payloadLen := Zlen (Payload msg) in
    let header := record_header msg topicLen payloadLen in
    let crc0 := crc32_update 0 header in
    let crc1 := if 0 <? topicLen then crc32_update crc0 topic else crc0 in
    let checksum := if 0 <? payloadLen then crc32_update crc1 (Payload msg) else crc1 in
    let w := bufio_Write w header in
    let w := if 0 <? topicLen then bufio_Write w topic else w in
    let w := if 0 <? payloadLen then bufio_Write w (Payload msg) else w in
    let w := bufio_Write w (le_put 4 checksum) in
    (w, Ok (22 + topicLen + payloadLen + 4)).

(** [Sync]: flush the user-space buffer, then fsync. *)
Definition LogWriter_Sync (w : LogWriter) : LogWriter := mkLogWriter (lw_bytes w) [].

(** [Close]: flush, fsync, close; the file's contents are what remains. *)
Definition LogWriter_Close (w : LogWriter) : list byte := lw_file (LogWriter_Sync w).

(** ** bufio.Reader over a file

    [br_data] is the file, [br_pos] the descriptor's offset (what
    [file.Seek(0, SEEK_CUR)] reports) and [br_buf] the bytes read ahead. *)

Record LogReader := mkLogReader {
  br_data : list byte;
  br_pos : Z;
  br_buf : list byte;
}.

Definition NewReader (contents : list byte) : LogReader := mkLogReader contents 0 [].

(** A read of at most [n] bytes at the descriptor's offset. *)
Definition file_read (data : list byte) (pos n : Z) : list byte :=
  take (Z.to_nat (Z.min n (Zlen data))) (drop (Z.to_nat (Z.min pos (Zlen data))) data).

(** [bufio.Reader.Read(p)] with len(p) = n > 0: serve from the buffer, or fill
    it with one read of the file, or bypass it for a large request. *)
Definition bufio_Read (r : LogReader) (n : Z) : list byte * LogReader :=
  if decide (br_buf r = []) then
    if bufio_size <=? n then
      let chunk := file_read (br_data r) (br_pos r) n in
      (chunk, mkLogReader (br_data r) (br_pos r + Zlen chunk) [])
    else
      let fill := file_read (br_data r) (br_pos r) bufio_size in
      let k := Z.to_nat (Z.min n (Zlen fill)) in
      (take k fill, mkLogReader (br_data r) (br_pos r + Zlen fill) (drop k fill))
  else
    let k := Z.to_nat (Z.min n (Zlen (br_buf r))) in
    (take k (br_buf r), mkLogReader (br_data r) (br_pos r) (drop k (br_buf r))).

Inductive read_result :=
| ReadOk (p : list byte)
| ReadEOF               (* io.EOF: nothing was read *)
| ReadUnexpectedEOF.    (* io.ErrUnexpectedEOF: fewer bytes than asked *)

(** [io.ReadFull]: every turn that does not reach the end of the file reads at
    least one byte, so the bytes left to read bound the number of turns. *)
Fixpoint read_full_loop (fuel : nat) (r : LogReader) (n : Z) (acc : list byte)
    : read_result * LogReader :=
  if n <=? 0 then (ReadOk acc, r)
  else match fuel with
  | O => (if decide (acc = []) then ReadEOF else ReadUnexpectedEOF, r)
  | S fuel =>
      let '(chunk, r') := bufio_Read r n in
      if decide (chunk = []) then
        (if decide (acc = []) then ReadEOF else ReadUnexpectedEOF, r')
      else read_full_loop fuel r' (n - Zlen chunk) (acc ++ chunk)
  end.

(** The bytes the reader has not delivered yet. *)
Definition br_rest (r : LogReader) : list byte :=
  br_buf r ++ drop (Z.to_nat (br_pos r)) (br_data r).

Definition io_ReadFull (r : LogReader) (n : Z) : read_result * LogReader :=
  read_full_loop (S (length (br_data r) + length (br_buf r))) r n [].

(** [LogReader.Next]. The [Type] of a message is not stored, so it comes back
    empty. The payload the code returns aliases the scratch buffer of the
    reader; the model returns its value at the time of the call. *)
Definition LogReader_Next (r : LogReader) : result Message WalError * LogReader :=
  match io_ReadFull r 22 with
  | (ReadEOF, r) => (Err EOF, r)
  | (ReadUnexpectedEOF, r) => (Err ErrCorruptedTail, r)
  | (ReadOk header, r) =>
      let seq := le_get (take 8 header) in
      let ts := i64 (le_get (take 8 (drop 8 header))) in
      let topicLen := le_get (take 2 (drop 16 header)) in
      let payloadLen := le_get (take 4 (drop 18 header)) in
      let totalLen := topicLen + payloadLen in
      match (if 0 <? totalLen then io_ReadFull r totalLen else (ReadOk [], r)) with
      | (ReadEOF, r) | (ReadUnexpectedEOF, r) => (Err ErrCorruptedTail, r)
      | (ReadOk scratch, r) =>
          match io_ReadFull r 4 with
          | (ReadEOF, r) | (ReadUnexpectedEOF, r) => (Err ErrCorruptedTail, r)
          | (ReadOk crcBytes, r) =>
              let expectedCrc := le_get crcBytes in
              let crc := crc32_update 0 header in
              let crc := if 0 <? totalLen then crc32_update crc scratch else crc in
              if negb (crc =? expectedCrc) then (Err ErrCorruptedTail, r)
              else
                let topic := if 0 <? topicLen
                             then string_of_bytes (take (Z.to_nat topicLen) scratch)
                             else "" in
                let payload := if 0 <? payloadLen
                               then drop (Z.to_nat topicLen) scratch else [] in
                (Ok (mkMessage seq ts topic "" payload), r)
          end
      end
  end.

(** ** The reader delivers the file's bytes in order *)

Definition reader_wf (r : LogReader) : Prop := 0 ≤ br_pos r.

Lemma file_read_take data pos n :
  0 ≤ pos → 0 ≤ n →
  file_read data pos n = take (Z.to_nat n) (drop (Z.to_nat pos) data).
Proof.
  intros Hp Hn. unfold file_read.
  destruct (Z.le_ge_cases pos (Zlen data)).
  - rewrite (Z.min_l pos) by lia.
    destruct (Z.le_ge_cases n (Zlen data)); [by rewrite Z.min_l|].
    rewrite Z.min_r by lia. by rewrite !take_ge by (rewrite length_drop; lia).
  - rewrite (Z.min_r pos) by lia. rewrite !drop_ge by lia. by rewrite !take_nil.
Qed.

(** One [Read] takes a non-empty chunk off the front unless nothing is left. *)
Lemma bufio_Read_spec r n chunk r' :
  reader_wf r → 0 < n → bufio_Read r n = (chunk, r') →
  ∃ k, chunk = take k (br_rest r) ∧ br_rest r' = drop k (br_rest r) ∧
       br_data r' = br_data r ∧ reader_wf r' ∧
       (k ≤ length (br_rest r))%nat ∧ Z.of_nat k ≤ n ∧ (k = 0%nat → br_rest r = []).
Proof.
  unfold bufio_Read, br_rest, reader_wf. intros Hp Hn Heq.
  pose proof (file_read_take (br_data r) (br_pos r)) as Hfr.
  set (tl := drop (Z.to_nat (br_pos r)) (br_data r)) in *.
  case_decide as Hb; [rewrite Hb; simpl; case_if|]; simplify_eq/=.
  - rewrite Hfr by lia. exists (length (take (Z.to_nat n) tl)).
    assert (Hd : ∀ k, drop (Z.to_nat (br_pos r + Z.of_nat k)) (br_data r) = drop k tl).
    { intros k. unfold tl. rewrite drop_drop. f_equal. lia. }
    rewrite Hd. rewrite length_take. split_and!; try lia.
    + destruct (decide (Z.to_nat n ≤ length tl)%nat).
      * by rewrite Nat.min_l.
      * rewrite Nat.min_r by lia. by rewrite !take_ge by lia.
    + done.
    + done.
    + intros. apply nil_length_inv. lia.
  - rewrite Hfr by (unfold bufio_size; lia).
    set (fill := take (Z.to_nat bufio_size) tl).
    set (k := Z.to_nat (Z.min n (Zlen fill))).
    assert (Hd : drop (Z.to_nat (br_pos r + Zlen fill)) (br_data r) = drop (length fill) tl).
    { unfold tl. rewrite drop_drop. f_equal. lia. }
    assert (Hfill : tl = fill ++ drop (length fill) tl).
    { unfold fill. rewrite length_take.
      destruct (decide (Z.to_nat bufio_size ≤ length tl)%nat).
      - rewrite Nat.min_l by lia. by rewrite take_drop.
      - rewrite Nat.min_r by lia. rewrite take_ge, drop_ge, app_nil_r by lia. done. }
    assert (Hk : (k ≤ length fill)%nat) by (unfold k; lia).
    exists k. rewrite Hd. split_and!; try lia.
    + rewrite Hfill at 1. rewrite take_app_le by lia. done.
    + rewrite Hfill at 2. rewrite drop_app_le by lia. done.
    + done.
    + rewrite Hfill, length_app. lia.
    + intros Hk0. apply nil_length_inv. unfold k in Hk0.
      assert (length fill = 0%nat) as Hf0 by lia. unfold fill in Hf0.
      rewrite length_take in Hf0. unfold bufio_size in Hf0. lia.
  - set (k := Z.to_nat (Z.min n (Zlen (br_buf r)))).
    assert (Hk : (k ≤ length (br_buf r))%nat) by (unfold k; lia).
    exists k. split_and!; try lia.
    + by rewrite take_app_le by lia.
    + by rewrite drop_app_le by lia.
    + done.
    + rewrite length_app. lia.
    + intros Hk0. destruct (br_buf r); [done|]. unfold k in Hk0. cbn [length] in Hk0. lia.
Qed.

Lemma read_full_loop_spec fuel r n acc :
  reader_wf r → 0 ≤ n → (length (br_rest r) < fuel)%nat →
  let '(res, r') := read_full_loop fuel r n acc in
  reader_wf r' ∧ br_data r' = br_data r ∧
  br_rest r' = drop (Z.to_nat (Z.min n (Zlen (br_rest r)))) (br_rest r) ∧
  res = if n <=? Zlen (br_rest r) then ReadOk (acc ++ take (Z.to_nat n) (br_rest r))
        else if decide (acc ++ br_rest r = []) then ReadEOF else ReadUnexpectedEOF.
Proof.
  revert r n acc. induction fuel as [|fuel IH]; intros r n acc Hwf Hn Hf; [lia|].
  cbn [read_full_loop]. destruct (n <=? 0) eqn:Hn0; zb.
  - assert (n = 0) as -> by lia. rewrite Z.min_l by lia. simpl.
    rewrite (proj2 (Z.leb_le _ _)) by lia. by rewrite app_nil_r.
  - destruct (bufio_Read r n) as [chunk r1] eqn:Hread.
    destruct (bufio_Read_spec r n chunk r1) as (k & -> & Hrest & Hdata & Hwf1 & Hk & Hkn & Hk0);
      [done|lia|done|].
    case_decide as Hchunk.
    + assert (Hnil : br_rest r = []).
      { destruct k; [by apply Hk0|]. by destruct (br_rest r). }
      rewrite Hrest, Hnil, !drop_nil. simpl. rewrite app_nil_r.
      split_and!; try done.
      by rewrite (proj2 (Z.leb_gt _ _)) by lia.
    + assert (Hlen : length (take k (br_rest r)) = k) by (rewrite length_take; lia).
      assert (k ≠ 0%nat) by (intros ->; done).
      assert (Hlr1 : length (br_rest r1) = (length (br_rest r) - k)%nat)
        by (rewrite Hrest, length_drop; lia).
      specialize (IH r1 (n - Zlen (take k (br_rest r))) (acc ++ take k (br_rest r))).
      rewrite Hlen in IH. rewrite Hlen.
      destruct (read_full_loop fuel r1 (n - Z.of_nat k) (acc ++ take k (br_rest r)))
        as [res r2].
      destruct IH as (Hwf2 & Hd2 & Hrest2 & Hres); [done|lia|lia|].
      rewrite Hlr1, Hrest in Hrest2, Hres. rewrite drop_drop in Hrest2.
      split_and!; [done|congruence| |].
      * rewrite Hrest2. f_equal. lia.
      * rewrite Hres, <- !(assoc_L (++)), take_drop.
        destruct (n <=? Zlen (br_rest r)) eqn:Hle; zb.
        -- rewrite (proj2 (Z.leb_le _ _)) by lia. do 2 f_equal.
           replace (Z.to_nat n) with (k + Z.to_nat (n - Z.of_nat k))%nat by lia.
           by rewrite <- take_take_drop.
        -- by rewrite (proj2 (Z.leb_gt _ _)) by lia.
Qed.

Lemma io_ReadFull_spec r n :
  reader_wf r → 0 ≤ n →
  let '(res, r') := io_ReadFull r n in
  reader_wf r' ∧ br_data r' = br_data r ∧
  br_rest r' = drop (Z.to_nat (Z.min n (Zlen (br_rest r)))) (br_rest r) ∧
  res = if n <=? Zlen (br_rest r) then ReadOk (take (Z.to_nat n) (br_rest r))
        else if decide (br_rest r = []) then ReadEOF else ReadUnexpectedEOF.
Proof.
  intros Hwf Hn.
  apply (read_full_loop_spec (S (length (br_data r) + length (br_buf r))) r n []); [done|done|].
  unfold br_rest. rewrite length_app, length_drop. lia.
Qed.

(** The read either succeeds with exactly the next [n] bytes ... *)
Lemma io_ReadFull_ok r n p rest :
  reader_wf r → Zlen p = n → br_rest r = p ++ rest →
  ∃ r', io_ReadFull r n = (ReadOk p, r') ∧ reader_wf r' ∧ br_data r' = br_data r ∧
        br_rest r' = rest.
Proof.
  intros Hwf Hp Hrest. pose proof (io_ReadFull_spec r n Hwf ltac:(lia)) as H.
  destruct (io_ReadFull r n) as [res r']. destruct H as (Hwf' & Hd & Hr & ->).
  exists r'. rewrite Hrest in Hr |- *. rewrite length_app in Hr |- *.
  rewrite (proj2 (Z.leb_le _ _)) by lia.
  split_and!; auto.
  - do 2 f_equal. rewrite take_app_le by lia. apply take_ge. lia.
  - rewrite Hr, Z.min_l by lia. apply drop_app_length'. lia.
Qed.

(** ... or runs out of bytes. *)
Lemma io_ReadFull_short r n :
  reader_wf r → Zlen (br_rest r) < n →
  ∃ r', io_ReadFull r n =
    (if decide (br_rest r = []) then ReadEOF else ReadUnexpectedEOF, r') ∧
    br_data r' = br_data r ∧ reader_wf r' ∧ br_rest r' = [].
Proof.
  intros Hwf Hlt. pose proof (io_ReadFull_spec r n Hwf ltac:(lia)) as H.
  destruct (io_ReadFull r n) as [res r']. destruct H as (Hwf' & Hd & Hr & ->).
  exists r'. rewrite (proj2 (Z.leb_gt _ _)) by lia. split_and!; auto.
  rewrite Hr, drop_ge; [done|lia].
Qed.

(** ** Records *)

Definition record_body (msg : Message) : list byte :=
  bytes_of_string (Topic msg) ++ Payload msg.

Definition record_head (msg : Message) : list byte :=
  record_header msg (Zlen (bytes_of_string (Topic msg))) (Zlen (Payload msg)).

(** The bytes one message occupies in the log. *)
Definition record_bytes (msg : Message) : list byte :=
  record_head msg ++ record_body msg ++
  le_put 4 (crc32 (record_head msg ++ record_body msg)).

#[global] Arguments record_bytes : simpl never.
#[global] Arguments record_head : simpl never.
#[global] Arguments record_body : simpl never.

(** What the log keeps of a message: everything but its [Type]. *)
Definition stored (msg : Message) : Message :=
  mkMessage (Sequence msg) (Timestamp msg) (Topic msg) "" (Payload msg).

(** The messages whose fields fit the header. *)
Record msg_ok (msg : Message) : Prop := {
  ok_seq : in_u64 (Sequence msg);
  ok_ts : in_i64 (Timestamp msg);
  ok_topic : Zlen (bytes_of_string (Topic msg)) ≤ 65535;
  ok_payload : Zlen (Payload msg) < 2 ^ 32;
}.

Definition hd_topicLen (h : list byte) : Z := le_get (take 2 (drop 16 h)).
Definition hd_payloadLen (h : list byte) : Z := le_get (take 4 (drop 18 h)).

Lemma length_record_head msg : length (record_head msg) = 22%nat.
Proof.
  unfold record_head, record_header. rewrite !length_app, !length_le_put. lia.
Qed.

Lemma length_record_bytes msg :
  Zlen (record_bytes msg) =
  22 + Zlen (bytes_of_string (Topic msg)) + Zlen (Payload msg) + 4.
Proof.
  unfold record_bytes, record_body.
  rewrite !length_app, length_record_head, length_le_put. lia.
Qed.

(** Reading the header's fields back. *)
Lemma record_head_fields msg :
  msg_ok msg →
  le_get (take 8 (record_head msg)) = Sequence msg ∧
  i64 (le_get (take 8 (drop 8 (record_head msg)))) = Timestamp msg ∧
  hd_topicLen (record_head msg) = Zlen (bytes_of_string (Topic msg)) ∧
  hd_payloadLen (record_head msg) = Zlen (Payload msg).
Proof.
  intros [Hs Ht Hto Hp].
  unfold hd_topicLen, hd_payloadLen, record_head, record_header.
  assert (Hcut : ∀ n (l k : list byte), length l = n → take n (l ++ k) = l)
    by (intros ? l k <-; apply take_app_length).
  assert (Hskip : ∀ n (l k : list byte), length l = n → drop n (l ++ k) = k)
    by (intros ? l k <-; apply drop_app_length).
  set (a := le_put 8 (Sequence msg)). set (b := le_put 8 (u64 (Timestamp msg))).
  set (c := le_put 2 _). set (d := le_put 4 _).
  assert (length a = 8%nat ∧ length b = 8%nat ∧ length c = 2%nat ∧ length d = 4%nat)
    as (Ha & Hb & Hc & Hd) by (unfold a, b, c, d; rewrite !length_le_put; done).
  split_and!.
  - rewrite Hcut by done. unfold a. rewrite le_get_put. by apply u64_small.
  - rewrite Hskip, Hcut by done. unfold b. rewrite le_get_put.
    change (2 ^ (8 * Z.of_nat 8)) with (2 ^ 64). fold (u64 (u64 (Timestamp msg))).
    rewrite (u64_small (u64 _)) by apply u64_range. by apply i64_u64.
  - change (drop 16 (a ++ b ++ c ++ d)) with (drop (8 + 8) (a ++ b ++ c ++ d)).
    rewrite <- drop_drop, !Hskip, Hcut by done. unfold c. rewrite le_get_put.
    unfold u16. rewrite Z.mod_mod by done. apply Z.mod_small. lia.
  - change (drop 18 (a ++ b ++ c ++ d)) with (drop (8 + (8 + 2)) (a ++ b ++ c ++ d)).
    rewrite <- !drop_drop, !Hskip by done. rewrite take_ge by lia.
    unfold d. rewrite le_get_put. unfold u32. rewrite Z.mod_mod by done.
    apply Z.mod_small. lia.
Qed.

(** ** LogReader.Next on a framed record *)

(** What the reader returns once header, body and checksum have been read. *)
Definition decode_frame (h s c : list byte) : result Message WalError :=
  if crc32 (h ++ s) =? le_get c then
    Ok (mkMessage (le_get (take 8 h)) (i64 (le_get (take 8 (drop 8 h))))
          (if 0 <? hd_topicLen h then string_of_bytes (take (Z.to_nat (hd_topicLen h)) s) else "")
          "" (if 0 <? hd_payloadLen h then drop (Z.to_nat (hd_topicLen h)) s else []))
  else Err ErrCorruptedTail.

Lemma hd_lens_nonneg h : 0 ≤ hd_topicLen h ∧ 0 ≤ hd_payloadLen h.
Proof. split; apply le_get_range. Qed.

Lemma read_body r s rest n :
  reader_wf r → Zlen s = n → br_rest r = s ++ rest →
  ∃ r', (if 0 <? n then io_ReadFull r n else (ReadOk [], r)) = (ReadOk s, r') ∧
        reader_wf r' ∧ br_data r' = br_data r ∧ br_rest r' = rest.
Proof.
  intros Hwf Hs Hrest. case_if; [by apply io_ReadFull_ok|].
  destruct s; [|cbn [length] in *; lia]. by exists r.
Qed.

Lemma LogReader_Next_frame r h s c rest :
  reader_wf r → length h = 22%nat → Zlen s = hd_topicLen h + hd_payloadLen h →
  length c = 4%nat → br_rest r = h ++ s ++ c ++ rest →
  ∃ r', LogReader_Next r = (decode_frame h s c, r') ∧ reader_wf r' ∧
        br_data r' = br_data r ∧ br_rest r' = rest.
Proof.
  intros Hwf Hh Hs Hc Hrest. unfold LogReader_Next.
  destruct (io_ReadFull_ok r 22 h (s ++ c ++ rest)) as (r1 & -> & Hwf1 & Hd1 & Hr1);
    [done|lia|done|].
  fold (hd_topicLen h) (hd_payloadLen h).
  destruct (read_body r1 s (c ++ rest) _ Hwf1 Hs Hr1) as (r2 & -> & Hwf2 & Hd2 & Hr2).
  destruct (io_ReadFull_ok r2 4 c rest) as (r3 & -> & Hwf3 & Hd3 & Hr3);
    [done|lia|done|].
  exists r3. split_and!; try congruence. unfold decode_frame.
  assert (Hcrc : (if 0 <? hd_topicLen h + hd_payloadLen h
                  then crc32_update (crc32_update 0 h) s else crc32_update 0 h)
                 = crc32 (h ++ s)).
  { unfold crc32. rewrite <- crc32_update_app. case_if; [done|].
    destruct s; [by rewrite crc32_update_nil|cbn [length] in *; lia]. }
  rewrite Hcrc. by destruct (crc32 (h ++ s) =? le_get c).
Qed.

Lemma decode_record msg :
  msg_ok msg →
  decode_frame (record_head msg) (record_body msg)
    (le_put 4 (crc32 (record_head msg ++ record_body msg))) = Ok (stored msg).
Proof.
  intros Hok. destruct (record_head_fields msg Hok) as (Hs & Ht & Hto & Hp).
  unfold decode_frame. rewrite Hs, Ht, Hto, Hp, le_get_put.
  change (8 * Z.of_nat 4) with 32. fold (u32 (crc32 (record_head msg ++ record_body msg))).
  rewrite (u32_small _ (crc32_range _)), Z.eqb_refl. unfold stored, record_body.
  rewrite !Nat2Z.id, take_app_length, drop_app_length, string_of_bytes_of_string.
  do 2 f_equal.
  - case_if; [done|]. destruct (Topic msg); [done|].
    unfold bytes_of_string in *. simpl in *. lia.
  - case_if; [done|]. by destruct (Payload msg).
Qed.

Lemma record_body_len msg :
  msg_ok msg →
  Zlen (record_body msg) = hd_topicLen (record_head msg) + hd_payloadLen (record_head msg).
Proof.
  intros Hok. destruct (record_head_fields msg Hok) as (_ & _ & -> & ->).
  unfold record_body. rewrite length_app. lia.
Qed.

Lemma LogReader_Next_record r msg rest :
  reader_wf r → msg_ok msg → br_rest r = record_bytes msg ++ rest →
  ∃ r', LogReader_Next r = (Ok (stored msg), r') ∧ reader_wf r' ∧
        br_data r' = br_data r ∧ br_rest r' = rest.
Proof.
  intros Hwf Hok Hrest. rewrite <- (decode_record msg Hok).
  apply (LogReader_Next_frame r _ _ _ rest);
    [done|apply length_record_head|by apply record_body_len|apply length_le_put|].
  rewrite Hrest. unfold record_bytes. by rewrite <- !(assoc_L (++)).
Qed.

Lemma LogReader_Next_eof r :
  reader_wf r → br_rest r = [] →
  ∃ r', LogReader_Next r = (Err EOF, r') ∧ reader_wf r' ∧
        br_data r' = br_data r ∧ br_rest r' = [].
Proof.
  intros Hwf Hr. unfold LogReader_Next.
  destruct (io_ReadFull_short r 22) as (r' & -> & Hd & Hwf' & Hr'); [done|rewrite Hr; simpl; lia|].
  rewrite decide_True by done. by exists r'.
Qed.

(** A record cut short: every proper, non-empty prefix is a corrupted tail. *)
Lemma LogReader_Next_torn r msg k :
  reader_wf r → msg_ok msg → (0 < k < length (record_bytes msg))%nat →
  br_rest r = take k (record_bytes msg) →
  ∃ r', LogReader_Next r = (Err ErrCorruptedTail, r').
Proof.
  intros Hwf Hok Hk Hrest. unfold LogReader_Next.
  assert (Hlr : length (br_rest r) = k) by (rewrite Hrest, length_take; lia).
  assert (Hne : br_rest r ≠ []) by (intros E; rewrite E in Hlr; simpl in Hlr; lia).
  pose proof (length_record_head msg) as Hlh.
  destruct (decide (k < 22)%nat).
  { destruct (io_ReadFull_short r 22) as (r' & -> & _); [done|lia|].
    rewrite decide_False by done. by exists r'. }
  unfold record_bytes in Hrest. rewrite take_app_length_le, Hlh in Hrest by lia.
  destruct (io_ReadFull_ok r 22 _ _ Hwf (f_equal Z.of_nat Hlh) Hrest)
    as (r1 & -> & Hwf1 & _ & Hr1).
  fold (hd_topicLen (record_head msg)) (hd_payloadLen (record_head msg)).
  pose proof (record_body_len msg Hok) as Hlb. rewrite <- Hlb.
  set (crcb := le_put 4 _) in *.
  assert (length crcb = 4%nat) as Hlc by apply length_le_put.
  unfold record_bytes in Hk. fold crcb in Hk. rewrite !length_app, Hlh, Hlc in Hk.
  destruct (decide (k - 22 < length (record_body msg))%nat).
  { assert (Hl1 : Zlen (br_rest r1) < Zlen (record_body msg)).
    { rewrite Hr1, length_take, length_app. lia. }
    rewrite (proj2 (Z.ltb_lt _ _)) by lia.
    destruct (io_ReadFull_short r1 _ Hwf1 Hl1) as (r' & -> & _).
    exists r'. by case_decide. }
  rewrite take_app_length_le in Hr1 by lia.
  destruct (read_body r1 (record_body msg) _ _ Hwf1 eq_refl Hr1)
    as (r2 & -> & Hwf2 & _ & Hr2).
  assert (Hl2 : Zlen (br_rest r2) < 4) by (rewrite Hr2, length_take; lia).
  destruct (io_ReadFull_short r2 4 Hwf2 Hl2) as (r' & -> & _).
  exists r'. by case_decide.
Qed.

(** ** Writing *)

Lemma LogWriter_Append_spec w msg :
  Zlen (bytes_of_string (Topic msg)) ≤ 65535 →
  ∃ w', LogWriter_Append w msg = (w', Ok (Zlen (record_bytes msg))) ∧
        lw_bytes w' = lw_bytes w ++ record_bytes msg ∧
        lw_file w `prefix_of` lw_file w'.
Proof.
  intros Ht. unfold LogWriter_Append. rewrite (proj2 (Z.ltb_ge _ _)) by done.
  rewrite length_record_bytes. eexists. split_and!; [reflexivity| |].
  - assert (Hskip : ∀ (w : LogWriter) (p : list byte),
      lw_bytes (if 0 <? Zlen p then bufio_Write w p else w) = lw_bytes w ++ p).
    { intros w1 p. case_if; [apply bufio_Write_bytes|].
      destruct p; [by rewrite app_nil_r|cbn [length] in *; lia]. }
    rewrite bufio_Write_bytes, !Hskip, bufio_Write_bytes.
    unfold record_bytes, record_body. fold (record_head msg).
    rewrite <- !(assoc_L (++)). do 4 f_equal. unfold crc32. f_equal.
    rewrite <- !crc32_update_app.
    repeat case_if; try done;
      repeat match goal with H : Zlen ?p ≤ 0 |- _ =>
        let E := fresh in assert (p = []) as E by (apply nil_length_inv; lia);
        rewrite E in *; clear H end;
      by rewrite ?crc32_update_nil.
  - etrans; [|apply bufio_Write_file].
    repeat case_if; repeat (etrans; [|apply bufio_Write_file]); done.
Qed.

(** A loop of appends that stops at the first error. *)
Fixpoint append_all (w : LogWriter) (ms : list Message) : LogWriter :=
  match ms with
  | [] => w
  | m :: ms => append_all (fst (LogWriter_Append w m)) ms
  end.

Definition log_bytes (ms : list Message) : list byte := concat (map record_bytes ms).

Lemma append_all_bytes w ms :
  Forall msg_ok ms → lw_bytes (append_all w ms) = lw_bytes w ++ log_bytes ms.
Proof.
  intros Hok. revert w. induction Hok as [|m ms Hm _ IH]; intros w; simpl.
  - by rewrite app_nil_r.
  - destruct (LogWriter_Append_spec w m (ok_topic _ Hm)) as (w' & -> & Hb & _).
    cbn [fst]. rewrite IH, Hb. unfold log_bytes. cbn [map concat].
    by rewrite <- (assoc_L (++)).
Qed.

(** ** Scanning: the read loop every consumer of a segment runs *)

Fixpoint LogReader_drain (fuel : nat) (r : LogReader) : list Message * WalError :=
  match fuel with
  | O => ([], EOF)
  | S fuel =>
      match LogReader_Next r with
      | (Ok m, r) => let '(ms, e) := LogReader_drain fuel r in (m :: ms, e)
      | (Err e, _) => ([], e)
      end
  end.

(** A record is never empty, so the number of bytes bounds the number of reads. *)
Definition scan (contents : list byte) : list Message * WalError :=
  LogReader_drain (S (length contents)) (NewReader contents).

Lemma NewReader_wf l : reader_wf (NewReader l).
Proof. unfold reader_wf. simpl. lia. Qed.

Lemma NewReader_rest l : br_rest (NewReader l) = l.
Proof. done. Qed.

Lemma LogReader_drain_torn fuel r ms k :
  Forall msg_ok ms → reader_wf r → br_rest r = take k (log_bytes ms) → (k < fuel)%nat →
  (k ≤ length (log_bytes ms))%nat →
  ∃ n, (n ≤ length ms)%nat ∧ (length (log_bytes (take n ms)) ≤ k)%nat ∧
       ((n < length ms)%nat → (k < length (log_bytes (take (S n) ms)))%nat) ∧
       LogReader_drain fuel r =
         (map stored (take n ms),
          if decide (length (log_bytes (take n ms)) = k) then EOF else ErrCorruptedTail).
Proof.
  intros Hok. revert fuel r k. induction Hok as [|m ms Hm Hms IH]; intros fuel r k Hwf Hr Hf Hk;
    (destruct fuel as [|fuel]; [lia|]); cbn [LogReader_drain].
  - exists 0%nat. simpl in *. assert (k = 0%nat) by (unfold log_bytes in *; simpl in *; lia).
    subst. destruct (LogReader_Next_eof r) as (r' & -> & _); [done|done|].
    split_and!; try done; lia.
  - unfold log_bytes in Hr, Hk. cbn [map concat] in Hr, Hk. fold (log_bytes ms) in Hr, Hk.
    destruct (decide (k < length (record_bytes m))%nat) as [?|?].
    + exists 0%nat. rewrite take_app_le in Hr by lia.
      destruct (decide (k = 0%nat)) as [->|].
      * destruct (LogReader_Next_eof r) as (r' & -> & _); [done|done|].
        unfold log_bytes. cbn [take map concat length]. rewrite app_nil_r.
        split_and!; try done; lia.
      * destruct (LogReader_Next_torn r m k Hwf Hm ltac:(lia) Hr) as (r' & ->).
        unfold log_bytes. cbn [take map concat length]. rewrite app_nil_r.
        split_and!; try lia. by rewrite decide_False by lia.
    + rewrite take_app_length_le in Hr by lia.
      destruct (LogReader_Next_record r m _ Hwf Hm Hr) as (r' & -> & Hwf' & _ & Hr').
      pose proof (length_record_bytes m).
      rewrite length_app in Hk.
      destruct (IH fuel r' (k - length (record_bytes m))%nat) as (n0 & Hn & Hle & Hlt & ->);
        [done|done|lia|lia|].
      exists (S n0). unfold log_bytes in *. cbn [take map concat length] in *.
      rewrite !length_app in *. split_and!; try lia.
      do 2 f_equal. apply decide_ext. lia.
Qed.


(** C2: a crash never yields a wrong message. Whatever prefix of the bytes handed
    to the writer survives (flushed or not at the time of the crash), the scan of
    the file returns a prefix of the appended messages: exactly the records that
    survive whole, followed by end of file at a record boundary and
    [ErrCorruptedTail] anywhere else. *)
Theorem wal_torn_tail ms k :
  Forall msg_ok ms →
  let file := lw_file (LogWriter_Sync (append_all (NewWriter []) ms)) in
  (k ≤ length file)%nat →
  ∃ n, (n ≤ length ms)%nat ∧ (length (log_bytes (take n ms)) ≤ k)%nat ∧
       ((n < length ms)%nat → (k < length (log_bytes (take (S n) ms)))%nat) ∧
       scan (take k file) =
         (map stored (take n ms),
          if decide (length (log_bytes (take n ms)) = k) then EOF else ErrCorruptedTail).
Proof.
  intros Hok file Hk.
  assert (Hb : file = log_bytes ms).
  { change (lw_bytes (append_all (NewWriter []) ms) = log_bytes ms).
    by rewrite append_all_bytes. }
  unfold scan. rewrite Hb in *. apply LogReader_drain_torn; auto.
  - apply NewReader_wf.
  - rewrite length_take. lia.
Qed.

(** ** Corruption *)

Lemma le_put_get_insert n v i b b' :
  le_put n v !! i = Some b → b' ≠ b → 0 ≤ v < 2 ^ (8 * Z.of_nat n) →
  le_get (<[i:=b']> (le_put n v)) ≠ v.
Proof.
  intros Hi Hne Hv Heq.
  assert (Hg : le_get (le_put n v) = v) by (rewrite le_get_put; apply Z.mod_small; lia).
  rewrite <- Hg in Heq at 2. apply le_get_inj in Heq; [|by rewrite length_insert].
  assert (Hl : (i < length (le_put n v))%nat) by (by eapply lookup_lt_Some).
  apply (f_equal (lookup i)) in Heq.
  rewrite list_lookup_insert_eq in Heq by done. congruence.
Qed.

Lemma crc32_insert (l : list byte) i b b' :
  l !! i = Some b → b' ≠ b → crc32 (<[i:=b']> l) ≠ crc32 l.
Proof.
  intros Hi Hne. assert (Hl : (i < length l)%nat) by (by eapply lookup_lt_Some).
  rewrite insert_take_drop by done.
  rewrite <- (take_drop_middle l i b Hi) at 3. by apply crc32_single_byte.
Qed.

Lemma hd_lens_insert h i b :
  (i < 16)%nat →
  hd_topicLen (<[i:=b]> h) = hd_topicLen h ∧ hd_payloadLen (<[i:=b]> h) = hd_payloadLen h.
Proof.
  intros Hi. unfold hd_topicLen, hd_payloadLen. by rewrite !drop_insert_lt by lia.
Qed.

(** C28: the checksum catches every single-byte corruption of a record outside
    its two length fields: if one byte of the sequence, timestamp, topic, payload
    or checksum differs from what was written, [Next] answers [ErrCorruptedTail]
    and never a message. *)
Theorem wal_detects_corruption r msg i b' rest :
  reader_wf r → msg_ok msg → (i < length (record_bytes msg))%nat →
  ¬ (16 ≤ i < 22)%nat → record_bytes msg !! i ≠ Some b' →
  br_rest r = <[i:=b']> (record_bytes msg) ++ rest →
  fst (LogReader_Next r) = Err ErrCorruptedTail.
Proof.
  intros Hwf Hok Hi Hlens Hne Hrest.
  pose proof (length_record_head msg) as Hh. pose proof (record_body_len msg Hok) as Hb.
  destruct (lookup_lt_is_Some_2 _ _ Hi) as [b Hib]. rewrite Hib in Hne.
  assert (Hne' : b' ≠ b) by congruence. clear Hne.
  set (h := record_head msg) in *. set (s := record_body msg) in *.
  set (c := le_put 4 (crc32 (h ++ s))).
  assert (Hrec : record_bytes msg = (h ++ s) ++ c) by (unfold record_bytes; by rewrite (assoc_L (++))).
  assert (Hc : length c = 4%nat) by apply length_le_put.
  assert (Hgc : le_get c = crc32 (h ++ s)).
  { unfold c. rewrite le_get_put. apply u32_small, crc32_range. }
  rewrite Hrec in Hib, Hrest.
  assert (Hframe : ∃ h' s' c', br_rest r = h' ++ s' ++ c' ++ rest ∧ length h' = 22%nat ∧
    Zlen s' = hd_topicLen h' + hd_payloadLen h' ∧ length c' = 4%nat ∧
    crc32 (h' ++ s') ≠ le_get c').
  { rewrite Hrest. destruct (decide (i < length (h ++ s))%nat) as [Hhs|Hhs].
    - rewrite insert_app_l by done. rewrite lookup_app_l in Hib by done.
      pose proof (crc32_insert _ _ _ _ Hib Hne') as Hcrc.
      destruct (decide (i < 22)%nat).
      + rewrite insert_app_l in Hcrc |- * by lia. exists (<[i:=b']> h), s, c.
        destruct (hd_lens_insert h i b') as [-> ->]; [lia|].
        rewrite length_insert, Hgc. split_and!; auto. by rewrite <- !(assoc_L (++)).
      + rewrite insert_app_r_alt in Hcrc |- * by lia.
        exists h, (<[(i - length h)%nat:=b']> s), c.
        rewrite length_insert, Hgc. split_and!; auto. by rewrite <- !(assoc_L (++)).
    - rewrite insert_app_r_alt by lia. rewrite lookup_app_r in Hib by lia.
      exists h, s, (<[(i - length (h ++ s))%nat:=b']> c).
      rewrite length_insert. split_and!; auto; [by rewrite <- !(assoc_L (++))|].
      apply not_eq_sym. unfold c. eapply le_put_get_insert; [exact Hib|done|].
      apply (crc32_range (h ++ s)). }
  destruct Hframe as (h' & s' & c' & Hr & Hh' & Hs' & Hc' & Hcrc).
  destruct (LogReader_Next_frame r h' s' c' rest) as (r' & -> & _); auto.
  simpl. unfold decode_frame. by rewrite (proj2 (Z.eqb_neq _ _)).
Qed.

(** ** Concrete records *)

Definition rec_a : Message := mkMessage 7 (-1) "BTC-USD" "trade" (bytes_of_string "{1}").
Definition rec_b : Message := mkMessage 8 1700000000 "" "" [].

Lemma rec_ab_ok : Forall msg_ok [rec_a; rec_b].
Proof. repeat constructor; simpl; go_lia. Qed.


(** A crash that leaves 40 of the 62 bytes of two records. *)
Lemma wal_torn_tail_witness :
  ∃ n, (n ≤ 2)%nat ∧
    fst (scan (take 40 (lw_file (LogWriter_Sync (append_all (NewWriter []) [rec_a; rec_b])))))
      = map stored (take n [rec_a; rec_b]).
Proof.
  destruct (wal_torn_tail [rec_a; rec_b] 40 rec_ab_ok) as (n & Hn & _ & _ & Hs);
    [vm_compute; lia|].
  exists n. rewrite Hs. exact (conj Hn eq_refl).
Defined.

(** The first byte of the topic is overwritten. *)
Lemma wal_detects_corruption_witness :
  fst (LogReader_Next (NewReader (<[22%nat:=Byte.x00]> (record_bytes rec_a)))) =
    Err ErrCorruptedTail.
Proof.
  apply (wal_detects_corruption _ rec_a 22 Byte.x00 []).
  - apply NewReader_wf.
  - repeat constructor; simpl; go_lia.
  - vm_compute. lia.
  - lia.
  - vm_compute. discriminate.
  - rewrite NewReader_rest. by rewrite app_nil_r.
Defined.
