(* ===== verification/WalIndex.v ===== *)
(** * WalIndex: the sparse index of a segment

    [internal/wal/index.go]: a file of 16-byte entries (sequence, byte offset),
    [Append], the binary search [Lookup] and [truncateAfter]. The file is a byte
    list, as on disk; [index_repr] relates it to the list of entries it encodes,
    and the theorems state the operations on that list. *)

From S2P Require Import Prelude Bytes WalCodec.

Record IndexEntry := mkIndexEntry {
  ie_Sequence : Z;   (* uint64 *)
  ie_Offset : Z;     (* uint64 *)
}.

#[global] Instance IndexEntry_eq_dec : EqDecision IndexEntry.
Proof. solve_decision. Defined.

Record IndexFile := mkIndexFile {
  ix_data : list byte;
  ix_size : Z;
}.

(** [NewIndexFile]: opens (or creates) the file and takes its size. *)
Definition NewIndexFile (contents : list byte) : IndexFile :=
  mkIndexFile contents (Zlen contents).

(** [Append]: the file is opened with O_APPEND, so the write goes to its end. *)
Definition IndexFile_Append (idx : IndexFile) (seq offset : Z) : IndexFile :=
  let buf := le_put 8 seq ++ le_put 8 offset in
  mkIndexFile (ix_data idx ++ buf) (ix_size idx + 16).

(** [file.ReadAt(buf[:], offset)] for the 16-byte buffer, decoded; [None] when
    fewer than 16 bytes are there. *)
Definition IndexFile_ReadAt (idx : IndexFile) (offset : Z) : option IndexEntry :=
  if offset + 16 <=? Zlen (ix_data idx) then
    let buf := take 16 (drop (Z.to_nat offset) (ix_data idx)) in
    Some (mkIndexEntry (le_get (take 8 buf)) (le_get (take 8 (drop 8 buf))))
  else None.

(** The loop of [Lookup]. [inl e] is the early return on an exact hit, [inr best]
    the value of [best]/[found] when the loop ends. Each turn shrinks
    [high - low], so the number of entries bounds the turns. *)
Fixpoint Lookup_loop (fuel : nat) (idx : IndexFile) (targetSeq low high : Z)
    (best : option IndexEntry) : result (IndexEntry + option IndexEntry) WalError :=
  match fuel with
  | O => Ok (inr best)
  | S fuel =>
      if low <=? high then
        let mid := low + (high - low) / 2 in
        match IndexFile_ReadAt idx (mid * 16) with
        | None => Err ErrIndexRead
        | Some e =>
            if ie_Sequence e =? targetSeq then Ok (inl e)
            else if ie_Sequence e <? targetSeq
            then Lookup_loop fuel idx targetSeq (mid + 1) high (Some e)
            else Lookup_loop fuel idx targetSeq low (mid - 1) best
        end
      else Ok (inr best)
  end.

Definition IndexFile_Lookup (idx : IndexFile) (targetSeq : Z) : result IndexEntry WalError :=
  if ix_size idx =? 0 then Err ErrIndexEmpty
  else
    let high := ix_size idx / 16 - 1 in
    match Lookup_loop (S (Z.to_nat (high + 1))) idx targetSeq 0 high None with
    | Err e => Err e
    | Ok (inl e) => Ok e
    | Ok (inr (Some best)) => Ok best
    | Ok (inr None) =>
        (* the target is before the first entry: return the first entry *)
        match IndexFile_ReadAt idx 0 with
        | None => Err ErrIndexRead
        | Some e => Ok e
        end
    end.

(** The scan of [truncateAfter]: counts entries up to the first whose sequence
    exceeds the target. A trailing partial entry is an error
    ([io.ErrUnexpectedEOF] is not [io.EOF]). *)
Fixpoint keep_count (fuel : nat) (data : list byte) (targetSeq : Z) (keep : Z)
    : result Z WalError :=
  match fuel with
  | O => Ok keep
  | S fuel =>
      if decide (data = []) then Ok keep
      else if Zlen data <? 16 then Err ErrIndexRead
      else if targetSeq <? le_get (take 8 data) then Ok keep
      else keep_count fuel (drop 16 data) targetSeq (keep + 1)
  end.

Definition IndexFile_truncateAfter (idx : IndexFile) (targetSeq : Z)
    : result IndexFile WalError :=
  match keep_count (S (length (ix_data idx))) (ix_data idx) targetSeq 0 with
  | Err e => Err e
  | Ok keep =>
      let keepSize := keep * 16 in
      Ok (mkIndexFile (take (Z.to_nat keepSize) (ix_data idx)) keepSize)
  end.

(** ** The entries a file encodes *)

Definition entry_bytes (e : IndexEntry) : list byte :=
  le_put 8 (ie_Sequence e) ++ le_put 8 (ie_Offset e).

Definition index_bytes (es : list IndexEntry) : list byte := concat (map entry_bytes es).

Definition entry_ok (e : IndexEntry) : Prop := in_u64 (ie_Sequence e) ∧ in_u64 (ie_Offset e).

Record index_repr (idx : IndexFile) (es : list IndexEntry) : Prop := {
  repr_data : ix_data idx = index_bytes es;
  repr_size : ix_size idx = 16 * Zlen es;
  repr_ok : Forall entry_ok es;
}.

Lemma length_entry_bytes e : length (entry_bytes e) = 16%nat.
Proof. unfold entry_bytes. by rewrite length_app, !length_le_put. Qed.

Lemma length_index_bytes es : length (index_bytes es) = (16 * length es)%nat.
Proof.
  induction es as [|e es IH]; [done|]. unfold index_bytes in *. cbn [map concat].
  rewrite length_app, length_entry_bytes, IH. cbn [length]. lia.
Qed.

Lemma index_bytes_app es1 es2 : index_bytes (es1 ++ es2) = index_bytes es1 ++ index_bytes es2.
Proof. unfold index_bytes. by rewrite map_app, concat_app. Qed.

Lemma entry_decode e rest :
  entry_ok e →
  le_get (take 8 (entry_bytes e ++ rest)) = ie_Sequence e ∧
  le_get (take 8 (drop 8 (entry_bytes e ++ rest))) = ie_Offset e.
Proof.
  intros [Hs Ho]. unfold entry_bytes. rewrite <- (assoc_L (++)).
  rewrite (take_app_length' _ _ 8), (drop_app_length' _ _ 8) by (by rewrite length_le_put).
  rewrite (take_app_length' _ _ 8) by (by rewrite length_le_put).
  rewrite !le_get_put. change (2 ^ (8 * Z.of_nat 8)) with (2 ^ 64).
  split; by apply u64_small.
Qed.

Lemma NewIndexFile_repr : index_repr (NewIndexFile []) [].
Proof. split; done. Qed.

Lemma IndexFile_Append_repr idx es seq offset :
  index_repr idx es → in_u64 seq → in_u64 offset →
  index_repr (IndexFile_Append idx seq offset) (es ++ [mkIndexEntry seq offset]).
Proof.
  intros [Hd Hs Hok] Hseq Hoff. split; simpl.
  - rewrite index_bytes_app, Hd. unfold index_bytes. cbn [map concat].
    by rewrite app_nil_r.
  - rewrite length_app. simpl. lia.
  - apply Forall_app. split; [done|]. by apply Forall_singleton.
Qed.

Lemma IndexFile_ReadAt_repr idx es i :
  index_repr idx es → 0 ≤ i → IndexFile_ReadAt idx (i * 16) = es !! Z.to_nat i.
Proof.
  intros [Hd _ Hok] Hi. unfold IndexFile_ReadAt. rewrite Hd, length_index_bytes.
  destruct (es !! Z.to_nat i) as [e|] eqn:He.
  - pose proof (lookup_lt_Some _ _ _ He).
    rewrite (proj2 (Z.leb_le _ _)) by lia.
    assert (Hdrop : drop (Z.to_nat (i * 16)) (index_bytes es) =
                    entry_bytes e ++ index_bytes (drop (S (Z.to_nat i)) es)).
    { rewrite <- (take_drop_middle es (Z.to_nat i) e He) at 1.
      rewrite index_bytes_app.
      rewrite drop_app_length'; [done|].
      rewrite length_index_bytes, length_take. lia. }
    rewrite Hdrop, (take_app_length' _ _ 16) by (by rewrite length_entry_bytes).
    assert (entry_ok e) as Hoke by (by eapply Forall_lookup_1).
    pose proof (entry_decode e [] Hoke) as [H1 H2]. rewrite app_nil_r in H1, H2.
    rewrite H1, H2. by destruct e.
  - apply lookup_ge_None_1 in He. by rewrite (proj2 (Z.leb_gt _ _)) by lia.
Qed.

(** ** Lookup finds the floor entry *)

(** Strictly increasing sequence numbers. *)
Definition entries_sorted (es : list IndexEntry) : Prop :=
  ∀ i j ei ej, (i < j)%nat → es !! i = Some ei → es !! j = Some ej →
    ie_Sequence ei < ie_Sequence ej.

(** The last entry at or below [t] of a sorted list. *)
Fixpoint floor_entry (es : list IndexEntry) (t : Z) : option IndexEntry :=
  match es with
  | [] => None
  | e :: es => if ie_Sequence e <=? t then
                 match floor_entry es t with Some e' => Some e' | None => Some e end
               else None
  end.

Lemma entries_sorted_tail e es : entries_sorted (e :: es) → entries_sorted es.
Proof. intros H i j ei ej Hij Hi Hj. apply (H (S i) (S j) ei ej); auto with lia. Qed.

Lemma floor_entry_at es t i e :
  entries_sorted es → es !! i = Some e → ie_Sequence e ≤ t →
  (∀ j ej, (i < j)%nat → es !! j = Some ej → t < ie_Sequence ej) →
  floor_entry es t = Some e.
Proof.
  revert i. induction es as [|e0 es IH]; intros i Hs Hi Hle Hgt; [done|]. simpl.
  destruct i as [|i]; simplify_eq/=.
  - rewrite (proj2 (Z.leb_le _ _)) by done.
    destruct es as [|e1 es]; [done|]. simpl.
    specialize (Hgt 1%nat e1 ltac:(lia) eq_refl).
    by rewrite (proj2 (Z.leb_gt _ _)) by done.
  - assert (ie_Sequence e0 < ie_Sequence e) by (apply (Hs 0%nat (S i)); auto with lia).
    rewrite (proj2 (Z.leb_le _ _)) by lia.
    rewrite (IH i); auto; [by eapply entries_sorted_tail|].
    intros j ej Hj Hej. apply (Hgt (S j)); auto with lia.
Qed.

Lemma floor_entry_none es t e0 :
  es !! 0%nat = Some e0 → t < ie_Sequence e0 → floor_entry es t = None.
Proof. destruct es; intros; simplify_eq/=. by rewrite (proj2 (Z.leb_gt _ _)). Qed.

Section lookup.
Context (idx : IndexFile) (es : list IndexEntry) (t : Z).
Context (Hrepr : index_repr idx es) (Hsorted : entries_sorted es).

(** The loop invariant: [best] is the entry just below [low], and everything
    above [high] exceeds the target. *)
Definition lookup_inv (low high : Z) (best : option IndexEntry) : Prop :=
  0 ≤ low ∧ high < Zlen es ∧ low ≤ high + 1 ∧
  match best with
  | None => low = 0
  | Some e => 0 < low ∧ es !! Z.to_nat (low - 1) = Some e ∧ ie_Sequence e < t
  end ∧
  (∀ j e, high < Z.of_nat j → es !! j = Some e → t < ie_Sequence e).

Lemma Lookup_loop_spec fuel low high best :
  lookup_inv low high best → (Z.to_nat (high - low + 1) < fuel)%nat →
  ∃ res, Lookup_loop fuel idx t low high best = Ok res ∧
    match res with
    | inl e => floor_entry es t = Some e
    | inr best => floor_entry es t = best
    end.
Proof.
  revert low high best. induction fuel as [|fuel IH]; intros low high best Hinv Hf; [lia|].
  destruct Hinv as (Hl & Hh & Hlh & Hbest & Habove). cbn [Lookup_loop].
  destruct (low <=? high) eqn:Hle; zb.
  - set (mid := low + (high - low) / 2).
    assert (Hmid : low ≤ mid ≤ high).
    { unfold mid. pose proof (Z.div_pos (high - low) 2).
      pose proof (Z.div_le_upper_bound (high - low) 2 (high - low)). lia. }
    rewrite (IndexFile_ReadAt_repr idx es) by (done || lia).
    destruct (lookup_lt_is_Some_2 es (Z.to_nat mid)) as [e He]; [lia|]. rewrite He.
    assert (Hmono : ∀ j e', (Z.to_nat mid < j)%nat → es !! j = Some e' →
                     ie_Sequence e < ie_Sequence e') by (intros; eapply Hsorted; eauto).
    destruct (ie_Sequence e =? t) eqn:Heq; zb.
    { eexists. split; [done|]. apply (floor_entry_at es t (Z.to_nat mid)); [done|done|lia|].
      intros j ej Hj Hej. specialize (Hmono j ej Hj Hej). lia. }
    destruct (ie_Sequence e <? t) eqn:Hlt; zb; apply IH; try lia.
    + split_and!; try lia; [|done]. by replace (mid + 1 - 1) with mid by lia.
    + split_and!; try lia; [done|]. intros j ej Hj Hej.
      destruct (decide (Z.of_nat j = mid)) as [Hjm|].
      * replace j with (Z.to_nat mid) in Hej by lia. simplify_eq. lia.
      * specialize (Hmono j ej ltac:(lia) Hej). lia.
  - exists (inr best). split; [done|]. assert (low = high + 1) by lia. subst.
    destruct best as [e|].
    + destruct Hbest as (Hpos & He & Hlt).
      apply (floor_entry_at es t (Z.to_nat (high + 1 - 1))); [done|done|lia|].
      intros j ej Hj Hej. apply (Habove j); [lia|done].
    + destruct es as [|e0 es'] eqn:Hes; [done|].
      apply (floor_entry_none _ _ e0); [done|]. apply (Habove 0%nat); [lia|done].
Qed.
End lookup.

Lemma IndexFile_Lookup_repr idx es e0 t :
  index_repr idx (e0 :: es) → entries_sorted (e0 :: es) →
  IndexFile_Lookup idx t =
    Ok (match floor_entry (e0 :: es) t with Some e => e | None => e0 end).
Proof.
  intros Hr Hs. unfold IndexFile_Lookup. pose proof (repr_size _ _ Hr) as Hsz.
  cbn [length] in Hsz. rewrite (proj2 (Z.eqb_neq _ _)) by lia.
  replace (ix_size idx / 16) with (Zlen (e0 :: es))
    by (rewrite Hsz; cbn [length]; rewrite Z.mul_comm, Z.div_mul; lia).
  destruct (Lookup_loop_spec idx (e0 :: es) t Hr Hs
              (S (Z.to_nat (Zlen (e0 :: es) - 1 + 1))) 0 (Zlen (e0 :: es) - 1) None)
    as (res & -> & Hres).
  - split_and!; try (cbn [length]; lia). intros j e Hj He.
    apply lookup_lt_Some in He. cbn [length] in *. lia.
  - lia.
  - destruct res as [e|[e|]]; rewrite Hres; [done|done|].
    pose proof (IndexFile_ReadAt_repr idx (e0 :: es) 0 Hr ltac:(lia)) as H0.
    change (0 * 16) with 0 in H0. by rewrite H0.
Qed.

(** ** Truncation *)

(** The entries before the first one beyond [t]. *)
Fixpoint keep_until (es : list IndexEntry) (t : Z) : list IndexEntry :=
  match es with
  | [] => []
  | e :: es => if t <? ie_Sequence e then [] else e :: keep_until es t
  end.

Lemma keep_until_prefix es t : keep_until es t `prefix_of` es.
Proof.
  induction es as [|e es IH]; simpl; [done|]. case_if; [apply prefix_nil|].
  by apply prefix_cons.
Qed.

Lemma keep_count_spec fuel es t k :
  Forall entry_ok es → (length es < fuel)%nat →
  keep_count fuel (index_bytes es) t k = Ok (k + Zlen (keep_until es t)).
Proof.
  intros Hok. revert fuel k. induction Hok as [|e es He Hes IH]; intros fuel k Hf;
    (destruct fuel as [|fuel]; [cbn [length] in *; lia|]); cbn [keep_count keep_until].
  - rewrite decide_True by done. f_equal. cbn [length]. lia.
  - unfold index_bytes. cbn [map concat]. fold (index_bytes es).
    destruct (entry_decode e (index_bytes es) He) as [-> _].
    rewrite decide_False; [|intros E%app_nil; destruct E as [E _];
                            by apply (f_equal length) in E; rewrite length_entry_bytes in E].
    rewrite length_app, length_entry_bytes.
    rewrite (proj2 (Z.ltb_ge _ _)) by lia.
    destruct (t <? ie_Sequence e) eqn:Hlt; [f_equal; cbn [length]; lia|].
    rewrite (drop_app_length' _ _ 16) by (by rewrite length_entry_bytes).
    cbn [length] in Hf. rewrite IH by lia. f_equal. cbn [length]. lia.
Qed.

Lemma IndexFile_truncateAfter_repr idx es t :
  index_repr idx es →
  ∃ idx', IndexFile_truncateAfter idx t = Ok idx' ∧ index_repr idx' (keep_until es t).
Proof.
  intros [Hd Hs Hok]. unfold IndexFile_truncateAfter.
  rewrite Hd, keep_count_spec; [|done|rewrite length_index_bytes; lia].
  eexists. split; [done|]. destruct (keep_until_prefix es t) as [rest Hrest].
  split; cbn [ix_data ix_size].
  - rewrite Hrest at 2. rewrite index_bytes_app, take_app_length'; [done|].
    rewrite length_index_bytes. lia.
  - lia.
  - rewrite Hrest, Forall_app in Hok. by destruct Hok.
Qed.

(** ** The index as it is built: a run of appends to a new file *)

Definition index_build (es : list IndexEntry) : IndexFile :=
  fold_left (λ idx e, IndexFile_Append idx (ie_Sequence e) (ie_Offset e)) es (NewIndexFile []).

Lemma index_build_repr es : Forall entry_ok es → index_repr (index_build es) es.
Proof.
  induction es as [|e es IH] using rev_ind; intros Hok; [apply NewIndexFile_repr|].
  apply Forall_app in Hok as [Hes [Hs Ho]%Forall_singleton]. unfold index_build.
  rewrite fold_left_app. simpl. destruct e. apply IndexFile_Append_repr; auto.
Qed.

(** A file is determined by the entries it encodes. *)
Lemma index_repr_unique idx1 idx2 es : index_repr idx1 es → index_repr idx2 es → idx1 = idx2.
Proof. intros [H1 H2 _] [H3 H4 _]. destruct idx1, idx2. simpl in *. congruence. Qed.

Lemma keep_until_sorted es t :
  entries_sorted es → keep_until es t = filter (λ e, ie_Sequence e ≤ t) es.
Proof.
  induction es as [|e es IH]; intros Hs; [done|]. cbn [keep_until].
  case_if.
  - symmetry. apply filter_none. apply Forall_forall. intros e' He'.
    apply list_elem_of_lookup in He' as [i Hi].
    destruct i as [|i]; [simplify_eq/=; lia|].
    specialize (Hs 0%nat (S i) e e' ltac:(lia) eq_refl Hi). lia.
  - rewrite filter_cons_True by lia. f_equal. apply IH. by eapply entries_sorted_tail.
Qed.

(** [Lookup] is the floor search. In an index built by appending entries
    with increasing sequence numbers, the binary search over the file's bytes
    never fails and returns the last entry whose sequence is at most the target,
    or the first entry when the target precedes them all. *)
Lemma index_lookup_floor es e0 t :
  Forall entry_ok (e0 :: es) → entries_sorted (e0 :: es) →
  IndexFile_Lookup (index_build (e0 :: es)) t =
    Ok (match floor_entry (e0 :: es) t with Some e => e | None => e0 end).
Proof. intros Hok Hs. apply IndexFile_Lookup_repr; [by apply index_build_repr|done]. Qed.

(** [truncateAfter] removes exactly the entries beyond the target: the index
    it leaves is byte for byte the one that appending only the entries up to the
    target would have built. *)
Lemma index_truncate es t :
  Forall entry_ok es → entries_sorted es →
  IndexFile_truncateAfter (index_build es) t =
    Ok (index_build (filter (λ e, ie_Sequence e ≤ t) es)).
Proof.
  intros Hok Hs.
  destruct (IndexFile_truncateAfter_repr _ _ t (index_build_repr es Hok)) as (idx & -> & Hr).
  f_equal. rewrite keep_until_sorted in Hr by done.
  eapply index_repr_unique; [exact Hr|]. apply index_build_repr.
  by apply Forall_filter_keep.
Qed.

(** Three entries and the searches between, on and around them. *)
Definition index_example : list IndexEntry :=
  [mkIndexEntry 5 0; mkIndexEntry 40 4096; mkIndexEntry 77 8192].

Lemma index_example_ok : Forall entry_ok index_example.
Proof. repeat constructor; simpl; lia. Qed.

Lemma index_example_sorted : entries_sorted index_example.
Proof.
  intros i j ei ej Hij Hi Hj.
  destruct i as [|[|[|i]]], j as [|[|[|j]]]; simplify_eq/=; lia.
Qed.

Lemma index_lookup_floor_witness :
  IndexFile_Lookup (index_build index_example) 60 = Ok (mkIndexEntry 40 4096).
Proof. exact (index_lookup_floor _ _ 60 index_example_ok index_example_sorted). Defined.

Lemma index_truncate_witness :
  IndexFile_truncateAfter (index_build index_example) 40 =
    Ok (index_build [mkIndexEntry 5 0; mkIndexEntry 40 4096]).
Proof. exact (index_truncate _ 40 index_example_ok index_example_sorted). Defined.
