(* ===== verification/WalSegment.v ===== *)
(** * WalSegment: one log file with its index

    [internal/wal/segment.go]: [OpenSegment], [Append] with the sparse index,
    [ReadAt], [Sync], [Close] and the recovery scan. The invariant [seg_inv]
    ties a segment to the list of messages appended to it; [ReadAt] is shown to
    skip only messages older than the one asked for. *)

From S2P Require Import Prelude Bytes WalCodec WalIndex.

Record segment := mkSegment {
  sg_baseSeq : Z;
  sg_logFile : LogWriter;
  sg_idxFile : IndexFile;
  sg_indexIntervalBytes : Z;
  sg_bytesSinceIndex : Z;
  sg_currentSize : Z;
}.

(** [OpenSegment]: the two files of the base sequence are opened (created empty
    when missing); the current size is the size of the log file. *)
Definition OpenSegment (logContents idxContents : list byte) (baseSeq indexIntervalBytes : Z)
    : segment :=
  mkSegment baseSeq (NewWriter logContents) (NewIndexFile idxContents)
    indexIntervalBytes 0 (Zlen logContents).

Definition segment_Append (s : segment) (msg : Message) : segment * result Z WalError :=
  let offset := u64 (sg_currentSize s) in
  match LogWriter_Append (sg_logFile s) msg with
  | (w, Err e) =>
      (mkSegment (sg_baseSeq s) w (sg_idxFile s) (sg_indexIntervalBytes s)
         (sg_bytesSinceIndex s) (sg_currentSize s), Err e)
  | (w, Ok bytesWritten) =>
      let msgSize := i64 bytesWritten in
      let currentSize := i64 (sg_currentSize s + msgSize) in
      let bytesSinceIndex := i64 (sg_bytesSinceIndex s + msgSize) in
      if (sg_indexIntervalBytes s <=? bytesSinceIndex) || (offset =? 0) then
        (mkSegment (sg_baseSeq s) w (IndexFile_Append (sg_idxFile s) (Sequence msg) offset)
           (sg_indexIntervalBytes s) 0 currentSize, Ok offset)
      else
        (mkSegment (sg_baseSeq s) w (sg_idxFile s) (sg_indexIntervalBytes s)
           bytesSinceIndex currentSize, Ok offset)
  end.

(** [ReadAt]: a fresh reader of the log file (the bytes the operating system
    has, not the user-space buffer) positioned at the indexed offset; the start
    of the file when the index lookup fails. *)
Definition segment_ReadAt (s : segment) (seq : Z) : LogReader :=
  let idxEntry := match IndexFile_Lookup (sg_idxFile s) seq with
                  | Ok e => e
                  | Err _ => mkIndexEntry (sg_baseSeq s) 0
                  end in
  mkLogReader (lw_file (sg_logFile s)) (ie_Offset idxEntry) [].

Definition segment_BaseSequence (s : segment) : Z := sg_baseSeq s.
Definition segment_Size (s : segment) : Z := sg_currentSize s.

Definition segment_Sync (s : segment) : segment :=
  mkSegment (sg_baseSeq s) (LogWriter_Sync (sg_logFile s)) (sg_idxFile s)
    (sg_indexIntervalBytes s) (sg_bytesSinceIndex s) (sg_currentSize s).

(** [Close]: the contents of the two files that stay on disk. *)
Definition segment_Close (s : segment) : list byte * list byte :=
  (LogWriter_Close (sg_logFile s), ix_data (sg_idxFile s)).

(** [file.Truncate(n)]: cuts the file, or extends it with zero bytes. *)
Definition file_Truncate (data : list byte) (n : Z) : list byte :=
  take (Z.to_nat n) data ++ replicate (Z.to_nat n - length data) Byte.x00.

(** The scan of [recover]: [currentOffset] is the position of the reader's file
    descriptor, as [reader.file.Seek(0, SEEK_CUR)] reports it. *)
Fixpoint recover_scan (fuel : nat) (r : LogReader) (lastValidOffset lastValidSequence : Z)
    : result (Z * Z) WalError :=
  match fuel with
  | O => Ok (lastValidOffset, lastValidSequence)
  | S fuel =>
      let currentOffset := br_pos r in
      match LogReader_Next r with
      | (Err EOF, _) | (Err ErrCorruptedTail, _) => Ok (lastValidOffset, lastValidSequence)
      | (Err e, _) => Err e
      | (Ok msg, r) =>
          let msgSize := 22 + Zlen (bytes_of_string (Topic msg)) + Zlen (Payload msg) + 4 in
          recover_scan fuel r (currentOffset + msgSize) (Sequence msg)
      end
  end.

Definition segment_recover (s : segment) : result segment WalError :=
  let w := LogWriter_Sync (sg_logFile s) in
  match recover_scan (S (length (lw_file w))) (NewReader (lw_file w)) 0 0 with
  | Err e => Err e
  | Ok (lastValidOffset, lastValidSequence) =>
      let w := mkLogWriter (file_Truncate (lw_file w) lastValidOffset) [] in
      match IndexFile_truncateAfter (sg_idxFile s) lastValidSequence with
      | Err e => Err e
      | Ok idx =>
          Ok (mkSegment (sg_baseSeq s) w idx (sg_indexIntervalBytes s)
                (sg_bytesSinceIndex s) lastValidOffset)
      end
  end.

(** ** The segment invariant *)

(** Strictly increasing sequence numbers. *)
Definition msgs_sorted (ms : list Message) : Prop :=
  ∀ i j mi mj, (i < j)%nat → ms !! i = Some mi → ms !! j = Some mj →
    Sequence mi < Sequence mj.

(** An index entry points at the record of a message. *)
Definition entry_points (ms : list Message) (e : IndexEntry) : Prop :=
  ∃ i m, ms !! i = Some m ∧ ie_Sequence e = Sequence m ∧
         ie_Offset e = Zlen (log_bytes (take i ms)).

(** The index holds increasing entries that point at messages, the first of
    them at the first message. *)
Definition index_covers (idx : IndexFile) (ms : list Message) : Prop :=
  ∃ es, index_repr idx es ∧ entries_sorted es ∧ Forall (entry_points ms) es ∧
        (∀ m, ms !! 0%nat = Some m → es !! 0%nat = Some (mkIndexEntry (Sequence m) 0)).

Record seg_inv (s : segment) (ms : list Message) : Prop := {
  si_ok : Forall msg_ok ms;
  si_sorted : msgs_sorted ms;
  si_bytes : lw_bytes (sg_logFile s) = log_bytes ms;
  si_size : sg_currentSize s = Zlen (log_bytes ms);
  si_bound : Zlen (log_bytes ms) < 2 ^ 63;
  si_index : index_covers (sg_idxFile s) ms;
}.

Lemma log_bytes_app ms1 ms2 : log_bytes (ms1 ++ ms2) = log_bytes ms1 ++ log_bytes ms2.
Proof. unfold log_bytes. by rewrite map_app, concat_app. Qed.

Lemma log_bytes_single m : log_bytes [m] = record_bytes m.
Proof. unfold log_bytes. cbn [map concat]. apply app_nil_r. Qed.

Lemma entry_points_snoc ms m e : entry_points ms e → entry_points (ms ++ [m]) e.
Proof.
  intros (i & mi & Hi & Hs & Ho). exists i, mi.
  pose proof (lookup_lt_Some _ _ _ Hi).
  split_and!; [by rewrite lookup_app_l|done|]. by rewrite take_app_le by lia.
Qed.

Lemma entry_points_seq ms e :
  entry_points ms e → ∃ m, m ∈ ms ∧ ie_Sequence e = Sequence m.
Proof.
  intros (i & m & Hi & Hs & _). exists m. split; [by eapply list_elem_of_lookup_2|done].
Qed.

Lemma msgs_sorted_snoc ms m :
  msgs_sorted ms → (∀ m', m' ∈ ms → Sequence m' < Sequence m) → msgs_sorted (ms ++ [m]).
Proof.
  intros Hs Hm i j mi mj Hij Hi Hj.
  pose proof (lookup_lt_Some _ _ _ Hj) as Hlj. rewrite length_app in Hlj. simpl in Hlj.
  destruct (decide (j < length ms)%nat).
  - rewrite lookup_app_l in Hi, Hj by lia. by apply (Hs i j mi mj).
  - replace j with (length ms) in Hj by lia. rewrite list_lookup_middle in Hj by done.
    simplify_eq. rewrite lookup_app_l in Hi by lia. apply Hm. by eapply list_elem_of_lookup_2.
Qed.

Lemma entries_sorted_snoc es e :
  entries_sorted es → (∀ e', e' ∈ es → ie_Sequence e' < ie_Sequence e) →
  entries_sorted (es ++ [e]).
Proof.
  intros Hs He i j ei ej Hij Hi Hj.
  pose proof (lookup_lt_Some _ _ _ Hj) as Hlj. rewrite length_app in Hlj. simpl in Hlj.
  destruct (decide (j < length es)%nat).
  - rewrite lookup_app_l in Hi, Hj by lia. by apply (Hs i j ei ej).
  - replace j with (length es) in Hj by lia. rewrite list_lookup_middle in Hj by done.
    simplify_eq. rewrite lookup_app_l in Hi by lia. apply He. by eapply list_elem_of_lookup_2.
Qed.

Lemma OpenSegment_inv base interval : seg_inv (OpenSegment [] [] base interval) [].
Proof.
  split; [constructor|by intros ???? _ ?|done|done|done|].
  exists []. split_and!; [apply NewIndexFile_repr|by intros ???? _ ?|constructor|done].
Qed.

(** The index still covers the messages when a message gets no entry, unless it
    is the first, and when it gets one. *)
Lemma index_covers_snoc idx ms msg :
  index_covers idx ms → ms ≠ [] → index_covers idx (ms ++ [msg]).
Proof.
  intros (es & Hr & Hes & Hpt & Hfst) Hne. exists es. split_and!; [done|done| |].
  - eapply Forall_impl; [exact Hpt|]. intros. by apply entry_points_snoc.
  - intros m Hm. destruct ms; [done|]. simplify_eq/=. by apply Hfst.
Qed.

Lemma index_covers_append idx ms msg :
  index_covers idx ms → in_u64 (Sequence msg) → in_u64 (Zlen (log_bytes ms)) →
  (∀ m, m ∈ ms → Sequence m < Sequence msg) →
  index_covers (IndexFile_Append idx (Sequence msg) (Zlen (log_bytes ms))) (ms ++ [msg]).
Proof.
  intros (es & Hr & Hes & Hpt & Hfst) Hm Ho Hgt.
  exists (es ++ [mkIndexEntry (Sequence msg) (Zlen (log_bytes ms))]). split_and!.
  - by apply IndexFile_Append_repr.
  - apply entries_sorted_snoc; [done|]. intros e He. simpl.
    rewrite Forall_forall in Hpt.
    destruct (entry_points_seq ms e (Hpt e He)) as (m & Hin & ->). by apply Hgt.
  - apply Forall_app. split.
    + eapply Forall_impl; [exact Hpt|]. intros. by apply entry_points_snoc.
    + apply Forall_singleton. exists (length ms), msg.
      rewrite list_lookup_middle by done. by rewrite take_app_length.
  - intros m Hm0. destruct ms as [|m0 ms'].
    + destruct es as [|e es']; [by simplify_eq/=|].
      by apply Forall_cons_1 in Hpt as [(i & m' & Hi & _) _].
    + simplify_eq/=. specialize (Hfst m eq_refl). by destruct es; simplify_eq/=.
Qed.

(** Appending extends the message list and keeps the invariant; the offset it
    returns is where the record starts. *)
Lemma segment_Append_inv s ms msg :
  seg_inv s ms → msg_ok msg → (∀ m, m ∈ ms → Sequence m < Sequence msg) →
  Zlen (log_bytes (ms ++ [msg])) < 2 ^ 63 →
  ∃ s', segment_Append s msg = (s', Ok (Zlen (log_bytes ms))) ∧
        seg_inv s' (ms ++ [msg]) ∧ sg_baseSeq s' = sg_baseSeq s.
Proof.
  intros [Hok Hsort Hb Hsz Hbd Hidx] Hm Hgt Hbd'.
  unfold segment_Append.
  destruct (LogWriter_Append_spec (sg_logFile s) msg (ok_topic _ Hm)) as (w & -> & Hw & _).
  assert (Hlb : log_bytes (ms ++ [msg]) = log_bytes ms ++ record_bytes msg)
    by (by rewrite log_bytes_app, log_bytes_single).
  rewrite Hlb, length_app in Hbd'.
  rewrite Hsz, u64_small by go_lia.
  rewrite (i64_small (Zlen (record_bytes msg))) by go_lia.
  set (o := Zlen (log_bytes ms)) in *.
  assert (Hcur : i64 (o + Zlen (record_bytes msg)) = Zlen (log_bytes (ms ++ [msg]))).
  { rewrite i64_small by go_lia. rewrite Hlb, length_app. lia. }
  assert (Hnew : ∀ s', lw_bytes (sg_logFile s') = log_bytes ms ++ record_bytes msg →
    sg_currentSize s' = i64 (o + Zlen (record_bytes msg)) →
    index_covers (sg_idxFile s') (ms ++ [msg]) → seg_inv s' (ms ++ [msg])).
  { intros s' Hb' Hsz' Hidx'. split; [|by apply msgs_sorted_snoc|by rewrite Hlb
      |by rewrite Hsz'|rewrite Hlb, length_app; lia|done].
    apply Forall_app. by rewrite Forall_singleton. }
  destruct ((sg_indexIntervalBytes s <=? _) || (o =? 0)) eqn:Hif; zb;
    (eexists; split_and!; [reflexivity| |done]); apply Hnew; simpl; try congruence.
  1: apply index_covers_append; [done|by destruct Hm|go_lia|done].
  apply index_covers_snoc; [done|]. intros ->. unfold o in *. simpl in *. lia.
Qed.

(** ** ReadAt *)

Definition flushed (s : segment) : Prop := lw_buf (sg_logFile s) = [].

Lemma segment_Sync_inv s ms :
  seg_inv s ms → seg_inv (segment_Sync s) ms ∧ flushed (segment_Sync s).
Proof.
  intros [Hok Hsort Hb Hsz Hbd Hix]. split; [|done].
  split; try done. unfold lw_bytes in *. simpl. by rewrite app_nil_r.
Qed.

Lemma log_bytes_drop i ms :
  drop (length (log_bytes (take i ms))) (log_bytes ms) = log_bytes (drop i ms).
Proof.
  rewrite <- (take_drop i ms) at 2. rewrite log_bytes_app. apply drop_app_length.
Qed.

Lemma floor_entry_some es t e : floor_entry es t = Some e → e ∈ es ∧ ie_Sequence e ≤ t.
Proof.
  revert e. induction es as [|e0 es IH]; intros e; simpl; [done|].
  case_if; [|done]. destruct (floor_entry es t) as [e1|].
  - intros [=->]. destruct (IH e eq_refl). split; [by right|done].
  - intros [=->]. split; [by left|done].
Qed.

(** The entry the lookup settles on points at a record, and every message before
    that record is older than the target. *)
Lemma segment_lookup_entry s ms seq :
  seg_inv s ms →
  ∃ i, (i ≤ length ms)%nat ∧
    ie_Offset (match IndexFile_Lookup (sg_idxFile s) seq with
               | Ok e => e | Err _ => mkIndexEntry (sg_baseSeq s) 0 end)
      = Zlen (log_bytes (take i ms)) ∧
    (∀ j m, (j < i)%nat → ms !! j = Some m → Sequence m < seq).
Proof.
  intros [Hok Hsort Hb Hsz Hbd (es & Hr & Hes & Hpt & Hfst)].
  destruct es as [|e0 es].
  { exists 0%nat. unfold IndexFile_Lookup. rewrite (repr_size _ _ Hr). simpl.
    split_and!; [lia|done|lia]. }
  rewrite (IndexFile_Lookup_repr _ _ _ seq Hr Hes).
  assert (Hcase : ∀ e, e ∈ e0 :: es → ie_Sequence e ≤ seq →
    ∃ i, (i ≤ length ms)%nat ∧ ie_Offset e = Zlen (log_bytes (take i ms)) ∧
         (∀ j m, (j < i)%nat → ms !! j = Some m → Sequence m < seq)).
  { intros e He Hle. rewrite Forall_forall in Hpt.
    destruct (Hpt e He) as (i & m & Hi & Hs & Ho). exists i.
    pose proof (lookup_lt_Some _ _ _ Hi). split_and!; [lia|done|].
    intros j mj Hj Hmj. specialize (Hsort j i mj m Hj Hmj Hi). lia. }
  destruct (floor_entry (e0 :: es) seq) as [e|] eqn:Hfl.
  { apply floor_entry_some in Hfl as [??]. by apply Hcase. }
  exists 0%nat. split_and!; [lia| |lia].
  apply Forall_cons_1 in Hpt as [(i & m & Hi & _ & Ho) _].
  destruct ms as [|m0 ms]; [done|]. specialize (Hfst m0 eq_refl). by simplify_eq/=.
Qed.

Lemma segment_ReadAt_spec s ms seq :
  seg_inv s ms → flushed s →
  ∃ i, (i ≤ length ms)%nat ∧ reader_wf (segment_ReadAt s seq) ∧
    br_rest (segment_ReadAt s seq) = log_bytes (drop i ms) ∧
    (∀ j m, (j < i)%nat → ms !! j = Some m → Sequence m < seq).
Proof.
  intros Hinv Hfl. destruct (segment_lookup_entry s ms seq Hinv) as (i & Hi & Ho & Hlt).
  exists i. unfold segment_ReadAt, reader_wf, br_rest. cbn [br_pos br_buf br_data].
  rewrite Ho. split_and!; [done|lia| |done].
  rewrite Nat2Z.id, app_nil_l, <- log_bytes_drop. f_equal.
  pose proof (si_bytes _ _ Hinv) as Hb. unfold lw_bytes in Hb.
  by rewrite Hfl, app_nil_r in Hb.
Qed.

(** Reading a run of whole records to the end. *)
Lemma LogReader_drain_log fuel r ms :
  Forall msg_ok ms → reader_wf r → br_rest r = log_bytes ms → (length ms < fuel)%nat →
  LogReader_drain fuel r = (map stored ms, EOF).
Proof.
  intros Hok. revert fuel r. induction Hok as [|m ms Hm _ IH]; intros fuel r Hwf Hr Hf;
    (destruct fuel as [|fuel]; [lia|]); cbn [LogReader_drain].
  - by destruct (LogReader_Next_eof r Hwf Hr) as (r' & -> & _).
  - unfold log_bytes in Hr. cbn [map concat] in Hr. fold (log_bytes ms) in Hr.
    destruct (LogReader_Next_record r m _ Hwf Hm Hr) as (r' & -> & Hwf' & _ & Hr').
    cbn [length] in Hf. rewrite (IH fuel r') by (done || lia). done.
Qed.

(** The sparse index never hides a message. After any run of appends of
    messages with increasing sequence numbers and a sync, reading a segment from
    [seq] yields a suffix of the messages (each record decoded exactly), and
    every message left out precedes [seq]. *)
Lemma segment_readat_complete s ms seq :
  seg_inv s ms → flushed s →
  ∃ i, LogReader_drain (S (length ms)) (segment_ReadAt s seq) =
         (map stored (drop i ms), EOF) ∧
       (∀ j m, (j < i)%nat → ms !! j = Some m → Sequence m < seq).
Proof.
  intros Hinv Hfl. destruct (segment_ReadAt_spec s ms seq Hinv Hfl) as (i & Hi & Hwf & Hr & Hlt).
  exists i. split; [|done]. apply LogReader_drain_log; auto.
  - apply Forall_drop, (si_ok _ _ Hinv).
  - rewrite length_drop. lia.
Qed.

(** ** The recovery scan and the read-ahead buffer *)

(** Once the descriptor has reached the end of the file it stays there. *)
Lemma file_read_end data pos n : Zlen data ≤ pos → file_read data pos n = [].
Proof.
  intros H. unfold file_read. rewrite drop_ge, take_nil; [done|lia].
Qed.

Lemma bufio_Read_at_end r n :
  br_pos r = Zlen (br_data r) →
  br_pos (snd (bufio_Read r n)) = br_pos r ∧ br_data (snd (bufio_Read r n)) = br_data r.
Proof.
  intros H. unfold bufio_Read.
  repeat first [case_decide | case_if]; cbn [snd br_pos br_data];
    rewrite ?file_read_end by lia; cbn [length]; split; lia || done.
Qed.

Lemma read_full_at_end fuel r n acc :
  br_pos r = Zlen (br_data r) →
  br_pos (snd (read_full_loop fuel r n acc)) = br_pos r ∧
  br_data (snd (read_full_loop fuel r n acc)) = br_data r.
Proof.
  revert r n acc. induction fuel as [|fuel IH]; intros r n acc H;
    cbn [read_full_loop]; case_if; try done.
  pose proof (bufio_Read_at_end r n H) as Hr.
  destruct (bufio_Read r n) as [chunk r1]. cbn [snd] in Hr. destruct Hr as [Hp Hd].
  case_decide; [done|].
  destruct (IH r1 (n - Zlen chunk) (acc ++ chunk)) as [-> ->]; [congruence|done].
Qed.

Lemma io_ReadFull_at_end r n :
  br_pos r = Zlen (br_data r) →
  br_pos (snd (io_ReadFull r n)) = br_pos r ∧ br_data (snd (io_ReadFull r n)) = br_data r.
Proof. apply read_full_at_end. Qed.

(** If the header read leaves the descriptor at the end, so does the whole call. *)
Lemma LogReader_Next_pos r data :
  br_pos (snd (io_ReadFull r 22)) = Zlen data → br_data (snd (io_ReadFull r 22)) = data →
  br_pos (snd (LogReader_Next r)) = Zlen data ∧ br_data (snd (LogReader_Next r)) = data.
Proof.
  intros Hp Hd. unfold LogReader_Next.
  destruct (io_ReadFull r 22) as [[h| |] r1]; cbn [snd] in *; try done.
  set (n := _ + _).
  assert (H2 : ∀ res r2, (if 0 <? n then io_ReadFull r1 n else (ReadOk [], r1)) = (res, r2) →
    br_pos r2 = Zlen data ∧ br_data r2 = data).
  { intros res r2. case_if; intros E; [|by simplify_eq].
    pose proof (io_ReadFull_at_end r1 n ltac:(congruence)) as [Hp' Hd'].
    rewrite E in Hp', Hd'. cbn [snd] in *. split; congruence. }
  destruct (if 0 <? n then _ else _) as [[s| |] r2]; specialize (H2 _ _ eq_refl);
    cbn [snd]; try done.
  destruct H2 as [Hp2 Hd2].
  pose proof (io_ReadFull_at_end r2 4 ltac:(congruence)) as [Hp3 Hd3].
  destruct (io_ReadFull r2 4) as [[c| |] r3]; cbn [snd] in *; repeat case_if; cbn [snd];
    split; congruence.
Qed.

(** The first header read of a small, non-empty file takes all of it into the
    buffer: the descriptor ends up at the end of the file. *)
Lemma io_ReadFull_first data :
  data ≠ [] → Zlen data ≤ bufio_size →
  br_pos (snd (io_ReadFull (NewReader data) 22)) = Zlen data ∧
  br_data (snd (io_ReadFull (NewReader data) 22)) = data.
Proof.
  intros Hne Hsz. unfold io_ReadFull. cbn [read_full_loop].
  assert (Hfill : file_read data 0 bufio_size = data).
  { rewrite file_read_take by (unfold bufio_size; lia). simpl. apply take_ge. lia. }
  rewrite (proj2 (Z.leb_gt _ _)) by lia.
  unfold bufio_Read. cbn [NewReader br_buf br_data br_pos].
  rewrite decide_True by done. rewrite (proj2 (Z.leb_gt _ _)) by (unfold bufio_size; lia).
  rewrite Hfill, Z.add_0_l. case_decide; [done|].
  set (r1 := mkLogReader data (Zlen data) _).
  destruct (read_full_at_end (length data + length (br_buf (NewReader data))) r1
              (22 - Zlen (take (Z.to_nat (Z.min 22 (Zlen data))) data))
              ([] ++ take (Z.to_nat (Z.min 22 (Zlen data))) data)) as [Hp Hd]; done.
Qed.

(** From the second record on the scan takes the end of the file for the offset
    of the record. *)
Lemma recover_scan_at_end fuel r ms o q data m :
  Forall msg_ok (ms ++ [m]) → reader_wf r → br_pos r = Zlen data → br_data r = data →
  br_rest r = log_bytes (ms ++ [m]) → (length ms + 1 < fuel)%nat →
  recover_scan fuel r o q = Ok (Zlen data + Zlen (record_bytes m), Sequence m).
Proof.
  revert fuel r o q. induction ms as [|m0 ms IH]; intros fuel r o q Hok Hwf Hp Hd Hr Hf;
    (destruct fuel as [|fuel]; [lia|]); cbn [recover_scan].
  - apply (Forall_singleton msg_ok m) in Hok. rewrite app_nil_l, log_bytes_single in Hr.
    rewrite <- (app_nil_r (record_bytes m)) in Hr.
    pose proof (io_ReadFull_at_end r 22 ltac:(congruence)) as [Hp1 Hd1].
    pose proof (LogReader_Next_pos r data ltac:(congruence) ltac:(congruence)) as [Hp2 Hd2].
    destruct (LogReader_Next_record r m [] Hwf Hok Hr) as (r' & -> & Hwf' & _ & Hr').
    destruct fuel as [|fuel]; [simpl in Hf; lia|]. cbn [recover_scan].
    destruct (LogReader_Next_eof r' Hwf' Hr') as (r'' & -> & _).
    do 2 f_equal. rewrite length_record_bytes, Hp. cbn [stored Topic Payload]. lia.
  - apply Forall_cons_1 in Hok as [Hm0 Hok].
    cbn [app] in Hr. unfold log_bytes in Hr. cbn [map concat] in Hr.
    fold (log_bytes (ms ++ [m])) in Hr.
    pose proof (io_ReadFull_at_end r 22 ltac:(congruence)) as [Hp1 Hd1].
    pose proof (LogReader_Next_pos r data ltac:(congruence) ltac:(congruence)) as [Hp2 Hd2].
    destruct (LogReader_Next_record r m0 _ Hwf Hm0 Hr) as (r' & Heq & Hwf' & _ & Hr').
    rewrite Heq in *. cbn [snd] in *. cbn [length] in Hf. apply IH; auto with lia.
Qed.

(** On an
    intact log of at least two records that fits the reader's 64 KiB buffer,
    [recover] does not keep the file as it is: it extends it with as many zero
    bytes as the last record is long, because the offset it takes from the file
    descriptor is already past everything the buffered reader has read ahead. *)
Lemma segment_recover_extends s ms m :
  seg_inv s (ms ++ [m]) → ms ≠ [] → Zlen (log_bytes (ms ++ [m])) ≤ bufio_size →
  ∃ s', segment_recover s = Ok s' ∧
        lw_file (sg_logFile s') =
          log_bytes (ms ++ [m]) ++ replicate (length (record_bytes m)) Byte.x00.
Proof.
  intros [Hok Hsort Hb Hsz Hbd (es & Hr & _)] Hne Hfit. unfold segment_recover.
  cbn [LogWriter_Sync lw_file]. rewrite Hb.
  destruct ms as [|m0 ms]; [done|]. set (data := log_bytes ((m0 :: ms) ++ [m])) in *.
  assert (Hrec : ∀ x, 26 ≤ Zlen (record_bytes x)) by (intros x; rewrite length_record_bytes; lia).
  assert (Hdata : data = record_bytes m0 ++ log_bytes (ms ++ [m])).
  { unfold data, log_bytes. done. }
  assert (Hlen : (length ms + 2 ≤ length data)%nat).
  { assert (Hgen : ∀ l, (length l ≤ length (log_bytes l))%nat).
    { induction l as [|x l IHl]; [simpl; lia|]. unfold log_bytes in *. cbn [map concat].
      rewrite length_app. specialize (Hrec x). cbn [length]. lia. }
    specialize (Hgen ((m0 :: ms) ++ [m])). fold data in Hgen.
    rewrite length_app in Hgen. cbn [length] in Hgen. lia. }
  assert (Hscan : recover_scan (S (length data)) (NewReader data) 0 0 =
                  Ok (Zlen data + Zlen (record_bytes m), Sequence m)).
  { cbn [recover_scan app] in *. apply Forall_cons_1 in Hok as [Hm0 Hok].
    destruct (io_ReadFull_first data) as [Hp1 Hd1]; [intros E; rewrite E in Hlen; simpl in Hlen; lia|done|].
    pose proof (LogReader_Next_pos _ data Hp1 Hd1) as [Hp2 Hd2].
    destruct (LogReader_Next_record (NewReader data) m0 (log_bytes (ms ++ [m])))
      as (r' & Heq & Hwf' & _ & Hr'); [apply NewReader_wf|done|by rewrite NewReader_rest|].
    rewrite Heq in *. cbn [snd] in *.
    apply recover_scan_at_end with (ms := ms); auto with lia. }
  rewrite Hscan. destruct (IndexFile_truncateAfter_repr _ _ (Sequence m) Hr) as (idx' & -> & _).
  eexists. split; [reflexivity|]. cbn [sg_logFile lw_file]. unfold file_Truncate.
  rewrite take_ge by lia. do 2 f_equal. lia.
Qed.

(** ** A concrete segment *)

Definition seg_msg (seq : Z) : Message :=
  mkMessage seq (10 * seq) "MSFT" "" (bytes_of_string "q").

(** Three appends with an index entry every 30 bytes. *)
Definition seg_demo : segment :=
  fold_left (λ s m, fst (segment_Append s m)) (map seg_msg [5; 6; 9]) (OpenSegment [] [] 5 30).

Lemma seg_demo_inv : seg_inv seg_demo (map seg_msg [5; 6; 9]).
Proof.
  unfold seg_demo. cbn [map fold_left].
  assert (Hok : ∀ q, 0 ≤ q < 10 → msg_ok (seg_msg q))
    by (intros q Hq; split; simpl; go_lia).
  destruct (segment_Append_inv (OpenSegment [] [] 5 30) [] (seg_msg 5)) as (s1 & -> & H1 & _);
    [apply OpenSegment_inv|by apply Hok|by intros ? ?%not_elem_of_nil|vm_compute; done|].
  cbn [fst app] in *.
  destruct (segment_Append_inv s1 [seg_msg 5] (seg_msg 6)) as (s2 & -> & H2 & _);
    [done|by apply Hok|by intros ? ->%list_elem_of_singleton|vm_compute; done|].
  cbn [fst app] in *.
  destruct (segment_Append_inv s2 [seg_msg 5; seg_msg 6] (seg_msg 9)) as (s3 & -> & H3 & _);
    [done|by apply Hok| |vm_compute; done|done].
  intros m [->|[->|?%not_elem_of_nil]%elem_of_cons]%elem_of_cons; done.
Qed.

Lemma segment_readat_complete_witness :
  ∃ i, LogReader_drain 4 (segment_ReadAt (segment_Sync seg_demo) 6) =
         (map stored (drop i (map seg_msg [5; 6; 9])), EOF).
Proof.
  destruct (segment_readat_complete (segment_Sync seg_demo) (map seg_msg [5; 6; 9]) 6)
    as (i & Hi & _); [apply segment_Sync_inv, seg_demo_inv|exact eq_refl|].
  exact (ex_intro _ i Hi).
Defined.

Lemma segment_recover_extends_witness :
  ∃ s', segment_recover seg_demo = Ok s' ∧
        lw_file (sg_logFile s') =
          log_bytes (map seg_msg [5; 6; 9]) ++ replicate 31 Byte.x00.
Proof.
  destruct (segment_recover_extends seg_demo (map seg_msg [5; 6]) (seg_msg 9)) as (s' & Hs & Hf);
    [exact seg_demo_inv|done|vm_compute; done|].
  exact (ex_intro _ s' (conj Hs Hf)).
Defined.
