(* ===== verification/WalLog.v ===== *)
(** * WalLog: the interface wal.Log

    [internal/wal/interface.go] declares the interface its clients program against:
    a log that is appended to, and read from a starting sequence. [WalLogLaws]
    states what the replay engine, the sequence allocator and recovery rely on;
    [WalManager] discharges it for the segment manager. *)

From S2P Require Import Prelude WalCodec.

(** The read side of the interfaces Log and Reader. *)
Class WalLog (L R : Type) := {
  wl_NewReader : L → Z → result R WalError;
  wl_Next : L → R → result Message WalError * R;
  wl_LastSequence : L → Z;
}.

(** [wl_holds l ms]: the log [l] retains exactly the messages [ms], in sequence
    order, all of them on disk; [wl_first l] is the oldest sequence it can still
    be asked for; [wl_reads l r ms]: the reader [r] has [ms] still to return. *)
Class WalLogLaws (L R : Type) `{!WalLog L R} := {
  wl_holds : L → list Message → Prop;
  wl_first : L → Z;
  wl_reads : L → R → list Message → Prop;
  wl_range : ∀ l ms, wl_holds l ms → Forall (λ x, in_u64 (Sequence x)) ms;
  wl_sorted : ∀ l ms i j x y, wl_holds l ms → (i < j)%nat →
    ms !! i = Some x → ms !! j = Some y → Sequence x < Sequence y;
  wl_open_old : ∀ l ms start, wl_holds l ms → start < wl_first l →
    wl_NewReader l start = Err ErrSequenceTooOld;
  wl_open : ∀ l ms start, wl_holds l ms → wl_first l ≤ start →
    ∃ r, wl_NewReader l start = Ok r ∧
         wl_reads l r (filter (λ x, start ≤ Sequence x) ms);
  wl_next_nil : ∀ l r, wl_reads l r [] →
    ∃ r', wl_Next l r = (Err EOF, r') ∧ wl_reads l r' [];
  wl_next_cons : ∀ l r x ms, wl_reads l r (x :: ms) →
    ∃ r', wl_Next l r = (Ok x, r') ∧ wl_reads l r' ms;
}.
