(* ===== verification/WalManager.v ===== *)
(** * WalManager: the segmented write-ahead log

    [internal/wal/manager.go] and the file naming of [segment.go]: discovery of
    the segments of a directory, [Append] with rolling, [NewReader] and the
    [MultiSegmentReader], retention. [WalLog] is the interface [wal.Log] with the
    laws its clients (the replay engine, the sequence allocator, recovery) rely
    on; [SegmentManager_laws] discharges it for the manager. *)

From Stdlib Require Import Strings.String Strings.Ascii.
From S2P Require Import Prelude Bytes WalCodec WalIndex WalSegment WalLog.

(** ** Segment file names *)

Definition dec_digit (d : Z) : ascii := ascii_of_nat (Z.to_nat (48 + d)).

(** [fmt.Sprintf("%020d", n)] for n < 10^20: every uint64. *)
Fixpoint pad_dec (width : nat) (z : Z) : string :=
  match width with
  | O => ""
  | S w => pad_dec w (z / 10) +:+ String (dec_digit (z mod 10)) ""
  end.
Definition segment_basename (baseSeq : Z) : string := pad_dec 20 baseSeq.

(** [strconv.ParseUint(s, 10, 64)] *)
Fixpoint parse_uint_loop (s : string) (n : Z) : option Z :=
  match s with
  | EmptyString => Some n
  | String c s =>
      let d := Z.of_nat (nat_of_ascii c) - 48 in
      if (0 <=? d) && (d <=? 9) then
        let n := n * 10 + d in
        if n <? 2 ^ 64 then parse_uint_loop s n else None
      else None
  end.
Definition ParseUint (s : string) : option Z :=
  match s with EmptyString => None | _ => parse_uint_loop s 0 end.

(** The part of a file name before its extension; [None] without a dot. *)
Fixpoint strip_ext (s : string) : option string :=
  match s with
  | EmptyString => None
  | String c s =>
      match strip_ext s with
      | Some p => Some (String c p)
      | None => if decide (c = "."%char) then Some "" else None
      end
  end.

Definition ExtractBaseSequence (filename : string) : option Z :=
  ParseUint (match strip_ext filename with Some p => p | None => filename end).

Fixpoint has_suffix (suf s : string) : bool :=
  if decide (s = suf) then true
  else match s with EmptyString => false | String _ s => has_suffix suf s end.

(** ** The log directory *)

Record DirEntry := mkDirEntry { de_name : string; de_isDir : bool; de_contents : list byte }.

Definition dir_file (dir : list DirEntry) (name : string) : list byte :=
  match find (λ e, bool_decide (de_name e = name)) dir with
  | Some e => de_contents e
  | None => []
  end.

(** ** The manager *)

Record Config := mkConfig {
  MaxSegmentBytes : Z;
  IndexIntervalBytes : Z;
  RetentionBytes : Z;
  RetentionTime : Z;
}.

Definition DefaultConfig : Config :=
  mkConfig (1024 * 1024 * 1024) (4 * 1024) (10 * 1024 * 1024 * 1024) (24 * 7 * Hour).

(** [sm_active] is the pointer to the active segment: nil, or an element of
    [sm_segments], named by its index. [sm_dir] is the directory found at
    start-up. *)
Record SegmentManager := mkSegmentManager {
  sm_cfg : Config;
  sm_dir : list DirEntry;
  sm_segments : list segment;
  sm_active : option nat;
  sm_lastSeq : Z;
}.

(** [OpenSegment(dir, baseSeq, ...)]: the files of that base sequence. *)
Definition open_in_dir (dir : list DirEntry) (baseSeq interval : Z) : segment :=
  OpenSegment (dir_file dir (segment_basename baseSeq +:+ ".log"))
              (dir_file dir (segment_basename baseSeq +:+ ".index")) baseSeq interval.

(** The same while segments are open: an open segment's files hold what it has
    written. *)
Definition open_segment (m : SegmentManager) (baseSeq : Z) : segment :=
  match find (λ s, sg_baseSeq s =? baseSeq) (sm_segments m) with
  | Some s => OpenSegment (lw_file (sg_logFile s)) (ix_data (sg_idxFile s)) baseSeq
                (IndexIntervalBytes (sm_cfg m))
  | None => open_in_dir (sm_dir m) baseSeq (IndexIntervalBytes (sm_cfg m))
  end.

(** The base sequences of the directory: names ending in .log that parse, each
    once. *)
Definition dir_baseSeqs (dir : list DirEntry) : list Z :=
  remove_dups (omap (λ e, if de_isDir e || negb (has_suffix ".log" (de_name e)) then None
                          else ExtractBaseSequence (de_name e)) dir).

Definition highest_sequence (s : segment) : Z :=
  match last (fst (LogReader_drain (S (length (lw_file (sg_logFile s))))
                     (segment_ReadAt s (segment_BaseSequence s)))) with
  | Some m => Sequence m
  | None => 0
  end.

(** [loadSegments] on a fresh manager (its [active] is nil). When segments are
    found the code type-asserts [m.active] and recovers it; nothing has been
    assigned to [m.active], so the assertion fails and no branch assigns it. *)
Definition loadSegments (cfg : Config) (dir : list DirEntry) : SegmentManager :=
  let baseSeqs := merge_sort Z.le (dir_baseSeqs dir) in
  let segments := map (λ seq, open_in_dir dir seq (IndexIntervalBytes cfg)) baseSeqs in
  let '(segments, active) :=
    match segments with
    | [] => ([open_in_dir dir 0 (IndexIntervalBytes cfg)], Some 0%nat)
    | _ :: _ => (segments, None)
    end in
  let lastSeq := match last segments with Some s => highest_sequence s | None => 0 end in
  mkSegmentManager cfg dir segments active lastSeq.

Definition NewSegmentManager (cfg : Config) (dir : list DirEntry) : SegmentManager :=
  loadSegments cfg dir.

(** [Append]: roll when the active segment is full (syncing it first), append,
    record the sequence. A nil [active] is a nil-interface method call. *)
Definition SegmentManager_Append (m : SegmentManager) (msg : Message)
    : outcome (SegmentManager * result (Z * Z) WalError) :=
  match sm_active m with
  | None => Panic
  | Some a =>
      match sm_segments m !! a with
      | None => Panic
      | Some s =>
          let '(segments, a, act) :=
            if MaxSegmentBytes (sm_cfg m) <=? segment_Size s then
              let newSeg := open_segment m (Sequence msg) in
              (<[a := segment_Sync s]> (sm_segments m) ++ [newSeg],
               length (sm_segments m), newSeg)
            else (sm_segments m, a, s) in
          match segment_Append act msg with
          | (s', Ok offset) =>
              Ret (mkSegmentManager (sm_cfg m) (sm_dir m) (<[a := s']> segments) (Some a)
                     (Sequence msg), Ok (Sequence msg, offset))
          | (s', Err e) =>
              Ret (mkSegmentManager (sm_cfg m) (sm_dir m) (<[a := s']> segments) (Some a)
                     (sm_lastSeq m), Err e)
          end
      end
  end.

Definition SegmentManager_LastSequence (m : SegmentManager) : Z := sm_lastSeq m.

Definition SegmentManager_Sync (m : SegmentManager) : outcome SegmentManager :=
  match sm_active m with
  | None => Panic
  | Some a =>
      match sm_segments m !! a with
      | None => Panic
      | Some s => Ret (mkSegmentManager (sm_cfg m) (sm_dir m)
                         (<[a := segment_Sync s]> (sm_segments m)) (Some a) (sm_lastSeq m))
      end
  end.

(** [Close]: every segment is flushed and closed. *)
Definition SegmentManager_Close (m : SegmentManager) : list (Z * (list byte * list byte)) :=
  map (λ s, (sg_baseSeq s, segment_Close s)) (sm_segments m).

(** ** Retention *)

(** The loop of [enforceRetention]: how many of the oldest segments go.
    [modTime] is what [os.Stat] reports, [None] on error. *)
Fixpoint retention_count (cfg : Config) (now : Z) (modTime : segment → option Z)
    (segs : list segment) (totalSize : Z) : nat :=
  match segs with
  | [] | [_] => 0
  | s :: segs =>
      let bySize := RetentionBytes cfg <? totalSize in
      let byAge := (0 <? RetentionTime cfg) &&
                   match modTime s with
                   | Some t => RetentionTime cfg <? time_sub now t
                   | None => false
                   end in
      if bySize || byAge
      then S (retention_count cfg now modTime segs (i64 (totalSize - segment_Size s)))
      else 0
  end.

Definition enforceRetention (m : SegmentManager) (now : Z) (modTime : segment → option Z)
    : SegmentManager :=
  if (length (sm_segments m) <=? 1)%nat then m
  else
    let totalSize := fold_left (λ t s, i64 (t + segment_Size s)) (sm_segments m) 0 in
    let toRemove := retention_count (sm_cfg m) now modTime (sm_segments m) totalSize in
    mkSegmentManager (sm_cfg m) (sm_dir m) (drop toRemove (sm_segments m))
      ((λ a, a - toRemove)%nat <$> sm_active m) (sm_lastSeq m).

(** ** Reading across segments *)

Record MultiSegmentReader := mkMSR {
  mr_segmentIdx : nat;
  mr_startSequence : Z;
  mr_currentReader : option LogReader;
}.

(** The search of [NewReader]: the highest segment whose base is at or below the
    start. *)
Fixpoint find_segment (segs : list segment) (startSequence : Z) : option nat :=
  match segs with
  | [] => None
  | s :: segs =>
      match find_segment segs startSequence with
      | Some i => Some (S i)
      | None => if segment_BaseSequence s <=? startSequence then Some 0%nat else None
      end
  end.

Definition SegmentManager_NewReader (m : SegmentManager) (startSequence : Z)
    : result MultiSegmentReader WalError :=
  match sm_segments m with
  | [] => Err ErrNoSegments
  | _ =>
      match find_segment (sm_segments m) startSequence with
      | None => Err ErrSequenceTooOld
      | Some i => Ok (mkMSR i startSequence None)
      end
  end.

(** [MultiSegmentReader.Next]: open the segment's reader on demand, move to the
    next segment at the end of one, skip messages before the start. *)
Fixpoint MSR_loop (fuel : nat) (m : SegmentManager) (r : MultiSegmentReader)
    : result Message WalError * MultiSegmentReader :=
  match fuel with
  | O => (Err EOF, r)
  | S fuel =>
      match (match mr_currentReader r with
             | Some lr => Some lr
             | None => (λ s, segment_ReadAt s (mr_startSequence r)) <$>
                         sm_segments m !! mr_segmentIdx r
             end) with
      | None => (Err EOF, r)
      | Some lr =>
          match LogReader_Next lr with
          | (Err EOF, lr) | (Err ErrCorruptedTail, lr) =>
              if (mr_segmentIdx r <? length (sm_segments m) - 1)%nat
              then MSR_loop fuel m (mkMSR (S (mr_segmentIdx r)) 0 None)
              else (Err EOF, mkMSR (mr_segmentIdx r) (mr_startSequence r) (Some lr))
          | (Err e, lr) => (Err e, mkMSR (mr_segmentIdx r) (mr_startSequence r) (Some lr))
          | (Ok msg, lr) =>
              let r := mkMSR (mr_segmentIdx r) (mr_startSequence r) (Some lr) in
              if Sequence msg <? mr_startSequence r then MSR_loop fuel m r
              else (Ok msg, r)
          end
      end
  end.

(** Every turn consumes a record or a segment. *)
Definition MSR_fuel (m : SegmentManager) : nat :=
  S (sum_list (map (λ s, S (length (lw_file (sg_logFile s)))) (sm_segments m))).

Definition MultiSegmentReader_Next (m : SegmentManager) (r : MultiSegmentReader)
    : result Message WalError * MultiSegmentReader := MSR_loop (MSR_fuel m) m r.

(** ** File names round-trip *)

Lemma parse_uint_loop_app s1 s2 n :
  parse_uint_loop (s1 +:+ s2) n = parse_uint_loop s1 n ≫= parse_uint_loop s2.
Proof.
  revert n. induction s1 as [|c s1 IH]; intros n; simpl; [done|].
  repeat case_if; auto.
Qed.

Lemma dec_digit_value d :
  0 ≤ d ≤ 9 → Z.of_nat (nat_of_ascii (dec_digit d)) - 48 = d.
Proof. intros Hd. unfold dec_digit. rewrite nat_ascii_embedding; lia. Qed.

Lemma parse_pad_dec width z n :
  0 ≤ z < 10 ^ Z.of_nat width → 0 ≤ n → n * 10 ^ Z.of_nat width + z < 2 ^ 64 →
  parse_uint_loop (pad_dec width z) n = Some (n * 10 ^ Z.of_nat width + z).
Proof.
  revert z n. induction width as [|w IH]; intros z n Hz Hn Hb.
  - simpl. change (10 ^ Z.of_nat 0) with 1 in *. f_equal. lia.
  - cbn [pad_dec]. rewrite Nat2Z.inj_succ, Z.pow_succ_r in * by lia.
    pose proof (Z.div_mod z 10 ltac:(lia)) as Hdm.
    pose proof (Z.mod_pos_bound z 10 ltac:(lia)) as Hmod.
    assert (0 ≤ z / 10 < 10 ^ Z.of_nat w)
      by (split; [apply Z.div_pos; lia|apply Z.div_lt_upper_bound; lia]).
    rewrite parse_uint_loop_app, IH by lia. simpl.
    rewrite dec_digit_value by lia.
    rewrite (proj2 (Z.leb_le 0 _)), (proj2 (Z.leb_le _ 9)) by lia. simpl.
    rewrite (proj2 (Z.ltb_lt _ _)) by lia. f_equal. lia.
Qed.

Lemma strip_ext_log s : strip_ext (s +:+ ".log") = Some s.
Proof. induction s as [|c s IH]; [done|]. simpl. by rewrite IH. Qed.

(** Segment file names identify their base sequence: parsing the name that
    [OpenSegment] gives to a base sequence returns that sequence, for every
    uint64, and the name is one that [loadSegments] picks up. *)
Lemma segment_name_roundtrip n :
  in_u64 n →
  ExtractBaseSequence (segment_basename n +:+ ".log") = Some n ∧
  has_suffix ".log" (segment_basename n +:+ ".log") = true.
Proof.
  intros Hn. split.
  - unfold ExtractBaseSequence. rewrite strip_ext_log. unfold ParseUint, segment_basename.
    pose proof (parse_pad_dec 20 n 0) as Hp.
    destruct (pad_dec 20 n) as [|c s] eqn:E.
    + exfalso. cbn [pad_dec] in E. by destruct (pad_dec 19 (n / 10)).
    + rewrite Hp; [f_equal; lia| | |]; change (10 ^ Z.of_nat 20) with 100000000000000000000; go_lia.
  - generalize (segment_basename n). intros s. induction s as [|c s IH]; [done|].
    simpl. by case_decide.
Qed.

(** ** The manager invariant *)

Record mgr_inv (m : SegmentManager) (mss : list (list Message)) : Prop := {
  mi_max : 0 < MaxSegmentBytes (sm_cfg m);
  mi_dir : sm_dir m = [];
  mi_segs : Forall2 seg_inv (sm_segments m) mss;
  mi_sorted : msgs_sorted (concat mss);
  mi_base : ∀ i s ms x, sm_segments m !! i = Some s → mss !! i = Some ms → x ∈ ms →
              sg_baseSeq s ≤ Sequence x;
  mi_next : ∀ i j s ms x, (i < j)%nat → sm_segments m !! j = Some s → mss !! i = Some ms →
              x ∈ ms → Sequence x < sg_baseSeq s;
  mi_bases : ∀ i j si sj, (i < j)%nat → sm_segments m !! i = Some si →
              sm_segments m !! j = Some sj → sg_baseSeq si < sg_baseSeq sj;
  mi_flushed : ∀ i s, (S i < length (sm_segments m))%nat → sm_segments m !! i = Some s →
              flushed s;
  mi_active : ∃ n, length (sm_segments m) = S n ∧ sm_active m = Some n;
  mi_empty : ∀ i s, sm_segments m !! i = Some s → mss !! i = Some [] → sg_baseSeq s = 0;
}.

Definition all_flushed (m : SegmentManager) : Prop := Forall flushed (sm_segments m).

(** ** Reading *)

Section reading.
Context (m : SegmentManager) (mss : list (list Message)).
Context (Hinv : mgr_inv m mss) (Hfl : all_flushed m).

(** [msr_reads r rem k]: the reader [r] still has to return [rem], after at
    most [k] turns of its loop. *)
Definition msr_reads (r : MultiSegmentReader) (rem : list Message) (k : nat) : Prop :=
  ∃ ms later, drop (mr_segmentIdx r) mss = ms :: later ∧
    match mr_currentReader r with
    | None => rem = filter (λ x, mr_startSequence r ≤ Sequence x) ms ++ concat later ∧
              k = (length ms + sum_list (map (λ l, S (length l)) later))%nat
    | Some lr =>
        ∃ i, reader_wf lr ∧ br_rest lr = log_bytes (drop i ms) ∧
             rem = filter (λ x, mr_startSequence r ≤ Sequence x) (drop i ms) ++ concat later ∧
             k = (length (drop i ms) + sum_list (map (λ l, S (length l)) later))%nat
    end.

Lemma mss_ok ms i : mss !! i = Some ms → Forall msg_ok ms.
Proof.
  intros Hi. destruct (Forall2_lookup_r _ _ _ _ _ (mi_segs _ _ Hinv) Hi) as (s & _ & Hs).
  apply Hs.
Qed.

Lemma filter_from_zero ms i :
  mss !! i = Some ms → filter (λ x, 0 ≤ Sequence x) ms = ms.
Proof.
  intros Hi. apply filter_all. eapply Forall_impl; [by eapply mss_ok|].
  intros x Hx. apply Hx.
Qed.

(** The reader of a turn, opened on demand, is at the front of some [drop i ms];
    what it skips precedes the start. *)
Lemma msr_open r rem k ms later :
  drop (mr_segmentIdx r) mss = ms :: later → msr_reads r rem k →
  ∃ lr i,
    (match mr_currentReader r with
     | Some lr => Some lr
     | None => (λ s, segment_ReadAt s (mr_startSequence r)) <$> sm_segments m !! mr_segmentIdx r
     end) = Some lr ∧ reader_wf lr ∧ br_rest lr = log_bytes (drop i ms) ∧
    rem = filter (λ x, mr_startSequence r ≤ Sequence x) (drop i ms) ++ concat later ∧
    (length (drop i ms) + sum_list (map (λ l, S (length l)) later) ≤ k)%nat.
Proof.
  intros Hdrop (ms0 & later0 & Hdrop0 & Hcur). rewrite Hdrop in Hdrop0. injection Hdrop0 as <- <-.
  destruct (mr_currentReader r) as [lr|].
  { destruct Hcur as (i & ? & ? & ? & ?). exists lr, i. split_and!; auto; lia. }
  assert (Hms : mss !! mr_segmentIdx r = Some ms).
  { rewrite <- (Nat.add_0_r (mr_segmentIdx r)), <- lookup_drop, Hdrop. done. }
  destruct (Forall2_lookup_r _ _ _ _ _ (mi_segs _ _ Hinv) Hms) as (s & Hs & Hsi).
  assert (Hfs : flushed s) by (eapply Forall_lookup_1; eauto; exact Hfl).
  destruct Hcur as [-> ->]. rewrite Hs. cbn [fmap option_fmap option_map].
  destruct (segment_ReadAt_spec s ms (mr_startSequence r) Hsi Hfs) as (i & Hi & Hwf & Hrest & Hlt).
  exists (segment_ReadAt s (mr_startSequence r)), i. split_and!; auto.
  - f_equal. rewrite <- (take_drop i ms) at 1. rewrite filter_app, filter_none; [done|].
    apply Forall_forall. intros x Hx. apply list_elem_of_lookup in Hx as [j Hj].
    apply lookup_take_Some in Hj as [Hj Hji]. specialize (Hlt j x Hji Hj). lia.
  - rewrite length_drop. lia.
Qed.

(** At the end of a segment: whether there is a next one, and how it reads. *)
Lemma msr_next_segment idx ms later :
  drop idx mss = ms :: later →
  match later with
  | [] => (idx <? length (sm_segments m) - 1)%nat = false
  | ms' :: later' =>
      (idx <? length (sm_segments m) - 1)%nat = true ∧
      msr_reads (mkMSR (S idx) 0 None) (ms' ++ concat later')
        (length ms' + sum_list (map (λ l, S (length l)) later'))
  end.
Proof.
  intros Hdrop.
  assert (Hlen : length (sm_segments m) = length mss) by apply (Forall2_length _ _ _ (mi_segs _ _ Hinv)).
  pose proof (f_equal length Hdrop) as Hl. rewrite length_drop in Hl. cbn [length] in Hl.
  destruct later as [|ms' later']; cbn [length] in Hl; [apply Nat.ltb_ge; lia|].
  split; [apply Nat.ltb_lt; lia|].
  assert (Hdrop' : drop (S idx) mss = ms' :: later').
  { replace (S idx) with (idx + 1)%nat by lia. by rewrite <- drop_drop, Hdrop. }
  assert (Hms' : mss !! S idx = Some ms').
  { rewrite <- (Nat.add_0_r (S _)), <- lookup_drop, Hdrop'. done. }
  exists ms', later'. simpl. split; [done|]. by rewrite (filter_from_zero ms' (S idx) Hms').
Qed.

(** A turn of the loop with an open reader at the front of [drop i ms]. *)
Lemma MSR_loop_open fuel r rem k :
  msr_reads r rem k → (k < fuel)%nat →
  ∃ r' k', (k' ≤ k)%nat ∧
  match rem with
  | [] => MSR_loop fuel m r = (Err EOF, r') ∧ msr_reads r' [] k'
  | x :: rem => MSR_loop fuel m r = (Ok (stored x), r') ∧ msr_reads r' rem k'
  end.
Proof.
  revert r rem k. induction fuel as [|fuel IH]; intros r rem k Hr Hk; [lia|].
  pose proof Hr as (ms & later & Hdrop & _).
  assert (Hms : mss !! mr_segmentIdx r = Some ms).
  { rewrite <- (Nat.add_0_r (mr_segmentIdx r)), <- lookup_drop, Hdrop. done. }
  destruct (msr_open r rem k ms later Hdrop Hr) as (lr & i & Hlr & Hwf & Hrest & -> & Hk').
  cbn [MSR_loop]. rewrite Hlr.
  destruct (drop i ms) as [|x rest] eqn:Hdi.
  - (* the segment is exhausted *)
    destruct (LogReader_Next_eof lr Hwf Hrest) as (lr' & -> & Hwf' & _ & Hrest').
    pose proof (msr_next_segment _ _ _ Hdrop) as Hnext. destruct later as [|ms' later].
    + rewrite Hnext. eexists _, 0%nat. split; [lia|]. split; [done|].
      exists ms, []. split; [done|]. simpl. exists (length ms). by rewrite drop_all.
    + destruct Hnext as [-> Hnext]. cbn [map sum_list foldr length] in Hk'.
      destruct (IH _ _ _ Hnext) as (r' & k' & Hk'' & Hres); [simpl in Hk'; lia|].
      exists r', k'. split; [simpl in Hk'; lia|]. exact Hres.
  - (* a record *)
    assert (Hxok : msg_ok x ∧ Forall msg_ok rest).
    { pose proof (Forall_drop _ i _ (mss_ok _ _ Hms)) as Hok. rewrite Hdi in Hok.
      by apply Forall_cons_1 in Hok. }
    destruct Hxok as [Hx Hrestok].
    unfold log_bytes in Hrest. cbn [map concat] in Hrest. fold (log_bytes rest) in Hrest.
    destruct (LogReader_Next_record lr x _ Hwf Hx Hrest) as (lr' & -> & Hwf' & _ & Hrest').
    set (r1 := mkMSR (mr_segmentIdx r) (mr_startSequence r) (Some lr')).
    assert (Hdi' : drop (S i) ms = rest).
    { replace (S i) with (i + 1)%nat by lia. by rewrite <- drop_drop, Hdi. }
    assert (Hr1 : msr_reads r1
      (filter (λ x, mr_startSequence r ≤ Sequence x) rest ++ concat later)
      (length rest + sum_list (map (λ l, S (length l)) later))).
    { exists ms, later. split; [done|]. simpl. exists (S i). by rewrite Hdi'. }
    cbn [Sequence stored mr_startSequence r1]. cbn [length] in Hk'.
    destruct (Sequence x <? mr_startSequence r) eqn:Hlt; zb.
    + rewrite filter_cons_False by lia.
      destruct (IH r1 _ _ Hr1) as (r' & k' & Hk'' & Hres); [lia|].
      exists r', k'. split; [lia|]. exact Hres.
    + rewrite filter_cons_True by done. simpl.
      exists r1, (length rest + sum_list (map (λ l, S (length l)) later))%nat.
      split; [lia|]. by split.
Qed.

Lemma seg_msgs_le s ms : seg_inv s ms → flushed s → (length ms ≤ length (lw_file (sg_logFile s)))%nat.
Proof.
  intros Hs Hf. pose proof (si_bytes _ _ Hs) as Hb. unfold lw_bytes in Hb.
  rewrite Hf, app_nil_r in Hb. rewrite Hb. clear. induction ms as [|x ms IH]; [simpl; lia|].
  unfold log_bytes in *. cbn [map concat length]. rewrite length_app.
  pose proof (length_record_bytes x). lia.
Qed.

Lemma MSR_fuel_enough : (sum_list (map (λ l, S (length l)) mss) < MSR_fuel m)%nat.
Proof.
  unfold MSR_fuel. pose proof (mi_segs _ _ Hinv) as Hs.
  assert (Hall : Forall flushed (sm_segments m)) by exact Hfl.
  clear Hinv Hfl. induction Hs as [|s ms segs mss' Hs _ IH]; simpl; [lia|].
  apply Forall_cons_1 in Hall as [Hf Hall]. specialize (IH Hall).
  pose proof (seg_msgs_le s ms Hs Hf). lia.
Qed.

Lemma msr_reads_bound r rem k :
  msr_reads r rem k → (k ≤ sum_list (map (λ l, S (length l)) mss))%nat.
Proof.
  intros (ms & later & Hdrop & Hcur).
  assert (Hsum : (sum_list (map (λ l, S (length l)) (ms :: later)) ≤
                  sum_list (map (λ l, S (length l)) mss))%nat).
  { rewrite <- Hdrop. rewrite <- (take_drop (mr_segmentIdx r) mss) at 2. rewrite map_app.
    assert (Happ : ∀ l1 l2 : list nat, sum_list (l1 ++ l2) = (sum_list l1 + sum_list l2)%nat)
      by (intros l1 l2; induction l1; simpl; lia).
    rewrite Happ. lia. }
  cbn [map sum_list] in Hsum. simpl in Hsum.
  destruct (mr_currentReader r).
  - destruct Hcur as (i & _ & _ & _ & ->). rewrite length_drop. lia.
  - destruct Hcur as [_ ->]. lia.
Qed.

Lemma MultiSegmentReader_Next_spec r rem k :
  msr_reads r rem k →
  ∃ r' k', 
  match rem with
  | [] => MultiSegmentReader_Next m r = (Err EOF, r') ∧ msr_reads r' [] k'
  | x :: rem => MultiSegmentReader_Next m r = (Ok (stored x), r') ∧ msr_reads r' rem k'
  end.
Proof.
  intros Hr. pose proof (msr_reads_bound _ _ _ Hr). pose proof MSR_fuel_enough.
  destruct (MSR_loop_open (MSR_fuel m) r rem k Hr) as (r' & k' & _ & Hres); [lia|].
  by exists r', k'.
Qed.
End reading.

(** ** NewReader *)

Lemma find_segment_some segs t i :
  find_segment segs t = Some i →
  (∃ s, segs !! i = Some s ∧ sg_baseSeq s ≤ t) ∧
  (∀ j s, (i < j)%nat → segs !! j = Some s → t < sg_baseSeq s).
Proof.
  revert i. induction segs as [|s segs IH]; intros i; simpl; [done|].
  destruct (find_segment segs t) as [i'|] eqn:Hf.
  - intros [= <-]. destruct (IH i' eq_refl) as [Hi Hgt]. split; [done|].
    intros [|j] s' Hj; [lia|]. apply Hgt. lia.
  - case_if; [|done]. intros [= <-]. split; [by exists s|].
    intros [|j] s' Hj; [lia|]. simpl. intros Hs'. clear IH. revert j Hf Hj Hs'.
    induction segs as [|s1 segs IH]; intros j Hf Hj Hs'; [done|]. simpl in Hf.
    destruct (find_segment segs t) eqn:Hf'; [done|].
    revert Hf. case_if; [done|]. intros _.
    destruct j as [|j]; [by simplify_eq/=|]. apply (IH j); [done|lia|done].
Qed.

Lemma find_segment_none segs t :
  find_segment segs t = None ↔ Forall (λ s, t < sg_baseSeq s) segs.
Proof.
  induction segs as [|s segs IH]; simpl; [done|]. rewrite Forall_cons, <- IH.
  clear IH. unfold segment_BaseSequence.
  destruct (find_segment segs t); [by split; [|intros [_ ?]]|].
  case_if; (split; [|intros [? _]]); try done; lia.
Qed.

(** The oldest sequence that [NewReader] accepts. *)
Definition first_base (m : SegmentManager) : Z :=
  match sm_segments m with s :: _ => sg_baseSeq s | [] => 0 end.

Lemma first_base_le m mss s :
  mgr_inv m mss → s ∈ sm_segments m → first_base m ≤ sg_baseSeq s.
Proof.
  intros Hinv Hs. apply list_elem_of_lookup in Hs as [i Hi]. unfold first_base.
  destruct (sm_segments m) as [|s0 segs] eqn:E; [done|].
  destruct i as [|i]; [by simplify_eq/=|]. apply Z.lt_le_incl.
  apply (mi_bases _ _ Hinv 0%nat (S i)); [lia|by rewrite E|by rewrite E].
Qed.

Lemma NewReader_old m mss start :
  mgr_inv m mss → start < first_base m →
  SegmentManager_NewReader m start = Err ErrSequenceTooOld.
Proof.
  intros Hinv Hlt. unfold SegmentManager_NewReader.
  destruct (mi_active _ _ Hinv) as (n & Hn & _).
  rewrite (proj2 (find_segment_none (sm_segments m) start)); [by destruct (sm_segments m)|].
  apply Forall_forall. intros s Hs. pose proof (first_base_le _ _ _ Hinv Hs). lia.
Qed.

Lemma NewReader_spec m mss start :
  mgr_inv m mss → first_base m ≤ start →
  ∃ r k, SegmentManager_NewReader m start = Ok r ∧
         msr_reads mss r (filter (λ x, start ≤ Sequence x) (concat mss)) k.
Proof.
  intros Hinv Hge. unfold SegmentManager_NewReader.
  destruct (find_segment (sm_segments m) start) as [i|] eqn:Hf.
  2:{ apply find_segment_none in Hf. exfalso. unfold first_base in Hge.
      destruct (mi_active _ _ Hinv) as (n & Hn & _).
      destruct (sm_segments m); [done|]. apply Forall_cons_1 in Hf as [? _]. lia. }
  apply find_segment_some in Hf as [(s & Hs & Hle) Hgt].
  destruct (Forall2_lookup_l _ _ _ _ _ (mi_segs _ _ Hinv) Hs) as (ms & Hms & _).
  eexists (mkMSR i start None), _. split.
  { destruct (sm_segments m); [by simplify_eq/=|done]. }
  exists ms, (drop (S i) mss). cbn [mr_segmentIdx mr_currentReader mr_startSequence].
  split; [by apply drop_S|]. split; [|reflexivity].
  rewrite <- (take_drop_middle mss i ms Hms) at 1.
  rewrite concat_app, concat_cons, !filter_app, filter_none, app_nil_l.
  - f_equal. apply filter_all. apply Forall_forall. intros x Hx.
    apply concat_elem in Hx as (j & l & Hj & Hx). rewrite lookup_drop in Hj.
    destruct (Forall2_lookup_r _ _ _ _ _ (mi_segs _ _ Hinv) Hj) as (sj & Hsj & _).
    pose proof (mi_base _ _ Hinv _ _ _ _ Hsj Hj Hx).
    specialize (Hgt (S i + j)%nat sj ltac:(lia) Hsj). lia.
  - apply Forall_forall. intros x Hx.
    apply concat_elem in Hx as (j & l & Hj & Hx). apply lookup_take_Some in Hj as [Hj Hji].
    pose proof (mi_next _ _ Hinv _ _ _ _ _ Hji Hs Hj Hx). lia.
Qed.

(** ** Append *)

Lemma log_bytes_concat_le mss i ms :
  mss !! i = Some ms → Zlen (log_bytes ms) ≤ Zlen (log_bytes (concat mss)).
Proof.
  intros Hi. rewrite <- (take_drop_middle mss i ms Hi), concat_app, concat_cons.
  rewrite !log_bytes_app, !length_app. lia.
Qed.

Lemma concat_insert_last (mss : list (list Message)) n ms msg :
  length mss = S n → mss !! n = Some ms →
  concat (<[n := ms ++ [msg]]> mss) = concat mss ++ [msg].
Proof.
  intros Hlen Hn. rewrite insert_take_drop by lia.
  rewrite <- (take_drop_middle mss n ms Hn) at 3.
  rewrite !(drop_ge mss) by lia. rewrite !concat_app, !concat_cons. simpl.
  by rewrite !app_nil_r, app_assoc.
Qed.

Section append.
Context (m : SegmentManager) (mss : list (list Message)) (msg : Message).
Context (n : nat) (s : segment) (ms : list Message).
Context (Hinv : mgr_inv m mss) (Hlen : length (sm_segments m) = S n).
Context (Hs : sm_segments m !! n = Some s) (Hms : mss !! n = Some ms).
Context (Hgt : ∀ x, x ∈ concat mss → Sequence x < Sequence msg).

Lemma mss_length : length mss = S n.
Proof. by rewrite <- (Forall2_length _ _ _ (mi_segs _ _ Hinv)). Qed.

Lemma mss_gt i l x : mss !! i = Some l → x ∈ l → Sequence x < Sequence msg.
Proof. intros Hi Hx. apply Hgt, concat_elem. by exists i, l. Qed.

(** Appending to the active segment. *)
Lemma mgr_inv_grow s' lastSeq :
  seg_inv s' (ms ++ [msg]) → sg_baseSeq s' = sg_baseSeq s → sg_baseSeq s ≤ Sequence msg →
  mgr_inv (mkSegmentManager (sm_cfg m) (sm_dir m) (<[n := s']> (sm_segments m)) (Some n) lastSeq)
          (<[n := ms ++ [msg]]> mss).
Proof.
  intros Hs' Hb Hle. pose proof mss_length as Hml.
  assert (Hseg : ∀ i s1, <[n := s']> (sm_segments m) !! i = Some s1 →
            ∃ s0, sm_segments m !! i = Some s0 ∧ sg_baseSeq s1 = sg_baseSeq s0 ∧
                  (i ≠ n → s1 = s0)).
  { intros i s1 Hi. destruct (decide (i = n)) as [->|Hne].
    - rewrite list_lookup_insert_eq in Hi by lia. simplify_eq. by exists s.
    - rewrite list_lookup_insert_ne in Hi by done. by exists s1. }
  assert (Hmsg : ∀ i l x, <[n := ms ++ [msg]]> mss !! i = Some l → x ∈ l →
            (∃ l0, mss !! i = Some l0 ∧ x ∈ l0) ∨ (i = n ∧ x = msg)).
  { intros i l x Hi Hx. destruct (decide (i = n)) as [->|Hne].
    - rewrite list_lookup_insert_eq in Hi by lia. simplify_eq.
      apply elem_of_app in Hx as [Hx|Hx%list_elem_of_singleton]; [left; by exists ms|by right].
    - rewrite list_lookup_insert_ne in Hi by done. left. by exists l. }
  split; cbn [sm_cfg sm_dir sm_segments sm_active].
  - apply Hinv.
  - apply Hinv.
  - apply Forall2_insert; [apply Hinv|done].
  - rewrite (concat_insert_last mss n ms) by done. apply msgs_sorted_snoc; [apply Hinv|done].
  - intros i s1 l x Hi Hl Hx. destruct (Hseg i s1 Hi) as (s0 & Hs0 & -> & _).
    destruct (Hmsg i l x Hl Hx) as [(l0 & Hl0 & Hx0)|[-> ->]]; [by eapply (mi_base _ _ Hinv)|].
    by simplify_eq.
  - intros i j s1 l x Hij Hj Hl Hx. destruct (Hseg j s1 Hj) as (s0 & Hs0 & -> & _).
    pose proof (lookup_lt_Some _ _ _ Hs0).
    destruct (Hmsg i l x Hl Hx) as [(l0 & Hl0 & Hx0)|[-> ->]]; [|lia].
    by apply (mi_next _ _ Hinv i j s0 l0).
  - intros i j si sj Hij Hi Hj.
    destruct (Hseg i si Hi) as (si0 & ? & -> & _), (Hseg j sj Hj) as (sj0 & ? & -> & _).
    by apply (mi_bases _ _ Hinv i j).
  - rewrite length_insert, Hlen. intros i s1 Hi Hl.
    destruct (Hseg i s1 Hl) as (s0 & Hs0 & _ & Heq). rewrite Heq by lia.
    eapply (mi_flushed _ _ Hinv i); [lia|done].
  - exists n. by rewrite length_insert.
  - intros i s1 Hi Hl. destruct (Hseg i s1 Hi) as (s0 & Hs0 & -> & _).
    destruct (decide (i = n)) as [->|Hne].
    + rewrite list_lookup_insert_eq in Hl by lia. by destruct ms.
    + rewrite list_lookup_insert_ne in Hl by done. by apply (mi_empty _ _ Hinv i).
Qed.

(** A message beyond all those of a non-empty active segment is beyond all bases. *)
Lemma bases_lt i s0 : ms ≠ [] → sm_segments m !! i = Some s0 → sg_baseSeq s0 < Sequence msg.
Proof.
  intros Hne Hi. pose proof (lookup_lt_Some _ _ _ Hi). destruct ms as [|x ms']; [done|].
  assert (Hx : x ∈ x :: ms') by (by left).
  pose proof (mi_base _ _ Hinv _ _ _ _ Hs Hms Hx). pose proof (mss_gt _ _ _ Hms Hx).
  destruct (decide (i = n)) as [->|Hin]; [simplify_eq; lia|].
  pose proof (mi_bases _ _ Hinv i n s0 s ltac:(lia) Hi Hs). lia.
Qed.

(** The segments after a roll. *)
Lemma roll_segments s' i s1 :
  (<[n := segment_Sync s]> (sm_segments m) ++ [s']) !! i = Some s1 →
  (i = S n ∧ s1 = s') ∨
  (i ≤ n ∧ ∃ s0, sm_segments m !! i = Some s0 ∧ sg_baseSeq s1 = sg_baseSeq s0 ∧ flushed s1)%nat.
Proof.
  intros Hi. apply lookup_snoc_Some in Hi as [[Hlt Hi]|[-> <-]]; rewrite length_insert in *; [right|left; lia || done].
  split; [lia|]. destruct (decide (i = n)) as [->|Hin].
  - rewrite list_lookup_insert_eq in Hi by lia. simplify_eq. by exists s.
  - rewrite list_lookup_insert_ne in Hi by done. exists s1. split_and!; [done|done|].
    eapply (mi_flushed _ _ Hinv i); [lia|done].
Qed.

(** Rolling: the active segment is synced and a new one receives the message. *)
Lemma mgr_inv_roll s' lastSeq :
  seg_inv s' [msg] → sg_baseSeq s' = Sequence msg → ms ≠ [] →
  mgr_inv (mkSegmentManager (sm_cfg m) (sm_dir m)
             (<[n := segment_Sync s]> (sm_segments m) ++ [s']) (Some (S n)) lastSeq)
          (mss ++ [[msg]]).
Proof.
  intros Hs' Hb Hne. pose proof mss_length as Hml.
  set (segs := <[n := segment_Sync s]> (sm_segments m)).
  assert (Hsl : length segs = S n) by (unfold segs; by rewrite length_insert).
  pose proof (roll_segments s') as Hseg. fold segs in Hseg.
  pose proof (λ i s0, bases_lt i s0 Hne) as Hlast.
  assert (Hmsg : ∀ i l, (mss ++ [[msg]]) !! i = Some l →
            (i ≤ n ∧ mss !! i = Some l)%nat ∨ (i = S n ∧ l = [msg])).
  { intros i l Hi. apply lookup_snoc_Some in Hi as [[Hlt Hi]|[-> <-]]; [left|right].
    - split; [lia|done].
    - by rewrite Hml. }
  split; cbn [sm_cfg sm_dir sm_segments sm_active].
  - apply Hinv.
  - apply Hinv.
  - apply Forall2_app; [|by constructor].
    pose proof (mi_segs _ _ Hinv) as H2. unfold segs.
    rewrite <- (list_insert_id mss n ms) by done. apply Forall2_insert; [done|].
    apply segment_Sync_inv. by eapply (Forall2_lookup_lr _ _ _ _ _ _ H2).
  - rewrite concat_app. cbn [concat app]. apply msgs_sorted_snoc; [apply Hinv|done].
  - intros i s1 l x Hi Hl Hx.
    destruct (Hseg i s1 Hi) as [[-> ->]|(? & s0 & Hs0 & -> & _)],
             (Hmsg _ l Hl) as [[? Hl']|[? ->]]; try lia.
    + apply list_elem_of_singleton in Hx as ->. lia.
    + by eapply (mi_base _ _ Hinv).
  - intros i j s1 l x Hij Hj Hl Hx.
    destruct (Hseg j s1 Hj) as [[-> ->]|(? & s0 & Hs0 & -> & _)],
             (Hmsg _ l Hl) as [[? Hl']|[? ->]]; try lia.
    + rewrite Hb. by eapply mss_gt.
    + by apply (mi_next _ _ Hinv i j s0 l).
  - intros i j si sj Hij Hi Hj.
    destruct (Hseg i si Hi) as [[-> ->]|(? & s0 & Hs0 & -> & _)],
             (Hseg j sj Hj) as [[-> ->]|(? & s0' & Hs0' & -> & _)]; try lia.
    + rewrite Hb. by eapply Hlast.
    + by apply (mi_bases _ _ Hinv i j).
  - rewrite length_app, Hsl. simpl. intros i s1 Hi Hl.
    by destruct (Hseg i s1 Hl) as [[-> ->]|(? & s0 & Hs0 & _ & ?)]; [lia|].
  - exists (S n). rewrite length_app, Hsl. simpl. split; [lia|done].
  - intros i s1 Hi Hl.
    destruct (Hseg i s1 Hi) as [[-> ->]|(? & s0 & Hs0 & -> & _)],
             (Hmsg _ _ Hl) as [[? Hl']|[? ?]]; try lia; try done.
    by apply (mi_empty _ _ Hinv i).
Qed.
End append.

Lemma find_base_none (segs : list segment) b :
  Forall (λ s, sg_baseSeq s ≠ b) segs → find (λ s, sg_baseSeq s =? b) segs = None.
Proof.
  induction 1 as [|s segs Hs _ IH]; [done|]. simpl.
  by rewrite (proj2 (Z.eqb_neq _ _)).
Qed.

(** One [Append] on a well-formed manager: it succeeds, whether or not it rolls,
    the message is the new end of the log, and [LastSequence] is its sequence. *)
Lemma SegmentManager_Append_inv m mss msg :
  mgr_inv m mss → msg_ok msg → (∀ x, x ∈ concat mss → Sequence x < Sequence msg) →
  Zlen (log_bytes (concat mss ++ [msg])) < 2 ^ 63 →
  ∃ m' mss' o, SegmentManager_Append m msg = Ret (m', Ok (Sequence msg, o)) ∧
    mgr_inv m' mss' ∧ concat mss' = concat mss ++ [msg] ∧
    sm_lastSeq m' = Sequence msg ∧ first_base m' = first_base m.
Proof.
  intros Hinv Hok Hgt Hbd. destruct (mi_active _ _ Hinv) as (n & Hlen & Hact).
  destruct (lookup_lt_is_Some_2 (sm_segments m) n) as [s Hs]; [lia|].
  destruct (Forall2_lookup_l _ _ _ _ _ (mi_segs _ _ Hinv) Hs) as (ms & Hms & Hsi).
  assert (Hb : ∀ l, Zlen (log_bytes l) ≤ Zlen (log_bytes (concat mss)) →
                Zlen (log_bytes (l ++ [msg])) < 2 ^ 63).
  { intros l Hl. rewrite log_bytes_app, length_app in *. lia. }
  unfold SegmentManager_Append. rewrite Hact, Hs.
  destruct (_ <=? segment_Size s) eqn:Hroll; zb.
  - assert (Hne : ms ≠ []).
    { intros ->. unfold segment_Size in Hroll. rewrite (si_size _ _ Hsi) in Hroll.
      pose proof (mi_max _ _ Hinv). simpl in Hroll. lia. }
    assert (Hopen : open_segment m (Sequence msg) =
                    OpenSegment [] [] (Sequence msg) (IndexIntervalBytes (sm_cfg m))).
    { unfold open_segment. rewrite find_base_none.
      - unfold open_in_dir. by rewrite (mi_dir _ _ Hinv).
      - apply Forall_lookup_2. intros i s0 Hi E.
        by pose proof (bases_lt m mss msg n s ms Hinv Hlen Hs Hms Hgt i s0 Hne Hi); lia. }
    rewrite Hopen.
    destruct (segment_Append_inv (OpenSegment [] [] (Sequence msg) (IndexIntervalBytes (sm_cfg m)))
                [] msg) as (s' & -> & Hs' & Hbase);
      [apply OpenSegment_inv|done|by intros ? ?%not_elem_of_nil|apply (Hb []); simpl; lia|].
    eexists _, (mss ++ [[msg]]), _. split; [reflexivity|]. split.
    { rewrite insert_app_r_alt by (rewrite length_insert; lia).
      rewrite length_insert, Nat.sub_diag. cbn [insert list_insert]. rewrite Hlen.
      by apply (mgr_inv_roll m mss msg n s ms). }
    split_and!; [by rewrite concat_app|done|]. unfold first_base. cbn [sm_segments].
    destruct (sm_segments m); [done|]. by destruct n; simplify_eq/=.
  - assert (Hle : sg_baseSeq s ≤ Sequence msg).
    { destruct ms as [|x ms'].
      - rewrite (mi_empty _ _ Hinv n s Hs Hms). pose proof (ok_seq _ Hok). go_lia.
      - assert (Hx : x ∈ x :: ms') by (by left).
        pose proof (mi_base _ _ Hinv _ _ _ _ Hs Hms Hx).
        pose proof (mss_gt mss msg Hgt _ _ _ Hms Hx). lia. }
    destruct (segment_Append_inv s ms msg) as (s' & -> & Hs' & Hbase);
      [done|done|by intros x Hx; eapply mss_gt|apply Hb; by eapply log_bytes_concat_le|].
    eexists _, (<[n := ms ++ [msg]]> mss), _. split; [reflexivity|]. split.
    { by apply (mgr_inv_grow m mss msg n s ms). }
    split_and!; [|done|].
    + rewrite (concat_insert_last mss n ms); [done| |done]. by apply (mss_length m mss n).
    + unfold first_base. cbn [sm_segments].
      destruct (sm_segments m); [done|]. by destruct n; simplify_eq/=.
Qed.

(** ** A fresh log, Sync *)

Lemma NewSegmentManager_fresh cfg :
  0 < MaxSegmentBytes cfg → mgr_inv (NewSegmentManager cfg []) [[]].
Proof.
  intros Hmax. unfold NewSegmentManager, loadSegments. simpl.
  split; simpl; try done.
  - constructor; [apply OpenSegment_inv|constructor].
  - intros [|i] s ms x ? ? Hx; simplify_eq/=. by apply not_elem_of_nil in Hx.
  - intros i [|j] ? ? ? ? ?; [lia|done].
  - intros i [|j] ? ? ? ? ?; [lia|done].
  - intros i s Hi. lia.
  - by exists 0%nat.
  - intros [|i] s ? ?; by simplify_eq/=.
Qed.

Lemma SegmentManager_Sync_inv m mss :
  mgr_inv m mss →
  ∃ m', SegmentManager_Sync m = Ret m' ∧ mgr_inv m' mss ∧ all_flushed m' ∧
        sm_lastSeq m' = sm_lastSeq m ∧ first_base m' = first_base m.
Proof.
  intros Hinv. destruct (mi_active _ _ Hinv) as (n & Hlen & Hact).
  destruct (lookup_lt_is_Some_2 (sm_segments m) n) as [s Hs]; [lia|].
  destruct (Forall2_lookup_l _ _ _ _ _ (mi_segs _ _ Hinv) Hs) as (ms & Hms & Hsi).
  unfold SegmentManager_Sync. rewrite Hact, Hs. eexists. split; [reflexivity|].
  assert (Hseg : ∀ i s1, <[n := segment_Sync s]> (sm_segments m) !! i = Some s1 →
            ∃ s0, sm_segments m !! i = Some s0 ∧ sg_baseSeq s1 = sg_baseSeq s0 ∧ flushed s1).
  { intros i s1 Hi. destruct (decide (i = n)) as [->|Hne].
    - rewrite list_lookup_insert_eq in Hi by lia. simplify_eq. by exists s.
    - rewrite list_lookup_insert_ne in Hi by done. exists s1. split_and!; [done|done|].
      pose proof (lookup_lt_Some _ _ _ Hi). eapply (mi_flushed _ _ Hinv i); [lia|done]. }
  split_and!; [split| |done|]; cbn [sm_cfg sm_dir sm_segments sm_active].
  - apply Hinv.
  - apply Hinv.
  - rewrite <- (list_insert_id mss n ms) by done.
    apply Forall2_insert; [apply Hinv|]. by apply segment_Sync_inv.
  - apply Hinv.
  - intros i s1 l x Hi. destruct (Hseg i s1 Hi) as (s0 & Hs0 & -> & _). by apply (mi_base _ _ Hinv i).
  - intros i j s1 l x Hij Hj. destruct (Hseg j s1 Hj) as (s0 & Hs0 & -> & _).
    by apply (mi_next _ _ Hinv i j s0 l).
  - intros i j si sj Hij Hi Hj.
    destruct (Hseg i si Hi) as (? & ? & -> & _), (Hseg j sj Hj) as (? & ? & -> & _).
    by apply (mi_bases _ _ Hinv i j).
  - intros i s1 _ Hi. by destruct (Hseg i s1 Hi) as (s0 & _ & _ & ?).
  - exists n. by rewrite length_insert.
  - intros i s1 Hi. destruct (Hseg i s1 Hi) as (s0 & Hs0 & -> & _). by apply (mi_empty _ _ Hinv i).
  - apply Forall_lookup_2. intros i s1 Hi. by destruct (Hseg i s1 Hi) as (? & _ & _ & ?).
  - unfold first_base. cbn [sm_segments]. destruct (sm_segments m); [done|]. by destruct n; simplify_eq/=.
Qed.

(** ** Whole-log theorems *)

(** A client that appends messages one after the other and stops at the first
    failure. *)
Fixpoint SegmentManager_append_all (m : SegmentManager) (msgs : list Message)
    : outcome SegmentManager :=
  match msgs with
  | [] => Ret m
  | msg :: msgs =>
      match SegmentManager_Append m msg with
      | Ret (m', Ok _) => SegmentManager_append_all m' msgs
      | Ret (m', Err _) => Ret m'
      | Panic => Panic
      end
  end.

(** Reads to the end of the log. *)
Fixpoint MSR_drain (fuel : nat) (m : SegmentManager) (r : MultiSegmentReader) : list Message :=
  match fuel with
  | O => []
  | S fuel => match MultiSegmentReader_Next m r with
              | (Ok x, r) => x :: MSR_drain fuel m r
              | (Err _, _) => []
              end
  end.

Lemma append_all_inv m mss msgs :
  mgr_inv m mss → Forall msg_ok msgs → msgs_sorted (concat mss ++ msgs) →
  Zlen (log_bytes (concat mss ++ msgs)) < 2 ^ 63 →
  ∃ m' mss', SegmentManager_append_all m msgs = Ret m' ∧ mgr_inv m' mss' ∧
    concat mss' = concat mss ++ msgs ∧ first_base m' = first_base m.
Proof.
  revert m mss. induction msgs as [|msg msgs IH]; intros m mss Hinv Hok Hsort Hbd.
  { exists m, mss. by rewrite app_nil_r. }
  apply Forall_cons_1 in Hok as [Hm Hok].
  rewrite (cons_middle msg), app_assoc in Hsort, Hbd.
  destruct (SegmentManager_Append_inv m mss msg) as (m' & mss' & o & Happ & Hinv' & Hc & _ & Hfb);
    [done|done| | |].
  - intros x Hx. apply list_elem_of_lookup in Hx as [i Hi].
    pose proof (lookup_lt_Some _ _ _ Hi).
    apply (Hsort i (length (concat mss))); [done| |].
    + rewrite <- app_assoc. by rewrite lookup_app_l.
    + rewrite lookup_app_l by (rewrite length_app; simpl; lia). by apply list_lookup_middle.
  - rewrite log_bytes_app, length_app in Hbd. lia.
  - cbn [SegmentManager_append_all]. rewrite Happ.
    destruct (IH m' mss') as (m'' & mss'' & ? & ? & Hc' & Hfb'); rewrite ?Hc; auto.
    exists m'', mss''. split_and!; auto; [|congruence]. rewrite Hc', Hc, <- app_assoc. done.
Qed.

Lemma MSR_drain_spec m mss fuel r rem k :
  mgr_inv m mss → all_flushed m → msr_reads mss r rem k → (length rem < fuel)%nat →
  MSR_drain fuel m r = map stored rem.
Proof.
  intros Hinv Hfl. revert r rem k. induction fuel as [|fuel IH]; intros r rem k Hr Hf; [lia|].
  cbn [MSR_drain]. destruct (MultiSegmentReader_Next_spec m mss Hinv Hfl r rem k Hr)
    as (r' & k' & Hres).
  destruct rem as [|x rem]; destruct Hres as [-> Hr']; [done|].
  cbn [map]. f_equal. eapply IH; [done|]. simpl in Hf. lia.
Qed.


(** ** Retention *)

Lemma retention_count_lt cfg now modTime segs total :
  segs ≠ [] → (retention_count cfg now modTime segs total < length segs)%nat.
Proof.
  revert total. induction segs as [|s segs IH]; intros total Hne; [done|].
  destruct segs as [|s' segs]; [simpl; lia|].
  specialize (IH (i64 (total - segment_Size s)) ltac:(done)).
  remember (s' :: segs) as l eqn:E.
  assert (Hle : (retention_count cfg now modTime (s :: l) total ≤
                 S (retention_count cfg now modTime l (i64 (total - segment_Size s))))%nat).
  { subst l. cbn [retention_count]. by case_if; [|lia]. }
  cbn [length]. lia.
Qed.

(** Dropping the oldest segments keeps the invariant for what is left. *)
Lemma mgr_inv_drop m mss k :
  mgr_inv m mss → (k < length (sm_segments m))%nat →
  mgr_inv (mkSegmentManager (sm_cfg m) (sm_dir m) (drop k (sm_segments m))
             ((λ a, a - k)%nat <$> sm_active m) (sm_lastSeq m)) (drop k mss).
Proof.
  intros Hinv Hk. split; cbn [sm_cfg sm_dir sm_segments sm_active].
  - apply Hinv.
  - apply Hinv.
  - apply Forall2_drop, Hinv.
  - pose proof (mi_sorted _ _ Hinv) as Hs.
    rewrite <- (take_drop k mss), concat_app in Hs.
    intros i j x y Hij Hi Hj.
    apply (Hs (length (concat (take k mss)) + i)%nat (length (concat (take k mss)) + j)%nat);
      [lia| |]; by rewrite lookup_app_r, Nat.add_comm, Nat.add_sub by lia.
  - intros i s ms x. rewrite !lookup_drop. apply (mi_base _ _ Hinv).
  - intros i j s ms x Hij. rewrite !lookup_drop. apply (mi_next _ _ Hinv). lia.
  - intros i j si sj Hij. rewrite !lookup_drop. apply (mi_bases _ _ Hinv). lia.
  - intros i s. rewrite length_drop, lookup_drop. intros Hi. apply (mi_flushed _ _ Hinv). lia.
  - destruct (mi_active _ _ Hinv) as (n & Hn & ->). exists (n - k)%nat.
    rewrite length_drop. split; [lia|done].
  - intros i s. rewrite !lookup_drop. apply (mi_empty _ _ Hinv).
Qed.

(** Retention only ever removes whole segments from the old end. Whatever
    the limits, the clock and the file times are, the segments left are a
    non-empty suffix that contains the active segment, the log invariant holds
    for exactly the messages of those segments, and [LastSequence] is unchanged. *)
Lemma retention_keeps_active m mss now modTime :
  mgr_inv m mss →
  ∃ k, (k < length (sm_segments m))%nat ∧
    sm_segments (enforceRetention m now modTime) = drop k (sm_segments m) ∧
    mgr_inv (enforceRetention m now modTime) (drop k mss) ∧
    (sm_active (enforceRetention m now modTime) ≫= λ a,
       sm_segments (enforceRetention m now modTime) !! a) =
      (sm_active m ≫= λ a, sm_segments m !! a) ∧
    SegmentManager_LastSequence (enforceRetention m now modTime) = SegmentManager_LastSequence m.
Proof.
  intros Hinv. destruct (mi_active _ _ Hinv) as (n & Hn & Ha).
  unfold enforceRetention. destruct (Nat.leb_spec (length (sm_segments m)) 1) as [Hle|Hgt].
  { exists 0%nat. rewrite !drop_0. split_and!; [lia|done|done|done|done]. }
  set (k := retention_count _ _ _ _ _).
  assert (Hk : (k < length (sm_segments m))%nat).
  { apply retention_count_lt. intros E. by rewrite E in Hn. }
  exists k. split_and!; [done|done|by apply mgr_inv_drop| |done].
  cbn [sm_active sm_segments]. rewrite Ha. cbn [mbind option_bind fmap option_fmap option_map].
  rewrite lookup_drop. f_equal. lia.
Qed.

(** ** The interface wal.Log *)

Instance SegmentManager_WalLog : WalLog SegmentManager MultiSegmentReader := {
  wl_NewReader := SegmentManager_NewReader;
  wl_Next := MultiSegmentReader_Next;
  wl_LastSequence := SegmentManager_LastSequence;
}.

Definition mgr_holds (m : SegmentManager) (ms : list Message) : Prop :=
  ∃ mss, mgr_inv m mss ∧ all_flushed m ∧ ms = map stored (concat mss).

Definition mgr_reads (m : SegmentManager) (r : MultiSegmentReader) (ms : list Message) : Prop :=
  ∃ mss rem k, mgr_inv m mss ∧ all_flushed m ∧ msr_reads mss r rem k ∧ ms = map stored rem.

Lemma filter_stored start ms :
  filter (λ x, start ≤ Sequence x) (map stored ms) =
  map stored (filter (λ x, start ≤ Sequence x) ms).
Proof.
  induction ms as [|x ms IH]; [done|]. cbn [map].
  rewrite !filter_cons. cbn [stored Sequence]. case_decide; [cbn [map]; by f_equal|done].
Qed.

(** The segment manager honours the contract its clients are proved against. *)
#[refine] Instance SegmentManager_laws : WalLogLaws SegmentManager MultiSegmentReader := {
  wl_holds := mgr_holds;
  wl_first := first_base;
  wl_reads := mgr_reads;
}.
Proof.
  - intros l ms (mss & Hinv & _ & ->). apply Forall_forall. intros x Hx.
    apply list_elem_of_In, in_map_iff in Hx as (y & <- & Hy).
    apply list_elem_of_In, concat_elem in Hy as (i & l0 & Hi & Hy).
    pose proof (mss_ok _ _ Hinv _ _ Hi) as Hok. rewrite Forall_forall in Hok.
    apply (Hok y Hy).
  - intros l ms i j x y (mss & Hinv & _ & ->) Hij Hi Hj.
    change (map stored (concat mss)) with (stored <$> concat mss) in *.
    apply list_lookup_fmap_Some_1 in Hi as (x0 & -> & Hi).
    apply list_lookup_fmap_Some_1 in Hj as (y0 & -> & Hj).
    by apply (mi_sorted _ _ Hinv i j x0 y0).
  - intros l ms start (mss & Hinv & _). by eapply NewReader_old.
  - intros l ms start (mss & Hinv & Hfl & ->) Hle.
    destruct (NewReader_spec l mss start Hinv Hle) as (r & k & Hr & Hreads).
    exists r. split; [done|]. rewrite filter_stored. by eexists mss, _, k.
  - intros l r (mss & rem & k & Hinv & Hfl & Hr & Hnil).
    destruct rem; [|done].
    destruct (MultiSegmentReader_Next_spec l mss Hinv Hfl r [] k Hr) as (r' & k' & Hn & Hr').
    exists r'. split; [done|]. by exists mss, [], k'.
  - intros l r x ms (mss & rem & k & Hinv & Hfl & Hr & Hc).
    destruct rem as [|y rem]; [done|]. cbn [map] in Hc. injection Hc as -> ->.
    destruct (MultiSegmentReader_Next_spec l mss Hinv Hfl r (y :: rem) k Hr) as (r' & k' & Hn & Hr').
    exists r'. split; [done|]. by exists mss, rem, k'.
Defined.

(** ** Reopening *)

(** A manager opened over a directory that already has
    a segment has no active segment, because [loadSegments] assigns [m.active]
    only when it creates the first one; appending to it or syncing it
    dereferences nil, whatever the directory holds. *)
Lemma append_after_reopen_panics cfg dir msg :
  dir_baseSeqs dir ≠ [] →
  SegmentManager_Append (NewSegmentManager cfg dir) msg = Panic ∧
  SegmentManager_Sync (NewSegmentManager cfg dir) = Panic.
Proof.
  intros Hne. unfold NewSegmentManager, loadSegments.
  destruct (merge_sort Z.le (dir_baseSeqs dir)) as [|b bs] eqn:E; [|done].
  exfalso. apply Hne. apply Permutation_nil. rewrite <- E. apply merge_sort_Permutation.
Qed.

(** ** Concrete logs *)

Definition demo_cfg : Config := mkConfig 40 16 150 0.
Definition demo_msg (seq : Z) : Message :=
  mkMessage seq (1000 * seq) "AAPL" "" (bytes_of_string "tick").
Definition demo_msgs : list Message := map demo_msg [1; 2; 3; 4; 5; 6].

(** A log of three segments of two messages each, on disk. *)
Definition demo_log : SegmentManager :=
  match SegmentManager_append_all (NewSegmentManager demo_cfg []) demo_msgs with
  | Ret m => match SegmentManager_Sync m with Ret m => m | Panic => m end
  | Panic => NewSegmentManager demo_cfg []
  end.

Lemma demo_ok : Forall msg_ok demo_msgs.
Proof. repeat constructor; simpl; go_lia. Qed.

Lemma demo_sorted : msgs_sorted demo_msgs.
Proof.
  intros i j x y Hij Hi Hj. pose proof (lookup_lt_Some _ _ _ Hj) as Hl. simpl in Hl.
  do 6 (destruct i as [|i]; [do 6 (destruct j as [|j]; [simplify_eq/=; lia|]); simpl in *; lia|]).
  lia.
Qed.


Lemma demo_log_inv :
  ∃ mss, mgr_inv demo_log mss ∧ all_flushed demo_log ∧ concat mss = demo_msgs.
Proof.
  pose proof (NewSegmentManager_fresh demo_cfg ltac:(done)) as Hinv0.
  destruct (append_all_inv _ _ demo_msgs Hinv0 demo_ok) as (m & mss & Happ & Hinv & Hc & _);
    [apply demo_sorted|vm_compute; done|].
  destruct (SegmentManager_Sync_inv m mss Hinv) as (m' & Hsync & Hinv' & Hfl & _).
  exists mss. unfold demo_log. rewrite Happ, Hsync.
  exact (conj Hinv' (conj Hfl Hc)).
Qed.

Lemma demo_log_holds : mgr_holds demo_log (map stored demo_msgs).
Proof.
  destruct demo_log_inv as (mss & Hinv & Hfl & Hc).
  exists mss. rewrite Hc. exact (conj Hinv (conj Hfl eq_refl)).
Qed.

Lemma retention_keeps_active_witness :
  ∃ mss k, (k < length (sm_segments demo_log))%nat ∧
    sm_segments (enforceRetention demo_log 0 (λ _, None)) = drop k (sm_segments demo_log) ∧
    mgr_inv (enforceRetention demo_log 0 (λ _, None)) (drop k mss).
Proof.
  destruct demo_log_inv as (mss & Hinv & _).
  destruct (retention_keeps_active demo_log mss 0 (λ _, None) Hinv) as (k & Hk & Hsegs & Hinv' & _).
  exact (ex_intro _ mss (ex_intro _ k (conj Hk (conj Hsegs Hinv')))).
Defined.

Lemma segment_name_roundtrip_witness :
  ExtractBaseSequence (segment_basename 18446744073709551615 +:+ ".log")
    = Some 18446744073709551615.
Proof. apply (segment_name_roundtrip 18446744073709551615). go_lia. Defined.

Lemma append_after_reopen_panics_witness :
  SegmentManager_Append
    (NewSegmentManager demo_cfg [mkDirEntry "00000000000000000000.log" false []])
    (demo_msg 1) = Panic.
Proof.
  apply (append_after_reopen_panics demo_cfg
           [mkDirEntry "00000000000000000000.log" false []] (demo_msg 1)).
  by vm_compute.
Defined.

(** A reader names its segment by its index in the
    manager's slice, and retention shifts that slice. In a log of three segments
    holding 1-2, 3-4 and 5-6, a reader that has returned 1 and is overtaken by a
    retention pass that drops the oldest segment goes on with 2 and then 5: the
    retained messages 3 and 4 are never returned. *)
Lemma reader_skips_after_retention :
  match SegmentManager_NewReader demo_log 1 with
  | Ok r =>
      let '(first, r) := MultiSegmentReader_Next demo_log r in
      let m := enforceRetention demo_log 0 (λ _, None) in
      first = Ok (demo_msg 1) ∧
      map sg_baseSeq (sm_segments m) = [3; 5] ∧
      map Sequence (MSR_drain 10 m r) = [2; 5; 6]
  | Err _ => False
  end.
Proof. vm_compute. done. Qed.
