(* ===== verification/Allocator.v ===== *)
(** * Allocator: the global sequence counter

    [internal/sequencer/allocator.go]: an atomic uint64 that hands out sequence
    numbers and is restored from the write-ahead log after a restart. Each method
    is one atomic operation, so a concurrent execution is a sequence of calls. *)

From S2P Require Import Prelude Bytes WalCodec.

Record Allocator := mkAllocator { al_sequence : Z }.

Definition NewAllocator : Allocator := mkAllocator 0.
Definition Allocator_Next (a : Allocator) : Allocator * Z :=
  let v := u64 (al_sequence a + 1) in (mkAllocator v, v).
Definition Allocator_Current (a : Allocator) : Z := al_sequence a.
Definition Allocator_Set (a : Allocator) (val : Z) : Allocator := mkAllocator val.

(** The scan of [InitFromWAL]; an end of file or a torn tail ends it. *)
Fixpoint init_scan (fuel : nat) (r : LogReader) (maxSeq : Z) : result Z WalError :=
  match fuel with
  | O => Ok maxSeq
  | S fuel =>
      match LogReader_Next r with
      | (Err EOF, _) | (Err ErrCorruptedTail, _) => Ok maxSeq
      | (Err e, _) => Err e
      | (Ok msg, r) => init_scan fuel r (if maxSeq <? Sequence msg then Sequence msg else maxSeq)
      end
  end.

(** "failed to open WAL" and "error scanning WAL". *)
Inductive InitError :=
| ErrOpenWAL
| ErrScanWAL (e : WalError).

(** [None] for the file: it cannot be opened. Every record takes at least one
    byte, so the length of the file bounds the number of turns. *)
Definition Allocator_InitFromWAL (a : Allocator) (file : option (list byte))
    : result Allocator InitError :=
  match file with
  | None => Err ErrOpenWAL
  | Some data =>
      match init_scan (S (length data)) (NewReader data) 0 with
      | Ok maxSeq => Ok (Allocator_Set a maxSeq)
      | Err e => Err (ErrScanWAL e)
      end
  end.

(** ** Allocation *)

(** A linearised run of [n] calls of [Next], by any callers. *)
Fixpoint Allocator_run (n : nat) (a : Allocator) : Allocator * list Z :=
  match n with
  | O => (a, [])
  | S n => let '(a, v) := Allocator_Next a in
           let '(a, vs) := Allocator_run n a in (a, v :: vs)
  end.

Lemma Allocator_run_spec n a :
  0 ≤ al_sequence a → al_sequence a + Z.of_nat n < 2 ^ 64 →
  Allocator_run n a = (mkAllocator (al_sequence a + Z.of_nat n),
                       (λ k, al_sequence a + 1 + Z.of_nat k) <$> seq 0 n).
Proof.
  revert a. induction n as [|n IH]; intros a Ha Hn.
  { destruct a as [v]. simpl. by rewrite Z.add_0_r. }
  cbn [Allocator_run Allocator_Next]. rewrite u64_small by go_lia.
  rewrite IH by (simpl; lia). cbn [al_sequence seq fmap list_fmap]. f_equal.
  - f_equal. lia.
  - f_equal; [lia|]. rewrite <- (fmap_S_seq 0 n), <- list_fmap_compose.
    apply list_fmap_ext. intros i k _. simpl. lia.
Qed.

(** ** Restart *)

Fixpoint max_seq (ms : list Message) : Z :=
  match ms with [] => 0 | m :: ms => Z.max (Sequence m) (max_seq ms) end.

Lemma max_seq_bound ms x : x ∈ ms → Sequence x ≤ max_seq ms.
Proof.
  induction ms as [|m ms IH]; [by intros ?%not_elem_of_nil|].
  intros [->|Hx]%elem_of_cons; simpl; [lia|]. specialize (IH Hx). lia.
Qed.

Lemma max_seq_nonneg ms : 0 ≤ max_seq ms.
Proof. induction ms; simpl; lia. Qed.

Lemma max_seq_stored ms : max_seq (map stored ms) = max_seq ms.
Proof. induction ms as [|m ms IH]; [done|]. cbn [map max_seq]. by rewrite IH. Qed.

Lemma max_seq_u64 ms : Forall msg_ok ms → max_seq ms < 2 ^ 64.
Proof.
  induction 1 as [|m ms Hm _ IH]; simpl; [lia|]. pose proof (ok_seq _ Hm). go_lia.
Qed.

(** The scan keeps the maximum of what draining the reader would return. *)
Lemma init_scan_drain fuel r m :
  0 ≤ m →
  init_scan fuel r m =
    match LogReader_drain fuel r with
    | (ms, EOF) | (ms, ErrCorruptedTail) => Ok (Z.max m (max_seq ms))
    | (_, e) => Err e
    end.
Proof.
  revert r m. induction fuel as [|fuel IH]; intros r m Hm.
  { simpl. f_equal. lia. }
  cbn [init_scan LogReader_drain]. destruct (LogReader_Next r) as [[msg|e] r'].
  - assert (Hmax : (if m <? Sequence msg then Sequence msg else m) = Z.max m (Sequence msg))
      by (case_if; lia).
    rewrite Hmax, IH by lia. destruct (LogReader_drain fuel r') as [ms []]; try done;
      cbn [max_seq]; f_equal; lia.
  - destruct e; try done; cbn [max_seq]; f_equal; lia.
Qed.

(** The counter survives a crash. Take the bytes of any appended messages,
    cut at any point: [InitFromWAL] succeeds, sets the counter to the highest
    sequence among exactly the records that survive whole, and every sequence
    handed out afterwards is above all of them and unique. *)
Lemma allocator_resumes_after_crash a ms k n :
  Forall msg_ok ms →
  let file := lw_file (LogWriter_Sync (append_all (NewWriter []) ms)) in
  (k ≤ length file)%nat → max_seq ms + Z.of_nat n < 2 ^ 64 →
  ∃ i a', (i ≤ length ms)%nat ∧ (length (log_bytes (take i ms)) ≤ k)%nat ∧
    ((i < length ms)%nat → (k < length (log_bytes (take (S i) ms)))%nat) ∧
    Allocator_InitFromWAL a (Some (take k file)) = Ok a' ∧
    Allocator_Current a' = max_seq (take i ms) ∧
    NoDup (snd (Allocator_run n a')) ∧
    (∀ v x, v ∈ snd (Allocator_run n a') → x ∈ take i ms → Sequence x < v).
Proof.
  intros Hok file Hk Hn.
  assert (Hb : file = log_bytes ms).
  { change (lw_bytes (append_all (NewWriter []) ms) = log_bytes ms). by rewrite append_all_bytes. }
  rewrite Hb in *. clear file Hb.
  destruct (LogReader_drain_torn (S (length (take k (log_bytes ms)))) (NewReader (take k (log_bytes ms))) ms k)
    as (i & Hi & Hle & Hlt & Hd); auto; [apply NewReader_wf|rewrite length_take; lia|].
  assert (Hmax : max_seq (take i ms) ≤ max_seq ms).
  { clear. revert i. induction ms as [|m ms IH]; intros [|i]; simpl; try lia.
    - pose proof (max_seq_nonneg ms). lia.
    - specialize (IH i). lia. }
  pose proof (max_seq_nonneg (take i ms)).
  exists i, (mkAllocator (max_seq (take i ms))). split_and!; auto.
  - unfold Allocator_InitFromWAL. rewrite init_scan_drain, Hd by lia. rewrite max_seq_stored.
    unfold Allocator_Set. rewrite Z.max_r by done. by case_decide.
  - rewrite Allocator_run_spec by (simpl; lia). simpl. apply NoDup_fmap_2_strong; [|apply NoDup_seq].
    intros x y _ _ Hxy. lia.
  - rewrite Allocator_run_spec by (simpl; lia). cbn [snd al_sequence].
    intros v x (j & -> & _)%list_elem_of_fmap Hx. pose proof (max_seq_bound _ _ Hx). lia.
Qed.

(** A crash 40 bytes into a log of two records, then three allocations. *)
Lemma allocator_resumes_after_crash_witness :
  ∃ i a', (i ≤ 2)%nat ∧
    Allocator_InitFromWAL NewAllocator
      (Some (take 40 (lw_file (LogWriter_Sync (append_all (NewWriter []) [rec_a; rec_b])))))
      = Ok a' ∧
    Allocator_Current a' = max_seq (take i [rec_a; rec_b]).
Proof.
  destruct (allocator_resumes_after_crash NewAllocator [rec_a; rec_b] 40 3)
    as (i & a' & Hi & _ & _ & Ha & Hc & _); [apply rec_ab_ok|vm_compute; lia|vm_compute; done|].
  exact (ex_intro _ i (ex_intro _ a' (conj Hi (conj Ha Hc)))).
Defined.
