(* ===== verification/Replay.v ===== *)
(** * Replay: serving history from the log

    [internal/replay/engine.go] (Engine.Start and its iterator) and
    [service.go] (Service.Replay). Everything is proved against the interface
    [WalLog] and its laws, so it holds for any log that honours them; the segment
    manager does. *)

From S2P Require Import Prelude Bytes WalCodec WalSegment WalLog WalManager Allocator.

Section replay.
Context {L R : Type} `{!WalLog L R}.

(** *** Engine *)

Record walIterator := mkIterator {
  it_reader : R;
  it_resumeFrom : Z;
  it_endSequence : Z;
  it_nextMsg : option Message;
  it_done : bool;
}.

(** The fast-forward loop of [Start]. [None]: the fuel ran out before the loop
    ended. *)
Fixpoint fast_forward (fuel : nat) (walLog : L) (it : walIterator)
    : option (result walIterator WalError) :=
  match fuel with
  | O => None
  | S fuel =>
      match wl_Next walLog (it_reader it) with
      | (Err ErrCorruptedTail, r) | (Err EOF, r) =>
          Some (Ok (mkIterator r (it_resumeFrom it) (it_endSequence it) None true))
      | (Err e, r) => Some (Err e)
      | (Ok msg, r) =>
          if it_resumeFrom it <=? Sequence msg
          then Some (Ok (mkIterator r (it_resumeFrom it) (it_endSequence it) (Some msg)
                           (it_done it)))
          else fast_forward fuel walLog
                 (mkIterator r (it_resumeFrom it) (it_endSequence it) (it_nextMsg it)
                    (it_done it))
      end
  end.

Definition Engine_Start (fuel : nat) (walLog : L) (resumeFrom endSequence : Z)
    : option (result walIterator WalError) :=
  match wl_NewReader walLog resumeFrom with
  | Err e => Some (Err e)
  | Ok reader =>
      fast_forward fuel walLog (mkIterator reader resumeFrom endSequence None false)
  end.

Definition walIterator_Next (walLog : L) (i : walIterator)
    : result Message WalError * walIterator :=
  let set_done r :=
    mkIterator r (it_resumeFrom i) (it_endSequence i) None true in
  if it_done i then (Err EOF, i)
  else match it_nextMsg i with
  | Some msg =>
      if it_endSequence i <? Sequence msg then (Err EOF, set_done (it_reader i))
      else (Ok msg, mkIterator (it_reader i) (it_resumeFrom i) (it_endSequence i) None false)
  | None =>
      match wl_Next walLog (it_reader i) with
      | (Err ErrCorruptedTail, r) | (Err EOF, r) => (Err EOF, set_done r)
      | (Err e, r) => (Err e, mkIterator r (it_resumeFrom i) (it_endSequence i) None false)
      | (Ok msg, r) =>
          if it_endSequence i <? Sequence msg then (Err EOF, set_done r)
          else (Ok msg, mkIterator r (it_resumeFrom i) (it_endSequence i) None false)
      end
  end.

(** *** Service *)

Inductive ReplayError :=
| ErrLogEmpty (seq : Z)
| ErrFuture (seq current : Z)
| ErrStart (e : WalError)
| ErrRead (e : WalError)
| ErrMissingEarliest (seq earliest : Z)
| ErrMissingNotFound (seq : Z).

(** The loop of [Replay]; each message is copied field by field. *)
Fixpoint replay_collect (fuel : nat) (walLog : L) (it : walIterator) (messages : list Message)
    : option (result (list Message) WalError) :=
  match fuel with
  | O => None
  | S fuel =>
      match walIterator_Next walLog it with
      | (Err EOF, _) => Some (Ok messages)
      | (Err e, _) => Some (Err e)
      | (Ok msg, it) =>
          replay_collect fuel walLog it
            (messages ++ [mkMessage (Sequence msg) (Timestamp msg) (Topic msg) (Type_ msg)
                            (Payload msg)])
      end
  end.

Definition Service_Replay (fuel : nat) (walLog : L) (allocator : Allocator) (resumeFrom : Z)
    : option (result (list Message) ReplayError) :=
  let currentSeq := Allocator_Current allocator in
  if currentSeq =? 0 then
    if 0 <? resumeFrom then Some (Err (ErrLogEmpty resumeFrom)) else Some (Ok [])
  else if currentSeq <? resumeFrom then Some (Err (ErrFuture resumeFrom currentSeq))
  else
    match Engine_Start fuel walLog resumeFrom currentSeq with
    | None => None
    | Some (Err e) => Some (Err (ErrStart e))
    | Some (Ok it) =>
        match replay_collect fuel walLog it [] with
        | None => None
        | Some (Err e) => Some (Err (ErrRead e))
        | Some (Ok messages) =>
            match messages with
            | m :: _ =>
                if resumeFrom <? Sequence m
                then Some (Err (ErrMissingEarliest resumeFrom (Sequence m)))
                else Some (Ok messages)
            | [] => if resumeFrom <=? currentSeq
                    then Some (Err (ErrMissingNotFound resumeFrom))
                    else Some (Ok [])
            end
        end
    end.

(** *** What a replay must answer *)

(** The contract: of the retained messages [ms] (the oldest that can be asked
    for being [first]), the ones between the sequence asked for and the current
    one, provided the one asked for is there. *)
Definition replay_spec (ms : list Message) (first current resumeFrom : Z)
    : result (list Message) ReplayError :=
  if current =? 0 then
    if 0 <? resumeFrom then Err (ErrLogEmpty resumeFrom) else Ok []
  else if current <? resumeFrom then Err (ErrFuture resumeFrom current)
  else if resumeFrom <? first then Err (ErrStart ErrSequenceTooOld)
  else match filter (λ x, resumeFrom ≤ Sequence x ≤ current) ms with
       | [] => Err (ErrMissingNotFound resumeFrom)
       | m :: ms => if Sequence m =? resumeFrom then Ok (m :: ms)
                    else Err (ErrMissingEarliest resumeFrom (Sequence m))
       end.

(** *** Proofs *)

Context `{!WalLogLaws L R}.

(** The part of a sorted list up to [e]. *)
Fixpoint up_to (e : Z) (ms : list Message) : list Message :=
  match ms with
  | [] => []
  | m :: ms => if e <? Sequence m then [] else m :: up_to e ms
  end.

Lemma up_to_filter e ms :
  msgs_sorted ms → up_to e ms = filter (λ x, Sequence x ≤ e) ms.
Proof.
  induction ms as [|m ms IH]; intros Hs; [done|]. cbn [up_to].
  assert (Hs' : msgs_sorted ms).
  { intros i j x y Hij Hi Hj. by apply (Hs (S i) (S j)); [lia|..]. }
  case_if.
  - rewrite filter_cons_False by lia. symmetry. apply filter_none.
    apply Forall_forall. intros x Hx. apply list_elem_of_lookup in Hx as [i Hi].
    pose proof (Hs 0%nat (S i) m x ltac:(lia) eq_refl Hi). lia.
  - rewrite filter_cons_True by lia. by rewrite IH.
Qed.

Lemma wl_msgs_sorted l ms : wl_holds l ms → msgs_sorted ms.
Proof. intros H i j x y. by apply wl_sorted with (l := l). Qed.

(** The iterator's future: an open iterator returns [up_to] of what its queued
    message and its reader still hold. *)
Definition it_future (l : L) (it : walIterator) (ms : list Message) : Prop :=
  if it_done it then ms = []
  else ∃ rest, wl_reads l (it_reader it) rest ∧
       match it_nextMsg it with
       | Some m => ms = up_to (it_endSequence it) (m :: rest)
       | None => ms = up_to (it_endSequence it) rest
       end.

Lemma walIterator_Next_spec l it ms :
  it_future l it ms →
  match ms with
  | [] => ∃ it', walIterator_Next l it = (Err EOF, it') ∧ it_future l it' []
  | m :: ms => ∃ it', walIterator_Next l it = (Ok m, it') ∧ it_future l it' ms
  end.
Proof.
  unfold it_future, walIterator_Next. destruct (it_done it) eqn:Hd.
  { intros ->. exists it. by rewrite Hd. }
  intros (rest & Hr & Hms). destruct (it_nextMsg it) as [m|].
  - rewrite Hms. cbn [up_to]. case_if.
    + eexists. split; [reflexivity|done].
    + eexists. split; [reflexivity|]. simpl. by exists rest.
  - destruct rest as [|m rest].
    + subst ms. simpl. destruct (wl_next_nil l _ Hr) as (r' & -> & _).
      eexists. split; [reflexivity|done].
    + destruct (wl_next_cons l _ m rest Hr) as (r' & -> & Hr'). rewrite Hms. cbn [up_to].
      case_if.
      * eexists. split; [reflexivity|done].
      * eexists. split; [reflexivity|]. simpl. by exists rest.
Qed.

Lemma replay_collect_spec fuel l it ms acc :
  it_future l it ms → (length ms < fuel)%nat →
  replay_collect fuel l it acc = Some (Ok (acc ++ ms)).
Proof.
  revert it ms acc. induction fuel as [|fuel IH]; intros it ms acc Hf Hfuel; [lia|].
  cbn [replay_collect]. pose proof (walIterator_Next_spec l it ms Hf) as Hn.
  destruct ms as [|m ms]; destruct Hn as (it' & -> & Hf'); [by rewrite app_nil_r|].
  rewrite (IH it' ms) by (done || (simpl in Hfuel; lia)).
  rewrite <- app_assoc. by destruct m.
Qed.

(** [Start] on a log that retains the sequence: the iterator yields exactly the
    messages of the range. *)
Lemma Engine_Start_spec fuel l ms from e :
  wl_holds l ms → wl_first l ≤ from → (0 < fuel)%nat →
  ∃ it, Engine_Start fuel l from e = Some (Ok it) ∧
    it_future l it (filter (λ x, from ≤ Sequence x ≤ e) ms).
Proof.
  intros Hh Hfirst Hfuel. destruct fuel as [|fuel]; [lia|].
  destruct (wl_open l ms from Hh Hfirst) as (r & Hr & Hreads).
  unfold Engine_Start. rewrite Hr. cbn [fast_forward it_reader it_resumeFrom].
  pose proof (up_to_filter e ms (wl_msgs_sorted _ _ Hh)) as Hup.
  assert (Hff : filter (λ x, from ≤ Sequence x ≤ e) ms =
                up_to e (filter (λ x, from ≤ Sequence x) ms)).
  { rewrite up_to_filter.
    - rewrite list_filter_filter. apply list_filter_iff. intros x. lia.
    - assert (Hsub : ∀ l, msgs_sorted l → msgs_sorted (filter (λ x, from ≤ Sequence x) l)).
      { clear. induction l as [|m l IH]; intros Hs; [done|].
        assert (Hs' : msgs_sorted l)
          by (intros i j x y Hij Hi Hj; by apply (Hs (S i) (S j)); [lia|..]).
        rewrite filter_cons. case_decide; [|by apply IH].
        intros [|i] [|j] x y Hij Hi Hj; try lia; simplify_eq/=.
        - apply list_elem_of_lookup_2, list_elem_of_filter in Hj as [_ Hj].
          apply list_elem_of_lookup in Hj as [k Hk].
          by apply (Hs 0%nat (S k)); [lia|..].
        - apply (IH Hs' i j); [lia|done|done]. }
      apply Hsub. by eapply wl_msgs_sorted. }
  rewrite Hff. destruct (filter (λ x, from ≤ Sequence x) ms) as [|m rest] eqn:Hfl.
  - destruct (wl_next_nil l r Hreads) as (r' & -> & _). eexists. split; [reflexivity|done].
  - destruct (wl_next_cons l r m rest Hreads) as (r' & -> & Hr').
    assert (Hm : from ≤ Sequence m).
    { assert (m ∈ filter (λ x, from ≤ Sequence x) ms) as Hin by (rewrite Hfl; by left).
      by apply list_elem_of_filter in Hin as [? _]. }
    rewrite (proj2 (Z.leb_le _ _)) by done.
    eexists. split; [reflexivity|]. unfold it_future. cbn [it_done it_nextMsg it_reader it_endSequence].
    by exists rest.
Qed.

(** The answer of a replay, on every branch. *)
Lemma Service_Replay_spec fuel l a ms resumeFrom :
  wl_holds l ms → (length ms < fuel)%nat →
  Service_Replay fuel l a resumeFrom =
    Some (replay_spec ms (wl_first l) (Allocator_Current a) resumeFrom).
Proof.
  intros Hh Hfuel. unfold Service_Replay, replay_spec.
  case_if; [by case_if|]. case_if; [done|].
  destruct (resumeFrom <? wl_first l) eqn:Hold; zb.
  { unfold Engine_Start. by rewrite (wl_open_old l ms). }
  destruct (Engine_Start_spec fuel l ms resumeFrom (Allocator_Current a) Hh)
    as (it & -> & Hit); [done|lia|].
  rewrite (replay_collect_spec fuel l it _ [] Hit); [cbn [app]|].
  2:{ pose proof (length_filter (λ x, resumeFrom ≤ Sequence x ≤ Allocator_Current a) ms). lia. }
  destruct (filter _ ms) as [|m rest] eqn:Hfl.
  - by rewrite (proj2 (Z.leb_le _ _)) by lia.
  - assert (Hm : m ∈ filter (λ x, resumeFrom ≤ Sequence x ≤ Allocator_Current a) ms)
      by (rewrite Hfl; by left).
    apply list_elem_of_filter in Hm as [[Hm _] _].
    destruct (Z.eqb_spec (Sequence m) resumeFrom) as [->|Hne].
    + by rewrite Z.ltb_irrefl.
    + by rewrite (proj2 (Z.ltb_lt _ _)) by lia.
Qed.

(** C5: [Service.Replay] implements its contract on every branch. For any log
    that honours the interface laws and holds the messages [ms], with enough
    turns for the loop, the call returns exactly the messages between the
    sequence asked for and the current one when the one asked for is retained,
    and the error of the first check that fails otherwise. *)
Theorem service_replay_refines_spec fuel l a ms resumeFrom :
  wl_holds l ms → (length ms < fuel)%nat →
  Service_Replay fuel l a resumeFrom =
    Some (replay_spec ms (wl_first l) (Allocator_Current a) resumeFrom).
Proof. apply Service_Replay_spec. Qed.
End replay.

(** The segment manager is such a log: replaying 3 to 6 from the three segments
    of [demo_log]. *)
Lemma service_replay_refines_spec_witness :
  Service_Replay 7 demo_log (mkAllocator 6) 3 =
    Some (replay_spec (map stored demo_msgs) (wl_first demo_log)
            (Allocator_Current (mkAllocator 6)) 3).
Proof.
  apply (service_replay_refines_spec 7 demo_log (mkAllocator 6) (map stored demo_msgs) 3).
  - apply demo_log_holds.
  - cbn. lia.
Defined.
