(* ===== verification/Sharded.v ===== *)
(** * Sharded: maps split over shards by a hash of the key

    The ordering validator, the client queues and the topic manager keep a map
    per shard (16 by default) and route a key by its FNV-1a hash. [flat] relates such an
    array of maps to the one map it stands for; the lemmas show that looking up,
    updating, sweeping and clearing through the shards is doing it on that map. *)

From Stdlib Require Import Strings.Byte.
From S2P Require Import Prelude Bytes.

(** [hash/fnv]: New32a. *)
Definition fnv32_offset : Z := 2166136261.
Definition fnv32_prime : Z := 16777619.
Definition fnv1a32 (data : list byte) : Z :=
  fold_left (λ h b, u32 (Z.lxor h (byte_to_Z b) * fnv32_prime)) data fnv32_offset.

(** The published FNV-1a test vectors of the empty string, "a" and "foobar". *)
Example fnv1a32_vectors :
  map (λ s, fnv1a32 (bytes_of_string s)) [""; "a"; "foobar"] =
  [2166136261; 3826002220; 3214735720].
Proof. vm_compute. done. Qed.

Lemma fnv1a32_range data : in_u32 (fnv1a32 data).
Proof.
  unfold fnv1a32. assert (H : in_u32 fnv32_offset) by (unfold in_u32, fnv32_offset; lia).
  revert H. generalize fnv32_offset. induction data as [|b data IH]; intros h Hh; [done|].
  cbn [fold_left]. apply IH, u32_range.
Qed.

Section sharded.
Context {V : Type} (n : nat) (idx : string → nat).
Implicit Types (ss : list (gmap string V)) (m : gmap string V).

(** [ss] holds [m]: each key is in the shard its hash names and nowhere else. *)
Record flat ss m : Prop := {
  flat_len : length ss = n;
  flat_get : ∀ k, ss !! idx k ≫= lookup k = m !! k;
  flat_own : ∀ i sh k, ss !! i = Some sh → is_Some (sh !! k) → i = idx k;
}.

Hypothesis idx_lt : ∀ k, (idx k < n)%nat.

(** An array of shards holds one map only. *)
Lemma flat_unique ss m1 m2 : flat ss m1 → flat ss m2 → m1 = m2.
Proof. intros H1 H2. apply map_eq. intros k. by rewrite <- (flat_get _ _ H1), <- (flat_get _ _ H2). Qed.

Lemma flat_shard ss m k : flat ss m → ∃ sh, ss !! idx k = Some sh ∧ sh !! k = m !! k.
Proof.
  intros H. destruct (lookup_lt_is_Some_2 ss (idx k)) as [sh Hsh].
  { rewrite (flat_len _ _ H). apply idx_lt. }
  exists sh. split; [done|]. rewrite <- (flat_get _ _ H), Hsh. done.
Qed.

Lemma flat_empty : flat (replicate n ∅) ∅.
Proof.
  split.
  - apply length_replicate.
  - intros k. rewrite lookup_replicate_2 by apply idx_lt. simpl. by rewrite !lookup_empty.
  - intros i sh k Hi Hk. apply lookup_replicate_1 in Hi as [-> _].
    rewrite lookup_empty in Hk. by destruct Hk.
Qed.

Lemma flat_insert ss m k sh v :
  flat ss m → ss !! idx k = Some sh → flat (<[idx k := <[k := v]> sh]> ss) (<[k := v]> m).
Proof.
  intros H Hsh. split.
  - rewrite length_insert. apply H.
  - intros k'. destruct (decide (k' = k)) as [->|Hne].
    + rewrite list_lookup_insert_eq by (rewrite (flat_len _ _ H); apply idx_lt).
      simpl. by rewrite !lookup_insert_eq.
    + rewrite lookup_insert_ne by done. destruct (decide (idx k' = idx k)) as [E|E].
      * rewrite E, list_lookup_insert_eq by (rewrite (flat_len _ _ H); apply idx_lt).
        simpl. rewrite lookup_insert_ne by done.
        by rewrite <- (flat_get _ _ H), E, Hsh.
      * rewrite list_lookup_insert_ne by done. apply H.
  - intros i sh' k' Hi Hk'. destruct (decide (i = idx k)) as [->|Hne].
    + rewrite list_lookup_insert_eq in Hi by (rewrite (flat_len _ _ H); apply idx_lt).
      simplify_eq. destruct (decide (k' = k)) as [->|Hne]; [done|].
      rewrite lookup_insert_ne in Hk' by done. by apply (flat_own _ _ H _ sh).
    + rewrite list_lookup_insert_ne in Hi by done. by apply (flat_own _ _ H _ sh').
Qed.

Lemma flat_delete ss m k sh :
  flat ss m → ss !! idx k = Some sh → flat (<[idx k := delete k sh]> ss) (delete k m).
Proof.
  intros H Hsh. split.
  - rewrite length_insert. apply H.
  - intros k'. destruct (decide (k' = k)) as [->|Hne].
    + rewrite list_lookup_insert_eq by (rewrite (flat_len _ _ H); apply idx_lt).
      simpl. by rewrite !lookup_delete_eq.
    + rewrite lookup_delete_ne by done. destruct (decide (idx k' = idx k)) as [E|E].
      * rewrite E, list_lookup_insert_eq by (rewrite (flat_len _ _ H); apply idx_lt).
        simpl. rewrite lookup_delete_ne by done.
        by rewrite <- (flat_get _ _ H), E, Hsh.
      * rewrite list_lookup_insert_ne by done. apply H.
  - intros i sh' k' Hi Hk'. destruct (decide (i = idx k)) as [->|Hne].
    + rewrite list_lookup_insert_eq in Hi by (rewrite (flat_len _ _ H); apply idx_lt).
      simplify_eq. destruct (decide (k' = k)) as [->|Hne]; [done|].
      rewrite lookup_delete_ne in Hk' by done. by apply (flat_own _ _ H _ sh).
    + rewrite list_lookup_insert_ne in Hi by done. by apply (flat_own _ _ H _ sh').
Qed.

(** Sweeping every shard. *)
Lemma flat_filter ss m (P : string * V → Prop) `{!∀ x, Decision (P x)} :
  flat ss m → flat (filter P <$> ss) (filter P m).
Proof.
  intros Hf. split.
  - rewrite length_fmap. apply Hf.
  - intros k. destruct (flat_shard ss m k Hf) as (sh & Hsh & Hk).
    rewrite list_lookup_fmap, Hsh. simpl. by rewrite !map_lookup_filter, Hk.
  - intros i sh k Hi [v Hv]. apply list_lookup_fmap_Some_1 in Hi as (sh0 & -> & Hi).
    apply map_lookup_filter_Some_1_1 in Hv. apply (flat_own _ _ Hf i sh0); [done|by exists v].
Qed.

(** Emptying every shard. *)
Lemma flat_clear ss m : flat ss m → flat ((λ _, ∅) <$> ss) ∅.
Proof.
  intros H. split.
  - rewrite length_fmap. apply H.
  - intros k. destruct (flat_shard ss m k H) as (sh & Hsh & _).
    rewrite list_lookup_fmap, Hsh. simpl. by rewrite !lookup_empty.
  - intros i sh k Hi [v Hv]. apply list_lookup_fmap_Some_1 in Hi as (sh0 & -> & _).
    by rewrite lookup_empty in Hv.
Qed.

(** Walking the shards visits each entry of the map once. *)
Lemma shards_list_nodup ss off :
  (∀ i sh k, ss !! i = Some sh → is_Some (sh !! k) → idx k = (off + i)%nat) →
  NoDup (concat (map_to_list <$> ss)).
Proof.
  revert off. induction ss as [|sh ss IH]; intros off Hown; [constructor|].
  rewrite fmap_cons, concat_cons. apply NoDup_app. split_and!.
  - apply NoDup_map_to_list.
  - intros [k v] Hk Hin. apply elem_of_map_to_list in Hk.
    apply concat_elem in Hin as (i & l & Hi & Hl).
    apply list_lookup_fmap_Some_1 in Hi as (sh' & -> & Hi). apply elem_of_map_to_list in Hl.
    pose proof (Hown 0%nat sh k eq_refl ltac:(by exists v)).
    pose proof (Hown (S i) sh' k Hi ltac:(by exists v)). lia.
  - apply (IH (S off)). intros i sh' k Hi Hk. rewrite (Hown (S i) sh' k Hi Hk). lia.
Qed.

Lemma flat_to_list ss m : flat ss m → concat (map_to_list <$> ss) ≡ₚ map_to_list m.
Proof.
  intros H. apply NoDup_Permutation; [|apply NoDup_map_to_list|].
  - apply (shards_list_nodup ss 0). intros i sh k Hi Hk. by rewrite <- (flat_own _ _ H i sh k).
  - intros [k v]. rewrite elem_of_map_to_list, concat_elem. split.
    + intros (i & l & Hi & Hl). apply list_lookup_fmap_Some_1 in Hi as (sh & -> & Hi).
      apply elem_of_map_to_list in Hl. pose proof (flat_own _ _ H i sh k Hi ltac:(by exists v)) as ->.
      by rewrite <- (flat_get _ _ H), Hi.
    + intros Hk. destruct (flat_shard ss m k H) as (sh & Hsh & Hget). rewrite Hk in Hget.
      exists (idx k), (map_to_list sh). rewrite list_lookup_fmap, Hsh.
      split; [done|]. by apply elem_of_map_to_list.
Qed.

Lemma flat_size ss m : flat ss m → sum_list (size <$> ss) = size m.
Proof.
  intros H. assert (Hc : ∀ l : list (gmap string V), sum_list (size <$> l) = length (concat (map_to_list <$> l))).
  { induction l as [|sh l IH]; [done|]. rewrite !fmap_cons, concat_cons, length_app, length_map_to_list. simpl. by rewrite IH. }
  rewrite Hc, (flat_to_list _ _ H). by rewrite length_map_to_list.
Qed.
End sharded.

(** Changing every entry. *)
Lemma flat_fmap {V W} n idx (f : V → W) ss (m : gmap string V) :
  (∀ k, (idx k < n)%nat) → flat n idx ss m → flat n idx ((λ sh : gmap string V, f <$> sh) <$> ss) (f <$> m).
Proof.
  intros Hidx Hf. split.
  - rewrite length_fmap. apply Hf.
  - intros k. destruct (flat_shard n idx Hidx ss m k Hf) as (sh & Hsh & Hk).
    rewrite list_lookup_fmap, Hsh. simpl. by rewrite !lookup_fmap, Hk.
  - intros i sh k Hi Hv. apply list_lookup_fmap_Some_1 in Hi as (sh0 & -> & Hi).
    rewrite lookup_fmap, fmap_is_Some in Hv. by apply (flat_own _ _ _ _ Hf i sh0).
Qed.
