(* ===== verification/Sequencer.v ===== *)
(** * Sequencer: per-symbol sequence numbers

    [internal/sequencer/sequencer.go], the in-memory generator with its expiry
    sweep, and [redis_sequencer.go], the generator that reserves blocks of numbers
    from a shared Redis counter. Methods hold the mutex from start to end, so a
    concurrent execution is a sequence of calls; each reading of the clock is an
    argument. *)

From S2P Require Import Prelude.

(** ** The in-memory sequencer *)

Record seq_entry := mkEntry { en_seq : Z; en_expires : Z }.

Record Sequencer := mkSequencer {
  sq_seqs : gmap string seq_entry;
  sq_start : Z;
  sq_ttl : Z;
  sq_lastEvict : Z;
  sq_evictInt : Z;
}.

Inductive SeqOption :=
| WithTTL (d : Z)
| WithEvictInterval (d : Z).

Definition apply_seq_option (s : Sequencer) (o : SeqOption) : Sequencer :=
  match o with
  | WithTTL d => mkSequencer (sq_seqs s) (sq_start s) d (sq_lastEvict s) (sq_evictInt s)
  | WithEvictInterval d => mkSequencer (sq_seqs s) (sq_start s) (sq_ttl s) (sq_lastEvict s) d
  end.

Definition Sequencer_New (opts : list SeqOption) (now : Z) : Sequencer :=
  let s := fold_left apply_seq_option opts
             (mkSequencer ∅ 1 (5 * Minute) zero_time (1 * Minute)) in
  mkSequencer (sq_seqs s) (sq_start s) (sq_ttl s) now (sq_evictInt s).

Definition Sequencer_maybeEvict (s : Sequencer) (now : Z) : Sequencer :=
  if time_sub now (sq_lastEvict s) <? sq_evictInt s then s
  else mkSequencer (filter (λ p, time_after now (en_expires p.2) = false) (sq_seqs s))
         (sq_start s) (sq_ttl s) now (sq_evictInt s).

(** [Next]: [now1] is the reading for the expiry, [now2] the one of the sweep. *)
Definition Sequencer_Next (s : Sequencer) (symbol : string) (now1 now2 : Z) : Sequencer * Z :=
  let e := default (mkEntry 0 zero_time) (sq_seqs s !! symbol) in
  let seq := if en_seq e =? 0 then sq_start s else i64 (en_seq e + 1) in
  let e := mkEntry seq (time_add now1 (sq_ttl s)) in
  let s := mkSequencer (<[symbol := e]> (sq_seqs s)) (sq_start s) (sq_ttl s)
             (sq_lastEvict s) (sq_evictInt s) in
  (Sequencer_maybeEvict s now2, en_seq e).

Definition Sequencer_Current (s : Sequencer) (symbol : string) : Z :=
  en_seq (default (mkEntry 0 zero_time) (sq_seqs s !! symbol)).

Definition Sequencer_Reset (s : Sequencer) : Sequencer :=
  mkSequencer ∅ (sq_start s) (sq_ttl s) (sq_lastEvict s) (sq_evictInt s).

(** *** Runs *)

(** A call of [Next] with its two clock readings. *)
Record NextCall := mkCall { nc_symbol : string; nc_now1 : Z; nc_now2 : Z }.

Fixpoint Sequencer_run (s : Sequencer) (calls : list NextCall) : list (string * Z) :=
  match calls with
  | [] => []
  | c :: calls =>
      let '(s, v) := Sequencer_Next s (nc_symbol c) (nc_now1 c) (nc_now2 c) in
      (nc_symbol c, v) :: Sequencer_run s calls
  end.

(** The numbers [sym] got, in order. *)
Definition values_of (sym : string) (out : list (string * Z)) : list Z :=
  snd <$> filter (λ p, p.1 = sym) out.

(** No sweep happens more than [ttl] after the last call for [sym] (before its
    first call anything goes). *)
Fixpoint keeps_alive (sym : string) (ttl : Z) (touched : option Z) (calls : list NextCall) : Prop :=
  match calls with
  | [] => True
  | c :: calls =>
      let touched := if decide (nc_symbol c = sym) then Some (nc_now1 c) else touched in
      match touched with
      | Some t => nc_now2 c ≤ t + ttl
      | None => True
      end ∧ keeps_alive sym ttl touched calls
  end.

Lemma maybeEvict_other s now sym :
  sq_start (Sequencer_maybeEvict s now) = sq_start s ∧
  sq_ttl (Sequencer_maybeEvict s now) = sq_ttl s ∧
  (sq_seqs s !! sym = None → sq_seqs (Sequencer_maybeEvict s now) !! sym = None).
Proof.
  unfold Sequencer_maybeEvict. case_if; [done|]. split_and!; try done. simpl. intros H.
  by rewrite map_lookup_filter, H.
Qed.

Lemma maybeEvict_keep s now sym e :
  sq_seqs s !! sym = Some e → now ≤ en_expires e →
  sq_seqs (Sequencer_maybeEvict s now) !! sym = Some e.
Proof.
  intros H Hle. unfold Sequencer_maybeEvict. case_if; [done|]. simpl.
  apply map_lookup_filter_Some. split; [done|]. simpl. unfold time_after. by apply Z.ltb_ge.
Qed.

(** The state of [sym] after [v] numbers have been handed out to it, the last at
    time [touched]. *)
Definition sym_state (s : Sequencer) (sym : string) (v : Z) (touched : option Z) : Prop :=
  match touched with
  | None => v = 0 ∧ sq_seqs s !! sym = None
  | Some t => 0 < v ∧ sq_seqs s !! sym = Some (mkEntry v (t + sq_ttl s))
  end.

Lemma Sequencer_run_values s sym calls v touched n :
  sq_start s = 1 → sym_state s sym v touched → keeps_alive sym (sq_ttl s) touched calls →
  n = length (filter (λ c, nc_symbol c = sym) calls) → v + Z.of_nat n < 2 ^ 63 →
  values_of sym (Sequencer_run s calls) = seqZ (v + 1) (Z.of_nat n).
Proof.
  revert s v touched n. induction calls as [|c calls IH]; intros s v touched n Hst Hs Hk Hn Hb.
  { simpl in Hn. by subst. }
  cbn [Sequencer_run]. destruct Hk as [Hswept Hk].
  unfold Sequencer_Next. cbn [en_seq].
  set (e := default _ _). set (q := if en_seq e =? 0 then _ else _).
  set (s1 := mkSequencer (<[nc_symbol c := _]> _) _ _ _ _).
  destruct (maybeEvict_other s1 (nc_now2 c) sym) as (Hst' & Httl & Hnone).
  unfold values_of. destruct (decide (nc_symbol c = sym)) as [Heq|Hne].
  - rewrite !filter_cons_True by done. rewrite fmap_cons. cbn [snd].
    rewrite filter_cons_True in Hn by done. simpl in Hn.
    assert (Hq : q = v + 1).
    { unfold q, e. rewrite Heq. destruct touched as [t|]; simpl in Hs; destruct Hs as [Hv ->]; simpl.
      - rewrite (proj2 (Z.eqb_neq _ _)), i64_small by go_lia. done.
      - rewrite Hst, Hv. done. }
    subst n. rewrite Hq, Nat2Z.inj_succ, seqZ_cons by lia. f_equal.
    fold (values_of sym (Sequencer_run (Sequencer_maybeEvict s1 (nc_now2 c)) calls)).
    replace (Z.pred (Z.succ _)) with (Z.of_nat (length (filter (λ c, nc_symbol c = sym) calls))) by lia.
    rewrite <- Z.add_1_r. eapply (IH _ _ (Some (nc_now1 c))); rewrite ?Httl, ?Hst'; try done; [|lia].
    split; [destruct touched; simpl in Hs; lia|]. rewrite Httl. apply maybeEvict_keep; [|done].
    simpl. rewrite Heq, lookup_insert_eq. by rewrite <- Hq.
  - rewrite !filter_cons_False by done. rewrite filter_cons_False in Hn by done.
    eapply (IH _ _ touched); rewrite ?Httl, ?Hst'; try done.
    destruct touched as [t|]; simpl in *; destruct Hs as [Hv Hs].
    + split; [done|]. rewrite Httl. apply maybeEvict_keep; [|done].
      simpl. by rewrite lookup_insert_ne.
    + split; [done|]. apply Hnone. simpl. by rewrite lookup_insert_ne.
Qed.

Lemma Sequencer_New_fields opts now :
  sq_start (Sequencer_New opts now) = 1 ∧ sq_seqs (Sequencer_New opts now) = ∅.
Proof.
  unfold Sequencer_New. cbn [sq_start sq_seqs].
  set (s0 := mkSequencer ∅ _ _ _ _).
  assert (H : sq_start s0 = 1 ∧ sq_seqs s0 = ∅) by done. revert H. generalize s0.
  induction opts as [|[d|d] opts IH]; intros s Hs; simpl; [done| |]; by apply IH.
Qed.

(** Sequence numbers are gapless per symbol. Whatever calls for other symbols
    are interleaved, the calls for [sym] get 1, 2, 3, ... as long as no expiry
    sweep finds the symbol idle for longer than its time-to-live. *)
Lemma sequencer_gapless opts t0 sym calls :
  keeps_alive sym (sq_ttl (Sequencer_New opts t0)) None calls →
  Z.of_nat (length calls) < 2 ^ 63 - 1 →
  values_of sym (Sequencer_run (Sequencer_New opts t0) calls) =
    seqZ 1 (Z.of_nat (length (filter (λ c, nc_symbol c = sym) calls))).
Proof.
  intros Hk Hn. destruct (Sequencer_New_fields opts t0) as [Hst Hempty].
  pose proof (length_filter (λ c, nc_symbol c = sym) calls).
  apply (Sequencer_run_values _ sym calls 0 None); [done| |done|done|lia].
  split; [done|]. by rewrite Hempty, lookup_empty.
Qed.

Lemma sequencer_gapless_witness :
  let calls := [mkCall "A" 10 11; mkCall "B" 20 20; mkCall "A" 30 Minute; mkCall "A" Minute Minute] in
  values_of "A" (Sequencer_run (Sequencer_New [WithTTL Minute] 0) calls) = seqZ 1 3.
Proof.
  apply (sequencer_gapless [WithTTL Minute] 0 "A"
           [mkCall "A" 10 11; mkCall "B" 20 20; mkCall "A" 30 Minute; mkCall "A" Minute Minute]).
  - vm_compute. by split_and!.
  - cbn. lia.
Defined.

(** Once a symbol
    has been idle past its expiry and a call for any other symbol runs the sweep,
    its numbering starts over. *)
Lemma sequencer_restarts_after_ttl s sym other e t1 t2 t3 t4 :
  sq_seqs s !! sym = Some e → other ≠ sym →
  en_expires e < t2 → sq_evictInt s ≤ time_sub t2 (sq_lastEvict s) →
  snd (Sequencer_Next (fst (Sequencer_Next s other t1 t2)) sym t3 t4) = sq_start s.
Proof.
  intros He Hne Hexp Hint. unfold Sequencer_Next at 2. cbn [fst].
  unfold Sequencer_maybeEvict. cbn [sq_lastEvict sq_evictInt].
  rewrite (proj2 (Z.ltb_ge _ _)) by done. unfold Sequencer_Next. cbn [snd en_seq sq_seqs sq_start].
  rewrite map_lookup_filter, lookup_insert_ne, He by done. simpl.
  rewrite option_guard_False; [done|]. unfold time_after.
  rewrite (proj2 (Z.ltb_lt _ _)) by done. done.
Qed.

Lemma sequencer_restarts_after_ttl_witness :
  let s := fst (Sequencer_Next (Sequencer_New [] 0) "A" 0 0) in
  snd (Sequencer_Next (fst (Sequencer_Next s "B" (6 * Minute) (6 * Minute))) "A"
         (6 * Minute) (6 * Minute)) = 1.
Proof.
  apply (sequencer_restarts_after_ttl (fst (Sequencer_Next (Sequencer_New [] 0) "A" 0 0))
           "A" "B" (mkEntry 1 (5 * Minute)) (6 * Minute) (6 * Minute)); [|done|done|done].
  vm_compute. done.
Defined.

(** ** The Redis-backed sequencer *)

Definition blockSize : Z := 10000.

(** The commands of the Redis client that the sequencer issues, over the state
    [W] of the server as seen through the connection; [None] is an error reply or
    a failed connection. *)
Class RedisClient (W : Type) := {
  redis_IncrBy : W → string → Z → W * option Z;
  redis_Get : W → string → option Z;
  redis_Del : W → list string → W;
  redis_Scan : W → Z → string → Z → option (list string * Z);
}.

(** What Redis documents of INCRBY on an integer key: it adds atomically and
    returns the new value, an overflow is an error and other keys are untouched.
    A failed call may or may not have been applied. *)
Class RedisCounterLaws (W : Type) `{!RedisClient W} := {
  redis_val : W → string → Z;
  incr_ok : ∀ w k n w' v, 0 < n → redis_IncrBy w k n = (w', Some v) →
    v = redis_val w k + n ∧ redis_val w' k = v ∧ v < 2 ^ 63;
  incr_err : ∀ w k n w', 0 < n → redis_IncrBy w k n = (w', None) →
    redis_val w k ≤ redis_val w' k;
  incr_other : ∀ w k n k', k' ≠ k → redis_val (fst (redis_IncrBy w k n)) k' = redis_val w k';
}.

Record seqBlock := mkBlock { bk_current : Z; bk_max : Z }.
Record RedisSequencer := mkRedisSequencer {
  rs_prefix : string;
  rs_blocks : gmap string seqBlock;
}.

Definition NewRedisSequencer (prefix : string) : RedisSequencer :=
  mkRedisSequencer (if decide (prefix = "") then "seq:" else prefix) ∅.

Definition RedisSequencer_Key (r : RedisSequencer) (symbol : string) : string :=
  rs_prefix r +:+ symbol.

Section redis.
Context {W : Type} `{!RedisClient W}.

(** The block of a symbol; a new one is empty. *)
Definition block_of (r : RedisSequencer) (symbol : string) : seqBlock :=
  default (mkBlock 0 0) (rs_blocks r !! symbol).

Definition RedisSequencer_Next (w : W) (r : RedisSequencer) (symbol : string)
    : W * RedisSequencer * Z :=
  let blk := block_of r symbol in
  let store b := mkRedisSequencer (rs_prefix r) (<[symbol := b]> (rs_blocks r)) in
  if bk_max blk <=? bk_current blk then
    match redis_IncrBy w (rs_prefix r +:+ symbol) blockSize with
    | (w, None) => (w, store blk, 0)
    | (w, Some val) =>
        let current := i64 (i64 (val - blockSize) + 1) in
        (w, store (mkBlock current val), current)
    end
  else
    let current := i64 (bk_current blk + 1) in
    (w, store (mkBlock current (bk_max blk)), current).

Definition RedisSequencer_Current (w : W) (r : RedisSequencer) (symbol : string) : Z :=
  match rs_blocks r !! symbol with
  | Some blk => bk_current blk
  | None => default 0 (redis_Get w (rs_prefix r +:+ symbol))
  end.

(** The SCAN loop of [resetAll], until the cursor is 0 again; the server decides
    how many turns it takes. *)
Fixpoint reset_scan (fuel : nat) (w : W) (prefix : string) (cursor : Z) : option W :=
  match fuel with
  | O => None
  | S fuel =>
      match redis_Scan w cursor (prefix +:+ "*") 100 with
      | None => Some w
      | Some (keys, nextCursor) =>
          let w := match keys with [] => w | _ => redis_Del w keys end in
          if nextCursor =? 0 then Some w else reset_scan fuel w prefix nextCursor
      end
  end.

Definition RedisSequencer_resetAll (fuel : nat) (w : W) (r : RedisSequencer)
    : option (W * RedisSequencer) :=
  let r := mkRedisSequencer (rs_prefix r) ∅ in
  (λ w, (w, r)) <$> reset_scan fuel w (rs_prefix r) 0.

Definition RedisSequencer_ResetSymbols (fuel : nat) (w : W) (r : RedisSequencer)
    (symbols : list string) : option (W * RedisSequencer) :=
  match symbols with
  | [] => RedisSequencer_resetAll fuel w r
  | _ =>
      Some (fold_left (λ '(w, r) sym,
              (redis_Del w [rs_prefix r +:+ sym],
               mkRedisSequencer (rs_prefix r) (delete sym (rs_blocks r)))) symbols (w, r))
  end.

(** *** Several servers, one Redis *)

(** A run: instance [i] asks for a number for a symbol. *)
Fixpoint redis_run (w : W) (insts : list RedisSequencer) (calls : list (nat * string))
    : list (nat * string * Z) :=
  match calls with
  | [] => []
  | (i, sym) :: calls =>
      match insts !! i with
      | None => redis_run w insts calls
      | Some r =>
          let '(w, r, v) := RedisSequencer_Next w r sym in
          (i, sym, v) :: redis_run w (<[i := r]> insts) calls
      end
  end.

(** The numbers issued for a symbol (0 means that Redis failed), by all
    instances and by one. *)
Definition issued (sym : string) (out : list (nat * string * Z)) : list Z :=
  filter (λ v, v ≠ 0) (snd <$> filter (λ o, o.1.2 = sym) out).
Definition issued_by (i : nat) (sym : string) (out : list (nat * string * Z)) : list Z :=
  issued sym (filter (λ o, o.1.1 = i) out).

Context `{!RedisCounterLaws W}.

Section one_symbol.
Context (prefix sym : string).
Let key := prefix +:+ sym.

(** The numbers an instance has reserved for the symbol and not yet issued. *)
Definition reserved (r : RedisSequencer) (v : Z) : Prop :=
  bk_current (block_of r sym) < v ≤ bk_max (block_of r sym).

Definition inst_ok (w : W) (r : RedisSequencer) : Prop :=
  rs_prefix r = prefix ∧ 0 ≤ bk_current (block_of r sym) ∧
  bk_max (block_of r sym) ≤ redis_val w key ∧
  bk_current (block_of r sym) ≤ redis_val w key ∧ bk_max (block_of r sym) < 2 ^ 63.

(** One call for the symbol: an error, a number from the block, or the first
    number of a new block, which lies above everything allocated so far. *)
Lemma RedisSequencer_Next_spec w r w' r' v :
  inst_ok w r → 0 ≤ redis_val w key → RedisSequencer_Next w r sym = (w', r', v) →
  inst_ok w' r' ∧ redis_val w key ≤ redis_val w' key ∧
  ((v = 0 ∧ block_of r' sym = block_of r sym) ∨
   (v = bk_current (block_of r' sym) ∧ bk_current (block_of r sym) < v ∧
    ((reserved r v ∧ ∀ x, reserved r' x → reserved r x) ∨
     (redis_val w key < v ≤ redis_val w' key ∧
      ∀ x, reserved r' x → redis_val w key < x)))).
Proof.
  intros (Hp & Hc0 & Hmax & Hcur & Hb) Hv0. unfold RedisSequencer_Next, reserved, inst_ok.
  assert (Hst : ∀ b, block_of (mkRedisSequencer (rs_prefix r)
                      (<[sym := b]> (rs_blocks r))) sym = b).
  { intros b. unfold block_of. cbn [rs_blocks]. by rewrite lookup_insert_eq. }
  rewrite Hp. fold key. unfold blockSize. case_if.
  - destruct (redis_IncrBy w key 10000) as [w1 [val|]] eqn:Hi; intros [= <- <- <-].
    + destruct (incr_ok w key 10000 w1 val ltac:(lia) Hi) as (-> & Hw1 & Hlt).
      rewrite <- Hp, Hst. cbn [bk_current bk_max rs_prefix].
      rewrite i64_small by (rewrite i64_small; go_lia).
      rewrite i64_small by go_lia. split_and!; try done; try lia.
      right. split_and!; [lia|lia|]. right. split; [lia|]. intros x. lia.
    + pose proof (incr_err w key 10000 w1 ltac:(lia) Hi).
      rewrite <- Hp, Hst. cbn [rs_prefix].
      split_and!; try done; try lia. by left.
  - intros [= <- <- <-]. rewrite <- Hp, Hst. cbn [bk_current bk_max rs_prefix].
    rewrite i64_small by go_lia. split_and!; try done; try lia.
    right. split_and!; [lia|lia|]. left. split; [lia|]. intros x. lia.
Qed.

(** A call for another symbol leaves this one alone. *)
Lemma RedisSequencer_Next_other w r other w' r' v :
  rs_prefix r = prefix → other ≠ sym → RedisSequencer_Next w r other = (w', r', v) →
  rs_prefix r' = prefix ∧ block_of r' sym = block_of r sym ∧
  redis_val w' key = redis_val w key.
Proof.
  intros Hp Hne. unfold RedisSequencer_Next. rewrite Hp.
  assert (Hst : ∀ b, block_of (mkRedisSequencer prefix (<[other := b]> (rs_blocks r))) sym
                     = block_of r sym).
  { intros b. unfold block_of. cbn [rs_blocks]. by rewrite lookup_insert_ne. }
  case_if; [|by intros [= <- <- <-]; rewrite Hst].
  assert (Hk : key ≠ prefix +:+ other).
  { unfold key. intros E. apply Hne. by apply (inj (String.append prefix)) in E. }
  pose proof (incr_other w (prefix +:+ other) blockSize key Hk) as Ho.
  destruct (redis_IncrBy w _ _) as [w1 [val|]]; intros [= <- <- <-]; by rewrite Hst.
Qed.

Record run_inv (w : W) (insts : list RedisSequencer) (used : list Z) : Prop := {
  ri_val : 0 ≤ redis_val w key;
  ri_used : ∀ v, v ∈ used → v ≤ redis_val w key;
  ri_ok : ∀ i r, insts !! i = Some r → inst_ok w r;
  ri_fresh : ∀ i r v, insts !! i = Some r → reserved r v → v ∉ used;
  ri_disj : ∀ i j ri rj v, i ≠ j → insts !! i = Some ri → insts !! j = Some rj →
              reserved ri v → ¬ reserved rj v;
}.

Lemma run_inv_other w insts used i r other w' r' v :
  run_inv w insts used → insts !! i = Some r → other ≠ sym →
  RedisSequencer_Next w r other = (w', r', v) → run_inv w' (<[i := r']> insts) used.
Proof.
  intros H Hi Hne Hn.
  destruct (RedisSequencer_Next_other w r other w' r' v) as (Hp & Hb & Hv);
    [by apply (ri_ok _ _ _ H i)|done|done|].
  assert (Hold : ∀ j rj, <[i := r']> insts !! j = Some rj →
            ∃ r0, insts !! j = Some r0 ∧ block_of rj sym = block_of r0 sym ∧
                  rs_prefix rj = prefix).
  { intros j rj Hj. apply list_lookup_insert_Some in Hj as [(-> & -> & _)|[_ Hj]].
    - by exists r.
    - exists rj. split_and!; try done. by apply (ri_ok _ _ _ H j). }
  split; rewrite ?Hv; try apply H.
  - intros j rj Hj. destruct (Hold j rj Hj) as (r0 & H0 & Hb0 & Hp0).
    unfold inst_ok. rewrite Hv, Hb0. split; [done|]. by apply (ri_ok _ _ _ H j).
  - intros j rj x Hj. destruct (Hold j rj Hj) as (r0 & H0 & Hb0 & Hp0).
    unfold reserved. rewrite Hb0. by apply (ri_fresh _ _ _ H j).
  - intros j k rj rk x Hjk Hj Hk. unfold reserved.
    destruct (Hold j rj Hj) as (r0 & H0 & -> & _), (Hold k rk Hk) as (r1 & H1 & -> & _).
    by apply (ri_disj _ _ _ H j k).
Qed.

(** What a call for the symbol issues, and what the instance may issue after
    it: numbers of its block, or numbers above the counter. *)
Lemma RedisSequencer_Next_issues w r w' r' v :
  inst_ok w r → 0 ≤ redis_val w key → RedisSequencer_Next w r sym = (w', r', v) →
  inst_ok w' r' ∧ redis_val w key ≤ redis_val w' key ∧ v ≤ redis_val w' key ∧
  (v ≠ 0 → reserved r v ∨ redis_val w key < v) ∧
  (∀ x, reserved r' x → x ≠ v ∧ (reserved r x ∨ redis_val w key < x)).
Proof.
  intros Hok H0 Hn.
  destruct (RedisSequencer_Next_spec w r w' r' v Hok H0 Hn) as (Hok' & Hval & Hcase).
  destruct Hok as (_ & Hc & Hmx & _).
  split_and!; [done|done| | |].
  - destruct Hcase as [[-> _]|(_ & _ & [[Hr _]|[? _]])]; [lia| |lia].
    unfold reserved in Hr. lia.
  - destruct Hcase as [[-> _]|(_ & _ & [[? _]|[? _]])]; [done|by left|right; lia].
  - intros x Hx. destruct Hcase as [[-> Hb]|(Hv & Hlt & [[Hr Hsub]|[Hr Hsub]])].
    + unfold reserved in *. rewrite Hb in Hx. split; [lia|by left].
    + split; [unfold reserved in Hx; lia|left; by apply Hsub].
    + split; [unfold reserved in Hx; lia|right; by apply Hsub].
Qed.

(** A call for the symbol issues a number not issued before, or 0. *)
Lemma run_inv_same w insts used i r w' r' v :
  run_inv w insts used → insts !! i = Some r → RedisSequencer_Next w r sym = (w', r', v) →
  (v ≠ 0 → v ∉ used) ∧
  run_inv w' (<[i := r']> insts) (if decide (v = 0) then used else v :: used).
Proof.
  intros H Hi Hn. pose proof (ri_val _ _ _ H) as H0. pose proof (ri_used _ _ _ H) as Hused.
  destruct (RedisSequencer_Next_issues w r w' r' v (ri_ok _ _ _ H i r Hi) H0 Hn)
    as (Hok' & Hval & Hvle & Hvnew & Hres).
  assert (Hcl : ∀ j rj, j ≠ i → insts !! j = Some rj → bk_max (block_of rj sym) ≤ redis_val w key)
    by (intros j rj _ Hj; apply (ri_ok _ _ _ H j rj Hj)).
  assert (Hfresh : v ≠ 0 → v ∉ used).
  { intros Hv Hin. destruct (Hvnew Hv) as [Hr|Hgt];
      [by eapply (ri_fresh _ _ _ H)|specialize (Hused v Hin); lia]. }
  split; [done|]. split.
  - lia.
  - intros x Hx. case_decide; [specialize (Hused x Hx); lia|].
    apply elem_of_cons in Hx as [->|Hx]; [lia|]. specialize (Hused x Hx). lia.
  - intros j rj [(-> & -> & _)|[_ Hj]]%list_lookup_insert_Some; [done|].
    destruct (ri_ok _ _ _ H j rj Hj) as (? & ? & ? & ? & ?). split_and!; try done; lia.
  - intros j rj x [(-> & -> & _)|[Hji Hj]]%list_lookup_insert_Some Hx.
    + destruct (Hres x Hx) as [Hxv Hcs].
      assert (x ∉ used).
      { destruct Hcs as [Hr|Hgt]; [by eapply (ri_fresh _ _ _ H)|].
        intros Hin. specialize (Hused x Hin). lia. }
      case_decide; [done|]. by apply not_elem_of_cons.
    + pose proof (ri_fresh _ _ _ H j rj x Hj Hx). case_decide; [done|].
      apply not_elem_of_cons. split; [|done]. intros ->.
      destruct (Hvnew ltac:(done)) as [Hr|Hgt].
      * by apply (ri_disj _ _ _ H i j r rj v).
      * specialize (Hcl j rj ltac:(done) Hj). unfold reserved in Hx. lia.
  - assert (Hsep : ∀ j rj x, j ≠ i → insts !! j = Some rj → reserved rj x → ¬ reserved r' x).
    { intros j rj x Hji Hj Hxj Hxi. destruct (Hres x Hxi) as [_ [Hr|Hgt]].
      - by apply (ri_disj _ _ _ H j i rj r x).
      - specialize (Hcl j rj Hji Hj). unfold reserved in Hxj. lia. }
    intros j k rj rk x Hjk [(-> & -> & _)|[Hji Hj]]%list_lookup_insert_Some
      [(-> & -> & _)|[Hki Hk]]%list_lookup_insert_Some Hxj Hxk; [done| | |].
    + by eapply (Hsep k rk x).
    + by eapply (Hsep j rj x).
    + by apply (ri_disj _ _ _ H j k rj rk x).
Qed.

Lemma redis_run_nodup w insts used calls :
  run_inv w insts used →
  NoDup (issued sym (redis_run w insts calls)) ∧
  (∀ v, v ∈ issued sym (redis_run w insts calls) → v ∉ used).
Proof.
  revert w insts used. induction calls as [|[i s] calls IH]; intros w insts used H.
  { simpl. split; [constructor|]. by intros v ?%not_elem_of_nil. }
  cbn [redis_run]. destruct (insts !! i) as [r|] eqn:Hi; [|by apply IH].
  destruct (RedisSequencer_Next w r s) as [[w' r'] v] eqn:Hn.
  unfold issued. destruct (decide (s = sym)) as [->|Hne].
  - rewrite filter_cons_True by done. rewrite fmap_cons. cbn [snd].
    destruct (run_inv_same w insts used i r w' r' v H Hi Hn) as [Hf Hinv].
    destruct (IH _ _ _ Hinv) as [Hnd Hnew]. unfold issued in *.
    destruct (decide (v = 0)) as [->|Hv]; [by rewrite filter_cons_False by (by intros Hx; apply Hx)|].
    rewrite filter_cons_True by done. split.
    + constructor; [|done]. intros Hin. specialize (Hnew v Hin). apply Hnew. by left.
    + intros x [->|Hx]%elem_of_cons; [by apply Hf|].
      specialize (Hnew x Hx). by apply not_elem_of_cons in Hnew as [_ ?].
  - rewrite filter_cons_False by done. apply IH. by eapply run_inv_other.
Qed.
End one_symbol.

(** C7: no two servers ever issue the same number. Any number of sequencers
    that share a Redis and a prefix, called in any interleaving, for any
    symbols, with Redis failing whenever it likes (even after applying an
    increment): the non-zero numbers issued for a symbol, over all servers, are
    pairwise different. *)
Theorem redis_sequencer_unique w prefix k sym calls :
  0 ≤ redis_val w (RedisSequencer_Key (NewRedisSequencer prefix) sym) →
  NoDup (issued sym (redis_run w (replicate k (NewRedisSequencer prefix)) calls)).
Proof.
  intros Hv. set (p := rs_prefix (NewRedisSequencer prefix)).
  apply (redis_run_nodup p sym w _ []). split; [done|by intros v ?%not_elem_of_nil| | |].
  - intros i r [-> _]%lookup_replicate_1. unfold inst_ok, block_of. simpl.
    rewrite lookup_empty. simpl. split_and!; done || apply Hv.
  - intros i r v [-> _]%lookup_replicate_1 _. apply not_elem_of_nil.
  - intros i j ri rj v _ [-> _]%lookup_replicate_1 _. unfold reserved, block_of. simpl.
    rewrite lookup_empty. simpl. lia.
Qed.
End redis.

(** A Redis that keeps its counters in a map and never fails satisfies the laws. *)
Instance map_redis : RedisClient (gmap string Z) := {
  redis_IncrBy w k n :=
    let v := default 0 (w !! k) + n in
    if v <? 2 ^ 63 then (<[k := v]> w, Some v) else (w, None);
  redis_Get w k := w !! k;
  redis_Del w ks := fold_left (λ w k, delete k w) ks w;
  redis_Scan w _ _ _ := Some (fst <$> map_to_list w, 0);
}.

#[refine] Instance map_redis_laws : RedisCounterLaws (gmap string Z) := {
  redis_val w k := default 0 (w !! k);
}.
Proof.
  - intros w k n w' v Hn. simpl. case_if; intros [= <- <-].
    rewrite lookup_insert_eq. done.
  - intros w k n w' Hn. simpl. by case_if; intros [= <-].
  - intros w k n k' Hne. simpl. case_if; simpl; [by rewrite lookup_insert_ne|done].
Defined.

(** Two servers, interleaved. *)
Lemma redis_sequencer_unique_witness :
  NoDup (issued "A" (redis_run (∅ : gmap string Z) (replicate 2 (NewRedisSequencer ""))
           [(0%nat, "A"); (1%nat, "A"); (0%nat, "B"); (0%nat, "A"); (1%nat, "A")])) ∧
  issued "A" (redis_run (∅ : gmap string Z) (replicate 2 (NewRedisSequencer ""))
    [(0%nat, "A"); (1%nat, "A"); (0%nat, "B"); (0%nat, "A"); (1%nat, "A")]) =
  [1; 10001; 2; 10002].
Proof.
  split; [|vm_compute; reflexivity].
  apply (redis_sequencer_unique (∅ : gmap string Z) "" 2 "A"). vm_compute. discriminate.
Defined.
