(* ===== verification/Validator.v ===== *)
(** * Validator: ordering checks per symbol

    [internal/sequencer/validator.go]: the sharded statistics, [Validate] with
    its verdicts, and the expiry sweep. [Validate] on the shards is shown to be
    [Validate] on one map, and the statistics to account for every message. *)

From S2P Require Import Prelude Bytes Sharded.

Definition numShards : nat := 16.

(** The Go constants Ok, Gap, OutOfOrder, Duplicate. *)
Inductive ValidationResult := ValOk | Gap | OutOfOrder | Duplicate.
#[global] Instance ValidationResult_eq : EqDecision ValidationResult.
Proof. solve_decision. Defined.

Record GapInfo := mkGapInfo {
  gi_Symbol : string;
  gi_Expected : Z;
  gi_Received : Z;
  gi_Missing : Z;
}.

Record Stats := mkStats {
  st_TotalReceived : Z;
  st_GapsDetected : Z;
  st_OutOfOrderCount : Z;
  st_Duplicates : Z;
  st_LatestSeq : Z;
  st_LastSeen : Z;
}.
Definition zero_Stats : Stats := mkStats 0 0 0 0 0 zero_time.

Record Validator := mkValidator {
  va_shards : list (gmap string Stats);
  va_ttl : Z;
  va_lastEvict : Z;
  va_evictInt : Z;
}.

Inductive ValidatorOption :=
| WithValidatorTTL (d : Z)
| WithValidatorEvictInterval (d : Z).

Definition apply_validator_option (v : Validator) (o : ValidatorOption) : Validator :=
  match o with
  | WithValidatorTTL d => mkValidator (va_shards v) d (va_lastEvict v) (va_evictInt v)
  | WithValidatorEvictInterval d => mkValidator (va_shards v) (va_ttl v) (va_lastEvict v) d
  end.

Definition NewValidator (opts : list ValidatorOption) (now : Z) : Validator :=
  let v := fold_left apply_validator_option opts
             (mkValidator (replicate numShards ∅) (5 * Minute) zero_time (1 * Minute)) in
  mkValidator (replicate numShards ∅) (va_ttl v) now (va_evictInt v).

Definition shardIndex (symbol : string) : nat :=
  Z.to_nat (fnv1a32 (bytes_of_string symbol) mod Z.of_nat numShards).

Definition Validator_maybeEvict (v : Validator) (now : Z) : Validator :=
  if time_sub now (va_lastEvict v) <? va_evictInt v then v
  else mkValidator (filter (λ p, ¬ va_ttl v < time_sub now (st_LastSeen p.2)) <$> va_shards v)
         (va_ttl v) now (va_evictInt v).

(** What [Validate] does to the statistics of the symbol. *)
Definition validate_stats (symbol : string) (st : Stats) (seq now : Z)
    : Stats * (ValidationResult * option GapInfo) :=
  let total := i64 (st_TotalReceived st + 1) in
  let prevLast := st_LatestSeq st in
  let expected := i64 (prevLast + 1) in
  if prevLast =? 0 then
    (mkStats total (st_GapsDetected st) (st_OutOfOrderCount st) (st_Duplicates st) seq now,
     (ValOk, None))
  else if seq =? prevLast then
    (mkStats total (st_GapsDetected st) (st_OutOfOrderCount st) (i64 (st_Duplicates st + 1))
       prevLast now, (Duplicate, None))
  else if seq <? prevLast then
    (mkStats total (st_GapsDetected st) (i64 (st_OutOfOrderCount st + 1)) (st_Duplicates st)
       prevLast now, (OutOfOrder, None))
  else if seq =? expected then
    (mkStats total (st_GapsDetected st) (st_OutOfOrderCount st) (st_Duplicates st) seq now,
     (ValOk, None))
  else
    (mkStats total (i64 (st_GapsDetected st + 1)) (st_OutOfOrderCount st) (st_Duplicates st)
       seq now, (ValOk, Some (mkGapInfo symbol expected seq (i64 (seq - expected))))).

(** [Validate]; [now1] is the clock of the sweep, [now2] the one of LastSeen. The
    shard array is indexed inside its bounds (see [shardIndex_lt]). *)
Definition Validator_Validate (v : Validator) (symbol : string) (seq now1 now2 : Z)
    : Validator * (ValidationResult * option GapInfo) :=
  let v := Validator_maybeEvict v now1 in
  let si := shardIndex symbol in
  let sh := default ∅ (va_shards v !! si) in
  let st := default zero_Stats (sh !! symbol) in
  let '(st, out) := validate_stats symbol st seq now2 in
  (mkValidator (<[si := <[symbol := st]> sh]> (va_shards v)) (va_ttl v) (va_lastEvict v)
     (va_evictInt v), out).

Definition Validator_StatsFor (v : Validator) (symbol : string) : Stats :=
  default zero_Stats (va_shards v !! shardIndex symbol ≫= lookup symbol).

Definition Validator_Reset (v : Validator) : Validator :=
  mkValidator ((λ _, ∅) <$> va_shards v) (va_ttl v) (va_lastEvict v) (va_evictInt v).

Definition Validator_Evict (v : Validator) (now : Z) : Validator := Validator_maybeEvict v now.

(** ** The unsharded validator *)

Lemma shardIndex_lt symbol : (shardIndex symbol < numShards)%nat.
Proof.
  unfold shardIndex, numShards.
  pose proof (Z.mod_pos_bound (fnv1a32 (bytes_of_string symbol)) (Z.of_nat 16)). lia.
Qed.

Definition va_flat (v : Validator) (m : gmap string Stats) : Prop :=
  flat numShards shardIndex (va_shards v) m.

Definition spec_evict (ttl lastEvict evictInt now : Z) (m : gmap string Stats) : gmap string Stats :=
  if time_sub now lastEvict <? evictInt then m
  else filter (λ p, ¬ ttl < time_sub now (st_LastSeen p.2)) m.

Lemma maybeEvict_flat v m now :
  va_flat v m →
  va_flat (Validator_maybeEvict v now)
    (spec_evict (va_ttl v) (va_lastEvict v) (va_evictInt v) now m).
Proof.
  intros H. unfold Validator_maybeEvict, spec_evict. case_if; [done|].
  apply flat_filter; [apply shardIndex_lt|done].
Qed.

Lemma Validator_Validate_flat v m symbol seq now1 now2 :
  va_flat v m →
  let m1 := spec_evict (va_ttl v) (va_lastEvict v) (va_evictInt v) now1 m in
  let '(st, out) := validate_stats symbol (default zero_Stats (m1 !! symbol)) seq now2 in
  ∃ v', Validator_Validate v symbol seq now1 now2 = (v', out) ∧
        va_flat v' (<[symbol := st]> m1).
Proof.
  intros H m1. pose proof (maybeEvict_flat v m now1 H) as H1. fold m1 in H1.
  unfold Validator_Validate. set (v1 := Validator_maybeEvict v now1) in *.
  destruct (flat_shard _ _ shardIndex_lt _ _ symbol H1) as (sh & Hsh & Hget).
  rewrite Hsh. change (default ∅ (Some sh)) with sh. rewrite Hget.
  destruct (validate_stats _ _ _ _) as [st out]. eexists. split; [reflexivity|].
  unfold va_flat. cbn [va_shards]. apply flat_insert; [apply shardIndex_lt|done|done].
Qed.

Lemma Validator_StatsFor_flat v m symbol :
  va_flat v m → Validator_StatsFor v symbol = default zero_Stats (m !! symbol).
Proof. intros H. unfold Validator_StatsFor. by rewrite (flat_get _ _ _ _ H). Qed.

(** ** Runs *)

Record ValCall := mkValCall { vc_symbol : string; vc_seq : Z; vc_now1 : Z; vc_now2 : Z }.

Fixpoint Validator_run (v : Validator) (calls : list ValCall)
    : Validator * list (string * (ValidationResult * option GapInfo)) :=
  match calls with
  | [] => (v, [])
  | c :: calls =>
      let '(v, out) := Validator_Validate v (vc_symbol c) (vc_seq c) (vc_now1 c) (vc_now2 c) in
      let '(v, outs) := Validator_run v calls in
      (v, (vc_symbol c, out) :: outs)
  end.

(** The same messages validated against the statistics of one symbol alone. *)
Fixpoint stats_run (symbol : string) (st : Stats) (calls : list ValCall)
    : Stats * list (ValidationResult * option GapInfo) :=
  match calls with
  | [] => (st, [])
  | c :: calls =>
      let '(st, out) := validate_stats symbol st (vc_seq c) (vc_now2 c) in
      let '(st, outs) := stats_run symbol st calls in
      (st, out :: outs)
  end.

Definition outs_of (sym : string) (outs : list (string * (ValidationResult * option GapInfo))) :=
  snd <$> filter (λ o, o.1 = sym) outs.

(** No call of the run reaches the next sweep. *)
Definition no_sweep (v : Validator) (calls : list ValCall) : Prop :=
  Forall (λ c, time_sub (vc_now1 c) (va_lastEvict v) < va_evictInt v) calls.

(** Between two sweeps the symbols do not interfere: verdicts and statistics of
    a symbol are those of its own messages validated alone. *)
Lemma Validator_run_isolated v m sym calls :
  va_flat v m → no_sweep v calls →
  let '(v', outs) := Validator_run v calls in
  let '(st, outs1) := stats_run sym (default zero_Stats (m !! sym))
                        (filter (λ c, vc_symbol c = sym) calls) in
  outs_of sym outs = outs1 ∧ Validator_StatsFor v' sym = st.
Proof.
  revert v m. induction calls as [|c calls IH]; intros v m H Hns.
  { simpl. split; [done|]. by apply Validator_StatsFor_flat. }
  apply Forall_cons_1 in Hns as [Hc Hns].
  pose proof (Validator_Validate_flat v m (vc_symbol c) (vc_seq c) (vc_now1 c) (vc_now2 c) H) as Hv.
  unfold spec_evict in Hv. rewrite (proj2 (Z.ltb_lt _ _)) in Hv by done.
  cbn [Validator_run].
  destruct (validate_stats (vc_symbol c) _ _ _) as [st out] eqn:Hst.
  destruct Hv as (v1 & Hval & H1). pose proof Hval as Hv1. rewrite Hval.
  assert (Hfields : no_sweep v1 calls).
  { unfold Validator_Validate, Validator_maybeEvict in Hv1.
    rewrite (proj2 (Z.ltb_lt _ _)) in Hv1 by done.
    destruct (validate_stats _ _ _ _) in Hv1. by injection Hv1 as <- _. }
  specialize (IH v1 _ H1 Hfields).
  destruct (Validator_run v1 calls) as [v' outs]. unfold outs_of.
  destruct (decide (vc_symbol c = sym)) as [Heq|Hne].
  - rewrite !filter_cons_True by done. cbn [stats_run]. rewrite fmap_cons. cbn [snd].
    rewrite <- Heq in *. rewrite Hst. rewrite lookup_insert_eq in IH.
    change (default zero_Stats (Some st)) with st in IH.
    destruct (stats_run (vc_symbol c) st _) as [st' outs1]. destruct IH as [<- <-]. done.
  - rewrite !filter_cons_False by done. by rewrite lookup_insert_ne in IH by done.
Qed.

(** ** Accounting *)

Definition count_result (r : ValidationResult) (outs : list (ValidationResult * option GapInfo)) : Z :=
  Z.of_nat (length (filter (λ o, o.1 = r) outs)).
Definition total_missing (outs : list (ValidationResult * option GapInfo)) : Z :=
  fold_right (λ o t, match snd o with Some g => gi_Missing g + t | None => t end) 0 outs.
Definition gap_reports (outs : list (ValidationResult * option GapInfo)) : Z :=
  Z.of_nat (length (filter (λ o, is_Some (snd o)) outs)).

Lemma count_result_cons r o outs :
  count_result r (o :: outs) = (if decide (o.1 = r) then 1 else 0) + count_result r outs.
Proof. unfold count_result. rewrite filter_cons. case_decide; simpl; lia. Qed.

Lemma gap_reports_cons o outs :
  gap_reports (o :: outs) = (if decide (is_Some (snd o)) then 1 else 0) + gap_reports outs.
Proof. unfold gap_reports. rewrite filter_cons. case_decide; simpl; lia. Qed.

Definition stats_ok (st : Stats) (bound : Z) : Prop :=
  0 ≤ st_TotalReceived st ≤ bound ∧ 0 ≤ st_GapsDetected st ≤ bound ∧
  0 ≤ st_OutOfOrderCount st ≤ bound ∧ 0 ≤ st_Duplicates st ≤ bound.

(** The statistics after a run, started from statistics that have seen a message. *)
Lemma stats_run_accounting sym st calls b :
  stats_ok st b → b + Z.of_nat (length calls) < 2 ^ 63 →
  0 < st_LatestSeq st < 2 ^ 63 - 1 → Forall (λ c, 0 < vc_seq c < 2 ^ 63 - 1) calls →
  let '(st', outs) := stats_run sym st calls in
  st_TotalReceived st' = st_TotalReceived st + Z.of_nat (length calls) ∧
  Z.of_nat (length calls) = count_result ValOk outs + count_result OutOfOrder outs + count_result Duplicate outs ∧
  st_OutOfOrderCount st' = st_OutOfOrderCount st + count_result OutOfOrder outs ∧
  st_Duplicates st' = st_Duplicates st + count_result Duplicate outs ∧
  st_GapsDetected st' = st_GapsDetected st + gap_reports outs ∧
  st_LatestSeq st' = st_LatestSeq st + count_result ValOk outs + total_missing outs.
Proof.
  revert st b. induction calls as [|c calls IH]; intros st b Hok Hb Hl Hc.
  { simpl. unfold count_result, gap_reports, total_missing. simpl. lia. }
  apply Forall_cons_1 in Hc as [Hc Hcs]. cbn [stats_run length] in *.
  destruct (validate_stats sym st (vc_seq c) (vc_now2 c)) as [st1 out] eqn:Hv.
  destruct Hok as (? & ? & ? & ?).
  unfold validate_stats in Hv. 
  rewrite (i64_small (st_TotalReceived st + 1)), (i64_small (st_GapsDetected st + 1)),
    (i64_small (st_OutOfOrderCount st + 1)), (i64_small (st_Duplicates st + 1)),
    (i64_small (st_LatestSeq st + 1)) in Hv by go_lia.
  rewrite (proj2 (Z.eqb_neq (st_LatestSeq st) 0)) in Hv by lia.
  assert (Hst1 : stats_ok st1 (b + 1) ∧ 0 < st_LatestSeq st1 < 2 ^ 63 - 1).
  { unfold stats_ok. repeat (case_if; [injection Hv as <- <-; simpl; lia|]).
    injection Hv as <- <-. simpl. lia. }
  specialize (IH st1 (b + 1) (proj1 Hst1) ltac:(lia) (proj2 Hst1) Hcs).
  destruct (stats_run sym st1 calls) as [st' outs].
  rewrite !count_result_cons, gap_reports_cons.
  destruct IH as (-> & Hlen & -> & -> & -> & ->).
  repeat match type of Hv with
  | context [if ?b then _ else _] =>
      destruct b eqn:?; zb;
        [injection Hv as <- <-; simpl; rewrite ?decide_False by (by intros [? ?]);
         simpl; lia|]
  end.
  injection Hv as <- <-. simpl. rewrite i64_small by go_lia. lia.
Qed.

(** The validator accounts for every message, through the shards and with
    any other symbols interleaved. Between sweeps, for a symbol whose messages are
    [first :: rest] (positive sequence numbers, in any order, with repeats):
    every message gets exactly one verdict, the counters equal the verdicts
    given, and the latest sequence is the first one plus the messages accepted
    after it plus the sequences reported missing. *)
Lemma validator_accounts_for_all opts t0 sym calls first rest :
  no_sweep (NewValidator opts t0) calls →
  filter (λ c, vc_symbol c = sym) calls = first :: rest →
  Forall (λ c, 0 < vc_seq c < 2 ^ 63 - 1) (first :: rest) →
  Z.of_nat (length rest) < 2 ^ 63 - 1 →
  let '(v, outs) := Validator_run (NewValidator opts t0) calls in
  let st := Validator_StatsFor v sym in
  let verdicts := outs_of sym outs in
  st_TotalReceived st = Z.of_nat (length (first :: rest)) ∧
  Z.of_nat (length (first :: rest)) =
    count_result ValOk verdicts + count_result OutOfOrder verdicts +
    count_result Duplicate verdicts ∧
  st_OutOfOrderCount st = count_result OutOfOrder verdicts ∧
  st_Duplicates st = count_result Duplicate verdicts ∧
  st_GapsDetected st = gap_reports verdicts ∧
  st_LatestSeq st = vc_seq first + (count_result ValOk verdicts - 1) + total_missing verdicts.
Proof.
  intros Hns Hfl Hc Hlen.
  pose proof (Validator_run_isolated (NewValidator opts t0) ∅ sym calls
                (flat_empty _ _ shardIndex_lt) Hns) as Hiso.
  destruct (Validator_run _ calls) as [v outs]. rewrite Hfl, lookup_empty in Hiso.
  cbn [stats_run] in Hiso. change (default zero_Stats None) with zero_Stats in Hiso.
  cbv [validate_stats] in Hiso. cbn [st_LatestSeq zero_Stats Z.eqb] in Hiso.
  set (st1 := mkStats _ _ _ _ (vc_seq first) _) in Hiso.
  apply Forall_cons_1 in Hc as [Hf Hr].
  pose proof (stats_run_accounting sym st1 rest 1) as Hacc.
  destruct (stats_run sym st1 rest) as [st outs1]. destruct Hiso as [-> ->].
  destruct Hacc as (H1 & H2 & H3 & H4 & H5 & H6); [by unfold stats_ok|lia|done|done|].
  cbv zeta. rewrite !count_result_cons, gap_reports_cons. simpl in *.
  change (i64 (0 + 1)) with 1 in *. split_and!; lia.
Qed.

Lemma validator_accounts_for_all_witness :
  let calls := [mkValCall "A" 5 1 1; mkValCall "B" 1 2 2; mkValCall "A" 9 3 3;
                mkValCall "A" 9 4 4; mkValCall "A" 7 5 5] in
  let '(v, outs) := Validator_run (NewValidator [] 0) calls in
  st_TotalReceived (Validator_StatsFor v "A") = 4 ∧
  st_LatestSeq (Validator_StatsFor v "A") =
    5 + (count_result ValOk (outs_of "A" outs) - 1) + total_missing (outs_of "A" outs).
Proof.
  set (calls := [mkValCall "A" 5 1 1; mkValCall "B" 1 2 2; mkValCall "A" 9 3 3;
                 mkValCall "A" 9 4 4; mkValCall "A" 7 5 5]).
  pose proof (validator_accounts_for_all [] 0 "A" calls (mkValCall "A" 5 1 1)
                [mkValCall "A" 9 3 3; mkValCall "A" 9 4 4; mkValCall "A" 7 5 5]) as H.
  cbv zeta. destruct (Validator_run (NewValidator [] 0) calls) as [v outs].
  destruct H as (H1 & _ & _ & _ & _ & H6).
  - repeat constructor.
  - reflexivity.
  - repeat constructor.
  - cbn. lia.
  - exact (conj H1 H6).
Defined.

(** [Validate] never answers [Gap]; skipped sequences are reported in
    the GapInfo next to an Ok. *)
Lemma validator_never_answers_gap v symbol seq now1 now2 :
  fst (snd (Validator_Validate v symbol seq now1 now2)) ≠ Gap.
Proof.
  unfold Validator_Validate. destruct (validate_stats _ _ _ _) as [st out] eqn:Hv. cbn [fst snd].
  unfold validate_stats in Hv.
  repeat (case_if; [by injection Hv as <- <-|]). by injection Hv as <- <-.
Qed.
