(* ===== verification/Float64.v ===== *)
(** * Float64: Go's float64

    IEEE 754 binary64 with round to nearest even, as the Standard Library
    specifies it ([SpecFloat], precision 53, maximal exponent 1024): executable,
    with infinities, signed zeros and NaN. Comparisons of valid floats are the
    comparisons of integers ([f64_scaled]), and arithmetic on integers below 2^53
    is exact ([f64_add_int], [f64_sub_int], [f64_mul_int]). *)

From Stdlib Require Export Floats.SpecFloat.
From S2P Require Import Prelude.

Definition float64 : Type := spec_float.

(** [float64(z)] of an integer. *)
Definition f64_of_Z (z : Z) : float64 := binary_normalize 53 1024 z 0 false.
(** A literal [m * 2^e]. *)
Definition f64_lit (m e : Z) : float64 := binary_normalize 53 1024 m e false.

Definition f64_add (x y : float64) : float64 := SFadd 53 1024 x y.
Definition f64_sub (x y : float64) : float64 := SFsub 53 1024 x y.
Definition f64_mul (x y : float64) : float64 := SFmul 53 1024 x y.
Definition f64_div (x y : float64) : float64 := SFdiv 53 1024 x y.

(** Go's comparisons: false when an operand is NaN. *)
Definition f64_ltb (x y : float64) : bool := SFltb x y.
Definition f64_leb (x y : float64) : bool := SFleb x y.
Definition f64_eqb (x y : float64) : bool := SFeqb x y.

Definition f64_zero : float64 := f64_of_Z 0.
Definition f64_one : float64 := f64_of_Z 1.

Example f64_third : f64_ltb (f64_div f64_one (f64_of_Z 3)) (f64_lit 6004799503160662 (-54)) = true.
Proof. vm_compute. done. Qed.

(** ** Order

    A finite float is an integer multiple of 2^-1074; [f64_scaled] is that
    integer, with the infinities beyond every finite value. On valid floats
    (the type invariant of binary64) other than NaN, Go's comparisons are the
    comparisons of these integers. *)

Definition f64_valid (x : float64) : Prop := valid_binary 53 1024 x = true ∧ x ≠ S754_nan.

Definition f64_scaled (x : float64) : Z :=
  match x with
  | S754_zero _ | S754_nan => 0
  | S754_infinity s => if s then - 2 ^ 2100 else 2 ^ 2100
  | S754_finite s m e => cond_Zopp s (Z.pos m * 2 ^ (e + 1074))
  end.

Lemma digits2_size p : digits2_pos p = Pos.size p.
Proof. induction p; cbn; congruence. Qed.

Lemma digits2_bounds p :
  2 ^ (Z.pos (digits2_pos p) - 1) ≤ Z.pos p < 2 ^ Z.pos (digits2_pos p).
Proof.
  rewrite digits2_size. pose proof (Pos.size_gt p) as H1. pose proof (Pos.size_le p) as H2.
  apply Pos2Z.pos_lt_pos in H1. apply Pos2Z.pos_le_pos in H2.
  rewrite Pos2Z.inj_pow in H1, H2.
  assert (Hs : 2 ^ Z.pos (Pos.size p) = 2 * 2 ^ (Z.pos (Pos.size p) - 1))
    by (rewrite <- Z.pow_succ_r by lia; f_equal; lia).
  lia.
Qed.

(** The digits of a mantissa are those of its value. *)
Lemma digits2_unique p d : 0 < d → 2 ^ (d - 1) ≤ Z.pos p < 2 ^ d → Z.pos (digits2_pos p) = d.
Proof.
  intros Hd Hp. pose proof (digits2_bounds p) as Hb.
  destruct (Z.lt_trichotomy (Z.pos (digits2_pos p)) d) as [H|[H|H]]; [|done|].
  - pose proof (Z.pow_le_mono_r 2 (Z.pos (digits2_pos p)) (d - 1)). lia.
  - pose proof (Z.pow_le_mono_r 2 d (Z.pos (digits2_pos p) - 1)). lia.
Qed.

Lemma valid_finite s m e :
  valid_binary 53 1024 (S754_finite s m e) = true →
  -1074 ≤ e ≤ 971 ∧ Z.pos m < 2 ^ 53 ∧ (-1074 < e → 2 ^ 52 ≤ Z.pos m).
Proof.
  cbn. unfold bounded, canonical_mantissa, fexp, emin. intros [H1 H2]%andb_true_iff.
  apply Z.eqb_eq in H1. apply Z.leb_le in H2. pose proof (digits2_bounds m) as Hb.
  pose proof (Z.pow_le_mono_r 2 (Z.pos (digits2_pos m)) 53). split_and!; [lia|lia|lia|].
  intros He. assert (Z.pos (digits2_pos m) = 53) as Hd by lia. rewrite Hd in Hb. lia.
Qed.

Lemma mantissa_lt m1 e1 m2 e2 :
  -1074 ≤ e1 → e1 < e2 → Z.pos m1 < 2 ^ 53 → 2 ^ 52 ≤ Z.pos m2 →
  Z.pos m1 * 2 ^ (e1 + 1074) < Z.pos m2 * 2 ^ (e2 + 1074).
Proof.
  intros H0 He H1 H2.
  assert (2 ^ (e2 + 1074) = 2 * 2 ^ (e1 + 1074) * 2 ^ (e2 - e1 - 1)) as ->.
  { rewrite <- Z.pow_succ_r, <- Z.pow_add_r by lia. f_equal. lia. }
  pose proof (Z.pow_pos_nonneg 2 (e1 + 1074) ltac:(lia) ltac:(lia)) as HA.
  pose proof (Z.pow_pos_nonneg 2 (e2 - e1 - 1) ltac:(lia) ltac:(lia)) as HB.
  set (A := 2 ^ (e1 + 1074)) in *. set (B := 2 ^ (e2 - e1 - 1)) in *.
  apply Z.lt_le_trans with (2 ^ 53 * A); [by apply Z.mul_lt_mono_pos_r|].
  transitivity (Z.pos m2 * (2 * A)).
  - change (2 ^ 53) with (2 ^ 52 * 2). rewrite <- Z.mul_assoc. apply Z.mul_le_mono_nonneg_r; lia.
  - apply Z.mul_le_mono_nonneg_l; [lia|]. nia.
Qed.

Lemma finite_compare m1 e1 m2 e2 :
  bounded 53 1024 m1 e1 = true → bounded 53 1024 m2 e2 = true →
  match (e1 ?= e2) with Lt => Lt | Gt => Gt | Eq => Pos.compare_cont Eq m1 m2 end =
  (Z.pos m1 * 2 ^ (e1 + 1074) ?= Z.pos m2 * 2 ^ (e2 + 1074)).
Proof.
  intros H1 H2. destruct (valid_finite false m1 e1 H1) as (? & ? & ?).
  destruct (valid_finite false m2 e2 H2) as (? & ? & ?). symmetry.
  destruct (Z.compare_spec e1 e2) as [->|Hlt|Hgt].
  - rewrite <- Zmult_compare_compat_r; [done|]. pose proof (Z.pow_pos_nonneg 2 (e2 + 1074)). lia.
  - apply Z.compare_lt_iff, mantissa_lt; lia.
  - apply Z.compare_gt_iff, mantissa_lt; lia.
Qed.

Lemma finite_range m e :
  bounded 53 1024 m e = true → 0 < Z.pos m * 2 ^ (e + 1074) < 2 ^ 2100.
Proof.
  intros H. destruct (valid_finite false m e H) as (? & ? & _).
  pose proof (Z.pow_pos_nonneg 2 (e + 1074) ltac:(lia) ltac:(lia)) as HA.
  pose proof (Z.pow_le_mono_r 2 (e + 1074) 2045 ltac:(lia) ltac:(lia)) as HB.
  split; [lia|]. apply Z.lt_le_trans with (2 ^ 53 * 2 ^ (e + 1074)); [by apply Z.mul_lt_mono_pos_r|].
  transitivity (2 ^ 53 * 2 ^ 2045); [by apply Z.mul_le_mono_nonneg_l|].
  rewrite <- Z.pow_add_r by lia. by apply Z.pow_le_mono_r.
Qed.

Lemma f64_compare x y :
  f64_valid x → f64_valid y → SFcompare x y = Some (f64_scaled x ?= f64_scaled y).
Proof.
  intros [Hx Hnx] [Hy Hny].
  destruct x as [sx|sx| |sx mx ex], y as [sy|sy| |sy my ey]; try done; cbn [SFcompare f64_scaled];
    cbn in Hx, Hy; f_equal; try (destruct sx); try (destruct sy); try done; cbn [cond_Zopp]; symmetry;
    try (pose proof (finite_range _ _ Hx)); try (pose proof (finite_range _ _ Hy));
    try (apply Z.compare_lt_iff; lia); try (apply Z.compare_gt_iff; lia).
  - rewrite Z.compare_opp, Z.compare_antisym.
    rewrite <- (finite_compare mx ex my ey) by done. by destruct (ex ?= ey).
  - symmetry. by apply finite_compare.
Qed.

Lemma f64_ltb_scaled x y :
  f64_valid x → f64_valid y → f64_ltb x y = (f64_scaled x <? f64_scaled y).
Proof.
  intros Hx Hy. unfold f64_ltb, SFltb, Z.ltb. rewrite f64_compare by done. by destruct (_ ?= _).
Qed.

Lemma f64_leb_scaled x y :
  f64_valid x → f64_valid y → f64_leb x y = (f64_scaled x <=? f64_scaled y).
Proof.
  intros Hx Hy. unfold f64_leb, SFleb, Z.leb. rewrite f64_compare by done. by destruct (_ ?= _).
Qed.

Lemma f64_eqb_scaled x y :
  f64_valid x → f64_valid y → f64_eqb x y = (f64_scaled x =? f64_scaled y).
Proof.
  intros Hx Hy. unfold f64_eqb, SFeqb. rewrite f64_compare by done.
  by destruct (Z.compare_spec (f64_scaled x) (f64_scaled y)), (Z.eqb_spec (f64_scaled x) (f64_scaled y)); try lia.
Qed.

(** ** Exact integers

    Below 2^53 the integers are represented exactly, and sums, differences and
    products that stay below are exact. *)

(** The canonical float of the positive integer [v]. *)
Definition int_float (s : bool) (v : positive) : float64 :=
  let d := Z.pos (digits2_pos v) in
  S754_finite s (Z.to_pos (Z.pos v * 2 ^ (53 - d))) (d - 53).

Lemma iter_xO p n : Z.pos (Pos.iter xO p n) = Z.pos p * 2 ^ Z.pos n.
Proof.
  rewrite <- (Pos2Nat.id n) at 1. rewrite Pos2Nat.inj_iter, Pos2Nat.id.
  rewrite <- (positive_nat_Z n). induction (Pos.to_nat n) as [|k IH]; [simpl; lia|].
  rewrite Nat2Z.inj_succ, Z.pow_succ_r by lia. cbn [Nat.iter nat_rect].
  change (Nat.iter (S k) xO p) with (xO (Nat.iter k xO p)). rewrite Pos2Z.inj_xO. unfold Nat.iter in IH. lia.
Qed.

(** Shifting out zeros is exact. *)
Lemma iter_pos_nat {A} (f : A → A) n x : SpecFloat.iter_pos f n x = Nat.iter (Pos.to_nat n) f x.
Proof.
  revert x. induction n as [n IH|n IH|]; intros x; cbn [SpecFloat.iter_pos].
  - rewrite !IH, <- Nat.iter_add, Pos2Nat.inj_xI, Nat.iter_succ_r. f_equal. lia.
  - rewrite !IH, <- Nat.iter_add, Pos2Nat.inj_xO. f_equal. lia.
  - done.
Qed.

Lemma shr_zeros m n :
  SpecFloat.iter_pos shr_1 n (Build_shr_record (Z.pos m * 2 ^ Z.pos n) false false) =
  Build_shr_record (Z.pos m) false false.
Proof.
  rewrite iter_pos_nat, <- (positive_nat_Z n). induction (Pos.to_nat n) as [|k IH].
  { cbn. f_equal. lia. }
  rewrite Nat.iter_succ_r, Nat2Z.inj_succ, Z.pow_succ_r by lia.
  replace (shr_1 _) with (Build_shr_record (Z.pos m * 2 ^ Z.of_nat k) false false); [exact IH|].
  pose proof (Z.pow_pos_nonneg 2 (Z.of_nat k)).
  destruct (Z.pos m * 2 ^ Z.of_nat k) as [|q|q] eqn:Hq; try lia.
  replace (Z.pos m * (2 * 2 ^ Z.of_nat k)) with (Z.pos q~0) by lia. done.
Qed.

Lemma digits2_shift p q n :
  0 ≤ n → Z.pos q = Z.pos p * 2 ^ n → Z.pos (digits2_pos q) = Z.pos (digits2_pos p) + n.
Proof.
  intros Hn Hq. pose proof (digits2_bounds p) as Hb.
  apply digits2_unique; [lia|]. rewrite Hq.
  replace (Z.pos (digits2_pos p) + n - 1) with (Z.pos (digits2_pos p) - 1 + n) by lia.
  rewrite !Z.pow_add_r by lia. pose proof (Z.pow_pos_nonneg 2 n ltac:(lia) ltac:(lia)). nia.
Qed.

Lemma digits2_le v : Z.pos v < 2 ^ 53 → Z.pos (digits2_pos v) ≤ 53.
Proof.
  intros Hv. pose proof (digits2_bounds v) as Hb.
  destruct (Z.le_gt_cases (Z.pos (digits2_pos v)) 53) as [|H]; [done|].
  pose proof (Z.pow_le_mono_r 2 53 (Z.pos (digits2_pos v) - 1)). lia.
Qed.

(** Rounding a mantissa that denotes the integer [v] yields its float. *)
Lemma round_aux_exact s m e v :
  Z.pos v < 2 ^ 53 → e ≤ Z.pos (digits2_pos v) - 53 → Z.pos m = Z.pos v * 2 ^ (- e) →
  binary_round_aux 53 1024 s (Z.pos m) e loc_Exact = int_float s v.
Proof.
  intros Hv He Hm. pose proof (digits2_le v Hv) as Hd.
  set (d := Z.pos (digits2_pos v)) in *. set (q := Z.to_pos (Z.pos v * 2 ^ (53 - d))).
  assert (Hpow : 0 < 2 ^ (53 - d)) by (apply Z.pow_pos_nonneg; lia).
  assert (Hq : Z.pos q = Z.pos v * 2 ^ (53 - d)) by (unfold q; rewrite Z2Pos.id; lia).
  assert (Hdm : Z.pos (digits2_pos m) = d + - e) by (apply (digits2_shift v m (- e)); [lia|done]).
  assert (Hdq : Z.pos (digits2_pos q) = d + (53 - d)) by (apply (digits2_shift v q (53 - d)); [lia|done]).
  assert (Hf1 : fexp 53 1024 (Zdigits2 (Z.pos m) + e) = d - 53).
  { unfold Zdigits2, fexp, emin. rewrite Hdm. lia. }
  assert (Hf2 : fexp 53 1024 (Zdigits2 (Z.pos q) + (d - 53)) = d - 53).
  { unfold Zdigits2, fexp, emin. rewrite Hdq. lia. }
  assert (Hs1 : shr_fexp 53 1024 (Z.pos m) e loc_Exact = (Build_shr_record (Z.pos q) false false, d - 53)).
  { unfold shr_fexp, shr_record_of_loc. rewrite Hf1. destruct (d - 53 - e) as [|n|n] eqn:Hn; [| |lia].
    - cbn [shr]. f_equal; [|lia]. f_equal. rewrite Hm, Hq. do 2 f_equal. lia.
    - cbn [shr]. f_equal; [|lia]. rewrite Hm. replace (- e) with (53 - d + Z.pos n) by lia.
      rewrite Z.pow_add_r, Z.mul_assoc, <- Hq by lia. apply shr_zeros. }
  unfold binary_round_aux. rewrite Hs1. cbn [shr_m loc_of_shr_record round_nearest_even].
  unfold shr_fexp, shr_record_of_loc. rewrite Hf2, Z.sub_diag. cbn [shr shr_m].
  rewrite (proj2 (Z.leb_le (d - 53) (1024 - 53))) by lia. done.
Qed.

Lemma round_exact s m e v :
  Z.pos v < 2 ^ 53 → e ≤ 0 → Z.pos m = Z.pos v * 2 ^ (- e) →
  binary_round 53 1024 s m e = int_float s v.
Proof.
  intros Hv He Hm. pose proof (digits2_le v Hv) as Hd.
  assert (Hdm : Z.pos (digits2_pos m) = Z.pos (digits2_pos v) + - e)
    by (apply (digits2_shift v m (- e)); [lia|done]).
  unfold binary_round. replace (fexp 53 1024 (Z.pos (digits2_pos m) + e)) with (Z.pos (digits2_pos v) - 53)
    by (unfold fexp, emin; rewrite Hdm; lia).
  unfold shl_align. destruct (Z.pos (digits2_pos v) - 53 - e) as [|n|n] eqn:Hn.
  1,2: apply round_aux_exact; [done|lia|done].
  apply round_aux_exact; [done|lia|]. rewrite iter_xO, Hm, <- Z.mul_assoc, <- Z.pow_add_r by lia.
  do 2 f_equal. lia.
Qed.

Definition int_f64 (z : Z) : float64 :=
  match z with 0 => S754_zero false | Z.pos v => int_float false v | Z.neg v => int_float true v end.

(** An integer scaled by a power of two normalises to its float. *)
Lemma normalize_exact z m e :
  - 2 ^ 53 < z < 2 ^ 53 → e ≤ 0 → m = z * 2 ^ (- e) → binary_normalize 53 1024 m e false = int_f64 z.
Proof.
  intros Hz He ->. pose proof (Z.pow_pos_nonneg 2 (- e) ltac:(lia) ltac:(lia)) as Hp.
  destruct z as [|v|v]; cbn [int_f64].
  - done.
  - destruct (Z.pos v * 2 ^ (- e)) as [|m|m] eqn:Hm; try lia. cbn. apply round_exact; [lia|done|done].
  - destruct (Z.neg v * 2 ^ (- e)) as [|m|m] eqn:Hm; try lia. cbn. apply round_exact; [lia|done|lia].
Qed.

Lemma f64_of_Z_int z : - 2 ^ 53 < z < 2 ^ 53 → f64_of_Z z = int_f64 z.
Proof. intros Hz. apply normalize_exact; [done|lia|]. cbn. lia. Qed.

Lemma align_int v e :
  Z.pos v < 2 ^ 53 → e ≤ Z.pos (digits2_pos v) - 53 →
  Z.pos (fst (shl_align (Z.to_pos (Z.pos v * 2 ^ (53 - Z.pos (digits2_pos v)))) (Z.pos (digits2_pos v) - 53) e))
  = Z.pos v * 2 ^ (- e).
Proof.
  intros Hv He. pose proof (digits2_le v Hv) as Hd. set (d := Z.pos (digits2_pos v)) in *.
  pose proof (Z.pow_pos_nonneg 2 (53 - d) ltac:(lia) ltac:(lia)) as Hp.
  unfold shl_align. destruct (e - (d - 53)) as [|n|n] eqn:Hn; [|lia|]; cbn [fst].
  - rewrite Z2Pos.id by lia. do 2 f_equal. lia.
  - rewrite iter_xO, Z2Pos.id, <- Z.mul_assoc, <- Z.pow_add_r by lia. do 2 f_equal. lia.
Qed.

(** The aligned signed mantissa of an integer. *)
Lemma align_signed z s m e0 e :
  - 2 ^ 53 < z < 2 ^ 53 → int_f64 z = S754_finite s m e0 → e ≤ e0 →
  e0 ≤ 0 ∧ cond_Zopp s (Z.pos (fst (shl_align m e0 e))) = z * 2 ^ (- e).
Proof.
  intros Hz Hf He. destruct z as [|v|v]; [done| |]; injection Hf as <- <- <-;
    pose proof (digits2_le v ltac:(lia)); (split; [lia|]); rewrite align_int by lia; cbn; lia.
Qed.

Lemma f64_add_int a b :
  - 2 ^ 53 < a < 2 ^ 53 → - 2 ^ 53 < b < 2 ^ 53 → - 2 ^ 53 < a + b < 2 ^ 53 →
  f64_add (f64_of_Z a) (f64_of_Z b) = f64_of_Z (a + b).
Proof.
  intros Ha Hb Hab. rewrite !f64_of_Z_int by done. unfold f64_add.
  destruct (int_f64 a) as [sa|sa| |sa ma ea] eqn:Hfa; [|by destruct a|by destruct a|].
  { destruct a; try done. injection Hfa as <-. rewrite Z.add_0_l.
    by destruct b. }
  destruct (int_f64 b) as [sb|sb| |sb mb eb] eqn:Hfb; [|by destruct b|by destruct b|].
  { destruct b; try done. rewrite Z.add_0_r, <- Hfa. by destruct a. }
  cbn [SFadd]. set (ez := Z.min ea eb).
  destruct (align_signed a sa ma ea ez Ha Hfa ltac:(lia)) as [Hea ->].
  destruct (align_signed b sb mb eb ez Hb Hfb ltac:(lia)) as [Heb ->].
  apply normalize_exact; [done|lia|]. lia.
Qed.

Lemma f64_sub_int a b :
  - 2 ^ 53 < a < 2 ^ 53 → - 2 ^ 53 < b < 2 ^ 53 → - 2 ^ 53 < a - b < 2 ^ 53 →
  f64_sub (f64_of_Z a) (f64_of_Z b) = f64_of_Z (a - b).
Proof.
  intros Ha Hb Hab. rewrite !f64_of_Z_int by done. unfold f64_sub.
  destruct (int_f64 a) as [sa|sa| |sa ma ea] eqn:Hfa; [|by destruct a|by destruct a|].
  { destruct a; try done. injection Hfa as <-. rewrite Z.sub_0_l. by destruct b. }
  destruct (int_f64 b) as [sb|sb| |sb mb eb] eqn:Hfb; [|by destruct b|by destruct b|].
  { destruct b; try done. rewrite Z.sub_0_r, <- Hfa. by destruct a. }
  cbn [SFsub]. set (ez := Z.min ea eb).
  destruct (align_signed a sa ma ea ez Ha Hfa ltac:(lia)) as [Hea ->].
  destruct (align_signed b sb mb eb ez Hb Hfb ltac:(lia)) as [Heb ->].
  apply normalize_exact; [done|lia|]. lia.
Qed.

Lemma f64_of_Z_scaled z :
  - 2 ^ 53 < z < 2 ^ 53 → f64_valid (f64_of_Z z) ∧ f64_scaled (f64_of_Z z) = z * 2 ^ 1074.
Proof.
  intros Hz. rewrite f64_of_Z_int by done.
  assert (Hv : ∀ s v, Z.pos v < 2 ^ 53 →
    f64_valid (int_float s v) ∧ f64_scaled (int_float s v) = cond_Zopp s (Z.pos v * 2 ^ 1074)).
  { clear Hz. intros s v Hz. pose proof (digits2_le v Hz) as Hd. unfold int_float.
    set (d := Z.pos (digits2_pos v)) in *.
    pose proof (Z.pow_pos_nonneg 2 (53 - d) ltac:(lia) ltac:(lia)) as Hp.
    split; [split; [|done]|].
    - cbn. unfold bounded, canonical_mantissa.
      rewrite (digits2_shift v (Z.to_pos (Z.pos v * 2 ^ (53 - d))) (53 - d)) by (lia || (rewrite Z2Pos.id; lia)).
      fold d. unfold fexp, emin. apply andb_true_iff. split; [apply Z.eqb_eq; lia|apply Z.leb_le; lia].
    - cbn [f64_scaled]. f_equal. rewrite Z2Pos.id, <- Z.mul_assoc, <- Z.pow_add_r by lia. do 2 f_equal. lia. }
  destruct z as [|v|v]; cbn [int_f64]; [by split; [split|]| |].
  - apply (Hv false v). lia.
  - destruct (Hv true v) as [H1 H2]; [lia|]. split; [done|]. rewrite H2. cbn. lia.
Qed.

Lemma f64_leb_int a b :
  - 2 ^ 53 < a < 2 ^ 53 → - 2 ^ 53 < b < 2 ^ 53 → f64_leb (f64_of_Z a) (f64_of_Z b) = (a <=? b).
Proof.
  intros Ha Hb. destruct (f64_of_Z_scaled a Ha) as [Hva Hsa], (f64_of_Z_scaled b Hb) as [Hvb Hsb].
  rewrite f64_leb_scaled, Hsa, Hsb by done.
  pose proof (Z.pow_pos_nonneg 2 1074 ltac:(lia) ltac:(lia)) as Hp. generalize dependent (2 ^ 1074).
  intros P _ _ HP. destruct (Z.leb_spec (a * P) (b * P)), (Z.leb_spec a b); try done; nia.
Qed.

Lemma f64_ltb_int a b :
  - 2 ^ 53 < a < 2 ^ 53 → - 2 ^ 53 < b < 2 ^ 53 → f64_ltb (f64_of_Z a) (f64_of_Z b) = (a <? b).
Proof.
  intros Ha Hb. destruct (f64_of_Z_scaled a Ha) as [Hva Hsa], (f64_of_Z_scaled b Hb) as [Hvb Hsb].
  rewrite f64_ltb_scaled, Hsa, Hsb by done.
  pose proof (Z.pow_pos_nonneg 2 1074 ltac:(lia) ltac:(lia)) as Hp. generalize dependent (2 ^ 1074).
  intros P _ _ HP. destruct (Z.ltb_spec (a * P) (b * P)), (Z.ltb_spec a b); try done; nia.
Qed.

Lemma f64_mul_int a b :
  0 ≤ a < 2 ^ 53 → 0 ≤ b < 2 ^ 53 → a * b < 2 ^ 53 →
  f64_mul (f64_of_Z a) (f64_of_Z b) = f64_of_Z (a * b).
Proof.
  intros Ha Hb Hab. rewrite !f64_of_Z_int by lia. unfold f64_mul.
  destruct a as [|va|va]; [by destruct b as [|vb|vb]; [| |lia]| |lia].
  destruct b as [|vb|vb]; [done| |lia].
  rewrite <- Pos2Z.inj_mul in *. cbn [int_f64 int_float SFmul xorb].
  pose proof (digits2_le va ltac:(lia)) as Hda. pose proof (digits2_le vb ltac:(lia)) as Hdb.
  pose proof (digits2_le (va * vb) ltac:(lia)) as Hdp.
  pose proof (digits2_bounds va) as Hba. pose proof (digits2_bounds vb) as Hbb.
  set (da := Z.pos (digits2_pos va)) in *. set (db := Z.pos (digits2_pos vb)) in *.
  assert (Hdd : da + db - 1 ≤ Z.pos (digits2_pos (va * vb))).
  { destruct (Z.le_gt_cases (da + db - 1) (Z.pos (digits2_pos (va * vb)))) as [|Hlt]; [done|].
    pose proof (digits2_bounds (va * vb)) as Hbp. rewrite Pos2Z.inj_mul in Hbp.
    pose proof (Z.pow_le_mono_r 2 (Z.pos (digits2_pos (va * vb))) (da - 1 + (db - 1)) ltac:(lia) ltac:(lia)) as Hle.
    rewrite Z.pow_add_r in Hle by lia. nia. }
  pose proof (Z.pow_pos_nonneg 2 (53 - da) ltac:(lia) ltac:(lia)).
  pose proof (Z.pow_pos_nonneg 2 (53 - db) ltac:(lia) ltac:(lia)).
  apply (round_aux_exact false _ _ (va * vb)); [lia|lia|].
  rewrite !Pos2Z.inj_mul, !Z2Pos.id by lia.
  replace (- (da - 53 + (db - 53))) with (53 - da + (53 - db)) by lia.
  rewrite Z.pow_add_r by lia. lia.
Qed.
