(* ===== verification/Ring.v ===== *)
(** * Ring: the drop-oldest ring buffers

    [internal/backpressure/ring.go]: [Ring] (with the age limit) and
    [CachedRing], and [nextPow2]. Both keep the same array, positions and
    counters ([ringbuf]) and run the same critical section under the mutex. The
    refinement theorem shows that they are a bounded first-in first-out queue
    whose overflow evicts the oldest element. A ring pointer is never nil here:
    both constructors allocate the buffer. *)

From S2P Require Import Prelude.

(** ** nextPow2 *)

(** Go [int] is 64 bits wide; [n >> k] on it is the arithmetic shift. *)
Definition smear (n k : Z) : Z := Z.lor n (Z.shiftr n k).
Definition nextPow2 (n : Z) : Z :=
  if n <=? 1 then 1
  else
    let n := i64 (n - 1) in
    let n := smear n 1 in
    let n := smear n 2 in
    let n := smear n 4 in
    let n := smear n 8 in
    let n := smear n 16 in
    i64 (n + 1).

(** Bits above [k] are clear and the [w] bits below and including [k] are set. *)
Definition top_run (x k w : Z) : Prop :=
  0 ≤ x ∧ ∀ i, 0 ≤ i → (k < i → Z.testbit x i = false) ∧
                        (k - w < i ≤ k → Z.testbit x i = true).

Lemma smear_run x k w : 0 < w → top_run x k w → top_run (smear x w) k (2 * w).
Proof.
  intros Hw [Hx H]. unfold smear. split.
  { apply Z.lor_nonneg. split; [done|]. by apply Z.shiftr_nonneg. }
  intros i Hi. rewrite Z.lor_spec, Z.shiftr_spec by done.
  destruct (H i Hi) as [H1 H2], (H (i + w) ltac:(lia)) as [H3 H4]. split; intros Hk.
  - rewrite H1, H3 by lia. done.
  - destruct (decide (k - w < i)) as [|]; [rewrite H2 by lia; done|].
    rewrite H4 by lia. apply orb_true_r.
Qed.

Lemma top_run_ones x k w : 0 ≤ k → k < w → top_run x k w → x = 2 ^ (k + 1) - 1.
Proof.
  intros Hk Hw [Hx H].
  assert (Heq : x = Z.ones (k + 1)).
  { apply Z.bits_inj'. intros i Hi. destruct (H i Hi) as [H1 H2].
    destruct (decide (i ≤ k)).
    - rewrite H2, Z.ones_spec_low by lia. done.
    - rewrite H1, Z.ones_spec_high by lia. done. }
  rewrite Heq, Z.ones_equiv. lia.
Qed.

Lemma top_run_log2 x : 0 < x → top_run x (Z.log2 x) 1.
Proof.
  intros Hx. split; [lia|]. intros i Hi. split; intros Hk.
  - apply Z.bits_above_log2; lia.
  - replace i with (Z.log2 x) by lia. by apply Z.bit_log2.
Qed.

Lemma nextPow2_eq n : 1 < n ≤ 2 ^ 32 → nextPow2 n = 2 ^ (Z.log2 (n - 1) + 1).
Proof.
  intros Hn. unfold nextPow2. rewrite (proj2 (Z.leb_gt _ _)) by lia.
  rewrite (i64_small (n - 1)) by go_lia. set (k := Z.log2 (n - 1)).
  assert (Hk : 0 ≤ k < 32).
  { split; [apply Z.log2_nonneg|]. apply Z.log2_lt_pow2; lia. }
  pose proof (top_run_log2 (n - 1) ltac:(lia)) as H. fold k in H.
  apply smear_run in H; [|lia]. apply smear_run in H; [|lia]. apply smear_run in H; [|lia].
  apply smear_run in H; [|lia]. apply smear_run in H; [|lia].
  change (2 * (2 * (2 * (2 * 1)))) with 16 in H. change (2 * (2 * (2 * 1))) with 8 in H.
  change (2 * (2 * 1)) with 4 in H. change (2 * 1) with 2 in H.
  apply top_run_ones in H; [|lia|lia]. rewrite H.
  assert (2 ^ (k + 1) ≤ 2 ^ 32) by (apply Z.pow_le_mono_r; lia).
  assert (0 < 2 ^ (k + 1)) by (apply Z.pow_pos_nonneg; lia).
  rewrite i64_small by go_lia. lia.
Qed.

Lemma nextPow2_pow n : n ≤ 2 ^ 32 → ∃ k, 0 ≤ k ≤ 32 ∧ nextPow2 n = 2 ^ k.
Proof.
  intros Hn. destruct (decide (n ≤ 1)).
  { exists 0. unfold nextPow2. rewrite (proj2 (Z.leb_le _ _)) by lia. done. }
  exists (Z.log2 (n - 1) + 1). rewrite nextPow2_eq by lia.
  pose proof (Z.log2_nonneg (n - 1)). split; [|done]. split; [lia|].
  assert (Z.log2 (n - 1) < 32) by (apply Z.log2_lt_pow2; lia). lia.
Qed.

(** [nextPow2] is the smallest power of two that is at least its argument,
    for every argument up to 2^32. *)
Lemma nextPow2_least n :
  1 ≤ n ≤ 2 ^ 32 →
  (∃ k, 0 ≤ k ∧ nextPow2 n = 2 ^ k) ∧ n ≤ nextPow2 n ∧
  (∀ k, 0 ≤ k → n ≤ 2 ^ k → nextPow2 n ≤ 2 ^ k).
Proof.
  intros Hn. destruct (decide (n = 1)) as [->|Hne].
  { change (nextPow2 1) with 1. split_and!; [by exists 0|lia|lia]. }
  pose proof (Z.log2_nonneg (n - 1)). rewrite nextPow2_eq by lia.
  destruct (Z.log2_spec (n - 1) ltac:(lia)) as [Hlo Hhi]. rewrite <- Z.add_1_r in Hhi.
  split_and!; [by exists (Z.log2 (n - 1) + 1); split; [lia|]|lia|].
  intros k Hk Hle. apply Z.pow_le_mono_r; [lia|].
  assert (Z.log2 (n - 1) < k); [|lia]. apply Z.log2_lt_pow2; lia.
Qed.

Lemma nextPow2_least_witness :
  1 ≤ 100 ≤ 2 ^ 32 ∧ nextPow2 100 = 128 ∧ 100 ≤ nextPow2 100.
Proof.
  assert (H : 1 ≤ 100 ≤ 2 ^ 32) by lia.
  exact (conj H (conj eq_refl (proj1 (proj2 (nextPow2_least 100 H))))).
Defined.

(** ** The buffer *)

Section ring.
Context {E : Type}.

(** An empty slot is nil. *)
Record ringbuf := mkRingbuf {
  rb_buf : list (option E);
  rb_cap : Z;
  rb_mask : Z;
  rb_head : Z;
  rb_tail : Z;
  rb_totalPushed : Z;
  rb_totalDropped : Z;
}.

Definition new_ringbuf (capacity : Z) : ringbuf :=
  let c := nextPow2 capacity in
  mkRingbuf (replicate (Z.to_nat c) None) c (i64 (c - 1)) 0 0 0 0.

(** The critical section of [Push]. *)
Definition ringbuf_push (r : ringbuf) (ev : E) : ringbuf :=
  let buf := <[Z.to_nat (Z.land (rb_head r) (rb_mask r)) := Some ev]> (rb_buf r) in
  let unread := i64 (rb_head r - rb_tail r) in
  let full := rb_cap r <=? unread in
  mkRingbuf buf (rb_cap r) (rb_mask r) (i64 (rb_head r + 1))
    (if full then i64 (rb_tail r + 1) else rb_tail r)
    (u64 (rb_totalPushed r + 1))
    (if full then u64 (rb_totalDropped r + 1) else rb_totalDropped r).

(** The critical section of [Pop]: the event (a nil slot included) and whether
    there was one. *)
Definition ringbuf_pop (r : ringbuf) : ringbuf * option (option E) :=
  if rb_head r <=? rb_tail r then (r, None)
  else
    let idx := Z.to_nat (Z.land (rb_tail r) (rb_mask r)) in
    let ev := default None (rb_buf r !! idx) in
    (mkRingbuf (<[idx := None]> (rb_buf r)) (rb_cap r) (rb_mask r) (rb_head r)
       (i64 (rb_tail r + 1)) (rb_totalPushed r) (rb_totalDropped r), Some ev).

Definition ringbuf_len (r : ringbuf) : Z :=
  let n := i64 (rb_head r - rb_tail r) in if n <? 0 then 0 else n.

(** [WaitForData] returns true exactly when this holds under the mutex. *)
Definition ringbuf_hasData (r : ringbuf) : bool := negb (rb_head r <=? rb_tail r).

(** *** Ring *)

Record Ring := mkRing { rg_buf : ringbuf; rg_maxAge : Z }.

Definition NewRingWithMaxAge (capacity maxAge : Z) : Ring :=
  mkRing (new_ringbuf capacity) maxAge.
Definition NewRing (capacity : Z) : Ring := NewRingWithMaxAge capacity 0.

(** [Push] of an event whose type assertion to GetTimestamp gives [ts]
    ([None]: the event has no such method), at time [now]. *)
Definition Ring_Push (r : Ring) (ts : option Z) (now : Z) (ev : E) : Ring * bool :=
  let stale := (0 <? rg_maxAge r) &&
               match ts with Some t => rg_maxAge r <? time_sub now t | None => false end in
  if stale then
    let b := rg_buf r in
    (mkRing (mkRingbuf (rb_buf b) (rb_cap b) (rb_mask b) (rb_head b) (rb_tail b)
               (rb_totalPushed b) (u64 (rb_totalDropped b + 1))) (rg_maxAge r), false)
  else (mkRing (ringbuf_push (rg_buf r) ev) (rg_maxAge r), true).

Definition Ring_Pop (r : Ring) : Ring * option (option E) :=
  let '(b, ev) := ringbuf_pop (rg_buf r) in (mkRing b (rg_maxAge r), ev).
Definition Ring_Len (r : Ring) : Z := ringbuf_len (rg_buf r).
Definition Ring_Cap (r : Ring) : Z := rb_cap (rg_buf r).
Definition Ring_TotalPushed (r : Ring) : Z := rb_totalPushed (rg_buf r).
Definition Ring_TotalDropped (r : Ring) : Z := rb_totalDropped (rg_buf r).
Definition Ring_WaitForData (r : Ring) : bool := ringbuf_hasData (rg_buf r).

(** *** CachedRing: the same without the age limit *)

Definition CachedRing : Type := ringbuf.
Definition NewCachedRing (capacity : Z) : CachedRing := new_ringbuf capacity.
Definition CachedRing_Push (r : CachedRing) (ev : E) : CachedRing * bool :=
  (ringbuf_push r ev, true).
Definition CachedRing_Pop (r : CachedRing) : CachedRing * option (option E) := ringbuf_pop r.
Definition CachedRing_Len (r : CachedRing) : Z := ringbuf_len r.
Definition CachedRing_Cap (r : CachedRing) : Z := rb_cap r.
Definition CachedRing_TotalPushed (r : CachedRing) : Z := rb_totalPushed r.
Definition CachedRing_TotalDropped (r : CachedRing) : Z := rb_totalDropped r.
Definition CachedRing_WaitForData (r : CachedRing) : bool := ringbuf_hasData r.

(** ** The specification: a bounded queue that evicts its oldest element *)

Definition queue_push (cap : nat) (q : list E) (ev : E) : list E :=
  if (cap <=? length q)%nat then tail q ++ [ev] else q ++ [ev].

(** The ring [r] holds [q], has been pushed [n] times and has evicted [d]
    elements. *)
Record ring_repr (r : ringbuf) (q : list E) (n d : Z) : Prop := {
  rr_cap : ∃ k, 0 ≤ k ≤ 32 ∧ rb_cap r = 2 ^ k;
  rr_mask : rb_mask r = rb_cap r - 1;
  rr_buflen : Z.of_nat (length (rb_buf r)) = rb_cap r;
  rr_len : Z.of_nat (length q) ≤ rb_cap r;
  rr_tail : 0 ≤ rb_tail r;
  rr_head : rb_head r = rb_tail r + Z.of_nat (length q);
  rr_slots : ∀ i ev, q !! i = Some ev →
    rb_buf r !! Z.to_nat ((rb_tail r + Z.of_nat i) mod rb_cap r) = Some (Some ev);
  rr_n : rb_head r = n;
  rr_pushed : rb_totalPushed r = n;
  rr_dropped : rb_totalDropped r = d;
  rr_d : 0 ≤ d;
}.

Lemma repr_cap_pos r q n d : ring_repr r q n d → 0 < rb_cap r ≤ 2 ^ 32.
Proof.
  intros H. destruct (rr_cap _ _ _ _ H) as (k & Hk & ->). split.
  - apply Z.pow_pos_nonneg; lia.
  - apply Z.pow_le_mono_r; lia.
Qed.

(** [x & mask] is [x mod cap]. *)
Lemma repr_land r q n d x :
  ring_repr r q n d → 0 ≤ x → Z.land x (rb_mask r) = x mod rb_cap r.
Proof.
  intros H Hx. rewrite (rr_mask _ _ _ _ H). destruct (rr_cap _ _ _ _ H) as (k & Hk & ->).
  rewrite <- Z.land_ones by lia. f_equal. rewrite Z.ones_equiv. lia.
Qed.

Lemma new_ringbuf_repr capacity :
  capacity ≤ 2 ^ 32 → ring_repr (new_ringbuf capacity) [] 0 0.
Proof.
  intros Hc. destruct (nextPow2_pow capacity Hc) as (k & Hk & Hp).
  assert (0 < nextPow2 capacity ≤ 2 ^ 32).
  { rewrite Hp. split; [apply Z.pow_pos_nonneg; lia|apply Z.pow_le_mono_r; lia]. }
  split; simpl; try lia; try done.
  - by exists k.
  - apply i64_small. go_lia.
  - rewrite length_replicate. lia.
Qed.

(** Two positions less than a lap apart have different slots. *)
Lemma slot_ne c a b : 0 < c → a < b < a + c → 0 ≤ a →
  Z.to_nat (a mod c) ≠ Z.to_nat (b mod c).
Proof.
  intros Hc Hab Ha E0.
  pose proof (Z.mod_pos_bound a c Hc). pose proof (Z.mod_pos_bound b c Hc).
  assert (Heq : a mod c = b mod c) by lia.
  pose proof (Z.div_mod a c ltac:(lia)). pose proof (Z.div_mod b c ltac:(lia)).
  assert (Hk : b - a = c * (b / c - a / c)) by (rewrite Z.mul_sub_distr_l; lia).
  revert Hk. generalize (b / c - a / c). clear - Hc Hab. intros k Hk.
  assert (0 < k) by nia. nia.
Qed.

Lemma ringbuf_push_repr r q n d ev :
  ring_repr r q n d → n + 1 < 2 ^ 63 → d + 1 < 2 ^ 64 →
  ring_repr (ringbuf_push r ev) (queue_push (Z.to_nat (rb_cap r)) q ev) (n + 1)
    (if (Z.to_nat (rb_cap r) <=? length q)%nat then d + 1 else d).
Proof.
  intros H Hn Hd1. pose proof (repr_cap_pos _ _ _ _ H) as Hc.
  pose proof (rr_len _ _ _ _ H). pose proof (rr_tail _ _ _ _ H). pose proof (rr_head _ _ _ _ H) as Hhd.
  pose proof (rr_d _ _ _ _ H). pose proof (rr_n _ _ _ _ H) as Hhn.
  pose proof (rr_pushed _ _ _ _ H) as Hpu. pose proof (rr_dropped _ _ _ _ H) as Hdr.
  pose proof (rr_buflen _ _ _ _ H) as Hbl.
  unfold ringbuf_push, queue_push.
  rewrite (repr_land r q n d (rb_head r) H) by lia.
  rewrite (i64_small (rb_head r - rb_tail r)), (i64_small (rb_head r + 1)),
    (i64_small (rb_tail r + 1)), (u64_small (rb_totalPushed r + 1)),
    (u64_small (rb_totalDropped r + 1)) by go_lia.
  assert (Hslot : (Z.to_nat (rb_head r mod rb_cap r) < length (rb_buf r))%nat).
  { pose proof (Z.mod_pos_bound (rb_head r) (rb_cap r) ltac:(lia)). lia. }
  destruct (Nat.leb_spec (Z.to_nat (rb_cap r)) (length q)) as [Hfull|Hroom].
  - rewrite (proj2 (Z.leb_le _ _)) by lia.
    destruct q as [|e0 q]; [simpl in *; lia|]. cbn [tail]. cbn [length] in *.
    split; cbn [rb_buf rb_cap rb_mask rb_head rb_tail rb_totalPushed rb_totalDropped];
      rewrite ?length_app, ?length_insert; cbn [length]; try lia; try apply H.
    intros i x Hi. destruct (decide (i = length q)) as [->|Hne].
    + rewrite list_lookup_middle in Hi by done. simplify_eq.
      replace (rb_tail r + 1 + Z.of_nat (length q)) with (rb_head r) by lia.
      by apply list_lookup_insert_eq.
    + rewrite lookup_app_l in Hi.
      2:{ apply lookup_lt_Some in Hi. rewrite length_app in Hi. simpl in Hi. lia. }
      pose proof (lookup_lt_Some _ _ _ Hi).
      rewrite list_lookup_insert_ne.
      2:{ apply not_eq_sym, slot_ne; lia. }
      replace (rb_tail r + 1 + Z.of_nat i) with (rb_tail r + Z.of_nat (S i)) by lia.
      by apply (rr_slots _ _ _ _ H).
  - rewrite (proj2 (Z.leb_gt _ _)) by lia.
    split; cbn [rb_buf rb_cap rb_mask rb_head rb_tail rb_totalPushed rb_totalDropped];
      rewrite ?length_app, ?length_insert; cbn [length]; try lia; try apply H.
    intros i x Hi. destruct (decide (i = length q)) as [->|Hne].
    + rewrite list_lookup_middle in Hi by done. simplify_eq. rewrite <- Hhd.
      by apply list_lookup_insert_eq.
    + rewrite lookup_app_l in Hi.
      2:{ apply lookup_lt_Some in Hi. rewrite length_app in Hi. simpl in Hi. lia. }
      pose proof (lookup_lt_Some _ _ _ Hi).
      rewrite list_lookup_insert_ne.
      2:{ apply not_eq_sym, slot_ne; lia. }
      by apply (rr_slots _ _ _ _ H).
Qed.

Lemma ringbuf_pop_repr r q n d :
  ring_repr r q n d → n < 2 ^ 63 →
  match q with
  | [] => ringbuf_pop r = (r, None)
  | ev :: q => ∃ r', ringbuf_pop r = (r', Some (Some ev)) ∧ ring_repr r' q n d
  end.
Proof.
  intros H Hn. pose proof (repr_cap_pos _ _ _ _ H) as Hc.
  pose proof (rr_len _ _ _ _ H). pose proof (rr_tail _ _ _ _ H). pose proof (rr_head _ _ _ _ H) as Hhd.
  pose proof (rr_n _ _ _ _ H). unfold ringbuf_pop. destruct q as [|ev q].
  { simpl in Hhd. by rewrite (proj2 (Z.leb_le _ _)) by lia. }
  cbn [length] in *. rewrite (proj2 (Z.leb_gt _ _)) by lia.
  rewrite (repr_land r _ n d (rb_tail r) H) by lia.
  pose proof (rr_slots _ _ _ _ H 0%nat ev eq_refl) as Hs0. rewrite Z.add_0_r in Hs0. rewrite Hs0.
  eexists. split; [reflexivity|]. rewrite i64_small by go_lia.
  split; cbn [rb_buf rb_cap rb_mask rb_head rb_tail rb_totalPushed rb_totalDropped];
    rewrite ?length_insert; try lia; try apply H.
  intros i x Hi. pose proof (lookup_lt_Some _ _ _ Hi).
  rewrite list_lookup_insert_ne by (apply slot_ne; lia).
  replace (rb_tail r + 1 + Z.of_nat i) with (rb_tail r + Z.of_nat (S i)) by lia.
  by apply (rr_slots _ _ _ _ H).
Qed.

Lemma ringbuf_len_repr r q n d :
  ring_repr r q n d → n < 2 ^ 63 → ringbuf_len r = Z.of_nat (length q).
Proof.
  intros H Hn. pose proof (rr_head _ _ _ _ H). pose proof (rr_len _ _ _ _ H).
  pose proof (repr_cap_pos _ _ _ _ H). unfold ringbuf_len.
  rewrite i64_small by go_lia. rewrite (proj2 (Z.ltb_ge _ _)) by lia. lia.
Qed.

(** ** Runs of operations *)

Inductive ring_op :=
| OpPush (ts : option Z) (now : Z) (ev : E)
| OpPop.

(** What a call returns: the result of Push, or the event of Pop. *)
Inductive ring_out :=
| OutPush (accepted : bool)
| OutPop (ev : option (option E)).

Definition ring_exec (r : Ring) (op : ring_op) : Ring * ring_out :=
  match op with
  | OpPush ts now ev => let '(r, b) := Ring_Push r ts now ev in (r, OutPush b)
  | OpPop => let '(r, ev) := Ring_Pop r in (r, OutPop ev)
  end.

(** The bounded queue with its counters, and the events it refuses for age. *)
Record queue := mkQueue { qu_items : list E; qu_pushed : Z; qu_evicted : Z; qu_stale : Z }.

Definition too_old (maxAge : Z) (ts : option Z) (now : Z) : bool :=
  (0 <? maxAge) && match ts with Some t => maxAge <? time_sub now t | None => false end.

Definition queue_exec (cap : nat) (maxAge : Z) (q : queue) (op : ring_op) : queue * ring_out :=
  match op with
  | OpPush ts now ev =>
      if too_old maxAge ts now then
        (mkQueue (qu_items q) (qu_pushed q) (qu_evicted q) (qu_stale q + 1), OutPush false)
      else
        (mkQueue (queue_push cap (qu_items q) ev) (qu_pushed q + 1)
           (if (cap <=? length (qu_items q))%nat then qu_evicted q + 1 else qu_evicted q)
           (qu_stale q), OutPush true)
  | OpPop => (mkQueue (tail (qu_items q)) (qu_pushed q) (qu_evicted q) (qu_stale q),
              OutPop (Some <$> head (qu_items q)))
  end.

Fixpoint exec_all {S} (exec : S → ring_op → S * ring_out) (s : S) (ops : list ring_op)
    : S * list ring_out :=
  match ops with
  | [] => (s, [])
  | op :: ops => let '(s, o) := exec s op in
                 let '(s, os) := exec_all exec s ops in (s, o :: os)
  end.

(** The simulation relation. *)
Definition ring_sim (cap : nat) (maxAge bound : Z) (r : Ring) (q : queue) : Prop :=
  rg_maxAge r = maxAge ∧ Z.to_nat (rb_cap (rg_buf r)) = cap ∧
  ring_repr (rg_buf r) (qu_items q) (qu_pushed q) (qu_evicted q + qu_stale q) ∧
  0 ≤ qu_evicted q ∧ 0 ≤ qu_stale q ∧ qu_pushed q ≤ bound ∧ qu_evicted q + qu_stale q ≤ bound.

Lemma ring_exec_sim cap maxAge b r q op :
  ring_sim cap maxAge b r q → b + 1 < 2 ^ 63 →
  let '(r', o) := ring_exec r op in
  let '(q', o') := queue_exec cap maxAge q op in
  o = o' ∧ ring_sim cap maxAge (b + 1) r' q'.
Proof.
  intros (Hage & Hcap & Hrepr & He & Hs & Hp & Hd) Hb.
  destruct op as [ts now ev|]; cbn [ring_exec queue_exec].
  - unfold Ring_Push, too_old. rewrite Hage. case_if.
    + split; [done|]. split_and!; try done; cbn [rg_buf rb_cap qu_items qu_pushed qu_evicted qu_stale];
        try lia.
      destruct Hrepr. split; cbn [rb_buf rb_cap rb_mask rb_head rb_tail rb_totalPushed rb_totalDropped];
        try done; [|lia].
      rewrite u64_small by go_lia. lia.
    + split; [done|]. pose proof (ringbuf_push_repr _ _ _ _ ev Hrepr ltac:(lia) ltac:(lia)) as Hr.
      rewrite Hcap in Hr.
      split_and!; try done; cbn [rg_buf qu_items qu_pushed qu_evicted qu_stale]; try lia;
        destruct (cap <=? length (qu_items q))%nat; try lia; try done.
      by replace (qu_evicted q + 1 + qu_stale q) with (qu_evicted q + qu_stale q + 1) by lia.
  - unfold Ring_Pop. pose proof (ringbuf_pop_repr _ _ _ _ Hrepr ltac:(lia)) as Hr.
    destruct (qu_items q) as [|ev items] eqn:Hq.
    + rewrite Hr. split; [done|].
      split_and!; try done; cbn [rg_buf qu_items qu_pushed qu_evicted qu_stale tail]; lia || done.
    + destruct Hr as (r' & Hpop & Hr'). rewrite Hpop. split; [done|].
      assert (Hc' : rb_cap r' = rb_cap (rg_buf r)).
      { unfold ringbuf_pop in Hpop. case_if; [done|]. by injection Hpop as <- _. }
      split_and!; try done; cbn [rg_buf qu_items qu_pushed qu_evicted qu_stale tail];
        rewrite ?Hc'; lia || done.
Qed.

Lemma exec_all_sim cap maxAge b r q ops :
  ring_sim cap maxAge b r q → b + Z.of_nat (length ops) < 2 ^ 63 →
  let '(r', os) := exec_all ring_exec r ops in
  let '(q', os') := exec_all (queue_exec cap maxAge) q ops in
  os = os' ∧ ring_sim cap maxAge (b + Z.of_nat (length ops)) r' q'.
Proof.
  revert b r q. induction ops as [|op ops IH]; intros b r q Hs Hb; cbn [exec_all length] in *.
  { rewrite Z.add_0_r. done. }
  pose proof (ring_exec_sim cap maxAge b r q op Hs ltac:(lia)) as H1.
  destruct (ring_exec r op) as [r1 o1], (queue_exec cap maxAge q op) as [q1 o1'].
  destruct H1 as [-> H1]. specialize (IH (b + 1) r1 q1 H1 ltac:(lia)).
  destruct (exec_all ring_exec r1 ops) as [r2 os], (exec_all _ q1 ops) as [q2 os'].
  destruct IH as [-> IH]. split; [done|].
  by replace (b + Z.of_nat (S (length ops))) with (b + 1 + Z.of_nat (length ops)) by lia.
Qed.

Lemma new_ring_sim capacity maxAge :
  capacity ≤ 2 ^ 32 →
  ring_sim (Z.to_nat (nextPow2 capacity)) maxAge 0 (NewRingWithMaxAge capacity maxAge)
    (mkQueue [] 0 0 0).
Proof. intros Hc. split_and!; try done. by apply new_ringbuf_repr. Qed.

(** C4: the ring buffer is a bounded queue. For any capacity up to 2^32, any age
    limit and any sequence of pushes and pops, every call returns what the
    bounded drop-oldest queue of capacity [nextPow2 capacity] returns, and
    length and counters agree: index masking, wrapping positions and slot
    clearing are invisible. *)
Theorem ring_refines_bounded_queue capacity maxAge ops :
  capacity ≤ 2 ^ 32 → Z.of_nat (length ops) < 2 ^ 63 →
  let '(r, outs) := exec_all ring_exec (NewRingWithMaxAge capacity maxAge) ops in
  let '(q, outs') := exec_all (queue_exec (Z.to_nat (nextPow2 capacity)) maxAge)
                       (mkQueue [] 0 0 0) ops in
  outs = outs' ∧ Ring_Len r = Z.of_nat (length (qu_items q)) ∧
  Ring_TotalPushed r = qu_pushed q ∧ Ring_TotalDropped r = qu_evicted q + qu_stale q ∧
  Ring_Len r ≤ nextPow2 capacity.
Proof.
  intros Hc Hn. pose proof (exec_all_sim _ maxAge 0 _ _ ops (new_ring_sim capacity maxAge Hc) Hn) as H.
  destruct (exec_all ring_exec _ ops) as [r outs], (exec_all _ (mkQueue [] 0 0 0) ops) as [q outs'].
  destruct H as (-> & _ & Hcap & Hr & _ & _ & Hp & _).
  destruct (nextPow2_pow capacity Hc) as (k & ? & Hk).
  assert (0 < nextPow2 capacity) by (rewrite Hk; apply Z.pow_pos_nonneg; lia).
  unfold Ring_Len. rewrite (ringbuf_len_repr _ _ _ _ Hr) by lia.
  pose proof (rr_len _ _ _ _ Hr). pose proof (repr_cap_pos _ _ _ _ Hr).
  split_and!; [done|done|apply Hr|apply Hr|lia].
Qed.

(** *** Order, conservation, freshness *)

(** The events accepted and the events returned, in order. *)
Fixpoint accepted (ops : list ring_op) (outs : list ring_out) : list E :=
  match ops, outs with
  | OpPush _ _ ev :: ops, OutPush true :: outs => ev :: accepted ops outs
  | _ :: ops, _ :: outs => accepted ops outs
  | _, _ => []
  end.
Fixpoint popped (outs : list ring_out) : list E :=
  match outs with
  | OutPop (Some (Some ev)) :: outs => ev :: popped outs
  | _ :: outs => popped outs
  | [] => []
  end.

(** Everything accepted is, in order, gone ([pre], of which [got] was returned)
    or still queued. *)
Definition queue_hist (q : queue) (hist got : list E) : Prop :=
  ∃ pre, hist = pre ++ qu_items q ∧ got `sublist_of` pre ∧
         Z.of_nat (length pre) = Z.of_nat (length got) + qu_evicted q.

Lemma queue_exec_hist cap maxAge q op hist got :
  (0 < cap)%nat → queue_hist q hist got →
  let '(q', o) := queue_exec cap maxAge q op in
  queue_hist q' (hist ++ accepted [op] [o]) (got ++ popped [o]).
Proof.
  intros Hcap (pre & -> & Hsub & Hlen). destruct op as [ts now ev|]; cbn [queue_exec].
  - case_if; cbn [accepted popped]; rewrite ?app_nil_r; [by exists pre|].
    unfold queue_hist. cbn [qu_items qu_evicted]. unfold queue_push.
    destruct (Nat.leb_spec cap (length (qu_items q))); [|exists pre; by rewrite app_assoc].
    destruct (qu_items q) as [|e0 items]; [simpl in *; lia|]. exists (pre ++ [e0]).
    split; [cbn [tail]; by rewrite <- !app_assoc|]. split; [by apply sublist_snoc|].
    rewrite length_app. simpl. lia.
  - cbn [accepted]. rewrite app_nil_r. unfold queue_hist. cbn [qu_items qu_evicted].
    destruct (qu_items q) as [|e0 items]; cbn [tail head fmap option_fmap option_map popped].
    + exists pre. by rewrite !app_nil_r.
    + exists (pre ++ [e0]). rewrite <- app_assoc. split; [done|].
      split; [by apply sublist_snoc_both|]. rewrite !length_app. simpl. lia.
Qed.

Lemma accepted_cons op ops o os : accepted (op :: ops) (o :: os) = accepted [op] [o] ++ accepted ops os.
Proof. by destruct op, o as [[]|]. Qed.
Lemma popped_cons o os : popped (o :: os) = popped [o] ++ popped os.
Proof. by destruct o as [|[[]|]]. Qed.

Lemma exec_all_hist cap maxAge q ops hist got :
  (0 < cap)%nat → queue_hist q hist got →
  let '(q', os) := exec_all (queue_exec cap maxAge) q ops in
  queue_hist q' (hist ++ accepted ops os) (got ++ popped os).
Proof.
  intros Hcap. revert q hist got. induction ops as [|op ops IH]; intros q hist got Hq.
  { simpl. by rewrite !app_nil_r. }
  cbn [exec_all]. pose proof (queue_exec_hist cap maxAge q op hist got Hcap Hq) as H1.
  destruct (queue_exec cap maxAge q op) as [q1 o1]. specialize (IH q1 _ _ H1).
  destruct (exec_all _ q1 ops) as [q2 os]. rewrite accepted_cons, popped_cons, !app_assoc. done.
Qed.

Lemma no_age_no_stale cap q ops :
  qu_stale (fst (exec_all (queue_exec cap 0) q ops)) = qu_stale q.
Proof.
  revert q. induction ops as [|op ops IH]; intros q; [done|]. cbn [exec_all].
  destruct (queue_exec cap 0 q op) as [q1 o1] eqn:E1. specialize (IH q1).
  destruct (exec_all _ q1 ops) as [q2 os]. cbn [fst] in *. rewrite IH.
  by destruct op; injection E1 as <- _.
Qed.

(** A ring without age limit delivers in order, accounts for every event
    and keeps the newest. After any sequence of pushes and pops the events
    returned are a subsequence of those accepted, in the same order; the events
    accepted are those returned, those still buffered and those counted as
    dropped; and draining the ring now would return the most recent of them. *)
Lemma ring_fifo_conservation capacity ops :
  capacity ≤ 2 ^ 32 → Z.of_nat (length ops) < 2 ^ 63 →
  let '(r, outs) := exec_all ring_exec (NewRing capacity) ops in
  let acc := accepted ops outs in
  popped outs `sublist_of` acc ∧
  Z.of_nat (length acc) =
    Z.of_nat (length (popped outs)) + Ring_Len r + Ring_TotalDropped r ∧
  ring_repr (rg_buf r) (drop (length acc - Z.to_nat (Ring_Len r)) acc)
    (Ring_TotalPushed r) (Ring_TotalDropped r).
Proof.
  intros Hc Hn. pose proof (exec_all_sim _ 0 0 _ _ ops (new_ring_sim capacity 0 Hc) Hn) as H.
  destruct (nextPow2_pow capacity Hc) as (k & ? & Hk).
  assert (0 < nextPow2 capacity) by (rewrite Hk; apply Z.pow_pos_nonneg; lia).
  pose proof (exec_all_hist (Z.to_nat (nextPow2 capacity)) 0 (mkQueue [] 0 0 0) ops [] [] ltac:(lia)) as Hh.
  pose proof (no_age_no_stale (Z.to_nat (nextPow2 capacity)) (mkQueue [] 0 0 0) ops) as Hst.
  fold (NewRing capacity) in H. unfold NewRing.
  destruct (exec_all ring_exec _ ops) as [r outs], (exec_all _ (mkQueue [] 0 0 0) ops) as [q outs'].
  destruct H as (-> & _ & Hcap & Hr & _ & _ & Hp & _). cbn [fst qu_stale] in Hst.
  destruct Hh as (pre & Hacc & Hsub & Hlen); [by exists []|]. cbn [app] in *. cbv zeta.
  rewrite Hst, Z.add_0_r in Hr. rewrite Hacc.
  assert (Hl : Ring_Len r = Z.of_nat (length (qu_items q)))
    by (apply (ringbuf_len_repr _ _ _ _ Hr); lia).
  assert (Hd : Ring_TotalDropped r = qu_evicted q) by apply (rr_dropped _ _ _ _ Hr).
  assert (Hpu : Ring_TotalPushed r = qu_pushed q) by apply (rr_pushed _ _ _ _ Hr).
  split_and!.
  - by apply sublist_inserts_r.
  - rewrite length_app, Hl, Hd. lia.
  - rewrite Hl, Hd, Hpu, Nat2Z.id, length_app, Nat.add_sub, drop_app_length. done.
Qed.
End ring.
Arguments ringbuf : clear implicits.
Arguments Ring : clear implicits.
Arguments CachedRing : clear implicits.

(** Five pushes and two pops on a ring of four slots. *)
Definition ring_demo : list (@ring_op Z) :=
  [OpPush None 0 1; OpPush None 0 2; OpPop; OpPush None 0 3; OpPush None 0 4;
   OpPush None 0 5; OpPush None 0 6; OpPop].

Lemma ring_refines_bounded_queue_witness :
  let '(r, outs) := exec_all ring_exec (NewRingWithMaxAge 3 0) ring_demo in
  let '(q, outs') := exec_all (queue_exec (Z.to_nat (nextPow2 3)) 0) (mkQueue [] 0 0 0) ring_demo in
  outs = outs' ∧ Ring_Len r = Z.of_nat (length (qu_items q)) ∧
  Ring_TotalPushed r = qu_pushed q ∧ Ring_TotalDropped r = qu_evicted q + qu_stale q ∧
  Ring_Len r ≤ nextPow2 3.
Proof. apply (ring_refines_bounded_queue 3 0 ring_demo); [lia|cbn; lia]. Defined.

Lemma ring_fifo_conservation_witness :
  let '(r, outs) := exec_all ring_exec (NewRing 3) ring_demo in
  let acc := accepted ring_demo outs in
  popped outs `sublist_of` acc ∧
  Z.of_nat (length acc) =
    Z.of_nat (length (popped outs)) + Ring_Len r + Ring_TotalDropped r ∧
  ring_repr (rg_buf r) (drop (length acc - Z.to_nat (Ring_Len r)) acc)
    (Ring_TotalPushed r) (Ring_TotalDropped r).
Proof. apply (ring_fifo_conservation 3 ring_demo); [lia|cbn; lia]. Defined.
