(* ===== verification/Channel.v ===== *)
(** * Channel: backpressure between a publisher and a consumer

    [internal/backpressure/policy.go] and [channel.go]: the policies, the drop
    window, [Channel] and [CachedChannel]. The two channels run the same code over
    the two rings; they are one model over the interface [RingLike]. The calls of
    a single goroutine are functions; producers, the forwarding goroutine, the
    consumer and [Close] running concurrently are the step relation
    [chan_step]. The mirrored code differs in one place: under DropNewest
    [Channel] buffers in [ch] and [CachedChannel] in [forwardC]; both are the
    channel that C() returns, here [ch_out]. Metrics and logging are left out. *)

From stdpp Require Import pretty.
From S2P Require Import Prelude Float64 Ring.

(** ** Policies *)

Inductive Policy :=
| PolicyDropOldest
| PolicyDropNewest
| PolicyDisconnect
| PolicyOther (n : Z).
#[global] Instance Policy_eq : EqDecision Policy.
Proof. solve_decision. Defined.

Definition Policy_String (p : Policy) : string :=
  match p with
  | PolicyDropOldest => "drop_oldest"
  | PolicyDropNewest => "drop_newest"
  | PolicyDisconnect => "disconnect"
  | PolicyOther n => "Policy(" +:+ pretty n +:+ ")"
  end.

(** "unknown backpressure policy" *)
Inductive PolicyError := ErrUnknownPolicy (s : string).

Definition ParsePolicy (s : string) : result Policy PolicyError :=
  if bool_decide (s ∈ ["drop_oldest"; "drop-oldest"; "oldest"]) then Ok PolicyDropOldest
  else if bool_decide (s ∈ ["drop_newest"; "drop-newest"; "newest"]) then Ok PolicyDropNewest
  else if bool_decide (s = "disconnect") then Ok PolicyDisconnect
  else Err (ErrUnknownPolicy s).

Record BpConfig := mkBpConfig {
  bp_Policy : Policy;
  bp_BufferSize : Z;
  bp_MaxConsecutiveDrops : Z;
  bp_DropWindow : Z;
  bp_DropThreshold : float64;
  bp_MaxAge : Z;
}.

Inductive BpError := ErrBufferSize | ErrMaxConsecutiveDrops | ErrDropThreshold.

Definition BpConfig_Validate (c : BpConfig) : option BpError :=
  if bp_BufferSize c <=? 0 then Some ErrBufferSize
  else if bool_decide (bp_Policy c = PolicyDisconnect) && (bp_MaxConsecutiveDrops c <=? 0)
  then Some ErrMaxConsecutiveDrops
  else if f64_ltb (bp_DropThreshold c) f64_zero || f64_ltb f64_one (bp_DropThreshold c)
  then Some ErrDropThreshold
  else None.

(** 0.9 is 8106479329266893 * 2^-53. *)
Definition BpDefaultConfig : BpConfig :=
  mkBpConfig PolicyDropOldest 256 100 (10 * Second) (f64_lit 8106479329266893 (-53)) 0.

(** ** The drop window: one bucket per second *)

Record dropBucketWindow := mkWindow {
  dw_buckets : list Z;
  dw_slot : Z;
  dw_prevSec : Z;
  dw_numBuckets : Z;
}.

Definition newDropBucketWindow : dropBucketWindow := mkWindow (replicate 10 0) 0 0 10.

(** [now.Unix()]: whole seconds, rounded down. *)
Definition unix_sec (now : Z) : Z := now / Second.

(** The loop that clears the buckets of the seconds skipped: [i] from 1 to
    [adv]. *)
Definition clear_buckets (buckets : list Z) (slot numBuckets adv : Z) : list Z :=
  fold_left (λ b i, <[Z.to_nat ((slot + i) mod numBuckets) := 0]> b) (seqZ 1 adv) buckets.

Definition dropBucketWindow_record (w : dropBucketWindow) (now : Z) : dropBucketWindow * Z :=
  let sec := unix_sec now in
  let w :=
    if dw_prevSec w <? sec then
      let adv := sec - dw_prevSec w in
      let buckets :=
        if dw_numBuckets w <=? adv then (λ _, 0) <$> dw_buckets w
        else clear_buckets (dw_buckets w) (dw_slot w) (dw_numBuckets w) adv in
      mkWindow buckets (Z.rem sec (dw_numBuckets w)) sec (dw_numBuckets w)
    else w in
  let buckets := alter (λ v, i64 (v + 1)) (Z.to_nat (dw_slot w)) (dw_buckets w) in
  (mkWindow buckets (dw_slot w) (dw_prevSec w) (dw_numBuckets w),
   fold_left (λ t v, i64 (t + v)) buckets 0).

Definition dropBucketWindow_reset (w : dropBucketWindow) : dropBucketWindow :=
  mkWindow ((λ _, 0) <$> dw_buckets w) 0 0 (dw_numBuckets w).

(** ** The two rings behind one interface *)

(** [event.(interface{ GetTimestamp() time.Time })]: [None] when the event has no
    such method. *)
Class TimestampedEvent (E : Type) := GetTimestamp : E → option Z.

Class RingLike (R E : Type) := {
  rl_new : Z → Z → R;
  rl_Push : R → Z → E → R * bool;
  rl_Pop : R → R * option (option E);
  rl_Len : R → Z;
  rl_Cap : R → Z;
  rl_TotalDropped : R → Z;
  rl_WaitForData : R → bool;
}.

(** What the channels rely on: the ring holds a queue [q]; [n] events were pushed
    and [d] of them evicted; [s] were refused for their age. *)
Class RingLaws (R E : Type) `{!RingLike R E} := {
  rl_repr : R → list E → Z → Z → Z → Prop;
  rl_new_repr : ∀ c a, c ≤ 2 ^ 32 → rl_repr (rl_new c a) [] 0 0 0;
  rl_new_cap : ∀ c a, rl_Cap (rl_new c a) = nextPow2 c;
  rl_push_repr : ∀ r q n d s now ev, rl_repr r q n d s → n + 1 < 2 ^ 63 → d + s + 1 < 2 ^ 63 →
    match rl_Push r now ev with
    | (r', true) => rl_repr r' (queue_push (Z.to_nat (rl_Cap r)) q ev) (n + 1)
                      (if (Z.to_nat (rl_Cap r) <=? length q)%nat then d + 1 else d) s ∧
                    rl_Cap r' = rl_Cap r
    | (r', false) => rl_repr r' q n d (s + 1) ∧ rl_Cap r' = rl_Cap r
    end;
  rl_pop_repr : ∀ r q n d s, rl_repr r q n d s → n < 2 ^ 63 →
    match q with
    | [] => rl_Pop r = (r, None)
    | ev :: q => ∃ r', rl_Pop r = (r', Some (Some ev)) ∧ rl_repr r' q n d s ∧ rl_Cap r' = rl_Cap r
    end;
  rl_wait_repr : ∀ r q n d s, rl_repr r q n d s → n < 2 ^ 63 →
    rl_WaitForData r = bool_decide (q ≠ []);
  rl_len_repr : ∀ r q n d s, rl_repr r q n d s → n < 2 ^ 63 → rl_Len r = Z.of_nat (length q);
  rl_dropped_repr : ∀ r q n d s, rl_repr r q n d s → rl_TotalDropped r = d + s;
  rl_cap_repr : ∀ r q n d s, rl_repr r q n d s → Z.of_nat (length q) ≤ rl_Cap r ∧ 0 < rl_Cap r;
}.

Instance Ring_RingLike {E} `{!TimestampedEvent E} : RingLike (Ring E) E := {
  rl_new := NewRingWithMaxAge;
  rl_Push r now ev := Ring_Push r (GetTimestamp ev) now ev;
  rl_Pop := Ring_Pop;
  rl_Len := Ring_Len;
  rl_Cap := Ring_Cap;
  rl_TotalDropped := Ring_TotalDropped;
  rl_WaitForData := Ring_WaitForData;
}.

Instance CachedRing_RingLike {E} : RingLike (CachedRing E) E := {
  rl_new c _ := NewCachedRing c;
  rl_Push r _ ev := CachedRing_Push r ev;
  rl_Pop := CachedRing_Pop;
  rl_Len := CachedRing_Len;
  rl_Cap := CachedRing_Cap;
  rl_TotalDropped := CachedRing_TotalDropped;
  rl_WaitForData := CachedRing_WaitForData;
}.

Lemma ringbuf_push_cap {E} (r : ringbuf E) ev : rb_cap (ringbuf_push r ev) = rb_cap r.
Proof. done. Qed.
Lemma ringbuf_pop_cap {E} (r r' : ringbuf E) o : ringbuf_pop r = (r', o) → rb_cap r' = rb_cap r.
Proof. unfold ringbuf_pop. case_if; intros [= <- _]; done. Qed.
Lemma ringbuf_hasData_repr {E} (r : ringbuf E) q n d :
  ring_repr r q n d → ringbuf_hasData r = bool_decide (q ≠ []).
Proof.
  intros H. unfold ringbuf_hasData. pose proof (rr_head _ _ _ _ H) as Hh. destruct q as [|e q]; simpl in Hh.
  - rewrite (proj2 (Z.leb_le _ _)) by lia. by rewrite bool_decide_false by auto.
  - rewrite (proj2 (Z.leb_gt _ _)) by lia. by rewrite bool_decide_true.
Qed.

#[refine] Instance Ring_laws {E} `{!TimestampedEvent E} : RingLaws (Ring E) E := {
  rl_repr r q n d s := ring_repr (rg_buf r) q n (d + s) ∧ 0 ≤ d ∧ 0 ≤ s;
}.
Proof.
  - intros c a Hc. split; [|lia]. by apply new_ringbuf_repr.
  - done.
  - intros r q n d s now ev (H & Hd & Hs) Hn Hds. simpl. unfold Ring_Push. case_if.
    + split; [|done]. split; [|lia]. destruct H.
      split; cbn [rg_buf rb_buf rb_cap rb_mask rb_head rb_tail rb_totalPushed rb_totalDropped];
        try done; [|lia]. rewrite u64_small by go_lia. lia.
    + pose proof (ringbuf_push_repr _ _ _ _ ev H ltac:(lia) ltac:(lia)) as Hr.
      unfold Ring_Cap. cbn [rg_buf]. split; [|done].
      destruct (_ <=? _)%nat; (split; [|lia]); [|done].
      by replace (d + 1 + s) with (d + s + 1) by lia.
  - intros r q n d s (H & Hd & Hs) Hn. simpl. unfold Ring_Pop.
    pose proof (ringbuf_pop_repr _ _ _ _ H Hn) as Hp. destruct q as [|ev q].
    + rewrite Hp. by destruct r.
    + destruct Hp as (r' & Hp & Hr'). rewrite Hp. eexists. split; [reflexivity|].
      split; [done|]. unfold Ring_Cap. cbn [rg_buf]. by eapply ringbuf_pop_cap.
  - intros r q n d s (H & _) Hn. by eapply ringbuf_hasData_repr.
  - intros r q n d s (H & _) Hn. by eapply ringbuf_len_repr.
  - intros r q n d s (H & _). apply (rr_dropped _ _ _ _ H).
  - intros r q n d s (H & _). split; [apply H|]. apply (repr_cap_pos _ _ _ _ H).
Defined.

#[refine] Instance CachedRing_laws {E} : RingLaws (CachedRing E) E := {
  rl_repr r q n d s := ring_repr r q n (d + s) ∧ 0 ≤ d ∧ 0 ≤ s;
}.
Proof.
  - intros c a Hc. split; [|lia]. by apply new_ringbuf_repr.
  - done.
  - intros r q n d s now ev (H & Hd & Hs) Hn Hds. simpl.
    pose proof (ringbuf_push_repr _ _ _ _ ev H ltac:(lia) ltac:(lia)) as Hr.
    unfold CachedRing_Cap. split; [|done].
    destruct (_ <=? _)%nat; (split; [|lia]); [|done].
    by replace (d + 1 + s) with (d + s + 1) by lia.
  - intros r q n d s (H & Hd & Hs) Hn. simpl. unfold CachedRing_Pop.
    pose proof (ringbuf_pop_repr _ _ _ _ H Hn) as Hp. destruct q as [|ev q]; [done|].
    destruct Hp as (r' & Hp & Hr'). exists r'. split_and!; [done|done|lia|lia|].
    by eapply ringbuf_pop_cap.
  - intros r q n d s (H & _) Hn. by eapply ringbuf_hasData_repr.
  - intros r q n d s (H & _) Hn. by eapply ringbuf_len_repr.
  - intros r q n d s (H & _). apply (rr_dropped _ _ _ _ H).
  - intros r q n d s (H & _). split; [apply H|]. apply (repr_cap_pos _ _ _ _ H).
Defined.

(** ** The channel *)

Section channel.
Context {R E : Type} `{!RingLike R E}.

(** [ch_disconnect]: the reason the disconnect callback was invoked with, once
    disconnectOnce has fired. [ch_outClosed]: the consumer channel is closed. *)
Record Channel := mkChannel {
  ch_cfg : BpConfig;
  ch_ring : option R;
  ch_out : list E;
  ch_outCap : Z;
  ch_outClosed : bool;
  ch_consecutiveDrops : Z;
  ch_dropBuckets : dropBucketWindow;
  ch_disconnect : option string;
  ch_closed : bool;
  ch_totalDropped : Z;
}.

(** [NewChannel]; an invalid configuration panics. With an unknown policy
    neither a ring nor a channel is made and C() is nil. *)
Definition NewChannel (cfg : BpConfig) : outcome Channel :=
  match BpConfig_Validate cfg with
  | Some _ => Panic
  | None =>
      let mk ring cap :=
        mkChannel cfg ring [] cap false 0 newDropBucketWindow None false 0 in
      match bp_Policy cfg with
      | PolicyDropOldest | PolicyDisconnect =>
          Ret (mk (Some (rl_new (bp_BufferSize cfg) (bp_MaxAge cfg)))
                  (Z.min (bp_BufferSize cfg) 64))
      | PolicyDropNewest => Ret (mk None (bp_BufferSize cfg))
      | PolicyOther _ => Ret (mk None 0)
      end
  end.

Definition set_drops (c : Channel) (consecutive : Z) (w : dropBucketWindow)
    (disconnect : option string) : Channel :=
  mkChannel (ch_cfg c) (ch_ring c) (ch_out c) (ch_outCap c) (ch_outClosed c) consecutive w
    disconnect (ch_closed c) (ch_totalDropped c).
Definition set_ring (c : Channel) (r : R) (totalDropped : Z) : Channel :=
  mkChannel (ch_cfg c) (Some r) (ch_out c) (ch_outCap c) (ch_outClosed c)
    (ch_consecutiveDrops c) (ch_dropBuckets c) (ch_disconnect c) (ch_closed c) totalDropped.
Definition set_out (c : Channel) (out : list E) (totalDropped : Z) : Channel :=
  mkChannel (ch_cfg c) (ch_ring c) out (ch_outCap c) (ch_outClosed c)
    (ch_consecutiveDrops c) (ch_dropBuckets c) (ch_disconnect c) (ch_closed c) totalDropped.
Definition set_closed (c : Channel) (closed outClosed : bool) : Channel :=
  mkChannel (ch_cfg c) (ch_ring c) (ch_out c) (ch_outCap c) outClosed
    (ch_consecutiveDrops c) (ch_dropBuckets c) (ch_disconnect c) closed (ch_totalDropped c).

Definition Channel_resetConsecutiveOnSuccess (c : Channel) : Channel :=
  if 0 <? ch_consecutiveDrops c then set_drops c 0 (ch_dropBuckets c) (ch_disconnect c) else c.

(** [triggerDisconnect]: disconnectOnce runs its function the first time only. *)
Definition Channel_triggerDisconnect (c : Channel) (reason : string) : Channel :=
  match ch_disconnect c with
  | Some _ => c
  | None => set_drops c (ch_consecutiveDrops c) (ch_dropBuckets c) (Some reason)
  end.

Definition Channel_recordDrop (c : Channel) (now : Z) : Channel :=
  let '(w, windowDrops) := dropBucketWindow_record (ch_dropBuckets c) now in
  let c := set_drops c (i64 (ch_consecutiveDrops c + 1)) w (ch_disconnect c) in
  let cfg := ch_cfg c in
  if (0 <? bp_MaxConsecutiveDrops cfg) && (bp_MaxConsecutiveDrops cfg <=? ch_consecutiveDrops c)
  then Channel_triggerDisconnect c "consecutive drops exceeded"
  else if (0 <? bp_DropWindow cfg) && f64_ltb f64_zero (bp_DropThreshold cfg) && (0 <? windowDrops)
  then
    let dropRate := f64_div (f64_of_Z windowDrops) (f64_of_Z (bp_BufferSize cfg)) in
    if f64_leb (bp_DropThreshold cfg) dropRate
    then Channel_triggerDisconnect c "sustained drop rate exceeded" else c
  else c.

(** [sendDropOldest] and [sendDisconnect] by a single producer: the change of
    the ring's drop counter around its own push tells whether it dropped. *)
Definition Channel_sendDropOldest (c : Channel) (r : R) (ev : E) (now : Z) : Channel * bool :=
  let prevDropped := rl_TotalDropped r in
  let '(r, written) := rl_Push r now ev in
  let newDropped := rl_TotalDropped r in
  if prevDropped <? newDropped
  then (set_ring c r (u64 (ch_totalDropped c + (newDropped - prevDropped))), written)
  else (Channel_resetConsecutiveOnSuccess (set_ring c r (ch_totalDropped c)), written).

Definition Channel_sendDisconnect (c : Channel) (r : R) (ev : E) (now : Z) : Channel * bool :=
  let prevDropped := rl_TotalDropped r in
  let '(r, written) := rl_Push r now ev in
  let newDropped := rl_TotalDropped r in
  if prevDropped <? newDropped
  then (Channel_recordDrop (set_ring c r (u64 (ch_totalDropped c + (newDropped - prevDropped))))
          now, written)
  else (Channel_resetConsecutiveOnSuccess (set_ring c r (ch_totalDropped c)), written).

(** [sendDropNewest] while the channel is open: the stop channel is not
    readable. *)
Definition Channel_sendDropNewest (c : Channel) (ev : E) (now : Z) : Channel * bool :=
  if Z.of_nat (length (ch_out c)) <? ch_outCap c
  then (Channel_resetConsecutiveOnSuccess (set_out c (ch_out c ++ [ev]) (ch_totalDropped c)), true)
  else (Channel_recordDrop (set_out c (ch_out c) (u64 (ch_totalDropped c + 1))) now, false).

(** The policy switch of [Send]. *)
Definition Channel_dispatch (c : Channel) (ev : E) (now : Z) : Channel * bool :=
  match bp_Policy (ch_cfg c), ch_ring c with
  | PolicyDropOldest, Some r => Channel_sendDropOldest c r ev now
  | PolicyDisconnect, Some r => Channel_sendDisconnect c r ev now
  | PolicyDropNewest, _ => Channel_sendDropNewest c ev now
  | _, _ => (c, false)
  end.

Definition Channel_Send (c : Channel) (ev : E) (now : Z) : Channel * bool :=
  if ch_closed c then (c, false) else Channel_dispatch c ev now.

Definition Channel_C (c : Channel) : list E := ch_out c.
Definition Channel_Len (c : Channel) : Z :=
  match ch_ring c with Some r => rl_Len r | None => Z.of_nat (length (ch_out c)) end.
Definition Channel_Cap (c : Channel) : Z := bp_BufferSize (ch_cfg c).
Definition Channel_ConsecutiveDrops (c : Channel) : Z := ch_consecutiveDrops c.
Definition Channel_TotalDropped (c : Channel) : Z := ch_totalDropped c.
Definition Channel_ResetDrops (c : Channel) : Channel :=
  set_drops c 0 (dropBucketWindow_reset (ch_dropBuckets c)) (ch_disconnect c).

(** The drain loop of [Close]: [fuel] bounds the number of pops. *)
Fixpoint close_drain (fuel : nat) (c : Channel) : Channel :=
  match fuel, ch_ring c with
  | S fuel, Some r =>
      match rl_Pop r with
      | (_, None) => c
      | (r, Some ev) =>
          let c := set_ring c r (ch_totalDropped c) in
          match ev with
          | Some ev =>
              if Z.of_nat (length (ch_out c)) <? ch_outCap c
              then close_drain fuel (set_out c (ch_out c ++ [ev]) (ch_totalDropped c))
              else close_drain fuel (set_out c (ch_out c) (u64 (ch_totalDropped c + 1)))
          | None => close_drain fuel c
          end
      end
  | _, _ => c
  end.

(** [Close] once the forwarding goroutine has exited (it parks with nothing in
    hand); a second call does nothing. *)
Definition Channel_Close (c : Channel) : Channel :=
  if ch_closed c then c
  else
    let c := set_closed c true (ch_outClosed c) in
    let fuel := match ch_ring c with Some r => S (Z.to_nat (rl_Len r)) | None => 0%nat end in
    let c := close_drain fuel c in
    set_closed c true true.

(** ** Concurrent executions *)

(** The forwarding goroutine: parked in WaitForData, blocked sending an event it
    has popped, or returned. *)
Inductive loop_state :=
| LoopIdle
| LoopHolding (ev : E)
| LoopExited.

Inductive close_state := NotClosing | WaitingForLoop | Draining | CloseDone.

(** [cs_pending]: producers inside Send that have passed the closed check, with
    their event. The last five fields record what happened: events the ring or
    the channel accepted, received by the consumer, refused (Send returned
    false), discarded by the exiting forwarder or by the drain; [cs_panicked]
    is a send on a closed channel. *)
Record chan_state := mkCS {
  cs_chan : Channel;
  cs_pending : list E;
  cs_loop : loop_state;
  cs_close : close_state;
  cs_accepted : list E;
  cs_received : list E;
  cs_refused : Z;
  cs_discarded : Z;
  cs_panicked : bool;
}.

Definition ring_policy (c : Channel) : bool :=
  match bp_Policy (ch_cfg c) with
  | PolicyDropOldest | PolicyDisconnect => true
  | _ => false
  end.

Definition has_room (c : Channel) : bool := Z.of_nat (length (ch_out c)) <? ch_outCap c.

(** Producers. *)
Inductive send_step : chan_state → chan_state → Prop :=
(* Send: if c.closed.Load() *)
| step_check c ps l k acc rcv rf ds p ev :
    ch_closed c = false →
    send_step (mkCS c ps l k acc rcv rf ds p) (mkCS c (ps ++ [ev]) l k acc rcv rf ds p)
(* Send: the policy branch over the ring *)
| step_push c c' ps1 ps2 l k acc rcv rf ds p ev now (b : bool) :
    ring_policy c = true → Channel_dispatch c ev now = (c', b) →
    send_step (mkCS c (ps1 ++ ev :: ps2) l k acc rcv rf ds p)
      (mkCS c' (ps1 ++ ps2) l k (if b then acc ++ [ev] else acc) rcv
         (if b then rf else rf + 1) ds p)
(* Send under DropNewest: the select, by which case it takes *)
| step_newest_send c ps1 ps2 l k acc rcv rf ds p ev now :
    bp_Policy (ch_cfg c) = PolicyDropNewest → ch_outClosed c = false → has_room c = true →
    send_step (mkCS c (ps1 ++ ev :: ps2) l k acc rcv rf ds p)
      (mkCS (fst (Channel_sendDropNewest c ev now)) (ps1 ++ ps2) l k (acc ++ [ev]) rcv rf ds p)
| step_newest_stop c ps1 ps2 l k acc rcv rf ds p ev :
    bp_Policy (ch_cfg c) = PolicyDropNewest → ch_closed c = true →
    send_step (mkCS c (ps1 ++ ev :: ps2) l k acc rcv rf ds p)
      (mkCS c (ps1 ++ ps2) l k acc rcv (rf + 1) ds p)
| step_newest_full c ps1 ps2 l k acc rcv rf ds p ev now :
    bp_Policy (ch_cfg c) = PolicyDropNewest → ch_closed c = false → has_room c = false →
    send_step (mkCS c (ps1 ++ ev :: ps2) l k acc rcv rf ds p)
      (mkCS (fst (Channel_sendDropNewest c ev now)) (ps1 ++ ps2) l k acc rcv (rf + 1) ds p)
| step_newest_panic c ps1 ps2 l k acc rcv rf ds p ev :
    bp_Policy (ch_cfg c) = PolicyDropNewest → ch_outClosed c = true →
    send_step (mkCS c (ps1 ++ ev :: ps2) l k acc rcv rf ds p)
      (mkCS c (ps1 ++ ps2) l k acc rcv rf ds true).

(** The forwarding goroutine. *)
Inductive loop_step : chan_state → chan_state → Prop :=
| step_loop_pop c r r' ps k acc rcv rf ds p ev :
    ch_ring c = Some r → rl_WaitForData r = true → rl_Pop r = (r', Some (Some ev)) →
    loop_step (mkCS c ps LoopIdle k acc rcv rf ds p)
      (mkCS (set_ring c r' (ch_totalDropped c)) ps (LoopHolding ev) k acc rcv rf ds p)
| step_loop_send c ps k acc rcv rf ds p ev :
    has_room c = true →
    loop_step (mkCS c ps (LoopHolding ev) k acc rcv rf ds p)
      (mkCS (set_out c (ch_out c ++ [ev]) (ch_totalDropped c)) ps LoopIdle k acc rcv rf ds p)
| step_loop_stop c ps k acc rcv rf ds p ev :
    ch_closed c = true →
    loop_step (mkCS c ps (LoopHolding ev) k acc rcv rf ds p)
      (mkCS c ps LoopExited k acc rcv rf (ds + 1) p)
| step_loop_exit c r ps k acc rcv rf ds p :
    ch_ring c = Some r → rl_WaitForData r = false → ch_closed c = true →
    loop_step (mkCS c ps LoopIdle k acc rcv rf ds p) (mkCS c ps LoopExited k acc rcv rf ds p).

(** The consumer and [Close]. *)
Inductive end_step : chan_state → chan_state → Prop :=
(* the consumer *)
| step_recv c ps l k acc rcv rf ds p ev out :
    ch_out c = ev :: out →
    end_step (mkCS c ps l k acc rcv rf ds p)
      (mkCS (set_out c out (ch_totalDropped c)) ps l k acc (rcv ++ [ev]) rf ds p)
(* Close *)
| step_close c ps l acc rcv rf ds p :
    ch_closed c = false →
    end_step (mkCS c ps l NotClosing acc rcv rf ds p)
      (mkCS (set_closed c true (ch_outClosed c)) ps l WaitingForLoop acc rcv rf ds p)
| step_drain_start c ps acc rcv rf ds p :
    end_step (mkCS c ps LoopExited WaitingForLoop acc rcv rf ds p)
      (mkCS c ps LoopExited Draining acc rcv rf ds p)
| step_drain_keep c r r' ps l acc rcv rf ds p ev :
    ch_ring c = Some r → rl_Pop r = (r', Some (Some ev)) → has_room c = true →
    end_step (mkCS c ps l Draining acc rcv rf ds p)
      (mkCS (set_out (set_ring c r' (ch_totalDropped c)) (ch_out c ++ [ev]) (ch_totalDropped c))
         ps l Draining acc rcv rf ds p)
| step_drain_drop c r r' ps l acc rcv rf ds p ev :
    ch_ring c = Some r → rl_Pop r = (r', Some (Some ev)) → has_room c = false →
    end_step (mkCS c ps l Draining acc rcv rf ds p)
      (mkCS (set_ring c r' (u64 (ch_totalDropped c + 1))) ps l Draining acc rcv rf (ds + 1) p)
| step_close_done c ps l acc rcv rf ds p :
    (∀ r, ch_ring c = Some r → rl_Pop r = (r, None)) →
    end_step (mkCS c ps l Draining acc rcv rf ds p)
      (mkCS (set_closed c true true) ps l CloseDone acc rcv rf ds p).

(** One step of any of the goroutines. *)
Definition chan_step (s s' : chan_state) : Prop :=
  send_step s s' ∨ loop_step s s' ∨ end_step s s'.

(** A channel with its goroutine just started. *)
Definition chan_init (c : Channel) : chan_state :=
  mkCS c [] (if ring_policy c then LoopIdle else LoopExited) NotClosing [] [] 0 0 false.

(** *** What the drop bookkeeping leaves alone *)

Definition core (c : Channel) :=
  (ch_cfg c, ch_ring c, ch_out c, ch_outCap c, ch_outClosed c, ch_closed c).

Lemma core_reset c : core (Channel_resetConsecutiveOnSuccess c) = core c.
Proof. unfold Channel_resetConsecutiveOnSuccess. by case_if. Qed.

Lemma core_trigger c reason : core (Channel_triggerDisconnect c reason) = core c.
Proof. unfold Channel_triggerDisconnect. by destruct (ch_disconnect c). Qed.

Lemma core_recordDrop c now : core (Channel_recordDrop c now) = core c.
Proof.
  unfold Channel_recordDrop. destruct (dropBucketWindow_record _ _) as [w wd].
  repeat case_if; by rewrite ?core_trigger.
Qed.

Lemma dispatch_ring c r ev now c' b :
  ring_policy c = true → ch_ring c = Some r → Channel_dispatch c ev now = (c', b) →
  ∃ r', rl_Push r now ev = (r', b) ∧
        core c' = (ch_cfg c, Some r', ch_out c, ch_outCap c, ch_outClosed c, ch_closed c).
Proof.
  unfold ring_policy, Channel_dispatch. intros Hp ->.
  destruct (bp_Policy (ch_cfg c)); try done;
    [unfold Channel_sendDropOldest|unfold Channel_sendDisconnect];
    destruct (rl_Push r now ev) as [r' w]; case_if; intros [= <- <-]; exists r';
    by rewrite ?core_recordDrop, ?core_reset.
Qed.

Lemma sendDropNewest_core c ev now :
  core (fst (Channel_sendDropNewest c ev now)) =
    (ch_cfg c, ch_ring c, if has_room c then ch_out c ++ [ev] else ch_out c,
     ch_outCap c, ch_outClosed c, ch_closed c).
Proof.
  unfold Channel_sendDropNewest, has_room. case_if; cbn [fst];
    by rewrite ?core_recordDrop, ?core_reset.
Qed.

(** *** The invariant *)

Context `{!RingLaws R E}.

Definition held (l : loop_state) : list E :=
  match l with LoopHolding ev => [ev] | _ => [] end.

(** After [n] steps, with [q] in the ring: everything accepted is, in order,
    received, in the consumer channel, in the forwarder's hand, in the ring, or
    was evicted or discarded. *)
Record chan_inv (n : Z) (s : chan_state) (q : list E) (d : Z) : Prop := {
  ci_ring : match ch_ring (cs_chan s) with
            | Some r => ring_policy (cs_chan s) = true ∧
                        ∃ np, rl_repr r q np d (cs_refused s) ∧ np ≤ n ∧ d + cs_refused s ≤ n
            | None => ring_policy (cs_chan s) = false ∧ q = [] ∧ d = 0 ∧ cs_loop s = LoopExited ∧
                      cs_discarded s = 0
            end;
  ci_flow : cs_received s ++ ch_out (cs_chan s) ++ held (cs_loop s) ++ q
              `sublist_of` cs_accepted s;
  ci_count : Z.of_nat (length (cs_accepted s)) =
             Z.of_nat (length (cs_received s) + length (ch_out (cs_chan s)) +
                       length (held (cs_loop s)) + length q) + d + cs_discarded s;
  ci_room : Z.of_nat (length (ch_out (cs_chan s))) ≤ ch_outCap (cs_chan s);
  ci_drain : cs_close s = Draining ∨ cs_close s = CloseDone → cs_loop s = LoopExited;
}.

Lemma queue_push_flow (pre q : list E) (cap : nat) ev (acc : list E) :
  pre ++ q `sublist_of` acc → pre ++ queue_push cap q ev `sublist_of` acc ++ [ev].
Proof.
  intros H. unfold queue_push. destruct (_ <=? _)%nat.
  - rewrite app_assoc. apply sublist_app; [|done]. trans (pre ++ q); [|done].
    apply sublist_app; [done|]. destruct q; [done|]. by apply sublist_cons.
  - rewrite app_assoc. by apply sublist_app.
Qed.

Lemma queue_push_count (q : list E) (cap : nat) ev d :
  (0 < cap)%nat →
  Z.of_nat (length (queue_push cap q ev)) + (if (cap <=? length q)%nat then d + 1 else d) =
  Z.of_nat (length q) + d + 1.
Proof.
  intros Hc. unfold queue_push. destruct (Nat.leb_spec cap (length q)).
  - destruct q; simpl in *; [lia|]. rewrite length_app. simpl. lia.
  - rewrite length_app. simpl. lia.
Qed.

Lemma ring_policy_cfg c c' : ch_cfg c' = ch_cfg c → ring_policy c' = ring_policy c.
Proof. unfold ring_policy. by intros ->. Qed.

(** A popped event moves from the front of the ring. *)
Lemma pop_inv r r' q np d sr ev :
  rl_repr r q np d sr → np < 2 ^ 63 → rl_Pop r = (r', Some (Some ev)) →
  ∃ q', q = ev :: q' ∧ rl_repr r' q' np d sr.
Proof.
  intros Hr Hn Hp. pose proof (rl_pop_repr r q np d sr Hr Hn) as H.
  destruct q as [|e q']; [congruence|]. destruct H as (r1 & H1 & H2 & _).
  rewrite H1 in Hp. injection Hp as <- <-. by exists q'.
Qed.

Lemma step_push_inv n c c' r ps1 ps2 l k acc rcv rf ds p ev now b q d :
  ring_policy c = true → ch_ring c = Some r → Channel_dispatch c ev now = (c', b) →
  chan_inv n (mkCS c (ps1 ++ ev :: ps2) l k acc rcv rf ds p) q d → n + 1 < 2 ^ 63 →
  ∃ q' d', chan_inv (n + 1)
    (mkCS c' (ps1 ++ ps2) l k (if b then acc ++ [ev] else acc) rcv
       (if b then rf else rf + 1) ds p) q' d'.
Proof.
  intros Hpol Hr Hd [Hring Hflow Hcount Hroom Hdrain] Hn. cbn in *.
  rewrite Hr in Hring. destruct Hring as (_ & np & Hrepr & Hnp & Hds).
  destruct (dispatch_ring c r ev now c' b Hpol Hr Hd) as (r' & Hpush & Hcore).
  unfold core in Hcore. injection Hcore as Hcfg Hring' Hout Hcap' _ _.
  pose proof (rl_push_repr r q np d rf now ev Hrepr ltac:(lia) ltac:(lia)) as Hp.
  destruct (rl_cap_repr r q np d rf Hrepr) as [_ Hcap]. rewrite Hpush in Hp.
  destruct b.
  - destruct Hp as [Hrepr' _].
    exists (queue_push (Z.to_nat (rl_Cap r)) q ev),
      (if (Z.to_nat (rl_Cap r) <=? length q)%nat then d + 1 else d).
    pose proof (queue_push_count q (Z.to_nat (rl_Cap r)) ev d ltac:(lia)) as Hqc.
    split; cbn [cs_chan cs_refused cs_received cs_loop cs_accepted cs_discarded cs_close];
      rewrite ?Hring', ?Hout, ?Hcap'; try done.
    + split; [by rewrite (ring_policy_cfg c c')|]. eexists. split; [exact Hrepr'|].
      destruct (_ <=? _)%nat; lia.
    + rewrite !app_assoc in *. by apply queue_push_flow.
    + rewrite length_app. simpl length. lia.
  - destruct Hp as [Hrepr' _]. exists q, d.
    split; cbn [cs_chan cs_refused cs_received cs_loop cs_accepted cs_discarded cs_close];
      rewrite ?Hring', ?Hout, ?Hcap'; try done.
    split; [by rewrite (ring_policy_cfg c c')|]. eexists. split; [exact Hrepr'|lia].
Qed.

(** The clauses only see the bound grow. *)
Lemma chan_inv_mono n s q d : chan_inv n s q d → chan_inv (n + 1) s q d.
Proof.
  intros [Hring ? ? ? ?]. split; try done.
  destruct (ch_ring (cs_chan s)); [|done]. destruct Hring as (? & np & ? & ? & ?).
  split; [done|]. exists np. split; [done|lia].
Qed.

Lemma send_step_inv n s s' q d :
  send_step s s' → chan_inv n s q d → n + 1 < 2 ^ 63 → ∃ q' d', chan_inv (n + 1) s' q' d'.
Proof.
  intros Hstep Hinv Hn. pose proof (chan_inv_mono _ _ _ _ Hinv) as Hmono. destruct Hstep.
  - exists q, d. by destruct Hmono.
  - destruct (ch_ring c) as [r|] eqn:Hr.
    + by eapply (step_push_inv n c c' r ps1 ps2).
    + destruct Hinv as [Hring _ _ _ _]. cbn in Hring. rewrite Hr in Hring.
      destruct Hring as [Hf _]. congruence.
  - exists q, d. destruct Hmono as [Hring Hflow Hcount Hroom Hdrain].
    pose proof (sendDropNewest_core c ev now) as Hcore. rewrite H1 in Hcore.
    destruct (Channel_sendDropNewest c ev now) as [c' b]. cbn [fst] in *.
    unfold core in Hcore. injection Hcore as Hcfg Hring' Hout Hcap' _ _. cbn in *.
    unfold ring_policy in *. unfold has_room in *. zb.
    destruct (ch_ring c) as [r|] eqn:Hr; [destruct Hring as [Hf _]; by rewrite H in Hf|].
    destruct Hring as (Hpol & -> & -> & -> & ->).
    split; cbn; rewrite ?Hring', ?Hout, ?Hcap', ?Hcfg; try done.
    + unfold ring_policy. by rewrite Hcfg, H.
    + cbn in Hflow. rewrite !app_nil_r, app_assoc in *. by apply sublist_app.
    + rewrite !length_app. cbn in *. lia.
    + rewrite length_app. cbn. lia.
  - exists q, d. destruct Hmono as [Hring Hflow Hcount Hroom Hdrain]. cbn in *.
    destruct (ch_ring c) as [r|] eqn:Hr.
    { destruct Hring as [Hf _]. unfold ring_policy in Hf. by rewrite H in Hf. }
    split; cbn; rewrite ?Hr; done.
  - exists q, d. destruct Hmono as [Hring Hflow Hcount Hroom Hdrain].
    pose proof (sendDropNewest_core c ev now) as Hcore. rewrite H1 in Hcore.
    destruct (Channel_sendDropNewest c ev now) as [c' b]. cbn [fst] in *.
    unfold core in Hcore. injection Hcore as Hcfg Hring' Hout Hcap' _ _. cbn in *.
    destruct (ch_ring c) as [r|] eqn:Hr.
    { destruct Hring as [Hf _]. unfold ring_policy in Hf. by rewrite H in Hf. }
    split; cbn; rewrite ?Hring', ?Hout, ?Hcap'; try done.
    destruct Hring as (Hpol & ?). split; [by rewrite (ring_policy_cfg c c')|done].
  - exists q, d. by destruct Hmono.
Qed.

Lemma loop_step_inv n s s' q d :
  loop_step s s' → chan_inv n s q d → n + 1 < 2 ^ 63 → ∃ q' d', chan_inv (n + 1) s' q' d'.
Proof.
  intros Hstep Hinv Hn. pose proof (chan_inv_mono _ _ _ _ Hinv) as Hmono. destruct Hstep.
  - destruct Hmono as [Hring Hflow Hcount Hroom Hdrain]. cbn in *. rewrite H in Hring.
    destruct Hring as (Hpol & np & Hrepr & Hnp & Hds).
    destruct (pop_inv r r' q np d rf ev Hrepr ltac:(lia) H1) as (q' & -> & Hrepr').
    exists q', d. split; cbn; try done.
    + split; [done|]. by exists np.
    + cbn in Hcount. lia.
    + intros Hk. by specialize (Hdrain Hk).
  - exists q, d. destruct Hmono as [Hring Hflow Hcount Hroom Hdrain]. cbn in *.
    unfold has_room in *. zb. split; cbn; try done.
    + destruct (ch_ring c); [done|]. by destruct Hring as (_ & _ & _ & ? & _).
    + by rewrite <- app_assoc.
    + rewrite length_app. cbn. lia.
    + rewrite length_app. cbn. lia.
    + intros Hk. by specialize (Hdrain Hk).
  - exists q, d. destruct Hmono as [Hring Hflow Hcount Hroom Hdrain]. cbn in *.
    split; cbn; try done.
    + destruct (ch_ring c); [done|]. by destruct Hring as (_ & _ & _ & ? & _).
    + etrans; [|exact Hflow]. do 2 (apply sublist_app; [done|]). by apply sublist_cons.
    + lia.
  - exists q, d. destruct Hmono as [Hring Hflow Hcount Hroom Hdrain]. cbn in *.
    split; cbn; try done. by rewrite H in *.
Qed.

Lemma end_step_inv n s s' q d :
  end_step s s' → chan_inv n s q d → n + 1 < 2 ^ 63 → ∃ q' d', chan_inv (n + 1) s' q' d'.
Proof.
  intros Hstep Hinv Hn. pose proof (chan_inv_mono _ _ _ _ Hinv) as Hmono. destruct Hstep.
  - exists q, d. destruct Hmono as [Hring Hflow Hcount Hroom Hdrain]. cbn in *.
    rewrite H in *. split; cbn; try done.
    + by rewrite <- app_assoc.
    + rewrite length_app. cbn in *. lia.
    + cbn in Hroom. lia.
  - exists q, d. destruct Hmono as [Hring Hflow Hcount Hroom Hdrain]. cbn in *.
    split; cbn; try done. by intros [?|?].
  - exists q, d. destruct Hmono as [Hring Hflow Hcount Hroom Hdrain]. cbn in *.
    split; cbn; done.
  - destruct Hmono as [Hring Hflow Hcount Hroom Hdrain]. cbn in *. rewrite H in Hring.
    destruct Hring as (Hpol & np & Hrepr & Hnp & Hds).
    destruct (pop_inv r r' q np d rf ev Hrepr ltac:(lia) H0) as (q' & -> & Hrepr').
    rewrite (Hdrain ltac:(by left)) in *. cbn [held app length] in *.
    unfold has_room in *. zb. exists q', d. split; cbn; try done.
    + split; [done|]. by exists np.
    + by rewrite <- app_assoc.
    + rewrite length_app. cbn. lia.
    + rewrite length_app. cbn. lia.
  - destruct Hmono as [Hring Hflow Hcount Hroom Hdrain]. cbn in *. rewrite H in Hring.
    destruct Hring as (Hpol & np & Hrepr & Hnp & Hds).
    destruct (pop_inv r r' q np d rf ev Hrepr ltac:(lia) H0) as (q' & -> & Hrepr').
    rewrite (Hdrain ltac:(by left)) in *. cbn [held app length] in *.
    exists q', d. split; cbn; try done.
    + split; [done|]. by exists np.
    + etrans; [|exact Hflow]. do 2 (apply sublist_app; [done|]). by apply sublist_cons.
    + lia.
  - exists q, d. destruct Hmono as [Hring Hflow Hcount Hroom Hdrain]. cbn in *.
    split; cbn; try done. intros _. apply Hdrain. by left.
Qed.

Lemma chan_step_inv n s s' q d :
  chan_step s s' → chan_inv n s q d → n + 1 < 2 ^ 63 → ∃ q' d', chan_inv (n + 1) s' q' d'.
Proof.
  intros [Hs|[Hs|Hs]]; [by apply send_step_inv|by apply loop_step_inv|by apply end_step_inv].
Qed.

(** *** Reachable states *)

Lemma NewChannel_init cfg c :
  NewChannel cfg = Ret c → bp_BufferSize cfg ≤ 2 ^ 32 →
  chan_inv 0 (chan_init c) [] 0 ∧ ch_closed c = false ∧
  (ring_policy c = true → 0 < ch_outCap c).
Proof.
  unfold NewChannel, BpConfig_Validate. intros Hnew Hsz.
  destruct (bp_BufferSize cfg <=? 0) eqn:Hb; [done|]. zb.
  repeat case_if; try done.
  assert (Hring : rl_repr (rl_new (bp_BufferSize cfg) (bp_MaxAge cfg)) [] 0 0 0)
    by (by apply rl_new_repr).
  destruct (bp_Policy cfg) eqn:Hpol; injection Hnew as <-;
    (split; [|split; [done|cbn; unfold ring_policy; cbn; rewrite ?Hpol; lia || done]]);
    split; cbn; unfold ring_policy; cbn; rewrite ?Hpol; try done; try lia;
    try (by intros [?|?]); split; try done; by exists 0.
Qed.

Lemma nsteps_inv k n s s' q d :
  nsteps chan_step k s s' → chan_inv n s q d → n + Z.of_nat k < 2 ^ 63 →
  ∃ q' d', chan_inv (n + Z.of_nat k) s' q' d'.
Proof.
  intros Hs. revert n q d. induction Hs as [s|k s1 s2 s3 Hstep _ IH]; intros n q d Hinv Hn.
  { exists q, d. by rewrite Z.add_0_r. }
  destruct (chan_step_inv n s1 s2 q d Hstep Hinv ltac:(lia)) as (q1 & d1 & Hinv1).
  destruct (IH (n + 1) q1 d1 Hinv1 ltac:(lia)) as (q2 & d2 & Hinv2).
  exists q2, d2. by replace (n + Z.of_nat (S k)) with (n + 1 + Z.of_nat k) by lia.
Qed.

(** C6: whatever the producers, the forwarding goroutine, the consumer and a
    closing goroutine do, in any interleaving: the consumer receives a
    subsequence of the accepted events in the order of their acceptance, never
    one twice, and every accepted event is received, still buffered (consumer
    channel, forwarder, ring), evicted and counted by the ring, or discarded
    while closing. Under DropNewest nothing accepted is ever lost. *)
Theorem channel_fifo_conservation cfg c k s :
  NewChannel cfg = Ret c → bp_BufferSize cfg ≤ 2 ^ 32 →
  nsteps chan_step k (chan_init c) s → Z.of_nat k < 2 ^ 63 →
  cs_received s `sublist_of` cs_accepted s ∧
  match ch_ring (cs_chan s) with
  | Some r =>
      Z.of_nat (length (cs_accepted s)) =
        Z.of_nat (length (cs_received s)) + Z.of_nat (length (Channel_C (cs_chan s))) +
        Z.of_nat (length (held (cs_loop s))) + rl_Len r +
        (rl_TotalDropped r - cs_refused s) + cs_discarded s
  | None => cs_accepted s = cs_received s ++ Channel_C (cs_chan s)
  end.
Proof.
  intros Hnew Hsz Hsteps Hk.
  destruct (NewChannel_init cfg c Hnew Hsz) as (H0 & _).
  destruct (nsteps_inv k 0 _ s [] 0 Hsteps H0 ltac:(lia)) as (q & d & [Hring Hflow Hcount _ _]).
  split; [etrans; [|exact Hflow]; by apply sublist_inserts_r|].
  unfold Channel_C. destruct (ch_ring (cs_chan s)) as [r|].
  - destruct Hring as (_ & np & Hrepr & ? & ?).
    rewrite (rl_len_repr r q np d (cs_refused s) Hrepr), (rl_dropped_repr r q np d (cs_refused s) Hrepr) by lia.
    lia.
  - destruct Hring as (_ & -> & -> & Hl & Hd). rewrite Hl in *. cbn [held] in *.
    rewrite !app_nil_r in Hflow. symmetry. apply sublist_whole; [done|]. rewrite length_app. cbn in Hcount. lia.
Qed.

(** *** Delivery *)

Lemma core_outCap c c' : core c' = core c → ch_outCap c' = ch_outCap c.
Proof. unfold core. congruence. Qed.

Lemma chan_step_outCap s s' :
  chan_step s s' → ch_outCap (cs_chan s') = ch_outCap (cs_chan s).
Proof.
  assert (Hn : ∀ c ev now, ch_outCap (fst (Channel_sendDropNewest c ev now)) = ch_outCap c).
  { intros c ev now. pose proof (sendDropNewest_core c ev now) as H. unfold core in H. congruence. }
  assert (Hd : ∀ c ev now, ch_outCap (fst (Channel_dispatch c ev now)) = ch_outCap c).
  { intros c ev now. unfold Channel_dispatch.
    destruct (bp_Policy (ch_cfg c)), (ch_ring c) as [r|]; try done; try apply Hn;
      [unfold Channel_sendDropOldest|unfold Channel_sendDisconnect];
      destruct (rl_Push r now ev) as [r' w]; case_if; cbn [fst];
      rewrite ?(core_outCap _ _ (core_reset _)), ?(core_outCap _ _ (core_recordDrop _ _)); done. }
  intros [Hs|[Hs|Hs]]; destruct Hs; cbn; rewrite ?Hn; try done.
  specialize (Hd c ev now). by rewrite H0 in Hd.
Qed.

Lemma nsteps_outCap k s s' :
  nsteps chan_step k s s' → ch_outCap (cs_chan s') = ch_outCap (cs_chan s).
Proof.
  induction 1 as [|k s1 s2 s3 H1 _ IH]; [done|]. rewrite IH. by apply chan_step_outCap.
Qed.

Definition forwarding (s : chan_state) (q : list E) : Prop :=
  cs_loop s ≠ LoopExited ∧ 0 < ch_outCap (cs_chan s) ∧
  ∃ r np d sr, ch_ring (cs_chan s) = Some r ∧ rl_repr r q np d sr ∧ np < 2 ^ 63.

(** One step towards the consumer. *)
Lemma deliver_step s q :
  forwarding s q → ch_out (cs_chan s) ++ held (cs_loop s) ++ q ≠ [] →
  ∃ s' q', chan_step s s' ∧ forwarding s' q' ∧ cs_accepted s' = cs_accepted s ∧
    cs_received s' ++ ch_out (cs_chan s') ++ held (cs_loop s') ++ q' =
    cs_received s ++ ch_out (cs_chan s) ++ held (cs_loop s) ++ q ∧
    (3 * length q' + 2 * length (held (cs_loop s')) + length (ch_out (cs_chan s')) <
     3 * length q + 2 * length (held (cs_loop s)) + length (ch_out (cs_chan s)))%nat.
Proof.
  destruct s as [c ps l k acc rcv rf ds p]. intros (Hl & Hcap & r & np & d & sr & Hr & Hrepr & Hnp) Hne.
  cbn in *. destruct (ch_out c) as [|ev out] eqn:Hout.
  - assert (Hroom : has_room c = true) by (unfold has_room; rewrite Hout; by apply Z.ltb_lt).
    destruct l as [|ev|]; [| |done].
    + destruct q as [|ev q]; [done|].
      pose proof (rl_pop_repr _ _ _ _ _ Hrepr Hnp) as (r' & Hpop & Hrepr' & _).
      eexists _, q. split_and!.
      * right. left. eapply step_loop_pop; [exact Hr| |exact Hpop].
        rewrite (rl_wait_repr _ _ _ _ _ Hrepr Hnp). by apply bool_decide_true.
      * split_and!; [done|done|]. cbn. by exists r', np, d, sr.
      * done.
      * cbn. by rewrite Hout.
      * cbn. rewrite Hout. cbn. lia.
    + eexists _, q. split_and!.
      * right. left. by apply step_loop_send.
      * split_and!; [done|done|]. cbn. by exists r, np, d, sr.
      * done.
      * cbn. by rewrite Hout.
      * cbn. rewrite Hout. cbn. lia.
  - eexists _, q. split_and!.
    + right. right. by eapply step_recv.
    + split_and!; [done|done|]. cbn. by exists r, np, d, sr.
    + done.
    + cbn. by rewrite <- app_assoc.
    + cbn. lia.
Qed.

Lemma deliver_all w s q :
  forwarding s q →
  (3 * length q + 2 * length (held (cs_loop s)) + length (ch_out (cs_chan s)) ≤ w)%nat →
  ∃ s', rtc chan_step s s' ∧ cs_accepted s' = cs_accepted s ∧
    cs_received s' = cs_received s ++ ch_out (cs_chan s) ++ held (cs_loop s) ++ q.
Proof.
  revert s q. induction w as [|w IH]; intros s q Hf Hw.
  - exists s. split_and!; [done|done|].
    destruct q; [|cbn in *; lia]. destruct (ch_out _); [|cbn in *; lia].
    destruct (held _); [by rewrite app_nil_r|cbn in *; lia].
  - destruct (decide (length (ch_out (cs_chan s) ++ held (cs_loop s) ++ q) = 0%nat)) as [H0|H0].
    + exists s. split_and!; [done|done|]. apply nil_length_inv in H0. rewrite H0. by rewrite app_nil_r.
    + destruct (deliver_step s q Hf) as (s1 & q1 & Hs & Hf1 & Hacc & Hflow & Hlt);
        [by intros E0; rewrite E0 in H0|].
      destruct (IH s1 q1 Hf1 ltac:(lia)) as (s2 & Hs2 & Hacc2 & Hrcv).
      exists s2. split_and!; [by eapply rtc_l|congruence|congruence].
Qed.

(** Nothing buffered is stuck. From every reachable state in which the
    forwarding goroutine runs, steps of it and of the consumer alone lead to a
    state in which the consumer has received, in order, everything that was
    buffered: the consumer channel, the event in hand and the ring. *)
Lemma channel_delivers_backlog cfg c k s :
  NewChannel cfg = Ret c → bp_BufferSize cfg ≤ 2 ^ 32 →
  nsteps chan_step k (chan_init c) s → Z.of_nat k < 2 ^ 63 →
  ring_policy c = true → cs_loop s ≠ LoopExited →
  ∃ s' backlog, rtc chan_step s s' ∧ cs_accepted s' = cs_accepted s ∧
    Z.of_nat (length backlog) = Channel_Len (cs_chan s) ∧
    cs_received s' =
      cs_received s ++ Channel_C (cs_chan s) ++ held (cs_loop s) ++ backlog.
Proof.
  intros Hnew Hsz Hsteps Hk Hpol Hloop.
  destruct (NewChannel_init cfg c Hnew Hsz) as (H0 & _ & Hcap).
  assert (Hkeep : ch_outCap (cs_chan s) = ch_outCap c).
  { apply (nsteps_outCap k (chan_init c) s Hsteps). }
  destruct (nsteps_inv k 0 _ s [] 0 Hsteps H0 ltac:(lia)) as (q & d & [Hring Hflow Hcount _ _]).
  destruct (ch_ring (cs_chan s)) as [r|] eqn:Hr;
    [|destruct Hring as (_ & _ & _ & ? & _); congruence].
  destruct Hring as (_ & np & Hrepr & ? & ?).
  destruct (deliver_all (3 * length q + 2 * length (held (cs_loop s)) + length (ch_out (cs_chan s))) s q)
    as (s' & Hs & Hacc & Hrcv); [|lia|].
  - split_and!; [done|rewrite Hkeep; by apply Hcap|]. exists r, np, d, (cs_refused s).
    split_and!; [done|done|lia].
  - exists s', q. split_and!; [done|done| |done].
    unfold Channel_Len. rewrite Hr. symmetry. apply (rl_len_repr r q np d (cs_refused s) Hrepr). lia.
Qed.
End channel.
Arguments Channel : clear implicits.
Arguments chan_state : clear implicits.
Arguments loop_state : clear implicits.

(** ** The drop window against its reference *)

(** How many of the recorded seconds satisfy a predicate. *)
Definition cnt (P : Z → Prop) `{!∀ x, Decision (P x)} (hist : list Z) : Z :=
  Z.of_nat (length (filter P hist)).

Lemma cnt_cons (P : Z → Prop) `{!∀ x, Decision (P x)} h hist :
  cnt P (h :: hist) = (if decide (P h) then 1 else 0) + cnt P hist.
Proof. unfold cnt. rewrite filter_cons. case_decide; simpl; lia. Qed.

Lemma cnt_ext (P Q : Z → Prop) `{!∀ x, Decision (P x), !∀ x, Decision (Q x)} hist :
  Forall (λ h, P h ↔ Q h) hist → cnt P hist = cnt Q hist.
Proof.
  induction 1 as [|h hist Hh _ IH]; [done|]. rewrite !cnt_cons, IH. f_equal.
  by apply decide_ext.
Qed.

Lemma cnt_bound (P : Z → Prop) `{!∀ x, Decision (P x)} hist :
  0 ≤ cnt P hist ≤ Z.of_nat (length hist).
Proof. unfold cnt. pose proof (length_filter P hist). lia. Qed.

(** The bucket of slot [j] when the last recorded second is [last]. *)
Definition bucket_of (hist : list Z) (last j : Z) : Z :=
  cnt (λ h, last - 10 < h ∧ h mod 10 = j) hist.

Record window_repr (w : dropBucketWindow) (hist : list Z) : Prop := {
  wr_num : dw_numBuckets w = 10;
  wr_sec : 0 ≤ dw_prevSec w;
  wr_slot : dw_slot w = dw_prevSec w mod 10;
  wr_le : Forall (λ h, 0 ≤ h ≤ dw_prevSec w) hist;
  wr_buckets : dw_buckets w = (λ j, bucket_of hist (dw_prevSec w) j) <$> seqZ 0 10;
}.

Lemma newDropBucketWindow_repr : window_repr newDropBucketWindow [].
Proof. split; done || constructor. Qed.

Lemma sum_single m a n :
  a ≤ m < a + Z.of_nat n →
  fold_right Z.add 0 ((λ j, if decide (m = j) then 1 else 0) <$> seqZ a (Z.of_nat n)) = 1.
Proof.
  revert a. induction n as [|n IH]; intros a Hm; [lia|].
  rewrite seqZ_cons by lia. rewrite fmap_cons. cbn [fold_right].
  replace (Z.pred (Z.of_nat (S n))) with (Z.of_nat n) by lia.
  destruct (decide (m = a)) as [->|Hne].
  - assert (H0 : ∀ b k, a < b → fold_right Z.add 0
        ((λ j, if decide (a = j) then 1 else 0) <$> seqZ b (Z.of_nat k)) = 0).
    { intros b k. revert b. induction k as [|k IHk]; intros b Hb; [done|].
      rewrite seqZ_cons by lia. rewrite fmap_cons. cbn [fold_right]. rewrite decide_False by lia.
      replace (Z.pred (Z.of_nat (S k))) with (Z.of_nat k) by lia. rewrite IHk by lia. done. }
    rewrite H0 by lia. done.
  - rewrite IH by lia. done.
Qed.

(** The buckets partition the window. *)
Lemma buckets_sum hist last :
  fold_right Z.add 0 ((λ j, bucket_of hist last j) <$> seqZ 0 10) = cnt (λ h, last - 10 < h) hist.
Proof.
  induction hist as [|h hist IH]; [done|]. rewrite cnt_cons, <- IH.
  assert (Hsplit : ∀ l : list Z,
    fold_right Z.add 0 ((λ j, bucket_of (h :: hist) last j) <$> l) =
    fold_right Z.add 0 ((λ j, if decide (last - 10 < h ∧ h mod 10 = j) then 1 else 0) <$> l) +
    fold_right Z.add 0 ((λ j, bucket_of hist last j) <$> l)).
  { induction l as [|j l IHl]; [done|]. rewrite !fmap_cons. cbn [fold_right]. rewrite IHl.
    unfold bucket_of at 1. rewrite cnt_cons. fold (bucket_of hist last j). lia. }
  rewrite Hsplit. f_equal. destruct (decide (last - 10 < h)) as [Hlt|Hge].
  - pose proof (Z.mod_pos_bound h 10 ltac:(lia)).
    etrans; [|apply (sum_single (h mod 10) 0 10); lia]. f_equal. apply list_fmap_ext.
    intros i j _. apply decide_ext. tauto.
  - assert (H0 : ∀ l : list Z, fold_right Z.add 0
        ((λ j, if decide (last - 10 < h ∧ h mod 10 = j) then 1 else 0) <$> l) = 0).
    { induction l as [|j l IHl]; [done|]. rewrite fmap_cons. cbn [fold_right].
      rewrite decide_False by lia. by rewrite IHl. }
    apply H0.
Qed.

Lemma fold_i64_sum l t :
  Forall (λ v, 0 ≤ v) l → 0 ≤ t → t + fold_right Z.add 0 l < 2 ^ 63 →
  fold_left (λ t v, i64 (t + v)) l t = t + fold_right Z.add 0 l.
Proof.
  intros Hl. revert t. induction Hl as [|v l Hv Hl IH]; intros t Ht Hb; cbn [fold_left fold_right] in *.
  { lia. }
  assert (0 ≤ fold_right Z.add 0 l) by (clear -Hl; induction Hl; simpl; lia).
  rewrite i64_small by go_lia. rewrite IH by lia. lia.
Qed.

(** What the clearing loop leaves in a slot. *)
Lemma clear_lookup (f : Z → nat) idxs (b : list Z) j :
  fold_left (λ b i, <[f i := 0]> b) idxs b !! j =
    if decide (j ∈ f <$> idxs) then (λ _, 0) <$> b !! j else b !! j.
Proof.
  revert b. induction idxs as [|i idxs IH]; intros b; [done|]. cbn [fold_left]. rewrite IH, fmap_cons.
  destruct (decide (j = f i)) as [->|Hne].
  - rewrite (decide_True _ _ (list_elem_of_here _ _)).
    destruct (decide (f i < length b)%nat) as [Hlt|Hge].
    + rewrite list_lookup_insert_eq by done. destruct (lookup_lt_is_Some_2 b (f i) Hlt) as [v ->].
      by case_decide.
    + rewrite list_insert_ge by lia. rewrite (lookup_ge_None_2 b) by lia. by case_decide.
  - rewrite list_lookup_insert_ne by done.
    assert (Hiff : j ∈ f <$> idxs ↔ j ∈ f i :: (f <$> idxs)) by (rewrite elem_of_cons; tauto).
    by rewrite (decide_ext _ _ _ _ Hiff).
Qed.

(** Bringing the window forward to a later second. *)
Lemma window_advance hist prev sec :
  0 ≤ prev < sec → Forall (λ h, 0 ≤ h ≤ prev) hist →
  (if 10 <=? sec - prev then (λ _, 0) <$> ((λ j, bucket_of hist prev j) <$> seqZ 0 10)
   else clear_buckets ((λ j, bucket_of hist prev j) <$> seqZ 0 10) (prev mod 10) 10 (sec - prev))
  = (λ j, bucket_of hist sec j) <$> seqZ 0 10.
Proof.
  intros Hsec Hle. rewrite Forall_forall in Hle. case_if.
  - rewrite <- list_fmap_compose. apply list_fmap_ext. intros i j _. cbn.
    symmetry. unfold bucket_of, cnt. rewrite filter_none; [done|].
    apply Forall_forall. intros h Hh. specialize (Hle h Hh). lia.
  - apply list_eq. intros k. unfold clear_buckets. rewrite clear_lookup, !list_lookup_fmap.
    destruct (decide (k < 10)%nat) as [Hk|Hk].
    2:{ rewrite !(lookup_ge_None_2 (seqZ 0 10)) by (rewrite length_seqZ; lia). by case_decide. }
    rewrite !(proj2 (lookup_seqZ 0 10 k (Z.of_nat k))) by lia. cbn [fmap option_fmap option_map].
    case_decide as Hin; f_equal; unfold bucket_of.
    + (* a second of the gap: nothing recorded since *)
      symmetry. unfold cnt. rewrite filter_none; [done|]. apply Forall_forall.
      intros h Hh [Hh1 Hh2]. specialize (Hle h Hh).
      apply list_elem_of_fmap in Hin as (i & Hi & Hin). apply elem_of_seqZ in Hin.
      pose proof (Z.mod_pos_bound (prev mod 10 + i) 10 ltac:(lia)).
      assert (Hm : (prev + i) mod 10 = h mod 10) by (rewrite <- Zplus_mod_idemp_l; lia).
      pose proof (Z.div_mod (prev + i) 10 ltac:(lia)). pose proof (Z.div_mod h 10 ltac:(lia)). lia.
    + apply cnt_ext. apply Forall_forall. intros h Hh. specialize (Hle h Hh).
      split; [|lia]. intros [Hh1 Hh2]. split; [|done].
      destruct (decide (sec - 10 < h)) as [|Hge]; [done|]. exfalso. apply Hin.
      apply list_elem_of_fmap. exists (h + 10 - prev). split; [|apply elem_of_seqZ; lia].
      rewrite Zplus_mod_idemp_l. replace (prev + (h + 10 - prev)) with (h + 1 * 10) by lia.
      rewrite Z.mod_add by lia. lia.
Qed.

Lemma window_record_repr w hist now :
  window_repr w hist → 0 ≤ dw_prevSec w ≤ unix_sec now → Z.of_nat (length hist) + 1 < 2 ^ 63 →
  let '(w', total) := dropBucketWindow_record w now in
  window_repr w' (unix_sec now :: hist) ∧ dw_prevSec w' = unix_sec now ∧
  total = cnt (λ h, unix_sec now - 10 < h) (unix_sec now :: hist).
Proof.
  intros H Hsec Hb. unfold dropBucketWindow_record. set (sec := unix_sec now) in *.
  pose proof (wr_num _ _ H) as Hnum. pose proof (wr_slot _ _ H) as Hslot.
  set (w1 := if dw_prevSec w <? sec then _ else w).
  assert (H1 : window_repr w1 hist ∧ dw_prevSec w1 = sec).
  { unfold w1. case_if; [|split; [done|lia]]. split; [|done].
    pose proof (window_advance hist (dw_prevSec w) sec ltac:(lia) (wr_le _ _ H)) as Hadv.
    rewrite Hnum, Hslot, (wr_buckets _ _ H).
    split; cbn [dw_numBuckets dw_prevSec dw_slot dw_buckets]; [done|lia| | |exact Hadv].
    - rewrite Z.rem_mod_nonneg; lia.
    - eapply Forall_impl; [apply (wr_le _ _ H)|]. cbn. intros. lia. }
  clearbody w1. destruct H1 as [H1 Hp1].
  assert (Hbk : alter (λ v, i64 (v + 1)) (Z.to_nat (dw_slot w1)) (dw_buckets w1) =
                (λ j, bucket_of (sec :: hist) sec j) <$> seqZ 0 10).
  { pose proof (Z.mod_pos_bound sec 10 ltac:(lia)) as Hm.
    rewrite (wr_slot _ _ H1), Hp1, (wr_buckets _ _ H1), Hp1. apply list_eq. intros k.
    rewrite list_lookup_fmap. destruct (decide (k < 10)%nat) as [Hk|Hk].
    2:{ rewrite lookup_ge_None_2; [|rewrite length_alter, length_fmap, length_seqZ; lia].
        by rewrite lookup_ge_None_2 by (rewrite length_seqZ; lia). }
    rewrite (proj2 (lookup_seqZ 0 10 k (Z.of_nat k))) by lia. cbn [fmap option_fmap option_map].
    unfold bucket_of at 2. rewrite cnt_cons. fold (bucket_of hist sec (Z.of_nat k)).
    pose proof (cnt_bound (λ h, sec - 10 < h ∧ h mod 10 = Z.of_nat k) hist) as Hcb.
    destruct (decide (k = Z.to_nat (sec mod 10))) as [->|Hne].
    - rewrite list_lookup_alter_eq, list_lookup_fmap, (proj2 (lookup_seqZ 0 10 _ (sec mod 10))) by lia.
      cbn [fmap option_fmap option_map]. rewrite Z2Nat.id in * by lia.
      rewrite decide_True by lia. fold (bucket_of hist sec (sec mod 10)) in Hcb.
      rewrite i64_small by go_lia. f_equal. lia.
    - rewrite list_lookup_alter_ne by done.
      rewrite list_lookup_fmap, (proj2 (lookup_seqZ 0 10 k (Z.of_nat k))) by lia.
      cbn [fmap option_fmap option_map]. by rewrite decide_False by lia. }
  rewrite Hbk. split_and!; [split| |]; cbn [dw_numBuckets dw_prevSec dw_slot dw_buckets];
    rewrite ?Hp1; try apply H1; try done.
  - lia.
  - rewrite <- Hp1. apply H1.
  - constructor; [lia|]. rewrite <- Hp1. apply H1.
  - rewrite fold_i64_sum; rewrite ?buckets_sum; [done| |lia|].
    + apply Forall_fmap, Forall_forall. intros j _. unfold bucket_of, cnt. cbn. lia.
    + pose proof (cnt_bound (λ h, sec - 10 < h) (sec :: hist)). cbn [length] in *. lia.
Qed.

(** Recording drops at the times [nows], oldest first: the totals returned. *)
Fixpoint window_run (w : dropBucketWindow) (nows : list Z) : list Z :=
  match nows with
  | [] => []
  | now :: nows => let '(w, total) := dropBucketWindow_record w now in total :: window_run w nows
  end.

(** The reference: for each drop, the drops so far (itself included) whose second
    is among the last ten. *)
Fixpoint window_reference (hist nows : list Z) : list Z :=
  match nows with
  | [] => []
  | now :: nows =>
      let hist := unix_sec now :: hist in
      cnt (λ h, unix_sec now - 10 < h) hist :: window_reference hist nows
  end.

Fixpoint clock_from (t : Z) (nows : list Z) : Prop :=
  match nows with [] => True | now :: nows => t ≤ now ∧ clock_from now nows end.

Lemma window_run_reference w hist t nows :
  window_repr w hist → 0 ≤ t → dw_prevSec w ≤ unix_sec t → clock_from t nows →
  Z.of_nat (length hist + length nows) < 2 ^ 63 →
  window_run w nows = window_reference hist nows.
Proof.
  revert w hist t. induction nows as [|now nows IH]; intros w hist t H Ht Hp Hc Hb; [done|].
  cbn [window_run window_reference clock_from length] in *. destruct Hc as [Hle Hc].
  assert (unix_sec t ≤ unix_sec now) by (apply Z.div_le_mono; [done|lia]).
  pose proof (wr_sec _ _ H).
  pose proof (window_record_repr w hist now H ltac:(lia) ltac:(lia)) as Hr.
  destruct (dropBucketWindow_record w now) as [w' total]. destruct Hr as (H' & Hp' & ->).
  f_equal. apply (IH w' _ now); auto; try lia. cbn [length]. lia.
Qed.

(** The ten circular buckets are a sliding window. For any non-decreasing
    clock, each recorded drop returns exactly the number of drops recorded in the
    current second and the nine before it, across any gaps. *)
Lemma drop_window_counts_last_ten_seconds nows :
  clock_from 0 nows → Z.of_nat (length nows) < 2 ^ 63 →
  window_run newDropBucketWindow nows = window_reference [] nows.
Proof.
  intros Hc Hb. apply (window_run_reference _ [] 0);
    [apply newDropBucketWindow_repr|done|done|done|done].
Qed.

Lemma drop_window_counts_last_ten_seconds_witness :
  let nows := map (Z.mul Second) [5; 5; 14; 15; 26] in
  window_run newDropBucketWindow nows = window_reference [] nows ∧
  window_reference [] nows = [1; 2; 3; 2; 1].
Proof.
  split; [|vm_compute; reflexivity].
  apply (drop_window_counts_last_ten_seconds (map (Z.mul Second) [5; 5; 14; 15; 26])).
  - vm_compute. by split_and!.
  - vm_compute. done.
Defined.

(** ** Policies by name *)

(** The name of a policy is one that [ParsePolicy] reads back as that policy,
    and the aliases parse to the same policies. *)
Lemma policy_name_roundtrip :
  (∀ p, (∀ n, p ≠ PolicyOther n) → ParsePolicy (Policy_String p) = Ok p) ∧
  (∀ s p, ParsePolicy s = Ok p →
     p ∈ [PolicyDropOldest; PolicyDropNewest; PolicyDisconnect] ∧
     ParsePolicy (Policy_String p) = Ok p).
Proof.
  split.
  - intros [| | |n] Hn; try done. by destruct (Hn n).
  - intros s p. unfold ParsePolicy at 1. repeat case_if; intros [= <-]; split; set_solver || done.
Qed.

(** ** The disconnect policy *)

Section disconnect.
Context {E : Type}.
Let R := CachedRing E.

Fixpoint send_all (c : Channel R E) (evs : list (E * Z)) : Channel R E :=
  match evs with
  | [] => c
  | (ev, now) :: evs => send_all (fst (Channel_Send c ev now)) evs
  end.

(** [k] sends in, with the forwarder blocked; [b] is the capacity of the ring. *)
Record stalled (c : Channel R E) (b m : Z) (k : nat) : Prop := {
  sl_policy : bp_Policy (ch_cfg c) = PolicyDisconnect;
  sl_max : bp_MaxConsecutiveDrops (ch_cfg c) = m;
  sl_thr : f64_ltb f64_zero (bp_DropThreshold (ch_cfg c)) = false;
  sl_open : ch_closed c = false;
  sl_ring : ∃ r q d, ch_ring c = Some r ∧ rl_repr r q (Z.of_nat k) d 0 ∧ rl_Cap r = b ∧
              Z.of_nat (length q) = Z.min (Z.of_nat k) b ∧ d = Z.max 0 (Z.of_nat k - b);
  sl_drops : ch_consecutiveDrops c = Z.max 0 (Z.of_nat k - b);
  sl_disc : ch_disconnect c =
    if decide (b + m ≤ Z.of_nat k) then Some "consecutive drops exceeded" else None;
}.

Lemma recordDrop_stalled (c : Channel R E) now n m :
  ch_consecutiveDrops c = n → 0 ≤ n → n + 1 < 2 ^ 63 →
  bp_MaxConsecutiveDrops (ch_cfg c) = m → 0 < m →
  f64_ltb f64_zero (bp_DropThreshold (ch_cfg c)) = false →
  ch_consecutiveDrops (Channel_recordDrop c now) = n + 1 ∧
  ch_disconnect (Channel_recordDrop c now) =
    if decide (m ≤ n + 1) then
      Some (default "consecutive drops exceeded" (ch_disconnect c))
    else ch_disconnect c.
Proof.
  intros Hn Hn0 Hb Hm Hm0 Hthr. unfold Channel_recordDrop.
  destruct (dropBucketWindow_record _ _) as [w wd].
  unfold set_drops. cbn [ch_cfg ch_consecutiveDrops].
  rewrite Hm, Hn, i64_small by go_lia. rewrite (proj2 (Z.ltb_lt _ _)) by done. cbn [andb].
  rewrite Hthr. rewrite andb_false_r. cbn [andb].
  destruct (Z.leb_spec m (n + 1)).
  - rewrite decide_True by done. unfold Channel_triggerDisconnect. cbn [ch_disconnect].
    by destruct (ch_disconnect c).
  - by rewrite decide_False by lia.
Qed.

Lemma stalled_send c b m k ev now :
  stalled c b m k → 0 < b → 0 < m → Z.of_nat k + 1 < 2 ^ 62 →
  stalled (fst (Channel_Send c ev now)) b m (S k).
Proof.
  intros [Hpol Hmax Hthr Hopen (r & q & d & Hr & Hrepr & Hcap & Hq & Hd) Hdrops Hdisc] Hb Hm Hk.
  unfold Channel_Send, Channel_dispatch. rewrite Hopen, Hpol, Hr.
  unfold Channel_sendDisconnect.
  pose proof (rl_push_repr r q _ d 0 now ev Hrepr ltac:(lia) ltac:(lia)) as Hp.
  pose proof (rl_dropped_repr _ _ _ _ _ Hrepr) as Hd0.
  pose proof (queue_push_count q (Z.to_nat b) ev d ltac:(lia)) as Hqc.
  change (rl_Push r now ev) with (ringbuf_push r ev, true) in *.
  rewrite Hcap in Hp. destruct Hp as [Hrepr' Hcap'].
  pose proof (rl_dropped_repr _ _ _ _ _ Hrepr') as Hd1.
  set (r' := ringbuf_push r ev) in *. set (q' := queue_push (Z.to_nat b) q ev) in *.
  set (d' := if (Z.to_nat b <=? length q)%nat then d + 1 else d) in *.
  assert (Hd' : d' = Z.max 0 (Z.of_nat (S k) - b)).
  { unfold d'. destruct (Nat.leb_spec (Z.to_nat b) (length q)); lia. }
  replace (Z.of_nat k + 1) with (Z.of_nat (S k)) in Hrepr' by lia.
  assert (Hring' : ∀ c' : Channel R E, ch_ring c' = Some r' →
            ∃ (r : R) (q : list E) d, ch_ring c' = Some r ∧
            rl_repr r q (Z.of_nat (S k)) d 0 ∧ rl_Cap r = b ∧
            Z.of_nat (length q) = Z.min (Z.of_nat (S k)) b ∧ d = Z.max 0 (Z.of_nat (S k) - b)).
  { intros c' Hc'. exists r', q', d'. split_and!; try done; lia. }
  rewrite Hd0, Hd1. case_if; cbn [fst].
  - set (c1 := set_ring c r' _).
    destruct (recordDrop_stalled c1 now (Z.max 0 (Z.of_nat k - b)) m) as [Hn Hdc];
      [exact Hdrops|lia|lia|exact Hmax|done|exact Hthr|].
    pose proof (core_recordDrop c1 now) as Hcore. unfold core in Hcore. injection Hcore as Hc1 Hc2 _ _ _ Hc3.
    split; rewrite ?Hc1; try done.
    + by rewrite Hc3.
    + by apply Hring'.
    + rewrite Hn. lia.
    + rewrite Hdc. cbn [c1 set_ring ch_disconnect]. rewrite Hdisc. repeat case_decide; done || lia.
  - assert (Hz : Z.max 0 (Z.of_nat (S k) - b) = 0) by lia.
    unfold Channel_resetConsecutiveOnSuccess. rewrite (proj2 (Z.ltb_ge _ _)) by (cbn; lia).
    split; try done.
    + by apply Hring'.
    + cbn. lia.
    + cbn. rewrite Hdisc. repeat case_decide; done || lia.
Qed.

Lemma stalled_send_all c b m k evs :
  stalled c b m k → 0 < b → 0 < m → Z.of_nat (k + length evs) < 2 ^ 62 →
  stalled (send_all c evs) b m (k + length evs).
Proof.
  revert c k. induction evs as [|[ev now] evs IH]; intros c k Hs Hb Hm Hk; cbn [send_all length] in *.
  { by rewrite Nat.add_0_r. }
  replace (k + S (length evs))%nat with (S k + length evs)%nat in * by lia.
  apply IH; auto. apply stalled_send; auto. lia.
Qed.

(** The disconnect policy fires exactly when it should. With a consumer that
    has stopped reading (nothing leaves the ring) and the rate rule off, a
    channel that has been sent [n] events has counted as dropped exactly those
    beyond the ring's capacity, and has asked for the disconnect if and only if
    [MaxConsecutiveDrops] of them overflowed. *)
Lemma disconnect_after_max_consecutive_drops cfg c evs :
  NewChannel cfg = Ret c → bp_Policy cfg = PolicyDisconnect → bp_BufferSize cfg ≤ 2 ^ 32 →
  f64_ltb f64_zero (bp_DropThreshold cfg) = false → Z.of_nat (length evs) < 2 ^ 62 →
  let cap := nextPow2 (bp_BufferSize cfg) in
  let n := Z.of_nat (length evs) in
  Channel_ConsecutiveDrops (send_all c evs) = Z.max 0 (n - cap) ∧
  ch_disconnect (send_all c evs) =
    if decide (cap + bp_MaxConsecutiveDrops cfg ≤ n)
    then Some "consecutive drops exceeded" else None.
Proof.
  intros Hnew Hpol Hsz Hthr Hn. unfold NewChannel, BpConfig_Validate in Hnew.
  rewrite Hpol in Hnew. rewrite (bool_decide_true (PolicyDisconnect = PolicyDisconnect)) in Hnew by done.
  cbn [andb] in Hnew. repeat case_if; try done. injection Hnew as <-. cbv zeta.
  destruct (nextPow2_pow (bp_BufferSize cfg) Hsz) as (k & ? & Hk).
  assert (0 < nextPow2 (bp_BufferSize cfg)) by (rewrite Hk; apply Z.pow_pos_nonneg; lia).
  set (c0 := mkChannel _ _ _ _ _ _ _ _ _ _).
  destruct (stalled_send_all c0 (nextPow2 (bp_BufferSize cfg)) (bp_MaxConsecutiveDrops cfg) 0 evs)
    as [_ _ _ _ _ Hdr Hdc]; try done.
  split; try done.
  - eexists _, [], 0. split; [reflexivity|]. split.
    { exact (rl_new_repr (R:=CachedRing E) (E:=E) (bp_BufferSize cfg) 0 Hsz). }
    cbn. lia.
  - cbn. lia.
  - cbn. by rewrite decide_False by lia.
Qed.
End disconnect.

(** A ring of two, disconnect at three drops, six sends. *)
Definition disc_cfg : BpConfig := mkBpConfig PolicyDisconnect 2 3 0 f64_zero 0.
Definition disc_chan : Channel (CachedRing Z) Z :=
  mkChannel disc_cfg (Some (NewCachedRing 2)) [] 2 false 0 newDropBucketWindow None false 0.

Lemma disconnect_after_max_consecutive_drops_witness :
  let evs := map (λ z, (z, z * Second)) [1; 2; 3; 4; 5] in
  Channel_ConsecutiveDrops (send_all disc_chan evs) = Z.max 0 (5 - nextPow2 2) ∧
  ch_disconnect (send_all disc_chan evs) =
    if decide (nextPow2 2 + 3 ≤ 5) then Some "consecutive drops exceeded" else None.
Proof.
  apply (disconnect_after_max_consecutive_drops disc_cfg disc_chan
           (map (λ z, (z, z * Second)) [1; 2; 3; 4; 5])); done.
Defined.

(** ** Two races *)

(** [Send] checks the closed flag and then selects on the
    channel; if [Close] runs in between, a DropNewest producer sends on a closed
    channel. *)
Lemma drop_newest_close_race (R E : Type) `{!RingLike R E} (ev : E) (c : Channel R E) cfg :
  NewChannel cfg = Ret c → bp_Policy cfg = PolicyDropNewest →
  ∃ s, rtc chan_step (chan_init c) s ∧ cs_panicked s = true.
Proof.
  intros Hnew Hpol. unfold NewChannel in Hnew. rewrite Hpol in Hnew.
  destruct (BpConfig_Validate cfg); [done|]. injection Hnew as <-.
  unfold chan_init, ring_policy. cbn [ch_cfg]. rewrite Hpol.
  eexists. split.
  - eapply rtc_l; [left; by apply (step_check _ [] _ _ _ _ _ _ _ ev)|].
    eapply rtc_l; [right; right; by apply step_close|].
    eapply rtc_l; [right; right; by apply step_drain_start|].
    eapply rtc_l; [right; right; by apply step_close_done|].
    eapply rtc_l; [left; by apply (step_newest_panic _ [] [])|]. apply rtc_refl.
  - done.
Qed.

Lemma drop_newest_close_race_witness :
  ∃ s, rtc chan_step
         (chan_init (mkChannel (R:=CachedRing Z) (E:=Z) (mkBpConfig PolicyDropNewest 4 0 0 f64_zero 0) None [] 4
            false 0 newDropBucketWindow None false 0)) s ∧ cs_panicked s = true.
Proof.
  apply (drop_newest_close_race (CachedRing Z) Z 7 _ (mkBpConfig PolicyDropNewest 4 0 0 f64_zero 0));
    reflexivity.
Defined.

(** The reads, pushes and additions of two overlapping calls of
    [sendDropOldest]: both producers read the ring's counter before either pushes,
    and again after both have pushed. *)
Definition overlapping_sends {R E} `{!RingLike R E} (c : Channel R E) (r : R) (a b : E) (now : Z)
    : Channel R E * R :=
  let prevDropped1 := rl_TotalDropped r in
  let prevDropped2 := rl_TotalDropped r in
  let '(r1, _) := rl_Push r now a in
  let '(r2, _) := rl_Push r1 now b in
  let newDropped1 := rl_TotalDropped r2 in
  let newDropped2 := rl_TotalDropped r2 in
  let add c prev new := if prev <? new
                        then set_ring c r2 (u64 (ch_totalDropped c + (new - prev)))
                        else set_ring c r2 (ch_totalDropped c) in
  (add (add c prevDropped1 newDropped1) prevDropped2 newDropped2, r2).

(** The channel's drop counter over-counts under
    concurrency. On a full ring, two overlapping sends evict two events, and add
    four to the counter. *)
Lemma overlapping_sends_double_count {E : Type} (c : Channel (CachedRing E) E) r q n d now a b :
  rl_repr r q n d 0 → n + 2 < 2 ^ 63 → d + 2 < 2 ^ 63 →
  Z.of_nat (length q) = rl_Cap r → 0 ≤ ch_totalDropped c < 2 ^ 63 →
  let '(c', r') := overlapping_sends c r a b now in
  rl_TotalDropped r' = rl_TotalDropped r + 2 ∧
  Channel_TotalDropped c' = Channel_TotalDropped c + 4.
Proof.
  intros Hr Hn Hd Hfull Htd. destruct (rl_cap_repr _ _ _ _ _ Hr) as [_ Hcap].
  pose proof (rl_push_repr r q n d 0 now a Hr ltac:(lia) ltac:(lia)) as H1.
  unfold overlapping_sends.
  change (rl_Push r now a) with (ringbuf_push r a, true) in *. destruct H1 as [H1 Hc1].
  rewrite (proj2 (Nat.leb_le _ _)) in H1 by lia. set (r1 := ringbuf_push r a : CachedRing E) in *.
  pose proof (rl_push_repr (R:=CachedRing E) r1 _ _ _ _ now b H1 ltac:(lia) ltac:(lia)) as H2.
  change (rl_Push r1 now b) with (ringbuf_push r1 b, true) in *. destruct H2 as [H2 _].
  assert (Hlen : length (queue_push (Z.to_nat (rl_Cap r)) q a) = length q).
  { pose proof (queue_push_count q (Z.to_nat (rl_Cap r)) a d ltac:(lia)) as Hqc.
    rewrite (proj2 (Nat.leb_le _ _)) in Hqc by lia. lia. }
  rewrite Hc1, Hlen in H2. rewrite (proj2 (Nat.leb_le _ _)) in H2 by lia.
  pose proof (rl_dropped_repr _ _ _ _ _ Hr) as D0. pose proof (rl_dropped_repr _ _ _ _ _ H2) as D2.
  rewrite D0, D2. rewrite !(proj2 (Z.ltb_lt _ _)) by lia.
  unfold Channel_TotalDropped, set_ring. cbn [ch_totalDropped].
  rewrite (u64_small (ch_totalDropped c + _)) by go_lia. rewrite u64_small by go_lia. lia.
Qed.

Lemma overlapping_sends_double_count_witness :
  let r := ringbuf_push (ringbuf_push (NewCachedRing 2) 1) 2 in
  let '(c', r') := overlapping_sends disc_chan r 3 4 0 in
  rl_TotalDropped r' = rl_TotalDropped r + 2 ∧
  Channel_TotalDropped c' = Channel_TotalDropped disc_chan + 4.
Proof.
  apply (overlapping_sends_double_count disc_chan
           (ringbuf_push (ringbuf_push (NewCachedRing 2) 1) 2) [1; 2] 2 0 0 3 4).
  - pose proof (rl_new_repr (R:=CachedRing Z) (E:=Z) 2 0 ltac:(lia)) as H0.
    pose proof (rl_push_repr _ _ _ _ _ 0 1 H0 ltac:(lia) ltac:(lia)) as [H1 _].
    pose proof (rl_push_repr _ _ _ _ _ 0 2 H1 ltac:(lia) ltac:(lia)) as [H2 _].
    exact H2.
  - lia.
  - lia.
  - reflexivity.
  - cbn. lia.
Defined.

(** ** A concrete execution *)

Definition run_cfg : BpConfig := mkBpConfig PolicyDropOldest 1 0 0 f64_zero 0.
Definition run_chan : Channel (CachedRing Z) Z :=
  mkChannel run_cfg (Some (NewCachedRing 1)) [] 1 false 0 newDropBucketWindow None false 0.

(** Three events into a ring of one slot while the forwarder holds the first. *)
Definition run_final : chan_state (CachedRing Z) Z :=
  let c1 := fst (Channel_dispatch run_chan 7 0) in
  let r1 := default (NewCachedRing 1) (ch_ring c1) in
  let c2 := set_ring c1 (fst (CachedRing_Pop r1)) (ch_totalDropped c1) in
  let c3 := fst (Channel_dispatch c2 8 0) in
  mkCS (fst (Channel_dispatch c3 9 0)) [] (LoopHolding 7) NotClosing [7; 8; 9] [] 0 0 false.

Lemma run_final_reached : nsteps chan_step 7 (chan_init run_chan) run_final.
Proof.
  eapply nsteps_l; [left; by apply (step_check _ [] _ _ _ _ _ _ _ 7)|].
  eapply nsteps_l; [left; eapply (step_push _ _ [] [] _ _ _ _ _ _ _ 7 0 true); reflexivity|].
  eapply nsteps_l; [right; left; eapply (step_loop_pop _ _ _ _ _ _ _ _ _ _ 7); reflexivity|].
  eapply nsteps_l; [left; by apply (step_check _ [] _ _ _ _ _ _ _ 8)|].
  eapply nsteps_l; [left; eapply (step_push _ _ [] [] _ _ _ _ _ _ _ 8 0 true); reflexivity|].
  eapply nsteps_l; [left; by apply (step_check _ [] _ _ _ _ _ _ _ 9)|].
  eapply nsteps_l; [left; eapply (step_push _ _ [] [] _ _ _ _ _ _ _ 9 0 true); reflexivity|].
  apply nsteps_O.
Qed.

Lemma channel_fifo_conservation_witness :
  cs_received run_final `sublist_of` cs_accepted run_final ∧
  match ch_ring (cs_chan run_final) with
  | Some r => 3 = 0 + 0 + 1 + rl_Len r + (rl_TotalDropped r - 0) + 0
  | None => False
  end.
Proof.
  destruct (channel_fifo_conservation run_cfg run_chan 7 run_final) as [H1 H2];
    [reflexivity|cbn; lia|apply run_final_reached|lia|].
  exact (conj H1 H2).
Defined.

Lemma channel_delivers_backlog_witness :
  ∃ s' backlog, rtc chan_step run_final s' ∧
    Z.of_nat (length backlog) = Channel_Len (cs_chan run_final) ∧
    cs_received s' = [] ++ [] ++ [7] ++ backlog.
Proof.
  destruct (channel_delivers_backlog run_cfg run_chan 7 run_final) as (s' & bl & H1 & _ & H2 & H3);
    [reflexivity|cbn; lia|apply run_final_reached|lia|reflexivity|discriminate|].
  exact (ex_intro _ s' (ex_intro _ bl (conj H1 (conj H2 H3)))).
Defined.

(** ** CachedChannel: the channel over the cached ring *)

Definition CachedChannel (E : Type) : Type := Channel (CachedRing E) E.
Definition NewCachedChannel {E} (cfg : BpConfig) : outcome (CachedChannel E) := NewChannel cfg.
Definition CachedChannel_Send {E} : CachedChannel E → E → Z → CachedChannel E * bool := Channel_Send.
Definition CachedChannel_sendDropOldest {E}
    : CachedChannel E → CachedRing E → E → Z → CachedChannel E * bool := Channel_sendDropOldest.
Definition CachedChannel_sendDropNewest {E}
    : CachedChannel E → E → Z → CachedChannel E * bool := Channel_sendDropNewest.
Definition CachedChannel_sendDisconnect {E}
    : CachedChannel E → CachedRing E → E → Z → CachedChannel E * bool := Channel_sendDisconnect.
Definition CachedChannel_recordDrop {E} : CachedChannel E → Z → CachedChannel E := Channel_recordDrop.
Definition CachedChannel_Len {E} : CachedChannel E → Z := Channel_Len.
Definition CachedChannel_ResetDrops {E} : CachedChannel E → CachedChannel E := Channel_ResetDrops.
Definition CachedChannel_Close {E} : CachedChannel E → CachedChannel E := Channel_Close.
