(* ===== verification/ClientQueue.v ===== *)
(** * ClientQueue: per-client queues and their manager

    [internal/clientqueue/config.go] and [queue.go]: [Queue] and [CachedQueue]
    over the two backpressure channels, and [Manager], which keeps the queues of
    all clients in 16 shards. Queues are shared between the manager and the
    clients that hold them, so they live in a store and the manager keeps
    pointers. Metrics and logging are left out. *)

From S2P Require Import Prelude Bytes Sharded Float64 Ring Channel.

Record CqConfig := mkCqConfig {
  cq_QueueSize : Z;
  cq_Policy : Policy;
  cq_MaxConsecutiveDrops : Z;
  cq_DropWindow : Z;
  cq_DropThreshold : float64;
  cq_MaxAge : Z;
}.

Definition CqDefaultConfig : CqConfig :=
  mkCqConfig 64 PolicyDropOldest 0 0 f64_zero (100 * Millisecond).

Definition backpressureConfig (c : CqConfig) : BpConfig :=
  mkBpConfig (cq_Policy c) (cq_QueueSize c) (cq_MaxConsecutiveDrops c) (cq_DropWindow c)
    (cq_DropThreshold c) (cq_MaxAge c).

(** The defaults filled in by the constructors: a size of 256 for a size that is
    not positive, and the policy 0, which is PolicyDropOldest already. *)
Definition normalize_config (c : CqConfig) : CqConfig :=
  mkCqConfig (if cq_QueueSize c <=? 0 then 256 else cq_QueueSize c) (cq_Policy c)
    (cq_MaxConsecutiveDrops c) (cq_DropWindow c) (cq_DropThreshold c) (cq_MaxAge c).

Section queue.
Context {R E : Type} `{!RingLike R E}.

Record Queue := mkClientQueue {
  q_id : string;
  q_cfg : CqConfig;
  q_ch : Channel R E;
  q_closed : bool;
  q_enqueued : Z;
  q_sent : Z;
}.

Definition newWithMetrics (id : string) (cfg : CqConfig) : outcome Queue :=
  let cfg := normalize_config cfg in
  match NewChannel (backpressureConfig cfg) with
  | Panic => Panic
  | Ret ch => Ret (mkClientQueue id cfg ch false 0 0)
  end.

Definition Queue_New (id : string) (cfg : CqConfig) : outcome Queue :=
  newWithMetrics id (normalize_config cfg).

Definition Queue_Send (q : Queue) (ev : E) (now : Z) : Queue * bool :=
  if q_closed q then (q, false)
  else
    let enqueued := u64 (q_enqueued q + 1) in
    let '(ch, accepted) := Channel_Send (q_ch q) ev now in
    (mkClientQueue (q_id q) (q_cfg q) ch (q_closed q) enqueued
       (if accepted then u64 (q_sent q + 1) else q_sent q), accepted).

Definition Queue_Len (q : Queue) : Z := Channel_Len (q_ch q).
Definition Queue_Cap (q : Queue) : Z := Channel_Cap (q_ch q).
Definition Queue_TotalDropped (q : Queue) : Z := Channel_TotalDropped (q_ch q).
Definition Queue_ConsecutiveDrops (q : Queue) : Z := Channel_ConsecutiveDrops (q_ch q).

(** [Close]: closeOnce; the done channel and then the backpressure channel. *)
Definition Queue_Close (q : Queue) : Queue :=
  if q_closed q then q
  else mkClientQueue (q_id q) (q_cfg q) (Channel_Close (q_ch q)) true (q_enqueued q) (q_sent q).

Definition Queue_ResetDrops (q : Queue) : Queue :=
  mkClientQueue (q_id q) (q_cfg q) (Channel_ResetDrops (q_ch q)) (q_closed q) (q_enqueued q) (q_sent q).

(** ** The manager *)

Definition defaultManagerShards : nat := 16.

(** [fnv1a32(id) & shardMask] with shardMask = 15. *)
Definition manager_shard (id : string) : nat :=
  Z.to_nat (Z.land (fnv1a32 (bytes_of_string id)) (Z.of_nat defaultManagerShards - 1)).

(** The store of queues (by pointer) and the manager's shards. *)
Record Manager := mkManager {
  m_heap : gmap nat Queue;
  m_next : nat;
  m_shards : list (gmap string nat);
  m_cfg : CqConfig;
}.

Definition NewManager (cfg : CqConfig) : Manager :=
  mkManager ∅ 0 (replicate defaultManagerShards ∅) cfg.

Definition close_at (heap : gmap nat Queue) (p : nat) : gmap nat Queue :=
  alter Queue_Close p heap.

Definition Manager_Create (m : Manager) (clientID : string) : outcome (Manager * nat) :=
  let si := manager_shard clientID in
  let sh := default ∅ (m_shards m !! si) in
  let heap := match sh !! clientID with
              | Some old => close_at (m_heap m) old
              | None => m_heap m
              end in
  match newWithMetrics clientID (m_cfg m) with
  | Panic => Panic
  | Ret q =>
      let p := m_next m in
      Ret (mkManager (<[p := q]> heap) (S p) (<[si := <[clientID := p]> sh]> (m_shards m))
             (m_cfg m), p)
  end.

Definition Manager_Get (m : Manager) (clientID : string) : option nat :=
  m_shards m !! manager_shard clientID ≫= lookup clientID.

Definition Manager_Remove (m : Manager) (clientID : string) : Manager :=
  let si := manager_shard clientID in
  let sh := default ∅ (m_shards m !! si) in
  match sh !! clientID with
  | Some q => mkManager (close_at (m_heap m) q) (m_next m)
                (<[si := delete clientID sh]> (m_shards m)) (m_cfg m)
  | None => m
  end.

Definition Manager_Count (m : Manager) : nat := sum_list (size <$> m_shards m).

(** The order in which a shard's map is walked is not specified. *)
Definition Manager_entries (m : Manager) : list (string * nat) :=
  concat (map_to_list <$> m_shards m).
Definition Manager_Snapshot (m : Manager) : list string := fst <$> Manager_entries m.

Record ClientStats := mkClientStats {
  cst_ID : string;
  cst_Enqueued : Z;
  cst_Sent : Z;
  cst_Dropped : Z;
  cst_Depth : Z;
  cst_Consecutive : Z;
}.

Definition client_stats (id : string) (q : Queue) : ClientStats :=
  mkClientStats id (q_enqueued q) (q_sent q) (Queue_TotalDropped q) (Queue_Len q)
    (Queue_ConsecutiveDrops q).

Definition Manager_PerClientStats (m : Manager) : list ClientStats :=
  omap (λ e, client_stats e.1 <$> m_heap m !! e.2) (Manager_entries m).

Record AggregateStats := mkAggregateStats {
  ag_ActiveQueues : Z;
  ag_TotalEnqueued : Z;
  ag_TotalSent : Z;
  ag_TotalDropped : Z;
  ag_TotalDepth : Z;
  ag_AvgDepth : float64;
}.

Definition aggregate_add (a : AggregateStats) (q : Queue) : AggregateStats :=
  mkAggregateStats (i64 (ag_ActiveQueues a + 1)) (u64 (ag_TotalEnqueued a + q_enqueued q))
    (u64 (ag_TotalSent a + q_sent q)) (u64 (ag_TotalDropped a + Queue_TotalDropped q))
    (i64 (ag_TotalDepth a + Queue_Len q)) (ag_AvgDepth a).

Definition Manager_AggregateStats (m : Manager) : AggregateStats :=
  let a := fold_left aggregate_add (omap (λ e, m_heap m !! e.2) (Manager_entries m))
             (mkAggregateStats 0 0 0 0 0 f64_zero) in
  if 0 <? ag_ActiveQueues a then
    mkAggregateStats (ag_ActiveQueues a) (ag_TotalEnqueued a) (ag_TotalSent a)
      (ag_TotalDropped a) (ag_TotalDepth a)
      (f64_div (f64_of_Z (ag_TotalDepth a)) (f64_of_Z (ag_ActiveQueues a)))
  else a.

(** [CloseAll]: the shards are emptied and every queue found is closed, by its
    own goroutine; the five seconds bound only the wait for them. *)
Definition Manager_CloseAll (m : Manager) : Manager :=
  mkManager (fold_left close_at (snd <$> Manager_entries m) (m_heap m)) (m_next m)
    ((λ _, ∅) <$> m_shards m) (m_cfg m).

(** ** Construction *)

(** Which configurations a queue can be made with. The size never matters
    (a size that is not positive becomes 256): [New] panics exactly when the
    policy is Disconnect without a positive drop limit or the drop threshold is
    outside [0, 1]. *)
Lemma queue_new_panics_iff id cfg :
  Queue_New id cfg = Panic ↔
    (cq_Policy cfg = PolicyDisconnect ∧ cq_MaxConsecutiveDrops cfg ≤ 0) ∨
    f64_ltb (cq_DropThreshold cfg) f64_zero = true ∨
    f64_ltb f64_one (cq_DropThreshold cfg) = true.
Proof.
  assert (Hpanic : Queue_New id cfg = Panic ↔
            BpConfig_Validate (backpressureConfig (normalize_config (normalize_config cfg))) ≠ None).
  { unfold Queue_New, newWithMetrics, NewChannel.
    destruct (BpConfig_Validate _); [by split|]. destruct (bp_Policy _); by split. }
  rewrite Hpanic. clear Hpanic. unfold BpConfig_Validate, backpressureConfig, normalize_config.
  cbn [bp_Policy bp_BufferSize bp_MaxConsecutiveDrops bp_DropThreshold
       cq_QueueSize cq_Policy cq_MaxConsecutiveDrops cq_DropThreshold].
  destruct (Z.leb_spec (cq_QueueSize cfg) 0) as [Hs|Hs];
    cbv iota; [|rewrite !(proj2 (Z.leb_gt (cq_QueueSize cfg) 0)) by done];
    cbn [Z.leb Z.compare];
    (case_bool_decide as Hp; [destruct (Z.leb_spec (cq_MaxConsecutiveDrops cfg) 0)|]); cbn [andb];
    destruct (f64_ltb (cq_DropThreshold cfg) f64_zero), (f64_ltb f64_one (cq_DropThreshold cfg));
    cbn [orb]; (split; [intros Hq|intros [[? ?]|[?|?]]]); try done; try lia; tauto.
Qed.

(** ** The manager's invariant *)

Lemma manager_shard_lt id : (manager_shard id < defaultManagerShards)%nat.
Proof.
  unfold manager_shard, defaultManagerShards.
  change (Z.of_nat 16 - 1) with (Z.ones 4). rewrite Z.land_ones by lia.
  pose proof (Z.mod_pos_bound (fnv1a32 (bytes_of_string id)) (2 ^ 4)). lia.
Qed.

Definition m_flat (m : Manager) (f : gmap string nat) : Prop :=
  flat defaultManagerShards manager_shard (m_shards m) f.

(** The registered queues are exactly the open ones, each under its own ID. *)
Record mgr_ok (m : Manager) (f : gmap string nat) : Prop := {
  mo_flat : m_flat m f;
  mo_reg : ∀ id p, f !! id = Some p → ∃ q, m_heap m !! p = Some q ∧ q_id q = id ∧ q_closed q = false;
  mo_open : ∀ p q, m_heap m !! p = Some q → q_closed q = false → f !! q_id q = Some p;
  mo_next : ∀ p q, m_heap m !! p = Some q → (p < m_next m)%nat;
}.

Lemma Queue_Close_closed q : q_closed (Queue_Close q) = true ∧ q_id (Queue_Close q) = q_id q.
Proof. unfold Queue_Close. by destruct (q_closed q) eqn:?. Qed.

Lemma NewManager_ok cfg : mgr_ok (NewManager cfg) ∅.
Proof.
  split.
  - apply flat_empty, manager_shard_lt.
  - intros id p Hp. by rewrite lookup_empty in Hp.
  - intros p q Hp. cbn in Hp. by rewrite lookup_empty in Hp.
  - intros p q Hp. cbn in Hp. by rewrite lookup_empty in Hp.
Qed.

Lemma mgr_shard_get m f id :
  m_flat m f → ∃ sh, m_shards m !! manager_shard id = Some sh ∧ sh !! id = f !! id.
Proof. intros H. apply (flat_shard _ _ manager_shard_lt _ _ id H). Qed.

(** Replacing a registered queue by a closed version of itself, or dropping it
    from the register, keeps the two views in step. *)
Lemma close_registered m f id p q :
  mgr_ok m f → f !! id = Some p → m_heap m !! p = Some q →
  (∀ id' p', delete id f !! id' = Some p' →
     ∃ q', close_at (m_heap m) p !! p' = Some q' ∧ q_id q' = id' ∧ q_closed q' = false) ∧
  (∀ p' q', close_at (m_heap m) p !! p' = Some q' → q_closed q' = false →
     delete id f !! q_id q' = Some p') ∧
  (∀ p' q', close_at (m_heap m) p !! p' = Some q' → (p' < m_next m)%nat).
Proof.
  intros H Hid Hp. destruct (mo_reg _ _ H id p Hid) as (q0 & Hq0 & Hqid & _).
  rewrite Hp in Hq0. injection Hq0 as <-. unfold close_at. split_and!.
  - intros id' p' [Hne Hid']%lookup_delete_Some.
    destruct (mo_reg _ _ H id' p' Hid') as (q' & Hq' & Hi & Hc).
    exists q'. split; [|done]. rewrite lookup_alter_ne; [done|]. intros ->.
    rewrite Hp in Hq'. injection Hq' as <-. congruence.
  - intros p' q' Hq' Hc. destruct (decide (p = p')) as [<-|Hne].
    + rewrite lookup_alter_eq, Hp in Hq'. cbn in Hq'. injection Hq' as <-.
      destruct (Queue_Close_closed q). congruence.
    + rewrite lookup_alter_ne in Hq' by done. pose proof (mo_open _ _ H p' q' Hq' Hc) as Hf.
      apply lookup_delete_Some. split; [|done]. intros ->. congruence.
  - intros p' q' Hq'. destruct (decide (p = p')) as [<-|Hne].
    + by apply (mo_next _ _ H _ q).
    + rewrite lookup_alter_ne in Hq' by done. by apply (mo_next _ _ H p' q').
Qed.

Lemma Manager_Create_ok m f id m' p :
  mgr_ok m f → Manager_Create m id = Ret (m', p) → mgr_ok m' (<[id := p]> f).
Proof.
  intros H. unfold Manager_Create.
  destruct (mgr_shard_get m f id (mo_flat _ _ H)) as (sh & Hsh & Hget). rewrite Hsh.
  change (default ∅ (Some sh)) with sh. rewrite Hget.
  destruct (newWithMetrics id (m_cfg m)) as [qn|] eqn:Hnew; [|done]. intros [= <- <-].
  assert (Hqn : q_id qn = id ∧ q_closed qn = false).
  { unfold newWithMetrics in Hnew. destruct (NewChannel _); [|done]. by injection Hnew as <-. }
  destruct Hqn as [Hqid Hqc].
  set (heap := match f !! id with Some old => close_at (m_heap m) old | None => m_heap m end).
  assert (Hheap :
    (∀ id' p', delete id f !! id' = Some p' →
       ∃ q', heap !! p' = Some q' ∧ q_id q' = id' ∧ q_closed q' = false) ∧
    (∀ p' q', heap !! p' = Some q' → q_closed q' = false → delete id f !! q_id q' = Some p') ∧
    (∀ p' q', heap !! p' = Some q' → (p' < m_next m)%nat)).
  { unfold heap. destruct (f !! id) as [old|] eqn:Hf.
    - destruct (mo_reg _ _ H id old Hf) as (q & Hq & _). by apply (close_registered m f id old q).
    - rewrite delete_id by done. split_and!; apply H. }
  destruct Hheap as (Hreg & Hopen & Hnext).
  assert (Hfresh : ∀ p' q', heap !! p' = Some q' → p' ≠ m_next m).
  { intros p' q' Hq' ->. specialize (Hnext _ _ Hq'). lia. }
  split; cbn [m_heap m_next].
  - unfold m_flat. cbn [m_shards].
    apply flat_insert; [apply manager_shard_lt|apply H|done].
  - intros id' p' Hid'. destruct (decide (id' = id)) as [->|Hne].
    + rewrite lookup_insert_eq in Hid'. injection Hid' as <-. exists qn. by rewrite lookup_insert_eq.
    + rewrite lookup_insert_ne in Hid' by done.
      destruct (Hreg id' p' ltac:(by rewrite lookup_delete_ne)) as (q' & Hq' & ?).
      exists q'. split; [|done]. rewrite lookup_insert_ne; [done|]. by apply not_eq_sym, (Hfresh p' q').
  - intros p' q' [(<- & <-)|[Hne Hq']]%lookup_insert_Some Hc.
    + rewrite Hqid. by rewrite lookup_insert_eq.
    + pose proof (Hopen p' q' Hq' Hc) as Hf. apply lookup_delete_Some in Hf as [Hni Hf].
      by rewrite lookup_insert_ne.
  - intros p' q' [(<- & <-)|[Hne Hq']]%lookup_insert_Some; [lia|]. specialize (Hnext _ _ Hq'). lia.
Qed.

Lemma Manager_Remove_ok m f id :
  mgr_ok m f → mgr_ok (Manager_Remove m id) (delete id f).
Proof.
  intros H. unfold Manager_Remove.
  destruct (mgr_shard_get m f id (mo_flat _ _ H)) as (sh & Hsh & Hget). rewrite Hsh.
  change (default ∅ (Some sh)) with sh. rewrite Hget.
  destruct (f !! id) as [p|] eqn:Hf; [|by rewrite delete_id].
  destruct (mo_reg _ _ H id p Hf) as (q & Hq & _).
  destruct (close_registered m f id p q H Hf Hq) as (Hreg & Hopen & Hnext).
  split; cbn [m_heap m_next]; try done.
  unfold m_flat. cbn [m_shards]. apply flat_delete; [apply manager_shard_lt|apply H|done].
Qed.

Lemma fold_close_lookup ps (heap : gmap nat Queue) p :
  fold_left close_at ps heap !! p =
    (λ q, if decide (p ∈ ps) then Queue_Close q else q) <$> heap !! p.
Proof.
  revert heap. induction ps as [|p0 ps IH]; intros heap; cbn [fold_left].
  { by destruct (heap !! p). }
  rewrite IH. unfold close_at. destruct (decide (p = p0)) as [->|Hne].
  - rewrite lookup_alter_eq. destruct (heap !! p0) as [q|]; [|done]. cbn. f_equal.
    rewrite (decide_True _ _ (list_elem_of_here _ _)). case_decide; [|done].
    unfold Queue_Close. by destruct (q_closed q) eqn:E1; cbn; rewrite ?E1.
  - rewrite lookup_alter_ne by done. destruct (heap !! p) as [q|]; [|done]. cbn. f_equal.
    assert (Hiff : p ∈ ps ↔ p ∈ p0 :: ps) by (rewrite elem_of_cons; tauto).
    by rewrite (decide_ext _ _ _ _ Hiff).
Qed.

Lemma entries_flat m f : m_flat m f → Manager_entries m ≡ₚ map_to_list f.
Proof. intros H. apply (flat_to_list _ _ manager_shard_lt _ _ H). Qed.

Lemma Manager_CloseAll_ok m f : mgr_ok m f → mgr_ok (Manager_CloseAll m) ∅.
Proof.
  intros H. split; cbn [Manager_CloseAll m_heap m_next].
  - apply (flat_clear _ _ manager_shard_lt _ f), H.
  - intros id p Hp. by rewrite lookup_empty in Hp.
  - intros p q Hq Hc. exfalso. rewrite fold_close_lookup in Hq.
    destruct (m_heap m !! p) as [q0|] eqn:Hq0; [|done]. cbn in Hq. injection Hq as <-.
    case_decide as Hin; [destruct (Queue_Close_closed q0); congruence|].
    apply Hin. pose proof (mo_open _ _ H p q0 Hq0 Hc) as Hf.
    apply list_elem_of_fmap. exists (q_id q0, p). split; [done|].
    rewrite (entries_flat m f (mo_flat _ _ H)). by apply elem_of_map_to_list.
  - intros p q Hq. rewrite fold_close_lookup in Hq.
    destruct (m_heap m !! p) as [q0|] eqn:Hq0; [|done]. by apply (mo_next _ _ H p q0).
Qed.

(** *** Runs *)

(** [OpSend] is a client sending through a queue pointer it holds, registered or
    not. *)
Inductive mgr_op :=
| OpCreate (clientID : string)
| OpRemove (clientID : string)
| OpCloseAll
| OpSend (p : nat) (ev : E) (now : Z).

Definition mgr_exec (m : Manager) (op : mgr_op) : outcome Manager :=
  match op with
  | OpCreate id => match Manager_Create m id with Ret (m, _) => Ret m | Panic => Panic end
  | OpRemove id => Ret (Manager_Remove m id)
  | OpCloseAll => Ret (Manager_CloseAll m)
  | OpSend p ev now =>
      Ret (mkManager (alter (λ q, fst (Queue_Send q ev now)) p (m_heap m)) (m_next m)
             (m_shards m) (m_cfg m))
  end.

Fixpoint mgr_run (m : Manager) (ops : list mgr_op) : outcome Manager :=
  match ops with
  | [] => Ret m
  | op :: ops => match mgr_exec m op with Ret m => mgr_run m ops | Panic => Panic end
  end.

Lemma Queue_Send_keeps q ev now :
  q_id (fst (Queue_Send q ev now)) = q_id q ∧ q_closed (fst (Queue_Send q ev now)) = q_closed q.
Proof.
  unfold Queue_Send. destruct (q_closed q) eqn:Hc; [done|].
  by destruct (Channel_Send _ _ _) as [ch b].
Qed.

Lemma mgr_send_ok m f p ev now :
  mgr_ok m f →
  mgr_ok (mkManager (alter (λ q, fst (Queue_Send q ev now)) p (m_heap m)) (m_next m)
            (m_shards m) (m_cfg m)) f.
Proof.
  intros H. set (g := λ q, fst (Queue_Send q ev now)).
  assert (Hl : ∀ p', alter g p (m_heap m) !! p' =
                     (λ q, if decide (p = p') then g q else q) <$> m_heap m !! p').
  { intros p'. destruct (decide (p = p')) as [<-|Hne].
    - by rewrite lookup_alter_eq.
    - rewrite lookup_alter_ne by done. by destruct (m_heap m !! p'). }
  assert (Hk : ∀ p' q, q_id (if decide (p = p') then g q else q) = q_id q ∧
                       q_closed (if decide (p = p') then g q else q) = q_closed q).
  { intros p' q. case_decide; [apply Queue_Send_keeps|done]. }
  split; cbn [m_heap m_next].
  - apply H.
  - intros id p' Hid. destruct (mo_reg _ _ H id p' Hid) as (q & Hq & Hi & Hc).
    eexists. rewrite Hl, Hq. split; [reflexivity|]. destruct (Hk p' q). split; congruence.
  - intros p' q Hq Hc. rewrite Hl in Hq. destruct (m_heap m !! p') as [q0|] eqn:Hq0; [|done].
    cbn in Hq. injection Hq as <-. destruct (Hk p' q0) as [Hi Hcl]. rewrite Hi.
    apply (mo_open _ _ H p' q0 Hq0). congruence.
  - intros p' q Hq. rewrite Hl in Hq. destruct (m_heap m !! p') as [q0|] eqn:Hq0; [|done].
    by apply (mo_next _ _ H p' q0).
Qed.

Lemma mgr_run_ok m f ops m' : mgr_ok m f → mgr_run m ops = Ret m' → ∃ f', mgr_ok m' f'.
Proof.
  revert m f. induction ops as [|op ops IH]; intros m f H; cbn [mgr_run].
  { intros [= <-]. by exists f. }
  destruct op as [id|id| |p ev now]; cbn [mgr_exec].
  - destruct (Manager_Create m id) as [[m1 p]|] eqn:Hc; [|done].
    eapply IH. by eapply Manager_Create_ok.
  - eapply IH. by apply Manager_Remove_ok.
  - eapply IH. by eapply Manager_CloseAll_ok.
  - eapply IH. by apply mgr_send_ok.
Qed.

Lemma count_entries m : Manager_Count m = length (Manager_entries m).
Proof.
  unfold Manager_Count, Manager_entries. induction (m_shards m) as [|sh ss IH]; [done|].
  rewrite !fmap_cons, concat_cons, length_app, length_map_to_list. simpl. by rewrite IH.
Qed.

(** No client queue leaks and none is closed under its client's feet. After
    any sequence of Create, Remove, CloseAll and sends through held pointers,
    looking up an ID finds a queue exactly when an open queue with that ID
    exists (and then that one); [Snapshot] lists each such ID once and [Count]
    is their number. *)
Lemma manager_registers_exactly_open_queues cfg ops m :
  mgr_run (NewManager cfg) ops = Ret m →
  (∀ id p, Manager_Get m id = Some p ↔
     ∃ q, m_heap m !! p = Some q ∧ q_id q = id ∧ q_closed q = false) ∧
  NoDup (Manager_Snapshot m) ∧
  (∀ id, id ∈ Manager_Snapshot m ↔ is_Some (Manager_Get m id)) ∧
  Manager_Count m = length (Manager_Snapshot m).
Proof.
  intros Hrun. destruct (mgr_run_ok _ ∅ ops m (NewManager_ok cfg) Hrun) as [f H].
  assert (Hget : ∀ id, Manager_Get m id = f !! id).
  { intros id. apply (flat_get _ _ _ _ (mo_flat _ _ H)). }
  pose proof (entries_flat m f (mo_flat _ _ H)) as Hperm. split_and!.
  - intros id p. rewrite Hget. split; [apply (mo_reg _ _ H)|].
    intros (q & Hq & <- & Hc). by apply (mo_open _ _ H).
  - unfold Manager_Snapshot. rewrite Hperm. apply NoDup_fst_map_to_list.
  - intros id. unfold Manager_Snapshot. rewrite Hperm, Hget, list_elem_of_fmap. split.
    + intros ([id' p] & -> & Hin). apply elem_of_map_to_list in Hin. by exists p.
    + intros [p Hp]. exists (id, p). split; [done|]. by apply elem_of_map_to_list.
  - unfold Manager_Snapshot. by rewrite count_entries, length_fmap.
Qed.

(** ** Accounting of one queue *)

Fixpoint queue_sends (q : Queue) (evs : list (E * Z)) : Queue * Z :=
  match evs with
  | [] => (q, 0)
  | (ev, now) :: evs =>
      let '(q, ok) := Queue_Send q ev now in
      let '(q, rejected) := queue_sends q evs in
      (q, if ok then rejected else rejected + 1)
  end.

(** A queue counts every event offered to it while it is open: [enqueued]
    grows by the number of sends, and each of them is either counted in [sent]
    or rejected. *)
Lemma queue_accounts_for_sends q evs :
  q_closed q = false → 0 ≤ q_enqueued q → 0 ≤ q_sent q ≤ q_enqueued q →
  q_enqueued q + Z.of_nat (length evs) < 2 ^ 64 →
  let '(q', rejected) := queue_sends q evs in
  q_enqueued q' = q_enqueued q + Z.of_nat (length evs) ∧
  q_sent q' + rejected = q_sent q + Z.of_nat (length evs).
Proof.
  revert q. induction evs as [|[ev now] evs IH]; intros q Hc He Hs Hb; cbn [queue_sends length] in *.
  { lia. }
  unfold Queue_Send. rewrite Hc. destruct (Channel_Send (q_ch q) ev now) as [ch ok].
  set (q1 := mkClientQueue _ _ _ _ _ _).
  assert (Hq1 : q_enqueued q1 = q_enqueued q + 1 ∧
                q_sent q1 = q_sent q + (if ok then 1 else 0)).
  { cbn. rewrite u64_small by go_lia. destruct ok; [rewrite u64_small by go_lia|]; lia. }
  destruct Hq1 as [Hq1 Hq2].
  specialize (IH q1 eq_refl ltac:(lia) ltac:(destruct ok; lia) ltac:(lia)).
  destruct (queue_sends q1 evs) as [q2 rej]. destruct ok; lia.
Qed.
End queue.
Arguments Queue : clear implicits.
Arguments Manager : clear implicits.

(** ** CachedQueue: the queue over the cached channel *)

Definition CachedQueue (E : Type) : Type := Queue (CachedRing E) E.
Definition NewCachedQueue {E} (id : string) (cfg : CqConfig) : outcome (CachedQueue E) :=
  Queue_New id cfg.
Definition newCachedQueueWithMetrics {E} (id : string) (cfg : CqConfig) : outcome (CachedQueue E) :=
  newWithMetrics id cfg.
Definition CachedQueue_Send {E} : CachedQueue E → E → Z → CachedQueue E * bool := Queue_Send.
Definition CachedQueue_Close {E} : CachedQueue E → CachedQueue E := Queue_Close.
Definition CachedQueue_ResetDrops {E} : CachedQueue E → CachedQueue E := Queue_ResetDrops.

Lemma queue_accounts_for_sends_witness :
  let q := mkClientQueue "c" CqDefaultConfig run_chan false 0 0 in
  let '(q', rejected) := queue_sends q [(1, 0); (2, 0); (3, 0)] in
  q_enqueued q' = q_enqueued q + 3 ∧ q_sent q' + rejected = q_sent q + 3.
Proof.
  apply (queue_accounts_for_sends (mkClientQueue "c" CqDefaultConfig run_chan false 0 0)
           [(1, 0); (2, 0); (3, 0)]); cbn; lia || reflexivity.
Defined.

(** Two clients, one of them reconnecting. *)
Definition mgr_demo_ops : list (@mgr_op Z) :=
  [OpCreate "alice"; OpCreate "bob"; OpSend 0 42 0; OpCreate "alice"; OpRemove "bob"].
Definition mgr_demo : Manager (CachedRing Z) Z :=
  match mgr_run (NewManager CqDefaultConfig) mgr_demo_ops with Ret m => m | Panic => NewManager CqDefaultConfig end.

Lemma manager_registers_exactly_open_queues_witness :
  mgr_run (NewManager CqDefaultConfig) mgr_demo_ops = Ret mgr_demo ∧
  Manager_Count mgr_demo = length (Manager_Snapshot mgr_demo) ∧
  (∀ id, id ∈ Manager_Snapshot mgr_demo ↔ is_Some (Manager_Get mgr_demo id)).
Proof.
  assert (Hrun : mgr_run (NewManager CqDefaultConfig) mgr_demo_ops = Ret mgr_demo)
    by (vm_compute; reflexivity).
  destruct (manager_registers_exactly_open_queues CqDefaultConfig mgr_demo_ops mgr_demo Hrun)
    as (_ & _ & H3 & H4).
  exact (conj Hrun (conj H4 H3)).
Defined.
