(* ===== verification/MarketEvent.v ===== *)
(** * MarketEvent: the events of the distribution layer

    [pkg/marketdata/event.go], [types.go] and [cached.go]: the interface the
    routing code needs of an event, the pre-encoded event, and [NewCachedEvent],
    which encodes an event once for all its subscribers. *)

From Stdlib Require Import Strings.Byte.
From S2P Require Import Prelude Bytes.

(** The [MarketEvent] interface of a concrete event type, with what the encoders
    of other packages return for it: [json.NewEncoder(buf).Encode] (the bytes it
    writes, [None] on error) and the two injected encoders ([None] when the
    variable is nil). *)
Class MarketEventOps (E : Type) := {
  EventSymbol : E → string;
  EventType : E → string;
  json_Encode : E → option (list byte);
  ProtobufEncoder : option (E → option (list byte));
  FlatBuffersEncoder : option (E → option (list byte));
}.

Record PreEncodedEvent := mkPreEncoded {
  pe_Symbol : string;
  pe_Typ : string;
  pe_SeqNum : Z;
  pe_Time : Z;
  pe_JSON : list byte;
  pe_Protobuf : list byte;
  pe_FlatBuffers : list byte;
}.

Section events.
Context {E : Type} `{!MarketEventOps E}.

(** What a [CachedEvent] wraps: a concrete event or a pre-encoded one. *)
Inductive BaseEvent :=
| Concrete (ev : E)
| PreEncoded (pe : PreEncodedEvent).

Record CachedEvent := mkCachedEvent {
  ce_Event : BaseEvent;
  ce_JSON : list byte;
  ce_Protobuf : list byte;
  ce_FlatBuffers : list byte;
}.

(** A value of the interface type: the cases [NewCachedEvent] distinguishes. *)
Inductive MarketEvent :=
| Base (b : BaseEvent)
| Cached (ce : CachedEvent).

Definition base_symbol (b : BaseEvent) : string :=
  match b with Concrete ev => EventSymbol ev | PreEncoded pe => pe_Symbol pe end.
Definition base_type (b : BaseEvent) : string :=
  match b with Concrete ev => EventType ev | PreEncoded pe => pe_Typ pe end.

Definition event_symbol (ev : MarketEvent) : string :=
  match ev with Base b => base_symbol b | Cached ce => base_symbol (ce_Event ce) end.
Definition event_type (ev : MarketEvent) : string :=
  match ev with Base b => base_type b | Cached ce => base_type (ce_Event ce) end.

(** The double quote and the pieces of the ServerMessage envelope. *)
Definition dquote : string := String (Ascii.ascii_of_nat 34) "".
Definition envelope_type : string := "{" +:+ dquote +:+ "type" +:+ dquote +:+ ":" +:+ dquote.
Definition envelope_payload : string :=
  dquote +:+ "," +:+ dquote +:+ "payload" +:+ dquote +:+ ":".
Definition newline : byte := Byte.x0a.
Definition close_brace : byte := Byte.x7d.

(** The newline that [json.Encoder] adds is cut off again. *)
Definition trim_newline (b : list byte) : list byte :=
  match last b with
  | Some c => if decide (c = newline) then take (length b - 1) b else b
  | None => b
  end.

Definition encode_with (enc : option (E → option (list byte))) (ev : E) : list byte :=
  match enc with
  | Some serialize => default [] (serialize ev)
  | None => []
  end.

Definition NewCachedEvent (ev : MarketEvent) : CachedEvent :=
  match ev with
  | Cached ce => ce
  | Base (PreEncoded pe) =>
      mkCachedEvent (PreEncoded pe) (pe_JSON pe) (pe_Protobuf pe) (pe_FlatBuffers pe)
  | Base (Concrete ev) =>
      let buf := bytes_of_string (envelope_type +:+ EventType ev +:+ envelope_payload) in
      match json_Encode ev with
      | None => mkCachedEvent (Concrete ev) [] [] []
      | Some written =>
          let b := trim_newline (buf ++ written) ++ [close_brace] in
          mkCachedEvent (Concrete ev) b (encode_with ProtobufEncoder ev)
            (encode_with FlatBuffersEncoder ev)
      end
  end.

(** Wrapping keeps the routing key and the type, and wrapping again changes
    nothing: an event is encoded at most once on its way. *)
Lemma NewCachedEvent_routing ev :
  event_symbol (Cached (NewCachedEvent ev)) = event_symbol ev ∧
  event_type (Cached (NewCachedEvent ev)) = event_type ev ∧
  NewCachedEvent (Cached (NewCachedEvent ev)) = NewCachedEvent ev.
Proof. destruct ev as [[ev|pe]|ce]; cbn; [destruct (json_Encode ev)|..]; done. Qed.

(** The JSON of a successfully encoded event is the envelope around exactly what
    the encoder wrote before its final newline. *)
Lemma NewCachedEvent_json ev body :
  json_Encode ev = Some (body ++ [newline]) →
  ce_JSON (NewCachedEvent (Base (Concrete ev))) =
    bytes_of_string (envelope_type +:+ EventType ev +:+ envelope_payload) ++ body ++ [close_brace].
Proof.
  intros H. cbn. rewrite H. cbn [ce_JSON]. unfold trim_newline.
  rewrite (assoc_L (++)), last_snoc, decide_True by done.
  rewrite length_app. cbn [length].
  rewrite take_app_length' by lia. by rewrite (assoc_L (++)).
Qed.
End events.

Arguments BaseEvent : clear implicits.
Arguments CachedEvent : clear implicits.
Arguments MarketEvent : clear implicits.
