(* ===== verification/TopicManager.v ===== *)
(** * TopicManager: topic routing with copy-on-write subscriber lists

    [internal/topicmanager/memory.go]: [MemoryManager] keeps, per topic, an
    atomic pointer to an immutable list of subscribers, and per subscriber ID the
    subscriber with its topics. Subscribers, atomic pointers and lists are shared
    objects: each lives in a store under its address, and lists are compared by
    address, as [CompareAndSwap] compares them. Prometheus instruments are left
    out, except that registering a name twice panics. *)

From S2P Require Import Prelude Bytes Sharded Float64 Ring Channel ClientQueue MarketEvent.

Definition defaultShardCount : Z := 16.
Definition defaultBuffer : Z := 64.

Definition nextPowerOf2 (n : Z) : Z :=
  if n <=? 0 then 0
  else
    let n := i64 (n - 1) in
    let n := smear n 1 in
    let n := smear n 2 in
    let n := smear n 4 in
    let n := smear n 8 in
    let n := smear n 16 in
    i64 (n + 1).

(** 64-bit FNV-1a, as written out in the file. *)
Definition fnv1a (s : string) : Z :=
  fold_left (λ h b, u64 (Z.lxor h (byte_to_Z b) * 1099511628211)) (bytes_of_string s)
    14695981039346656037.

(** [prometheus.Registerer] through [promauto]: registering metrics under the
    given names, [None] when it panics. The law is the documented one: a name
    that is registered already makes it panic. *)
Class Registerer (G : Type) := {
  promauto_register : G → list string → option G;
}.
Class RegistererLaws (G : Type) `{!Registerer G} := {
  register_twice : ∀ g names g', promauto_register g names = Some g' → names ≠ [] →
    promauto_register g' names = None;
}.

(** The names [newQueueMetrics] and [backpressure.NewMetrics] register. *)
Definition queue_metric_names : list string :=
  ["rtmds_client_queue_enqueued_total"; "rtmds_client_queue_sent_total";
   "rtmds_client_queue_dropped_total"; "rtmds_client_queue_closed_total";
   "rtmds_client_queue_total_depth"; "rtmds_backpressure_dropped_messages_total";
   "rtmds_backpressure_buffer_occupancy_ratio"; "rtmds_backpressure_consecutive_drops";
   "rtmds_backpressure_consumer_disconnects_total"; "rtmds_backpressure_send_latency_seconds"].

Section topic_manager.
Context {G E : Type} `{!Registerer G, !MarketEventOps E}.

(** An immutable list of subscribers, with its address. *)
Record subList := mkSubList { sl_addr : nat; sl_subs : list nat }.

Record handle := mkHandle { h_sub : nat; h_id : string }.

(** [ch] is the buffered channel of the legacy mode; [done] is closed exactly
    when [closed] is set. *)
Record subscriber := mkSubscriber {
  sub_ch : list (CachedEvent E);
  sub_topics : gset string;
  sub_closed : bool;
  sub_handle : option handle;
  sub_queue : option (CachedQueue (CachedEvent E));
  sub_legacyDropped : Z;
}.

(** [tm_shards]: topic to the address of its atomic pointer; [tm_aps]: the value
    of each atomic pointer ([None] is nil); [tm_subs]: the subscribers. One
    counter gives all fresh addresses. *)
Record MemoryManager := mkTM {
  tm_shards : list (gmap string nat);
  tm_shardMask : Z;
  tm_subShards : list (gmap string nat);
  tm_subShardMask : Z;
  tm_queueCfg : option CqConfig;
  tm_reg : option G;
  tm_aps : gmap nat (option subList);
  tm_subs : gmap nat subscriber;
  tm_next : nat;
}.

Definition TM_New (shards : Z) : MemoryManager :=
  let n := nextPowerOf2 shards in
  let n := if n <=? 0 then defaultShardCount else n in
  mkTM (replicate (Z.to_nat n) ∅) (u64 (n - 1)) (replicate (Z.to_nat n) ∅) (u64 (n - 1))
    None None ∅ ∅ 0.

(** The two instruments of the manager itself are registered when [reg] is not
    nil. *)
Definition NewWithQueue (shards : Z) (queueCfg : option CqConfig) (reg : option G)
    : outcome MemoryManager :=
  let tm := TM_New shards in
  let cfg := default CqDefaultConfig queueCfg in
  let with_reg reg := mkTM (tm_shards tm) (tm_shardMask tm) (tm_subShards tm) (tm_subShardMask tm)
                        (Some cfg) reg (tm_aps tm) (tm_subs tm) (tm_next tm) in
  match reg with
  | None => Ret (with_reg None)
  | Some g =>
      match promauto_register g ["rtmds_topic_publish_latency_seconds";
                                 "rtmds_topic_publish_operations_total"] with
      | Some g => Ret (with_reg (Some g))
      | None => Panic
      end
  end.

Definition hashTopic (tm : MemoryManager) (t : string) : nat :=
  Z.to_nat (Z.land (fnv1a t) (tm_shardMask tm)).
Definition hashSubscriber (tm : MemoryManager) (id : string) : nat :=
  Z.to_nat (Z.land (fnv1a id) (tm_subShardMask tm)).

(** *** Atomic operations of one shard's sync.Map and of the atomic pointers *)

Definition topics_Load (tm : MemoryManager) (t : string) : option nat :=
  tm_shards tm !! hashTopic tm t ≫= lookup t.

Definition set_topics (tm : MemoryManager) (shards : list (gmap string nat))
    (aps : gmap nat (option subList)) (next : nat) : MemoryManager :=
  mkTM shards (tm_shardMask tm) (tm_subShards tm) (tm_subShardMask tm) (tm_queueCfg tm)
    (tm_reg tm) aps (tm_subs tm) next.

Definition ap_Load (tm : MemoryManager) (ap : nat) : option subList := tm_aps tm !! ap ≫= id.

(** [ap.Store(&subList{subs})] into a new atomic pointer, then
    [LoadOrStore(t, ap)]; true when another goroutine's pointer was there. *)
Definition topics_LoadOrStore (tm : MemoryManager) (t : string) (subs : list nat)
    : MemoryManager * bool :=
  let sh := default ∅ (tm_shards tm !! hashTopic tm t) in
  match sh !! t with
  | Some _ => (tm, true)
  | None =>
      let ap := tm_next tm in
      (set_topics tm (<[hashTopic tm t := <[t := ap]> sh]> (tm_shards tm))
         (<[ap := Some (mkSubList (S ap) subs)]> (tm_aps tm)) (S (S ap)), false)
  end.

Definition addr_of (l : option subList) : option nat := sl_addr <$> l.

(** [ap.CompareAndSwap(old, new)], [new] a fresh list or nil. *)
Definition ap_CompareAndSwap (tm : MemoryManager) (ap : nat) (old : option subList)
    (new : option (list nat)) : MemoryManager * bool :=
  if decide (addr_of (ap_Load tm ap) = addr_of old) then
    let v := mkSubList (tm_next tm) <$> new in
    (set_topics tm (tm_shards tm) (<[ap := v]> (tm_aps tm)) (S (tm_next tm)), true)
  else (tm, false).

Definition topics_Delete (tm : MemoryManager) (t : string) : MemoryManager :=
  let sh := default ∅ (tm_shards tm !! hashTopic tm t) in
  set_topics tm (<[hashTopic tm t := delete t sh]> (tm_shards tm)) (tm_aps tm) (tm_next tm).

Definition subs_of (l : option subList) : list nat := default [] (sl_subs <$> l).

(** *** Subscribe *)

(** One turn of Subscribe's loop for a topic; true when it breaks. *)
Definition subscribe_turn (tm : MemoryManager) (p : nat) (t : string) : MemoryManager * bool :=
  match topics_Load tm t with
  | None => let '(tm, loaded) := topics_LoadOrStore tm t [p] in (tm, negb loaded)
  | Some ap =>
      let oldList := ap_Load tm ap in
      ap_CompareAndSwap tm ap oldList (Some (subs_of oldList ++ [p]))
  end.

Fixpoint loop_until {S : Type} (turn : S → S * bool) (fuel : nat) (s : S) : option S :=
  match fuel with
  | O => None
  | Datatypes.S fuel =>
      let '(s, stop) := turn s in if stop then Some s else loop_until turn fuel s
  end.

Definition set_sub (tm : MemoryManager) (p : nat) (s : subscriber) : MemoryManager :=
  mkTM (tm_shards tm) (tm_shardMask tm) (tm_subShards tm) (tm_subShardMask tm) (tm_queueCfg tm)
    (tm_reg tm) (tm_aps tm) (<[p := s]> (tm_subs tm)) (tm_next tm).

Definition with_topics (s : subscriber) (topics : gset string) : subscriber :=
  mkSubscriber (sub_ch s) topics (sub_closed s) (sub_handle s) (sub_queue s) (sub_legacyDropped s).

(** The body of the loop over the topics, for the subscriber at [p]. *)
Definition subscribe_topic (p : nat) (tm : MemoryManager) (t : string) : MemoryManager :=
  match tm_subs tm !! p with
  | None => tm
  | Some s =>
      if decide (t ∈ sub_topics s) then tm
      else
        match loop_until (λ tm, subscribe_turn tm p t) 1 tm with
        | None => tm
        | Some tm => set_sub tm p (with_topics s ({[t]} ∪ sub_topics s))
        end
  end.

(** [clientqueue.NewCachedQueue] with the manager's registry: with a nil registry
    each queue has one of its own, otherwise the names go to the shared one. *)
Definition new_queue (tm : MemoryManager) (id : string) (cfg : CqConfig)
    : outcome (option G * CachedQueue (CachedEvent E)) :=
  match tm_reg tm with
  | None => match NewCachedQueue id cfg with Ret q => Ret (None, q) | Panic => Panic end
  | Some g =>
      match promauto_register g queue_metric_names with
      | None => Panic
      | Some g => match NewCachedQueue id cfg with Ret q => Ret (Some g, q) | Panic => Panic end
      end
  end.

(** Registration of a new subscriber under [id]; the address of the subscriber. *)
Definition create_subscriber (tm : MemoryManager) (id : string) (reg : option G)
    (queue : option (CachedQueue (CachedEvent E))) : MemoryManager * nat :=
  let si := hashSubscriber tm id in
  let ss := default ∅ (tm_subShards tm !! si) in
  let p := tm_next tm in
  (mkTM (tm_shards tm) (tm_shardMask tm) (<[si := <[id := p]> ss]> (tm_subShards tm))
     (tm_subShardMask tm) (tm_queueCfg tm) reg (tm_aps tm)
     (<[p := mkSubscriber [] ∅ false None queue 0]> (tm_subs tm)) (S p), p).

Definition subs_lookup (tm : MemoryManager) (id : string) : option nat :=
  tm_subShards tm !! hashSubscriber tm id ≫= lookup id.

Definition find_or_create (tm : MemoryManager) (id : string) : outcome (MemoryManager * nat) :=
  match subs_lookup tm id with
  | Some p => Ret (tm, p)
  | None =>
      match tm_queueCfg tm with
      | None => Ret (create_subscriber tm id (tm_reg tm) None)
      | Some cfg =>
          match new_queue tm id cfg with
          | Panic => Panic
          | Ret (reg, q) => Ret (create_subscriber tm id reg (Some q))
          end
      end
  end.

Definition ensure_handle (tm : MemoryManager) (p : nat) (id : string)
    : MemoryManager * option handle :=
  match tm_subs tm !! p with
  | None => (tm, None)
  | Some s =>
      match sub_handle s with
      | Some h => (tm, Some h)
      | None =>
          let h := mkHandle p id in
          (set_sub tm p (mkSubscriber (sub_ch s) (sub_topics s) (sub_closed s) (Some h)
                           (sub_queue s) (sub_legacyDropped s)), Some h)
      end
  end.

(** [Subscribe] called by one goroutine at a time. *)
Definition TM_Subscribe (tm : MemoryManager) (id : string) (topics : list string)
    : outcome (MemoryManager * option handle) :=
  match topics with
  | [] => Ret (tm, None)
  | _ :: _ =>
      match find_or_create tm id with
      | Panic => Panic
      | Ret (tm, p) => Ret (ensure_handle (fold_left (subscribe_topic p) topics tm) p id)
      end
  end.

(** *** Unsubscribe *)

(** One turn of Unsubscribe's loop for a topic; true when it breaks. *)
Definition unsubscribe_turn (tm : MemoryManager) (p : nat) (t : string) : MemoryManager * bool :=
  match topics_Load tm t with
  | None => (tm, true)
  | Some ap =>
      let oldList := ap_Load tm ap in
      match filter (λ s, s ≠ p) (subs_of oldList) with
      | [] =>
          let '(tm, ok) := ap_CompareAndSwap tm ap oldList None in
          if ok then (topics_Delete tm t, true) else (tm, false)
      | newSubs => ap_CompareAndSwap tm ap oldList (Some newSubs)
      end
  end.

Definition unsubscribe_topic (p : nat) (tm : MemoryManager) (t : string) : MemoryManager :=
  default tm (loop_until (λ tm, unsubscribe_turn tm p t) 1 tm).

Definition close_subscriber (s : subscriber) : subscriber :=
  mkSubscriber (sub_ch s) (sub_topics s) true (sub_handle s)
    (CachedQueue_Close <$> sub_queue s) (sub_legacyDropped s).

(** The order in which the topics are visited is not specified. *)
Definition TM_Unsubscribe (tm : MemoryManager) (id : string) : MemoryManager :=
  let si := hashSubscriber tm id in
  let ss := default ∅ (tm_subShards tm !! si) in
  match ss !! id with
  | None => tm
  | Some p =>
      let tm := mkTM (tm_shards tm) (tm_shardMask tm) (<[si := delete id ss]> (tm_subShards tm))
                  (tm_subShardMask tm) (tm_queueCfg tm) (tm_reg tm) (tm_aps tm) (tm_subs tm)
                  (tm_next tm) in
      match tm_subs tm !! p with
      | None => tm
      | Some s =>
          let tm := fold_left (unsubscribe_topic p) (elements (sub_topics s)) tm in
          set_sub tm p (close_subscriber s)
      end
  end.

(** [handle.Cancel]. *)
Definition handle_Cancel (tm : MemoryManager) (h : handle) : MemoryManager :=
  TM_Unsubscribe tm (h_id h).

(** *** Publish *)

(** The delivery to one subscriber, and the outcome: sent, dropped, or skipped
    because it is closed. *)
Inductive delivery := Sent | Dropped | Skipped.

Definition deliver (s : subscriber) (cached : CachedEvent E) (now : Z) : subscriber * delivery :=
  if sub_closed s then (s, Skipped)
  else
    match sub_queue s with
    | Some q =>
        let '(q, ok) := CachedQueue_Send q cached now in
        (mkSubscriber (sub_ch s) (sub_topics s) (sub_closed s) (sub_handle s) (Some q)
           (sub_legacyDropped s), if ok then Sent else Dropped)
    | None =>
        if Z.of_nat (length (sub_ch s)) <? defaultBuffer then
          (mkSubscriber (sub_ch s ++ [cached]) (sub_topics s) (sub_closed s) (sub_handle s)
             (sub_queue s) (sub_legacyDropped s), Sent)
        else
          (mkSubscriber (sub_ch s) (sub_topics s) (sub_closed s) (sub_handle s)
             (sub_queue s) (u64 (sub_legacyDropped s + 1)), Dropped)
    end.

Definition deliver_to (cached : CachedEvent E) (now : Z) (tm : MemoryManager) (p : nat) : MemoryManager :=
  match tm_subs tm !! p with
  | None => tm
  | Some s => set_sub tm p (fst (deliver s cached now))
  end.

Definition TM_Publish (tm : MemoryManager) (event : MarketEvent E) (now : Z) : MemoryManager :=
  match topics_Load tm (event_symbol event) with
  | None => tm
  | Some ap =>
      match ap_Load tm ap with
      | None => tm
      | Some list => fold_left (deliver_to (NewCachedEvent event) now) (sl_subs list) tm
      end
  end.

(** *** Queries *)

Definition TM_SubscriberCount (tm : MemoryManager) (topic : string) : nat :=
  match topics_Load tm topic with
  | None => 0
  | Some ap => match ap_Load tm ap with Some list => length (sl_subs list) | None => 0 end
  end.

Definition TM_TopicCount (tm : MemoryManager) : nat := sum_list (size <$> tm_shards tm).

(** The order in which a shard's topics are visited is not specified. *)
Definition TM_Topics (tm : MemoryManager) : list string :=
  fst <$> concat (map_to_list <$> tm_shards tm).

(** ** The topic registry

    What the registry holds is the list of subscribers of each topic; the turns
    of the two loops are an append to and a removal from that list. *)

Definition topic_list (tm : MemoryManager) (t : string) : list nat :=
  match topics_Load tm t with
  | Some ap => subs_of (ap_Load tm ap)
  | None => []
  end.

(** [T] maps the topics to their atomic pointers: no pointer is shared, none is
    empty, and fresh addresses are fresh. *)
Record topics_ok (tm : MemoryManager) (T : gmap string nat) : Prop := {
  to_hash : ∀ t, (hashTopic tm t < length (tm_shards tm))%nat;
  to_flat : flat (length (tm_shards tm)) (hashTopic tm) (tm_shards tm) T;
  to_inj : ∀ t1 t2 ap, T !! t1 = Some ap → T !! t2 = Some ap → t1 = t2;
  to_next : ∀ t ap, T !! t = Some ap → (ap < tm_next tm)%nat;
  to_subs : ∀ t ap, T !! t = Some ap → subs_of (ap_Load tm ap) ≠ [];
  to_addr : ∀ ap l, ap_Load tm ap = Some l → (sl_addr l < tm_next tm)%nat;
}.

(** Everything but the registry and the address counter. *)
Definition frame (tm : MemoryManager) :=
  (tm_shardMask tm, tm_subShards tm, tm_subShardMask tm, tm_queueCfg tm, tm_reg tm, tm_subs tm).

Lemma topics_Load_ok tm T t : topics_ok tm T → topics_Load tm t = T !! t.
Proof. intros H. apply (flat_get _ _ _ _ (to_flat _ _ H)). Qed.

Lemma topic_list_ok tm T t :
  topics_ok tm T → topic_list tm t = from_option (λ ap, subs_of (ap_Load tm ap)) [] (T !! t).
Proof. intros H. unfold topic_list. rewrite (topics_Load_ok _ _ _ H). by destruct (T !! t). Qed.

Lemma ap_Load_insert tm shards ap v next ap' :
  ap_Load (set_topics tm shards (<[ap := v]> (tm_aps tm)) next) ap' =
    if decide (ap' = ap) then v else ap_Load tm ap'.
Proof.
  unfold ap_Load. cbn [tm_aps set_topics]. case_decide as Heq.
  - subst. by rewrite lookup_insert_eq.
  - by rewrite lookup_insert_ne.
Qed.

(** A new topic. *)
Lemma LoadOrStore_new tm T t l :
  topics_ok tm T → T !! t = None → l ≠ [] →
  ∃ tm', topics_LoadOrStore tm t l = (tm', false) ∧
    topics_ok tm' (<[t := tm_next tm]> T) ∧ frame tm' = frame tm ∧
    (tm_next tm < tm_next tm')%nat ∧
    topic_list tm' t = l ∧ (∀ t', t' ≠ t → topic_list tm' t' = topic_list tm t') ∧
    (∀ ap, ap_Load tm' ap =
       if decide (ap = tm_next tm) then Some (mkSubList (S (tm_next tm)) l) else ap_Load tm ap).
Proof.
  intros H Ht Hl. unfold topics_LoadOrStore.
  destruct (flat_shard _ _ (to_hash _ _ H) _ _ t (to_flat _ _ H)) as (sh & Hsh & Hget).
  rewrite Hsh. change (default ∅ (Some sh)) with sh. rewrite Hget, Ht.
  eexists. split; [reflexivity|]. set (tm' := set_topics _ _ _ _).
  assert (Hload : ∀ ap, ap_Load tm' ap =
    if decide (ap = tm_next tm) then Some (mkSubList (S (tm_next tm)) l) else ap_Load tm ap).
  { intros ap. unfold tm'. by rewrite ap_Load_insert. }
  assert (Hold : ∀ ap, (ap < tm_next tm)%nat → ap_Load tm' ap = ap_Load tm ap).
  { intros ap Hap. rewrite Hload. case_decide; [lia|done]. }
  assert (Hnew : ap_Load tm' (tm_next tm) = Some (mkSubList (S (tm_next tm)) l)).
  { rewrite Hload. by case_decide. }
  assert (Hok : topics_ok tm' (<[t := tm_next tm]> T)).
  { split.
    - intros t'. cbn [tm_shards tm' set_topics]. rewrite length_insert. apply (to_hash _ _ H t').
    - cbn [tm_shards tm' set_topics]. rewrite length_insert.
      apply (flat_insert _ _ (to_hash _ _ H) _ _ t sh _ (to_flat _ _ H) Hsh).
    - intros t1 t2 ap [(<- & <-)|[? H1]]%lookup_insert_Some [(<- & ?)|[? H2]]%lookup_insert_Some;
        try done.
      + apply (to_next _ _ H) in H2. lia.
      + subst. apply (to_next _ _ H) in H1. lia.
      + by apply (to_inj _ _ H t1 t2 ap).
    - intros t' ap [(<- & <-)|[? H1]]%lookup_insert_Some; cbn; [lia|].
      apply (to_next _ _ H) in H1. lia.
    - intros t' ap [(<- & <-)|[? H1]]%lookup_insert_Some; [by rewrite Hnew|].
      rewrite Hold by (by apply (to_next _ _ H t')). by apply (to_subs _ _ H t').
    - intros ap l' Hl'. rewrite Hload in Hl'. cbn. case_decide; [injection Hl' as <-; cbn; lia|].
      apply (to_addr _ _ H) in Hl'. lia. }
  split_and!; [done|done|cbn; lia| | |done].
  - rewrite (topic_list_ok _ _ _ Hok), lookup_insert_eq. cbn [from_option]. by rewrite Hnew.
  - intros t' Hne. rewrite (topic_list_ok _ _ _ Hok), (topic_list_ok _ _ _ H).
    rewrite lookup_insert_ne by done. destruct (T !! t') as [ap|] eqn:HT; [|done].
    cbn [from_option]. by rewrite Hold by (by apply (to_next _ _ H t')).
Qed.

(** A swap of a topic's list for another non-empty one. *)
Lemma CompareAndSwap_list tm T t ap l :
  topics_ok tm T → T !! t = Some ap → l ≠ [] →
  ∃ tm', ap_CompareAndSwap tm ap (ap_Load tm ap) (Some l) = (tm', true) ∧
    topics_ok tm' T ∧ frame tm' = frame tm ∧ tm_next tm' = S (tm_next tm) ∧
    topic_list tm' t = l ∧ (∀ t', t' ≠ t → topic_list tm' t' = topic_list tm t') ∧
    (∀ ap', ap_Load tm' ap' =
       if decide (ap' = ap) then Some (mkSubList (tm_next tm) l) else ap_Load tm ap').
Proof.
  intros H Ht Hl. unfold ap_CompareAndSwap. rewrite decide_True by done.
  eexists. split; [reflexivity|]. set (tm' := set_topics _ _ _ _).
  assert (Hload : ∀ ap', ap_Load tm' ap' =
    if decide (ap' = ap) then Some (mkSubList (tm_next tm) l) else ap_Load tm ap').
  { intros ap'. unfold tm'. by rewrite ap_Load_insert. }
  assert (Hok : topics_ok tm' T).
  { split; try apply H.
    - intros t' ap' H'. apply (to_next _ _ H) in H'. cbn. lia.
    - intros t' ap' H'. rewrite Hload. case_decide; [done|]. by apply (to_subs _ _ H t').
    - intros ap' l' Hl'. rewrite Hload in Hl'. cbn. case_decide; [injection Hl' as <-; cbn; lia|].
      apply (to_addr _ _ H) in Hl'. lia. }
  split_and!; [done|done|done| | |done].
  - rewrite (topic_list_ok _ _ _ Hok), Ht. cbn [from_option]. rewrite Hload. by case_decide.
  - intros t' Hne. rewrite (topic_list_ok _ _ _ Hok), (topic_list_ok _ _ _ H).
    destruct (T !! t') as [ap'|] eqn:HT; [|done]. cbn [from_option]. rewrite Hload.
    case_decide as E1; [|done]. subst. by destruct Hne; apply (to_inj _ _ H t' t ap).
Qed.

(** Emptying a topic: the swap to nil and the deletion. *)
Lemma remove_topic tm T t ap :
  topics_ok tm T → T !! t = Some ap →
  ∃ tm', ap_CompareAndSwap tm ap (ap_Load tm ap) None = (tm', true) ∧
    topics_ok (topics_Delete tm' t) (delete t T) ∧ frame (topics_Delete tm' t) = frame tm ∧
    tm_next (topics_Delete tm' t) = S (tm_next tm) ∧
    topic_list (topics_Delete tm' t) t = [] ∧
    (∀ t', t' ≠ t → topic_list (topics_Delete tm' t) t' = topic_list tm t').
Proof.
  intros H Ht. unfold ap_CompareAndSwap. rewrite decide_True by done.
  eexists. split; [reflexivity|]. cbn [fmap option_fmap option_map].
  set (tm1 := set_topics _ _ _ _).
  destruct (flat_shard _ _ (to_hash _ _ H) _ _ t (to_flat _ _ H)) as (sh & Hsh & Hget).
  set (tm' := topics_Delete tm1 t).
  assert (Hload : ∀ ap', ap_Load tm' ap' = if decide (ap' = ap) then None else ap_Load tm ap').
  { intros ap'. transitivity (ap_Load tm1 ap'); [done|]. unfold tm1. by rewrite ap_Load_insert. }
  assert (Hshards : tm_shards tm' = <[hashTopic tm t := delete t sh]> (tm_shards tm)).
  { unfold tm', topics_Delete, tm1. cbn [tm_shards set_topics].
    change (hashTopic _ t) with (hashTopic tm t). by rewrite Hsh. }
  assert (Hok : topics_ok tm' (delete t T)).
  { split.
    - intros t'. rewrite Hshards, length_insert. apply (to_hash _ _ H t').
    - rewrite Hshards, length_insert.
      apply (flat_delete _ _ (to_hash _ _ H) _ _ t sh (to_flat _ _ H) Hsh).
    - intros t1 t2 ap' [? H1]%lookup_delete_Some [? H2]%lookup_delete_Some.
      by apply (to_inj _ _ H t1 t2 ap').
    - intros t' ap' [? H']%lookup_delete_Some. apply (to_next _ _ H) in H'. cbn. lia.
    - intros t' ap' [Hne H']%lookup_delete_Some. rewrite Hload.
      case_decide as E1; [|by apply (to_subs _ _ H t')].
      subst. by destruct Hne; apply (to_inj _ _ H t t' ap).
    - intros ap' l Hl. rewrite Hload in Hl. case_decide; [done|].
      apply (to_addr _ _ H) in Hl. cbn. lia. }
  split_and!; [done|done|done| |].
  - by rewrite (topic_list_ok _ _ _ Hok), lookup_delete_eq.
  - intros t' Hne. rewrite (topic_list_ok _ _ _ Hok), (topic_list_ok _ _ _ H).
    rewrite lookup_delete_ne by done. destruct (T !! t') as [ap'|] eqn:HT; [|done].
    cbn [from_option]. rewrite Hload. case_decide as E1; [|done].
    subst. by destruct Hne; apply (to_inj _ _ H t' t ap).
Qed.

(** The effect of an operation on the registry: topic [t] now has the list [l]. *)
Definition now_lists (tm tm' : MemoryManager) (t : string) (l : list nat) : Prop :=
  (∃ T', topics_ok tm' T') ∧ frame tm' = frame tm ∧ (tm_next tm ≤ tm_next tm')%nat ∧
  ∀ t', topic_list tm' t' = if decide (t' = t) then l else topic_list tm t'.

(** Run alone, the first turn of each loop breaks. *)
Lemma subscribe_turn_spec tm T p t :
  topics_ok tm T →
  ∃ tm', subscribe_turn tm p t = (tm', true) ∧ now_lists tm tm' t (topic_list tm t ++ [p]).
Proof.
  intros H. unfold subscribe_turn. rewrite (topics_Load_ok _ _ _ H).
  rewrite (topic_list_ok _ _ t H). destruct (T !! t) as [ap|] eqn:Ht; cbn [from_option].
  - destruct (CompareAndSwap_list tm T t ap (subs_of (ap_Load tm ap) ++ [p]) H Ht)
      as (tm' & -> & Hok & Hf & Hn & Hl & Ho & _); [by destruct (subs_of _)|].
    exists tm'. split; [done|]. split_and!; [by eexists|done|lia|].
    intros t'. case_decide; [by subst|by apply Ho].
  - destruct (LoadOrStore_new tm T t [p] H Ht ltac:(done)) as (tm' & -> & Hok & Hf & Hn & Hl & Ho & _).
    exists tm'. split; [done|]. split_and!; [by eexists|done|lia|].
    intros t'. case_decide; [by subst|by apply Ho].
Qed.

Lemma unsubscribe_turn_spec tm T p t :
  topics_ok tm T →
  ∃ tm', unsubscribe_turn tm p t = (tm', true) ∧
    now_lists tm tm' t (filter (λ s, s ≠ p) (topic_list tm t)).
Proof.
  intros H. unfold unsubscribe_turn. rewrite (topics_Load_ok _ _ _ H).
  rewrite (topic_list_ok _ _ t H). destruct (T !! t) as [ap|] eqn:Ht; cbn [from_option].
  - destruct (filter (λ s, s ≠ p) (subs_of (ap_Load tm ap))) as [|s l] eqn:Hfl.
    + destruct (remove_topic tm T t ap H Ht) as (tm' & -> & Hok & Hf & Hn & Hl & Ho).
      eexists. split; [done|]. split_and!; [by eexists|done|lia|].
      intros t'. case_decide; [by subst|by apply Ho].
    + destruct (CompareAndSwap_list tm T t ap (s :: l) H Ht ltac:(done))
        as (tm' & -> & Hok & Hf & Hn & Hl & Ho & _).
      exists tm'. split; [done|]. split_and!; [by eexists|done|lia|].
      intros t'. case_decide; [by subst|by apply Ho].
  - exists tm. split; [done|]. split_and!; [by eexists|done|lia|].
    intros t'. case_decide; [|done]. subst. by rewrite (topic_list_ok _ _ t H), Ht.
Qed.

(** ** The two indexes

    [S] maps the IDs to their subscribers, [m] to the topics they asked for. *)

Record tm_ok (tm : MemoryManager) (S : gmap string nat) (m : gmap string (gset string)) : Prop := {
  tk_topics : ∃ T, topics_ok tm T;
  tk_hash : ∀ id, (hashSubscriber tm id < length (tm_subShards tm))%nat;
  tk_flat : flat (length (tm_subShards tm)) (hashSubscriber tm) (tm_subShards tm) S;
  tk_inj : ∀ id1 id2 p, S !! id1 = Some p → S !! id2 = Some p → id1 = id2;
  tk_open : ∀ id p, S !! id = Some p → ∃ s, tm_subs tm !! p = Some s ∧ sub_closed s = false;
  tk_abs : ∀ id, m !! id = S !! id ≫= λ p, sub_topics <$> tm_subs tm !! p;
  tk_fresh : ∀ p s, tm_subs tm !! p = Some s → (p < tm_next tm)%nat;
  tk_nodup : ∀ t, NoDup (topic_list tm t);
  tk_list : ∀ t p, p ∈ topic_list tm t ↔
              ∃ id ts, S !! id = Some p ∧ m !! id = Some ts ∧ t ∈ ts;
}.

Lemma land_mask_lt h n :
  0 ≤ h → 0 < n ≤ 2 ^ 63 → (Z.to_nat (Z.land h (u64 (n - 1))) < Z.to_nat n)%nat.
Proof.
  intros Hh Hn. rewrite u64_small by (unfold in_u64; lia).
  rewrite <- (Z2N.id h), <- (Z2N.id (n - 1)), <- N2Z.inj_land by lia.
  pose proof (N.land_le_r (Z.to_N h) (Z.to_N (n - 1))). lia.
Qed.

Lemma fnv1a_nonneg s : 0 ≤ fnv1a s.
Proof.
  unfold fnv1a. generalize (bytes_of_string s). intros l.
  assert (H : 0 ≤ 14695981039346656037) by lia. revert H. generalize 14695981039346656037.
  induction l as [|b l IH]; intros h Hh; [done|]. cbn [fold_left]. apply IH.
  pose proof (u64_range (Z.lxor h (byte_to_Z b) * 1099511628211)) as Hr. apply Hr.
Qed.

Lemma shard_count_range shards :
  let n := if nextPowerOf2 shards <=? 0 then defaultShardCount else nextPowerOf2 shards in
  0 < n ≤ 2 ^ 63.
Proof.
  unfold defaultShardCount. destruct (Z.leb_spec (nextPowerOf2 shards) 0); [lia|].
  split; [done|]. unfold nextPowerOf2 in *. destruct (shards <=? 0); [lia|].
  match goal with |- i64 ?x ≤ _ => pose proof (i64_range x) as Hr; destruct Hr end. lia.
Qed.

Lemma empty_topics_ok tm n :
  (∀ t, (hashTopic tm t < n)%nat) → tm_shards tm = replicate n ∅ → tm_aps tm = ∅ →
  topics_ok tm ∅.
Proof.
  intros Hh Hs Ha. split; rewrite ?Hs, ?length_replicate; try done; [by apply flat_empty|].
  intros ap l. unfold ap_Load. by rewrite Ha, lookup_empty.
Qed.

Lemma empty_tm_ok tm n :
  (∀ t, (hashTopic tm t < n)%nat) → (∀ id, (hashSubscriber tm id < n)%nat) →
  tm_shards tm = replicate n ∅ → tm_aps tm = ∅ → tm_subShards tm = replicate n ∅ →
  tm_subs tm = ∅ → tm_ok tm ∅ ∅.
Proof.
  intros Ht Hi Hs Ha Hss Hsubs. pose proof (empty_topics_ok tm n Ht Hs Ha) as Hok.
  assert (Hl : ∀ t, topic_list tm t = []) by (intros t; by rewrite (topic_list_ok _ _ t Hok)).
  split; rewrite ?Hss, ?length_replicate; try done.
  - by exists ∅.
  - by apply flat_empty.
  - intros p s Hp. by rewrite Hsubs, lookup_empty in Hp.
  - intros t. rewrite Hl. constructor.
  - intros t p. rewrite Hl. split; [by intros ?%elem_of_nil|].
    intros (id & ts & Hid & _). by rewrite lookup_empty in Hid.
Qed.

Lemma TM_New_ok shards : tm_ok (TM_New shards) ∅ ∅.
Proof.
  eapply empty_tm_ok; try reflexivity; intros s; apply land_mask_lt;
    [apply fnv1a_nonneg|apply shard_count_range|apply fnv1a_nonneg|apply shard_count_range].
Qed.

Lemma NewWithQueue_ok shards cfg reg tm : NewWithQueue shards cfg reg = Ret tm → tm_ok tm ∅ ∅.
Proof.
  unfold NewWithQueue. destruct reg as [g|]; [destruct (promauto_register _ _); [|done]|];
    intros [= <-]; (eapply empty_tm_ok; try reflexivity; intros s; apply land_mask_lt;
    [apply fnv1a_nonneg|apply shard_count_range|apply fnv1a_nonneg|apply shard_count_range]).
Qed.

(** *** Subscribe *)

Lemma subs_lookup_ok tm S m id : tm_ok tm S m → subs_lookup tm id = S !! id.
Proof. intros H. apply (flat_get _ _ _ _ (tk_flat _ _ _ H)). Qed.

Lemma create_subscriber_ok tm S m id reg queue :
  tm_ok tm S m → S !! id = None →
  let '(tm', p) := create_subscriber tm id reg queue in
  tm_ok tm' (<[id := p]> S) (<[id := ∅]> m) ∧ tm_queueCfg tm' = tm_queueCfg tm ∧ tm_reg tm' = reg.
Proof.
  intros H Hid. cbn [create_subscriber]. destruct (tk_topics _ _ _ H) as [T HT].
  destruct (flat_shard _ _ (tk_hash _ _ _ H) _ _ id (tk_flat _ _ _ H)) as (ss & Hss & Hget).
  rewrite Hss. change (default ∅ (Some ss)) with ss.
  assert (HS : ∀ id' p, S !! id' = Some p → (p < tm_next tm)%nat).
  { intros id' p Hp. destruct (tk_open _ _ _ H id' p Hp) as (s & Hs & _). by apply (tk_fresh _ _ _ H p s). }
  split; [|done]. split.
  - exists T. destruct HT as [H1 H2 H3 H4 H5 H6]. split; try done.
    + intros t ap Hap. apply H4 in Hap. cbn. lia.
    + intros ap l Hl. apply H6 in Hl. cbn. lia.
  - intros id'. cbn [tm_subShards]. rewrite length_insert. apply (tk_hash _ _ _ H id').
  - cbn [tm_subShards]. rewrite length_insert.
    apply (flat_insert _ _ (tk_hash _ _ _ H) _ _ id ss _ (tk_flat _ _ _ H) Hss).
  - intros id1 id2 p [(<- & <-)|[? H1]]%lookup_insert_Some [(<- & ?)|[? H2]]%lookup_insert_Some;
      try done.
    + apply HS in H2. lia.
    + subst. apply HS in H1. lia.
    + by apply (tk_inj _ _ _ H id1 id2 p).
  - intros id' p [(<- & <-)|[? Hp]]%lookup_insert_Some; cbn [tm_subs].
    + eexists. by rewrite lookup_insert_eq.
    + pose proof (HS id' p Hp). destruct (tk_open _ _ _ H id' p Hp) as (s & Hs & Hc).
      exists s. by rewrite lookup_insert_ne by lia.
  - intros id'. cbn [tm_subs]. destruct (decide (id' = id)) as [->|Hne].
    + rewrite !lookup_insert_eq. cbn. by rewrite lookup_insert_eq.
    + rewrite !lookup_insert_ne by done. rewrite (tk_abs _ _ _ H).
      destruct (S !! id') as [p|] eqn:Hp; [|done]. cbn. apply HS in Hp.
      by rewrite lookup_insert_ne by lia.
  - cbn [tm_subs tm_next]. intros p s [(<- & <-)|[? Hp]]%lookup_insert_Some; [lia|].
    apply (tk_fresh _ _ _ H) in Hp. lia.
  - apply (tk_nodup _ _ _ H).
  - intros t p. rewrite (tk_list _ _ _ H t p : p ∈ topic_list _ t ↔ _). split.
    + intros (id' & ts & Hp & Hm & Hin). exists id', ts.
      assert (id' ≠ id) by congruence. by rewrite !lookup_insert_ne.
    + intros (id' & ts & Hp & Hm & Hin). destruct (decide (id' = id)) as [->|Hne].
      * rewrite lookup_insert_eq in Hm. injection Hm as <-. set_solver.
      * rewrite lookup_insert_ne in Hp by done. rewrite lookup_insert_ne in Hm by done.
        by exists id', ts.
Qed.

(** An operation that keeps the IDs and their subscribers. *)
Lemma tm_ok_update tm tm' S m m' :
  tm_ok tm S m → (∃ T, topics_ok tm' T) →
  tm_subShards tm' = tm_subShards tm → tm_subShardMask tm' = tm_subShardMask tm →
  (tm_next tm ≤ tm_next tm')%nat →
  (∀ p s', tm_subs tm' !! p = Some s' → is_Some (tm_subs tm !! p)) →
  (∀ id p, S !! id = Some p → ∃ s', tm_subs tm' !! p = Some s' ∧ sub_closed s' = false ∧
     m' !! id = Some (sub_topics s')) →
  (∀ id, S !! id = None → m' !! id = None) →
  (∀ t, NoDup (topic_list tm' t)) →
  (∀ t p, p ∈ topic_list tm' t ↔ ∃ id ts, S !! id = Some p ∧ m' !! id = Some ts ∧ t ∈ ts) →
  tm_ok tm' S m'.
Proof.
  intros H HT Hss Hmask Hn Hold Hreg Hnone Hnd Hl. split; try done.
  - intros id. rewrite Hss. unfold hashSubscriber. rewrite Hmask. apply (tk_hash _ _ _ H).
  - rewrite Hss. unfold hashSubscriber. rewrite Hmask. apply (tk_flat _ _ _ H).
  - apply (tk_inj _ _ _ H).
  - intros id p Hp. destruct (Hreg id p Hp) as (s & ? & ? & _). by exists s.
  - intros id. destruct (S !! id) as [p|] eqn:Hp; [|by apply Hnone].
    destruct (Hreg id p Hp) as (s & Hs & _ & ->). cbn. by rewrite Hs.
  - intros p s Hp. destruct (Hold p s Hp) as [s0 Hs0].
    apply (Nat.lt_le_trans _ (tm_next tm)); [|done]. by apply (tk_fresh _ _ _ H p s0).
Qed.

(** Both indexes gain the pair of a subscriber and a topic. *)
Lemma topic_lists_insert (L : string → list nat) (S : gmap string nat)
    (m : gmap string (gset string)) id p ts t :
  (∀ id1 id2 p, S !! id1 = Some p → S !! id2 = Some p → id1 = id2) →
  (∀ t p, p ∈ L t ↔ ∃ id ts, S !! id = Some p ∧ m !! id = Some ts ∧ t ∈ ts) →
  S !! id = Some p → m !! id = Some ts →
  ∀ t' p', p' ∈ (if decide (t' = t) then L t ++ [p] else L t') ↔
    ∃ id' ts', S !! id' = Some p' ∧ <[id := {[t]} ∪ ts]> m !! id' = Some ts' ∧ t' ∈ ts'.
Proof.
  intros Hinj HL Hp Hm t' p'. transitivity (p' ∈ L t' ∨ (t' = t ∧ p' = p)).
  { case_decide; [subst; rewrite elem_of_app, list_elem_of_singleton|]; naive_solver. }
  rewrite HL. split.
  - intros [(id' & ts' & Hp' & Hm' & Hin')|[-> ->]].
    + destruct (decide (id' = id)) as [->|Hne].
      * exists id, ({[t]} ∪ ts). rewrite lookup_insert_eq. split_and!; [done|done|]. set_solver.
      * exists id', ts'. by rewrite lookup_insert_ne.
    + exists id, ({[t]} ∪ ts). rewrite lookup_insert_eq. split_and!; [done|done|]. set_solver.
  - intros (id' & ts' & Hp' & Hm' & Hin'). destruct (decide (id' = id)) as [->|Hne].
    + rewrite lookup_insert_eq in Hm'. injection Hm' as <-.
      apply elem_of_union in Hin' as [->%elem_of_singleton|Hin']; [right|left; by exists id, ts].
      split; congruence.
    + rewrite lookup_insert_ne in Hm' by done. left. by exists id', ts'.
Qed.

Lemma registered_topics tm S m id p s :
  tm_ok tm S m → S !! id = Some p → tm_subs tm !! p = Some s → m !! id = Some (sub_topics s).
Proof. intros H Hp Hs. rewrite (tk_abs _ _ _ H), Hp. cbn. by rewrite Hs. Qed.

(** The registry's part of a subscription, and the subscriber's. *)
Lemma subscribe_topic_ok tm S m id p ts t :
  tm_ok tm S m → S !! id = Some p → m !! id = Some ts →
  tm_ok (subscribe_topic p tm t) S (<[id := {[t]} ∪ ts]> m).
Proof.
  intros H Hp Hm. destruct (tk_topics _ _ _ H) as [T HT].
  destruct (tk_open _ _ _ H id p Hp) as (s & Hs & Hc).
  assert (Hts : sub_topics s = ts) by (pose proof (registered_topics _ _ _ _ _ _ H Hp Hs); congruence).
  unfold subscribe_topic. rewrite Hs, Hts. case_decide as Hin.
  { rewrite insert_id; [done|]. rewrite Hm. f_equal. set_solver. }
  cbn [loop_until]. destruct (subscribe_turn_spec tm T p t HT) as (tm' & -> & HT' & Hf & Hn & Hl).
  injection Hf as _ Hss Hsmask _ _ Hsubs. set (s' := with_topics s ({[t]} ∪ ts)).
  assert (Hsub : ∀ p', tm_subs (set_sub tm' p s') !! p' =
                 if decide (p' = p) then Some s' else tm_subs tm !! p').
  { intros p'. cbn [tm_subs set_sub]. rewrite Hsubs. case_decide; [subst; by rewrite lookup_insert_eq|].
    by rewrite lookup_insert_ne. }
  assert (Hlist : ∀ t', topic_list (set_sub tm' p s') t' =
                  if decide (t' = t) then topic_list tm t ++ [p] else topic_list tm t') by apply Hl.
  apply (tm_ok_update tm _ S m); try done.
  - destruct HT' as (T' & [? ? ? ? ? ?]). exists T'. by split.
  - intros p' s1. rewrite Hsub. case_decide; [by subst|by eexists].
  - intros id' p' Hp'. rewrite Hsub. case_decide as E1.
    + subst p'. rewrite (tk_inj _ _ _ H id' id p Hp' Hp), lookup_insert_eq. by eexists.
    + assert (id' ≠ id) by congruence. destruct (tk_open _ _ _ H id' p' Hp') as (s1 & Hs1 & Hc1).
      exists s1. rewrite lookup_insert_ne by done.
      by rewrite (registered_topics _ _ _ _ _ _ H Hp' Hs1).
  - intros id' Hid'. rewrite lookup_insert_ne by congruence. by rewrite (tk_abs _ _ _ H), Hid'.
  - intros t'. rewrite Hlist. case_decide; [|apply (tk_nodup _ _ _ H)].
    apply NoDup_app. split_and!; [apply (tk_nodup _ _ _ H)| |apply NoDup_singleton].
    intros x Hx ->%list_elem_of_singleton. apply (tk_list _ _ _ H) in Hx as (id' & ts' & Hp' & Hm' & ?).
    rewrite (tk_inj _ _ _ H id' id p Hp' Hp) in Hm'. congruence.
  - intros t' p'. rewrite Hlist.
    by apply topic_lists_insert; [apply (tk_inj _ _ _ H)|apply (tk_list _ _ _ H)|..].
Qed.

Lemma subscribe_topics_ok topics tm S m id p ts :
  tm_ok tm S m → S !! id = Some p → m !! id = Some ts →
  tm_ok (fold_left (subscribe_topic p) topics tm) S (<[id := list_to_set topics ∪ ts]> m).
Proof.
  revert tm m ts. induction topics as [|t topics IH]; intros tm m ts H Hp Hm; cbn [fold_left].
  { rewrite insert_id; [done|]. rewrite Hm. f_equal. set_solver. }
  pose proof (IH _ _ _ (subscribe_topic_ok tm S m id p ts t H Hp Hm) Hp (lookup_insert_eq _ _ _)) as Hr.
  rewrite insert_insert_eq in Hr. replace (list_to_set (t :: topics) ∪ ts) with
    (list_to_set topics ∪ ({[t]} ∪ ts) : gset string); [done|]. set_solver.
Qed.

Lemma find_or_create_ok tm S m id tm' p :
  tm_ok tm S m → find_or_create tm id = Ret (tm', p) →
  ∃ S', tm_ok tm' S' (<[id := default ∅ (m !! id)]> m) ∧ S' !! id = Some p.
Proof.
  intros H. unfold find_or_create. rewrite (subs_lookup_ok _ _ _ _ H).
  destruct (S !! id) as [p0|] eqn:Hid.
  { intros [= <- <-]. exists S. split; [|done].
    destruct (tk_open _ _ _ H id p0 Hid) as (s & Hs & _).
    by rewrite (registered_topics _ _ _ _ _ _ H Hid Hs), insert_id
      by (by apply (registered_topics _ _ _ _ _ _ H Hid Hs)). }
  assert (Hm : m !! id = None) by (by rewrite (tk_abs _ _ _ H), Hid). rewrite Hm.
  pose proof (λ reg queue, create_subscriber_ok tm S m id reg queue H Hid) as Hc.
  destruct (tm_queueCfg tm) as [cfg|]; [destruct (new_queue tm id cfg) as [[reg q]|]; [|done]|].
  - specialize (Hc reg (Some q)). destruct (create_subscriber tm id reg (Some q)) as [tm1 p1].
    intros [= <- <-]. exists (<[id := p1]> S). destruct Hc as [Hc _]. by rewrite lookup_insert_eq.
  - specialize (Hc (tm_reg tm) None). destruct (create_subscriber tm id (tm_reg tm) None) as [tm1 p1].
    intros [= <- <-]. exists (<[id := p1]> S). destruct Hc as [Hc _]. by rewrite lookup_insert_eq.
Qed.

(** Changing what a subscriber buffers, or its handle, keeps the indexes. *)
Lemma set_sub_ok tm S m p s s' :
  tm_ok tm S m → tm_subs tm !! p = Some s →
  sub_closed s' = sub_closed s → sub_topics s' = sub_topics s → tm_ok (set_sub tm p s') S m.
Proof.
  intros H Hs Hc Ht. destruct (tk_topics _ _ _ H) as (T & [? ? ? ? ? ?]).
  assert (Hsub : ∀ p', tm_subs (set_sub tm p s') !! p' =
                 if decide (p' = p) then Some s' else tm_subs tm !! p').
  { intros p'. cbn [tm_subs set_sub]. case_decide; [subst; by rewrite lookup_insert_eq|].
    by rewrite lookup_insert_ne. }
  apply (tm_ok_update tm _ S m); try done.
  - exists T. by split.
  - intros p' s1. rewrite Hsub. case_decide; [by subst|by eexists].
  - intros id p' Hp'. destruct (tk_open _ _ _ H id p' Hp') as (s1 & Hs1 & Hc1).
    pose proof (registered_topics _ _ _ _ _ _ H Hp' Hs1) as Hm. rewrite Hsub. case_decide as E1.
    + subst p'. exists s'. split_and!; congruence.
    + by exists s1.
  - intros id Hid. by rewrite (tk_abs _ _ _ H), Hid.
  - apply (tk_nodup _ _ _ H).
  - apply (tk_list _ _ _ H).
Qed.

(** The abstract subscription table and Subscribe's effect on it. *)
Definition spec_subscribe (m : gmap string (gset string)) (id : string) (topics : list string)
    : gmap string (gset string) :=
  match topics with
  | [] => m
  | _ :: _ => <[id := list_to_set topics ∪ default ∅ (m !! id)]> m
  end.

Lemma TM_Subscribe_ok tm S m id topics tm' h :
  tm_ok tm S m → TM_Subscribe tm id topics = Ret (tm', h) →
  ∃ S', tm_ok tm' S' (spec_subscribe m id topics).
Proof.
  intros H. unfold TM_Subscribe, spec_subscribe. destruct topics as [|t topics].
  { intros [= <- <-]. by exists S. }
  destruct (find_or_create tm id) as [[tm1 p]|] eqn:Hfc; [|done]. intros [= Hen].
  destruct (find_or_create_ok tm S m id tm1 p H Hfc) as (S' & H1 & Hp).
  pose proof (subscribe_topics_ok (t :: topics) tm1 S' _ id p _ H1 Hp (lookup_insert_eq _ _ _)) as H2.
  rewrite insert_insert_eq in H2. exists S'. revert Hen. unfold ensure_handle.
  destruct (tm_subs _ !! p) as [s|] eqn:Hs; [|by intros [= <- <-]].
  destruct (sub_handle s); intros [= <- <-]; [done|]. by apply (set_sub_ok _ _ _ p s).
Qed.

(** *** Unsubscribe *)

Lemma unsubscribe_topics_spec ts tm T p :
  topics_ok tm T →
  let tm' := fold_left (unsubscribe_topic p) ts tm in
  (∃ T', topics_ok tm' T') ∧ frame tm' = frame tm ∧ (tm_next tm ≤ tm_next tm')%nat ∧
  ∀ t, topic_list tm' t =
    if decide (t ∈ ts) then filter (λ s, s ≠ p) (topic_list tm t) else topic_list tm t.
Proof.
  revert tm T. induction ts as [|t0 ts IH]; intros tm T HT; cbn [fold_left].
  { split_and!; [by eexists|done|done|done]. }
  destruct (unsubscribe_turn_spec tm T p t0 HT) as (tm1 & Htm1 & (T1 & HT1) & Hf & Hn & Hl).
  assert (Hstep : unsubscribe_topic p tm t0 = tm1).
  { unfold unsubscribe_topic. cbn [loop_until]. by rewrite Htm1. }
  rewrite Hstep. destruct (IH tm1 T1 HT1) as (HT2 & Hf2 & Hn2 & Hl2).
  split_and!; [done|congruence|lia|]. intros t. rewrite Hl2, Hl.
  destruct (decide (t = t0)) as [->|Hne].
  - rewrite (decide_True _ _ (list_elem_of_here _ _)). case_decide; [|done].
    rewrite list_filter_filter. apply list_filter_iff. naive_solver.
  - assert (Hiff : t ∈ t0 :: ts ↔ t ∈ ts) by (rewrite elem_of_cons; naive_solver).
    by rewrite (decide_ext _ _ _ _ Hiff).
Qed.

(** Both indexes lose a subscriber. *)
Lemma topic_lists_delete (L : string → list nat) (S : gmap string nat)
    (m : gmap string (gset string)) id p ts :
  (∀ id1 id2 p, S !! id1 = Some p → S !! id2 = Some p → id1 = id2) →
  (∀ t p, p ∈ L t ↔ ∃ id ts, S !! id = Some p ∧ m !! id = Some ts ∧ t ∈ ts) →
  S !! id = Some p → m !! id = Some ts →
  ∀ t p', p' ∈ (if decide (t ∈ elements ts) then filter (λ s, s ≠ p) (L t) else L t) ↔
    ∃ id' ts', delete id S !! id' = Some p' ∧ delete id m !! id' = Some ts' ∧ t ∈ ts'.
Proof.
  intros Hinj HL Hp Hm t p'. transitivity (p' ∈ L t ∧ p' ≠ p).
  { case_decide as Hin; [rewrite list_elem_of_filter; tauto|]. split; [|tauto].
    intros Hin'. split; [done|]. intros ->. apply Hin, elem_of_elements.
    apply HL in Hin' as (id' & ts' & Hp' & Hm' & ?). rewrite (Hinj id' id p Hp' Hp) in Hm'. congruence. }
  rewrite HL. split.
  - intros [(id' & ts' & Hp' & Hm' & Hin') Hne]. exists id', ts'.
    assert (id ≠ id') by congruence. by rewrite !lookup_delete_ne.
  - intros (id' & ts' & [Hne Hp']%lookup_delete_Some & [_ Hm']%lookup_delete_Some & Hin').
    split; [by exists id', ts'|]. intros ->. by destruct Hne; apply (Hinj id id' p).
Qed.

Lemma TM_Unsubscribe_ok tm S m id :
  tm_ok tm S m → tm_ok (TM_Unsubscribe tm id) (delete id S) (delete id m).
Proof.
  intros H. unfold TM_Unsubscribe. destruct (tk_topics _ _ _ H) as [T HT].
  destruct (flat_shard _ _ (tk_hash _ _ _ H) _ _ id (tk_flat _ _ _ H)) as (ss & Hss & Hget).
  rewrite Hss. change (default ∅ (Some ss)) with ss. rewrite Hget.
  destruct (S !! id) as [p|] eqn:Hp.
  2:{ rewrite !delete_id; [done| |done]. by rewrite (tk_abs _ _ _ H), Hp. }
  destruct (tk_open _ _ _ H id p Hp) as (s & Hs & Hc). cbn [tm_subs]. rewrite Hs.
  pose proof (registered_topics _ _ _ _ _ _ H Hp Hs) as Hm.
  set (tm0 := mkTM _ _ _ _ _ _ _ _ _).
  assert (HT0 : topics_ok tm0 T) by (destruct HT as [? ? ? ? ? ?]; by split).
  destruct (unsubscribe_topics_spec (elements (sub_topics s)) tm0 T p HT0) as (HT' & Hf & Hn & Hl).
  set (tm1 := fold_left _ _ _) in *. injection Hf as _ Hsh Hmask _ _ Hsubs.
  assert (Hsub : ∀ p', tm_subs (set_sub tm1 p (close_subscriber s)) !! p' =
                 if decide (p' = p) then Some (close_subscriber s) else tm_subs tm !! p').
  { intros p'. cbn [tm_subs set_sub]. rewrite Hsubs. case_decide; [subst; by rewrite lookup_insert_eq|].
    by rewrite lookup_insert_ne. }
  assert (Hkeep : ∀ id' p', delete id S !! id' = Some p' → S !! id' = Some p' ∧ p' ≠ p).
  { intros id' p' [Hne Hp']%lookup_delete_Some. split; [done|]. intros ->.
    by destruct Hne; apply (tk_inj _ _ _ H id id' p). }
  split.
  - destruct HT' as (T' & [? ? ? ? ? ?]). exists T'. by split.
  - intros id'. cbn [tm_subShards set_sub]. rewrite Hsh. cbn [tm_subShards tm0].
    rewrite length_insert. unfold hashSubscriber. cbn [tm_subShardMask set_sub]. rewrite Hmask.
    apply (tk_hash _ _ _ H).
  - cbn [tm_subShards set_sub]. rewrite Hsh. cbn [tm_subShards tm0]. rewrite length_insert.
    unfold hashSubscriber. cbn [tm_subShardMask set_sub]. rewrite Hmask.
    apply (flat_delete _ _ (tk_hash _ _ _ H) _ _ id ss (tk_flat _ _ _ H) Hss).
  - intros id1 id2 p' [H1 _]%Hkeep [H2 _]%Hkeep. by apply (tk_inj _ _ _ H id1 id2 p').
  - intros id' p' [Hp' Hne]%Hkeep. rewrite Hsub, decide_False by done. by apply (tk_open _ _ _ H id').
  - intros id'. destruct (decide (id' = id)) as [->|Hne]; [by rewrite !lookup_delete_eq|].
    rewrite !lookup_delete_ne by done. rewrite (tk_abs _ _ _ H).
    destruct (S !! id') as [p'|] eqn:Hp'; [|done]. cbn [mbind option_bind]. rewrite Hsub.
    rewrite decide_False; [done|]. intros ->. by destruct Hne; apply (tk_inj _ _ _ H id' id p).
  - intros p' s'. rewrite Hsub. intros Hs'. cbn [tm_next set_sub].
    apply (Nat.lt_le_trans _ (tm_next tm)); [|done]. case_decide; [|by apply (tk_fresh _ _ _ H p' s')].
    subst. by apply (tk_fresh _ _ _ H p s).
  - intros t. change (topic_list _ t) with (topic_list tm1 t). rewrite Hl.
    case_decide; [apply NoDup_filter|]; apply (tk_nodup _ _ _ H).
  - intros t p'. change (topic_list _ t) with (topic_list tm1 t). rewrite Hl.
    apply (topic_lists_delete (topic_list tm0)); [apply (tk_inj _ _ _ H)|apply (tk_list _ _ _ H)|done|done].
Qed.

(** *** Publish *)

Lemma deliver_keeps s cached now :
  sub_closed (fst (deliver s cached now)) = sub_closed s ∧
  sub_topics (fst (deliver s cached now)) = sub_topics s.
Proof.
  unfold deliver. destruct (sub_closed s) eqn:Hc; [done|].
  destruct (sub_queue s) as [q|]; [by destruct (CachedQueue_Send q cached now)|].
  by destruct (_ <? _).
Qed.

(** Delivering to a list of subscribers reaches each of them once. *)
Lemma deliver_all_lookup cached now ps tm p :
  NoDup ps →
  tm_subs (fold_left (deliver_to cached now) ps tm) !! p =
    (λ s, if decide (p ∈ ps) then fst (deliver s cached now) else s) <$> tm_subs tm !! p.
Proof.
  intros Hnd. revert tm. induction Hnd as [|p0 ps Hp0 Hnd IH]; intros tm; cbn [fold_left].
  { by destruct (tm_subs tm !! p). }
  rewrite IH. clear IH. unfold deliver_to.
  assert (Hiff : p ∈ p0 :: ps ↔ p = p0 ∨ p ∈ ps) by apply elem_of_cons.
  destruct (tm_subs tm !! p0) as [s0|] eqn:Hs0; cbn [tm_subs set_sub].
  - destruct (decide (p = p0)) as [->|Hne].
    + rewrite lookup_insert_eq, Hs0. cbn. rewrite decide_False, decide_True by naive_solver. done.
    + rewrite lookup_insert_ne by done. destruct (tm_subs tm !! p) as [s|]; [|done]. cbn. f_equal.
      apply decide_ext. naive_solver.
  - destruct (decide (p = p0)) as [->|Hne]; [by rewrite Hs0|].
    destruct (tm_subs tm !! p) as [s|]; [|done]. cbn. f_equal. apply decide_ext. naive_solver.
Qed.

Lemma deliver_all_ok cached now ps tm S m :
  tm_ok tm S m → tm_ok (fold_left (deliver_to cached now) ps tm) S m.
Proof.
  revert tm. induction ps as [|p ps IH]; intros tm H; [done|]. cbn [fold_left]. apply IH.
  unfold deliver_to. destruct (tm_subs tm !! p) as [s|] eqn:Hs; [|done].
  destruct (deliver_keeps s cached now). by apply (set_sub_ok tm S m p s).
Qed.

Lemma TM_Publish_ok tm S m ev now : tm_ok tm S m → tm_ok (TM_Publish tm ev now) S m.
Proof.
  intros H. unfold TM_Publish. destruct (topics_Load _ _) as [ap|]; [|done].
  destruct (ap_Load tm ap) as [l|]; [|done]. by apply deliver_all_ok.
Qed.

Lemma TM_Publish_list tm ev now :
  TM_Publish tm ev now =
    fold_left (deliver_to (NewCachedEvent ev) now) (topic_list tm (event_symbol ev)) tm.
Proof.
  unfold TM_Publish, topic_list. destruct (topics_Load _ _) as [ap|]; [|done].
  by destruct (ap_Load tm ap).
Qed.

(** *** Runs *)

(** [OpReceive] is a consumer taking the next event of a legacy channel,
    [OpQueue] any activity of a queue's own goroutines and consumer. *)
Inductive tm_op :=
| OpSubscribe (id : string) (topics : list string)
| OpUnsubscribe (id : string)
| OpCancel (h : handle)
| OpPublish (ev : MarketEvent E) (now : Z)
| OpReceive (p : nat)
| OpQueue (p : nat) (f : CachedQueue (CachedEvent E) → CachedQueue (CachedEvent E)).

Definition update_sub (tm : MemoryManager) (p : nat) (f : subscriber → subscriber) : MemoryManager :=
  match tm_subs tm !! p with Some s => set_sub tm p (f s) | None => tm end.

Definition tm_exec (tm : MemoryManager) (op : tm_op) : outcome MemoryManager :=
  match op with
  | OpSubscribe id topics =>
      match TM_Subscribe tm id topics with Ret (tm, _) => Ret tm | Panic => Panic end
  | OpUnsubscribe id => Ret (TM_Unsubscribe tm id)
  | OpCancel h => Ret (handle_Cancel tm h)
  | OpPublish ev now => Ret (TM_Publish tm ev now)
  | OpReceive p =>
      Ret (update_sub tm p (λ s, mkSubscriber (tail (sub_ch s)) (sub_topics s) (sub_closed s)
                                   (sub_handle s) (sub_queue s) (sub_legacyDropped s)))
  | OpQueue p f =>
      Ret (update_sub tm p (λ s, mkSubscriber (sub_ch s) (sub_topics s) (sub_closed s)
                                   (sub_handle s) (f <$> sub_queue s) (sub_legacyDropped s)))
  end.

Fixpoint tm_run (tm : MemoryManager) (ops : list tm_op) : outcome MemoryManager :=
  match ops with
  | [] => Ret tm
  | op :: ops => match tm_exec tm op with Ret tm => tm_run tm ops | Panic => Panic end
  end.

(** The subscription table: which topics each ID is subscribed to. *)
Definition spec_exec (m : gmap string (gset string)) (op : tm_op) : gmap string (gset string) :=
  match op with
  | OpSubscribe id topics => spec_subscribe m id topics
  | OpUnsubscribe id => delete id m
  | OpCancel h => delete (h_id h) m
  | _ => m
  end.

Lemma tm_exec_ok tm S m op tm' :
  tm_ok tm S m → tm_exec tm op = Ret tm' → ∃ S', tm_ok tm' S' (spec_exec m op).
Proof.
  intros H. destruct op as [id topics|id|h|ev now|p|p f]; cbn [tm_exec spec_exec].
  - destruct (TM_Subscribe tm id topics) as [[tm1 h]|] eqn:Hs; [|done]. intros [= <-].
    by apply (TM_Subscribe_ok tm S m id topics tm1 h).
  - intros [= <-]. eexists. by apply TM_Unsubscribe_ok.
  - intros [= <-]. eexists. by apply TM_Unsubscribe_ok.
  - intros [= <-]. exists S. by apply TM_Publish_ok.
  - intros [= <-]. exists S. unfold update_sub. destruct (tm_subs tm !! p) eqn:Hs; [|done].
    by eapply set_sub_ok.
  - intros [= <-]. exists S. unfold update_sub. destruct (tm_subs tm !! p) eqn:Hs; [|done].
    by eapply set_sub_ok.
Qed.

Lemma tm_run_ok ops tm S m tm' :
  tm_ok tm S m → tm_run tm ops = Ret tm' → ∃ S', tm_ok tm' S' (fold_left spec_exec ops m).
Proof.
  revert tm S m. induction ops as [|op ops IH]; intros tm S m H; cbn [tm_run fold_left].
  { intros [= <-]. by exists S. }
  destruct (tm_exec tm op) as [tm1|] eqn:Hop; [|done].
  destruct (tm_exec_ok tm S m op tm1 H Hop) as [S' H']. by apply (IH tm1 S').
Qed.

(** The subscribers listed for a topic are as many as the IDs subscribed to it. *)
Lemma topic_list_length tm S m t :
  tm_ok tm S m →
  length (topic_list tm t) = size (filter (λ x : string * gset string, t ∈ x.2) m).
Proof.
  intros H. set (mt := filter (λ x : string * gset string, t ∈ x.2) m).
  assert (Hmt : ∀ id, id ∈ elements (dom mt) ↔ ∃ ts, m !! id = Some ts ∧ t ∈ ts).
  { intros id. rewrite elem_of_elements, elem_of_dom. unfold mt. split.
    - intros [ts [Hts Hin]%map_lookup_filter_Some]. by exists ts.
    - intros (ts & Hts & Hin). exists ts. by apply map_lookup_filter_Some. }
  set (f := λ id, default 0%nat (S !! id)).
  assert (Hf : ∀ id ts, m !! id = Some ts → S !! id = Some (f id)).
  { intros id ts Hm. rewrite (tk_abs _ _ _ H) in Hm. unfold f. by destruct (S !! id). }
  rewrite <- (size_dom (D := gset string) mt).
  transitivity (length (f <$> elements (dom mt))); [|by rewrite length_fmap].
  apply Permutation_length, NoDup_Permutation.
  - apply (tk_nodup _ _ _ H).
  - apply NoDup_fmap_2_strong; [|apply NoDup_elements].
    intros id1 id2 (ts1 & H1 & _)%Hmt (ts2 & H2 & _)%Hmt Heq. apply Hf in H1, H2.
    rewrite <- Heq in H2. by apply (tk_inj _ _ _ H id1 id2 (f id1)).
  - intros p. rewrite (tk_list _ _ _ H), list_elem_of_fmap. split.
    + intros (id & ts & Hp & Hm & Hin). exists id. rewrite Hmt. split; [|by exists ts].
      apply Hf in Hm. congruence.
    + intros (id & -> & (ts & Hm & Hin)%Hmt). exists id, ts. split_and!; [by eapply Hf|done|done].
Qed.

(** A registered topic is one somebody is subscribed to. *)
Lemma topics_listed tm S m T t :
  tm_ok tm S m → topics_ok tm T →
  is_Some (T !! t) ↔ ∃ id ts, m !! id = Some ts ∧ t ∈ ts.
Proof.
  intros H HT. assert (Hne : is_Some (T !! t) ↔ topic_list tm t ≠ []).
  { rewrite (topic_list_ok _ _ t HT). destruct (T !! t) as [ap|] eqn:Ht; cbn [from_option].
    - split; [intros _; by apply (to_subs _ _ HT t)|by eexists].
    - split; [by intros []|done]. }
  rewrite Hne. split.
  - intros Hl. destruct (topic_list tm t) as [|p l] eqn:Hpl; [done|].
    destruct (proj1 (tk_list _ _ _ H t p)) as (id & ts & _ & ? & ?); [rewrite Hpl; by left|].
    by exists id, ts.
  - intros (id & ts & Hm & Hin) Hnil. pose proof (tk_abs _ _ _ H id) as Ha. rewrite Hm in Ha.
    destruct (S !! id) as [p|] eqn:Hp; [|done].
    assert (Hp' : p ∈ topic_list tm t) by (apply (tk_list _ _ _ H); by exists id, ts).
    rewrite Hnil in Hp'. by apply elem_of_nil in Hp'.
Qed.

(** What the queries answer, in terms of the table. *)
Lemma TM_SubscriberCount_ok tm S m t :
  tm_ok tm S m → TM_SubscriberCount tm t = size (filter (λ x : string * gset string, t ∈ x.2) m).
Proof.
  intros H. rewrite <- (topic_list_length tm S m t H). unfold TM_SubscriberCount, topic_list.
  destruct (topics_Load tm t) as [ap|]; [|done]. by destruct (ap_Load tm ap).
Qed.

Lemma TM_Topics_ok tm S m :
  tm_ok tm S m →
  NoDup (TM_Topics tm) ∧ ∀ t, t ∈ TM_Topics tm ↔ ∃ id ts, m !! id = Some ts ∧ t ∈ ts.
Proof.
  intros H. destruct (tk_topics _ _ _ H) as [T HT].
  pose proof (flat_to_list _ _ (to_hash _ _ HT) _ _ (to_flat _ _ HT)) as Hperm.
  unfold TM_Topics. split; [rewrite Hperm; apply NoDup_fst_map_to_list|].
  intros t. rewrite Hperm, <- (topics_listed tm S m T t H HT), list_elem_of_fmap. split.
  - intros ([t' ap] & -> & Hin%elem_of_map_to_list). by exists ap.
  - intros [ap Hap]. exists (t, ap). split; [done|]. by apply elem_of_map_to_list.
Qed.

(** A manager as either constructor leaves it. *)
Definition fresh_manager (tm : MemoryManager) : Prop :=
  ∃ shards, tm = TM_New shards ∨ ∃ cfg reg, NewWithQueue shards cfg reg = Ret tm.

Lemma fresh_manager_ok tm : fresh_manager tm → tm_ok tm ∅ ∅.
Proof.
  intros (shards & [->|(cfg & reg & Hn)]); [apply TM_New_ok|by apply (NewWithQueue_ok shards cfg reg)].
Qed.

(** C29: the sharded, copy-on-write manager is a subscription table. After any
    calls of Subscribe, Unsubscribe, Cancel and Publish, with the consumers
    reading in between, [SubscriberCount] of a topic is the number of IDs
    subscribed to it and [Topics] lists, once each, exactly the topics somebody
    is subscribed to. *)
Theorem topic_manager_refines_table tm ops tm' :
  fresh_manager tm → tm_run tm ops = Ret tm' →
  let m := fold_left spec_exec ops ∅ in
  (∀ t, TM_SubscriberCount tm' t = size (filter (λ x : string * gset string, t ∈ x.2) m)) ∧
  NoDup (TM_Topics tm') ∧
  (∀ t, t ∈ TM_Topics tm' ↔ ∃ id ts, m !! id = Some ts ∧ t ∈ ts) ∧
  TM_TopicCount tm' = length (TM_Topics tm').
Proof.
  intros Hfresh Hrun m.
  destruct (tm_run_ok ops tm ∅ ∅ tm' (fresh_manager_ok _ Hfresh) Hrun) as [S H]. fold m in H.
  destruct (TM_Topics_ok tm' S m H) as [Hnd Hin]. split_and!; [|done|done|].
  - intros t. by apply (TM_SubscriberCount_ok tm' S).
  - unfold TM_TopicCount, TM_Topics. rewrite length_fmap. clear.
    induction (tm_shards tm') as [|sh ss IH]; [done|].
    rewrite !fmap_cons, concat_cons, length_app, length_map_to_list. simpl. by rewrite IH.
Qed.

(** What a subscriber gains from one event: one send to its queue, or the event
    at the end of its channel when there is room, counted as dropped otherwise. *)
Definition received (c : CachedEvent E) (now : Z) (s s' : subscriber) : Prop :=
  sub_topics s' = sub_topics s ∧ sub_closed s' = sub_closed s ∧ sub_handle s' = sub_handle s ∧
  match sub_queue s with
  | Some q => sub_queue s' = Some (fst (CachedQueue_Send q c now)) ∧ sub_ch s' = sub_ch s ∧
              sub_legacyDropped s' = sub_legacyDropped s
  | None => sub_queue s' = None ∧
      ((length (sub_ch s) < 64)%nat ∧ sub_ch s' = sub_ch s ++ [c] ∧
         sub_legacyDropped s' = sub_legacyDropped s ∨
       (64 ≤ length (sub_ch s))%nat ∧ sub_ch s' = sub_ch s ∧
         sub_legacyDropped s' = u64 (sub_legacyDropped s + 1))
  end.

Lemma deliver_received s c now :
  sub_closed s = false → received c now s (fst (deliver s c now)).
Proof.
  intros Hc. unfold received, deliver. rewrite Hc. destruct (sub_queue s) as [q|].
  - by destruct (CachedQueue_Send q c now) as [q' ok].
  - unfold defaultBuffer. destruct (Z.ltb_spec (Z.of_nat (length (sub_ch s))) 64); cbn.
    + split_and!; [done..|]. left. split_and!; [lia|done|done].
    + split_and!; [done..|]. right. split_and!; [lia|done|done].
Qed.

(** C30: an event reaches exactly the subscribers of its symbol, once each. After
    any calls, [Publish] offers the encoded event once to the queue or channel of
    every ID subscribed to the event's symbol (appending it to a channel with
    room, counting the drop on a full one), leaves every other subscriber as it
    was, and changes no subscription. *)
Theorem publish_reaches_exactly_subscribers tm0 ops tm ev now :
  fresh_manager tm0 → tm_run tm0 ops = Ret tm →
  let m := fold_left spec_exec ops ∅ in
  let tm' := TM_Publish tm ev now in
  (∀ id ts, m !! id = Some ts → ∃ p s s', subs_lookup tm id = Some p ∧
     tm_subs tm !! p = Some s ∧ tm_subs tm' !! p = Some s' ∧ sub_closed s = false ∧
     (event_symbol ev ∈ ts → received (NewCachedEvent ev) now s s') ∧
     (event_symbol ev ∉ ts → s' = s)) ∧
  (∀ p, (∀ id, subs_lookup tm id ≠ Some p) → tm_subs tm' !! p = tm_subs tm !! p) ∧
  (∀ id, subs_lookup tm' id = subs_lookup tm id) ∧
  (∀ t, TM_SubscriberCount tm' t = TM_SubscriberCount tm t).
Proof.
  intros Hfresh Hrun m tm'.
  destruct (tm_run_ok ops tm0 ∅ ∅ tm (fresh_manager_ok _ Hfresh) Hrun) as [S H]. fold m in H.
  pose proof (TM_Publish_ok tm S m ev now H) as H'. fold tm' in H'.
  assert (Hl : ∀ p, tm_subs tm' !! p = (λ s, if decide (p ∈ topic_list tm (event_symbol ev))
                    then fst (deliver s (NewCachedEvent ev) now) else s) <$> tm_subs tm !! p).
  { intros p. unfold tm'. rewrite TM_Publish_list. apply deliver_all_lookup, (tk_nodup _ _ _ H). }
  split_and!.
  - intros id ts Hm. pose proof (tk_abs _ _ _ H id) as Ha. rewrite Hm in Ha.
    destruct (S !! id) as [p|] eqn:Hp; [|done]. destruct (tk_open _ _ _ H id p Hp) as (s & Hs & Hc).
    assert (Hin : p ∈ topic_list tm (event_symbol ev) ↔ event_symbol ev ∈ ts).
    { rewrite (tk_list _ _ _ H). split; [|by exists id, ts].
      intros (id' & ts' & Hp' & Hm' & Hin). rewrite (tk_inj _ _ _ H id' id p Hp' Hp) in Hm'.
      congruence. }
    specialize (Hl p). rewrite Hs in Hl. cbn in Hl.
    exists p, s. eexists. rewrite (subs_lookup_ok _ _ _ _ H), Hp. split_and!; [done|done|exact Hl|done| |].
    + intros Ht. rewrite decide_True by (by apply Hin). by apply deliver_received.
    + intros Ht. rewrite decide_False; [done|]. by rewrite Hin.
  - intros p Hno. rewrite Hl. destruct (tm_subs tm !! p) as [s|]; [|done]. cbn. f_equal.
    rewrite decide_False; [done|]. rewrite (tk_list _ _ _ H). intros (id & ts & Hp & _).
    apply (Hno id). by rewrite (subs_lookup_ok _ _ _ _ H).
  - intros id. by rewrite (subs_lookup_ok _ _ _ _ H), (subs_lookup_ok _ _ _ _ H').
  - intros t. unfold tm'. rewrite TM_Publish_list. generalize (topic_list tm (event_symbol ev)) as ps.
    intros ps. clear. revert tm. induction ps as [|p ps IH]; intros tm; [done|]. cbn [fold_left].
    rewrite IH. unfold deliver_to. by destruct (tm_subs tm !! p).
Qed.

(** Subscribing to topics does not touch the configuration or the registry. *)
Lemma subscribe_turn_reg tm p t :
  tm_reg (fst (subscribe_turn tm p t)) = tm_reg tm ∧
  tm_queueCfg (fst (subscribe_turn tm p t)) = tm_queueCfg tm.
Proof.
  unfold subscribe_turn, topics_LoadOrStore, ap_CompareAndSwap.
  destruct (topics_Load tm t); [by case_decide|]. by destruct (_ !! t).
Qed.

Lemma subscribe_topics_reg p topics tm :
  tm_reg (fold_left (subscribe_topic p) topics tm) = tm_reg tm ∧
  tm_queueCfg (fold_left (subscribe_topic p) topics tm) = tm_queueCfg tm.
Proof.
  revert tm. induction topics as [|t topics IH]; intros tm; [done|]. cbn [fold_left].
  destruct (IH (subscribe_topic p tm t)) as [-> ->]. unfold subscribe_topic.
  destruct (tm_subs tm !! p) as [s|]; [|done]. case_decide; [done|]. cbn [loop_until].
  destruct (subscribe_turn_reg tm p t) as [H1 H2].
  by destruct (subscribe_turn tm p t) as [tm1 []].
Qed.

Lemma ensure_handle_reg tm p id :
  tm_reg (fst (ensure_handle tm p id)) = tm_reg tm ∧
  tm_queueCfg (fst (ensure_handle tm p id)) = tm_queueCfg tm.
Proof.
  unfold ensure_handle. destruct (tm_subs tm !! p) as [s|]; [|done]. by destruct (sub_handle s).
Qed.

(** A new subscriber's queue registers its metrics with the manager's registry. *)
Lemma TM_Subscribe_new_reg tm id t topics tm' h cfg g :
  subs_lookup tm id = None → tm_queueCfg tm = Some cfg → tm_reg tm = Some g →
  TM_Subscribe tm id (t :: topics) = Ret (tm', h) →
  ∃ g', promauto_register g queue_metric_names = Some g' ∧ tm_reg tm' = Some g' ∧
    tm_queueCfg tm' = Some cfg.
Proof.
  intros Hid Hcfg Hreg. unfold TM_Subscribe, find_or_create, new_queue. rewrite Hid, Hcfg, Hreg.
  destruct (promauto_register g queue_metric_names) as [g'|]; [|done].
  destruct (NewCachedQueue id cfg) as [q|]; [|done].
  set (tm1 := fst (create_subscriber tm id (Some g') (Some q))).
  change (create_subscriber tm id (Some g') (Some q)) with (tm1, tm_next tm). intros Hret.
  exists g'. split; [done|].
  destruct (subscribe_topics_reg (tm_next tm) (t :: topics) tm1) as [Hr Hc].
  change (tm_reg tm1) with (Some g') in Hr. change (tm_queueCfg tm1) with (tm_queueCfg tm) in Hc.
  rewrite Hcfg in Hc.
  destruct (ensure_handle_reg (fold_left (subscribe_topic (tm_next tm)) (t :: topics) tm1)
              (tm_next tm) id) as [Hr2 Hc2].
  apply (f_equal (λ o, match o with Ret a => fst a | Panic => tm end)) in Hret. cbn beta iota in Hret.
  rewrite Hret in Hr2, Hc2. exact (conj (eq_trans Hr2 Hr) (eq_trans Hc2 Hc)).
Qed.

(** With a registry, only one client can subscribe.
    [NewCachedQueue] registers the same metric names for every queue, so the
    second client that subscribes to a manager built with a registry makes the
    registration panic. *)
Lemma second_subscriber_panics `{!RegistererLaws G} shards cfg g tm id1 id2 topics1 topics2 tm1 h :
  NewWithQueue shards cfg (Some g) = Ret tm → topics1 ≠ [] → topics2 ≠ [] → id1 ≠ id2 →
  TM_Subscribe tm id1 topics1 = Ret (tm1, h) → TM_Subscribe tm1 id2 topics2 = Panic.
Proof.
  intros Hn Ht1 Ht2 Hne Hsub. pose proof (NewWithQueue_ok _ _ _ _ Hn) as H.
  destruct (TM_Subscribe_ok _ _ _ _ _ _ _ H Hsub) as [S1 H1].
  assert (Hnone : subs_lookup tm1 id2 = None).
  { rewrite (subs_lookup_ok _ _ _ _ H1). destruct (S1 !! id2) as [p|] eqn:Hp; [|done].
    destruct (tk_open _ _ _ H1 id2 p Hp) as (s & Hs & _).
    pose proof (registered_topics _ _ _ _ _ _ H1 Hp Hs) as Hm. unfold spec_subscribe in Hm.
    destruct topics1; [done|]. by rewrite lookup_insert_ne in Hm. }
  assert (Hreg : ∃ g' cfg', tm_reg tm = Some g' ∧ tm_queueCfg tm = Some cfg').
  { unfold NewWithQueue in Hn. destruct (promauto_register g _); [|done].
    injection Hn as <-. eauto. }
  destruct Hreg as (g' & cfg' & Hg' & Hcfg'). destruct topics1 as [|t1 topics1]; [done|].
  assert (Hnew : subs_lookup tm id1 = None) by by rewrite (subs_lookup_ok _ _ _ _ H).
  destruct (TM_Subscribe_new_reg _ _ _ _ _ _ _ _ Hnew Hcfg' Hg' Hsub) as (g1 & Hg1 & Hreg & Hcfg).
  unfold TM_Subscribe. destruct topics2; [done|]. unfold find_or_create. rewrite Hnone, Hcfg.
  unfold new_queue. rewrite Hreg. by rewrite (register_twice g' _ g1 Hg1).
Qed.

(** ** Goroutines

    The loops of Subscribe and Unsubscribe for one topic, one atomic operation at
    a time. A goroutine holds its subscriber's lock, so it works on one topic of
    the subscriber at a time. *)

Inductive tm_pc :=
| SLoad
| SStore
| SAp (ap : nat)
| SSwap (ap : nat) (old : option subList)
| ULoad
| UAp (ap : nat)
| USwap (ap : nat) (old : option subList)
| UDelete
| TDone.

#[local] Instance subList_eq_dec : EqDecision subList.
Proof. solve_decision. Defined.
#[local] Instance tm_pc_eq_dec : EqDecision tm_pc.
Proof. solve_decision. Defined.

Record goroutine := mkG { g_sub : nat; g_topic : string; g_pc : tm_pc }.

Definition g_step (tm : MemoryManager) (g : goroutine) : MemoryManager * goroutine :=
  let p := g_sub g in
  let t := g_topic g in
  match g_pc g with
  | SLoad => (tm, mkG p t (match topics_Load tm t with None => SStore | Some ap => SAp ap end))
  | SStore =>
      let '(tm, loaded) := topics_LoadOrStore tm t [p] in
      (tm, mkG p t (if loaded then SLoad else TDone))
  | SAp ap => (tm, mkG p t (SSwap ap (ap_Load tm ap)))
  | SSwap ap old =>
      let '(tm, ok) := ap_CompareAndSwap tm ap old (Some (subs_of old ++ [p])) in
      (tm, mkG p t (if ok then TDone else SLoad))
  | ULoad => (tm, mkG p t (match topics_Load tm t with None => TDone | Some ap => UAp ap end))
  | UAp ap => (tm, mkG p t (USwap ap (ap_Load tm ap)))
  | USwap ap old =>
      match filter (λ s, s ≠ p) (subs_of old) with
      | [] =>
          let '(tm, ok) := ap_CompareAndSwap tm ap old None in
          (tm, mkG p t (if ok then UDelete else ULoad))
      | newSubs =>
          let '(tm, ok) := ap_CompareAndSwap tm ap old (Some newSubs) in
          (tm, mkG p t (if ok then TDone else ULoad))
      end
  | UDelete => (topics_Delete tm t, mkG p t TDone)
  | TDone => (tm, g)
  end.

Definition sched_step (st : MemoryManager * list goroutine) (i : nat)
    : MemoryManager * list goroutine :=
  match snd st !! i with
  | None => st
  | Some g => let '(tm, g) := g_step (fst st) g in (tm, <[i := g]> (snd st))
  end.
Definition run_schedule (st : MemoryManager * list goroutine) (schedule : list nat)
    : MemoryManager * list goroutine := fold_left sched_step schedule st.

(** The subscribers whose goroutines have finished with topic [t]. *)
Definition finished (t : string) (gs : list goroutine) : list nat :=
  g_sub <$> filter (λ g, g_topic g = t ∧ g_pc g = TDone) gs.

(** A subscribing goroutine's view: the list it is about to replace is the one
    in place, unless its address has changed. *)
Definition pc_ok (tm : MemoryManager) (T : gmap string nat) (g : goroutine) : Prop :=
  match g_pc g with
  | SLoad | SStore | TDone => True
  | SAp ap => T !! g_topic g = Some ap
  | SSwap ap old =>
      T !! g_topic g = Some ap ∧ ∃ l, old = Some l ∧ (sl_addr l < tm_next tm)%nat ∧
      ∀ l', ap_Load tm ap = Some l' → sl_addr l' = sl_addr l → l' = l
  | _ => False
  end.

(** New lists have new addresses, so the views stay right. *)
Lemma pc_ok_mono tm T tm' T' g :
  T ⊆ T' → (tm_next tm ≤ tm_next tm')%nat →
  (∀ ap l, ap_Load tm' ap = Some l → ap_Load tm ap = Some l ∨ (tm_next tm ≤ sl_addr l)%nat) →
  pc_ok tm T g → pc_ok tm' T' g.
Proof.
  intros HT Hn Hl. unfold pc_ok. destruct (g_pc g) as [| |ap|ap old| | | | |]; try done.
  - intros Hap. by eapply lookup_weaken.
  - intros (Hap & l & -> & Ha & Hsame). split; [by eapply lookup_weaken|].
    exists l. split_and!; [done|lia|]. intros l' Hl' Haddr. apply Hsame; [|done].
    destruct (Hl ap l' Hl'); [done|lia].
Qed.

Lemma finished_split t gs i g :
  gs !! i = Some g →
  finished t gs ≡ₚ finished t [g] ++ finished t (delete i gs).
Proof.
  intros Hi. unfold finished. rewrite <- fmap_app. apply fmap_Permutation.
  rewrite <- filter_app. apply filter_Permutation. by apply delete_Permutation.
Qed.

Lemma finished_insert t gs i g g' :
  gs !! i = Some g → g_pc g ≠ TDone →
  finished t (<[i := g']> gs) ≡ₚ finished t gs ++ finished t [g'].
Proof.
  intros Hi Hnd. rewrite (finished_split t gs i g Hi).
  assert (Hi' : <[i := g']> gs !! i = Some g')
    by (apply list_lookup_insert_eq; by eapply lookup_lt_Some).
  rewrite (finished_split t (<[i := g']> gs) i g' Hi').
  rewrite delete_insert_same by (by eapply lookup_lt_Some).
  replace (finished t [g]) with (@nil nat); [by rewrite (comm (++))|].
  unfold finished. by rewrite filter_cons_False by naive_solver.
Qed.

(** The effect of a step that leaves the goroutine at [g']: its topic has gained
    its subscriber if it has finished, and nothing else has changed. *)
Definition appended (tm : MemoryManager) (T : gmap string nat) (tm' : MemoryManager)
    (g' : goroutine) : Prop :=
  ∃ T', topics_ok tm' T' ∧ pc_ok tm' T' g' ∧ T ⊆ T' ∧ (tm_next tm ≤ tm_next tm')%nat ∧
    (∀ ap l, ap_Load tm' ap = Some l → ap_Load tm ap = Some l ∨ (tm_next tm ≤ sl_addr l)%nat) ∧
    (∀ t, topic_list tm' t = topic_list tm t ++ finished t [g']).

Lemma appended_stay tm T g' :
  topics_ok tm T → g_pc g' ≠ TDone → pc_ok tm T g' → appended tm T tm g'.
Proof.
  intros HT Hne Hok. exists T. split_and!; try done; [by left|]. intros t. unfold finished.
  rewrite filter_cons_False by naive_solver. by rewrite app_nil_r.
Qed.

Lemma appended_done tm T tm' T' p t :
  topics_ok tm' T' → T ⊆ T' → (tm_next tm ≤ tm_next tm')%nat →
  (∀ ap l, ap_Load tm' ap = Some l → ap_Load tm ap = Some l ∨ (tm_next tm ≤ sl_addr l)%nat) →
  topic_list tm' t = topic_list tm t ++ [p] →
  (∀ t', t' ≠ t → topic_list tm' t' = topic_list tm t') → appended tm T tm' (mkG p t TDone).
Proof.
  intros HT' Hsub Hn Hload Hl Ho. exists T'. split_and!; try done. intros t'. unfold finished.
  destruct (decide (t' = t)) as [->|Hne]; [by rewrite filter_cons_True by naive_solver|].
  rewrite filter_cons_False by naive_solver. rewrite app_nil_r. by apply Ho.
Qed.

Lemma SStore_appended tm T p t :
  topics_ok tm T →
  let '(tm', g') := g_step tm (mkG p t SStore) in appended tm T tm' g' ∧ g_sub g' = p ∧ g_topic g' = t.
Proof.
  intros HT. cbn [g_step g_pc g_sub g_topic]. destruct (T !! t) as [ap|] eqn:Ht.
  - assert (Hloaded : topics_LoadOrStore tm t [p] = (tm, true)).
    { unfold topics_LoadOrStore.
      destruct (flat_shard _ _ (to_hash _ _ HT) _ _ t (to_flat _ _ HT)) as (sh & Hsh & Hget).
      rewrite Hsh. change (default ∅ (Some sh)) with sh. by rewrite Hget, Ht. }
    rewrite Hloaded. split; [|done]. by apply appended_stay.
  - destruct (LoadOrStore_new tm T t [p] HT Ht ltac:(done)) as (tm' & -> & HT' & _ & Hn & Hl & Ho & Hload).
    split; [|done]. apply (appended_done tm T tm' (<[t := tm_next tm]> T)); try done.
    + by apply insert_subseteq.
    + lia.
    + intros ap l. rewrite Hload. case_decide; [intros [= <-]; right; cbn; lia|by left].
    + rewrite Hl. by rewrite (topic_list_ok _ _ t HT), Ht.
Qed.

Lemma SSwap_appended tm T p t ap l :
  topics_ok tm T → pc_ok tm T (mkG p t (SSwap ap (Some l))) →
  let '(tm', g') := g_step tm (mkG p t (SSwap ap (Some l))) in
  appended tm T tm' g' ∧ g_sub g' = p ∧ g_topic g' = t.
Proof.
  intros HT (Ht & ? & [= <-] & Haddr & Hsame). cbn [g_step g_pc g_sub g_topic] in *.
  destruct (decide (addr_of (ap_Load tm ap) = addr_of (Some l))) as [Heq|Hneq].
  - assert (Hcur : ap_Load tm ap = Some l).
    { destruct (ap_Load tm ap) as [l'|] eqn:Hl'; [|done]. f_equal. apply Hsame; [done|].
      by injection Heq. }
    rewrite <- Hcur.
    destruct (CompareAndSwap_list tm T t ap (subs_of (ap_Load tm ap) ++ [p]) HT Ht)
      as (tm' & -> & HT' & _ & Hn & Hl & Ho & Hload); [by destruct (subs_of _)|].
    split; [|done]. apply (appended_done tm T tm' T); try done; [lia| |].
    + intros ap' l'. rewrite Hload. case_decide; [intros [= <-]; right; cbn; lia|by left].
    + rewrite Hl. by rewrite (topic_list_ok _ _ t HT), Ht.
  - unfold ap_CompareAndSwap. rewrite decide_False by done. split; [|done]. by apply appended_stay.
Qed.

(** One step of a subscribing goroutine. *)
Lemma g_step_subscribe tm T g :
  topics_ok tm T → pc_ok tm T g → g_pc g ≠ TDone →
  let '(tm', g') := g_step tm g in
  appended tm T tm' g' ∧ g_sub g' = g_sub g ∧ g_topic g' = g_topic g.
Proof.
  intros HT Hpc Hnd. destruct g as [p t pc]. cbn [g_pc] in Hnd.
  destruct pc as [| |ap|ap old| | | | |]; try done.
  - cbn [g_step g_pc g_sub g_topic]. rewrite (topics_Load_ok _ _ _ HT).
    split; [|done]. apply appended_stay; [done|by destruct (T !! t)|].
    unfold pc_ok. by destruct (T !! t) eqn:Ht; cbn.
  - by apply SStore_appended.
  - cbn [g_step g_pc g_sub g_topic]. split; [|done]. apply appended_stay; [done|done|].
    split; [done|]. pose proof (to_subs _ _ HT t ap Hpc) as Hne.
    destruct (ap_Load tm ap) as [l|] eqn:Hl; [|done].
    exists l. split_and!; [done|by apply (to_addr _ _ HT ap)|]. intros l' [= ->]. done.
  - destruct old as [l|]; [by apply SSwap_appended|]. by destruct Hpc as (_ & ? & ? & _).
Qed.

(** *** Any interleaving of subscriptions *)

Record conc_ok (L0 : string → list nat) (st : MemoryManager * list goroutine) : Prop := {
  co_pc : ∃ T, topics_ok (fst st) T ∧ Forall (pc_ok (fst st) T) (snd st);
  co_list : ∀ t, ∃ order, topic_list (fst st) t = L0 t ++ order ∧ order ≡ₚ finished t (snd st);
}.

Lemma sched_step_ok L0 st i : conc_ok L0 st → conc_ok L0 (sched_step st i).
Proof.
  intros [(T & HT & Hpc) Hl]. destruct st as [tm gs]. unfold sched_step. cbn [fst snd] in *.
  destruct (gs !! i) as [g|] eqn:Hi; [|split; [by exists T|done]].
  destruct (decide (g_pc g = TDone)) as [Hd|Hnd].
  { destruct g as [p t pc]. cbn in Hd. subst pc. cbn. rewrite list_insert_id by done.
    split; [by exists T|done]. }
  pose proof (g_step_subscribe tm T g HT (Forall_lookup_1 _ _ _ _ Hpc Hi) Hnd) as Hs.
  destruct (g_step tm g) as [tm' g'].
  destruct Hs as ((T' & HT' & Hpc' & Hsub & Hn & Hload & Hlist) & _). split; cbn [fst snd].
  - exists T'. split; [done|]. apply Forall_insert; [|done].
    eapply Forall_impl; [exact Hpc|]. intros g0. by apply pc_ok_mono.
  - intros t. destruct (Hl t) as (order & Ho & Hperm). exists (order ++ finished t [g']).
    rewrite Hlist, Ho, (assoc_L (++)). split; [done|].
    by rewrite (finished_insert t gs i g g' Hi Hnd), Hperm.
Qed.

Lemma run_schedule_ok L0 st schedule : conc_ok L0 st → conc_ok L0 (run_schedule st schedule).
Proof.
  revert st. induction schedule as [|i schedule IH]; intros st H; [done|].
  cbn [run_schedule fold_left]. by apply IH, sched_step_ok.
Qed.

(** Left alone, a subscribing goroutine finishes within four steps. *)
Fixpoint solo (n : nat) (tm : MemoryManager) (g : goroutine) : MemoryManager * goroutine :=
  match n with
  | O => (tm, g)
  | S n => let '(tm, g) := g_step tm g in solo n tm g
  end.

Lemma solo_done n tm g : g_pc g = TDone → solo n tm g = (tm, g).
Proof.
  intros Hd. induction n as [|n IH]; [done|]. cbn [solo]. unfold g_step. by rewrite Hd.
Qed.

Lemma solo_S n tm g : solo (S n) tm g = let '(tm, g) := g_step tm g in solo n tm g.
Proof. done. Qed.

Lemma solo_add a b tm g : solo (a + b) tm g = let '(tm, g) := solo a tm g in solo b tm g.
Proof.
  revert tm g. induction a as [|a IH]; intros tm g; [done|]. cbn [solo Nat.add].
  destruct (g_step tm g) as [tm1 g1]. apply IH.
Qed.

Lemma solo_load tm T p t : topics_ok tm T → g_pc (snd (solo 3 tm (mkG p t SLoad))) = TDone.
Proof.
  intros HT. cbn [solo g_step g_pc g_sub g_topic]. rewrite (topics_Load_ok _ _ _ HT).
  destruct (T !! t) as [ap|] eqn:Ht.
  - cbn [solo g_step g_pc g_sub g_topic]. unfold ap_CompareAndSwap. by rewrite decide_True.
  - cbn [solo g_step g_pc g_sub g_topic].
    destruct (LoadOrStore_new tm T t [p] HT Ht ltac:(done)) as (tm' & -> & _). done.
Qed.

Lemma solo_finishes tm T g :
  topics_ok tm T → pc_ok tm T g → g_pc (snd (solo 4 tm g)) = TDone.
Proof.
  intros HT Hpc. destruct g as [p t pc]. destruct pc as [| |ap|ap old| | | | |]; try done.
  - change 4%nat with (3 + 1)%nat. rewrite solo_add. pose proof (solo_load tm T p t HT) as Hd.
    destruct (solo 3 tm (mkG p t SLoad)) as [tm1 g1]. cbn [snd] in Hd. by rewrite solo_done.
  - pose proof (SStore_appended tm T p t HT) as Hs. rewrite solo_S.
    destruct (g_step tm (mkG p t SStore)) as [tm1 g1] eqn:Hg.
    destruct Hs as ((T1 & HT1 & _) & _). cbn [g_step g_pc g_sub g_topic] in Hg.
    destruct (topics_LoadOrStore tm t [p]) as [tm2 [|]]; injection Hg as <- <-;
      [by apply (solo_load _ T1)|by rewrite solo_done].
  - cbn [solo g_step g_pc g_sub g_topic]. unfold ap_CompareAndSwap. by rewrite decide_True.
  - destruct old as [l|]; [|by destruct Hpc as (_ & ? & ? & _)].
    pose proof (SSwap_appended tm T p t ap l HT Hpc) as Hs. rewrite solo_S.
    destruct (g_step tm (mkG p t (SSwap ap (Some l)))) as [tm1 g1] eqn:Hg.
    destruct Hs as ((T1 & HT1 & _) & _). cbn [g_step g_pc g_sub g_topic] in Hg.
    destruct (ap_CompareAndSwap _ _ _ _) as [tm2 [|]]; injection Hg as <- <-;
      [by rewrite solo_done|by apply (solo_load _ T1)].
Qed.

Lemma sched_step_eq tm gs i g tm' g' :
  gs !! i = Some g → g_step tm g = (tm', g') → sched_step (tm, gs) i = (tm', <[i := g']> gs).
Proof. intros Hi Hg. unfold sched_step. cbn [fst snd]. by rewrite Hi, Hg. Qed.

(** Concurrent subscriptions are never lost and never block each other. From
    any manager reached by calls, let any number of goroutines subscribe to
    topics, in any interleaving of their loads, stores and compare-and-swaps:
    every list is the old one followed by exactly the subscribers whose
    goroutines have finished, and at any moment each goroutine, left alone,
    finishes within four steps. *)
Lemma concurrent_subscribes_all_land tm0 ops tm gs schedule :
  fresh_manager tm0 → tm_run tm0 ops = Ret tm → Forall (λ g, g_pc g = SLoad) gs →
  let '(tm', gs') := run_schedule (tm, gs) schedule in
  (∀ t, ∃ order, topic_list tm' t = topic_list tm t ++ order ∧ order ≡ₚ finished t gs') ∧
  (∀ i g, gs' !! i = Some g → g_pc (snd (solo 4 tm' g)) = TDone).
Proof.
  intros Hfresh Hrun Hgs.
  destruct (tm_run_ok ops tm0 ∅ ∅ tm (fresh_manager_ok _ Hfresh) Hrun) as [ids H].
  destruct (tk_topics _ _ _ H) as [T HT].
  assert (Hinit : conc_ok (topic_list tm) (tm, gs)).
  { split; cbn [fst snd].
    - exists T. split; [done|]. eapply Forall_impl; [exact Hgs|]. intros g Hg. unfold pc_ok. by rewrite Hg.
    - intros t. exists []. rewrite app_nil_r. split; [done|]. unfold finished.
      rewrite filter_none; [done|]. eapply Forall_impl; [exact Hgs|]. intros g Hg [_ ?]. congruence. }
  pose proof (run_schedule_ok _ _ schedule Hinit) as [(T' & HT' & Hpc) Hl].
  destruct (run_schedule (tm, gs) schedule) as [tm' gs']. cbn [fst snd] in *. split; [done|].
  intros i g Hi. apply (solo_finishes tm' T'); [done|]. by eapply Forall_lookup_1.
Qed.

(** A subscription can be lost to a concurrent
    unsubscribe. Unsubscribe swaps the last subscriber's list for nil and deletes
    the topic in a second operation; a Subscribe that swaps its list in between
    finishes, and the deletion then takes the topic with it. *)
Lemma unsubscribe_race_loses_subscriber tm0 ops tm t a b :
  fresh_manager tm0 → tm_run tm0 ops = Ret tm → topic_list tm t = [a] →
  ∃ schedule,
    let '(tm', gs') := run_schedule (tm, [mkG a t ULoad; mkG b t SLoad]) schedule in
    Forall (λ g, g_pc g = TDone) gs' ∧ finished t gs' = [a; b] ∧ TM_SubscriberCount tm' t = 0%nat.
Proof.
  intros Hfresh Hrun Ha.
  destruct (tm_run_ok ops tm0 ∅ ∅ tm (fresh_manager_ok _ Hfresh) Hrun) as [ids H].
  destruct (tk_topics _ _ _ H) as [T HT]. exists [0; 0; 0; 1; 1; 1; 0]%nat.
  rewrite (topic_list_ok _ _ t HT) in Ha. destruct (T !! t) as [ap|] eqn:Ht; [|done].
  cbn [from_option] in Ha.
  assert (Hload : ∀ tm1, tm_shards tm1 = tm_shards tm → tm_shardMask tm1 = tm_shardMask tm →
                    topics_Load tm1 t = Some ap).
  { intros tm1 H1 H2. rewrite <- Ht, <- (topics_Load_ok _ _ t HT).
    unfold topics_Load, hashTopic. by rewrite H1, H2. }
  set (tm1 := set_topics tm (tm_shards tm) (<[ap := None]> (tm_aps tm)) (S (tm_next tm))).
  assert (Hnil : ap_Load tm1 ap = None).
  { unfold tm1. rewrite ap_Load_insert. by case_decide. }
  set (tm2 := set_topics tm1 (tm_shards tm1) (<[ap := Some (mkSubList (tm_next tm1) [b])]> (tm_aps tm1))
                (S (tm_next tm1))).
  assert (Hswap : g_step tm (mkG a t (USwap ap (ap_Load tm ap))) = (tm1, mkG a t UDelete)).
  { cbn [g_step g_pc g_sub g_topic]. rewrite Ha.
    rewrite filter_cons_False by naive_solver. cbn [filter list_filter].
    unfold ap_CompareAndSwap. by rewrite decide_True. }
  assert (Hland : g_step tm1 (mkG b t (SSwap ap None)) = (tm2, mkG b t TDone)).
  { cbn [g_step g_pc g_sub g_topic]. unfold ap_CompareAndSwap. by rewrite Hnil, decide_True. }
  assert (Hrun7 : run_schedule (tm, [mkG a t ULoad; mkG b t SLoad]) [0; 0; 0; 1; 1; 1; 0]%nat =
                  (topics_Delete tm2 t, [mkG a t TDone; mkG b t TDone])).
  { unfold run_schedule. cbn [fold_left].
    rewrite (sched_step_eq tm _ 0 (mkG a t ULoad) tm (mkG a t (UAp ap))) by
      (done || (cbn [g_step g_pc g_sub g_topic]; by rewrite Hload)).
    rewrite (sched_step_eq tm _ 0 (mkG a t (UAp ap)) tm (mkG a t (USwap ap (ap_Load tm ap)))) by done.
    rewrite (sched_step_eq tm _ 0 (mkG a t (USwap ap (ap_Load tm ap))) tm1 (mkG a t UDelete)) by done.
    rewrite (sched_step_eq tm1 _ 1 (mkG b t SLoad) tm1 (mkG b t (SAp ap))) by
      (done || (cbn [g_step g_pc g_sub g_topic]; by rewrite Hload)).
    rewrite (sched_step_eq tm1 _ 1 (mkG b t (SAp ap)) tm1 (mkG b t (SSwap ap None))) by
      (done || (cbn [g_step g_pc g_sub g_topic]; by rewrite Hnil)).
    rewrite (sched_step_eq tm1 _ 1 (mkG b t (SSwap ap None)) tm2 (mkG b t TDone)) by done.
    by rewrite (sched_step_eq tm2 _ 0 (mkG a t UDelete) (topics_Delete tm2 t) (mkG a t TDone)). }
  rewrite Hrun7. split_and!; [by repeat constructor| |].
  - unfold finished. by rewrite !filter_cons_True by naive_solver.
  - unfold TM_SubscriberCount, topics_Load, topics_Delete. cbn [tm_shards set_topics].
    change (hashTopic _ t) with (hashTopic tm t). change (tm_shards tm2) with (tm_shards tm).
    rewrite list_lookup_insert_eq by apply (to_hash _ _ HT). cbn. by rewrite lookup_delete_eq.
Qed.

End topic_manager.

Arguments subscriber : clear implicits.
Arguments MemoryManager : clear implicits.

(** ** Examples *)

(** A registry as the list of the registered names. *)
Instance list_registerer : Registerer (list string) := {|
  promauto_register g names :=
    if existsb (λ n, existsb (String.eqb n) g) names then None else Some (names ++ g);
|}.
Instance list_registerer_laws : RegistererLaws (list string).
Proof.
  split. intros g names g'. cbn. destruct (existsb _ names) eqn:E1; [done|]. intros [= <-] Hne.
  destruct names as [|n names]; [done|]. cbn. by rewrite String.eqb_refl.
Qed.

(** A trade: a symbol and a price, encoded as nothing but the encoder's newline. *)
Instance trade_event : MarketEventOps (string * Z) := {|
  EventSymbol := fst;
  EventType _ := "trade";
  json_Encode _ := Some [newline];
  ProtobufEncoder := None;
  FlatBuffersEncoder := None;
|}.

Definition trade (symbol : string) (price : Z) : MarketEvent (string * Z) :=
  Base (Concrete (symbol, price)).
Definition tm_empty : MemoryManager (list string) (string * Z) := TM_New 0.
Definition tm_demo_ops : list (@tm_op (string * Z)) :=
  [OpSubscribe "alice" ["AAPL"; "MSFT"]; OpSubscribe "bob" ["AAPL"]; OpPublish (trade "AAPL" 100) 0;
   OpSubscribe "carol" ["TSLA"]; OpUnsubscribe "bob"].
Definition tm_demo : MemoryManager (list string) (string * Z) :=
  match tm_run tm_empty tm_demo_ops with Ret tm => tm | Panic => tm_empty end.

Lemma tm_empty_fresh : fresh_manager tm_empty.
Proof. exists 0. by left. Qed.

Lemma topic_manager_refines_table_witness :
  tm_run tm_empty tm_demo_ops = Ret tm_demo ∧
  TM_SubscriberCount tm_demo "AAPL" = 1%nat ∧ NoDup (TM_Topics tm_demo) ∧
  TM_TopicCount tm_demo = length (TM_Topics tm_demo).
Proof.
  assert (Hrun : tm_run tm_empty tm_demo_ops = Ret tm_demo) by (vm_compute; reflexivity).
  destruct (topic_manager_refines_table tm_empty tm_demo_ops tm_demo tm_empty_fresh Hrun)
    as (H1 & H2 & _ & H4).
  refine (conj Hrun (conj (eq_trans (H1 "AAPL") _) (conj H2 H4))). vm_compute. reflexivity.
Defined.

Lemma publish_reaches_exactly_subscribers_witness :
  tm_run tm_empty tm_demo_ops = Ret tm_demo ∧
  ∀ t, TM_SubscriberCount (TM_Publish tm_demo (trade "TSLA" 7) 0) t = TM_SubscriberCount tm_demo t.
Proof.
  assert (Hrun : tm_run tm_empty tm_demo_ops = Ret tm_demo) by (vm_compute; reflexivity).
  destruct (publish_reaches_exactly_subscribers tm_empty tm_demo_ops tm_demo (trade "TSLA" 7) 0
              tm_empty_fresh Hrun) as (_ & _ & _ & H4).
  exact (conj Hrun H4).
Defined.

(** What each subscriber of the demonstration has in its channel afterwards. *)
Example publish_demo :
  let tm := TM_Publish tm_demo (trade "TSLA" 7) 0 in
  (λ id, (λ s, ce_Event <$> sub_ch s) <$> (subs_lookup tm id ≫= λ p, tm_subs tm !! p)) <$>
    ["alice"; "bob"; "carol"] =
  [Some [Concrete ("AAPL", 100)]; None; Some [Concrete ("TSLA", 7)]].
Proof. vm_compute. reflexivity. Qed.

Definition queue_manager : MemoryManager (list string) (string * Z) :=
  match NewWithQueue 0 None (Some []) with Ret tm => tm | Panic => tm_empty end.
Definition queue_manager_one : MemoryManager (list string) (string * Z) * option handle :=
  match TM_Subscribe queue_manager "alice" ["AAPL"] with Ret r => r | Panic => (tm_empty, None) end.

Lemma second_subscriber_panics_witness :
  TM_Subscribe queue_manager "alice" ["AAPL"] = Ret (fst queue_manager_one, snd queue_manager_one) ∧
  TM_Subscribe (fst queue_manager_one) "bob" ["MSFT"] = Panic.
Proof.
  assert (Hn : NewWithQueue (E := string * Z) 0 None (Some ([] : list string)) = Ret queue_manager)
    by (vm_compute; reflexivity).
  assert (Hone : TM_Subscribe queue_manager "alice" ["AAPL"] =
                 Ret (fst queue_manager_one, snd queue_manager_one)) by (vm_compute; reflexivity).
  exact (conj Hone (second_subscriber_panics 0 None [] queue_manager "alice" "bob" ["AAPL"] ["MSFT"]
    (fst queue_manager_one) (snd queue_manager_one) Hn ltac:(discriminate) ltac:(discriminate)
    ltac:(discriminate) Hone)).
Defined.

(** Two new clients and two topics, interleaved. *)
Lemma concurrent_subscribes_all_land_witness :
  let '(tm', gs') := run_schedule (tm_demo, [mkG 90 "AAPL" SLoad; mkG 91 "AAPL" SLoad; mkG 90 "GOOG" SLoad])
                       [0; 1; 0; 1; 1; 0; 2; 0; 2; 0; 0]%nat in
  finished "AAPL" gs' = [90; 91]%nat ∧
  ∃ order, topic_list tm' "AAPL" = topic_list tm_demo "AAPL" ++ order ∧ order ≡ₚ finished "AAPL" gs'.
Proof.
  assert (Hrun : tm_run tm_empty tm_demo_ops = Ret tm_demo) by (vm_compute; reflexivity).
  pose proof (concurrent_subscribes_all_land tm_empty tm_demo_ops tm_demo
    [mkG 90 "AAPL" SLoad; mkG 91 "AAPL" SLoad; mkG 90 "GOOG" SLoad] [0; 1; 0; 1; 1; 0; 2; 0; 2; 0; 0]%nat
    tm_empty_fresh Hrun ltac:(repeat constructor)) as H.
  assert (Hfin : finished "AAPL" (snd (run_schedule
    (tm_demo, [mkG 90 "AAPL" SLoad; mkG 91 "AAPL" SLoad; mkG 90 "GOOG" SLoad])
    [0; 1; 0; 1; 1; 0; 2; 0; 2; 0; 0]%nat)) = [90; 91]%nat) by (vm_compute; reflexivity).
  destruct (run_schedule _ _) as [tm' gs']. destruct H as [H1 _]. exact (conj Hfin (H1 "AAPL")).
Defined.

Lemma unsubscribe_race_loses_subscriber_witness :
  topic_list tm_demo "TSLA" = [7]%nat ∧
  ∃ schedule,
    let '(tm', gs') := run_schedule (tm_demo, [mkG 7 "TSLA" ULoad; mkG 90 "TSLA" SLoad]) schedule in
    Forall (λ g, g_pc g = TDone) gs' ∧ finished "TSLA" gs' = [7; 90]%nat ∧
    TM_SubscriberCount tm' "TSLA" = 0%nat.
Proof.
  assert (Hrun : tm_run tm_empty tm_demo_ops = Ret tm_demo) by (vm_compute; reflexivity).
  assert (Hl : topic_list tm_demo "TSLA" = [7]%nat) by (vm_compute; reflexivity).
  exact (conj Hl (unsubscribe_race_loses_subscriber tm_empty tm_demo_ops tm_demo "TSLA" 7 90
                    tm_empty_fresh Hrun Hl)).
Defined.
