(* ===== verification/Router.v ===== *)
(** * Router: Redis subscriptions that follow local demand

    [internal/topicmanager/router.go] and [groups.go], with the part of
    [internal/distribution/redisbus/subscriber.go] and of [internal/app/app.go]
    that the router calls back: [DistributedRouter] wraps a local topic manager,
    counts the local subscribers of every symbol in 16 shards, and asks for the
    Redis channel of a symbol while somebody wants it. The local manager is the
    interface [LocalManager] (the source's Manager) with its laws; [MemoryManager] is an instance. A call by
    one goroutine at a time is a function; calls that interleave between the
    locked sections and the callbacks are the step function [r_step]. *)

From S2P Require Import Prelude Bytes Sharded Float64 Ring Channel ClientQueue MarketEvent TopicManager.

(** ** The interface topicmanager.Manager *)

Class LocalManager (M H Ev : Type) := {
  mg_Subscribe : M → string → list string → outcome (M * option H);
  mg_Cancel : M → H → M;
  mg_Unsubscribe : M → string → M;
  mg_Publish : M → Ev → Z → M;
  mg_SubscriberCount : M → string → nat;
  mg_TopicCount : M → nat;
  mg_Topics : M → list string;
}.

(** What the router relies on: the manager stands for a table of the topics each
    ID is subscribed to. *)
Class LocalManagerLaws (M H Ev : Type) `{!LocalManager M H Ev} := {
  mg_table : M → gmap string (gset string) → Prop;
  mg_handle_id : H → string;
  mg_Subscribe_table m T id topics m' h :
    mg_table m T → mg_Subscribe m id topics = Ret (m', h) → mg_table m' (spec_subscribe T id topics);
  mg_Cancel_table m T h : mg_table m T → mg_table (mg_Cancel m h) (delete (mg_handle_id h) T);
  mg_Unsubscribe_table m T id : mg_table m T → mg_table (mg_Unsubscribe m id) (delete id T);
  mg_Publish_table m T ev now : mg_table m T → mg_table (mg_Publish m ev now) T;
  mg_count_table m T t :
    mg_table m T → mg_SubscriberCount m t = size (filter (λ x : string * gset string, t ∈ x.2) T);
  mg_topics_table m T t :
    mg_table m T → t ∈ mg_Topics m ↔ ∃ id ts, T !! id = Some ts ∧ t ∈ ts;
}.

#[export] Instance memory_manager {G E} `{!Registerer G, !MarketEventOps E}
    : LocalManager (MemoryManager G E) handle (MarketEvent E) := {|
  mg_Subscribe := TM_Subscribe;
  mg_Cancel := handle_Cancel;
  mg_Unsubscribe := TM_Unsubscribe;
  mg_Publish := TM_Publish;
  mg_SubscriberCount := TM_SubscriberCount;
  mg_TopicCount := TM_TopicCount;
  mg_Topics := TM_Topics;
|}.

#[export] Program Instance memory_manager_laws {G E} `{!Registerer G, !MarketEventOps E}
    : LocalManagerLaws (MemoryManager G E) handle (MarketEvent E) := {|
  mg_table tm T := ∃ S, tm_ok tm S T;
  mg_handle_id := h_id;
|}.
Next Obligation. intros G E ?? m T id topics m' h [S H] Hs. by apply (TM_Subscribe_ok m S T id topics m' h). Qed.
Next Obligation. intros G E ?? m T h [S H]. eexists. by apply TM_Unsubscribe_ok. Qed.
Next Obligation. intros G E ?? m T id [S H]. eexists. by apply TM_Unsubscribe_ok. Qed.
Next Obligation. intros G E ?? m T ev now [S H]. exists S. by apply TM_Publish_ok. Qed.
Next Obligation. intros G E ?? m T t [S H]. by apply (TM_SubscriberCount_ok m S). Qed.
Next Obligation. intros G E ?? m T t [S H]. by apply (TM_Topics_ok m S T H). Qed.

(** ** Topic groups (groups.go) *)

Record TopicGroup := mkGroup { g_Name : string; g_Channel : string; g_Symbols : list string }.

Definition DefaultTopicGroups : list TopicGroup :=
  [ mkGroup "equities" "market:equities"
      ["AAPL"; "MSFT"; "GOOG"; "AMZN"; "TSLA"; "NVDA"; "META"; "NFLX";
       "JPM"; "V"; "MA"; "UNH"; "JNJ"; "WMT"; "PG"; "HD"];
    mkGroup "crypto" "market:crypto"
      ["BTCUSD"; "ETHUSD"; "SOLUSD"; "ADAUSD"; "DOGEUSD"; "XRPUSD"];
    mkGroup "forex" "market:forex"
      ["EURUSD"; "GBPUSD"; "USDJPY"; "AUDUSD"; "USDCAD"; "USDCHF"];
    mkGroup "futures" "market:futures" ["ES"; "NQ"; "YM"; "RTY"; "CL"; "GC"; "SI"] ].

Fixpoint group_of (groups : list TopicGroup) (symbol : string) : string :=
  match groups with
  | [] => ""
  | g :: groups => if decide (symbol ∈ g_Symbols g) then g_Name g else group_of groups symbol
  end.

Definition SymbolToGroup (symbol : string) : string := group_of DefaultTopicGroups symbol.

Definition SymbolToChannel (symbol prefix : string) : string :=
  let group := SymbolToGroup symbol in
  if decide (group = "") then ""
  else if decide (Exists (λ g, g_Name g = group) DefaultTopicGroups) then prefix +:+ group else "".

Definition GroupChannel (groupName prefix : string) : string := prefix +:+ groupName.
Definition AllGroupChannels (prefix : string) : list string :=
  (λ g, prefix +:+ g_Name g) <$> DefaultTopicGroups.

Fixpoint find_group (groups : list TopicGroup) (groupName : string) : list string :=
  match groups with
  | [] => []
  | g :: groups => if decide (g_Name g = groupName) then g_Symbols g else find_group groups groupName
  end.
Definition GroupSymbols (groupName : string) : list string := find_group DefaultTopicGroups groupName.

(** No symbol is in two groups, so the first match is the only one. *)
Lemma groups_disjoint : NoDup (concat (g_Symbols <$> DefaultTopicGroups)).
Proof. apply (bool_decide_unpack _). vm_compute. exact I. Qed.

Lemma group_of_Some groups symbol :
  (∀ g, g ∈ groups → g_Name g ≠ "") → group_of groups symbol ≠ "" →
  ∃ g, g ∈ groups ∧ group_of groups symbol = g_Name g ∧ symbol ∈ g_Symbols g.
Proof.
  intros Hne. induction groups as [|g groups IH]; cbn [group_of]; [done|].
  case_decide as Hs; [intros _; exists g; by split_and!; [left| |]|].
  intros H. destruct IH as (g' & ? & ? & ?); [|done|by exists g'; split_and!; [right| |]].
  intros g' Hg'. apply Hne. by right.
Qed.

(** The channel of a known symbol is one of the group channels, and the symbol
    is listed under it. *)
Lemma symbol_channel_listed symbol prefix :
  SymbolToGroup symbol ≠ "" →
  SymbolToChannel symbol prefix = GroupChannel (SymbolToGroup symbol) prefix ∧
  SymbolToChannel symbol prefix ∈ AllGroupChannels prefix ∧
  symbol ∈ GroupSymbols (SymbolToGroup symbol).
Proof.
  intros Hg. destruct (group_of_Some DefaultTopicGroups symbol) as (g & Hin & Hn & Hs); [|done|].
  { intros g Hg'. repeat (apply elem_of_cons in Hg' as [->|Hg']; [done|]). by apply elem_of_nil in Hg'. }
  unfold SymbolToChannel, SymbolToGroup in *. rewrite decide_False by done.
  rewrite decide_True by (apply Exists_exists; by exists g).
  split_and!; [done| |].
  - apply list_elem_of_fmap. exists g. by rewrite Hn.
  - rewrite Hn. clear Hn Hg.
    repeat (apply elem_of_cons in Hin as [->|Hin]; [exact Hs|]). by apply elem_of_nil in Hin.
Qed.

(** ** The Redis subscriber (redisbus/subscriber.go)

    The set of symbols, and the commands sent once the connection exists. A
    command that fails is only logged. *)

Inductive RedisCommand := CmdSubscribe (chs : list string) | CmdUnsubscribe (chs : list string).

Record RedisSub := mkRedisSub {
  rd_prefix : string;
  rd_channels : gset string;
  rd_connected : bool;
  rd_commands : list RedisCommand;
}.

Definition rd_send (s : RedisSub) (channels : gset string) (cmd : RedisCommand) : RedisSub :=
  mkRedisSub (rd_prefix s) channels (rd_connected s)
    (if rd_connected s then rd_commands s ++ [cmd] else rd_commands s).

Definition RedisSub_Subscribe (s : RedisSub) (symbol : string) : RedisSub :=
  rd_send s ({[symbol]} ∪ rd_channels s) (CmdSubscribe [rd_prefix s +:+ symbol]).

(** The loop of SubscribeBatch: the set and the channels not in it before. *)
Definition batch_add (prefix : string) (acc : gset string * list string) (sym : string)
    : gset string * list string :=
  let '(channels, chs) := acc in
  if decide (sym ∈ channels) then acc else ({[sym]} ∪ channels, chs ++ [prefix +:+ sym]).

Definition RedisSub_SubscribeBatch (s : RedisSub) (symbols : list string) : RedisSub :=
  match symbols with
  | [] => s
  | _ :: _ =>
      let '(channels, chs) := fold_left (batch_add (rd_prefix s)) symbols (rd_channels s, []) in
      match chs with
      | [] => mkRedisSub (rd_prefix s) channels (rd_connected s) (rd_commands s)
      | _ :: _ => rd_send s channels (CmdSubscribe chs)
      end
  end.

Definition RedisSub_Unsubscribe (s : RedisSub) (symbol : string) : RedisSub :=
  rd_send s (rd_channels s ∖ {[symbol]}) (CmdUnsubscribe [rd_prefix s +:+ symbol]).

(** The order of the answer is not specified. *)
Definition RedisSub_SubscribedSymbols (s : RedisSub) : list string := elements (rd_channels s).

(** A batch adds what its symbols add one by one. *)
Lemma SubscribeBatch_channels s symbols :
  rd_channels (RedisSub_SubscribeBatch s symbols) =
  rd_channels (fold_left RedisSub_Subscribe symbols s).
Proof.
  assert (Hone : rd_channels (fold_left RedisSub_Subscribe symbols s) =
                 list_to_set symbols ∪ rd_channels s).
  { revert s. induction symbols as [|x symbols IH]; intros s; simpl; [set_solver|].
    rewrite IH. cbn. set_solver. }
  assert (Hb : ∀ c chs, fst (fold_left (batch_add (rd_prefix s)) symbols (c, chs)) =
                        list_to_set symbols ∪ c).
  { clear Hone. induction symbols as [|x symbols IH]; intros c chs; simpl; [set_solver|].
    case_decide; rewrite IH; set_solver. }
  rewrite Hone, <- (Hb _ []). unfold RedisSub_SubscribeBatch.
  destruct symbols as [|x symbols]; [done|].
  by destruct (fold_left (batch_add _) _ _) as [c chs]; destruct chs.
Qed.

(** ** The router *)

Inductive SubscriptionChange := SubscribeRequested | UnsubscribeRequested.

Definition defaultRouterShards : Z := 16.

Record symbolState := mkState { localCount : Z; redisSub : bool }.
Record symbolShard := mkShard { sh_subs : gmap string symbolState; sh_count : Z }.

Section router.
Context {M H Ev W : Type} `{!LocalManager M H Ev}.

(** [rt_sink] is what the callback acts on. *)
Record DistributedRouter := mkRouter {
  rt_local : M;
  rt_prefix : string;
  rt_gatewayID : string;
  rt_shards : list symbolShard;
  rt_shardMask : Z;
  rt_subs : gmap string (list string);
  rt_onChange : option (W → string → SubscriptionChange → W);
  rt_activeRedisSubs : Z;
  rt_eventsRouted : Z;
  rt_sink : W;
}.

(** The hash is the topic manager's, written out again in this file. *)
Definition routerHash (s : string) : Z :=
  fold_left (λ h b, u64 (Z.lxor h (byte_to_Z b) * 1099511628211)) (bytes_of_string s)
    14695981039346656037.

(** The options are the prefix and the callback. *)
Definition NewDistributedRouter (local : M) (prefix gatewayID : string)
    (onChange : option (W → string → SubscriptionChange → W)) (sink : W) : DistributedRouter :=
  mkRouter local prefix gatewayID (replicate (Z.to_nat defaultRouterShards) (mkShard ∅ 0))
    (u64 (defaultRouterShards - 1)) ∅ onChange 0 0 sink.

Definition shardFor (r : DistributedRouter) (symbol : string) : nat :=
  Z.to_nat (Z.land (routerHash symbol) (rt_shardMask r)).

Definition getShard (r : DistributedRouter) (symbol : string) : symbolShard :=
  default (mkShard ∅ 0) (rt_shards r !! shardFor r symbol).

Definition getOrCreateState (sh : symbolShard) (symbol : string) : symbolState :=
  default (mkState 0 false) (sh_subs sh !! symbol).

(** Storing the state of a symbol in shard [i], with the change of the number of
    Redis subscriptions. *)
Definition set_state (r : DistributedRouter) (i : nat) (symbol : string) (st : symbolState) (d : Z)
    : DistributedRouter :=
  let sh := default (mkShard ∅ 0) (rt_shards r !! i) in
  mkRouter (rt_local r) (rt_prefix r) (rt_gatewayID r)
    (<[i := mkShard (<[symbol := st]> (sh_subs sh)) (i64 (sh_count sh + d))]> (rt_shards r))
    (rt_shardMask r) (rt_subs r) (rt_onChange r) (i64 (rt_activeRedisSubs r + d))
    (rt_eventsRouted r) (rt_sink r).

Definition set_local (r : DistributedRouter) (local : M) : DistributedRouter :=
  mkRouter local (rt_prefix r) (rt_gatewayID r) (rt_shards r) (rt_shardMask r) (rt_subs r)
    (rt_onChange r) (rt_activeRedisSubs r) (rt_eventsRouted r) (rt_sink r).

Definition set_subs (r : DistributedRouter) (subs : gmap string (list string)) : DistributedRouter :=
  mkRouter (rt_local r) (rt_prefix r) (rt_gatewayID r) (rt_shards r) (rt_shardMask r) subs
    (rt_onChange r) (rt_activeRedisSubs r) (rt_eventsRouted r) (rt_sink r).

Definition fireOnChange (change : SubscriptionChange) (r : DistributedRouter) (symbol : string)
    : DistributedRouter :=
  match rt_onChange r with
  | None => r
  | Some f =>
      mkRouter (rt_local r) (rt_prefix r) (rt_gatewayID r) (rt_shards r) (rt_shardMask r) (rt_subs r)
        (rt_onChange r) (rt_activeRedisSubs r) (rt_eventsRouted r) (f (rt_sink r) symbol change)
  end.

(** The merge of the topics tracked for an ID. *)
Definition merge_topics (existing topics : list string) : list string :=
  fold_left (λ ex t, if decide (t ∈ ex) then ex else ex ++ [t]) topics existing.

Definition track (r : DistributedRouter) (id : string) (topics : list string) : DistributedRouter :=
  set_subs r (<[id := merge_topics (default [] (rt_subs r !! id)) topics]> (rt_subs r)).

(** The locked section of Subscribe for one topic; true when Redis is to be asked. *)
Definition count_up (r : DistributedRouter) (topic : string) : DistributedRouter * bool :=
  let st := getOrCreateState (getShard r topic) topic in
  let n := i32 (localCount st + 1) in
  if (n =? 1) && negb (redisSub st)
  then (set_state r (shardFor r topic) topic (mkState n true) 1, true)
  else (set_state r (shardFor r topic) topic (mkState n (redisSub st)) 0, false).

Definition count_up_all (acc : DistributedRouter * list string) (topic : string)
    : DistributedRouter * list string :=
  let '(r, toSubscribe) := acc in
  let '(r, first) := count_up r topic in
  (r, if first then toSubscribe ++ [topic] else toSubscribe).

Definition Router_Subscribe (r : DistributedRouter) (id : string) (topics : list string)
    : outcome (DistributedRouter * option H) :=
  match mg_Subscribe (rt_local r) id topics with
  | Panic => Panic
  | Ret (local, h) =>
      let r := track (set_local r local) id topics in
      let '(r, toSubscribe) := fold_left count_up_all topics (r, []) in
      Ret (fold_left (fireOnChange SubscribeRequested) toSubscribe r, h)
  end.

(** The locked section of Unsubscribe for one topic. *)
Definition count_down (r : DistributedRouter) (topic : string) : DistributedRouter * bool :=
  match sh_subs (getShard r topic) !! topic with
  | None => (r, false)
  | Some st =>
      let n := i32 (localCount st - 1) in
      let n := if n <? 0 then 0 else n in
      if (n =? 0) && redisSub st
      then (set_state r (shardFor r topic) topic (mkState n false) (-1), true)
      else (set_state r (shardFor r topic) topic (mkState n (redisSub st)) 0, false)
  end.

Definition count_down_all (acc : DistributedRouter * list string) (topic : string)
    : DistributedRouter * list string :=
  let '(r, toUnsubscribe) := acc in
  let '(r, last) := count_down r topic in
  (r, if last then toUnsubscribe ++ [topic] else toUnsubscribe).

Definition Router_Unsubscribe (r : DistributedRouter) (id : string) : DistributedRouter :=
  let r :=
    match rt_subs r !! id with
    | None => r
    | Some topics =>
        let r := set_subs r (delete id (rt_subs r)) in
        let '(r, toUnsubscribe) := fold_left count_down_all topics (r, []) in
        fold_left (fireOnChange UnsubscribeRequested) toUnsubscribe r
    end in
  set_local r (mg_Unsubscribe (rt_local r) id).

Definition Router_Publish (r : DistributedRouter) (event : Ev) (now : Z) : DistributedRouter :=
  mkRouter (mg_Publish (rt_local r) event now) (rt_prefix r) (rt_gatewayID r) (rt_shards r)
    (rt_shardMask r) (rt_subs r) (rt_onChange r) (rt_activeRedisSubs r)
    (u64 (rt_eventsRouted r + 1)) (rt_sink r).

Definition Router_SubscriberCount (r : DistributedRouter) (topic : string) : nat :=
  mg_SubscriberCount (rt_local r) topic.
Definition Router_TopicCount (r : DistributedRouter) : nat := mg_TopicCount (rt_local r).
Definition Router_Topics (r : DistributedRouter) : list string := mg_Topics (rt_local r).

Definition NeedsSymbol (r : DistributedRouter) (symbol : string) : bool :=
  match sh_subs (getShard r symbol) !! symbol with
  | Some st => 0 <? localCount st
  | None => false
  end.

Definition SymbolLocalCount (r : DistributedRouter) (symbol : string) : Z :=
  match sh_subs (getShard r symbol) !! symbol with Some st => localCount st | None => 0 end.

Definition ActiveRedisSubscriptions (r : DistributedRouter) : Z := rt_activeRedisSubs r.
Definition EventsRouted (r : DistributedRouter) : Z := rt_eventsRouted r.

Definition SymbolsWithLocalSubscribers (r : DistributedRouter) : nat :=
  sum_list ((λ sh, size (filter (λ x : string * symbolState, 0 < localCount x.2) (sh_subs sh)))
              <$> rt_shards r).

Definition Router_Subscribers (r : DistributedRouter) : gmap string (list string) := rt_subs r.

Definition SymbolsNeedingUnsubscribe (r : DistributedRouter) : list string :=
  concat ((λ sh, fst <$> map_to_list
             (filter (λ x : string * symbolState, localCount x.2 ≤ 0 ∧ redisSub x.2 = true)
                (sh_subs sh))) <$> rt_shards r).

(** The body of Reconcile for one symbol of shard [i]. *)
Definition reconcile_symbol (i : nat) (r : DistributedRouter) (sym : string) : DistributedRouter :=
  let state r := sh_subs (default (mkShard ∅ 0) (rt_shards r !! i)) !! sym in
  let r :=
    match state r with
    | Some st =>
        if (0 <? localCount st) && negb (redisSub st)
        then fireOnChange SubscribeRequested (set_state r i sym (mkState (localCount st) true) 1) sym
        else r
    | None => r
    end in
  match state r with
  | Some st =>
      if (localCount st <=? 0) && redisSub st
      then fireOnChange UnsubscribeRequested (set_state r i sym (mkState (localCount st) false) (-1)) sym
      else r
  | None => r
  end.

Definition reconcile_shard (r : DistributedRouter) (i : nat) : DistributedRouter :=
  fold_left (reconcile_symbol i)
    (fst <$> map_to_list (sh_subs (default (mkShard ∅ 0) (rt_shards r !! i)))) r.

Definition Reconcile (r : DistributedRouter) : DistributedRouter :=
  fold_left reconcile_shard (seq 0 (length (rt_shards r))) r.

Definition SymbolToRedisChannel (r : DistributedRouter) (topic : string) : string :=
  let group := SymbolToGroup topic in
  if decide (group = "") then rt_prefix r +:+ topic else rt_prefix r +:+ group.

(** ** The counters

    [SS] is the map of symbol states the shards hold; [n] bounds the counts. *)

Definition sidx (t : string) : nat := Z.to_nat (Z.land (routerHash t) 15).

Definition lcount (SS : gmap string symbolState) (t : string) : Z :=
  default 0 (localCount <$> SS !! t).
Definition wanted (SS : gmap string symbolState) : gset string :=
  dom (filter (λ x : string * symbolState, redisSub x.2 = true) SS).

Record symbols_ok (r : DistributedRouter) (SS : gmap string symbolState) (n : Z) : Prop := {
  so_mask : rt_shardMask r = 15;
  so_flat : flat 16 sidx (sh_subs <$> rt_shards r) SS;
  so_count : ∀ t st, SS !! t = Some st → 0 ≤ localCount st ≤ n ∧ redisSub st = (0 <? localCount st);
  so_size : Z.of_nat (size SS) ≤ n;
  so_active : rt_activeRedisSubs r = Z.of_nat (size (wanted SS));
}.

(** What the counting leaves alone. *)
Definition rframe (r : DistributedRouter) := (rt_local r, rt_subs r, rt_onChange r, rt_sink r).

Lemma sidx_lt t : (sidx t < 16)%nat.
Proof. apply (land_mask_lt (routerHash t) 16); [|lia]. apply fnv1a_nonneg. Qed.

Lemma shardFor_sidx r SS n t : symbols_ok r SS n → shardFor r t = sidx t.
Proof. intros Hok. unfold shardFor. by rewrite (so_mask _ _ _ Hok). Qed.

Lemma getShard_ok r SS n t : symbols_ok r SS n → sh_subs (getShard r t) !! t = SS !! t.
Proof.
  intros Hok. unfold getShard. rewrite (shardFor_sidx _ _ _ _ Hok).
  destruct (flat_shard _ _ sidx_lt _ _ t (so_flat _ _ _ Hok)) as (sh & Hsh & <-).
  rewrite list_lookup_fmap in Hsh. destruct (rt_shards r !! sidx t); by simplify_eq/=.
Qed.

Lemma wanted_spec SS t : t ∈ wanted SS ↔ ∃ st, SS !! t = Some st ∧ redisSub st = true.
Proof.
  unfold wanted. rewrite elem_of_dom. split.
  - intros [st [Hst Hr]%map_lookup_filter_Some]. by exists st.
  - intros (st & Hst & Hr). exists st. by apply map_lookup_filter_Some.
Qed.

Lemma wanted_count r SS n t : symbols_ok r SS n → t ∈ wanted SS ↔ 0 < lcount SS t.
Proof.
  intros Hok. rewrite wanted_spec. unfold lcount. split.
  - intros (st & Hst & Hr). rewrite Hst. cbn.
    destruct (so_count _ _ _ Hok t st Hst) as [_ Hc]. rewrite Hr in Hc. lia.
  - intros Hc. destruct (SS !! t) as [st|] eqn:Hst; cbn in Hc; [|lia]. exists st. split; [done|].
    destruct (so_count _ _ _ Hok t st Hst) as [_ ->]. lia.
Qed.

Lemma lcount_range r SS n t : symbols_ok r SS n → 0 ≤ n → 0 ≤ lcount SS t ≤ n.
Proof.
  intros Hok Hn. unfold lcount. destruct (SS !! t) as [st|] eqn:Hst; [|done].
  apply (so_count _ _ _ Hok t st Hst).
Qed.

Lemma lcount_insert SS t st t' :
  lcount (<[t := st]> SS) t' = if decide (t' = t) then localCount st else lcount SS t'.
Proof.
  unfold lcount. case_decide; [subst; by rewrite lookup_insert_eq|by rewrite lookup_insert_ne].
Qed.

Lemma wanted_insert SS t st :
  wanted (<[t := st]> SS) = if redisSub st then {[t]} ∪ wanted SS else wanted SS ∖ {[t]}.
Proof.
  apply set_eq. intros x. rewrite wanted_spec.
  destruct (decide (x = t)) as [->|Hne].
  - rewrite lookup_insert_eq. destruct (redisSub st) eqn:Hr.
    + split; [set_solver|by exists st].
    + split; [intros (? & [= <-] & ?); congruence|set_solver].
  - rewrite lookup_insert_ne, <- wanted_spec by done. destruct (redisSub st); set_solver.
Qed.

Lemma wanted_size SS : (size (wanted SS) ≤ size SS)%nat.
Proof. unfold wanted. rewrite size_dom. apply map_size_filter. Qed.

(** Storing a state whose flag agrees with its count. *)
Lemma set_state_ok r SS n n' t st d :
  symbols_ok r SS n → n ≤ n' < 2 ^ 31 →
  0 ≤ localCount st ≤ n' → redisSub st = (0 <? localCount st) →
  Z.of_nat (size (wanted (<[t := st]> SS))) = Z.of_nat (size (wanted SS)) + d →
  Z.of_nat (size (<[t := st]> SS)) ≤ n' →
  symbols_ok (set_state r (shardFor r t) t st d) (<[t := st]> SS) n'.
Proof.
  intros Hok Hn Hc Hr Hd Hsz. rewrite (shardFor_sidx _ _ _ _ Hok).
  destruct (flat_shard _ _ sidx_lt _ _ t (so_flat _ _ _ Hok)) as (sh & Hsh & _).
  split; [apply Hok| | |done|].
  - unfold set_state. cbn. rewrite list_fmap_insert. cbn.
    rewrite list_lookup_fmap in Hsh. destruct (rt_shards r !! sidx t) as [s0|] eqn:Hs0; [|done].
    cbn in Hsh |- *. apply flat_insert; [apply sidx_lt|apply Hok|].
    by rewrite list_lookup_fmap, Hs0.
  - intros t' st'. destruct (decide (t' = t)) as [->|Hne].
    + rewrite lookup_insert_eq. by intros [= <-].
    + rewrite lookup_insert_ne by done. intros Hst.
      destruct (so_count _ _ _ Hok t' st' Hst). split; [lia|done].
  - unfold set_state. cbn. rewrite (so_active _ _ _ Hok), <- Hd. apply i64_small.
    pose proof (wanted_size (<[t := st]> SS)). unfold in_i64. lia.
Qed.

Lemma size_insert_le (SS : gmap string symbolState) t st :
  (size (<[t := st]> SS) ≤ S (size SS))%nat.
Proof. rewrite map_size_insert. destruct (SS !! t); simpl; lia. Qed.

(** One locked section of Subscribe: the count goes up by one, and Redis is asked
    exactly when the symbol was not wanted before. *)
Lemma count_up_ok r SS n t :
  symbols_ok r SS n → 0 ≤ n → n + 1 < 2 ^ 31 →
  ∃ SS', symbols_ok (fst (count_up r t)) SS' (n + 1) ∧ rframe (fst (count_up r t)) = rframe r ∧
    wanted SS' = {[t]} ∪ wanted SS ∧ snd (count_up r t) = bool_decide (t ∉ wanted SS) ∧
    ∀ t', lcount SS' t' = lcount SS t' + (if decide (t' = t) then 1 else 0).
Proof.
  intros Hok Hn0 Hn. set (st := getOrCreateState (getShard r t) t).
  assert (Hst : st = default (mkState 0 false) (SS !! t)).
  { unfold st, getOrCreateState. by rewrite (getShard_ok _ _ _ _ Hok). }
  assert (Hlc : localCount st = lcount SS t) by (rewrite Hst; unfold lcount; by destruct (SS !! t)).
  assert (Hrs : redisSub st = (0 <? lcount SS t)).
  { rewrite Hst. unfold lcount. destruct (SS !! t) as [s|] eqn:Hs; [|done]. apply (so_count _ _ _ Hok t s Hs). }
  pose proof (lcount_range _ _ _ t Hok Hn0) as Hrange.
  pose proof (wanted_count _ _ _ t Hok) as Hw.
  pose proof (so_size _ _ _ Hok) as Hsz.
  assert (Hi : i32 (localCount st + 1) = lcount SS t + 1).
  { rewrite Hlc. apply i32_small. lia. }
  set (b := bool_decide (t ∉ wanted SS)).
  assert (Hcu : count_up r t = (set_state r (shardFor r t) t (mkState (lcount SS t + 1) true)
                                  (if b then 1 else 0), b)).
  { unfold count_up. fold st. cbv zeta. rewrite Hi, Hrs. unfold b.
    destruct (Z.ltb_spec 0 (lcount SS t)).
    - rewrite andb_false_r, bool_decide_false by tauto. done.
    - rewrite bool_decide_true by (rewrite Hw; lia). by rewrite (proj2 (Z.eqb_eq _ _)) by lia. }
  rewrite Hcu. cbn [fst snd]. exists (<[t := mkState (lcount SS t + 1) true]> SS).
  split_and!; [|done|by rewrite wanted_insert|done|].
  - apply (set_state_ok r SS n); [done|lia|cbn; lia|cbn; symmetry; apply Z.ltb_lt; lia| |].
    + rewrite wanted_insert. cbn [redisSub]. unfold b. case_bool_decide as Hin.
      * rewrite size_union, size_singleton by set_solver. lia.
      * replace ({[t]} ∪ wanted SS) with (wanted SS) by set_solver. lia.
    + pose proof (size_insert_le SS t (mkState (lcount SS t + 1) true)). lia.
  - intros t'. rewrite lcount_insert. cbn [localCount]. case_decide; [by subst|lia].
Qed.

(** One locked section of Unsubscribe for a symbol that has subscribers. *)
Lemma count_down_ok r SS n t :
  symbols_ok r SS n → 0 ≤ n < 2 ^ 31 → 0 < lcount SS t →
  ∃ SS', symbols_ok (fst (count_down r t)) SS' n ∧ rframe (fst (count_down r t)) = rframe r ∧
    wanted SS' = (if snd (count_down r t) then wanted SS ∖ {[t]} else wanted SS) ∧
    ∀ t', lcount SS' t' = lcount SS t' - (if decide (t' = t) then 1 else 0).
Proof.
  intros Hok Hn Hpos. pose proof (lcount_range _ _ _ t Hok ltac:(lia)) as Hrange.
  pose proof (proj2 (wanted_count _ _ _ t Hok) Hpos) as Hw.
  pose proof (so_size _ _ _ Hok) as Hsz.
  assert (Hst : SS !! t = Some (mkState (lcount SS t) true)).
  { unfold lcount in *. destruct (SS !! t) as [[c b]|] eqn:Hs; [|cbn in Hpos; lia]. cbn in *.
    destruct (so_count _ _ _ Hok t _ Hs) as [_ Hr]. cbn in Hr. rewrite Hr. by rewrite (proj2 (Z.ltb_lt 0 c)). }
  set (b := lcount SS t =? 1).
  assert (Hcd : count_down r t = (set_state r (shardFor r t) t (mkState (lcount SS t - 1) (negb b))
                                    (if b then -1 else 0), b)).
  { unfold count_down. rewrite (getShard_ok _ _ _ _ Hok), Hst. cbv zeta. cbn [localCount redisSub].
    rewrite i32_small by lia. unfold b.
    rewrite (proj2 (Z.ltb_ge (lcount SS t - 1) 0)), andb_true_r by lia.
    by destruct (Z.eqb_spec (lcount SS t - 1) 0), (Z.eqb_spec (lcount SS t) 1); try lia. }
  rewrite Hcd. cbn [fst snd]. exists (<[t := mkState (lcount SS t - 1) (negb b)]> SS).
  split_and!; [|done| |].
  - apply (set_state_ok r SS n); [done|lia|cbn; lia| | |].
    + cbn. unfold b. destruct (Z.eqb_spec (lcount SS t) 1), (Z.ltb_spec 0 (lcount SS t - 1)); simpl; lia.
    + rewrite wanted_insert. cbn [redisSub]. destruct b; cbn [negb].
      * pose proof (size_difference (wanted SS) {[t]} ltac:(set_solver)) as Hd.
        rewrite size_singleton in Hd. assert (size (wanted SS) ≠ 0%nat); [|lia].
        intros E0%size_empty_inv. set_solver.
      * replace ({[t]} ∪ wanted SS) with (wanted SS) by set_solver. lia.
    + rewrite map_size_insert_Some by (by eexists). lia.
  - rewrite wanted_insert. cbn [redisSub]. destruct b; cbn [negb]; [done|]. set_solver.
  - intros t'. rewrite lcount_insert. cbn [localCount]. case_decide; [by subst|lia].
Qed.

Definition occ (t : string) (l : list string) : Z := Z.of_nat (length (filter (t =.) l)).

Lemma occ_cons t x l : occ t (x :: l) = (if decide (t = x) then 1 else 0) + occ t l.
Proof. unfold occ. rewrite filter_cons. case_decide; cbn [length]; lia. Qed.

Lemma occ_NoDup t l : NoDup l → occ t l = if decide (t ∈ l) then 1 else 0.
Proof.
  induction 1 as [|x l Hx _ IH]; [done|]. rewrite occ_cons, IH.
  repeat case_decide; subst; set_solver || lia.
Qed.

Lemma occ_pos t l : t ∈ l → 1 ≤ occ t l.
Proof.
  induction l as [|x l IH]; [by intros ?%elem_of_nil|]. rewrite occ_cons.
  intros [->|Hin]%elem_of_cons; [rewrite decide_True by done; unfold occ; lia|].
  specialize (IH Hin). case_decide; lia.
Qed.

(** The counting loops: what they add to the list of calls is what they add to
    the wanted symbols, or take from them. *)
Lemma count_up_all_ok topics r SS n acc :
  symbols_ok r SS n → 0 ≤ n → n + Z.of_nat (length topics) < 2 ^ 31 →
  ∃ r' SS' new, fold_left count_up_all topics (r, acc) = (r', acc ++ new) ∧
    symbols_ok r' SS' (n + Z.of_nat (length topics)) ∧ rframe r' = rframe r ∧
    wanted SS' = list_to_set new ∪ wanted SS ∧
    ∀ t, lcount SS' t = lcount SS t + occ t topics.
Proof.
  revert r SS n acc. induction topics as [|x topics IH]; intros r SS n acc Hok Hn0 Hn.
  { exists r, SS, []. rewrite app_nil_r, Z.add_0_r. split_and!; [done|done|done|set_solver|].
    intros t. change (occ t []) with 0. lia. }
  cbn [length] in *. destruct (count_up_ok r SS n x Hok Hn0 ltac:(lia)) as (SS1 & H1 & Hf & Hw & Hb & Hl).
  cbn [fold_left]. unfold count_up_all at 2. destruct (count_up r x) as [r1 b]. cbn [fst snd] in *.
  destruct (IH r1 SS1 (n + 1) (if b then acc ++ [x] else acc) H1 ltac:(lia) ltac:(lia))
    as (r' & SS' & new & -> & H' & Hf' & Hw' & Hl').
  exists r', SS', ((if b then [x] else []) ++ new). split_and!.
  - destruct b; by rewrite <- ?(assoc_L (++)).
  - by replace (n + Z.of_nat (S (length topics))) with (n + 1 + Z.of_nat (length topics)) by lia.
  - congruence.
  - rewrite Hw', Hw, Hb. case_bool_decide; [set_solver|].
    replace ({[x]} ∪ wanted SS) with (wanted SS) by set_solver. done.
  - intros t. rewrite Hl', Hl, occ_cons. lia.
Qed.

Lemma count_down_all_ok topics r SS n acc :
  symbols_ok r SS n → 0 ≤ n < 2 ^ 31 → NoDup topics → (∀ t, t ∈ topics → 0 < lcount SS t) →
  ∃ r' SS' gone, fold_left count_down_all topics (r, acc) = (r', acc ++ gone) ∧
    symbols_ok r' SS' n ∧ rframe r' = rframe r ∧
    wanted SS' = wanted SS ∖ list_to_set gone ∧
    ∀ t, lcount SS' t = lcount SS t - occ t topics.
Proof.
  intros Hok Hn Hnd. revert r SS acc Hok. induction Hnd as [|x topics Hx _ IH]; intros r SS acc Hok Hpos.
  { exists r, SS, []. rewrite app_nil_r. split_and!; [done|done|done|set_solver|].
    intros t. change (occ t []) with 0. lia. }
  destruct (count_down_ok r SS n x Hok Hn ltac:(apply Hpos; by left)) as (SS1 & H1 & Hf & Hw & Hl).
  cbn [fold_left]. unfold count_down_all at 2. destruct (count_down r x) as [r1 b]. cbn [fst snd] in *.
  destruct (IH r1 SS1 (if b then acc ++ [x] else acc) H1) as (r' & SS' & gone & -> & H' & Hf' & Hw' & Hl').
  { intros t Ht. rewrite Hl, decide_False by (by intros ->). specialize (Hpos t ltac:(by right)). lia. }
  exists r', SS', ((if b then [x] else []) ++ gone). split_and!.
  - destruct b; by rewrite <- ?(assoc_L (++)).
  - done.
  - congruence.
  - rewrite Hw', Hw. destruct b; set_solver.
  - intros t. rewrite Hl', Hl, occ_cons. lia.
Qed.

(** The counters do not depend on the other fields. *)
Lemma symbols_ok_ext r r' SS n :
  rt_shards r' = rt_shards r → rt_shardMask r' = rt_shardMask r →
  rt_activeRedisSubs r' = rt_activeRedisSubs r → symbols_ok r SS n → symbols_ok r' SS n.
Proof. intros Hs Hm Ha [????]. split; by rewrite ?Hs, ?Hm, ?Ha. Qed.

(** Reconcile finds nothing to do. *)
Lemma reconcile_idle r SS n : symbols_ok r SS n → Reconcile r = r.
Proof.
  intros Hok. unfold Reconcile. generalize (seq 0 (length (rt_shards r))) as is_. intros is_.
  induction is_ as [|i is_ IH]; [done|]. cbn [fold_left].
  assert (Hsh : reconcile_shard r i = r); [|by rewrite Hsh].
  unfold reconcile_shard. generalize (fst <$> map_to_list (sh_subs (default (mkShard ∅ 0) (rt_shards r !! i)))) as ks.
  intros ks. induction ks as [|k ks IHk]; [done|]. cbn [fold_left].
  assert (Hk : reconcile_symbol i r k = r); [|by rewrite Hk].
  unfold reconcile_symbol. cbv beta zeta.
  destruct (sh_subs (default (mkShard ∅ 0) (rt_shards r !! i)) !! k) as [st|] eqn:Hst;
    [|by rewrite Hst].
  destruct (rt_shards r !! i) as [sh|] eqn:Hi; cbn [default from_option id] in Hst;
    [|cbn in Hst; by rewrite lookup_empty in Hst].
  assert (Hlook : (sh_subs <$> rt_shards r) !! i = Some (sh_subs sh)) by (by rewrite list_lookup_fmap, Hi).
  pose proof (flat_own _ _ _ _ (so_flat _ _ _ Hok) i _ k Hlook ltac:(by exists st)) as ->.
  assert (HS : SS !! k = Some st)
    by (rewrite <- (flat_get _ _ _ _ (so_flat _ _ _ Hok)), Hlook; exact Hst).
  destruct (so_count _ _ _ Hok k st HS) as [_ Hr]. rewrite Hr, andb_negb_r, Hi.
  cbn [default from_option id]. rewrite Hst, Hr.
  by destruct (Z.ltb_spec 0 (localCount st)), (Z.leb_spec (localCount st) 0); try lia.
Qed.

(** ** Interleaved calls

    A call proceeds in the steps between which other goroutines may run: the
    local manager, the tracked topics under [subsMu], one shard section per
    topic, and one callback per symbol, made with no lock held. *)

Inductive r_pc :=
| SubLocal (topics : list string)
| SubTrack (topics : list string)
| SubCount (rest toSubscribe : list string)
| SubFire (rest : list string)
| UnsTrack
| UnsCount (rest toUnsubscribe : list string)
| UnsFire (rest : list string)
| UnsLocal
| RDone
| RPanic.

Record r_call := mkCall { rc_id : string; rc_pc : r_pc }.

Definition r_step (r : DistributedRouter) (c : r_call) : DistributedRouter * r_call :=
  let to pc := mkCall (rc_id c) pc in
  match rc_pc c with
  | SubLocal topics =>
      match mg_Subscribe (rt_local r) (rc_id c) topics with
      | Panic => (r, to RPanic)
      | Ret (local, _) => (set_local r local, to (SubTrack topics))
      end
  | SubTrack topics => (track r (rc_id c) topics, to (SubCount topics []))
  | SubCount [] toSubscribe => (r, to (SubFire toSubscribe))
  | SubCount (topic :: rest) toSubscribe =>
      let '(r, toSubscribe) := count_up_all (r, toSubscribe) topic in
      (r, to (SubCount rest toSubscribe))
  | SubFire [] => (r, to RDone)
  | SubFire (sym :: rest) => (fireOnChange SubscribeRequested r sym, to (SubFire rest))
  | UnsTrack =>
      match rt_subs r !! rc_id c with
      | None => (r, to UnsLocal)
      | Some topics => (set_subs r (delete (rc_id c) (rt_subs r)), to (UnsCount topics []))
      end
  | UnsCount [] toUnsubscribe => (r, to (UnsFire toUnsubscribe))
  | UnsCount (topic :: rest) toUnsubscribe =>
      let '(r, toUnsubscribe) := count_down_all (r, toUnsubscribe) topic in
      (r, to (UnsCount rest toUnsubscribe))
  | UnsFire [] => (r, to UnsLocal)
  | UnsFire (sym :: rest) => (fireOnChange UnsubscribeRequested r sym, to (UnsFire rest))
  | UnsLocal => (set_local r (mg_Unsubscribe (rt_local r) (rc_id c)), to RDone)
  | RDone => (r, c)
  | RPanic => (r, c)
  end.

(** Call [i] takes a step. *)
Definition r_sched (st : DistributedRouter * list r_call) (i : nat) : DistributedRouter * list r_call :=
  match st.2 !! i with
  | Some c => let '(r, c) := r_step st.1 c in (r, <[i := c]> st.2)
  | None => st
  end.
Definition r_schedule (st : DistributedRouter * list r_call) (sched : list nat)
    : DistributedRouter * list r_call := fold_left r_sched sched st.

Definition r_iter (n : nat) (st : DistributedRouter * r_call) : DistributedRouter * r_call :=
  Nat.iter n (λ st, r_step st.1 st.2) st.

Lemma r_iter_S n r c : r_iter (S n) (r, c) = r_iter n (r_step r c).
Proof.
  unfold r_iter. rewrite Nat.iter_succ_r. cbn. by destruct (r_step r c).
Qed.

(** A call that nobody interrupts is the function of its method. *)
Lemma solo_fire_sub l r id :
  r_iter (S (length l)) (r, mkCall id (SubFire l)) =
  (fold_left (fireOnChange SubscribeRequested) l r, mkCall id RDone).
Proof. revert r. induction l as [|x l IH]; intros r; [done|]. cbn [length]. rewrite r_iter_S. apply IH. Qed.

Lemma solo_fire_uns l r id :
  r_iter (S (length l)) (r, mkCall id (UnsFire l)) =
  (fold_left (fireOnChange UnsubscribeRequested) l r, mkCall id UnsLocal).
Proof. revert r. induction l as [|x l IH]; intros r; [done|]. cbn [length]. rewrite r_iter_S. apply IH. Qed.

Lemma r_iter_add a b st : r_iter (a + b) st = r_iter b (r_iter a st).
Proof. unfold r_iter. rewrite Nat.add_comm. apply Nat.iter_add. Qed.

Lemma solo_count_sub l r acc id :
  r_iter (S (length l)) (r, mkCall id (SubCount l acc)) =
  (fst (fold_left count_up_all l (r, acc)), mkCall id (SubFire (snd (fold_left count_up_all l (r, acc))))).
Proof.
  revert r acc. induction l as [|x l IH]; intros r acc; [done|]. cbn [length]. rewrite r_iter_S.
  cbn [r_step rc_pc rc_id fold_left]. destruct (count_up_all (r, acc) x) as [r1 acc1]. apply IH.
Qed.

Lemma solo_count_uns l r acc id :
  r_iter (S (length l)) (r, mkCall id (UnsCount l acc)) =
  (fst (fold_left count_down_all l (r, acc)), mkCall id (UnsFire (snd (fold_left count_down_all l (r, acc))))).
Proof.
  revert r acc. induction l as [|x l IH]; intros r acc; [done|]. cbn [length]. rewrite r_iter_S.
  cbn [r_step rc_pc rc_id fold_left]. destruct (count_down_all (r, acc) x) as [r1 acc1]. apply IH.
Qed.

Lemma solo_Subscribe r id topics r' h :
  Router_Subscribe r id topics = Ret (r', h) →
  ∃ n, r_iter n (r, mkCall id (SubLocal topics)) = (r', mkCall id RDone).
Proof.
  unfold Router_Subscribe. destruct (mg_Subscribe (rt_local r) id topics) as [[local h']|] eqn:Hs; [|done].
  destruct (fold_left count_up_all topics _) as [r1 l] eqn:Hc. intros [= <- <-].
  exists (2 + S (length topics) + S (length l))%nat. rewrite !r_iter_add.
  rewrite !r_iter_S. cbn [r_step rc_pc rc_id]. rewrite Hs. rewrite !r_iter_S. cbn [r_step rc_pc rc_id].
  change (r_iter 0 ?x) with x. rewrite solo_count_sub, Hc. apply solo_fire_sub.
Qed.

Lemma solo_Unsubscribe r id :
  ∃ n, r_iter n (r, mkCall id UnsTrack) = (Router_Unsubscribe r id, mkCall id RDone).
Proof.
  unfold Router_Unsubscribe. destruct (rt_subs r !! id) as [topics|] eqn:Hs.
  - destruct (fold_left count_down_all topics _) as [r1 l] eqn:Hc.
    exists (1 + S (length topics) + S (length l) + 1)%nat. rewrite !r_iter_add.
    rewrite !r_iter_S. cbn [r_step rc_pc rc_id]. rewrite Hs.
    change (r_iter 0 ?x) with x. rewrite solo_count_uns, Hc, solo_fire_uns. done.
  - exists 2%nat. cbn. rewrite Hs. done.
Qed.
End router.
Arguments DistributedRouter : clear implicits.

(** ** The callback of the application (app.go)

    It does nothing while there is no Redis subscriber. *)
Definition app_onChange (s : option RedisSub) (symbol : string) (change : SubscriptionChange)
    : option RedisSub :=
  match s with
  | None => None
  | Some s =>
      Some (match change with
            | SubscribeRequested => RedisSub_Subscribe s symbol
            | UnsubscribeRequested => RedisSub_Unsubscribe s symbol
            end)
  end.

Section demand.
Context {M H Ev : Type} `{!LocalManager M H Ev, !LocalManagerLaws M H Ev}.
Implicit Types (r : DistributedRouter M (option RedisSub)) (T : gmap string (gset string)).

(** The router as the application builds it. *)
Definition app_router (local : M) (prefix gatewayID : string) (s : RedisSub)
    : DistributedRouter M (option RedisSub) :=
  NewDistributedRouter local prefix gatewayID (Some app_onChange) (Some s).

(** The callbacks change the subscriber and nothing else. *)
Lemma fire_all change l r s :
  rt_onChange r = Some app_onChange → rt_sink r = Some s →
  let r' := fold_left (fireOnChange change) l r in
  (∀ SS n, symbols_ok r SS n → symbols_ok r' SS n) ∧ rt_local r' = rt_local r ∧
  rt_subs r' = rt_subs r ∧ rt_onChange r' = rt_onChange r ∧
  ∃ s', rt_sink r' = Some s' ∧
    rd_channels s' = match change with
                     | SubscribeRequested => list_to_set l ∪ rd_channels s
                     | UnsubscribeRequested => rd_channels s ∖ list_to_set l
                     end.
Proof.
  revert r s. induction l as [|x l IH]; intros r s Hc Hs; cbn [fold_left].
  { split_and!; [done|done|done|done|]. exists s. split; [done|]. destruct change; set_solver. }
  destruct (IH (fireOnChange change r x)
              (match change with SubscribeRequested => RedisSub_Subscribe s x
                               | UnsubscribeRequested => RedisSub_Unsubscribe s x end))
    as (Hok & Hl & Hsu & Hon & s' & Hs' & Hch).
  1,2: unfold fireOnChange; rewrite Hc; cbn; rewrite ?Hs; done.
  assert (Hf : rt_local (fireOnChange change r x) = rt_local r ∧
               rt_subs (fireOnChange change r x) = rt_subs r ∧
               rt_onChange (fireOnChange change r x) = rt_onChange r)
    by (unfold fireOnChange; by rewrite Hc).
  destruct Hf as (Hf1 & Hf2 & Hf3). split_and!; [|congruence|congruence|congruence|].
  - intros SS n HS. apply Hok. revert HS. apply symbols_ok_ext; unfold fireOnChange; by rewrite Hc.
  - exists s'. split; [done|]. rewrite Hch. destruct change; cbn; set_solver.
Qed.

(** How many IDs the router has recorded for a topic. *)
Definition demand (subs : gmap string (list string)) (t : string) : nat :=
  size (filter (λ x : string * list string, t ∈ x.2) subs).

Lemma demand_insert subs id l t :
  demand (<[id := l]> subs) t =
  (demand (delete id subs) t + if decide (t ∈ l) then 1 else 0)%nat.
Proof.
  unfold demand. rewrite <- insert_delete_eq. case_decide as Ht.
  - rewrite map_filter_insert_True by done.
    rewrite map_size_insert_None; [lia|]. apply map_lookup_filter_None. left. apply lookup_delete_eq.
  - rewrite map_filter_insert_False by done. rewrite delete_id by apply lookup_delete_eq. lia.
Qed.

Lemma demand_split subs id t :
  demand subs t =
  (demand (delete id subs) t + if decide (t ∈ default [] (subs !! id)) then 1 else 0)%nat.
Proof.
  destruct (subs !! id) as [l|] eqn:Hl; cbn [default from_option].
  - transitivity (demand (<[id := l]> subs) t); [by rewrite insert_id|apply demand_insert].
  - rewrite delete_id by done. rewrite decide_False by (by intros ?%elem_of_nil). cbn. lia.
Qed.

Lemma merge_topics_spec topics existing :
  NoDup existing → NoDup (merge_topics existing topics) ∧
  ∀ t, t ∈ merge_topics existing topics ↔ t ∈ existing ∨ t ∈ topics.
Proof.
  unfold merge_topics. revert existing. induction topics as [|x topics IH]; intros ex Hnd; cbn [fold_left].
  { split; [done|]. set_solver. }
  case_decide as Hx.
  - destruct (IH ex Hnd) as [H1 H2]. split; [done|]. intros t. rewrite H2. set_solver.
  - destruct (IH (ex ++ [x])) as [H1 H2].
    { apply NoDup_app. split_and!; [done|set_solver|apply NoDup_singleton]. }
    split; [done|]. intros t. rewrite H2. set_solver.
Qed.

(** ** The invariant

    The Redis subscriber has the wanted symbols; every topic somebody is
    subscribed to locally is recorded for the ID; the count of a symbol is at
    least the number of IDs it is recorded for. *)
Record router_inv r (SS : gmap string symbolState) (n : Z) T : Prop := {
  ri_sym : symbols_ok r SS n;
  ri_table : mg_table (rt_local r) T;
  ri_on : rt_onChange r = Some app_onChange;
  ri_sink : ∃ s, rt_sink r = Some s ∧ rd_channels s = wanted SS;
  ri_nodup : ∀ id, NoDup (default [] (rt_subs r !! id));
  ri_cover : ∀ id ts t, T !! id = Some ts → t ∈ ts → t ∈ default [] (rt_subs r !! id);
  ri_count : ∀ t, Z.of_nat (demand (rt_subs r) t) ≤ lcount SS t;
}.

Lemma app_router_inv local prefix gw s :
  mg_table local ∅ → rd_channels s = ∅ → router_inv (app_router local prefix gw s) ∅ 0 ∅.
Proof.
  intros Ht Hs. split; [|done|done|by exists s| | |]; cbn.
  - split; [done| |intros t st; by rewrite lookup_empty|done|done].
    cbn [rt_shards app_router NewDistributedRouter]. rewrite fmap_replicate. apply flat_empty, sidx_lt.
  - intros id. rewrite lookup_empty. constructor.
  - intros id ts t. by rewrite lookup_empty.
  - intros t. unfold demand, lcount. by rewrite map_filter_empty, lookup_empty.
Qed.

(** The recorded topics cover the local table, and the counts the records, after
    a subscription. *)
Lemma track_cover (subs : gmap string (list string)) T id topics :
  (∀ id ts t, T !! id = Some ts → t ∈ ts → t ∈ default [] (subs !! id)) →
  (∀ id, NoDup (default [] (subs !! id))) →
  ∀ id' ts t, spec_subscribe T id topics !! id' = Some ts → t ∈ ts →
    t ∈ default [] (<[id := merge_topics (default [] (subs !! id)) topics]> subs !! id').
Proof.
  intros Hcov Hnd id' ts t. destruct (merge_topics_spec topics _ (Hnd id)) as [_ Hin].
  unfold spec_subscribe. destruct (decide (id' = id)) as [->|Hne].
  - rewrite lookup_insert_eq. cbn. rewrite Hin. destruct topics as [|x topics].
    + intros HT Ht. left. by eapply Hcov.
    + rewrite lookup_insert_eq. intros [= <-]. change ({[x]} ∪ list_to_set topics) with
        (list_to_set (x :: topics) : gset string). intros [Ht|Ht]%elem_of_union.
      * right. by apply elem_of_list_to_set in Ht.
      * left. destruct (T !! id) as [ts|] eqn:HT; cbn in Ht; [|set_solver]. by eapply Hcov.
  - rewrite lookup_insert_ne by done.
    destruct topics; rewrite ?lookup_insert_ne by done; apply Hcov.
Qed.

Lemma track_count (subs : gmap string (list string)) id topics c t :
  NoDup (default [] (subs !! id)) → Z.of_nat (demand subs t) ≤ c →
  Z.of_nat (demand (<[id := merge_topics (default [] (subs !! id)) topics]> subs) t) ≤ c + occ t topics.
Proof.
  intros Hnd Hc. destruct (merge_topics_spec topics _ Hnd) as [_ Hin].
  rewrite demand_insert. rewrite (demand_split _ id) in Hc. pose proof (Hin t) as Hint.
  assert (0 ≤ occ t topics) by (unfold occ; lia).
  destruct (decide (t ∈ topics)) as [Ht|Ht]; [pose proof (occ_pos t topics Ht)|];
    repeat case_decide; try lia; tauto.
Qed.

Lemma Router_Subscribe_inv r SS n T id topics r' h :
  router_inv r SS n T → 0 ≤ n → n + Z.of_nat (length topics) < 2 ^ 31 →
  Router_Subscribe r id topics = Ret (r', h) →
  ∃ SS', router_inv r' SS' (n + Z.of_nat (length topics)) (spec_subscribe T id topics) ∧
    (∀ t, lcount SS' t = lcount SS t + occ t topics) ∧
    rt_subs r' = <[id := merge_topics (default [] (rt_subs r !! id)) topics]> (rt_subs r).
Proof.
  intros Hi Hn0 Hn. unfold Router_Subscribe.
  destruct (mg_Subscribe (rt_local r) id topics) as [[local h']|] eqn:Hs; [|done].
  set (r1 := track (set_local r local) id topics).
  assert (H1 : symbols_ok r1 SS n) by (by apply (symbols_ok_ext r), Hi).
  destruct (count_up_all_ok topics r1 SS n [] H1 Hn0 Hn) as (r2 & SS' & new & -> & H2 & Hf & Hw & Hl).
  intros [= <- <-]. injection Hf as Hf1 Hf2 Hf3 Hf4. destruct (ri_sink _ _ _ _ Hi) as (s & Hsk & Hch).
  destruct (fire_all SubscribeRequested new r2 s) as (Hok & Hl3 & Hsu & Hon & s' & Hs' & Hch').
  { rewrite Hf3. apply Hi. }
  { by rewrite Hf4. }
  cbn [app] in *. set (r3 := fold_left (fireOnChange SubscribeRequested) new r2) in *.
  destruct (merge_topics_spec topics _ (ri_nodup _ _ _ _ Hi id)) as [Hnd _].
  assert (Hsubs : rt_subs r3 = <[id := merge_topics (default [] (rt_subs r !! id)) topics]> (rt_subs r))
    by (by rewrite Hsu, Hf2).
  exists SS'. split; [|done]. split.
  - by apply Hok.
  - rewrite Hl3, Hf1. by apply (mg_Subscribe_table (rt_local r) T id topics local h'); [apply Hi|].
  - rewrite Hon, Hf3. apply Hi.
  - exists s'. split; [done|]. by rewrite Hch', Hch, Hw.
  - intros id'. rewrite Hsubs. destruct (decide (id' = id)) as [->|Hne].
    + by rewrite lookup_insert_eq.
    + rewrite lookup_insert_ne by done. apply Hi.
  - rewrite Hsubs. apply track_cover; apply Hi.
  - intros t. rewrite Hsubs, Hl. by apply track_count; apply Hi.
Qed.

Lemma demand_pos subs id t :
  t ∈ default [] (subs !! id) → (0 < demand subs t)%nat.
Proof. intros Ht. rewrite (demand_split subs id t), decide_True by done. lia. Qed.

Lemma Router_Unsubscribe_inv r SS n T id :
  router_inv r SS n T → 0 ≤ n < 2 ^ 31 →
  ∃ SS', router_inv (Router_Unsubscribe r id) SS' n (delete id T) ∧
    (∀ t, lcount SS' t = lcount SS t - occ t (default [] (rt_subs r !! id))) ∧
    rt_subs (Router_Unsubscribe r id) = delete id (rt_subs r).
Proof.
  intros Hi Hn. unfold Router_Unsubscribe.
  pose proof (mg_Unsubscribe_table _ _ id (ri_table _ _ _ _ Hi)) as Htab.
  destruct (rt_subs r !! id) as [topics|] eqn:Hid; cbn [default from_option].
  2:{ exists SS. cbn [rt_subs set_local]. rewrite (delete_id (rt_subs r)) by done. split_and!; [|intros t|done].
      - destruct Hi as [Hsy Ht Ho Hsk Hnd Hc Hd].
        split; [by apply (symbols_ok_ext r)|exact Htab|done|done|done| |done].
        intros id' ts t [_ HT]%lookup_delete_Some. by apply Hc.
      - change (occ t []) with 0. lia. }
  set (r1 := set_subs r (delete id (rt_subs r))).
  assert (H1 : symbols_ok r1 SS n) by (by apply (symbols_ok_ext r), Hi).
  pose proof (ri_nodup _ _ _ _ Hi id) as Hnd. rewrite Hid in Hnd. cbn in Hnd.
  destruct (count_down_all_ok topics r1 SS n [] H1 Hn Hnd) as (r2 & SS' & gone & -> & H2 & Hf & Hw & Hl).
  { intros t Ht. pose proof (ri_count _ _ _ _ Hi t) as Hc.
    pose proof (demand_pos (rt_subs r) id t) as Hp. rewrite Hid in Hp. specialize (Hp Ht). lia. }
  injection Hf as Hf1 Hf2 Hf3 Hf4. destruct (ri_sink _ _ _ _ Hi) as (s & Hsk & Hch).
  destruct (fire_all UnsubscribeRequested gone r2 s) as (Hok & Hl3 & Hsu & Hon & s' & Hs' & Hch').
  { rewrite Hf3. apply Hi. }
  { by rewrite Hf4. }
  cbn [app] in *. set (r3 := fold_left (fireOnChange UnsubscribeRequested) gone r2) in *.
  assert (Hsubs : rt_subs r3 = delete id (rt_subs r)) by (by rewrite Hsu, Hf2).
  exists SS'. split; [|done]. split.
  - apply (symbols_ok_ext r3); [done|done|done|by apply Hok].
  - cbn. rewrite Hl3, Hf1. exact Htab.
  - cbn. rewrite Hon, Hf3. apply Hi.
  - exists s'. split; [done|]. by rewrite Hch', Hch, Hw.
  - intros id'. cbn. rewrite Hsubs. destruct (decide (id' = id)) as [->|Hne].
    + rewrite lookup_delete_eq. constructor.
    + rewrite lookup_delete_ne by done. apply Hi.
  - intros id' ts t [Hne HT]%lookup_delete_Some. cbn. rewrite Hsubs, lookup_delete_ne by done.
    by eapply (ri_cover _ _ _ _ Hi).
  - intros t. cbn. rewrite Hsubs, Hl, occ_NoDup by done. pose proof (ri_count _ _ _ _ Hi t) as Hc.
    rewrite (demand_split _ id), Hid in Hc. cbn in Hc. case_decide; lia.
Qed.

(** ** Sequences of calls

    [RCancel] is the cancellation of a handle that Subscribe returned: it acts on
    the local manager and does not pass through the router. *)
Inductive router_op :=
| RSubscribe (id : string) (topics : list string)
| RUnsubscribe (id : string)
| RCancel (h : H)
| RPublish (ev : Ev) (now : Z)
| RReconcile.

Definition router_exec r (op : router_op) : outcome (DistributedRouter M (option RedisSub)) :=
  match op with
  | RSubscribe id topics =>
      match Router_Subscribe r id topics with Ret (r, _) => Ret r | Panic => Panic end
  | RUnsubscribe id => Ret (Router_Unsubscribe r id)
  | RCancel h => Ret (set_local r (mg_Cancel (rt_local r) h))
  | RPublish ev now => Ret (Router_Publish r ev now)
  | RReconcile => Ret (Reconcile r)
  end.

Fixpoint router_run r (ops : list router_op) : outcome (DistributedRouter M (option RedisSub)) :=
  match ops with
  | [] => Ret r
  | op :: ops => match router_exec r op with Ret r => router_run r ops | Panic => Panic end
  end.

Definition op_weight (op : router_op) : Z :=
  match op with RSubscribe _ topics => Z.of_nat (length topics) | _ => 0 end.
Definition ops_weight (ops : list router_op) : Z := foldr (λ op n, op_weight op + n) 0 ops.

Definition table_exec T (op : router_op) : gmap string (gset string) :=
  match op with
  | RSubscribe id topics => spec_subscribe T id topics
  | RUnsubscribe id => delete id T
  | RCancel h => delete (mg_handle_id h) T
  | _ => T
  end.

Lemma ops_weight_nonneg ops : 0 ≤ ops_weight ops.
Proof.
  induction ops as [|op ops IH]; [done|].
  change (ops_weight (op :: ops)) with (op_weight op + ops_weight ops).
  destruct op; cbn [op_weight]; lia.
Qed.

Lemma Router_Publish_inv r SS n T ev now :
  router_inv r SS n T → router_inv (Router_Publish r ev now) SS n T.
Proof.
  intros [Hsy Ht Ho Hsk Hnd Hc Hd].
  split; [by apply (symbols_ok_ext r)|by apply mg_Publish_table|done|done|done|done|done].
Qed.

Lemma router_exec_inv r SS n T op r' :
  router_inv r SS n T → 0 ≤ n → n + op_weight op < 2 ^ 31 → router_exec r op = Ret r' →
  ∃ SS', router_inv r' SS' (n + op_weight op) (table_exec T op).
Proof.
  intros Hi Hn0 Hn. destruct op as [id topics|id|h|ev now|]; cbn [router_exec table_exec op_weight] in *;
    rewrite ?Z.add_0_r in *.
  - destruct (Router_Subscribe r id topics) as [[r1 h]|] eqn:Hs; [|done]. intros [= <-].
    destruct (Router_Subscribe_inv r SS n T id topics r1 h Hi Hn0 Hn Hs) as (SS' & ? & _). by exists SS'.
  - intros [= <-]. destruct (Router_Unsubscribe_inv r SS n T id Hi ltac:(lia)) as (SS' & ? & _). by exists SS'.
  - intros [= <-]. exists SS. destruct Hi as [Hsy Ht Ho Hsk Hnd Hc Hd].
    split; [by apply (symbols_ok_ext r)|by apply mg_Cancel_table|done|done|done| |done].
    intros id ts t [_ HT]%lookup_delete_Some. by apply Hc.
  - intros [= <-]. exists SS. by apply Router_Publish_inv.
  - intros [= <-]. exists SS. by rewrite (reconcile_idle r SS n) by apply Hi.
Qed.

Lemma router_run_inv ops r SS n T r' :
  router_inv r SS n T → 0 ≤ n → n + ops_weight ops < 2 ^ 31 → router_run r ops = Ret r' →
  ∃ SS', router_inv r' SS' (n + ops_weight ops) (fold_left table_exec ops T).
Proof.
  revert r SS n T. induction ops as [|op ops IH]; intros r SS n T Hi Hn0 Hn; cbn [router_run].
  { intros [= <-]. exists SS. by rewrite Z.add_0_r. }
  change (ops_weight (op :: ops)) with (op_weight op + ops_weight ops) in *.
  pose proof (ops_weight_nonneg ops). assert (0 ≤ op_weight op) by (destruct op; cbn; lia).
  destruct (router_exec r op) as [r1|] eqn:Hx; [|done].
  destruct (router_exec_inv r SS n T op r1 Hi Hn0 ltac:(lia) Hx) as (SS1 & Hi1).
  rewrite Z.add_assoc. apply (IH r1 SS1); [done|lia|lia].
Qed.

Lemma needs_wanted r SS n t : symbols_ok r SS n → NeedsSymbol r t = true ↔ t ∈ wanted SS.
Proof.
  intros Hok. rewrite (wanted_count _ _ _ _ Hok). unfold NeedsSymbol, lcount.
  rewrite (getShard_ok _ _ _ _ Hok). destruct (SS !! t) as [st|]; cbn; [apply Z.ltb_lt|lia].
Qed.

Lemma nothing_to_unsubscribe r SS n : symbols_ok r SS n → SymbolsNeedingUnsubscribe r = [].
Proof.
  intros Hok. unfold SymbolsNeedingUnsubscribe.
  assert (Hsh : ∀ i sh, rt_shards r !! i = Some sh →
    filter (λ x : string * symbolState, localCount x.2 ≤ 0 ∧ redisSub x.2 = true) (sh_subs sh) = ∅).
  { intros i sh Hi. apply map_empty. intros k. apply map_lookup_filter_None. right. intros st Hst [Hc Hr].
    assert (Hlook : (sh_subs <$> rt_shards r) !! i = Some (sh_subs sh)) by (by rewrite list_lookup_fmap, Hi).
    pose proof (flat_own _ _ _ _ (so_flat _ _ _ Hok) i _ k Hlook ltac:(by exists st)) as ->.
    assert (HS : SS !! k = Some st)
      by (rewrite <- (flat_get _ _ _ _ (so_flat _ _ _ Hok)), Hlook; exact Hst).
    destruct (so_count _ _ _ Hok k st HS) as [_ Hr']. cbn in *. rewrite Hr in Hr'. lia. }
  clear Hok. induction (rt_shards r) as [|sh shs IH]; [done|].
  rewrite fmap_cons, concat_cons. rewrite (Hsh 0%nat sh eq_refl), map_to_list_empty. cbn.
  apply IH. intros i sh' Hi. by apply (Hsh (S i)).
Qed.

(** C32: no subscribed client is left without its Redis channel. After any calls of
    Subscribe, Unsubscribe, Publish and Reconcile, one at a time, with handles
    cancelled in between: the Redis subscriber has exactly the symbols the router
    counts as needed, among them every topic with a local subscriber, their
    number is the reported one, and Reconcile finds nothing to repair. *)
Theorem router_covers_local_demand local prefix gw s ops r :
  mg_table local ∅ → rd_channels s = ∅ →
  router_run (app_router local prefix gw s) ops = Ret r → ops_weight ops < 2 ^ 31 →
  ∃ s', rt_sink r = Some s' ∧
    (∀ t, t ∈ rd_channels s' ↔ NeedsSymbol r t = true) ∧
    (∀ t, (0 < Router_SubscriberCount r t)%nat → t ∈ rd_channels s') ∧
    ActiveRedisSubscriptions r = Z.of_nat (size (rd_channels s')) ∧
    SymbolsNeedingUnsubscribe r = [] ∧ Reconcile r = r.
Proof.
  intros Ht Hs Hrun Hw.
  destruct (router_run_inv ops _ _ _ _ r (app_router_inv local prefix gw s Ht Hs) ltac:(done) Hw Hrun)
    as (SS & Hi). pose proof (ri_sym _ _ _ _ Hi) as Hok.
  destruct (ri_sink _ _ _ _ Hi) as (s' & Hs' & Hch). exists s'. rewrite Hch. split_and!; [done| | | | |].
  - intros t. by rewrite (needs_wanted _ _ _ _ Hok).
  - intros t Hc. unfold Router_SubscriberCount in Hc.
    rewrite (mg_count_table _ _ _ (ri_table _ _ _ _ Hi)) in Hc.
    destruct (map_choose (filter (λ x : string * gset string, t ∈ x.2)
                (fold_left table_exec ops ∅))) as (id & ts & [HT Hin]%map_lookup_filter_Some).
    { intros E0. rewrite E0, map_size_empty in Hc. lia. }
    apply (wanted_count _ _ _ _ Hok). pose proof (ri_count _ _ _ _ Hi t).
    pose proof (demand_pos (rt_subs r) id t (ri_cover _ _ _ _ Hi id ts t HT Hin)). lia.
  - apply Hok.
  - by eapply nothing_to_unsubscribe.
  - by eapply reconcile_idle.
Qed.

(** ** Clients that subscribe to a topic once *)

Fixpoint once T (ops : list router_op) : Prop :=
  match ops with
  | [] => True
  | op :: ops =>
      match op with
      | RSubscribe id topics => NoDup topics ∧ ∀ t, t ∈ topics → t ∉ default ∅ (T !! id)
      | RCancel _ => False
      | _ => True
      end ∧ once (table_exec T op) ops
  end.

Definition exact r (SS : gmap string symbolState) T : Prop :=
  (∀ t, lcount SS t = Z.of_nat (demand (rt_subs r) t)) ∧
  (∀ id t, t ∈ default ∅ (T !! id) ↔ t ∈ default [] (rt_subs r !! id)).

Lemma exact_subscribe r SS n T id topics r' h :
  router_inv r SS n T → exact r SS T → 0 ≤ n → n + Z.of_nat (length topics) < 2 ^ 31 →
  NoDup topics → (∀ t, t ∈ topics → t ∉ default ∅ (T !! id)) →
  Router_Subscribe r id topics = Ret (r', h) →
  ∃ SS', router_inv r' SS' (n + Z.of_nat (length topics)) (spec_subscribe T id topics) ∧
    exact r' SS' (spec_subscribe T id topics).
Proof.
  intros Hi [Hc Hx] Hn0 Hn Hnd Hnew Hs.
  destruct (Router_Subscribe_inv r SS n T id topics r' h Hi Hn0 Hn Hs) as (SS' & Hi' & Hl & Hsubs).
  exists SS'. split; [done|].
  destruct (merge_topics_spec topics _ (ri_nodup _ _ _ _ Hi id)) as [_ Hin]. split.
  - intros t. rewrite Hl, Hsubs, demand_insert, Hc, (demand_split _ id t), occ_NoDup by done.
    pose proof (Hin t). pose proof (Hnew t). rewrite Hx in *. repeat case_decide; try lia; tauto.
  - intros id' t. rewrite Hsubs. unfold spec_subscribe. destruct (decide (id' = id)) as [->|Hne].
    + rewrite lookup_insert_eq. change (default [] (Some ?x)) with x. rewrite Hin, <- Hx.
      destruct topics as [|x topics]; [set_solver|]. rewrite lookup_insert_eq.
      change (default ∅ (Some ?x)) with x. rewrite elem_of_union, elem_of_list_to_set. tauto.
    + rewrite lookup_insert_ne by done. rewrite <- Hx.
      destruct topics; by rewrite ?lookup_insert_ne by done.
Qed.

Lemma exact_unsubscribe r SS n T id :
  router_inv r SS n T → exact r SS T → 0 ≤ n < 2 ^ 31 →
  ∃ SS', router_inv (Router_Unsubscribe r id) SS' n (delete id T) ∧
    exact (Router_Unsubscribe r id) SS' (delete id T).
Proof.
  intros Hi [Hc Hx] Hn.
  destruct (Router_Unsubscribe_inv r SS n T id Hi Hn) as (SS' & Hi' & Hl & Hsubs).
  exists SS'. split; [done|]. split.
  - intros t. rewrite Hl, Hsubs, Hc, (demand_split _ id t), occ_NoDup by apply Hi. case_decide; lia.
  - intros id' t. rewrite Hsubs. destruct (decide (id' = id)) as [->|Hne].
    + rewrite !lookup_delete_eq. set_solver.
    + by rewrite !lookup_delete_ne by done.
Qed.

Lemma exact_run ops r SS n T r' :
  router_inv r SS n T → exact r SS T → 0 ≤ n → n + ops_weight ops < 2 ^ 31 → once T ops →
  router_run r ops = Ret r' →
  ∃ SS', router_inv r' SS' (n + ops_weight ops) (fold_left table_exec ops T) ∧
    exact r' SS' (fold_left table_exec ops T).
Proof.
  revert r SS n T. induction ops as [|op ops IH]; intros r SS n T Hi Hx Hn0 Hn Ho; cbn [router_run].
  { intros [= <-]. exists SS. by rewrite Z.add_0_r. }
  change (ops_weight (op :: ops)) with (op_weight op + ops_weight ops) in *.
  pose proof (ops_weight_nonneg ops). destruct Ho as [Hop Ho].
  assert (0 ≤ op_weight op) by (destruct op; cbn; lia).
  destruct (router_exec r op) as [r1|] eqn:Hex; [|done].
  assert (Hone : ∃ SS1, router_inv r1 SS1 (n + op_weight op) (table_exec T op) ∧ exact r1 SS1 (table_exec T op)).
  { destruct op as [id topics|id|h|ev now|]; cbn [router_exec table_exec op_weight] in *;
      rewrite ?Z.add_0_r in *; [| |done| |].
    - destruct (Router_Subscribe r id topics) as [[r2 h]|] eqn:Hs; [|done]. injection Hex as <-.
      destruct Hop. eapply (exact_subscribe r SS n T id topics r2 h); try done. lia.
    - injection Hex as <-. eapply exact_unsubscribe; try done. lia.
    - exists SS. injection Hex as <-. split; [by apply Router_Publish_inv|done].
    - exists SS. injection Hex as <-. by rewrite (reconcile_idle r SS n) by apply Hi. }
  destruct Hone as (SS1 & Hi1 & Hx1). rewrite Z.add_assoc. apply (IH r1 SS1); [done|done|lia|lia|done].
Qed.

Lemma exact_demand r SS T t :
  exact r SS T → size (filter (λ x : string * gset string, t ∈ x.2) T) = demand (rt_subs r) t.
Proof.
  intros [_ Hx]. unfold demand. rewrite <- !(size_dom (D := gset string)). f_equal.
  apply set_eq. intros id. rewrite !elem_of_dom. specialize (Hx id t). split.
  - intros [ts [HT Hin]%map_lookup_filter_Some]. rewrite HT in Hx. apply Hx in Hin.
    destruct (rt_subs r !! id) as [l|] eqn:Hl; cbn in Hin; [|by apply elem_of_nil in Hin].
    exists l. by apply map_lookup_filter_Some.
  - intros [l [Hl Hin]%map_lookup_filter_Some]. rewrite Hl in Hx. apply Hx in Hin.
    destruct (T !! id) as [ts|] eqn:HT; cbn in Hin; [|by apply not_elem_of_empty in Hin].
    exists ts. by apply map_lookup_filter_Some.
Qed.

Lemma local_count_lcount r SS n t : symbols_ok r SS n → SymbolLocalCount r t = lcount SS t.
Proof.
  intros Hok. unfold SymbolLocalCount, lcount. rewrite (getShard_ok _ _ _ _ Hok). by destruct (SS !! t).
Qed.

(** When no client subscribes to a topic it already has, and clients leave
    through the router, Redis follows demand exactly: the local count of a symbol
    is the number of its local subscribers, and the Redis subscriber has exactly
    the topics the local manager lists. *)
Lemma router_follows_demand_exactly local prefix gw s ops r :
  mg_table local ∅ → rd_channels s = ∅ → once ∅ ops →
  router_run (app_router local prefix gw s) ops = Ret r → ops_weight ops < 2 ^ 31 →
  (∀ t, SymbolLocalCount r t = Z.of_nat (Router_SubscriberCount r t)) ∧
  ∃ s', rt_sink r = Some s' ∧ ∀ t, t ∈ rd_channels s' ↔ t ∈ Router_Topics r.
Proof.
  intros Ht Hs Ho Hrun Hw.
  destruct (exact_run ops _ _ _ _ r (app_router_inv local prefix gw s Ht Hs)) as (SS & Hi & Hx);
    [|done|done|done|done|].
  { split; intros; cbn; rewrite ?lookup_empty; [|set_solver].
    unfold demand, lcount. by rewrite map_filter_empty, lookup_empty. }
  pose proof (ri_sym _ _ _ _ Hi) as Hok. pose proof (ri_table _ _ _ _ Hi) as Htab.
  assert (Hcnt : ∀ t, lcount SS t = Z.of_nat (Router_SubscriberCount r t)).
  { intros t. unfold Router_SubscriberCount. rewrite (mg_count_table _ _ _ Htab), (exact_demand r SS _ t Hx).
    apply Hx. }
  split; [intros t; by rewrite (local_count_lcount _ _ _ _ Hok)|].
  destruct (ri_sink _ _ _ _ Hi) as (s' & Hs' & Hch). exists s'. split; [done|]. intros t.
  rewrite Hch, (wanted_count _ _ _ _ Hok), Hcnt. unfold Router_SubscriberCount, Router_Topics.
  rewrite (mg_count_table _ _ _ Htab), (mg_topics_table _ _ _ Htab). split.
  - intros Hpos. destruct (map_choose (filter (λ x : string * gset string, t ∈ x.2)
      (fold_left table_exec ops ∅))) as (id & ts & [HT Hin]%map_lookup_filter_Some); [|by exists id, ts].
    intros E0. rewrite E0, map_size_empty in Hpos. lia.
  - intros (id & ts & HT & Hin).
    assert (size (filter (λ x : string * gset string, t ∈ x.2) (fold_left table_exec ops ∅)) ≠ 0%nat); [|lia].
    apply map_size_ne_0_lookup. exists id, ts. by apply map_lookup_filter_Some.
Qed.

Lemma merge_once t : merge_topics [] [t] = [t].
Proof. unfold merge_topics. cbn [fold_left]. by rewrite decide_False by (by intros ?%elem_of_nil). Qed.

Lemma merge_again l t : t ∈ l → merge_topics l [t] = l.
Proof. intros Ht. unfold merge_topics. cbn [fold_left]. by rewrite decide_True. Qed.

(** Subscribing again to a topic leaks its Redis channel. A client that
    subscribes twice to one topic and leaves has no subscription left, but the
    count stays at one and the Redis channel subscribed, and Reconcile does not
    repair it. *)
Lemma resubscribe_leaks_channel local prefix gw s id t r :
  mg_table local ∅ → rd_channels s = ∅ →
  router_run (app_router local prefix gw s)
    [RSubscribe id [t]; RSubscribe id [t]; RUnsubscribe id; RReconcile] = Ret r →
  Router_SubscriberCount r t = 0%nat ∧ SymbolLocalCount r t = 1 ∧
  ∃ s', rt_sink r = Some s' ∧ t ∈ rd_channels s'.
Proof.
  intros Ht Hs. cbn [router_run router_exec].
  pose proof (app_router_inv local prefix gw s Ht Hs) as Hi0.
  destruct (Router_Subscribe (app_router local prefix gw s) id [t]) as [[r1 h1]|] eqn:H1; [|done].
  destruct (Router_Subscribe_inv _ ∅ 0 ∅ id [t] r1 h1 Hi0 ltac:(lia) ltac:(cbn; lia) H1)
    as (SS1 & Hi1 & Hl1 & Hs1).
  destruct (Router_Subscribe r1 id [t]) as [[r2 h2]|] eqn:H2; [|done].
  destruct (Router_Subscribe_inv r1 SS1 1 _ id [t] r2 h2 Hi1 ltac:(lia) ltac:(cbn; lia) H2)
    as (SS2 & Hi2 & Hl2 & Hs2).
  destruct (Router_Unsubscribe_inv _ _ _ _ id Hi2) as (SS3 & Hi3 & Hl3 & _); [cbn; lia|].
  rewrite (reconcile_idle _ _ _ (ri_sym _ _ _ _ Hi3)). intros [= <-].
  assert (Hone : occ t [t] = 1) by (rewrite (occ_NoDup t [t]), decide_True by (apply NoDup_singleton || by left); done).
  assert (Hsubs : rt_subs r2 !! id = Some [t]).
  { rewrite Hs2, lookup_insert_eq, Hs1, lookup_insert_eq.
    change (rt_subs (app_router local prefix gw s) !! id) with ((∅ : gmap string (list string)) !! id).
    rewrite lookup_empty. change (default [] (Some ?x)) with x. change (default [] None) with (@nil string).
    by rewrite merge_once, merge_again by (by left). }
  assert (Hc : lcount SS3 t = 1).
  { rewrite Hl3, Hl2, Hl1, Hsubs, Hone. change (default [] (Some ?x)) with x.
    rewrite Hone. change (lcount ∅ t) with (default 0 (localCount <$> (∅ : gmap string symbolState) !! t)).
    rewrite lookup_empty. cbn. lia. }
  split_and!.
  - unfold Router_SubscriberCount. rewrite (mg_count_table _ _ _ (ri_table _ _ _ _ Hi3)).
    cbn [spec_subscribe]. by rewrite insert_insert_eq, delete_insert_eq, delete_empty, map_filter_empty.
  - by rewrite (local_count_lcount _ _ _ _ (ri_sym _ _ _ _ Hi3)).
  - destruct (ri_sink _ _ _ _ Hi3) as (s' & Hs' & Hch). exists s'. split; [done|].
    rewrite Hch. apply (wanted_count _ _ _ _ (ri_sym _ _ _ _ Hi3)). lia.
Qed.

Lemma r_sched_eq r calls i c r' c' :
  calls !! i = Some c → r_step r c = (r', c') → r_sched (r, calls) i = (r', <[i := c']> calls).
Proof. intros Hi Hs. unfold r_sched. cbn. by rewrite Hi, Hs. Qed.

(** The two halves of the race: the last subscriber's count goes down with the
    callback still to come, and a new subscriber's count goes up. *)
Lemma count_down_last r SS n t :
  symbols_ok r SS n → 0 ≤ n < 2 ^ 31 → lcount SS t = 1 →
  ∃ r' SS', count_down_all (r, []) t = (r', [t]) ∧ symbols_ok r' SS' n ∧ rframe r' = rframe r ∧
    lcount SS' t = 0.
Proof.
  intros Hok Hn Hc. destruct (count_down_ok r SS n t Hok Hn ltac:(lia)) as (SS' & Hok' & Hf & Hw & Hl).
  unfold count_down_all. destruct (count_down r t) as [r' b]. cbn [fst snd] in *.
  specialize (Hl t). rewrite decide_True in Hl by done. exists r', SS'.
  destruct b; [split_and!; [done|done|done|lia]|]. exfalso.
  pose proof (wanted_count _ _ _ t Hok) as H1. pose proof (wanted_count _ _ _ t Hok') as H2.
  rewrite Hw in H2. rewrite H1 in H2. lia.
Qed.

Lemma count_up_first r SS n t :
  symbols_ok r SS n → 0 ≤ n → n + 1 < 2 ^ 31 → lcount SS t = 0 →
  ∃ r' SS', count_up_all (r, []) t = (r', [t]) ∧ symbols_ok r' SS' (n + 1) ∧ rframe r' = rframe r ∧
    lcount SS' t = 1.
Proof.
  intros Hok Hn0 Hn Hc. destruct (count_up_ok r SS n t Hok Hn0 Hn) as (SS' & Hok' & Hf & _ & Hb & Hl).
  unfold count_up_all. destruct (count_up r t) as [r' b]. cbn [fst snd] in *.
  specialize (Hl t). rewrite decide_True in Hl by done. exists r', SS'.
  rewrite bool_decide_true in Hb by (rewrite (wanted_count _ _ _ t Hok); lia). subst b.
  split_and!; [done|done|done|lia].
Qed.

Lemma race_table a b t :
  a ≠ b →
  size (filter (λ x : string * gset string, t ∈ x.2)
          (delete a (spec_subscribe (spec_subscribe ∅ a [t]) b [t]))) = 1%nat.
Proof.
  intros Hab. cbn [spec_subscribe]. rewrite !lookup_empty, lookup_insert_ne, lookup_empty by done.
  rewrite delete_insert_ne, delete_insert_id by (done || apply lookup_empty).
  rewrite map_filter_insert_True by set_solver.
  by rewrite map_filter_empty, map_size_insert_None, map_size_empty by apply lookup_empty.
Qed.

Lemma r_schedule_app (st : DistributedRouter M (option RedisSub) * list r_call) l1 l2 :
  r_schedule st (l1 ++ l2) = r_schedule (r_schedule st l1) l2.
Proof. apply fold_left_app. Qed.

(** The leaving client up to its callback. *)
Lemma last_client_leaves r SS a t c :
  symbols_ok r SS 1 → lcount SS t = 1 → rt_subs r !! a = Some [t] →
  ∃ r' SS', r_schedule (r, [mkCall a UnsTrack; c]) [0; 0; 0]%nat = (r', [mkCall a (UnsFire [t]); c]) ∧
    symbols_ok r' SS' 1 ∧ lcount SS' t = 0 ∧ rt_local r' = rt_local r ∧
    rt_onChange r' = rt_onChange r ∧ rt_sink r' = rt_sink r.
Proof.
  intros Hok Hc Hsub. unfold r_schedule. cbn [fold_left].
  erewrite (r_sched_eq r) by (done || (cbn; by rewrite Hsub)).
  set (r2 := set_subs r (delete a (rt_subs r))).
  assert (Hok2 : symbols_ok r2 SS 1) by (by apply (symbols_ok_ext r)).
  destruct (count_down_last r2 SS 1 t Hok2 ltac:(lia) Hc) as (r3 & SS3 & Hcd & Hok3 & Hf3 & Hc3).
  injection Hf3 as Hf1 Hf2 Hf3 Hf4. exists r3, SS3.
  erewrite (r_sched_eq r2) by (done || (cbn [r_step rc_pc]; by rewrite Hcd)).
  erewrite (r_sched_eq r3) by done. by split_and!.
Qed.

(** The new client from start to end. *)
Lemma first_client_joins r SS s b t c local h :
  symbols_ok r SS 1 → lcount SS t = 0 → rt_onChange r = Some app_onChange → rt_sink r = Some s →
  mg_Subscribe (rt_local r) b [t] = Ret (local, h) →
  ∃ r' SS' s', r_schedule (r, [c; mkCall b (SubLocal [t])]) [1; 1; 1; 1; 1; 1]%nat =
                 (r', [c; mkCall b RDone]) ∧
    symbols_ok r' SS' 2 ∧ lcount SS' t = 1 ∧ rt_local r' = local ∧
    rt_onChange r' = Some app_onChange ∧ rt_sink r' = Some s'.
Proof.
  intros Hok Hc Hon Hsk Hs. unfold r_schedule. cbn [fold_left].
  erewrite (r_sched_eq r) by (done || (cbn; by rewrite Hs)).
  erewrite (r_sched_eq (set_local r local)) by done.
  set (r4 := track (set_local r local) _ [t]).
  assert (Hok4 : symbols_ok r4 SS 1) by (by apply (symbols_ok_ext r)).
  destruct (count_up_first r4 SS 1 t Hok4 ltac:(lia) ltac:(lia) Hc) as (r5 & SS5 & Hcu & Hok5 & Hf5 & Hc5).
  injection Hf5 as Hf1 Hf2 Hf3 Hf4.
  erewrite (r_sched_eq r4) by (done || (cbn [r_step rc_pc]; by rewrite Hcu)).
  do 3 (erewrite r_sched_eq by done).
  destruct (fire_all SubscribeRequested [t] r5 s) as (Hk6 & Hl6 & _ & Hn6 & s6 & Hs6 & _);
    [by rewrite Hf3|by rewrite Hf4|].
  cbn [fold_left] in *. exists (fireOnChange SubscribeRequested r5 t), SS5, s6.
  split_and!; [done|by apply Hk6|done| |by rewrite Hn6, Hf3|done]. etrans; [exact Hl6|done].
Qed.

(** The callbacks are made outside the locks, and their order can be that of
    neither call. While the last subscriber of a topic leaves, a new one
    subscribes between the count reaching zero and the callback that follows from
    it: both calls finish, the new client is subscribed and counted, but the Redis
    subscriber has dropped the symbol, and Reconcile does not notice. *)
Lemma callback_race_starves_client local prefix gw s a b t r1 h1 local2 h2 :
  mg_table local ∅ → rd_channels s = ∅ → a ≠ b →
  Router_Subscribe (app_router local prefix gw s) a [t] = Ret (r1, h1) →
  mg_Subscribe (rt_local r1) b [t] = Ret (local2, h2) →
  let '(r, calls) := r_schedule (r1, [mkCall a UnsTrack; mkCall b (SubLocal [t])])
                       [0; 0; 0; 1; 1; 1; 1; 1; 1; 0; 0; 0]%nat in
  calls = [mkCall a RDone; mkCall b RDone] ∧
  Router_SubscriberCount r t = 1%nat ∧ NeedsSymbol r t = true ∧ Reconcile r = r ∧
  ∃ s', rt_sink r = Some s' ∧ t ∉ rd_channels s'.
Proof.
  intros Ht Hs Hab H1 H2. pose proof (app_router_inv local prefix gw s Ht Hs) as Hi0.
  destruct (Router_Subscribe_inv _ ∅ 0 ∅ a [t] r1 h1 Hi0 ltac:(lia) ltac:(cbn; lia) H1)
    as (SS1 & Hi1 & Hl1 & Hs1).
  assert (Hc1 : lcount SS1 t = 1).
  { rewrite Hl1, (occ_NoDup t [t]), decide_True by (apply NoDup_singleton || by left).
    unfold lcount. by rewrite lookup_empty. }
  assert (Hsub1 : rt_subs r1 !! a = Some [t]).
  { rewrite Hs1, lookup_insert_eq.
    change (rt_subs (app_router local prefix gw s) !! a) with ((∅ : gmap string (list string)) !! a).
    rewrite lookup_empty. by rewrite merge_once. }
  destruct (ri_sink _ _ _ _ Hi1) as (s1 & Hsk1 & _).
  change [0; 0; 0; 1; 1; 1; 1; 1; 1; 0; 0; 0]%nat with
    ([0; 0; 0]%nat ++ [1; 1; 1; 1; 1; 1]%nat ++ [0; 0; 0]%nat). rewrite !r_schedule_app.
  destruct (last_client_leaves r1 SS1 a t (mkCall b (SubLocal [t])) (ri_sym _ _ _ _ Hi1) Hc1 Hsub1)
    as (r3 & SS3 & -> & Hok3 & Hc3 & Hlo3 & Hon3 & Hsk3).
  destruct (first_client_joins r3 SS3 s1 b t (mkCall a (UnsFire [t])) local2 h2 Hok3 Hc3)
    as (r6 & SS6 & s6 & -> & Hok6 & Hc6 & Hlo6 & Hon6 & Hsk6);
    [rewrite Hon3; apply Hi1|by rewrite Hsk3|by rewrite Hlo3|].
  unfold r_schedule. cbn [fold_left]. do 3 (erewrite r_sched_eq by done). cbn [list_insert insert rc_id].
  destruct (fire_all UnsubscribeRequested [t] r6 s6) as (Hk7 & Hl7 & _ & _ & s7 & Hs7 & Hc7); [done|done|].
  cbn [fold_left] in *. set (r7 := fireOnChange UnsubscribeRequested r6 t) in *.
  assert (Hok7 : symbols_ok (set_local r7 (mg_Unsubscribe (rt_local r7) a)) SS6 2)
    by (apply (symbols_ok_ext r7); [done..|by apply Hk7]).
  split_and!; [done| | |by eapply reconcile_idle|].
  - unfold Router_SubscriberCount. cbn [rt_local set_local]. rewrite Hl7, Hlo6.
    rewrite (mg_count_table _ _ _ (mg_Unsubscribe_table _ _ a
               (mg_Subscribe_table _ _ _ _ _ _ (ri_table _ _ _ _ Hi1) H2))).
    by apply race_table.
  - rewrite (needs_wanted _ _ _ _ Hok7), (wanted_count _ _ _ _ Hok7). lia.
  - exists s7. split; [done|]. rewrite Hc7. set_solver.
Qed.
End demand.

(** ** Witnesses *)

Definition rd_none : RedisSub := mkRedisSub "market:" ∅ true [].
Definition demo_router : DistributedRouter (MemoryManager (list string) (string * Z)) (option RedisSub) :=
  app_router tm_empty "market:" "gw-1" rd_none.
Definition demo_router_ops : list (@router_op handle (MarketEvent (string * Z))) :=
  [RSubscribe "alice" ["AAPL"; "TSLA"]; RSubscribe "bob" ["TSLA"]; RUnsubscribe "alice"; RReconcile].
Definition run_demo (ops : list (@router_op handle (MarketEvent (string * Z)))) :=
  match router_run demo_router ops with Ret r => r | Panic => demo_router end.

Lemma tm_empty_table : mg_table tm_empty ∅.
Proof. exists ∅. apply fresh_manager_ok, tm_empty_fresh. Qed.

Lemma router_covers_local_demand_witness :
  ∃ s', rt_sink (run_demo demo_router_ops) = Some s' ∧
    ∀ t, (0 < Router_SubscriberCount (run_demo demo_router_ops) t)%nat → t ∈ rd_channels s'.
Proof.
  assert (Hrun : router_run demo_router demo_router_ops = Ret (run_demo demo_router_ops))
    by (vm_compute; reflexivity).
  destruct (router_covers_local_demand tm_empty "market:" "gw-1" rd_none demo_router_ops
              (run_demo demo_router_ops) tm_empty_table eq_refl Hrun ltac:(reflexivity))
    as (s' & Hs' & _ & Hc & _). exact (ex_intro _ s' (conj Hs' Hc)).
Defined.

Lemma router_follows_demand_exactly_witness :
  SymbolLocalCount (run_demo demo_router_ops) "TSLA" = 1 ∧
  Router_SubscriberCount (run_demo demo_router_ops) "TSLA" = 1%nat.
Proof.
  assert (Hrun : router_run demo_router demo_router_ops = Ret (run_demo demo_router_ops))
    by (vm_compute; reflexivity).
  assert (Honce : once ∅ demo_router_ops).
  { cbn [once demo_router_ops table_exec]. split_and!; [| | | |exact I..].
    - apply NoDup_cons_2; [by intros ?%list_elem_of_singleton|apply NoDup_singleton].
    - intros t _. apply not_elem_of_empty.
    - apply NoDup_singleton.
    - intros t _. apply not_elem_of_empty. }
  destruct (router_follows_demand_exactly tm_empty "market:" "gw-1" rd_none demo_router_ops
              (run_demo demo_router_ops) tm_empty_table eq_refl Honce Hrun ltac:(reflexivity))
    as [Hc _]. specialize (Hc "TSLA").
  assert (Hn : Router_SubscriberCount (run_demo demo_router_ops) "TSLA" = 1%nat) by (vm_compute; reflexivity).
  rewrite Hn in Hc. exact (conj Hc Hn).
Defined.

Definition leak_ops : list (@router_op handle (MarketEvent (string * Z))) :=
  [RSubscribe "alice" ["AAPL"]; RSubscribe "alice" ["AAPL"]; RUnsubscribe "alice"; RReconcile].

Lemma resubscribe_leaks_channel_witness :
  Router_SubscriberCount (run_demo leak_ops) "AAPL" = 0%nat ∧
  SymbolLocalCount (run_demo leak_ops) "AAPL" = 1.
Proof.
  assert (Hrun : router_run demo_router leak_ops = Ret (run_demo leak_ops)) by (vm_compute; reflexivity).
  destruct (resubscribe_leaks_channel tm_empty "market:" "gw-1" rd_none "alice" "AAPL" (run_demo leak_ops)
              tm_empty_table eq_refl Hrun) as (Hc & Hl & _). exact (conj Hc Hl).
Defined.

Definition alice_joined :=
  match Router_Subscribe demo_router "alice" ["AAPL"] with Ret rh => rh | Panic => (demo_router, None) end.
Definition bob_local :=
  match mg_Subscribe (rt_local (fst alice_joined)) "bob" ["AAPL"] with
  | Ret mh => mh | Panic => (tm_empty, None) end.

Lemma callback_race_starves_client_witness :
  Router_Subscribe demo_router "alice" ["AAPL"] = Ret (fst alice_joined, snd alice_joined) ∧
  let '(r, _) := r_schedule (fst alice_joined, [mkCall "alice" UnsTrack; mkCall "bob" (SubLocal ["AAPL"])])
                   [0; 0; 0; 1; 1; 1; 1; 1; 1; 0; 0; 0]%nat in
  NeedsSymbol r "AAPL" = true ∧ ∃ s', rt_sink r = Some s' ∧ "AAPL" ∉ rd_channels s'.
Proof.
  assert (H1 : Router_Subscribe demo_router "alice" ["AAPL"] = Ret (fst alice_joined, snd alice_joined))
    by (vm_compute; reflexivity).
  assert (H2 : mg_Subscribe (rt_local (fst alice_joined)) "bob" ["AAPL"] = Ret (fst bob_local, snd bob_local))
    by (vm_compute; reflexivity).
  pose proof (callback_race_starves_client tm_empty "market:" "gw-1" rd_none "alice" "bob" "AAPL"
    (fst alice_joined) (snd alice_joined) (fst bob_local) (snd bob_local) tm_empty_table eq_refl
    ltac:(discriminate) H1 H2) as Hrace.
  destruct (r_schedule _ _) as [r calls]. destruct Hrace as (_ & _ & Hn & _ & Hs).
  exact (conj H1 (conj Hn Hs)).
Defined.
