(* ===== verification/EventStore.v ===== *)
(** * EventStore: recorded events and the in-memory store

    [internal/models/events.go], [internal/recorder/storage/store.go] and
    [memory.go]: the stored event, the [EventStore] interface as its readers see
    it, and [InMemoryStore], which keeps one sorted partition per symbol and
    streams a time range of it in chunks. *)

From Stdlib Require Import Strings.Byte Sorting.Sorted.
From S2P Require Import Prelude Bytes.

Record StoredEvent := mkStored {
  se_EventID : string;
  se_SchemaVersion : Z;
  se_Exchange : string;
  se_Symbol : string;
  se_EventType : string;
  se_Timestamp : Z;
  se_SequenceNumber : Z;
  se_Payload : list byte;
  se_RecordingTime : Z;
}.

(** What [EventIterator.Next] returns: a batch, [(nil, nil)] or an error. *)
Inductive fetch :=
| FBatch (batch : list StoredEvent)
| FEof
| FErr.

(** The reading side of [EventStore]; [None] is an error of [ReadStream]. *)
Class EventStore (St It : Type) := {
  es_ReadStream : St → string → Z → Z → Z → option It;
  es_Next : It → It * fetch;
}.

(** The iterator returns these batches and then the end of the stream. *)
Inductive yields {St It} `{!EventStore St It} : It → list (list StoredEvent) → Prop :=
| yields_eof it it' : es_Next it = (it', FEof) → yields it []
| yields_batch it it' b bs : es_Next it = (it', FBatch b) → yields it' bs → yields it (b :: bs).

(** ** The in-memory store *)

(** The comparison of [WriteBatch]. *)
Definition event_less (a b : StoredEvent) : bool :=
  if se_Timestamp a =? se_Timestamp b then se_SequenceNumber a <? se_SequenceNumber b
  else se_Timestamp a <? se_Timestamp b.

(** [sort.SliceStable]: the stable sort by [event_less]. *)
Fixpoint sorted_insert (x : StoredEvent) (l : list StoredEvent) : list StoredEvent :=
  match l with
  | [] => [x]
  | y :: l => if event_less y x then y :: sorted_insert x l else x :: y :: l
  end.
Definition sort_SliceStable (l : list StoredEvent) : list StoredEvent := foldr sorted_insert [] l.

Definition InMemoryStore : Type := gmap string (list StoredEvent).
Definition NewInMemoryStore : InMemoryStore := ∅.

Definition append_event (s : InMemoryStore) (ev : StoredEvent) : InMemoryStore :=
  <[se_Symbol ev := default [] (s !! se_Symbol ev) ++ [ev]]> s.

Definition WriteBatch (s : InMemoryStore) (batch : list StoredEvent) : InMemoryStore :=
  sort_SliceStable <$> fold_left append_event batch s.

(** Equal or after the start, equal or before the end. *)
Definition in_range (start stop : Z) (ev : StoredEvent) : bool :=
  ((se_Timestamp ev =? start) || (start <? se_Timestamp ev)) &&
  ((se_Timestamp ev =? stop) || (se_Timestamp ev <? stop)).

Record memoryIterator := mkIterator { mi_events : list StoredEvent; mi_chunkSize : Z; mi_cursor : Z }.

Definition ReadStream (s : InMemoryStore) (symbol : string) (start stop chunkSize : Z) : memoryIterator :=
  match s !! symbol with
  | None => mkIterator [] 0 0
  | Some partition =>
      mkIterator (filter (λ ev, in_range start stop ev = true) partition) chunkSize 0
  end.

Definition memoryIterator_Next (m : memoryIterator) : memoryIterator * option (list StoredEvent) :=
  let n := Z.of_nat (length (mi_events m)) in
  if n <=? mi_cursor m then (m, None)
  else
    let e := mi_cursor m + mi_chunkSize m in
    let e := if n <? e then n else e in
    let batch := take (Z.to_nat (e - mi_cursor m)) (drop (Z.to_nat (mi_cursor m)) (mi_events m)) in
    (mkIterator (mi_events m) (mi_chunkSize m) e, Some batch).

Instance InMemoryStore_EventStore : EventStore InMemoryStore memoryIterator := {|
  es_ReadStream s symbol start stop chunkSize := Some (ReadStream s symbol start stop chunkSize);
  es_Next it :=
    match memoryIterator_Next it with
    | (it, Some b) => (it, FBatch b)
    | (it, None) => (it, FEof)
    end;
|}.

(** ** Order and contents of a partition *)

Definition event_le (a b : StoredEvent) : Prop := event_less b a = false.

Lemma event_le_trans : Transitive event_le.
Proof.
  intros a b c. unfold event_le, event_less.
  destruct (Z.eqb_spec (se_Timestamp b) (se_Timestamp a)), (Z.eqb_spec (se_Timestamp c) (se_Timestamp b)),
    (Z.eqb_spec (se_Timestamp c) (se_Timestamp a)); rewrite ?Z.ltb_ge; lia.
Qed.

Lemma event_le_total a b : event_less a b = true → event_le a b.
Proof.
  unfold event_le, event_less. destruct (Z.eqb_spec (se_Timestamp a) (se_Timestamp b)),
    (Z.eqb_spec (se_Timestamp b) (se_Timestamp a)); rewrite ?Z.ltb_ge, ?Z.ltb_lt; lia.
Qed.

Lemma sorted_insert_perm x l : sorted_insert x l ≡ₚ x :: l.
Proof.
  induction l as [|y l IH]; [done|]. cbn. destruct (event_less y x); [|done].
  rewrite IH. apply Permutation_swap.
Qed.

Lemma sorted_insert_sorted x l : StronglySorted event_le l → StronglySorted event_le (sorted_insert x l).
Proof.
  induction 1 as [|y l Hl IH Hy]; [repeat constructor|]. cbn. destruct (event_less y x) eqn:Hyx.
  - constructor; [done|]. rewrite sorted_insert_perm. constructor; [|done]. by apply event_le_total.
  - constructor; [by constructor|]. constructor; [done|].
    eapply Forall_impl; [exact Hy|]. intros z Hz. by apply (event_le_trans x y z).
Qed.

Lemma sort_SliceStable_perm l : sort_SliceStable l ≡ₚ l.
Proof. induction l as [|x l IH]; [done|]. cbn. rewrite sorted_insert_perm. by constructor. Qed.

Lemma sort_SliceStable_sorted l : StronglySorted event_le (sort_SliceStable l).
Proof. induction l as [|x l IH]; [constructor|]. by apply sorted_insert_sorted. Qed.

Lemma append_events_lookup batch (s : InMemoryStore) symbol :
  default [] (fold_left append_event batch s !! symbol) =
    default [] (s !! symbol) ++ filter (λ ev, se_Symbol ev = symbol) batch.
Proof.
  revert s. induction batch as [|ev batch IH]; intros s; cbn [fold_left]; [by rewrite app_nil_r|].
  rewrite IH. unfold append_event, InMemoryStore in *. destruct (decide (se_Symbol ev = symbol)) as [<-|Hne].
  - rewrite lookup_insert_eq, filter_cons_True by done. cbn. by rewrite <- (assoc_L (++)).
  - by rewrite lookup_insert_ne, filter_cons_False by done.
Qed.

(** A partition holds, in order, exactly the events written for its symbol. *)
Lemma write_batches_partition batches symbol :
  let s := fold_left WriteBatch batches NewInMemoryStore in
  default [] (s !! symbol) ≡ₚ filter (λ ev, se_Symbol ev = symbol) (concat batches) ∧
  StronglySorted event_le (default [] (s !! symbol)).
Proof.
  cbn zeta. induction batches as [|b batches IH] using rev_ind.
  { cbn. split; [done|constructor]. }
  destruct IH as [Hperm Hsorted]. rewrite fold_left_app. cbn [fold_left].
  set (s := fold_left WriteBatch batches NewInMemoryStore) in *.
  assert (Hd : default [] (WriteBatch s b !! symbol) =
               sort_SliceStable (default [] (s !! symbol) ++ filter (λ ev, se_Symbol ev = symbol) b)).
  { rewrite <- append_events_lookup. unfold WriteBatch, InMemoryStore. rewrite lookup_fmap.
    by match goal with |- default [] (_ <$> ?o) = _ => destruct o end. }
  rewrite Hd. split; [|apply sort_SliceStable_sorted].
  rewrite sort_SliceStable_perm, Hperm, concat_app, filter_app. cbn [concat].
  by rewrite app_nil_r.
Qed.

(** ** Chunks *)

Lemma iterator_yields it :
  0 < mi_chunkSize it → 0 ≤ mi_cursor it →
  ∃ bs, yields it bs ∧ concat bs = drop (Z.to_nat (mi_cursor it)) (mi_events it) ∧
    Forall (λ b, b ≠ [] ∧ Z.of_nat (length b) ≤ mi_chunkSize it) bs.
Proof.
  intros Hc. remember (length (mi_events it) - Z.to_nat (mi_cursor it))%nat as k eqn:Hk.
  revert it Hc Hk. induction k as [k IH] using lt_wf_ind. intros it Hc Hk H0.
  set (n := Z.of_nat (length (mi_events it))). destruct (Z.leb_spec n (mi_cursor it)) as [Hle|Hlt].
  { exists []. split_and!; [|by rewrite drop_ge by lia|constructor].
    eapply yields_eof. cbn. unfold memoryIterator_Next. fold n. by rewrite (proj2 (Z.leb_le _ _)). }
  set (e := if n <? mi_cursor it + mi_chunkSize it then n else mi_cursor it + mi_chunkSize it).
  assert (He : mi_cursor it < e ≤ n ∧ e ≤ mi_cursor it + mi_chunkSize it)
    by (unfold e; destruct (Z.ltb_spec n (mi_cursor it + mi_chunkSize it)); lia).
  destruct (IH (length (mi_events it) - Z.to_nat e)%nat ltac:(lia)
              (mkIterator (mi_events it) (mi_chunkSize it) e) Hc eq_refl ltac:(cbn; lia))
    as (bs & Hy & Hcat & Hsz). cbn [mi_events mi_chunkSize mi_cursor] in *.
  set (b := take (Z.to_nat (e - mi_cursor it)) (drop (Z.to_nat (mi_cursor it)) (mi_events it))).
  assert (Hlen : length b = Z.to_nat (e - mi_cursor it)).
  { unfold b. rewrite length_take, length_drop. lia. }
  exists (b :: bs). split_and!.
  - eapply yields_batch; [|exact Hy]. cbn. unfold memoryIterator_Next. fold n.
    by rewrite (proj2 (Z.leb_gt _ _)).
  - cbn [concat]. rewrite Hcat. unfold b.
    replace (Z.to_nat e) with (Z.to_nat (mi_cursor it) + Z.to_nat (e - mi_cursor it))%nat by lia.
    rewrite <- drop_drop. apply take_drop.
  - constructor; [|done]. split; [|lia]. intros Hb. rewrite Hb in Hlen. cbn in Hlen. lia.
Qed.
