(* ===== verification/ReplaySession.v ===== *)
(** * ReplaySession: the replay sessions and their clock

    [internal/replay/engine/state.go], [session.go], [manager.go] and
    [internal/replay/scheduler/clock.go]: the session's state machine, its
    control calls, the run loop with the streaming of one range and the
    prefetching goroutine, and the clock that publishes the events. The run loop
    is a step relation; a control call is one step, since it holds the session's
    lock. Sleeping is a step that may be taken at any time. *)

From S2P Require Import Prelude Float64 EventStore.

(** ** The state machine *)

Inductive SessionState :=
| StateCreated
| StateInitializing
| StateRunning
| StatePaused
| StateSeeking
| StateCompleted
| StateDestroyed.
#[global] Instance SessionState_eq : EqDecision SessionState.
Proof. solve_decision. Defined.

Definition SessionState_String (s : SessionState) : string :=
  match s with
  | StateCreated => "Created"
  | StateInitializing => "Initializing"
  | StateRunning => "Running"
  | StatePaused => "Paused"
  | StateSeeking => "Seeking"
  | StateCompleted => "Completed"
  | StateDestroyed => "Destroyed"
  end.

Definition IsValidTransition (from to : SessionState) : bool :=
  match from with
  | StateCreated => bool_decide (to = StateInitializing) || bool_decide (to = StateDestroyed)
  | StateInitializing => bool_decide (to = StateRunning) || bool_decide (to = StateDestroyed)
  | StateRunning =>
      bool_decide (to = StatePaused) || bool_decide (to = StateSeeking) ||
      bool_decide (to = StateCompleted) || bool_decide (to = StateDestroyed)
  | StatePaused =>
      bool_decide (to = StateRunning) || bool_decide (to = StateSeeking) ||
      bool_decide (to = StateDestroyed)
  | StateSeeking => bool_decide (to = StateRunning) || bool_decide (to = StateDestroyed)
  | StateCompleted => bool_decide (to = StateDestroyed)
  | StateDestroyed => false
  end.

Inductive SessionError := InvalidStateTransitionError (From To : SessionState).

(** ** The clock *)

(** [ck_gen] counts the [resume] channels: the current one is open, all earlier
    ones are closed. *)
Record Clock := mkClock {
  ck_speedMultiplier : float64;
  ck_paused : bool;
  ck_gen : nat;
  ck_lastTimestamp : Z;
}.

Definition NewClock (speed : float64) : Clock := mkClock speed false 0 zero_time.
Definition Clock_Pause (c : Clock) : Clock :=
  mkClock (ck_speedMultiplier c) true (ck_gen c) (ck_lastTimestamp c).
Definition Clock_Resume (c : Clock) : Clock :=
  if ck_paused c then mkClock (ck_speedMultiplier c) false (S (ck_gen c)) (ck_lastTimestamp c) else c.
Definition Clock_CurrentTimestamp (c : Clock) : Z := ck_lastTimestamp c.

(** Whether [Schedule] sleeps on a timer before an event (and so can be woken by
    a cancellation): the virtual delay [Duration(float64(d) / speed)] exceeds a
    millisecond, that is the quotient is at least 1,000,001 nanoseconds. Shorter
    delays are spun away. *)
Definition sleeps_before (c : Clock) (timestamp : Z) : bool :=
  let historicalDelay := time_sub timestamp (ck_lastTimestamp c) in
  f64_ltb f64_zero (ck_speedMultiplier c) && negb (ck_lastTimestamp c =? zero_time) &&
  (0 <? historicalDelay) &&
  f64_leb (f64_of_Z (Millisecond + 1)) (f64_div (f64_of_Z historicalDelay) (ck_speedMultiplier c)).

(** ** The session *)

Definition defaultChunkSize : Z := 10000.

(** [innerCancel] names the inner context it cancels. *)
Record Session := mkSession {
  s_id : string;
  s_symbol : string;
  s_speed : float64;
  s_chunkSize : Z;
  s_state : SessionState;
  s_clock : Clock;
  s_innerCancel : option nat;
  s_startTime : Z;
  s_endTime : Z;
  s_seekTarget : option Z;
}.

Definition newSession (id symbol : string) (speed : float64) (chunkSize : Z) : Session :=
  mkSession id symbol speed (if chunkSize <=? 0 then defaultChunkSize else chunkSize) StateCreated
    (NewClock speed) None zero_time zero_time None.

Definition with_state (s : Session) (state : SessionState) : Session :=
  mkSession (s_id s) (s_symbol s) (s_speed s) (s_chunkSize s) state (s_clock s) (s_innerCancel s)
    (s_startTime s) (s_endTime s) (s_seekTarget s).
Definition with_clock (s : Session) (c : Clock) : Session :=
  mkSession (s_id s) (s_symbol s) (s_speed s) (s_chunkSize s) (s_state s) c (s_innerCancel s)
    (s_startTime s) (s_endTime s) (s_seekTarget s).
Definition with_innerCancel (s : Session) (g : nat) : Session :=
  mkSession (s_id s) (s_symbol s) (s_speed s) (s_chunkSize s) (s_state s) (s_clock s) (Some g)
    (s_startTime s) (s_endTime s) (s_seekTarget s).
Definition with_range (s : Session) (start stop : Z) : Session :=
  mkSession (s_id s) (s_symbol s) (s_speed s) (s_chunkSize s) (s_state s) (s_clock s) (s_innerCancel s)
    start stop (s_seekTarget s).
Definition with_seekTarget (s : Session) (t : option Z) : Session :=
  mkSession (s_id s) (s_symbol s) (s_speed s) (s_chunkSize s) (s_state s) (s_clock s) (s_innerCancel s)
    (s_startTime s) (s_endTime s) t.

Definition transitionState (s : Session) (to : SessionState) : result Session SessionError :=
  if IsValidTransition (s_state s) to then Ok (with_state s to)
  else Err (InvalidStateTransitionError (s_state s) to).

Definition mustTransition (s : Session) (to : SessionState) : outcome Session :=
  match transitionState s to with Ok s => Ret s | Err _ => Panic end.

Definition Session_Pause (s : Session) : result Session SessionError :=
  match transitionState s StatePaused with
  | Ok s => Ok (with_clock s (Clock_Pause (s_clock s)))
  | Err e => Err e
  end.

Definition Session_Resume (s : Session) : result Session SessionError :=
  match transitionState s StateRunning with
  | Ok s => Ok (with_clock s (Clock_Resume (s_clock s)))
  | Err e => Err e
  end.

(** The cancellation that follows the transition is a step of its own. *)
Definition Session_Stop (s : Session) : result Session SessionError := transitionState s StateDestroyed.

(** The session and the inner context that is cancelled. *)
Definition Session_Seek (s : Session) (target : Z) : result (Session * option nat) SessionError :=
  match transitionState s StateSeeking with
  | Ok s => Ok (with_seekTarget s (Some target), s_innerCancel s)
  | Err e => Err e
  end.

Record SessionStatus := mkStatus {
  sst_ID : string;
  sst_Symbol : string;
  sst_State : SessionState;
  sst_Speed : float64;
  sst_StartTimestamp : Z;
  sst_EndTimestamp : Z;
  sst_CurrentTimestamp : Z;
}.
Definition Session_Status (s : Session) : SessionStatus :=
  mkStatus (s_id s) (s_symbol s) (s_state s) (s_speed s) (s_startTime s) (s_endTime s)
    (Clock_CurrentTimestamp (s_clock s)).

(** ** The run loop *)

Section run.
Context {St It : Type} `{!EventStore St It} (store : St).

(** The prefetching goroutine of [streamEvents]: the iterator, the channel of
    capacity one, and whether it has closed the channel and exited. *)
Record prefetch := mkPrefetch { pf_it : It; pf_ch : option fetch; pf_closed : bool }.

(** What [streamEvents] returned: nil, [context.Canceled] or another error. *)
Inductive stream_result := RNil | RCanceled | RErr.

(** Where the run loop is. The events are those of the batch that [Schedule] has
    still to publish. *)
Inductive run_pc :=
| PcStart
| PcLoop
| PcArm
| PcRead
| PcFetch
| PcCheck (evs : list StoredEvent)
| PcWait (evs : list StoredEvent)
| PcPark (gen : nat) (evs : list StoredEvent)
| PcSleep (evs : list StoredEvent)
| PcEnd (r : stream_result)
| PcFinal
| PcDone
| PcPanic.

(** [w_ctx] is the current inner context and [w_ctxDone] whether its own cancel
    function was called; [w_parentDone] is the session's context. *)
Record world := mkWorld {
  w_s : Session;
  w_pc : run_pc;
  w_currentStart : Z;
  w_stop : Z;
  w_parentDone : bool;
  w_ctx : nat;
  w_ctxDone : bool;
  w_pf : option prefetch;
  w_published : list StoredEvent;
}.

Definition ctx_done (w : world) : bool := w_ctxDone w || w_parentDone w.

Definition at_pc (w : world) (pc : run_pc) : world :=
  mkWorld (w_s w) pc (w_currentStart w) (w_stop w) (w_parentDone w) (w_ctx w) (w_ctxDone w) (w_pf w)
    (w_published w).
Definition set_s (w : world) (s : Session) (pc : run_pc) : world :=
  mkWorld s pc (w_currentStart w) (w_stop w) (w_parentDone w) (w_ctx w) (w_ctxDone w) (w_pf w)
    (w_published w).
Definition set_pf (w : world) (pf : option prefetch) (pc : run_pc) : world :=
  mkWorld (w_s w) pc (w_currentStart w) (w_stop w) (w_parentDone w) (w_ctx w) (w_ctxDone w) pf
    (w_published w).

(** A transition of the run loop itself, which panics when it is not valid. *)
Definition must_step (w : world) (s : Session) (to : SessionState) (pc : run_pc) : world :=
  match mustTransition s to with
  | Ret s => set_s w s pc
  | Panic => at_pc w PcPanic
  end.

(** [run] up to the loop, for the range from [w_currentStart] to [w_stop]. *)
Definition run_start (w : world) : world :=
  must_step w (with_range (w_s w) (w_currentStart w) (w_stop w)) StateInitializing PcLoop.

(** The first critical section of the loop: a pending seek restarts the range
    with a new clock. *)
Definition run_loop (w : world) : world :=
  match s_seekTarget (w_s w) with
  | Some target =>
      let s := with_clock (with_seekTarget (w_s w) None) (NewClock (s_speed (w_s w))) in
      must_step (mkWorld (w_s w) (w_pc w) target (w_stop w) (w_parentDone w) (w_ctx w) (w_ctxDone w)
                   (w_pf w) (w_published w)) s StateRunning PcArm
  | None => must_step w (w_s w) StateRunning PcArm
  end.

(** A new inner context, whose cancel function goes into the session. *)
Definition run_arm (w : world) : world :=
  let g := S (w_ctx w) in
  mkWorld (with_innerCancel (w_s w) g) PcRead (w_currentStart w) (w_stop w) (w_parentDone w) g false
    None (w_published w).

Definition run_read (w : world) : world :=
  match es_ReadStream store (s_symbol (w_s w)) (w_currentStart w) (w_stop w) (s_chunkSize (w_s w)) with
  | None => at_pc w (PcEnd RErr)
  | Some it => set_pf w (Some (mkPrefetch it None false)) PcFetch
  end.

(** The last critical section: Completed, or Destroyed when the context is done. *)
Definition run_final (w : world) : world :=
  if decide (s_state (w_s w) = StateDestroyed) then at_pc w PcDone
  else if w_parentDone w then must_step w (w_s w) StateDestroyed PcDone
  else must_step w (w_s w) StateCompleted PcDone.

Definition run_publish (w : world) (ev : StoredEvent) (evs : list StoredEvent) : world :=
  let c := s_clock (w_s w) in
  mkWorld (with_clock (w_s w) (mkClock (ck_speedMultiplier c) (ck_paused c) (ck_gen c) (se_Timestamp ev)))
    (PcCheck evs) (w_currentStart w) (w_stop w) (w_parentDone w) (w_ctx w) (w_ctxDone w) (w_pf w)
    (w_published w ++ [ev]).

Definition is_batch (f : fetch) : bool := match f with FBatch _ => true | _ => false end.
Definition after_fetch (f : fetch) : run_pc :=
  match f with FBatch b => PcCheck b | FEof => PcEnd RNil | FErr => PcEnd RErr end.

Inductive run_step : world → world → Prop :=
| step_start w : w_pc w = PcStart → run_step w (run_start w)
| step_loop w : w_pc w = PcLoop → run_step w (run_loop w)
| step_arm w : w_pc w = PcArm → run_step w (run_arm w)
| step_read w : w_pc w = PcRead → run_step w (run_read w)
(* the prefetching goroutine: fetch one chunk ahead, close after the last one *)
| step_prefetch w it it' f :
    w_pf w = Some (mkPrefetch it None false) → es_Next it = (it', f) →
    run_step w (set_pf w (Some (mkPrefetch it' (Some f) (negb (is_batch f)))) (w_pc w))
(* ... or exit and close when the context is done *)
| step_prefetch_exit w it ch :
    w_pf w = Some (mkPrefetch it ch false) → ctx_done w = true →
    run_step w (set_pf w (Some (mkPrefetch it ch true)) (w_pc w))
(* the select of streamEvents: a result, the zero value of a closed channel, or
   the cancellation *)
| step_fetch w it f closed :
    w_pc w = PcFetch → w_pf w = Some (mkPrefetch it (Some f) closed) →
    run_step w (set_pf w (Some (mkPrefetch it None closed)) (after_fetch f))
| step_fetch_closed w it :
    w_pc w = PcFetch → w_pf w = Some (mkPrefetch it None true) → run_step w (at_pc w (PcEnd RNil))
| step_fetch_done w : w_pc w = PcFetch → ctx_done w = true → run_step w (at_pc w (PcEnd RCanceled))
(* Schedule *)
| step_batch_end w : w_pc w = PcCheck [] → run_step w (at_pc w PcFetch)
| step_check w ev evs :
    w_pc w = PcCheck (ev :: evs) →
    run_step w (at_pc w (if ctx_done w then PcFetch else PcWait (ev :: evs)))
| step_wait w evs :
    w_pc w = PcWait evs →
    run_step w (at_pc w (if ck_paused (s_clock (w_s w)) then PcPark (ck_gen (s_clock (w_s w))) evs
                         else PcSleep evs))
| step_resumed w gen evs :
    w_pc w = PcPark gen evs → gen ≠ ck_gen (s_clock (w_s w)) → run_step w (at_pc w (PcSleep evs))
| step_park_done w gen evs :
    w_pc w = PcPark gen evs → ctx_done w = true → run_step w (at_pc w PcFetch)
| step_sleep_done w ev evs :
    w_pc w = PcSleep (ev :: evs) → sleeps_before (s_clock (w_s w)) (se_Timestamp ev) = true →
    ctx_done w = true → run_step w (at_pc w PcFetch)
| step_publish w ev evs :
    w_pc w = PcSleep (ev :: evs) → run_step w (run_publish w ev evs)
(* after streamEvents: a seek starts over, anything else ends the session *)
| step_seek w :
    w_pc w = PcEnd RCanceled → w_parentDone w = false → run_step w (set_pf w None PcLoop)
| step_end w r :
    w_pc w = PcEnd r → (r = RCanceled → w_parentDone w = true) → run_step w (set_pf w None PcFinal)
| step_final w : w_pc w = PcFinal → run_step w (run_final w).

(** The control calls; a call that returns an error changes nothing. *)
Definition cancel_ctx (w : world) (g : option nat) : world :=
  mkWorld (w_s w) (w_pc w) (w_currentStart w) (w_stop w) (w_parentDone w) (w_ctx w)
    (w_ctxDone w || bool_decide (g = Some (w_ctx w))) (w_pf w) (w_published w).

Inductive control := CPause | CResume | CStop | CSeek (target : Z) | CCancel.

(** [CCancel] is the cancel function that Stop calls after its transition, or a
    cancellation of the caller's context. *)
Definition control_by (w : world) (c : control) : option world :=
  match c with
  | CPause => match Session_Pause (w_s w) with Ok s => Some (set_s w s (w_pc w)) | Err _ => None end
  | CResume => match Session_Resume (w_s w) with Ok s => Some (set_s w s (w_pc w)) | Err _ => None end
  | CStop => match Session_Stop (w_s w) with Ok s => Some (set_s w s (w_pc w)) | Err _ => None end
  | CSeek target =>
      match Session_Seek (w_s w) target with
      | Ok (s, g) => Some (cancel_ctx (set_s w s (w_pc w)) g)
      | Err _ => None
      end
  | CCancel =>
      Some (mkWorld (w_s w) (w_pc w) (w_currentStart w) (w_stop w) true (w_ctx w) (w_ctxDone w)
              (w_pf w) (w_published w))
  end.

(** An execution: run steps, with the given control calls somewhere in between. *)
Inductive session_exec : world → list control → world → Prop :=
| exec_here w : session_exec w [] w
| exec_run w w1 cs w2 : run_step w w1 → session_exec w1 cs w2 → session_exec w cs w2
| exec_control w c w1 cs w2 :
    control_by w c = Some w1 → session_exec w1 cs w2 → session_exec w (c :: cs) w2.

(** [CreateSession]: the session and its goroutine, not yet running. *)
Definition CreateSession (id symbol : string) (start stop : Z) (speed : float64) (chunkSize : Z) : world :=
  mkWorld (newSession id symbol speed chunkSize) PcStart start stop false 0 false None [].
(** ** Every execution follows the state machine *)

Definition may_follow (a b : SessionState) : Prop := a = b ∨ IsValidTransition a b = true.

Lemma must_step_follows a w s to pc :
  s_state s = a → s_state (w_s w) = a → may_follow a (s_state (w_s (must_step w s to pc))).
Proof.
  intros Hs Hw. unfold must_step, mustTransition, transitionState. rewrite Hs.
  destruct (IsValidTransition a to) eqn:Hv; [by right|by left].
Qed.

Lemma run_step_follows w w' :
  run_step w w' → may_follow (s_state (w_s w)) (s_state (w_s w')).
Proof.
  destruct 1; try by left.
  - by apply must_step_follows.
  - unfold run_loop. destruct (s_seekTarget (w_s w)); by apply must_step_follows.
  - left. unfold run_read. by destruct (es_ReadStream _ _ _ _ _).
  - unfold run_final. case_decide; [by left|]. destruct (w_parentDone w); by apply must_step_follows.
Qed.

Lemma control_follows w c w' :
  control_by w c = Some w' → may_follow (s_state (w_s w)) (s_state (w_s w')) ∧ w_pc w' = w_pc w.
Proof.
  destruct c; cbn [control_by]; unfold Session_Pause, Session_Resume, Session_Stop, Session_Seek, transitionState;
    try (destruct (IsValidTransition _ _) eqn:Hv; [|done]); intros [= <-]; (split; [|done]);
    first [by right|by left].
Qed.

(** The run loop ends in one of the two final states. *)
Definition final_state (s : SessionState) : Prop := s = StateCompleted ∨ s = StateDestroyed.

Lemma final_follows a b : final_state a → may_follow a b → final_state b.
Proof.
  intros [-> | ->] [<-|Hv]; [by left| |by right|done].
  right. cbn in Hv. by apply bool_decide_eq_true in Hv.
Qed.

Lemma must_step_done w s to :
  final_state to → w_pc (must_step w s to PcDone) = PcDone →
  final_state (s_state (w_s (must_step w s to PcDone))).
Proof.
  unfold must_step, mustTransition, transitionState.
  by destruct (IsValidTransition _ _).
Qed.

Lemma must_step_not_done w s to pc : pc ≠ PcDone → w_pc (must_step w s to pc) ≠ PcDone.
Proof. unfold must_step. by destruct (mustTransition s to). Qed.

Lemma run_step_done w w' :
  run_step w w' → (w_pc w = PcDone → final_state (s_state (w_s w))) →
  w_pc w' = PcDone → final_state (s_state (w_s w')).
Proof.
  intros Hstep Hw Hd. destruct Hstep; cbn [w_pc at_pc set_s set_pf run_arm run_publish w_s] in *;
    try congruence; try (by apply Hw).
  - by apply must_step_not_done in Hd.
  - unfold run_loop in Hd. destruct (s_seekTarget (w_s w)); by apply must_step_not_done in Hd.
  - unfold run_read in Hd. by destruct (es_ReadStream _ _ _ _ _).
  - destruct f; by cbn in Hd.
  - destruct (ctx_done w); by cbn in Hd.
  - destruct (ck_paused _); by cbn in Hd.
  - unfold run_final in *. case_decide as Hs; [by right|].
    destruct (w_parentDone w); apply must_step_done; done || by (left + right).
Qed.

Lemma session_exec_follows w cs w' :
  session_exec w cs w' → (w_pc w = PcDone → final_state (s_state (w_s w))) →
  rtc (λ a b, IsValidTransition a b = true) (s_state (w_s w)) (s_state (w_s w')) ∧
  (w_pc w' = PcDone → final_state (s_state (w_s w'))).
Proof.
  induction 1 as [w|w w1 cs w2 Hs _ IH|w c w1 cs w2 Hc _ IH]; intros Hw; [done| |].
  - destruct IH as [Hp Hf]; [by apply (run_step_done w)|]. split; [|done].
    destruct (run_step_follows w w1 Hs) as [->|Hv]; [done|]. by eapply rtc_l.
  - destruct (control_follows w c w1 Hc) as [Hv Hpc].
    destruct IH as [Hp Hf].
    { rewrite Hpc. intros Hd. by apply (final_follows (s_state (w_s w))), Hv; apply Hw. }
    split; [|done]. destruct Hv as [->|Hv]; [done|]. by eapply rtc_l.
Qed.

(** A session obeys its state machine in every interleaving of the run loop,
    the prefetching goroutine, the control calls and cancellations: every change
    of its state is a valid transition, the run loop is over only in Completed or
    Destroyed, and nothing leaves Destroyed. *)
Lemma session_obeys_state_machine id symbol start stop speed chunkSize cs w :
  session_exec (CreateSession id symbol start stop speed chunkSize) cs w →
  rtc (λ a b, IsValidTransition a b = true) StateCreated (s_state (w_s w)) ∧
  (w_pc w = PcDone → final_state (s_state (w_s w))) ∧
  (s_state (w_s w) = StateDestroyed →
   ∀ cs' w', session_exec w cs' w' → s_state (w_s w') = StateDestroyed).
Proof.
  intros H. destruct (session_exec_follows _ _ _ H) as [Hp Hd]; [done|]. split_and!; [done|done|].
  intros Hs cs' w' H'. destruct (session_exec_follows _ _ _ H' Hd) as [Hp' _].
  rewrite Hs in Hp'. inversion Hp' as [|? b ? Hv]; [done|]. by cbn in Hv.
Qed.

(** ** Undisturbed replay *)

Section undisturbed.
Context (s0 : Session) (start stop : Z) (evs : list StoredEvent).
Hypothesis Hread : ∃ it bs,
  es_ReadStream store (s_symbol s0) start stop (s_chunkSize s0) = Some it ∧ yields it bs ∧ evs = concat bs.

(** What is still to come from the prefetching goroutine. *)
Definition pf_rest (pf : prefetch) (rest : list StoredEvent) : Prop :=
  match pf_ch pf with
  | None => pf_closed pf = false ∧ ∃ bs, yields (pf_it pf) bs ∧ rest = concat bs
  | Some (FBatch b) => pf_closed pf = false ∧ ∃ bs, yields (pf_it pf) bs ∧ rest = b ++ concat bs
  | Some FEof => pf_closed pf = true ∧ rest = []
  | Some FErr => False
  end.

(** No seek, no cancellation, no pause, and the events published, in hand and to
    come are those of the range. *)
Definition streaming (w : world) (in_hand : list StoredEvent) : Prop :=
  s_state (w_s w) = StateRunning ∧
  ∃ pf rest, w_pf w = Some pf ∧ pf_rest pf rest ∧ w_published w ++ in_hand ++ rest = evs.

Definition undisturbed (w : world) : Prop :=
  s_symbol (w_s w) = s_symbol s0 ∧ s_chunkSize (w_s w) = s_chunkSize s0 ∧
  w_currentStart w = start ∧ w_stop w = stop ∧
  w_parentDone w = false ∧ w_ctxDone w = false ∧ s_seekTarget (w_s w) = None ∧
  ck_paused (s_clock (w_s w)) = false ∧
  match w_pc w with
  | PcStart => s_state (w_s w) = StateCreated ∧ w_published w = [] ∧ w_pf w = None
  | PcLoop => s_state (w_s w) = StateInitializing ∧ w_published w = [] ∧ w_pf w = None
  | PcArm | PcRead => s_state (w_s w) = StateRunning ∧ w_published w = [] ∧ w_pf w = None
  | PcFetch => streaming w []
  | PcCheck l => streaming w l
  | PcWait l | PcSleep l => l ≠ [] ∧ streaming w l
  | PcEnd RNil => s_state (w_s w) = StateRunning ∧ w_published w = evs ∧
      match w_pf w with Some pf => pf_closed pf = true | None => True end
  | PcFinal => s_state (w_s w) = StateRunning ∧ w_published w = evs ∧ w_pf w = None
  | PcDone => s_state (w_s w) = StateCompleted ∧ w_published w = evs ∧ w_pf w = None
  | _ => False
  end.

Lemma must_step_valid w s to pc :
  IsValidTransition (s_state s) to = true → must_step w s to pc = set_s w (with_state s to) pc.
Proof. intros Hv. unfold must_step, mustTransition, transitionState. by rewrite Hv. Qed.

(** The prefetching goroutine fetches. *)
Lemma prefetch_rest it it' f rest :
  pf_rest (mkPrefetch it None false) rest → es_Next it = (it', f) →
  pf_rest (mkPrefetch it' (Some f) (negb (is_batch f))) rest.
Proof.
  intros (_ & bs & Hy & ->) Hn. cbn in Hy. destruct Hy as [it it1 Hn1|it it1 b bs Hn1 Hy];
    rewrite Hn in Hn1; injection Hn1 as -> ->; [done|]. split; [done|]. by exists bs.
Qed.

Lemma undisturbed_step w w' : undisturbed w → run_step w w' → undisturbed w'.
Proof.
  intros (Hsym & Hck & Hst & Hsp & Hpd & Hcd & Hsk & Hpa & Hpc) Hstep.
  assert (Hctx : ctx_done w = false) by (unfold ctx_done; by rewrite Hcd, Hpd).
  destruct Hstep as [w E1|w E1|w E1|w E1|w it it' f E1 E2|w it ch E1 E2|w it f closed E1 E2|w it E1 E2
    |w E1 E2|w E1|w ev l E1|w l E1|w gen l E1 E2|w gen l E1 E2|w ev l E1 E2 E3|w ev l E1|w E1 E2|w r E1 E2|w E1];
    try congruence; try rewrite E1 in Hpc; try (exfalso; exact Hpc).
  - unfold run_start. rewrite must_step_valid by (cbn; by rewrite (proj1 Hpc)).
    by destruct Hpc as (? & ? & ?).
  - unfold run_loop. rewrite Hsk, must_step_valid by (by rewrite (proj1 Hpc)).
    by destruct Hpc as (? & ? & ?).
  - by destruct Hpc as (? & ? & ?).
  - destruct Hread as (it & bs & Hit & Hy & Hevs). unfold run_read.
    rewrite Hsym, Hst, Hsp, Hck, Hit. do 8 (split; [done|]). destruct Hpc as (Hs & Hp & _).
    split; [done|]. exists (mkPrefetch it None false), evs. split; [done|].
    split; [split; [done|]; by exists bs|]. cbn. by rewrite Hp.
  - do 8 (split; [done|]). cbn [w_pc set_pf].
    assert (Hgo : ∀ l, streaming w l → streaming (set_pf w (Some (mkPrefetch it' (Some f) (negb (is_batch f)))) (w_pc w)) l).
    { intros l (Hs & pf & rest & Hpf & Hr & He). split; [done|]. rewrite E1 in Hpf. injection Hpf as <-.
      eexists _, rest. split; [done|]. split; [by apply (prefetch_rest it)|done]. }
    destruct (w_pc w) as [| | | | |l|l|gen l|l|[]| | |]; try done; try (destruct Hpc as (? & ? & Hn); congruence);
      try (by apply Hgo); try (by destruct Hpc; split; [|apply Hgo]).
    by destruct Hpc as (_ & _ & ?).
  - destruct Hpc as (Hs & pf & rest & Hpf & Hr & He). rewrite E2 in Hpf. injection Hpf as <-.
    do 8 (split; [done|]). destruct f as [b| |]; cbn in Hr |- *; [| |done].
    + destruct Hr as (-> & bs & Hy & ->). split; [done|]. eexists _, (concat bs). split; [done|].
      split; [split; [done|]; by exists bs|done].
    + destruct Hr as (-> & ->). rewrite !app_nil_r in He. done.
  - destruct Hpc as (Hs & pf & rest & Hpf & Hr & He). rewrite E2 in Hpf. injection Hpf as <-.
    by destruct Hr.
  - do 8 (split; [done|]). exact Hpc.
  - rewrite Hctx. do 8 (split; [done|]). split; [done|exact Hpc].
  - rewrite Hpa. do 8 (split; [done|]). exact Hpc.
  - do 8 (split; [done|]). destruct Hpc as (_ & Hs & pf & rest & Hpf & Hr & He). split; [done|].
    exists pf, rest. split; [done|]. split; [done|]. cbn. rewrite <- He. by rewrite <- !(assoc_L (++)).
  - destruct r; [|by destruct Hpc|by destruct Hpc]. by destruct Hpc as (? & ? & ?).
  - unfold run_final. destruct Hpc as (Hs & Hp & Hn). rewrite Hs, decide_False, Hpd by done.
    rewrite must_step_valid by (by rewrite Hs). by repeat split.
Qed.

(** *** Completion *)

(** The run loop, left alone, gets to its last critical section. *)
Definition reaches_final (w : world) : Prop :=
  ∃ w', rtc run_step w w' ∧ undisturbed w' ∧ w_pc w' = PcFinal.

Lemma reaches_step w w1 :
  undisturbed w → run_step w w1 → (undisturbed w1 → reaches_final w1) → reaches_final w.
Proof.
  intros H R Hr. destruct (Hr (undisturbed_step w w1 H R)) as (w' & Hrtc & H' & Hpc).
  exists w'. split; [by eapply rtc_l|done].
Qed.

(** [Schedule] publishes its batch and leaves the prefetching goroutine alone. *)
Lemma emit_batch l w :
  undisturbed w → w_pc w = PcCheck l →
  (∀ w1, undisturbed w1 → w_pc w1 = PcFetch → w_pf w1 = w_pf w → reaches_final w1) →
  reaches_final w.
Proof.
  revert w. induction l as [|ev l IH]; intros w H Hpc Hk.
  { apply (reaches_step w _ H (step_batch_end w Hpc)). intros H1. by apply Hk. }
  pose proof H as (_ & _ & _ & _ & Hpd & Hcd & _ & Hpa & _).
  assert (Hctx : ctx_done w = false) by (unfold ctx_done; by rewrite Hcd, Hpd).
  pose proof (step_check w ev l Hpc) as R1. rewrite Hctx in R1.
  apply (reaches_step w _ H R1). intros H1.
  pose proof (step_wait _ (ev :: l) (eq_refl : w_pc (at_pc w (PcWait (ev :: l))) = _)) as R2.
  cbn [w_s at_pc] in R2. rewrite Hpa in R2. apply (reaches_step _ _ H1 R2). intros H2.
  eapply (reaches_step _ _ H2); [by apply (step_publish _ ev l)|]. intros H3. by apply IH.
Qed.

(** The end of the stream. *)
Lemma finish_stream w : undisturbed w → w_pc w = PcEnd RNil → reaches_final w.
Proof.
  intros H Hpc. apply (reaches_step w (set_pf w None PcFinal) H); [by apply (step_end w RNil)|].
  intros H1. by exists (set_pf w None PcFinal).
Qed.

Lemma fetch_all it bs :
  yields it bs → ∀ w, undisturbed w → w_pc w = PcFetch → w_pf w = Some (mkPrefetch it None false) →
  reaches_final w.
Proof.
  induction 1 as [it it' Hn|it it' b bs Hn _ IH]; intros w H Hpc Hpf;
    apply (reaches_step w _ H (step_prefetch w it it' _ Hpf Hn)); intros H1;
    (eapply (reaches_step _ _ H1); [by eapply step_fetch|]); intros H2.
  - by apply finish_stream.
  - apply (emit_batch b); [done|done|]. intros w1 Hw1 Hpc1 Hpf1. by apply IH.
Qed.

Lemma fetch_reaches w : undisturbed w → w_pc w = PcFetch → reaches_final w.
Proof.
  intros H Hpc. pose proof H as (_ & _ & _ & _ & _ & _ & _ & _ & Hs). rewrite Hpc in Hs.
  destruct Hs as (_ & [it ch closed] & rest & Hpf & Hr & _). destruct ch as [[b| |]|]; cbn in Hr.
  - destruct Hr as (-> & bs & Hy & _). apply (reaches_step w _ H (step_fetch w it _ false Hpc Hpf)).
    intros H1. apply (emit_batch b); [done|done|]. intros w1 Hw1 Hpc1 Hpf1. by apply (fetch_all it bs Hy).
  - apply (reaches_step w _ H (step_fetch w it _ closed Hpc Hpf)). intros H1. by apply finish_stream.
  - done.
  - destruct Hr as (-> & bs & Hy & _). by apply (fetch_all it bs Hy).
Qed.

Lemma sleep_reaches l w : undisturbed w → w_pc w = PcSleep l → reaches_final w.
Proof.
  intros H Hpc. pose proof H as (_ & _ & _ & _ & _ & _ & _ & _ & Hs). rewrite Hpc in Hs.
  destruct l as [|ev l]; [by destruct Hs|].
  apply (reaches_step w _ H (step_publish w ev l Hpc)). intros H1.
  apply (emit_batch l); [done|done|]. intros w1 ? ? _. by apply fetch_reaches.
Qed.

Lemma undisturbed_reaches w : undisturbed w → w_pc w ≠ PcDone → reaches_final w.
Proof.
  intros H Hnd. pose proof H as (Hsym & Hck & Hst & Hsp & _ & _ & Hsk & Hpa & Hs).
  assert (Hread1 : ∀ w, undisturbed w → w_pc w = PcRead → reaches_final w).
  { intros w1 H1 E1. pose proof H1 as (E2 & E3 & E4 & E5 & _). pose proof (step_read w1 E1) as R.
    destruct Hread as (it & bs & Hit & _). unfold run_read in R. rewrite E2, E3, E4, E5, Hit in R.
    apply (reaches_step _ _ H1 R). intros H2. by apply fetch_reaches. }
  assert (Harm : ∀ w, undisturbed w → w_pc w = PcArm → reaches_final w).
  { intros w1 H1 E1. apply (reaches_step _ _ H1 (step_arm w1 E1)). intros H2. by apply Hread1. }
  assert (Hloop : ∀ w, undisturbed w → w_pc w = PcLoop → reaches_final w).
  { intros w1 H1 E1. pose proof H1 as (_ & _ & _ & _ & _ & _ & E2 & _ & E3). rewrite E1 in E3.
    pose proof (step_loop w1 E1) as R. unfold run_loop in R.
    rewrite E2, must_step_valid in R by (by rewrite (proj1 E3)).
    apply (reaches_step _ _ H1 R). intros H2. by apply Harm. }
  destruct (w_pc w) as [| | | | |l|l|gen l|l|r| | |] eqn:Hpc; try done; auto.
  - pose proof (step_start w Hpc) as R. unfold run_start in R.
    rewrite must_step_valid in R by (cbn; by rewrite (proj1 Hs)).
    apply (reaches_step _ _ H R). intros H2. by apply Hloop.
  - by apply fetch_reaches.
  - apply (emit_batch l); [done|done|]. intros w1 ? ? _. by apply fetch_reaches.
  - pose proof (step_wait w l Hpc) as R. rewrite Hpa in R. apply (reaches_step _ _ H R).
    intros H1. by apply (sleep_reaches l).
  - by apply (sleep_reaches l).
  - destruct r; [by apply finish_stream|done|done].
  - by exists w.
Qed.

(** The last critical section completes the session. *)
Definition completed (w : world) : Prop :=
  w_pc w = PcDone ∧ s_state (w_s w) = StateCompleted ∧ w_published w = evs.

Lemma final_completes w : undisturbed w → w_pc w = PcFinal → completed (run_final w).
Proof.
  intros (_ & _ & _ & _ & Hpd & _ & _ & _ & Hs) Hpc. rewrite Hpc in Hs. destruct Hs as (Hs & Hp & _).
  unfold run_final. rewrite Hs, decide_False, Hpd, must_step_valid by (done || by rewrite Hs). done.
Qed.

Lemma undisturbed_completes w : undisturbed w → ∃ w', rtc run_step w w' ∧ completed w'.
Proof.
  intros H. assert (Hcase : w_pc w = PcDone ∨ w_pc w ≠ PcDone) by (destruct (w_pc w); auto).
  destruct Hcase as [Hpc|Hpc].
  - exists w. split; [done|]. destruct H as (_ & _ & _ & _ & _ & _ & _ & _ & Hs). rewrite Hpc in Hs.
    by destruct Hs as (? & ? & _).
  - destruct (undisturbed_reaches w H Hpc) as (w1 & Hr & H1 & Hpc1). exists (run_final w1).
    split; [|by apply final_completes]. by eapply rtc_r; [|apply step_final].
Qed.

Lemma undisturbed_run w w' : undisturbed w → rtc run_step w w' → undisturbed w'.
Proof. intros H. induction 1; [done|]. eauto using undisturbed_step. Qed.

Lemma undisturbed_safe w : undisturbed w → w_pc w ≠ PcPanic ∧ w_published w `prefix_of` evs.
Proof.
  intros (_ & _ & _ & _ & _ & _ & _ & _ & Hs).
  assert (Hst : ∀ l, streaming w l → w_published w `prefix_of` evs).
  { intros l (_ & pf & rest & _ & _ & <-). by apply prefix_app_r. }
  destruct (w_pc w) as [| | | | |l|l|gen l|l|[]| | |]; (split; [done|]); try done;
    try (by destruct Hs as (_ & -> & _); first [apply prefix_nil|done]);
    try (by apply (Hst [])); try (by apply (Hst l)); by destruct Hs as [_ Hs]; apply (Hst l).
Qed.
End undisturbed.

(** A session left alone from the start. *)
Lemma undisturbed_start id symbol start stop speed chunkSize evs :
  undisturbed (newSession id symbol speed chunkSize) start stop evs
    (CreateSession id symbol start stop speed chunkSize).
Proof. by repeat split. Qed.

Lemma exec_of_rtc w w1 cs w2 : rtc run_step w w1 → session_exec w1 cs w2 → session_exec w cs w2.
Proof. induction 1; [done|]. intros. eapply exec_run; eauto. Qed.

(** A session left alone over a stream publishes prefixes of it, does not panic, and
    can always complete. *)
Lemma replay_of_stream id symbol start stop speed chunkSize it bs w :
  es_ReadStream store symbol start stop (s_chunkSize (newSession id symbol speed chunkSize)) = Some it → yields it bs →
  rtc run_step (CreateSession id symbol start stop speed chunkSize) w →
  w_pc w ≠ PcPanic ∧ w_published w `prefix_of` concat bs ∧
  ∃ w', rtc run_step w w' ∧ w_pc w' = PcDone ∧ s_state (w_s w') = StateCompleted ∧ w_published w' = concat bs.
Proof.
  intros Hit Hy Hw. set (s0 := newSession id symbol speed chunkSize).
  assert (Hread : ∃ it bs', es_ReadStream store (s_symbol s0) start stop (s_chunkSize s0) = Some it ∧
                    yields it bs' ∧ concat bs = concat bs') by (by exists it, bs).
  assert (H : undisturbed s0 start stop (concat bs) w).
  { eapply undisturbed_run; [exact Hread| |exact Hw]. apply undisturbed_start. }
  destruct (undisturbed_safe _ _ _ _ Hread w H) as [Hpanic Hprefix]. split_and!; [done|done|].
  destruct (undisturbed_completes _ _ _ _ Hread w H) as (w' & Hr & Hd & Hs & Hp). by exists w'.
Qed.

(** Each
    of the control calls can make the run loop panic, all by itself. Stop before
    the goroutine has started, Resume while it initializes, Pause or Seek between
    the end of the stream and the last critical section are all accepted by the
    state machine, and leave the run loop with a transition that is not. *)
Lemma control_calls_panic_the_run_loop id symbol start stop speed chunkSize target it bs :
  es_ReadStream store symbol start stop (s_chunkSize (newSession id symbol speed chunkSize)) = Some it →
  yields it bs →
  Forall (λ c, ∃ w, session_exec (CreateSession id symbol start stop speed chunkSize) [c] w ∧
                    w_pc w = PcPanic)
    [CStop; CResume; CPause; CSeek target].
Proof.
  intros Hit Hy. set (w0 := CreateSession id symbol start stop speed chunkSize).
  set (s0 := newSession id symbol speed chunkSize).
  assert (Hread : ∃ it bs', es_ReadStream store (s_symbol s0) start stop (s_chunkSize s0) = Some it ∧
                    yields it bs' ∧ concat bs = concat bs') by (by exists it, bs).
  destruct (undisturbed_reaches s0 start stop (concat bs) Hread w0) as (w1 & Hr & H1 & Hpc);
    [by apply undisturbed_start|done|].
  destruct H1 as (_ & _ & _ & _ & Hpd & _ & _ & _ & Hs). rewrite Hpc in Hs. destruct Hs as (Hs & _).
  assert (Hend : ∀ c w2, control_by w1 c = Some w2 → w_parentDone w2 = false →
                   s_state (w_s w2) = StatePaused ∨ s_state (w_s w2) = StateSeeking →
                   ∃ w, session_exec w0 [c] w ∧ w_pc w = PcPanic).
  { intros c w2 Hc Hpd2 Hs2. destruct (control_follows w1 c w2 Hc) as [_ Hpc2]. rewrite Hpc in Hpc2.
    exists (run_final w2). split.
    - apply (exec_of_rtc w0 w1); [done|]. eapply exec_control; [exact Hc|].
      eapply exec_run; [by apply step_final|constructor].
    - unfold run_final, must_step, mustTransition, transitionState. rewrite Hpd2.
      by destruct Hs2 as [-> | ->]. }
  repeat constructor.
  - eexists. split.
    + eapply exec_control; [reflexivity|]. eapply exec_run; [by apply step_start|constructor].
    + done.
  - eexists. split.
    + eapply exec_run; [by apply step_start|]. eapply exec_control; [reflexivity|].
      eapply exec_run; [by apply step_loop|constructor].
    + done.
  - eapply Hend; [unfold control_by, Session_Pause, transitionState; by rewrite Hs|done|by left].
  - eapply Hend; [unfold control_by, Session_Seek, transitionState; by rewrite Hs|done|by right].
Qed.
End run.

(** ** Replay of what was recorded *)

Lemma ReadStream_yields (s : InMemoryStore) symbol start stop chunkSize :
  0 < chunkSize →
  ∃ bs, yields (ReadStream s symbol start stop chunkSize) bs ∧
    concat bs = filter (λ ev, in_range start stop ev = true) (default [] (s !! symbol)).
Proof.
  intros Hc. unfold ReadStream. destruct (s !! symbol) as [l|].
  - destruct (iterator_yields (mkIterator (filter (λ ev, in_range start stop ev = true) l) chunkSize 0))
      as (bs & Hy & Hcat & _); [done|done|]. by exists bs.
  - exists []. split; [|done]. by eapply yields_eof.
Qed.

Lemma newSession_chunkSize id symbol speed chunkSize : 0 < s_chunkSize (newSession id symbol speed chunkSize).
Proof. cbn. unfold defaultChunkSize. destruct (Z.leb_spec chunkSize 0); lia. Qed.

(** C31: a replay publishes what was recorded, in order. Write any batches of
    events to the store and replay a symbol over a time range, at any speed and
    with any chunk size: in every interleaving of the run loop and its
    prefetching goroutine, the session does not panic and has published a prefix
    of the symbol's events of that range ordered by time and sequence number, and
    from every state it reaches it can go on to complete with all of them
    published. *)
Theorem replay_publishes_recorded_range id symbol start stop speed chunkSize batches :
  let store := fold_left WriteBatch batches NewInMemoryStore in
  ∃ evs,
    evs ≡ₚ filter (λ ev, in_range start stop ev = true)
             (filter (λ ev, se_Symbol ev = symbol) (concat batches)) ∧
    StronglySorted event_le evs ∧
    ∀ w, rtc (run_step store) (CreateSession id symbol start stop speed chunkSize) w →
      w_pc w ≠ PcPanic ∧ w_published w `prefix_of` evs ∧
      ∃ w', rtc (run_step store) w w' ∧ w_pc w' = PcDone ∧ s_state (w_s w') = StateCompleted ∧
        w_published w' = evs.
Proof.
  intros store. destruct (write_batches_partition batches symbol) as [Hperm Hsorted]. fold store in Hperm, Hsorted.
  exists (filter (λ ev, in_range start stop ev = true) (default [] (store !! symbol))). split_and!.
  - by rewrite Hperm.
  - by apply StronglySorted_filter.
  - intros w. destruct (ReadStream_yields store symbol start stop (s_chunkSize (newSession id symbol speed chunkSize)))
      as (bs & Hy & <-); [apply newSession_chunkSize|]. by eapply replay_of_stream.
Qed.

(** ** The session manager *)

(** [SessionManager]: the sessions by ID, as pointers into a store of sessions. *)
Record SessionManager := mkSessionManager { sm_heap : gmap nat Session; sm_sessions : gmap string nat }.
Inductive ManagerError := ErrSessionNotFound.

Definition NewSessionManager : SessionManager := mkSessionManager ∅ ∅.

(** The registration part of [CreateSession], and the deferred removal when the
    session's goroutine returns. *)
Definition SessionManager_add (m : SessionManager) (id : string) (p : nat) (s : Session) : SessionManager :=
  mkSessionManager (<[p := s]> (sm_heap m)) (<[id := p]> (sm_sessions m)).
Definition SessionManager_done (m : SessionManager) (id : string) : SessionManager :=
  mkSessionManager (sm_heap m) (delete id (sm_sessions m)).

Definition GetSession (m : SessionManager) (id : string) : result nat ManagerError :=
  match sm_sessions m !! id with Some p => Ok p | None => Err ErrSessionNotFound end.

(** [StopAll]: every registered session is stopped, errors ignored. *)
Definition stop_at (heap : gmap nat Session) (p : nat) : gmap nat Session :=
  alter (λ s, match Session_Stop s with Ok s => s | Err _ => s end) p heap.
Definition StopAll (m : SessionManager) : SessionManager :=
  mkSessionManager (fold_left stop_at (snd <$> map_to_list (sm_sessions m)) (sm_heap m)) (sm_sessions m).

Lemma stop_destroys s :
  s_state (match Session_Stop s with Ok s => s | Err _ => s end) = StateDestroyed.
Proof. unfold Session_Stop, transitionState. by destruct (s_state s) eqn:Hs; cbn; rewrite ?Hs. Qed.

(** After [StopAll] every registered session is destroyed. *)
Lemma StopAll_destroys m id p s :
  sm_sessions m !! id = Some p → sm_heap (StopAll m) !! p = Some s → s_state s = StateDestroyed.
Proof.
  intros Hid. cbn [StopAll sm_heap].
  assert (Hin : p ∈ snd <$> map_to_list (sm_sessions m)).
  { apply list_elem_of_fmap. exists (id, p). split; [done|]. by apply elem_of_map_to_list. }
  revert Hin. generalize (snd <$> map_to_list (sm_sessions m)). intros ps.
  assert (Hkeep : ∀ ps (heap : gmap nat Session) s', (∀ s0, heap !! p = Some s0 → s_state s0 = StateDestroyed) →
            fold_left stop_at ps heap !! p = Some s' → s_state s' = StateDestroyed).
  { clear. induction ps as [|p0 ps IH]; intros heap s' Hd; cbn [fold_left]; [apply Hd|].
    apply IH. intros s0. unfold stop_at. destruct (decide (p0 = p)) as [->|Hne].
    - rewrite lookup_alter_eq. destruct (heap !! p) as [s1|]; [|done]. intros [= <-]. apply stop_destroys.
    - rewrite lookup_alter_ne by done. apply Hd. }
  generalize (sm_heap m). induction ps as [|p0 ps IH]; intros heap Hin; [by apply elem_of_nil in Hin|].
  cbn [fold_left]. apply elem_of_cons in Hin as [->|Hin]; [|by apply IH].
  apply Hkeep. intros s0. unfold stop_at. rewrite lookup_alter_eq.
  destruct (heap !! p0) as [s1|]; [|done]. intros [= <-]. apply stop_destroys.
Qed.

(** ** Examples *)

Definition stored_trade (symbol : string) (timestamp seq : Z) : StoredEvent :=
  mkStored "" 1 "SIM" symbol "trade" timestamp seq [] timestamp.

Lemma control_calls_panic_the_run_loop_witness :
  let store := fold_left WriteBatch [[stored_trade "AAPL" 20 2; stored_trade "AAPL" 10 1]] NewInMemoryStore in
  Forall (λ c, ∃ w, session_exec store (CreateSession "s" "AAPL" 0 100 f64_zero 1) [c] w ∧ w_pc w = PcPanic)
    [CStop; CResume; CPause; CSeek 15].
Proof.
  intros store. destruct (ReadStream_yields store "AAPL" 0 100 1 ltac:(lia)) as (bs & Hy & _).
  exact (control_calls_panic_the_run_loop store "s" "AAPL" 0 100 f64_zero 1 15
           (ReadStream store "AAPL" 0 100 1) bs eq_refl Hy).
Defined.

Lemma session_obeys_state_machine_witness :
  ∃ w, session_exec NewInMemoryStore (CreateSession "s" "AAPL" 0 100 f64_zero 1) [CStop] w ∧
    s_state (w_s w) = StateDestroyed ∧
    rtc (λ a b, IsValidTransition a b = true) StateCreated (s_state (w_s w)).
Proof.
  set (w0 := CreateSession "s" "AAPL" 0 100 f64_zero 1 : world).
  assert (H : session_exec NewInMemoryStore w0 [CStop] (set_s w0 (with_state (w_s w0) StateDestroyed) PcStart)).
  { eapply exec_control; [reflexivity|constructor]. }
  destruct (session_obeys_state_machine NewInMemoryStore "s" "AAPL" 0 100 f64_zero 1 _ _ H) as [Hp _].
  exact (ex_intro _ _ (conj H (conj eq_refl Hp))).
Defined.
