(* ===== verification/Topology.v ===== *)
(** * Topology: the gateway registry

    [internal/topology/registry.go]: the in-memory registry of gateways with
    heartbeat expiry, and the interface the routing engine polls. *)

From S2P Require Import Prelude.

(** The type GatewayState is a string; these are its constants. *)
Definition StateJoining : string := "JOINING".
Definition StateOnline : string := "ONLINE".
Definition StateLeaving : string := "LEAVING".
Definition StateOffline : string := "OFFLINE".

Record GatewayMetadata := mkGateway {
  gw_ID : string;
  gw_Address : string;
  gw_State : string;
  gw_UpdatedAt : Z;
}.

Inductive RegistryError := ErrGatewayNotFound | ErrGatewayAlreadyExists.

Record MemoryRegistry := mkRegistry {
  mr_gateways : gmap string GatewayMetadata;
  mr_ttl : Z;
}.

Definition NewMemoryRegistry (ttl : Z) : MemoryRegistry := mkRegistry ∅ ttl.

Definition MemoryRegistry_Register (r : MemoryRegistry) (meta : GatewayMetadata) (now : Z)
    : MemoryRegistry * result unit RegistryError :=
  match mr_gateways r !! gw_ID meta with
  | Some _ => (r, Err ErrGatewayAlreadyExists)
  | None =>
      (mkRegistry (<[gw_ID meta := mkGateway (gw_ID meta) (gw_Address meta) (gw_State meta) now]>
                     (mr_gateways r)) (mr_ttl r), Ok ())
  end.

Definition MemoryRegistry_Remove (r : MemoryRegistry) (id : string)
    : MemoryRegistry * result unit RegistryError :=
  match mr_gateways r !! id with
  | None => (r, Err ErrGatewayNotFound)
  | Some _ => (mkRegistry (delete id (mr_gateways r)) (mr_ttl r), Ok ())
  end.

Definition MemoryRegistry_Heartbeat (r : MemoryRegistry) (id : string) (now : Z)
    : MemoryRegistry * result unit RegistryError :=
  match mr_gateways r !! id with
  | None => (r, Err ErrGatewayNotFound)
  | Some meta =>
      (mkRegistry (<[id := mkGateway (gw_ID meta) (gw_Address meta) (gw_State meta) now]>
                     (mr_gateways r)) (mr_ttl r), Ok ())
  end.

Definition MemoryRegistry_UpdateState (r : MemoryRegistry) (id state : string) (now : Z)
    : MemoryRegistry * result unit RegistryError :=
  match mr_gateways r !! id with
  | None => (r, Err ErrGatewayNotFound)
  | Some meta =>
      (mkRegistry (<[id := mkGateway (gw_ID meta) (gw_Address meta) state now]>
                     (mr_gateways r)) (mr_ttl r), Ok ())
  end.

(** The copy that readers get: OFFLINE once the heartbeat is overdue. *)
Definition with_ttl (r : MemoryRegistry) (now : Z) (meta : GatewayMetadata) : GatewayMetadata :=
  if mr_ttl r <? time_sub now (gw_UpdatedAt meta)
  then mkGateway (gw_ID meta) (gw_Address meta) StateOffline (gw_UpdatedAt meta) else meta.

Definition MemoryRegistry_Get (r : MemoryRegistry) (id : string) (now : Z)
    : result GatewayMetadata RegistryError :=
  match mr_gateways r !! id with
  | None => Err ErrGatewayNotFound
  | Some meta => Ok (with_ttl r now meta)
  end.

(** In the map's iteration order, which is not specified. *)
Definition MemoryRegistry_List (r : MemoryRegistry) (now : Z) : list GatewayMetadata :=
  (λ p, with_ttl r now p.2) <$> map_to_list (mr_gateways r).

(** Entries are stored under their own ID. *)
Definition reg_ok (r : MemoryRegistry) : Prop :=
  map_Forall (λ id meta, gw_ID meta = id) (mr_gateways r).

Lemma NewMemoryRegistry_ok ttl : reg_ok (NewMemoryRegistry ttl).
Proof. apply map_Forall_empty. Qed.

Lemma Register_ok r meta now : reg_ok r → reg_ok (fst (MemoryRegistry_Register r meta now)).
Proof.
  intros H. unfold MemoryRegistry_Register. case_match; [done|]. by apply map_Forall_insert_2.
Qed.

Lemma Remove_ok r id : reg_ok r → reg_ok (fst (MemoryRegistry_Remove r id)).
Proof. intros H. unfold MemoryRegistry_Remove. case_match; [|done]. by apply map_Forall_delete. Qed.

Lemma Heartbeat_ok r id now : reg_ok r → reg_ok (fst (MemoryRegistry_Heartbeat r id now)).
Proof.
  intros H. unfold MemoryRegistry_Heartbeat. destruct (mr_gateways r !! id) as [meta|] eqn:Hm; [|done].
  apply map_Forall_insert_2; [|done]. cbn. by apply (H id).
Qed.

Lemma UpdateState_ok r id st now : reg_ok r → reg_ok (fst (MemoryRegistry_UpdateState r id st now)).
Proof.
  intros H. unfold MemoryRegistry_UpdateState. destruct (mr_gateways r !! id) as [meta|] eqn:Hm; [|done].
  apply map_Forall_insert_2; [|done]. cbn. by apply (H id).
Qed.

(** *** Runs *)

Inductive reg_op :=
| RRegister (meta : GatewayMetadata) (now : Z)
| RRemove (id : string)
| RHeartbeat (id : string) (now : Z)
| RUpdateState (id state : string) (now : Z).

Definition reg_exec (r : MemoryRegistry) (op : reg_op) : MemoryRegistry :=
  match op with
  | RRegister meta now => fst (MemoryRegistry_Register r meta now)
  | RRemove id => fst (MemoryRegistry_Remove r id)
  | RHeartbeat id now => fst (MemoryRegistry_Heartbeat r id now)
  | RUpdateState id st now => fst (MemoryRegistry_UpdateState r id st now)
  end.

Lemma reg_exec_all_ok r ops : reg_ok r → reg_ok (fold_left reg_exec ops r).
Proof.
  revert r. induction ops as [|op ops IH]; intros r H; [done|]. cbn [fold_left]. apply IH.
  destruct op; [by apply Register_ok|by apply Remove_ok|by apply Heartbeat_ok|by apply UpdateState_ok].
Qed.

(** Listing and looking up agree. After any sequence of registrations,
    removals, heartbeats and state changes, [List] returns each registered gateway
    exactly once, with exactly the metadata (OFFLINE when its heartbeat is
    overdue) that [Get] returns for its ID. *)
Lemma registry_list_agrees_with_get ttl ops now :
  let r := fold_left reg_exec ops (NewMemoryRegistry ttl) in
  NoDup (gw_ID <$> MemoryRegistry_List r now) ∧
  (∀ meta, meta ∈ MemoryRegistry_List r now ↔
           MemoryRegistry_Get r (gw_ID meta) now = Ok meta).
Proof.
  intros r. pose proof (reg_exec_all_ok _ ops (NewMemoryRegistry_ok ttl)) as H. fold r in H.
  assert (Hid : ∀ m, gw_ID (with_ttl r now m) = gw_ID m) by (intros m; unfold with_ttl; by case_if).
  split.
  - unfold MemoryRegistry_List. rewrite <- list_fmap_compose.
    rewrite (list_fmap_ext _ fst).
    + apply NoDup_fst_map_to_list.
    + intros i [id m] Hi. cbn. rewrite Hid. apply (H id).
      apply elem_of_map_to_list. by eapply list_elem_of_lookup_2.
  - intros meta. unfold MemoryRegistry_List, MemoryRegistry_Get. rewrite list_elem_of_fmap. split.
    + intros ([id m] & -> & Hin). apply elem_of_map_to_list in Hin. cbn.
      rewrite Hid, (H id m Hin). by rewrite Hin.
    + destruct (mr_gateways r !! gw_ID meta) as [m|] eqn:Hm; [|done]. intros [= <-].
      exists (gw_ID m, m). split; [done|]. apply elem_of_map_to_list.
      by rewrite Hid in Hm.
Qed.
