(* ===== verification/Routing.v ===== *)
(** * Routing: consistent hashing of partitions onto gateways

    [internal/hashing/hash.go], [internal/routing/ring.go], [partition.go] and
    [engine.go]: the hash ring with virtual nodes, the partition manager with its
    overrides, and the engine that keeps the ring in step with the registry. The
    hash is xxHash64, a third-party package: it is a parameter, of which the code
    relies on results being 64-bit, and consistent hashing on the virtual nodes
    of the gateways in play not colliding. *)

From stdpp Require Import pretty.
From S2P Require Import Prelude Bytes Sharded Topology.

(** [hashing.HashString] and [hashing.HashBytes]. *)
Class Hashing := {
  HashString : string → Z;
  HashBytes : list byte → Z;
}.
(** xxHash64 returns an uint64. *)
Class HashingLaws (hashing : Hashing) := {
  HashString_range : ∀ s, in_u64 (HashString s);
  HashBytes_range : ∀ b, in_u64 (HashBytes b);
}.

Section routing.
Context {hashing : Hashing}.

(** ** The hash ring *)

Record ConsistentHashRing := mkHashRing {
  hr_vnodes : Z;
  hr_keys : list Z;
  hr_nodes : gmap Z string;
  hr_nodePresent : gset string;
}.

Definition NewConsistentHashRing (vnodes : Z) : ConsistentHashRing := mkHashRing vnodes [] ∅ ∅.

(** [node + "#" + strconv.Itoa(i)] *)
Definition vnodeKey (node : string) (i : Z) : string := node +:+ "#" +:+ pretty i.
Definition vnode_hash (node : string) (i : Z) : Z := HashString (vnodeKey node i).

Definition ConsistentHashRing_AddNode (r : ConsistentHashRing) (node : string)
    : ConsistentHashRing :=
  if bool_decide (node ∈ hr_nodePresent r) then r
  else
    let '(keys, nodes) :=
      fold_left (λ '(keys, nodes) i,
          let hashKey := vnode_hash node i in
          (keys ++ [hashKey], <[hashKey := node]> nodes))
        (seqZ 0 (hr_vnodes r)) (hr_keys r, hr_nodes r) in
    mkHashRing (hr_vnodes r) (merge_sort Z.le keys) nodes ({[node]} ∪ hr_nodePresent r).

(** The loop of [RemoveNode]: a key is dropped when the map says it is the
    node's, and its entry deleted at once. *)
Fixpoint remove_keys (node : string) (keys : list Z) (nodes : gmap Z string)
    : list Z * gmap Z string :=
  match keys with
  | [] => ([], nodes)
  | k :: keys =>
      if bool_decide (default "" (nodes !! k) = node)
      then remove_keys node keys (delete k nodes)
      else let '(newKeys, nodes) := remove_keys node keys nodes in (k :: newKeys, nodes)
  end.

Definition ConsistentHashRing_RemoveNode (r : ConsistentHashRing) (node : string)
    : ConsistentHashRing :=
  if bool_decide (node ∉ hr_nodePresent r) then r
  else
    let '(keys, nodes) := remove_keys node (hr_keys r) (hr_nodes r) in
    mkHashRing (hr_vnodes r) keys nodes (hr_nodePresent r ∖ {[node]}).

(** The node of the first key at or after [hashKey], wrapping around. *)
Definition ring_find (r : ConsistentHashRing) (hashKey : Z) : string :=
  match hr_keys r with
  | [] => ""
  | _ =>
      let n := length (hr_keys r) in
      let idx := sort_Search n (λ i, hashKey <=? default 0 (hr_keys r !! i)) in
      let idx := if (idx =? n)%nat then 0%nat else idx in
      default "" (hr_nodes r !! default 0 (hr_keys r !! idx))
  end.

Definition ConsistentHashRing_Lookup (r : ConsistentHashRing) (key : string) : string :=
  ring_find r (HashString key).

(** The four little-endian bytes of the partition number. *)
Definition partition_bytes (partitionID : Z) : list byte := le_put 4 partitionID.

Definition ConsistentHashRing_LookupPartition (r : ConsistentHashRing) (partitionID : Z) : string :=
  ring_find r (HashBytes (partition_bytes partitionID)).

Definition ConsistentHashRing_NodeCount (r : ConsistentHashRing) : nat := size (hr_nodePresent r).

(** ** Partitions *)

Record PartitionManager := mkPartitionManager {
  pm_partitionCount : Z;
  pm_ring : ConsistentHashRing;
  pm_overrides : gmap Z string;
}.

Definition NewPartitionManager (partitions : Z) (ring : ConsistentHashRing) : PartitionManager :=
  mkPartitionManager partitions ring ∅.

(** An integer division by zero panics. *)
Definition PartitionManager_PartitionFor (m : PartitionManager) (symbol : string) : outcome Z :=
  if pm_partitionCount m =? 0 then Panic
  else Ret (u32 (HashString symbol mod pm_partitionCount m)).

Definition PartitionManager_GatewayForPartition (m : PartitionManager) (id : Z) : string :=
  match pm_overrides m !! id with
  | Some gateway => gateway
  | None => ConsistentHashRing_LookupPartition (pm_ring m) id
  end.

Definition PartitionManager_GatewayForSymbol (m : PartitionManager) (symbol : string)
    : outcome string :=
  match PartitionManager_PartitionFor m symbol with
  | Panic => Panic
  | Ret partitionID => Ret (PartitionManager_GatewayForPartition m partitionID)
  end.

Definition PartitionManager_MovePartition (m : PartitionManager) (id : Z) (newGateway : string)
    : PartitionManager :=
  mkPartitionManager (pm_partitionCount m) (pm_ring m) (<[id := newGateway]> (pm_overrides m)).

Definition PartitionManager_ClearPartitionOverride (m : PartitionManager) (id : Z)
    : PartitionManager :=
  mkPartitionManager (pm_partitionCount m) (pm_ring m) (delete id (pm_overrides m)).

(** ** The engine *)

(** The engine's ring is the one inside its partition manager (one pointer). *)
Record RoutingEngine := mkEngine {
  re_localID : string;
  re_partitionMgr : PartitionManager;
  re_nodeAddrs : gmap string string;
}.

Definition NewRoutingEngine (localID : string) (pm : PartitionManager) : RoutingEngine :=
  mkEngine localID pm ∅.

Definition with_ring (e : RoutingEngine) (ring : ConsistentHashRing) (addrs : gmap string string)
    : RoutingEngine :=
  mkEngine (re_localID e)
    (mkPartitionManager (pm_partitionCount (re_partitionMgr e)) ring
       (pm_overrides (re_partitionMgr e))) addrs.

Definition participates (n : GatewayMetadata) : bool :=
  bool_decide (gw_State n = StateOnline) || bool_decide (gw_State n = StateLeaving).

(** The loop over the gateways listed: active set, addresses and ring. *)
Fixpoint sync_add (nodes : list GatewayMetadata) (active : gset string)
    (addrs : gmap string string) (ring : ConsistentHashRing)
    : gset string * gmap string string * ConsistentHashRing :=
  match nodes with
  | [] => (active, addrs, ring)
  | n :: nodes =>
      if participates n
      then sync_add nodes ({[gw_ID n]} ∪ active) (<[gw_ID n := gw_Address n]> addrs)
             (ConsistentHashRing_AddNode ring (gw_ID n))
      else sync_add nodes active addrs ring
  end.

(** The loop over the known addresses, in the map's iteration order. *)
Fixpoint sync_evict (ids : list string) (active : gset string)
    (addrs : gmap string string) (ring : ConsistentHashRing)
    : gmap string string * ConsistentHashRing :=
  match ids with
  | [] => (addrs, ring)
  | id :: ids =>
      if bool_decide (id ∈ active) then sync_evict ids active addrs ring
      else sync_evict ids active (delete id addrs) (ConsistentHashRing_RemoveNode ring id)
  end.

(** [syncTopology] with the registry's answer ([None]: it failed). *)
Definition RoutingEngine_syncTopology (e : RoutingEngine) (listed : option (list GatewayMetadata))
    : RoutingEngine :=
  match listed with
  | None => e
  | Some nodes =>
      let '(active, addrs, ring) :=
        sync_add nodes ∅ (re_nodeAddrs e) (pm_ring (re_partitionMgr e)) in
      let '(addrs, ring) := sync_evict (fst <$> map_to_list addrs) active addrs ring in
      with_ring e ring addrs
  end.

Definition RoutingEngine_RedirectTarget (e : RoutingEngine) (symbol : string) : outcome string :=
  match PartitionManager_GatewayForSymbol (re_partitionMgr e) symbol with
  | Panic => Panic
  | Ret owner =>
      if bool_decide (owner = "") || bool_decide (owner = re_localID e) then Ret ""
      else
        let addr := default "" (re_nodeAddrs e !! owner) in
        if bool_decide (addr = "") then Ret "" else Ret ("ws://" +:+ addr +:+ "/ws")
  end.

(** ** The ring invariant *)

Definition vkeys (vnodes : Z) (node : string) : list Z := vnode_hash node <$> seqZ 0 vnodes.

(** The virtual nodes of the gateways [S] hash to different places. *)
Definition collision_free (vnodes : Z) (S : gset string) : Prop :=
  ∀ n1 n2 i1 i2, n1 ∈ S → n2 ∈ S → 0 ≤ i1 < vnodes → 0 ≤ i2 < vnodes →
    vnode_hash n1 i1 = vnode_hash n2 i2 → n1 = n2 ∧ i1 = i2.

Record ring_ok (r : ConsistentHashRing) : Prop := {
  ro_sorted : StronglySorted Z.le (hr_keys r);
  ro_nodup : NoDup (hr_keys r);
  ro_nodes : ∀ k n, hr_nodes r !! k = Some n ↔
               n ∈ hr_nodePresent r ∧ k ∈ vkeys (hr_vnodes r) n;
  ro_keys : ∀ k, k ∈ hr_keys r ↔ is_Some (hr_nodes r !! k);
}.

Lemma elem_vkeys V n k : k ∈ vkeys V n ↔ ∃ i, 0 ≤ i < V ∧ k = vnode_hash n i.
Proof.
  unfold vkeys. rewrite list_elem_of_fmap. split.
  - intros (i & -> & Hi%elem_of_seqZ). exists i. split; [lia|done].
  - intros (i & Hi & ->). exists i. split; [done|]. apply elem_of_seqZ. lia.
Qed.

Lemma NewConsistentHashRing_ok V : ring_ok (NewConsistentHashRing V).
Proof.
  split; cbn.
  - constructor.
  - constructor.
  - intros k n. rewrite lookup_empty. split; [done|]. by intros [?%not_elem_of_empty _].
  - intros k. rewrite lookup_empty. split; [by intros ?%not_elem_of_nil|by intros [? ?]].
Qed.

(** *** AddNode *)

Lemma add_fold node idxs keys (nodes : gmap Z string) :
  let '(keys', nodes') :=
    fold_left (λ '(keys, nodes) i,
        let hashKey := vnode_hash node i in
        (keys ++ [hashKey], <[hashKey := node]> nodes)) idxs (keys, nodes) in
  keys' = keys ++ (vnode_hash node <$> idxs) ∧
  (∀ k, nodes' !! k = if decide (k ∈ vnode_hash node <$> idxs) then Some node else nodes !! k).
Proof.
  revert keys nodes. induction idxs as [|i idxs IH]; intros keys nodes; cbn [fold_left].
  { by rewrite app_nil_r. }
  specialize (IH (keys ++ [vnode_hash node i]) (<[vnode_hash node i := node]> nodes)).
  destruct (fold_left _ idxs _) as [keys' nodes']. destruct IH as [-> Hn].
  rewrite fmap_cons. split; [by rewrite <- app_assoc|]. intros k. rewrite Hn.
  destruct (decide (k = vnode_hash node i)) as [->|Hne].
  - rewrite lookup_insert_eq, (decide_True _ _ (list_elem_of_here _ _)). by case_decide.
  - rewrite lookup_insert_ne by done.
    assert (Hiff : k ∈ vnode_hash node <$> idxs ↔ k ∈ vnode_hash node i :: (vnode_hash node <$> idxs))
      by (rewrite elem_of_cons; tauto).
    by rewrite (decide_ext _ _ _ _ Hiff).
Qed.

Lemma AddNode_present r node :
  hr_nodePresent (ConsistentHashRing_AddNode r node) = {[node]} ∪ hr_nodePresent r ∧
  hr_vnodes (ConsistentHashRing_AddNode r node) = hr_vnodes r.
Proof.
  unfold ConsistentHashRing_AddNode. case_bool_decide; [split; [set_solver|done]|].
  by destruct (fold_left _ _ _).
Qed.

Lemma vkeys_nodup V S node : collision_free V S → node ∈ S → NoDup (vkeys V node).
Proof.
  intros Hcf Hin. unfold vkeys. apply NoDup_fmap_2_strong; [|apply NoDup_seqZ].
  intros i j Hi%elem_of_seqZ Hj%elem_of_seqZ E. by apply (Hcf node node i j); try lia.
Qed.

Lemma AddNode_ok r node :
  ring_ok r → collision_free (hr_vnodes r) ({[node]} ∪ hr_nodePresent r) →
  ring_ok (ConsistentHashRing_AddNode r node).
Proof.
  intros H Hcf. unfold ConsistentHashRing_AddNode. case_bool_decide as Hin; [done|].
  pose proof (add_fold node (seqZ 0 (hr_vnodes r)) (hr_keys r) (hr_nodes r)) as Hadd.
  destruct (fold_left _ _ _) as [keys nodes]. destruct Hadd as [-> Hn].
  fold (vkeys (hr_vnodes r) node) in Hn |- *. set (V := hr_vnodes r) in *.
  assert (Hdisj : ∀ n k, n ∈ hr_nodePresent r → k ∈ vkeys V n → k ∉ vkeys V node).
  { intros n k Hnp Hk Hk'. apply elem_vkeys in Hk as (i & Hi & ->).
    apply elem_vkeys in Hk' as (j & Hj & E).
    destruct (Hcf n node i j) as [-> _]; try done; set_solver. }
  assert (Hnodes : ∀ k n, nodes !! k = Some n ↔
            n ∈ {[node]} ∪ hr_nodePresent r ∧ k ∈ vkeys V n).
  { intros k n. rewrite Hn. case_decide as Hk; split.
    - intros [= <-]. set_solver.
    - intros [[->%elem_of_singleton|Hp]%elem_of_union Hkn]; [done|]. by destruct (Hdisj n k).
    - intros Hm. apply (ro_nodes _ H) in Hm. set_solver.
    - intros [[->%elem_of_singleton|Hp]%elem_of_union Hkn]; [done|]. by apply (ro_nodes _ H). }
  assert (Hkeys : ∀ k, k ∈ hr_keys r ++ vkeys V node ↔ is_Some (nodes !! k)).
  { intros k. rewrite elem_of_app, (ro_keys _ H), Hn. case_decide as Hk; [|tauto].
    split; [by intros _; exists node|by right]. }
  split; cbn [hr_keys hr_nodes hr_nodePresent hr_vnodes].
  - apply (StronglySorted_merge_sort Z.le).
  - rewrite merge_sort_Permutation. apply NoDup_app. split_and!.
    + apply H.
    + intros k Hk1 Hk2. apply (ro_keys _ H) in Hk1 as [n Hkn].
      apply (ro_nodes _ H) in Hkn as [Hp Hkn]. by apply (Hdisj n k).
    + eapply vkeys_nodup; [exact Hcf|set_solver].
  - done.
  - intros k. by rewrite merge_sort_Permutation.
Qed.

(** *** RemoveNode *)

Lemma remove_keys_spec node keys (nodes : gmap Z string) :
  NoDup keys → (∀ k, k ∈ keys → is_Some (nodes !! k)) →
  let '(keys', nodes') := remove_keys node keys nodes in
  keys' = filter (λ k, nodes !! k ≠ Some node) keys ∧
  (∀ k, nodes' !! k = if decide (k ∈ keys ∧ nodes !! k = Some node) then None else nodes !! k).
Proof.
  intros Hnd. revert nodes. induction Hnd as [|k keys Hk Hnd IH]; intros nodes Hall; cbn [remove_keys].
  { split; [done|]. intros k. rewrite decide_False; [done|]. by intros [?%not_elem_of_nil _]. }
  destruct (Hall k (list_elem_of_here _ _)) as [n Hn]. rewrite Hn. cbn [default from_option id].
  case_bool_decide as Heq.
  - subst n. specialize (IH (delete k nodes)).
    destruct (remove_keys node keys (delete k nodes)) as [keys' nodes'].
    destruct IH as [-> Hm].
    { intros k' Hk'. rewrite lookup_delete_ne by (intros ->; done). apply Hall. by right. }
    split.
    + rewrite filter_cons_False by (by intros Hx). apply filter_ext_elem.
      intros k' Hk'. rewrite lookup_delete_ne by (intros ->; done). done.
    + intros k'. rewrite Hm. destruct (decide (k' = k)) as [->|Hne].
      * rewrite lookup_delete_eq. rewrite (decide_True (P := k ∈ k :: keys ∧ _)) by (split; [by left|done]).
        by case_decide.
      * rewrite lookup_delete_ne by done. apply decide_ext. rewrite elem_of_cons. tauto.
  - specialize (IH nodes ltac:(intros k' Hk'; apply Hall; by right)).
    destruct (remove_keys node keys nodes) as [keys' nodes']. destruct IH as [-> Hm]. split.
    + rewrite filter_cons_True by congruence. done.
    + intros k'. rewrite Hm. apply decide_ext. rewrite elem_of_cons.
      split; [tauto|]. intros [[->|?] ?]; [congruence|tauto].
Qed.

Lemma RemoveNode_present r node :
  hr_nodePresent (ConsistentHashRing_RemoveNode r node) = hr_nodePresent r ∖ {[node]} ∧
  hr_vnodes (ConsistentHashRing_RemoveNode r node) = hr_vnodes r.
Proof.
  unfold ConsistentHashRing_RemoveNode. case_bool_decide; [split; [set_solver|done]|].
  by destruct (remove_keys _ _ _).
Qed.

Lemma collision_free_sub V (S S' : gset string) :
  collision_free V S → S' ⊆ S → collision_free V S'.
Proof. intros H Hsub n1 n2 i1 i2 H1 H2. apply H; set_solver. Qed.

Lemma RemoveNode_ok r node :
  ring_ok r → collision_free (hr_vnodes r) (hr_nodePresent r) →
  ring_ok (ConsistentHashRing_RemoveNode r node).
Proof.
  intros H Hcf. unfold ConsistentHashRing_RemoveNode. case_bool_decide as Hin; [done|].
  pose proof (remove_keys_spec node (hr_keys r) (hr_nodes r) (ro_nodup _ H)
                (λ k, proj1 (ro_keys _ H k))) as Hrem.
  destruct (remove_keys node (hr_keys r) (hr_nodes r)) as [keys nodes]. destruct Hrem as [-> Hn].
  assert (Hn' : ∀ k n, nodes !! k = Some n ↔ hr_nodes r !! k = Some n ∧ n ≠ node).
  { intros k n. rewrite Hn. case_decide as Hk; split; try done.
    - intros [E Hne]. destruct Hk as [_ Hk]. congruence.
    - intros E. split; [done|]. intros ->. apply Hk. split; [|done]. apply (ro_keys _ H). by exists node.
    - by intros [? _]. }
  split; cbn [hr_keys hr_nodes hr_nodePresent hr_vnodes].
  - by apply StronglySorted_filter, H.
  - by apply NoDup_filter, H.
  - intros k n. rewrite Hn', (ro_nodes _ H). set_solver.
  - intros k. rewrite list_elem_of_filter, (ro_keys _ H). split.
    + intros [Hne [n Hkn]]. exists n. apply Hn'. split; [done|]. congruence.
    + intros [n Hkn]. apply Hn' in Hkn as [Hkn Hne]. split; [congruence|by exists n].
Qed.

(** ** Lookup is the clockwise successor *)

Context `{!HashingLaws hashing}.

(** The clockwise distance on the circle of 2^64 points. *)
Definition clockwise (a b : Z) : Z := u64 (b - a).

Lemma clockwise_eq a b : in_u64 a → in_u64 b →
  clockwise a b = if decide (a ≤ b) then b - a else b - a + 2 ^ 64.
Proof.
  unfold clockwise, u64, in_u64. intros Ha Hb. case_decide.
  - apply Z.mod_small. lia.
  - symmetry. apply Z.mod_unique_pos with (q := -1); lia.
Qed.

Lemma clockwise_inj a b c :
  in_u64 a → in_u64 b → in_u64 c → clockwise a b = clockwise a c → b = c.
Proof.
  intros Ha Hb Hc. rewrite !clockwise_eq by done. unfold in_u64 in *. repeat case_decide; lia.
Qed.

Lemma vkeys_range V n k : k ∈ vkeys V n → in_u64 k.
Proof. intros (i & _ & ->)%elem_vkeys. apply HashString_range. Qed.

Lemma ring_keys_range r k : ring_ok r → k ∈ hr_keys r → in_u64 k.
Proof.
  intros H Hk. apply (ro_keys _ H) in Hk as [n Hn]. apply (ro_nodes _ H) in Hn as [_ Hn].
  by eapply vkeys_range.
Qed.

Lemma sorted_lookup_le (l : list Z) i j x y :
  StronglySorted Z.le l → (i ≤ j)%nat → l !! i = Some x → l !! j = Some y → x ≤ y.
Proof.
  intros Hs. revert i j. induction Hs as [|z l Hs IH Hf]; intros i j Hij Hi Hj; [done|].
  destruct i as [|i], j as [|j]; simplify_eq/=; try lia.
  - rewrite Forall_forall in Hf. apply Hf. by eapply list_elem_of_lookup_2.
  - apply (IH i j); [lia|done|done].
Qed.

(** [ring_find] returns the node of the key that is first clockwise. *)
Lemma ring_find_spec r h :
  ring_ok r → in_u64 h → hr_keys r ≠ [] →
  ∃ k n, hr_nodes r !! k = Some n ∧ ring_find r h = n ∧
    (∀ k', k' ∈ hr_keys r → clockwise h k ≤ clockwise h k').
Proof.
  intros H Hh Hne. unfold ring_find. destruct (hr_keys r) as [|k0 ks] eqn:Hks; [done|].
  rewrite <- Hks in *. clear Hne. set (f := λ i, h <=? default 0 (hr_keys r !! i)).
  assert (Hlen : (0 < length (hr_keys r))%nat) by (rewrite Hks; cbn; lia).
  assert (Hmono : monotone_on f (length (hr_keys r))).
  { intros i j Hij Hi. unfold f in *.
    destruct (lookup_lt_is_Some_2 (hr_keys r) i ltac:(lia)) as [x Hx].
    destruct (lookup_lt_is_Some_2 (hr_keys r) j ltac:(lia)) as [y Hy].
    rewrite Hx in Hi. rewrite Hy. cbn in *. zb. apply Z.leb_le.
    pose proof (sorted_lookup_le _ i j x y (ro_sorted _ H) ltac:(lia) Hx Hy). lia. }
  destruct (sort_Search_spec f _ Hmono) as (Hle & Hlo & Hhi).
  set (idx := sort_Search (length (hr_keys r)) f) in *.
  set (idx' := if (idx =? length (hr_keys r))%nat then 0%nat else idx).
  assert (Hidx' : (idx' < length (hr_keys r))%nat)
    by (unfold idx'; destruct (Nat.eqb_spec idx (length (hr_keys r))); lia).
  destruct (lookup_lt_is_Some_2 (hr_keys r) idx' Hidx') as [k Hk].
  assert (Hkin : k ∈ hr_keys r) by (by eapply list_elem_of_lookup_2).
  destruct (proj1 (ro_keys _ H k) Hkin) as [n Hn].
  exists k, n. rewrite Hk. cbn [default from_option id]. rewrite Hn. split_and!; [done|done|].
  intros k' Hk'. pose proof (ring_keys_range r k H Hkin) as Rk.
  pose proof (ring_keys_range r k' H Hk') as Rk'.
  apply list_elem_of_lookup in Hk' as [j Hj]. pose proof (lookup_lt_Some _ _ _ Hj) as Hjl.
  rewrite !clockwise_eq by done. unfold in_u64 in *.
  assert (Hfj : f j = (h <=? k')) by (unfold f; by rewrite Hj).
  unfold idx' in *. destruct (Nat.eqb_spec idx (length (hr_keys r))) as [Hend|Hin].
  - (* past the last key: every key is before the hash *)
    assert (Hall : ∀ j' x, hr_keys r !! j' = Some x → x < h).
    { intros j' x Hx. pose proof (lookup_lt_Some _ _ _ Hx). specialize (Hlo j' ltac:(lia)).
      unfold f in Hlo. rewrite Hx in Hlo. cbn in Hlo. zb. lia. }
    pose proof (Hall _ _ Hk). pose proof (Hall _ _ Hj).
    pose proof (sorted_lookup_le _ 0 j k k' (ro_sorted _ H) ltac:(lia) Hk Hj).
    repeat case_decide; lia.
  - specialize (Hhi idx ltac:(lia)) as Hfi. unfold f in Hfi. rewrite Hk in Hfi. cbn in Hfi. zb.
    destruct (decide (j < idx)%nat) as [Hji|Hji].
    + specialize (Hlo j Hji). rewrite Hfj in Hlo. zb. repeat case_decide; lia.
    + pose proof (sorted_lookup_le _ idx j k k' (ro_sorted _ H) ltac:(lia) Hk Hj).
      repeat case_decide; lia.
Qed.

(** [n] owns the point [h] among the gateways [S]: it has the virtual node that
    is first clockwise. *)
Definition owns (V : Z) (S : gset string) (h : Z) (n : string) : Prop :=
  n ∈ S ∧ ∃ k, k ∈ vkeys V n ∧
    ∀ n' k', n' ∈ S → k' ∈ vkeys V n' → clockwise h k ≤ clockwise h k'.

Lemma owns_unique V S h n1 n2 :
  collision_free V S → in_u64 h → owns V S h n1 → owns V S h n2 → n1 = n2.
Proof.
  intros Hcf Hh (H1 & k1 & Hk1 & Hm1) (H2 & k2 & Hk2 & Hm2).
  assert (k1 = k2) as <-.
  { apply (clockwise_inj h); [done|by eapply vkeys_range|by eapply vkeys_range|].
    apply Z.le_antisymm; [by apply (Hm1 n2)|by apply (Hm2 n1)]. }
  apply elem_vkeys in Hk1 as (i & Hi & ->). apply elem_vkeys in Hk2 as (j & Hj & E).
  by destruct (Hcf n1 n2 i j).
Qed.

Lemma ring_find_owns r h :
  ring_ok r → in_u64 h → 0 < hr_vnodes r → hr_nodePresent r ≠ ∅ →
  owns (hr_vnodes r) (hr_nodePresent r) h (ring_find r h).
Proof.
  intros H Hh HV Hne. apply set_choose_L in Hne as [n0 Hn0].
  assert (Hk0 : vnode_hash n0 0 ∈ hr_keys r).
  { apply (ro_keys _ H). exists n0. apply (ro_nodes _ H). split; [done|].
    apply elem_vkeys. exists 0. split; [lia|done]. }
  destruct (ring_find_spec r h H Hh) as (k & n & Hn & -> & Hmin).
  { intros E. rewrite E in Hk0. by apply not_elem_of_nil in Hk0. }
  apply (ro_nodes _ H) in Hn as Hn'. destruct Hn' as [Hp Hkn].
  split; [done|]. exists k. split; [done|]. intros n' k' Hn' Hk'. apply Hmin.
  apply (ro_keys _ H). exists n'. by apply (ro_nodes _ H).
Qed.

Lemma ring_find_empty r h : ring_ok r → hr_nodePresent r = ∅ → ring_find r h = "".
Proof.
  intros H He. unfold ring_find. destruct (hr_keys r) as [|k ks] eqn:E; [done|]. exfalso.
  assert (Hk : k ∈ hr_keys r) by (rewrite E; by left).
  apply (ro_keys _ H) in Hk as [n Hn]. apply (ro_nodes _ H) in Hn as [Hn _].
  rewrite He in Hn. by apply not_elem_of_empty in Hn.
Qed.

(** ** Rings reached by joins and leaves *)

Inductive ring_event := Join (node : string) | Leave (node : string).

Definition ring_apply (r : ConsistentHashRing) (ev : ring_event) : ConsistentHashRing :=
  match ev with
  | Join n => ConsistentHashRing_AddNode r n
  | Leave n => ConsistentHashRing_RemoveNode r n
  end.
Definition event_node (ev : ring_event) : string :=
  match ev with Join n | Leave n => n end.
Definition members (S : gset string) (ev : ring_event) : gset string :=
  match ev with Join n => {[n]} ∪ S | Leave n => S ∖ {[n]} end.

Definition build_ring (V : Z) (evs : list ring_event) : ConsistentHashRing :=
  fold_left ring_apply evs (NewConsistentHashRing V).
Definition membership (evs : list ring_event) : gset string := fold_left members evs ∅.
(** Every gateway the events mention. *)
Definition mentioned (evs : list ring_event) : gset string := list_to_set (event_node <$> evs).

Lemma ring_apply_ok r ev U :
  ring_ok r → hr_nodePresent r ⊆ U → event_node ev ∈ U → collision_free (hr_vnodes r) U →
  ring_ok (ring_apply r ev) ∧ hr_nodePresent (ring_apply r ev) = members (hr_nodePresent r) ev ∧
  hr_nodePresent (ring_apply r ev) ⊆ U ∧ hr_vnodes (ring_apply r ev) = hr_vnodes r.
Proof.
  intros H Hsub Hev Hcf. destruct ev as [n|n]; cbn [ring_apply event_node members] in *.
  - destruct (AddNode_present r n) as [-> ->]. split_and!; [|done|set_solver|done].
    apply AddNode_ok; [done|]. eapply collision_free_sub; [exact Hcf|set_solver].
  - destruct (RemoveNode_present r n) as [-> ->]. split_and!; [|done|set_solver|done].
    apply RemoveNode_ok; [done|]. by eapply collision_free_sub.
Qed.

Lemma fold_ring_ok U evs r :
  ring_ok r → hr_nodePresent r ⊆ U → mentioned evs ⊆ U → collision_free (hr_vnodes r) U →
  ring_ok (fold_left ring_apply evs r) ∧
  hr_nodePresent (fold_left ring_apply evs r) = fold_left members evs (hr_nodePresent r) ∧
  hr_nodePresent (fold_left ring_apply evs r) ⊆ U ∧
  hr_vnodes (fold_left ring_apply evs r) = hr_vnodes r.
Proof.
  revert r. induction evs as [|ev evs IH]; intros r H Hsub Hm Hcf; cbn [fold_left]; [done|].
  unfold mentioned in *. rewrite fmap_cons, list_to_set_cons in Hm.
  destruct (ring_apply_ok r ev U H Hsub ltac:(set_solver) Hcf) as (H1 & H2 & H3 & H4).
  destruct (IH (ring_apply r ev) H1 H3 ltac:(set_solver) ltac:(by rewrite H4)) as (H5 & H6 & H7 & H8).
  split_and!; [done|by rewrite H6, H2|done|by rewrite H8, H4].
Qed.

Lemma build_ring_ok V evs :
  collision_free V (mentioned evs) →
  ring_ok (build_ring V evs) ∧ hr_nodePresent (build_ring V evs) = membership evs ∧
  hr_nodePresent (build_ring V evs) ⊆ mentioned evs ∧ hr_vnodes (build_ring V evs) = V.
Proof.
  intros Hcf. apply (fold_ring_ok (mentioned evs)); [apply NewConsistentHashRing_ok|set_solver|done|done].
Qed.

Lemma build_ring_owns V evs h :
  0 < V → collision_free V (mentioned evs) → in_u64 h →
  (membership evs = ∅ → ring_find (build_ring V evs) h = "") ∧
  (membership evs ≠ ∅ → owns V (membership evs) h (ring_find (build_ring V evs) h)) ∧
  collision_free V (membership evs).
Proof.
  intros HV Hcf Hh. destruct (build_ring_ok V evs Hcf) as (H1 & H2 & H3 & H4).
  rewrite <- H2. split_and!.
  - by apply ring_find_empty.
  - intros Hne. pose proof (ring_find_owns _ h H1 Hh ltac:(lia) Hne) as Ho. by rewrite H4 in Ho.
  - by eapply collision_free_sub.
Qed.

(** C3: a key is served by its clockwise successor. After any sequence of joins
    and leaves of gateways whose virtual nodes do not collide, [Lookup] and
    [LookupPartition] return the present gateway that has the virtual node first
    clockwise from the hash, and the empty string when none is present. *)
Theorem lookup_is_clockwise_successor V evs key partitionID :
  0 < V → collision_free V (mentioned evs) →
  let r := build_ring V evs in
  (membership evs = ∅ →
     ConsistentHashRing_Lookup r key = "" ∧
     ConsistentHashRing_LookupPartition r partitionID = "") ∧
  (membership evs ≠ ∅ →
     owns V (membership evs) (HashString key) (ConsistentHashRing_Lookup r key) ∧
     owns V (membership evs) (HashBytes (partition_bytes partitionID))
       (ConsistentHashRing_LookupPartition r partitionID)).
Proof.
  intros HV Hcf r.
  destruct (build_ring_owns V evs (HashString key) HV Hcf (HashString_range _)) as (A1 & A2 & _).
  destruct (build_ring_owns V evs (HashBytes (partition_bytes partitionID)) HV Hcf (HashBytes_range _))
    as (B1 & B2 & _).
  split; intros Hm; split; auto.
Qed.

(** Consistent hashing moves only what it must. When a gateway joins, every
    key keeps its owner or goes to the newcomer; when a gateway leaves, only its
    own keys move. *)
Lemma ring_minimal_disruption V evs node key :
  0 < V → collision_free V (mentioned (evs ++ [Join node])) →
  let r := build_ring V evs in
  let joined := build_ring V (evs ++ [Join node]) in
  let left := build_ring V (evs ++ [Leave node]) in
  (ConsistentHashRing_Lookup joined key = ConsistentHashRing_Lookup r key ∨
   ConsistentHashRing_Lookup joined key = node) ∧
  (ConsistentHashRing_Lookup r key ≠ node →
   ConsistentHashRing_Lookup left key = ConsistentHashRing_Lookup r key).
Proof.
  intros HV Hcf. cbv zeta. unfold ConsistentHashRing_Lookup.
  assert (Hm : mentioned (evs ++ [Leave node]) = mentioned (evs ++ [Join node]))
    by (unfold mentioned; by rewrite !fmap_app).
  assert (Hcf0 : collision_free V (mentioned evs)).
  { eapply collision_free_sub; [exact Hcf|]. unfold mentioned. rewrite fmap_app, list_to_set_app. set_solver. }
  pose proof (HashString_range key) as Hh. set (h := HashString key) in *.
  destruct (build_ring_owns V evs h HV Hcf0 Hh) as (E0 & O0 & C0).
  destruct (build_ring_owns V (evs ++ [Join node]) h HV Hcf Hh) as (E1 & O1 & C1).
  destruct (build_ring_owns V (evs ++ [Leave node]) h HV ltac:(by rewrite Hm) Hh) as (E2 & O2 & C2).
  unfold membership in *. rewrite fold_left_app in E1, O1, C1, E2, O2, C2. cbn [fold_left members] in *.
  set (S := fold_left members evs ∅) in *. split.
  - destruct (O1 ltac:(set_solver)) as ([->%elem_of_singleton|Hin]%elem_of_union & k & Hk & Hmin); [by right|].
    left. symmetry. apply (owns_unique V S h); [done|done|apply O0; set_solver|].
    split; [done|]. exists k. split; [done|]. intros n' k' Hn'. apply Hmin. set_solver.
  - intros Hne. destruct (decide (S = ∅)) as [He|He].
    { rewrite E0 by done. apply E2. set_solver. }
    destruct (O0 He) as (Hin & k & Hk & Hmin).
    apply (owns_unique V (S ∖ {[node]}) h); [done|done|apply O2; set_solver|].
    split; [set_solver|]. exists k. split; [done|]. intros n' k' Hn'. apply Hmin. set_solver.
Qed.

(** Routing depends on who is in the cluster, not on how it came about. Two
    histories of joins and leaves that end with the same gateways route every
    key and every partition alike. *)
Lemma ring_history_independent V evs1 evs2 key partitionID :
  0 < V → collision_free V (mentioned evs1) → collision_free V (mentioned evs2) →
  membership evs1 = membership evs2 →
  ConsistentHashRing_Lookup (build_ring V evs1) key =
    ConsistentHashRing_Lookup (build_ring V evs2) key ∧
  ConsistentHashRing_LookupPartition (build_ring V evs1) partitionID =
    ConsistentHashRing_LookupPartition (build_ring V evs2) partitionID.
Proof.
  intros HV Hcf1 Hcf2 Hm.
  assert (Heq : ∀ h, in_u64 h → ring_find (build_ring V evs1) h = ring_find (build_ring V evs2) h).
  { intros h Hh. destruct (build_ring_owns V evs1 h HV Hcf1 Hh) as (E1 & O1 & C1).
    destruct (build_ring_owns V evs2 h HV Hcf2 Hh) as (E2 & O2 & C2).
    destruct (decide (membership evs1 = ∅)) as [He|He].
    - rewrite E1, E2; congruence.
    - apply (owns_unique V (membership evs1) h); auto. rewrite Hm in *. auto. }
  split; apply Heq; [apply HashString_range|apply HashBytes_range].
Qed.

(** ** The engine follows the registry *)

(** The IDs of the gateways that take part in routing. *)
Definition active_ids (nodes : list GatewayMetadata) : gset string :=
  list_to_set (gw_ID <$> filter (λ n, participates n = true) nodes).

(** The ring holds exactly the gateways with a known address. *)
Definition engine_ok (U : gset string) (e : RoutingEngine) : Prop :=
  let ring := pm_ring (re_partitionMgr e) in
  ring_ok ring ∧ hr_nodePresent ring = dom (re_nodeAddrs e) ∧ hr_nodePresent ring ⊆ U ∧
  collision_free (hr_vnodes ring) U.

(** The address last listed for [id], or the old one. *)
Fixpoint listed_addr (nodes : list GatewayMetadata) (addrs : gmap string string) (id : string)
    : option string :=
  match nodes with
  | [] => addrs !! id
  | n :: nodes =>
      listed_addr nodes (if participates n then <[gw_ID n := gw_Address n]> addrs else addrs) id
  end.

Lemma sync_add_spec U nodes active addrs ring :
  ring_ok ring → hr_nodePresent ring ⊆ U → active_ids nodes ⊆ U → collision_free (hr_vnodes ring) U →
  let '(active', addrs', ring') := sync_add nodes active addrs ring in
  active' = active ∪ active_ids nodes ∧ dom addrs' = dom addrs ∪ active_ids nodes ∧
  (∀ id, addrs' !! id = listed_addr nodes addrs id) ∧
  ring_ok ring' ∧ hr_nodePresent ring' = hr_nodePresent ring ∪ active_ids nodes ∧
  hr_vnodes ring' = hr_vnodes ring.
Proof.
  revert active addrs ring. induction nodes as [|n nodes IH]; intros active addrs ring H Hsub Hact Hcf;
    cbn [sync_add listed_addr].
  { unfold active_ids. cbn. rewrite !union_empty_r_L. done. }
  unfold active_ids in *. rewrite filter_cons in *. destruct (participates n) eqn:Hp.
  - rewrite decide_True in * by done. rewrite fmap_cons, list_to_set_cons in *.
    destruct (ring_apply_ok ring (Join (gw_ID n)) U) as (H1 & H2 & H3 & H4); [done|done|set_solver|done|].
    cbn [ring_apply members] in *.
    specialize (IH ({[gw_ID n]} ∪ active) (<[gw_ID n := gw_Address n]> addrs)
                  (ConsistentHashRing_AddNode ring (gw_ID n)) H1 H3 ltac:(set_solver) ltac:(by rewrite H4)).
    destruct (sync_add _ _ _ _) as [[active' addrs'] ring'].
    destruct IH as (-> & -> & Ha & Hok & -> & ->). rewrite H2, H4, dom_insert_L.
    split_and!; [set_solver|set_solver|done|done|set_solver|done].
  - rewrite decide_False in * by congruence. by apply IH.
Qed.

Lemma sync_evict_spec U ids active addrs ring :
  ring_ok ring → hr_nodePresent ring ⊆ U → collision_free (hr_vnodes ring) U →
  let '(addrs', ring') := sync_evict ids active addrs ring in
  (∀ id, addrs' !! id = if decide (id ∈ ids ∧ id ∉ active) then None else addrs !! id) ∧
  ring_ok ring' ∧ hr_vnodes ring' = hr_vnodes ring ∧
  (∀ id, id ∈ hr_nodePresent ring' ↔ id ∈ hr_nodePresent ring ∧ ¬ (id ∈ ids ∧ id ∉ active)).
Proof.
  revert addrs ring. induction ids as [|x ids IH]; intros addrs ring H Hsub Hcf; cbn [sync_evict].
  { split_and!; [|done|done|]; intros id.
    - rewrite decide_False; [done|]. by intros [?%not_elem_of_nil _].
    - split; [|tauto]. intros Hin. split; [done|]. by intros [?%not_elem_of_nil _]. }
  case_bool_decide as Hx.
  - specialize (IH addrs ring H Hsub Hcf). destruct (sync_evict ids active addrs ring) as [addrs' ring'].
    destruct IH as (Ha & Hok & Hv & Hp). split_and!; [|done|done|]; intros id.
    + rewrite Ha. apply decide_ext. rewrite elem_of_cons. split; [tauto|]. intros [[->|?] ?]; tauto.
    + rewrite Hp, elem_of_cons. split; intros [? Hn]; (split; [done|]); [|tauto].
      intros [[->|?] ?]; tauto.
  - destruct (RemoveNode_present ring x) as [Hpr Hv0].
    pose proof (RemoveNode_ok ring x H ltac:(by eapply collision_free_sub)) as H1.
    specialize (IH (delete x addrs) (ConsistentHashRing_RemoveNode ring x) H1
                  ltac:(rewrite Hpr; set_solver) ltac:(by rewrite Hv0)).
    destruct (sync_evict ids active _ _) as [addrs' ring'].
    destruct IH as (Ha & Hok & Hv & Hp). split_and!; [|done|by rewrite Hv, Hv0|]; intros id.
    + rewrite Ha. destruct (decide (id = x)) as [->|Hne].
      * rewrite lookup_delete_eq, (decide_True (P := x ∈ x :: ids ∧ _)) by (split; [by left|done]).
        by case_decide.
      * rewrite lookup_delete_ne by done. apply decide_ext. rewrite elem_of_cons. tauto.
    + rewrite Hp, Hpr, elem_of_difference, elem_of_singleton, elem_of_cons.
      destruct (decide (id = x)) as [->|Hne]; tauto.
Qed.

Lemma syncTopology_ok U e nodes :
  engine_ok U e → active_ids nodes ⊆ U →
  let e' := RoutingEngine_syncTopology e (Some nodes) in
  engine_ok U e' ∧ hr_nodePresent (pm_ring (re_partitionMgr e')) = active_ids nodes ∧
  hr_vnodes (pm_ring (re_partitionMgr e')) = hr_vnodes (pm_ring (re_partitionMgr e)) ∧
  (∀ id, id ∈ active_ids nodes →
     re_nodeAddrs e' !! id = listed_addr nodes (re_nodeAddrs e) id) ∧
  pm_overrides (re_partitionMgr e') = pm_overrides (re_partitionMgr e) ∧
  pm_partitionCount (re_partitionMgr e') = pm_partitionCount (re_partitionMgr e) ∧
  re_localID e' = re_localID e.
Proof.
  intros (Hok & Hdom & Hsub & Hcf) Hact. cbv zeta. unfold RoutingEngine_syncTopology.
  pose proof (sync_add_spec U nodes ∅ (re_nodeAddrs e) (pm_ring (re_partitionMgr e)) Hok Hsub Hact Hcf) as Hadd.
  destruct (sync_add _ _ _ _) as [[active addrs1] ring1].
  destruct Hadd as (Hact1 & Hdom1 & Haddr & Hok1 & Hp1 & Hv1). rewrite union_empty_l_L in Hact1. subst active.
  pose proof (sync_evict_spec U (fst <$> map_to_list addrs1) (active_ids nodes) addrs1 ring1 Hok1
                ltac:(rewrite Hp1; set_solver) ltac:(by rewrite Hv1)) as Hev.
  destruct (sync_evict _ _ _ _) as [addrs2 ring2]. destruct Hev as (Ha2 & Hok2 & Hv2 & Hp2).
  assert (Hids : ∀ id, id ∈ fst <$> map_to_list addrs1 ↔ id ∈ dom addrs1).
  { intros id. rewrite elem_of_dom, list_elem_of_fmap. split.
    - intros ([k v] & -> & Hin%elem_of_map_to_list). by exists v.
    - intros [v Hv]. exists (id, v). split; [done|]. by apply elem_of_map_to_list. }
  assert (Hpres : hr_nodePresent ring2 = active_ids nodes).
  { apply set_eq. intros id. rewrite Hp2, Hp1, Hids, Hdom1, Hdom.
    destruct (decide (id ∈ active_ids nodes)); set_solver. }
  assert (Hdom2 : dom addrs2 = active_ids nodes).
  { apply set_eq. intros id. rewrite elem_of_dom, Ha2. case_decide as Hc; rewrite Hids in Hc.
    - split; [by intros [? ?]|]. intros Hin. by destruct Hc.
    - rewrite <- elem_of_dom. rewrite Hdom1. destruct (decide (id ∈ active_ids nodes)); [set_solver|].
      split; [|done]. intros Hin. exfalso. apply Hc. split; [|done]. by rewrite Hdom1. }
  unfold engine_ok, with_ring. cbn [re_partitionMgr pm_ring re_nodeAddrs pm_overrides pm_partitionCount re_localID].
  rewrite Hpres, Hdom2, Hv2, Hv1. split_and!; try done.
  intros id Hin. rewrite Ha2, decide_False by tauto. apply Haddr.
Qed.

Lemma NewRoutingEngine_ok U localID V partitions :
  collision_free V U →
  engine_ok U (NewRoutingEngine localID (NewPartitionManager partitions (NewConsistentHashRing V))).
Proof.
  intros Hcf. split_and!; cbn; [apply NewConsistentHashRing_ok|by rewrite dom_empty_L|set_solver|done].
Qed.

(** Polling the registry any number of times; [None] is a failed poll. *)
Definition polls (e : RoutingEngine) (answers : list (option (list GatewayMetadata)))
    : RoutingEngine := fold_left RoutingEngine_syncTopology answers e.

Lemma polls_ok U e answers :
  engine_ok U e → Forall (λ a, match a with Some ns => active_ids ns ⊆ U | None => True end) answers →
  engine_ok U (polls e answers) ∧
  hr_vnodes (pm_ring (re_partitionMgr (polls e answers))) = hr_vnodes (pm_ring (re_partitionMgr e)) ∧
  pm_overrides (re_partitionMgr (polls e answers)) = pm_overrides (re_partitionMgr e).
Proof.
  intros He Ha. revert e He. induction Ha as [|a answers Ha _ IH]; intros e He; [done|].
  unfold polls in *. cbn [fold_left]. destruct a as [ns|]; [|by apply IH].
  destruct (syncTopology_ok U e ns He Ha) as (H1 & _ & H2 & _ & H3 & _).
  destruct (IH _ H1) as (G1 & G2 & G3). split_and!; [done|congruence|congruence].
Qed.

(** C8: gateways agree on routing. Two engines started empty, whatever they have
    seen of the registry before and however many polls failed, route every
    partition alike once both have polled the same set of participating
    gateways: to the clockwise owner among the ONLINE and LEAVING ones. *)
Theorem engines_converge U V parts id1 id2 hist1 hist2 nodes1 nodes2 partitionID :
  0 < V → collision_free V U →
  Forall (λ a, match a with Some ns => active_ids ns ⊆ U | None => True end) hist1 →
  Forall (λ a, match a with Some ns => active_ids ns ⊆ U | None => True end) hist2 →
  active_ids nodes1 ⊆ U → active_ids nodes1 = active_ids nodes2 → active_ids nodes1 ≠ ∅ →
  let start id := NewRoutingEngine id (NewPartitionManager parts (NewConsistentHashRing V)) in
  let e1 := RoutingEngine_syncTopology (polls (start id1) hist1) (Some nodes1) in
  let e2 := RoutingEngine_syncTopology (polls (start id2) hist2) (Some nodes2) in
  PartitionManager_GatewayForPartition (re_partitionMgr e1) partitionID =
    PartitionManager_GatewayForPartition (re_partitionMgr e2) partitionID ∧
  owns V (active_ids nodes1) (HashBytes (partition_bytes partitionID))
    (PartitionManager_GatewayForPartition (re_partitionMgr e1) partitionID).
Proof.
  intros HV Hcf Hh1 Hh2 Hsub Heq Hne start e1 e2.
  assert (Hgen : ∀ id hist nodes,
    Forall (λ a, match a with Some ns => active_ids ns ⊆ U | None => True end) hist →
    active_ids nodes = active_ids nodes1 →
    owns V (active_ids nodes1) (HashBytes (partition_bytes partitionID))
      (PartitionManager_GatewayForPartition
         (re_partitionMgr (RoutingEngine_syncTopology (polls (start id) hist) (Some nodes))) partitionID)).
  { intros id hist nodes Hh Hn.
    destruct (polls_ok U (start id) hist (NewRoutingEngine_ok U id V parts Hcf) Hh) as (G1 & G2 & G3).
    destruct (syncTopology_ok U (polls (start id) hist) nodes G1) as (S1 & S2 & S3 & _ & S4 & _);
      [by rewrite Hn|].
    unfold PartitionManager_GatewayForPartition. rewrite S4, G3. cbn [start NewRoutingEngine re_partitionMgr pm_overrides NewPartitionManager].
    rewrite lookup_empty. destruct S1 as (R1 & _).
    rewrite G2 in S3.
    change (hr_vnodes (pm_ring (re_partitionMgr (start id)))) with V in S3. rewrite <- Hn, <- S2.
    pose proof (ring_find_owns _ (HashBytes (partition_bytes partitionID)) R1 (HashBytes_range _)
                  ltac:(by rewrite S3)) as Ho.
    rewrite S3 in Ho. apply Ho. rewrite S2, Hn. done. }
  split; [|by apply Hgen].
  eapply (owns_unique V (active_ids nodes1)); [by eapply collision_free_sub|apply HashBytes_range| |];
    by apply Hgen.
Qed.

(** ** Redirects *)

Lemma elem_active_ids nodes id :
  id ∈ active_ids nodes ↔ ∃ g, g ∈ nodes ∧ participates g = true ∧ gw_ID g = id.
Proof.
  unfold active_ids. rewrite elem_of_list_to_set, list_elem_of_fmap. split.
  - intros (g & -> & Hg). apply list_elem_of_filter in Hg as [? ?]. by exists g.
  - intros (g & Hg & Hp & <-). exists g. split; [done|]. by apply list_elem_of_filter.
Qed.

Lemma listed_addr_other nodes addrs id :
  id ∉ active_ids nodes → listed_addr nodes addrs id = addrs !! id.
Proof.
  revert addrs. induction nodes as [|n nodes IH]; intros addrs Hid; [done|]. cbn [listed_addr].
  rewrite elem_active_ids in Hid. rewrite IH.
  - destruct (participates n) eqn:Hp; [|done]. rewrite lookup_insert_ne; [done|].
    intros <-. apply Hid. exists n. split; [by left|done].
  - rewrite elem_active_ids. intros (g & Hg & ?). apply Hid. exists g. split; [by right|done].
Qed.

Lemma listed_addr_in nodes addrs g :
  NoDup (gw_ID <$> filter (λ n, participates n = true) nodes) → g ∈ nodes → participates g = true →
  listed_addr nodes addrs (gw_ID g) = Some (gw_Address g).
Proof.
  revert addrs. induction nodes as [|n nodes IH]; intros addrs Hnd Hg Hp; [by apply not_elem_of_nil in Hg|].
  cbn [listed_addr]. rewrite filter_cons in Hnd. apply elem_of_cons in Hg as [->|Hg].
  - rewrite Hp in *. rewrite decide_True in Hnd by done. rewrite fmap_cons in Hnd.
    apply NoDup_cons in Hnd as [Hnin _]. rewrite listed_addr_other; [by rewrite lookup_insert_eq|].
    unfold active_ids. by rewrite elem_of_list_to_set.
  - apply IH; [|done|done]. case_decide; [|done]. rewrite fmap_cons in Hnd.
    by apply NoDup_cons in Hnd as [_ ?].
Qed.

(** Clients are sent to the gateway that owns their symbol. After a poll of
    the registry, with no manual pins, for every symbol there is a listed, ONLINE
    or LEAVING gateway that owns the symbol's partition, and [RedirectTarget]
    answers "serve here" if that is the local gateway and its WebSocket address
    otherwise. *)
Lemma redirect_targets_the_owner U e nodes symbol :
  let ring := pm_ring (re_partitionMgr e) in
  let parts := pm_partitionCount (re_partitionMgr e) in
  engine_ok U e → active_ids nodes ⊆ U → active_ids nodes ≠ ∅ → 0 < hr_vnodes ring →
  0 < parts < 2 ^ 32 → pm_overrides (re_partitionMgr e) = ∅ →
  NoDup (gw_ID <$> filter (λ n, participates n = true) nodes) →
  Forall (λ n, gw_ID n ≠ "" ∧ gw_Address n ≠ "") nodes →
  ∃ g, g ∈ nodes ∧ participates g = true ∧
    owns (hr_vnodes ring) (active_ids nodes)
      (HashBytes (partition_bytes (HashString symbol mod parts))) (gw_ID g) ∧
    RoutingEngine_RedirectTarget (RoutingEngine_syncTopology e (Some nodes)) symbol =
      Ret (if decide (gw_ID g = re_localID e) then "" else "ws://" +:+ gw_Address g +:+ "/ws").
Proof.
  intros ring parts He Hsub Hne HV Hparts Hov Hnd Hnon.
  destruct (syncTopology_ok U e nodes He Hsub) as (S1 & S2 & S3 & S4 & S5 & S6 & S7).
  set (e' := RoutingEngine_syncTopology e (Some nodes)) in *. clearbody e'.
  destruct S1 as (R1 & _). fold ring in S3. fold parts in S6.
  set (p := HashString symbol mod parts).
  assert (Hp : 0 ≤ p < 2 ^ 32) by (pose proof (Z.mod_pos_bound (HashString symbol) parts ltac:(lia)); lia).
  pose proof (ring_find_owns _ (HashBytes (partition_bytes p)) R1 (HashBytes_range _)
                ltac:(lia) ltac:(by rewrite S2)) as Ho. rewrite S2, S3 in Ho.
  set (owner := ring_find _ _) in Ho.
  destruct (proj1 (elem_active_ids nodes owner) (proj1 Ho)) as (g & Hg & Hpg & Hid).
  exists g. split_and!; [done|done|by rewrite Hid|].
  rewrite Forall_forall in Hnon. destruct (Hnon g Hg) as [Hid0 Haddr].
  unfold RoutingEngine_RedirectTarget, PartitionManager_GatewayForSymbol, PartitionManager_PartitionFor,
    PartitionManager_GatewayForPartition.
  rewrite S5, S6, S7, Hov. rewrite (proj2 (Z.eqb_neq parts 0)) by lia.
  fold p. rewrite (u32_small p) by go_lia. rewrite lookup_empty.
  change (ConsistentHashRing_LookupPartition (pm_ring (re_partitionMgr e')) p) with owner.
  rewrite <- Hid. rewrite (bool_decide_false (gw_ID g = "")) by done. cbn [orb].
  rewrite S4 by (rewrite Hid; apply Ho). rewrite (listed_addr_in nodes _ g) by done.
  case_bool_decide; case_decide; try done. cbn [default from_option id].
  by rewrite bool_decide_false.
Qed.

(** A gateway that stops its heartbeats stops owning partitions. Once its
    last update is older than the registry's time-to-live, the next poll takes
    it out of the ring, and no partition without a manual pin is routed to it. *)
Lemma expired_gateway_not_routed U e r id meta now partitionID :
  reg_ok r → mr_gateways r !! id = Some meta → mr_ttl r < time_sub now (gw_UpdatedAt meta) →
  engine_ok U e → active_ids (MemoryRegistry_List r now) ⊆ U →
  0 < hr_vnodes (pm_ring (re_partitionMgr e)) →
  pm_overrides (re_partitionMgr e) !! partitionID = None → id ≠ "" →
  let e' := RoutingEngine_syncTopology e (Some (MemoryRegistry_List r now)) in
  (id ∉ hr_nodePresent (pm_ring (re_partitionMgr e'))) ∧ re_nodeAddrs e' !! id = None ∧
  PartitionManager_GatewayForPartition (re_partitionMgr e') partitionID ≠ id.
Proof.
  intros Hreg Hid Hexp He Hsub HV Hov Hne.
  destruct (syncTopology_ok U e _ He Hsub) as ((R1 & R2 & _) & S2 & S3 & _ & S5 & _).
  cbv zeta. set (e' := RoutingEngine_syncTopology e _) in *. clearbody e'.
  assert (Hnot : id ∉ active_ids (MemoryRegistry_List r now)).
  { rewrite elem_active_ids. intros (g & Hg & Hp & Hgid).
    unfold MemoryRegistry_List in Hg. apply list_elem_of_fmap in Hg as ([id' m] & -> & Hin).
    apply elem_of_map_to_list in Hin. cbn in *. pose proof (Hreg id' m Hin) as Hm. cbn in Hm.
    assert (Hw : gw_ID (with_ttl r now m) = gw_ID m) by (unfold with_ttl; by case_if).
    rewrite Hw, Hm in Hgid. subst id'. rewrite Hid in Hin. injection Hin as <-.
    unfold with_ttl in Hp. by rewrite (proj2 (Z.ltb_lt _ _)) in Hp by done. }
  rewrite S2 in *. split_and!; [done|by apply not_elem_of_dom; rewrite <- R2|].
  unfold PartitionManager_GatewayForPartition. rewrite S5, Hov.
  unfold ConsistentHashRing_LookupPartition.
  destruct (decide (active_ids (MemoryRegistry_List r now) = ∅)) as [Hemp|Hact].
  - rewrite ring_find_empty by (done || by rewrite S2). done.
  - pose proof (ring_find_owns _ (HashBytes (partition_bytes partitionID)) R1 (HashBytes_range _)
                  ltac:(by rewrite S3) ltac:(by rewrite S2)) as [Ho _].
    rewrite S2 in Ho. intros E. by rewrite E in Ho.
Qed.

(** Pinning a partition redirects that partition and no other, whatever the
    ring says, and clearing the pin gives the partition back to the ring. *)
Lemma partition_override_roundtrip m id gateway other :
  pm_overrides m !! id = None →
  let pinned := PartitionManager_MovePartition m id gateway in
  PartitionManager_GatewayForPartition pinned id = gateway ∧
  (other ≠ id → PartitionManager_GatewayForPartition pinned other =
                PartitionManager_GatewayForPartition m other) ∧
  PartitionManager_ClearPartitionOverride pinned id = m.
Proof.
  intros Hnone. cbv zeta. unfold PartitionManager_GatewayForPartition. cbn. split_and!.
  - by rewrite lookup_insert_eq.
  - intros Hne. by rewrite lookup_insert_ne.
  - unfold PartitionManager_ClearPartitionOverride. cbn. rewrite delete_insert_eq, delete_id by done.
    by destruct m.
Qed.
End routing.

(** ** A concrete cluster *)

(** FNV-1a in the place of xxHash. *)
Definition fnv_hashing : Hashing := {|
  HashString s := fnv1a32 (bytes_of_string s);
  HashBytes := fnv1a32;
|}.

Instance fnv_hashing_laws : HashingLaws fnv_hashing.
Proof.
  split; cbn.
  - intros s. pose proof (fnv1a32_range (bytes_of_string s)). unfold in_u32, in_u64 in *. lia.
  - intros b. pose proof (fnv1a32_range b). unfold in_u32, in_u64 in *. lia.
Qed.

Section demo.
Local Existing Instance fnv_hashing.

Definition demo_events : list ring_event := [Join "g1"; Join "g2"; Leave "g1"; Join "g1"].
Definition demo_members : gset string := {["g1"; "g2"]}.

Lemma demo_collision_free : collision_free 2 demo_members.
Proof.
  intros n1 n2 i1 i2 H1 H2 Hi1 Hi2.
  assert (C1 : i1 = 0 ∨ i1 = 1) by lia. assert (C2 : i2 = 0 ∨ i2 = 1) by lia.
  apply elem_of_union in H1 as [->%elem_of_singleton | ->%elem_of_singleton];
    apply elem_of_union in H2 as [->%elem_of_singleton | ->%elem_of_singleton];
    destruct C1 as [-> | ->], C2 as [-> | ->]; intros E; ((by vm_compute in E) || done).
Qed.

Lemma demo_mentioned : collision_free 2 (mentioned demo_events).
Proof.
  eapply collision_free_sub; [exact demo_collision_free|].
  unfold mentioned, demo_events, demo_members. cbn. set_solver.
Qed.

Lemma lookup_is_clockwise_successor_witness :
  owns 2 (membership demo_events) (HashString "AAPL")
    (ConsistentHashRing_Lookup (build_ring 2 demo_events) "AAPL").
Proof.
  apply (lookup_is_clockwise_successor 2 demo_events "AAPL" 0 ltac:(lia) demo_mentioned).
  vm_compute. discriminate.
Defined.

Lemma ring_minimal_disruption_witness :
  let r := build_ring 2 [Join "g1"; Leave "g2"] in
  let joined := build_ring 2 ([Join "g1"; Leave "g2"] ++ [Join "g2"]) in
  ConsistentHashRing_Lookup joined "AAPL" = ConsistentHashRing_Lookup r "AAPL" ∨
  ConsistentHashRing_Lookup joined "AAPL" = "g2".
Proof.
  apply (ring_minimal_disruption 2 [Join "g1"; Leave "g2"] "g2" "AAPL"); [lia|].
  eapply collision_free_sub; [exact demo_collision_free|].
  unfold mentioned, demo_members. cbn. set_solver.
Defined.

Lemma ring_history_independent_witness :
  ConsistentHashRing_Lookup (build_ring 2 demo_events) "AAPL" =
    ConsistentHashRing_Lookup (build_ring 2 [Join "g2"; Join "g1"]) "AAPL" ∧
  ConsistentHashRing_LookupPartition (build_ring 2 demo_events) 7 =
    ConsistentHashRing_LookupPartition (build_ring 2 [Join "g2"; Join "g1"]) 7.
Proof.
  apply (ring_history_independent 2 demo_events [Join "g2"; Join "g1"] "AAPL" 7);
    [lia|exact demo_mentioned| |vm_compute; reflexivity].
  eapply collision_free_sub; [exact demo_collision_free|].
  unfold mentioned, demo_members. cbn. set_solver.
Defined.

Definition demo_gateways : list GatewayMetadata :=
  [mkGateway "g1" "10.0.0.1:80" StateOnline 0; mkGateway "g2" "10.0.0.2:80" StateLeaving 0;
   mkGateway "g3" "10.0.0.3:80" StateJoining 0].
Definition demo_engine (id : string) : RoutingEngine :=
  NewRoutingEngine id (NewPartitionManager 16 (NewConsistentHashRing 2)).

Lemma demo_active : active_ids demo_gateways = demo_members.
Proof. vm_compute. reflexivity. Qed.

Lemma engines_converge_witness :
  let e1 := RoutingEngine_syncTopology (polls (demo_engine "g1") [None]) (Some demo_gateways) in
  let e2 := RoutingEngine_syncTopology (polls (demo_engine "g2") []) (Some (rev demo_gateways)) in
  PartitionManager_GatewayForPartition (re_partitionMgr e1) 5 =
    PartitionManager_GatewayForPartition (re_partitionMgr e2) 5.
Proof.
  apply (engines_converge demo_members 2 16 "g1" "g2" [None] [] demo_gateways (rev demo_gateways) 5).
  - lia.
  - exact demo_collision_free.
  - repeat constructor.
  - constructor.
  - by rewrite demo_active.
  - vm_compute. reflexivity.
  - rewrite demo_active. vm_compute. discriminate.
Defined.

Lemma redirect_targets_the_owner_witness :
  ∃ g, g ∈ demo_gateways ∧
    RoutingEngine_RedirectTarget (RoutingEngine_syncTopology (demo_engine "g1") (Some demo_gateways)) "AAPL"
    = Ret (if decide (gw_ID g = "g1") then "" else "ws://" +:+ gw_Address g +:+ "/ws").
Proof.
  destruct (redirect_targets_the_owner demo_members (demo_engine "g1") demo_gateways "AAPL")
    as (g & Hg & _ & _ & Hr).
  - apply NewRoutingEngine_ok, demo_collision_free.
  - by rewrite demo_active.
  - rewrite demo_active. vm_compute. discriminate.
  - reflexivity.
  - cbn. lia.
  - reflexivity.
  - vm_compute. repeat constructor; set_solver.
  - repeat constructor; done.
  - exact (ex_intro _ g (conj Hg Hr)).
Defined.

Definition demo_registry : MemoryRegistry :=
  fold_left reg_exec [RRegister (mkGateway "g1" "10.0.0.1:80" StateOnline 0) 0;
                      RRegister (mkGateway "g2" "10.0.0.2:80" StateOnline 0) 0;
                      RHeartbeat "g1" (50 * Second)] (NewMemoryRegistry (30 * Second)).

Lemma expired_gateway_not_routed_witness :
  let e' := RoutingEngine_syncTopology (demo_engine "g1")
              (Some (MemoryRegistry_List demo_registry (60 * Second))) in
  PartitionManager_GatewayForPartition (re_partitionMgr e') 5 ≠ "g2".
Proof.
  apply (expired_gateway_not_routed demo_members (demo_engine "g1") demo_registry "g2"
           (mkGateway "g2" "10.0.0.2:80" StateOnline 0) (60 * Second) 5).
  - apply reg_exec_all_ok, NewMemoryRegistry_ok.
  - vm_compute. reflexivity.
  - vm_compute. reflexivity.
  - apply NewRoutingEngine_ok, demo_collision_free.
  - replace (active_ids _) with ({["g1"]} : gset string) by (vm_compute; reflexivity).
    unfold demo_members. set_solver.
  - reflexivity.
  - reflexivity.
  - discriminate.
Defined.

Lemma partition_override_roundtrip_witness :
  let m := NewPartitionManager 16 (build_ring 2 demo_events) in
  PartitionManager_GatewayForPartition (PartitionManager_MovePartition m 3 "g9") 3 = "g9" ∧
  (4 ≠ 3 → PartitionManager_GatewayForPartition (PartitionManager_MovePartition m 3 "g9") 4 =
           PartitionManager_GatewayForPartition m 4) ∧
  PartitionManager_ClearPartitionOverride (PartitionManager_MovePartition m 3 "g9") 3 = m.
Proof.
  apply (partition_override_roundtrip (NewPartitionManager 16 (build_ring 2 demo_events)) 3 "g9" 4).
  reflexivity.
Defined.
End demo.

(** A hash under which every virtual node collides. *)
Definition constant_hashing : Hashing := {| HashString _ := 42; HashBytes _ := 42 |}.

(** The ring does not survive a hash collision between
    the virtual nodes of two gateways. With one virtual node each that collide,
    g1 and g2 join and g2 leaves: g1 is still present, but the key left behind no
    longer has a node, and every lookup answers with the empty string. *)
Lemma colliding_vnodes_lose_the_ring key :
  let r := @build_ring constant_hashing 1 [Join "g1"; Join "g2"; Leave "g2"] in
  "g1" ∈ hr_nodePresent r ∧ @ConsistentHashRing_Lookup constant_hashing r key = "".
Proof.
  intros r. split.
  - apply (bool_decide_unpack _). vm_compute. done.
  - vm_compute. reflexivity.
Qed.
