(* ===== verification/RateLimit.v ===== *)
(** * RateLimit: token buckets per client

    [internal/ratelimit/bucket.go], [config.go] and [limiter.go]: the token
    bucket over float64 tokens, the limits of one client, and the sharded limiter
    with its subscription cap and the eviction of idle clients. A reading of the
    clock is an argument. The buckets are refilled by float64 arithmetic; at whole
    seconds, with whole rates, it is exact, and the bucket refines the textbook
    one over the integers. Metrics are left out; the evictor goroutine is the
    sequence of its [evictStale] steps. *)

From S2P Require Import Prelude Bytes Sharded Float64.

(** ** The bucket (bucket.go) *)

Record Bucket := mkBucket {
  bk_tokens : float64;
  bk_burstSize : float64;
  bk_tokensPerSec : float64;
  bk_lastRefill : Z;
}.

(** [d.Seconds()]: the whole seconds plus the rest over 1e9, in float64. *)
Definition Duration_Seconds (d : Z) : float64 :=
  f64_add (f64_of_Z (Z.quot d Second)) (f64_div (f64_of_Z (Z.rem d Second)) (f64_of_Z 1000000000)).

Definition NewBucket (tokensPerSec : float64) (burstSize now : Z) : Bucket :=
  let tokensPerSec := if f64_leb tokensPerSec f64_zero then f64_one else tokensPerSec in
  let burstSize := if burstSize <=? 0 then 1 else burstSize in
  mkBucket (f64_of_Z burstSize) (f64_of_Z burstSize) tokensPerSec now.

(** The cap applied after tokens are added. *)
Definition cap_tokens (burst tokens : float64) : float64 :=
  if f64_ltb burst tokens then burst else tokens.

Definition refill (b : Bucket) (now : Z) : Bucket :=
  let elapsed := Duration_Seconds (time_sub now (bk_lastRefill b)) in
  if f64_leb elapsed f64_zero then b
  else mkBucket (cap_tokens (bk_burstSize b)
                   (f64_add (bk_tokens b) (f64_mul elapsed (bk_tokensPerSec b))))
         (bk_burstSize b) (bk_tokensPerSec b) now.

Definition set_tokens (b : Bucket) (tokens : float64) : Bucket :=
  mkBucket tokens (bk_burstSize b) (bk_tokensPerSec b) (bk_lastRefill b).

Definition Bucket_AllowN (b : Bucket) (n now : Z) : Bucket * bool :=
  if n <=? 0 then (b, true)
  else
    let b := refill b now in
    if f64_leb (f64_of_Z n) (bk_tokens b)
    then (set_tokens b (f64_sub (bk_tokens b) (f64_of_Z n)), true)
    else (b, false).

Definition Bucket_Allow (b : Bucket) (now : Z) : Bucket * bool := Bucket_AllowN b 1 now.

Definition Bucket_Tokens (b : Bucket) (now : Z) : Bucket * float64 :=
  let b := refill b now in (b, bk_tokens b).

Definition Bucket_TokensPerSec (b : Bucket) : float64 := bk_tokensPerSec b.

Definition Bucket_Refund (b : Bucket) (n : Z) : Bucket :=
  if n <=? 0 then b
  else set_tokens b (cap_tokens (bk_burstSize b) (f64_add (bk_tokens b) (f64_of_Z n))).

(** ** Configuration (config.go) *)

Record RateLimit := mkRateLimit { rl_Rate : float64; rl_Burst : Z }.

Record RlConfig := mkRlConfig {
  rc_Connect : RateLimit;
  rc_Subscribe : RateLimit;
  rc_Unsubscribe : RateLimit;
  rc_MaxSubscriptions : Z;
  rc_ClientTTL : Z;
}.

Definition RlDefaultConfig : RlConfig :=
  mkRlConfig (mkRateLimit (f64_of_Z 10) 20) (mkRateLimit (f64_of_Z 50) 100)
    (mkRateLimit (f64_of_Z 20) 50) 1000 (5 * Minute).

Definition NoLimits : RlConfig :=
  let l := mkRateLimit (f64_of_Z 1000000) 1000000 in mkRlConfig l l l 0 0.

(** The three bucket constructors differ in the limit and in its defaults. *)
Definition limit_bucket (l : RateLimit) (rate burst now : Z) : Bucket :=
  NewBucket (if f64_leb (rl_Rate l) f64_zero then f64_of_Z rate else rl_Rate l)
    (if rl_Burst l <=? 0 then burst else rl_Burst l) now.

Definition connectBucket (c : RlConfig) (now : Z) : Bucket := limit_bucket (rc_Connect c) 10 20 now.
Definition subscribeBucket (c : RlConfig) (now : Z) : Bucket := limit_bucket (rc_Subscribe c) 50 100 now.
Definition unsubscribeBucket (c : RlConfig) (now : Z) : Bucket := limit_bucket (rc_Unsubscribe c) 20 50 now.

Record clientLimits := mkClientLimits {
  cl_connect : Bucket;
  cl_subscribe : Bucket;
  cl_unsubscribe : Bucket;
  cl_activeSubs : Z;
  cl_lastAccess : Z;
}.

Definition newClientLimits (c : RlConfig) (now : Z) : clientLimits :=
  mkClientLimits (connectBucket c now) (subscribeBucket c now) (unsubscribeBucket c now) 0 now.

Definition touch (cl : clientLimits) (now : Z) : clientLimits :=
  mkClientLimits (cl_connect cl) (cl_subscribe cl) (cl_unsubscribe cl) (cl_activeSubs cl) now.

Definition set_connect (cl : clientLimits) (b : Bucket) : clientLimits :=
  mkClientLimits b (cl_subscribe cl) (cl_unsubscribe cl) (cl_activeSubs cl) (cl_lastAccess cl).
Definition set_subscribe (cl : clientLimits) (b : Bucket) : clientLimits :=
  mkClientLimits (cl_connect cl) b (cl_unsubscribe cl) (cl_activeSubs cl) (cl_lastAccess cl).
Definition set_unsubscribe (cl : clientLimits) (b : Bucket) : clientLimits :=
  mkClientLimits (cl_connect cl) (cl_subscribe cl) b (cl_activeSubs cl) (cl_lastAccess cl).
Definition set_active (cl : clientLimits) (n : Z) : clientLimits :=
  mkClientLimits (cl_connect cl) (cl_subscribe cl) (cl_unsubscribe cl) n (cl_lastAccess cl).

(** ** The limiter (limiter.go) *)

Definition limiterShards : nat := 16.

Record Limiter := mkLimiter {
  lm_cfg : RlConfig;
  lm_shards : list (gmap string clientLimits);
  lm_shardMask : Z;
  lm_stopped : bool;
}.

Definition NewLimiter (cfg : RlConfig) : Limiter :=
  mkLimiter cfg (replicate limiterShards ∅) (u32 (Z.of_nat limiterShards - 1)) false.

(** Closing the stop channel a second time panics. *)
Definition Limiter_Stop (l : Limiter) : outcome Limiter :=
  if lm_stopped l then Panic
  else Ret (mkLimiter (lm_cfg l) (lm_shards l) (lm_shardMask l) true).

Definition shard_index (l : Limiter) (clientID : string) : nat :=
  Z.to_nat (Z.land (fnv1a32 (bytes_of_string clientID)) (lm_shardMask l)).

Definition get_client (l : Limiter) (clientID : string) : option clientLimits :=
  lm_shards l !! shard_index l clientID ≫= lookup clientID.

(** Storing through the client's pointer. *)
Definition put_client (l : Limiter) (clientID : string) (cl : clientLimits) : Limiter :=
  let i := shard_index l clientID in
  mkLimiter (lm_cfg l) (<[i := <[clientID := cl]> (default ∅ (lm_shards l !! i))]> (lm_shards l))
    (lm_shardMask l) (lm_stopped l).

Definition getOrCreate (l : Limiter) (clientID : string) (now : Z) : clientLimits :=
  default (newClientLimits (lm_cfg l) now) (get_client l clientID).

Definition AllowConnect (l : Limiter) (clientID : string) (now : Z) : Limiter * bool :=
  let cl := touch (getOrCreate l clientID now) now in
  let '(b, allowed) := Bucket_Allow (cl_connect cl) now in
  (put_client l clientID (set_connect cl b), allowed).

Definition AllowSubscribe (l : Limiter) (clientID : string) (now : Z) : Limiter * bool :=
  let cl := touch (getOrCreate l clientID now) now in
  let '(b, allowed) := Bucket_Allow (cl_subscribe cl) now in
  (put_client l clientID (set_subscribe cl b), allowed).

Definition AllowUnsubscribe (l : Limiter) (clientID : string) (now : Z) : Limiter * bool :=
  let cl := touch (getOrCreate l clientID now) now in
  let '(b, allowed) := Bucket_Allow (cl_unsubscribe cl) now in
  (put_client l clientID (set_unsubscribe cl b), allowed).

Definition AllowSubscribeN (l : Limiter) (clientID : string) (n now : Z) : Limiter * bool :=
  let cl := touch (getOrCreate l clientID now) now in
  let '(b, allowed) := Bucket_AllowN (cl_subscribe cl) n now in
  (put_client l clientID (set_subscribe cl b), allowed).

(** The compare-and-swap loop succeeds in its first turn when nobody interferes. *)
Definition AllowSubscription (l : Limiter) (clientID : string) (now : Z) : Limiter * bool :=
  if rc_MaxSubscriptions (lm_cfg l) <=? 0 then (l, true)
  else
    let cl := touch (getOrCreate l clientID now) now in
    let cur := cl_activeSubs cl in
    if rc_MaxSubscriptions (lm_cfg l) <=? cur then (put_client l clientID cl, false)
    else (put_client l clientID (set_active cl (i64 (cur + 1))), true).

Definition ReleaseSubscription (l : Limiter) (clientID : string) : Limiter :=
  match get_client l clientID with
  | None => l
  | Some cl =>
      let cur := cl_activeSubs cl in
      if cur <=? 0 then l else put_client l clientID (set_active cl (i64 (cur - 1)))
  end.

Definition AllowAndSubscribe (l : Limiter) (clientID : string) (now : Z) : Limiter * bool :=
  if rc_MaxSubscriptions (lm_cfg l) <=? 0 then AllowSubscribe l clientID now
  else
    let cl := touch (getOrCreate l clientID now) now in
    let '(b, allowed) := Bucket_Allow (cl_subscribe cl) now in
    if negb allowed then (put_client l clientID (set_subscribe cl b), false)
    else
      let cur := cl_activeSubs cl in
      if rc_MaxSubscriptions (lm_cfg l) <=? cur
      then (put_client l clientID (set_subscribe cl (Bucket_Refund b 1)), false)
      else (put_client l clientID (set_active (set_subscribe cl b) (i64 (cur + 1))), true).

Definition RemoveClient (l : Limiter) (clientID : string) : Limiter :=
  let i := shard_index l clientID in
  mkLimiter (lm_cfg l) (<[i := delete clientID (default ∅ (lm_shards l !! i))]> (lm_shards l))
    (lm_shardMask l) (lm_stopped l).

Definition ClientCount (l : Limiter) : nat := sum_list (size <$> lm_shards l).

Definition evictStale (l : Limiter) (now : Z) : Limiter :=
  mkLimiter (lm_cfg l)
    (filter (λ x : string * clientLimits, time_sub now (cl_lastAccess x.2) ≤ rc_ClientTTL (lm_cfg l))
       <$> lm_shards l)
    (lm_shardMask l) (lm_stopped l).

(** ** The bucket at whole seconds

    The reference: a token bucket over the integers, with time in seconds. *)

Record TokenBucket := mkTB { tb_tokens : Z; tb_burst : Z; tb_rate : Z; tb_last : Z }.

Definition tb_refill (b : TokenBucket) (t : Z) : TokenBucket :=
  if t <=? tb_last b then b
  else mkTB (Z.min (tb_burst b) (tb_tokens b + (t - tb_last b) * tb_rate b)) (tb_burst b) (tb_rate b) t.

Definition tb_allowN (b : TokenBucket) (n t : Z) : TokenBucket * bool :=
  let b := tb_refill b t in
  if n <=? tb_tokens b then (mkTB (tb_tokens b - n) (tb_burst b) (tb_rate b) (tb_last b), true)
  else (b, false).

(** [horizon] bounds the seconds between two readings of the clock. *)
Record bucket_repr (t0 horizon : Z) (b : Bucket) (s : TokenBucket) : Prop := {
  br_tokens : bk_tokens b = f64_of_Z (tb_tokens s);
  br_burst : bk_burstSize b = f64_of_Z (tb_burst s);
  br_rate : bk_tokensPerSec b = f64_of_Z (tb_rate s);
  br_last : bk_lastRefill b = tb_last s * Second;
  br_range : 0 ≤ tb_tokens s ≤ tb_burst s;
  br_small : tb_burst s < 2 ^ 52 ∧ 0 < tb_rate s ∧ tb_rate s * horizon < 2 ^ 52;
  br_time : t0 ≤ tb_last s ≤ t0 + horizon;
}.

Lemma Seconds_whole k : - 2 ^ 53 < k < 2 ^ 53 → Duration_Seconds (k * Second) = f64_of_Z k.
Proof.
  intros Hk. unfold Duration_Seconds. rewrite Z.quot_mul, Z.rem_mul by done.
  replace (f64_div (f64_of_Z 0) (f64_of_Z 1000000000)) with (f64_of_Z 0) by (vm_compute; done).
  rewrite f64_add_int by lia. f_equal. lia.
Qed.

Lemma refill_repr t0 horizon b s t :
  bucket_repr t0 horizon b s → horizon ≤ 2 ^ 33 → t0 ≤ t ≤ t0 + horizon →
  bucket_repr t0 horizon (refill b (t * Second)) (tb_refill s t).
Proof.
  intros [Ht Hb Hr Hl Hrg (Hs1 & Hs2 & Hs3) Htm] Hh Hin. unfold refill, tb_refill.
  set (k := t - tb_last s).
  assert (Hsub : time_sub (t * Second) (bk_lastRefill b) = k * Second).
  { rewrite Hl, time_sub_small; unfold k, in_i64, Second, Millisecond; lia. }
  rewrite Hsub, Seconds_whole by lia. change f64_zero with (f64_of_Z 0). rewrite f64_leb_int by lia.
  destruct (Z.leb_spec k 0), (Z.leb_spec t (tb_last s)); try lia; [by split|].
  assert (Hkh : 0 < k ≤ horizon) by (unfold k; lia).
  assert (Hk : 0 ≤ k * tb_rate s < 2 ^ 52) by nia.
  assert (Hrs : tb_rate s < 2 ^ 52) by nia.
  rewrite Hr, Ht, Hb, f64_mul_int, f64_add_int by lia. unfold cap_tokens. rewrite f64_ltb_int by lia.
  split; cbn; [|done|done|done|lia|done|lia].
  destruct (Z.ltb_spec (tb_burst s) (tb_tokens s + k * tb_rate s)); f_equal; lia.
Qed.

Lemma AllowN_repr t0 horizon b s n t :
  bucket_repr t0 horizon b s → horizon ≤ 2 ^ 33 → t0 ≤ t ≤ t0 + horizon → 0 < n < 2 ^ 52 →
  snd (Bucket_AllowN b n (t * Second)) = snd (tb_allowN s n t) ∧
  bucket_repr t0 horizon (fst (Bucket_AllowN b n (t * Second))) (fst (tb_allowN s n t)).
Proof.
  intros H Hh Hin Hn. pose proof (refill_repr t0 horizon b s t H Hh Hin) as H'.
  unfold Bucket_AllowN, tb_allowN. rewrite (proj2 (Z.leb_gt n 0)) by lia.
  destruct H' as [Ht Hb Hr Hl Hrg (Hs1 & Hs2 & Hs3) Htm].
  rewrite Ht, f64_leb_int by lia. destruct (Z.leb_spec n (tb_tokens (tb_refill s t))); cbn [fst snd].
  - split; [done|]. unfold set_tokens. split; cbn; try done; [|lia].
    rewrite f64_sub_int by lia. done.
  - split; [done|]. by split.
Qed.

(** Refunding what was taken. *)
Lemma Refund_repr t0 horizon b s n :
  bucket_repr t0 horizon b s → 0 < n → tb_tokens s + n ≤ tb_burst s →
  bucket_repr t0 horizon (Bucket_Refund b n) (mkTB (tb_tokens s + n) (tb_burst s) (tb_rate s) (tb_last s)).
Proof.
  intros [Ht Hb Hr Hl Hrg (Hs1 & Hs2 & Hs3) Htm] Hn Hc. unfold Bucket_Refund, set_tokens, cap_tokens.
  rewrite (proj2 (Z.leb_gt n 0)), Ht, Hb, f64_add_int, f64_ltb_int by lia.
  rewrite (proj2 (Z.ltb_ge _ _)) by lia. split; cbn; try done; lia.
Qed.

Lemma NewBucket_repr rate burst t0 horizon :
  0 < rate < 2 ^ 52 → 0 < burst < 2 ^ 52 → 0 ≤ horizon → rate * horizon < 2 ^ 52 →
  bucket_repr t0 horizon (NewBucket (f64_of_Z rate) burst (t0 * Second)) (mkTB burst burst rate t0).
Proof.
  intros Hr Hb Hh Hrh. unfold NewBucket. change f64_zero with (f64_of_Z 0).
  rewrite f64_leb_int, (proj2 (Z.leb_gt rate 0)), (proj2 (Z.leb_gt burst 0)) by lia.
  split; cbn; try done; lia.
Qed.

(** A sequence of requests: how many tokens, at which second. *)
Fixpoint bucket_run (b : Bucket) (reqs : list (Z * Z)) : list bool :=
  match reqs with
  | [] => []
  | (n, t) :: reqs => let '(b, ok) := Bucket_AllowN b n (t * Second) in ok :: bucket_run b reqs
  end.

Fixpoint tb_run (s : TokenBucket) (reqs : list (Z * Z)) : list bool :=
  match reqs with
  | [] => []
  | (n, t) :: reqs => let '(s, ok) := tb_allowN s n t in ok :: tb_run s reqs
  end.

Definition reqs_ok (t0 horizon : Z) (reqs : list (Z * Z)) : Prop :=
  Forall (λ r, 0 < r.1 < 2 ^ 52 ∧ t0 ≤ r.2 ≤ t0 + horizon) reqs.

Lemma bucket_run_repr t0 horizon b s reqs :
  bucket_repr t0 horizon b s → horizon ≤ 2 ^ 33 → reqs_ok t0 horizon reqs →
  bucket_run b reqs = tb_run s reqs.
Proof.
  intros H Hh Hreqs. revert b s H. induction Hreqs as [|[n t] reqs [Hn Ht] _ IH]; intros b s H; [done|].
  cbn [bucket_run tb_run]. destruct (AllowN_repr t0 horizon b s n t H Hh Ht Hn) as [Hok Hrep].
  destruct (Bucket_AllowN b n (t * Second)) as [b' ok], (tb_allowN s n t) as [s' ok']. cbn [fst snd] in *.
  subst ok'. f_equal. by apply IH.
Qed.

(** C18: at whole seconds, with a whole rate, the float64 bucket is exact. Whatever
    the order of the readings of the clock, it allows and rejects what the integer
    token bucket does. *)
Theorem bucket_refines_token_bucket rate burst t0 horizon reqs :
  0 < rate < 2 ^ 52 → 0 < burst < 2 ^ 52 → 0 ≤ horizon ≤ 2 ^ 33 → rate * horizon < 2 ^ 52 →
  reqs_ok t0 horizon reqs →
  bucket_run (NewBucket (f64_of_Z rate) burst (t0 * Second)) reqs = tb_run (mkTB burst burst rate t0) reqs.
Proof.
  intros Hr Hb Hh Hrh Hreqs. apply (bucket_run_repr t0 horizon); [|lia|done].
  apply NewBucket_repr; lia.
Qed.

(** The tokens granted by a run. *)
Definition granted (reqs : list (Z * Z)) (oks : list bool) : Z :=
  foldr (λ '((n, t), ok) acc, (if ok : bool then n else 0) + acc) 0 (zip reqs oks).

Lemma granted_cons n t reqs ok oks :
  granted ((n, t) :: reqs) (ok :: oks) = (if ok : bool then n else 0) + granted reqs oks.
Proof. done. Qed.

Lemma tb_run_bound t1 s reqs :
  0 ≤ tb_tokens s ≤ tb_burst s → 0 < tb_rate s → tb_last s ≤ t1 →
  Forall (λ r : Z * Z, 0 < r.1 ∧ r.2 ≤ t1) reqs →
  granted reqs (tb_run s reqs) ≤ tb_tokens s + tb_rate s * (t1 - tb_last s).
Proof.
  intros Hb Hr Hl Hreqs. revert s Hb Hr Hl. induction Hreqs as [|[n t] reqs [Hn Ht] _ IH]; intros s Hb Hr Hl.
  { cbn. nia. }
  cbn [fst snd] in *. cbn [tb_run]. unfold tb_allowN.
  assert (Href : 0 ≤ tb_tokens (tb_refill s t) ≤ tb_burst s ∧ tb_burst (tb_refill s t) = tb_burst s ∧
    tb_rate (tb_refill s t) = tb_rate s ∧ tb_last (tb_refill s t) ≤ t1 ∧
    tb_tokens (tb_refill s t) + tb_rate s * (t1 - tb_last (tb_refill s t)) ≤
      tb_tokens s + tb_rate s * (t1 - tb_last s)).
  { unfold tb_refill. destruct (Z.leb_spec t (tb_last s)); cbn; [lia|]. split_and!; try lia; nia. }
  destruct Href as (H1 & H2 & H3 & H4 & H5).
  destruct (Z.leb_spec n (tb_tokens (tb_refill s t))) as [Hle|Hgt].
  - specialize (IH (mkTB (tb_tokens (tb_refill s t) - n) (tb_burst (tb_refill s t))
                      (tb_rate (tb_refill s t)) (tb_last (tb_refill s t)))).
    cbn [tb_tokens tb_burst tb_rate tb_last] in IH. specialize (IH ltac:(lia) ltac:(lia) ltac:(lia)).
    rewrite granted_cons, H3 in *. lia.
  - specialize (IH (tb_refill s t) ltac:(lia) ltac:(lia) ltac:(lia)).
    rewrite granted_cons, H3 in *. lia.
Qed.


(** ** The limiter

    [lf] is the one map of clients the shards stand for. *)

Definition lidx (id : string) : nat := Z.to_nat (Z.land (fnv1a32 (bytes_of_string id)) 15).

Lemma lidx_lt id : (lidx id < limiterShards)%nat.
Proof.
  unfold lidx, limiterShards. change 15 with (Z.ones 4). rewrite Z.land_ones by lia.
  pose proof (Z.mod_pos_bound (fnv1a32 (bytes_of_string id)) (2 ^ 4)). lia.
Qed.

Record limiter_ok (l : Limiter) (f : gmap string clientLimits) : Prop := {
  lo_mask : lm_shardMask l = 15;
  lo_flat : flat limiterShards lidx (lm_shards l) f;
}.

Lemma NewLimiter_ok cfg : limiter_ok (NewLimiter cfg) ∅.
Proof. split; [done|]. apply flat_empty, lidx_lt. Qed.

Lemma shard_index_ok l f id : limiter_ok l f → shard_index l id = lidx id.
Proof. intros H. unfold shard_index. by rewrite (lo_mask _ _ H). Qed.

Lemma get_client_ok l f id : limiter_ok l f → get_client l id = f !! id.
Proof.
  intros H. unfold get_client. rewrite (shard_index_ok _ _ _ H). apply (flat_get _ _ _ _ (lo_flat _ _ H)).
Qed.

Lemma put_client_ok l f id cl : limiter_ok l f → limiter_ok (put_client l id cl) (<[id := cl]> f).
Proof.
  intros H. split; [apply H|]. unfold put_client. rewrite (shard_index_ok _ _ _ H). cbn.
  destruct (flat_shard _ _ lidx_lt _ _ id (lo_flat _ _ H)) as (sh & Hsh & _). rewrite Hsh.
  by apply flat_insert; [apply lidx_lt|apply H|].
Qed.

Lemma RemoveClient_ok l f id : limiter_ok l f → limiter_ok (RemoveClient l id) (delete id f).
Proof.
  intros H. split; [apply H|]. unfold RemoveClient. rewrite (shard_index_ok _ _ _ H). cbn.
  destruct (flat_shard _ _ lidx_lt _ _ id (lo_flat _ _ H)) as (sh & Hsh & _). rewrite Hsh.
  by apply flat_delete; [apply lidx_lt|apply H|].
Qed.

Lemma evictStale_ok l f now :
  limiter_ok l f →
  limiter_ok (evictStale l now)
    (filter (λ x : string * clientLimits, time_sub now (cl_lastAccess x.2) ≤ rc_ClientTTL (lm_cfg l)) f).
Proof. intros H. split; [apply H|]. apply flat_filter; [apply lidx_lt|apply H]. Qed.

(** The calls on the limiter. *)
Inductive limiter_op :=
| LConnect (id : string) (now : Z)
| LSubscribe (id : string) (now : Z)
| LUnsubscribe (id : string) (now : Z)
| LSubscribeN (id : string) (n now : Z)
| LSubscription (id : string) (now : Z)
| LAndSubscribe (id : string) (now : Z)
| LRelease (id : string)
| LRemove (id : string)
| LEvict (now : Z).

Definition limiter_exec (l : Limiter) (op : limiter_op) : Limiter * bool :=
  match op with
  | LConnect id now => AllowConnect l id now
  | LSubscribe id now => AllowSubscribe l id now
  | LUnsubscribe id now => AllowUnsubscribe l id now
  | LSubscribeN id n now => AllowSubscribeN l id n now
  | LSubscription id now => AllowSubscription l id now
  | LAndSubscribe id now => AllowAndSubscribe l id now
  | LRelease id => (ReleaseSubscription l id, true)
  | LRemove id => (RemoveClient l id, true)
  | LEvict now => (evictStale l now, true)
  end.

(** The client a call is about; the eviction is about all of them. *)
Definition op_client (op : limiter_op) : option string :=
  match op with
  | LConnect id _ | LSubscribe id _ | LUnsubscribe id _ | LSubscribeN id _ _ | LSubscription id _
  | LAndSubscribe id _ | LRelease id | LRemove id => Some id
  | LEvict _ => None
  end.

(** What a call does to the subscription count of its client. *)
Definition spec_count (max : Z) (count : Z) (op : limiter_op) (granted : bool) : Z :=
  match op with
  | LSubscription _ _ | LAndSubscribe _ _ => if granted && (0 <? max) then count + 1 else count
  | LRelease _ => Z.max 0 (count - 1)
  | LRemove _ => 0
  | _ => count
  end.

Definition active (f : gmap string clientLimits) (id : string) : Z :=
  default 0 (cl_activeSubs <$> f !! id).

Lemma active_insert f id cl id' :
  active (<[id := cl]> f) id' = if decide (id' = id) then cl_activeSubs cl else active f id'.
Proof.
  unfold active. case_decide; [subst; by rewrite lookup_insert_eq|by rewrite lookup_insert_ne].
Qed.

Lemma getOrCreate_active l f id now :
  limiter_ok l f → cl_activeSubs (getOrCreate l id now) = active f id.
Proof. intros H. unfold getOrCreate, active. rewrite (get_client_ok _ _ _ H). by destruct (f !! id). Qed.

Definition counts_ok (max : Z) (f : gmap string clientLimits) : Prop :=
  ∀ id, 0 ≤ active f id ≤ Z.max 0 max.

(** A step about one client: the others keep their entries. *)
Definition client_step (l : Limiter) (f : gmap string clientLimits) (id : string) (l' : Limiter) (n : Z) : Prop :=
  ∃ f', limiter_ok l' f' ∧ lm_cfg l' = lm_cfg l ∧ (∀ id', id' ≠ id → f' !! id' = f !! id') ∧ active f' id = n.

Lemma client_step_put l f id cl n :
  limiter_ok l f → cl_activeSubs cl = n → client_step l f id (put_client l id cl) n.
Proof.
  intros H <-. exists (<[id := cl]> f).
  split_and!; [by apply put_client_ok|done|intros; by rewrite lookup_insert_ne|].
  by rewrite active_insert, decide_True.
Qed.

Lemma client_step_stay l f id : limiter_ok l f → client_step l f id l (active f id).
Proof. intros H. by exists f. Qed.

(** The calls that only take tokens. *)
Lemma bucket_step l f id now (g : clientLimits → Bucket) (s : clientLimits → Bucket → clientLimits) (allow : Bucket → Bucket * bool) :
  limiter_ok l f → (∀ cl b, cl_activeSubs (s cl b) = cl_activeSubs cl) →
  client_step l f id
    (fst (let cl := touch (getOrCreate l id now) now in
          let '(b, ok) := allow (g cl) in (put_client l id (s cl b), ok))) (active f id).
Proof.
  intros H Hs. cbv zeta. destruct (allow _) as [b ok]. apply client_step_put; [done|].
  rewrite Hs. by apply getOrCreate_active.
Qed.

(** Every call about a client changes that client's entry only, and its count as
    the specification says; a subscription is granted below the cap only. *)
Lemma limiter_exec_client l f op id :
  limiter_ok l f → counts_ok (rc_MaxSubscriptions (lm_cfg l)) f →
  in_i64 (rc_MaxSubscriptions (lm_cfg l)) → op_client op = Some id →
  client_step l f id (fst (limiter_exec l op))
    (spec_count (rc_MaxSubscriptions (lm_cfg l)) (active f id) op (snd (limiter_exec l op))) ∧
  match op with
  | LSubscription _ _ | LAndSubscribe _ _ =>
      0 < rc_MaxSubscriptions (lm_cfg l) → snd (limiter_exec l op) = true →
      active f id < rc_MaxSubscriptions (lm_cfg l)
  | _ => True
  end.
Proof.
  intros H Hc Hmax Hop. pose proof (Hc id) as Hc0. unfold in_i64 in Hmax.
  set (max := rc_MaxSubscriptions (lm_cfg l)) in *.
  destruct op as [id0 now|id0 now|id0 now|id0 n now|id0 now|id0 now|id0|id0|now]; simplify_eq/=;
    try (split; [|done]).
  - by apply (bucket_step l f id now cl_connect set_connect (λ b, Bucket_Allow b now)).
  - by apply (bucket_step l f id now cl_subscribe set_subscribe (λ b, Bucket_Allow b now)).
  - by apply (bucket_step l f id now cl_unsubscribe set_unsubscribe (λ b, Bucket_Allow b now)).
  - by apply (bucket_step l f id now cl_subscribe set_subscribe (λ b, Bucket_AllowN b n now)).
  - unfold AllowSubscription. fold max. pose proof (getOrCreate_active l f id now H) as Hg.
    destruct (Z.leb_spec max 0) as [H0|H0]; cbn [fst snd].
    { rewrite (proj2 (Z.ltb_ge 0 max)) by lia. split; [by apply client_step_stay|lia]. }
    cbn [touch cl_activeSubs]. rewrite Hg. destruct (Z.leb_spec max (active f id)); cbn [fst snd andb].
    { split; [by apply client_step_put|done]. }
    rewrite (proj2 (Z.ltb_lt 0 max)) by lia. split; [|lia]. apply client_step_put; [done|].
    cbn. apply i64_small. unfold in_i64. lia.
  - unfold AllowAndSubscribe. fold max. pose proof (getOrCreate_active l f id now H) as Hg.
    destruct (Z.leb_spec max 0) as [H0|H0]; cbn [fst snd].
    { rewrite (proj2 (Z.ltb_ge 0 max)), andb_false_r by lia. split; [|lia].
      by apply (bucket_step l f id now cl_subscribe set_subscribe (λ b, Bucket_Allow b now)). }
    cbv zeta. destruct (Bucket_Allow _ now) as [b []]; cbn [negb fst snd andb].
    2:{ split; [by apply client_step_put|done]. }
    cbn [touch cl_activeSubs]. rewrite Hg. destruct (Z.leb_spec max (active f id)); cbn [fst snd andb].
    { split; [by apply client_step_put|done]. }
    rewrite (proj2 (Z.ltb_lt 0 max)) by lia. split; [|lia]. apply client_step_put; [done|].
    cbn. apply i64_small. unfold in_i64. lia.
  - unfold ReleaseSubscription. rewrite (get_client_ok _ _ _ H).
    assert (Ha : active f id = default 0 (cl_activeSubs <$> f !! id)) by done.
    destruct (f !! id) as [cl|] eqn:Hf; cbn in Ha.
    + rewrite <- Ha. destruct (Z.leb_spec (active f id) 0).
      * replace (Z.max 0 (active f id - 1)) with (active f id) by lia. by apply client_step_stay.
      * apply client_step_put; [done|]. cbn. rewrite i64_small; [lia|].
        unfold in_i64. lia.
    + replace (Z.max 0 (active f id - 1)) with (active f id) by lia. by apply client_step_stay.
  - exists (delete id f). split_and!; [by apply RemoveClient_ok|done| |].
    + intros id' Hne. by rewrite lookup_delete_ne.
    + unfold active. by rewrite lookup_delete_eq.
Qed.

Lemma evict_active l f now id :
  active (filter (λ x : string * clientLimits,
            time_sub now (cl_lastAccess x.2) ≤ rc_ClientTTL (lm_cfg l)) f) id = active f id ∨
  active (filter (λ x : string * clientLimits,
            time_sub now (cl_lastAccess x.2) ≤ rc_ClientTTL (lm_cfg l)) f) id = 0.
Proof.
  unfold active. destruct (f !! id) as [cl|] eqn:Hf.
  - destruct (decide (time_sub now (cl_lastAccess cl) ≤ rc_ClientTTL (lm_cfg l))).
    + left. by rewrite (map_lookup_filter_Some_2 _ _ _ cl).
    + right. rewrite (proj2 (map_lookup_filter_None _ _ _)); [done|]. right. intros x. by rewrite Hf; intros [= <-].
  - left. rewrite (proj2 (map_lookup_filter_None _ _ _)); [done|by left].
Qed.

Lemma limiter_exec_ok l f op :
  limiter_ok l f → counts_ok (rc_MaxSubscriptions (lm_cfg l)) f →
  in_i64 (rc_MaxSubscriptions (lm_cfg l)) →
  ∃ f', limiter_ok (fst (limiter_exec l op)) f' ∧ lm_cfg (fst (limiter_exec l op)) = lm_cfg l ∧
    counts_ok (rc_MaxSubscriptions (lm_cfg l)) f'.
Proof.
  intros H Hc Hmax. destruct (op_client op) as [id|] eqn:Hop.
  - destruct (limiter_exec_client l f op id H Hc Hmax Hop) as [(f' & Hok & Hcfg & Ho & Ha) Hcap].
    exists f'. split_and!; [done|done|]. intros id'. destruct (decide (id' = id)) as [->|Hne].
    + rewrite Ha. pose proof (Hc id). clear - Hcap H0. set (max := rc_MaxSubscriptions (lm_cfg l)) in *.
      destruct op; cbn [spec_count]; try lia.
      all: destruct (snd _) eqn:Hs; cbn [andb]; [|lia];
        destruct (Z.ltb_spec 0 max); [specialize (Hcap ltac:(lia) eq_refl)|]; lia.
    + unfold active. rewrite Ho by done. apply Hc.
  - destruct op; try done. cbn [limiter_exec fst]. eexists. split_and!; [by apply evictStale_ok|done|].
    intros id. pose proof (Hc id). destruct (evict_active l f now id) as [-> | ->]; lia.
Qed.

Definition limiter_run (l : Limiter) (ops : list limiter_op) : Limiter :=
  fold_left (λ l op, fst (limiter_exec l op)) ops l.

Lemma limiter_run_ok ops l f :
  limiter_ok l f → counts_ok (rc_MaxSubscriptions (lm_cfg l)) f →
  in_i64 (rc_MaxSubscriptions (lm_cfg l)) →
  ∃ f', limiter_ok (limiter_run l ops) f' ∧ lm_cfg (limiter_run l ops) = lm_cfg l ∧
    counts_ok (rc_MaxSubscriptions (lm_cfg l)) f'.
Proof.
  revert l f. induction ops as [|op ops IH]; intros l f H Hc Hmax; [by exists f|].
  destruct (limiter_exec_ok l f op H Hc Hmax) as (f1 & H1 & Hcfg1 & Hc1).
  change (limiter_run l (op :: ops)) with (limiter_run (fst (limiter_exec l op)) ops).
  destruct (IH (fst (limiter_exec l op)) f1 H1) as (f' & H' & Hcfg' & Hc'); [by rewrite Hcfg1..|].
  exists f'. rewrite Hcfg1 in *. by split_and!.
Qed.

(** The number of subscriptions the limiter holds for a client. *)
Definition sub_count (l : Limiter) (id : string) : Z :=
  default 0 (cl_activeSubs <$> get_client l id).

(** The subscription cap holds and clients do not interfere. After any calls, the
    count of every client is between zero and the cap; one more call about a
    client leaves the entries of all others alone and changes the count as
    specified: up by one when a subscription is granted, which happens below the
    cap only, down by one (not below zero) on a release. *)
Lemma limiter_caps_each_client cfg ops op id :
  in_i64 (rc_MaxSubscriptions cfg) → op_client op = Some id →
  let l := limiter_run (NewLimiter cfg) ops in
  let l' := fst (limiter_exec l op) in
  (∀ id', 0 ≤ sub_count l id' ≤ Z.max 0 (rc_MaxSubscriptions cfg)) ∧
  (∀ id', id' ≠ id → get_client l' id' = get_client l id') ∧
  sub_count l' id = spec_count (rc_MaxSubscriptions cfg) (sub_count l id) op (snd (limiter_exec l op)) ∧
  sub_count l' id ≤ Z.max 0 (rc_MaxSubscriptions cfg).
Proof.
  intros Hmax Hop l l'.
  destruct (limiter_run_ok ops (NewLimiter cfg) ∅ (NewLimiter_ok cfg)) as (f & H & Hcfg & Hc);
    [intros i; unfold active; rewrite lookup_empty; cbn; lia|done|]. fold l in H, Hcfg.
  cbn [lm_cfg NewLimiter] in Hcfg, Hc.
  destruct (limiter_exec_client l f op id H) as [(f' & H' & _ & Ho & Ha) _]; [by rewrite Hcfg..|done|].
  destruct (limiter_exec_ok l f op H) as (f2 & H2 & _ & Hc2); [by rewrite Hcfg..|].
  fold l' in H', H2. rewrite Hcfg in *.
  assert (Hs : ∀ l f id, limiter_ok l f → sub_count l id = active f id)
    by (intros ??? Hk; unfold sub_count, active; by rewrite (get_client_ok _ _ _ Hk)).
  split_and!.
  - intros id'. rewrite (Hs l f) by done. apply Hc.
  - intros id' Hne. rewrite (get_client_ok _ _ _ H'), (get_client_ok _ _ _ H). by apply Ho.
  - by rewrite (Hs l' f'), (Hs l f).
  - rewrite (Hs l' f2) by done. apply Hc2.
Qed.

Lemma getOrCreate_Some l id cl now : get_client l id = Some cl → getOrCreate l id now = cl.
Proof. intros H. unfold getOrCreate. by rewrite H. Qed.

Lemma get_put l f id cl : limiter_ok l f → get_client (put_client l id cl) id = Some cl.
Proof. intros H. rewrite (get_client_ok _ _ _ (put_client_ok l f id cl H)). apply lookup_insert_eq. Qed.

(** A subscription that the cap rejects costs nothing: the bucket is as after the
    refill (at whole seconds). *)
Lemma cap_rejection_refunds l f id cl s t0 horizon t :
  limiter_ok l f → get_client l id = Some cl → bucket_repr t0 horizon (cl_subscribe cl) s →
  0 ≤ horizon ≤ 2 ^ 33 → t0 ≤ t ≤ t0 + horizon →
  0 < rc_MaxSubscriptions (lm_cfg l) ≤ cl_activeSubs cl → 1 ≤ tb_tokens (tb_refill s t) →
  ∃ cl', snd (AllowAndSubscribe l id (t * Second)) = false ∧
    get_client (fst (AllowAndSubscribe l id (t * Second))) id = Some cl' ∧
    bucket_repr t0 horizon (cl_subscribe cl') (tb_refill s t) ∧ cl_activeSubs cl' = cl_activeSubs cl.
Proof.
  intros H Hcl Hr Hh Ht Hmax Htok. unfold AllowAndSubscribe.
  rewrite (proj2 (Z.leb_gt _ 0)), (getOrCreate_Some _ _ cl) by (lia || done). cbn [touch cl_subscribe].
  destruct (AllowN_repr t0 horizon (cl_subscribe cl) s 1 t Hr ltac:(lia) Ht ltac:(lia)) as [Hok Hrep].
  unfold Bucket_Allow. unfold tb_allowN in Hok, Hrep. rewrite (proj2 (Z.leb_le _ _)) in Hok, Hrep by lia.
  destruct (Bucket_AllowN _ 1 (t * Second)) as [b ok]. cbn [fst snd] in *. subst ok. cbn [negb touch cl_activeSubs].
  rewrite (proj2 (Z.leb_le (rc_MaxSubscriptions (lm_cfg l)) (cl_activeSubs cl))) by lia. cbn [fst snd].
  eexists. split_and!; [done|by eapply get_put| |done]. cbn [cl_subscribe set_subscribe].
  pose proof (refill_repr t0 horizon _ s t Hr ltac:(lia) Ht) as [_ _ _ _ Hrg _ _].
  pose proof (Refund_repr t0 horizon b _ 1 Hrep ltac:(lia)) as Hrf. cbn in Hrf.
  specialize (Hrf ltac:(lia)). replace (tb_tokens (tb_refill s t) - 1 + 1) with (tb_tokens (tb_refill s t)) in Hrf by lia.
  by destruct (tb_refill s t).
Qed.

(** Evicting an idle client forgets its subscriptions. A client that holds as
    many subscriptions as the cap allows is refused one more; once it has been
    idle for longer than the TTL and the evictor has run, it is granted one as if
    it had none. *)
Lemma eviction_forgets_subscriptions cfg ops id cl now :
  let l := limiter_run (NewLimiter cfg) ops in
  in_i64 (rc_MaxSubscriptions cfg) → get_client l id = Some cl →
  0 < rc_MaxSubscriptions cfg → cl_activeSubs cl = rc_MaxSubscriptions cfg →
  rc_ClientTTL cfg < time_sub now (cl_lastAccess cl) →
  snd (AllowSubscription l id now) = false ∧
  snd (AllowSubscription (evictStale l now) id now) = true ∧
  sub_count (fst (AllowSubscription (evictStale l now) id now)) id = 1.
Proof.
  intros l Hmax Hcl Hpos Hfull Hidle.
  destruct (limiter_run_ok ops (NewLimiter cfg) ∅ (NewLimiter_ok cfg)) as (f & H & Hcfg & Hc);
    [intros i; unfold active; rewrite lookup_empty; cbn; lia|done|]. fold l in H, Hcfg. cbn in Hcfg.
  pose proof (evictStale_ok l f now H) as He. rewrite (get_client_ok _ _ _ H) in Hcl.
  assert (Hgone : get_client (evictStale l now) id = None).
  { rewrite (get_client_ok _ _ _ He). apply map_lookup_filter_None. right. intros x. rewrite Hcl.
    intros [= <-]. cbn. rewrite Hcfg. lia. }
  assert (Hcfg' : lm_cfg (evictStale l now) = cfg) by done.
  unfold AllowSubscription. rewrite Hcfg, Hcfg', (proj2 (Z.leb_gt _ 0)) by lia. split_and!.
  - unfold getOrCreate. rewrite (get_client_ok _ _ _ H), Hcl. cbn. rewrite Hfull, Z.leb_refl. done.
  - unfold getOrCreate. rewrite Hgone. cbn. by rewrite (proj2 (Z.leb_gt _ 0)) by lia.
  - unfold getOrCreate. rewrite Hgone. cbn. rewrite (proj2 (Z.leb_gt _ 0)) by lia. cbn [fst].
    unfold sub_count. by rewrite (get_put _ _ _ _ He).
Qed.

(** ** Witnesses *)

Lemma bucket_refines_token_bucket_witness :
  bucket_run (NewBucket (f64_of_Z 2) 3 (100 * Second))
    [(1, 100); (1, 100); (1, 100); (1, 100); (2, 101); (1, 101); (4, 200)] =
  [true; true; true; false; true; false; false].
Proof.
  exact (bucket_refines_token_bucket 2 3 100 1000
    [(1, 100); (1, 100); (1, 100); (1, 100); (2, 101); (1, 101); (4, 200)]
    ltac:(lia) ltac:(lia) ltac:(lia) ltac:(lia) ltac:(repeat constructor; cbn; lia)).
Defined.


Definition small_cap : RlConfig :=
  mkRlConfig (mkRateLimit (f64_of_Z 10) 20) (mkRateLimit (f64_of_Z 50) 100)
    (mkRateLimit (f64_of_Z 20) 50) 2 (5 * Minute).

Lemma limiter_caps_each_client_witness :
  let l := limiter_run (NewLimiter small_cap) [LSubscription "a" 0; LAndSubscribe "a" 0; LSubscription "b" 0] in
  sub_count (fst (limiter_exec l (LSubscription "a" 1))) "a" = 2.
Proof.
  destruct (limiter_caps_each_client small_cap [LSubscription "a" 0; LAndSubscribe "a" 0; LSubscription "b" 0]
    (LSubscription "a" 1) "a" ltac:(unfold in_i64; cbn; lia) eq_refl) as (_ & _ & H & _).
  cbv zeta. etrans; [exact H|]. vm_compute. reflexivity.
Defined.

Lemma eviction_forgets_subscriptions_witness :
  let l := limiter_run (NewLimiter small_cap) [LSubscription "a" 0; LSubscription "a" 0] in
  snd (AllowSubscription (evictStale l (6 * Minute)) "a" (6 * Minute)) = true.
Proof.
  destruct (get_client (limiter_run (NewLimiter small_cap) [LSubscription "a" 0; LSubscription "a" 0]) "a")
    as [cl|] eqn:Hcl; [|vm_compute in Hcl; discriminate].
  assert (Ha : cl_activeSubs cl = 2 ∧ cl_lastAccess cl = 0)
    by (vm_compute in Hcl; injection Hcl as <-; split; reflexivity).
  destruct Ha as [Ha Hl].
  destruct (eviction_forgets_subscriptions small_cap [LSubscription "a" 0; LSubscription "a" 0] "a" cl
    (6 * Minute) ltac:(unfold in_i64; cbn; lia) Hcl ltac:(reflexivity) Ha
    ltac:(rewrite Hl; vm_compute; reflexivity)) as (_ & H & _). exact H.
Defined.
