(* ===== verification/OrderBook.v ===== *)
(** * OrderBook: price levels kept by binary search

    [internal/orderbook/models.go], [book.go] and [manager.go]: the two sides of a
    book as sorted arrays of at most 200 levels, increments with their sequence
    check, and the manager of the books of all symbols. Prices are float64 and
    compared with a tolerance; on prices of a tick grid, where the tolerance
    separates the ticks, a side is a finite map from ticks to quantities. The
    lock of a book makes each call one step; the asynchronous publication of an
    increment is the value that the call hands to the publisher. *)

From S2P Require Import Prelude Float64.

(** ** Data (models.go) *)

Inductive BookError := ErrSequenceGap | ErrOldSequence | ErrNotInitialized (symbol : string)
                     | ErrBookNotFound (symbol : string).

Record PriceLevel := mkLevel { pl_Price : float64; pl_Quantity : float64 }.

Definition BidSide : string := "bid".
Definition AskSide : string := "ask".
Definition ActionInsert : string := "insert".
Definition ActionUpdate : string := "update".
Definition ActionDelete : string := "delete".

Record LevelUpdate := mkUpdate {
  lu_Action : string;
  lu_Side : string;
  lu_Price : float64;
  lu_Size : float64;
}.

Record OrderBookIncrement := mkIncrement {
  inc_Symbol : string;
  inc_Sequence : Z;
  inc_Updates : list LevelUpdate;
  inc_Timestamp : Z;
}.

Record OrderBook := mkBook {
  ob_Symbol : string;
  ob_Sequence : Z;
  ob_Bids : list PriceLevel;
  ob_Asks : list PriceLevel;
  ob_Timestamp : Z;
}.

(** ** One side (book.go) *)

Definition MaxDepth : nat := 200.
(** 1e-8, rounded to the nearest float64. *)
Definition epsilon : float64 := f64_lit 6044629098073146 (-79).

Definition zero_level : PriceLevel := mkLevel f64_zero f64_zero.
Definition level (levels : list PriceLevel) (i : nat) : PriceLevel := default zero_level (levels !! i).

(** The insertion point. *)
Definition find_level (levels : list PriceLevel) (price : float64) (isBid : bool) : nat :=
  if isBid
  then sort_Search (length levels) (λ i, f64_leb (pl_Price (level levels i)) (f64_add price epsilon))
  else sort_Search (length levels) (λ i, f64_leb (f64_sub price epsilon) (pl_Price (level levels i))).

(** [copy(levels[idx+1:], levels[idx:len(levels)-1])]. *)
Definition shift_right (levels : list PriceLevel) (idx : nat) : list PriceLevel :=
  take (S idx) levels ++ take (length levels - 1 - idx) (drop idx levels).

Definition applyLevel (levels : list PriceLevel) (update : LevelUpdate) (isBid : bool)
    : outcome (list PriceLevel) :=
  let action := if bool_decide (lu_Action update = ActionUpdate) && f64_leb (lu_Size update) f64_zero
                then ActionDelete else lu_Action update in
  let idx := find_level levels (lu_Price update) isBid in
  let exists_ := (idx <? length levels)%nat &&
                 f64_ltb (SFabs (f64_sub (pl_Price (level levels idx)) (lu_Price update))) epsilon in
  if bool_decide (action = ActionInsert) || bool_decide (action = ActionUpdate) then
    if exists_ then
      Ret (<[idx := mkLevel (pl_Price (level levels idx)) (lu_Size update)]> levels)
    else
      let levels := if (length levels <? MaxDepth)%nat then levels ++ [zero_level] else levels in
      let levels := if (idx <? length levels - 1)%nat then shift_right levels idx else levels in
      if (idx <? length levels)%nat
      then Ret (<[idx := mkLevel (lu_Price update) (lu_Size update)]> levels)
      else Panic
  else if bool_decide (action = ActionDelete) then
    if exists_ then Ret (take idx levels ++ drop (S idx) levels) else Ret levels
  else Ret levels.

(** ** Increments *)

Fixpoint apply_updates (bids asks : list PriceLevel) (updates : list LevelUpdate)
    : outcome (list PriceLevel * list PriceLevel) :=
  match updates with
  | [] => Ret (bids, asks)
  | u :: updates =>
      if bool_decide (lu_Side u = BidSide) then
        match applyLevel bids u true with Ret bids => apply_updates bids asks updates | Panic => Panic end
      else if bool_decide (lu_Side u = AskSide) then
        match applyLevel asks u false with Ret asks => apply_updates bids asks updates | Panic => Panic end
      else apply_updates bids asks updates
  end.

Definition OrderBook_Apply (b : OrderBook) (inc : OrderBookIncrement)
    : outcome (OrderBook * option BookError) :=
  let apply :=
    match apply_updates (ob_Bids b) (ob_Asks b) (inc_Updates inc) with
    | Panic => Panic
    | Ret (bids, asks) =>
        Ret (mkBook (ob_Symbol b) (inc_Sequence inc) bids asks (inc_Timestamp inc), None)
    end in
  if ob_Sequence b =? 0 then apply
  else if inc_Sequence inc <=? ob_Sequence b then Ret (b, Some ErrOldSequence)
  else if negb (inc_Sequence inc =? i64 (ob_Sequence b + 1)) then Ret (b, Some ErrSequenceGap)
  else apply.

(** ** The manager (manager.go)

    [sync.Map] and the wrappers: each symbol's book, replaced under its lock. *)

Definition BookManager : Type := gmap string OrderBook.

Definition NewBookManager : BookManager := ∅.

Definition InitBook (m : BookManager) (snapshot : OrderBook) : BookManager :=
  let b := default (mkBook (ob_Symbol snapshot) 0 [] [] zero_time) (m !! ob_Symbol snapshot) in
  <[ob_Symbol snapshot := mkBook (ob_Symbol b) (ob_Sequence snapshot) (ob_Bids snapshot)
                            (ob_Asks snapshot) (ob_Timestamp snapshot)]> m.

(** The third component is the increment handed to the publisher. *)
Definition ApplyIncrement (m : BookManager) (inc : OrderBookIncrement)
    : outcome (BookManager * option BookError * option OrderBookIncrement) :=
  match m !! inc_Symbol inc with
  | None => Ret (m, Some (ErrNotInitialized (inc_Symbol inc)), None)
  | Some b =>
      match OrderBook_Apply b inc with
      | Panic => Panic
      | Ret (b, Some e) => Ret (<[inc_Symbol inc := b]> m, Some e, None)
      | Ret (b, None) => Ret (<[inc_Symbol inc := b]> m, None, Some inc)
      end
  end.

Definition GetSnapshot (m : BookManager) (symbol : string) : result OrderBook BookError :=
  match m !! symbol with
  | None => Err (ErrBookNotFound symbol)
  | Some b => Ok (mkBook (ob_Symbol b) (ob_Sequence b) (ob_Bids b) (ob_Asks b) (ob_Timestamp b))
  end.

(** ** Calls of the manager *)

Inductive book_call := CInit (snapshot : OrderBook) | CApply (inc : OrderBookIncrement).

Definition run_book (m : BookManager) (c : book_call) : outcome BookManager :=
  match c with
  | CInit snapshot => Ret (InitBook m snapshot)
  | CApply inc => match ApplyIncrement m inc with Panic => Panic | Ret (m, _, _) => Ret m end
  end.

Fixpoint run_books (m : BookManager) (calls : list book_call) : outcome BookManager :=
  match calls with
  | [] => Ret m
  | c :: calls => match run_book m c with Panic => Panic | Ret m => run_books m calls end
  end.

Lemma run_books_app m calls1 calls2 :
  run_books m (calls1 ++ calls2) = match run_books m calls1 with Panic => Panic | Ret m => run_books m calls2 end.
Proof. revert m. induction calls1 as [|c calls1 IH]; intros m; [done|]. cbn. by destruct (run_book m c). Qed.

(** ** Prices on a tick grid

    [price k] is the float of tick [k]. The comparisons of the code decide the
    order of ticks between [lo] and [hi]. *)

Section grid.
Context (price : Z → float64) (lo hi : Z).

Record tick_grid : Prop := {
  tg_bid : ∀ i j, lo ≤ i ≤ hi → lo ≤ j ≤ hi →
    f64_leb (price i) (f64_add (price j) epsilon) = (i <=? j);
  tg_ask : ∀ i j, lo ≤ i ≤ hi → lo ≤ j ≤ hi →
    f64_leb (f64_sub (price j) epsilon) (price i) = (j <=? i);
  tg_same : ∀ i j, lo ≤ i ≤ hi → lo ≤ j ≤ hi →
    f64_ltb (SFabs (f64_sub (price i) (price j))) epsilon = (i =? j);
}.

Hypothesis grid : tick_grid.

(** Bids are kept from the highest, asks from the lowest. *)
Definition before (isBid : bool) (i j : Z) : bool := if isBid then j <? i else i <? j.

Definition levels_of (l : list (Z * float64)) : list PriceLevel :=
  (λ kq : Z * float64, mkLevel (price kq.1) kq.2) <$> l.

Record side_ok (isBid : bool) (l : list (Z * float64)) : Prop := {
  sd_sorted : StronglySorted (λ a b : Z * float64, before isBid a.1 b.1 = true) l;
  sd_range : Forall (λ kq : Z * float64, lo ≤ kq.1 ≤ hi) l;
}.

Lemma level_of l i kq : l !! i = Some kq → level (levels_of l) i = mkLevel (price kq.1) kq.2.
Proof. intros H. unfold level, levels_of. by rewrite list_lookup_fmap, H. Qed.

Lemma side_ok_nil isBid : side_ok isBid [].
Proof. split; constructor. Qed.

Lemma before_irrefl isBid i : before isBid i i = false.
Proof. destruct isBid; cbn; apply Z.ltb_irrefl. Qed.

Lemma before_trans isBid i j k :
  before isBid i j = true → before isBid j k = true → before isBid i k = true.
Proof. destruct isBid; cbn; rewrite !Z.ltb_lt; lia. Qed.

Lemma before_total isBid i j : before isBid i j = false → j = i ∨ before isBid j i = true.
Proof. destruct isBid; cbn; rewrite Z.ltb_ge, Z.ltb_lt; lia. Qed.

Lemma side_ok_NoDup isBid l : side_ok isBid l → NoDup l.*1.
Proof.
  intros [Hs _]. induction Hs as [|a l Hs IH Ha]; cbn; constructor; [|done].
  intros (b & Hb & Hin)%list_elem_of_fmap. rewrite Forall_forall in Ha.
  specialize (Ha b Hin). by rewrite Hb, before_irrefl in Ha.
Qed.

(** The levels that come before tick [k] are a prefix. *)
Lemma side_split isBid l k :
  side_ok isBid l → ∃ l1 l2, l = l1 ++ l2 ∧
    Forall (λ a, before isBid a.1 k = true) l1 ∧ Forall (λ a, before isBid a.1 k = false) l2.
Proof.
  intros [Hs _]. induction Hs as [|a l Hs IH Ha].
  { by exists [], []. }
  destruct (before isBid a.1 k) eqn:Hak.
  - destruct IH as (l1 & l2 & -> & H1 & H2). exists (a :: l1), l2. repeat split; [by constructor|done].
  - exists [], (a :: l). repeat split; [constructor|]. constructor; [done|].
    eapply Forall_impl; [exact Ha|]. intros b Hab. apply not_true_iff_false. intros Hbk.
    rewrite (before_trans isBid a.1 b.1 k) in Hak; done.
Qed.

(** The comparison of the search, on ticks. *)
Lemma find_level_ticks isBid l k :
  Forall (λ kq : Z * float64, lo ≤ kq.1 ≤ hi) l → lo ≤ k ≤ hi →
  find_level (levels_of l) (price k) isBid =
  sort_Search (length l) (λ i, negb (before isBid (default (0, f64_zero) (l !! i)).1 k)).
Proof.
  intros Hr Hk. unfold find_level. unfold levels_of at 1 3. rewrite length_fmap.
  destruct isBid; apply sort_Search_ext; intros i Hi;
    destruct (lookup_lt_is_Some_2 l i Hi) as [a Ha]; rewrite (level_of l i a Ha), Ha; cbn;
    assert (lo ≤ a.1 ≤ hi) by (by eapply (Forall_lookup_1 _ _ _ _ Hr)).
  - rewrite (tg_bid grid) by done. apply eq_bool_prop_intro. rewrite !Is_true_true, negb_true_iff, Z.leb_le, Z.ltb_ge. lia.
  - rewrite (tg_ask grid) by done. apply eq_bool_prop_intro. rewrite !Is_true_true, negb_true_iff, Z.leb_le, Z.ltb_ge. lia.
Qed.

Lemma find_level_split isBid l1 l2 k :
  side_ok isBid (l1 ++ l2) → lo ≤ k ≤ hi →
  Forall (λ a, before isBid a.1 k = true) l1 → Forall (λ a, before isBid a.1 k = false) l2 →
  find_level (levels_of (l1 ++ l2)) (price k) isBid = length l1.
Proof.
  intros [_ Hr] Hk H1 H2. rewrite find_level_ticks by done. apply sort_Search_split.
  - rewrite length_app. lia.
  - intros i Hi. destruct (lookup_lt_is_Some_2 l1 i Hi) as [a Ha].
    rewrite lookup_app_l, Ha by done. cbn. by rewrite (Forall_lookup_1 _ _ _ _ H1 Ha).
  - intros i Hi. rewrite length_app in Hi.
    destruct (lookup_lt_is_Some_2 l2 (i - length l1)) as [a Ha]; [lia|].
    rewrite lookup_app_r, Ha by lia. cbn. by rewrite (Forall_lookup_1 _ _ _ _ H2 Ha).
Qed.

(** *** The insertion, as a list *)

Lemma shift_insert (L : list PriceLevel) idx x :
  (idx < length L)%nat →
  <[idx := x]> (if (idx <? length L - 1)%nat then shift_right L idx else L) =
  take idx L ++ x :: take (length L - 1 - idx) (drop idx L).
Proof.
  intros Hi. destruct (Nat.ltb_spec idx (length L - 1)) as [Hlt|Hge].
  - unfold shift_right. rewrite insert_app_l by (rewrite length_take; lia).
    rewrite insert_take_drop by (rewrite length_take; lia).
    rewrite take_take, drop_ge by (rewrite length_take; lia).
    rewrite Nat.min_l by lia. by rewrite <- app_assoc.
  - replace (length L - 1 - idx)%nat with 0%nat by lia.
    rewrite insert_take_drop, take_0 by done. by rewrite (drop_ge L (S idx)) by lia.
Qed.

Lemma length_shift (L : list PriceLevel) idx :
  (idx < length L)%nat → length (if (idx <? length L - 1)%nat then shift_right L idx else L) = length L.
Proof.
  intros Hi. destruct (Nat.ltb_spec idx (length L - 1)); [|done].
  unfold shift_right. rewrite length_app, !length_take, length_drop. lia.
Qed.

Lemma insert_new (L : list PriceLevel) idx x :
  (idx ≤ length L)%nat →
  (let levels := if (length L <? MaxDepth)%nat then L ++ [zero_level] else L in
   let levels := if (idx <? length levels - 1)%nat then shift_right levels idx else levels in
   if (idx <? length levels)%nat then Ret (<[idx := x]> levels) else Panic) =
  if (length L <? MaxDepth)%nat then Ret (take idx L ++ x :: drop idx L)
  else if (idx <? length L)%nat then Ret (take idx L ++ x :: take (length L - 1 - idx) (drop idx L))
  else Panic.
Proof.
  intros Hi. cbv zeta. destruct (length L <? MaxDepth)%nat.
  - assert (Hl : (idx < length (L ++ [zero_level]))%nat) by (rewrite length_app; cbn; lia).
    rewrite length_shift, shift_insert, (proj2 (Nat.ltb_lt _ _)) by done. do 2 f_equal.
    + by rewrite take_app_le.
    + f_equal. rewrite drop_app_le by done. apply take_app_length'.
      rewrite length_drop, length_app. cbn. lia.
  - destruct (Nat.ltb_spec idx (length L)) as [Hl|Hl].
    + by rewrite length_shift, shift_insert, (proj2 (Nat.ltb_lt _ _)) by done.
    + rewrite (proj2 (Nat.ltb_ge idx (length L - 1))) by lia. by rewrite (proj2 (Nat.ltb_ge _ _)) by done.
Qed.

Lemma levels_of_app l1 l2 : levels_of (l1 ++ l2) = levels_of l1 ++ levels_of l2.
Proof. apply fmap_app. Qed.

Lemma levels_of_length l : length (levels_of l) = length l.
Proof. apply length_fmap. Qed.

Lemma head_is_tick l1 l2 k :
  Forall (λ kq : Z * float64, lo ≤ kq.1 ≤ hi) (l1 ++ l2) → lo ≤ k ≤ hi →
  (length l1 <? length (levels_of (l1 ++ l2)))%nat &&
  f64_ltb (SFabs (f64_sub (pl_Price (level (levels_of (l1 ++ l2)) (length l1))) (price k))) epsilon =
  match l2 with [] => false | a :: _ => a.1 =? k end.
Proof.
  intros Hr Hk. rewrite levels_of_length, length_app. destruct l2 as [|a l2].
  - by rewrite (proj2 (Nat.ltb_ge _ _)) by (cbn; lia).
  - rewrite (proj2 (Nat.ltb_lt _ _)) by (cbn; lia).
    rewrite (level_of _ _ a) by (rewrite lookup_app_r, Nat.sub_diag by lia; done).
    cbn. apply (tg_same grid); [|done]. apply Forall_app in Hr as [_ Hr]. by inversion Hr.
Qed.

(** The levels of a side after an update, for the split of its levels at the
    tick of the update. *)
Definition updated_side (l1 l2 : list (Z * float64)) (k : Z) (u : LevelUpdate)
    : outcome (list (Z * float64)) :=
  let action := if bool_decide (lu_Action u = ActionUpdate) && f64_leb (lu_Size u) f64_zero
                then ActionDelete else lu_Action u in
  let here := match l2 with [] => false | a :: _ => a.1 =? k end in
  if bool_decide (action = ActionInsert) || bool_decide (action = ActionUpdate) then
    if here then Ret (l1 ++ (k, lu_Size u) :: tail l2)
    else if (length (l1 ++ l2) <? MaxDepth)%nat then Ret (l1 ++ (k, lu_Size u) :: l2)
    else match l2 with
         | [] => Panic
         | _ => Ret (l1 ++ (k, lu_Size u) :: take (length l2 - 1) l2)
         end
  else if bool_decide (action = ActionDelete) then
    if here then Ret (l1 ++ tail l2) else Ret (l1 ++ l2)
  else Ret (l1 ++ l2).

Lemma applyLevel_split isBid l1 l2 k u :
  side_ok isBid (l1 ++ l2) → lo ≤ k ≤ hi → lu_Price u = price k →
  Forall (λ a, before isBid a.1 k = true) l1 → Forall (λ a, before isBid a.1 k = false) l2 →
  applyLevel (levels_of (l1 ++ l2)) u isBid =
  match updated_side l1 l2 k u with Ret l => Ret (levels_of l) | Panic => Panic end.
Proof.
  intros Hok Hk Hp H1 H2. pose proof (sd_range _ _ Hok) as Hr. unfold applyLevel, updated_side.
  set (action := if bool_decide (lu_Action u = ActionUpdate) && _ then _ else _).
  rewrite Hp, (find_level_split isBid l1 l2 k) by done. rewrite head_is_tick by done.
  rewrite levels_of_app. set (L1 := levels_of l1). set (L2 := levels_of l2).
  assert (HL1 : length l1 = length L1) by (symmetry; apply levels_of_length).
  assert (HL2 : length l2 = length L2) by (symmetry; apply levels_of_length).
  destruct (bool_decide (action = ActionInsert) || bool_decide (action = ActionUpdate)).
  - destruct (match l2 with [] => false | a :: _ => a.1 =? k end) eqn:Hhere.
    + destruct l2 as [|a l2]; [done|]. apply Z.eqb_eq in Hhere. subst k. cbn [tail].
      rewrite levels_of_app. f_equal. rewrite HL1, insert_app_r_alt, Nat.sub_diag by lia.
      unfold L2. cbn. do 2 f_equal. f_equal. unfold level. by rewrite lookup_app_r, Nat.sub_diag by lia.
    + rewrite insert_new by (rewrite length_app; lia). rewrite length_app, <- HL1, <- HL2, <- length_app.
      rewrite HL1, take_app_length, drop_app_length. destruct (length (l1 ++ l2) <? MaxDepth)%nat.
      * by rewrite levels_of_app.
      * rewrite <- HL1, length_app. destruct l2 as [|a l2].
        { by rewrite (proj2 (Nat.ltb_ge _ _)) by (cbn; lia). }
        rewrite (proj2 (Nat.ltb_lt _ _)) by (cbn; lia). rewrite levels_of_app. do 2 f_equal.
        unfold L2, levels_of. rewrite (fmap_cons _ (k, _)), fmap_take. f_equal. f_equal. cbn. lia.
  - destruct (bool_decide (action = ActionDelete)); [|by rewrite levels_of_app].
    destruct l2 as [|a l2]; [by rewrite levels_of_app|]. destruct (a.1 =? k); [|by rewrite levels_of_app].
    rewrite HL1, take_app_length, levels_of_app. do 2 f_equal.
    rewrite drop_app_ge by lia. by replace (S (length L1) - length L1)%nat with 1%nat by lia.
Qed.

(** *** The side as a finite map *)

Definition side_map (l : list (Z * float64)) : gmap Z float64 := list_to_map l.

Lemma side_map_mid l1 k q l2 :
  NoDup (l1 ++ (k, q) :: l2).*1 →
  side_map (l1 ++ (k, q) :: l2) = <[k := q]> (side_map (l1 ++ l2)) ∧ side_map (l1 ++ l2) !! k = None.
Proof.
  intros Hnd. pose proof (Permutation_middle l1 l2 (k, q)) as Hp.
  assert (Hnd' : NoDup ((k, q) :: l1 ++ l2).*1) by (by rewrite Hp). split.
  - unfold side_map. rewrite <- list_to_map_cons. by apply list_to_map_proper.
  - cbn in Hnd'. apply NoDup_cons in Hnd' as [Hk _]. by apply not_elem_of_list_to_map_1.
Qed.

Lemma side_map_size l : NoDup l.*1 → size (side_map l) = length l.
Proof. apply map_size_list_to_map. Qed.

(** What an update does to the map: [Panic] is the index out of range. *)
Inductive side_set (isBid : bool) (m : gmap Z float64) (k : Z) (q : float64) : outcome (gmap Z float64) → Prop :=
| set_fits : is_Some (m !! k) ∨ (size m < MaxDepth)%nat → side_set isBid m k q (Ret (<[k := q]> m))
| set_evicts w : m !! k = None → size m = MaxDepth → is_Some (m !! w) →
    (∀ i, is_Some (m !! i) → i = w ∨ before isBid i w = true) → before isBid k w = true →
    side_set isBid m k q (Ret (<[k := q]> (delete w m)))
| set_overflows : size m = MaxDepth →
    (∀ i, is_Some (m !! i) → before isBid i k = true) → side_set isBid m k q Panic.

Definition side_update (isBid : bool) (m : gmap Z float64) (k : Z) (u : LevelUpdate)
    (r : outcome (gmap Z float64)) : Prop :=
  if bool_decide (lu_Action u = ActionDelete) ||
     (bool_decide (lu_Action u = ActionUpdate) && f64_leb (lu_Size u) f64_zero)
  then r = Ret (delete k m)
  else if bool_decide (lu_Action u = ActionInsert) || bool_decide (lu_Action u = ActionUpdate)
  then side_set isBid m k (lu_Size u) r
  else r = Ret m.

Lemma side_ok_put isBid l1 l2 k q :
  side_ok isBid (l1 ++ l2) → lo ≤ k ≤ hi →
  Forall (λ a, before isBid a.1 k = true) l1 → Forall (λ a, before isBid k a.1 = true) l2 →
  side_ok isBid (l1 ++ (k, q) :: l2).
Proof.
  intros [(H12 & Hs1 & Hs2)%StronglySorted_app [Hr1 Hr2]%Forall_app] Hk H1 H2. split.
  - apply StronglySorted_app. split_and!; [|done|by constructor].
    rewrite Forall_forall in H1. intros a b Ha [->|Hb]%elem_of_cons; [by apply H1|by apply H12].
  - apply Forall_app. split; [done|]. by constructor.
Qed.

Lemma Forall_sublist {A} (P : A → Prop) l l' : l' `sublist_of` l → Forall P l → Forall P l'.
Proof. induction 1; intros HP; inversion HP; subst; auto. Qed.

Lemma side_ok_sublist isBid l l' : l' `sublist_of` l → side_ok isBid l → side_ok isBid l'.
Proof.
  intros Hs [Hso Hr]. split; [|by eapply Forall_sublist].
  revert l' Hs. induction Hso as [|a l Hso IH Ha]; intros l' Hs.
  { apply sublist_nil_r in Hs as ->. constructor. }
  inversion Hs as [|? ? ? Hs'|? ? ? Hs']; subst.
  - inversion Hr; subst. constructor; [by apply IH|by eapply Forall_sublist].
  - inversion Hr; subst. by apply IH.
Qed.

(** What the split says about the levels from tick [k] on. *)
Lemma rest_after isBid l1 l2 k :
  side_ok isBid (l1 ++ l2) → Forall (λ a, before isBid a.1 k = false) l2 →
  match l2 with [] => false | a :: _ => a.1 =? k end = false →
  Forall (λ a, before isBid k a.1 = true) l2.
Proof.
  intros [(_ & _ & Hs)%StronglySorted_app _] H2 Hk. destruct l2 as [|a l2]; [done|].
  inversion H2 as [|? ? Ha _]; inversion Hs as [|? ? _ Hal]; subst. apply Z.eqb_neq in Hk.
  assert (Hka : before isBid k a.1 = true) by (destruct (before_total _ _ _ Ha) as [->|]; done).
  constructor; [done|]. eapply Forall_impl; [exact Hal|]. intros b Hb. by apply (before_trans isBid _ a.1).
Qed.

Lemma rest_here isBid l1 a l2 :
  side_ok isBid (l1 ++ a :: l2) → Forall (λ b, before isBid a.1 b.1 = true) l2.
Proof. intros [(_ & _ & Hs)%StronglySorted_app _]. by inversion Hs. Qed.

Section split.
Context (isBid : bool) (l1 l2 : list (Z * float64)) (k : Z).
Context (Hok : side_ok isBid (l1 ++ l2)) (Hlen : (length (l1 ++ l2) ≤ MaxDepth)%nat) (Hk : lo ≤ k ≤ hi).
Context (H1 : Forall (λ a, before isBid a.1 k = true) l1) (H2 : Forall (λ a, before isBid a.1 k = false) l2).

Lemma updated_side_ok u l : updated_side l1 l2 k u = Ret l → side_ok isBid l ∧ (length l ≤ MaxDepth)%nat.
Proof.
  unfold updated_side. set (action := if bool_decide (lu_Action u = ActionUpdate) && _ then _ else _). rewrite length_app in *.
  assert (Hdel : ∀ a l2', l2 = a :: l2' → side_ok isBid (l1 ++ l2')).
  { intros a l2' ->. eapply side_ok_sublist; [|exact Hok]. apply sublist_app; [done|]. by constructor. }
  destruct (bool_decide (action = ActionInsert) || bool_decide (action = ActionUpdate)).
  - destruct (match l2 with [] => false | a :: _ => a.1 =? k end) eqn:Hhere.
    + destruct l2 as [|a l2']; [done|]. apply Z.eqb_eq in Hhere. intros [= <-].
      pose proof (rest_here _ _ _ _ Hok) as Hr. rewrite Hhere in Hr.
      rewrite length_app in *. cbn in *. split; [|lia]. apply side_ok_put; try done. by eapply Hdel.
    + pose proof (rest_after _ _ _ _ Hok H2 Hhere) as Hr.
      destruct (Nat.ltb_spec (length l1 + length l2) MaxDepth) as [Hd|Hd].
      * intros [= <-]. rewrite length_app. cbn. split; [|lia]. by apply side_ok_put.
      * destruct l2 as [|a l2'] eqn:E; [done|]. rewrite <- E in *. intros [= <-].
        rewrite length_app. cbn. rewrite length_take. split; [|rewrite E in *; cbn in *; lia].
        assert (take (length l2 - 1) l2 `sublist_of` l2) as Hs by apply sublist_take.
        apply side_ok_put; try done.
        -- eapply side_ok_sublist; [|exact Hok]. by apply sublist_app.
        -- by eapply Forall_sublist.
  - destruct (bool_decide (action = ActionDelete)).
    2:{ intros [= <-]. rewrite length_app. done. }
    destruct l2 as [|a l2']; [intros [= <-]; rewrite length_app; done|].
    destruct (a.1 =? k); intros [= <-]; rewrite length_app; cbn in *; (split; [|lia]); [by eapply Hdel|done].
Qed.

Lemma side_map_Some l i : is_Some (side_map l !! i) → ∃ q, (i, q) ∈ l.
Proof. intros [q Hq]. exists q. by apply elem_of_list_to_map_2. Qed.

Lemma absent_tick :
  match l2 with [] => false | a :: _ => a.1 =? k end = false → side_map (l1 ++ l2) !! k = None.
Proof.
  intros Hhere. pose proof (rest_after _ _ _ _ Hok H2 Hhere) as Hr. apply eq_None_not_Some.
  intros [q Hq]%side_map_Some. rewrite Forall_forall in H1, Hr.
  apply elem_of_app in Hq as [Hq|Hq]; [specialize (H1 _ Hq)|specialize (Hr _ Hq)];
    cbn in *; by rewrite before_irrefl in *.
Qed.

Lemma updated_side_set q :
  side_set isBid (side_map (l1 ++ l2)) k q
    (match
       (if match l2 with [] => false | a :: _ => a.1 =? k end then Ret (l1 ++ (k, q) :: tail l2)
        else if (length (l1 ++ l2) <? MaxDepth)%nat then Ret (l1 ++ (k, q) :: l2)
        else match l2 with [] => Panic | _ => Ret (l1 ++ (k, q) :: take (length l2 - 1) l2) end)
     with Ret l => Ret (side_map l) | Panic => Panic end).
Proof.
  pose proof (side_ok_NoDup _ _ Hok) as Hnd. pose proof (side_map_size _ Hnd) as Hsz.
  assert (Hput : ∀ l', l' `sublist_of` l2 → Forall (λ a, before isBid k a.1 = true) l' →
    side_map (l1 ++ (k, q) :: l') = <[k := q]> (side_map (l1 ++ l'))).
  { intros l' Hs Hl'. apply side_map_mid, (side_ok_NoDup isBid), side_ok_put; try done.
    eapply side_ok_sublist; [|exact Hok]. by apply sublist_app. }
  destruct (match l2 with [] => false | a :: _ => a.1 =? k end) eqn:Hhere.
  - destruct l2 as [|[k' q'] l2']; [done|]. apply Z.eqb_eq in Hhere. cbn in Hhere. subst k'. cbn [tail].
    rewrite Hput; [|by constructor|by apply (rest_here _ _ _ _ Hok)].
    destruct (side_map_mid _ _ _ _ Hnd) as [Hm _].
    replace (<[k := q]> (side_map (l1 ++ l2'))) with (<[k := q]> (side_map (l1 ++ (k, q') :: l2')))
      by (by rewrite Hm, insert_insert_eq).
    constructor. left. rewrite Hm, lookup_insert_eq. by eexists.
  - pose proof (rest_after _ _ _ _ Hok H2 Hhere) as Hr. pose proof (absent_tick Hhere) as Hno.
    destruct (Nat.ltb_spec (length (l1 ++ l2)) MaxDepth) as [Hd|Hd].
    { rewrite Hput by done. constructor. right. lia. }
    destruct l2 as [|a l2'] eqn:E.
    + constructor; [lia|]. intros i [q' Hq']%side_map_Some. rewrite app_nil_r in Hq'.
      rewrite Forall_forall in H1. apply (H1 _ Hq').
    + rewrite <- E in *. destruct (exists_last (l := l2)) as (l2'' & [w qw] & El); [by rewrite E|].
      rewrite El in *. clear E a l2' Hhere. rewrite length_app, Nat.add_sub, take_app_length.
      rewrite Forall_app in Hr. destruct Hr as [Hr Hw]. inversion Hw as [|? ? Hw' _]; subst.
      rewrite Hput; [|by apply sublist_inserts_r|done].
      rewrite app_assoc in Hnd, Hok, Hsz, Hd, Hno, Hlen |- *.
      destruct (side_map_mid _ _ _ _ Hnd) as [Hm Hno']. rewrite app_nil_r in Hm, Hno'.
      replace (side_map (l1 ++ l2'')) with (delete w (side_map ((l1 ++ l2'') ++ [(w, qw)])))
        by (rewrite Hm, delete_insert_id; done).
      apply set_evicts; [done|lia| | |done].
      * rewrite Hm, lookup_insert_eq. by eexists.
      * intros i [q' [Hq'|Hq']%elem_of_app]%side_map_Some.
        -- right. destruct Hok as [(Hlt & _ & _)%StronglySorted_app _].
           apply (Hlt (i, q') (w, qw)); [done|by left].
        -- apply list_elem_of_singleton in Hq'. left. congruence.
Qed.

Lemma updated_side_map u :
  side_update isBid (side_map (l1 ++ l2)) k u
    (match updated_side l1 l2 k u with Ret l => Ret (side_map l) | Panic => Panic end).
Proof.
  pose proof (side_ok_NoDup _ _ Hok) as Hnd.
  assert (Hdel : (match (if match l2 with [] => false | a :: _ => a.1 =? k end
      then Ret (l1 ++ tail l2) else Ret (l1 ++ l2)) with Ret l => Ret (side_map l) | Panic => Panic end)
      = Ret (delete k (side_map (l1 ++ l2)))).
  { destruct (match l2 with [] => false | a :: _ => a.1 =? k end) eqn:Hhere.
    - destruct l2 as [|[k' q'] l2']; [done|]. apply Z.eqb_eq in Hhere. cbn in Hhere. subst k'. cbn [tail].
      destruct (side_map_mid _ _ _ _ Hnd) as [Hm Hno]. by rewrite Hm, delete_insert_id.
    - by rewrite delete_id by (by apply absent_tick). }
  unfold updated_side, side_update. destruct (decide (lu_Action u = ActionDelete)) as [Ha|Ha].
  { rewrite Ha. exact Hdel. }
  rewrite (bool_decide_eq_false_2 _ Ha). destruct (decide (lu_Action u = ActionUpdate)) as [Hu|Hu].
  - rewrite Hu. destruct (f64_leb (lu_Size u) f64_zero); [exact Hdel|apply updated_side_set].
  - rewrite (bool_decide_eq_false_2 _ Hu). cbn [andb orb]. rewrite (bool_decide_eq_false_2 _ Ha).
    rewrite (bool_decide_eq_false_2 _ Hu).
    destruct (bool_decide (lu_Action u = ActionInsert)); [apply updated_side_set|done].
Qed.
End split.

(** ** One update of a side *)
Lemma applyLevel_refines isBid l k u :
  side_ok isBid l → (length l ≤ MaxDepth)%nat → lo ≤ k ≤ hi → lu_Price u = price k →
  ∃ r, applyLevel (levels_of l) u isBid = (match r with Ret l => Ret (levels_of l) | Panic => Panic end) ∧
    side_update isBid (side_map l) k u (match r with Ret l => Ret (side_map l) | Panic => Panic end) ∧
    (∀ l', r = Ret l' → side_ok isBid l' ∧ (length l' ≤ MaxDepth)%nat).
Proof.
  intros Hok Hlen Hk Hp. destruct (side_split isBid l k Hok) as (l1 & l2 & -> & H1 & H2).
  exists (updated_side l1 l2 k u). split_and!.
  - by apply applyLevel_split.
  - by apply updated_side_map.
  - intros l'. by apply (updated_side_ok isBid).
Qed.

(** ** An increment *)

(** The book whose sides hold the levels [lb] and [la]. *)
Record book_rep (b : OrderBook) (lb la : list (Z * float64)) : Prop := {
  br_bids : ob_Bids b = levels_of lb;
  br_asks : ob_Asks b = levels_of la;
  br_bids_ok : side_ok true lb ∧ (length lb ≤ MaxDepth)%nat;
  br_asks_ok : side_ok false la ∧ (length la ≤ MaxDepth)%nat;
}.

(** The updates of an increment, each with its tick, on the two maps. *)
Inductive book_updates (mb ma : gmap Z float64)
    : list (Z * LevelUpdate) → outcome (gmap Z float64 * gmap Z float64) → Prop :=
| bu_done : book_updates mb ma [] (Ret (mb, ma))
| bu_bid k u us mb' r : lu_Side u = BidSide → side_update true mb k u (Ret mb') →
    book_updates mb' ma us r → book_updates mb ma ((k, u) :: us) r
| bu_ask k u us ma' r : lu_Side u = AskSide → side_update false ma k u (Ret ma') →
    book_updates mb ma' us r → book_updates mb ma ((k, u) :: us) r
| bu_bid_panic k u us : lu_Side u = BidSide → side_update true mb k u Panic →
    book_updates mb ma ((k, u) :: us) Panic
| bu_ask_panic k u us : lu_Side u = AskSide → side_update false ma k u Panic →
    book_updates mb ma ((k, u) :: us) Panic
| bu_other k u us r : lu_Side u ≠ BidSide → lu_Side u ≠ AskSide →
    book_updates mb ma us r → book_updates mb ma ((k, u) :: us) r.

Lemma apply_updates_refines lb la us :
  side_ok true lb ∧ (length lb ≤ MaxDepth)%nat → side_ok false la ∧ (length la ≤ MaxDepth)%nat →
  Forall (λ ku : Z * LevelUpdate, lo ≤ ku.1 ≤ hi ∧ lu_Price ku.2 = price ku.1) us →
  ∃ r, book_updates (side_map lb) (side_map la) us r ∧
    match r with
    | Panic => apply_updates (levels_of lb) (levels_of la) us.*2 = Panic
    | Ret (mb, ma) => ∃ lb' la', mb = side_map lb' ∧ ma = side_map la' ∧
        (side_ok true lb' ∧ (length lb' ≤ MaxDepth)%nat) ∧ (side_ok false la' ∧ (length la' ≤ MaxDepth)%nat) ∧
        apply_updates (levels_of lb) (levels_of la) us.*2 = Ret (levels_of lb', levels_of la')
    end.
Proof.
  intros Hb Ha Hus. revert lb la Hb Ha. induction Hus as [|[k u] us [Hk Hp] _ IH]; intros lb la Hb Ha.
  { exists (Ret (side_map lb, side_map la)). split; [constructor|]. by exists lb, la. }
  cbn [fst snd fmap list_fmap apply_updates] in *. destruct (decide (lu_Side u = BidSide)) as [Hs|Hs].
  { rewrite (bool_decide_eq_true_2 _ Hs).
    destruct (applyLevel_refines true lb k u) as ([lb'|] & He & Hu & Hok); [apply Hb|apply Hb|done|done| |].
    - destruct (IH lb' la (Hok _ eq_refl) Ha) as (r & Hr & Hm). exists r. rewrite He.
      split; [by eapply bu_bid|done].
    - exists Panic. rewrite He. split; [by eapply bu_bid_panic|done]. }
  rewrite (bool_decide_eq_false_2 _ Hs). destruct (decide (lu_Side u = AskSide)) as [Hs'|Hs'].
  { rewrite (bool_decide_eq_true_2 _ Hs').
    destruct (applyLevel_refines false la k u) as ([la'|] & He & Hu & Hok); [apply Ha|apply Ha|done|done| |].
    - destruct (IH lb la' Hb (Hok _ eq_refl)) as (r & Hr & Hm). exists r. rewrite He.
      split; [by eapply bu_ask|done].
    - exists Panic. rewrite He. split; [by eapply bu_ask_panic|done]. }
  rewrite (bool_decide_eq_false_2 _ Hs'). destruct (IH lb la Hb Ha) as (r & Hr & Hm).
  exists r. split; [by apply bu_other|done].
Qed.

(** C16: An order book is a pair of price maps. On prices of a tick grid that the
    tolerance separates, a book whose sides hold at most 200 sorted levels is
    changed by an increment exactly as two finite maps from ticks to quantities:
    insert and update set a level, an update to no size or a delete removes it,
    and a full side gives up its worst level for a better one. An increment that
    repeats or skips a sequence number leaves the book as it was, with the error.
    The only other end is the index out of range at a full side. *)
Theorem order_book_refines_price_maps b lb la inc us :
  book_rep b lb la → in_i64 (ob_Sequence b + 1) → inc_Updates inc = us.*2 →
  Forall (λ ku : Z * LevelUpdate, lo ≤ ku.1 ≤ hi ∧ lu_Price ku.2 = price ku.1) us →
  if (ob_Sequence b =? 0) || (inc_Sequence inc =? ob_Sequence b + 1) then
    ∃ r, book_updates (side_map lb) (side_map la) us r ∧
      match r with
      | Panic => OrderBook_Apply b inc = Panic
      | Ret (mb, ma) => ∃ b' lb' la', OrderBook_Apply b inc = Ret (b', None) ∧ book_rep b' lb' la' ∧
          mb = side_map lb' ∧ ma = side_map la' ∧ ob_Symbol b' = ob_Symbol b ∧
          ob_Sequence b' = inc_Sequence inc ∧ ob_Timestamp b' = inc_Timestamp inc
      end
  else OrderBook_Apply b inc =
         Ret (b, Some (if inc_Sequence inc <=? ob_Sequence b then ErrOldSequence else ErrSequenceGap)).
Proof.
  intros [Hb Ha Hbo Hao] Hi Hus Hall. destruct (apply_updates_refines lb la us Hbo Hao Hall) as (r & Hr & Hm).
  assert (Happly : match r with
    | Panic => apply_updates (ob_Bids b) (ob_Asks b) (inc_Updates inc) = Panic
    | Ret (mb, ma) => ∃ b' lb' la', match apply_updates (ob_Bids b) (ob_Asks b) (inc_Updates inc) with
          | Panic => Panic
          | Ret (bids, asks) =>
              Ret (mkBook (ob_Symbol b) (inc_Sequence inc) bids asks (inc_Timestamp inc), None (A := BookError))
          end = Ret (b', None) ∧ book_rep b' lb' la' ∧
          mb = side_map lb' ∧ ma = side_map la' ∧ ob_Symbol b' = ob_Symbol b ∧
          ob_Sequence b' = inc_Sequence inc ∧ ob_Timestamp b' = inc_Timestamp inc end).
  { rewrite Hb, Ha, Hus. destruct r as [[mb ma]|]; [|done].
    destruct Hm as (lb' & la' & -> & -> & ? & ? & ->). eexists _, lb', la'.
    split; [done|]. split; [by split|]. done. }
  unfold OrderBook_Apply. rewrite i64_small by done. destruct (ob_Sequence b =? 0) eqn:H0; cbn [orb].
  { exists r. split; [done|]. destruct r as [[mb ma]|]; [done|]. by rewrite Happly. }
  destruct (Z.eqb_spec (inc_Sequence inc) (ob_Sequence b + 1)) as [Heq|Hne].
  - rewrite (proj2 (Z.leb_gt _ _)) by lia. cbn [negb].
    exists r. split; [done|]. destruct r as [[mb ma]|]; [done|]. by rewrite Happly.
  - by destruct (inc_Sequence inc <=? ob_Sequence b).
Qed.
(** *** Every book stays well formed *)

(** A book whose sides are strictly sorted levels of the grid, at most 200 each. *)
Definition book_wf (b : OrderBook) : Prop := ∃ lb la, book_rep b lb la.

Definition on_grid (us : list LevelUpdate) : Prop :=
  ∃ kus : list (Z * LevelUpdate), us = kus.*2 ∧ Forall (λ ku, lo ≤ ku.1 ≤ hi ∧ lu_Price ku.2 = price ku.1) kus.

Definition book_call_ok (c : book_call) : Prop :=
  match c with
  | CInit snapshot => book_wf snapshot ∧ in_i64 (ob_Sequence snapshot + 1)
  | CApply inc => on_grid (inc_Updates inc) ∧ in_i64 (inc_Sequence inc + 1)
  end.

(** The sides have no room for all the updates of the increment. *)
Definition crowded (b : OrderBook) (us : list LevelUpdate) : Prop :=
  (MaxDepth < length (ob_Bids b) + length us)%nat ∨ (MaxDepth < length (ob_Asks b) + length us)%nat.

Lemma side_update_size isBid m k u m' : side_update isBid m k u (Ret m') → (size m' ≤ S (size m))%nat.
Proof.
  unfold side_update. destruct (_ || _).
  { intros [= ->]. destruct (decide (is_Some (m !! k))); [rewrite map_size_delete_Some by done; lia|].
    rewrite map_size_delete_None by (by apply eq_None_not_Some). lia. }
  destruct (_ || _); [|intros [= ->]; lia]. intros Hs.
  assert (Hins : ∀ m0 : gmap Z float64, (size (<[k := lu_Size u]> m0) ≤ S (size m0))%nat).
  { intros m0. destruct (m0 !! k) eqn:Hk; [rewrite map_size_insert_Some by (by eexists); lia|].
    by rewrite map_size_insert_None. }
  inversion Hs as [|w Hk Hsz [x Hw] _ _ Heq|]; subst; [apply Hins|].
  pose proof (Hins (delete w m)). rewrite map_size_delete_Some in * by (by eexists). lia.
Qed.

Lemma side_update_panics isBid m k u : side_update isBid m k u Panic → size m = MaxDepth.
Proof. unfold side_update. destruct (_ || _); [done|]. destruct (_ || _); [|done]. by inversion 1. Qed.

Lemma book_updates_panics mb ma us :
  book_updates mb ma us Panic → (MaxDepth < size mb + length us ∨ MaxDepth < size ma + length us)%nat.
Proof.
  intros H. remember Panic as r eqn:Hr. revert Hr.
  induction H as [|mb ma k u us mb' r _ Hu _ IH|mb ma k u us ma' r _ Hu _ IH|mb ma k u us _ Hu|mb ma k u us _ Hu|mb ma k u us r _ _ _ IH];
    intros Hr; cbn [length]; try done.
  - apply side_update_size in Hu. specialize (IH Hr). lia.
  - apply side_update_size in Hu. specialize (IH Hr). lia.
  - apply side_update_panics in Hu. lia.
  - apply side_update_panics in Hu. lia.
  - specialize (IH Hr). lia.
Qed.

Lemma Apply_well_formed b inc :
  book_wf b → in_i64 (ob_Sequence b + 1) → on_grid (inc_Updates inc) → in_i64 (inc_Sequence inc + 1) →
  match OrderBook_Apply b inc with
  | Panic => crowded b (inc_Updates inc)
  | Ret (b', _) => book_wf b' ∧ in_i64 (ob_Sequence b' + 1) ∧ ob_Symbol b' = ob_Symbol b
  end.
Proof.
  intros (lb & la & Hrep) Hi (us & Hus & Hall) Hi'.
  destruct Hrep as [Hb Ha Hbo Hao].
  destruct (apply_updates_refines lb la us Hbo Hao Hall) as (r & Hr & Hm).
  assert (Happly : match apply_updates (ob_Bids b) (ob_Asks b) (inc_Updates inc) with
    | Panic => crowded b (inc_Updates inc)
    | Ret (bids, asks) => book_wf (mkBook (ob_Symbol b) (inc_Sequence inc) bids asks (inc_Timestamp inc))
    end).
  { rewrite Hb, Ha, Hus. destruct r as [[mb ma]|].
    - destruct Hm as (lb' & la' & _ & _ & ? & ? & ->). by exists lb', la'.
    - rewrite Hm. apply book_updates_panics in Hr. unfold crowded, levels_of in *.
      rewrite !side_map_size in Hr by (eapply side_ok_NoDup; apply Hbo || apply Hao).
      rewrite Hb, Ha. unfold levels_of. by rewrite !length_fmap. }
  clear Hm Hr. unfold OrderBook_Apply.
  destruct (apply_updates (ob_Bids b) (ob_Asks b) (inc_Updates inc)) as [[bids asks]|]; repeat case_if; try done;
    (split; [by exists lb, la|done]).
Qed.

Lemma run_books_step m c :
  (∀ symbol b, m !! symbol = Some b → ob_Symbol b = symbol ∧ book_wf b ∧ in_i64 (ob_Sequence b + 1)) →
  book_call_ok c →
  match run_book m c with
  | Ret m' => ∀ symbol b, m' !! symbol = Some b → ob_Symbol b = symbol ∧ book_wf b ∧ in_i64 (ob_Sequence b + 1)
  | Panic => ∃ inc b, c = CApply inc ∧ m !! inc_Symbol inc = Some b ∧ crowded b (inc_Updates inc)
  end.
Proof.
  intros Hm Hc. destruct c as [snapshot|inc]; cbn [run_book book_call_ok] in *.
  - destruct Hc as [(lb & la & [? ? ? ?]) Hi]. intros symbol b. unfold InitBook.
    intros [[<- <-]|[Hne Hb]]%lookup_insert_Some; [|by apply Hm]. cbn. split; [|split; [by exists lb, la|done]].
    destruct (m !! ob_Symbol snapshot) as [b'|] eqn:Hb'; [|done]. by apply Hm in Hb' as [? _].
  - destruct Hc as [Hg Hi]. unfold ApplyIncrement. destruct (m !! inc_Symbol inc) as [b|] eqn:Hb; [|exact Hm].
    destruct (Hm _ _ Hb) as (Hsym & Hwf & Hib). pose proof (Apply_well_formed b inc Hwf Hib Hg Hi) as Ha.
    destruct (OrderBook_Apply b inc) as [[b' [e|]]|]; [| |by exists inc, b];
      (intros symbol b0 [[<- <-]|[Hne Hb0]]%lookup_insert_Some; [|by apply Hm]);
      destruct Ha as (? & ? & ?); (split; [congruence|done]).
Qed.

End grid.

(** ** Prices in cents

    The grid of a symbol traded in cents, [k / 100] as the feed parses it. *)

Definition cents (k : Z) : float64 := f64_div (f64_of_Z k) (f64_of_Z 100).

Definition tick_gridb (price : Z → float64) (lo hi : Z) : bool :=
  forallb (λ i, forallb (λ j,
    Bool.eqb (f64_leb (price i) (f64_add (price j) epsilon)) (i <=? j) &&
    Bool.eqb (f64_leb (f64_sub (price j) epsilon) (price i)) (j <=? i) &&
    Bool.eqb (f64_ltb (SFabs (f64_sub (price i) (price j))) epsilon) (i =? j))
    (seqZ lo (hi - lo + 1))) (seqZ lo (hi - lo + 1)).

Lemma tick_gridb_ok price lo hi : tick_gridb price lo hi = true → tick_grid price lo hi.
Proof.
  unfold tick_gridb. rewrite forallb_forall. intros H.
  assert (Hall : ∀ i j, lo ≤ i ≤ hi → lo ≤ j ≤ hi →
    f64_leb (price i) (f64_add (price j) epsilon) = (i <=? j) ∧
    f64_leb (f64_sub (price j) epsilon) (price i) = (j <=? i) ∧
    f64_ltb (SFabs (f64_sub (price i) (price j))) epsilon = (i =? j)).
  { intros i j Hi Hj. specialize (H i). rewrite forallb_forall in H.
    assert (Hin : ∀ z, lo ≤ z ≤ hi → In z (seqZ lo (hi - lo + 1)))
      by (intros z Hz; apply list_elem_of_In, elem_of_seqZ; lia).
    specialize (H (Hin i Hi) j (Hin j Hj)). rewrite !andb_true_iff, !Bool.eqb_true_iff in H. tauto. }
  split; intros i j Hi Hj; apply (Hall i j Hi Hj).
Qed.

Lemma cents_grid : tick_grid cents 15040 15060.
Proof. apply tick_gridb_ok. vm_compute. reflexivity. Qed.

Definition grid_book : OrderBook :=
  mkBook "AAPL" 1 (levels_of cents [(15050, f64_of_Z 3)]) [] 0.
Definition grid_inc : OrderBookIncrement :=
  mkIncrement "AAPL" 2 [mkUpdate ActionInsert BidSide (cents 15055) (f64_of_Z 1);
                        mkUpdate ActionUpdate BidSide (cents 15050) f64_zero] 5.

Lemma order_book_refines_price_maps_witness :
  ∃ r, book_updates (side_map [(15050, f64_of_Z 3)]) (side_map [])
         [(15055, mkUpdate ActionInsert BidSide (cents 15055) (f64_of_Z 1));
          (15050, mkUpdate ActionUpdate BidSide (cents 15050) f64_zero)] r ∧
    match r with
    | Panic => OrderBook_Apply grid_book grid_inc = Panic
    | Ret (mb, ma) => ∃ b' lb' la', OrderBook_Apply grid_book grid_inc = Ret (b', None) ∧
        book_rep cents 15040 15060 b' lb' la' ∧ mb = side_map lb' ∧ ma = side_map la' ∧ ob_Symbol b' = "AAPL" ∧
        ob_Sequence b' = 2 ∧ ob_Timestamp b' = 5
    end.
Proof.
  apply (order_book_refines_price_maps cents 15040 15060 cents_grid
    grid_book [(15050, f64_of_Z 3)] [] grid_inc
    [(15055, mkUpdate ActionInsert BidSide (cents 15055) (f64_of_Z 1));
     (15050, mkUpdate ActionUpdate BidSide (cents 15050) f64_zero)]).
  - split; [reflexivity|reflexivity| |].
    + split; [split|cbn; unfold MaxDepth; lia].
      * repeat constructor.
      * constructor; [cbn; lia|constructor].
    + split; [split; constructor|cbn; lia].
  - cbn. unfold in_i64. lia.
  - reflexivity.
  - constructor; [cbn [fst snd lu_Price]; split; [lia|reflexivity]|].
    constructor; [cbn [fst snd lu_Price]; split; [lia|reflexivity]|constructor].
Defined.


(** ** The numbers that are published *)

Fixpoint run_increments (m : BookManager) (incs : list OrderBookIncrement)
    : outcome (BookManager * list OrderBookIncrement) :=
  match incs with
  | [] => Ret (m, [])
  | inc :: incs =>
      match ApplyIncrement m inc with
      | Panic => Panic
      | Ret (m, _, p) =>
          match run_increments m incs with
          | Panic => Panic
          | Ret (m, ps) => Ret (m, option_list p ++ ps)
          end
      end
  end.

Definition published_numbers (symbol : string) (ps : list OrderBookIncrement) : list Z :=
  inc_Sequence <$> filter (λ i, inc_Symbol i = symbol) ps.

Lemma OrderBook_Apply_step b inc b' e :
  in_i64 (ob_Sequence b + 1) → ob_Sequence b ≠ 0 → OrderBook_Apply b inc = Ret (b', e) →
  (e = None ∧ inc_Sequence inc = ob_Sequence b + 1 ∧ ob_Sequence b' = ob_Sequence b + 1) ∨
  (is_Some e ∧ b' = b).
Proof.
  intros Hi H0. unfold OrderBook_Apply. rewrite i64_small by done.
  rewrite (proj2 (Z.eqb_neq _ _) H0). repeat case_if; intros [= <- <-] || (destruct (apply_updates _ _ _) as [[? ?]|]; [intros [= <- <-]|done]).
  - right. by eauto.
  - right. by eauto.
  - left. cbn. split_and!; [done|lia|lia].
Qed.

(** The increments of a symbol are published without a gap. From a book
    initialised at a number s > 0, whatever increments of any symbols arrive, the
    increments of the symbol that go to the publisher carry s+1, s+2, ... in this
    order, and the book ends at the last of them; the books of other symbols do
    not matter. *)
Lemma published_increments_are_consecutive m b incs m' ps symbol :
  m !! symbol = Some b → 0 < ob_Sequence b → ob_Sequence b + Z.of_nat (length incs) < 2 ^ 63 →
  run_increments m incs = Ret (m', ps) →
  ∃ n b', published_numbers symbol ps = seqZ (ob_Sequence b + 1) (Z.of_nat n) ∧
    m' !! symbol = Some b' ∧ ob_Sequence b' = ob_Sequence b + Z.of_nat n.
Proof.
  revert m b m' ps. induction incs as [|inc incs IH]; intros m b m' ps Hm H0 Hi Hrun; cbn in Hrun.
  { injection Hrun as <- <-. exists 0%nat, b. split_and!; [done|done|lia]. }
  cbn [length] in Hi. destruct (ApplyIncrement m inc) as [[[m1 e] p]|] eqn:Happ; [|done].
  destruct (run_increments m1 incs) as [[m2 ps']|] eqn:Hrest; [|done]. injection Hrun as <- <-.
  assert (∃ b1, m1 !! symbol = Some b1 ∧
    (b1 = b ∧ published_numbers symbol (option_list p) = [] ∨
     ob_Sequence b1 = ob_Sequence b + 1 ∧ published_numbers symbol (option_list p) = [ob_Sequence b + 1]))
    as (b1 & Hb1 & Hcase).
  { unfold ApplyIncrement in Happ. destruct (decide (inc_Symbol inc = symbol)) as [Hs|Hs].
    - rewrite Hs, Hm in Happ. destruct (OrderBook_Apply b inc) as [[b1 e1]|] eqn:Hb; [|done].
      exists b1. destruct (OrderBook_Apply_step b inc b1 e1 ltac:(go_lia) ltac:(lia) Hb) as [(-> & Hq & Hq')|[[e' ->] ->]];
        injection Happ as <- <- <-; (split; [apply lookup_insert_eq|]).
      + right. split; [done|]. unfold published_numbers. change (option_list (Some inc)) with [inc].
        rewrite filter_cons_True, filter_nil by done. cbn. by rewrite Hq.
      + by left.
    - exists b. split; [|left; split; [done|]].
      + destruct (m !! inc_Symbol inc) as [b1|]; [|by injection Happ as <- <- <-].
        destruct (OrderBook_Apply b1 inc) as [[b2 [e2|]]|]; [| |done]; injection Happ as <- <- <-;
          (transitivity (m !! symbol); [by apply lookup_insert_ne|done]).
      + assert (p = None ∨ p = Some inc) as [->| ->]; [|done|].
        { destruct (m !! inc_Symbol inc) as [b1|]; [|injection Happ as <- <- <-; by left].
          destruct (OrderBook_Apply b1 inc) as [[b2 [e2|]]|]; [| |done]; injection Happ as <- <- <-; auto. }
        unfold published_numbers. change (option_list (Some inc)) with [inc]. by rewrite filter_cons_False. }
  assert (Hpn : published_numbers symbol (option_list p ++ ps') =
    published_numbers symbol (option_list p) ++ published_numbers symbol ps')
    by (unfold published_numbers; by rewrite filter_app, fmap_app).
  rewrite Hpn. destruct Hcase as [[-> ->]|[Hq ->]].
  - destruct (IH m1 b m2 ps' Hb1 H0 ltac:(lia) Hrest) as (n & b' & H1 & H2 & H3). by exists n, b'.
  - destruct (IH m1 b1 m2 ps' Hb1 ltac:(lia) ltac:(lia) Hrest) as (n & b' & H1 & H2 & H3).
    exists (S n), b'. rewrite H1, Hq, Nat2Z.inj_succ, (seqZ_cons _ (Z.succ _)) by lia.
    split_and!; [|done|lia]. cbn. do 2 f_equal; lia.
Qed.

Lemma published_increments_are_consecutive_witness :
  ∃ n b', published_numbers "AAPL" [grid_inc] = seqZ 2 (Z.of_nat n) ∧
    (match run_increments {[ "AAPL" := grid_book ]} [grid_inc; grid_inc] with
     | Ret (m, _) => m | Panic => ∅ end) !! "AAPL" = Some b' ∧ ob_Sequence b' = 1 + Z.of_nat n.
Proof.
  apply (published_increments_are_consecutive {[ "AAPL" := grid_book ]} grid_book [grid_inc; grid_inc]).
  - reflexivity.
  - cbn. lia.
  - cbn. lia.
  - vm_compute. reflexivity.
Defined.

(** ** Prices beyond a full side *)

(** Every level of the side is better than [price], by more than the tolerance. *)
Definition outranked (isBid : bool) (levels : list PriceLevel) (price : float64) : Prop :=
  Forall (λ l, (if isBid then f64_leb (pl_Price l) (f64_add price epsilon)
                else f64_leb (f64_sub price epsilon) (pl_Price l)) = false) levels.

Lemma find_level_outranked isBid levels price :
  outranked isBid levels price → find_level levels price isBid = length levels.
Proof.
  intros Ho. unfold find_level, level. destruct isBid; apply sort_Search_split; try lia;
    intros k Hk; destruct (lookup_lt_is_Some_2 levels k Hk) as [l Hl]; rewrite Hl;
    by apply (Forall_lookup_1 _ _ _ _ Ho Hl).
Qed.

(** A price worse than every level of a full side panics. When a side holds
    200 levels and the first update of the next increment inserts a level that
    is worse than all of them, the depth limit keeps the slice at 200 and the
    write goes to index 200: the manager's call panics instead of ignoring the
    level. *)
Lemma deep_price_panics m b inc u us (isBid : bool) :
  m !! inc_Symbol inc = Some b → (ob_Sequence b = 0 ∨ inc_Sequence inc = ob_Sequence b + 1) →
  in_i64 (ob_Sequence b + 1) → inc_Updates inc = u :: us →
  lu_Side u = (if isBid then BidSide else AskSide) → lu_Action u = ActionInsert →
  length (if isBid then ob_Bids b else ob_Asks b) = MaxDepth →
  outranked isBid (if isBid then ob_Bids b else ob_Asks b) (lu_Price u) →
  ApplyIncrement m inc = Panic.
Proof.
  intros Hm Hseq Hi Hus Hs Ha Hl Ho. set (levels := if isBid then ob_Bids b else ob_Asks b) in *.
  assert (Hp : applyLevel levels u isBid = Panic).
  { unfold applyLevel. rewrite Ha, (find_level_outranked isBid) by done.
    change (bool_decide (ActionInsert = ActionUpdate)) with false. cbn [andb].
    rewrite Nat.ltb_irrefl. cbn [andb]. change (bool_decide (ActionInsert = ActionInsert)) with true. cbn [orb].
    rewrite insert_new, Hl by lia. by rewrite !Nat.ltb_irrefl. }
  assert (Hu : apply_updates (ob_Bids b) (ob_Asks b) (inc_Updates inc) = Panic).
  { rewrite Hus. cbn [apply_updates]. rewrite Hs. subst levels. destruct isBid.
    - change (bool_decide (BidSide = BidSide)) with true. cbv iota. by rewrite Hp.
    - change (bool_decide (AskSide = BidSide)) with false. change (bool_decide (AskSide = AskSide)) with true.
      cbv iota. by rewrite Hp. }
  unfold ApplyIncrement, OrderBook_Apply. rewrite Hm, Hu, i64_small by done.
  destruct (Z.eqb_spec (ob_Sequence b) 0); [done|]. destruct Hseq as [|Hq]; [done|].
  rewrite Hq, (proj2 (Z.leb_gt _ _)), Z.eqb_refl by lia. done.
Qed.

Definition full_book : OrderBook :=
  mkBook "AAPL" 7 ((λ i, mkLevel (f64_of_Z (1000 - Z.of_nat i)) f64_one) <$> seq 0 200) [] 0.

Lemma deep_price_panics_witness :
  ApplyIncrement {[ "AAPL" := full_book ]}
    (mkIncrement "AAPL" 8 [mkUpdate ActionInsert BidSide (f64_of_Z 700) f64_one] 0) = Panic.
Proof.
  apply (deep_price_panics _ full_book _ (mkUpdate ActionInsert BidSide (f64_of_Z 700) f64_one) [] true).
  - reflexivity.
  - right. reflexivity.
  - cbn. unfold in_i64. lia.
  - reflexivity.
  - reflexivity.
  - reflexivity.
  - reflexivity.
  - apply Forall_fmap, Forall_forall. intros i Hi. apply elem_of_seq in Hi.
    assert (Hall : forallb (λ i, negb (f64_leb (f64_of_Z (1000 - Z.of_nat i)) (f64_add (f64_of_Z 700) epsilon)))
      (seq 0 200) = true) by (vm_compute; reflexivity).
    rewrite forallb_forall in Hall. apply negb_true_iff, Hall, in_seq. lia.
Defined.

(** ** Ticks of 1e-8

    Prices with eight decimals, as crypto venues quote them. *)

Definition satoshis (n : Z) : float64 := f64_div (f64_of_Z n) (f64_of_Z 100000000).

(** The tolerance is as wide as the smallest tick. Below a bid of 10.00000001 a
    bid of 10.00000000 is inserted in front of it, so that the best bid is no longer
    first; and a bid of 1.00000000 overwrites the quantity of the bid of 1.00000001
    instead of becoming a level of its own. *)
Lemma satoshi_ticks_break_the_book q q' :
  applyLevel [mkLevel (satoshis 1000000001) q] (mkUpdate ActionInsert BidSide (satoshis 1000000000) q') true =
    Ret [mkLevel (satoshis 1000000000) q'; mkLevel (satoshis 1000000001) q] ∧
  f64_ltb (satoshis 1000000000) (satoshis 1000000001) = true ∧
  applyLevel [mkLevel (satoshis 100000001) q] (mkUpdate ActionInsert BidSide (satoshis 100000000) q') true =
    Ret [mkLevel (satoshis 100000001) q'].
Proof. vm_compute. done. Qed.
