(* ===== verification/Aggregation.v ===== *)
(** * Aggregation: candles and the volume-weighted price

    [internal/aggregation]: the windows of [ohlc.go], the running sums of
    [vwap.go] and the engine of [engine.go] with its sweeper. A window's key is its
    start; [visit] is the order in which Go ranges over a map of windows, and
    [civil_day] the calendar day of a time in the process's location. Of the metrics
    the late and the dropped counters are kept, since the code decides by them what
    is reported as lost. *)

From S2P Require Import Prelude Float64.

(** ** Data (models.go) *)

Definition Window1Second : Z := Second.
Definition Window5Second : Z := 5 * Second.
Definition Window1Minute : Z := Minute.

Record Tick := mkTick {
  tk_Symbol : string;
  tk_Price : float64;
  tk_Volume : float64;
  tk_Timestamp : Z;
}.

Record OHLC := mkOHLC {
  oh_Symbol : string;
  oh_WindowSize : Z;
  oh_Start : Z;
  oh_End : Z;
  oh_Open : float64;
  oh_High : float64;
  oh_Low : float64;
  oh_Close : float64;
  oh_Volume : float64;
  oh_TradeCount : Z;
}.

Record VWAP := mkVWAP {
  vw_Symbol : string;
  vw_Start : Z;
  vw_End : Z;
  vw_CumulativePriceVolume : float64;
  vw_CumulativeVolume : float64;
  vw_VWAP : float64;
}.

(** ** Windows (ohlc.go) *)

Record OHLCAggregator := mkOHLCAggregator {
  oa_windowSize : Z;
  oa_states : gmap Z OHLC;
}.

Definition NewOHLCAggregator (size : Z) : OHLCAggregator := mkOHLCAggregator size ∅.

(** [t.Truncate(d)] rounds down to a multiple of d since the zero time. *)
Definition time_truncate (t d : Z) : Z := if d <=? 0 then t else t - (t - zero_time) mod d.

Definition alignTime (a : OHLCAggregator) (t : Z) : Z := time_truncate t (oa_windowSize a).

Definition new_candle (a : OHLCAggregator) (tick : Tick) (windowStart : Z) : OHLC :=
  mkOHLC (tk_Symbol tick) (oa_windowSize a) windowStart (time_add windowStart (oa_windowSize a))
    (tk_Price tick) (tk_Price tick) (tk_Price tick) (tk_Price tick) f64_zero 0.

(** The update of a candle by a tick. *)
Definition candle_add (state : OHLC) (tick : Tick) : OHLC :=
  mkOHLC (oh_Symbol state) (oh_WindowSize state) (oh_Start state) (oh_End state) (oh_Open state)
    (if f64_ltb (oh_High state) (tk_Price tick) then tk_Price tick else oh_High state)
    (if f64_ltb (tk_Price tick) (oh_Low state) then tk_Price tick else oh_Low state)
    (tk_Price tick)
    (f64_add (oh_Volume state) (tk_Volume tick))
    (i64 (oh_TradeCount state + 1)).

(** The boolean says that the tick was rejected as late. *)
Definition OHLC_AddTick (a : OHLCAggregator) (tick : Tick) (currentTime : Z) : OHLCAggregator * bool :=
  let windowStart := alignTime a (tk_Timestamp tick) in
  if time_after currentTime (time_add windowStart (oa_windowSize a)) then (a, true)
  else
    let state := default (new_candle a tick windowStart) (oa_states a !! windowStart) in
    (mkOHLCAggregator (oa_windowSize a) (<[windowStart := candle_add state tick]> (oa_states a)), false).

Section visit.
(** The order of [range] over the states. *)
Context (visit : gmap Z OHLC → list (Z * OHLC)).

Definition stagnant (currentTime : Z) (kv : Z * OHLC) : Prop := time_after currentTime (oh_End kv.2) = true.
#[global] Instance stagnant_dec currentTime kv : Decision (stagnant currentTime kv).
Proof. unfold stagnant. apply _. Defined.

Definition FlushStagnant (a : OHLCAggregator) (currentTime : Z) : OHLCAggregator * list OHLC :=
  let stale := filter (stagnant currentTime) (visit (oa_states a)) in
  (mkOHLCAggregator (oa_windowSize a) (foldl (λ m kv, delete kv.1 m) (oa_states a) stale), stale.*2).

Definition ForceFlush (a : OHLCAggregator) : OHLCAggregator * list OHLC :=
  (mkOHLCAggregator (oa_windowSize a) ∅, (visit (oa_states a)).*2).
End visit.

(** ** The running sums (vwap.go) *)

Record VWAPAggregator := mkVWAPAggregator {
  va_state : option VWAP;
  va_cPriceVol : float64;
  va_cVol : float64;
}.

Definition NewVWAPAggregator : VWAPAggregator := mkVWAPAggregator None f64_zero f64_zero.

(** One step of Kahan's summation: the new sum and the new compensation. *)
Definition kahan_step (sum c x : float64) : float64 * float64 :=
  let y := f64_sub x c in
  let t := f64_add sum y in
  (t, f64_sub (f64_sub t sum) y).

Definition VWAP_AddTick (v : VWAPAggregator) (tick : Tick) : VWAPAggregator * VWAP :=
  let state := default (mkVWAP (tk_Symbol tick) (tk_Timestamp tick) zero_time f64_zero f64_zero f64_zero)
                 (va_state v) in
  let pv := f64_mul (tk_Price tick) (tk_Volume tick) in
  let '(t1, c1) := kahan_step (vw_CumulativePriceVolume state) (va_cPriceVol v) pv in
  let '(t2, c2) := kahan_step (vw_CumulativeVolume state) (va_cVol v) (tk_Volume tick) in
  let vwap := if f64_ltb f64_zero t2 then f64_div t1 t2 else vw_VWAP state in
  let state := mkVWAP (vw_Symbol state) (vw_Start state) (vw_End state) t1 t2 vwap in
  (mkVWAPAggregator (Some state) c1 c2, state).

Definition VWAP_Reset (v : VWAPAggregator) : VWAPAggregator := mkVWAPAggregator None f64_zero f64_zero.

(** ** A symbol (engine.go) *)

Record symbolAggregator := mkSymbolAggregator {
  sa_symbol : string;
  sa_ohlcs : list OHLCAggregator;
  sa_vwap : VWAPAggregator;
  sa_lastUpdate : Z;
  sa_lastVWAPReset : Z;
  sa_lastVWAPPublish : Z;
  sa_deleted : bool;
}.

(** [now1], [now2], [now3] are the three readings of the clock. *)
Definition newSymbolAggregator (symbol : string) (windows : list Z) (now1 now2 now3 : Z) : symbolAggregator :=
  mkSymbolAggregator symbol (NewOHLCAggregator <$> windows) NewVWAPAggregator now1 now2 now3 false.

(** The window loop of [AddTick]. *)
Definition add_to_windows (ohlcs : list OHLCAggregator) (tick : Tick) (currentTime : Z)
    : list OHLCAggregator * bool :=
  let rs := (λ a, OHLC_AddTick a tick currentTime) <$> ohlcs in (rs.*1, existsb snd rs).

Inductive added :=
| Evicted
| Added (s : symbolAggregator) (wasLate : bool) (published : option VWAP).

(** [has_publisher] is [s.publisher != nil]; [Evicted] is the answer false. *)
Definition Symbol_AddTick (has_publisher : bool) (s : symbolAggregator) (tick : Tick) : added :=
  if sa_deleted s then Evicted
  else
    let lastUpdate := tk_Timestamp tick in
    let '(ohlcs, wasLate) := add_to_windows (sa_ohlcs s) tick lastUpdate in
    let '(vwap, currentVWAP) := VWAP_AddTick (sa_vwap s) tick in
    if has_publisher && (Second <=? time_sub (tk_Timestamp tick) (sa_lastVWAPPublish s))
    then Added (mkSymbolAggregator (sa_symbol s) ohlcs vwap lastUpdate (sa_lastVWAPReset s)
                  (tk_Timestamp tick) false) wasLate (Some currentVWAP)
    else Added (mkSymbolAggregator (sa_symbol s) ohlcs vwap lastUpdate (sa_lastVWAPReset s)
                  (sa_lastVWAPPublish s) false) wasLate None.

(** ** The engine *)

Record Engine := mkEngine {
  en_symbols : gmap string nat;
  en_aggs : list symbolAggregator;
  en_publisher : bool;
  en_publishCh : list OHLC;
  en_windows : list Z;
  en_published : list VWAP;
  en_late : Z;
  en_dropped : Z;
}.

Definition NewEngine (publisher : bool) (windows : list Z) : Engine :=
  mkEngine ∅ [] publisher []
    (if (length windows =? 0)%nat then [Window1Second; Window5Second; Window1Minute] else windows) [] 0 0.

Definition publishCh_capacity : Z := 10000.

(** The non-blocking send. *)
Definition publishOHLC (e : Engine) (ohlc : OHLC) : Engine :=
  if Z.of_nat (length (en_publishCh e)) <? publishCh_capacity
  then mkEngine (en_symbols e) (en_aggs e) (en_publisher e) (en_publishCh e ++ [ohlc]) (en_windows e)
         (en_published e) (en_late e) (en_dropped e)
  else mkEngine (en_symbols e) (en_aggs e) (en_publisher e) (en_publishCh e) (en_windows e)
         (en_published e) (en_late e) (en_dropped e + 1).

Definition set_agg (e : Engine) (p : nat) (s : symbolAggregator) : Engine :=
  mkEngine (en_symbols e) (<[p := s]> (en_aggs e)) (en_publisher e) (en_publishCh e) (en_windows e)
    (en_published e) (en_late e) (en_dropped e).

Section sweep.
Context (visit : gmap Z OHLC → list (Z * OHLC)) (civil_day : Z → Z).

(** The flush of every window of a symbol: the windows and the candles in the
    order they are published. *)
Definition flush_windows (ohlcs : list OHLCAggregator) (currentTime : Z) : list OHLCAggregator * list OHLC :=
  let rs := (λ a, FlushStagnant visit a currentTime) <$> ohlcs in (rs.*1, concat rs.*2).

(** One turn of [sweepStagnant], under the lock of the aggregator at [p]. *)
Definition sweep_symbol (e : Engine) (key : string) (p : nat) (currentTime : Z) : Engine :=
  match en_aggs e !! p with
  | None => e
  | Some s =>
      if 24 * Hour <? time_sub currentTime (sa_lastUpdate s) then
        mkEngine (delete key (en_symbols e))
          (<[p := mkSymbolAggregator (sa_symbol s) (sa_ohlcs s) (sa_vwap s) (sa_lastUpdate s)
                    (sa_lastVWAPReset s) (sa_lastVWAPPublish s) true]> (en_aggs e))
          (en_publisher e) (en_publishCh e) (en_windows e) (en_published e) (en_late e) (en_dropped e)
      else
        let same := civil_day (sa_lastVWAPReset s) =? civil_day currentTime in
        let vwap := if same then sa_vwap s else VWAP_Reset (sa_vwap s) in
        let reset := if same then sa_lastVWAPReset s else currentTime in
        let '(ohlcs, candles) := flush_windows (sa_ohlcs s) currentTime in
        foldl publishOHLC
          (set_agg e p (mkSymbolAggregator (sa_symbol s) ohlcs vwap (sa_lastUpdate s) reset
                          (sa_lastVWAPPublish s) (sa_deleted s))) candles
  end.

(** The range over the symbols, in the order [keys] that it visits them. *)
Definition sweepStagnant (e : Engine) (keys : list string) (currentTime : Z) : Engine :=
  foldl (λ e key, match en_symbols e !! key with
                  | Some p => sweep_symbol e key p currentTime | None => e end) e keys.
End sweep.

(** [LoadOrStore] with a fresh aggregator. *)
Definition load_or_store (e : Engine) (symbol : string) (nows : Z * Z * Z) : Engine * nat :=
  match en_symbols e !! symbol with
  | Some p => (e, p)
  | None =>
      let p := length (en_aggs e) in
      (mkEngine (<[symbol := p]> (en_symbols e))
         (en_aggs e ++ [newSymbolAggregator symbol (en_windows e) nows.1.1 nows.1.2 nows.2])
         (en_publisher e) (en_publishCh e) (en_windows e) (en_published e) (en_late e) (en_dropped e), p)
  end.

(** [agg.AddTick] in the engine; [None] when the aggregator was evicted. *)
Definition engine_add (e : Engine) (p : nat) (tick : Tick) : option Engine :=
  match en_aggs e !! p with
  | None => None
  | Some s =>
      match Symbol_AddTick (en_publisher e) s tick with
      | Evicted => None
      | Added s wasLate published =>
          Some (mkEngine (en_symbols e) (<[p := s]> (en_aggs e)) (en_publisher e) (en_publishCh e)
                  (en_windows e) (en_published e ++ option_list published)
                  (if wasLate then en_late e + 1 else en_late e) (en_dropped e))
      end
  end.

(** [ProcessTick] of one goroutine, turn by turn of its loop. *)
Fixpoint ProcessTick (fuel : nat) (e : Engine) (tick : Tick) (nows : Z * Z * Z) : option Engine :=
  match fuel with
  | O => None
  | S fuel =>
      let '(e, p) := load_or_store e (tk_Symbol tick) nows in
      match engine_add e p tick with
      | Some e => Some e
      | None => ProcessTick fuel e tick nows
      end
  end.

(** ** Time windows *)

Lemma truncate_range t d : 0 < d → time_truncate t d ≤ t < time_truncate t d + d.
Proof.
  intros Hd. unfold time_truncate. rewrite (proj2 (Z.leb_gt _ _)) by done.
  pose proof (Z.mod_pos_bound (t - zero_time) d Hd). lia.
Qed.

Lemma truncate_unique t t' d :
  0 < d → time_truncate t' d ≤ t < time_truncate t' d + d → time_truncate t d = time_truncate t' d.
Proof.
  intros Hd. unfold time_truncate. rewrite (proj2 (Z.leb_gt _ _)) by done.
  set (x := t - zero_time). set (y := t' - zero_time). intros H.
  pose proof (Z.div_mod x d ltac:(lia)) as Hx. pose proof (Z.div_mod y d ltac:(lia)) as Hy.
  pose proof (Z.mod_pos_bound x d Hd). pose proof (Z.mod_pos_bound y d Hd).
  assert (x `div` d = y `div` d) by nia. lia.
Qed.

(** The engine passes the tick's own time as the current time: no tick is late. *)
Lemma AddTick_never_late a tick :
  0 < oa_windowSize a →
  OHLC_AddTick a tick (tk_Timestamp tick) =
  let k := alignTime a (tk_Timestamp tick) in
  (mkOHLCAggregator (oa_windowSize a)
     (<[k := candle_add (default (new_candle a tick k) (oa_states a !! k)) tick]> (oa_states a)), false).
Proof.
  intros Hs. unfold OHLC_AddTick. pose proof (truncate_range (tk_Timestamp tick) _ Hs) as Hr.
  fold (alignTime a (tk_Timestamp tick)) in Hr.
  unfold time_after, time_add. by rewrite (proj2 (Z.ltb_ge _ _)) by lia.
Qed.

(** ** What a candle says *)

Record summarises (size : Z) (c : OHLC) (ts : list Tick) : Prop := {
  sm_open : tk_Price <$> head ts = Some (oh_Open c);
  sm_close : tk_Price <$> last ts = Some (oh_Close c);
  sm_count : oh_TradeCount c = Z.of_nat (length ts);
  sm_volume : oh_Volume c = foldl (λ v t, f64_add v (tk_Volume t)) f64_zero ts;
  sm_high : oh_High c ∈ tk_Price <$> ts ∧ Forall (λ t, f64_leb (tk_Price t) (oh_High c) = true) ts;
  sm_low : oh_Low c ∈ tk_Price <$> ts ∧ Forall (λ t, f64_leb (oh_Low c) (tk_Price t) = true) ts;
  sm_window : oh_End c = oh_Start c + size ∧
              Forall (λ t, time_truncate (tk_Timestamp t) size = oh_Start c) ts;
}.

Lemma f64_leb_refl x : f64_valid x → f64_leb x x = true.
Proof. intros Hx. rewrite f64_leb_scaled by done. apply Z.leb_refl. Qed.

Lemma f64_leb_trans x y z :
  f64_valid x → f64_valid y → f64_valid z → f64_leb x y = true → f64_leb y z = true → f64_leb x z = true.
Proof. intros Hx Hy Hz. rewrite !f64_leb_scaled, !Z.leb_le by done. lia. Qed.

Lemma f64_ltb_leb x y : f64_valid x → f64_valid y → f64_ltb x y = negb (f64_leb y x).
Proof. intros Hx Hy. rewrite f64_leb_scaled, f64_ltb_scaled by done. apply Z.ltb_antisym. Qed.

Lemma f64_leb_total x y : f64_valid x → f64_valid y → f64_leb x y = false → f64_leb y x = true.
Proof. intros Hx Hy. rewrite !f64_leb_scaled, Z.leb_gt, Z.leb_le by done. lia. Qed.

Lemma summarises_new a tick :
  0 < oa_windowSize a → f64_valid (tk_Price tick) →
  summarises (oa_windowSize a)
    (candle_add (new_candle a tick (alignTime a (tk_Timestamp tick))) tick) [tick].
Proof.
  intros Hs Hv. assert (Hlt : f64_ltb (tk_Price tick) (tk_Price tick) = false)
    by (by rewrite f64_ltb_leb, f64_leb_refl).
  split; cbn [candle_add new_candle oh_Open oh_High oh_Low oh_Close oh_Volume oh_TradeCount oh_Start oh_End];
    rewrite ?Hlt; try done.
  - split; [by left|]. constructor; [by apply f64_leb_refl|constructor].
  - split; [by left|]. constructor; [by apply f64_leb_refl|constructor].
  - split; [done|]. by constructor.
Qed.

Lemma summarises_add a c ts tick :
  summarises (oa_windowSize a) c ts → oh_Start c = alignTime a (tk_Timestamp tick) →
  Forall (λ t, f64_valid (tk_Price t)) (ts ++ [tick]) → Z.of_nat (length ts) + 1 < 2 ^ 63 →
  summarises (oa_windowSize a) (candle_add c tick) (ts ++ [tick]).
Proof.
  intros [Ho Hc Hn Hvol [Hh Hhs] [Hl Hls] [He Hw]] Hk Hv Hlen.
  apply Forall_app in Hv as [Hv Hvt]. inversion Hvt as [|? ? Hp _]; subst.
  assert (Hin : ∀ p, p ∈ tk_Price <$> ts → f64_valid p).
  { intros p (t & -> & Ht)%list_elem_of_fmap. by apply (proj1 (Forall_forall _ _) Hv). }
  pose proof (Hin _ Hh) as Hvh. pose proof (Hin _ Hl) as Hvl. unfold candle_add. split; cbn.
  - by destruct ts.
  - rewrite last_snoc. done.
  - rewrite length_app, i64_small by go_lia. cbn. lia.
  - rewrite foldl_app. cbn. by f_equal.
  - rewrite fmap_app, elem_of_app, Forall_app, Forall_singleton, f64_ltb_leb by done.
    destruct (f64_leb (tk_Price tick) (oh_High c)) eqn:Hle; cbn [negb].
    + split; [by left|done].
    + split; [right; by left|]. split; [|by apply f64_leb_refl].
      rewrite Forall_forall in Hhs, Hv |- *. intros t Ht.
      apply (f64_leb_trans _ (oh_High c)); auto. by apply f64_leb_total.
  - rewrite fmap_app, elem_of_app, Forall_app, Forall_singleton, f64_ltb_leb by done.
    destruct (f64_leb (oh_Low c) (tk_Price tick)) eqn:Hle; cbn [negb].
    + split; [by left|done].
    + split; [right; by left|]. split; [|by apply f64_leb_refl].
      rewrite Forall_forall in Hls, Hv |- *. intros t Ht.
      apply (f64_leb_trans _ (oh_Low c)); auto. by apply f64_leb_total.
  - split; [done|]. apply Forall_app. split; [done|]. by constructor.
Qed.

(** ** Every tick is in one candle *)

Lemma map_Forall2_Some {A B} (R : Z → A → B → Prop) (m1 : gmap Z A) (m2 : gmap Z B) k x :
  map_Forall2 R m1 m2 → m1 !! k = Some x → ∃ y, m2 !! k = Some y ∧ R k x y.
Proof. intros Hm Hx. specialize (Hm k). rewrite Hx in Hm. inversion Hm; eauto. Qed.

Lemma map_Forall2_None {A B} (R : Z → A → B → Prop) (m1 : gmap Z A) (m2 : gmap Z B) k :
  map_Forall2 R m1 m2 → m1 !! k = None → m2 !! k = None.
Proof. intros Hm Hx. specialize (Hm k). rewrite Hx in Hm. by inversion Hm. Qed.

(** What reaches one window aggregator: the ticks of its symbol, with the time that
    the engine passes, and the sweeps. *)
Inductive agg_op := OpTick (tick : Tick) | OpSweep (now : Z).

Definition op_ticks (ops : list agg_op) : list Tick :=
  omap (λ o, match o with OpTick t => Some t | OpSweep _ => None end) ops.

Section account.
Context (visit : gmap Z OHLC → list (Z * OHLC)).

Definition agg_step (st : OHLCAggregator * list OHLC) (o : agg_op) : OHLCAggregator * list OHLC :=
  match o with
  | OpTick tick => ((OHLC_AddTick st.1 tick (tk_Timestamp tick)).1, st.2)
  | OpSweep now => let '(a, out) := FlushStagnant visit st.1 now in (a, st.2 ++ out)
  end.

Definition run_ops (size : Z) (ops : list agg_op) : OHLCAggregator * list OHLC :=
  foldl agg_step (NewOHLCAggregator size, []) ops.

(** The range visits each window once. *)
Hypothesis visit_perm : ∀ m, visit m ≡ₚ map_to_list m.

Definition live_ticks (live : gmap Z (list Tick)) : list Tick := concat (map_to_list live).*2.

(** The published candles [out] and the open ones summarise the parts of [ticks]. *)
Record accounts (a : OHLCAggregator) (out : list OHLC) (ticks : list Tick)
    (parts : list (list Tick)) (live : gmap Z (list Tick)) : Prop := {
  ac_out : Forall2 (summarises (oa_windowSize a)) out parts;
  ac_live : map_Forall2 (λ _, summarises (oa_windowSize a)) (oa_states a) live;
  ac_key : map_Forall (λ k c, oh_Start c = k) (oa_states a);
  ac_all : concat parts ++ live_ticks live ≡ₚ ticks;
  ac_order : Forall (λ ts, ts `sublist_of` ticks) parts ∧ map_Forall (λ _ ts, ts `sublist_of` ticks) live;
}.

Lemma live_ticks_insert live k ts :
  live !! k = None → live_ticks (<[k := ts]> live) ≡ₚ ts ++ live_ticks live.
Proof. intros Hk. unfold live_ticks. by rewrite map_to_list_insert. Qed.

Lemma live_ticks_delete live k ts :
  live !! k = Some ts → live_ticks live ≡ₚ ts ++ live_ticks (delete k live).
Proof.
  intros Hk. rewrite <- (live_ticks_insert (delete k live) k) by apply lookup_delete_eq.
  by rewrite insert_delete_eq, insert_id.
Qed.

Lemma accounts_flush a out ticks parts live k c :
  accounts a out ticks parts live → oa_states a !! k = Some c →
  ∃ ts, live !! k = Some ts ∧
    accounts (mkOHLCAggregator (oa_windowSize a) (delete k (oa_states a))) (out ++ [c]) ticks
      (parts ++ [ts]) (delete k live).
Proof.
  intros [Ho Hl Hk Ha [Hop Hol]] Hc.
  destruct (map_Forall2_Some _ _ _ _ _ Hl Hc) as (ts & Hts & Hsum). exists ts. split; [done|].
  split; cbn.
  - apply Forall2_app; [done|]. by constructor.
  - by apply map_Forall2_delete.
  - by apply map_Forall_delete.
  - rewrite concat_app. cbn. rewrite app_nil_r, <- app_assoc, <- live_ticks_delete by done. done.
  - split; [|by apply map_Forall_delete]. apply Forall_app. split; [done|]. constructor; [|done].
    by apply (Hol k).
Qed.

Lemma accounts_flush_all a out ticks parts live stale :
  accounts a out ticks parts live → NoDup stale.*1 → Forall (λ kv, oa_states a !! kv.1 = Some kv.2) stale →
  ∃ parts' live', accounts (mkOHLCAggregator (oa_windowSize a) (foldl (λ m kv, delete kv.1 m) (oa_states a) stale))
    (out ++ stale.*2) ticks parts' live'.
Proof.
  revert a out parts live. induction stale as [|[k c] stale IH]; intros a out parts live Hac Hnd Hall.
  { exists parts, live. cbn. rewrite app_nil_r. by destruct a. }
  cbn in Hnd. apply NoDup_cons in Hnd as [Hk Hnd]. inversion Hall as [|? ? Hc Hall']; subst.
  destruct (accounts_flush _ _ _ _ _ k c Hac Hc) as (ts & _ & Hac').
  destruct (IH _ _ _ _ Hac' Hnd) as (parts' & live' & Hr).
  { cbn. rewrite Forall_forall in Hall' |- *. intros kv Hkv. rewrite lookup_delete_ne; [by apply Hall'|].
    intros ->. apply Hk. by apply list_elem_of_fmap_2. }
  exists parts', live'. cbn in Hr |- *. by rewrite <- app_assoc in Hr.
Qed.

Lemma accounts_add a out ticks parts live tick :
  0 < oa_windowSize a → Forall (λ t, f64_valid (tk_Price t)) (ticks ++ [tick]) →
  Z.of_nat (length ticks) + 1 < 2 ^ 63 → accounts a out ticks parts live →
  ∃ live', accounts (OHLC_AddTick a tick (tk_Timestamp tick)).1 out (ticks ++ [tick]) parts live'.
Proof.
  intros Hs Hv Hlen [Ho Hl Hk Ha [Hop Hol]]. rewrite AddTick_never_late by done. cbn.
  set (k := alignTime a (tk_Timestamp tick)).
  pose proof (proj1 (proj1 (Forall_app _ _ _) Hv)) as Hv1. pose proof (proj2 (proj1 (Forall_app _ _ _) Hv)) as Hv2.
  exists (<[k := default [] (live !! k) ++ [tick]]> live).
  assert (Hsum : summarises (oa_windowSize a) (candle_add (default (new_candle a tick k) (oa_states a !! k)) tick)
            (default [] (live !! k) ++ [tick])).
  { destruct (oa_states a !! k) as [c|] eqn:Hc.
    - destruct (map_Forall2_Some _ _ _ _ _ Hl Hc) as (ts & Hts & Hsum). rewrite Hts. cbn.
      pose proof (Hol _ _ Hts) as Hsub. apply summarises_add; [done|by apply (Hk k)| |].
      + apply Forall_app. split; [|done]. rewrite Forall_forall in Hv1 |- *. intros t Ht. apply Hv1.
        by eapply elem_of_sublist.
      + apply sublist_length in Hsub. lia.
    - rewrite (map_Forall2_None _ _ _ _ Hl Hc). cbn. apply summarises_new; [done|]. by inversion Hv2. }
  split; cbn.
  - done.
  - by apply map_Forall2_insert_2.
  - apply map_Forall_insert_2; [|done]. cbn. destruct (oa_states a !! k) as [c|] eqn:Hc; [by apply (Hk k)|done].
  - rewrite <- Ha. destruct (live !! k) as [ts|] eqn:Hts; cbn.
    + rewrite (live_ticks_delete live k ts), <- insert_delete_eq, live_ticks_insert by (done || apply lookup_delete_eq).
      rewrite <- !app_assoc. do 2 f_equiv. apply Permutation_app_comm.
    + rewrite live_ticks_insert by done. rewrite <- app_assoc. f_equiv. apply Permutation_app_comm.
  - split.
    + eapply Forall_impl; [exact Hop|]. intros ts Hts. by apply sublist_snoc.
    + apply map_Forall_insert_2.
      * destruct (live !! k) as [ts|] eqn:Hts; cbn; [|by apply sublist_inserts_l].
        apply sublist_snoc_both. by apply (Hol k).
      * eapply map_Forall_impl; [exact Hol|]. intros ? ts Hts. by apply sublist_snoc.
Qed.

Lemma stale_visited a now :
  NoDup (filter (stagnant now) (visit (oa_states a))).*1 ∧
  Forall (λ kv, oa_states a !! kv.1 = Some kv.2 ∧ stagnant now kv) (filter (stagnant now) (visit (oa_states a))).
Proof.
  split.
  - eapply sublist_NoDup; [|apply fmap_sublist, sublist_filter]. rewrite visit_perm. apply NoDup_fst_map_to_list.
  - apply Forall_forall. intros [k c] [Hst Hin]%list_elem_of_filter. split; [|done].
    rewrite visit_perm in Hin. by apply elem_of_map_to_list.
Qed.

Lemma run_ops_snoc size ops o : run_ops size (ops ++ [o]) = agg_step (run_ops size ops) o.
Proof. unfold run_ops. by rewrite foldl_app. Qed.
End account.

Section candles.
Context (visit : gmap Z OHLC → list (Z * OHLC)).
Hypothesis visit_perm : ∀ m, visit m ≡ₚ map_to_list m.

Lemma agg_step_size st o : oa_windowSize (agg_step visit st o).1 = oa_windowSize st.1.
Proof.
  destruct o as [tick|now]; cbn; [|done]. unfold OHLC_AddTick. by destruct (time_after _ _).
Qed.

Lemma run_ops_size size ops : oa_windowSize (run_ops visit size ops).1 = size.
Proof.
  induction ops as [|o ops IH] using rev_ind; [done|]. by rewrite run_ops_snoc, agg_step_size.
Qed.

Lemma op_ticks_snoc ops o :
  op_ticks (ops ++ [o]) = op_ticks ops ++ match o with OpTick t => [t] | OpSweep _ => [] end.
Proof. unfold op_ticks. rewrite omap_app. by destruct o. Qed.

End candles.

Definition sample_ticks : list agg_op :=
  [OpTick (mkTick "AAPL" (f64_of_Z 101) (f64_of_Z 5) (100 * Second));
   OpTick (mkTick "AAPL" (f64_of_Z 99) (f64_of_Z 2) (100 * Second + 7));
   OpSweep (102 * Second);
   OpTick (mkTick "AAPL" (f64_of_Z 100) (f64_of_Z 1) (102 * Second))].

Lemma int_f64_valid z : - 2 ^ 53 < z < 2 ^ 53 → f64_valid (f64_of_Z z).
Proof. intros Hz. by apply f64_of_Z_scaled. Qed.


(** ** In order, one candle for each window *)

(** The time of an operation. *)
Definition op_time (o : agg_op) : Z := match o with OpTick t => tk_Timestamp t | OpSweep now => now end.

Section monotone.
Context (visit : gmap Z OHLC → list (Z * OHLC)).
Hypothesis visit_perm : ∀ m, visit m ≡ₚ map_to_list m.

(** The published windows end before [now]; the open ones are others. *)
Record windows_past (a : OHLCAggregator) (out : list OHLC) (now : Z) : Prop := {
  wp_nodup : NoDup (oh_Start <$> out);
  wp_past : Forall (λ c, oh_Start c + oa_windowSize a < now) out;
  wp_open : map_Forall (λ k c, oh_Start c = k ∧ oh_End c = k + oa_windowSize a ∧
              ¬ k ∈ oh_Start <$> out) (oa_states a);
}.

Lemma foldl_delete_lookup (stale : list (Z * OHLC)) (m : gmap Z OHLC) k c :
  foldl (λ m kv, delete kv.1 m) m stale !! k = Some c → m !! k = Some c ∧ ¬ k ∈ stale.*1.
Proof.
  revert m. induction stale as [|[j d] stale IH]; intros m Hk; cbn in *.
  { split; [done|]. by intros ?%elem_of_nil. }
  destruct (IH _ Hk) as [Hd Hn]. apply lookup_delete_Some in Hd as [Hne Hd]. split; [done|].
  by intros [->|?]%elem_of_cons.
Qed.

Lemma windows_past_step a out now o :
  0 < oa_windowSize a → now ≤ op_time o → windows_past a out now →
  windows_past (agg_step visit (a, out) o).1 (agg_step visit (a, out) o).2 (op_time o).
Proof.
  intros Hs Ht [Hnd Hp Ho]. destruct o as [tick|t]; cbn in *.
  - rewrite AddTick_never_late by done. cbn. set (k := alignTime a (tk_Timestamp tick)).
    pose proof (truncate_range (tk_Timestamp tick) _ Hs) as Hk. fold (alignTime a (tk_Timestamp tick)) in Hk.
    split; cbn; [done| |].
    + eapply Forall_impl; [exact Hp|]. cbn. intros c Hc. lia.
    + apply map_Forall_insert_2; [|done]. cbn.
      destruct (oa_states a !! k) as [c|] eqn:Hc; cbn; [by apply (Ho k)|]. split_and!; [done|done|].
      intros (c & Heq & Hin)%list_elem_of_fmap. rewrite Forall_forall in Hp. specialize (Hp c Hin).
      fold k in Hk. lia.
  - destruct (stale_visited visit visit_perm a t) as [Hnds Hall].
    set (stale := filter (stagnant t) (visit (oa_states a))) in *.
    assert (Hkeys : oh_Start <$> stale.*2 = stale.*1).
    { rewrite <- list_fmap_compose. apply list_fmap_ext. intros i [k c] Hi.
      apply (Forall_lookup_1 _ _ _ _ Hall) in Hi as [Hi _]. by destruct (Ho _ _ Hi). }
    split; cbn.
    + rewrite fmap_app, Hkeys. apply NoDup_app. split_and!; [done| |done].
      intros k Hk ([k' c] & -> & Hin)%list_elem_of_fmap. rewrite Forall_forall in Hall.
      destruct (Hall _ Hin) as [Hi _]. by destruct (Ho _ _ Hi) as (_ & _ & []).
    + apply Forall_app. split; [eapply Forall_impl; [exact Hp|]; cbn; lia|].
      apply Forall_fmap. eapply Forall_impl; [exact Hall|]. intros [k c] [Hi Hst].
      unfold stagnant, time_after in Hst. cbn in *. destruct (Ho _ _ Hi) as (-> & He & _). zb. lia.
    + intros k c Hc. apply foldl_delete_lookup in Hc as [Hc Hn]. destruct (Ho _ _ Hc) as (Hst & He & Hno).
      split_and!; [done|done|]. rewrite fmap_app, Hkeys, elem_of_app. tauto.
Qed.

(** When time does not go backwards, a window is published once. If the ticks
    of a symbol and the sweeps come with times that never decrease, no two
    published candles are of the same window, and no published window is still
    open. *)
Lemma one_candle_per_window size ops :
  0 < size → StronglySorted Z.le (op_time <$> ops) →
  NoDup (oh_Start <$> (run_ops visit size ops).2) ∧
  map_Forall (λ k _, ¬ k ∈ oh_Start <$> (run_ops visit size ops).2) (oa_states (run_ops visit size ops).1).
Proof.
  intros Hs Hsort.
  assert (∀ st now, oa_windowSize st.1 = size → StronglySorted Z.le (op_time <$> ops) →
    Forall (λ o, now ≤ op_time o) ops → windows_past st.1 st.2 now →
    ∃ now', windows_past (foldl (agg_step visit) st ops).1 (foldl (agg_step visit) st ops).2 now') as Hrun.
  { clear Hsort. induction ops as [|o ops IH]; intros [a out] now Hsz Hsort Hnow Hw; cbn [foldl fst snd] in *.
    { by exists now. }
    inversion Hsort as [|? ? Hsort' Hle]; inversion Hnow as [|? ? Hn _]; subst.
    apply (IH _ (op_time o)); [by rewrite agg_step_size|done|by rewrite Forall_fmap in Hle|].
    by apply (windows_past_step a out now). }
  destruct (Hrun (NewOHLCAggregator size, []) (match ops with [] => 0 | o :: _ => op_time o end))
    as (now & [Hnd _ Ho]); [done|done| | |].
  - destruct ops as [|o ops]; constructor; [lia|].
    inversion Hsort as [|? ? _ Hle]; subst. by apply (proj1 (Forall_fmap _ _ _) Hle).
  - split; cbn; [constructor|constructor|apply map_Forall_empty].
  - split; [done|]. eapply map_Forall_impl; [exact Ho|]. by intros k c (_ & _ & ?).
Qed.
End monotone.

Lemma one_candle_per_window_witness :
  NoDup (oh_Start <$> (run_ops map_to_list Second sample_ticks).2) ∧
  map_Forall (λ k _, ¬ k ∈ oh_Start <$> (run_ops map_to_list Second sample_ticks).2)
    (oa_states (run_ops map_to_list Second sample_ticks).1).
Proof.
  apply (one_candle_per_window map_to_list (λ m, Permutation_refl _) Second sample_ticks).
  - unfold Second, Millisecond. lia.
  - cbn. unfold Second, Millisecond. repeat constructor; lia.
Defined.

(** ** Ticks that come late *)

(** A tick of a window that is already published is not rejected. The engine
    passes the tick's own time as the current time, so no window of positive size
    ever answers late, and a tick for a window that was flushed opens the window
    again, with a candle that holds this tick alone. *)
Lemma late_tick_reopens_window has_publisher s tick :
  sa_deleted s = false → Forall (λ a, 0 < oa_windowSize a) (sa_ohlcs s) →
  ∃ s' published, Symbol_AddTick has_publisher s tick = Added s' false published ∧
    (∀ i a, sa_ohlcs s !! i = Some a → oa_states a !! alignTime a (tk_Timestamp tick) = None →
      ∃ a' c, sa_ohlcs s' !! i = Some a' ∧ oa_states a' !! alignTime a (tk_Timestamp tick) = Some c ∧
        oh_TradeCount c = 1 ∧ oh_Open c = tk_Price tick ∧ oh_Close c = tk_Price tick ∧
        oh_Volume c = f64_add f64_zero (tk_Volume tick)).
Proof.
  intros Hd Hs. unfold Symbol_AddTick. rewrite Hd. unfold add_to_windows.
  set (rs := (λ a, OHLC_AddTick a tick (tk_Timestamp tick)) <$> sa_ohlcs s).
  assert (Hlate : existsb snd rs = false).
  { unfold rs. clear rs. induction Hs as [|a l Ha Hl IH]; [done|]. cbn [fmap list_fmap existsb].
    by rewrite AddTick_never_late, IH by done. }
  rewrite Hlate. destruct (VWAP_AddTick (sa_vwap s) tick) as [vwap cur].
  assert (Hnew : ∀ i a, sa_ohlcs s !! i = Some a → oa_states a !! alignTime a (tk_Timestamp tick) = None →
      ∃ a' c, rs.*1 !! i = Some a' ∧ oa_states a' !! alignTime a (tk_Timestamp tick) = Some c ∧
        oh_TradeCount c = 1 ∧ oh_Open c = tk_Price tick ∧ oh_Close c = tk_Price tick ∧
        oh_Volume c = f64_add f64_zero (tk_Volume tick)).
  { intros i a Hi Hno. pose proof (Forall_lookup_1 _ _ _ _ Hs Hi) as Ha.
    eexists _, _. split; [unfold rs; rewrite !list_lookup_fmap, Hi; reflexivity|].
    cbv beta. rewrite AddTick_never_late by done. cbn. rewrite Hno, lookup_insert_eq. done. }
  destruct (has_publisher && _); eexists _, _; (split; [reflexivity|]); exact Hnew.
Qed.

Definition late_windows : symbolAggregator :=
  mkSymbolAggregator "AAPL" [(run_ops map_to_list Second (take 3 sample_ticks)).1] NewVWAPAggregator 0 0 0 false.

(** The window of second 100 was published by the sweep at second 102. *)
Lemma late_tick_reopens_window_witness :
  ∃ s' published,
    Symbol_AddTick true late_windows (mkTick "AAPL" (f64_of_Z 98) f64_one (100 * Second + 9)) =
      Added s' false published ∧
    ∃ a' c, sa_ohlcs s' !! 0%nat = Some a' ∧ oa_states a' !! (100 * Second) = Some c ∧ oh_TradeCount c = 1.
Proof.
  destruct (late_tick_reopens_window true late_windows (mkTick "AAPL" (f64_of_Z 98) f64_one (100 * Second + 9)))
    as (s' & published & He & Hr).
  - reflexivity.
  - constructor; [vm_compute; reflexivity|constructor].
  - exists s', published. split; [exact He|].
    destruct (Hr 0%nat (mkOHLCAggregator Second ∅)) as (a' & c & H1 & H2 & H3 & _).
    + vm_compute. reflexivity.
    + vm_compute. reflexivity.
    + exists a', c. split; [exact H1|]. split; [exact H2|exact H3].
Defined.

(** The eviction of a symbol loses its open candles. When the last tick of a
    symbol is more than 24 hours older than the clock, as for replayed history,
    the next sweep drops the symbol with every open window: nothing is sent to
    the publishers, and nothing is counted as dropped. *)
Lemma eviction_loses_open_candles visit civil_day e tick nows now e' p :
  en_symbols e !! tk_Symbol tick = Some p → (∃ s, en_aggs e !! p = Some s ∧ sa_deleted s = false) →
  24 * Hour < now - tk_Timestamp tick < 2 ^ 63 →
  ProcessTick 1 e tick nows = Some e' →
  en_symbols (sweep_symbol visit civil_day e' (tk_Symbol tick) p now) !! tk_Symbol tick = None ∧
  en_publishCh (sweep_symbol visit civil_day e' (tk_Symbol tick) p now) = en_publishCh e ∧
  en_dropped (sweep_symbol visit civil_day e' (tk_Symbol tick) p now) = en_dropped e.
Proof.
  intros Hp (s & Hs & Hdel) Hold Hproc. cbn in Hproc. unfold load_or_store in Hproc. rewrite Hp in Hproc.
  unfold engine_add in Hproc. rewrite Hs in Hproc.
  destruct (Symbol_AddTick (en_publisher e) s tick) as [|s' late pub] eqn:Hadd; [done|].
  assert (Hlast : sa_lastUpdate s' = tk_Timestamp tick).
  { unfold Symbol_AddTick in Hadd. rewrite Hdel in Hadd. destruct (add_to_windows _ _ _), (VWAP_AddTick _ _).
    destruct (_ && _); by injection Hadd as <- _ _. }
  injection Hproc as <-. unfold sweep_symbol. cbn.
  rewrite list_lookup_insert_eq by (by eapply lookup_lt_Some). rewrite Hlast, time_sub_small by (unfold Hour, Minute, Second, Millisecond in *; go_lia).
  rewrite (proj2 (Z.ltb_lt _ _)) by lia. cbn. split_and!; [apply lookup_delete_eq|done|done].
Qed.

Definition replaying : Engine :=
  (load_or_store (NewEngine true []) "AAPL" (0, 0, 0)).1.

Lemma eviction_loses_open_candles_witness :
  let tick := mkTick "AAPL" f64_one f64_one 0 in
  let e' := default replaying (ProcessTick 1 replaying tick (0, 0, 0)) in
  en_symbols (sweep_symbol map_to_list (λ t, t / (24 * Hour)) e' "AAPL" 0 (25 * Hour)) !! "AAPL" = None ∧
  en_publishCh (sweep_symbol map_to_list (λ t, t / (24 * Hour)) e' "AAPL" 0 (25 * Hour)) = [] ∧
  en_dropped (sweep_symbol map_to_list (λ t, t / (24 * Hour)) e' "AAPL" 0 (25 * Hour)) = 0.
Proof.
  intros tick e'.
  apply (eviction_loses_open_candles map_to_list (λ t, t / (24 * Hour)) replaying tick (0, 0, 0) (25 * Hour) e' 0).
  - reflexivity.
  - eexists. split; reflexivity.
  - unfold tick, Hour, Minute, Second, Millisecond. cbn. lia.
  - reflexivity.
Defined.

(** ** The sums are exact on integers *)

Definition int_tick (symbol : string) (pvt : Z * Z * Z) : Tick :=
  mkTick symbol (f64_of_Z pvt.1.1) (f64_of_Z pvt.1.2) pvt.2.

Definition run_vwap (ticks : list Tick) : VWAPAggregator :=
  foldl (λ v t, (VWAP_AddTick v t).1) NewVWAPAggregator ticks.

Definition sum_pv (l : list (Z * Z * Z)) : Z := foldr (λ x s, x.1.1 * x.1.2 + s) 0 l.
Definition sum_v (l : list (Z * Z * Z)) : Z := foldr (λ x s, x.1.2 + s) 0 l.

Lemma kahan_exact s x :
  - 2 ^ 53 < s < 2 ^ 53 → - 2 ^ 53 < x < 2 ^ 53 → - 2 ^ 53 < s + x < 2 ^ 53 →
  kahan_step (f64_of_Z s) f64_zero (f64_of_Z x) = (f64_of_Z (s + x), f64_zero).
Proof.
  intros Hs Hx Hsx. unfold kahan_step, f64_zero. rewrite f64_sub_int by lia. rewrite Z.sub_0_r.
  rewrite f64_add_int, f64_sub_int by lia. replace (s + x - s) with x by lia.
  rewrite f64_sub_int, Z.sub_diag by lia. done.
Qed.

Lemma kahan_first x :
  - 2 ^ 53 < x < 2 ^ 53 → kahan_step f64_zero f64_zero (f64_of_Z x) = (f64_of_Z x, f64_zero).
Proof. intros Hx. apply (kahan_exact 0 x); lia. Qed.

Lemma sums_snoc l x :
  sum_pv (l ++ [x]) = sum_pv l + x.1.1 * x.1.2 ∧ sum_v (l ++ [x]) = sum_v l + x.1.2.
Proof.
  unfold sum_pv, sum_v. induction l as [|y l [IH1 IH2]]; cbn [app foldr]; [lia|]. rewrite IH1, IH2. lia.
Qed.

Lemma sums_nonneg l :
  Forall (λ x : Z * Z * Z, 0 ≤ x.1.1 ∧ 0 < x.1.2) l → 0 ≤ sum_pv l ∧ 0 ≤ sum_v l.
Proof.
  unfold sum_pv, sum_v. induction 1 as [|x l Hx _ IH]; cbn [foldr]; [lia|].
  assert (0 ≤ x.1.1 * x.1.2) by nia. lia.
Qed.

(** The compensated sums are exact on integers, and the price is their
    correctly rounded quotient. For ticks with integer prices and positive integer
    volumes whose totals stay below 2^53, the aggregator holds exactly the sum of
    price times volume and the sum of volumes, with no compensation left, and its
    VWAP is their quotient rounded once. *)
Lemma vwap_exact_on_integers symbol l x :
  Forall (λ x : Z * Z * Z, 0 ≤ x.1.1 ∧ 0 < x.1.2) (x :: l) →
  Forall (λ x : Z * Z * Z, x.1.1 < 2 ^ 53 ∧ x.1.2 < 2 ^ 53) (x :: l) →
  sum_pv (x :: l) < 2 ^ 53 → sum_v (x :: l) < 2 ^ 53 →
  run_vwap (int_tick symbol <$> x :: l) =
  mkVWAPAggregator (Some (mkVWAP symbol x.2 zero_time (f64_of_Z (sum_pv (x :: l))) (f64_of_Z (sum_v (x :: l)))
    (f64_div (f64_of_Z (sum_pv (x :: l))) (f64_of_Z (sum_v (x :: l)))))) f64_zero f64_zero.
Proof.
  induction l as [|y l IH] using rev_ind; intros Hpos Hlt Hpv Hv.
  - inversion Hpos as [|? ? [H1 H2] _]; inversion Hlt as [|? ? [H3 H4] _]; subst. cbn in Hpv, Hv.
    cbn [run_vwap foldl fmap list_fmap sum_pv sum_v foldr]. unfold run_vwap. cbn [foldl].
    unfold VWAP_AddTick, int_tick. cbn [va_state default va_cPriceVol va_cVol NewVWAPAggregator tk_Price tk_Volume
      tk_Symbol tk_Timestamp vw_CumulativePriceVolume vw_CumulativeVolume vw_Symbol vw_Start vw_End vw_VWAP].
    assert (Hpv0 : 0 ≤ x.1.1 * x.1.2) by nia.
    rewrite f64_mul_int by lia. rewrite !kahan_first by lia. unfold f64_zero at 1.
    rewrite f64_ltb_int, (proj2 (Z.ltb_lt _ _)) by lia. rewrite !Z.add_0_r. done.
  - rewrite app_comm_cons in *. destruct (sums_snoc (x :: l) y) as [Hs1 Hs2]. rewrite Hs1, Hs2 in *.
    apply Forall_app in Hpos as [Hpos Hy], Hlt as [Hlt Hy']. inversion Hy as [|? ? [H1 H2] _]; inversion Hy' as [|? ? [H3 H4] _]; subst.
    pose proof (sums_nonneg _ Hpos) as [Hn1 Hn2]. assert (0 ≤ y.1.1 * y.1.2) by nia.
    unfold run_vwap in *. rewrite fmap_app, foldl_app, IH by (done || lia). cbn [foldl fmap list_fmap].
    unfold VWAP_AddTick, int_tick. cbn [va_state default va_cPriceVol va_cVol tk_Price tk_Volume
      tk_Symbol tk_Timestamp vw_CumulativePriceVolume vw_CumulativeVolume vw_Symbol vw_Start vw_End vw_VWAP fst].
    cbn [id vw_CumulativePriceVolume vw_CumulativeVolume vw_Symbol vw_Start vw_End vw_VWAP].
    rewrite f64_mul_int by lia. rewrite !kahan_exact by lia.
    unfold f64_zero at 1. rewrite f64_ltb_int, (proj2 (Z.ltb_lt _ _)) by lia. done.
Qed.

Lemma vwap_exact_on_integers_witness :
  run_vwap (int_tick "AAPL" <$> [(150, 3, 7); (152, 1, 9)]) =
  mkVWAPAggregator (Some (mkVWAP "AAPL" 7 zero_time (f64_of_Z 602) (f64_of_Z 4)
    (f64_div (f64_of_Z 602) (f64_of_Z 4)))) f64_zero f64_zero.
Proof.
  apply (vwap_exact_on_integers "AAPL" [(152, 1, 9)] (150, 3, 7)).
  - repeat constructor; cbn; lia.
  - repeat constructor; cbn; lia.
  - cbn. lia.
  - cbn. lia.
Defined.

(** ** Ticks against the sweeper

    Goroutines that run [ProcessTick] interleave with the sweeper: the load of the
    map, [LoadOrStore], [AddTick] under the aggregator's lock, and the sweeper's
    turn for one symbol under the same lock are the atomic steps. *)

Inductive tick_pc := PLoad | PStore | PAdd (p : nat) | PDone.

Definition tick_step (e : Engine) (tick : Tick) (pc : tick_pc) (nows : Z * Z * Z) : Engine * tick_pc :=
  match pc with
  | PLoad => match en_symbols e !! tk_Symbol tick with Some p => (e, PAdd p) | None => (e, PStore) end
  | PStore => let '(e, p) := load_or_store e (tk_Symbol tick) nows in (e, PAdd p)
  | PAdd p => match engine_add e p tick with Some e => (e, PDone) | None => (e, PLoad) end
  | PDone => (e, PDone)
  end.

Record tick_world := mkTickWorld { tw_engine : Engine; tw_threads : list (Tick * tick_pc) }.

Section race.
Context (visit : gmap Z OHLC → list (Z * OHLC)) (civil_day : Z → Z).

Inductive tw_step : tick_world → tick_world → Prop :=
| tw_spawn e ts tick : tw_step (mkTickWorld e ts) (mkTickWorld e (ts ++ [(tick, PLoad)]))
| tw_thread e ts i tick pc nows e' pc' : ts !! i = Some (tick, pc) → tick_step e tick pc nows = (e', pc') →
    tw_step (mkTickWorld e ts) (mkTickWorld e' (<[i := (tick, pc')]> ts))
| tw_sweep e ts key p now : en_symbols e !! key = Some p →
    tw_step (mkTickWorld e ts) (mkTickWorld (sweep_symbol visit civil_day e key p now) ts).

(** The map names live aggregators; a goroutine holds an aggregator that exists. *)
Definition mapped_live (e : Engine) : Prop :=
  ∀ key p, en_symbols e !! key = Some p →
    ∃ s, en_aggs e !! p = Some s ∧ sa_deleted s = false ∧ sa_symbol s = key.

Definition held (e : Engine) (t : Tick * tick_pc) : Prop :=
  match t.2 with PAdd p => ∃ s, en_aggs e !! p = Some s ∧ sa_symbol s = tk_Symbol t.1 | _ => True end.

Definition tw_inv (w : tick_world) : Prop :=
  mapped_live (tw_engine w) ∧ Forall (held (tw_engine w)) (tw_threads w).

(** The aggregators are never removed and keep their symbol. *)
Definition aggs_grow (e e' : Engine) : Prop :=
  ∀ p s, en_aggs e !! p = Some s → ∃ s', en_aggs e' !! p = Some s' ∧ sa_symbol s' = sa_symbol s.

Lemma held_grow e e' t : aggs_grow e e' → held e t → held e' t.
Proof.
  intros Hg. unfold held. destruct (t.2); try done. intros (s & Hs & Hsy).
  destruct (Hg _ _ Hs) as (s' & Hs' & Hsy'). exists s'. by rewrite Hsy'.
Qed.

Lemma publish_frame e candles :
  en_symbols (foldl publishOHLC e candles) = en_symbols e ∧ en_aggs (foldl publishOHLC e candles) = en_aggs e.
Proof.
  revert e. induction candles as [|c candles IH]; intros e; [done|]. cbn.
  destruct (IH (publishOHLC e c)) as [-> ->]. unfold publishOHLC. by case_if.
Qed.

(** An update of one aggregator. *)
Lemma update_agg e e' p s s' :
  en_aggs e !! p = Some s → en_symbols e' = en_symbols e → en_aggs e' = <[p := s']> (en_aggs e) →
  sa_symbol s' = sa_symbol s → sa_deleted s' = sa_deleted s →
  aggs_grow e e' ∧ (mapped_live e → mapped_live e').
Proof.
  intros Hs He Ha Hsy Hd. assert (Hp : (p < length (en_aggs e))%nat) by (by eapply lookup_lt_Some). split.
  - intros q t Ht. rewrite Ha. destruct (decide (p = q)) as [->|Hne].
    + rewrite list_lookup_insert_eq by done. exists s'. split; [done|congruence].
    + rewrite list_lookup_insert_ne by done. eauto.
  - intros Hm key q Hq. rewrite He in Hq. destruct (Hm key q Hq) as (t & Ht & Hdt & Hst). rewrite Ha.
    destruct (decide (p = q)) as [->|Hne].
    + rewrite list_lookup_insert_eq by done. exists s'. split_and!; [done|congruence|congruence].
    + rewrite list_lookup_insert_ne by done. eauto.
Qed.

Lemma sweep_grows e key p now :
  mapped_live e → en_symbols e !! key = Some p →
  aggs_grow e (sweep_symbol visit civil_day e key p now) ∧ mapped_live (sweep_symbol visit civil_day e key p now).
Proof.
  intros Hm Hp. destruct (Hm _ _ Hp) as (s & Hs & Hd & Hsy).
  assert (Hlt : (p < length (en_aggs e))%nat) by (by eapply lookup_lt_Some).
  unfold sweep_symbol. rewrite Hs. destruct (24 * Hour <? _).
  - split.
    + intros q t Ht. cbn. destruct (decide (p = q)) as [->|Hne].
      * rewrite list_lookup_insert_eq by done. eexists. split; [done|]. cbn. congruence.
      * rewrite list_lookup_insert_ne by done. eauto.
    + intros key' q Hq. cbn in *. apply lookup_delete_Some in Hq as [Hne Hq].
      destruct (Hm _ _ Hq) as (t & Ht & Hdt & Hst). exists t. split_and!; [|done|done].
      rewrite list_lookup_insert_ne; [done|]. intros ->. congruence.
  - destruct (flush_windows visit (sa_ohlcs s) now) as [ohlcs candles].
    match goal with |- context [set_agg e p ?s'] => set (s1 := s') end.
    destruct (publish_frame (set_agg e p s1) candles) as [H1 H2].
    destruct (update_agg e (foldl publishOHLC (set_agg e p s1) candles) p s s1) as [Hg Hml]; auto.
Qed.

Lemma add_grows e p s tick e' :
  en_aggs e !! p = Some s → engine_add e p tick = Some e' →
  ∃ s', en_symbols e' = en_symbols e ∧ en_aggs e' = <[p := s']> (en_aggs e) ∧ sa_symbol s' = sa_symbol s ∧
    sa_deleted s = false ∧ sa_deleted s' = false ∧ sa_lastUpdate s' = tk_Timestamp tick.
Proof.
  intros Hs. unfold engine_add. rewrite Hs. unfold Symbol_AddTick. destruct (sa_deleted s) eqn:Hd; [done|].
  destruct (add_to_windows _ _ _), (VWAP_AddTick _ _). destruct (_ && _); intros [= <-]; by eexists.
Qed.

Lemma store_grows e symbol nows e' p :
  mapped_live e → load_or_store e symbol nows = (e', p) →
  aggs_grow e e' ∧ mapped_live e' ∧ en_symbols e' !! symbol = Some p.
Proof.
  intros Hm. unfold load_or_store. destruct (en_symbols e !! symbol) as [q|] eqn:Hq; intros [= <- <-].
  { split_and!; [|done|done]. intros ? s Hs. by exists s. }
  split_and!.
  - intros q s Hs. exists s. cbn. split; [|done]. by apply lookup_app_l_Some.
  - intros key q Hk. cbn in *. apply lookup_insert_Some in Hk as [[<- <-]|[Hne Hk]].
    + eexists. rewrite lookup_app_r, Nat.sub_diag by lia. done.
    + destruct (Hm _ _ Hk) as (s & Hs & ?). exists s. split; [by apply lookup_app_l_Some|done].
  - cbn. apply lookup_insert_eq.
Qed.

Lemma tw_inv_step w w' : tw_inv w → tw_step w w' → tw_inv w'.
Proof.
  intros [Hm Hh] Hstep. destruct Hstep as [e ts tick|e ts i tick pc nows e' pc' Hi Hst|e ts key p now Hp];
    unfold tw_inv in *; cbn [tw_engine tw_threads] in *.
  - split; [done|]. apply Forall_app. split; [done|]. by constructor.
  - pose proof (Forall_lookup_1 _ _ _ _ Hh Hi) as Hhi.
    assert (aggs_grow e e' ∧ mapped_live e' ∧ held e' (tick, pc')) as (Hg & Hm' & Hh').
    { assert (Hrefl : aggs_grow e e) by (intros ? s Hs; by exists s).
      unfold held in Hhi. cbn in Hhi. destruct pc as [| |p|]; cbn in Hst.
      - destruct (en_symbols e !! tk_Symbol tick) as [p|] eqn:Hp; injection Hst as <- <-; [|done].
        split_and!; [done|done|]. destruct (Hm _ _ Hp) as (s & Hs & _ & Hsy). by exists s.
      - destruct (load_or_store e (tk_Symbol tick) nows) as [e1 p] eqn:Hls. injection Hst as <- <-.
        destruct (store_grows _ _ _ _ _ Hm Hls) as (Hg & Hm' & Hp). split_and!; [done|done|].
        destruct (Hm' _ _ Hp) as (s & Hs & _ & Hsy). by exists s.
      - destruct Hhi as (s & Hs & Hsy). destruct (engine_add e p tick) as [e1|] eqn:Hadd; injection Hst as <- <-; [|done].
        destruct (add_grows _ _ _ _ _ Hs Hadd) as (s' & He & Ha & Hsy' & Hd & Hd' & _).
        destruct (update_agg e e1 p s s') as [Hg Hml]; [done|done|done|done|congruence|]. split_and!; [done|by apply Hml|done].
      - injection Hst as <- <-. done. }
    split; [done|]. apply Forall_insert; [|done]. eapply Forall_impl; [exact Hh|]. intros t. by apply held_grow.
  - destruct (sweep_grows e key p now Hm Hp) as [Hg Hm']. split; [done|].
    eapply Forall_impl; [exact Hh|]. intros t. by apply held_grow.
Qed.

Definition tw_start (publisher : bool) (windows : list Z) : tick_world :=
  mkTickWorld (NewEngine publisher windows) [].

Lemma tw_inv_reachable publisher windows w : rtc tw_step (tw_start publisher windows) w → tw_inv w.
Proof.
  intros Hr. assert (tw_inv (tw_start publisher windows)) as H0.
  { split; [|constructor]. intros key p. cbn. by rewrite lookup_empty. }
  induction Hr as [|w1 w2 w3 Hs _ IH]; [done|]. apply IH. by apply (tw_inv_step w1).
Qed.

(** The goroutine on its own. *)
Fixpoint tick_solo (n : nat) (e : Engine) (tick : Tick) (pc : tick_pc) (nows : Z * Z * Z) : Engine * tick_pc :=
  match n with O => (e, pc) | S n => let '(e, pc) := tick_step e tick pc nows in tick_solo n e tick pc nows end.

Lemma tick_solo_done n e tick nows : tick_solo n e tick PDone nows = (e, PDone).
Proof. induction n; [done|]. done. Qed.

Lemma tick_solo_add n e tick p nows s :
  en_aggs e !! p = Some s → sa_deleted s = false →
  ∃ e' s', tick_solo (S n) e tick (PAdd p) nows = (e', PDone) ∧ en_symbols e' = en_symbols e ∧
    en_aggs e' !! p = Some s' ∧ sa_lastUpdate s' = tk_Timestamp tick.
Proof.
  intros Hs Hd. destruct (engine_add e p tick) as [e'|] eqn:Hadd.
  - destruct (add_grows _ _ _ _ _ Hs Hadd) as (s' & He & Ha & _ & _ & _ & Hl). exists e', s'. cbn [tick_solo tick_step].
    rewrite Hadd, tick_solo_done, Ha. split_and!; [done|done| |done].
    apply list_lookup_insert_eq. by eapply lookup_lt_Some.
  - unfold engine_add in Hadd. rewrite Hs in Hadd. unfold Symbol_AddTick in Hadd. rewrite Hd in Hadd.
    destruct (add_to_windows _ _ _), (VWAP_AddTick _ _). by destruct (_ && _).
Qed.

Lemma tick_solo_store n e tick nows :
  mapped_live e → ∃ e' p s', tick_solo (S (S n)) e tick PStore nows = (e', PDone) ∧
    en_symbols e' !! tk_Symbol tick = Some p ∧ en_aggs e' !! p = Some s' ∧ sa_lastUpdate s' = tk_Timestamp tick.
Proof.
  intros Hm. cbn [tick_solo tick_step]. destruct (load_or_store e (tk_Symbol tick) nows) as [e1 p] eqn:Hls.
  destruct (store_grows _ _ _ _ _ Hm Hls) as (_ & Hm' & Hp). destruct (Hm' _ _ Hp) as (s & Hs & Hd & _).
  destruct (tick_solo_add n e1 tick p nows s Hs Hd) as (e' & s' & Hsolo & Hsym & Hs' & Hl).
  exists e', p, s'. rewrite Hsym. split_and!; done.
Qed.

Lemma tick_solo_load n e tick nows :
  mapped_live e → ∃ e' p s', tick_solo (S (S (S n))) e tick PLoad nows = (e', PDone) ∧
    en_symbols e' !! tk_Symbol tick = Some p ∧ en_aggs e' !! p = Some s' ∧ sa_lastUpdate s' = tk_Timestamp tick.
Proof.
  intros Hm. destruct (en_symbols e !! tk_Symbol tick) as [p|] eqn:Hp.
  - destruct (Hm _ _ Hp) as (s & Hs & Hd & _).
    destruct (tick_solo_add (S n) e tick p nows s Hs Hd) as (e' & s' & Hsolo & Hsym & Hs' & Hl).
    exists e', p, s'. split_and!; [|by rewrite Hsym|done|done]. revert Hsolo. cbn [tick_solo tick_step]. by rewrite Hp.
  - destruct (tick_solo_store n e tick nows Hm) as (e' & p & s' & Hsolo & ?). exists e', p, s'. split; [|done].
    revert Hsolo. cbn [tick_solo tick_step]. by rewrite Hp.
Qed.

End race.

