(* ===== verification/Bus.v ===== *)
(** * Bus: the in-memory bus and the publisher that logs first

    [internal/pubsub/memory.go] and [internal/wal/publisher.go]. The bus keeps, for
    each symbol, a slice of subscribers; a slice is a window on a backing array,
    and arrays live in a store because [unsubscribe] filters a slice in place
    while [Publish] may be iterating over it. A subscription and its one entry
    are one record, named by its address. *)

From Stdlib Require Import Strings.Byte.
From S2P Require Import Prelude Bytes WalCodec WalIndex WalSegment WalLog WalManager MarketEvent.

(** ** The publisher interface (pubsub.go) *)

Class Publisher (P Ev : Type) := pb_Publish : P → Ev → outcome P.

(** ** The bus (memory.go) *)

Definition channelBuffer : nat := 256.

Section bus.
Context {Ev : Type} (ev_symbol : Ev → string).
(** The capacity of the array that [append] allocates for a full one. *)
Context (grow : nat → nat).

(** [memorySub] and its [entry]: the channel's buffer, whether it is closed, the
    flag of the subscription, the flag of the entry and its drop count. *)
Record memorySub := mkMemorySub {
  ms_id : string;
  ms_symbols : list string;
  ms_ch : list Ev;
  ms_chClosed : bool;
  ms_closed : bool;
  en_closed : bool;
  en_dropped : Z;
}.

(** [b.subscribers[sym]]: the address of the backing array and the length. *)
Record slice := mkSlice { sl_array : nat; sl_len : nat }.

Record MemoryBus := mkMemoryBus {
  mb_subscribers : gmap string slice;
  mb_arrays : list (list nat);
  mb_subs : list memorySub;
  mb_snapshot : gmap string Ev;
}.

Definition NewMemoryBus : MemoryBus := mkMemoryBus ∅ [] [] ∅.

Definition sl_read (arrays : list (list nat)) (s : slice) : list nat :=
  take (sl_len s) (default [] (arrays !! sl_array s)).

Definition entries (b : MemoryBus) (sym : string) : list nat :=
  match mb_subscribers b !! sym with Some s => sl_read (mb_arrays b) s | None => [] end.

(** [append(s, e)]: in place while the array has room, else into a new array. The
    cells beyond the length hold what is left there, 0 when the array is new. *)
Definition sl_append (arrays : list (list nat)) (s : option slice) (e : nat) : list (list nat) * slice :=
  let s := default (mkSlice (length arrays) 0) s in
  let arr := default [] (arrays !! sl_array s) in
  if (sl_len s <? length arr)%nat
  then (<[sl_array s := <[sl_len s := e]> arr]> arrays, mkSlice (sl_array s) (S (sl_len s)))
  else (arrays ++ [take (sl_len s) arr ++ e :: replicate (grow (sl_len s) - S (sl_len s)) 0%nat],
        mkSlice (length arrays) (S (sl_len s))).

Fixpoint register (b : MemoryBus) (e : nat) (symbols : list string) : MemoryBus :=
  match symbols with
  | [] => b
  | sym :: symbols =>
      let '(arrays, s) := sl_append (mb_arrays b) (mb_subscribers b !! sym) e in
      register (mkMemoryBus (<[sym := s]> (mb_subscribers b)) arrays (mb_subs b) (mb_snapshot b)) e symbols
  end.

(** A non-blocking send; [None] is the panic of a send on a closed channel. The
    boolean says whether the value was taken. *)
Definition offer (s : memorySub) (ev : Ev) : option (memorySub * bool) :=
  if ms_chClosed s then None
  else if (length (ms_ch s) <? channelBuffer)%nat
  then Some (mkMemorySub (ms_id s) (ms_symbols s) (ms_ch s ++ [ev]) false (ms_closed s) (en_closed s)
               (en_dropped s), true)
  else Some (s, false).

Definition count_drop (s : memorySub) : memorySub :=
  mkMemorySub (ms_id s) (ms_symbols s) (ms_ch s) (ms_chClosed s) (ms_closed s) (en_closed s)
    (u64 (en_dropped s + 1)).

(** The snapshots sent to a new subscriber. *)
Fixpoint send_snapshots (snapshot : gmap string Ev) (s : memorySub) (symbols : list string)
    : outcome memorySub :=
  match symbols with
  | [] => Ret s
  | sym :: symbols =>
      match snapshot !! sym with
      | None => send_snapshots snapshot s symbols
      | Some last =>
          match offer s last with
          | None => Panic
          | Some (s, _) => send_snapshots snapshot s symbols
          end
      end
  end.

Definition set_sub (b : MemoryBus) (e : nat) (s : memorySub) : MemoryBus :=
  mkMemoryBus (mb_subscribers b) (mb_arrays b) (<[e := s]> (mb_subs b)) (mb_snapshot b).

(** [Subscribe] in its two critical sections: the registration, the snapshots. *)
Definition Subscribe_register (b : MemoryBus) (id : string) (symbols : list string) : MemoryBus * nat :=
  let e := length (mb_subs b) in
  let s := mkMemorySub id symbols [] false false false 0 in
  (register (mkMemoryBus (mb_subscribers b) (mb_arrays b) (mb_subs b ++ [s]) (mb_snapshot b)) e symbols, e).

Definition Subscribe_snapshot (b : MemoryBus) (e : nat) : outcome MemoryBus :=
  match mb_subs b !! e with
  | None => Ret b
  | Some s =>
      match send_snapshots (mb_snapshot b) s (ms_symbols s) with
      | Panic => Panic
      | Ret s => Ret (set_sub b e s)
      end
  end.

Definition Subscribe (b : MemoryBus) (id : string) (symbols : list string) : outcome (MemoryBus * nat) :=
  let '(b, e) := Subscribe_register b id symbols in
  match Subscribe_snapshot b e with Panic => Panic | Ret b => Ret (b, e) end.

(** [filtered := entries[:0]] and the loop that appends to it: the kept entries
    overwrite the front of the same array. *)
Definition filter_slice (arr : list nat) (len e : nat) : list nat * nat :=
  let kept := filter (λ x, x ≠ e) (take len arr) in (kept ++ drop (length kept) arr, length kept).

Definition close_entry (s : memorySub) : memorySub :=
  mkMemorySub (ms_id s) (ms_symbols s) (ms_ch s) (ms_chClosed s) (ms_closed s) true (en_dropped s).

Fixpoint unsubscribe_locked (b : MemoryBus) (e : nat) (symbols : list string) : MemoryBus :=
  match symbols with
  | [] => b
  | sym :: symbols =>
      match mb_subscribers b !! sym with
      | None => unsubscribe_locked
                  (mkMemoryBus (delete sym (mb_subscribers b)) (mb_arrays b) (mb_subs b) (mb_snapshot b)) e symbols
      | Some s =>
          let arr := default [] (mb_arrays b !! sl_array s) in
          let '(arr', n) := filter_slice arr (sl_len s) e in
          let subs := if bool_decide (e ∈ take (sl_len s) arr) then alter close_entry e (mb_subs b)
                      else mb_subs b in
          let arrays := <[sl_array s := arr']> (mb_arrays b) in
          let subscribers := if (n =? 0)%nat then delete sym (mb_subscribers b)
                             else <[sym := mkSlice (sl_array s) n]> (mb_subscribers b) in
          unsubscribe_locked (mkMemoryBus subscribers arrays subs (mb_snapshot b)) e symbols
      end
  end.

(** [close(s.sendCh)]. *)
Definition close_chan (s : memorySub) : memorySub :=
  mkMemorySub (ms_id s) (ms_symbols s) (ms_ch s) true (ms_closed s) (en_closed s) (en_dropped s).

(** [Cancel]: the flag, the critical section, the close. *)
Definition Cancel_flag (b : MemoryBus) (e : nat) : option MemoryBus :=
  match mb_subs b !! e with
  | None => None
  | Some s =>
      if ms_closed s then None
      else Some (set_sub b e (mkMemorySub (ms_id s) (ms_symbols s) (ms_ch s) (ms_chClosed s) true (en_closed s)
                                (en_dropped s)))
  end.

Definition Cancel_unsubscribe (b : MemoryBus) (e : nat) : MemoryBus :=
  match mb_subs b !! e with None => b | Some s => unsubscribe_locked b e (ms_symbols s) end.

Definition Cancel_close (b : MemoryBus) (e : nat) : MemoryBus :=
  mkMemoryBus (mb_subscribers b) (mb_arrays b) (alter close_chan e (mb_subs b)) (mb_snapshot b).

Definition Cancel (b : MemoryBus) (e : nat) : MemoryBus :=
  match Cancel_flag b e with None => b | Some b => Cancel_close (Cancel_unsubscribe b e) e end.

(** [Publish]: the snapshot, the slice of entries, and one turn for each. *)
Definition Publish_snapshot (b : MemoryBus) (ev : Ev) : MemoryBus :=
  mkMemoryBus (mb_subscribers b) (mb_arrays b) (mb_subs b) (<[ev_symbol ev := ev]> (mb_snapshot b)).

(** The send to one entry, after its flag was read as open. *)
Definition Publish_send (b : MemoryBus) (e : nat) (ev : Ev) : outcome MemoryBus :=
  match mb_subs b !! e with
  | None => Panic
  | Some s =>
      match offer s ev with
      | None => Panic
      | Some (s, true) => Ret (set_sub b e s)
      | Some (s, false) => Ret (set_sub b e (count_drop s))
      end
  end.

Definition is_open (b : MemoryBus) (e : nat) : bool :=
  match mb_subs b !! e with Some s => negb (en_closed s) | None => true end.

Fixpoint Publish_loop (b : MemoryBus) (es : list nat) (ev : Ev) : outcome MemoryBus :=
  match es with
  | [] => Ret b
  | e :: es =>
      if is_open b e then
        match Publish_send b e ev with Panic => Panic | Ret b => Publish_loop b es ev end
      else Publish_loop b es ev
  end.

Definition Publish (b : MemoryBus) (ev : Ev) : outcome MemoryBus :=
  let b := Publish_snapshot b ev in Publish_loop b (entries b (ev_symbol ev)) ev.

#[export] Instance MemoryBus_Publisher : Publisher MemoryBus Ev := Publish.

(** [Run]: publishes until the channel is closed or the context is done. *)
Inductive quote_event := Quote (q : Ev) | QuotesClosed | CtxDone.

Fixpoint MemoryBus_Run (b : MemoryBus) (evs : list quote_event) : outcome MemoryBus :=
  match evs with
  | [] | QuotesClosed :: _ | CtxDone :: _ => Ret b
  | Quote q :: evs => match Publish b q with Panic => Panic | Ret b => MemoryBus_Run b evs end
  end.
End bus.
Arguments memorySub : clear implicits.
Arguments MemoryBus : clear implicits.

(** ** Slices *)

Section laws.
Context {Ev : Type} (ev_symbol : Ev → string) (grow : nat → nat).
Definition occurrences (x : string) (l : list string) : nat := length (filter (λ y, y = x) l).

(** The array of each slice exists, is long enough, and is its own. *)
Record slices_wf (b : MemoryBus Ev) : Prop := {
  sw_len : ∀ sym s, mb_subscribers b !! sym = Some s →
    ∃ arr, mb_arrays b !! sl_array s = Some arr ∧ (sl_len s ≤ length arr)%nat;
  sw_own : ∀ sym sym' s s', mb_subscribers b !! sym = Some s → mb_subscribers b !! sym' = Some s' →
    sl_array s = sl_array s' → sym = sym';
}.

(** Replacing the slice of one symbol leaves the others alone. *)
Lemma entries_update (b : MemoryBus Ev) sym s arrays arr (subs : list (memorySub Ev)) (snap : gmap string Ev) sym' :
  slices_wf b → arrays !! sl_array s = Some arr →
  (∀ j s0, mb_subscribers b !! j = Some s0 → j ≠ sym →
     sl_array s0 ≠ sl_array s ∧ arrays !! sl_array s0 = mb_arrays b !! sl_array s0) →
  entries (mkMemoryBus (<[sym := s]> (mb_subscribers b)) arrays subs snap) sym' =
  if decide (sym' = sym) then take (sl_len s) arr else entries b sym'.
Proof.
  intros Hwf Ha Hoth. unfold entries. cbn. destruct (decide (sym' = sym)) as [->|Hne].
  - rewrite lookup_insert_eq. unfold sl_read. by rewrite Ha.
  - rewrite lookup_insert_ne by done. destruct (mb_subscribers b !! sym') as [s0|] eqn:Hs; [|done].
    destruct (Hoth _ _ Hs Hne) as [_ He]. unfold sl_read. by rewrite He.
Qed.

Lemma slices_wf_update (b : MemoryBus Ev) sym s arrays arr (subs : list (memorySub Ev)) (snap : gmap string Ev) :
  slices_wf b → arrays !! sl_array s = Some arr → (sl_len s ≤ length arr)%nat →
  (∀ j s0, mb_subscribers b !! j = Some s0 → j ≠ sym →
     sl_array s0 ≠ sl_array s ∧ arrays !! sl_array s0 = mb_arrays b !! sl_array s0) →
  slices_wf (mkMemoryBus (<[sym := s]> (mb_subscribers b)) arrays subs snap).
Proof.
  intros [Hl Ho] Ha Hle Hoth. split; cbn.
  - intros j s0 [[<- <-]|[Hne Hs]]%lookup_insert_Some; [by eauto|].
    destruct (Hoth _ _ Hs) as [_ ->]; [done|]. by apply (Hl j).
  - intros i j s0 s1 [[<- <-]|[Hi Hs0]]%lookup_insert_Some [[<- <-]|[Hj Hs1]]%lookup_insert_Some He; [done| | |].
    + by destruct (Hoth _ _ Hs1) as [[] _].
    + by destruct (Hoth _ _ Hs0) as [[] _].
    + by apply (Ho _ _ s0 s1).
Qed.

Lemma register_entries b e symbols :
  slices_wf b → slices_wf (register grow b e symbols) ∧
  (∀ sym, entries (register grow b e symbols) sym = entries b sym ++ replicate (occurrences sym symbols) e) ∧
  mb_subs (register grow b e symbols) = mb_subs b ∧ mb_snapshot (register grow b e symbols) = mb_snapshot b.
Proof.
  revert b. induction symbols as [|sym symbols IH]; intros b Hwf; cbn [register].
  { split_and!; [done| |done|done]. intros sym. by rewrite app_nil_r. }
  assert (∃ arrays s arr, sl_append grow (mb_arrays b) (mb_subscribers b !! sym) e = (arrays, s) ∧
    arrays !! sl_array s = Some arr ∧ (sl_len s ≤ length arr)%nat ∧ take (sl_len s) arr = entries b sym ++ [e] ∧
    (∀ j s0, mb_subscribers b !! j = Some s0 → j ≠ sym →
       sl_array s0 ≠ sl_array s ∧ arrays !! sl_array s0 = mb_arrays b !! sl_array s0))
    as (arrays & s & arr & -> & Ha & Hle & Htake & Hoth).
  { unfold sl_append, entries. destruct (mb_subscribers b !! sym) as [s|] eqn:Hs;
      cbn [default id sl_array sl_len].
    - destruct (sw_len _ Hwf _ _ Hs) as (arr & Ha & Hle). rewrite Ha. cbn [default id].
      destruct (Nat.ltb_spec (sl_len s) (length arr)) as [Hlt|Hge].
      + eexists _, _, _. split; [reflexivity|]. cbn. split_and!.
        * apply list_lookup_insert_eq. by eapply lookup_lt_Some.
        * rewrite length_insert. lia.
        * unfold sl_read. rewrite Ha. cbn. rewrite insert_take_drop by done.
          rewrite take_app_ge by (rewrite length_take; lia). rewrite length_take, Nat.min_l by lia.
          by replace (S (sl_len s) - sl_len s)%nat with 1%nat by lia.
        * intros j s0 Hj Hne. assert (sl_array s0 ≠ sl_array s) by (intros E; by apply Hne, (sw_own _ Hwf _ _ s0 s)).
          split; [done|]. by rewrite list_lookup_insert_ne.
      + eexists _, _, _. split; [reflexivity|]. cbn. split_and!.
        * rewrite lookup_app_r, Nat.sub_diag by lia. reflexivity.
        * rewrite length_app, length_take. cbn. lia.
        * unfold sl_read. rewrite Ha. cbn. rewrite take_app_ge by (rewrite length_take; lia).
          rewrite length_take, Nat.min_l by lia. by replace (S (sl_len s) - sl_len s)%nat with 1%nat by lia.
        * intros j s0 Hj Hne. destruct (sw_len _ Hwf _ _ Hj) as (arr0 & Ha0 & _).
          pose proof (lookup_lt_Some _ _ _ Ha0). split; [lia|]. by apply lookup_app_l.
    - rewrite lookup_ge_None_2 by lia. cbn. eexists _, _, _. split; [reflexivity|]. cbn. split_and!.
      + rewrite lookup_app_r, Nat.sub_diag by lia. reflexivity.
      + cbn. lia.
      + done.
      + intros j s0 Hj Hne. destruct (sw_len _ Hwf _ _ Hj) as (arr0 & Ha0 & _).
        pose proof (lookup_lt_Some _ _ _ Ha0). split; [lia|]. by apply lookup_app_l. }
  set (b1 := mkMemoryBus (<[sym := s]> (mb_subscribers b)) arrays (mb_subs b) (mb_snapshot b)).
  destruct (IH b1) as (Hwf' & Hent & Hsubs & Hsnap); [by eapply slices_wf_update|].
  split_and!; [done| |done|done]. intros sym'. rewrite Hent. unfold b1.
  erewrite entries_update by done. unfold occurrences. rewrite filter_cons.
  destruct (decide (sym' = sym)) as [->|Hne].
  - rewrite decide_True by done. cbn. by rewrite Htake, <- app_assoc.
  - rewrite decide_False by congruence. done.
Qed.

Lemma unsubscribe_entries b e symbols :
  slices_wf b → slices_wf (unsubscribe_locked b e symbols) ∧
  (∀ sym, entries (unsubscribe_locked b e symbols) sym =
          if decide (sym ∈ symbols) then filter (λ x, x ≠ e) (entries b sym) else entries b sym) ∧
  mb_snapshot (unsubscribe_locked b e symbols) = mb_snapshot b.
Proof.
  revert b. induction symbols as [|sym symbols IH]; intros b Hwf; cbn [unsubscribe_locked].
  { split_and!; [done| |done]. intros sym. rewrite decide_False; [done|]. by intros ?%elem_of_nil. }
  assert (Hstep : ∀ b1, slices_wf b1 → mb_snapshot b1 = mb_snapshot b →
    (∀ sym', entries b1 sym' = if decide (sym' = sym) then filter (λ x, x ≠ e) (entries b sym') else entries b sym') →
    slices_wf (unsubscribe_locked b1 e symbols) ∧
    (∀ sym', entries (unsubscribe_locked b1 e symbols) sym' =
      if decide (sym' ∈ sym :: symbols) then filter (λ x, x ≠ e) (entries b sym') else entries b sym') ∧
    mb_snapshot (unsubscribe_locked b1 e symbols) = mb_snapshot b).
  { intros b1 Hwf1 Hsn He. destruct (IH b1 Hwf1) as (Hwf' & Hent & Hsnap). split_and!; [done| |congruence].
    intros sym'. rewrite Hent, He.
    destruct (decide (sym' = sym)) as [->|Hne].
    - rewrite (decide_True (P := sym ∈ sym :: symbols)) by (by left).
      destruct (decide (sym ∈ symbols)); [|done]. rewrite list_filter_filter. apply list_filter_iff. tauto.
    - destruct (decide (sym' ∈ symbols)).
      + rewrite decide_True by (by right). done.
      + rewrite decide_False; [done|]. by intros [?|?]%elem_of_cons. }
  destruct (mb_subscribers b !! sym) as [s|] eqn:Hs.
  - destruct (sw_len _ Hwf _ _ Hs) as (arr & Ha & Hle). rewrite Ha. cbn [default filter_slice].
    unfold filter_slice. cbn. set (kept := filter (λ x, x ≠ e) (take (sl_len s) arr)).
    assert (Hk : (length kept ≤ sl_len s)%nat).
    { pose proof (length_filter (λ x, x ≠ e) (take (sl_len s) arr)). rewrite length_take in H. unfold kept. lia. }
    assert (Hent : entries b sym = take (sl_len s) arr) by (unfold entries, sl_read; by rewrite Hs, Ha).
    assert (Hoth : ∀ j s0, mb_subscribers b !! j = Some s0 → j ≠ sym → sl_array s0 ≠ sl_array s).
    { intros j s0 Hj Hne E. by apply Hne, (sw_own _ Hwf _ _ s0 s). }
    apply Hstep; clear Hstep; [|done|].
    + destruct (Nat.eqb_spec (length kept) 0) as [H0|H0].
      * split; cbn.
        -- intros j s0 [Hne Hj]%lookup_delete_Some. rewrite list_lookup_insert_ne by (intros E; by destruct (Hoth j s0 Hj)).
           by apply (sw_len _ Hwf j).
        -- intros i j s0 s1 [_ Hi]%lookup_delete_Some [_ Hj]%lookup_delete_Some. by apply (sw_own _ Hwf).
      * eapply slices_wf_update; [done| | |]; cbn.
        -- apply list_lookup_insert_eq. by eapply lookup_lt_Some.
        -- rewrite length_app. lia.
        -- intros j s0 Hj Hne. specialize (Hoth j s0 Hj Hne). split; [done|]. by rewrite list_lookup_insert_ne.
    + intros sym'. destruct (Nat.eqb_spec (length kept) 0) as [H0|H0].
      * unfold entries. cbn. destruct (decide (sym' = sym)) as [->|Hne].
        -- rewrite lookup_delete_eq, Hs. unfold sl_read. rewrite Ha. cbn. symmetry. by apply length_zero_iff_nil.
        -- rewrite lookup_delete_ne by done. destruct (mb_subscribers b !! sym') as [s0|] eqn:Hj; [|done].
           unfold sl_read. rewrite list_lookup_insert_ne; [done|]. intros E. by destruct (Hoth sym' s0 Hj).
      * erewrite entries_update; [|done| |]; cbn.
        -- destruct (decide (sym' = sym)) as [->|Hne]; [|done]. rewrite Hent. fold kept. apply take_app_length.
        -- apply list_lookup_insert_eq. by eapply lookup_lt_Some.
        -- intros j s0 Hj Hne. specialize (Hoth j s0 Hj Hne). split; [done|]. by rewrite list_lookup_insert_ne.
  - apply Hstep; clear Hstep; [|done|].
    + rewrite delete_id by done. split; [apply Hwf|apply Hwf].
    + rewrite delete_id by done. intros sym'. destruct (decide (sym' = sym)) as [->|]; [|done].
      unfold entries. cbn. by rewrite Hs.
Qed.

(** ** Who is subscribed *)

(** The entries of a symbol as the subscriptions say: the addresses of those that
    are not cancelled, once for each time they name the symbol. *)
Fixpoint members_from (n : nat) (subs : list (memorySub Ev)) (sym : string) : list nat :=
  match subs with
  | [] => []
  | s :: subs => (if ms_closed s then [] else replicate (occurrences sym (ms_symbols s)) n) ++
                 members_from (S n) subs sym
  end.

Definition members (subs : list (memorySub Ev)) : string → list nat := members_from 0 subs.

Lemma members_snoc n subs s sym :
  members_from n (subs ++ [s]) sym = members_from n subs sym ++
    (if ms_closed s then [] else replicate (occurrences sym (ms_symbols s)) (n + length subs)%nat).
Proof.
  revert n. induction subs as [|t subs IH]; intros n; cbn [members_from app length].
  - by rewrite app_nil_r, Nat.add_0_r.
  - rewrite IH, <- app_assoc. by rewrite Nat.add_succ_r.
Qed.

Lemma members_ge n subs sym i : i ∈ members_from n subs sym → (n ≤ i < n + length subs)%nat.
Proof.
  revert n. induction subs as [|s subs IH]; intros n; cbn [members_from length]; [by intros ?%elem_of_nil|].
  intros [Hi|Hi]%elem_of_app; [|apply IH in Hi; lia].
  destruct (ms_closed s); [by apply elem_of_nil in Hi|]. apply elem_of_replicate in Hi as [-> _]. lia.
Qed.

(** An update that keeps the flag and the symbols keeps the members. *)
Lemma members_same n subs e s s' sym :
  subs !! e = Some s → ms_closed s' = ms_closed s → ms_symbols s' = ms_symbols s →
  members_from n (<[e := s']> subs) sym = members_from n subs sym.
Proof.
  revert n e. induction subs as [|t subs IH]; intros n e He Hc Hs; [done|]. destruct e as [|e]; cbn in *.
  - injection He as ->. by rewrite Hc, Hs.
  - f_equal. by apply IH.
Qed.

Lemma members_close n subs e s s' sym :
  subs !! e = Some s → ms_closed s' = true →
  members_from n (<[e := s']> subs) sym = filter (λ x, x ≠ (n + e)%nat) (members_from n subs sym).
Proof.
  revert n e. induction subs as [|t subs IH]; intros n e He Hc; [done|].
  cbn [members_from]. rewrite filter_app. destruct e as [|e]; cbn [insert list_insert members_from lookup] in *.
  - rewrite Hc, Nat.add_0_r. cbn [app]. rewrite (filter_none _ (if ms_closed t then _ else _)).
    + cbn. symmetry. apply filter_all, Forall_forall. intros i Hi%members_ge. lia.
    + destruct (ms_closed t); [constructor|]. apply Forall_replicate. tauto.
  - f_equal.
    + symmetry. apply filter_all. destruct (ms_closed t); [constructor|]. apply Forall_replicate. lia.
    + rewrite Nat.add_succ_r. by apply (IH (S n) e).
Qed.

Lemma filter_replicate_eq (i j k : nat) :
  length (filter (λ x, x = i) (replicate k j)) = if decide (j = i) then k else 0%nat.
Proof.
  induction k as [|k IH]; cbn [replicate]; [by destruct (decide (j = i))|]. rewrite filter_cons.
  destruct (decide (j = i)); cbn; by rewrite ?IH.
Qed.

Lemma members_count n subs i sym :
  length (filter (λ x, x = (n + i)%nat) (members_from n subs sym)) =
  match subs !! i with
  | Some s => if ms_closed s then 0%nat else occurrences sym (ms_symbols s)
  | None => 0%nat
  end.
Proof.
  revert n i. induction subs as [|s subs IH]; intros n i; [done|]. cbn [members_from].
  rewrite filter_app, length_app. destruct i as [|i]; cbn [lookup list_lookup].
  - rewrite Nat.add_0_r. rewrite (filter_none _ (members_from (S n) subs sym)), Nat.add_0_r.
    + destruct (ms_closed s); [done|]. rewrite filter_replicate_eq. by rewrite decide_True.
    + apply Forall_forall. intros j Hj%members_ge. lia.
  - rewrite <- Nat.add_succ_comm, IH. destruct (ms_closed s); [done|].
    rewrite filter_replicate_eq. by rewrite decide_False by lia.
Qed.

Record bus_ok (b : MemoryBus Ev) : Prop := {
  bo_slices : slices_wf b;
  bo_entries : ∀ sym, entries b sym = members (mb_subs b) sym;
  bo_flags : ∀ e s, mb_subs b !! e = Some s →
    ms_chClosed s = ms_closed s ∧ (en_closed s = true → ms_closed s = true);
}.

Lemma bus_ok_new : bus_ok NewMemoryBus.
Proof. split; [|done|done]. split; cbn; intros *; by rewrite lookup_empty. Qed.

(** A change of subscriptions' buffers, or of the snapshots, keeps the bus. *)
Lemma bus_ok_set b e s s' snap :
  bus_ok b → mb_subs b !! e = Some s →
  ms_closed s' = ms_closed s → ms_symbols s' = ms_symbols s → ms_chClosed s' = ms_chClosed s →
  en_closed s' = en_closed s →
  bus_ok (mkMemoryBus (mb_subscribers b) (mb_arrays b) (<[e := s']> (mb_subs b)) snap).
Proof.
  intros [[Hl Ho] He Hf] Hs Hc Hsy Hch Hen. split; [by split| |].
  - intros sym. unfold members. cbn [mb_subs]. rewrite (members_same 0 _ e s) by done. apply He.
  - cbn. intros i t Hi. destruct (decide (e = i)) as [->|Hne].
    + rewrite list_lookup_insert_eq in Hi by (by eapply lookup_lt_Some). injection Hi as <-.
      destruct (Hf _ _ Hs). rewrite Hc, Hch, Hen. done.
    + rewrite list_lookup_insert_ne in Hi by done. by apply (Hf i).
Qed.

(** *** Publish *)

Definition offered (ev : Ev) (s : memorySub Ev) : memorySub Ev :=
  match offer s ev with Some (s, true) => s | Some (s, false) => count_drop s | None => s end.

Lemma offered_frame ev s :
  ms_closed (offered ev s) = ms_closed s ∧ ms_symbols (offered ev s) = ms_symbols s ∧
  ms_chClosed (offered ev s) = ms_chClosed s ∧ en_closed (offered ev s) = en_closed s.
Proof. unfold offered, offer. destruct (ms_chClosed s) eqn:E; [done|]. by destruct (_ <? _)%nat. Qed.

Lemma Publish_send_ok b e ev s :
  mb_subs b !! e = Some s → ms_chClosed s = false → Publish_send b e ev = Ret (set_sub b e (offered ev s)).
Proof.
  intros Hs Hc. unfold Publish_send, offered, offer. rewrite Hs, Hc. by destruct (_ <? _)%nat.
Qed.

Lemma Publish_loop_ok es b ev :
  bus_ok b →
  (∀ e, e ∈ es → ∃ s, mb_subs b !! e = Some s ∧ ms_closed s = false) →
  ∃ b', Publish_loop b es ev = Ret b' ∧ bus_ok b' ∧ mb_snapshot b' = mb_snapshot b ∧
    length (mb_subs b') = length (mb_subs b) ∧
    ∀ i s, mb_subs b !! i = Some s →
      mb_subs b' !! i = Some (Nat.iter (length (filter (λ x, x = i) es)) (offered ev) s).
Proof.
  revert b. induction es as [|e es IH]; intros b Hok Hes; cbn [Publish_loop].
  { by exists b. }
  destruct (Hes e) as (s & Hs & Hc); [by left|]. destruct (bo_flags _ Hok _ _ Hs) as [Hch Hen].
  unfold is_open. rewrite Hs. destruct (en_closed s) eqn:Hec; [rewrite Hen in Hc; done|]. cbn [negb].
  rewrite (Publish_send_ok b e ev s) by (done || congruence).
  destruct (offered_frame ev s) as (F1 & F2 & F3 & F4).
  destruct (IH (set_sub b e (offered ev s))) as (b' & Hr & Hok' & Hsn & Hlen & Hsubs).
  - apply (bus_ok_set b e s (offered ev s) (mb_snapshot b)); congruence.
  - intros i Hi. destruct (Hes i) as (t & Ht & Hct); [by right|]. cbn. destruct (decide (e = i)) as [->|Hne].
    + rewrite list_lookup_insert_eq by (by eapply lookup_lt_Some). exists (offered ev s).
      split; [done|congruence].
    + rewrite list_lookup_insert_ne by done. by exists t.
  - exists b'. split_and!; [done|done|done|rewrite Hlen; apply length_insert|].
    intros i t Ht. rewrite filter_cons. destruct (decide (e = i)) as [->|Hne].
    + rewrite Hs in Ht. injection Ht as <-. cbn [length]. rewrite Nat.iter_succ_r.
      apply Hsubs. cbn. apply list_lookup_insert_eq. by eapply lookup_lt_Some.
    + apply Hsubs. cbn. by rewrite list_lookup_insert_ne.
Qed.

Lemma Publish_ok b ev :
  bus_ok b →
  ∃ b', Publish ev_symbol b ev = Ret b' ∧ bus_ok b' ∧ mb_snapshot b' = <[ev_symbol ev := ev]> (mb_snapshot b) ∧
    length (mb_subs b') = length (mb_subs b) ∧
    ∀ i s, mb_subs b !! i = Some s →
      mb_subs b' !! i = Some (Nat.iter
        (if ms_closed s then 0 else occurrences (ev_symbol ev) (ms_symbols s)) (offered ev) s).
Proof.
  intros Hok. assert (Hok1 : bus_ok (Publish_snapshot ev_symbol b ev)) by (destruct Hok as [[? ?] ? ?]; split; [by split|done|done]).
  destruct (Publish_loop_ok (entries (Publish_snapshot ev_symbol b ev) (ev_symbol ev)) _ ev Hok1)
    as (b' & Hr & Hok' & Hsn & Hlen & Hsubs).
  - intros e He. rewrite (bo_entries _ Hok1) in He.
    pose proof (members_ge _ _ _ _ He) as [_ Hlt]. cbn in Hlt.
    destruct (lookup_lt_is_Some_2 (mb_subs b) e) as [s Hs]; [lia|]. exists s. split; [done|].
    pose proof (members_count 0 (mb_subs b) e (ev_symbol ev)) as Hn. rewrite Hs in Hn.
    destruct (ms_closed s); [|done]. apply length_zero_iff_nil in Hn.
    exfalso. apply (filter_nil_not_elem_of _ _ e Hn); [done|]. exact He.
  - exists b'. split_and!; [done|done|done|done|]. intros i s Hs.
    pose proof (members_count 0 (mb_subs b) i (ev_symbol ev)) as Hn. rewrite Hs in Hn.
    change (0 + i)%nat with i in Hn. rewrite <- Hn, (Hsubs i s Hs), (bo_entries _ Hok1). done.
Qed.

(** *** Subscribe *)

(** What the new subscriber finds in its channel. *)
Definition initial_events (snap : gmap string Ev) (symbols : list string) : list Ev :=
  take channelBuffer (omap (λ sym, snap !! sym) symbols).

Lemma send_snapshots_ok (snap : gmap string Ev) (s : memorySub Ev) symbols :
  ms_chClosed s = false →
  send_snapshots snap s symbols =
  Ret (mkMemorySub (ms_id s) (ms_symbols s)
         (ms_ch s ++ take (channelBuffer - length (ms_ch s)) (omap (λ sym, snap !! sym) symbols))
         false (ms_closed s) (en_closed s) (en_dropped s)).
Proof.
  revert s. induction symbols as [|sym symbols IH]; intros s Hc; cbn [send_snapshots].
  { change (omap (λ sym, snap !! sym) []) with (@nil Ev). rewrite take_nil, app_nil_r.
    destruct s. cbn in *. by subst. }
  change (omap (λ sym, snap !! sym) (sym :: symbols)) with
    (match snap !! sym with Some ev => ev :: omap (λ sym, snap !! sym) symbols
     | None => omap (λ sym, snap !! sym) symbols end).
  destruct (snap !! sym) as [ev|]; [|by apply IH].
  unfold offer. rewrite Hc. destruct (Nat.ltb_spec (length (ms_ch s)) channelBuffer) as [Hlt|Hge].
  - rewrite IH by done. cbn [ms_ch ms_id ms_symbols ms_closed en_closed en_dropped].
    do 2 f_equal. rewrite length_app. cbn [length].
    replace (channelBuffer - length (ms_ch s))%nat with (S (channelBuffer - (length (ms_ch s) + 1))) by lia.
    cbn [take]. by rewrite <- app_assoc.
  - rewrite IH by done. replace (channelBuffer - length (ms_ch s))%nat with 0%nat by lia.
    rewrite !take_0. done.
Qed.

Lemma Subscribe_ok b id symbols :
  bus_ok b →
  ∃ b' s, Subscribe grow b id symbols = Ret (b', length (mb_subs b)) ∧ bus_ok b' ∧
    mb_snapshot b' = mb_snapshot b ∧ mb_subs b' = mb_subs b ++ [s] ∧
    s = mkMemorySub id symbols (initial_events (mb_snapshot b) symbols) false false false 0.
Proof.
  intros [Hwf He Hf]. unfold Subscribe, Subscribe_register.
  set (s0 := mkMemorySub id symbols [] false false false 0).
  set (b0 := mkMemoryBus (mb_subscribers b) (mb_arrays b) (mb_subs b ++ [s0]) (mb_snapshot b)).
  destruct (register_entries b0 (length (mb_subs b)) symbols) as (Hwf1 & He1 & Hs1 & Hn1).
  { destruct Hwf. by split. }
  assert (Hok1 : bus_ok (register grow b0 (length (mb_subs b)) symbols)).
  { split; [done| |].
    - intros sym. rewrite He1, Hs1. unfold members, b0. cbn [mb_subs]. rewrite members_snoc.
      unfold s0 at 1. cbn [ms_closed ms_symbols]. f_equal. apply He.
    - rewrite Hs1. intros e s. cbn. intros [Hl|[_ Hl]]%lookup_app_Some; [by apply (Hf e)|].
      apply list_lookup_singleton_Some in Hl as [_ <-]. done. }
  set (b1 := register grow b0 (length (mb_subs b)) symbols) in *.
  assert (Hnew : mb_subs b1 !! length (mb_subs b) = Some s0)
    by (rewrite Hs1; cbn; by rewrite lookup_app_r, Nat.sub_diag by lia).
  unfold Subscribe_snapshot. rewrite Hnew, Hn1, send_snapshots_ok by done.
  eexists _, _. split; [reflexivity|]. split; [|split; [|split; [|reflexivity]]].
  - by eapply bus_ok_set.
  - exact Hn1.
  - cbn [set_sub mb_subs]. rewrite Hs1. cbn [b0 mb_subs].
    rewrite insert_app_r_alt, Nat.sub_diag by lia. reflexivity.
Qed.

(** *** Cancel *)

Lemma alter_set {A} (f : A → A) (l : list A) e x : alter f e (<[e := x]> l) = <[e := f x]> l.
Proof. revert e. induction l as [|y l IH]; intros [|e]; cbn; [done|done|done|]. f_equal. apply IH. Qed.

Lemma alter_twice {A} (f : A → A) (l : list A) e :
  (∀ x, f (f x) = f x) → alter f e (alter f e l) = alter f e l.
Proof.
  intros Hf. revert e. induction l as [|y l IH]; intros [|e]; cbn; [done|done|by rewrite Hf|]. f_equal. apply IH.
Qed.

Lemma unsubscribe_subs b e symbols :
  mb_subs (unsubscribe_locked (Ev := Ev) b e symbols) = mb_subs b ∨
  mb_subs (unsubscribe_locked b e symbols) = alter close_entry e (mb_subs b).
Proof.
  revert b. induction symbols as [|sym symbols IH]; intros b; cbn [unsubscribe_locked]; [by left|].
  destruct (mb_subscribers b !! sym) as [sl|].
  2:{ match goal with |- context [unsubscribe_locked ?b1 e symbols] => exact (IH b1) end. }
  destruct (filter_slice _ _ _) as [arr' n].
  match goal with |- context [unsubscribe_locked ?b1 e symbols] => destruct (IH b1) as [Hr|Hr] end;
    rewrite Hr; cbn [mb_subs]; destruct (bool_decide _); auto.
  right. by apply alter_twice.
Qed.

Lemma Cancel_ok b e s :
  bus_ok b → mb_subs b !! e = Some s →
  bus_ok (Cancel b e) ∧ mb_snapshot (Cancel b e) = mb_snapshot b ∧
  ∃ s', mb_subs (Cancel b e) = <[e := s']> (mb_subs b) ∧ ms_closed s' = true ∧ ms_chClosed s' = true ∧
    ms_ch s' = ms_ch s ∧ ms_symbols s' = ms_symbols s ∧ en_dropped s' = en_dropped s.
Proof.
  intros Hok Hs. pose proof (bo_flags _ Hok _ _ Hs) as [Hch Hen]. unfold Cancel, Cancel_flag. rewrite Hs.
  destruct (ms_closed s) eqn:Hc.
  { split_and!; [done|done|]. exists s. rewrite list_insert_id by done. done. }
  set (s1 := mkMemorySub (ms_id s) (ms_symbols s) (ms_ch s) (ms_chClosed s) true (en_closed s) (en_dropped s)).
  assert (Hlt : (e < length (mb_subs b))%nat) by (by eapply lookup_lt_Some).
  unfold Cancel_unsubscribe. cbn [set_sub mb_subs]. rewrite list_lookup_insert_eq by done. cbn [s1 ms_symbols].
  destruct (unsubscribe_entries (set_sub b e s1) e (ms_symbols s)) as (Hwf & Hent & Hsnap).
  { destruct (bo_slices _ Hok). by split. }
  set (b2 := unsubscribe_locked (set_sub b e s1) e (ms_symbols s)) in *.
  assert (∃ s2, mb_subs b2 = <[e := s2]> (mb_subs b) ∧ ms_closed s2 = true ∧ ms_ch s2 = ms_ch s ∧
    ms_symbols s2 = ms_symbols s ∧ en_dropped s2 = en_dropped s) as (s2 & Hb2 & Hc2 & Hch2 & Hsy2 & Hd2).
  { destruct (unsubscribe_subs (set_sub b e s1) e (ms_symbols s)) as [Hr|Hr]; fold b2 in Hr.
    - by exists s1.
    - exists (close_entry s1). split; [|done]. rewrite Hr. apply alter_set. }
  assert (Hb3 : mb_subs (Cancel_close b2 e) = <[e := close_chan s2]> (mb_subs b)).
  { cbn [Cancel_close mb_subs]. rewrite Hb2. apply alter_set. }
  split_and!; [|exact Hsnap|by exists (close_chan s2)]. split.
  - destruct Hwf. by split.
  - intros sym. change (entries (Cancel_close b2 e) sym) with (entries b2 sym).
    rewrite Hent, Hb3. change (entries (set_sub b e s1) sym) with (entries b sym).
    unfold members. rewrite (members_close 0 _ e s) by done. change (0 + e)%nat with e.
    rewrite (bo_entries _ Hok). destruct (decide (sym ∈ ms_symbols s)) as [|Hno]; [done|].
    symmetry. apply filter_all, Forall_forall. intros x Hx ->.
    assert (H0 : length (filter (λ x, x = e) (members (mb_subs b) sym)) = 0%nat).
    { pose proof (members_count 0 (mb_subs b) e sym) as Hn. change (0 + e)%nat with e in Hn.
      unfold members. rewrite Hn, Hs, Hc. unfold occurrences.
      rewrite filter_none; [done|]. apply Forall_forall. intros y Hy ->. done. }
    apply length_zero_iff_nil in H0. by apply (filter_nil_not_elem_of _ _ e H0).
  - rewrite Hb3. intros i t Hi. destruct (decide (e = i)) as [->|Hne].
    + rewrite list_lookup_insert_eq in Hi by done. injection Hi as <-. done.
    + rewrite list_lookup_insert_ne in Hi by done. by apply (bo_flags _ Hok i).
Qed.

(** ** Calls one after the other *)

Inductive bus_call := CSubscribe (id : string) (symbols : list string) | CCancel (e : nat)
                    | CPublish (ev : Ev) | CReceive (e : nat).

(** A subscriber takes the next event from its channel. *)
Definition receive (s : memorySub Ev) : memorySub Ev :=
  mkMemorySub (ms_id s) (ms_symbols s) (tail (ms_ch s)) (ms_chClosed s) (ms_closed s) (en_closed s) (en_dropped s).

Definition bus_step (b : MemoryBus Ev) (c : bus_call) : outcome (MemoryBus Ev) :=
  match c with
  | CSubscribe id symbols => match Subscribe grow b id symbols with Ret (b, _) => Ret b | Panic => Panic end
  | CCancel e => Ret (Cancel b e)
  | CPublish ev => Publish ev_symbol b ev
  | CReceive e => Ret (mkMemoryBus (mb_subscribers b) (mb_arrays b) (alter receive e (mb_subs b)) (mb_snapshot b))
  end.

Fixpoint run_bus (b : MemoryBus Ev) (cs : list bus_call) : outcome (MemoryBus Ev) :=
  match cs with [] => Ret b | c :: cs => match bus_step b c with Ret b => run_bus b cs | Panic => Panic end end.

Lemma Cancel_absent (b : MemoryBus Ev) e : mb_subs b !! e = None → Cancel b e = b.
Proof. intros Hs. unfold Cancel, Cancel_flag. by rewrite Hs. Qed.

Lemma alter_lookup {A} (f : A → A) (l : list A) e :
  alter f e l = match l !! e with Some x => <[e := f x]> l | None => l end.
Proof.
  destruct (l !! e) as [x|] eqn:E.
  - rewrite <- (list_insert_id l e x E) at 1. apply alter_set.
  - revert e E. induction l as [|y l IH]; intros [|e]; cbn; [done|done|done|]. intros E. f_equal. by apply IH.
Qed.

Lemma bus_step_ok b c :
  bus_ok b → ∃ b', bus_step b c = Ret b' ∧ bus_ok b' ∧
    mb_snapshot b' = match c with CPublish ev => <[ev_symbol ev := ev]> (mb_snapshot b) | _ => mb_snapshot b end.
Proof.
  intros Hok. destruct c as [id symbols|e|ev|e]; cbn [bus_step].
  - destruct (Subscribe_ok b id symbols Hok) as (b' & s & -> & Hok' & Hsn & _). by exists b'.
  - destruct (mb_subs b !! e) as [s|] eqn:Hs.
    + destruct (Cancel_ok b e s Hok Hs) as (Hok' & Hsn & _). by eexists.
    + rewrite Cancel_absent by done. by eexists.
  - destruct (Publish_ok b ev Hok) as (b' & -> & Hok' & Hsn & _). by exists b'.
  - eexists. split; [done|]. split; [|done]. rewrite alter_lookup.
    destruct (mb_subs b !! e) as [s|] eqn:Hs; [by eapply bus_ok_set|]. by destruct b.
Qed.

Definition published (cs : list bus_call) : list Ev :=
  omap (λ c, match c with CPublish ev => Some ev | _ => None end) cs.

Lemma run_bus_ok b cs :
  bus_ok b → ∃ b', run_bus b cs = Ret b' ∧ bus_ok b' ∧
    mb_snapshot b' = foldl (λ m ev, <[ev_symbol ev := ev]> m) (mb_snapshot b) (published cs).
Proof.
  revert b. induction cs as [|c cs IH]; intros b Hok; cbn [run_bus]; [by exists b|].
  destruct (bus_step_ok b c Hok) as (b1 & -> & Hok1 & Hsn1). destruct (IH b1 Hok1) as (b' & Hr & Hok' & Hsn).
  exists b'. split_and!; [done|done|]. rewrite Hsn, Hsn1. by destruct c.
Qed.

Lemma snapshot_last (m : gmap string Ev) (evs : list Ev) sym :
  foldl (λ m ev, <[ev_symbol ev := ev]> m) m evs !! sym =
  match last (filter (λ ev, ev_symbol ev = sym) evs) with Some ev => Some ev | None => m !! sym end.
Proof.
  induction evs as [|ev evs IH] using rev_ind; [done|]. rewrite foldl_app, filter_app. cbn [foldl].
  destruct (decide (ev_symbol ev = sym)) as [<-|Hne].
  - rewrite lookup_insert_eq, filter_cons_True, filter_nil, last_snoc by done. done.
  - by rewrite lookup_insert_ne, IH, filter_cons_False, filter_nil, app_nil_r by done.
Qed.

(** The bus delivers an event to exactly the subscribers of its symbol. After
    any calls, made one after the other, that subscribe, cancel, publish and
    receive, a publication succeeds and offers the event to each subscription that
    is not cancelled once for each time it names the symbol, and to no other: the
    event joins the end of its channel, or is counted as dropped when the channel
    holds 256. A new subscriber first finds the latest event of each of its
    symbols. *)
Lemma bus_delivers_to_subscribers cs :
  ∃ b, run_bus NewMemoryBus cs = Ret b ∧
    (∀ ev, ∃ b', Publish ev_symbol b ev = Ret b' ∧ length (mb_subs b') = length (mb_subs b) ∧
      ∀ e s, mb_subs b !! e = Some s → mb_subs b' !! e = Some (Nat.iter
        (if ms_closed s then 0 else occurrences (ev_symbol ev) (ms_symbols s)) (offered ev) s)) ∧
    (∀ id symbols, ∃ b', Subscribe grow b id symbols = Ret (b', length (mb_subs b)) ∧
      mb_subs b' = mb_subs b ++ [mkMemorySub id symbols
        (take channelBuffer (omap (λ sym, last (filter (λ ev, ev_symbol ev = sym) (published cs))) symbols))
        false false false 0]).
Proof.
  destruct (run_bus_ok NewMemoryBus cs bus_ok_new) as (b & Hr & Hok & Hsn). exists b. split_and!; [done| |].
  - intros ev. destruct (Publish_ok b ev Hok) as (b' & ? & _ & _ & ? & ?). by exists b'.
  - intros id symbols. destruct (Subscribe_ok b id symbols Hok) as (b' & s & Hs & _ & _ & Hsubs & ->).
    exists b'. split; [done|]. rewrite Hsubs. do 3 f_equal. unfold initial_events. f_equal.
    apply list_omap_ext, Forall_Forall2_diag, Forall_true. intros sym. rewrite Hsn, snapshot_last. cbn. rewrite lookup_empty.
    by destruct (last _).
Qed.
End laws.

(** ** Interleavings

    A publisher and a cancellation at the grain of their critical sections and
    atomic accesses. The range over the slice reads each element of the array when
    it comes to it. *)

Section interleaving.
Context {Ev : Type} (ev_symbol : Ev → string).

Inductive pub_pc := PbSnapshot | PbEntries | PbAt (s : slice) (i : nat) | PbSend (s : slice) (i e : nat) | PbDone.
Inductive cancel_pc := CnFlag | CnUnsubscribe | CnClose | CnDone.

Definition pub_step (b : MemoryBus Ev) (ev : Ev) (pc : pub_pc) : outcome (MemoryBus Ev * pub_pc) :=
  match pc with
  | PbSnapshot => Ret (Publish_snapshot ev_symbol b ev, PbEntries)
  | PbEntries => Ret (b, match mb_subscribers b !! ev_symbol ev with Some s => PbAt s 0 | None => PbDone end)
  | PbAt s i =>
      match sl_read (mb_arrays b) s !! i with
      | None => Ret (b, PbDone)
      | Some e => Ret (b, if is_open b e then PbSend s i e else PbAt s (S i))
      end
  | PbSend s i e => match Publish_send b e ev with Panic => Panic | Ret b => Ret (b, PbAt s (S i)) end
  | PbDone => Ret (b, PbDone)
  end.

Definition cancel_step (b : MemoryBus Ev) (e : nat) (pc : cancel_pc) : MemoryBus Ev * cancel_pc :=
  match pc with
  | CnFlag => match Cancel_flag b e with Some b => (b, CnUnsubscribe) | None => (b, CnDone) end
  | CnUnsubscribe => (Cancel_unsubscribe b e, CnClose)
  | CnClose => (Cancel_close b e, CnDone)
  | CnDone => (b, CnDone)
  end.

(** One publication of [ev] and one cancellation of [e]; [None] is a panic. *)
Inductive pc_step (ev : Ev) (e : nat) :
    MemoryBus Ev * pub_pc * cancel_pc → option (MemoryBus Ev * pub_pc * cancel_pc) → Prop :=
| pcs_publish b p c b' p' : pub_step b ev p = Ret (b', p') → pc_step ev e (b, p, c) (Some (b', p', c))
| pcs_panic b p c : pub_step b ev p = Panic → pc_step ev e (b, p, c) None
| pcs_cancel b p c b' c' : cancel_step b e c = (b', c') → pc_step ev e (b, p, c) (Some (b', p, c')).

Inductive pc_steps (ev : Ev) (e : nat) :
    MemoryBus Ev * pub_pc * cancel_pc → option (MemoryBus Ev * pub_pc * cancel_pc) → Prop :=
| pcs_refl w : pc_steps ev e w (Some w)
| pcs_next w w1 r : pc_step ev e w (Some w1) → pc_steps ev e w1 r → pc_steps ev e w r
| pcs_fail w : pc_step ev e w None → pc_steps ev e w None.
End interleaving.

(** Three subscribers of one symbol, in the order A, B, C. The array of [append]
    doubles when it is full. *)
Definition doubling (n : nat) : nat := if (n =? 0)%nat then 1 else 2 * n.
Definition bus_ABC : MemoryBus Z :=
  match run_bus (λ _ : Z, "AAPL") doubling NewMemoryBus
    [CSubscribe "A" ["AAPL"]; CSubscribe "B" ["AAPL"]; CSubscribe "C" ["AAPL"]] with
  | Ret b => b | Panic => NewMemoryBus end.

Ltac run_pub := eapply pcs_next; [eapply pcs_publish; reflexivity|cbn].
Ltac run_cancel := eapply pcs_next; [eapply pcs_cancel; reflexivity|cbn].

(** A cancellation during a publication can lose one subscriber's event and
    give another's twice. [unsubscribe] compacts the slice in the array that a
    publication is ranging over: when A cancels after the publication has served
    A, the publication finds C in the place of B, and C again in its own. *)
Lemma cancel_during_publish_skips_subscriber ev :
  ∃ b, pc_steps (λ _ : Z, "AAPL") ev 0 (bus_ABC, PbSnapshot, CnFlag) (Some (b, PbDone, CnDone)) ∧
    ms_ch <$> mb_subs b = [[ev]; []; [ev; ev]] ∧ en_dropped <$> mb_subs b = [0; 0; 0] ∧
    ms_closed <$> mb_subs b = [true; false; false].
Proof.
  eexists. split.
  - do 4 run_pub. do 3 run_cancel. do 5 run_pub. apply pcs_refl.
  - cbn. done.
Qed.

(** A publication can send on a channel that is being closed. The publication
    reads the entry's flag as open, the cancellation then marks the entry and
    closes the channel, and the send panics. *)
Lemma publish_sends_on_closed_channel ev :
  pc_steps (λ _ : Z, "AAPL") ev 0 (bus_ABC, PbSnapshot, CnFlag) None.
Proof. do 3 run_pub. do 3 run_cancel. apply pcs_fail. by apply pcs_panic. Qed.

(** ** The publisher that logs first (wal/publisher.go)

    What the type assertions and [json.Marshal] say of an event are arguments:
    [GetSeq] and [GetTimestamp] in nanoseconds when the event has them. *)

Section wal_publisher.
Context {Ev P : Type} `{!Publisher P Ev}.
Context (ev_symbol ev_type : Ev → string) (GetSeq GetTimestamp : Ev → option Z).
Context (json_Marshal : Ev → option (list byte)).

Record WalPublisher := mkWalPublisher { wp_walLog : SegmentManager; wp_next : P }.

Definition forward (p : WalPublisher) (ev : Ev) : outcome WalPublisher :=
  match pb_Publish (wp_next p) ev with
  | Panic => Panic
  | Ret next => Ret (mkWalPublisher (wp_walLog p) next)
  end.

Definition WalPublisher_Publish (p : WalPublisher) (ev : Ev) : outcome WalPublisher :=
  match GetSeq ev with
  | None => forward p ev
  | Some seq =>
      match GetTimestamp ev with
      | None => forward p ev
      | Some ts =>
          match json_Marshal ev with
          | None => forward p ev
          | Some payload =>
              let msg := mkMessage (u64 seq) (i64 ts) (ev_symbol ev) (ev_type ev) payload in
              match SegmentManager_Append (wp_walLog p) msg with
              | Panic => Panic
              | Ret (walLog, _) => forward (mkWalPublisher walLog (wp_next p)) ev
              end
          end
      end
  end.

#[export] Instance WalPublisher_Publisher : Publisher WalPublisher Ev := WalPublisher_Publish.

(** The record of an event, for an event that can be logged. *)
Definition log_message (ev : Ev) : option Message :=
  seq ← GetSeq ev; ts ← GetTimestamp ev; payload ← json_Marshal ev;
  Some (mkMessage (u64 seq) (i64 ts) (ev_symbol ev) (ev_type ev) payload).

Fixpoint publish_all {Q} `{!Publisher Q Ev} (q : Q) (evs : list Ev) : outcome Q :=
  match evs with [] => Ret q | ev :: evs => match pb_Publish q ev with Ret q => publish_all q evs | Panic => Panic end end.

Lemma WalPublisher_Publish_msg p ev :
  WalPublisher_Publish p ev =
  match log_message ev with
  | None => forward p ev
  | Some msg => match SegmentManager_Append (wp_walLog p) msg with
                | Panic => Panic
                | Ret (walLog, _) => forward (mkWalPublisher walLog (wp_next p)) ev
                end
  end.
Proof.
  unfold WalPublisher_Publish, log_message. destruct (GetSeq ev); [|done]. cbn.
  destruct (GetTimestamp ev); [|done]. cbn. by destruct (json_Marshal ev).
Qed.

Lemma wal_publish_all m mss next next' evs :
  mgr_inv m mss → publish_all next evs = Ret next' → Forall msg_ok (omap log_message evs) →
  msgs_sorted (concat mss ++ omap log_message evs) →
  Zlen (log_bytes (concat mss ++ omap log_message evs)) < 2 ^ 63 →
  ∃ m' mss', publish_all (mkWalPublisher m next) evs = Ret (mkWalPublisher m' next') ∧ mgr_inv m' mss' ∧
    concat mss' = concat mss ++ omap log_message evs ∧ first_base m' = first_base m.
Proof.
  revert m mss next. induction evs as [|ev evs IH]; intros m mss next Hinv Hnext Hok Hsort Hbd.
  { injection Hnext as <-. exists m, mss. by rewrite app_nil_r. }
  cbn [publish_all] in *. destruct (pb_Publish next ev) as [next1|] eqn:Hpub; [|done].
  unfold pb_Publish at 1, WalPublisher_Publisher. rewrite WalPublisher_Publish_msg. cbn [wp_walLog wp_next].
  change (omap log_message (ev :: evs)) with
    (match log_message ev with Some x => x :: omap log_message evs | None => omap log_message evs end) in *.
  destruct (log_message ev) as [msg|].
  - apply Forall_cons_1 in Hok as [Hm Hok]. rewrite (cons_middle msg), app_assoc in Hsort, Hbd.
    destruct (SegmentManager_Append_inv m mss msg) as (m1 & mss1 & o & -> & Hinv1 & Hc & _ & Hfb);
      [done|done| | |].
    + intros x Hx. apply list_elem_of_lookup in Hx as [i Hi]. pose proof (lookup_lt_Some _ _ _ Hi).
      apply (Hsort i (length (concat mss))); [done| |].
      * rewrite <- app_assoc. by rewrite lookup_app_l.
      * rewrite lookup_app_l by (rewrite length_app; simpl; lia). by apply list_lookup_middle.
    + rewrite log_bytes_app, length_app in Hbd. lia.
    + unfold forward. cbn [wp_next wp_walLog]. rewrite Hpub.
      destruct (IH m1 mss1 next1) as (m' & mss' & Hr & Hinv' & Hc' & Hfb'); rewrite ?Hc; auto.
      exists m', mss'. split_and!; [done|done| |congruence]. rewrite Hc', Hc, <- app_assoc. done.
  - unfold forward. cbn [wp_next wp_walLog]. rewrite Hpub. by apply IH.
Qed.

End wal_publisher.

(** The log in front of the in-memory bus: quotes numbered 1 and 2 and an event
    without a number. *)
Definition wal_bus_events : list Z := [1; 2; -5].
Definition numbered (z : Z) : option Z := if 0 <? z then Some z else None.
Definition bus_publisher : Publisher (MemoryBus Z) Z := MemoryBus_Publisher (λ _ : Z, "AAPL").

