(* ===== verification/Snapshot.v ===== *)
(** * Snapshot: the latest event of every symbol, its checkpoints, its recovery

    [internal/snapshot/snapshot.go]: the service that keeps the latest event of each
    symbol, the live buffer it fills while it recovers, the two checkpoint files and
    the replay of the event log. The files are a small disk on which each call of
    the operating system is one step; [encode] and [decode] are the JSON of a
    checkpoint, [unmarshal_Quote] and [unmarshal_Bar] that of an event. A service is
    changed under its lock, so each operation is one step; the recovery goroutine
    and the producers of live events interleave between the steps. *)

From Stdlib Require Import Strings.Byte.
From S2P Require Import Prelude Bytes MarketEvent Bus.

(** ** Data *)

(** [eventlog.Cursor]. *)
Record Cursor := mkCursor { cu_Timestamp : Z; cu_EventID : Z }.
Definition zero_cursor : Cursor := mkCursor zero_time 0.

(** [eventlog.StoredEvent], the fields that the replay uses. *)
Record StoredEvent := mkStoredEvent { se_EventID : Z; se_EventType : string; se_RawData : list byte }.

Record snapshotData := mkSnapshotData {
  sd_LastUpdated : Z;
  sd_RawData : list byte;
  sd_EventType : string;
}.

(** What a checkpoint file holds: [snapshotEntry.MarshalJSON] leaves out the cached
    event. *)
Record CheckpointFile := mkCheckpointFile {
  cf_Version : Z;
  cf_Timestamp : Z;
  cf_Cursor : Cursor;
  cf_Symbols : gmap string snapshotData;
}.

(** The current file, the previous one and the temporary one. *)
Record Disk := mkDisk { dk_cur : option (list byte); dk_prev : option (list byte); dk_tmp : option (list byte) }.

Definition liveBuffer_capacity : Z := 10000.

Section snapshot.
Context {E : Type} `{!MarketEventOps E}.
#[local] Abbreviation Event := (@MarketEvent E).
(** [json.Marshal] of an event, nil on error; [json.Unmarshal] into a quote, a bar. *)
Context (json_Marshal : Event → list byte).
Context (unmarshal_Quote unmarshal_Bar : list byte → option E).
(** [json.MarshalIndent] of a checkpoint and [json.Unmarshal]. *)
Context (encode : CheckpointFile → list byte) (decode : list byte → option CheckpointFile).

Record snapshotEntry := mkSnapshotEntry {
  sn_Cached : option (@CachedEvent E);
  sn_LastUpdated : Z;
  sn_RawData : list byte;
  sn_EventType : string;
}.

Record Service := mkService {
  sv_snapshots : gmap string snapshotEntry;
  sv_ready : bool;
  sv_maxAge : Z;
  sv_hasPath : bool;
  sv_lastCursor : Cursor;
  sv_buffering : bool;
  sv_liveBuffer : list Event;
  sv_maxRecoveryRetries : Z;
}.

Definition New (maxAge : Z) (hasPath : bool) (maxRetries : Z) : Service :=
  mkService ∅ false maxAge hasPath zero_cursor false [] maxRetries.

Definition set_snapshots (s : Service) (m : gmap string snapshotEntry) (c : Cursor) : Service :=
  mkService m (sv_ready s) (sv_maxAge s) (sv_hasPath s) c (sv_buffering s) (sv_liveBuffer s)
    (sv_maxRecoveryRetries s).
Definition set_buffer (s : Service) (buffering : bool) (buf : list Event) : Service :=
  mkService (sv_snapshots s) (sv_ready s) (sv_maxAge s) (sv_hasPath s) (sv_lastCursor s) buffering buf
    (sv_maxRecoveryRetries s).

Definition MarkReady (s : Service) : Service :=
  mkService (sv_snapshots s) true (sv_maxAge s) (sv_hasPath s) (sv_lastCursor s) (sv_buffering s)
    (sv_liveBuffer s) (sv_maxRecoveryRetries s).

(** ** Events *)

Definition applyEvent (s : Service) (ev : Event) (now : Z) : Service :=
  set_snapshots s (<[event_symbol ev := mkSnapshotEntry (Some (NewCachedEvent ev)) now (json_Marshal ev)
                                          (event_type ev)]> (sv_snapshots s)) (sv_lastCursor s).

(** A goroutine alone: the receive that makes room succeeds and the last send does
    not block. *)
Definition bufferEvent (s : Service) (ev : Event) : Service :=
  if Z.of_nat (length (sv_liveBuffer s)) <? liveBuffer_capacity
  then set_buffer s (sv_buffering s) (sv_liveBuffer s ++ [ev])
  else set_buffer s (sv_buffering s) (tail (sv_liveBuffer s) ++ [ev]).

Definition Update (s : Service) (ev : Event) (now : Z) : Service :=
  if sv_buffering s then bufferEvent s ev else applyEvent s ev now.

Definition StartBuffering (s : Service) : Service := set_buffer s true (sv_liveBuffer s).

(** [drainBuffer], with buffering off: every buffered event is applied. *)
Fixpoint drain (evs : list Event) (s : Service) (now : Z) : Service :=
  match evs with [] => s | ev :: evs => drain evs (Update s ev now) now end.
Definition drainBuffer (s : Service) (now : Z) : Service :=
  drain (sv_liveBuffer s) (set_buffer s (sv_buffering s) []) now.

Definition StopBuffering (s : Service) (now : Z) : Service :=
  drainBuffer (set_buffer s false (sv_liveBuffer s)) now.

Definition UpdateCursor (s : Service) (c : Cursor) : Service := set_snapshots s (sv_snapshots s) c.
Definition LastCursor (s : Service) : Cursor := sv_lastCursor s.

(** ** Reads *)

Definition Snapshot_Get (s : Service) (symbol : string) : option (@CachedEvent E) :=
  if sv_ready s then entry ← sv_snapshots s !! symbol; sn_Cached entry else None.

(** [None] for the nil slice; an entry without a cached event yields a nil pointer. *)
Definition GetMultiple (s : Service) (symbols : list string) : option (list (option (@CachedEvent E))) :=
  if sv_ready s then Some (sn_Cached <$> omap (λ sym, sv_snapshots s !! sym) symbols) else None.

Definition Snapshot_Symbols (s : Service) : gset string := dom (sv_snapshots s).
Definition Count (s : Service) : nat := size (sv_snapshots s).

Definition Purge (s : Service) (now : Z) : Service * nat :=
  if sv_maxAge s <=? 0 then (s, 0%nat)
  else
    let cutoff := now - sv_maxAge s in
    let kept := filter (λ kv : string * snapshotEntry, cutoff ≤ sn_LastUpdated kv.2) (sv_snapshots s) in
    (set_snapshots s kept (sv_lastCursor s), (size (sv_snapshots s) - size kept)%nat).

(** ** Checkpoints *)

Definition entry_data (e : snapshotEntry) : snapshotData :=
  mkSnapshotData (sn_LastUpdated e) (sn_RawData e) (sn_EventType e).

Definition reconstructEvent (eventType : string) (rawData : list byte) : option Event :=
  if bool_decide (rawData = []) then None
  else if bool_decide (eventType ∈ ["quote"; "trade"; ""]) then
    q ← unmarshal_Quote rawData; Some (Base (Concrete q))
  else if bool_decide (eventType = "bar") then
    b ← unmarshal_Bar rawData; Some (Base (Concrete b))
  else None.

(** [snapshotEntry.UnmarshalJSON]. *)
Definition data_entry (d : snapshotData) : snapshotEntry :=
  mkSnapshotEntry (NewCachedEvent <$> reconstructEvent (sd_EventType d) (sd_RawData d))
    (sd_LastUpdated d) (sd_RawData d) (sd_EventType d).

Definition checkpoint_of (s : Service) (now : Z) : CheckpointFile :=
  mkCheckpointFile 1 now (sv_lastCursor s) (entry_data <$> sv_snapshots s).

(** [Checkpoint]: the calls of the operating system, in order. *)
Inductive fs_call := FRemovePrev | FRename_cur_prev | FWriteTmp (data : list byte) | FRename_tmp_cur.

Definition fs_run (d : Disk) (c : fs_call) : Disk :=
  match c with
  | FRemovePrev => mkDisk (dk_cur d) None (dk_tmp d)
  | FRename_cur_prev => match dk_cur d with Some x => mkDisk None (Some x) (dk_tmp d) | None => d end
  | FWriteTmp data => mkDisk (dk_cur d) (dk_prev d) (Some data)
  | FRename_tmp_cur => match dk_tmp d with Some x => mkDisk (Some x) (dk_prev d) None | None => d end
  end.

Definition checkpoint_calls (d : Disk) (data : list byte) : list fs_call :=
  (match dk_cur d with Some _ => [FRemovePrev; FRename_cur_prev] | None => [] end) ++
  [FWriteTmp data; FRename_tmp_cur].

Definition Checkpoint (s : Service) (d : Disk) (now : Z) : Disk :=
  foldl fs_run d (checkpoint_calls d (encode (checkpoint_of s now))).

Definition loadCheckpointFrom (s : Service) (file : option (list byte)) : option Service :=
  data ← file; cp ← decode data;
  if cf_Version cp =? 1 then Some (set_snapshots s (data_entry <$> cf_Symbols cp) (cf_Cursor cp)) else None.

Definition LoadCheckpoint (s : Service) (d : Disk) : Service :=
  if sv_hasPath s then
    match loadCheckpointFrom s (dk_cur d) with
    | Some s => s
    | None => match loadCheckpointFrom s (dk_prev d) with Some s => s | None => s end
    end
  else s.

(** ** Recovery from the event log *)

Inductive query_answer :=
| QError
| QResult (events : list StoredEvent) (next : option Cursor) (hasMore : bool)
| QCancelled.

Inductive recover_result := RecOk | RecCancelled | RecUnreachable.

Definition replay_event (s : Service) (ev : StoredEvent) (now : Z) : Service :=
  match reconstructEvent (se_EventType ev) (se_RawData ev) with
  | None => s
  | Some event => applyEvent s event now
  end.

(** The loop: before each answer of the repository come the live events that arrive
    meanwhile. [None]: the answers ran out. *)
Fixpoint replay_loop (s : Service) (retries : Z) (script : list (list Event * query_answer)) (now : Z)
    : option (Service * recover_result) :=
  match script with
  | [] => None
  | (live, answer) :: script =>
      let s := foldl (λ s ev, Update s ev now) s live in
      match answer with
      | QCancelled => Some (s, RecCancelled)
      | QError =>
          if sv_maxRecoveryRetries s <? retries + 1 then Some (s, RecUnreachable)
          else replay_loop s (retries + 1) script now
      | QResult events next hasMore =>
          let s := foldl (λ s ev, replay_event s ev now) s events in
          let s := match next with Some c => UpdateCursor s c | None => s end in
          if hasMore then replay_loop s 0 script now else Some (s, RecOk)
      end
  end.

(** [Recover]; [has_repo] is [repo != nil]. [StopBuffering] is deferred. *)
Definition Recover (s : Service) (d : Disk) (has_repo : bool) (script : list (list Event * query_answer)) (now : Z)
    : option (Service * recover_result) :=
  let s := LoadCheckpoint (StartBuffering s) d in
  if has_repo then
    '(s, r) ← replay_loop s 0 script now; Some (StopBuffering s now, r)
  else Some (StopBuffering s now, RecOk).

(** ** The publisher that keeps the snapshots *)

Record SnapshotPublisher (P : Type) := mkSnapshotPublisher { spb_inner : P; spb_snap : Service }.
Arguments mkSnapshotPublisher {P} _ _.
Arguments spb_inner {P} _.
Arguments spb_snap {P} _.

Definition SnapshotPublisher_Publish {P} `{!Publisher P Event} (now : Z) (sp : SnapshotPublisher P) (ev : Event)
    : outcome (SnapshotPublisher P) :=
  let snap := Update (spb_snap sp) ev now in
  match pb_Publish (spb_inner sp) ev with
  | Panic => Panic
  | Ret inner => Ret (mkSnapshotPublisher inner snap)
  end.
End snapshot.
Arguments snapshotEntry : clear implicits.
Arguments Service : clear implicits.
Arguments mkSnapshotPublisher {E P} _ _.
Arguments spb_inner {E P} _.
Arguments spb_snap {E P} _.

(** ** The map of latest events *)

Section laws.
Context {E : Type} `{!MarketEventOps E}.
#[local] Abbreviation Event := (@MarketEvent E).
Context (json_Marshal : Event → list byte).
Context (unmarshal_Quote unmarshal_Bar : list byte → option E).
Context (encode : CheckpointFile → list byte) (decode : list byte → option CheckpointFile).

Definition entry_of (ev : Event) (now : Z) : snapshotEntry E :=
  mkSnapshotEntry (Some (NewCachedEvent ev)) now (json_Marshal ev) (event_type ev).

Definition latest (m : gmap string (snapshotEntry E)) (evs : list Event) (now : Z) : gmap string (snapshotEntry E) :=
  foldl (λ m ev, <[event_symbol ev := entry_of ev now]> m) m evs.

Lemma latest_lookup m evs now sym :
  latest m evs now !! sym =
  match last (filter (λ ev, event_symbol ev = sym) evs) with
  | Some ev => Some (entry_of ev now)
  | None => m !! sym
  end.
Proof.
  unfold latest. induction evs as [|ev evs IH] using rev_ind; [done|]. rewrite foldl_app, filter_app. cbn [foldl].
  destruct (decide (event_symbol ev = sym)) as [<-|Hne].
  - rewrite lookup_insert_eq, filter_cons_True, filter_nil, last_snoc by done. done.
  - by rewrite lookup_insert_ne, IH, filter_cons_False, filter_nil, app_nil_r by done.
Qed.

Lemma apply_all evs (s : Service E) now :
  foldl (λ s ev, applyEvent json_Marshal s ev now) s evs =
  set_snapshots s (latest (sv_snapshots s) evs now) (sv_lastCursor s).
Proof.
  revert s. induction evs as [|ev evs IH]; intros s; cbn; [by destruct s|]. by rewrite IH.
Qed.

Lemma drain_applies evs (s : Service E) now :
  sv_buffering s = false →
  drain json_Marshal evs s now = foldl (λ s ev, applyEvent json_Marshal s ev now) s evs.
Proof.
  revert s. induction evs as [|ev evs IH]; intros s Hb; [done|]. cbn [drain foldl].
  rewrite IH; unfold Update; rewrite Hb; [done|exact Hb].
Qed.

Lemma StopBuffering_eq (s : Service E) now :
  StopBuffering json_Marshal s now =
  set_buffer (set_snapshots s (latest (sv_snapshots s) (sv_liveBuffer s) now) (sv_lastCursor s)) false [].
Proof.
  unfold StopBuffering, drainBuffer. rewrite drain_applies by done. by rewrite apply_all.
Qed.

Lemma updates_apply evs (s : Service E) now :
  sv_buffering s = false →
  foldl (λ s ev, Update json_Marshal s ev now) s evs = foldl (λ s ev, applyEvent json_Marshal s ev now) s evs.
Proof.
  revert s. induction evs as [|ev evs IH]; intros s Hb; [done|]. cbn [foldl].
  rewrite IH; unfold Update; rewrite Hb; [done|exact Hb].
Qed.

(** Live events during recovery go to the buffer, in order. *)
Lemma live_buffered evs (s : Service E) now :
  sv_buffering s = true → Z.of_nat (length (sv_liveBuffer s) + length evs) ≤ liveBuffer_capacity →
  foldl (λ s ev, Update json_Marshal s ev now) s evs = set_buffer s true (sv_liveBuffer s ++ evs).
Proof.
  revert s. induction evs as [|ev evs IH]; intros s Hb Hlen; cbn [foldl length] in *.
  { rewrite app_nil_r. destruct s. cbn in *. by subst. }
  unfold Update at 2. rewrite Hb. unfold bufferEvent. rewrite (proj2 (Z.ltb_lt _ _)) by lia.
  rewrite IH; cbn; [|done|rewrite length_app; cbn; lia]. by rewrite <- app_assoc.
Qed.

(** ** Checkpoints survive a crash *)

Definition valid_file (data : list byte) (cp : CheckpointFile) : Prop := decode data = Some cp ∧ cf_Version cp = 1.

(** The checkpoint that [LoadCheckpoint] restores from a disk. *)
Definition readable (file : option (list byte)) : option CheckpointFile :=
  data ← file; cp ← decode data; if cf_Version cp =? 1 then Some cp else None.
Definition restorable (d : Disk) : option CheckpointFile :=
  match readable (dk_cur d) with Some cp => Some cp | None => readable (dk_prev d) end.

Definition restored (s : Service E) (cp : CheckpointFile) : Service E :=
  set_snapshots s (data_entry unmarshal_Quote unmarshal_Bar <$> cf_Symbols cp) (cf_Cursor cp).

Lemma LoadCheckpoint_restorable s d :
  sv_hasPath s = true →
  LoadCheckpoint unmarshal_Quote unmarshal_Bar decode s d =
  match restorable d with Some cp => restored s cp | None => s end.
Proof.
  intros Hp. unfold LoadCheckpoint. rewrite Hp.
  assert (Hf : ∀ f, loadCheckpointFrom unmarshal_Quote unmarshal_Bar decode s f =
    match readable f with Some cp => Some (restored s cp) | None => None end).
  { intros [data|]; [|done]. unfold loadCheckpointFrom, readable. cbn. destruct (decode data) as [cp|]; [|done].
    cbn. by destruct (cf_Version cp =? 1). }
  rewrite !Hf. unfold restorable. destruct (readable (dk_cur d)); [done|]. by destruct (readable (dk_prev d)).
Qed.

(** The disk when the process dies during a checkpoint: some calls are done, and a
    write that was under way has left any bytes in the temporary file. *)
Definition crash_disk (d : Disk) (data : list byte) (k : nat) (partial : option (list byte)) : Disk :=
  let d' := foldl fs_run d (take k (checkpoint_calls d data)) in
  match checkpoint_calls d data !! k with
  | Some (FWriteTmp _) => match partial with Some p => mkDisk (dk_cur d') (dk_prev d') (Some p) | None => d' end
  | _ => d'
  end.

(** The current file, when there is one, is a readable checkpoint. *)
Definition current_readable (d : Disk) : Prop :=
  match dk_cur d with Some data => is_Some (readable (Some data)) | None => True end.

Hypothesis json_roundtrip : ∀ cp, decode (encode cp) = Some cp.

Lemma readable_new (s : Service E) now :
  readable (Some (encode (checkpoint_of s now))) = Some (checkpoint_of s now).
Proof. unfold readable. cbn. by rewrite json_roundtrip. Qed.

Ltac disk_cbn := cbn [app lookup list_lookup take foldl fs_run dk_cur dk_prev dk_tmp firstn] in *; rewrite ?take_nil;
  repeat match goal with |- context [lookup ?k (@nil fs_call)] => change (lookup k (@nil fs_call)) with (@None fs_call) end;
  cbn [foldl dk_cur dk_prev dk_tmp] in *.


(** ** What is saved is what is loaded *)

(** Every entry caches the event that its raw data decodes to. *)
Definition entries_decodable (m : gmap string (snapshotEntry E)) : Prop :=
  map_Forall (λ _ e, ∃ ev, reconstructEvent unmarshal_Quote unmarshal_Bar (sn_EventType e) (sn_RawData e) = Some ev ∧
    sn_Cached e = Some (NewCachedEvent ev)) m.

(** An event that survives its own JSON. *)
Definition event_decodable (ev : Event) : Prop :=
  reconstructEvent unmarshal_Quote unmarshal_Bar (event_type ev) (json_Marshal ev) = Some ev.

Lemma latest_decodable m evs now :
  entries_decodable m → Forall event_decodable evs → entries_decodable (latest m evs now).
Proof.
  intros Hm Hevs sym e. rewrite latest_lookup.
  destruct (last (filter (λ ev, event_symbol ev = sym) evs)) as [ev|] eqn:Hl; [|by apply Hm].
  intros [= <-]. exists ev. split; [|done]. rewrite Forall_forall in Hevs. apply Hevs.
  apply last_Some_elem_of in Hl. by apply list_elem_of_filter in Hl as [_ ?].
Qed.

Lemma data_entry_data e :
  (∃ ev, reconstructEvent unmarshal_Quote unmarshal_Bar (sn_EventType e) (sn_RawData e) = Some ev ∧
    sn_Cached e = Some (NewCachedEvent ev)) →
  data_entry unmarshal_Quote unmarshal_Bar (entry_data e) = e.
Proof.
  intros (ev & Hr & Hc). destruct e as [c lu raw ty]. unfold data_entry, entry_data. cbn in *. by rewrite Hr, Hc.
Qed.

(** A checkpoint restores the service. When the events that the service took
    survive their JSON encoding, a service that loads the checkpoint written by
    another holds the same entries, cached events included, and the same cursor. *)
Lemma checkpoint_roundtrip (fresh : Service E) evs d now maxAge retries c t :
  sv_hasPath fresh = true → Forall event_decodable evs →
  let s := UpdateCursor (foldl (λ s ev, Update json_Marshal s ev now) (New maxAge true retries) evs) c in
  let s' := LoadCheckpoint unmarshal_Quote unmarshal_Bar decode fresh (Checkpoint encode s d t) in
  sv_snapshots s' = sv_snapshots s ∧ sv_lastCursor s' = c ∧
  ∀ sym, sv_snapshots s' !! sym =
    (λ ev, entry_of ev now) <$> last (filter (λ ev, event_symbol ev = sym) evs).
Proof.
  intros Hp Hevs s s'.
  assert (Hs : sv_snapshots s = latest ∅ evs now).
  { unfold s. cbn [UpdateCursor set_snapshots sv_snapshots]. rewrite updates_apply by done. by rewrite apply_all. }
  assert (Hs' : s' = restored fresh (checkpoint_of s t)).
  { unfold s'. rewrite LoadCheckpoint_restorable by done. unfold Checkpoint, checkpoint_calls, restorable.
    destruct (dk_cur d); cbn [app foldl fs_run dk_cur dk_prev dk_tmp]; by rewrite readable_new. }
  assert (Hm : sv_snapshots s' = sv_snapshots s).
  { rewrite Hs'. cbn. rewrite <- map_fmap_compose. etransitivity; [|apply map_fmap_id].
    apply map_fmap_ext. intros sym e He. cbn. apply data_entry_data.
    assert (Hd : entries_decodable (sv_snapshots s)).
    { rewrite Hs. apply latest_decodable; [|done]. intros ? ?. by rewrite lookup_empty. }
    by apply (Hd sym). }
  split_and!; [done|by rewrite Hs'|]. intros sym. rewrite Hm, Hs, latest_lookup, lookup_empty. by destruct (last _).
Qed.

(** ** Recovery *)

(** The events that an answer of the repository replays. *)
Definition answer_events (a : query_answer) : list Event :=
  match a with
  | QResult events _ _ => omap (λ ev, reconstructEvent unmarshal_Quote unmarshal_Bar (se_EventType ev) (se_RawData ev)) events
  | _ => []
  end.

Lemma replay_answer events (s : Service E) now :
  foldl (λ s ev, replay_event json_Marshal unmarshal_Quote unmarshal_Bar s ev now) s events =
  set_snapshots s (latest (sv_snapshots s) (answer_events (QResult events None false)) now) (sv_lastCursor s).
Proof.
  revert s. induction events as [|ev events IH]; intros s; [by destruct s|]. cbn [foldl]. rewrite IH.
  unfold replay_event, answer_events. cbn [omap list_omap].
  destruct (reconstructEvent _ _ (se_EventType ev) (se_RawData ev)) as [e|]; [|done]. done.
Qed.

Lemma latest_app m evs evs' now : latest m (evs ++ evs') now = latest (latest m evs now) evs' now.
Proof. unfold latest. by rewrite foldl_app. Qed.

Lemma replay_loop_ok script s retries now :
  sv_buffering s = true →
  Z.of_nat (length (sv_liveBuffer s) + length (concat script.*1)) ≤ liveBuffer_capacity →
  (∃ evs next, last script.*2 = Some (QResult evs next false)) →
  ∃ s' r n, replay_loop json_Marshal unmarshal_Quote unmarshal_Bar s retries script now = Some (s', r) ∧
    sv_snapshots s' = latest (sv_snapshots s) (concat (answer_events <$> (take n script).*2)) now ∧
    sv_liveBuffer s' = sv_liveBuffer s ++ concat (take n script).*1 ∧ sv_buffering s' = true.
Proof.
  revert s retries. induction script as [|[live a] script IH]; intros s retries Hb Hlen Hlast.
  { by destruct Hlast as (? & ? & ?). }
  cbn [fmap list_fmap concat fst] in Hlen. rewrite length_app in Hlen.
  cbn [replay_loop]. rewrite live_buffered by (done || lia).
  set (s1 := set_buffer s true (sv_liveBuffer s ++ live)).
  assert (Hrest : script ≠ [] → ∃ evs next, last script.*2 = Some (QResult evs next false)).
  { intros Hne. destruct Hlast as (evs & next & Hl). exists evs, next. destruct script; [done|]. exact Hl. }
  destruct a as [|events next hasMore|].
  - destruct (sv_maxRecoveryRetries s1 <? retries + 1).
    + exists s1, RecUnreachable, 1%nat. split; [done|]. cbn. by rewrite app_nil_r.
    + destruct script as [|x script]; [by destruct Hlast as (? & ? & ?)|].
      destruct (IH s1 (retries + 1)) as (s' & r & n & Hr & Hs & Hl & Hbuf);
        [done|cbn [s1 set_buffer sv_liveBuffer]; rewrite length_app; lia|by apply Hrest|].
      exists s', r, (S n). split_and!; [done|exact Hs| |done]. rewrite Hl. cbn. by rewrite <- app_assoc.
  - rewrite replay_answer. set (s2 := set_snapshots s1 _ _).
    set (s3 := match next with Some c => UpdateCursor s2 c | None => s2 end).
    assert (H3 : sv_snapshots s3 = latest (sv_snapshots s) (answer_events (QResult events next hasMore)) now ∧
                 sv_liveBuffer s3 = sv_liveBuffer s ++ live ∧ sv_buffering s3 = true)
      by (unfold s3; by destruct next).
    destruct H3 as (H3a & H3b & H3c). destruct hasMore.
    + destruct script as [|x script]; [by destruct Hlast as (? & ? & ?)|].
      destruct (IH s3 0) as (s' & r & n & Hr & Hs & Hl & Hbuf);
        [done|rewrite H3b, length_app; lia|by apply Hrest|].
      exists s', r, (S n). split_and!; [done| | |done].
      * rewrite Hs, H3a. cbn [take fmap list_fmap concat snd]. by rewrite latest_app.
      * rewrite Hl, H3b. cbn. by rewrite <- app_assoc.
    + exists s3, RecOk, 1%nat. split_and!; [done| | |done].
      * rewrite H3a. cbn [take fmap list_fmap concat snd]. by rewrite app_nil_r.
      * rewrite H3b. cbn. by rewrite app_nil_r.
  - exists s1, RecCancelled, 1%nat. split; [done|]. cbn. by rewrite app_nil_r.
Qed.

(** Recovery applies the replay and then every live event. With at most 10,000
    live events arriving while the event log is replayed, the recovery ends once
    the log says that there is no more, and then every symbol holds its last live
    event, or else its last replayed event, or else its entry of the checkpoint;
    the buffer is empty and buffering is off. So it is, with what was replayed so
    far, when the log stays unreachable or the context is cancelled. *)
Lemma recovery_replays_then_live (s : Service E) d script now :
  sv_hasPath s = true → sv_liveBuffer s = [] → Z.of_nat (length (concat script.*1)) ≤ liveBuffer_capacity →
  (∃ evs next, last script.*2 = Some (QResult evs next false)) →
  ∃ s' r n, Recover json_Marshal unmarshal_Quote unmarshal_Bar decode s d true script now = Some (s', r) ∧
    let live := concat (take n script).*1 in
    let replayed := concat (answer_events <$> (take n script).*2) in
    sv_buffering s' = false ∧ sv_liveBuffer s' = [] ∧
    ∀ sym, sv_snapshots s' !! sym =
      match last (filter (λ ev, event_symbol ev = sym) live) with
      | Some ev => Some (entry_of ev now)
      | None => match last (filter (λ ev, event_symbol ev = sym) replayed) with
                | Some ev => Some (entry_of ev now)
                | None => sv_snapshots (LoadCheckpoint unmarshal_Quote unmarshal_Bar decode s d) !! sym
                end
      end.
Proof.
  intros Hp Hbuf Hlen Hlast. unfold Recover.
  set (s0 := LoadCheckpoint unmarshal_Quote unmarshal_Bar decode (StartBuffering s) d).
  assert (Hs0 : sv_buffering s0 = true ∧ sv_liveBuffer s0 = [] ∧
    sv_snapshots s0 = sv_snapshots (LoadCheckpoint unmarshal_Quote unmarshal_Bar decode s d)).
  { unfold s0. rewrite !LoadCheckpoint_restorable by done. by destruct (restorable d). }
  destruct Hs0 as (H1 & H2 & H3).
  destruct (replay_loop_ok script s0 0 now) as (s1 & r & n & Hr & Hs & Hl & Hb);
    [done|rewrite H2; cbn [length Nat.add]; lia|done|].
  rewrite Hr. cbn [mbind option_bind]. eexists _, r, n. split; [reflexivity|]. rewrite StopBuffering_eq. cbn.
  split_and!; [done|done|]. intros sym. rewrite latest_lookup, Hs, latest_lookup, Hl, H2, H3. done.
Qed.

(** The end of buffering can put an older event over a newer one.
    [StopBuffering] first turns buffering off and then applies the buffer: a live
    event that arrives in between is applied at once, and the older buffered event
    of the same symbol then replaces it. *)
Lemma stop_buffering_restores_older_event (s : Service E) ev1 ev2 now :
  sv_liveBuffer s = [ev1] → event_symbol ev1 = event_symbol ev2 →
  let off := set_buffer s false (sv_liveBuffer s) in
  StopBuffering json_Marshal s now = drainBuffer json_Marshal off now ∧
  sv_snapshots (Update json_Marshal off ev2 now) !! event_symbol ev2 = Some (entry_of ev2 now) ∧
  sv_snapshots (drainBuffer json_Marshal (Update json_Marshal off ev2 now) now) !! event_symbol ev2 =
    Some (entry_of ev1 now).
Proof.
  intros Hb Hsym off. split_and!; [done| |].
  - unfold Update, off. cbn. apply lookup_insert_eq.
  - unfold drainBuffer, Update, off. cbn. rewrite Hb. cbn. rewrite Hsym. apply lookup_insert_eq.
Qed.
End laws.

(** ** A concrete encoding

    An event that is its symbol, and checkpoints written as the bits of their
    number. *)

#[global] Instance symbol_event : MarketEventOps string := {
  EventSymbol := λ s, s;
  EventType := λ _, "quote";
  json_Encode := λ s, Some (bytes_of_string s);
  ProtobufEncoder := None;
  FlatBuffersEncoder := None;
}.

Definition symbol_marshal (ev : @MarketEvent string) : list byte := bytes_of_string (event_symbol ev).
Definition symbol_unmarshal (b : list byte) : option string := Some (string_of_bytes b).

#[global] Instance byte_countable : Countable byte.
Proof.
  apply (inj_countable Byte.to_N Byte.of_N). apply Byte.of_to_N.
Defined.
#[global] Instance Cursor_eq_dec : EqDecision Cursor.
Proof. solve_decision. Defined.
#[global] Instance Cursor_countable : Countable Cursor.
Proof.
  apply (inj_countable' (λ c, (cu_Timestamp c, cu_EventID c)) (λ p, mkCursor p.1 p.2)). by intros [].
Defined.
#[global] Instance snapshotData_eq_dec : EqDecision snapshotData.
Proof. solve_decision. Defined.
#[global] Instance snapshotData_countable : Countable snapshotData.
Proof.
  apply (inj_countable' (λ d, (sd_LastUpdated d, sd_RawData d, sd_EventType d))
                        (λ p, mkSnapshotData p.1.1 p.1.2 p.2)). by intros [].
Defined.
#[global] Instance CheckpointFile_eq_dec : EqDecision CheckpointFile.
Proof. solve_decision. Defined.
#[global] Instance CheckpointFile_countable : Countable CheckpointFile.
Proof.
  apply (inj_countable' (λ c, (cf_Version c, cf_Timestamp c, cf_Cursor c, cf_Symbols c))
                        (λ p, mkCheckpointFile p.1.1.1 p.1.1.2 p.1.2 p.2)). by intros [].
Defined.

Fixpoint pos_bits (p : positive) : list byte :=
  match p with xH => [] | xO p => Byte.x00 :: pos_bits p | xI p => Byte.x01 :: pos_bits p end.
Fixpoint bits_pos (l : list byte) : positive :=
  match l with [] => xH | b :: l => if decide (b = Byte.x00) then xO (bits_pos l) else xI (bits_pos l) end.

Lemma bits_pos_bits p : bits_pos (pos_bits p) = p.
Proof. induction p; cbn; rewrite ?IHp; done. Qed.

Definition encode_bits (cp : CheckpointFile) : list byte := pos_bits (encode cp).
Definition decode_bits (data : list byte) : option CheckpointFile := decode (bits_pos data).

Lemma bits_roundtrip cp : decode_bits (encode_bits cp) = Some cp.
Proof. unfold decode_bits, encode_bits. rewrite bits_pos_bits. apply decode_encode. Qed.

Definition symbol_base (sym : string) : @MarketEvent string := Base (Concrete sym).
Definition old_checkpoint : CheckpointFile := mkCheckpointFile 1 5 (mkCursor 5 40) ∅.
Definition old_disk : Disk := mkDisk (Some (encode_bits old_checkpoint)) None None.
Definition fresh_service : Service string := New 0 true 5.


Lemma checkpoint_roundtrip_witness :
  let s := UpdateCursor (foldl (λ s ev, Update symbol_marshal s ev 7) (New 0 true 5)
             [symbol_base "AAPL"; symbol_base "MSFT"]) (mkCursor 7 41) in
  sv_snapshots (LoadCheckpoint symbol_unmarshal symbol_unmarshal decode_bits fresh_service
    (Checkpoint encode_bits s old_disk 9)) = sv_snapshots s.
Proof.
  destruct (checkpoint_roundtrip symbol_marshal symbol_unmarshal symbol_unmarshal encode_bits decode_bits bits_roundtrip
    fresh_service [symbol_base "AAPL"; symbol_base "MSFT"] old_disk 7 0 5 (mkCursor 7 41) 9) as (H & _).
  - reflexivity.
  - constructor; [reflexivity|]. constructor; [reflexivity|constructor].
  - exact H.
Defined.

(** The log answers with an error, then with two events; two live events arrive. *)
Definition recovery_script : list (list (@MarketEvent string) * query_answer) :=
  [([symbol_base "MSFT"], QError);
   ([symbol_base "AAPL"], QResult [mkStoredEvent 41 "quote" (bytes_of_string "AAPL");
                                   mkStoredEvent 42 "trade" (bytes_of_string "IBM")] (Some (mkCursor 6 42)) false)].

Lemma recovery_replays_then_live_witness :
  ∃ s' r n, Recover symbol_marshal symbol_unmarshal symbol_unmarshal decode_bits fresh_service old_disk true
      recovery_script 7 = Some (s', r) ∧ sv_buffering s' = false ∧
    sv_snapshots s' !! "IBM" =
      match last (filter (λ ev, event_symbol ev = "IBM") (concat (take n recovery_script).*1)) with
      | Some ev => Some (entry_of symbol_marshal ev 7)
      | None => match last (filter (λ ev, event_symbol ev = "IBM")
                        (concat (answer_events symbol_unmarshal symbol_unmarshal <$> (take n recovery_script).*2))) with
                | Some ev => Some (entry_of symbol_marshal ev 7)
                | None => sv_snapshots (LoadCheckpoint symbol_unmarshal symbol_unmarshal decode_bits fresh_service old_disk) !! "IBM"
                end
      end.
Proof.
  destruct (recovery_replays_then_live symbol_marshal symbol_unmarshal symbol_unmarshal decode_bits
    fresh_service old_disk recovery_script 7) as (s' & r & n & H1 & H2 & _ & H3).
  - reflexivity.
  - reflexivity.
  - unfold liveBuffer_capacity. cbn. lia.
  - eexists _, _. reflexivity.
  - exists s', r, n. split; [exact H1|]. split; [exact H2|exact (H3 "IBM")].
Defined.

Definition newer_quote : @MarketEvent string := Base (PreEncoded (mkPreEncoded "AAPL" "quote" 2 0 [] [] [])).

Lemma stop_buffering_restores_older_event_witness :
  let s := set_buffer fresh_service true [symbol_base "AAPL"] in
  sv_snapshots (drainBuffer symbol_marshal
    (Update symbol_marshal (set_buffer s false (sv_liveBuffer s)) newer_quote 7) 7) !! "AAPL" =
    Some (entry_of symbol_marshal (symbol_base "AAPL") 7).
Proof.
  intros s.
  destruct (stop_buffering_restores_older_event symbol_marshal s (symbol_base "AAPL") newer_quote 7) as (_ & _ & H).
  - reflexivity.
  - reflexivity.
  - exact H.
Defined.
