(* ===== verification/Recovery.v ===== *)
(** * Recovery: the restart from checkpoint and log, and its orchestration

    [internal/recovery/wal_recovery.go] replays the log into the snapshot service,
    proved against the interface of the log; [internal/recovery/recovery.go] is the
    state machine of the restart, with the state it writes to disk. What arrives
    while it waits for dependencies is a script of ticks. *)

From Stdlib Require Import Strings.Byte.
From S2P Require Import Prelude Bytes WalCodec WalLog MarketEvent Bus Snapshot.

(** ** Replay of the log (wal_recovery.go) *)

Section wal_recovery.
Context {E L R : Type} `{!MarketEventOps E, !WalLog L R}.
#[local] Abbreviation Event := (@MarketEvent E).
Context (json_Marshal : Event → list byte).
Context (unmarshal_Quote unmarshal_Bar : list byte → option E).
Context (decode : list byte → option CheckpointFile).

(** A payload is tried as a quote, then as a bar; both must name a symbol. *)
Definition WAL_reconstructEvent (payload : list byte) : option Event :=
  if bool_decide (payload = []) then None
  else
    match unmarshal_Quote payload with
    | Some q => if bool_decide (EventSymbol q ≠ "") then Some (Base (Concrete q))
                else b ← unmarshal_Bar payload;
                     if bool_decide (EventSymbol b ≠ "") then Some (Base (Concrete b)) else None
    | None => b ← unmarshal_Bar payload;
              if bool_decide (EventSymbol b ≠ "") then Some (Base (Concrete b)) else None
    end.

Inductive wal_recovery_result :=
| WrOk (highestSeq : Z)
| WrOpenFailed (e : WalError)
| WrReadFailed (highestSeq : Z) (e : WalError)
| WrCancelled (highestSeq : Z).

(** The loop; [cancel] is the number of turns before the context is cancelled.
    [None]: out of fuel. *)
Fixpoint wal_replay (fuel : nat) (walLog : L) (s : Service E) (reader : R) (highestSeq : Z)
    (cancel : option nat) (now : Z) : option (Service E * wal_recovery_result) :=
  match fuel with
  | O => None
  | S fuel =>
      match cancel with
      | Some O => Some (s, WrCancelled highestSeq)
      | _ =>
          let cancel := Nat.pred <$> cancel in
          match wl_Next walLog reader with
          | (Err EOF, _) | (Err ErrCorruptedTail, _) => Some (s, WrOk highestSeq)
          | (Err e, _) => Some (s, WrReadFailed highestSeq e)
          | (Ok msg, reader) =>
              match WAL_reconstructEvent (Payload msg) with
              | None => wal_replay fuel walLog s reader highestSeq cancel now
              | Some event =>
                  wal_replay fuel walLog (Update json_Marshal s event now) reader (Sequence msg) cancel now
              end
          end
      end
  end.

(** The body of [Recover], before the deferred [StopBuffering]. *)
Definition WALRecover_body (fuel : nat) (s : Service E) (d : Disk) (walLog : L) (cancel : option nat) (now : Z)
    : option (Service E * wal_recovery_result) :=
  let s := LoadCheckpoint unmarshal_Quote unmarshal_Bar decode s d in
  let lastSeq := u64 (cu_EventID (LastCursor s)) in
  let s := StartBuffering s in
  match wl_NewReader walLog (u64 (lastSeq + 1)) with
  | Err e => Some (s, WrOpenFailed e)
  | Ok reader =>
      match wal_replay fuel walLog s reader lastSeq cancel now with
      | None => None
      | Some (s, WrOk highestSeq) =>
          Some (MarkReady (UpdateCursor s (mkCursor now (i64 highestSeq))), WrOk highestSeq)
      | Some r => Some r
      end
  end.

Definition WALRecover (fuel : nat) (s : Service E) (d : Disk) (walLog : L) (cancel : option nat) (now : Z)
    : option (Service E * wal_recovery_result) :=
  '(s, r) ← WALRecover_body fuel s d walLog cancel now; Some (StopBuffering json_Marshal s now, r).

(** *** What it restores *)

(** The events of the log's messages, and the number of the last one. *)
Definition replayed_events (ms : list Message) : list Event := omap (λ m, WAL_reconstructEvent (Payload m)) ms.

Definition highest_replayed (lastSeq : Z) (ms : list Message) : Z :=
  foldl (λ h m, match WAL_reconstructEvent (Payload m) with Some _ => Sequence m | None => h end) lastSeq ms.

(** The last [n] elements. *)
Definition lastn {A} (n : nat) (l : list A) : list A := drop (length l - n) l.

Lemma lastn_snoc {A} n (l : list A) x :
  (length l < n)%nat → lastn n (l ++ [x]) = lastn n l ++ [x].
Proof.
  intros Hl. unfold lastn. rewrite length_app. cbn. replace (length l + 1 - n)%nat with 0%nat by lia.
  by replace (length l - n)%nat with 0%nat by lia.
Qed.

Lemma lastn_snoc_full {A} n (l : list A) x :
  (0 < n)%nat → lastn n (lastn n l ++ [x]) = lastn n (l ++ [x]).
Proof.
  intros Hn. unfold lastn. rewrite !length_app, length_drop. cbn.
  destruct (decide (length l < n)%nat).
  - replace (length l - n)%nat with 0%nat by lia. by rewrite drop_0, Nat.sub_0_r.
  - replace (length l - (length l - n) + 1 - n)%nat with 1%nat by lia.
    rewrite drop_app_le by (rewrite length_drop; lia). rewrite drop_drop.
    rewrite drop_app_le by lia. do 2 f_equal. lia.
Qed.

Definition cap : nat := Z.to_nat liveBuffer_capacity.

Lemma bufferEvent_lastn (s : Service E) ev :
  sv_buffering s = true → (length (sv_liveBuffer s) ≤ cap)%nat →
  bufferEvent s ev = set_buffer s true (lastn cap (sv_liveBuffer s ++ [ev])).
Proof.
  intros Hb Hl. unfold bufferEvent. rewrite Hb.
  assert (Hc : Z.of_nat cap = liveBuffer_capacity) by (unfold cap; rewrite Z2Nat.id; [done|by unfold liveBuffer_capacity]).
  destruct (Z.ltb_spec (Z.of_nat (length (sv_liveBuffer s))) liveBuffer_capacity) as [Hlt|Hge].
  - unfold lastn. rewrite length_app. cbn [length]. by replace (length (sv_liveBuffer s) + 1 - cap)%nat with 0%nat by lia.
  - unfold lastn. rewrite length_app. cbn [length].
    replace (length (sv_liveBuffer s) + 1 - cap)%nat with 1%nat by lia.
    destruct (sv_liveBuffer s) as [|x l] eqn:Hbuf; [|done]. cbn [length] in Hge. unfold liveBuffer_capacity in Hge. lia.
Qed.

Lemma buffer_all evs (s : Service E) base now :
  sv_buffering s = true → sv_liveBuffer s = lastn cap base →
  foldl (λ s ev, Update json_Marshal s ev now) s evs = set_buffer s true (lastn cap (base ++ evs)).
Proof.
  revert s base. induction evs as [|ev evs IH]; intros s base Hb Hbuf; cbn [foldl].
  { rewrite app_nil_r, <- Hbuf. destruct s. cbn in *. by subst. }
  assert (Hcap : (0 < cap)%nat) by (unfold cap, liveBuffer_capacity; lia).
  unfold Update at 2. rewrite Hb, bufferEvent_lastn; [|done|rewrite Hbuf; unfold lastn; rewrite length_drop; lia].
  rewrite Hbuf, lastn_snoc_full by done.
  rewrite (IH _ (base ++ [ev])) by done. by rewrite <- app_assoc.
Qed.

Context `{!WalLogLaws L R}.

Lemma wal_replay_ok fuel walLog s reader ms h now :
  wl_reads walLog reader ms → (length ms < fuel)%nat →
  wal_replay fuel walLog s reader h None now =
  Some (foldl (λ s ev, Update json_Marshal s ev now) s (replayed_events ms), WrOk (highest_replayed h ms)).
Proof.
  revert s reader ms h. induction fuel as [|fuel IH]; intros s reader ms h Hr Hf; [lia|]. cbn [wal_replay].
  destruct ms as [|m ms].
  - destruct (wl_next_nil walLog reader Hr) as (r' & -> & _). done.
  - destruct (wl_next_cons walLog reader m ms Hr) as (r' & -> & Hr'). cbn [length] in Hf.
    change (replayed_events (m :: ms)) with
      (match WAL_reconstructEvent (Payload m) with Some ev => ev :: replayed_events ms | None => replayed_events ms end).
    change (highest_replayed h (m :: ms)) with
      (highest_replayed (match WAL_reconstructEvent (Payload m) with Some _ => Sequence m | None => h end) ms).
    destruct (WAL_reconstructEvent (Payload m)) as [ev|]; cbn [fmap option_fmap option_map]; rewrite (IH _ r' ms) by (done || lia); done.
Qed.

(** The records that a recovery from checkpoint [d] has to replay. *)
Definition to_replay (s : Service E) (d : Disk) (ms : list Message) : list Message :=
  filter (λ m, u64 (u64 (cu_EventID (sv_lastCursor (LoadCheckpoint unmarshal_Quote unmarshal_Bar decode s d))) + 1)
               ≤ Sequence m) ms.

Lemma wal_recovery_restored_aux fuel (s : Service E) d walLog ms now :
  wl_holds walLog ms → sv_liveBuffer s = [] →
  let ckpt := LoadCheckpoint unmarshal_Quote unmarshal_Bar decode s d in
  let todo := to_replay s d ms in
  let lastSeq := u64 (cu_EventID (sv_lastCursor ckpt)) in
  wl_first walLog ≤ u64 (lastSeq + 1) → (length ms < fuel)%nat →
  ∃ mid s', WALRecover_body fuel s d walLog None now = Some (mid, WrOk (highest_replayed lastSeq todo)) ∧
    sv_ready mid = true ∧ sv_snapshots mid = sv_snapshots ckpt ∧
    WALRecover fuel s d walLog None now = Some (s', WrOk (highest_replayed lastSeq todo)) ∧
    sv_ready s' = true ∧ sv_buffering s' = false ∧
    cu_EventID (sv_lastCursor s') = i64 (highest_replayed lastSeq todo) ∧
    sv_snapshots s' = latest json_Marshal (sv_snapshots ckpt) (lastn cap (replayed_events todo)) now.
Proof.
  intros Hh Hbuf ckpt todo lastSeq Hfirst Hfuel.
  destruct (wl_open walLog ms (u64 (lastSeq + 1)) Hh Hfirst) as (r & Hopen & Hreads).
  assert (Hck : sv_liveBuffer (StartBuffering ckpt) = lastn cap []).
  { unfold ckpt, LoadCheckpoint. destruct (sv_hasPath s); [|exact Hbuf].
    unfold loadCheckpointFrom.
    destruct (dk_cur d) as [c1|], (dk_prev d) as [c2|]; cbn;
      repeat (match goal with |- context [decode ?c] => destruct (decode c) as [?|] end; cbn);
      repeat (match goal with |- context [cf_Version ?c =? 1] => destruct (cf_Version c =? 1) end; cbn); exact Hbuf. }
  pose proof (buffer_all (replayed_events todo) (StartBuffering ckpt) [] now eq_refl Hck) as Hfold.
  assert (Hreplay : wal_replay fuel walLog (StartBuffering ckpt) r lastSeq None now =
    Some (set_buffer (StartBuffering ckpt) true (lastn cap (replayed_events todo)), WrOk (highest_replayed lastSeq todo))).
  { rewrite (wal_replay_ok fuel walLog _ r todo); [by rewrite Hfold|exact Hreads|].
    pose proof (length_filter (λ m, u64 (lastSeq + 1) ≤ Sequence m) ms). unfold todo, to_replay. fold ckpt lastSeq. lia. }
  assert (Hbody : WALRecover_body fuel s d walLog None now =
    Some (MarkReady (UpdateCursor (set_buffer (StartBuffering ckpt) true (lastn cap (replayed_events todo)))
            (mkCursor now (i64 (highest_replayed lastSeq todo)))), WrOk (highest_replayed lastSeq todo))).
  { unfold WALRecover_body. fold ckpt. unfold LastCursor. fold lastSeq. by rewrite Hopen, Hreplay. }
  eexists _, _. split; [exact Hbody|]. split; [done|]. split; [done|]. unfold WALRecover. rewrite Hbody.
  cbn [mbind option_bind]. split; [reflexivity|]. rewrite StopBuffering_eq. done.
Qed.

(** What a recovery from the log restores. Whatever the checkpoint, when the
    log reaches back to its cursor the recovery ends with the number of the last
    record it could decode, the service is ready, and its entries are those of the
    checkpoint overwritten by the last 10,000 decodable records after the cursor;
    until the deferred drain, a service that is already marked ready still shows
    the checkpoint. *)
Lemma wal_recovery_restores fuel (s : Service E) d walLog ms now :
  wl_holds walLog ms → sv_liveBuffer s = [] →
  let ckpt := LoadCheckpoint unmarshal_Quote unmarshal_Bar decode s d in
  let todo := to_replay s d ms in
  let lastSeq := u64 (cu_EventID (sv_lastCursor ckpt)) in
  wl_first walLog ≤ u64 (lastSeq + 1) → (length ms < fuel)%nat →
  ∃ mid s', WALRecover_body fuel s d walLog None now = Some (mid, WrOk (highest_replayed lastSeq todo)) ∧
    sv_ready mid = true ∧ sv_snapshots mid = sv_snapshots ckpt ∧
    WALRecover fuel s d walLog None now = Some (s', WrOk (highest_replayed lastSeq todo)) ∧
    sv_ready s' = true ∧ sv_buffering s' = false ∧
    cu_EventID (sv_lastCursor s') = i64 (highest_replayed lastSeq todo) ∧
    sv_snapshots s' = latest json_Marshal (sv_snapshots ckpt) (lastn cap (replayed_events todo)) now.
Proof. intros Hh Hbuf ckpt todo lastSeq. by apply wal_recovery_restored_aux. Qed.

(** A recovery from the log loses events beyond the live buffer. The replay goes
    through the buffer of live events, which drops its oldest event when it holds
    10,000: a symbol whose records after the checkpoint all come before the last
    10,000 keeps the entry of the checkpoint, although the service is ready and its
    cursor is past the records, so that no later recovery replays them. *)
Lemma wal_recovery_loses_early_events fuel (s : Service E) d walLog ms now sym ev :
  wl_holds walLog ms → sv_liveBuffer s = [] →
  let ckpt := LoadCheckpoint unmarshal_Quote unmarshal_Bar decode s d in
  let todo := to_replay s d ms in
  let lastSeq := u64 (cu_EventID (sv_lastCursor ckpt)) in
  wl_first walLog ≤ u64 (lastSeq + 1) → (length ms < fuel)%nat →
  ev ∈ replayed_events todo → event_symbol ev = sym →
  filter (λ ev, event_symbol ev = sym) (lastn cap (replayed_events todo)) = [] →
  ∃ s', WALRecover fuel s d walLog None now = Some (s', WrOk (highest_replayed lastSeq todo)) ∧
    sv_ready s' = true ∧ sv_snapshots s' !! sym = sv_snapshots ckpt !! sym ∧
    cu_EventID (sv_lastCursor s') = i64 (highest_replayed lastSeq todo).
Proof.
  intros Hh Hbuf ckpt todo lastSeq Hfirst Hfuel _ _ Hnone.
  destruct (wal_recovery_restored_aux fuel s d walLog ms now Hh Hbuf Hfirst Hfuel)
    as (mid & s' & _ & _ & _ & Hr & Hready & _ & Hcur & Hsn).
  exists s'. split_and!; [exact Hr|done| |exact Hcur]. rewrite Hsn, latest_lookup. fold ckpt todo. by rewrite Hnone.
Qed.
End wal_recovery.

(** ** A log that is a list of messages

    The smallest log with the interface's laws, to run the recovery on. *)

Instance list_log : WalLog (list Message) (list Message) := {
  wl_NewReader l start := if start <? 0 then Err ErrSequenceTooOld else Ok (filter (λ m, start ≤ Sequence m) l);
  wl_Next _ r := match r with [] => (Err EOF, []) | m :: r => (Ok m, r) end;
  wl_LastSequence l := default 0 (Sequence <$> last l);
}.

Definition list_log_holds (l ms : list Message) : Prop :=
  l = ms ∧ Forall (λ x, in_u64 (Sequence x)) ms ∧
  ∀ i j x y, (i < j)%nat → ms !! i = Some x → ms !! j = Some y → Sequence x < Sequence y.

#[refine] Instance list_log_laws : WalLogLaws (list Message) (list Message) := {
  wl_holds := list_log_holds;
  wl_first _ := 0;
  wl_reads _ r ms := r = ms;
}.
Proof.
  - by intros l ms (_ & H & _).
  - intros l ms i j x y (_ & _ & H). by apply H.
  - intros l ms start _ Hs. cbn. by rewrite (proj2 (Z.ltb_lt _ _)).
  - intros l ms start (-> & _ & _) Hs. cbn. rewrite (proj2 (Z.ltb_ge _ _)) by done. by eexists.
  - intros l r ->. by eexists.
  - intros l r x ms ->. by eexists.
Defined.

Definition quote_msg (seq : Z) (sym : string) : Message := mkMessage seq 0 sym "" (bytes_of_string sym).

(** One record of MSFT, then 10,000 of AAPL. *)
Definition long_log : list Message :=
  quote_msg 1 "MSFT" :: ((λ z, quote_msg z "AAPL") <$> seqZ 2 10000).

Lemma long_log_holds : list_log_holds long_log long_log.
Proof.
  unfold list_log_holds. split; [done|].
  assert (Hl : ∀ i x, long_log !! i = Some x → Sequence x = Z.of_nat i + 1 ∧ Z.of_nat i < 10001).
  { intros [|i] x Hx; [injection Hx as <-; cbn; lia|]. cbn [long_log lookup list_lookup] in Hx.
    change (((λ z, quote_msg z "AAPL") <$> seqZ 2 10000) !! i = Some x) in Hx.
    rewrite list_lookup_fmap in Hx. destruct (seqZ 2 10000 !! i) as [z|] eqn:Hz; [|done].
    injection Hx as <-. apply lookup_seqZ in Hz as [-> Hi]. cbn. lia. }
  split.
  - apply Forall_lookup_2. intros i x Hx. destruct (Hl i x Hx). unfold in_u64. lia.
  - intros i j x y Hij Hx Hy. destruct (Hl i x Hx), (Hl j y Hy). lia.
Qed.

Definition small_log : list Message := [quote_msg 1 "MSFT"; quote_msg 2 "AAPL"].

Lemma small_log_holds : list_log_holds small_log small_log.
Proof.
  split; [done|]. split.
  - repeat (constructor; [unfold in_u64; cbn; lia|]). constructor.
  - intros [|[|i]] [|[|j]] x y Hij Hx Hy; try lia; try done; injection Hx as <-; injection Hy as <-; cbn; lia.
Qed.

Lemma wal_recovery_restores_witness :
  ∃ s', WALRecover symbol_marshal symbol_unmarshal symbol_unmarshal decode_bits 5 fresh_service (mkDisk None None None)
      small_log None 7 = Some (s', WrOk 2) ∧ sv_ready s' = true ∧
    sv_snapshots s' = latest symbol_marshal ∅ [symbol_base "MSFT"; symbol_base "AAPL"] 7.
Proof.
  destruct (wal_recovery_restores symbol_marshal symbol_unmarshal symbol_unmarshal decode_bits 5 fresh_service
    (mkDisk None None None) small_log small_log 7) as (mid & s' & _ & _ & _ & H1 & H2 & _ & _ & H3).
  - exact small_log_holds.
  - reflexivity.
  - vm_compute. discriminate.
  - cbn. lia.
  - exists s'. split; [exact H1|]. split; [exact H2|]. rewrite H3. reflexivity.
Defined.

Lemma wal_recovery_loses_early_events_witness :
  ∃ s' h, WALRecover symbol_marshal symbol_unmarshal symbol_unmarshal decode_bits (S (length long_log)) fresh_service
      (mkDisk None None None) long_log None 7 = Some (s', WrOk h) ∧
    sv_ready s' = true ∧ sv_snapshots s' !! "MSFT" = None.
Proof.
  destruct (wal_recovery_loses_early_events symbol_marshal symbol_unmarshal symbol_unmarshal decode_bits
    (S (length long_log)) fresh_service (mkDisk None None None) long_log long_log 7 "MSFT" (symbol_base "MSFT"))
    as (s' & H1 & H2 & H3 & _).
  - exact long_log_holds.
  - reflexivity.
  - vm_compute. discriminate.
  - apply Nat.lt_succ_diag_r.
  - apply (list_elem_of_lookup_2 _ 0). vm_compute. reflexivity.
  - reflexivity.
  - vm_compute. reflexivity.
  - eexists s', _. split; [exact H1|]. split; [exact H2|exact H3].
Defined.

(** ** The restart (recovery.go) *)

Inductive RecState :=
| StateInit | StateLoading | StateConnecting | StateRecovering | StateBuilding | StateReady | StateFailed.
#[global] Instance RecState_eq_dec : EqDecision RecState.
Proof. solve_decision. Defined.

Definition RecState_String (s : RecState) : string :=
  match s with
  | StateInit => "init" | StateLoading => "loading" | StateConnecting => "connecting"
  | StateRecovering => "recovering" | StateBuilding => "building" | StateReady => "ready"
  | StateFailed => "failed"
  end.

Record RecoveryFile := mkRecoveryFile {
  rf_Version : Z;
  rf_StartedAt : Z;
  rf_LastState : string;
  rf_RecoveryCnt : Z;
}.

(** The state file: absent, not parseable, or what [json.Unmarshal] finds in it. *)
Inductive state_file := NoFile | Unparseable | Parsed (cp : RecoveryFile).

(** [rm_reported] is what the health callback was told. *)
Record RecoveryManager := mkRecoveryManager {
  rm_state : RecState;
  rm_hasPath : bool;
  rm_startedAt : Z;
  rm_recoveryCnt : Z;
  rm_dependencies : gmap string bool;
  rm_reported : list RecState;
}.

Definition RM_New (hasPath : bool) : RecoveryManager := mkRecoveryManager StateInit hasPath zero_time 0 ∅ [].

Definition RM_State (r : RecoveryManager) : RecState := rm_state r.
Definition IsReady (r : RecoveryManager) : bool := bool_decide (RM_State r = StateReady).

Definition persistState (r : RecoveryManager) : state_file :=
  Parsed (mkRecoveryFile 1 (rm_startedAt r) (RecState_String (rm_state r)) (rm_recoveryCnt r)).

Definition SetState (r : RecoveryManager) (file : state_file) (state : RecState) : RecoveryManager * state_file :=
  let r := mkRecoveryManager state (rm_hasPath r) (rm_startedAt r) (rm_recoveryCnt r) (rm_dependencies r)
             (rm_reported r ++ [state]) in
  (r, if rm_hasPath r && bool_decide (state ≠ StateInit) then persistState r else file).

Definition RegisterDependency (r : RecoveryManager) (name : string) : RecoveryManager :=
  mkRecoveryManager (rm_state r) (rm_hasPath r) (rm_startedAt r) (rm_recoveryCnt r)
    (<[name := false]> (rm_dependencies r)) (rm_reported r).

Definition DependencyReady (r : RecoveryManager) (name : string) : RecoveryManager :=
  mkRecoveryManager (rm_state r) (rm_hasPath r) (rm_startedAt r) (rm_recoveryCnt r)
    (<[name := true]> (rm_dependencies r)) (rm_reported r).

Definition AllDependenciesReady (r : RecoveryManager) : bool :=
  forallb (λ kv : string * bool, kv.2) (map_to_list (rm_dependencies r)).

(** Between two looks at the dependencies: those that became ready before the
    ticker fires, or the cancellation. *)
Inductive wait_event := WTick (ready : list string) | WCancelled.

Fixpoint wait_loop (r : RecoveryManager) (script : list wait_event) : option (RecoveryManager * bool) :=
  if AllDependenciesReady r then Some (r, true)
  else match script with
       | [] => None
       | WCancelled :: _ => Some (r, false)
       | WTick ready :: script => wait_loop (foldl DependencyReady r ready) script
       end.

Definition WaitForDependencies (r : RecoveryManager) (file : state_file) (script : list wait_event)
    : option (RecoveryManager * state_file * bool) :=
  let '(r, file) := SetState r file StateConnecting in
  '(r, ok) ← wait_loop r script; Some (r, file, ok).

Definition loadState (r : RecoveryManager) (file : state_file) : RecoveryManager :=
  if rm_hasPath r then
    match file with
    | Parsed cp => mkRecoveryManager (rm_state r) (rm_hasPath r) (rf_StartedAt cp) (rf_RecoveryCnt cp)
                     (rm_dependencies r) (rm_reported r)
    | _ => r
    end
  else r.

Inductive restart_error := DependencyWaitCancelled | RecoverFnFailed.

(** [recoverFn]: [None] when it is nil, else whether it succeeds. *)
Definition RM_Recover (r : RecoveryManager) (file : state_file) (recoverFn : option bool)
    (script : list wait_event) (now : Z) : option (RecoveryManager * state_file * option restart_error) :=
  let r := mkRecoveryManager (rm_state r) (rm_hasPath r) now (rm_recoveryCnt r) (rm_dependencies r) (rm_reported r) in
  let '(r, file) := SetState r file StateLoading in
  let r := loadState r file in
  let r := mkRecoveryManager (rm_state r) (rm_hasPath r) (rm_startedAt r) (rm_recoveryCnt r + 1)
             (rm_dependencies r) (rm_reported r) in
  '(r, file, ok) ← WaitForDependencies r file script;
  if negb ok then let '(r, file) := SetState r file StateFailed in Some (r, file, Some DependencyWaitCancelled)
  else
    let '(r, file) := SetState r file StateRecovering in
    match recoverFn with
    | Some false => let '(r, file) := SetState r file StateFailed in Some (r, file, Some RecoverFnFailed)
    | _ =>
        let '(r, file) := SetState r file StateBuilding in
        let '(r, file) := SetState r file StateReady in
        Some (r, file, None)
    end.

Record RecoveryReport := mkRecoveryReport {
  rr_State : string;
  rr_RecoveryCnt : Z;
  rr_StartedAt : Z;
  rr_Duration : Z;
  rr_Dependencies : gmap string bool;
}.

Definition Report (r : RecoveryManager) (now : Z) : RecoveryReport :=
  mkRecoveryReport (RecState_String (rm_state r)) (rm_recoveryCnt r) (rm_startedAt r)
    (time_sub now (rm_startedAt r)) (rm_dependencies r).

(** *** Its order *)

(** The states that a restart goes through, by its result. *)
Definition restart_states (e : option restart_error) : list RecState :=
  match e with
  | None => [StateLoading; StateConnecting; StateRecovering; StateBuilding; StateReady]
  | Some DependencyWaitCancelled => [StateLoading; StateConnecting; StateFailed]
  | Some RecoverFnFailed => [StateLoading; StateConnecting; StateRecovering; StateFailed]
  end.

Lemma DependencyReady_frame r ready :
  let r' := foldl DependencyReady r ready in
  rm_state r' = rm_state r ∧ rm_hasPath r' = rm_hasPath r ∧ rm_reported r' = rm_reported r ∧
  rm_recoveryCnt r' = rm_recoveryCnt r ∧ rm_startedAt r' = rm_startedAt r.
Proof. revert r. induction ready as [|n ready IH]; intros r; [done|]. cbn. apply (IH (DependencyReady r n)). Qed.

Lemma wait_loop_frame r script r' ok :
  wait_loop r script = Some (r', ok) →
  rm_state r' = rm_state r ∧ rm_hasPath r' = rm_hasPath r ∧ rm_reported r' = rm_reported r ∧
  rm_recoveryCnt r' = rm_recoveryCnt r ∧ rm_startedAt r' = rm_startedAt r ∧ (ok = true → AllDependenciesReady r' = true).
Proof.
  revert r. induction script as [|[ready|] script IH]; intros r; cbn [wait_loop];
    (destruct (AllDependenciesReady r) eqn:Ha; [intros [= <- <-]; by rewrite Ha|]); [done| |intros [= <- <-]; done].
  intros Hr. destruct (IH _ Hr) as (H1 & H2 & H3 & H4 & H5 & H6).
  destruct (DependencyReady_frame r ready) as (G1 & G2 & G3 & G4 & G5). rewrite H1, H2, H3, H4, H5. done.
Qed.

Lemma AllDependenciesReady_spec r :
  AllDependenciesReady r = true ↔ map_Forall (λ _ ready, ready = true) (rm_dependencies r).
Proof.
  unfold AllDependenciesReady. rewrite forallb_forall, map_Forall_to_list, Forall_forall. split.
  - intros H [k v] Hin. apply (H (k, v)). by apply list_elem_of_In.
  - intros H [k v] Hin. apply (H (k, v)). by apply list_elem_of_In.
Qed.

(** The restart follows its order, and traffic is accepted only after it. The
    states reported are loading, connecting, recovering, building and ready, or a
    prefix of these followed by failed; the manager is ready exactly when the
    restart returned no error, and then every registered dependency is ready and
    the recovery function did not fail; the state file names the last state. *)
Lemma restart_follows_order r file recoverFn script now r' file' err :
  RM_Recover r file recoverFn script now = Some (r', file', err) →
  rm_reported r' = rm_reported r ++ restart_states err ∧
  (IsReady r' = true ↔ err = None) ∧
  (err = None → recoverFn ≠ Some false ∧ map_Forall (λ _ ready, ready = true) (rm_dependencies r')) ∧
  (rm_hasPath r = true → file' = persistState r').
Proof.
  unfold RM_Recover, WaitForDependencies, SetState. cbv beta iota zeta.
  set (r1 := mkRecoveryManager StateLoading _ _ _ _ _).
  set (file1 := if rm_hasPath r1 && _ then _ else file).
  assert (Hl : rm_hasPath (loadState r1 file1) = rm_hasPath r ∧ rm_reported (loadState r1 file1) = rm_reported r ++ [StateLoading])
    by (unfold loadState; destruct (rm_hasPath r1) eqn:?; [destruct file1|]; done).
  destruct Hl as [Hpath Hrep]. set (r2 := loadState r1 file1) in *.
  destruct (wait_loop _ script) as [[r3 ok]|] eqn:Hw; [|done]. cbn [mbind option_bind].
  apply wait_loop_frame in Hw as (_ & H2 & H3 & _ & _ & H6). cbn in H2, H3.
  destruct ok; cbn [negb].
  - specialize (H6 eq_refl). apply AllDependenciesReady_spec in H6.
    destruct recoverFn as [[]|]; intros [= <- <- <-]; cbn; rewrite H3, Hrep, H2, Hpath, <- ?app_assoc; cbn;
      (split_and!; [done|done| |by intros ->]); intros; first [done|split; done].
  - intros [= <- <- <-]; cbn; rewrite H3, Hrep, H2, Hpath, <- ?app_assoc; cbn.
    split_and!; [done|done|done|by intros ->].
Qed.

Definition two_deps : RecoveryManager := RegisterDependency (RegisterDependency (RM_New true) "redis") "database".
Definition deps_script : list wait_event := [WTick ["redis"]; WTick ["database"]].
Definition deps_result : RecoveryManager * state_file * option restart_error :=
  default (two_deps, NoFile, None) (RM_Recover two_deps NoFile (Some true) deps_script 9).

Lemma restart_follows_order_witness :
  rm_reported deps_result.1.1 = [StateLoading; StateConnecting; StateRecovering; StateBuilding; StateReady] ∧
  IsReady deps_result.1.1 = true.
Proof.
  destruct (restart_follows_order two_deps NoFile (Some true) deps_script 9 deps_result.1.1 deps_result.1.2 deps_result.2)
    as (H1 & H2 & _).
  - vm_compute. reflexivity.
  - split; [exact H1|]. apply H2. vm_compute. reflexivity.
Defined.

(** The count of restarts never passes one. The first transition writes the state
    file with the count of the fresh manager, zero, before the previous count is
    loaded from that file: whatever was on disk, a restart ends with the count 1. *)
Lemma recovery_count_is_always_one file recoverFn script now r deps r' file' err :
  r = mkRecoveryManager StateInit true zero_time 0 deps [] →
  RM_Recover r file recoverFn script now = Some (r', file', err) →
  rm_recoveryCnt r' = 1 ∧ file' = Parsed (mkRecoveryFile 1 now (RecState_String (rm_state r')) 1).
Proof.
  intros ->. unfold RM_Recover. cbn.
  destruct (wait_loop _ script) as [[r3 ok]|] eqn:Hw; [|done]. cbn.
  apply wait_loop_frame in Hw as (_ & H2 & _ & H4 & H5 & _). cbn in H2, H4, H5.
  destruct ok; [destruct recoverFn as [[]|]|]; intros [= <- <- <-]; cbn; rewrite H2; cbn; unfold persistState; cbn;
    rewrite H4, H5; done.
Qed.

(** Two restarts in a row, the second from the file of the first. *)
Lemma recovery_count_is_always_one_witness :
  let second := default (two_deps, NoFile, None) (RM_Recover two_deps deps_result.1.2 (Some true) deps_script 20) in
  rm_recoveryCnt second.1.1 = 1.
Proof.
  intros second.
  destruct (recovery_count_is_always_one deps_result.1.2 (Some true) deps_script 20 two_deps
    (rm_dependencies two_deps) second.1.1 second.1.2 second.2) as [H _].
  - reflexivity.
  - vm_compute. reflexivity.
  - exact H.
Defined.
