(* ===== verification/WireEnvelope.v ===== *)
(** * WireEnvelope: the binary form of an event on Redis

    [internal/distribution/redisbus/wire_envelope.go]: [MarshalBinary] and
    [UnmarshalBinary] of the envelope that carries a cached event between gateways.
    The trace context is a map; [order] is the order in which the encoder ranges
    over it. The decoder's offset is the list of bytes that are left. *)

From Stdlib Require Import Strings.Byte.
From S2P Require Import Prelude Bytes.

Record wireEnvelope := mkWireEnvelope {
  we_Symbol : string;
  we_Type : string;
  we_Seq : Z;
  we_Timestamp : Z;
  we_JSON : list byte;
  we_Protobuf : list byte;
  we_FlatBuffers : list byte;
  we_TraceCtx : gmap string string;
}.

Inductive WireError :=
| TooShort | SymbolLength | TypeLengthHeader | TypeLength | SeqAndTimestamp
| JSONLengthHeader | JSONLength | ProtobufLengthHeader | ProtobufLength
| FlatBuffersLengthHeader | FlatBuffersLength | TraceCtxLength
| TraceKeyLength | TraceKeyBounds | TraceValLength | TraceValBounds.

(** ** Encoding *)

(** A length of [hdr] bytes, then the bytes. *)
Definition put_field (hdr : nat) (b : list byte) : list byte := le_put hdr (Z.of_nat (length b)) ++ b.

Definition put_entry (kv : string * string) : list byte :=
  put_field 2 (bytes_of_string kv.1) ++ put_field 2 (bytes_of_string kv.2).

(** [uint64(e.Timestamp.UnixNano())] wraps a time outside 1678..2262. *)
Definition MarshalBinary (e : wireEnvelope) (order : list (string * string)) : list byte :=
  put_field 2 (bytes_of_string (we_Symbol e)) ++
  put_field 2 (bytes_of_string (we_Type e)) ++
  le_put 8 (u64 (we_Seq e)) ++ le_put 8 (u64 (i64 (we_Timestamp e))) ++
  put_field 4 (we_JSON e) ++ put_field 4 (we_Protobuf e) ++ put_field 4 (we_FlatBuffers e) ++
  le_put 2 (Z.of_nat (length order)) ++ concat (put_entry <$> order).

(** ** Decoding *)

Definition rbind {A B} (r : result A WireError) (f : A → result B WireError) : result B WireError :=
  match r with Ok a => f a | Err e => Err e end.

(** [n] bytes, read as a little-endian number. *)
Definition get_uint (n : nat) (short : WireError) (data : list byte) : result (Z * list byte) WireError :=
  if (length data <? n)%nat then Err short else Ok (le_get (take n data), drop n data).

(** A length of [hdr] bytes, then as many bytes. *)
Definition get_field (hdr : nat) (short bounds : WireError) (data : list byte)
    : result (list byte * list byte) WireError :=
  rbind (get_uint hdr short data) (λ '(n, rest),
    if Z.of_nat (length rest) <? n then Err bounds
    else Ok (take (Z.to_nat n) rest, drop (Z.to_nat n) rest)).

Fixpoint get_entries (n : nat) (ctx : gmap string string) (data : list byte) : result (gmap string string) WireError :=
  match n with
  | O => Ok ctx
  | S n =>
      rbind (get_field 2 TraceKeyLength TraceKeyBounds data) (λ '(k, data),
      rbind (get_field 2 TraceValLength TraceValBounds data) (λ '(v, data),
        get_entries n (<[string_of_bytes k := string_of_bytes v]> ctx) data))
  end.

(** The sequence number and the time are read after one check for both. *)
Definition get_seq_time (data : list byte) : result (Z * Z * list byte) WireError :=
  if (length data <? 16)%nat then Err SeqAndTimestamp
  else Ok (i64 (le_get (take 8 data)), i64 (le_get (take 8 (drop 8 data))), drop 16 data).

Definition UnmarshalBinary (data : list byte) : result wireEnvelope WireError :=
  rbind (get_field 2 TooShort SymbolLength data) (λ '(symbol, data),
  rbind (get_field 2 TypeLengthHeader TypeLength data) (λ '(typ, data),
  rbind (get_seq_time data) (λ '(seq, ts, data),
  rbind (get_field 4 JSONLengthHeader JSONLength data) (λ '(json, data),
  rbind (get_field 4 ProtobufLengthHeader ProtobufLength data) (λ '(proto, data),
  rbind (get_field 4 FlatBuffersLengthHeader FlatBuffersLength data) (λ '(flat, data),
  rbind (get_uint 2 TraceCtxLength data) (λ '(mapLen, data),
  rbind (get_entries (Z.to_nat mapLen) ∅ data) (λ ctx,
    Ok (mkWireEnvelope (string_of_bytes symbol) (string_of_bytes typ) seq ts json proto flat ctx))))))))).

(** ** Fields *)

(** [p] recognises the piece [x], whatever follows, and rejects its prefixes. *)
Definition reads {A} (p : list byte → result (A * list byte) WireError) (x : list byte) (a : A) : Prop :=
  (∀ rest, p (x ++ rest) = Ok (a, rest)) ∧ (∀ k, (k < length x)%nat → ∃ e, p (take k x) = Err e).

Lemma get_uint_reads n short v : 0 ≤ v < 2 ^ (8 * Z.of_nat n) → reads (get_uint n short) (le_put n v) v.
Proof.
  intros Hv. split.
  - intros rest. unfold get_uint. rewrite length_app, length_le_put, (proj2 (Nat.ltb_ge _ _)) by lia.
    rewrite take_app_length' by (by rewrite length_le_put). rewrite drop_app_length' by (by rewrite length_le_put).
    by rewrite le_get_put, Z.mod_small.
  - intros k Hk. rewrite length_le_put in Hk. exists short. unfold get_uint.
    by rewrite (proj2 (Nat.ltb_lt _ _)) by (rewrite length_take, length_le_put; lia).
Qed.

Lemma get_field_reads hdr short bounds b :
  Z.of_nat (length b) < 2 ^ (8 * Z.of_nat hdr) → reads (get_field hdr short bounds) (put_field hdr b) b.
Proof.
  intros Hb. destruct (get_uint_reads hdr short (Z.of_nat (length b))) as [Hok Hshort]; [lia|].
  unfold reads, get_field, put_field. split.
  - intros rest. rewrite <- app_assoc, Hok. cbn [rbind].
    rewrite (proj2 (Z.ltb_ge _ _)) by (rewrite length_app; lia).
    by rewrite Nat2Z.id, take_app_length, drop_app_length.
  - intros k Hk. rewrite length_app, length_le_put in Hk. destruct (decide (k < hdr)%nat) as [Hlt|Hge].
    + destruct (Hshort k) as [e He]; [by rewrite length_le_put|]. exists e.
      rewrite take_app_le by (rewrite length_le_put; lia). by rewrite He.
    + exists bounds. rewrite take_app_ge by (rewrite length_le_put; lia). rewrite length_le_put, Hok. cbn [rbind].
      by rewrite (proj2 (Z.ltb_lt _ _)) by (rewrite length_take; lia).
Qed.

Lemma get_seq_time_reads seq ts :
  in_i64 seq → reads get_seq_time (le_put 8 (u64 seq) ++ le_put 8 (u64 (i64 ts))) (seq, i64 ts).
Proof.
  intros Hs. unfold get_seq_time. split.
  - intros rest. rewrite !length_app, !length_le_put, (proj2 (Nat.ltb_ge _ _)) by lia. cbn [rbind].
    rewrite <- app_assoc. rewrite take_app_length' by (by rewrite length_le_put). rewrite drop_app_length' by (by rewrite length_le_put).
    rewrite take_app_length' by (by rewrite length_le_put).
    rewrite drop_app_ge, length_le_put by (rewrite length_le_put; lia). cbn [Nat.sub].
    rewrite drop_app_length' by (by rewrite length_le_put).
    rewrite !le_get_put. change (8 * Z.of_nat 8) with 64.
    rewrite !(Z.mod_small (u64 _)) by apply u64_range. by rewrite !i64_u64 by (done || apply i64_range).
  - intros k Hk. rewrite length_app, !length_le_put in Hk. exists SeqAndTimestamp.
    by rewrite (proj2 (Nat.ltb_lt _ _)) by (rewrite length_take, length_app, !length_le_put; lia).
Qed.

(** Reading a piece and going on with the rest. *)
Lemma reads_prefix {A B} (p : list byte → result (A * list byte) WireError) (f : A * list byte → result B WireError) x a rest k :
  reads p x a → (k < length (x ++ rest))%nat →
  (∀ j, (j < length rest)%nat → ∃ e, f (a, take j rest) = Err e) → ∃ e, rbind (p (take k (x ++ rest))) f = Err e.
Proof.
  intros [Hok Hshort] Hk Hf. rewrite length_app in Hk. destruct (decide (k < length x)%nat) as [Hlt|Hge].
  - destruct (Hshort k Hlt) as [e He]. exists e. rewrite take_app_le by lia. by rewrite He.
  - rewrite take_app_ge by lia. rewrite Hok. cbn [rbind]. apply Hf. lia.
Qed.

(** ** The trace context *)

Definition short_string (s : string) : Prop := Z.of_nat (length (bytes_of_string s)) < 2 ^ 16.

Lemma get_entries_ok order ctx rest :
  Forall (λ kv, short_string kv.1 ∧ short_string kv.2) order →
  get_entries (length order) ctx (concat (put_entry <$> order) ++ rest) =
  Ok (foldl (λ m kv, <[kv.1 := kv.2]> m) ctx order).
Proof.
  intros Hall. revert ctx. induction Hall as [|[k v] order [Hk Hv] _ IH]; intros ctx; [done|].
  cbn [length get_entries fmap list_fmap concat foldl]. unfold put_entry at 1. rewrite <- !app_assoc.
  destruct (get_field_reads 2 TraceKeyLength TraceKeyBounds (bytes_of_string k)) as [-> _]; [exact Hk|]. cbn [rbind].
  destruct (get_field_reads 2 TraceValLength TraceValBounds (bytes_of_string v)) as [-> _]; [exact Hv|]. cbn [rbind].
  cbn [fst snd]. rewrite !string_of_bytes_of_string. apply IH.
Qed.

Lemma get_entries_prefix order ctx k :
  Forall (λ kv, short_string kv.1 ∧ short_string kv.2) order → (k < length (concat (put_entry <$> order)))%nat →
  ∃ e, get_entries (length order) ctx (take k (concat (put_entry <$> order))) = Err e.
Proof.
  intros Hall. revert ctx k. induction Hall as [|[key v] order [Hk Hv] _ IH]; intros ctx k Hlt; [cbn in Hlt; lia|].
  cbn [length get_entries fmap list_fmap concat] in *. unfold put_entry in *. rewrite <- app_assoc in *.
  eapply reads_prefix; [by apply get_field_reads|done|]. intros j Hj.
  eapply reads_prefix; [by apply get_field_reads|done|]. intros i Hi. by apply IH.
Qed.

Lemma insert_all_perm (m : gmap string string) order :
  order ≡ₚ map_to_list m → foldl (λ m kv, <[kv.1 := kv.2]> m) ∅ order = m.
Proof.
  intros Hp. assert (Hnd : NoDup order.*1) by (rewrite Hp; apply NoDup_fst_map_to_list).
  assert (Hfold : ∀ l (acc : gmap string string), NoDup l.*1 → foldl (λ m kv, <[kv.1 := kv.2]> m) acc l = list_to_map l ∪ acc).
  { induction l as [|[k v] l IH]; intros acc Hl; cbn; [by rewrite map_empty_union|].
    apply NoDup_cons in Hl as [Hk Hl]. rewrite IH by done. rewrite <- insert_union_l. symmetry. apply insert_union_r.
    by apply not_elem_of_list_to_map_1. }
  rewrite Hfold, map_union_empty by done. rewrite <- (list_to_map_to_list m). by apply list_to_map_proper.
Qed.

(** ** The envelope *)

Record envelope_ok (e : wireEnvelope) : Prop := {
  eo_symbol : short_string (we_Symbol e);
  eo_type : short_string (we_Type e);
  eo_seq : in_i64 (we_Seq e);
  eo_json : Z.of_nat (length (we_JSON e)) < 2 ^ 32;
  eo_proto : Z.of_nat (length (we_Protobuf e)) < 2 ^ 32;
  eo_flat : Z.of_nat (length (we_FlatBuffers e)) < 2 ^ 32;
  eo_ctx : map_Forall (λ k v, short_string k ∧ short_string v) (we_TraceCtx e);
  eo_count : Z.of_nat (size (we_TraceCtx e)) < 2 ^ 16;
}.

Lemma order_ok e order :
  envelope_ok e → order ≡ₚ map_to_list (we_TraceCtx e) →
  Forall (λ kv : string * string, short_string kv.1 ∧ short_string kv.2) order ∧
  Z.of_nat (length order) < 2 ^ 16.
Proof.
  intros He Hp. split.
  - rewrite Hp. apply Forall_forall. intros [k v] Hin. apply elem_of_map_to_list in Hin.
    apply (eo_ctx _ He _ _ Hin).
  - rewrite Hp, length_map_to_list. apply (eo_count _ He).
Qed.

Lemma wire_envelope_decodes e order rest :
  envelope_ok e → order ≡ₚ map_to_list (we_TraceCtx e) →
  UnmarshalBinary (MarshalBinary e order ++ rest) =
  Ok (mkWireEnvelope (we_Symbol e) (we_Type e) (we_Seq e) (i64 (we_Timestamp e)) (we_JSON e) (we_Protobuf e)
        (we_FlatBuffers e) (we_TraceCtx e)).
Proof.
  intros He Hp. destruct (order_ok _ _ He Hp) as [Hall Hn]. unfold UnmarshalBinary, MarshalBinary. rewrite <- !app_assoc.
  destruct (get_field_reads 2 TooShort SymbolLength (bytes_of_string (we_Symbol e))) as [-> _]; [apply He|]. cbn [rbind].
  destruct (get_field_reads 2 TypeLengthHeader TypeLength (bytes_of_string (we_Type e))) as [-> _]; [apply He|]. cbn [rbind].
  rewrite (app_assoc (le_put 8 _)).
  destruct (get_seq_time_reads (we_Seq e) (we_Timestamp e) (eo_seq _ He)) as [-> _]. cbn [rbind].
  destruct (get_field_reads 4 JSONLengthHeader JSONLength (we_JSON e)) as [-> _]; [apply He|]. cbn [rbind].
  destruct (get_field_reads 4 ProtobufLengthHeader ProtobufLength (we_Protobuf e)) as [-> _]; [apply He|]. cbn [rbind].
  destruct (get_field_reads 4 FlatBuffersLengthHeader FlatBuffersLength (we_FlatBuffers e)) as [-> _]; [apply He|]. cbn [rbind].
  destruct (get_uint_reads 2 TraceCtxLength (Z.of_nat (length order))) as [-> _]; [lia|]. cbn [rbind].
  rewrite Nat2Z.id, get_entries_ok by done. cbn [rbind]. by rewrite !string_of_bytes_of_string, (insert_all_perm (we_TraceCtx e)).
Qed.

(** An envelope survives the wire, whatever follows it. Decoding what was encoded
    gives back the envelope, with the time as the 64 bits of nanoseconds carry it,
    in whatever order the encoder visited the trace context, when its strings are
    shorter than 65,536 bytes and its payloads shorter than 4 GiB. *)
Lemma wire_envelope_roundtrip e order rest :
  envelope_ok e → order ≡ₚ map_to_list (we_TraceCtx e) →
  UnmarshalBinary (MarshalBinary e order ++ rest) =
  Ok (mkWireEnvelope (we_Symbol e) (we_Type e) (we_Seq e) (i64 (we_Timestamp e)) (we_JSON e) (we_Protobuf e)
        (we_FlatBuffers e) (we_TraceCtx e)).
Proof. apply wire_envelope_decodes. Qed.

(** A truncated envelope is rejected. Every proper prefix of an encoded envelope
    is answered with an error, so a decoded envelope is never one that was cut off. *)
Lemma truncated_envelope_rejected e order k :
  envelope_ok e → order ≡ₚ map_to_list (we_TraceCtx e) → (k < length (MarshalBinary e order))%nat →
  ∃ err, UnmarshalBinary (take k (MarshalBinary e order)) = Err err.
Proof.
  intros He Hp. destruct (order_ok _ _ He Hp) as [Hall Hn]. unfold UnmarshalBinary, MarshalBinary. intros Hk.
  eapply reads_prefix; [apply get_field_reads, He|exact Hk|]. clear k Hk. intros k Hk.
  eapply reads_prefix; [apply get_field_reads, He|exact Hk|]. clear k Hk. intros k Hk.
  rewrite app_assoc in Hk |- *.
  eapply reads_prefix; [apply get_seq_time_reads, He|exact Hk|]. clear k Hk. intros k Hk.
  eapply reads_prefix; [apply get_field_reads, He|exact Hk|]. clear k Hk. intros k Hk.
  eapply reads_prefix; [apply get_field_reads, He|exact Hk|]. clear k Hk. intros k Hk.
  eapply reads_prefix; [apply get_field_reads, He|exact Hk|]. clear k Hk. intros k Hk.
  eapply reads_prefix; [apply get_uint_reads; lia|exact Hk|]. clear k Hk. intros k Hk.
  rewrite Nat2Z.id. destruct (get_entries_prefix order ∅ k Hall Hk) as [err ->]. by exists err.
Qed.

Definition sample_envelope : wireEnvelope :=
  mkWireEnvelope "AAPL" "quote" 7 1700000000000000000 (bytes_of_string "{}") [] [Byte.x2a]
    {[ "traceparent" := "00-1" ]}.

Lemma sample_envelope_ok : envelope_ok sample_envelope.
Proof.
  split; try (vm_compute; reflexivity).
  - cbn. unfold in_i64. lia.
  - intros k v. cbn. rewrite lookup_singleton_Some. intros [<- <-]. split; vm_compute; reflexivity.
Qed.

Lemma wire_envelope_roundtrip_witness :
  UnmarshalBinary (MarshalBinary sample_envelope [("traceparent", "00-1")] ++ [Byte.xff]) = Ok sample_envelope.
Proof.
  apply (wire_envelope_roundtrip sample_envelope [("traceparent", "00-1")] [Byte.xff]).
  - exact sample_envelope_ok.
  - reflexivity.
Defined.

Lemma truncated_envelope_rejected_witness :
  ∃ err, UnmarshalBinary (take 30 (MarshalBinary sample_envelope [("traceparent", "00-1")])) = Err err.
Proof.
  apply (truncated_envelope_rejected sample_envelope [("traceparent", "00-1")] 30).
  - exact sample_envelope_ok.
  - reflexivity.
  - vm_compute. lia.
Defined.

(** The zero time does not fit the 64 bits: it comes back as a time in 1754. *)
Lemma zero_time_changes_on_the_wire : i64 zero_time = -6795364578871345152 ∧ i64 zero_time ≠ zero_time.
Proof. split; [reflexivity|discriminate]. Qed.
