(* ===== verification/RedisBus.v ===== *)
(** * RedisBus: the events between gateways

    [internal/distribution/redisbus/publisher.go] and [subscriber.go]: the publisher
    encodes an event and queues it for its workers, which send batches to Redis; the
    subscriber decodes a message and hands the event to the local manager. The
    workers, the producers and [Close] interleave at the operations on the channel
    and at the calls of Redis. What Redis answers to a call is a choice of the step. *)

From Stdlib Require Import Strings.Byte.
From S2P Require Import Prelude Bytes MarketEvent Bus WireEnvelope.

Definition ChannelPrefix : string := "market:".

(** A serialised event and its channel. *)
Record marshaledEvent := mkMarshaled { me_channel : string; me_payload : list byte }.
#[global] Instance marshaledEvent_eq_dec : EqDecision marshaledEvent.
Proof. solve_decision. Defined.

(** ** From an event to its envelope and back *)

Section hop.
Context {E : Type} `{!MarketEventOps E}.
#[local] Abbreviation Event := (@MarketEvent E).
(** The optional methods of an event, and the trace context of the caller. *)
Context (GetSeq GetTimestamp : Event → option Z).

(** The envelope that [Publish] builds. *)
Definition publish_envelope (event : Event) (trace : gmap string string) : wireEnvelope :=
  let ce := NewCachedEvent event in
  mkWireEnvelope (event_symbol event) (event_type event) (default 0 (GetSeq event))
    (default zero_time (GetTimestamp event)) (ce_JSON ce) (ce_Protobuf ce) (ce_FlatBuffers ce) trace.

Definition publish_message (prefix : string) (event : Event) (trace : gmap string string)
    (order : list (string * string)) : marshaledEvent :=
  mkMarshaled (prefix +:+ event_symbol event) (MarshalBinary (publish_envelope event trace) order).

Definition ChannelForSymbol (prefix symbol : string) : string := prefix +:+ symbol.

(** The event that [handleMessage] hands to the local manager. *)
Definition handleMessage (payload : list byte) : option Event :=
  match UnmarshalBinary payload with
  | Err _ => None
  | Ok env =>
      Some (Base (PreEncoded (mkPreEncoded (we_Symbol env) (we_Type env) (we_Seq env) (we_Timestamp env)
                                (we_JSON env) (we_Protobuf env) (we_FlatBuffers env))))
  end.

(** An event crosses Redis unchanged. The gateway that receives the message
    publishes an event of the same symbol, type and sequence number, whose cached
    encodings are byte for byte those that the publisher computed, so that the
    clients of every gateway are sent the same bytes. *)
Lemma redis_hop_preserves_event prefix event trace order :
  envelope_ok (publish_envelope event trace) → order ≡ₚ map_to_list trace →
  ∃ pe, handleMessage (me_payload (publish_message prefix event trace order)) = Some (Base (PreEncoded pe)) ∧
    me_channel (publish_message prefix event trace order) = ChannelForSymbol prefix (pe_Symbol pe) ∧
    event_symbol (Base (PreEncoded pe) : Event) = event_symbol event ∧
    event_type (Base (PreEncoded pe) : Event) = event_type event ∧
    pe_SeqNum pe = default 0 (GetSeq event) ∧
    let ce := NewCachedEvent event in let ce' := NewCachedEvent (Base (PreEncoded pe) : Event) in
    ce_JSON ce' = ce_JSON ce ∧ ce_Protobuf ce' = ce_Protobuf ce ∧ ce_FlatBuffers ce' = ce_FlatBuffers ce.
Proof.
  intros Hok Hp. unfold handleMessage, publish_message. cbn [me_payload me_channel].
  rewrite <- (app_nil_r (MarshalBinary _ _)). rewrite wire_envelope_decodes by done. eexists. split; [reflexivity|]. done.
Qed.
End hop.

(** ** Staleness (subscriber.go) *)

Record StaleState := mkStale { st_lastMessageAt : Z; st_fired : bool; st_threshold : Z; st_hasCallback : bool }.

(** The boolean says whether the callback is called. *)
Definition checkStaleness (s : StaleState) (now : Z) : StaleState * bool :=
  if negb (st_hasCallback s) then (s, false)
  else if st_lastMessageAt s =? 0 then (s, false)
  else if st_threshold s <? time_sub now (st_lastMessageAt s) then
    (mkStale (st_lastMessageAt s) true (st_threshold s) (st_hasCallback s), negb (st_fired s))
  else (s, false).

Definition IsStale (s : StaleState) (now : Z) : bool :=
  negb (st_lastMessageAt s =? 0) && (st_threshold s <? time_sub now (st_lastMessageAt s)).

Definition record_message (s : StaleState) (now : Z) : StaleState :=
  mkStale now (st_fired s) (st_threshold s) (st_hasCallback s).

(** A later outage is not reported: once the callback was called it is not called
    again, although [IsStale] says that the data is stale. *)
Lemma second_outage_not_reported s t1 t2 t3 :
  st_hasCallback s = true → (checkStaleness s t1).2 = true →
  (checkStaleness (record_message (checkStaleness s t1).1 t2) t3).2 = false.
Proof.
  intros Hc H. assert (Hf : st_fired (checkStaleness s t1).1 = true).
  { unfold checkStaleness in *. rewrite Hc in *. cbn [negb] in *. repeat case_if; done. }
  unfold checkStaleness at 1. cbn [record_message st_fired st_hasCallback]. rewrite Hf. by repeat case_if.
Qed.

(** ** The publisher's queue and workers (publisher.go) *)

Definition batch_limit : nat := 128.

Inductive rworker := WWait | WDrain (batch : list marshaledEvent) | WExit.

(** [rp_accepted], [rp_flushed] and [rp_refused] record what happened. *)
Record RedisPublisher := mkRedisPublisher {
  rp_queue : list marshaledEvent;
  rp_capacity : nat;
  rp_queueClosed : bool;
  rp_closed : bool;
  rp_dropped : Z;
  rp_workers : list rworker;
  rp_redis : list marshaledEvent;
  rp_accepted : list marshaledEvent;
  rp_flushed : list marshaledEvent;
  rp_refused : nat;
}.

Definition NewRedisPublisher (workers capacity : nat) : RedisPublisher :=
  mkRedisPublisher [] capacity false false 0 (replicate workers WWait) [] [] [] 0.

Definition set_worker (p : RedisPublisher) (i : nat) (w : rworker) (queue : list marshaledEvent) : RedisPublisher :=
  mkRedisPublisher queue (rp_capacity p) (rp_queueClosed p) (rp_closed p) (rp_dropped p)
    (<[i := w]> (rp_workers p)) (rp_redis p) (rp_accepted p) (rp_flushed p) (rp_refused p).

(** The non-blocking send of [Publish]; [None] is the send on a closed channel. *)
Definition rp_send (p : RedisPublisher) (r : marshaledEvent) : option RedisPublisher :=
  if rp_queueClosed p then None
  else if (length (rp_queue p) <? rp_capacity p)%nat
  then Some (mkRedisPublisher (rp_queue p ++ [r]) (rp_capacity p) false (rp_closed p) (rp_dropped p)
               (rp_workers p) (rp_redis p) (rp_accepted p ++ [r]) (rp_flushed p) (rp_refused p))
  else Some (mkRedisPublisher (rp_queue p) (rp_capacity p) false (rp_closed p) (u64 (rp_dropped p + 1))
               (rp_workers p) (rp_redis p) (rp_accepted p) (rp_flushed p) (S (rp_refused p))).

(** The call of Redis for a batch, [doPublish] or [doPublishBatch]: [sent] is what
    reached Redis; an error counts the whole batch as dropped. *)
Definition rp_flush (p : RedisPublisher) (i : nat) (batch sent : list marshaledEvent) (ok : bool) : RedisPublisher :=
  mkRedisPublisher (rp_queue p) (rp_capacity p) (rp_queueClosed p) (rp_closed p)
    (if ok then rp_dropped p else u64 (rp_dropped p + Z.of_nat (length batch)))
    (<[i := WWait]> (rp_workers p)) (rp_redis p ++ sent) (rp_accepted p) (rp_flushed p ++ batch) (rp_refused p).

Inductive rp_step : RedisPublisher → RedisPublisher → Prop :=
| rp_accept p r p' : rp_send p r = Some p' → rp_step p p'
| rp_take p i r queue : rp_workers p !! i = Some WWait → rp_queue p = r :: queue →
    rp_step p (set_worker p i (WDrain [r]) queue)
| rp_more p i batch r queue : rp_workers p !! i = Some (WDrain batch) → (length batch < batch_limit)%nat →
    rp_queue p = r :: queue → rp_step p (set_worker p i (WDrain (batch ++ [r])) queue)
| rp_exec p i batch sent (ok : bool) : rp_workers p !! i = Some (WDrain batch) →
    (length batch = batch_limit ∨ rp_queue p = []) →
    (if ok then sent = batch else sent `sublist_of` batch) → rp_step p (rp_flush p i batch sent ok)
| rp_exit p i : rp_workers p !! i = Some WWait → rp_queue p = [] → rp_queueClosed p = true →
    rp_step p (set_worker p i WExit [])
| rp_setClosed p : rp_closed p = false →
    rp_step p (mkRedisPublisher (rp_queue p) (rp_capacity p) (rp_queueClosed p) true (rp_dropped p) (rp_workers p)
                 (rp_redis p) (rp_accepted p) (rp_flushed p) (rp_refused p))
| rp_closeQueue p : rp_closed p = true → rp_queueClosed p = false →
    rp_step p (mkRedisPublisher (rp_queue p) (rp_capacity p) true true (rp_dropped p) (rp_workers p)
                 (rp_redis p) (rp_accepted p) (rp_flushed p) (rp_refused p)).

Lemma u64_idemp_l a b : u64 (u64 a + b) = u64 (a + b).
Proof. unfold u64. by rewrite Z.add_mod_idemp_l. Qed.

Definition batch_of (w : rworker) : list marshaledEvent := match w with WDrain b => b | _ => [] end.

Record rp_inv (p : RedisPublisher) : Prop := {
  ri_all : rp_accepted p ≡ₚ rp_flushed p ++ concat (batch_of <$> rp_workers p) ++ rp_queue p;
  ri_redis : rp_redis p ⊆+ rp_flushed p;
  ri_dropped : ∃ lost, rp_dropped p = u64 lost ∧
    Z.of_nat (rp_refused p) + (Z.of_nat (length (rp_flushed p)) - Z.of_nat (length (rp_redis p))) ≤ lost ≤
    Z.of_nat (rp_refused p) + Z.of_nat (length (rp_flushed p));
  ri_exit : WExit ∈ rp_workers p → rp_queue p = [] ∧ rp_queueClosed p = true;
}.

Lemma batches_insert (ws : list rworker) i w w' :
  ws !! i = Some w →
  concat (batch_of <$> <[i := w']> ws) ++ batch_of w ≡ₚ concat (batch_of <$> ws) ++ batch_of w'.
Proof.
  revert i. induction ws as [|v ws IH]; intros [|i] Hi; [done|done| |].
  - injection Hi as ->. cbn [insert list_insert fmap list_fmap concat].
    rewrite (Permutation_app_comm _ (batch_of w)), (Permutation_app_comm (batch_of w')), app_assoc. done.
  - cbn. rewrite <- !app_assoc. f_equiv. by apply IH.
Qed.

Lemma batches_same ws i w w' :
  ws !! i = Some w → batch_of w' = batch_of w →
  concat (batch_of <$> <[i := w']> ws) = concat (batch_of <$> ws).
Proof.
  revert i. induction ws as [|v ws IH]; intros [|i] Hi Hb; [done|done| |].
  - injection Hi as ->. cbn. by rewrite Hb.
  - cbn. f_equal. by apply (IH i).
Qed.

Lemma exit_insert (ws : list rworker) i w : WExit ∈ <[i := w]> ws → w ≠ WExit → WExit ∈ ws.
Proof.
  intros Hin Hw. apply list_elem_of_lookup in Hin as [j Hj]. destruct (decide (i = j)) as [->|Hne].
  - destruct (decide (j < length ws)%nat).
    + rewrite list_lookup_insert_eq in Hj by done. congruence.
    + rewrite list_insert_ge in Hj by lia. by apply list_elem_of_lookup_2 in Hj.
  - rewrite list_lookup_insert_ne in Hj by done. by apply list_elem_of_lookup_2 in Hj.
Qed.

Lemma rp_inv_new workers capacity : rp_inv (NewRedisPublisher workers capacity).
Proof.
  split; cbn; [|done|exists 0; split; [done|lia]|].
  - induction workers; cbn; [done|exact IHworkers].
  - intros Hin. by apply elem_of_replicate in Hin as [? _].
Qed.

Lemma rp_inv_step p p' : rp_inv p → rp_step p p' → rp_inv p'.
Proof.
  intros [Hall Hred (lost & Hd & Hl) Hex] Hstep. destruct Hstep as
    [p r p' Hsend|p i r queue Hi Hq|p i batch r queue Hi Hb Hq|p i batch sent ok Hi Hb Hs|p i Hi Hq Hc|p Hc|p Hc Hqc].
  - unfold rp_send in Hsend. destruct (rp_queueClosed p) eqn:Hqc; [done|].
    destruct (_ <? _)%nat; injection Hsend as <-; split; cbn; try done;
      try (intros Hin; destruct (Hex Hin); congruence).
    + rewrite Hall, <- !app_assoc. done.
    + by exists lost.
    + exists (lost + 1). rewrite Hd, u64_idemp_l. split; [done|lia].
  - split; cbn; [|done|by exists lost|].
    + rewrite Hall, Hq. f_equiv. pose proof (batches_insert (rp_workers p) i WWait (WDrain [r]) Hi) as Hins.
      cbn in Hins. rewrite app_nil_r in Hins. rewrite Hins, <- app_assoc. done.
    + intros Hin. apply exit_insert in Hin; [|done]. destruct (Hex Hin). congruence.
  - split; cbn; [|done|by exists lost|].
    + rewrite Hall, Hq. f_equiv.
      pose proof (batches_insert (rp_workers p) i (WDrain batch) (WDrain (batch ++ [r])) Hi) as Hins. cbn in Hins.
      assert (HB : concat (batch_of <$> <[i := WDrain (batch ++ [r])]> (rp_workers p)) ≡ₚ
                   concat (batch_of <$> rp_workers p) ++ [r]).
      { apply (Permutation_app_inv_r batch). rewrite Hins, <- app_assoc. f_equiv. apply Permutation_app_comm. }
      rewrite HB, <- app_assoc. done.
    + intros Hin. apply exit_insert in Hin; [|done]. destruct (Hex Hin). congruence.
  - assert (Hsub : sent ⊆+ batch) by (destruct ok; [by subst|by apply sublist_submseteq]).
    split; cbn.
    + rewrite Hall. pose proof (batches_insert (rp_workers p) i (WDrain batch) WWait Hi) as Hins. cbn in Hins.
      rewrite app_nil_r in Hins. rewrite <- Hins, <- !app_assoc. f_equiv.
      rewrite !app_assoc. f_equiv. apply Permutation_app_comm.
    + by apply submseteq_app.
    + rewrite !length_app. apply submseteq_length in Hsub. destruct ok.
      * exists lost. subst sent. split; [done|lia].
      * exists (lost + Z.of_nat (length batch)). rewrite Hd, u64_idemp_l. split; [done|lia].
    + intros Hin. apply exit_insert in Hin; [|done]. by apply Hex.
  - split; cbn; [|done|by exists lost|by rewrite Hq in *].
    rewrite Hall, Hq. by rewrite (batches_same _ i WWait WExit).
  - split; cbn; try done. by exists lost.
  - split; cbn; try done; [by exists lost|]. intros Hin. destruct (Hex Hin). congruence.
Qed.

Lemma rp_inv_reachable workers capacity p :
  rtc rp_step (NewRedisPublisher workers capacity) p → rp_inv p.
Proof.
  intros Hr. pose proof (rp_inv_new workers capacity) as H0. induction Hr as [|p1 p2 p3 Hs _ IH]; [done|].
  apply IH. by apply (rp_inv_step p1).
Qed.

Lemma rp_workers_length p p' : rp_step p p' → length (rp_workers p') = length (rp_workers p).
Proof.
  destruct 1 as [p r p' Hsend| | | | | |]; cbn; rewrite ?length_insert; try done.
  unfold rp_send in Hsend. destruct (rp_queueClosed p); [done|]. by destruct (_ <? _)%nat; injection Hsend as <-.
Qed.

(** Nothing that the publisher accepted is lost unaccounted. In every interleaving
    of producers, workers and [Close], each accepted event is in the queue, in a
    worker's batch or was handed to Redis; what reached Redis was accepted; the 64-bit
    drop counter covers every refused event and every event of a failed call; and when all
    workers have exited, every accepted event was handed to Redis. *)
Lemma redis_publisher_conserves workers capacity p :
  rtc rp_step (NewRedisPublisher workers capacity) p →
  rp_accepted p ≡ₚ rp_flushed p ++ concat (batch_of <$> rp_workers p) ++ rp_queue p ∧
  rp_redis p ⊆+ rp_accepted p ∧
  (Z.of_nat (rp_refused p) + Z.of_nat (length (rp_flushed p)) < 2 ^ 64 →
   Z.of_nat (rp_refused p) + (Z.of_nat (length (rp_flushed p)) - Z.of_nat (length (rp_redis p))) ≤ rp_dropped p) ∧
  ((0 < workers)%nat → Forall (eq WExit) (rp_workers p) → rp_accepted p ≡ₚ rp_flushed p).
Proof.
  intros Hr. destruct (rp_inv_reachable _ _ _ Hr) as [Hall Hred (lost & Hd & Hl) Hex]. split_and!; [done| | |].
  - etransitivity; [exact Hred|]. rewrite Hall. by apply submseteq_inserts_r.
  - intros Hb. apply submseteq_length in Hred. rewrite Hd, u64_small by (unfold in_u64; lia). lia.
  - intros Hw Hexit.
    assert (Hlen : length (rp_workers p) = workers).
    { clear -Hr. remember (NewRedisPublisher workers capacity) as p0 eqn:E.
      assert (H0 : length (rp_workers p0) = workers) by (subst; apply length_replicate). clear E.
      induction Hr as [|p1 p2 p3 Hs _ IH]; [done|]. apply IH. by rewrite (rp_workers_length _ _ Hs). }
    assert (Hin : WExit ∈ rp_workers p).
    { destruct (rp_workers p) as [|w ws]; [cbn in Hlen; lia|]. inversion Hexit; subst. by left. }
    destruct (Hex Hin) as [Hq _]. rewrite Hall, Hq, app_nil_r.
    assert (concat (batch_of <$> rp_workers p) = []) as ->; [|by rewrite app_nil_r].
    clear -Hexit. induction Hexit as [|w ws <- _ IH]; [done|exact IH].
Qed.

(** With one worker the order is kept as well. *)
Lemma redis_single_worker_fifo capacity p :
  rtc rp_step (NewRedisPublisher 1 capacity) p →
  ∃ w, rp_workers p = [w] ∧ rp_accepted p = rp_flushed p ++ batch_of w ++ rp_queue p.
Proof.
  intros Hr. remember (NewRedisPublisher 1 capacity) as p0 eqn:E.
  assert (H0 : ∃ w, rp_workers p0 = [w] ∧ rp_accepted p0 = rp_flushed p0 ++ batch_of w ++ rp_queue p0)
    by (subst; by exists WWait). clear E.
  induction Hr as [|p1 p2 p3 Hs _ IH]; [done|]. apply IH. clear IH. destruct H0 as (w & Hw & Hacc).
  destruct Hs as
    [p r p' Hsend|p i r queue Hi Hq|p i batch r queue Hi Hb Hq|p i batch sent ok Hi Hb Hsent|p i Hi Hq Hc|p Hc|p Hc Hqc];
    cbn in *; rewrite ?Hw in *.
  - unfold rp_send in Hsend. destruct (rp_queueClosed p); [done|].
    destruct (_ <? _)%nat; injection Hsend as <-; cbn; exists w; (split; [done|]); rewrite ?Hacc, <- ?app_assoc; done.
  - destruct i; [|done]. injection Hi as ->. eexists. split; [reflexivity|]. by rewrite Hacc, Hq.
  - destruct i; [|done]. injection Hi as ->. eexists. split; [reflexivity|]. rewrite Hacc, Hq. cbn. by rewrite <- app_assoc.
  - destruct i; [|done]. injection Hi as ->. eexists. split; [reflexivity|]. rewrite Hacc. cbn. by rewrite <- app_assoc.
  - destruct i; [|done]. injection Hi as ->. eexists. split; [reflexivity|]. by rewrite Hacc, Hq.
  - by exists w.
  - by exists w.
Qed.

(** Two workers can reorder the events of a symbol. The workers take events from
    one queue and call Redis independently: the second event of a symbol can reach
    Redis, and with it every gateway, before the first. *)
Lemma redis_workers_reorder r1 r2 capacity :
  (2 ≤ capacity)%nat →
  ∃ p, rtc rp_step (NewRedisPublisher 2 capacity) p ∧ rp_accepted p = [r1; r2] ∧ rp_redis p = [r2; r1].
Proof.
  intros Hc. destruct capacity as [|[|capacity]]; [lia|lia|]. eexists. split.
  - eapply rtc_l; [apply (rp_accept _ r1); reflexivity|]. cbn.
    eapply rtc_l; [eapply (rp_take _ 0); reflexivity|]. cbn.
    eapply rtc_l; [apply (rp_accept _ r2); reflexivity|]. cbn.
    eapply rtc_l; [eapply (rp_take _ 1); reflexivity|]. cbn.
    eapply rtc_l; [eapply (rp_exec _ 1 [r2] [r2] true); [reflexivity|right; reflexivity|reflexivity]|]. cbn.
    eapply rtc_l; [eapply (rp_exec _ 0 [r1] [r1] true); [reflexivity|right; reflexivity|reflexivity]|]. cbn.
    apply rtc_refl.
  - done.
Qed.

Definition msg_a : marshaledEvent := mkMarshaled "market:AAPL" [Byte.x01].
Definition msg_b : marshaledEvent := mkMarshaled "market:AAPL" [Byte.x02].

Lemma redis_workers_reorder_witness :
  ∃ p, rtc rp_step (NewRedisPublisher 2 64) p ∧ rp_accepted p = [msg_a; msg_b] ∧ rp_redis p = [msg_b; msg_a].
Proof. apply (redis_workers_reorder msg_a msg_b 64). lia. Defined.

Lemma redis_publisher_conserves_witness :
  let p := set_worker (mkRedisPublisher [msg_a] 8 false false 0 [WWait] [] [msg_a] [] 0) 0 (WDrain [msg_a]) [] in
  rp_redis p ⊆+ rp_accepted p.
Proof.
  intros p. destruct (redis_publisher_conserves 1 8 p) as (_ & H & _).
  - eapply rtc_l; [apply (rp_accept _ msg_a); reflexivity|]. cbn.
    eapply rtc_l; [eapply (rp_take _ 0); reflexivity|]. apply rtc_refl.
  - exact H.
Defined.

(** A producer that read [closed] as false before [Close] sends on the closed queue. *)
Lemma publish_races_close workers capacity r :
  ∃ p, rtc rp_step (NewRedisPublisher workers capacity) p ∧ rp_closed (NewRedisPublisher workers capacity) = false ∧
    rp_send p r = None.
Proof.
  eexists. split; [|split; [done|]].
  - eapply rtc_l; [apply rp_setClosed; reflexivity|]. eapply rtc_l; [apply rp_closeQueue; reflexivity|]. apply rtc_refl.
  - done.
Qed.

(** A quote that is its symbol. *)
#[local] Instance wire_event : MarketEventOps string := {
  EventSymbol := λ s, s;
  EventType := λ _, "quote";
  json_Encode := λ s, Some (bytes_of_string s);
  ProtobufEncoder := None;
  FlatBuffersEncoder := None;
}.
Definition wire_quote : @MarketEvent string := Base (Concrete "AAPL").

Lemma redis_hop_preserves_event_witness :
  ∃ pe, handleMessage (E := string) (me_payload (publish_message (λ _, Some 7) (λ _, Some 9) ChannelPrefix wire_quote ∅ [])) =
      Some (Base (PreEncoded pe)) ∧ pe_Symbol pe = "AAPL" ∧ pe_SeqNum pe = 7.
Proof.
  destruct (redis_hop_preserves_event (λ _, Some 7) (λ _, Some 9) ChannelPrefix wire_quote ∅ [])
    as (pe & H1 & _ & H2 & _ & H3 & _).
  - split; try (vm_compute; reflexivity).
    + cbn. unfold in_i64. lia.
    + apply map_Forall_empty.
  - reflexivity.
  - exists pe. split; [exact H1|]. split; [exact H2|exact H3].
Defined.
