(* ===== verification/Pipeline.v ===== *)
(** * Pipeline: from the feed to the publishers

    [internal/feed/pipeline.go] and the quote of [pkg/marketdata/types.go]: the loop
    that numbers every quote of the feed and publishes it, over any generator of
    numbers and any publisher. The composition with the in-memory sequencer and the
    logging publisher, as [internal/app] builds it, shows what the log's sequence
    numbers are. *)

From Stdlib Require Import Strings.Byte.
From S2P Require Import Prelude Bytes WalCodec WalIndex WalSegment WalLog WalManager Sequencer Float64 MarketEvent Bus.

(** The exchange-specific extensions of a quote are left out: no code here reads them. *)
Record Quote := mkQuote {
  q_Symbol : string;
  q_Type : string;
  q_Seq : Z;
  q_Price : float64;
  q_Bid : float64;
  q_Ask : float64;
  q_Volume : Z;
  q_Timestamp : Z;
  q_Provider : string;
}.

Definition number_quote (q : Quote) (seq : Z) : Quote :=
  mkQuote (q_Symbol q) (q_Type q) seq (q_Price q) (q_Bid q) (q_Ask q) (q_Volume q) (q_Timestamp q) (q_Provider q).

(** [sequencer.Generator]. *)
Class Generator (G : Type) := gen_Next : G → string → G * Z.

Inductive feed_event := FeedQuote (q : Quote) | FeedClosed | FeedDone.

Section pipeline.
Context {G P : Type} `{!Generator G, !Publisher P Quote}.

Record Pipeline := mkPipeline { pl_seq : G; pl_publisher : P; pl_marks : nat }.

(** One turn: number, publish, mark the heartbeat. *)
Definition pipeline_turn (p : Pipeline) (q : Quote) : outcome Pipeline :=
  let '(seq, n) := gen_Next (pl_seq p) (q_Symbol q) in
  match pb_Publish (pl_publisher p) (number_quote q n) with
  | Panic => Panic
  | Ret publisher => Ret (mkPipeline seq publisher (S (pl_marks p)))
  end.

(** The loop, over what the select receives. *)
Fixpoint pipeline_loop (p : Pipeline) (evs : list feed_event) : outcome Pipeline :=
  match evs with
  | [] | FeedClosed :: _ | FeedDone :: _ => Ret p
  | FeedQuote q :: evs => match pipeline_turn p q with Panic => Panic | Ret p => pipeline_loop p evs end
  end.

(** [Run]; [started] says whether the feed could be started. *)
Definition Pipeline_Run (p : Pipeline) (started : bool) (evs : list feed_event) : result (outcome Pipeline) unit :=
  if started then Ok (pipeline_loop p evs) else Err tt.

(** The quotes that the loop reads, and the numbers it gives them. *)
Fixpoint feed_quotes (evs : list feed_event) : list Quote :=
  match evs with FeedQuote q :: evs => q :: feed_quotes evs | _ => [] end.

Fixpoint number_all (g : G) (qs : list Quote) : G * list Quote :=
  match qs with
  | [] => (g, [])
  | q :: qs => let '(g, n) := gen_Next g (q_Symbol q) in let '(g, out) := number_all g qs in (g, number_quote q n :: out)
  end.

(** The publisher gets every quote of the feed, in order, changed only in its
    number, which is the next of its symbol. *)
Lemma pipeline_publishes p evs :
  pipeline_loop p evs =
  let '(g, out) := number_all (pl_seq p) (feed_quotes evs) in
  match publish_all (pl_publisher p) out with
  | Panic => Panic
  | Ret publisher => Ret (mkPipeline g publisher (pl_marks p + length out))
  end.
Proof.
  revert p. induction evs as [|[q| |] evs IH]; intros p; cbn [pipeline_loop feed_quotes number_all].
  1,3,4: destruct p; cbn; by rewrite Nat.add_0_r.
  unfold pipeline_turn. destruct (gen_Next (pl_seq p) (q_Symbol q)) as [g n].
  destruct (number_all g (feed_quotes evs)) as [g' out] eqn:Hn. cbn [publish_all].
  destruct (pb_Publish (pl_publisher p) (number_quote q n)) as [publisher|]; [|done].
  rewrite IH. cbn [pl_seq pl_publisher pl_marks]. rewrite Hn. destruct (publish_all publisher out); [|done].
  cbn. by rewrite <- Nat.add_succ_r.
Qed.
End pipeline.
Arguments Pipeline : clear implicits.

(** ** The composition of the application *)

(** The in-memory sequencer, with the clock standing still. *)
#[global] Instance Sequencer_Generator : Generator Sequencer := λ s symbol, Sequencer_Next s symbol 0 0.

Definition quote_bus : Publisher (MemoryBus Quote) Quote := MemoryBus_Publisher q_Symbol.
Definition quote_payload (q : Quote) : option (list byte) := Some (bytes_of_string (q_Symbol q)).
Definition quote_log : Publisher (WalPublisher (P := MemoryBus Quote)) Quote :=
  @WalPublisher_Publisher Quote (MemoryBus Quote) quote_bus q_Symbol q_Type (λ q, Some (q_Seq q))
    (λ q, Some (q_Timestamp q)) quote_payload.

Definition trade (symbol : string) : Quote := mkQuote symbol "trade" 0 f64_one f64_zero f64_zero 1 0 "sim".

(** Two trades of AAPL, then one of MSFT. *)
Definition mixed_feed : list feed_event := [FeedQuote (trade "AAPL"); FeedQuote (trade "AAPL"); FeedQuote (trade "MSFT")].
Definition app_pipeline : Pipeline Sequencer (WalPublisher (P := MemoryBus Quote)) :=
  mkPipeline (Sequencer_New [] 0) (mkWalPublisher (NewSegmentManager DefaultConfig []) NewMemoryBus) 0.

(** The topics and numbers that a reader from [start] returns from the synced log. *)
Definition log_from (m : SegmentManager) (start : Z) : list (string * Z) :=
  match SegmentManager_NewReader m start with
  | Ok r => (λ msg, (Topic msg, Sequence msg)) <$> MSR_drain 10 m r
  | Err _ => []
  end.

(** The log is numbered by symbol, so a reader can miss records. The pipeline
    gives each symbol its own numbers and the logging publisher stores them as the
    sequence of the log: after two trades of AAPL and one of MSFT the log holds the
    numbers 1, 2, 1, and a reader that resumes after 1, as a recovery from a
    checkpoint at the first trade does, skips the trade of MSFT that was logged
    after it. *)
Lemma per_symbol_numbers_hide_records :
  ∃ p m, @pipeline_loop Sequencer _ Sequencer_Generator quote_log app_pipeline mixed_feed = Ret p ∧
    SegmentManager_Sync (wp_walLog (pl_publisher p)) = Ret m ∧
    log_from m 0 = [("AAPL", 1); ("AAPL", 2); ("MSFT", 1)] ∧ log_from m 2 = [("AAPL", 2)].
Proof. eexists _, _. split; [vm_compute; reflexivity|]. split; [vm_compute; reflexivity|]. vm_compute. done. Qed.
