(* ===== verification/WsPump.v ===== *)
(** * WsPump: what a client is sent

    The write pump of [internal/websocket/client.go]: the one goroutine that writes
    to the socket, with the buffer of live events during a reconnect, the replay of
    the logged messages that the client missed, and the formats of
    [pkg/protocol]. The pump is a function of what its select receives. A socket is
    the list of frames it took and the number of writes that will still succeed.
    The sequence validator of the client feeds metrics only and is left out. *)

From Stdlib Require Import Strings.Byte.
From S2P Require Import Prelude Bytes WalCodec MarketEvent.

(** ** Formats (pkg/protocol) *)

Inductive Format := FormatJSON | FormatProtobuf | FormatFlatBuffers.
#[global] Instance Format_eq_dec : EqDecision Format.
Proof. solve_decision. Defined.

Definition SubprotocolJSON : string := "v1.json.rtmds".
Definition SubprotocolProtobuf : string := "v1.protobuf.rtmds".
Definition SubprotocolFlatBuffers : string := "v1.flatbuffers.rtmds".

(** The map [supported] of [NewNegotiator]. *)
Definition supported (p : string) : option Format :=
  if bool_decide (p = SubprotocolJSON) then Some FormatJSON
  else if bool_decide (p = SubprotocolProtobuf) then Some FormatProtobuf
  else if bool_decide (p = SubprotocolFlatBuffers) then Some FormatFlatBuffers
  else None.

Fixpoint select_loop (clientProtocols : list string) : option (Format * string) :=
  match clientProtocols with
  | [] => None
  | p :: ps =>
      let p := TrimSpace p in
      match supported p with Some f => Some (f, p) | None => select_loop ps end
  end.

Definition SelectProtocol (clientProtocols : list string) : option (Format * string) :=
  match clientProtocols with
  | [] => Some (FormatJSON, SubprotocolJSON)
  | _ => select_loop clientProtocols
  end.

Definition FormatToSubprotocol (f : Format) : string :=
  match f with
  | FormatJSON => SubprotocolJSON
  | FormatProtobuf => SubprotocolProtobuf
  | FormatFlatBuffers => SubprotocolFlatBuffers
  end.

(** The format of a subprotocol is the one that its name stands for, and a client
    that offers the name, however padded by the header, gets it. *)
Lemma subprotocol_roundtrip f p :
  supported p = Some f ↔ p = FormatToSubprotocol f.
Proof.
  unfold supported. split.
  - repeat case_bool_decide; intros [= <-]; done.
  - intros ->. by destruct f.
Qed.

(** ** Messages (messages.go) *)

Section pump.
Context {E : Type} `{!MarketEventOps E}.
#[local] Abbreviation Cached := (@CachedEvent E).

Inductive payload :=
| PNone
| PText (s : string)
| PSymbols (symbols : list string)
| PRedirect (symbol url : string)
| PEvent (ev : @BaseEvent E)
| PReplay (session : nat) (symbol : string)
| PPing (timestamp : Z).

Record ServerMessage := mkServerMessage { sm_Type : string; sm_Payload : payload }.

(** A frame is a message that the socket's encoder writes, or bytes encoded before. *)
Inductive frame := FMessage (m : ServerMessage) | FBytes (b : list byte).

Record Socket := mkSocket { so_out : list frame; so_room : option nat }.

Definition so_write (s : Socket) (f : frame) : Socket * bool :=
  match so_room s with
  | Some O => (s, false)
  | Some (S n) => (mkSocket (so_out s ++ [f]) (Some n), true)
  | None => (mkSocket (so_out s ++ [f]) None, true)
  end.

Definition writeJSON (s : Socket) (m : ServerMessage) : Socket * bool := so_write s (FMessage m).
Definition writeRaw (s : Socket) (b : list byte) : Socket * bool := so_write s (FBytes b).

(** ** Events *)

(** The optional method of a concrete event, the serializer of the negotiated format
    and [json.Marshal] of a raw payload in its envelope. *)
Context (GetSeq : @BaseEvent E → option Z).
Context (Serialize : Format → @BaseEvent E → option (list byte)).
Context (marshal_raw : string → list byte → list byte).

Definition cached_bytes (fmt : Format) (ce : Cached) : list byte :=
  match fmt with
  | FormatJSON => ce_JSON ce | FormatProtobuf => ce_Protobuf ce | FormatFlatBuffers => ce_FlatBuffers ce
  end.

(** Whether the field is not nil: the encoders of a concrete event leave nil or some
    bytes, while the decoder of a wire envelope makes every field. *)
Definition has_bytes (fmt : Format) (ce : Cached) : bool :=
  match ce_Event ce with
  | PreEncoded _ => true
  | Concrete _ => negb (bool_decide (cached_bytes fmt ce = []))
  end.

(** What [writeProtocolEvent] writes; [None] when the serializer fails. *)
Definition event_bytes (fmt : Format) (ce : Cached) : option (list byte) :=
  if has_bytes fmt ce then Some (cached_bytes fmt ce) else Serialize fmt (ce_Event ce).

Definition writeProtocolEvent (fmt : Format) (s : Socket) (ce : Cached) : Socket * bool :=
  match event_bytes fmt ce with
  | Some b => so_write s (FBytes b)
  | None => (s, false)
  end.

(** ** Reconnecting *)

(** The frame of a logged message: JSON clients get it in an envelope. *)
Definition history_bytes (fmt : Format) (msg : Message) : list byte :=
  match fmt with
  | FormatJSON => marshal_raw (if bool_decide (Type_ msg = "") then "quote" else Type_ msg) (Payload msg)
  | _ => Payload msg
  end.

(** The messages of the log; [None] in the second place is a failed write. *)
Fixpoint write_history (fmt : Format) (expected : gmap string Z) (msgs : list Message) (s : Socket)
    : Socket * option (gmap string Z) :=
  match msgs with
  | [] => (s, Some expected)
  | msg :: msgs =>
      match expected !! Topic msg with
      | None => write_history fmt expected msgs s
      | Some expectedSeq =>
          if expectedSeq <=? Sequence msg then
            let '(s, ok) := writeRaw s (history_bytes fmt msg) in
            if ok then write_history fmt (<[Topic msg := u64 (Sequence msg + 1)]> expected) msgs s else (s, None)
          else write_history fmt expected msgs s
      end
  end.

(** The live events that were buffered meanwhile. *)
Fixpoint write_live (fmt : Format) (expected : gmap string Z) (buffer : list Cached) (s : Socket)
    : Socket * option (gmap string Z) :=
  match buffer with
  | [] => (s, Some expected)
  | ce :: buffer =>
      let symbol := base_symbol (ce_Event ce) in
      match GetSeq (ce_Event ce) with
      | Some n =>
          let seq := u64 n in
          if default 0 (expected !! symbol) <=? seq then
            let '(s, ok) := writeProtocolEvent fmt s ce in
            if ok then write_live fmt (<[symbol := u64 (seq + 1)]> expected) buffer s else (s, None)
          else write_live fmt expected buffer s
      | None =>
          let '(s, ok) := writeProtocolEvent fmt s ce in
          if ok then write_live fmt expected buffer s else (s, None)
      end
  end.

(** After a failed replay the buffer is flushed as JSON, and errors are ignored. *)
Definition flush_raw (buffer : list Cached) (s : Socket) : Socket :=
  foldl (λ s ce, (writeRaw s (ce_JSON ce)).1) s buffer.

(** ** The pump *)

Record Pump := mkPump {
  pm_format : Format;
  pm_sock : Socket;
  pm_buffer : list Cached;
  pm_isReconnecting : bool;
  pm_exited : bool;
}.

Definition set_sock (p : Pump) (s : Socket) : Pump :=
  mkPump (pm_format p) s (pm_buffer p) (pm_isReconnecting p) (pm_exited p).
Definition pump_exit (p : Pump) (s : Socket) : Pump :=
  mkPump (pm_format p) s (pm_buffer p) (pm_isReconnecting p) true.

Definition bufferLimit : Z := 4096.

(** [res := <-c.reconnectCh]; [expected] is [res.resumeSeq]. *)
Definition pump_reconnect (p : Pump) (res : result (list Message) string) (expected : gmap string Z) : Pump :=
  let done s := mkPump (pm_format p) s [] false (pm_exited p) in
  match res with
  | Err e =>
      let '(s, ok) := writeJSON (pm_sock p) (mkServerMessage "error" (PText e)) in
      if ok then done (flush_raw (pm_buffer p) s) else pump_exit p s
  | Ok msgs =>
      let '(s, ok) := writeJSON (pm_sock p) (mkServerMessage "reconnected" (PText "success")) in
      if ok then
        match write_history (pm_format p) expected msgs s with
        | (s, None) => pump_exit p s
        | (s, Some expected) =>
            match write_live (pm_format p) expected (pm_buffer p) s with
            | (s, None) => pump_exit p s
            | (s, Some _) => done s
            end
        end
      else pump_exit p s
  end.

(** [cached, ok := <-eventC]; [None] when the channel is closed. *)
Definition pump_event (p : Pump) (ev : option Cached) : Pump :=
  match ev with
  | None => pump_exit p (pm_sock p)
  | Some ce =>
      if pm_isReconnecting p then
        if bufferLimit <=? Z.of_nat (length (pm_buffer p)) then
          let '(s, _) := writeJSON (pm_sock p) (mkServerMessage "error" (PText "reconnect buffer overflow")) in
          mkPump (pm_format p) s [] false true
        else mkPump (pm_format p) (pm_sock p) (pm_buffer p ++ [ce]) true (pm_exited p)
      else
        let '(s, ok) := writeProtocolEvent (pm_format p) (pm_sock p) ce in
        if ok then set_sock p s else pump_exit p s
  end.

(** [ev := <-replayC] and [msg := <-c.control]. *)
Definition pump_replay (p : Pump) (ce : Cached) : Pump :=
  let '(s, ok) := writeProtocolEvent (pm_format p) (pm_sock p) ce in
  if ok then set_sock p s else pump_exit p s.

Definition pump_control (p : Pump) (m : ServerMessage) : Pump :=
  let '(s, ok) := writeJSON (pm_sock p) m in
  if ok then set_sock p s else pump_exit p s.

Inductive pump_input :=
| InEvent (ev : option Cached)
| InReplay (ce : Cached)
| InControl (m : ServerMessage)
| InReconnect (res : result (list Message) string) (resumeSeq : gmap string Z)
| InStartReconnect
| InDone.

(** The pump returns at the first exit. [InStartReconnect] is the flag set by the
    read pump. *)
Definition pump_step (p : Pump) (i : pump_input) : Pump :=
  if pm_exited p then p
  else match i with
       | InEvent ev => pump_event p ev
       | InReplay ce => pump_replay p ce
       | InControl m => pump_control p m
       | InReconnect res resumeSeq => pump_reconnect p res resumeSeq
       | InStartReconnect => mkPump (pm_format p) (pm_sock p) (pm_buffer p) true (pm_exited p)
       | InDone => pump_exit p (pm_sock p)
       end.

Definition pump_run (p : Pump) (is_ : list pump_input) : Pump := foldl pump_step p is_.

(** ** What a reconnect sends *)

Definition of_topic (t : string) (msgs : list Message) : list Z :=
  Sequence <$> filter (λ m, Topic m = t) msgs.
Definition of_symbol (t : string) (evs : list Cached) : list Z :=
  omap (λ ce, GetSeq (ce_Event ce)) (filter (λ ce, base_symbol (ce_Event ce) = t) evs).

(** The number after the last one, or [r]. *)
Definition next_after (r : Z) (nums : list Z) : Z := match last nums with Some n => n + 1 | None => r end.

Definition in_range (n : Z) : Prop := 0 ≤ n < 2 ^ 63.

Definition frame_of (fmt : Format) (ce : Cached) : option frame := FBytes <$> event_bytes fmt ce.

Lemma of_topic_cons t m msgs :
  of_topic t (m :: msgs) = if decide (Topic m = t) then Sequence m :: of_topic t msgs else of_topic t msgs.
Proof. unfold of_topic. rewrite filter_cons. by case_decide. Qed.

Lemma of_symbol_cons t ce evs n :
  GetSeq (ce_Event ce) = Some n →
  of_symbol t (ce :: evs) =
    if decide (base_symbol (ce_Event ce) = t) then n :: of_symbol t evs else of_symbol t evs.
Proof.
  intros Hn. unfold of_symbol. rewrite filter_cons. case_decide; [|done].
  change (omap ?f (ce :: ?l)) with (match f ce with Some y => y :: omap f l | None => omap f l end).
  cbv beta. by rewrite Hn.
Qed.

Lemma filter_above r n (nums : list Z) :
  r ≤ n → Forall (λ x, n < x) nums → filter (λ x, r ≤ x) nums = filter (λ x, n + 1 ≤ x) nums.
Proof.
  intros Hr Hall. induction Hall as [|x nums Hx _ IH]; [done|].
  rewrite !filter_cons_True by lia. by rewrite IH.
Qed.

Lemma next_after_cons r n nums : next_after r (n :: nums) = next_after (n + 1) nums.
Proof. unfold next_after. rewrite last_cons. by destruct (last nums). Qed.

(** One number of a stream: dropped below the expected one, else taken. *)
Lemma stream_cons r n nums :
  Forall (λ x, n < x) nums →
  filter (λ x, r ≤ x) (n :: nums) =
    (if r <=? n then n :: filter (λ x, n + 1 ≤ x) nums else filter (λ x, r ≤ x) nums).
Proof.
  intros Hall. destruct (Z.leb_spec r n).
  - rewrite filter_cons_True by lia. by rewrite (filter_above r n).
  - by rewrite filter_cons_False by lia.
Qed.

(** The history takes, of every topic that the client names, the logged numbers from
    its own on. *)
Lemma write_history_ok fmt msgs : ∀ expected s,
  so_room s = None → Forall (λ m, in_range (Sequence m)) msgs →
  (∀ t, StronglySorted Z.lt (of_topic t msgs)) →
  ∃ hist expected', write_history fmt expected msgs s =
      (mkSocket (so_out s ++ (FBytes ∘ history_bytes fmt <$> hist)) None, Some expected') ∧
    hist `sublist_of` msgs ∧
    (∀ t, expected !! t = None → expected' !! t = None ∧ of_topic t hist = []) ∧
    (∀ t r, expected !! t = Some r →
       of_topic t hist = filter (λ n, r ≤ n) (of_topic t msgs) ∧
       expected' !! t = Some (next_after r (of_topic t hist))).
Proof.
  induction msgs as [|m msgs IH]; intros expected s Hroom Hr Hs.
  { exists [], expected. cbn. rewrite app_nil_r. destruct s; cbn in *; subst. done. }
  apply Forall_cons in Hr as [Hm Hr].
  assert (Hs' : ∀ t, StronglySorted Z.lt (of_topic t msgs)).
  { intros t. specialize (Hs t). rewrite of_topic_cons in Hs. case_decide; [by inversion Hs|done]. }
  assert (Hlt : Forall (λ x, Sequence m < x) (of_topic (Topic m) msgs)).
  { specialize (Hs (Topic m)). rewrite of_topic_cons, decide_True in Hs by done. by inversion Hs. }
  cbn [write_history]. destruct (expected !! Topic m) as [e|] eqn:He.
  2: { destruct (IH expected s Hroom Hr Hs') as (hist & exp' & -> & Hsub & Hno & Hyes). exists hist, exp'.
       split_and!; [done|by apply sublist_cons|done|]. intros t r Ht. rewrite of_topic_cons, decide_False by congruence.
       by apply Hyes. }
  destruct (Z.leb_spec e (Sequence m)) as [Hle|Hlt'].
  - unfold writeRaw, so_write. rewrite Hroom. rewrite (u64_small (Sequence m + 1)) by (unfold in_range, in_u64 in *; lia).
    destruct (IH (<[Topic m := Sequence m + 1]> expected) (mkSocket (so_out s ++ [FBytes (history_bytes fmt m)]) None)
      eq_refl Hr Hs') as (hist & exp' & -> & Hsub & Hno & Hyes). exists (m :: hist), exp'. split_and!.
    + cbn. by rewrite <- app_assoc.
    + by apply sublist_skip.
    + intros t Ht. assert (t ≠ Topic m) by congruence. rewrite of_topic_cons, decide_False by done.
      apply Hno. by rewrite lookup_insert_ne.
    + intros t r Ht. rewrite !of_topic_cons. case_decide as Heq.
      * subst t. destruct (Hyes (Topic m) (Sequence m + 1)) as [H1 H2]; [apply lookup_insert_eq|].
        rewrite He in Ht. injection Ht as <-. rewrite stream_cons, (proj2 (Z.leb_le _ _)), next_after_cons, <- H1 by done.
        done.
      * apply Hyes. by rewrite lookup_insert_ne.
  - destruct (IH expected s Hroom Hr Hs') as (hist & exp' & -> & Hsub & Hno & Hyes). exists hist, exp'.
    split_and!; [done|by apply sublist_cons|done|]. intros t r Ht. rewrite of_topic_cons. case_decide as Heq.
    + subst t. rewrite He in Ht. injection Ht as <-. rewrite stream_cons, (proj2 (Z.leb_gt _ _)) by done. by apply Hyes.
    + by apply Hyes.
Qed.

(** So do the buffered events, with what the history has sent. *)
Lemma write_live_ok fmt evs : ∀ expected s,
  so_room s = None →
  Forall (λ ce, is_Some (event_bytes fmt ce) ∧ ∃ n, GetSeq (ce_Event ce) = Some n ∧ in_range n) evs →
  (∀ t, StronglySorted Z.lt (of_symbol t evs)) →
  ∃ live expected', write_live fmt expected evs s =
      (mkSocket (so_out s ++ omap (frame_of fmt) live) None, Some expected') ∧
    live `sublist_of` evs ∧
    (∀ t, of_symbol t live = filter (λ n, default 0 (expected !! t) ≤ n) (of_symbol t evs)).
Proof.
  induction evs as [|ce evs IH]; intros expected s Hroom Hall Hs.
  { exists [], expected. cbn. rewrite app_nil_r. destruct s; cbn in *; subst. done. }
  apply Forall_cons in Hall as [[[b Hb] (n & Hn & Hr)] Hall].
  assert (Hs' : ∀ t, StronglySorted Z.lt (of_symbol t evs)).
  { intros t. specialize (Hs t). rewrite (of_symbol_cons _ _ _ n Hn) in Hs. case_decide; [by inversion Hs|done]. }
  assert (Hlt : Forall (λ x, n < x) (of_symbol (base_symbol (ce_Event ce)) evs)).
  { specialize (Hs (base_symbol (ce_Event ce))). rewrite (of_symbol_cons _ _ _ n Hn), decide_True in Hs by done.
    by inversion Hs. }
  cbn [write_live]. rewrite Hn, (u64_small n) by (unfold in_range, in_u64 in *; lia).
  destruct (Z.leb_spec (default 0 (expected !! base_symbol (ce_Event ce))) n) as [Hle|Hgt].
  - unfold writeProtocolEvent, so_write. rewrite Hb, Hroom, (u64_small (n + 1)) by (unfold in_range, in_u64 in *; lia).
    destruct (IH (<[base_symbol (ce_Event ce) := n + 1]> expected) (mkSocket (so_out s ++ [FBytes b]) None) eq_refl Hall Hs')
      as (live & exp' & -> & Hsub & Hspec). exists (ce :: live), exp'. split_and!; [|by apply sublist_skip|].
    + change (omap ?f (ce :: ?l)) with (match f ce with Some y => y :: omap f l | None => omap f l end).
      unfold frame_of at 2. rewrite Hb. cbn. by rewrite <- app_assoc.
    + intros t. rewrite !(of_symbol_cons _ _ _ n Hn). case_decide as Heq.
      * subst t. rewrite stream_cons, (proj2 (Z.leb_le _ _)) by done. f_equal. rewrite Hspec. by rewrite lookup_insert_eq.
      * rewrite Hspec. by rewrite lookup_insert_ne.
  - destruct (IH expected s Hroom Hall Hs') as (live & exp' & -> & Hsub & Hspec). exists live, exp'.
    split_and!; [done|by apply sublist_cons|]. intros t. rewrite (of_symbol_cons _ _ _ n Hn). case_decide as Heq; [|done].
    subst t. rewrite stream_cons, (proj2 (Z.leb_gt _ _)) by done. apply Hspec.
Qed.

Lemma filter_seqZ b s m : s ≤ b → filter (λ n, b ≤ n) (seqZ s m) = seqZ b (s + m - b).
Proof.
  intros Hs. destruct (decide (s + m ≤ b)) as [Hle|Hgt].
  - rewrite (seqZ_nil b) by lia. apply filter_none, Forall_forall. intros n Hn%elem_of_seqZ. lia.
  - replace m with ((b - s) + (s + m - b)) at 1 by lia. rewrite seqZ_app, filter_app by lia.
    replace (s + (b - s)) with b by lia. rewrite filter_none, filter_all; [done| |];
      apply Forall_forall; intros n Hn%elem_of_seqZ; lia.
Qed.

Lemma next_after_bound r nums :
  StronglySorted Z.lt nums → Forall (λ n, r ≤ n) nums →
  r ≤ next_after r nums ∧ Forall (λ n, n < next_after r nums) nums.
Proof.
  intros Hs. revert r. induction Hs as [|n nums Hs IH Hn]; intros r Hr; [by cbn; split; [lia|]|].
  apply Forall_cons in Hr as [Hr _]. rewrite next_after_cons.
  destruct (IH (n + 1)) as [H1 H2]; [eapply Forall_impl; [exact Hn|cbn; lia]|]. split; [lia|].
  constructor; [lia|done].
Qed.

Lemma next_after_seqZ r k : 0 ≤ k → next_after r (seqZ r k) = r + k.
Proof.
  intros Hk. destruct (decide (k = 0)) as [->|Hne]; [rewrite seqZ_nil by lia; cbn [next_after last]; lia|].
  replace k with ((k - 1) + 1) at 1 by lia. rewrite seqZ_app by lia. unfold next_after.
  rewrite (seqZ_cons (r + (k - 1))), (seqZ_nil _ (Z.pred 1)) by lia. rewrite last_snoc. lia.
Qed.

(** What arrives between the request and the end of the replay. *)
Definition mid_events (mid : list pump_input) : list Cached :=
  omap (λ i, match i with InEvent ev => ev | _ => None end) mid.
Definition mid_controls (mid : list pump_input) : list ServerMessage :=
  omap (λ i, match i with InControl m => Some m | _ => None end) mid.
Definition mid_ok (fmt : Format) (i : pump_input) : Prop :=
  match i with
  | InEvent (Some ce) => is_Some (event_bytes fmt ce) ∧ ∃ n, GetSeq (ce_Event ce) = Some n ∧ in_range n
  | InControl _ => True
  | _ => False
  end.

Lemma pump_buffers fmt mid : ∀ out buf,
  Forall (mid_ok fmt) mid → Z.of_nat (length buf + length (mid_events mid)) ≤ bufferLimit →
  pump_run (mkPump fmt (mkSocket out None) buf true false) mid =
    mkPump fmt (mkSocket (out ++ (FMessage <$> mid_controls mid)) None) (buf ++ mid_events mid) true false.
Proof.
  induction mid as [|i mid IH]; intros out buf Hok Hlen; [cbn; by rewrite !app_nil_r|].
  apply Forall_cons in Hok as [Hi Hok]. unfold pump_run. cbn [foldl]. fold (pump_run). destruct i as [[ce|]|ce|m|res rs| |]; try done.
  - change (mid_events (InEvent (Some ce) :: mid)) with (ce :: mid_events mid) in *. cbn [length] in Hlen.
    unfold pump_step, pump_event. cbn [pm_exited pm_isReconnecting pm_buffer pm_format pm_sock].
    rewrite (proj2 (Z.leb_gt _ _)) by lia. fold (pump_run (mkPump fmt (mkSocket out None) (buf ++ [ce]) true false) mid).
    rewrite IH by (done || (rewrite length_app; cbn; lia)). by rewrite <- app_assoc.
  - change (mid_events (InControl m :: mid)) with (mid_events mid) in *.
    change (mid_controls (InControl m :: mid)) with (m :: mid_controls mid).
    unfold pump_step, pump_control, writeJSON, so_write, set_sock.
    cbn [pm_exited pm_isReconnecting pm_buffer pm_format pm_sock so_room so_out].
    fold (pump_run (mkPump fmt (mkSocket (out ++ [FMessage m]) None) buf true false) mid).
    rewrite IH by done. cbn. by rewrite <- app_assoc.
Qed.

Lemma mid_events_ok fmt mid :
  Forall (mid_ok fmt) mid →
  Forall (λ ce, is_Some (event_bytes fmt ce) ∧ ∃ n, GetSeq (ce_Event ce) = Some n ∧ in_range n) (mid_events mid).
Proof.
  induction 1 as [|i mid Hi _ IH]; [constructor|]. destruct i as [[ce|]|ce|m|res rs| |]; try done.
  change (mid_events (InEvent (Some ce) :: mid)) with (ce :: mid_events mid). by constructor.
Qed.


(** An event beyond the buffer ends the connection: the client is told, and has to
    reconnect again. *)
Lemma reconnect_overflow_disconnects fmt out buf ce :
  Z.of_nat (length buf) = bufferLimit →
  pump_step (mkPump fmt (mkSocket out None) buf true false) (InEvent (Some ce)) =
    mkPump fmt (mkSocket (out ++ [FMessage (mkServerMessage "error" (PText "reconnect buffer overflow"))]) None)
      [] false true.
Proof.
  intros Hb. unfold pump_step, pump_event. cbn [pm_exited pm_isReconnecting pm_buffer].
  by rewrite Hb, Z.leb_refl.
Qed.

(** After a failed replay the held events go out as JSON, whatever format the client
    negotiated. *)
Lemma failed_replay_flushes_json fmt out buf e resume :
  pm_sock (pump_step (mkPump fmt (mkSocket out None) buf true false) (InReconnect (Err e) resume)) =
    mkSocket (out ++ FMessage (mkServerMessage "error" (PText e)) :: (FBytes ∘ ce_JSON <$> buf)) None.
Proof.
  assert (H : ∀ buf out, flush_raw buf (mkSocket out None) = mkSocket (out ++ (FBytes ∘ ce_JSON <$> buf)) None).
  { clear. unfold flush_raw. induction buf as [|ce buf IH]; intros out; [cbn; by rewrite app_nil_r|].
    cbn. rewrite IH. by rewrite <- app_assoc. }
  unfold pump_step, pump_reconnect, writeJSON, so_write. cbn [pm_exited pm_sock so_room so_out pm_buffer].
  rewrite H. by rewrite <- app_assoc.
Qed.

(** A live event is written at once when no reconnect is under way. *)
Lemma live_event_written fmt out ce b :
  event_bytes fmt ce = Some b →
  pump_step (mkPump fmt (mkSocket out None) [] false false) (InEvent (Some ce)) =
    mkPump fmt (mkSocket (out ++ [FBytes b]) None) [] false false.
Proof. intros Hb. unfold pump_step, pump_event, writeProtocolEvent. cbn. by rewrite Hb. Qed.
End pump.

(** ** A reconnect *)

Definition pump_quote : Type := string * Z.
#[local] Instance pump_quote_ops : MarketEventOps pump_quote := {|
  EventSymbol := fst;
  EventType := λ _, "trade";
  json_Encode := λ q, Some (bytes_of_string q.1 ++ [newline]);
  ProtobufEncoder := None;
  FlatBuffersEncoder := None;
|}.

Definition pump_seq (ev : @BaseEvent pump_quote) : option Z :=
  match ev with Concrete q => Some q.2 | PreEncoded pe => Some (pe_SeqNum pe) end.
Definition pump_cached (symbol : string) (n : Z) : @CachedEvent pump_quote :=
  NewCachedEvent (Base (Concrete (symbol, n))).
Definition pump_msg (symbol : string) (n : Z) : Message :=
  mkMessage n 0 symbol "trade" (bytes_of_string symbol).
Definition pump_marshal (typ : string) (b : list byte) : list byte := bytes_of_string typ ++ b.

