(* ===== verification/WsClient.v ===== *)
(** * WsClient: what a client asks for

    The read pump of [internal/websocket/client.go] and [replay_handler.go]: the
    dispatch of a client's messages to subscriptions, replays of recorded ranges,
    reconnects and heartbeats, over any topic manager, and the queue of control
    messages to the write pump. The answers of the replay engine and the parser of
    times are parameters; a session is its number. The goroutine that waits for the
    end of a replay is a step of its own. *)

From Stdlib Require Import Strings.Byte.
From S2P Require Import Prelude Bytes WalCodec Sharded Float64 Ring Channel ClientQueue MarketEvent TopicManager Router Bus Snapshot WsPump.

(** ** Messages and state *)

Record ClientMessage := mkClientMessage {
  cm_Action : string;
  cm_Symbols : list string;
  cm_Symbol : string;
  cm_Start : string;
  cm_End : string;
  cm_Speed : float64;
  cm_ResumeSeq : gmap string Z;
  cm_ReconnectStart : Z;
  cm_Timestamp : Z;
}.

Definition maxSymbolsPerSubscription : nat := 100.
Definition controlQueueSize : nat := 128.

(** [errNoActiveReplay]. *)
Definition noActiveReplay : string := "no active replay session".

Section client.
Context {E : Type} `{!MarketEventOps E}.
Context {M H Ev : Type} `{!LocalManager M H Ev}.
#[local] Abbreviation Message_ := (@ServerMessage E).

(** A replay of the log that a goroutine has asked for: the first number, and the
    numbers of the client. *)
Record wal_request := mkWalRequest { wr_from : Z; wr_resumeSeq : gmap string Z }.

(** [wc_watchers] are the goroutines that wait for the context of a replay session,
    and whether it is cancelled; [wc_stopped] the sessions told to stop. *)
Record Client := mkClient {
  wc_id : string;
  wc_handle : option H;
  wc_control : list Message_;
  wc_subUpdated : bool;
  wc_isReconnecting : bool;
  wc_walRequests : list wal_request;
  wc_pongs : nat;
  wc_replayCh : option nat;
  wc_activeReplaySession : option nat;
  wc_watchers : list (nat * bool);
  wc_stopped : list nat;
  wc_sessions : nat;
  wc_cancelled : bool;
}.

Definition newClient (id : string) : Client :=
  mkClient id None [] false false [] 0 None None [] [] 0 false.

Definition set_control (c : Client) (l : list Message_) : Client :=
  mkClient (wc_id c) (wc_handle c) l (wc_subUpdated c) (wc_isReconnecting c) (wc_walRequests c) (wc_pongs c)
    (wc_replayCh c) (wc_activeReplaySession c) (wc_watchers c) (wc_stopped c) (wc_sessions c) (wc_cancelled c).
Definition set_handle (c : Client) (h : option H) (subUpdated : bool) : Client :=
  mkClient (wc_id c) h (wc_control c) subUpdated (wc_isReconnecting c) (wc_walRequests c) (wc_pongs c)
    (wc_replayCh c) (wc_activeReplaySession c) (wc_watchers c) (wc_stopped c) (wc_sessions c) (wc_cancelled c).
Definition set_replay (c : Client) (ch active : option nat) (watchers : list (nat * bool)) (stopped : list nat)
    (sessions : nat) (subUpdated : bool) : Client :=
  mkClient (wc_id c) (wc_handle c) (wc_control c) subUpdated (wc_isReconnecting c) (wc_walRequests c) (wc_pongs c)
    ch active watchers stopped sessions (wc_cancelled c).
Definition set_reconnect (c : Client) (reqs : list wal_request) : Client :=
  mkClient (wc_id c) (wc_handle c) (wc_control c) (wc_subUpdated c) true reqs (wc_pongs c)
    (wc_replayCh c) (wc_activeReplaySession c) (wc_watchers c) (wc_stopped c) (wc_sessions c) (wc_cancelled c).

(** A control message is dropped when the queue is full. *)
Definition sendControl (c : Client) (m : Message_) : Client :=
  if (length (wc_control c) <? controlQueueSize)%nat then set_control c (wc_control c ++ [m]) else c.

Definition sendError (c : Client) (text : string) : Client := sendControl c (mkServerMessage "error" (PText text)).

(** ** Subscriptions *)

(** The optional services of a client. *)
Record services := mkServices {
  sx_redirector : option (string → string);
  sx_snap : option (Service E);
  sx_hasReplay : bool;
  sx_hasWal : bool;
  sx_hasHeartbeat : bool;
}.

(** The loop that sends redirects and keeps the symbols served here. *)
Fixpoint keep_local (sx : services) (c : Client) (symbols : list string) : Client * list string :=
  match symbols with
  | [] => (c, [])
  | sym :: symbols =>
      let target := match sx_redirector sx with Some f => f sym | None => "" end in
      if bool_decide (target = "") then let '(c, valid) := keep_local sx c symbols in (c, sym :: valid)
      else keep_local sx (sendControl c (mkServerMessage "redirect" (PRedirect sym target))) symbols
  end.

(** [handle.Cancel] of the previous subscription, then [Subscribe]. *)
Definition resubscribe (c : Client) (m : M) (symbols : list string) : outcome (Client * M) :=
  let m := match wc_handle c with Some h => mg_Cancel m h | None => m end in
  match mg_Subscribe m (wc_id c) symbols with
  | Panic => Panic
  | Ret (m, h) => Ret (set_handle c h true, m)
  end.

(** The snapshots of the symbols; a nil event is dereferenced. *)
Fixpoint push_snapshots (c : Client) (cached : list (option (@CachedEvent E))) : outcome Client :=
  match cached with
  | [] => Ret c
  | None :: _ => Panic
  | Some ce :: cached => push_snapshots (sendControl c (mkServerMessage "snapshot" (PEvent (ce_Event ce)))) cached
  end.

Definition handleSubscribe (sx : services) (c : Client) (m : M) (symbols : list string) : outcome (Client * M) :=
  if (length symbols =? 0)%nat then Ret (sendError c "no symbols provided", m)
  else if (maxSymbolsPerSubscription <? length symbols)%nat then Ret (sendError c "too many symbols (max 100)", m)
  else
    let '(c, valid) := keep_local sx c symbols in
    if (length valid =? 0)%nat then Ret (c, m)
    else
      match resubscribe c m valid with
      | Panic => Panic
      | Ret (c, m) =>
          let c := sendControl c (mkServerMessage "subscribed" (PSymbols valid)) in
          match sx_snap sx with
          | None => Ret (c, m)
          | Some snap =>
              match push_snapshots c (default [] (GetMultiple snap valid)) with Panic => Panic | Ret c => Ret (c, m) end
          end
      end.

Definition drop_handle (c : Client) (m : M) : Client * M :=
  match wc_handle c with
  | Some h => (set_handle c None (wc_subUpdated c), mg_Cancel m h)
  | None => (c, m)
  end.

Definition handleUnsubscribe (c : Client) (m : M) : Client * M :=
  let '(c, m) := drop_handle c m in
  (sendControl (set_handle c (wc_handle c) true) (mkServerMessage "unsubscribed" (PText "all")), m).

(** ** Replays of a range *)

(** [session.Stop] and [cancel]. *)
Definition stopReplay (c : Client) : Client :=
  set_replay c None None
    (match wc_activeReplaySession c with
     | Some s => (λ w : nat * bool, if (w.1 =? s)%nat then (w.1, true) else w) <$> wc_watchers c
     | None => wc_watchers c
     end)
    (wc_stopped c ++ option_list (wc_activeReplaySession c)) (wc_sessions c) (wc_subUpdated c).

(** [setReplay]: the session replaces the live subscription. *)
Definition setReplay (c : Client) (m : M) (s : nat) : Client * M :=
  let c := set_replay c (Some s) (Some s) (wc_watchers c) (wc_stopped c) (wc_sessions c) (wc_subUpdated c) in
  let '(c, m) := drop_handle c m in (set_handle c (wc_handle c) true, m).

(** [StartReplay]; [ReplayTimeRange] creates a session and returns no error. *)
Definition StartReplay (c : Client) (m : M) (symbol : string) : Client * M :=
  let c := stopReplay c in
  let s := wc_sessions c in
  let '(c, m) := setReplay c m s in
  let c := sendControl c (mkServerMessage "replay_started" (PReplay s symbol)) in
  (set_replay c (wc_replayCh c) (wc_activeReplaySession c) (wc_watchers c ++ [(s, false)]) (wc_stopped c) (S s)
     (wc_subUpdated c), m).

Definition clearReplayIfActive (c : Client) (s : nat) : Client * bool :=
  if bool_decide (wc_activeReplaySession c = Some s)
  then (set_replay c None None (wc_watchers c) (wc_stopped c) (wc_sessions c) true, true)
  else (c, false).

(** The goroutine of [StartReplay]: it goes on when its context or the connection's is
    done. *)
Definition watcher_wakes (c : Client) (i : nat) (ctxDone : bool) : Client :=
  match wc_watchers c !! i with
  | None => c
  | Some (s, cancelled) =>
      if cancelled || ctxDone then
        let c := set_replay c (wc_replayCh c) (wc_activeReplaySession c) (delete i (wc_watchers c)) (wc_stopped c)
                   (wc_sessions c) (wc_subUpdated c) in
        let '(c, cleared) := clearReplayIfActive c s in
        if cleared then sendControl c (mkServerMessage "replay_completed" (PReplay s "")) else c
      else c
  end.

(** [PauseReplay] and [ResumeReplay]; [answer] is the error of the session's call. *)
Definition ask_session (c : Client) (answer : option string) : option string :=
  match wc_activeReplaySession c with None => Some noActiveReplay | Some _ => answer end.

Definition report (c : Client) (err : option string) (ok : string) : Client :=
  match err with Some e => sendError c e | None => sendControl c (mkServerMessage ok PNone) end.

(** [time.Parse]: the time or the text of the error. *)
Context (time_Parse : string → result Z string).

Definition parse_opt (text : string) : result Z string :=
  if bool_decide (text = "") then Ok zero_time else time_Parse text.

Definition replay_symbol (cm : ClientMessage) : string :=
  if bool_decide (cm_Symbol cm = "") then default "" (head (cm_Symbols cm)) else cm_Symbol cm.

Definition handleReplayAction (sx : services) (c : Client) (m : M) (cm : ClientMessage) : Client * M :=
  if negb (sx_hasReplay sx) then (sendError c "replay not available", m)
  else
    let symbol := replay_symbol cm in
    if bool_decide (symbol = "") then (sendError c "no symbol provided for replay", m)
    else
      match parse_opt (cm_Start cm) with
      | Err e => (sendError c ("invalid start time: " +:+ e), m)
      | Ok _ =>
          match parse_opt (cm_End cm) with
          | Err e => (sendError c ("invalid end time: " +:+ e), m)
          | Ok _ => StartReplay c m symbol
          end
      end.

(** ** Reconnects *)

(** The lowest number that the client has, 0 when it has none. *)
Definition min_resume (resumeSeq : gmap string Z) : Z :=
  match map_to_list resumeSeq with
  | [] => 0
  | (_, n) :: l => foldl (λ a kv, if kv.2 <? a then kv.2 else a) n l
  end.

Definition handleReconnect (sx : services) (c : Client) (m : M) (cm : ClientMessage) : outcome (Client * M) :=
  if negb (sx_hasWal sx) then Ret (sendError c "WAL replayer not available", m)
  else
    let req := mkWalRequest (u64 (min_resume (cm_ResumeSeq cm) + 1)) (cm_ResumeSeq cm) in
    let c := set_reconnect c (wc_walRequests c) in
    let go (c : Client) := set_reconnect c (wc_walRequests c ++ [req]) in
    if (length (cm_Symbols cm) =? 0)%nat then Ret (go c, m)
    else match resubscribe c m (cm_Symbols cm) with Panic => Panic | Ret (c, m) => Ret (go c, m) end.

(** ** Dispatch *)

(** [pause], [resume]: the errors of the session's calls. *)
Definition handleMessage (sx : services) (c : Client) (m : M) (cm : ClientMessage) (pause resume : option string)
    : outcome (Client * M) :=
  let action := cm_Action cm in
  if bool_decide (action = "subscribe") then handleSubscribe sx c m (cm_Symbols cm)
  else if bool_decide (action = "unsubscribe") then Ret (handleUnsubscribe c m)
  else if bool_decide (action = "replay") then Ret (handleReplayAction sx c m cm)
  else if bool_decide (action = "replay_pause") then
    Ret (if sx_hasReplay sx then report c (ask_session c pause) "replay_paused"
         else sendError c "replay not available", m)
  else if bool_decide (action = "replay_resume") then
    Ret (if sx_hasReplay sx then report c (ask_session c resume) "replay_resumed"
         else sendError c "replay not available", m)
  else if bool_decide (action = "replay_stop") then
    Ret (if sx_hasReplay sx then sendControl (stopReplay c) (mkServerMessage "replay_stopped" PNone)
         else sendError c "replay not available", m)
  else if bool_decide (action = "reconnect") then handleReconnect sx c m cm
  else if bool_decide (action = "pong") then
    Ret (if sx_hasHeartbeat sx
         then mkClient (wc_id c) (wc_handle c) (wc_control c) (wc_subUpdated c) (wc_isReconnecting c) (wc_walRequests c)
                (S (wc_pongs c)) (wc_replayCh c) (wc_activeReplaySession c) (wc_watchers c) (wc_stopped c)
                (wc_sessions c) (wc_cancelled c)
         else c, m)
  else Ret (sendError c ("unknown action: " +:+ action), m).

(** [cancelAll]: at most once. *)
Definition cancelAll (c : Client) (m : M) : Client * M :=
  if wc_cancelled c then (c, m)
  else
    (mkClient (wc_id c) (wc_handle c) (wc_control c) (wc_subUpdated c) (wc_isReconnecting c) (wc_walRequests c)
       (wc_pongs c) (wc_replayCh c) (wc_activeReplaySession c) (wc_watchers c) (wc_stopped c) (wc_sessions c) true,
     match wc_handle c with Some h => mg_Cancel m h | None => m end).

(** [shutdown] waits while this is false, until its own context is done. *)
Definition shutdown_ready (c : Client) : bool :=
  bool_decide (wc_activeReplaySession c = None) && negb (wc_isReconnecting c).
End client.

(** ** What the client relies on

    Beside the table of the interface: the handle that a manager gives a client it
    does not have yet cancels that client. *)

Class FreshHandle (M H Ev : Type) `{!LocalManager M H Ev, !LocalManagerLaws M H Ev} :=
  mg_Subscribe_fresh : ∀ (m : M) T id topics m' (h : option H),
    mg_table m T → T !! id = None → topics ≠ [] → mg_Subscribe m id topics = Ret (m', h) →
    ∃ h', h = Some h' ∧ mg_handle_id h' = id.

Lemma subscribe_turn_subs {G E} (tm : MemoryManager G E) p t : tm_subs (subscribe_turn tm p t).1 = tm_subs tm.
Proof.
  unfold subscribe_turn, topics_LoadOrStore, ap_CompareAndSwap.
  destruct (topics_Load tm t); [by case_decide|]. by destruct (_ !! t).
Qed.

Lemma subscribe_topics_handle {G E} (topics : list string) : ∀ (tm : MemoryManager G E) p s,
  tm_subs tm !! p = Some s →
  ∃ s', tm_subs (fold_left (subscribe_topic p) topics tm) !! p = Some s' ∧ sub_handle s' = sub_handle s.
Proof.
  induction topics as [|t topics IH]; intros tm p s Hs; [by exists s|]. cbn [fold_left].
  assert (Hone : ∃ s', tm_subs (subscribe_topic p tm t) !! p = Some s' ∧ sub_handle s' = sub_handle s).
  { unfold subscribe_topic. rewrite Hs. case_decide; [by exists s|]. cbn [loop_until].
    pose proof (subscribe_turn_subs tm p t) as Ht. destruct (subscribe_turn tm p t) as [tm1 []]; cbn in Ht.
    - eexists. cbn. by rewrite lookup_insert_eq.
    - by exists s. }
  destruct Hone as (s1 & H1 & Hh). destruct (IH _ _ _ H1) as (s2 & H2 & Hh2). exists s2. by rewrite Hh2.
Qed.

#[export] Instance memory_fresh_handle {G E} `{!Registerer G, !MarketEventOps E}
    : FreshHandle (MemoryManager G E) handle (MarketEvent E).
Proof.
  intros m T id topics m' h [S Hok] Hid Hne. cbn [mg_Subscribe memory_manager]. unfold TM_Subscribe.
  destruct topics as [|t topics]; [done|]. unfold find_or_create. rewrite (subs_lookup_ok _ _ _ _ Hok).
  assert (HS : S !! id = None).
  { destruct (S !! id) as [p|] eqn:Hp; [|done]. destruct (tk_open _ _ _ Hok id p Hp) as (s & Hs & _).
    pose proof (tk_abs _ _ _ Hok id) as Ha. rewrite Hp, Hid in Ha. cbn in Ha. by rewrite Hs in Ha. }
  rewrite HS.
  assert (Hmk : ∀ reg queue, (λ x, ensure_handle (fold_left (subscribe_topic x.2) (t :: topics) x.1) x.2 id)
    (create_subscriber m id reg queue) = (m', h) → ∃ h', h = Some h' ∧ mg_handle_id h' = id).
  { intros reg queue. cbn [create_subscriber fst snd].
    set (tm1 := mkTM _ _ _ _ _ _ _ _ _).
    destruct (subscribe_topics_handle (t :: topics) tm1 (tm_next m) (mkSubscriber [] ∅ false None queue 0)) as (s' & Hs' & Hh);
      [apply lookup_insert_eq|]. unfold ensure_handle. rewrite Hs', Hh. cbn [sub_handle]. intros [= <- <-]. by eexists. }
  destruct (tm_queueCfg m) as [cfg|]; [destruct (new_queue m id cfg) as [[reg q]|]; [|done]|].
  - specialize (Hmk reg (Some q)). destruct (create_subscriber m id reg (Some q)) as [tm1 p1]. intros [= Heq]. by apply Hmk.
  - specialize (Hmk (tm_reg m) None). destruct (create_subscriber m id (tm_reg m) None) as [tm1 p1].
    intros [= Heq]. by apply Hmk.
Qed.

(** ** Runs *)

Inductive client_input :=
| ClMessage (cm : ClientMessage) (pause resume : option string)
| ClWake (i : nat) (ctxDone : bool)
| ClTake.

Section runs.
Context {E : Type} `{!MarketEventOps E}.
Context {M H Ev : Type} `{!LocalManager M H Ev}.
Context (time_Parse : string → result Z string).
#[local] Abbreviation Cl := (@Client E H).

(** [ClTake]: the write pump takes a control message. *)
Definition client_step (sx : @services E) (c : Cl) (m : M) (i : client_input) : outcome (Cl * M) :=
  match i with
  | ClMessage cm pause resume => handleMessage time_Parse sx c m cm pause resume
  | ClWake i ctxDone => Ret (watcher_wakes c i ctxDone, m)
  | ClTake => Ret (set_control c (tail (wc_control c)), m)
  end.

Fixpoint client_run (sx : services) (c : Cl) (m : M) (is_ : list client_input) : outcome (Cl * M) :=
  match is_ with
  | [] => Ret (c, m)
  | i :: is_ => match client_step sx c m i with Panic => Panic | Ret (c, m) => client_run sx c m is_ end
  end.

(** *** Frames *)

Record same_subscription (c c' : Cl) : Prop := {
  ss_id : wc_id c' = wc_id c;
  ss_handle : wc_handle c' = wc_handle c;
  ss_cancelled : wc_cancelled c' = wc_cancelled c;
}.

#[local] Instance same_subscription_preorder : PreOrder same_subscription.
Proof. split; [done|]. intros c1 c2 c3 [? ? ?] [? ? ?]. split; congruence. Qed.

Lemma sendControl_same c m : same_subscription c (sendControl c m).
Proof. unfold sendControl. by case_match. Qed.

Lemma keep_local_same sx symbols : ∀ c : Cl, same_subscription c (keep_local sx c symbols).1.
Proof.
  induction symbols as [|sym symbols IH]; intros c; [done|]. cbn [keep_local]. case_bool_decide.
  - specialize (IH c). by destruct (keep_local sx c symbols).
  - etransitivity; [apply sendControl_same|apply IH].
Qed.

(** Whether a symbol is served here. *)
Definition served (sx : @services E) (sym : string) : Prop :=
  match sx_redirector sx with Some f => f sym = "" | None => True end.
#[local] Instance served_dec sx sym : Decision (served sx sym).
Proof. unfold served. destruct (sx_redirector sx); apply _. Defined.

Lemma keep_local_valid sx symbols : ∀ c : Cl, (keep_local sx c symbols).2 = filter (served sx) symbols.
Proof.
  induction symbols as [|sym symbols IH]; intros c; [done|]. cbn [keep_local].
  assert (Hs : served sx sym ↔ match sx_redirector sx with Some f => f sym | None => "" end = "")
    by (unfold served; by destruct (sx_redirector sx)).
  case_bool_decide as Hb.
  - rewrite filter_cons_True by (by apply Hs). specialize (IH c). destruct (keep_local sx c symbols). cbn in *. by subst.
  - rewrite filter_cons_False by (by rewrite Hs). apply IH.
Qed.

Lemma push_snapshots_same cached : ∀ c c' : Cl, push_snapshots c cached = Ret c' → same_subscription c c'.
Proof.
  induction cached as [|[ce|] cached IH]; intros c c'; [by intros [= <-]| |done]. cbn [push_snapshots].
  intros Hp. etransitivity; [apply sendControl_same|by apply IH].
Qed.

Lemma watcher_same c i done : same_subscription c (watcher_wakes c i done).
Proof.
  unfold watcher_wakes. destruct (wc_watchers c !! i) as [[s cancelled]|]; [|done].
  destruct (cancelled || done); [|done]. unfold clearReplayIfActive. case_bool_decide; [|done].
  etransitivity; [|apply sendControl_same]. done.
Qed.

(** Whose client it is, and whether it is cancelled: no message changes that. *)
Definition owner (c : Cl) : string * bool := (wc_id c, wc_cancelled c).

Lemma ss_owner c c' : same_subscription c c' → owner c' = owner c.
Proof. intros [H1 _ H2]. unfold owner. by rewrite H1, H2. Qed.

Lemma owner_sendControl c msg : owner (sendControl c msg) = owner c.
Proof. apply ss_owner, sendControl_same. Qed.

Lemma owner_drop_handle c (m : M) : owner (drop_handle c m).1 = owner c.
Proof. unfold drop_handle. by destruct (wc_handle c). Qed.

Lemma owner_resubscribe c (m : M) symbols c' m' : resubscribe c m symbols = Ret (c', m') → owner c' = owner c.
Proof. unfold resubscribe. by destruct (mg_Subscribe _ _ _) as [[m1 h]|]; [intros [= <- <-]|]. Qed.

Lemma owner_handleSubscribe sx c (m : M) symbols c' m' : handleSubscribe sx c m symbols = Ret (c', m') → owner c' = owner c.
Proof.
  unfold handleSubscribe. case_match; [intros [= <- <-]; apply owner_sendControl|].
  case_match; [intros [= <- <-]; apply owner_sendControl|].
  pose proof (ss_owner _ _ (keep_local_same sx symbols c)) as Hk. destruct (keep_local sx c symbols) as [c1 valid]. cbn [fst] in Hk.
  case_match; [by intros [= <- <-]|]. destruct (resubscribe c1 m valid) as [[c2 m2]|] eqn:Hr; [|done].
  apply owner_resubscribe in Hr. set (msg := mkServerMessage _ _). pose proof (owner_sendControl c2 msg) as Hc.
  destruct (sx_snap sx) as [snap|]; [|intros [= <- <-]; congruence].
  destruct (push_snapshots _ _) as [c4|] eqn:Hp; [|done]. intros [= <- <-]. apply push_snapshots_same, ss_owner in Hp. congruence.
Qed.

Lemma owner_StartReplay c (m : M) symbol : owner (StartReplay c m symbol).1 = owner c.
Proof.
  unfold StartReplay, setReplay. set (c1 := set_replay _ _ _ _ _ _ _). pose proof (owner_drop_handle c1 m) as Hd.
  destruct (drop_handle c1 m) as [c2 m2]. cbn [fst] in *. set (c3 := set_handle c2 _ _). set (msg := mkServerMessage _ _).
  transitivity (owner (sendControl c3 msg)); [done|]. rewrite owner_sendControl. exact Hd.
Qed.

Lemma handleMessage_owner sx c (m : M) cm pause resume c' m' :
  handleMessage time_Parse sx c m cm pause resume = Ret (c', m') → owner c' = owner c.
Proof.
  unfold handleMessage, report, sendError. repeat case_bool_decide.
  - apply owner_handleSubscribe.
  - unfold handleUnsubscribe. pose proof (owner_drop_handle c m) as Hd. destruct (drop_handle c m) as [c1 m1].
    intros [= <- <-]. rewrite owner_sendControl. exact Hd.
  - intros [= Heq]. replace c' with (handleReplayAction time_Parse sx c m cm).1 by (by rewrite Heq).
    unfold handleReplayAction, sendError. repeat case_match; try apply owner_sendControl. apply owner_StartReplay.
  - intros [= <- <-]. repeat case_match; apply owner_sendControl.
  - intros [= <- <-]. repeat case_match; apply owner_sendControl.
  - intros [= <- <-]. case_match; by rewrite owner_sendControl.
  - unfold handleReconnect, sendError. case_match; [intros [= <- <-]; apply owner_sendControl|].
    case_match; [by intros [= <- <-]|].
    destruct (resubscribe _ _ _) as [[c2 m2]|] eqn:Hr; [|done]. intros [= <- <-]. exact (owner_resubscribe _ _ _ _ _ Hr).
  - intros [= <- <-]. by case_match.
  - intros [= <- <-]. apply owner_sendControl.
Qed.

(** *** The subscription of a client *)

Context `{!LocalManagerLaws M H Ev, !FreshHandle M H Ev}.

(** What the client is subscribed to after a message. *)
Definition replay_accepted (sx : @services E) (cm : ClientMessage) : bool :=
  sx_hasReplay sx && bool_decide (replay_symbol cm ≠ "") &&
  match parse_opt time_Parse (cm_Start cm) with Ok _ => true | Err _ => false end &&
  match parse_opt time_Parse (cm_End cm) with Ok _ => true | Err _ => false end.

Definition want_after (sx : @services E) (w : option (gset string)) (cm : ClientMessage) : option (gset string) :=
  let local := filter (served sx) (cm_Symbols cm) in
  if bool_decide (cm_Action cm = "subscribe") then
    if bool_decide (length (cm_Symbols cm) ≤ 100)%nat && bool_decide (local ≠ []) then Some (list_to_set local) else w
  else if bool_decide (cm_Action cm = "unsubscribe") then None
  else if bool_decide (cm_Action cm = "replay") then if replay_accepted sx cm then None else w
  else if bool_decide (cm_Action cm = "reconnect") then
    if sx_hasWal sx && bool_decide (cm_Symbols cm ≠ []) then Some (list_to_set (cm_Symbols cm)) else w
  else w.

Definition want_input (sx : @services E) (w : option (gset string)) (i : client_input) : option (gset string) :=
  match i with ClMessage cm _ _ => want_after sx w cm | _ => w end.

(** The manager's table holds exactly the client's subscription beside those of others. *)
Record subscribed (c : Cl) (m : M) (T : gmap string (gset string)) (w : option (gset string)) : Prop := {
  sb_table : mg_table m (match w with Some ts => <[wc_id c := ts]> T | None => T end);
  sb_others : T !! wc_id c = None;
  sb_handle : match w with
              | Some _ => ∃ h, wc_handle c = Some h ∧ mg_handle_id h = wc_id c
              | None => wc_handle c = None
              end;
}.

Lemma subscribed_same c c' m T w : same_subscription c c' → subscribed c m T w → subscribed c' m T w.
Proof. intros [Hi Hh _] [H1 H2 H3]. split; by rewrite ?Hi, ?Hh. Qed.

Lemma cancel_table c m T w :
  subscribed c m T w → mg_table (match wc_handle c with Some h => mg_Cancel m h | None => m end) T.
Proof.
  intros [H1 H2 H3]. destruct w as [ts|].
  - destruct H3 as (h & -> & Hid). apply (mg_Cancel_table _ _ h) in H1. rewrite Hid in H1. by rewrite delete_insert_id in H1.
  - by rewrite H3.
Qed.

Lemma resubscribe_ok c m T w symbols c' m' :
  subscribed c m T w → symbols ≠ [] → resubscribe c m symbols = Ret (c', m') →
  subscribed c' m' T (Some (list_to_set symbols)) ∧ wc_id c' = wc_id c ∧ wc_cancelled c' = wc_cancelled c.
Proof.
  intros Hsub Hne. unfold resubscribe. pose proof (cancel_table c m T w Hsub) as Ht.
  destruct (mg_Subscribe _ (wc_id c) symbols) as [[m1 h]|] eqn:Hs; [|done]. intros [= <- <-].
  destruct (mg_Subscribe_fresh _ _ _ _ _ _ Ht (sb_others _ _ _ _ Hsub) Hne Hs) as (h' & -> & Hid).
  apply (mg_Subscribe_table _ _ _ _ _ _ Ht) in Hs. split; [|done]. split; cbn.
  - unfold spec_subscribe in Hs. destruct symbols; [done|]. rewrite (sb_others _ _ _ _ Hsub) in Hs.
    cbn [default] in Hs. by rewrite (right_id_L ∅ (∪)) in Hs.
  - apply Hsub.
  - by exists h'.
Qed.

Lemma drop_handle_ok c m T w :
  subscribed c m T w →
  subscribed (drop_handle c m).1 (drop_handle c m).2 T None ∧ owner (drop_handle c m).1 = owner c.
Proof.
  intros Hsub. pose proof (cancel_table c m T w Hsub) as Ht. unfold drop_handle.
  destruct (wc_handle c) as [h|] eqn:Hh; cbn; (split; [|done]); split; try done; apply Hsub.
Qed.

Lemma StartReplay_ok c m T w symbol :
  subscribed c m T w →
  subscribed (StartReplay c m symbol).1 (StartReplay c m symbol).2 T None ∧
  owner (StartReplay c m symbol).1 = owner c.
Proof.
  intros Hsub. unfold StartReplay, setReplay.
  set (c1 := set_replay (stopReplay c) _ _ _ _ _ _).
  assert (Hs1 : subscribed c1 m T w) by (by apply (subscribed_same c)).
  destruct (drop_handle_ok c1 m T w Hs1) as [Hd Hid].
  destruct (drop_handle c1 m) as [c2 m2]. cbn [fst snd] in *.
  set (c3 := set_handle c2 (wc_handle c2) true).
  set (msg := mkServerMessage "replay_started" (PReplay (wc_sessions (stopReplay c)) symbol)).
  pose proof (sendControl_same c3 msg) as Hc. split.
  - apply (subscribed_same (sendControl c3 msg)); [done|]. apply (subscribed_same c3); [done|].
    by apply (subscribed_same c2).
  - transitivity (owner (sendControl c3 msg)); [done|]. rewrite (ss_owner _ _ Hc). exact Hid.
Qed.

(** A step of the dispatcher for the subscription. *)
Definition tracks (c : Cl) (T : gmap string (gset string)) (w : option (gset string)) (c' : Cl) (m' : M) : Prop :=
  subscribed c' m' T w ∧ owner c' = owner c.

Lemma tracks_same c c' m T w : subscribed c m T w → same_subscription c c' → tracks c T w c' m.
Proof. intros Hs Hc. split; [by apply (subscribed_same c)|by apply ss_owner]. Qed.

Lemma handleSubscribe_ok sx c m T w symbols c' m' :
  subscribed c m T w → handleSubscribe sx c m symbols = Ret (c', m') →
  let local := filter (served sx) symbols in
  tracks c T (if bool_decide (length symbols ≤ 100)%nat && bool_decide (local ≠ []) then Some (list_to_set local) else w)
    c' m'.
Proof.
  intros Hsub. unfold handleSubscribe. destruct symbols as [|sym symbols].
  { intros [= <- <-]. apply (tracks_same c); [exact Hsub|apply sendControl_same]. }
  set (all := sym :: symbols). change (length all =? 0)%nat with false. cbv iota.
  unfold maxSymbolsPerSubscription. destruct (Nat.ltb_spec 100 (length all)) as [Hlt|Hle].
  { intros [= <- <-]. rewrite (bool_decide_eq_false_2 (length all ≤ 100)%nat) by lia.
    apply (tracks_same c); [exact Hsub|apply sendControl_same]. }
  rewrite (bool_decide_eq_true_2 (length all ≤ 100)%nat) by lia. cbn [andb].
  pose proof (keep_local_valid sx all c) as Hv. pose proof (keep_local_same sx all c) as Hk.
  destruct (keep_local sx c all) as [c1 valid]. cbn [fst snd] in Hv, Hk. subst valid.
  pose proof (subscribed_same _ _ _ _ _ Hk Hsub) as Hsub1.
  destruct (filter (served sx) all) as [|v vs] eqn:Hf.
  { intros [= <- <-]. by apply (tracks_same c). }
  change (length (v :: vs) =? 0)%nat with false. cbv iota. rewrite bool_decide_eq_true_2 by done.
  destruct (resubscribe c1 m (v :: vs)) as [[c2 m2]|] eqn:Hr; [|done].
  destruct (resubscribe_ok _ _ _ _ (v :: vs) _ _ Hsub1 ltac:(discriminate) Hr) as (Hs2 & Hid & Hcan).
  set (c3 := sendControl c2 _). assert (Hc3 : same_subscription c2 c3) by apply sendControl_same.
  assert (Hgoal : ∀ c4, same_subscription c3 c4 → tracks c T (Some (list_to_set (v :: vs))) c4 m2).
  { intros c4 H34. assert (H24 : same_subscription c2 c4) by (by etransitivity). split; [by apply (subscribed_same c2)|].
    rewrite (ss_owner _ _ H24), <- (ss_owner _ _ Hk). unfold owner. congruence. }
  destruct (sx_snap sx) as [snap|]; [|by intros [= <- <-]; apply Hgoal].
  destruct (push_snapshots c3 _) as [c4|] eqn:Hp; [|done]. intros [= <- <-]. by apply Hgoal, (push_snapshots_same _ _ _ Hp).
Qed.

Lemma handleReplayAction_ok sx c m T w cm :
  subscribed c m T w →
  tracks c T (if replay_accepted sx cm then None else w)
    (handleReplayAction time_Parse sx c m cm).1 (handleReplayAction time_Parse sx c m cm).2.
Proof.
  intros Hsub. unfold handleReplayAction, replay_accepted. destruct (sx_hasReplay sx); cbn [negb andb];
    [|apply (tracks_same c); [exact Hsub|apply sendControl_same]].
  destruct (decide (replay_symbol cm = "")) as [Hs|Hs].
  { rewrite (bool_decide_eq_true_2 _ Hs), (bool_decide_eq_false_2 (replay_symbol cm ≠ "")) by (intros Hn; by apply Hn).
    apply (tracks_same c); [exact Hsub|apply sendControl_same]. }
  rewrite (bool_decide_eq_false_2 _ Hs), (bool_decide_eq_true_2 _ Hs). cbn [andb].
  destruct (parse_opt time_Parse (cm_Start cm)); [|apply (tracks_same c); [exact Hsub|apply sendControl_same]].
  destruct (parse_opt time_Parse (cm_End cm)); [|apply (tracks_same c); [exact Hsub|apply sendControl_same]].
  cbn [andb]. by apply (StartReplay_ok c m T w).
Qed.

Lemma handleReconnect_ok sx c m T w cm c' m' :
  subscribed c m T w → handleReconnect sx c m cm = Ret (c', m') →
  tracks c T (if sx_hasWal sx && bool_decide (cm_Symbols cm ≠ []) then Some (list_to_set (cm_Symbols cm)) else w) c' m'.
Proof.
  intros Hsub. unfold handleReconnect. destruct (sx_hasWal sx); cbn [negb andb];
    [|by intros [= <- <-]; apply (tracks_same c), sendControl_same].
  set (c1 := set_reconnect c (wc_walRequests c)). assert (Hs1 : subscribed c1 m T w) by (by apply (subscribed_same c)).
  destruct (cm_Symbols cm) as [|s ss]; [by intros [= <- <-]; apply (tracks_same c)|].
  rewrite bool_decide_eq_true_2 by done. change (length (s :: ss) =? 0)%nat with false. cbv iota.
  destruct (resubscribe c1 m (s :: ss)) as [[c2 m2]|] eqn:Hr; [|done]. intros [= <- <-].
  destruct (resubscribe_ok _ _ _ _ (s :: ss) _ _ Hs1 ltac:(discriminate) Hr) as (Hs2 & Hid & Hcan). split.
  - by apply (subscribed_same c2).
  - transitivity (owner c2); [done|]. unfold owner. rewrite Hid, Hcan. done.
Qed.

Lemma client_step_ok sx c m T w i c' m' :
  subscribed c m T w → client_step sx c m i = Ret (c', m') → tracks c T (want_input sx w i) c' m'.
Proof.
  intros Hsub. destruct i as [cm pause resume|i d|]; cbn [client_step want_input].
  2: { intros [= <- <-]. apply (tracks_same c); [done|apply watcher_same]. }
  2: { intros [= <- <-]. by apply (tracks_same c). }
  unfold handleMessage, want_after. generalize (cm_Action cm). intros action.
  destruct (decide (action = "subscribe")) as [->|Hn1]; [by apply handleSubscribe_ok|].
  rewrite !(bool_decide_eq_false_2 _ Hn1). clear Hn1.
  destruct (decide (action = "unsubscribe")) as [->|Hn2].
  { change (Ret (handleUnsubscribe c m) = Ret (c', m') → tracks c T None c' m'). unfold handleUnsubscribe.
    destruct (drop_handle_ok c m T w Hsub) as [Hd Hid].
    destruct (drop_handle c m) as [c1 m1]. intros [= <- <-]. cbn [fst snd] in *.
    set (c2 := set_handle c1 (wc_handle c1) true). set (msg := mkServerMessage _ _).
    pose proof (sendControl_same c2 msg) as Hc. split.
    - apply (subscribed_same c2); [done|]. by apply (subscribed_same c1).
    - transitivity (owner (sendControl c2 msg)); [done|]. rewrite (ss_owner _ _ Hc). exact Hid. }
  rewrite !(bool_decide_eq_false_2 _ Hn2). clear Hn2.
  destruct (decide (action = "replay")) as [->|Hn3].
  { intros [= Heq]. pose proof (handleReplayAction_ok sx c m T w cm Hsub) as Hk. by rewrite Heq in Hk. }
  rewrite !(bool_decide_eq_false_2 _ Hn3). clear Hn3.
  destruct (decide (action = "reconnect")) as [->|Hn4]; [by apply handleReconnect_ok|].
  rewrite !(bool_decide_eq_false_2 _ Hn4). clear Hn4. intros Hret.
  assert (Hs : same_subscription c c' ∧ m' = m); [|destruct Hs as [Hs ->]; by apply (tracks_same c)].
  revert Hret. repeat case_bool_decide; intros [= <- <-]; (split; [|done]); unfold report, sendError.
  - destruct (sx_hasReplay sx); [destruct (ask_session c pause)|]; apply sendControl_same.
  - destruct (sx_hasReplay sx); [destruct (ask_session c resume)|]; apply sendControl_same.
  - destruct (sx_hasReplay sx); [|apply sendControl_same]. etransitivity; [|apply sendControl_same]. done.
  - by destruct (sx_hasHeartbeat sx).
  - apply sendControl_same.
Qed.

(** A client is subscribed to exactly what it last asked for. Over any manager that
    keeps the table of the interface, whatever messages the client sends, its entry in
    the table is the set of symbols of its last accepted subscription or reconnect (a
    subscription keeps the symbols that are served here), or none after it
    unsubscribed or started a replay; the other clients keep theirs; and the
    disconnect removes the entry. *)
Lemma client_subscription_follows_requests sx id (m : M) T is_ c m' :
  mg_table m T → T !! id = None → client_run sx (newClient id) m is_ = Ret (c, m') →
  let w := foldl (want_input sx) None is_ in
  mg_table m' (match w with Some ts => <[id := ts]> T | None => T end) ∧
  (wc_cancelled c = false → mg_table (cancelAll c m').2 T).
Proof.
  intros Ht Hid Hrun w.
  assert (Hall : ∀ is_ (c0 : Cl) (m0 : M) w0 c m', subscribed c0 m0 T w0 → client_run sx c0 m0 is_ = Ret (c, m') →
    tracks c0 T (foldl (want_input sx) w0 is_) c m').
  { clear Hrun w. clear is_ c m'.
    induction is_ as [|i is_ IH]; intros c0 m0 w0 c m' Hs; cbn [client_run foldl]; [by intros [= <- <-]|].
    destruct (client_step sx c0 m0 i) as [[c1 m1]|] eqn:Hst; [|done]. intros Hrun.
    destruct (client_step_ok _ _ _ _ _ _ _ _ Hs Hst) as [Hs1 Hi1].
    destruct (IH _ _ _ _ _ Hs1 Hrun) as [Hs2 Hi2]. split; [done|congruence]. }
  destruct (Hall is_ (newClient id) m None c m') as [Hs Hi]; [by split|done|]. injection Hi as Hi _. cbn in Hi. split.
  - pose proof (sb_table _ _ _ _ Hs) as Htab. by rewrite Hi in Htab.
  - intros Hc. unfold cancelAll. rewrite Hc. cbn. by apply (cancel_table c m' T _ Hs).
Qed.
End runs.

(** ** The end of a replay *)

Section replays.
Context {E : Type} `{!MarketEventOps E}.
Context {M H Ev : Type} `{!LocalManager M H Ev}.
Context (time_Parse : string → result Z string).
#[local] Abbreviation Cl := (@Client E H).

(** A goroutine whose context is cancelled does not watch the active session. *)
Record replay_ok (c : Cl) : Prop := {
  ro_watchers : Forall (λ w : nat * bool, (w.1 < wc_sessions c)%nat ∧ (w.2 = true → wc_activeReplaySession c ≠ Some w.1))
                  (wc_watchers c);
  ro_active : ∀ s, wc_activeReplaySession c = Some s → (s < wc_sessions c)%nat;
}.

Definition same_replay (c c' : Cl) : Prop :=
  wc_watchers c' = wc_watchers c ∧ wc_activeReplaySession c' = wc_activeReplaySession c ∧ wc_sessions c' = wc_sessions c.

Lemma replay_ok_same c c' : same_replay c c' → replay_ok c → replay_ok c'.
Proof. intros (Hw & Ha & Hs) [H1 H2]. split; by rewrite ?Hw, ?Ha, ?Hs. Qed.

Lemma sendControl_replay c m : same_replay c (sendControl c m).
Proof. unfold sendControl. by case_match. Qed.

#[local] Instance same_replay_preorder : PreOrder same_replay.
Proof. split; [done|]. intros c1 c2 c3 (? & ? & ?) (? & ? & ?). split_and!; congruence. Qed.

Lemma keep_local_replay sx symbols : ∀ c : Cl, same_replay c (keep_local sx c symbols).1.
Proof.
  induction symbols as [|sym symbols IH]; intros c; [done|]. cbn [keep_local]. case_bool_decide.
  - specialize (IH c). by destruct (keep_local sx c symbols).
  - etransitivity; [apply sendControl_replay|apply IH].
Qed.

Lemma push_snapshots_replay cached : ∀ c c' : Cl, push_snapshots c cached = Ret c' → same_replay c c'.
Proof.
  induction cached as [|[ce|] cached IH]; intros c c'; [by intros [= <-]| |done]. cbn [push_snapshots].
  intros Hp. etransitivity; [apply sendControl_replay|by apply IH].
Qed.

Lemma resubscribe_replay c (m : M) symbols c' m' : resubscribe c m symbols = Ret (c', m') → same_replay c c'.
Proof. unfold resubscribe. by destruct (mg_Subscribe _ _ _) as [[m1 h]|]; [intros [= <- <-]|]. Qed.

Lemma handleSubscribe_replay sx c (m : M) symbols c' m' :
  handleSubscribe sx c m symbols = Ret (c', m') → same_replay c c'.
Proof.
  unfold handleSubscribe. case_match; [intros [= <- <-]; apply sendControl_replay|].
  case_match; [intros [= <- <-]; apply sendControl_replay|].
  pose proof (keep_local_replay sx symbols c) as Hk. destruct (keep_local sx c symbols) as [c1 valid]. cbn [fst] in Hk.
  case_match; [by intros [= <- <-]|]. destruct (resubscribe c1 m valid) as [[c2 m2]|] eqn:Hr; [|done].
  apply resubscribe_replay in Hr. set (msg := mkServerMessage _ _). pose proof (sendControl_replay c2 msg) as Hc.
  destruct (sx_snap sx) as [snap|]; [|intros [= <- <-]; by repeat (etransitivity; [eassumption|])].
  destruct (push_snapshots _ _) as [c4|] eqn:Hp; [|done]. intros [= <- <-]. apply push_snapshots_replay in Hp.
  by repeat (etransitivity; [eassumption|]).
Qed.

Lemma stopReplay_ok c : replay_ok c → replay_ok (stopReplay c) ∧ wc_activeReplaySession (stopReplay c) = None.
Proof.
  intros [Hw Ha]. split; [|done]. split; cbn; [|done].
  destruct (wc_activeReplaySession c) as [s|]; [apply Forall_fmap|];
    (eapply Forall_impl; [exact Hw|]); intros w [H1 _]; (split; [|done]); [|done]. cbn. by case_match.
Qed.

Lemma StartReplay_replay c (m : M) symbol : replay_ok c → replay_ok (StartReplay c m symbol).1.
Proof.
  intros Hok. destruct (stopReplay_ok c Hok) as [[Hw Ha] _]. unfold StartReplay, setReplay.
  set (c0 := stopReplay c) in *. set (c1 := set_replay c0 _ _ _ _ _ _).
  assert (H1 : same_replay c1 (drop_handle c1 m).1) by (unfold drop_handle; by destruct (wc_handle c1)).
  destruct (drop_handle c1 m) as [c2 m2]. cbn [fst] in *. set (c3 := set_handle c2 _ _).
  set (msg := mkServerMessage _ _). pose proof (sendControl_replay c3 msg) as (Hc1 & Hc2 & _).
  destruct H1 as (Hx1 & Hx2 & _).
  assert (Hact : wc_activeReplaySession (sendControl c3 msg) = Some (wc_sessions c0)) by (rewrite Hc2; exact Hx2).
  assert (Hwat : wc_watchers (sendControl c3 msg) = wc_watchers c0) by (rewrite Hc1; exact Hx1).
  split.
  - change (Forall (λ w : nat * bool, (w.1 < S (wc_sessions c0))%nat ∧
      (w.2 = true → wc_activeReplaySession (sendControl c3 msg) ≠ Some w.1))
      (wc_watchers (sendControl c3 msg) ++ [(wc_sessions c0, false)])).
    rewrite Hact, Hwat. apply Forall_app. split; [|by repeat constructor].
    eapply Forall_impl; [exact Hw|]. intros w [Hlt _]. split; [lia|]. intros _ Heq.
    assert (w.1 = wc_sessions c0) by congruence. lia.
  - change (∀ s, wc_activeReplaySession (sendControl c3 msg) = Some s → (s < S (wc_sessions c0))%nat).
    rewrite Hact. intros s Heq. assert (s = wc_sessions c0) by congruence. lia.
Qed.

Lemma wake_open c i : replay_ok c →
  wc_control (watcher_wakes c i false) = wc_control c ∧
  wc_activeReplaySession (watcher_wakes c i false) = wc_activeReplaySession c ∧ replay_ok (watcher_wakes c i false).
Proof.
  intros Hok. pose proof Hok as [Hw Ha]. unfold watcher_wakes. destruct (wc_watchers c !! i) as [[s cancelled]|] eqn:Hi; [|done].
  destruct cancelled; [|done]. cbn [orb]. unfold clearReplayIfActive. cbn [wc_activeReplaySession set_replay].
  destruct (Forall_lookup_1 _ _ _ _ Hw Hi) as [_ Hne]. rewrite bool_decide_eq_false_2 by (by apply Hne).
  split_and!; [done|done|]. split; cbn; [|done]. by apply Forall_delete.
Qed.

Definition connection_open (i : client_input) : Prop := match i with ClWake _ d => d = false | _ => True end.

Lemma client_step_replay sx c (m : M) i c' m' :
  connection_open i → replay_ok c → client_step time_Parse sx c m i = Ret (c', m') → replay_ok c'.
Proof.
  intros Hi Hok. destruct i as [cm pause resume|i d|]; cbn [client_step connection_open] in *.
  2: { subst d. intros [= <- <-]. by apply wake_open. }
  2: { intros [= <- <-]. by apply (replay_ok_same c). }
  pose proof (λ c0 m0 (H : replay_ok c0), replay_ok_same _ _ (sendControl_replay c0 m0) H) as Hsend.
  unfold handleMessage. repeat case_bool_decide.
  - intros Hs%handleSubscribe_replay. by apply (replay_ok_same c).
  - unfold handleUnsubscribe, drop_handle. destruct (wc_handle c); intros [= <- <-]; apply Hsend;
      by apply (replay_ok_same c).
  - intros [= Heq]. replace c' with (handleReplayAction time_Parse sx c m cm).1 by (by rewrite Heq).
    unfold handleReplayAction. repeat case_match; try by apply Hsend. by apply StartReplay_replay.
  - intros [= <- <-]. unfold report. repeat case_match; by apply Hsend.
  - intros [= <- <-]. unfold report. repeat case_match; by apply Hsend.
  - intros [= <- <-]. case_match; apply Hsend; [by apply stopReplay_ok|done].
  - unfold handleReconnect. case_match; [intros [= <- <-]; by apply Hsend|]. case_match; [intros [= <- <-]; by apply (replay_ok_same c)|].
    destruct (resubscribe _ _ _) as [[c2 m2]|] eqn:Hr; [|done]. intros [= <- <-].
    apply (replay_ok_same c2); [done|]. apply resubscribe_replay in Hr. by apply (replay_ok_same _ _ Hr), (replay_ok_same c).
  - intros [= <- <-]. case_match; by apply (replay_ok_same c).
  - intros [= <- <-]. by apply Hsend.
Qed.

(** The end of a replay is not announced. The goroutine that should report the
    completion waits for the replay's own context, which only a stop or a new replay
    cancels, and these forget the session first: while the connection is open it
    never sends replay_completed and never clears the session, so that a session,
    once started, counts as active until the client stops or replaces it, and a
    graceful shutdown waits for it until its deadline. *)
Lemma replay_end_is_not_announced sx id (m : M) is_ (c : Cl) m' :
  Forall connection_open is_ → client_run time_Parse sx (newClient id) m is_ = Ret (c, m') →
  (∀ i, wc_control (watcher_wakes c i false) = wc_control c ∧
        wc_activeReplaySession (watcher_wakes c i false) = wc_activeReplaySession c) ∧
  (is_Some (wc_activeReplaySession c) → shutdown_ready c = false).
Proof.
  intros Hopen Hrun. assert (Hok : replay_ok c).
  { assert (H0 : replay_ok (newClient (E := E) (H := H) id)) by (by split).
    revert H0 Hrun. generalize (newClient (E := E) (H := H) id) m. clear m.
    induction Hopen as [|i is_ Hi _ IH]; intros c0 m0 H0; cbn [client_run]; [by intros [= <- <-]|].
    destruct (client_step time_Parse sx c0 m0 i) as [[c1 m1]|] eqn:Hs; [|done].
    apply IH. by eapply client_step_replay. }
  split; [intros i; destruct (wake_open c i Hok) as (? & ? & _); done|].
  intros [s Hs]. unfold shutdown_ready. by rewrite Hs.
Qed.

(** A subscription after the heartbeat's [cancelAll] outlives the client: the second
    call does nothing. *)
Lemma cancelled_client_leaks (c : Cl) (m : M) : wc_cancelled c = true → (cancelAll c m).2 = m.
Proof. intros Hc. unfold cancelAll. by rewrite Hc. Qed.
End replays.

(** ** A session of a client *)

Definition client_msg (action : string) (symbols : list string) : ClientMessage :=
  mkClientMessage action symbols "" "" "" f64_zero ∅ 0 0.
Definition demo_services : @services (string * Z) :=
  mkServices (Some (λ sym, if bool_decide (sym = "MSFT") then "ws://b/ws" else "")) None true true true.
Definition demo_parse (text : string) : result Z string := Err "bad time".
Definition demo_inputs : list client_input :=
  [ClMessage (client_msg "subscribe" ["AAPL"; "MSFT"]) None None;
   ClMessage (client_msg "replay" ["TSLA"]) None None; ClWake 0 false; ClTake;
   ClMessage (client_msg "subscribe" ["IBM"; "AAPL"; "MSFT"]) None None].
Definition demo_run : outcome (@Client (string * Z) handle * MemoryManager (list string) (string * Z)) :=
  client_run demo_parse demo_services (newClient "carol") tm_empty demo_inputs.
Definition demo_final : @Client (string * Z) handle * MemoryManager (list string) (string * Z) :=
  match demo_run with Ret r => r | Panic => (newClient "", tm_empty) end.

Lemma client_subscription_follows_requests_witness :
  mg_table demo_final.2 (<["carol" := {["IBM"; "AAPL"]}]> ∅) ∧ mg_table (cancelAll demo_final.1 demo_final.2).2 ∅.
Proof.
  assert (Hrun : demo_run = Ret (demo_final.1, demo_final.2)) by (vm_compute; reflexivity).
  destruct (client_subscription_follows_requests demo_parse demo_services "carol" tm_empty ∅ demo_inputs
    demo_final.1 demo_final.2 tm_empty_table eq_refl Hrun) as [H1 H2].
  assert (Hw : foldl (want_input demo_parse demo_services) None demo_inputs = Some {["IBM"; "AAPL"]})
    by (vm_compute; reflexivity).
  rewrite Hw in H1. split; [exact H1|]. apply H2. vm_compute. reflexivity.
Defined.

Lemma replay_end_is_not_announced_witness :
  wc_activeReplaySession demo_final.1 = Some 0%nat ∧ shutdown_ready demo_final.1 = false.
Proof.
  assert (Hrun : demo_run = Ret (demo_final.1, demo_final.2)) by (vm_compute; reflexivity).
  assert (Hopen : Forall connection_open demo_inputs) by (repeat constructor).
  destruct (replay_end_is_not_announced demo_parse demo_services "carol" tm_empty demo_inputs demo_final.1 demo_final.2
    Hopen Hrun) as [_ H]. split; [vm_compute; reflexivity|]. apply H. vm_compute. by eexists.
Defined.

(** ** What a reconnect sends again

    A client reports the highest number it has received of each symbol; the log is
    read from the lowest of them on. A symbol that is further than the lowest gets its
    last event once more. *)
Lemma reconnect_resends_received :
  let resume : gmap string Z := {[ "AAPL" := 5; "IBM" := 9 ]} in
  let logged := [pump_msg "AAPL" 6; pump_msg "IBM" 9; pump_msg "IBM" 10] in
  min_resume resume + 1 = 6 ∧
  so_out (pm_sock (pump_run pump_seq (λ _ _, None) pump_marshal (mkPump FormatJSON (mkSocket [] None) [] false false)
    [InStartReconnect; InReconnect (Ok logged) resume])) =
  FMessage (mkServerMessage "reconnected" (PText "success")) ::
    (FBytes ∘ history_bytes pump_marshal FormatJSON <$> logged).
Proof. vm_compute. done. Qed.

(** The same happens with the event that the socket delivered last: held back and
    numbered as the client's own, it is sent. *)
Lemma reconnect_resends_live :
  so_out (pm_sock (pump_run pump_seq (λ _ _, None) pump_marshal (mkPump FormatJSON (mkSocket [] None) [] false false)
    [InStartReconnect; InEvent (Some (pump_cached "AAPL" 5)); InReconnect (Ok []) {[ "AAPL" := 5 ]}])) =
  [FMessage (mkServerMessage "reconnected" (PText "success")); FBytes (ce_JSON (pump_cached "AAPL" 5))].
Proof. vm_compute. done. Qed.
