(* ===== verification/Heartbeat.v ===== *)
(** * Heartbeat: finding clients that have gone silent

    [internal/websocket/heartbeat.go]: the shared table of heartbeats, which pings
    every client at an interval and drops those that leave pings unanswered. Time is
    in nanoseconds; a ping that was not sent is the zero time, as in the code. The
    callbacks of an entry are the client's identifier in the lists that
    [broadcastPings] and [checkTimeouts] return. *)

From Stdlib Require Import Strings.Byte.
From S2P Require Import Prelude Bytes Sharded.

Definition DefaultPingInterval : Z := 30 * Second.
Definition DefaultMissedHeartbeats : Z := 3.
Definition defaultCleanupInterval : Z := 10 * Second.
Definition heartbeatShards : nat := 32.

Definition hashString (s : string) : nat :=
  Z.to_nat (fnv1a32 (bytes_of_string s) mod Z.of_nat heartbeatShards).

Record heartbeatEntry := mkEntry { he_lastPong : Z; he_pingSentAt : Z }.

Record HeartbeatManager := mkHM {
  hm_shards : list (gmap string heartbeatEntry);
  hm_pingInterval : Z;
  hm_missedHeartbeats : Z;
  hm_pongTimeout : Z;
  hm_cleanupInterval : Z;
  hm_stopped : bool;
}.

Definition NewHeartbeatManager (pingInterval missedHeartbeats : Z) : HeartbeatManager :=
  let pingInterval := if pingInterval <=? 0 then DefaultPingInterval else pingInterval in
  let missedHeartbeats := if missedHeartbeats <=? 0 then DefaultMissedHeartbeats else missedHeartbeats in
  mkHM (replicate heartbeatShards ∅) pingInterval missedHeartbeats (i64 (pingInterval * missedHeartbeats))
    defaultCleanupInterval false.

Definition set_shards (hm : HeartbeatManager) (ss : list (gmap string heartbeatEntry)) : HeartbeatManager :=
  mkHM ss (hm_pingInterval hm) (hm_missedHeartbeats hm) (hm_pongTimeout hm) (hm_cleanupInterval hm) (hm_stopped hm).

Definition hm_shard (hm : HeartbeatManager) (id : string) : gmap string heartbeatEntry :=
  default ∅ (hm_shards hm !! hashString id).

Definition update_shard (hm : HeartbeatManager) (id : string) (sh : gmap string heartbeatEntry) : HeartbeatManager :=
  set_shards hm (<[hashString id := sh]> (hm_shards hm)).

Definition HM_Register (hm : HeartbeatManager) (id : string) (now : Z) : HeartbeatManager :=
  update_shard hm id (<[id := mkEntry now zero_time]> (hm_shard hm id)).

Definition HM_Unregister (hm : HeartbeatManager) (id : string) : HeartbeatManager :=
  update_shard hm id (delete id (hm_shard hm id)).

(** [if entry.pingSentAt.IsZero() { entry.pingSentAt = time.Now() }]. *)
Definition note_ping (now : Z) (e : heartbeatEntry) : heartbeatEntry :=
  if he_pingSentAt e =? zero_time then mkEntry (he_lastPong e) now else e.

(** The shards in turn; the clients whose ping callback is called, in that order. *)
Definition broadcastPings (hm : HeartbeatManager) (now : Z) : HeartbeatManager * list string :=
  (set_shards hm ((λ sh : gmap string heartbeatEntry, note_ping now <$> sh) <$> hm_shards hm),
   concat ((λ sh : gmap string heartbeatEntry, (map_to_list sh).*1) <$> hm_shards hm)).

Definition HM_RecordPing (hm : HeartbeatManager) (id : string) (now : Z) : HeartbeatManager :=
  match hm_shard hm id !! id with
  | Some e => update_shard hm id (<[id := note_ping now e]> (hm_shard hm id))
  | None => hm
  end.

Definition HM_RecordPong (hm : HeartbeatManager) (id : string) (now : Z) : HeartbeatManager :=
  match hm_shard hm id !! id with
  | Some e =>
      update_shard hm id
        (<[id := mkEntry now (if he_pingSentAt e =? zero_time then he_pingSentAt e else zero_time)]> (hm_shard hm id))
  | None => hm
  end.

Definition timed_out (timeout now : Z) (e : heartbeatEntry) : bool :=
  negb (he_pingSentAt e =? zero_time) && (timeout <? time_sub now (he_lastPong e)).

(** The clients whose timeout callback is called. *)
Definition checkTimeouts (hm : HeartbeatManager) (now : Z) : list string :=
  concat ((λ sh : gmap string heartbeatEntry,
             (filter (λ x : string * heartbeatEntry, timed_out (hm_pongTimeout hm) now x.2 = true) (map_to_list sh)).*1)
          <$> hm_shards hm).

(** The channel is closed; closing it twice panics. *)
Definition HM_Stop (hm : HeartbeatManager) : outcome HeartbeatManager :=
  if hm_stopped hm then Panic
  else Ret (mkHM (hm_shards hm) (hm_pingInterval hm) (hm_missedHeartbeats hm) (hm_pongTimeout hm)
              (hm_cleanupInterval hm) true).

Definition HM_ClientCount (hm : HeartbeatManager) : nat := sum_list (size <$> hm_shards hm).

(** ** The table *)

Lemma hashString_lt id : (hashString id < heartbeatShards)%nat.
Proof.
  unfold hashString. pose proof (Z.mod_pos_bound (fnv1a32 (bytes_of_string id)) 32 ltac:(lia)).
  unfold heartbeatShards in *. lia.
Qed.
#[export] Hint Resolve hashString_lt : core.

(** [hb_ok hm f]: the shards hold [f]. *)
Definition hb_ok (hm : HeartbeatManager) (f : gmap string heartbeatEntry) : Prop :=
  flat heartbeatShards hashString (hm_shards hm) f.

Lemma NewHeartbeatManager_ok interval missed : hb_ok (NewHeartbeatManager interval missed) ∅.
Proof. by apply flat_empty. Qed.

Lemma hm_shard_ok hm f id :
  hb_ok hm f → hm_shards hm !! hashString id = Some (hm_shard hm id) ∧ hm_shard hm id !! id = f !! id.
Proof.
  intros H. destruct (flat_shard _ _ hashString_lt _ _ id H) as (sh & Hsh & Hid). unfold hm_shard. by rewrite Hsh.
Qed.

Lemma update_shard_insert hm f id e :
  hb_ok hm f → hb_ok (update_shard hm id (<[id := e]> (hm_shard hm id))) (<[id := e]> f).
Proof. intros H. apply flat_insert; [done|done|]. by apply (hm_shard_ok hm f). Qed.

Lemma HM_Register_ok hm f id now : hb_ok hm f → hb_ok (HM_Register hm id now) (<[id := mkEntry now zero_time]> f).
Proof. apply update_shard_insert. Qed.

Lemma HM_Unregister_ok hm f id : hb_ok hm f → hb_ok (HM_Unregister hm id) (delete id f).
Proof. intros H. apply flat_delete; [done|done|]. by apply (hm_shard_ok hm f). Qed.

(** A walk of the shards that takes something of every entry. *)
Lemma walk_shards {B} (g : list (string * heartbeatEntry) → list B) (ss : list (gmap string heartbeatEntry)) :
  g [] = [] → (∀ l1 l2, g (l1 ++ l2) = g l1 ++ g l2) →
  concat ((λ sh : gmap string heartbeatEntry, g (map_to_list sh)) <$> ss) = g (concat (map_to_list <$> ss)).
Proof. intros H0 Happ. induction ss as [|sh ss IH]; [done|]. rewrite !fmap_cons, !concat_cons, Happ. by rewrite IH. Qed.

Lemma broadcastPings_ok hm f now :
  hb_ok hm f →
  hb_ok (broadcastPings hm now).1 (note_ping now <$> f) ∧
  (broadcastPings hm now).2 ≡ₚ (map_to_list f).*1.
Proof.
  intros H. split; [by apply flat_fmap|]. cbn [broadcastPings snd].
  rewrite (walk_shards (fmap fst)); [|done|by intros; apply fmap_app]. by rewrite (flat_to_list _ _ hashString_lt _ _ H).
Qed.

Lemma alter_entry (g : heartbeatEntry → heartbeatEntry) id (f : gmap string heartbeatEntry) :
  alter g id f = match f !! id with Some e => <[id := g e]> f | None => f end.
Proof.
  apply map_eq. intros k. destruct (decide (k = id)) as [->|Hne].
  - rewrite lookup_alter_eq. destruct (f !! id) eqn:He; [by rewrite lookup_insert_eq|by rewrite He].
  - rewrite lookup_alter_ne by done. destruct (f !! id); [by rewrite lookup_insert_ne|done].
Qed.

Lemma HM_RecordPing_ok hm f id now : hb_ok hm f → hb_ok (HM_RecordPing hm id now) (alter (note_ping now) id f).
Proof.
  intros H. destruct (hm_shard_ok hm f id H) as [_ Hid]. unfold HM_RecordPing. rewrite Hid, alter_entry.
  destruct (f !! id); [by apply update_shard_insert|done].
Qed.

Lemma HM_RecordPong_ok hm f id now :
  hb_ok hm f → hb_ok (HM_RecordPong hm id now) (alter (λ _, mkEntry now zero_time) id f).
Proof.
  intros H. destruct (hm_shard_ok hm f id H) as [_ Hid]. unfold HM_RecordPong. rewrite Hid, alter_entry.
  destruct (f !! id) as [e|]; [|done].
  replace (if _ =? _ then _ else _) with zero_time; [by apply update_shard_insert|].
  by destruct (Z.eqb_spec (he_pingSentAt e) zero_time).
Qed.

Lemma checkTimeouts_ok hm f now :
  hb_ok hm f →
  checkTimeouts hm now ≡ₚ
    (filter (λ x : string * heartbeatEntry, timed_out (hm_pongTimeout hm) now x.2 = true) (map_to_list f)).*1.
Proof.
  intros H. unfold checkTimeouts.
  rewrite (walk_shards (λ l, (filter (λ x : string * heartbeatEntry, timed_out (hm_pongTimeout hm) now x.2 = true) l).*1));
    [|done|by intros; rewrite filter_app, fmap_app]. by rewrite (flat_to_list _ _ hashString_lt _ _ H).
Qed.

(** ** What the table knows of a client *)

Inductive hb_op :=
| HbRegister (id : string) (now : Z)
| HbUnregister (id : string)
| HbPings (now : Z)
| HbPing (id : string) (now : Z)
| HbPong (id : string) (now : Z).

Definition hb_exec (hm : HeartbeatManager) (op : hb_op) : HeartbeatManager :=
  match op with
  | HbRegister id now => HM_Register hm id now
  | HbUnregister id => HM_Unregister hm id
  | HbPings now => (broadcastPings hm now).1
  | HbPing id now => HM_RecordPing hm id now
  | HbPong id now => HM_RecordPong hm id now
  end.

Definition hb_run (hm : HeartbeatManager) (ops : list hb_op) : HeartbeatManager := foldl hb_exec hm ops.

(** When the client was last heard of. *)
Definition heard (id : string) (op : hb_op) : option Z :=
  match op with
  | HbRegister id' t | HbPong id' t => if bool_decide (id' = id) then Some t else None
  | _ => None
  end.
(** A ping to the client, at a clock reading that is not the zero time. *)
Definition pings (id : string) (op : hb_op) : Prop :=
  match op with HbPings t => t ≠ zero_time | HbPing id' t => id' = id ∧ t ≠ zero_time | _ => False end.
Definition leaves (id : string) (op : hb_op) : Prop := op = HbUnregister id.

(** The client is registered. *)
Definition connected (id : string) (ops : list hb_op) : Prop :=
  ∃ pre t post, ops = pre ++ HbRegister id t :: post ∧ Forall (λ op, ¬ leaves id op) post.
(** The client was last heard of at [t]; a ping since then is unanswered. *)
Definition last_heard (id : string) (ops : list hb_op) (t : Z) : Prop :=
  ∃ pre op post, ops = pre ++ op :: post ∧ heard id op = Some t ∧ Forall (λ op, heard id op = None) post.
Definition silent_since (id : string) (ops : list hb_op) (t : Z) : Prop :=
  ∃ pre op post, ops = pre ++ op :: post ∧ heard id op = Some t ∧ Forall (λ op, heard id op = None) post ∧
    Exists (pings id) post.

(** The same, one operation at a time. *)
Definition track (id : string) (s : option (Z * bool)) (op : hb_op) : option (Z * bool) :=
  match op with
  | HbRegister id' t => if bool_decide (id' = id) then Some (t, false) else s
  | HbUnregister id' => if bool_decide (id' = id) then None else s
  | HbPings t => (λ x, (x.1, x.2 || negb (t =? zero_time))) <$> s
  | HbPing id' t => if bool_decide (id' = id) then (λ x, (x.1, x.2 || negb (t =? zero_time))) <$> s else s
  | HbPong id' t => if bool_decide (id' = id) then (λ _, (t, false)) <$> s else s
  end.

Definition entry_of (e : heartbeatEntry) : Z * bool := (he_lastPong e, negb (he_pingSentAt e =? zero_time)).

Lemma entry_of_ping t e : entry_of (note_ping t e) = ((entry_of e).1, (entry_of e).2 || negb (t =? zero_time)).
Proof. unfold entry_of, note_ping. cbn. destruct (Z.eqb_spec (he_pingSentAt e) zero_time) as [Hz|Hz]; cbn; [done|].
  by rewrite (proj2 (Z.eqb_neq _ _) Hz). Qed.

Lemma hb_exec_ok hm f op :
  hb_ok hm f → ∃ f', hb_ok (hb_exec hm op) f' ∧ (∀ id, entry_of <$> f' !! id = track id (entry_of <$> f !! id) op).
Proof.
  intros H. destruct op as [id t|id|t|id t|id t]; cbn [hb_exec].
  - exists (<[id := mkEntry t zero_time]> f). split; [by apply HM_Register_ok|]. intros k. cbn [track]. case_bool_decide; subst.
    + by rewrite lookup_insert_eq.
    + by rewrite lookup_insert_ne.
  - exists (delete id f). split; [by apply HM_Unregister_ok|]. intros k. cbn [track]. case_bool_decide; subst.
    + by rewrite lookup_delete_eq.
    + by rewrite lookup_delete_ne.
  - exists (note_ping t <$> f). split; [by apply broadcastPings_ok|]. intros k. cbn [track]. rewrite lookup_fmap.
    destruct (f !! k) as [e|]; [|done]. cbn [fmap option_fmap option_map]. by rewrite entry_of_ping.
  - exists (alter (note_ping t) id f). split; [by apply HM_RecordPing_ok|]. intros k. cbn [track]. case_bool_decide; subst.
    + rewrite lookup_alter_eq. destruct (f !! k) as [e|]; [|done]. cbn [fmap option_fmap option_map]. by rewrite entry_of_ping.
    + by rewrite lookup_alter_ne.
  - exists (alter (λ _, mkEntry t zero_time) id f). split; [by apply HM_RecordPong_ok|]. intros k. cbn [track].
    case_bool_decide; subst.
    + rewrite lookup_alter_eq. by destruct (f !! k).
    + by rewrite lookup_alter_ne.
Qed.

Lemma hb_run_ok hm f ops :
  hb_ok hm f →
  ∃ f', hb_ok (hb_run hm ops) f' ∧ ∀ id, entry_of <$> f' !! id = foldl (track id) (entry_of <$> f !! id) ops.
Proof.
  revert hm f. induction ops as [|op ops IH]; intros hm f H; [by exists f|].
  destruct (hb_exec_ok hm f op H) as (f1 & H1 & Hf1). destruct (IH _ _ H1) as (f2 & H2 & Hf2).
  exists f2. split; [exact H2|]. intros id. cbn [foldl]. by rewrite Hf2, Hf1.
Qed.

Lemma hb_run_timeout hm ops : hm_pongTimeout (hb_run hm ops) = hm_pongTimeout hm.
Proof.
  revert hm. induction ops as [|op ops IH]; intros hm; [done|]. unfold hb_run. cbn [foldl]. fold (hb_run (hb_exec hm op) ops).
  rewrite IH. destruct op; cbn; try done; unfold HM_RecordPing, HM_RecordPong; by case_match.
Qed.

(** *** Histories, from the last operation backwards *)

Lemma snoc_split {A} (l pre post : list A) x y :
  l ++ [x] = pre ++ y :: post → (post = [] ∧ l = pre ∧ x = y) ∨ ∃ post', post = post' ++ [x] ∧ l = pre ++ y :: post'.
Proof.
  destruct post as [|z post _] using rev_ind; intros Heq.
  - left. apply app_inj_tail in Heq as [-> ->]. done.
  - right. exists post. rewrite app_comm_cons, app_assoc in Heq. apply app_inj_tail in Heq as [-> ->]. done.
Qed.

Lemma connected_snoc id ops op :
  connected id (ops ++ [op]) ↔ (∃ t, op = HbRegister id t) ∨ (connected id ops ∧ ¬ leaves id op).
Proof.
  split.
  - intros (pre & t & post & Heq & Hp). apply snoc_split in Heq as [(-> & -> & ->)|(post' & -> & ->)]; [left; by eexists|].
    right. apply Forall_app in Hp as [Hp Hop]. split; [by exists pre, t, post'|]. by inversion Hop.
  - intros [[t ->]|[(pre & t & post & -> & Hp) Hop]]; [exists ops, t, []; done|].
    exists pre, t, (post ++ [op]). rewrite <- app_assoc. split; [done|]. apply Forall_app. by repeat constructor.
Qed.

Lemma last_heard_snoc id ops op t :
  last_heard id (ops ++ [op]) t ↔ heard id op = Some t ∨ (heard id op = None ∧ last_heard id ops t).
Proof.
  split.
  - intros (pre & x & post & Heq & Hx & Hp). apply snoc_split in Heq as [(-> & -> & ->)|(post' & -> & ->)]; [by left|].
    right. apply Forall_app in Hp as [Hp Hop]. split; [by inversion Hop|]. by exists pre, x, post'.
  - intros [Hx|[Hop (pre & x & post & -> & Hx & Hp)]]; [exists ops, op, []; done|].
    exists pre, x, (post ++ [op]). rewrite <- app_assoc. split_and!; [done|done|]. apply Forall_app. by repeat constructor.
Qed.

Lemma silent_since_snoc id ops op t :
  silent_since id (ops ++ [op]) t ↔
    heard id op = None ∧ (silent_since id ops t ∨ (last_heard id ops t ∧ pings id op)).
Proof.
  split.
  - intros (pre & x & post & Heq & Hx & Hp & He). apply snoc_split in Heq as [(-> & _ & _)|(post' & -> & ->)]; [inversion He|].
    apply Forall_app in Hp as [Hp Hop]. split; [by inversion Hop|]. apply Exists_app in He as [He|He].
    + left. by exists pre, x, post'.
    + right. split; [by exists pre, x, post'|]. by inversion He as [? ? Hy|? ? Hy]; [|inversion Hy].
  - intros [Hop [(pre & x & post & -> & Hx & Hp & He)|[(pre & x & post & -> & Hx & Hp) Hping]]];
      exists pre, x, (post ++ [op]); rewrite <- app_assoc; (split_and!; [done|done|apply Forall_app; by repeat constructor|]);
      apply Exists_app; [by left|right; by left].
Qed.

Lemma last_heard_unique id ops t t' : last_heard id ops t → last_heard id ops t' → t = t'.
Proof.
  revert t t'. induction ops as [|op ops IH] using rev_ind; intros t t'; [by intros (pre & ? & ? & H & _); destruct pre|].
  rewrite !last_heard_snoc. intros [H|[H Hl]] [H'|[H' Hl']]; try congruence. by apply IH.
Qed.

Lemma silent_last_heard id ops t : silent_since id ops t → last_heard id ops t.
Proof. intros (pre & x & post & H1 & H2 & H3 & _). by exists pre, x, post. Qed.

(** What holds of a client after a history: [s] is what the operations have left. *)
Definition history_ok (id : string) (ops : list hb_op) (s : option (Z * bool)) : Prop :=
  match s with
  | Some (t, b) => connected id ops ∧ last_heard id ops t ∧ (b = true ↔ silent_since id ops t)
  | None => ¬ connected id ops
  end.

(** An operation that is neither news of the client nor its leaving. *)
Lemma history_keep id ops op s (p : bool) :
  heard id op = None → ¬ leaves id op → (p = true ↔ pings id op) → history_ok id ops s →
  history_ok id (ops ++ [op]) ((λ x, (x.1, x.2 || p)) <$> s).
Proof.
  intros Hh Hl Hp. assert (Hreg : ∀ t, op ≠ HbRegister id t).
  { intros t ->. cbn in Hh. by rewrite bool_decide_eq_true_2 in Hh. }
  destruct s as [[t b]|]; cbn.
  - intros (Hc & Hlast & Hb). rewrite connected_snoc, last_heard_snoc, silent_since_snoc, orb_true_iff, Hb, Hp. naive_solver.
  - rewrite connected_snoc. naive_solver.
Qed.

(** News of the client. *)
Lemma history_heard id ops op t :
  heard id op = Some t → connected id (ops ++ [op]) → history_ok id (ops ++ [op]) (Some (t, false)).
Proof.
  intros Hh Hc. split_and!; [done|apply last_heard_snoc; by left|]. rewrite silent_since_snoc, Hh. naive_solver.
Qed.

Lemma history_other id ops op s :
  heard id op = None → ¬ leaves id op → ¬ pings id op → history_ok id ops s → history_ok id (ops ++ [op]) s.
Proof.
  intros Hh Hl Hp Hs. replace s with ((λ x : Z * bool, (x.1, x.2 || false)) <$> s); [apply history_keep; [done|done|naive_solver|done]|].
  destruct s as [[t b]|]; [|done]. cbn. by rewrite orb_false_r.
Qed.

Lemma track_history id ops : history_ok id ops (foldl (track id) None ops).
Proof.
  induction ops as [|op ops IH] using rev_ind; [by intros (pre & ? & ? & H & _); destruct pre|].
  rewrite foldl_app. cbn [foldl]. set (s := foldl (track id) None ops) in *. clearbody s.
  assert (Hz : ∀ t, negb (t =? zero_time) = true ↔ t ≠ zero_time).
  { intros t. destruct (Z.eqb_spec t zero_time); naive_solver. }
  destruct op as [k t|k|t|k t|k t]; cbn [track].
  - case_bool_decide as Hk.
    + subst k. apply history_heard; [cbn; by rewrite bool_decide_eq_true_2|]. apply connected_snoc. left. by eexists.
    + apply history_other; [cbn; by rewrite bool_decide_eq_false_2|by unfold leaves|by intros []|done].
  - case_bool_decide as Hk.
    + subst k. cbn. rewrite connected_snoc. intros [[? ?]|[_ Hn]]; [done|by apply Hn].
    + apply history_other; [done|by unfold leaves; intros [= ->]|by intros []|done].
  - apply history_keep; [done|by unfold leaves|apply Hz|done].
  - case_bool_decide as Hk.
    + subst k. apply history_keep; [done|by unfold leaves|cbn; rewrite Hz; naive_solver|done].
    + apply history_other; [done|by unfold leaves|by intros [? _]|done].
  - case_bool_decide as Hk.
    + subst k. destruct s as [[t0 b]|]; cbn [fmap option_fmap option_map].
      * apply history_heard; [cbn; by rewrite bool_decide_eq_true_2|]. apply connected_snoc. right. split; [apply IH|done].
      * cbn in *. rewrite connected_snoc. naive_solver.
    + apply history_other; [cbn; by rewrite bool_decide_eq_false_2|by unfold leaves|by intros []|done].
Qed.

Lemma time_sub_gt d t u : - 2 ^ 63 ≤ d < 2 ^ 63 - 1 → d < time_sub t u ↔ d < t - u.
Proof. unfold time_sub. lia. Qed.

(** The sweep drops exactly the silent clients. After any history of the table,
    a client is timed out at [now] if and only if it is connected, a ping has gone
    out since it was last heard of (its registration or a pong), and more than the
    timeout has passed since then; and no client twice. *)
Lemma heartbeat_drops_silent_clients interval missed ops now :
  let hm := NewHeartbeatManager interval missed in
  0 < hm_pongTimeout hm < 2 ^ 63 - 1 →
  NoDup (checkTimeouts (hb_run hm ops) now) ∧
  ∀ id, id ∈ checkTimeouts (hb_run hm ops) now ↔
    connected id ops ∧ ∃ t, silent_since id ops t ∧ hm_pongTimeout hm < now - t.
Proof.
  intros hm Hto. destruct (hb_run_ok hm ∅ ops (NewHeartbeatManager_ok _ _)) as (f & Hok & Hf).
  pose proof (checkTimeouts_ok _ _ now Hok) as Hperm. rewrite hb_run_timeout in Hperm. split.
  { rewrite Hperm. eapply sublist_NoDup; [apply (NoDup_fst_map_to_list f)|]. apply fmap_sublist, sublist_filter. }
  intros id. specialize (Hf id). rewrite lookup_empty in Hf. change (entry_of <$> None) with (@None (Z * bool)) in Hf. pose proof (track_history id ops) as Hh.
  rewrite <- Hf in Hh.
  rewrite Hperm, list_elem_of_fmap. setoid_rewrite list_elem_of_filter. split.
  - intros ([k e] & -> & Ht & He%elem_of_map_to_list). cbn [fst] in *. rewrite He in Hh. destruct Hh as (Hc & Hl & Hb).
    unfold timed_out in Ht. cbn [snd] in Ht. apply andb_true_iff in Ht as [Hp Hd%Z.ltb_lt]. split; [done|]. exists (he_lastPong e).
    split; [by apply Hb|]. by apply time_sub_gt in Hd; [|lia].
  - intros [Hc (t & Hs & Ht)]. destruct (f !! id) as [e|] eqn:He; [|done]. destruct Hh as (_ & Hl & Hb).
    pose proof (last_heard_unique _ _ _ _ Hl (silent_last_heard _ _ _ Hs)) as Heq. rewrite <- Heq in Ht, Hs.
    exists (id, e). split_and!; [done| |by apply elem_of_map_to_list]. unfold timed_out. cbn [snd].
    apply andb_true_iff. split; [by apply Hb|]. apply Z.ltb_lt, time_sub_gt; [lia|done].
Qed.

Lemma heartbeat_drops_silent_clients_witness :
  let hm := hb_run (NewHeartbeatManager 0 0)
    [HbRegister "ann" 0; HbRegister "bob" 0; HbPings (30 * Second); HbPong "bob" (31 * Second); HbPings (60 * Second)] in
  "ann" ∈ checkTimeouts hm (91 * Second) ∧ checkTimeouts hm (91 * Second) = ["ann"].
Proof.
  set (ops := [_; _; _; _; _]).
  destruct (heartbeat_drops_silent_clients 0 0 ops (91 * Second) ltac:(vm_compute; split; reflexivity)) as [Hnd Hiff].
  cbv zeta. split.
  { apply Hiff. split.
    - exists [], 0, (tail ops). split; [reflexivity|]. repeat constructor; intros [=].
    - exists 0. split; [|vm_compute; reflexivity]. exists [], (HbRegister "ann" 0), (tail ops).
      split_and!; [reflexivity|reflexivity|repeat constructor|]. apply Exists_cons_tl, Exists_cons_hd. intros [=]. }
  vm_compute. reflexivity.
Defined.
