(* ===== verification/Gateway.v ===== *)
(** * Gateway: the connections of a process

    [internal/websocket/gateway.go], [lifecycle.go] and [health.go]: who may connect,
    the table of connections, the heartbeats of the connected clients, eviction and
    shutdown, over the clients of [WsClient] and any topic manager. The gateway is a
    step function: a request is two steps, its checks and its registration, because
    other handlers run in between; the heartbeat goroutine is a step per tick, and it
    waits where a timeout callback waits. A client's object outlives its connection,
    so that the objects are a heap by identifier and the shards hold identifiers.
    Upgrades and identifiers are inputs. *)

From Stdlib Require Import Strings.Byte.
From S2P Require Import Prelude Bytes WalCodec Sharded Float64 Ring Channel ClientQueue MarketEvent TopicManager Router RateLimit Bus Snapshot WsPump WsClient Heartbeat.

(** ** The lifecycle of a gateway (lifecycle.go) *)

Inductive LifecycleState := LifecycleStarting | LifecycleHealthy | LifecycleDraining | LifecycleOffline.
#[global] Instance LifecycleState_eq_dec : EqDecision LifecycleState.
Proof. solve_decision. Defined.

Definition state_name (s : LifecycleState) : string :=
  match s with
  | LifecycleStarting => "Starting" | LifecycleHealthy => "Healthy"
  | LifecycleDraining => "Draining" | LifecycleOffline => "Offline"
  end.

(** Observers by number, and the calls they got. *)
Record Lifecycle := mkLifecycle {
  lc_state : LifecycleState;
  lc_observers : list nat;
  lc_calls : list (nat * LifecycleState * LifecycleState);
}.

Definition NewLifecycle : Lifecycle := mkLifecycle LifecycleStarting [] [].

Definition Observe (l : Lifecycle) (observer : nat) : Lifecycle :=
  mkLifecycle (lc_state l) (lc_observers l ++ [observer]) (lc_calls l).

Definition isValidTransition (from to : LifecycleState) : bool :=
  match from with
  | LifecycleStarting => bool_decide (to = LifecycleHealthy) || bool_decide (to = LifecycleOffline)
  | LifecycleHealthy => bool_decide (to = LifecycleDraining) || bool_decide (to = LifecycleOffline)
  | LifecycleDraining => bool_decide (to = LifecycleOffline)
  | LifecycleOffline => false
  end.

(** The error is [ErrInvalidStateTransition]. *)
Definition Transition (l : Lifecycle) (to : LifecycleState) : Lifecycle * bool :=
  let from := lc_state l in
  if bool_decide (from = to) then (l, true)
  else if negb (isValidTransition from to) then (l, false)
  else (mkLifecycle to (lc_observers l) (lc_calls l ++ ((λ o, (o, from, to)) <$> lc_observers l)), true).

(** ** The limiter of new connections *)

Record connRateLimiter := mkConnLimiter { cr_tokens : float64; cr_maxRate : float64; cr_lastTime : Z }.

Definition newConnRateLimiter (maxConnsPerSec : float64) (now : Z) : connRateLimiter :=
  mkConnLimiter maxConnsPerSec maxConnsPerSec now.

Definition connAllow (r : connRateLimiter) (now : Z) : connRateLimiter * bool :=
  let elapsed := Duration_Seconds (time_sub now (cr_lastTime r)) in
  let tokens := f64_add (cr_tokens r) (f64_mul elapsed (cr_maxRate r)) in
  let tokens := if f64_ltb (cr_maxRate r) tokens then cr_maxRate r else tokens in
  if f64_ltb tokens f64_one then (mkConnLimiter tokens (cr_maxRate r) now, false)
  else (mkConnLimiter (f64_sub tokens f64_one) (cr_maxRate r) now, true).

(** ** The gateway (gateway.go) *)

Definition maxConnections : Z := 10000.
Definition clientShardCount : nat := 32.

Definition gateway_shard (id : string) : nat :=
  Z.to_nat (Z.land (fnv1a32 (bytes_of_string id)) (Z.of_nat clientShardCount - 1)).

Section gateway.
Context {E : Type} `{!MarketEventOps E}.
Context {M H Ev : Type} `{!LocalManager M H Ev}.
Context (time_Parse : string → result Z string).
#[local] Abbreviation Cl := (@Client E H).
#[local] Abbreviation Message_ := (@ServerMessage E).

(** [gw_closing]: clients whose context is cancelled. [gw_pending]: handlers between
    their checks and the registration. [gw_sweep]: the clients that the running
    sweep of the heartbeats still has to time out, the first being shut down. *)
Record Gateway := mkGateway {
  gw_id : string;
  gw_tm : M;
  gw_services : @services E;
  gw_clients : gmap string Cl;
  gw_shards : list (gmap string unit);
  gw_activeCount : Z;
  gw_peak : Z;
  gw_connLimiter : option connRateLimiter;
  gw_heartbeat : HeartbeatManager;
  gw_lifecycle : Lifecycle;
  gw_closing : gset string;
  gw_pending : list Format;
  gw_sweep : list string;
}.

Definition NewGatewayWithReplay (tm : M) (sx : services) (maxConnsPerSec : float64) (gatewayID : option string) (now : Z)
    : Gateway :=
  let id := match gatewayID with Some i => if bool_decide (i = "") then "default" else i | None => "default" end in
  mkGateway id tm (mkServices (sx_redirector sx) (sx_snap sx) (sx_hasReplay sx) (sx_hasWal sx) true)
    ∅ (replicate clientShardCount ∅) 0 0
    (if f64_ltb f64_zero maxConnsPerSec then Some (newConnRateLimiter maxConnsPerSec now) else None)
    (NewHeartbeatManager DefaultPingInterval DefaultMissedHeartbeats)
    (Transition (Observe NewLifecycle 0) LifecycleHealthy).1 ∅ [] [].

Definition set_limiter (g : Gateway) (r : option connRateLimiter) : Gateway :=
  mkGateway (gw_id g) (gw_tm g) (gw_services g) (gw_clients g) (gw_shards g) (gw_activeCount g) (gw_peak g)
    r (gw_heartbeat g) (gw_lifecycle g) (gw_closing g) (gw_pending g) (gw_sweep g).
Definition set_pending (g : Gateway) (l : list Format) : Gateway :=
  mkGateway (gw_id g) (gw_tm g) (gw_services g) (gw_clients g) (gw_shards g) (gw_activeCount g) (gw_peak g)
    (gw_connLimiter g) (gw_heartbeat g) (gw_lifecycle g) (gw_closing g) l (gw_sweep g).
Definition set_hb (g : Gateway) (hb : HeartbeatManager) : Gateway :=
  mkGateway (gw_id g) (gw_tm g) (gw_services g) (gw_clients g) (gw_shards g) (gw_activeCount g) (gw_peak g)
    (gw_connLimiter g) hb (gw_lifecycle g) (gw_closing g) (gw_pending g) (gw_sweep g).
Definition set_clients (g : Gateway) (cs : gmap string Cl) (m : M) : Gateway :=
  mkGateway (gw_id g) m (gw_services g) cs (gw_shards g) (gw_activeCount g) (gw_peak g)
    (gw_connLimiter g) (gw_heartbeat g) (gw_lifecycle g) (gw_closing g) (gw_pending g) (gw_sweep g).
Definition set_table (g : Gateway) (ss : list (gmap string unit)) (active peak : Z) : Gateway :=
  mkGateway (gw_id g) (gw_tm g) (gw_services g) (gw_clients g) ss active peak
    (gw_connLimiter g) (gw_heartbeat g) (gw_lifecycle g) (gw_closing g) (gw_pending g) (gw_sweep g).
Definition set_closing (g : Gateway) (closing : gset string) (sweep : list string) : Gateway :=
  mkGateway (gw_id g) (gw_tm g) (gw_services g) (gw_clients g) (gw_shards g) (gw_activeCount g) (gw_peak g)
    (gw_connLimiter g) (gw_heartbeat g) (gw_lifecycle g) closing (gw_pending g) sweep.
Definition set_lifecycle (g : Gateway) (l : Lifecycle) : Gateway :=
  mkGateway (gw_id g) (gw_tm g) (gw_services g) (gw_clients g) (gw_shards g) (gw_activeCount g) (gw_peak g)
    (gw_connLimiter g) (gw_heartbeat g) l (gw_closing g) (gw_pending g) (gw_sweep g).

Definition gw_state (g : Gateway) : LifecycleState := lc_state (gw_lifecycle g).
Definition GW_ClientCount (g : Gateway) : Z := gw_activeCount g.

(** *** Connecting and leaving *)

Inductive verdict :=
| Rejected (status : Z) (body : string)
| Upgrading (format : Format) (subprotocol : string).

Definition negotiate (protocols : list string) : verdict :=
  match SelectProtocol protocols with
  | None => Rejected 400 "unsupported subprotocol"
  | Some (f, p) => Upgrading f p
  end.

(** The checks of the handler before the upgrade. *)
Definition Handler_checks (g : Gateway) (protocols : list string) (now : Z) : Gateway * verdict :=
  let state := gw_state g in
  if bool_decide (state = LifecycleDraining) || bool_decide (state = LifecycleOffline)
  then (g, Rejected 503 ("gateway is " +:+ state_name state))
  else if maxConnections <=? GW_ClientCount g then (g, Rejected 503 "connection limit reached")
  else
    match gw_connLimiter g with
    | None => (g, negotiate protocols)
    | Some r =>
        let '(r, ok) := connAllow r now in
        let g := set_limiter g (Some r) in
        if ok then (g, negotiate protocols) else (g, Rejected 429 "connection rate limit exceeded")
    end.

Definition Handler_begin (g : Gateway) (protocols : list string) (now : Z) : Gateway :=
  match Handler_checks g protocols now with
  | (g, Upgrading f _) => set_pending g (gw_pending g ++ [f])
  | (g, Rejected _ _) => g
  end.

Definition register (g : Gateway) (c : Cl) : Gateway :=
  let id := wc_id c in
  let sh := default ∅ (gw_shards g !! gateway_shard id) in
  let total := i64 (gw_activeCount g + 1) in
  set_table (set_clients g (<[id := c]> (gw_clients g)) (gw_tm g)) (<[gateway_shard id := <[id := tt]> sh]> (gw_shards g)) total
    (if total <=? gw_peak g then gw_peak g else total).

Definition gw_lookup (g : Gateway) (id : string) : bool :=
  bool_decide (is_Some (gw_shards g !! gateway_shard id ≫= lookup id)).

Definition unregister (g : Gateway) (id : string) : Gateway :=
  if gw_lookup g id then
    match gw_clients g !! id with
    | None => g
    | Some c =>
        let sh := default ∅ (gw_shards g !! gateway_shard id) in
        let g := set_table g (<[gateway_shard id := delete id sh]> (gw_shards g)) (gw_activeCount g) (gw_peak g) in
        let '(c, m) := cancelAll c (gw_tm g) in
        let g := set_clients g (<[id := c]> (gw_clients g)) m in
        set_table g (gw_shards g) (i64 (gw_activeCount g - 1)) (gw_peak g)
    end
  else g.

(** After the upgrade: a failed one ends the handler; else the client is registered,
    and its read pump registers with the heartbeats. *)
Definition Handler_enter (g : Gateway) (i : nat) (upgraded : bool) (id : string) (now : Z) : Gateway :=
  match gw_pending g !! i with
  | None => g
  | Some _ =>
      let g := set_pending g (delete i (gw_pending g)) in
      if upgraded then
        let g := register g (newClient id) in
        set_hb g (HM_Register (gw_heartbeat g) id now)
      else g
  end.

(** The read pump returns: its deferred call, then the handler's. *)
Definition Handler_leave (g : Gateway) (id : string) : Gateway :=
  if gw_lookup g id then unregister (set_hb g (HM_Unregister (gw_heartbeat g) id)) id else g.

(** *** A client's own steps *)

(** The write pump has sent what a reconnect owes: [isReconnecting.Store(false)]. *)
Definition reconnect_done (c : Cl) : Cl :=
  mkClient (wc_id c) (wc_handle c) (wc_control c) (wc_subUpdated c) false (wc_walRequests c) (wc_pongs c)
    (wc_replayCh c) (wc_activeReplaySession c) (wc_watchers c) (wc_stopped c) (wc_sessions c) (wc_cancelled c).

Definition put_client (g : Gateway) (c : Cl) (m : M) : Gateway :=
  set_clients g (<[wc_id c := c]> (gw_clients g)) m.

(** A message of a connected client; its pong is recorded. *)
Definition client_message (g : Gateway) (id : string) (cm : ClientMessage) (pause resume : option string) (now : Z)
    : outcome Gateway :=
  match gw_lookup g id, gw_clients g !! id with
  | true, Some c =>
      match handleMessage time_Parse (gw_services g) c (gw_tm g) cm pause resume with
      | Panic => Panic
      | Ret (c', m) =>
          let g := put_client g c' m in
          Ret (if bool_decide (wc_pongs c' = wc_pongs c) then g else set_hb g (HM_RecordPong (gw_heartbeat g) id now))
      end
  | _, _ => Ret g
  end.

(** A goroutine of the client: a replay's, or the write pump. *)
Definition client_goroutine (g : Gateway) (id : string) (f : bool → Cl → Cl) : Gateway :=
  match gw_clients g !! id with
  | Some c => put_client g (f (bool_decide (id ∈ gw_closing g)) c) (gw_tm g)
  | None => g
  end.

(** *** All clients *)

Definition gw_ids (g : Gateway) : list string :=
  concat ((λ sh : gmap string unit, (map_to_list sh).*1) <$> gw_shards g).

Definition send_all (ids : list string) (msg : Message_) (cs : gmap string Cl) : gmap string Cl :=
  foldl (λ cs id, alter (λ c, sendControl c msg) id cs) cs ids.

Definition Broadcast (g : Gateway) (msg : Message_) : Gateway :=
  set_clients g (send_all (gw_ids g) msg (gw_clients g)) (gw_tm g).

(** Every client's context is cancelled. *)
Definition EvictAll (g : Gateway) : Gateway := set_closing g (gw_closing g ∪ list_to_set (gw_ids g)) (gw_sweep g).

(** *** The heartbeat goroutine *)

(** The pings go through the control queues of the clients. *)
Definition heartbeat_ping (g : Gateway) (now : Z) : Gateway :=
  if hm_stopped (gw_heartbeat g) || negb (bool_decide (gw_sweep g = [])) then g
  else
    let '(hb, ids) := broadcastPings (gw_heartbeat g) now in
    set_clients (set_hb g hb) (send_all ids (mkServerMessage "ping" (PPing (now / Second))) (gw_clients g)) (gw_tm g).

(** The timeout callbacks in turn: [cancelAll], then [shutdown], which polls until the
    client has no replay and no reconnect under way or its context is cancelled. *)
Fixpoint run_timeouts (g : Gateway) (ids : list string) : Gateway :=
  match ids with
  | [] => set_closing g (gw_closing g) []
  | id :: ids' =>
      match hm_shard (gw_heartbeat g) id !! id, gw_clients g !! id with
      | Some _, Some c =>
          let '(c, m) := cancelAll c (gw_tm g) in
          let g := put_client g c m in
          if shutdown_ready c || bool_decide (id ∈ gw_closing g)
          then run_timeouts (set_closing g (gw_closing g ∪ {[id]}) (gw_sweep g)) ids'
          else set_closing g (gw_closing g) ids
      | _, _ => run_timeouts g ids'
      end
  end.

Definition heartbeat_sweep (g : Gateway) (now : Z) : Gateway :=
  if hm_stopped (gw_heartbeat g) || negb (bool_decide (gw_sweep g = [])) then g
  else run_timeouts g (checkTimeouts (gw_heartbeat g) now).

(** The poll of the waiting callback. *)
Definition heartbeat_poll (g : Gateway) : Gateway :=
  match gw_sweep g with
  | [] => g
  | id :: ids =>
      match gw_clients g !! id with
      | Some c =>
          if shutdown_ready c || bool_decide (id ∈ gw_closing g)
          then run_timeouts (set_closing g (gw_closing g ∪ {[id]}) (gw_sweep g)) ids
          else g
      | None => g
      end
  end.

(** *** Shutdown *)

(** The first part, until the clients are told; [ctxDone]: during the random delay. *)
Definition Shutdown_drain (g : Gateway) : Gateway := set_lifecycle g (Transition (gw_lifecycle g) LifecycleDraining).1.
Definition Shutdown_offline (g : Gateway) : Gateway := set_lifecycle g (Transition (gw_lifecycle g) LifecycleOffline).1.

(** [c.shutdown] of one of the collected clients comes to its end: it was ready, or the
    deadline of the shutdown has passed. *)
Definition Shutdown_client (g : Gateway) (id : string) (deadline : bool) : Gateway :=
  match gw_clients g !! id with
  | Some c => if shutdown_ready c || deadline then set_closing g (gw_closing g ∪ {[id]}) (gw_sweep g) else g
  | None => g
  end.

(** All clients have been shut down. *)
Definition Shutdown_finish (g : Gateway) : outcome Gateway :=
  match HM_Stop (gw_heartbeat g) with
  | Panic => Panic
  | Ret hb => Ret (Shutdown_offline (set_hb g hb))
  end.

(** ** Health (health.go) *)

Inductive HealthState := StateHealthy | StateWarning | StateOffline.

(** The state of [Check] on a gateway. *)
Definition Check_state (g : Gateway) : HealthState :=
  if bool_decide (gw_state g = LifecycleDraining) || bool_decide (gw_state g = LifecycleOffline) then StateOffline
  else if maxConnections * 9 / 10 <? gw_activeCount g then StateWarning
  else StateHealthy.

(** ** Steps *)

Inductive gw_input :=
| GwRequest (protocols : list string) (now : Z)
| GwEnter (i : nat) (upgraded : bool) (id : string) (now : Z)
| GwMessage (id : string) (cm : ClientMessage) (pause resume : option string) (now : Z)
| GwWake (id : string) (i : nat)
| GwTake (id : string)
| GwReconnected (id : string)
| GwLeave (id : string)
| GwPing (now : Z)
| GwSweep (now : Z)
| GwPoll
| GwBroadcast (msg : Message_)
| GwEvict
| GwDrain
| GwClose (id : string) (deadline : bool)
| GwOffline
| GwFinish.

Definition gw_step (g : Gateway) (i : gw_input) : outcome Gateway :=
  match i with
  | GwRequest protocols now => Ret (Handler_begin g protocols now)
  | GwEnter i upgraded id now => Ret (Handler_enter g i upgraded id now)
  | GwMessage id cm pause resume now => client_message g id cm pause resume now
  | GwWake id i => Ret (client_goroutine g id (λ ctxDone c, watcher_wakes c i ctxDone))
  | GwTake id => Ret (client_goroutine g id (λ _ c, set_control c (tail (wc_control c))))
  | GwReconnected id => Ret (client_goroutine g id (λ _ c, reconnect_done c))
  | GwLeave id => Ret (Handler_leave g id)
  | GwPing now => Ret (heartbeat_ping g now)
  | GwSweep now => Ret (heartbeat_sweep g now)
  | GwPoll => Ret (heartbeat_poll g)
  | GwBroadcast msg => Ret (Broadcast g msg)
  | GwEvict => Ret (EvictAll g)
  | GwDrain => Ret (Shutdown_drain g)
  | GwClose id deadline => Ret (Shutdown_client g id deadline)
  | GwOffline => Ret (Shutdown_offline g)
  | GwFinish => Shutdown_finish g
  end.

(** The states that steps under the condition [P] lead to. *)
Inductive reach (P : Gateway → gw_input → Prop) (g0 : Gateway) : Gateway → Prop :=
| reach_start : reach P g0 g0
| reach_step g i g' : reach P g0 g → P g i → gw_step g i = Ret g' → reach P g0 g'.
End gateway.

(** ** The limiter at whole seconds *)

Definition as_bucket (r : connRateLimiter) : Bucket :=
  mkBucket (cr_tokens r) (cr_maxRate r) (cr_maxRate r) (cr_lastTime r).

(** A reading of the clock that does not go back: the limiter is a bucket whose burst
    is its rate. *)
Lemma connAllow_repr t0 horizon r s t :
  bucket_repr t0 horizon (as_bucket r) s → tb_burst s = tb_rate s → horizon ≤ 2 ^ 33 → tb_last s ≤ t ≤ t0 + horizon →
  (connAllow r (t * Second)).2 = (tb_allowN s 1 t).2 ∧
  bucket_repr t0 horizon (as_bucket (connAllow r (t * Second)).1) (tb_allowN s 1 t).1 ∧
  tb_last (tb_allowN s 1 t).1 = t.
Proof.
  intros [Htok Hb Hrate Hl Hrg (Hs1 & Hs2 & Hs3) Htime] Hbr Hh Ht.
  cbn [as_bucket bk_tokens bk_burstSize bk_tokensPerSec bk_lastRefill] in *. set (k := t - tb_last s).
  set (x := Z.min (tb_burst s) (tb_tokens s + k * tb_rate s)).
  assert (Hsub : time_sub (t * Second) (cr_lastTime r) = k * Second).
  { rewrite Hl, time_sub_small; unfold k, in_i64, Second, Millisecond; lia. }
  assert (Hk : 0 ≤ k * tb_rate s < 2 ^ 52) by (unfold k in *; nia).
  assert (Href : tb_refill s t = mkTB x (tb_burst s) (tb_rate s) t).
  { unfold tb_refill, x, k. destruct (Z.leb_spec t (tb_last s)) as [Hle|]; [|done].
    replace t with (tb_last s) by lia. destruct s; cbn in *. f_equal. lia. }
  assert (Hcon : connAllow r (t * Second) =
    if x <? 1 then (mkConnLimiter (f64_of_Z x) (f64_of_Z (tb_rate s)) (t * Second), false)
    else (mkConnLimiter (f64_of_Z (x - 1)) (f64_of_Z (tb_rate s)) (t * Second), true)).
  { unfold connAllow. rewrite Hsub, Seconds_whole by (unfold k; lia). change f64_one with (f64_of_Z 1).
    rewrite Hrate, Htok, f64_mul_int, f64_add_int, f64_ltb_int by (unfold k in *; lia).
    replace (if tb_rate s <? tb_tokens s + k * tb_rate s then f64_of_Z (tb_rate s)
             else f64_of_Z (tb_tokens s + k * tb_rate s)) with (f64_of_Z x)
      by (unfold x; destruct (Z.ltb_spec (tb_rate s) (tb_tokens s + k * tb_rate s)); f_equal; lia).
    rewrite f64_ltb_int, f64_sub_int by lia. done. }
  unfold tb_allowN. rewrite Hcon, Href. cbn [tb_tokens tb_burst tb_rate tb_last].
  destruct (Z.ltb_spec x 1), (Z.leb_spec 1 x); try lia; cbn [fst snd tb_last]; (split_and!; [done| |done]);
    split; cbn; try done; try lia; by rewrite Hbr.
Qed.

Fixpoint conn_run (r : connRateLimiter) (times : list Z) : list bool :=
  match times with
  | [] => []
  | t :: times => let '(r, ok) := connAllow r (t * Second) in ok :: conn_run r times
  end.

Lemma conn_run_repr t0 horizon r s times :
  bucket_repr t0 horizon (as_bucket r) s → tb_burst s = tb_rate s → horizon ≤ 2 ^ 33 →
  StronglySorted Z.le (tb_last s :: times) → Forall (λ t, t ≤ t0 + horizon) times →
  conn_run r times = tb_run s ((λ t, (1, t)) <$> times).
Proof.
  intros Hr Hbr Hh Hs Hall. revert r s Hr Hbr Hs. induction Hall as [|t times Ht _ IH]; intros r s Hr Hbr Hs; [done|].
  inversion Hs as [|?? Hs1 Hs2]; subst. apply Forall_cons in Hs2 as [Hlt _].
  destruct (connAllow_repr t0 horizon r s t Hr Hbr Hh ltac:(lia)) as (Hok & Hrep & Hlast).
  cbn [conn_run fmap list_fmap tb_run].
  assert (Hbr' : tb_burst (tb_allowN s 1 t).1 = tb_rate (tb_allowN s 1 t).1).
  { unfold tb_allowN, tb_refill. by repeat case_match; cbn. }
  destruct (connAllow r (t * Second)) as [r' ok], (tb_allowN s 1 t) as [s' ok']. cbn [fst snd] in *. subst ok'.
  f_equal. apply IH; [done|done|]. by rewrite Hlast.
Qed.

(** A gateway admits at most its rate of connections in one second, and that many more
    for every further second. *)
Lemma conn_limiter_bound rate t0 horizon times :
  0 < rate < 2 ^ 52 → 0 ≤ horizon ≤ 2 ^ 33 → rate * horizon < 2 ^ 52 →
  StronglySorted Z.le (t0 :: times) → Forall (λ t, t ≤ t0 + horizon) times →
  Z.of_nat (length (filter (λ ok : bool, ok = true) (conn_run (newConnRateLimiter (f64_of_Z rate) (t0 * Second)) times))) ≤
    rate + rate * horizon.
Proof.
  intros Hr Hh Hrh Hs Hall.
  rewrite (conn_run_repr t0 horizon _ (mkTB rate rate rate t0)); [|split; cbn; try done; lia|done|lia|done|done].
  assert (Hcount : ∀ reqs oks, Forall (λ r : Z * Z, r.1 = 1) reqs → length oks = length reqs →
    Z.of_nat (length (filter (λ ok : bool, ok = true) oks)) = granted reqs oks).
  { induction reqs as [|[n t] reqs IH]; intros [|ok oks] Ha Hl; try done. apply Forall_cons in Ha as [Hn Ha]. cbn in Hn. subst n.
    rewrite granted_cons, filter_cons, <- (IH oks) by (done || cbn in Hl; lia). destruct ok; case_decide; cbn [length]; lia || done. }
  assert (Hlen : ∀ reqs s, length (tb_run s reqs) = length reqs).
  { induction reqs as [|[n t] reqs IH]; intros s; [done|]. cbn [tb_run]. destruct (tb_allowN s n t). cbn. by rewrite IH. }
  rewrite (Hcount ((λ t, (1, t)) <$> times)) by (try apply Hlen; apply Forall_fmap, Forall_true; done).
  etrans; [apply (tb_run_bound (t0 + horizon)); cbn; try lia|cbn; lia].
  apply Forall_fmap. eapply Forall_impl; [exact Hall|]. cbn. lia.
Qed.

(** ** The table of connections *)

Lemma gateway_shard_lt id : (gateway_shard id < clientShardCount)%nat.
Proof.
  unfold gateway_shard, clientShardCount. pose proof (fnv1a32_range (bytes_of_string id)) as [H0 _].
  change (Z.of_nat 32 - 1) with (Z.ones 5). rewrite Z.land_ones by lia.
  pose proof (Z.mod_pos_bound (fnv1a32 (bytes_of_string id)) (2 ^ 5) ltac:(lia)). lia.
Qed.
#[export] Hint Resolve gateway_shard_lt : core.

Section invariants.
Context {E : Type} `{!MarketEventOps E}.
Context {M H Ev : Type} `{!LocalManager M H Ev}.
Context (time_Parse : string → result Z string).
#[local] Abbreviation Cl := (@Client E H).
#[local] Abbreviation Gw := (@Gateway E M H).
#[local] Abbreviation step := (gw_step time_Parse).
Implicit Types (g : Gw) (c : Cl) (cs : gmap string Cl) (reg : gmap string unit).

(** Identifiers are not used twice. *)
Definition fresh_id g (i : @gw_input E) : Prop :=
  match i with GwEnter _ _ id _ => gw_clients g !! id = None | _ => True end.

(** The objects are filed under their identifiers. *)
Definition heap_ok cs : Prop := map_Forall (λ id c, wc_id c = id) cs.

(** The same objects, with changes that keep the identifiers. *)
Definition heap_same cs cs' : Prop := heap_ok cs → heap_ok cs' ∧ dom cs' = dom cs.

#[local] Instance heap_same_preorder : PreOrder heap_same.
Proof. split; [by intros cs Hok|]. intros a b d H1 H2 Ha. destruct (H1 Ha) as [Hb Hd], (H2 Hb) as [Hc He]. split; [done|congruence]. Qed.

Lemma heap_put cs c c' : cs !! wc_id c = Some c → wc_id c' = wc_id c → heap_same cs (<[wc_id c' := c']> cs).
Proof.
  intros Hc Hid Hok. split.
  - by apply map_Forall_insert_2.
  - rewrite dom_insert_lookup_L; [done|]. rewrite Hid. by eexists.
Qed.

Lemma heap_alter cs id (f : Cl → Cl) : (∀ c, wc_id (f c) = wc_id c) → heap_same cs (alter f id cs).
Proof.
  intros Hf Hok. split; [|apply dom_alter_L]. intros k c Hk.
  destruct (decide (k = id)) as [->|Hne]; [|rewrite lookup_alter_ne in Hk by done; by apply Hok].
  rewrite lookup_alter_eq in Hk. destruct (cs !! id) as [c0|] eqn:H0; [|done]. injection Hk as <-. rewrite Hf. by apply Hok.
Qed.

Lemma sendControl_id c msg : wc_id (sendControl c msg) = wc_id c.
Proof. unfold sendControl. by case_match. Qed.

Lemma send_all_same ids msg cs : heap_same cs (send_all ids msg cs).
Proof.
  revert cs. induction ids as [|id ids IH]; intros cs; [done|]. cbn [send_all foldl].
  etransitivity; [|apply IH]. apply heap_alter. intros c. apply sendControl_id.
Qed.

(** [table_ok k g reg]: [reg] are the connections. *)
Record table_ok (k : Z) g reg : Prop := {
  to_shards : flat clientShardCount gateway_shard (gw_shards g) reg;
  to_hb : ∃ f, hb_ok (gw_heartbeat g) f ∧ dom f = dom reg;
  to_count : gw_activeCount g = Z.of_nat (size reg);
  to_room : Z.of_nat (size reg) + Z.of_nat (length (gw_pending g)) ≤ maxConnections - 1 + k;
  to_peak : gw_activeCount g ≤ gw_peak g;
  to_heap : heap_ok (gw_clients g);
  to_conns : dom reg ⊆ dom (gw_clients g);
}.

(** A step that leaves the table alone. *)
Lemma table_frame k g g' reg :
  table_ok k g reg → gw_shards g' = gw_shards g → gw_activeCount g' = gw_activeCount g → gw_peak g' = gw_peak g →
  gw_pending g' = gw_pending g → heap_same (gw_clients g) (gw_clients g') →
  (∀ f, hb_ok (gw_heartbeat g) f → ∃ f', hb_ok (gw_heartbeat g') f' ∧ dom f' = dom f) →
  table_ok k g' reg.
Proof.
  intros [Hs (f & Hf & Hd) Hc Hr Hp Hh Hsub] E1 E2 E3 E4 Hheap Hhb. destruct (Hheap Hh) as [Hh' Hdom].
  destruct (Hhb f Hf) as (f' & Hf' & Hd'). split; rewrite ?E1, ?E2, ?E3, ?E4; try done.
  - exists f'. split; [done|congruence].
  - by rewrite Hdom.
Qed.

Lemma gw_lookup_ok k g reg id : table_ok k g reg → gw_lookup g id = bool_decide (is_Some (reg !! id)).
Proof. intros Hok. unfold gw_lookup. by rewrite (flat_get _ _ _ _ (to_shards _ _ _ Hok)). Qed.

(** Lists of identifiers are those of the connections. *)
Lemma gw_ids_ok k g reg : table_ok k g reg → gw_ids g ≡ₚ (map_to_list reg).*1.
Proof.
  intros Hok. unfold gw_ids. rewrite <- (flat_to_list _ _ gateway_shard_lt _ _ (to_shards _ _ _ Hok)).
  generalize (gw_shards g). induction l as [|sh l IH]; [done|]. rewrite !fmap_cons, !concat_cons, fmap_app. by rewrite IH.
Qed.

Lemma handler_checks_frame g protocols now :
  let '(g', v) := Handler_checks g protocols now in
  g' = set_limiter g (gw_connLimiter g') ∧
  (∀ f p, v = Upgrading f p → gw_activeCount g < maxConnections ∧ gw_state g ≠ LifecycleDraining ∧ gw_state g ≠ LifecycleOffline).
Proof.
  unfold Handler_checks. assert (Hg : g = set_limiter g (gw_connLimiter g)) by (by destruct g).
  destruct (decide (gw_state g = LifecycleDraining)) as [Hd|Hd];
    [rewrite (bool_decide_eq_true_2 _ Hd); by split|rewrite (bool_decide_eq_false_2 _ Hd)].
  destruct (decide (gw_state g = LifecycleOffline)) as [Ho|Ho];
    [rewrite (bool_decide_eq_true_2 _ Ho); by split|rewrite (bool_decide_eq_false_2 _ Ho)]. cbn [orb].
  destruct (Z.leb_spec maxConnections (GW_ClientCount g)) as [Hle|Hlt]; [by split|].
  destruct (gw_connLimiter g) as [r|] eqn:Hl; [|rewrite Hl; done].
  destruct (connAllow r now) as [r' []]; done.
Qed.

Lemma Handler_begin_ok k g reg protocols now :
  table_ok k g reg → Z.of_nat (length (gw_pending g)) < k → table_ok k (Handler_begin g protocols now) reg.
Proof.
  intros Hok Hk. unfold Handler_begin. pose proof (handler_checks_frame g protocols now) as Hc.
  destruct (Handler_checks g protocols now) as [g1 v]. destruct Hc as [-> Hv].
  assert (Hok1 : table_ok k (set_limiter g (gw_connLimiter g1)) reg)
    by (apply (table_frame k g); try done; intros f Hf; by exists f).
  destruct v as [status body|f p]; [done|]. destruct (Hv f p eq_refl) as [Hlt _].
  destruct Hok1 as [H1 H2 H3 H4 H5 H6 H7]. split; try done. cbn [gw_pending set_pending set_limiter].
  rewrite length_app. cbn [length]. cbn in H3. pose proof (to_count _ _ _ Hok). unfold maxConnections in *. lia.
Qed.

Lemma Handler_enter_ok k g reg i upgraded id now :
  table_ok k g reg → gw_clients g !! id = None → 0 ≤ k < 2 ^ 62 →
  ∃ reg', table_ok k (Handler_enter g i upgraded id now) reg' ∧
    (reg' = reg ∨ (reg !! id = None ∧ reg' = <[id := tt]> reg)).
Proof.
  clear time_Parse. intros Hok Hid Hk. unfold Handler_enter. destruct (gw_pending g !! i) as [f0|] eqn:Hp; [|exists reg; by auto].
  pose proof (length_delete (gw_pending g) i ltac:(by eexists)) as Hlen. pose proof (lookup_lt_Some _ _ _ Hp) as Hlt.
  destruct Hok as [Hs (f & Hf & Hd) Hc Hr Hpk Hh Hsub]. unfold maxConnections in *. destruct upgraded.
  2: { exists reg. split; [|by left]. split; try done; [by exists f|]. cbn. unfold maxConnections. lia. }
  assert (Hreg : reg !! id = None). { apply not_elem_of_dom. intros Hin%Hsub. apply elem_of_dom in Hin. by rewrite Hid in Hin; destruct Hin. }
  exists (<[id := tt]> reg). split; [|by right].
  destruct (flat_shard _ _ gateway_shard_lt _ _ id Hs) as (sh & Hsh & _).
  assert (Hi : i64 (gw_activeCount g + 1) = gw_activeCount g + 1) by (apply i64_small; unfold in_i64; lia).
  split; cbn [register set_hb set_table set_clients set_pending gw_shards gw_heartbeat gw_activeCount gw_peak gw_pending
    gw_clients gw_tm wc_id newClient]; rewrite ?Hi, ?map_size_insert_None by done.
  - rewrite Hsh. by apply flat_insert.
  - eexists. split; [by apply HM_Register_ok|]. rewrite !dom_insert_L. by rewrite Hd.
  - lia.
  - unfold maxConnections. lia.
  - destruct (Z.leb_spec (gw_activeCount g + 1) (gw_peak g)); lia.
  - by apply map_Forall_insert_2.
  - rewrite !dom_insert_L. set_solver.
Qed.

Lemma cancelAll_id c (m : M) : wc_id (cancelAll c m).1 = wc_id c.
Proof. unfold cancelAll. by destruct (wc_cancelled c). Qed.

Lemma Handler_leave_ok k g reg id :
  table_ok k g reg → 0 ≤ k < 2 ^ 62 → table_ok k (Handler_leave g id) (delete id reg).
Proof.
  clear time_Parse. intros Hok Hk. unfold Handler_leave. rewrite (gw_lookup_ok k g reg id Hok).
  case_bool_decide as Hreg; [|rewrite delete_id by (by apply eq_None_not_Some); done].
  unfold unregister. change (gw_lookup (set_hb g _) id) with (gw_lookup g id).
  rewrite (gw_lookup_ok k g reg id Hok), bool_decide_eq_true_2 by done.
  destruct Hok as [Hs (f & Hf & Hd) Hc Hr Hpk Hh Hsub]. cbn [set_hb gw_clients gw_shards gw_tm gw_activeCount gw_peak].
  assert (Hin : id ∈ dom (gw_clients g)) by (apply Hsub, elem_of_dom, Hreg).
  apply elem_of_dom in Hin as [c Hcl]. rewrite Hcl.
  destruct (flat_shard _ _ gateway_shard_lt _ _ id Hs) as (sh & Hsh & _). rewrite Hsh. change (default ∅ (Some sh)) with sh.
  pose proof (cancelAll_id c (gw_tm g)) as Hci.
  cbn [set_table set_hb gw_tm]. destruct (cancelAll c (gw_tm g)) as [c' m]. cbn [fst] in Hci.
  assert (Hsz : size reg ≠ 0%nat) by (apply map_size_ne_0_lookup; by exists id).
  assert (Hi : i64 (gw_activeCount g - 1) = gw_activeCount g - 1).
  { apply i64_small. unfold in_i64, maxConnections in *. lia. }
  assert (Hdel : size (delete id reg) = Nat.pred (size reg)) by (by apply map_size_delete_Some).
  assert (Hcid : wc_id c = id) by (by apply Hh).
  split; cbn [set_table set_clients set_hb gw_shards gw_heartbeat gw_activeCount gw_peak gw_pending gw_clients gw_tm]; rewrite ?Hi, ?Hdel.
  - by apply flat_delete.
  - eexists. split; [by apply HM_Unregister_ok|]. rewrite !dom_delete_L. by rewrite Hd.
  - lia.
  - lia.
  - lia.
  - apply map_Forall_insert_2; [congruence|done].
  - rewrite dom_delete_L, dom_insert_L. set_solver.
Qed.


Lemma client_message_ok k g reg id cm pause resume now g' :
  table_ok k g reg → client_message time_Parse g id cm pause resume now = Ret g' → table_ok k g' reg.
Proof.
  intros Hok. unfold client_message. destruct (gw_lookup g id); [|by intros [= <-]].
  destruct (gw_clients g !! id) as [c|] eqn:Hc; [|by intros [= <-]].
  destruct (handleMessage _ _ _ _ _ _ _) as [[c' m']|] eqn:Hm; [|done]. intros [= <-].
  apply handleMessage_owner in Hm. injection Hm as Hid _.
  assert (Hci : wc_id c = id) by (by apply (to_heap _ _ _ Hok)).
  assert (Hput : heap_same (gw_clients g) (gw_clients (put_client g c' m'))) by (apply (heap_put _ c); [by rewrite Hci|done]).
  case_bool_decide; apply (table_frame k g); try done; intros f Hf; [by exists f|].
  eexists. split; [by apply HM_RecordPong_ok|]. apply dom_alter_L.
Qed.

Lemma client_goroutine_ok k g reg id (f : bool → Cl → Cl) :
  (∀ b c, wc_id (f b c) = wc_id c) → table_ok k g reg → table_ok k (client_goroutine g id f) reg.
Proof.
  intros Hf Hok. unfold client_goroutine. destruct (gw_clients g !! id) as [c|] eqn:Hc; [|done].
  assert (Hci : wc_id c = id) by (by apply (to_heap _ _ _ Hok)).
  apply (table_frame k g); try done; [|intros f0 Hf0; by exists f0].
  apply (heap_put _ c); [by rewrite Hci|apply Hf].
Qed.

Lemma run_timeouts_ok k reg ids : ∀ g, table_ok k g reg → table_ok k (run_timeouts g ids) reg.
Proof.
  assert (Hset : ∀ g cl sw, table_ok k g reg → table_ok k (set_closing g cl sw) reg).
  { intros g cl sw Hok. apply (table_frame k g); try done. intros f Hf. by exists f. }
  induction ids as [|id ids IH]; intros g Hok; cbn [run_timeouts]; [by apply Hset|].
  destruct (hm_shard _ _ !! id); [|by apply IH]. destruct (gw_clients g !! id) as [c|] eqn:Hc; [|by apply IH].
  pose proof (cancelAll_id c (gw_tm g)) as Hid. destruct (cancelAll c (gw_tm g)) as [c' m]. cbn [fst] in Hid.
  assert (Hok1 : table_ok k (put_client g c' m) reg).
  { assert (Hci : wc_id c = id) by (by apply (to_heap _ _ _ Hok)).
    apply (table_frame k g); try done; [|intros f Hf; by exists f]. apply (heap_put _ c); [by rewrite Hci|done]. }
  case_match; [by apply IH, Hset|by apply Hset].
Qed.

(** At most [k] handlers between their checks and the registration. *)
Definition few_pending (k : Z) g (i : @gw_input E) : Prop :=
  match i with GwRequest _ _ => Z.of_nat (length (gw_pending g)) < k | _ => True end.

(** A client enters or leaves. *)
Definition moves (i : @gw_input E) : bool := match i with GwEnter _ _ _ _ | GwLeave _ => true | _ => false end.

Lemma gw_step_stays k g reg i g' :
  table_ok k g reg → few_pending k g i → moves i = false → step g i = Ret g' → table_ok k g' reg.
Proof.
  intros Hok Hfew Hmv. assert (Hhb : ∀ f, hb_ok (gw_heartbeat g) f → ∃ f', hb_ok (gw_heartbeat g) f' ∧ dom f' = dom f)
    by (intros f Hf; by exists f).
  destruct i as [protocols now|i up id now|id cm pause resume now|id i|id|id|id|now|now| |msg| | |id d| |]; try done; cbn [gw_step].
  2: { apply client_message_ok, Hok. }
  13: { unfold Shutdown_finish, HM_Stop. destruct (hm_stopped (gw_heartbeat g)); [done|]. intros [= <-]. by apply (table_frame k g). }
  all: intros [= <-].
  - by apply Handler_begin_ok.
  - apply client_goroutine_ok; [|done]. intros b c. apply watcher_same.
  - by apply client_goroutine_ok.
  - by apply client_goroutine_ok.
  - unfold heartbeat_ping. case_match; [done|]. destruct (broadcastPings (gw_heartbeat g) now) as [hb ids] eqn:Hb.
    apply (table_frame k g); try done; [apply send_all_same|]. intros f Hf. destruct (broadcastPings_ok _ _ now Hf) as [Hf' _].
    rewrite Hb in Hf'. eexists. split; [exact Hf'|]. apply dom_fmap_L.
  - unfold heartbeat_sweep. case_match; [done|]. by apply run_timeouts_ok.
  - unfold heartbeat_poll. destruct (gw_sweep g); [done|]. case_match; [|done]. case_match; [|done].
    apply run_timeouts_ok. by apply (table_frame k g).
  - apply (table_frame k g); try done. apply send_all_same.
  - by apply (table_frame k g).
  - by apply (table_frame k g).
  - unfold Shutdown_client. case_match; [|done]. case_match; [|done]. by apply (table_frame k g).
  - by apply (table_frame k g).
Qed.

Lemma gw_step_table k g reg i g' :
  0 ≤ k < 2 ^ 62 → table_ok k g reg → fresh_id g i → few_pending k g i → step g i = Ret g' →
  ∃ reg', table_ok k g' reg'.
Proof.
  intros Hk Hok Hfr Hfew. destruct (moves i) eqn:Hm; [|intros Hs; exists reg; by eapply gw_step_stays].
  destruct i; try done; intros [= <-].
  - edestruct Handler_enter_ok as (reg' & Hreg & _); [done..|]. by exists reg'.
  - eexists. by apply Handler_leave_ok.
Qed.

Lemma NewGateway_ok k tm sx rate gid now : 1 ≤ k → table_ok k (NewGatewayWithReplay tm sx rate gid now) ∅.
Proof.
  intros Hk. split; cbn [NewGatewayWithReplay gw_shards gw_heartbeat gw_activeCount gw_peak gw_pending gw_clients];
    rewrite ?map_size_empty; try (cbn; lia).
  - by apply flat_empty.
  - exists ∅. split; [by apply flat_empty|by rewrite !dom_empty_L].
  - cbn. unfold maxConnections. lia.
  - apply map_Forall_empty.
  - by rewrite dom_empty_L.
Qed.

(** The table of connections is right. Whatever the handlers, the clients, the
    heartbeats and the operators do, the counter of active connections is the number
    of registered clients, the heartbeats track exactly these, and the high-water mark
    is no lower; and if at most [k] handlers are between their checks and the
    registration at a time, there are never more than 9,999 + k connections: the hard
    limit of 10,000 when requests come one at a time. *)
Lemma gateway_counts_connections k tm sx rate gid now g :
  1 ≤ k < 2 ^ 62 →
  reach time_Parse (λ g i, fresh_id g i ∧ few_pending k g i) (NewGatewayWithReplay tm sx rate gid now) g →
  GW_ClientCount g = Z.of_nat (length (gw_ids g)) ∧ NoDup (gw_ids g) ∧
  HM_ClientCount (gw_heartbeat g) = length (gw_ids g) ∧
  GW_ClientCount g ≤ gw_peak g ∧ GW_ClientCount g ≤ maxConnections - 1 + k ∧
  ∀ id, id ∈ gw_ids g ↔ gw_lookup g id = true.
Proof.
  intros Hk Hreach. assert (Hinv : ∃ reg, table_ok k g reg).
  { induction Hreach as [|g i g' _ [reg Hok] [Hf Hp] Hs]; [|by eapply (gw_step_table k g reg i g'); [lia|..]].
    exists ∅. apply (NewGateway_ok k); lia. }
  destruct Hinv as [reg Hok]. pose proof (gw_ids_ok k g reg Hok) as Hids. destruct (to_hb _ _ _ Hok) as (f & Hf & Hd).
  assert (Hlen : length (gw_ids g) = size reg) by (by rewrite Hids, length_fmap, length_map_to_list).
  unfold GW_ClientCount. split_and!.
  - rewrite Hlen. apply Hok.
  - rewrite Hids. apply NoDup_fst_map_to_list.
  - rewrite Hlen. unfold HM_ClientCount. rewrite (flat_size _ _ hashString_lt _ _ Hf), <- !size_dom. by rewrite Hd.
  - apply Hok.
  - rewrite (to_count _ _ _ Hok). pose proof (to_room _ _ _ Hok). lia.
  - intros id. rewrite Hids, (gw_lookup_ok k g reg id Hok), bool_decide_eq_true. rewrite list_elem_of_fmap. split.
    + intros ([k' v] & -> & Hin%elem_of_map_to_list). by eexists.
    + intros [v Hv]. exists (id, v). split; [done|]. by apply elem_of_map_to_list.
Qed.

(** ** Subscriptions of the connections *)

Context `{!LocalManagerLaws M H Ev, !FreshHandle M H Ev}.
Implicit Types (T : gmap string (gset string)) (m : M).

Definition handle_of c (w : option (gset string)) : Prop :=
  match w with Some _ => ∃ h, wc_handle c = Some h ∧ mg_handle_id h = wc_id c | None => wc_handle c = None end.

(** The manager's table holds the subscriptions of the connected clients that are not
    cancelled, and nothing else. *)
Record subs_ok m cs reg T : Prop := {
  su_table : mg_table m T;
  su_live : ∀ id c, is_Some (reg !! id) → cs !! id = Some c → wc_cancelled c = false → handle_of c (T !! id);
  su_dead : ∀ id ts, T !! id = Some ts → is_Some (reg !! id) ∧ ∃ c, cs !! id = Some c ∧ wc_cancelled c = false;
}.

(** Objects that differ in nothing that matters to the subscriptions. *)
Definition heap_subs cs cs' : Prop :=
  ∀ id, option_relation same_subscription (λ _, False) (λ _, False) (cs !! id) (cs' !! id).

Lemma subs_frame m cs cs' reg T : heap_subs cs cs' → subs_ok m cs reg T → subs_ok m cs' reg T.
Proof.
  intros Hs [Ht Hl Hd]. split; [done| |].
  - intros id c Hr Hc Hcan. specialize (Hs id). rewrite Hc in Hs. destruct (cs !! id) as [c0|] eqn:H0; [|done].
    destruct Hs as [S1 S2 S3]. rewrite S3 in Hcan. specialize (Hl id c0 Hr H0 Hcan). unfold handle_of in *. by rewrite S1, S2.
  - intros id ts Hts. destruct (Hd id ts Hts) as [Hr (c & Hc & Hcan)]. split; [done|]. specialize (Hs id). rewrite Hc in Hs.
    destruct (cs' !! id) as [c'|]; [|done]. exists c'. split; [done|]. destruct Hs as [_ _ S3]. by rewrite S3.
Qed.

#[local] Instance heap_subs_refl : Reflexive heap_subs.
Proof. intros cs id. by destruct (cs !! id). Qed.
#[local] Instance heap_subs_trans : Transitive heap_subs.
Proof.
  intros a b d H1 H2 id. specialize (H1 id). specialize (H2 id). destruct (a !! id), (b !! id), (d !! id); try done.
  destruct H1 as [? ? ?], H2 as [? ? ?]. split; congruence.
Qed.

Lemma heap_subs_insert cs id c c' : cs !! id = Some c → same_subscription c c' → heap_subs cs (<[id := c']> cs).
Proof.
  intros Hc Hs k. destruct (decide (k = id)) as [->|Hne]; [by rewrite lookup_insert_eq, Hc|].
  rewrite lookup_insert_ne by done. by destruct (cs !! k).
Qed.

Lemma heap_subs_alter cs id (f : Cl → Cl) : (∀ c, same_subscription c (f c)) → heap_subs cs (alter f id cs).
Proof.
  intros Hf k. destruct (decide (k = id)) as [->|Hne].
  - rewrite lookup_alter_eq. destruct (cs !! id); [apply Hf|done].
  - rewrite lookup_alter_ne by done. by destruct (cs !! k).
Qed.

Lemma send_all_subs ids msg cs : heap_subs cs (send_all ids msg cs).
Proof.
  revert cs. induction ids as [|id ids IH]; intros cs; [done|]. cbn [send_all foldl]. etransitivity; [|apply IH].
  apply heap_subs_alter. intros c. apply sendControl_same.
Qed.

Lemma client_goroutine_subs g reg T id (f : bool → Cl → Cl) :
  heap_ok (gw_clients g) → (∀ b c, same_subscription c (f b c)) →
  subs_ok (gw_tm g) (gw_clients g) reg T →
  subs_ok (gw_tm (client_goroutine g id f)) (gw_clients (client_goroutine g id f)) reg T.
Proof.
  intros Hh Hf Hok. unfold client_goroutine. destruct (gw_clients g !! id) as [c|] eqn:Hc; [|done]. cbn.
  apply (subs_frame _ (gw_clients g)); [|done]. apply (heap_subs_insert _ _ c); [|done].
  rewrite (ss_id _ _ (Hf _ c)). by rewrite (Hh _ _ Hc).
Qed.

(** Cancelling a client. *)
Lemma cancel_subs m cs reg T id c :
  heap_ok cs → subs_ok m cs reg T → is_Some (reg !! id) → cs !! id = Some c →
  subs_ok (cancelAll c m).2 (<[id := (cancelAll c m).1]> cs) reg (delete id T).
Proof.
  intros Hh [Ht Hl Hd] Hr Hc. pose proof (Hh _ _ Hc) as Hci. cbn in Hci. unfold cancelAll.
  destruct (wc_cancelled c) eqn:Hcan; cbn [fst snd].
  - assert (Hid : T !! id = None).
    { destruct (T !! id) as [ts|] eqn:Hts; [|done]. destruct (Hd id ts Hts) as [_ (c1 & Hc1 & Hcan1)]. congruence. }
    rewrite delete_id, insert_id by done. by split.
  - assert (Ht' : mg_table (match wc_handle c with Some h => mg_Cancel m h | None => m end) (delete id T)).
    { specialize (Hl id c Hr Hc Hcan). destruct (T !! id) as [ts|] eqn:Hts; cbn in Hl.
      - destruct Hl as (h & -> & Hhid). apply (mg_Cancel_table _ _ h) in Ht. by rewrite Hhid, Hci in Ht.
      - rewrite Hl. by rewrite delete_id. }
    split; [done| |].
    + intros k c1 Hk. destruct (decide (k = id)) as [->|Hne]; [by rewrite lookup_insert_eq; intros [= <-]|].
      rewrite lookup_insert_ne, lookup_delete_ne by done. by apply Hl.
    + intros k ts. destruct (decide (k = id)) as [->|Hne]; [by rewrite lookup_delete_eq|].
      rewrite lookup_insert_ne, lookup_delete_ne by done. apply Hd.
Qed.

(** A message of a client that is not cancelled. *)
Lemma message_subs sx m cs reg T id c cm pause resume c' m' :
  heap_ok cs → subs_ok m cs reg T → is_Some (reg !! id) → cs !! id = Some c → wc_cancelled c = false →
  handleMessage time_Parse sx c m cm pause resume = Ret (c', m') →
  ∃ T', subs_ok m' (<[id := c']> cs) reg T'.
Proof.
  intros Hh [Ht Hl Hd] Hr Hc Hcan Hm. pose proof (Hh _ _ Hc) as Hci. cbn in Hci.
  assert (Hsub : subscribed c m (delete id T) (T !! id)).
  { split; rewrite ?Hci.
    - destruct (T !! id) as [ts|] eqn:Hts; [by rewrite insert_delete_id|by rewrite delete_id].
    - apply lookup_delete_eq.
    - specialize (Hl id c Hr Hc Hcan). unfold handle_of in Hl. destruct (T !! id); [by rewrite <- Hci|done]. }
  destruct (client_step_ok time_Parse sx c m _ _ (ClMessage cm pause resume) c' m' Hsub Hm) as [[Ht' _ Hh'] Ho].
  injection Ho as Hid Hcan'. set (w := want_input _ _ _ _) in *. clearbody w.
  assert (Hw : ∀ k, (match w with Some ts => <[id := ts]> (delete id T) | None => delete id T end) !! k =
    if decide (k = id) then w else T !! k).
  { intros k. case_decide as Hk; [subst k; destruct w; [apply lookup_insert_eq|apply lookup_delete_eq]|].
    destruct w; rewrite ?lookup_insert_ne, lookup_delete_ne by done; done. }
  exists (match w with Some ts => <[id := ts]> (delete id T) | None => delete id T end). split.
  - by rewrite Hid, Hci in Ht'.
  - intros k c1 Hk. rewrite Hw. case_decide as Hki.
    + subst k. rewrite lookup_insert_eq. by intros [= <-] _.
    + rewrite lookup_insert_ne by done. by apply Hl.
  - intros k ts. rewrite Hw. case_decide as Hki.
    + intros _. subst k. split; [done|]. exists c'. rewrite lookup_insert_eq. split; [done|congruence].
    + rewrite lookup_insert_ne by done. apply Hd.
Qed.

Lemma run_timeouts_subs k reg ids : ∀ g T,
  table_ok k g reg → subs_ok (gw_tm g) (gw_clients g) reg T →
  ∃ T', subs_ok (gw_tm (run_timeouts g ids)) (gw_clients (run_timeouts g ids)) reg T'.
Proof.
  induction ids as [|id ids IH]; intros g T Hok Hs; cbn [run_timeouts]; [by exists T|].
  destruct (hm_shard _ _ !! id) as [e|] eqn:He; [|by eapply IH].
  destruct (gw_clients g !! id) as [c|] eqn:Hc; [|by eapply IH].
  assert (Hr : is_Some (reg !! id)).
  { destruct (to_hb _ _ _ Hok) as (f & Hf & Hd). destruct (hm_shard_ok _ _ id Hf) as [_ Hfi].
    apply elem_of_dom. rewrite <- Hd. apply elem_of_dom. rewrite <- Hfi, He. by eexists. }
  pose proof (to_heap _ _ _ Hok) as Hh. pose proof (Hh _ _ Hc) as Hci. cbn in Hci.
  pose proof (cancel_subs _ _ _ _ id c Hh Hs Hr Hc) as Hs1. pose proof (cancelAll_id c (gw_tm g)) as Hid.
  destruct (cancelAll c (gw_tm g)) as [c' m]. cbn [fst snd] in *.
  assert (Hok1 : table_ok k (put_client g c' m) reg).
  { apply (table_frame k g); try done; [|intros f Hf; by exists f]. apply (heap_put _ c); [by rewrite Hci|done]. }
  assert (Hs2 : subs_ok (gw_tm (put_client g c' m)) (gw_clients (put_client g c' m)) reg (delete id T)).
  { cbn. by rewrite Hid, Hci. }
  case_match; [|by eexists]. eapply IH; [|exact Hs2]. apply (table_frame k (put_client g c' m)); try done. intros f Hf. by exists f.
Qed.

(** A client that has been cancelled sends no more messages. *)
Definition polite g (i : @gw_input E) : Prop :=
  match i with GwMessage id _ _ _ _ => ∀ c, gw_clients g !! id = Some c → wc_cancelled c = false | _ => True end.

Lemma enter_subs k g reg T i upgraded id now :
  table_ok k g reg → gw_clients g !! id = None → 0 ≤ k < 2 ^ 62 → subs_ok (gw_tm g) (gw_clients g) reg T →
  ∃ reg', table_ok k (Handler_enter g i upgraded id now) reg' ∧
    subs_ok (gw_tm (Handler_enter g i upgraded id now)) (gw_clients (Handler_enter g i upgraded id now)) reg' T.
Proof.
  intros Hok Hid Hk [Ht Hl Hd]. destruct (Handler_enter_ok k g reg i upgraded id now Hok Hid Hk) as (reg' & Hok' & Hreg).
  exists reg'. split; [done|].
  assert (Hcs : gw_tm (Handler_enter g i upgraded id now) = gw_tm g ∧
    (gw_clients (Handler_enter g i upgraded id now) = gw_clients g ∨
     gw_clients (Handler_enter g i upgraded id now) = <[id := newClient id]> (gw_clients g))).
  { unfold Handler_enter. destruct (gw_pending g !! i), upgraded; cbn; auto. }
  destruct Hcs as [-> Hcs].
  assert (Hno : T !! id = None). { destruct (T !! id) as [ts|] eqn:Hts; [|done]. destruct (Hd id ts Hts) as [_ (c & Hc & _)]. congruence. }
  assert (Hother : ∀ j, j ≠ id → reg' !! j = reg !! j ∧ gw_clients (Handler_enter g i upgraded id now) !! j = gw_clients g !! j).
  { intros j Hj. destruct Hreg as [->|[_ ->]], Hcs as [-> | ->]; by rewrite ?lookup_insert_ne. }
  split; [done| |].
  - intros j c. destruct (decide (j = id)) as [->|Hj].
    + intros _ Hc _. rewrite Hno. destruct Hcs as [E1|E1]; rewrite E1 in Hc; [congruence|].
      rewrite lookup_insert_eq in Hc. by injection Hc as <-.
    + destruct (Hother j Hj) as [-> ->]. apply Hl.
  - intros j ts Hts. destruct (decide (j = id)) as [->|Hj]; [congruence|]. destruct (Hother j Hj) as [-> ->]. by apply (Hd j ts).
Qed.

Lemma leave_subs k g reg T id :
  table_ok k g reg → subs_ok (gw_tm g) (gw_clients g) reg T →
  subs_ok (gw_tm (Handler_leave g id)) (gw_clients (Handler_leave g id)) (delete id reg) (delete id T).
Proof.
  intros Hok Hs. unfold Handler_leave, unregister. change (gw_lookup (set_hb g _) id) with (gw_lookup g id).
  rewrite (gw_lookup_ok k g reg id Hok). case_bool_decide as Hr.
  - assert (Hin : id ∈ dom (gw_clients g)) by (apply (to_conns _ _ _ Hok), elem_of_dom, Hr). apply elem_of_dom in Hin as [c Hc].
    cbn [set_hb gw_clients]. rewrite Hc. pose proof (cancel_subs _ _ _ _ id c (to_heap _ _ _ Hok) Hs Hr Hc) as [Ht Hl Hd].
    cbn [set_table set_hb gw_tm]. destruct (cancelAll c (gw_tm g)) as [c' m]. cbn [fst snd] in *. cbn. split; [done| |].
    + intros j c1 Hj. destruct (decide (j = id)) as [->|Hne]; [rewrite lookup_delete_eq in Hj; by destruct Hj|].
      rewrite lookup_delete_ne in Hj by done. by apply Hl.
    + intros j ts Hts. destruct (decide (j = id)) as [->|Hne]; [by rewrite lookup_delete_eq in Hts|].
      rewrite lookup_delete_ne by done. by apply (Hd j ts).
  - assert (Hno : T !! id = None).
    { destruct (T !! id) as [ts|] eqn:Hts; [|done]. by destruct (su_dead _ _ _ _ Hs id ts Hts). }
    rewrite !delete_id by (done || by apply eq_None_not_Some). done.
Qed.

Lemma gw_step_subs k g reg T i g' :
  0 ≤ k < 2 ^ 62 → table_ok k g reg → subs_ok (gw_tm g) (gw_clients g) reg T →
  fresh_id g i → few_pending k g i → polite g i → step g i = Ret g' →
  ∃ reg' T', table_ok k g' reg' ∧ subs_ok (gw_tm g') (gw_clients g') reg' T'.
Proof.
  intros Hk Hok Hs Hfr Hfew Hpol Hstep. destruct (moves i) eqn:Hm.
  { destruct i as [|i up id now| | | | |id| | | | | | | | |]; try done; injection Hstep as <-.
    - destruct (enter_subs k g reg T i up id now Hok Hfr Hk Hs) as (reg' & H1 & H2). by exists reg', T.
    - exists (delete id reg), (delete id T). split; [by apply Handler_leave_ok|by apply (leave_subs k)]. }
  pose proof (gw_step_stays k g reg i g' Hok Hfew Hm Hstep) as Hok'. exists reg.
  enough (∃ T', subs_ok (gw_tm g') (gw_clients g') reg T') as [T' HT'] by (by exists T').
  pose proof (to_heap _ _ _ Hok) as Hh.
  destruct i as [protocols now|i up id now|id cm pause resume now|id i|id|id|id|now|now| |msg| | |id d| |]; try done;
    cbn [gw_step] in Hstep.
  2: { revert Hstep. unfold client_message. rewrite (gw_lookup_ok k g reg id Hok). case_bool_decide as Hr; [|intros [= <-]; by exists T].
       destruct (gw_clients g !! id) as [c|] eqn:Hc; [|intros [= <-]; by exists T].
       destruct (handleMessage _ _ _ _ _ _ _) as [[c' m']|] eqn:Hmsg; [|done]. intros [= <-].
       destruct (message_subs _ _ _ reg T id c cm pause resume c' m' Hh Hs Hr Hc (Hpol c Hc) Hmsg) as [T' HT'].
       apply handleMessage_owner in Hmsg. injection Hmsg as Hid _. rewrite (Hh _ _ Hc) in Hid.
       exists T'. case_bool_decide; cbn; by rewrite Hid. }
  13: { revert Hstep. unfold Shutdown_finish, HM_Stop. destruct (hm_stopped (gw_heartbeat g)); [done|]. intros [= <-]. by exists T. }
  all: injection Hstep as <-.
  - exists T. unfold Handler_begin. pose proof (handler_checks_frame g protocols now) as Hf.
    destruct (Handler_checks g protocols now) as [g1 [|]]; destruct Hf as [-> _]; done.
  - exists T. apply client_goroutine_subs; [done| |done]. intros b c. apply watcher_same.
  - exists T. by apply client_goroutine_subs.
  - exists T. by apply client_goroutine_subs.
  - exists T. unfold heartbeat_ping. case_match; [done|]. destruct (broadcastPings _ _).
    apply (subs_frame _ (gw_clients g)); [apply send_all_subs|done].
  - unfold heartbeat_sweep. case_match; [by exists T|]. by apply (run_timeouts_subs k reg _ g T).
  - unfold heartbeat_poll. destruct (gw_sweep g) as [|id ids]; [by exists T|].
    case_match; [|by exists T]. case_match; [|by exists T]. eapply (run_timeouts_subs k reg _ _ T); [|exact Hs].
    apply (table_frame k g); try done. intros f Hf. by exists f.
  - exists T. apply (subs_frame _ (gw_clients g)); [apply send_all_subs|done].
  - by exists T.
  - by exists T.
  - exists T. unfold Shutdown_client. case_match; [|done]. by case_match.
  - by exists T.
Qed.

(** C9: No subscription outlives its connection. If the topic manager starts empty
    and a client whose subscription was cancelled by its timeout sends no more
    messages, the manager's table holds entries of connected clients only, each
    connected client that is not timed out has one if and only if it holds a handle, and
    when the last client has left the table is empty. *)
Theorem subscriptions_end_with_connections k tm sx rate gid now g :
  1 ≤ k < 2 ^ 62 → mg_table tm ∅ →
  reach time_Parse (λ g i, fresh_id g i ∧ few_pending k g i ∧ polite g i) (NewGatewayWithReplay tm sx rate gid now) g →
  ∃ T, mg_table (gw_tm g) T ∧
    (∀ id ts, T !! id = Some ts → gw_lookup g id = true) ∧
    (∀ id c, gw_lookup g id = true → gw_clients g !! id = Some c → wc_cancelled c = false →
       is_Some (T !! id) ↔ is_Some (wc_handle c)) ∧
    (GW_ClientCount g = 0 → T = ∅).
Proof.
  intros Hk Htm Hreach. assert (Hinv : ∃ reg T, table_ok k g reg ∧ subs_ok (gw_tm g) (gw_clients g) reg T).
  { induction Hreach as [|g i g' _ (reg & T & Hok & Hs) (Hf & Hp & Hq) Hst].
    - exists ∅, ∅. split; [apply NewGateway_ok; lia|]. split; [done|by intros id c [? ?]|by intros id ts].
    - by eapply gw_step_subs; [lia|..]. }
  destruct Hinv as (reg & T & Hok & Hs). exists T. pose proof (λ id, gw_lookup_ok k g reg id Hok) as Hlk. split_and!.
  - apply Hs.
  - intros id ts Hts. rewrite Hlk. apply bool_decide_eq_true_2. by destruct (su_dead _ _ _ _ Hs id ts Hts).
  - intros id c Hr Hc Hcan. rewrite Hlk in Hr. apply bool_decide_eq_true in Hr.
    pose proof (su_live _ _ _ _ Hs id c Hr Hc Hcan) as Hl. unfold handle_of in Hl. destruct (T !! id).
    + destruct Hl as (h & -> & _). by split; eexists.
    + rewrite Hl. done.
  - intros Hz. unfold GW_ClientCount in Hz. rewrite (to_count _ _ _ Hok) in Hz. assert (Hre : reg = ∅) by (apply map_size_empty_inv; lia).
    apply map_empty. intros id. destruct (T !! id) as [ts|] eqn:Hts; [|done]. destruct (su_dead _ _ _ _ Hs id ts Hts) as [[x Hx] _].
    by rewrite Hre, lookup_empty in Hx.
Qed.
End invariants.

(** ** Heartbeats and replays *)

Section stalls.
Context {E : Type} `{!MarketEventOps E}.
Context {M H Ev : Type} `{!LocalManager M H Ev}.
Context (time_Parse : string → result Z string).
#[local] Abbreviation Cl := (@Client E H).
#[local] Abbreviation Gw := (@Gateway E M H).
#[local] Abbreviation step := (gw_step time_Parse).
Implicit Types (g : Gw) (c : Cl) (cs : gmap string Cl) (reg : gmap string unit) (cl : gset string).

(** The replay state of every client whose context is not cancelled. *)
Definition heap_replay cl cs : Prop := ∀ id c, cs !! id = Some c → id ∉ cl → replay_ok c.

Lemma heap_replay_insert cl cs id c :
  heap_replay cl cs → (id ∉ cl → replay_ok c) → heap_replay cl (<[id := c]> cs).
Proof.
  intros Hh Hc k c'. destruct (decide (k = id)) as [->|Hne]; [rewrite lookup_insert_eq; by intros [= <-]|].
  rewrite lookup_insert_ne by done. apply Hh.
Qed.

Lemma heap_replay_closing cl cl' cs : cl ⊆ cl' → heap_replay cl cs → heap_replay cl' cs.
Proof. intros Hsub Hh id c Hc Hn. apply (Hh id c Hc). set_solver. Qed.

Lemma send_all_replay ids msg : ∀ cs id,
  option_relation same_replay (λ _, False) (λ _, False) (cs !! id) (send_all ids msg cs !! id).
Proof.
  induction ids as [|k ids IH]; intros cs id; [cbn; by destruct (cs !! id)|]. cbn [send_all foldl].
  specialize (IH (alter (λ c, sendControl c msg) k cs) id). cbn [send_all] in IH.
  destruct (decide (id = k)) as [->|Hne]; [rewrite lookup_alter_eq in IH|by rewrite lookup_alter_ne in IH].
  destruct (cs !! k) as [c|]; [|done]. cbn [fmap option_fmap option_map] in IH. unfold send_all in IH. revert IH. generalize (foldl (λ cs id, alter (λ c, sendControl c msg) id cs) (alter (λ c, sendControl c msg) k cs) ids !! k).
  intros [c'|] IH; [|done].
  cbn [option_relation] in *. destruct IH as (H1 & H2 & H3), (sendControl_replay c msg) as (H4 & H5 & H6). split_and!; congruence.
Qed.

Lemma heap_replay_send cl cs ids msg : heap_replay cl cs → heap_replay cl (send_all ids msg cs).
Proof.
  intros Hh id c Hc Hn. pose proof (send_all_replay ids msg cs id) as Hs. rewrite Hc in Hs.
  destruct (cs !! id) as [c0|] eqn:H0; [|done]. apply (replay_ok_same c0); [done|by apply (Hh id)].
Qed.

Lemma cancelAll_replay c (m : M) : same_replay c (cancelAll c m).1.
Proof. unfold cancelAll. by destruct (wc_cancelled c). Qed.

Lemma run_timeouts_replay ids : ∀ g,
  heap_ok (gw_clients g) → heap_replay (gw_closing g) (gw_clients g) →
  heap_replay (gw_closing (run_timeouts g ids)) (gw_clients (run_timeouts g ids)).
Proof.
  induction ids as [|id ids IH]; intros g Hid Hh; cbn [run_timeouts]; [done|].
  destruct (hm_shard _ _ !! id); [|by apply IH]. destruct (gw_clients g !! id) as [c|] eqn:Hc; [|by apply IH].
  pose proof (cancelAll_replay c (gw_tm g)) as Hs. pose proof (cancelAll_id c (gw_tm g)) as Hci.
  destruct (cancelAll c (gw_tm g)) as [c' m]. cbn [fst] in Hs, Hci. pose proof (Hid _ _ Hc) as Hcid. cbn in Hcid.
  assert (Hput : heap_replay (gw_closing g) (gw_clients (put_client g c' m))).
  { apply heap_replay_insert; [done|]. intros Hn. apply (replay_ok_same c); [done|]. apply (Hh id); [done|]. congruence. }
  case_match; [|done]. apply IH; cbn.
  - by apply map_Forall_insert_2.
  - apply (heap_replay_closing (gw_closing g)); [set_solver|exact Hput].
Qed.

Lemma gw_step_replay k g reg i g' :
  table_ok k g reg → heap_replay (gw_closing g) (gw_clients g) → step g i = Ret g' →
  heap_replay (gw_closing g') (gw_clients g').
Proof.
  intros Hok Hh Hst. pose proof (to_heap _ _ _ Hok) as Hid.
  destruct i as [protocols now|i up id now|id cm pause resume now|id i|id|id|id|now|now| |msg| | |id d| |]; cbn [gw_step] in Hst.
  3: { revert Hst. unfold client_message. destruct (gw_lookup g id); [|by intros [= <-]].
       destruct (gw_clients g !! id) as [c|] eqn:Hc; [|by intros [= <-]].
       destruct (handleMessage _ _ _ _ _ _ _) as [[c' m']|] eqn:Hm; [|done]. intros [= <-].
       pose proof (handleMessage_owner _ _ _ _ _ _ _ _ _ Hm) as Ho. injection Ho as Hci _. pose proof (Hid _ _ Hc) as Hcid. cbn in Hcid.
       assert (Hput : heap_replay (gw_closing g) (gw_clients (put_client g c' m'))).
       { apply heap_replay_insert; [done|]. intros Hn.
         apply (client_step_replay time_Parse (gw_services g) c (gw_tm g) (ClMessage cm pause resume) c' m'); [done| |done].
         apply (Hh id); [done|congruence]. }
       by case_bool_decide. }
  15: { revert Hst. unfold Shutdown_finish, HM_Stop. destruct (hm_stopped (gw_heartbeat g)); [done|]. by intros [= <-]. }
  all: injection Hst as <-.
  - unfold Handler_begin. pose proof (handler_checks_frame g protocols now) as Hf.
    destruct (Handler_checks g protocols now) as [g1 [|]]; destruct Hf as [-> _]; done.
  - unfold Handler_enter. destruct (gw_pending g !! i), up; [|done..]. cbn. apply heap_replay_insert; [done|].
    intros _. by split; [constructor|].
  - unfold client_goroutine. destruct (gw_clients g !! id) as [c|] eqn:Hc; [|done]. cbn. pose proof (Hid _ _ Hc) as Hcid. cbn in Hcid.
    pose proof (ss_id _ _ (watcher_same c i (bool_decide (id ∈ gw_closing g)))) as Hw. rewrite Hw, Hcid.
    apply heap_replay_insert; [done|]. intros Hn. rewrite bool_decide_eq_false_2 by done. apply wake_open. by apply (Hh id).
  - unfold client_goroutine. destruct (gw_clients g !! id) as [c|] eqn:Hc; [|done]. cbn. pose proof (Hid _ _ Hc) as Hcid. cbn in Hcid.
    apply heap_replay_insert; [done|]. intros Hn. apply (replay_ok_same c); [done|]. apply (Hh id); [done|congruence].
  - unfold client_goroutine. destruct (gw_clients g !! id) as [c|] eqn:Hc; [|done]. cbn. pose proof (Hid _ _ Hc) as Hcid. cbn in Hcid.
    apply heap_replay_insert; [done|]. intros Hn. apply (replay_ok_same c); [done|]. apply (Hh id); [done|congruence].
  - unfold Handler_leave. destruct (gw_lookup g id) eqn:Hl; [|done]. unfold unregister. change (gw_lookup (set_hb g _) id) with (gw_lookup g id).
    rewrite Hl. cbn [set_hb gw_clients]. destruct (gw_clients g !! id) as [c|] eqn:Hc; [|done].
    pose proof (cancelAll_replay c (gw_tm g)) as Hs. cbn [set_table set_hb gw_tm]. destruct (cancelAll c (gw_tm g)) as [c' m]. cbn.
    apply heap_replay_insert; [done|]. intros Hn. apply (replay_ok_same c); [done|]. by apply (Hh id).
  - unfold heartbeat_ping. case_match; [done|]. destruct (broadcastPings _ _). by apply heap_replay_send.
  - unfold heartbeat_sweep. case_match; [done|]. by apply run_timeouts_replay.
  - unfold heartbeat_poll. destruct (gw_sweep g); [done|]. case_match; [|done]. case_match; [|done].
    apply run_timeouts_replay; [done|]. cbn. apply (heap_replay_closing (gw_closing g)); [set_solver|done].
  - by apply heap_replay_send.
  - cbn. apply (heap_replay_closing (gw_closing g)); [set_solver|done].
  - done.
  - unfold Shutdown_client. case_match; [|done]. case_match; [|done]. cbn. apply (heap_replay_closing (gw_closing g)); [set_solver|done].
  - done.
Qed.

(** The heartbeat goroutine waits for a client that has left with a replay running. *)
Record stuck (k : Z) g reg (id : string) (ids : list string) : Prop := {
  sk_table : table_ok k g reg;
  sk_left : reg !! id = None;
  sk_client : ∃ c s, gw_clients g !! id = Some c ∧ wc_activeReplaySession c = Some s ∧ replay_ok c;
  sk_open : id ∉ gw_closing g;
  sk_sweep : gw_sweep g = id :: ids;
}.

Definition not_closing (i : @gw_input E) : Prop := match i with GwClose _ _ => False | _ => True end.

(** A step that touches other clients only. *)
Lemma stuck_other k g reg id ids g' reg' :
  stuck k g reg id ids → table_ok k g' reg' → reg' !! id = None → gw_clients g' !! id = gw_clients g !! id →
  gw_closing g' = gw_closing g → gw_sweep g' = gw_sweep g → stuck k g' reg' id ids.
Proof. intros [_ _ Hc Ho Hs] Hok Hr Ec Eo Es. split; [done|done|by rewrite Ec|by rewrite Eo|by rewrite Es]. Qed.

Lemma stuck_heartbeat k g reg id ids now :
  stuck k g reg id ids → heartbeat_ping g now = g ∧ heartbeat_sweep g now = g ∧ heartbeat_poll g = g.
Proof.
  intros [_ _ (c & s & Hc & Ha & _) Ho Hs]. unfold heartbeat_ping, heartbeat_sweep, heartbeat_poll. rewrite Hs.
  rewrite bool_decide_eq_false_2 by done. rewrite orb_true_r. split_and!; [done|done|].
  rewrite Hc. unfold shutdown_ready. rewrite Ha. by rewrite !bool_decide_eq_false_2.
Qed.

Lemma stuck_goroutine k g reg id ids j (f : bool → Cl → Cl) :
  stuck k g reg id ids → (∀ b c, wc_id (f b c) = wc_id c) →
  (∀ c s, wc_activeReplaySession c = Some s → replay_ok c →
     wc_activeReplaySession (f false c) = Some s ∧ replay_ok (f false c)) →
  stuck k (client_goroutine g j f) reg id ids.
Proof.
  intros Hst Hid Hf. pose proof (client_goroutine_ok k g reg j f Hid (sk_table _ _ _ _ _ Hst)) as Hok.
  revert Hok. unfold client_goroutine. destruct (gw_clients g !! j) as [c|] eqn:Hc; [|done]. intros Hok.
  pose proof (to_heap _ _ _ (sk_table _ _ _ _ _ Hst) _ _ Hc) as Hcj. cbn in Hcj.
  destruct (decide (j = id)) as [Heq|Hne].
  - destruct Hst as [_ Hl (c0 & s & Hc0 & Ha & Hr) Ho Hs]. split; try done.
    rewrite Heq in *. rewrite Hc in Hc0. injection Hc0 as <-. rewrite bool_decide_eq_false_2 by done.
    destruct (Hf c s Ha Hr) as [H1 H2]. exists (f false c), s. cbn. rewrite Hid, Hcj. by rewrite lookup_insert_eq.
  - apply (stuck_other k g reg); try done; [apply Hst|]. cbn. rewrite Hid, Hcj. by rewrite lookup_insert_ne.
Qed.

Lemma stuck_step k g reg id ids i g' :
  0 ≤ k < 2 ^ 62 → stuck k g reg id ids → fresh_id g i → few_pending k g i → not_closing i → step g i = Ret g' →
  ∃ reg', stuck k g' reg' id ids.
Proof.
  intros Hk Hst Hfr Hfew Hnc Hs. pose proof (sk_table _ _ _ _ _ Hst) as Hok. pose proof (sk_left _ _ _ _ _ Hst) as Hleft.
  destruct (moves i) eqn:Hm.
  { destruct i as [|i up j now| | | | |j| | | | | | | | |]; try done; injection Hs as <-.
    - assert (Hj : j ≠ id). { intros ->. destruct (sk_client _ _ _ _ _ Hst) as (c & s & Hc & _). cbn in Hfr. congruence. }
      destruct (Handler_enter_ok k g reg i up j now Hok Hfr Hk) as (reg' & Hok' & Hreg). exists reg'.
      apply (stuck_other k g reg); [done|done| | | |].
      + destruct Hreg as [->|[_ ->]]; [done|by rewrite lookup_insert_ne].
      + unfold Handler_enter. destruct (gw_pending g !! i), up; [|done..]. cbn. by rewrite lookup_insert_ne.
      + unfold Handler_enter. by destruct (gw_pending g !! i), up.
      + unfold Handler_enter. by destruct (gw_pending g !! i), up.
    - exists (delete j reg). pose proof (Handler_leave_ok k g reg j Hok Hk) as Hok'.
      assert (Hreg : delete j reg !! id = None).
      { destruct (decide (j = id)) as [->|]; [apply lookup_delete_eq|by rewrite lookup_delete_ne]. }
      apply (stuck_other k g reg); [done|done|done| | |]; unfold Handler_leave, unregister;
        change (gw_lookup (set_hb g _) j) with (gw_lookup g j); rewrite (gw_lookup_ok k g reg j Hok); case_bool_decide as Hr; try done;
        (assert (Hj : j ≠ id) by (intros ->; rewrite Hleft in Hr; by destruct Hr));
        cbn [set_hb gw_clients]; (destruct (gw_clients g !! j) as [c|]; [|done]); cbn [set_table set_hb gw_tm];
        destruct (cancelAll c (gw_tm g)) as [c' m]; cbn; [by rewrite lookup_insert_ne|done|done]. }
  pose proof (gw_step_stays time_Parse k g reg i g' Hok Hfew Hm Hs) as Hok'. exists reg.
  destruct i as [protocols now|i up j now|j cm pause resume now|j i|j|j|j|now|now| |msg| | |j d| |]; try done; cbn [gw_step] in Hs.
  2: { revert Hs. unfold client_message. rewrite (gw_lookup_ok k g reg j Hok). case_bool_decide as Hr; [|by intros [= <-]].
       assert (Hj : j ≠ id) by (intros ->; rewrite Hleft in Hr; by destruct Hr).
       destruct (gw_clients g !! j) as [c|] eqn:Hc; [|by intros [= <-]].
       destruct (handleMessage _ _ _ _ _ _ _) as [[c' m']|] eqn:Hmsg; [|done]. intros [= <-].
       apply handleMessage_owner in Hmsg. injection Hmsg as Hci _. rewrite (to_heap _ _ _ Hok _ _ Hc) in Hci.
       apply (stuck_other k g reg); [done|done|done| | |]; case_bool_decide; cbn; rewrite ?Hci; try done; by rewrite lookup_insert_ne. }
  12: { revert Hs. unfold Shutdown_finish, HM_Stop. destruct (hm_stopped (gw_heartbeat g)); [done|].
        intros [= <-]. by apply (stuck_other k g reg). }
  all: injection Hs as <-.
  - apply (stuck_other k g reg); try done; unfold Handler_begin; pose proof (handler_checks_frame g protocols now) as Hf;
      destruct (Handler_checks g protocols now) as [g1 [|]]; destruct Hf as [-> _]; done.
  - apply stuck_goroutine; [done|intros b c; apply watcher_same|]. intros c s Ha Hr. destruct (wake_open c i Hr) as (_ & H1 & H2).
    split; [congruence|done].
  - apply stuck_goroutine; [done|done|]. intros c s Ha Hr. split; [done|by apply (replay_ok_same c)].
  - apply stuck_goroutine; [done|done|]. intros c s Ha Hr. split; [done|by apply (replay_ok_same c)].
  - by destruct (stuck_heartbeat k g reg id ids now Hst) as (-> & _ & _).
  - by destruct (stuck_heartbeat k g reg id ids now Hst) as (_ & -> & _).
  - by destruct (stuck_heartbeat k g reg id ids 0 Hst) as (_ & _ & ->).
  - destruct Hst as [_ Hl (c & s & Hc & Ha & Hr) Ho Hsw]. split; try done. cbn.
    pose proof (send_all_replay (gw_ids g) msg (gw_clients g) id) as Hsr. rewrite Hc in Hsr.
    destruct (send_all _ _ _ !! id) as [c'|] eqn:Hc'; [|done]. exists c', s. split_and!; [done| |by apply (replay_ok_same c)].
    destruct Hsr as (_ & H2 & _). congruence.
  - destruct Hst as [_ Hl Hc Ho Hsw]. split; try done. cbn. rewrite not_elem_of_union. split; [done|].
    rewrite elem_of_list_to_set, (gw_ids_ok k g reg Hok). intros ([i v] & -> & Hin%elem_of_map_to_list)%list_elem_of_fmap. cbn in Hl. congruence.
  - by apply (stuck_other k g reg).
  - by apply (stuck_other k g reg).
Qed.

(** One silent client can end the heartbeats. The timeout of a client that is
    replaying waits on the heartbeat goroutine until the replay's end is noted; if the
    client has left by then, nothing but the shutdown of the process can note it:
    from that state on, whatever connects, leaves or is sent, the goroutine neither
    pings nor times out any client. *)
Lemma silent_replay_stops_heartbeats k tm sx rate gid now0 g id ids c s g' :
  1 ≤ k < 2 ^ 62 →
  reach time_Parse (λ g i, fresh_id g i ∧ few_pending k g i) (NewGatewayWithReplay tm sx rate gid now0) g →
  gw_sweep g = id :: ids → gw_clients g !! id = Some c → wc_activeReplaySession c = Some s →
  gw_lookup g id = false → id ∉ gw_closing g →
  reach time_Parse (λ g i, fresh_id g i ∧ few_pending k g i ∧ not_closing i) g g' →
  gw_sweep g' = id :: ids ∧
  ∀ now, step g' (GwPing now) = Ret g' ∧ step g' (GwSweep now) = Ret g' ∧ step g' GwPoll = Ret g'.
Proof.
  intros Hk Hreach Hsw Hc Ha Hl Ho Hrest.
  assert (Hinv : ∃ reg, table_ok k g reg ∧ heap_replay (gw_closing g) (gw_clients g)).
  { clear Hrest Hsw Hc Hl Ho. induction Hreach as [|g i g1 _ (reg & Hok & Hh) (Hf & Hp) Hst].
    - exists ∅. split; [apply NewGateway_ok; lia|]. by intros j c0.
    - destruct (gw_step_table time_Parse k g reg i g1 ltac:(lia) Hok Hf Hp Hst) as [reg' Hok']. exists reg'. split; [done|].
      exact (gw_step_replay k g reg i g1 Hok Hh Hst). }
  destruct Hinv as (reg & Hok & Hh).
  assert (Hstuck : ∃ reg', stuck k g' reg' id ids).
  { induction Hrest as [|g1 i g2 _ [reg1 IH] (Hf & Hp & Hn) Hst].
    - exists reg. split; try done; [|exists c, s; split_and!; [done|done|by apply (Hh id)]].
      rewrite (gw_lookup_ok k g reg id Hok) in Hl. apply bool_decide_eq_false in Hl. by apply eq_None_not_Some.
    - eapply stuck_step; [|exact IH|..]; [lia|done..]. }
  destruct Hstuck as [reg' Hstuck]. split; [apply Hstuck|]. intros now.
  destruct (stuck_heartbeat k g' reg' id ids now Hstuck) as (H1 & H2 & H3). cbn [gw_step]. by rewrite H1, H2, H3.
Qed.
End stalls.

(** ** Draining *)

Section draining.
Context {E : Type} `{!MarketEventOps E}.
Context {M H Ev : Type} `{!LocalManager M H Ev}.
Context (time_Parse : string → result Z string).
#[local] Abbreviation Gw := (@Gateway E M H).
Implicit Types (g : Gw).

Definition refusing (s : LifecycleState) : Prop := s = LifecycleDraining ∨ s = LifecycleOffline.

Lemma Transition_refusing l to : refusing (lc_state l) → refusing (lc_state (Transition l to).1).
Proof.
  intros Hr. unfold Transition. case_bool_decide; [done|]. destruct (isValidTransition (lc_state l) to) eqn:Hv; [|done]. cbn.
  destruct Hr as [Hs|Hs]; rewrite Hs in Hv; [|done]. cbn in Hv. apply bool_decide_eq_true in Hv. by right.
Qed.

Lemma run_timeouts_lifecycle ids : ∀ g, gw_lifecycle (run_timeouts g ids) = gw_lifecycle g.
Proof.
  induction ids as [|id ids IH]; intros g; cbn [run_timeouts]; [done|].
  destruct (hm_shard _ _ !! id); [|apply IH]. destruct (gw_clients g !! id) as [c|]; [|apply IH].
  destruct (cancelAll c (gw_tm g)) as [c' m]. case_match; [by rewrite IH|done].
Qed.

Lemma gw_step_refusing g i g' : refusing (gw_state g) → gw_step time_Parse g i = Ret g' → refusing (gw_state g').
Proof.
  intros Hr Hs. assert (Hsame : ∀ g1, gw_lifecycle g1 = gw_lifecycle g → refusing (gw_state g1)) by (unfold gw_state; by intros g1 ->).
  destruct i as [protocols now|i up id now|id cm pause resume now|id i|id|id|id|now|now| |msg| | |id d| |]; cbn [gw_step] in Hs.
  3: { revert Hs. unfold client_message. repeat case_match; intros [= <-]; by apply Hsame. }
  15: { revert Hs. unfold Shutdown_finish, HM_Stop. destruct (hm_stopped (gw_heartbeat g)); [done|]. intros [= <-].
        by apply Transition_refusing. }
  all: injection Hs as <-.
  - apply Hsame. unfold Handler_begin. pose proof (handler_checks_frame g protocols now) as Hf.
    destruct (Handler_checks g protocols now) as [g1 [|]]; destruct Hf as [-> _]; done.
  - apply Hsame. unfold Handler_enter. by destruct (gw_pending g !! i), up.
  - apply Hsame. unfold client_goroutine. by case_match.
  - apply Hsame. unfold client_goroutine. by case_match.
  - apply Hsame. unfold client_goroutine. by case_match.
  - apply Hsame. unfold Handler_leave, unregister. case_match; [|done]. case_match; [|done]. case_match; [|done].
    by destruct (cancelAll _ _).
  - apply Hsame. unfold heartbeat_ping. case_match; [done|]. by destruct (broadcastPings _ _).
  - apply Hsame. unfold heartbeat_sweep. case_match; [done|]. apply run_timeouts_lifecycle.
  - apply Hsame. unfold heartbeat_poll. case_match; [done|]. case_match; [|done]. case_match; [|done]. by rewrite run_timeouts_lifecycle.
  - done.
  - done.
  - by apply Transition_refusing.
  - apply Hsame. unfold Shutdown_client. case_match; [|done]. by case_match.
  - by apply Transition_refusing.
Qed.

(** A gateway that drains never accepts a connection again, and says so. *)
Lemma draining_is_final g g' :
  refusing (gw_state g) → reach time_Parse (λ _ _, True) g g' →
  Check_state g' = StateOffline ∧
  ∀ protocols now, Handler_begin g' protocols now = g' ∧ ∃ body, (Handler_checks g' protocols now).2 = Rejected 503 body.
Proof.
  intros Hr Hreach. assert (Hr' : refusing (gw_state g')).
  { induction Hreach as [|g1 i g2 _ IH _ Hs]; [done|]. by eapply gw_step_refusing. }
  unfold Check_state, Handler_begin, Handler_checks. destruct Hr' as [-> | ->]; cbn; (split; [done|]); intros; (split; [done|by eexists]).
Qed.

(** The limit of connections is tested before the registration: of two requests that
    overlap at the limit, both are accepted. *)
Lemma overlapping_requests_exceed_limit g a b p now :
  gw_state g = LifecycleHealthy → gw_connLimiter g = None → gw_activeCount g = maxConnections - 1 → gw_pending g = [] →
  is_Some (SelectProtocol p) →
  GW_ClientCount (foldl (λ g i, match gw_step time_Parse g i with Ret g' => g' | Panic => g end) g
    [GwRequest p now; GwRequest p now; GwEnter 0 true a now; GwEnter 0 true b now]) = maxConnections + 1.
Proof.
  intros Hst Hlim Hn Hp [[f sub] Hsel].
  assert (Hreq : ∀ g : Gw, gw_state g = LifecycleHealthy → gw_connLimiter g = None → gw_activeCount g = maxConnections - 1 →
    Handler_begin g p now = set_pending g (gw_pending g ++ [f])).
  { clear -Hsel. intros g Hst Hlim Hn. unfold Handler_begin, Handler_checks, GW_ClientCount, negotiate.
    rewrite Hst, Hlim, Hn, Hsel. done. }
  cbn [foldl gw_step]. rewrite (Hreq g) by done. rewrite Hreq by done. unfold Handler_enter at 2. cbn [gw_pending set_pending].
  rewrite Hp. cbn. rewrite Hn. done.
Qed.
End draining.

(** ** A gateway at work *)

Section runs.
Context {E : Type} `{!MarketEventOps E}.
Context {M H Ev : Type} `{!LocalManager M H Ev}.
Context (time_Parse : string → result Z string).
#[local] Abbreviation Gw := (@Gateway E M H).

(** The steps in turn, as long as the test holds and nothing panics. *)
Fixpoint run_if (p : Gw → @gw_input E → bool) (g : Gw) (is_ : list (@gw_input E)) : option Gw :=
  match is_ with
  | [] => Some g
  | i :: is_ => if p g i then match gw_step time_Parse g i with Ret g' => run_if p g' is_ | Panic => None end else None
  end.

Lemma reach_trans P (g0 g1 g2 : Gw) : reach time_Parse P g0 g1 → reach time_Parse P g1 g2 → reach time_Parse P g0 g2.
Proof. intros H01. induction 1 as [|g i g' _ IH Hp Hs]; [done|]. by eapply reach_step. Qed.

Lemma run_if_reach (p : Gw → @gw_input E → bool) (P : Gw → @gw_input E → Prop) is_ :
  (∀ g i, p g i = true → P g i) → ∀ g g', run_if p g is_ = Some g' → reach time_Parse P g g'.
Proof.
  intros HP. induction is_ as [|i is_ IH]; intros g g'; cbn [run_if]; [intros [= <-]; constructor|].
  destruct (p g i) eqn:Hp; [|done]. destruct (gw_step time_Parse g i) as [g1|] eqn:Hs; [|done]. intros Hr.
  apply (reach_trans _ _ g1); [|by apply IH]. eapply reach_step; [constructor|by apply HP|done].
Qed.

(** The conditions of the theorems as tests. *)
Definition orderly (k : Z) (g : Gw) (i : @gw_input E) : bool :=
  match i with
  | GwRequest _ _ => Z.of_nat (length (gw_pending g)) <? k
  | GwEnter _ _ id _ => match gw_clients g !! id with None => true | Some _ => false end
  | GwMessage id _ _ _ _ => match gw_clients g !! id with Some c => negb (wc_cancelled c) | None => true end
  | GwClose _ _ => false
  | _ => true
  end.

Lemma orderly_ok k g i :
  orderly k g i = true → fresh_id g i ∧ few_pending k g i ∧ polite g i ∧ not_closing i.
Proof.
  destruct i; cbn; try done.
  - by intros Hk%Z.ltb_lt.
  - by destruct (gw_clients g !! id).
  - intros Hc. split_and!; try done. intros c Hcl. rewrite Hcl in Hc. by apply negb_true_iff in Hc.
Qed.
End runs.

#[local] Abbreviation demo_gateway := (@Gateway (string * Z) (MemoryManager (list string) (string * Z)) handle).
Definition demo_start : demo_gateway :=
  NewGatewayWithReplay tm_empty (mkServices None None true false false) f64_zero None 0.
Definition demo_orderly : demo_gateway → gw_input → bool := orderly 1.

(** Two clients connect; one subscribes, the other replays and falls silent. *)
Definition demo_day : list (@gw_input (string * Z)) :=
  [GwRequest [] 0; GwEnter 0 true "ann" 0; GwRequest [SubprotocolProtobuf] 0; GwEnter 0 true "bob" 0;
   GwMessage "ann" (client_msg "subscribe" ["AAPL"]) None None 1; GwMessage "bob" (client_msg "replay" ["IBM"]) None None 2;
   GwPing (30 * Second); GwMessage "ann" (client_msg "pong" []) None None (31 * Second); GwPing (60 * Second);
   GwMessage "ann" (client_msg "pong" []) None None (61 * Second); GwSweep (91 * Second); GwLeave "bob"].
Definition demo_stalled : demo_gateway := default demo_start (run_if demo_parse demo_orderly demo_start demo_day).
(** Then a third connects and all leave. *)
Definition demo_evening : list (@gw_input (string * Z)) :=
  [GwRequest [] (100 * Second); GwEnter 0 true "carol" (100 * Second); GwPing (130 * Second); GwSweep (300 * Second);
   GwLeave "ann"; GwLeave "carol"; GwPoll].
Definition demo_end : demo_gateway := default demo_stalled (run_if demo_parse demo_orderly demo_stalled demo_evening).

Lemma demo_stalled_run : run_if demo_parse demo_orderly demo_start demo_day = Some demo_stalled.
Proof. vm_compute. reflexivity. Qed.
Lemma demo_end_run : run_if demo_parse demo_orderly demo_stalled demo_evening = Some demo_end.
Proof. vm_compute. reflexivity. Qed.

Lemma gateway_counts_connections_witness :
  GW_ClientCount demo_stalled = 1 ∧ HM_ClientCount (gw_heartbeat demo_stalled) = length (gw_ids demo_stalled) ∧
  GW_ClientCount demo_stalled ≤ maxConnections.
Proof.
  destruct (gateway_counts_connections demo_parse 1 tm_empty (mkServices None None true false false) f64_zero None 0 demo_stalled
    ltac:(lia)) as (_ & _ & H1 & _ & H2 & _).
  - eapply run_if_reach; [|exact demo_stalled_run]. intros g i Hp. by apply orderly_ok in Hp as (? & ? & _).
  - split_and!; [vm_compute; reflexivity|exact H1|exact H2].
Defined.

Lemma subscriptions_end_with_connections_witness : mg_table (gw_tm demo_end) ∅.
Proof.
  destruct (subscriptions_end_with_connections demo_parse 1 tm_empty (mkServices None None true false false) f64_zero None 0 demo_end
    ltac:(lia) tm_empty_table) as (T & HT & _ & _ & Hz).
  - apply (reach_trans _ _ _ demo_stalled); (eapply run_if_reach; [|exact demo_stalled_run || exact demo_end_run]);
      intros g i Hp; by apply orderly_ok in Hp as (? & ? & ? & _).
  - rewrite Hz in HT; [exact HT|vm_compute; reflexivity].
Defined.

Lemma silent_replay_stops_heartbeats_witness :
  gw_sweep demo_end = ["bob"] ∧ gw_step demo_parse demo_end (GwPing (400 * Second)) = Ret demo_end.
Proof.
  set (c := default (newClient "bob") (gw_clients demo_stalled !! "bob")).
  destruct (silent_replay_stops_heartbeats demo_parse 1 tm_empty (mkServices None None true false false) f64_zero None 0
    demo_stalled "bob" [] c 0%nat demo_end ltac:(lia)) as [H1 H2].
  - eapply run_if_reach; [|exact demo_stalled_run]. intros g i Hp. by apply orderly_ok in Hp as (? & ? & _).
  - vm_compute. reflexivity.
  - vm_compute. reflexivity.
  - vm_compute. reflexivity.
  - vm_compute. reflexivity.
  - apply (bool_decide_unpack _). vm_compute. exact I.
  - eapply run_if_reach; [|exact demo_end_run]. intros g i Hp. by apply orderly_ok in Hp as (? & ? & _ & ?).
  - split; [exact H1|]. by destruct (H2 (400 * Second)) as [H3 _].
Defined.
