(* ===== verification/EventLog.v ===== *)
(** * EventLog: events kept in a table

    [internal/eventlog]: the repository of events in PostgreSQL, the publisher that
    persists events in batches before it passes them on, and the adapter that lets a
    replay read the table page by page. A table is its rows and the next number of
    its serial column; a statement is what it says on the rows. What the database
    answers to an insertion is an argument, and its time type, which is coarser than
    the program's, a parameter. Spans are left out. *)

From Stdlib Require Import Strings.Byte Sorting.Sorted.
From stdpp Require Import pretty.
From S2P Require Import Prelude Bytes Float64 MarketEvent Bus Snapshot EventStore ReplaySession Pipeline.

(** [eventlog.StoredEvent]; [None] is nil. *)
Record EventRow := mkRow {
  er_EventID : Z;
  er_Timestamp : Z;
  er_Symbol : string;
  er_EventType : string;
  er_Price : float64;
  er_Bid : float64;
  er_Ask : float64;
  er_Volume : Z;
  er_Exchange : string;
  er_Provider : string;
  er_RawData : option (list byte);
}.

Record ReplayQuery := mkQuery { rq_Symbol : string; rq_From : Z; rq_To : Z; rq_Cursor : Cursor; rq_Limit : Z }.

Record ReplayResult := mkReplayResult { rr_Events : list EventRow; rr_NextCursor : option Cursor; rr_HasMore : bool }.

(** ** The table (postgres.go) *)

Record Table := mkTable { pg_rows : list EventRow; pg_nextID : Z }.

Definition maxRetries : nat := 3.
Definition insert_chunk : nat := Z.to_nat 5000.

(** The answers to an insertion: it is done; it is refused, with an error that is
    worth a retry or not, after the serial column has advanced; it is committed but
    the connection is reset before the answer. *)
Inductive db_answer := Inserted | RefusedBy (retryable : bool) (burned : Z) | CommitLost.

Section postgres.
(** A time as the database keeps it. *)
Context (db_time : Z → Z).

(** The row of an event: [null] for raw data that is nil. *)
Definition prepare (id : Z) (e : EventRow) : EventRow :=
  mkRow id (db_time (er_Timestamp e)) (er_Symbol e) (er_EventType e) (er_Price e) (er_Bid e) (er_Ask e) (er_Volume e)
    (er_Exchange e) (er_Provider e) (Some (default (bytes_of_string "null") (er_RawData e))).

(** [INSERT ... RETURNING event_id]. *)
Definition insert_rows (t : Table) (events : list EventRow) : Table * list Z :=
  let ids := seqZ (pg_nextID t) (Z.of_nat (length events)) in
  (mkTable (pg_rows t ++ zip_with prepare ids events) (pg_nextID t + Z.of_nat (length events)), ids).

(** The error says whether it is worth a retry ([isRetryable]). *)
Definition insertBatch (t : Table) (chunk : list EventRow) (a : db_answer) : Table * result (list Z) bool :=
  match a with
  | Inserted => let '(t, ids) := insert_rows t chunk in (t, Ok ids)
  | RefusedBy retryable burned => (mkTable (pg_rows t) (pg_nextID t + burned), Err retryable)
  | CommitLost => ((insert_rows t chunk).1, Err true)
  end.

(** The loop over the attempts: [n] more after this one. The rest of the answers is
    returned; without answers the database inserts. *)
Fixpoint insert_attempts (n : nat) (t : Table) (chunk : list EventRow) (answers : list db_answer)
    : Table * list db_answer * result (list Z) bool :=
  let '(t, res) := insertBatch t chunk (default Inserted (head answers)) in
  let answers := tail answers in
  match res, n with
  | Ok ids, _ => (t, answers, Ok ids)
  | Err false, _ | Err _, O => (t, answers, Err false)
  | Err true, S n => insert_attempts n t chunk answers
  end.

(** [Append] is the same loop over one row; the id 0 comes with an error. *)
Definition Append (t : Table) (event : EventRow) (answers : list db_answer) : Table * Z * bool :=
  match insert_attempts maxRetries t [event] answers with
  | (t, _, Ok ids) => (t, default 0 (head ids), true)
  | (t, _, Err _) => (t, 0, false)
  end.

(** The chunks in turn: the ids so far, and whether all were inserted. *)
Fixpoint append_chunks (fuel : nat) (t : Table) (events : list EventRow) (answers : list db_answer)
    : Table * list Z * bool :=
  match fuel, events with
  | O, _ | _, [] => (t, [], true)
  | S fuel, _ =>
      match insert_attempts maxRetries t (take insert_chunk events) answers with
      | (t, answers, Err _) => (t, [], false)
      | (t, answers, Ok ids) =>
          let '(t, ids', ok) := append_chunks fuel t (drop insert_chunk events) answers in (t, ids ++ ids', ok)
      end
  end.

Definition AppendBatch (t : Table) (events : list EventRow) (answers : list db_answer) : Table * list Z * bool :=
  append_chunks (length events) t events answers.

(** *** Queries *)

(** [ORDER BY timestamp ASC, event_id ASC], and by [event_id] alone. *)
Definition row_le (a b : EventRow) : Prop :=
  er_Timestamp a < er_Timestamp b ∨ (er_Timestamp a = er_Timestamp b ∧ er_EventID a ≤ er_EventID b).
#[export] Instance row_le_dec a b : Decision (row_le a b).
Proof. unfold row_le. apply _. Defined.
Definition id_le (a b : EventRow) : Prop := er_EventID a ≤ er_EventID b.
#[export] Instance id_le_dec a b : Decision (id_le a b).
Proof. unfold id_le. apply _. Defined.

(** The conditions that are appended for the filters that are set. *)
Definition in_filters (q : ReplayQuery) (r : EventRow) : Prop :=
  (rq_Symbol q = "" ∨ er_Symbol r = rq_Symbol q) ∧
  (rq_From q = zero_time ∨ db_time (rq_From q) ≤ er_Timestamp r) ∧
  (rq_To q = zero_time ∨ er_Timestamp r ≤ db_time (rq_To q)).
Definition after_cursor (c : Cursor) (r : EventRow) : Prop :=
  (cu_Timestamp c = zero_time ∧ cu_EventID c ≤ 0) ∨
  db_time (cu_Timestamp c) < er_Timestamp r ∨ (db_time (cu_Timestamp c) = er_Timestamp r ∧ cu_EventID c < er_EventID r).
#[export] Instance in_filters_dec q r : Decision (in_filters q r).
Proof. unfold in_filters. apply _. Defined.
#[export] Instance after_cursor_dec c r : Decision (after_cursor c r).
Proof. unfold after_cursor. apply _. Defined.

Definition query_limit (limit : Z) : Z :=
  let limit := if limit <=? 0 then 100 else limit in if 1000 <? limit then 1000 else limit.

Definition QueryEvents (t : Table) (q : ReplayQuery) : ReplayResult :=
  let limit := query_limit (rq_Limit q) in
  let matching := filter (after_cursor (rq_Cursor q)) (filter (in_filters q) (pg_rows t)) in
  let events := take (Z.to_nat (limit + 1)) (merge_sort row_le matching) in
  if limit <? Z.of_nat (length events) then
    let events := take (Z.to_nat limit) events in
    mkReplayResult events ((λ r, mkCursor (er_Timestamp r) (er_EventID r)) <$> last events) true
  else mkReplayResult events None false.

Definition QueryBySymbol (t : Table) (symbol : string) (from to : Z) : list EventRow :=
  merge_sort id_le
    (filter (λ r, er_Symbol r = symbol ∧ db_time from ≤ er_Timestamp r ≤ db_time to) (pg_rows t)).

(** The last ones by number, then turned round. *)
Definition QueryLatest (t : Table) (symbol : string) (limit : nat) : list EventRow :=
  reverse (take limit (reverse (merge_sort id_le (filter (λ r, er_Symbol r = symbol) (pg_rows t))))).

Definition Count (t : Table) : nat := length (pg_rows t).
Definition CountBySymbol (t : Table) (symbol : string) : nat := length (filter (λ r, er_Symbol r = symbol) (pg_rows t)).

(** ** The adapter (store_adapter.go) *)

(** [strconv.FormatInt(id, 10)]. *)
Definition format_id (id : Z) : string := pretty id.

Definition eventlogToModel (e : EventRow) : EventStore.StoredEvent :=
  mkStored (format_id (er_EventID e)) 1 (er_Exchange e) (er_Symbol e) (er_EventType e) (er_Timestamp e)
    (u64 (er_EventID e)) (default [] (er_RawData e)) zero_time.

Definition model_to_row (e : EventStore.StoredEvent) : EventRow :=
  mkRow 0 (se_Timestamp e) (se_Symbol e) (EventStore.se_EventType e) f64_zero f64_zero f64_zero 0 (se_Exchange e) ""
    (Some (se_Payload e)).

Definition Adapter_WriteBatch (t : Table) (events : list EventStore.StoredEvent) (answers : list db_answer) : Table * bool :=
  match events with
  | [] => (t, true)
  | _ => let '(t, _, ok) := AppendBatch t (model_to_row <$> events) answers in (t, ok)
  end.

Record storeIterator := mkStoreIterator {
  si_repo : Table;
  si_symbol : string;
  si_from : Z;
  si_to : Z;
  si_chunkSize : Z;
  si_cursor : Cursor;
  si_hasMore : bool;
  si_initialized : bool;
}.

Definition Adapter_ReadStream (t : Table) (symbol : string) (start stop chunkSize : Z) : storeIterator :=
  mkStoreIterator t symbol start stop (if chunkSize <=? 0 then 1000 else chunkSize) zero_cursor false false.

Definition storeIterator_Next (it : storeIterator) : storeIterator * fetch :=
  let hasMore := if si_initialized it then si_hasMore it else true in
  let upd c more := mkStoreIterator (si_repo it) (si_symbol it) (si_from it) (si_to it) (si_chunkSize it) c more true in
  if negb hasMore then (upd (si_cursor it) hasMore, FEof)
  else
    let result := QueryEvents (si_repo it)
                    (mkQuery (si_symbol it) (si_from it) (si_to it) (si_cursor it) (si_chunkSize it)) in
    match rr_Events result with
    | [] => (upd (si_cursor it) hasMore, FEof)
    | events => (upd (default (si_cursor it) (rr_NextCursor result)) (rr_HasMore result), FBatch (eventlogToModel <$> events))
    end.

#[export] Instance Table_EventStore : EventStore Table storeIterator := {|
  es_ReadStream t symbol start stop chunkSize := Some (Adapter_ReadStream t symbol start stop chunkSize);
  es_Next := storeIterator_Next;
|}.

(** ** Tables and what is inserted *)

(** Rows have numbers of their own below the next one, and times as the database keeps
    them. *)
Record table_wf (t : Table) : Prop := {
  tw_ids : NoDup (er_EventID <$> pg_rows t);
  tw_range : Forall (λ r, 1 ≤ er_EventID r < pg_nextID t) (pg_rows t);
  tw_next : 1 ≤ pg_nextID t;
  tw_times : Forall (λ r, ∃ x, er_Timestamp r = db_time x) (pg_rows t);
}.

Lemma zip_prepare_ids ids events :
  length ids = length events → er_EventID <$> zip_with prepare ids events = ids.
Proof. intros Hl. rewrite fmap_zip_with_l with (f := prepare) (g := er_EventID); [done|done|lia]. Qed.

Lemma insert_rows_wf t events : table_wf t → table_wf (insert_rows t events).1.
Proof.
  intros [Hnd Hr Hn Ht]. cbn [insert_rows fst]. set (ids := seqZ _ _).
  assert (Hlen : length ids = length events) by (unfold ids; rewrite length_seqZ; lia). split; cbn [pg_rows pg_nextID].
  - rewrite fmap_app, zip_prepare_ids by done. apply NoDup_app. split_and!; [done| |apply NoDup_seqZ].
    intros i (r & -> & Hin)%list_elem_of_fmap Hi%elem_of_seqZ. rewrite Forall_forall in Hr. specialize (Hr r Hin). cbn in Hr. lia.
  - apply Forall_app. split; [eapply Forall_impl; [exact Hr|cbn; lia]|].
    change (Forall ((λ i, 1 ≤ i < pg_nextID t + Z.of_nat (length events)) ∘ er_EventID) (zip_with prepare ids events)).
    apply Forall_fmap. rewrite zip_prepare_ids by done.
    apply Forall_forall. intros i Hi%elem_of_seqZ. lia.
  - lia.
  - apply Forall_app. split; [done|]. apply Forall_forall. intros r Hin. apply elem_of_lookup_zip_with in Hin as (k & i & e & -> & _).
    by eexists.
Qed.

(** What an attempt leaves. *)
Definition burns_ok (a : db_answer) : Prop := match a with RefusedBy _ b => 0 ≤ b | _ => True end.
Definition not_lost (a : db_answer) : Prop := a ≠ CommitLost ∧ burns_ok a.

Lemma insert_attempts_spec n : ∀ t chunk answers,
  Forall not_lost answers →
  ∃ k, 0 ≤ k ∧
  match insert_attempts n t chunk answers with
  | (t', rest, Ok ids) => (t', ids) = insert_rows (mkTable (pg_rows t) (pg_nextID t + k)) chunk ∧ Forall not_lost rest
  | (t', rest, Err _) => t' = mkTable (pg_rows t) (pg_nextID t + k)
  end.
Proof.
  induction n as [|n IH]; intros t chunk answers Ha; cbn [insert_attempts].
  all: assert (Hhd : not_lost (default Inserted (head answers))) by (destruct Ha; [split|]; done).
  all: assert (Htl : Forall not_lost (tail answers)) by (by destruct Ha).
  all: destruct (default Inserted (head answers)) as [|[] b|] eqn:Hd; cbn [insertBatch]; try (by destruct Hhd).
  all: try (exists b; split; [apply Hhd|done]).
  all: try (exists 0; split; [done|]; rewrite Z.add_0_r; destruct t; by split).
  destruct (IH (mkTable (pg_rows t) (pg_nextID t + b)) chunk (tail answers) Htl) as (k & Hk & Hspec).
  destruct Hhd as [_ Hb]. cbn in Hb. exists (b + k). split; [lia|]. cbn [pg_rows pg_nextID] in Hspec. by rewrite Z.add_assoc.
Qed.

Lemma take_length_chunk {A} n (l : list A) : take (length (take n l)) l = take n l.
Proof. rewrite length_take. destruct (decide (n ≤ length l)%nat); [by rewrite Nat.min_l by lia|]. rewrite Nat.min_r by lia. by rewrite !take_ge by lia. Qed.
Lemma drop_length_chunk {A} n (l : list A) : drop (length (take n l)) l = drop n l.
Proof. rewrite length_take. destruct (decide (n ≤ length l)%nat); [by rewrite Nat.min_l by lia|]. rewrite Nat.min_r by lia. by rewrite !drop_ge by lia. Qed.

Lemma seqZ_sorted m n : StronglySorted Z.lt (seqZ m n).
Proof.
  destruct (decide (0 ≤ n)) as [Hn|Hn]; [|rewrite seqZ_nil by lia; constructor].
  revert m. pattern n. apply natlike_ind; [intros m; rewrite seqZ_nil by lia; constructor| |done].
  intros k Hk IH m. rewrite seqZ_cons by lia. constructor; [replace (Z.pred (Z.succ k)) with k by lia; apply IH|].
  apply Forall_forall. intros x Hx%elem_of_seqZ. lia.
Qed.

(** A batch is persisted from its beginning, in chunks: what was inserted, with what
    numbers, and when it stops early. *)
Lemma append_batch_persists t events answers :
  Forall not_lost answers →
  let '(t', ids, ok) := AppendBatch t events answers in
  pg_rows t' = pg_rows t ++ zip_with prepare ids (take (length ids) events) ∧
  StronglySorted Z.lt ids ∧ Forall (λ i, pg_nextID t ≤ i < pg_nextID t') ids ∧ pg_nextID t ≤ pg_nextID t' ∧
  (if ok then length ids = length events else (length ids < length events)%nat ∧ ∃ m, length ids = (m * insert_chunk)%nat).
Proof.
  unfold AppendBatch. intros Ha. assert (Hf : (length events ≤ length events)%nat) by lia. revert Hf Ha.
  generalize (length events) at 2 3 as fuel. intros fuel. revert t events answers.
  induction fuel as [|fuel IH]; intros t events answers Hf Ha.
  { destruct events; [|cbn in Hf; lia]. cbn. rewrite app_nil_r. split_and!; try done; constructor. }
  destruct events as [|e events]; [cbn; rewrite app_nil_r; split_and!; try done; constructor|].
  set (all := e :: events) in *. change (append_chunks (S fuel) t all answers) with
    (match insert_attempts maxRetries t (take insert_chunk all) answers with
     | (t, answers, Err _) => (t, [], false)
     | (t, answers, Ok ids) =>
         let '(t, ids', ok) := append_chunks fuel t (drop insert_chunk all) answers in (t, ids ++ ids', ok)
     end).
  destruct (insert_attempts_spec maxRetries t (take insert_chunk all) answers Ha) as (k & Hk & Hspec).
  destruct (insert_attempts maxRetries t (take insert_chunk all) answers) as [[t1 rest] [ids|err]].
  2: { subst t1. cbn [pg_rows pg_nextID length take zip_with]. rewrite app_nil_r. split_and!; try done; [constructor|lia|apply Nat.lt_0_succ|by exists 0%nat]. }
  destruct Hspec as [Hins Hrest]. set (chunk := take insert_chunk all) in *.
  pose proof (f_equal fst Hins) as Ht1. pose proof (f_equal snd Hins) as Hids. unfold insert_rows in Ht1, Hids.
  cbn [fst snd pg_rows pg_nextID] in Ht1, Hids. clear Hins. assert (Hl : length ids = length chunk) by (rewrite Hids, length_seqZ; lia).
  assert (Hdrop : (length (drop insert_chunk all) ≤ fuel)%nat).
  { rewrite length_drop. unfold insert_chunk, all in *. cbn [length] in *. lia. }
  specialize (IH t1 (drop insert_chunk all) rest Hdrop Hrest).
  destruct (append_chunks fuel t1 (drop insert_chunk all) rest) as [[t2 ids2] ok]. destruct IH as (Hrows & Hs & Hr & Hn & Hok).
  rewrite Ht1 in Hrows, Hr, Hn. cbn [pg_rows pg_nextID] in *.
  assert (Htk : take (length ids) all = chunk) by (rewrite Hl; apply take_length_chunk).
  assert (Hdr : drop (length ids) all = drop insert_chunk all) by (rewrite Hl; apply drop_length_chunk).
  assert (Hall : (length chunk + length (drop insert_chunk all) = length all)%nat).
  { rewrite <- length_app. unfold chunk. by rewrite take_drop. }
  split_and!.
  - rewrite Hrows, <- app_assoc, length_app, <- (take_take_drop all), Htk, Hdr. rewrite zip_with_app by exact Hl. by rewrite Hids.
  - apply StronglySorted_app. split_and!; [|rewrite Hids; apply seqZ_sorted|done].
    rewrite Forall_forall in Hr. intros x y Hx Hy%Hr. rewrite Hids in Hx. apply elem_of_seqZ in Hx. cbn in Hy. lia.
  - apply Forall_app. split; [|eapply Forall_impl; [exact Hr|cbn; lia]].
    rewrite Hids. apply Forall_forall. intros x Hx%elem_of_seqZ. lia.
  - lia.
  - rewrite length_app. destruct ok; [lia|]. destruct Hok as [Hlt [m Hm]]. split; [lia|].
    exists (S m). rewrite Hm, Hl. unfold chunk. rewrite length_take. rewrite length_drop in Hlt. lia.
Qed.

(** ** Pages *)

#[local] Instance row_le_trans : Transitive row_le.
Proof. intros a b c. unfold row_le. lia. Qed.
#[local] Instance row_le_total : Total row_le.
Proof. intros a b. unfold row_le. lia. Qed.

(** Before another row, strictly. *)
Definition row_lt (a b : EventRow) : Prop :=
  er_Timestamp a < er_Timestamp b ∨ (er_Timestamp a = er_Timestamp b ∧ er_EventID a < er_EventID b).

(** Rows with numbers of their own are strictly sorted. *)
Lemma sorted_strictly l : StronglySorted row_le l → NoDup (er_EventID <$> l) → StronglySorted row_lt l.
Proof.
  induction 1 as [|r l Hl IH Hr]; intros Hnd; [constructor|]. rewrite fmap_cons in Hnd. apply NoDup_cons in Hnd as [Hn Hnd].
  constructor; [by apply IH|]. rewrite Forall_forall in Hr |- *. intros x Hx. specialize (Hr x Hx). unfold row_le, row_lt in *.
  assert (er_EventID r ≠ er_EventID x) by (intros Heq; apply Hn; rewrite Heq; by apply list_elem_of_fmap_2). lia.
Qed.

(** Filtering after sorting or before is the same. *)
Lemma sort_filter (P : EventRow → Prop) `{!∀ r, Decision (P r)} l :
  NoDup (er_EventID <$> l) → merge_sort row_le (filter P l) = filter P (merge_sort row_le l).
Proof.
  intros Hnd. apply (StronglySorted_unique_strong row_le).
  - intros a b Ha Hb H1 H2. rewrite merge_sort_Permutation in Ha. apply list_elem_of_filter in Ha as [_ Ha], Hb as [_ Hb].
    rewrite merge_sort_Permutation in Hb. apply list_elem_of_lookup in Ha as [i Hi], Hb as [j Hj].
    assert (er_EventID a = er_EventID b) by (unfold row_le in *; lia).
    assert (i = j); [|congruence]. eapply NoDup_lookup; [exact Hnd|rewrite list_lookup_fmap, Hi; done|].
    rewrite list_lookup_fmap, Hj. cbn. congruence.
  - apply (StronglySorted_merge_sort row_le).
  - apply StronglySorted_filter, (StronglySorted_merge_sort row_le).
  - rewrite !merge_sort_Permutation. done.
Qed.

Hypothesis db_time_idem : ∀ x, db_time (db_time x) = db_time x.

(** The cursor of a row selects what comes after it. *)
Definition cursor_of (r : EventRow) : Cursor := mkCursor (er_Timestamp r) (er_EventID r).

Lemma after_cursor_of r x :
  1 ≤ er_EventID r → (∃ y, er_Timestamp r = db_time y) → after_cursor (cursor_of r) x ↔ row_lt r x.
Proof.
  intros Hid [y Hy]. unfold after_cursor, cursor_of, row_lt. cbn. assert (db_time (er_Timestamp r) = er_Timestamp r) as -> by (by rewrite Hy).
  lia.
Qed.

Definition row_ok (r : EventRow) : Prop := 1 ≤ er_EventID r ∧ ∃ y, er_Timestamp r = db_time y.

Lemma filter_after pre r post :
  StronglySorted row_lt (pre ++ r :: post) → row_ok r →
  filter (after_cursor (cursor_of r)) (pre ++ r :: post) = post.
Proof.
  intros Hs [Hid Ht]. apply StronglySorted_app in Hs as (Hpre & _ & Hr). inversion Hr as [|?? Hpost Hall]; subst.
  rewrite filter_app, filter_cons_False by (rewrite after_cursor_of by done; unfold row_lt; lia).
  rewrite filter_none, filter_all; [done| |].
  - eapply Forall_impl; [exact Hall|]. intros x Hx. by apply after_cursor_of.
  - apply Forall_forall. intros x Hx. rewrite after_cursor_of by done. specialize (Hpre x r Hx ltac:(by left)). unfold row_lt in *. lia.
Qed.

(** The rows of a stream, in order. *)
Definition stream_rows (t : Table) (symbol : string) (start stop : Z) : list EventRow :=
  merge_sort row_le (filter (in_filters (mkQuery symbol start stop zero_cursor 0)) (pg_rows t)).

Lemma stream_rows_ok t symbol start stop :
  table_wf t → StronglySorted row_lt (stream_rows t symbol start stop) ∧ Forall row_ok (stream_rows t symbol start stop).
Proof.
  intros [Hnd Hr Hn Ht]. unfold stream_rows. set (q := mkQuery _ _ _ _ _).
  assert (Hsub : NoDup (er_EventID <$> filter (in_filters q) (pg_rows t))).
  { eapply sublist_NoDup; [exact Hnd|]. apply fmap_sublist, sublist_filter. }
  split; [apply sorted_strictly; [apply (StronglySorted_merge_sort row_le)|by rewrite merge_sort_Permutation]|].
  rewrite merge_sort_Permutation. apply Forall_forall. intros r [_ Hin]%list_elem_of_filter. rewrite Forall_forall in Hr, Ht.
  split; [by apply Hr|by apply Ht].
Qed.

Lemma query_limit_pos limit : 1 ≤ query_limit limit ≤ 1000.
Proof. unfold query_limit. destruct (Z.leb_spec limit 0); [done|]. destruct (Z.ltb_spec 1000 limit); lia. Qed.

(** A page of the stream: the next rows, whether there are more, and the cursor of the
    last one. *)
Lemma QueryEvents_page t symbol start stop c limit rest :
  table_wf t → filter (after_cursor c) (stream_rows t symbol start stop) = rest →
  let n := Z.to_nat (query_limit limit) in
  QueryEvents t (mkQuery symbol start stop c limit) =
    if bool_decide (n < length rest)%nat then mkReplayResult (take n rest) (cursor_of <$> last (take n rest)) true
    else mkReplayResult rest None false.
Proof.
  intros Hwf Hrest n. unfold QueryEvents. cbn [rq_Limit rq_Cursor rq_Symbol rq_From rq_To].
  change (filter (in_filters (mkQuery symbol start stop c limit)) (pg_rows t))
    with (filter (in_filters (mkQuery symbol start stop zero_cursor 0)) (pg_rows t)).
  rewrite sort_filter by (eapply sublist_NoDup; [apply Hwf|apply fmap_sublist, sublist_filter]).
  fold (stream_rows t symbol start stop). rewrite Hrest. pose proof (query_limit_pos limit) as Hl.
  replace (Z.to_nat (query_limit limit + 1)) with (S n) by lia. rewrite length_take.
  destruct (decide (n < length rest)%nat) as [Hlt|Hge].
  - rewrite bool_decide_eq_true_2, (proj2 (Z.ltb_lt _ _)) by lia. fold n. by rewrite take_take, Nat.min_l by lia.
  - rewrite bool_decide_eq_false_2, (proj2 (Z.ltb_ge _ _)) by lia. by rewrite take_ge by lia.
Qed.

(** What follows a page is what comes after the cursor of its last row. *)
Lemma page_next t symbol start stop n pre rest :
  table_wf t → stream_rows t symbol start stop = pre ++ rest → (0 < n < length rest)%nat →
  ∃ page r, take n rest = page ++ [r] ∧ stream_rows t symbol start stop = (pre ++ take n rest) ++ drop n rest ∧
    filter (after_cursor (cursor_of r)) (stream_rows t symbol start stop) = drop n rest.
Proof.
  intros Hwf Hpre Hn. destruct (stream_rows_ok t symbol start stop Hwf) as [Hsorted Hrows].
  destruct (last (take n rest)) as [r|] eqn:Hlast.
  2: { apply last_None in Hlast. apply (f_equal length) in Hlast. rewrite length_take in Hlast. cbn in Hlast. lia. }
  apply last_Some in Hlast as [page Hpage]. exists page, r.
  assert (Hdec : stream_rows t symbol start stop = (pre ++ page) ++ r :: drop n rest).
  { rewrite Hpre, <- (take_drop n rest) at 1. rewrite Hpage. by rewrite <- !app_assoc. }
  split_and!; [done|by rewrite Hpre, <- app_assoc, take_drop|].
  rewrite Hdec in Hsorted, Hrows |- *. apply filter_after; [done|]. apply Forall_app in Hrows as [_ Hrows]. by inversion Hrows.
Qed.

Lemma iterator_pages t symbol start stop chunk : table_wf t → ∀ k pre rest c h i,
  length rest = k → stream_rows t symbol start stop = pre ++ rest →
  filter (after_cursor c) (stream_rows t symbol start stop) = rest → (i = false ∨ h = true) →
  ∃ bs, yields (mkStoreIterator t symbol start stop chunk c h i) bs ∧ concat bs = eventlogToModel <$> rest ∧
    Forall (λ b, b ≠ [] ∧ Z.of_nat (length b) ≤ query_limit chunk) bs.
Proof.
  intros Hwf. pose proof (query_limit_pos chunk) as Hl.
  induction k as [k IH] using lt_wf_ind. intros pre rest c h i Hk Hpre Hrest Hstart.
  assert (Hmore : (if i then h else true) = true) by (destruct Hstart as [-> | ->]; [done|by destruct i]).
  pose proof (QueryEvents_page t symbol start stop c chunk rest Hwf Hrest) as Hq. cbv zeta in Hq.
  set (n := Z.to_nat (query_limit chunk)) in *.
  destruct (decide (rest = [])) as [->|Hne].
  { exists []. split_and!; [|done|constructor]. eapply yields_eof. cbn [es_Next Table_EventStore]. unfold storeIterator_Next.
    cbn [si_initialized si_hasMore si_repo si_symbol si_from si_to si_cursor si_chunkSize]. by rewrite Hmore, Hq. }
  destruct (decide (n < length rest)%nat) as [Hlt|Hge].
  - rewrite bool_decide_eq_true_2 in Hq by done.
    destruct (page_next t symbol start stop n pre rest Hwf Hpre ltac:(lia)) as (page & r & Hpage & Hdec & Hnext).
    destruct (IH (length (drop n rest)) ltac:(rewrite length_drop; lia) (pre ++ take n rest) (drop n rest) (cursor_of r) true true
      eq_refl Hdec Hnext) as (bs & Hy & Hcat & Hsz).
    + by right.
    + exists ((eventlogToModel <$> take n rest) :: bs). split_and!.
      * eapply yields_batch; [|exact Hy]. cbn [es_Next Table_EventStore]. unfold storeIterator_Next.
        cbn [si_initialized si_hasMore si_repo si_symbol si_from si_to si_cursor si_chunkSize]. rewrite Hmore, Hq.
        rewrite Hpage, last_snoc. cbn [negb rr_Events rr_NextCursor rr_HasMore fmap option_fmap option_map default]. by destruct page.
      * cbn [concat]. rewrite Hcat, <- fmap_app. by rewrite take_drop.
      * constructor; [|done]. split; [rewrite Hpage; by destruct page|]. rewrite length_fmap, length_take. lia.
  - rewrite bool_decide_eq_false_2 in Hq by done. exists [eventlogToModel <$> rest]. split_and!.
    + eapply (yields_batch _ (mkStoreIterator t symbol start stop chunk c false true)); [|by eapply yields_eof]. cbn [es_Next Table_EventStore]. unfold storeIterator_Next.
      cbn [si_initialized si_hasMore si_repo si_symbol si_from si_to si_cursor si_chunkSize]. rewrite Hmore, Hq.
      cbn [negb rr_Events rr_NextCursor rr_HasMore default]. by destruct rest.
    + cbn [concat]. by rewrite app_nil_r.
    + constructor; [|constructor]. rewrite length_fmap. split; [by destruct rest|lia].
Qed.

Lemma insert_attempts_wf n : ∀ t chunk answers,
  Forall burns_ok answers → table_wf t →
  table_wf (insert_attempts n t chunk answers).1.1 ∧ Forall burns_ok (insert_attempts n t chunk answers).1.2.
Proof.
  assert (Hone : ∀ t chunk a, burns_ok a → table_wf t → table_wf (insertBatch t chunk a).1).
  { intros t chunk a Ha Hwf. destruct a as [|retryable b|]; cbn [insertBatch fst].
    - destruct (insert_rows t chunk) as [t' ids] eqn:Hi. pose proof (insert_rows_wf t chunk Hwf) as H. by rewrite Hi in H.
    - destruct Hwf as [H1 H2 H3 H4]. cbn in Ha. split; cbn; [done| |lia|done]. eapply Forall_impl; [exact H2|cbn; lia].
    - by apply insert_rows_wf. }
  induction n as [|n IH]; intros t chunk answers Ha Hwf; cbn [insert_attempts].
  all: assert (Hhd : burns_ok (default Inserted (head answers))) by (by destruct Ha).
  all: assert (Htl : Forall burns_ok (tail answers)) by (by destruct Ha).
  all: specialize (Hone t chunk _ Hhd Hwf); destruct (insertBatch t chunk _) as [t1 [ids|[]]]; try done.
  by apply IH.
Qed.

Lemma AppendBatch_wf t events answers :
  Forall burns_ok answers → table_wf t → table_wf (AppendBatch t events answers).1.1.
Proof.
  unfold AppendBatch. generalize (length events) as fuel. intros fuel. revert t events answers.
  induction fuel as [|fuel IH]; intros t events answers Ha Hwf; [done|]. cbn [append_chunks]. destruct events as [|e events]; [done|].
  pose proof (insert_attempts_wf maxRetries t (take insert_chunk (e :: events)) answers Ha Hwf) as [H1 H2].
  destruct (insert_attempts _ _ _ _) as [[t1 rest] [ids|err]]; [|done]. cbn [fst snd] in *.
  specialize (IH t1 (drop insert_chunk (e :: events)) rest H2 H1). by destruct (append_chunks _ _ _ _) as [[t2 ids2] ok].
Qed.

(** The table after some batches, whatever the database answered. *)
Definition empty_table : Table := mkTable [] 1.
Definition written (batches : list (list EventRow * list db_answer)) : Table :=
  foldl (λ t b, (AppendBatch t b.1 b.2).1.1) empty_table batches.

Lemma written_wf batches : Forall (λ b, Forall burns_ok b.2) batches → table_wf (written batches).
Proof.
  assert (H0 : table_wf empty_table) by (split; cbn; [constructor|constructor|done|constructor]).
  unfold written. revert H0. generalize empty_table. intros t Hwf Hb. revert t Hwf.
  induction Hb as [|b batches Hb _ IH]; intros t Hwf; [done|]. cbn [foldl]. by apply IH, AppendBatch_wf.
Qed.


(** A commit whose answer is lost is repeated: the rows are there twice. *)
Lemma lost_commit_duplicates t e :
  let '(t', _, ok) := Append t e [CommitLost] in
  ok = true ∧ pg_rows t' = pg_rows t ++ [prepare (pg_nextID t) e; prepare (pg_nextID t + 1) e].
Proof.
  unfold Append. cbn. split; [done|]. rewrite <- app_assoc. done.
Qed.
End postgres.

(** PostgreSQL keeps microseconds. *)
Definition micros (t : Z) : Z := t / 1000 * 1000.
Lemma micros_idem t : micros (micros t) = micros t.
Proof. unfold micros. rewrite Z.div_mul by done. done. Qed.

Definition row_at (symbol : string) (ts : Z) : EventRow :=
  mkRow 0 ts symbol "trade" f64_one f64_zero f64_zero 1 "" "sim" None.

Definition two_batches : list (list EventRow * list db_answer) :=
  [([row_at "AAPL" 5000; row_at "MSFT" 5000; row_at "AAPL" 3000], [RefusedBy true 3]); ([row_at "AAPL" 3999], [])].

Definition three_rows : list EventRow :=
  [prepare micros 6 (row_at "AAPL" 3000); prepare micros 7 (row_at "AAPL" 3999); prepare micros 4 (row_at "AAPL" 5000)].

