(* ===== verification/EventPublisher.v ===== *)
(** * EventPublisher: events persisted in batches on their way to the publisher

    [internal/eventlog/publisher.go]. The buffer and the flag are guarded by the
    publisher's lock; a batch that has been taken is flushed, and an event is passed
    on, outside it. So a state carries what each goroutine still has to do, and the
    steps are the critical sections, the flushes and the calls of the publisher
    inside. What the database answers to a flush is part of the step. *)

From Stdlib Require Import Strings.Byte.
From S2P Require Import Prelude Bytes Float64 MarketEvent Bus Pipeline EventLog.

(** [marketdata.Bar], without the extensions. *)
Record Bar := mkBar {
  b_Symbol : string;
  b_Open : float64;
  b_High : float64;
  b_Low : float64;
  b_Close : float64;
  b_Volume : Z;
  b_Timestamp : Z;
  b_Provider : string;
}.

(** The events of the type switch; any other one is its symbol and type. *)
Inductive any_event := EvQuote (q : Quote) | EvBar (b : Bar) | EvOther (symbol type : string).

Definition EventSymbol (e : any_event) : string :=
  match e with EvQuote q => q_Symbol q | EvBar b => b_Symbol b | EvOther s _ => s end.
Definition EventType (e : any_event) : string :=
  match e with EvQuote q => q_Type q | EvBar _ => "bar" | EvOther _ t => t end.

Record bufferedEvent := mkBuffered { be_event : any_event; be_arrivedAt : Z }.

(** What a goroutine has left to do: to flush a batch, and then more; to pass an event
    on; to wait for the loop, in [Close]. *)
Inductive after_flush := ThenForward (e : any_event) | ThenWait | ThenDone.
Inductive pp_thread :=
  | TFlush (batch : list bufferedEvent) (next : after_flush)
  | TForward (e : any_event)
  | TWait.

Definition after (next : after_flush) : list pp_thread :=
  match next with ThenForward e => [TForward e] | ThenWait => [TWait] | ThenDone => [] end.

(** What happens at a step. *)
Inductive pp_label :=
  | LPublish (e : any_event) (now : Z)
  | LTick
  | LClose
  | LFlush (answers : list db_answer)
  | LForward (e : any_event)
  | LJoin.

Section publisher.
Context (db_time : Z → Z) {P : Type} `{!Publisher P any_event}.
(** [json.Marshal]. *)
Context (marshal : any_event → option (list byte)).

(** [pp_loop]: the goroutine of the flush loop is running. *)
Record PersistingPublisher := mkPersisting {
  pp_repo : Table;
  pp_inner : P;
  pp_dropped : Z;
  pp_batchSize : Z;
  pp_buffer : list bufferedEvent;
  pp_closed : bool;
  pp_loop : bool;
  pp_threads : list pp_thread;
}.

(** The options that are set: the batch size, or none. *)
Definition NewPersistingPublisher (repo : Table) (inner : P) (batchSize : option Z) : PersistingPublisher :=
  mkPersisting repo inner 0 (default 1 batchSize) [] false true [].

Definition toStoredEvent (be : bufferedEvent) : EventRow :=
  let e := be_event be in
  match e with
  | EvQuote q => mkRow 0 (q_Timestamp q) (EventSymbol e) (EventType e) (q_Price q) (q_Bid q) (q_Ask q) (q_Volume q) ""
                   (q_Provider q) (marshal e)
  | EvBar b => mkRow 0 (b_Timestamp b) (EventSymbol e) (EventType e) (b_Close b) f64_zero f64_zero (b_Volume b) ""
                 (b_Provider b) (marshal e)
  | EvOther _ _ => mkRow 0 (be_arrivedAt be) (EventSymbol e) (EventType e) f64_zero f64_zero f64_zero 0 "" "" (marshal e)
  end.

Definition flush (p : PersistingPublisher) (batch : list bufferedEvent) (answers : list db_answer) : PersistingPublisher :=
  match toStoredEvent <$> batch with
  | [] => p
  | stored =>
      let '(repo, _, ok) := AppendBatch db_time (pp_repo p) stored answers in
      mkPersisting repo (pp_inner p) (if ok then pp_dropped p else u64 (pp_dropped p + Z.of_nat (length batch)))
        (pp_batchSize p) (pp_buffer p) (pp_closed p) (pp_loop p) (pp_threads p)
  end.

Definition with_threads (p : PersistingPublisher) (ts : list pp_thread) : PersistingPublisher :=
  mkPersisting (pp_repo p) (pp_inner p) (pp_dropped p) (pp_batchSize p) (pp_buffer p) (pp_closed p) (pp_loop p) ts.

(** [Publish] up to the release of the lock. *)
Definition publish_enter (p : PersistingPublisher) (e : any_event) (now : Z) : PersistingPublisher :=
  if pp_closed p then
    mkPersisting (pp_repo p) (pp_inner p) (u64 (pp_dropped p + 1)) (pp_batchSize p) (pp_buffer p) true (pp_loop p)
      (pp_threads p ++ [TForward e])
  else
    let buffer := pp_buffer p ++ [mkBuffered e now] in
    let full := pp_batchSize p <=? Z.of_nat (length buffer) in
    mkPersisting (pp_repo p) (pp_inner p) (pp_dropped p) (pp_batchSize p) (if full then [] else buffer) false (pp_loop p)
      (pp_threads p ++ [if full then TFlush buffer (ThenForward e) else TForward e]).

(** A tick of [flushLoop]. *)
Definition flush_tick (p : PersistingPublisher) : PersistingPublisher :=
  if pp_closed p then
    mkPersisting (pp_repo p) (pp_inner p) (pp_dropped p) (pp_batchSize p) (pp_buffer p) true false (pp_threads p)
  else if pp_batchSize p <=? Z.of_nat (length (pp_buffer p)) then
    mkPersisting (pp_repo p) (pp_inner p) (pp_dropped p) (pp_batchSize p) [] false (pp_loop p)
      (pp_threads p ++ [TFlush (pp_buffer p) ThenDone])
  else p.

(** [Close] up to the release of the lock; then it flushes what is left and waits. *)
Definition close_enter (p : PersistingPublisher) : PersistingPublisher :=
  mkPersisting (pp_repo p) (pp_inner p) (pp_dropped p) (pp_batchSize p) [] true (pp_loop p)
    (pp_threads p ++ [TFlush (pp_buffer p) ThenWait]).

Inductive pp_step : PersistingPublisher → pp_label → PersistingPublisher → Prop :=
  | step_publish p e now : pp_step p (LPublish e now) (publish_enter p e now)
  | step_tick p : pp_loop p = true → pp_step p LTick (flush_tick p)
  | step_close p : pp_step p LClose (close_enter p)
  | step_flush p l r batch next answers :
      pp_threads p = l ++ TFlush batch next :: r →
      pp_step p (LFlush answers) (with_threads (flush p batch answers) (l ++ after next ++ r))
  | step_forward p l r e inner :
      pp_threads p = l ++ TForward e :: r → pb_Publish (pp_inner p) e = Ret inner →
      pp_step p (LForward e)
        (mkPersisting (pp_repo p) inner (pp_dropped p) (pp_batchSize p) (pp_buffer p) (pp_closed p) (pp_loop p) (l ++ r))
  | step_join p l r :
      pp_threads p = l ++ TWait :: r → pp_loop p = false → pp_step p LJoin (with_threads p (l ++ r)).

Inductive pp_run (p0 : PersistingPublisher) : list pp_label → PersistingPublisher → Prop :=
  | run_nil : pp_run p0 [] p0
  | run_snoc tr p l p' : pp_run p0 tr p → pp_step p l p' → pp_run p0 (tr ++ [l]) p'.

(** ** What a run has done *)

Definition closes (l : pp_label) : bool := match l with LClose => true | _ => false end.
Definition publishes (l : pp_label) : option bufferedEvent :=
  match l with LPublish e now => Some (mkBuffered e now) | _ => None end.
Definition forwards (l : pp_label) : option any_event := match l with LForward e => Some e | _ => None end.

(** The events published, before [Close] and after it, and passed on. *)
Definition published (tr : list pp_label) : list bufferedEvent := omap publishes tr.
Definition forwarded (tr : list pp_label) : list any_event := omap forwards tr.
Fixpoint accepted (tr : list pp_label) : list bufferedEvent :=
  match tr with [] => [] | l :: tr => if closes l then [] else option_list (publishes l) ++ accepted tr end.
Fixpoint late (tr : list pp_label) : list bufferedEvent :=
  match tr with [] => [] | l :: tr => if closes l then published tr else late tr end.

(** What the goroutines still have to flush, and to pass on. *)
Definition to_flush (th : pp_thread) : list bufferedEvent := match th with TFlush batch _ => batch | _ => [] end.
Definition to_forward (th : pp_thread) : list any_event :=
  match th with TFlush _ (ThenForward e) | TForward e => [e] | _ => [] end.

Definition label_ok (l : pp_label) : Prop := match l with LFlush answers => Forall not_lost answers | _ => True end.
Definition label_inserts (l : pp_label) : Prop := match l with LFlush answers => Forall (eq Inserted) answers | _ => True end.

Lemma published_snoc tr l : published (tr ++ [l]) = published tr ++ option_list (publishes l).
Proof. unfold published. rewrite omap_app. cbn. by destruct (publishes l). Qed.
Lemma forwarded_snoc tr l : forwarded (tr ++ [l]) = forwarded tr ++ option_list (forwards l).
Proof. unfold forwarded. rewrite omap_app. cbn. by destruct (forwards l). Qed.

Lemma accepted_snoc tr l :
  accepted (tr ++ [l]) = accepted tr ++ (if existsb closes tr then [] else option_list (publishes l)).
Proof.
  induction tr as [|x tr IH]; cbn; [destruct l; cbn; by rewrite ?app_nil_r|]. destruct (closes x); cbn; [done|].
  by rewrite IH, app_assoc.
Qed.
Lemma late_snoc tr l : late (tr ++ [l]) = late tr ++ (if existsb closes tr then option_list (publishes l) else []).
Proof.
  induction tr as [|x tr IH]; cbn; [by destruct l|]. destruct (closes x); cbn; [apply published_snoc|done].
Qed.

Lemma append_inserted t events answers :
  Forall (eq Inserted) answers → (AppendBatch db_time t events answers).2 = true.
Proof.
  unfold AppendBatch. generalize (length events) as fuel. intros fuel. revert t events answers.
  induction fuel as [|fuel IH]; intros t events answers Ha; [done|]. destruct events as [|e events]; [done|].
  cbn [append_chunks]. generalize (take insert_chunk (e :: events)) as chunk, (drop insert_chunk (e :: events)) as rest.
  intros chunk rest. unfold maxRetries. cbn [insert_attempts].
  assert (default Inserted (head answers) = Inserted) as -> by (by destruct Ha as [|? ? <-]).
  cbn [insertBatch insert_rows]. specialize (IH (insert_rows db_time t chunk).1 rest (tail answers)).
  cbn [insert_rows fst] in IH. assert (Forall (eq Inserted) (tail answers)) as Ht by (by destruct Ha). specialize (IH Ht).
  by destruct (append_chunks _ _ _ _) as [[t2 ids2] ok].
Qed.

(** ** Conservation *)

(** The account of the events taken: [persisted] are in the table in this order, with
    growing numbers; [lost] and those after [Close] are no more than [D]. *)
Record pp_account (t0 : Table) (tr : list pp_label) (p : PersistingPublisher) (persisted lost : list bufferedEvent)
    (ids : list Z) (D : nat) : Prop := {
  pa_all : accepted tr ≡ₚ pp_buffer p ++ (pp_threads p ≫= to_flush) ++ persisted ++ lost;
  pa_rows : pg_rows (pp_repo p) = pg_rows t0 ++ zip_with (prepare db_time) ids (toStoredEvent <$> persisted);
  pa_len : length ids = length persisted;
  pa_ids : StronglySorted Z.lt ids ∧ Forall (λ i, pg_nextID t0 ≤ i < pg_nextID (pp_repo p)) ids ∧ pg_nextID t0 ≤ pg_nextID (pp_repo p);
  pa_dropped : pp_dropped p = u64 (Z.of_nat D) ∧ (length lost + length (late tr) ≤ D)%nat;
  pa_inserts : Forall label_inserts tr → lost = [] ∧ D = length (late tr);
}.

Record pp_inv (t0 : Table) (tr : list pp_label) (p : PersistingPublisher) : Prop := {
  pi_closed : pp_closed p = existsb closes tr;
  pi_empty : pp_closed p = true → pp_buffer p = [];
  pi_short : Z.of_nat (length (pp_buffer p)) < Z.max 1 (pp_batchSize p);
  pi_forward : be_event <$> published tr ≡ₚ forwarded tr ++ (pp_threads p ≫= to_forward);
  pi_account : ∃ persisted lost ids D, pp_account t0 tr p persisted lost ids D;
}.

Lemma u64_of_nat_add D k : u64 (u64 (Z.of_nat D) + Z.of_nat k) = u64 (Z.of_nat (D + k)).
Proof. unfold u64. rewrite Zplus_mod_idemp_l. f_equal. lia. Qed.

(** A step that publishes nothing leaves what was taken. *)
Lemma late_quiet tr l : publishes l = None → late (tr ++ [l]) = late tr.
Proof. intros Hl. rewrite late_snoc, Hl. cbn. by destruct (existsb _ _); rewrite app_nil_r. Qed.
Lemma accepted_quiet tr l : publishes l = None → accepted (tr ++ [l]) = accepted tr.
Proof. intros Hl. rewrite accepted_snoc, Hl. cbn. by destruct (existsb _ _); rewrite app_nil_r. Qed.
Lemma closes_snoc tr l : existsb closes (tr ++ [l]) = existsb closes tr || closes l.
Proof. rewrite existsb_app. cbn. by rewrite orb_false_r. Qed.

(** A step that leaves the table and the count alone. *)
Lemma account_frame t0 tr p l p' persisted lost ids D :
  pp_account t0 tr p persisted lost ids D →
  pp_repo p' = pp_repo p → pp_dropped p' = pp_dropped p → late (tr ++ [l]) = late tr →
  accepted (tr ++ [l]) ≡ₚ pp_buffer p' ++ (pp_threads p' ≫= to_flush) ++ persisted ++ lost →
  pp_account t0 (tr ++ [l]) p' persisted lost ids D.
Proof.
  intros [H1 H2 H3 H4 H5 H6] Hr Hd Hl Ha. split; rewrite ?Hr, ?Hd, ?Hl; try done.
  intros Hi. apply H6. by apply Forall_app in Hi as [Hi _].
Qed.

(** A step that, besides, only moves events between the buffer and the goroutines. *)
Lemma inv_move t0 tr p l p' :
  pp_inv t0 tr p → publishes l = None →
  pp_repo p' = pp_repo p → pp_dropped p' = pp_dropped p → pp_batchSize p' = pp_batchSize p →
  pp_closed p' = pp_closed p || closes l →
  pp_buffer p' = pp_buffer p ∨ pp_buffer p' = [] →
  pp_buffer p' ++ (pp_threads p' ≫= to_flush) ≡ₚ pp_buffer p ++ (pp_threads p ≫= to_flush) →
  option_list (forwards l) ++ (pp_threads p' ≫= to_forward) ≡ₚ (pp_threads p ≫= to_forward) →
  (pp_closed p' = true → pp_buffer p' = []) →
  pp_inv t0 (tr ++ [l]) p'.
Proof.
  intros [Hc He Hs Hf (persisted & lost & ids & D & Ha)] Hl Hr Hd Hn Hc' Hb Hp Hfw He'. split.
  - by rewrite Hc', closes_snoc, <- Hc.
  - done.
  - rewrite Hn. destruct Hb as [-> | ->]; [done|]. cbn. lia.
  - rewrite published_snoc, forwarded_snoc, Hl. cbn. by rewrite app_nil_r, Hf, <- Hfw, app_assoc.
  - exists persisted, lost, ids, D. eapply account_frame; [exact Ha|done|done|by apply late_quiet|].
    by rewrite accepted_quiet, (pa_all _ _ _ _ _ _ _ Ha), !app_assoc, Hp by done.
Qed.

Lemma account_publish t0 tr p e now :
  pp_inv t0 tr p → ∃ persisted lost ids D, pp_account t0 (tr ++ [LPublish e now]) (publish_enter p e now) persisted lost ids D.
Proof.
  intros [Hc He _ _ (persisted & lost & ids & D & Ha)]. unfold publish_enter. destruct (pp_closed p) eqn:Hcl.
  - exists persisted, lost, ids, (D + 1)%nat. destruct Ha as [H1 H2 H3 H4 [H5 H5'] H6].
    split; cbn [pp_repo pp_dropped pp_buffer pp_threads]; rewrite ?accepted_snoc, ?late_snoc, <- ?Hc; try done.
    + cbn. rewrite app_nil_r, bind_app. cbn. by rewrite !app_nil_r.
    + rewrite H5, length_app. change 1 with (Z.of_nat 1). rewrite u64_of_nat_add. cbn. split; [done|lia].
    + intros [Hi _]%Forall_app. destruct (H6 Hi) as [-> ->]. rewrite length_app. cbn. by split.
  - exists persisted, lost, ids, D. eapply account_frame; [exact Ha|done|done|by rewrite late_snoc, <- Hc, app_nil_r|].
    rewrite accepted_snoc, <- Hc. cbn [pp_buffer pp_threads publishes option_list]. rewrite (pa_all _ _ _ _ _ _ _ Ha).
    destruct (_ <=? _); rewrite bind_app; cbn; rewrite ?app_nil_r; solve_Permutation.
Qed.

(** What one flush leaves of its batch. *)
Lemma flush_outcome p batch answers :
  Forall not_lost answers →
  let p' := flush p batch answers in
  pp_buffer p' = pp_buffer p ∧ pp_closed p' = pp_closed p ∧ pp_batchSize p' = pp_batchSize p ∧
  ∃ n ids, (n ≤ length batch)%nat ∧ length ids = n ∧ StronglySorted Z.lt ids ∧
    Forall (λ i, pg_nextID (pp_repo p) ≤ i < pg_nextID (pp_repo p')) ids ∧ pg_nextID (pp_repo p) ≤ pg_nextID (pp_repo p') ∧
    pg_rows (pp_repo p') = pg_rows (pp_repo p) ++ zip_with (prepare db_time) ids (toStoredEvent <$> take n batch) ∧
    (pp_dropped p' = pp_dropped p ∧ n = length batch ∨
     pp_dropped p' = u64 (pp_dropped p + Z.of_nat (length batch)) ∧ ¬ Forall (eq Inserted) answers).
Proof.
  intros Ha p'. assert (Hp : p' = flush p batch answers) by done. clearbody p'. unfold flush in Hp.
  destruct (toStoredEvent <$> batch) as [|s stored] eqn:Hst.
  { apply fmap_nil_inv in Hst as ->. subst p'. split_and!; try done. exists 0%nat, []. cbn. rewrite app_nil_r.
    split_and!; try done; [constructor|by left]. }
  rewrite <- Hst in Hp. pose proof (append_batch_persists db_time (pp_repo p) (toStoredEvent <$> batch) answers Ha) as Hb.
  pose proof (append_inserted (pp_repo p) (toStoredEvent <$> batch) answers) as Hok.
  destruct (AppendBatch db_time (pp_repo p) (toStoredEvent <$> batch) answers) as [[repo ids] ok] eqn:Heq. subst p'. cbn in Hok |- *.
  destruct Hb as (Hrows & Hs & Hr & Hn & Hlen). rewrite length_fmap in Hlen. split_and!; try done.
  exists (length ids), ids. rewrite fmap_take. split_and!; try done; [destruct ok; lia|].
  destruct ok; [by left|]. right. split; [done|]. intros Hi. by specialize (Hok Hi).
Qed.

Lemma account_flush t0 tr p l r batch next answers :
  Forall not_lost answers → pp_threads p = l ++ TFlush batch next :: r → pp_inv t0 tr p →
  ∃ persisted lost ids D, pp_account t0 (tr ++ [LFlush answers])
    (with_threads (flush p batch answers) (l ++ after next ++ r)) persisted lost ids D.
Proof.
  intros Hans Hth [Hc _ _ _ (persisted & lost & ids & D & [H1 H2 H3 (H4 & H4' & H4'') [H5 H5'] H6])].
  destruct (flush_outcome p batch answers Hans) as (Hb & _ & _ & n & ids' & Hn & Hl' & Hs & Hr & Hnx & Hrows & Hd).
  assert (Haft : after next ≫= to_flush = []) by (by destruct next).
  set (D' := if decide (n = length batch ∧ pp_dropped (flush p batch answers) = pp_dropped p) then D else (D + length batch)%nat).
  exists (persisted ++ take n batch), (lost ++ drop n batch), (ids ++ ids'), D'.
  split; cbn [pp_repo pp_dropped pp_buffer pp_threads with_threads]; rewrite ?late_quiet, ?accepted_quiet by done.
  - rewrite H1, Hth, Hb, !bind_app, Haft. cbn [mbind list_bind to_flush app]. rewrite <- (take_drop n batch) at 1. solve_Permutation.
  - rewrite Hrows, H2, fmap_app, zip_with_app by (by rewrite length_fmap). by rewrite app_assoc.
  - rewrite !length_app, length_take. lia.
  - split_and!; [|apply Forall_app; split; (eapply Forall_impl; [done|cbn; lia])|lia].
    apply StronglySorted_app. split_and!; [|done|done]. intros x y Hx Hy. rewrite Forall_forall in H4', Hr.
    specialize (H4' x Hx). specialize (Hr y Hy). cbn in *. lia.
  - unfold D'. rewrite length_app, length_drop. case_decide as Hdec.
    + destruct Hdec as [-> ->]. split; [done|lia].
    + destruct Hd as [[Hd Hn']|[Hd _]]; [by destruct Hdec|]. rewrite Hd, H5, u64_of_nat_add. split; [done|lia].
  - intros [Hi [Hj1 _]%Forall_cons_1]%Forall_app. destruct (H6 Hi) as [-> ->].
    destruct Hd as [[Hd ->]|[_ Hd]]; [|by destruct (Hd Hj1)]. unfold D'. rewrite decide_True by done. by rewrite drop_all.
Qed.

Lemma inv_publish t0 tr p e now : pp_inv t0 tr p → pp_inv t0 (tr ++ [LPublish e now]) (publish_enter p e now).
Proof.
  intros Hinv. split; [| | | |by apply account_publish]; destruct Hinv as [Hc He Hs Hf _].
  - unfold publish_enter. rewrite closes_snoc, orb_false_r, <- Hc. by destruct (pp_closed p).
  - unfold publish_enter. by destruct (pp_closed p).
  - unfold publish_enter. destruct (pp_closed p); [done|]. cbn [pp_buffer pp_batchSize].
    destruct (Z.leb_spec (pp_batchSize p) (Z.of_nat (length (pp_buffer p ++ [mkBuffered e now])))); [cbn|]; lia.
  - rewrite published_snoc, forwarded_snoc. cbn. rewrite app_nil_r, fmap_app, Hf. unfold publish_enter.
    destruct (pp_closed p); [|destruct (_ <=? _)]; cbn [pp_threads]; rewrite bind_app; cbn; by rewrite ?app_nil_r, app_assoc.
Qed.

Lemma inv_flush t0 tr p l r batch next answers :
  Forall not_lost answers → pp_threads p = l ++ TFlush batch next :: r → pp_inv t0 tr p →
  pp_inv t0 (tr ++ [LFlush answers]) (with_threads (flush p batch answers) (l ++ after next ++ r)).
Proof.
  intros Hok Hth Hinv. split; [| | | |by eapply account_flush]; destruct Hinv as [Hc He Hs Hf _].
  all: destruct (flush_outcome p batch answers Hok) as (Hb & Hcl & Hn & _).
  - rewrite closes_snoc. cbn. by rewrite orb_false_r, Hcl.
  - cbn. by rewrite Hcl, Hb.
  - cbn. by rewrite Hb, Hn.
  - rewrite published_snoc, forwarded_snoc. cbn. rewrite !app_nil_r, Hf, Hth, !bind_app. cbn. by destruct next; cbn; rewrite ?app_nil_r.
Qed.

Lemma pp_inv_step t0 tr p l p' : label_ok l → pp_inv t0 tr p → pp_step p l p' → pp_inv t0 (tr ++ [l]) p'.
Proof.
  intros Hok Hinv Hstep. pose proof (pi_empty _ _ _ Hinv) as He.
  destruct Hstep as [p e now|p Hl|p|p l r batch next answers Hth|p l r e inner Hth Hi|p l r Hth Hl].
  - by apply inv_publish.
  - unfold flush_tick. destruct (pp_closed p) eqn:Hc; [|destruct (_ <=? _)].
    + eapply inv_move; [exact Hinv|done..|by rewrite Hc|by left|done|done|]. intros _. by apply He.
    + eapply inv_move; [exact Hinv|done..|by rewrite Hc|by right| | |done]; cbn; rewrite bind_app; cbn; rewrite app_nil_r; [solve_Permutation|done].
    + eapply inv_move; [exact Hinv|done..|by rewrite Hc|by left|done|done|congruence].
  - eapply inv_move; [exact Hinv|done..|by rewrite orb_true_r|by right| | |done]; cbn; rewrite bind_app; cbn; rewrite app_nil_r; [solve_Permutation|done].
  - by eapply inv_flush.
  - eapply inv_move; [exact Hinv|done..|cbn; by rewrite orb_false_r|by left| | |done]; cbn; rewrite Hth, !bind_app; cbn; solve_Permutation.
  - eapply inv_move; [exact Hinv|done..|cbn; by rewrite orb_false_r|by left| | |done]; cbn; rewrite Hth, !bind_app; done.
Qed.

Lemma pp_inv_new repo inner n : pp_inv repo [] (NewPersistingPublisher repo inner n).
Proof.
  split; cbn; [done|done|lia|done|]. exists [], [], [], 0%nat.
  split; cbn; [done|by rewrite app_nil_r|done|split_and!; [constructor|constructor|lia]|split; [done|lia]|done].
Qed.

Lemma pp_run_inv repo inner n tr p :
  Forall label_ok tr → pp_run (NewPersistingPublisher repo inner n) tr p → pp_inv repo tr p.
Proof.
  intros Hok Hrun. induction Hrun as [|tr p l p' Hrun IH Hstep]; [apply pp_inv_new|].
  apply Forall_app in Hok as [Hok [Hl _]%Forall_cons_1]. eapply pp_inv_step; [exact Hl|by apply IH|done].
Qed.

(** ** Settling: after [Close] the goroutines come to their ends *)

Definition work (th : pp_thread) : nat := match th with TFlush _ _ => 2 | _ => 1 end.

Lemma threads_finish p0 (Hpub : ∀ q e, ∃ q', pb_Publish q e = Ret q') k : ∀ tr p,
  sum_list_with work (pp_threads p) = k → pp_run p0 tr p → pp_loop p = false → pp_closed p = true →
  ∃ tr' p', pp_run p0 (tr ++ tr') p' ∧ published tr' = [] ∧ Forall label_inserts tr' ∧ Forall label_ok tr' ∧ pp_threads p' = [] ∧ pp_closed p' = true.
Proof.
  induction k as [k IH] using lt_wf_ind. intros tr p Hk Hrun Hl Hc. destruct (pp_threads p) as [|th ths] eqn:Hth.
  { exists [], p. rewrite app_nil_r. by split_and!. }
  assert (∃ l p', pp_step p l p' ∧ publishes l = None ∧ label_inserts l ∧ label_ok l ∧ pp_loop p' = false ∧ pp_closed p' = true ∧
    (sum_list_with work (pp_threads p') < k)%nat) as (l & p' & Hs & H1 & H2 & H2' & H3 & H4 & H5).
  { cbn in Hk. destruct th as [batch next|e|].
    - eexists _, _. split; [by apply (step_flush p [] ths batch next [])|]. cbn.
      unfold flush. destruct (toStoredEvent <$> batch); [|destruct (AppendBatch _ _ _ _) as [[? ?] ?]]; cbn; split_and!; try done; try constructor.
      all: rewrite sum_list_with_app; destruct next; cbn in *; lia.
    - destruct (Hpub (pp_inner p) e) as [q Hq]. eexists _, _. split; [by apply (step_forward p [] ths e q)|]. cbn in *. split_and!; try done. lia.
    - eexists _, _. split; [by apply (step_join p [] ths)|]. cbn in *. split_and!; try done. lia. }
  destruct (IH _ H5 (tr ++ [l]) p' eq_refl) as (tr' & p'' & Hr & Hp & Hi & Ho & Ht & Hcl); [by eapply run_snoc|done|done|].
  exists (l :: tr'), p''. rewrite cons_middle, app_assoc. split_and!; try done; [|by constructor|by constructor].
  unfold published in *. cbn. by rewrite H1.
Qed.

Lemma accepted_silent tr tr' : published tr' = [] → accepted (tr ++ tr') = accepted tr.
Proof.
  intros Hp. induction tr as [|l tr IH]; cbn.
  - induction tr' as [|l tr' IH]; [done|]. cbn. destruct l; cbn in *; try done; by apply IH.
  - destruct (closes l); [done|]. by rewrite IH.
Qed.

(** The publisher that persists loses no event silently. In every interleaving of
    publications, ticks of the loop, flushes and [Close]: the events taken before
    [Close] are those in the buffer, those a goroutine is about to flush, those in the
    table (in this order, with growing numbers) and some that were lost; the count of
    dropped events is at least these and those published after [Close], and exactly the
    latter when the database inserts everything; every event is passed on or about to
    be. And the publisher can always be closed: then every event has been passed on,
    and those taken are in the table unless a flush failed. *)
Lemma persisting_publisher_conserves repo inner n tr p :
  (∀ q e, ∃ q', pb_Publish q e = Ret q') →
  Forall label_ok tr → pp_run (NewPersistingPublisher repo inner n) tr p →
  (∃ persisted lost ids D, pp_account repo tr p persisted lost ids D) ∧
  be_event <$> published tr ≡ₚ forwarded tr ++ (pp_threads p ≫= to_forward) ∧
  ∃ tr' p' persisted lost ids,
    pp_run (NewPersistingPublisher repo inner n) (tr ++ tr') p' ∧ published tr' = [] ∧ pp_threads p' = [] ∧
    be_event <$> published tr ≡ₚ forwarded (tr ++ tr') ∧ accepted tr ≡ₚ persisted ++ lost ∧
    pg_rows (pp_repo p') = pg_rows repo ++ zip_with (prepare db_time) ids (toStoredEvent <$> persisted) ∧
    length ids = length persisted ∧ (Forall label_inserts tr → lost = []).
Proof.
  intros Hpub Hok Hrun. destruct (pp_run_inv _ _ _ _ _ Hok Hrun) as [_ _ _ Hf Ha]. split_and!; [done|done|].
  assert (∃ tr1 p1, pp_run (NewPersistingPublisher repo inner n) (tr ++ tr1) p1 ∧ pp_loop p1 = false ∧ pp_closed p1 = true ∧
    published tr1 = [] ∧ Forall label_ok tr1 ∧ Forall label_inserts tr1) as (tr1 & p1 & Hrun1 & Hl1 & Hc1 & Hp1 & Ho1 & Hi1).
  { destruct (pp_loop p) eqn:Hl.
    - exists [LClose; LTick], (flush_tick (close_enter p)). rewrite cons_middle, app_assoc. split_and!; try done; try (by repeat constructor).
      eapply run_snoc; [eapply run_snoc; [done|constructor]|by constructor].
    - exists [LClose], (close_enter p). split_and!; try done; try (by repeat constructor). eapply run_snoc; [done|constructor]. }
  destruct (threads_finish _ Hpub _ _ _ eq_refl Hrun1 Hl1 Hc1) as (tr2 & p2 & Hrun2 & Hp2 & Hi2 & Ho2 & Hth & Hc2).
  rewrite <- app_assoc in Hrun2. assert (Hsil : published (tr1 ++ tr2) = []) by (unfold published in *; by rewrite omap_app, Hp1, Hp2).
  assert (Hok2 : Forall label_ok (tr ++ tr1 ++ tr2)) by (by rewrite !Forall_app).
  destruct (pp_run_inv _ _ _ _ _ Hok2 Hrun2) as [_ He _ Hf2 (persisted & lost & ids & D & [H1 H2 H3 _ _ H6])].
  specialize (He Hc2). rewrite He, Hth, accepted_silent in H1 by done. rewrite Hth in Hf2.
  exists (tr1 ++ tr2), p2, persisted, lost, ids. split_and!; try done.
  - unfold published in Hf2, Hsil |- *. rewrite omap_app, Hsil, app_nil_r in Hf2. rewrite Hf2. cbn. by rewrite app_nil_r.
  - intros Hi. apply H6. by rewrite !Forall_app.
Qed.

(** The flush interval has no effect: the loop never finds a full batch. *)
Lemma tick_never_flushes repo inner n tr p :
  1 ≤ n → Forall label_ok tr → pp_run (NewPersistingPublisher repo inner (Some n)) tr p → pp_closed p = false → flush_tick p = p.
Proof.
  intros Hn Hok Hrun Hc. assert (Hb : pp_batchSize p = n).
  { clear Hok Hc. induction Hrun as [|tr p l p' Hrun IH Hstep]; [done|]. rewrite <- IH. clear IH Hrun.
    destruct Hstep; unfold publish_enter, flush_tick, flush; repeat case_match; done. }
  destruct (pp_run_inv _ _ _ _ _ Hok Hrun) as [_ _ Hs _ _]. unfold flush_tick. rewrite Hc, (proj2 (Z.leb_gt _ _)) by lia. done.
Qed.
End publisher.

(** A publisher that keeps what it is given. *)
#[export] Instance recording_publisher : Publisher (list any_event) any_event := λ q e, Ret (q ++ [e]).

Definition sample_quote (price : float64) : any_event :=
  EvQuote (mkQuote "AAPL" "trade" 1 price f64_zero f64_zero 1 5000 "sim").
Definition symbol_bytes (e : any_event) : option (list byte) := Some (bytes_of_string (EventSymbol e)).

Definition sample_run : list pp_label :=
  [LPublish (sample_quote f64_one) 1; LPublish (EvOther "MSFT" "heartbeat") 2; LFlush [RefusedBy true 2]; LTick; LClose].

Lemma persisting_publisher_conserves_witness :
  ∃ tr' p' persisted lost ids,
    pp_run micros symbol_bytes (NewPersistingPublisher empty_table [] (Some 2)) (sample_run ++ tr') p' ∧ pp_threads p' = [] ∧
    [mkBuffered (sample_quote f64_one) 1; mkBuffered (EvOther "MSFT" "heartbeat") 2] ≡ₚ persisted ++ lost ∧
    pg_rows (pp_repo p') = [] ++ zip_with (prepare micros) ids (toStoredEvent symbol_bytes <$> persisted).
Proof.
  assert (Hrun : ∃ p, pp_run micros symbol_bytes (NewPersistingPublisher empty_table [] (Some 2)) sample_run p).
  { eexists. eapply (run_snoc micros symbol_bytes _ [LPublish (sample_quote f64_one) 1; LPublish (EvOther "MSFT" "heartbeat") 2;
      LFlush [RefusedBy true 2]; LTick] _ LClose); [|constructor].
    eapply (run_snoc micros symbol_bytes _ [LPublish (sample_quote f64_one) 1; LPublish (EvOther "MSFT" "heartbeat") 2;
      LFlush [RefusedBy true 2]] _ LTick); [|apply step_tick].
    - eapply (run_snoc micros symbol_bytes _ [LPublish (sample_quote f64_one) 1; LPublish (EvOther "MSFT" "heartbeat") 2]);
        [|apply (step_flush micros symbol_bytes _ [TForward (sample_quote f64_one)] [])].
      + eapply (run_snoc micros symbol_bytes _ [LPublish (sample_quote f64_one) 1]); [|constructor].
        eapply (run_snoc micros symbol_bytes _ []); constructor.
      + reflexivity.
    - vm_compute. reflexivity. }
  destruct Hrun as [p Hrun].
  destruct (persisting_publisher_conserves micros symbol_bytes empty_table [] (Some 2) sample_run p)
    as (_ & _ & tr' & p' & persisted & lost & ids & H1 & _ & H3 & _ & H5 & H6 & _).
  - intros q e. by exists (q ++ [e]).
  - constructor; [exact I|]. constructor; [exact I|]. constructor; [|constructor; [exact I|constructor; [exact I|constructor]]].
    constructor; [|constructor]. split; [discriminate|]. cbn. lia.
  - exact Hrun.
  - exists tr', p', persisted, lost, ids. split; [exact H1|]. split; [exact H3|]. split; [exact H5|exact H6].
Defined.
