(* ===== verification/WorkerPool.v ===== *)
(** * WorkerPool: the queue between the feed and the publishers

    [internal/workerpool/pool.go]. Callers of [Enqueue], the workers and [Shutdown] run
    concurrently, so the pool is a state with what each of them has still to do, and
    its steps are the atomic operations: the test of the flag, the additions to the
    counters, the operations on the channel. The publisher is what a worker calls; of
    it only whether the call returns or panics is seen. The Prometheus instruments are
    left out. *)

From S2P Require Import Prelude.

(** [Config], and what [New] makes of it. *)
Record Config := mkConfig { cf_Workers : Z; cf_QueueCapacity : Z; cf_ShutdownTimeout : Z }.
Definition second : Z := 1000000000.
Definition DefaultConfig : Config := mkConfig 8 4096 (5 * second).
Definition New_config (c : Config) : Config :=
  mkConfig (if cf_Workers c <=? 0 then 8 else cf_Workers c) (if cf_QueueCapacity c <=? 0 then 4096 else cf_QueueCapacity c)
    (if cf_ShutdownTimeout c <=? 0 then 5 * second else cf_ShutdownTimeout c).

(** [PoolStats]: a counter for each name. *)
Inductive stat := Enqueued | Dropped | Processed | Panics | QueueDepth.
#[export] Instance stat_eq_dec : EqDecision stat.
Proof. solve_decision. Defined.
Definition PoolStats : Type := stat → Z.
Definition stat_add (s : stat) (k : Z) (stats : PoolStats) : PoolStats :=
  λ x, if decide (x = s) then i64 (stats x + k) else stats x.

Section pool.
Context {Ev : Type}.

(** A caller of [Enqueue]: past the test; past the addition to the depth; past the
    send. *)
Inductive caller := CChecked (e : Ev) | CSend (e : Ev) | CSent (e : Ev).
(** A worker: at the select; with an event; in [Publish]; past the loop. *)
Inductive worker := WIdle | WGot (e : Ev) | WBusy (e : Ev) | WDone.
Inductive shutdown := SNone | SStopped | SWaiting | SReturned (failed : bool).

Record Pool := mkPool {
  p_cfg : Config;
  p_stats : PoolStats;
  p_queue : list Ev;
  p_closed : bool;
  p_stopped : bool;
  p_started : bool;
  p_cancelled : bool;
  p_callers : list caller;
  p_workers : list worker;
  p_shutdown : shutdown;
}.

Definition New (cfg : Config) : Pool :=
  mkPool (New_config cfg) (λ _, 0) [] false false false false [] [] SNone.

(** Updates of the parts that a step changes. *)
Definition upd_callers (p : Pool) (stats : PoolStats) (queue : list Ev) (cs : list caller) : Pool :=
  mkPool (p_cfg p) stats queue (p_closed p) (p_stopped p) (p_started p) (p_cancelled p) cs (p_workers p) (p_shutdown p).
Definition upd_workers (p : Pool) (stats : PoolStats) (queue : list Ev) (ws : list worker) : Pool :=
  mkPool (p_cfg p) stats queue (p_closed p) (p_stopped p) (p_started p) (p_cancelled p) (p_callers p) ws (p_shutdown p).
Definition upd_shutdown (p : Pool) (closed stopped cancelled : bool) (s : shutdown) : Pool :=
  mkPool (p_cfg p) (p_stats p) (p_queue p) closed stopped (p_started p) cancelled (p_callers p) (p_workers p) s.

(** *** Enqueue *)

(** The test of the flag. *)
Definition Enqueue (p : Pool) (e : Ev) : Pool :=
  if p_stopped p then upd_callers p (stat_add Dropped 1 (p_stats p)) (p_queue p) (p_callers p)
  else upd_callers p (p_stats p) (p_queue p) (p_callers p ++ [CChecked e]).

(** The select: a send on a closed channel panics, which is recovered. The answer of
    [Enqueue] is whether the event went into the queue. *)
Definition enqueue_send (p : Pool) (e : Ev) (l r : list caller) : Pool * bool :=
  if p_closed p then (upd_callers p (stat_add Dropped 1 (p_stats p)) (p_queue p) (l ++ r), false)
  else if Z.of_nat (length (p_queue p)) <? cf_QueueCapacity (p_cfg p)
  then (upd_callers p (p_stats p) (p_queue p ++ [e]) (l ++ CSent e :: r), true)
  else (upd_callers p (stat_add QueueDepth (-1) (stat_add Dropped 1 (p_stats p))) (p_queue p) (l ++ r), false).

(** *** Start and Shutdown *)

Definition Start (p : Pool) : Pool :=
  mkPool (p_cfg p) (p_stats p) (p_queue p) (p_closed p) (p_stopped p) true (p_cancelled p) (p_callers p)
    (p_workers p ++ replicate (Z.to_nat (cf_Workers (p_cfg p))) WIdle) (p_shutdown p).

(** The body of the once: what comes next. [None] while it has to wait; [timeout] says
    that its context is done. *)
Definition Shutdown_next (p : Pool) (timeout : bool) : option Pool :=
  match p_shutdown p with
  | SNone => Some (upd_shutdown p (p_closed p) true (p_cancelled p) SStopped)
  | SStopped => Some (upd_shutdown p true (p_stopped p) (p_cancelled p) SWaiting)
  | SWaiting =>
      if timeout then Some (upd_shutdown p (p_closed p) (p_stopped p) (p_started p || p_cancelled p) (SReturned true))
      else if forallb (λ w, match w with WDone => true | _ => false end) (p_workers p)
      then Some (upd_shutdown p (p_closed p) (p_stopped p) (p_cancelled p) (SReturned false))
      else None
  | SReturned _ => None
  end.

(** ** The steps *)

Inductive pool_label :=
  | LOffer (e : Ev)
  | LSend (e : Ev) (accepted : bool)
  | LTake (e : Ev)
  | LHandled (e : Ev) (panicked : bool)
  | LShutdown (timeout : bool)
  | LCancel
  | LTau.

Inductive pool_step : Pool → pool_label → Pool → Prop :=
  | ps_start p : p_started p = false → pool_step p LTau (Start p)
  | ps_enqueue p e : pool_step p (LOffer e) (Enqueue p e)
  | ps_depth p l r e :
      p_callers p = l ++ CChecked e :: r →
      pool_step p LTau (upd_callers p (stat_add QueueDepth 1 (p_stats p)) (p_queue p) (l ++ CSend e :: r))
  | ps_send p l r e p' ok :
      p_callers p = l ++ CSend e :: r → enqueue_send p e l r = (p', ok) → pool_step p (LSend e ok) p'
  | ps_sent p l r e :
      p_callers p = l ++ CSent e :: r →
      pool_step p LTau (upd_callers p (stat_add Enqueued 1 (p_stats p)) (p_queue p) (l ++ r))
  | ps_take p l r e q :
      p_workers p = l ++ WIdle :: r → p_queue p = e :: q →
      pool_step p (LTake e) (upd_workers p (p_stats p) q (l ++ WGot e :: r))
  | ps_busy p l r e :
      p_workers p = l ++ WGot e :: r →
      pool_step p LTau (upd_workers p (stat_add QueueDepth (-1) (p_stats p)) (p_queue p) (l ++ WBusy e :: r))
  | ps_publish p l r e :
      p_workers p = l ++ WBusy e :: r →
      pool_step p (LHandled e false) (upd_workers p (stat_add Processed 1 (p_stats p)) (p_queue p) (l ++ WIdle :: r))
  | ps_panic p l r e :
      p_workers p = l ++ WBusy e :: r →
      pool_step p (LHandled e true)
        (upd_workers p (stat_add Processed 1 (stat_add Panics 1 (p_stats p))) (p_queue p) (l ++ WIdle :: r))
  | ps_drained p l r :
      p_workers p = l ++ WIdle :: r → p_queue p = [] → p_closed p = true →
      pool_step p LTau (upd_workers p (p_stats p) (p_queue p) (l ++ WDone :: r))
  | ps_ctx p l r :
      p_workers p = l ++ WIdle :: r → p_cancelled p = true →
      pool_step p LTau (upd_workers p (p_stats p) (p_queue p) (l ++ WDone :: r))
  | ps_shutdown p timeout p' : Shutdown_next p timeout = Some p' → pool_step p (LShutdown timeout) p'
  | ps_cancel p : pool_step p LCancel (upd_shutdown p (p_closed p) (p_stopped p) true (p_shutdown p)).

Inductive pool_run (p0 : Pool) : list pool_label → Pool → Prop :=
  | pr_nil : pool_run p0 [] p0
  | pr_snoc tr p l p' : pool_run p0 tr p → pool_step p l p' → pool_run p0 (tr ++ [l]) p'.

(** ** What a run has done *)

Definition offers (l : pool_label) : list Ev := match l with LOffer e => [e] | _ => [] end.
Definition sends (l : pool_label) : list Ev := match l with LSend e true => [e] | _ => [] end.
Definition takes (l : pool_label) : list Ev := match l with LTake e => [e] | _ => [] end.
Definition handles (l : pool_label) : list Ev := match l with LHandled e _ => [e] | _ => [] end.
Definition panics (l : pool_label) : list Ev := match l with LHandled e true => [e] | _ => [] end.

(** What the callers and the workers hold. *)
Definition waiting (c : caller) : list Ev := match c with CChecked e | CSend e => [e] | _ => [] end.
Definition sending (c : caller) : list Ev := match c with CSend e => [e] | _ => [] end.
Definition counting (c : caller) : list Ev := match c with CSent e => [e] | _ => [] end.
Definition holding (w : worker) : list Ev := match w with WGot e | WBusy e => [e] | _ => [] end.
Definition got (w : worker) : list Ev := match w with WGot e => [e] | _ => [] end.

Lemma bind_replicate_idle {A} (f : worker → list A) n : f WIdle = [] → replicate n WIdle ≫= f = [].
Proof. intros Hf. induction n as [|n IH]; [done|]. cbn. by rewrite Hf, IH. Qed.
End pool.

Ltac pool_cases Hs :=
  destruct Hs; unfold Enqueue, enqueue_send, Shutdown_next, Start in *; repeat case_match; simplify_eq;
  rewrite ?bind_app; cbn in *;
  repeat match goal with
  | H : p_callers _ = _ |- _ => rewrite H in *; clear H
  | H : p_workers _ = _ |- _ => rewrite H in *; clear H
  | H : p_queue _ = _ |- _ => rewrite H in *; clear H
  end;
  rewrite ?bind_app, ?bind_replicate_idle in * by done; cbn in *; rewrite ?app_nil_r in *.

Ltac pool_close :=
  first
  [ done
  | by match goal with H : _ = _ |- _ => rewrite H, <- ?app_assoc end
  | match goal with H : _ ≡ₚ _ |- _ => rewrite H; solve_Permutation end
  | unfold stat_add; repeat first [rewrite decide_True by done | rewrite decide_False by done];
    repeat match goal with H : p_stats _ _ = i64 _ |- _ => rewrite H; clear H end;
    rewrite ?i64_add, ?length_app; cbn; f_equal; lia
  | zb; rewrite ?length_app in *; cbn in *; lia ].

Section laws.
Context {Ev : Type}.
Implicit Types (p : Pool (Ev := Ev)) (tr : list (pool_label (Ev := Ev))).

(** The queue is a queue, within its capacity; what was taken is handled or in the
    hands of a worker. *)
Lemma run_fifo cfg tr p :
  pool_run (New cfg) tr p →
  tr ≫= sends = (tr ≫= takes) ++ p_queue p ∧ tr ≫= takes ≡ₚ (tr ≫= handles) ++ (p_workers p ≫= holding) ∧
  p_cfg p = New_config cfg ∧ Z.of_nat (length (p_queue p)) ≤ cf_QueueCapacity (p_cfg p).
Proof.
  induction 1 as [|tr p l p' Hrun (H1 & H2 & H3 & H4) Hs].
  { split_and!; try done. cbn. destruct (Z.leb_spec (cf_QueueCapacity cfg) 0); lia. }
  pool_cases Hs; split_and!; pool_close.
Qed.

(** Every event offered went into the queue, was dropped, or is in the hands of its
    caller; the depth counts what is in the queue or about to enter or leave it, and
    every send that met the closed channel. *)
Lemma run_offered cfg tr p :
  pool_run (New cfg) tr p →
  ∃ dropped leaked,
    tr ≫= offers ≡ₚ (tr ≫= sends) ++ dropped ++ (p_callers p ≫= waiting) ∧ p_stats p Dropped = i64 (Z.of_nat (length dropped)) ∧
    (leaked ≤ length dropped)%nat ∧ (p_closed p = false → leaked = 0%nat) ∧
    p_stats p QueueDepth =
      i64 (Z.of_nat (length (p_queue p) + length (p_callers p ≫= sending) + length (p_workers p ≫= got) + leaked)).
Proof.
  induction 1 as [|tr p l p' Hrun (dropped & leaked & H1 & H2 & H3 & H4 & H5) Hs].
  { by exists [], 0%nat. }
  pool_cases Hs.
  all: first [ solve [exists dropped, leaked; split_and!; pool_close]
             | solve [exists (dropped ++ [e]), leaked; split_and!; pool_close]
             | exists (dropped ++ [e]), (S leaked); split_and!; pool_close ].
Qed.

Lemma run_counts cfg tr p :
  pool_run (New cfg) tr p →
  p_stats p Enqueued = i64 (Z.of_nat (length (tr ≫= sends)) - Z.of_nat (length (p_callers p ≫= counting))) ∧
  p_stats p Processed = i64 (Z.of_nat (length (tr ≫= handles))) ∧ p_stats p Panics = i64 (Z.of_nat (length (tr ≫= panics))).
Proof.
  induction 1 as [|tr p l p' Hrun (H1 & H2 & H3) Hs]; [done|].
  pool_cases Hs; split_and!; pool_close.
Qed.

(** The pool accounts for every event, in every interleaving of callers, workers and
    [Shutdown]: what was offered went into the queue, was dropped (and counted), or its
    caller is still at it; what went into the queue was taken in order and is still
    there for the rest, within the capacity; what was taken was published, with or
    without a panic, or is in the hands of a worker; and the counters say how much. *)
Lemma pool_accounts_for_every_event cfg tr p :
  pool_run (New cfg) tr p →
  (∃ dropped, tr ≫= offers ≡ₚ (tr ≫= sends) ++ dropped ++ (p_callers p ≫= waiting) ∧
     p_stats p Dropped = i64 (Z.of_nat (length dropped))) ∧
  tr ≫= sends = (tr ≫= takes) ++ p_queue p ∧ Z.of_nat (length (p_queue p)) ≤ cf_QueueCapacity (New_config cfg) ∧
  tr ≫= takes ≡ₚ (tr ≫= handles) ++ (p_workers p ≫= holding) ∧
  p_stats p Enqueued = i64 (Z.of_nat (length (tr ≫= sends)) - Z.of_nat (length (p_callers p ≫= counting))) ∧
  p_stats p Processed = i64 (Z.of_nat (length (tr ≫= handles))) ∧ p_stats p Panics = i64 (Z.of_nat (length (tr ≫= panics))) ∧
  (p_closed p = false →
   p_stats p QueueDepth = i64 (Z.of_nat (length (p_queue p) + length (p_callers p ≫= sending) + length (p_workers p ≫= got)))).
Proof.
  intros Hrun. destruct (run_fifo _ _ _ Hrun) as (H1 & H2 & H3 & H4). destruct (run_counts _ _ _ Hrun) as (H5 & H6 & H7).
  destruct (run_offered _ _ _ Hrun) as (dropped & leaked & H8 & H9 & _ & H10 & H11). rewrite <- H3.
  split_and!; try done; [by exists dropped|]. intros Hc. rewrite H11, (H10 Hc). by rewrite Nat.add_0_r.
Qed.

(** ** Shutdown *)

Definition cancels (l : pool_label (Ev := Ev)) : bool := match l with LCancel | LShutdown true => true | _ => false end.

Definition closing (s : shutdown) : bool := match s with SWaiting | SReturned _ => true | _ => false end.

Lemma cancels_snoc tr l : existsb cancels (tr ++ [l]) = existsb cancels tr || cancels l.
Proof. rewrite existsb_app. cbn. by rewrite orb_false_r. Qed.

Ltac step_cases Hs :=
  destruct Hs; unfold Enqueue, enqueue_send, Shutdown_next, Start in *; repeat case_match; simplify_eq; cbn in *.

Lemma run_flags cfg tr p :
  pool_run (New cfg) tr p → p_closed p = closing (p_shutdown p) ∧ (p_cancelled p = true → existsb cancels tr = true).
Proof.
  induction 1 as [|tr p l p' Hrun [H1 H2] Hs]; [done|]. rewrite cancels_snoc.
  step_cases Hs; rewrite ?orb_false_r, ?orb_true_r; split; try congruence.
  all: intros Hc; by rewrite (H2 Hc).
Qed.

Lemma run_workers cfg tr p :
  pool_run (New cfg) tr p → (p_started p = true → p_workers p ≠ []) ∧ p_cfg p = New_config cfg.
Proof.
  induction 1 as [|tr p l p' Hrun [H1 H2] Hs]; [done|].
  step_cases Hs; split; try done; try (intros _ Hnil; by destruct l). intros _ [_ Hnil]%app_nil. revert Hnil. rewrite H2. cbn.
  destruct (Z.leb_spec (cf_Workers cfg) 0); [done|]. destruct (Z.to_nat (cf_Workers cfg)) eqn:?; [lia|done].
Qed.

(** A worker leaves when the context is done, or the channel is closed and empty. *)
Lemma run_done cfg tr p :
  pool_run (New cfg) tr p → WDone ∈ p_workers p → p_cancelled p = true ∨ p_closed p = true ∧ p_queue p = [].
Proof.
  induction 1 as [|tr p l p' Hrun IH Hs]; [by intros ?%elem_of_nil|].
  step_cases Hs; try done; auto; intros Hd.
  all: destruct IH as [Hc|[Hc Hq]];
    [ first [ done | match goal with H : p_workers _ = _ |- _ => rewrite H; set_solver end
            | by apply elem_of_app in Hd as [?|[[=] _]%elem_of_replicate] ]
    | left; rewrite ?Hc, ?orb_true_r; done
    | try congruence; by right ].
Qed.

Lemma existsb_false_cancelled cfg tr p : pool_run (New cfg) tr p → existsb cancels tr = false → p_cancelled p = false.
Proof.
  intros Hrun Hc. destruct (run_flags _ _ _ Hrun) as [_ Hf]. destruct (p_cancelled p); [|done]. by rewrite Hf in Hc.
Qed.

(** When the workers have all left and nothing was cancelled, all is handled. *)
Lemma drained cfg tr p :
  pool_run (New cfg) tr p → p_started p = true → Forall (eq WDone) (p_workers p) → existsb cancels tr = false →
  p_queue p = [] ∧ tr ≫= sends ≡ₚ tr ≫= handles.
Proof.
  intros Hrun Hst Hall Hc. destruct (run_workers _ _ _ Hrun) as [Hne _]. specialize (Hne Hst).
  destruct (run_done _ _ _ Hrun) as [Hcan|[_ Hq]].
  - destruct Hall as [|w ws <- _]; [done|]. by left.
  - by rewrite (existsb_false_cancelled _ _ _ Hrun Hc) in Hcan.
  - split; [done|]. destruct (run_fifo _ _ _ Hrun) as (H1 & H2 & _). rewrite H1, Hq, app_nil_r, H2.
    replace (p_workers p ≫= holding) with (@nil Ev); [by rewrite app_nil_r|]. clear -Hall. induction Hall as [|w ws <- _ IH]; [done|done].
Qed.

(** The work that is left before the workers leave. *)
Definition load (w : worker (Ev := Ev)) : nat := match w with WIdle => 1 | WGot _ => 3 | WBusy _ => 2 | WDone => 0 end.
Definition left_over p : nat := 4 * length (p_queue p) + sum_list_with load (p_workers p).

Lemma workers_finish p0 k : ∀ tr p,
  left_over p = k → pool_run p0 tr p → p_shutdown p = SWaiting → p_closed p = true →
  ∃ tr' p', pool_run p0 (tr ++ tr') p' ∧ tr' ≫= offers = [] ∧ tr' ≫= sends = [] ∧ existsb cancels tr' = false ∧
    p_shutdown p' = SWaiting ∧ p_started p' = p_started p ∧ Forall (eq WDone) (p_workers p').
Proof.
  induction k as [k IH] using lt_wf_ind. intros tr p Hk Hrun Hsh Hcl.
  destruct (decide (Forall (λ w, load w = 0%nat) (p_workers p))) as [Hall|Hall].
  { exists [], p. rewrite app_nil_r. split_and!; try done. eapply Forall_impl; [exact Hall|]. by intros []. }
  assert (∃ l p', pool_step p l p' ∧ offers l = [] ∧ sends l = [] ∧ cancels l = false ∧ p_shutdown p' = SWaiting ∧ p_closed p' = true ∧
    p_started p' = p_started p ∧ (left_over p' < k)%nat) as (l & p' & Hs & H1 & H2 & H3 & H4 & H5 & H6 & H7).
  { apply not_Forall_Exists in Hall; [|intros; apply _]. apply Exists_exists in Hall as (w & Hin & Hw).
    apply list_elem_of_split in Hin as (ws & ws' & Hws). unfold left_over in *. rewrite Hws, sum_list_with_app in Hk. destruct w as [|e|e|]; [|..|by destruct Hw].
    - destruct (p_queue p) as [|e q] eqn:Hq.
      + eexists _, _. split; [by eapply ps_drained|]. cbn in *. rewrite sum_list_with_app, Hq. cbn in *. split_and!; try done. lia.
      + eexists _, _. split; [by eapply ps_take|]. cbn in *. rewrite sum_list_with_app. cbn in *. split_and!; try done. lia.
    - eexists _, _. split; [by eapply ps_busy|]. cbn in *. rewrite sum_list_with_app. cbn in *. split_and!; try done. lia.
    - eexists _, _. split; [by eapply ps_publish|]. cbn in *. rewrite sum_list_with_app. cbn in *. split_and!; try done. lia. }
  destruct (IH _ H7 (tr ++ [l]) p' eq_refl) as (tr' & p'' & Hr & Ho & Hsn & Hc & Hw & Hst & Hd); [by eapply pr_snoc|done|done|].
  exists (l :: tr'), p''. rewrite cons_middle, app_assoc. split_and!; try done; cbn.
  - by rewrite H1.
  - by rewrite H2.
  - by rewrite H3.
  - congruence.
Qed.

End laws.

(** ** Two runs of a pool with one worker *)

Definition small_pool : Config := mkConfig 1 2 0.

Lemma pool_run_cons {Ev} (p0 p1 p : Pool (Ev := Ev)) l tr : pool_step p0 l p1 → pool_run p1 tr p → pool_run p0 (l :: tr) p.
Proof.
  intros Hs. induction 1 as [|tr p l' p' _ IH Hs']; [by apply (pr_snoc _ [] _ _ _ (pr_nil _))|].
  change (l :: tr ++ [l']) with ((l :: tr) ++ [l']). by eapply pr_snoc.
Qed.

Tactic Notation "pool_go" uconstr(c) := eapply pool_run_cons; [eapply c; reflexivity|].

(** A caller that passed the test before [Shutdown] and sends after it: the panic is
    recovered, but the depth keeps counting the event. *)
Definition late_sender : list (pool_label (Ev := Z)) := [LOffer 7; LTau; LShutdown false; LShutdown false; LSend 7 false].

Lemma closed_send_leaks_depth :
  ∃ p, pool_run (New small_pool) late_sender p ∧ p_queue p = [] ∧ p_callers p = [] ∧ p_workers p = [] ∧
    p_stats p QueueDepth = 1.
Proof.
  eexists. split.
  - unfold late_sender.
    pool_go ps_enqueue. pool_go (ps_depth _ [] []). pool_go ps_shutdown. pool_go ps_shutdown. pool_go (ps_send _ [] []). apply pr_nil.
  - repeat split.
Qed.

(** The context of the workers is done before [Shutdown]: it returns nil with an event
    still in the queue, neither published nor counted as dropped. *)
Definition early_cancel : list (pool_label (Ev := Z)) :=
  [LTau; LOffer 7; LTau; LSend 7 true; LTau; LCancel; LTau; LShutdown false; LShutdown false; LShutdown false].

Lemma cancelled_pool_abandons_queue :
  ∃ p, pool_run (New small_pool) early_cancel p ∧ p_shutdown p = SReturned false ∧ p_queue p = [7] ∧
    early_cancel ≫= handles = [] ∧ p_stats p Dropped = 0.
Proof.
  eexists. split.
  - unfold early_cancel.
    pool_go ps_start. pool_go ps_enqueue. pool_go (ps_depth _ [] []). pool_go (ps_send _ [] []). pool_go (ps_sent _ [] [] 7). pool_go ps_cancel. pool_go (ps_ctx _ [] []). pool_go ps_shutdown. pool_go ps_shutdown. pool_go ps_shutdown. apply pr_nil.
  - repeat split.
Qed.

Definition orderly : list (pool_label (Ev := Z)) :=
  [LTau; LOffer 7; LTau; LSend 7 true; LTau; LShutdown false; LShutdown false].

Lemma orderly_run : ∃ p, pool_run (New small_pool) orderly p ∧ p_started p = true ∧ p_shutdown p = SWaiting.
Proof.
  eexists. split.
  - unfold orderly.
    pool_go ps_start. pool_go ps_enqueue. pool_go (ps_depth _ [] []). pool_go (ps_send _ [] []). pool_go (ps_sent _ [] [] 7). pool_go ps_shutdown. pool_go ps_shutdown. apply pr_nil.
  - split; reflexivity.
Qed.

Lemma pool_accounts_for_every_event_witness :
  ∃ p, pool_run (New small_pool) orderly p ∧ p_queue p = [7] ∧ p_stats p Enqueued = i64 (1 - Z.of_nat (length (p_callers p ≫= counting))).
Proof.
  destruct orderly_run as (p & Hrun & _). destruct (pool_accounts_for_every_event small_pool orderly p Hrun) as (_ & Hq & _ & _ & He & _).
  exists p. split; [exact Hrun|]. split; [symmetry; exact Hq|exact He].
Defined.

