(* ===== verification/Recorder.v ===== *)
(** * Recorder: live events to the event store, in batches

    [internal/recorder/batcher/batcher.go] and [internal/recorder/engine/recorder.go].
    The loop of the batcher fills a buffer, hands it to a goroutine that stamps its
    events in place, writes them and puts the buffer back into the pool, and takes
    another buffer from the pool. Buffers are slices of arrays in a store, so that a
    buffer that was reused too early would be seen. The steps are the operations of the
    loop, of the goroutines and of those that add events. The store is any function
    that takes a batch; its error is dropped by the caller. *)

From Stdlib Require Import Strings.Byte Sorting.Sorted.
From S2P Require Import Prelude Bytes EventStore.

Definition max_writes : nat := 10.

Definition zero_event : StoredEvent := mkStored "" 0 "" "" "" zero_time 0 [] zero_time.
Definition set_RecordingTime (now : Z) (e : StoredEvent) : StoredEvent :=
  mkStored (se_EventID e) (se_SchemaVersion e) (se_Exchange e) (se_Symbol e) (se_EventType e) (se_Timestamp e)
    (se_SequenceNumber e) (se_Payload e) now.

(** A slice from the beginning of an array: its address and length. *)
Record buf := mkBuf { bf_array : nat; bf_len : nat }.
Definition buf_read (arrays : list (list StoredEvent)) (b : buf) : list StoredEvent :=
  take (bf_len b) (default [] (arrays !! bf_array b)).

(** [append(b, e)]: in place while the array has room, else in a new one that is larger
    by [grow], with the events copied. *)
Definition buf_append (grow : nat → nat) (arrays : list (list StoredEvent)) (b : buf) (e : StoredEvent)
    : list (list StoredEvent) * buf :=
  let arr := default [] (arrays !! bf_array b) in
  if (bf_len b <? length arr)%nat
  then (<[bf_array b := <[bf_len b := e]> arr]> arrays, mkBuf (bf_array b) (S (bf_len b)))
  else (arrays ++ [take (bf_len b) arr ++ e :: replicate (grow (bf_len b)) zero_event], mkBuf (length arrays) (S (bf_len b))).

(** Where the loop is: at its select; about to hand the buffer over, for good after
    [ctx.Done]; past its end. *)
Inductive loop_pc := Selecting | Dispatching (last : bool) | Finished.

(** A goroutine of [dispatchProcess]: before the stamps, before the write, before the
    return of the buffer. *)
Inductive job := JStamp (b : buf) | JWrite (b : buf) | JPut (b : buf).
Definition job_buf (j : job) : buf := match j with JStamp b | JWrite b | JPut b => b end.

Section recorder.
Context {S : Type} (write : S → list StoredEvent → S * bool) (grow : nat → nat).

Record Batcher := mkBatcher {
  ba_maxSize : nat;
  ba_ch : list StoredEvent;
  ba_chClosed : bool;
  ba_arrays : list (list StoredEvent);
  ba_pool : list nat;
  ba_buffer : buf;
  ba_pc : loop_pc;
  ba_jobs : list job;
  ba_store : S;
}.

Definition new_buffer (maxSize : nat) : list StoredEvent := replicate maxSize zero_event.

(** [NewRecorder] and [Start]: the pool is empty, so the first buffer is a new one. *)
Definition NewRecorder (store : S) (maxSize : nat) : Batcher :=
  mkBatcher maxSize [] false [new_buffer maxSize] [] (mkBuf 0 0) Selecting [] store.

(** [RecordEvent], which is [Add]: a send, [None] while it has to wait; on a closed
    channel it panics. *)
Definition RecordEvent (b : Batcher) (e : StoredEvent) : option (outcome Batcher) :=
  if ba_chClosed b then Some Panic
  else if (length (ba_ch b) <? ba_maxSize b * 2)%nat
  then Some (Ret (mkBatcher (ba_maxSize b) (ba_ch b ++ [e]) false (ba_arrays b) (ba_pool b) (ba_buffer b) (ba_pc b) (ba_jobs b) (ba_store b)))
  else None.

Definition upd_loop (b : Batcher) (ch : list StoredEvent) (closed : bool) (arrays : list (list StoredEvent)) (buffer : buf) (pc : loop_pc) : Batcher :=
  mkBatcher (ba_maxSize b) ch closed arrays (ba_pool b) buffer pc (ba_jobs b) (ba_store b).

(** The loop receives an event. *)
Definition receive (b : Batcher) (e : StoredEvent) (ch : list StoredEvent) : Batcher :=
  let '(arrays, buffer) := buf_append grow (ba_arrays b) (ba_buffer b) e in
  upd_loop b ch (ba_chClosed b) arrays buffer (if (ba_maxSize b <=? bf_len buffer)%nat then Dispatching false else Selecting).

Definition tick (b : Batcher) : Batcher :=
  if (0 <? bf_len (ba_buffer b))%nat
  then upd_loop b (ba_ch b) (ba_chClosed b) (ba_arrays b) (ba_buffer b) (Dispatching false) else b.

(** [ctx.Done]: close, drain, dispatch what there is. *)
Fixpoint append_all (arrays : list (list StoredEvent)) (b : buf) (evs : list StoredEvent) : list (list StoredEvent) * buf :=
  match evs with
  | [] => (arrays, b)
  | e :: evs => let '(arrays, b) := buf_append grow arrays b e in append_all arrays b evs
  end.
Definition ctx_done (b : Batcher) : Batcher :=
  let '(arrays, buffer) := append_all (ba_arrays b) (ba_buffer b) (ba_ch b) in
  upd_loop b [] true arrays buffer (if (0 <? bf_len buffer)%nat then Dispatching true else Finished).

(** [pool.Get]: one of the pool, or a new one ([None]). *)
Definition pool_get (b : Batcher) (choice : option nat) : option (list (list StoredEvent) * list nat * buf) :=
  match choice with
  | None => Some (ba_arrays b ++ [new_buffer (ba_maxSize b)], ba_pool b, mkBuf (length (ba_arrays b)) 0)
  | Some i => a ← ba_pool b !! i; Some (ba_arrays b, delete i (ba_pool b), mkBuf a 0)
  end.

(** [dispatchProcess] once the semaphore has room, and the next buffer. *)
Definition dispatch (b : Batcher) (last : bool) (choice : option nat) : option Batcher :=
  if (length (ba_jobs b) <? max_writes)%nat then
    let jobs := ba_jobs b ++ [JStamp (ba_buffer b)] in
    if last then Some (mkBatcher (ba_maxSize b) (ba_ch b) (ba_chClosed b) (ba_arrays b) (ba_pool b) (ba_buffer b) Finished jobs (ba_store b))
    else '(arrays, pool, buffer) ← pool_get b choice;
         Some (mkBatcher (ba_maxSize b) (ba_ch b) (ba_chClosed b) arrays pool buffer Selecting jobs (ba_store b))
  else None.

(** The goroutine stamps the events in their array, writes them and returns the buffer
    ([processor] of the engine). *)
Definition stamp_array (arrays : list (list StoredEvent)) (bf : buf) (now : Z) : list (list StoredEvent) :=
  let arr := default [] (arrays !! bf_array bf) in
  <[bf_array bf := (set_RecordingTime now <$> take (bf_len bf) arr) ++ drop (bf_len bf) arr]> arrays.

Definition upd_jobs (b : Batcher) (arrays : list (list StoredEvent)) (pool : list nat) (jobs : list job) (store : S) : Batcher :=
  mkBatcher (ba_maxSize b) (ba_ch b) (ba_chClosed b) arrays pool (ba_buffer b) (ba_pc b) jobs store.

(** ** The steps *)

Inductive rec_label := LRecord (e : StoredEvent) | LDispatch (batch : list StoredEvent) (last : bool) | LWrite (batch : list StoredEvent) (ok : bool) | LOther.

Inductive rec_step : Batcher → rec_label → Batcher → Prop :=
  | rs_record b e b' : RecordEvent b e = Some (Ret b') → rec_step b (LRecord e) b'
  | rs_receive b e ch : ba_pc b = Selecting → ba_ch b = e :: ch → rec_step b LOther (receive b e ch)
  | rs_tick b : ba_pc b = Selecting → rec_step b LOther (tick b)
  | rs_done b : ba_pc b = Selecting → rec_step b LOther (ctx_done b)
  | rs_dispatch b last choice b' :
      ba_pc b = Dispatching last → dispatch b last choice = Some b' →
      rec_step b (LDispatch (buf_read (ba_arrays b) (ba_buffer b)) last) b'
  | rs_stamp b l r bf now :
      ba_jobs b = l ++ JStamp bf :: r →
      rec_step b LOther (upd_jobs b (stamp_array (ba_arrays b) bf now) (ba_pool b) (l ++ JWrite bf :: r) (ba_store b))
  | rs_write b l r bf store ok :
      ba_jobs b = l ++ JWrite bf :: r → write (ba_store b) (buf_read (ba_arrays b) bf) = (store, ok) →
      rec_step b (LWrite (buf_read (ba_arrays b) bf) ok) (upd_jobs b (ba_arrays b) (ba_pool b) (l ++ JPut bf :: r) store)
  | rs_put b l r bf :
      ba_jobs b = l ++ JPut bf :: r → rec_step b LOther (upd_jobs b (ba_arrays b) (ba_pool b ++ [bf_array bf]) (l ++ r) (ba_store b)).

Inductive rec_run (b0 : Batcher) : list rec_label → Batcher → Prop :=
  | rr_nil : rec_run b0 [] b0
  | rr_snoc tr b l b' : rec_run b0 tr b → rec_step b l b' → rec_run b0 (tr ++ [l]) b'.

(** ** Slices and the arrays they share *)

Definition buf_ok (arrays : list (list StoredEvent)) (b : buf) : Prop :=
  ∃ arr, arrays !! bf_array b = Some arr ∧ (bf_len b ≤ length arr)%nat.

Lemma buf_read_other arrays arrays' b :
  arrays' !! bf_array b = arrays !! bf_array b → buf_read arrays' b = buf_read arrays b.
Proof. unfold buf_read. by intros ->. Qed.

(** An append extends the slice, in its own array or a new one, and no other array. *)
Lemma buf_append_spec arrays b e :
  buf_ok arrays b →
  let '(arrays', b') := buf_append grow arrays b e in
  buf_ok arrays' b' ∧ buf_read arrays' b' = buf_read arrays b ++ [e] ∧ bf_len b' = Datatypes.S (bf_len b) ∧
  (bf_array b' = bf_array b ∨ bf_array b' = length arrays) ∧ (length arrays ≤ length arrays')%nat ∧
  ∀ a, (a < length arrays)%nat → a ≠ bf_array b → arrays' !! a = arrays !! a.
Proof.
  intros (arr & Harr & Hlen). pose proof (lookup_lt_Some _ _ _ Harr) as Ha. unfold buf_append, buf_read, buf_ok. rewrite Harr. change (default [] (Some arr)) with arr.
  destruct (Nat.ltb_spec (bf_len b) (length arr)) as [Hlt|Hge]; cbn [bf_array bf_len].
  - split_and!; [|..|by left| |].
    + exists (<[bf_len b := e]> arr). rewrite list_lookup_insert_eq by done. rewrite length_insert. split; [done|lia].
    + rewrite list_lookup_insert_eq by done. cbn. by rewrite (take_S_r _ _ e), take_insert_ge by (done || by apply list_lookup_insert_eq).
    + done.
    + by rewrite length_insert.
    + intros a _ Hne. by rewrite list_lookup_insert_ne by done.
  - assert (bf_len b = length arr) as Hl by lia. rewrite Hl, firstn_all. split_and!; [|..|by right| |].
    + eexists. split; [by apply list_lookup_middle|]. rewrite length_app. cbn. lia.
    + rewrite list_lookup_middle by done. cbn. by rewrite cons_middle, app_assoc, take_app_length' by (rewrite length_app; cbn; lia).
    + done.
    + rewrite length_app. lia.
    + intros a Hlt _. by rewrite lookup_app_l by lia.
Qed.

Lemma append_all_spec evs : ∀ arrays b,
  buf_ok arrays b →
  let '(arrays', b') := append_all arrays b evs in
  buf_ok arrays' b' ∧ buf_read arrays' b' = buf_read arrays b ++ evs ∧ bf_len b' = (bf_len b + length evs)%nat ∧
  (bf_array b' = bf_array b ∨ (length arrays ≤ bf_array b')%nat) ∧ (length arrays ≤ length arrays')%nat ∧
  ∀ a, (a < length arrays)%nat → a ≠ bf_array b → arrays' !! a = arrays !! a.
Proof.
  induction evs as [|e evs IH]; intros arrays b Hok; cbn [append_all].
  { rewrite app_nil_r, Nat.add_0_r. split_and!; try done. by left. }
  pose proof (buf_append_spec arrays b e Hok) as Ha. destruct (buf_append grow arrays b e) as [arrays1 b1].
  destruct Ha as (Hok1 & Hr1 & Hn1 & Ha1 & Hl1 & Hf1). specialize (IH arrays1 b1 Hok1). destruct (append_all arrays1 b1 evs) as [arrays2 b2].
  destruct IH as (Hok2 & Hr2 & Hn2 & Ha2 & Hl2 & Hf2). split_and!; try done.
  - by rewrite Hr2, Hr1, <- app_assoc.
  - rewrite Hn2, Hn1. cbn. lia.
  - destruct Ha2 as [-> |?]; [destruct Ha1 as [-> | ->]; [by left|by right]|right; lia].
  - lia.
  - intros a Hlt Hne. rewrite Hf2; [by apply Hf1|lia|]. destruct Ha1 as [-> | ->]; [done|lia].
Qed.

Lemma stamp_spec arrays b now :
  (bf_array b < length arrays)%nat →
  buf_read (stamp_array arrays b now) b = set_RecordingTime now <$> buf_read arrays b ∧
  length (stamp_array arrays b now) = length arrays ∧
  (∀ b', bf_array b' = bf_array b → buf_ok arrays b' → buf_ok (stamp_array arrays b now) b') ∧
  ∀ a, a ≠ bf_array b → stamp_array arrays b now !! a = arrays !! a.
Proof.
  intros Hlt. destruct (lookup_lt_is_Some_2 arrays (bf_array b) Hlt) as [arr Harr].
  unfold stamp_array, buf_read. rewrite length_insert, Harr. split_and!; [| done| |intros a Hne; by rewrite list_lookup_insert_ne].
  - rewrite list_lookup_insert_eq by done. cbn.
    destruct (decide (bf_len b ≤ length arr)%nat).
    + rewrite take_app_length'; [done|]. rewrite length_fmap, length_take. lia.
    + rewrite (drop_ge arr), app_nil_r by lia. rewrite take_ge; [done|]. rewrite length_fmap, length_take. lia.
  - intros b' Heq (arr' & Harr' & Hl). unfold buf_ok. rewrite Heq in *. rewrite Harr in Harr'. simplify_eq. rewrite list_lookup_insert_eq by done. eexists. split; [done|].
    cbn. rewrite length_app, length_fmap, length_take, length_drop. lia.
Qed.

(** ** The invariant *)

Definition records (l : rec_label) : list StoredEvent := match l with LRecord e => [e] | _ => [] end.
Definition dispatches (l : rec_label) : list (list StoredEvent) := match l with LDispatch d _ => [d] | _ => [] end.
Definition writes (l : rec_label) : list (list StoredEvent) := match l with LWrite d _ => [d] | _ => [] end.
Definition unwritten (j : job) : list buf := match j with JStamp b | JWrite b => [b] | JPut _ => [] end.

(** An event without the time of its recording. *)
Definition strip (e : StoredEvent) : StoredEvent := set_RecordingTime zero_time e.

Definition strips (d : list StoredEvent) : list StoredEvent := strip <$> d.
Definition pending (arrays : list (list StoredEvent)) (jobs : list job) : list (list StoredEvent) :=
  buf_read arrays <$> (jobs ≫= unwritten).

(** The arrays that someone may write: the buffer of the loop, those of the goroutines
    and those in the pool. *)
Definition live (b : Batcher) : list buf := match ba_pc b with Finished => [] | _ => [ba_buffer b] end.
Definition others (b : Batcher) : list nat := (bf_array ∘ job_buf <$> ba_jobs b) ++ ba_pool b.
Definition owned (b : Batcher) : list nat := (bf_array <$> live b) ++ others b.

Definition pc_ok (b : Batcher) : Prop :=
  match ba_pc b with
  | Selecting => (bf_len (ba_buffer b) < ba_maxSize b)%nat ∧ ba_chClosed b = false
  | Dispatching false => (1 ≤ bf_len (ba_buffer b) ≤ ba_maxSize b)%nat ∧ ba_chClosed b = false
  | Dispatching true => (1 ≤ bf_len (ba_buffer b))%nat ∧ ba_chClosed b = true ∧ ba_ch b = []
  | Finished => ba_chClosed b = true ∧ ba_ch b = []
  end.
Definition label_small (n : nat) (l : rec_label) : Prop :=
  match l with LDispatch d last => (1 ≤ length d)%nat ∧ (last = false → (length d ≤ n)%nat) | _ => True end.

Record rec_inv (s0 : S) (tr : list rec_label) (b : Batcher) : Prop := {
  ri_owned : NoDup (owned b) ∧ Forall (λ a, a < length (ba_arrays b))%nat (owned b);
  ri_live : Forall (buf_ok (ba_arrays b)) (live b);
  ri_fifo : tr ≫= records = concat (tr ≫= dispatches) ++ (live b ≫= buf_read (ba_arrays b)) ++ ba_ch b;
  ri_jobs : strips <$> (tr ≫= dispatches) ≡ₚ strips <$> (tr ≫= writes) ++ pending (ba_arrays b) (ba_jobs b);
  ri_store : ba_store b = foldl (λ s d, (write s d).1) s0 (tr ≫= writes);
  ri_bounds : (length (ba_jobs b) ≤ max_writes ∧ length (ba_ch b) ≤ ba_maxSize b * 2)%nat;
  ri_small : Forall (label_small (ba_maxSize b)) tr;
  ri_pc : pc_ok b;
}.

(** What is read through the others' slices stays while their arrays do. *)
Lemma jobs_frame arrays arrays' jobs :
  (∀ a, a ∈ bf_array ∘ job_buf <$> jobs → arrays' !! a = arrays !! a) →
  pending arrays' jobs = pending arrays jobs.
Proof.
  intros Hf. apply list_fmap_ext. intros i b Hi. apply buf_read_other, Hf.
  apply list_elem_of_lookup_2, list_elem_of_bind in Hi as (j & Hb & Hj). apply list_elem_of_fmap. exists j. split; [|done].
  destruct j; cbn in *; by apply list_elem_of_singleton in Hb as -> || by apply elem_of_nil in Hb.
Qed.

(** The loop appends events of the channel to its buffer. *)
Lemma inv_loop s0 tr b evs ch closed arrays buffer pc :
  rec_inv s0 tr b → ba_pc b = Selecting → ba_ch b = evs ++ ch →
  append_all (ba_arrays b) (ba_buffer b) evs = (arrays, buffer) →
  (pc = Finished → bf_len buffer = 0%nat) → pc_ok (upd_loop b ch closed arrays buffer pc) →
  rec_inv s0 (tr ++ [LOther]) (upd_loop b ch closed arrays buffer pc).
Proof.
  intros [[Hnd Hlt] Hlive Hfifo Hjobs Hstore [Hb1 Hb2] Hsm Hpc] Hsel Hch Happ Hfin Hok. unfold owned, live in Hnd, Hlt, Hlive, Hfifo. rewrite Hsel in *.
  apply Forall_cons_1 in Hlive as [Hbuf _]. pose proof (append_all_spec evs _ _ Hbuf) as Ha. rewrite Happ in Ha.
  destruct Ha as (Hbuf' & Hread & Hlen & Haddr & Hmono & Hframe). apply NoDup_cons in Hnd as [Hni Hnd]. apply Forall_cons_1 in Hlt as [Hlt0 Hlt].
  assert (Hothers : NoDup (bf_array buffer :: others b) ∧ Forall (λ a, a < length arrays)%nat (bf_array buffer :: others b)).
  { split; [apply NoDup_cons; split; [|done]|constructor].
    - destruct Haddr as [-> |Hge]; [done|]. intros Hin. rewrite Forall_forall in Hlt. specialize (Hlt _ Hin). lia.
    - destruct Hbuf' as (arr & Harr & _). by apply lookup_lt_Some in Harr.
    - eapply Forall_impl; [exact Hlt|]. cbn. lia. }
  split; cbn [ba_arrays ba_ch ba_jobs ba_store ba_maxSize upd_loop].
  - unfold owned, live. cbn. by destruct pc; [..|destruct Hothers as [[_ ?]%NoDup_cons [_ ?]%Forall_cons_1]].
  - unfold live. cbn. destruct pc; by repeat constructor.
  - rewrite !bind_app, app_nil_r. cbn. rewrite app_nil_r, Hfifo. f_equal. cbn. rewrite app_nil_r, Hch, app_assoc, <- Hread. f_equal. unfold live. cbn.
    destruct pc; cbn; rewrite ?app_nil_r; try done. unfold buf_read. by rewrite Hfin, take_0.
  - rewrite !bind_app, !app_nil_r, Hjobs, (jobs_frame (ba_arrays b) arrays); [done|]. intros a Hin. apply Hframe.
    + rewrite Forall_forall in Hlt. apply Hlt, elem_of_app. by left.
    + intros ->. apply Hni, elem_of_app. by left.
  - by rewrite bind_app, app_nil_r.
  - split; [done|]. rewrite Hch, length_app in Hb2. lia.
  - apply Forall_app. split; [done|by repeat constructor].
  - done.
Qed.

Lemma inv_record s0 tr b e b' : RecordEvent b e = Some (Ret b') → rec_inv s0 tr b → rec_inv s0 (tr ++ [LRecord e]) b'.
Proof.
  unfold RecordEvent. intros Hrec [Ho Hlive Hfifo Hjobs Hstore [Hb1 Hb2] Hsm Hpc]. destruct (ba_chClosed b) eqn:Hcl; [done|].
  destruct (Nat.ltb_spec (length (ba_ch b)) (ba_maxSize b * 2)) as [Hlt|?]; [|done]. simplify_eq.
  split; cbn [ba_arrays ba_ch ba_jobs ba_store ba_maxSize]; rewrite ?bind_app; cbn; rewrite ?app_nil_r; try done.
  - rewrite Hfifo, <- !app_assoc. done.
  - rewrite length_app. cbn. split; [done|lia].
  - apply Forall_app. split; [done|by repeat constructor].
  - unfold pc_ok in *. cbn. destruct (ba_pc b) as [|[]|]; intuition congruence.
Qed.

(** The jobs with the buffer of the loop. *)
Definition handed (b : Batcher) : list job := ba_jobs b ++ [JStamp (ba_buffer b)].

Lemma handed_owners b : (bf_array ∘ job_buf <$> handed b) ++ ba_pool b ≡ₚ bf_array (ba_buffer b) :: others b.
Proof. unfold handed, others. rewrite fmap_app. cbn. solve_Permutation. Qed.

Lemma handed_pending arrays b :
  Forall (λ a, arrays !! a = ba_arrays b !! a) (bf_array (ba_buffer b) :: others b) →
  pending arrays (handed b) = pending (ba_arrays b) (ba_jobs b) ++ [buf_read (ba_arrays b) (ba_buffer b)].
Proof.
  intros [Hb Hf]%Forall_cons_1. unfold pending, handed. rewrite bind_app, fmap_app. cbn. rewrite (buf_read_other (ba_arrays b) arrays) by done.
  f_equal. apply jobs_frame. intros a Ha. rewrite Forall_forall in Hf. apply Hf, elem_of_app. by left.
Qed.

(** The buffer passes from the loop to a goroutine, and the loop goes on with another
    one that is no one else's. *)
Lemma inv_hand_over s0 tr b last arrays pool buffer pc :
  rec_inv s0 tr b → ba_pc b = Dispatching last → (length (ba_jobs b) < max_writes)%nat → (0 < ba_maxSize b)%nat →
  let addrs := (bf_array <$> match pc with Finished => [] | _ => [buffer] end) ++ (bf_array ∘ job_buf <$> handed b) ++ pool in
  NoDup addrs → Forall (λ a, a < length arrays)%nat addrs →
  (∀ a, (a < length (ba_arrays b))%nat → arrays !! a = ba_arrays b !! a) →
  bf_len buffer = 0%nat ∨ pc = Finished → pc = (if last then Finished else Selecting) →
  rec_inv s0 (tr ++ [LDispatch (buf_read (ba_arrays b) (ba_buffer b)) last])
    (mkBatcher (ba_maxSize b) (ba_ch b) (ba_chClosed b) arrays pool buffer pc (handed b) (ba_store b)).
Proof.
  intros [[Hnd Hlt] Hlive Hfifo Hjobs Hstore [Hb1 Hb2] Hsm Hpc] Hdp Hj Hmax addrs Hnd' Hlt' Hf Hz Hpc'.
  unfold owned, live, pc_ok in Hnd, Hlt, Hlive, Hfifo, Hpc. rewrite Hdp in *. apply Forall_cons_1 in Hlive as [(arr & Harr & Hbl) _].
  cbn in Hfifo. rewrite app_nil_r in Hfifo.
  assert (Hlen : length (buf_read (ba_arrays b) (ba_buffer b)) = bf_len (ba_buffer b)).
  { unfold buf_read. rewrite Harr. cbn. rewrite length_take. lia. }
  split; cbn [ba_arrays ba_ch ba_jobs ba_store ba_maxSize]; rewrite ?bind_app; cbn; rewrite ?app_nil_r.
  - done.
  - unfold live. cbn. destruct pc; try done; subst; destruct last; try done. constructor; [|done]. apply Forall_app in Hlt' as [[Ha _]%Forall_cons_1 _].
    apply lookup_lt_is_Some_2 in Ha as [arr' Harr']. exists arr'. destruct Hz as [-> |?]; [|done]. split; [done|lia].
  - rewrite Hfifo, concat_app, <- !app_assoc. cbn. rewrite app_nil_r. f_equal. f_equal. unfold live. cbn. destruct Hz as [Hz| ->]; [|done].
    destruct pc; cbn; rewrite ?app_nil_r; try done; unfold buf_read; by rewrite Hz.
  - rewrite handed_pending by (eapply Forall_impl; [exact Hlt|exact Hf]). by rewrite !fmap_app, Hjobs, fmap_app, app_assoc.
  - done.
  - unfold handed. rewrite length_app. cbn. split; [lia|done].
  - apply Forall_app. split; [done|]. constructor; [|done]. cbn. rewrite Hlen. destruct last; destruct Hpc; split; try done; lia.
  - unfold pc_ok. cbn. subst. destruct last; [tauto|]. destruct Hz as [Hz|?]; [|done]. split; [lia|tauto].
Qed.

Lemma inv_dispatch s0 tr b last choice b' :
  ba_pc b = Dispatching last → dispatch b last choice = Some b' → (0 < ba_maxSize b)%nat → rec_inv s0 tr b →
  rec_inv s0 (tr ++ [LDispatch (buf_read (ba_arrays b) (ba_buffer b)) last]) b'.
Proof.
  unfold dispatch. intros Hdp Hdis Hmax Hinv. destruct (Nat.ltb_spec (length (ba_jobs b)) max_writes) as [Hj|?]; [|done].
  fold (handed b) in Hdis. pose proof (ri_owned _ _ _ Hinv) as [Hnd Hlt]. unfold owned, live in Hnd, Hlt. rewrite Hdp in Hnd, Hlt.
  change (NoDup (bf_array (ba_buffer b) :: others b)) in Hnd. change (Forall (λ a, a < length (ba_arrays b))%nat (bf_array (ba_buffer b) :: others b)) in Hlt.
  destruct last; [|destruct choice as [i|]]; cbn in Hdis.
  - simplify_eq. apply inv_hand_over; try done; [by rewrite handed_owners|by rewrite handed_owners|by right].
  - destruct (ba_pool b !! i) as [a|] eqn:Hi; [|done]. cbn in Hdis. simplify_eq.
    assert (Hp : a :: (bf_array ∘ job_buf <$> handed b) ++ delete i (ba_pool b) ≡ₚ bf_array (ba_buffer b) :: others b).
    { rewrite <- handed_owners. pose proof (delete_Permutation (ba_pool b) i a Hi) as Hdel. symmetry.
      etransitivity; [apply Permutation_app_head; exact Hdel|]. solve_Permutation. }
    apply inv_hand_over; try done; [by rewrite Hp|by rewrite Hp|by left].
  - simplify_eq. apply inv_hand_over; try done; [| |intros a Ha; by rewrite lookup_app_l|by left].
    + cbn. rewrite handed_owners. apply NoDup_cons. split; [|done]. intros Hin. rewrite Forall_forall in Hlt. specialize (Hlt _ Hin). lia.
    + cbn. rewrite handed_owners, length_app. cbn. constructor; [lia|]. eapply Forall_impl; [exact Hlt|]. cbn. lia.
Qed.

(** ** The goroutines *)

(** A goroutine's step keeps who owns which array. *)
Lemma inv_job s0 tr b l r j j' lbl arrays pool store :
  rec_inv s0 tr b → ba_jobs b = l ++ j :: r → records lbl = [] → dispatches lbl = [] →
  (bf_array ∘ job_buf <$> option_list j') ++ pool ≡ₚ bf_array (job_buf j) :: ba_pool b →
  length arrays = length (ba_arrays b) → (∀ a, a ≠ bf_array (job_buf j) → arrays !! a = ba_arrays b !! a) →
  strips <$> (buf_read (ba_arrays b) <$> unwritten j) ≡ₚ strips <$> writes lbl ++ (buf_read arrays <$> (option_list j' ≫= unwritten)) →
  store = foldl (λ s d, (write s d).1) (ba_store b) (writes lbl) →
  rec_inv s0 (tr ++ [lbl]) (upd_jobs b arrays pool (l ++ option_list j' ++ r) store).
Proof.
  intros [[Hnd Hlt] Hlive Hfifo Hjobs Hstore [Hb1 Hb2] Hsm Hpc] Hj Hrec Hdis Hperm Hlen Hf Hw Hst.
  assert (Hown : owned (upd_jobs b arrays pool (l ++ option_list j' ++ r) store) ≡ₚ owned b).
  { unfold owned, others. change (live (upd_jobs _ _ _ _ _)) with (live b). cbn. rewrite Hj, !fmap_app. cbn.
    transitivity ((bf_array <$> live b) ++ (bf_array ∘ job_buf <$> l) ++ (bf_array ∘ job_buf <$> r) ++ (bf_array ∘ job_buf <$> option_list j') ++ pool);
      [solve_Permutation|]. rewrite Hperm. solve_Permutation. }
  assert (Hne : Forall (λ a, arrays !! a = ba_arrays b !! a) ((bf_array <$> live b) ++ (bf_array ∘ job_buf <$> l) ++ (bf_array ∘ job_buf <$> r))).
  { apply Forall_forall. intros x Hx. apply Hf. intros ->.
    assert (Hp : owned b ≡ₚ bf_array (job_buf j) :: ((bf_array <$> live b) ++ (bf_array ∘ job_buf <$> l) ++ (bf_array ∘ job_buf <$> r)) ++ ba_pool b).
    { unfold owned, others. rewrite Hj, fmap_app. cbn. solve_Permutation. }
    rewrite Hp in Hnd. apply NoDup_cons in Hnd as [Hni _]. apply Hni, elem_of_app. by left. }
  rewrite !Forall_app in Hne. destruct Hne as (Hfl & Hl & Hr).
  assert (Hlv : Forall (λ bf, arrays !! bf_array bf = ba_arrays b !! bf_array bf) (live b)) by (by apply Forall_fmap in Hfl).
  split; cbn [ba_arrays ba_ch ba_jobs ba_store ba_maxSize upd_jobs]; rewrite ?Hown, ?Hlen; try done.
  - change (live (upd_jobs _ _ _ _ _)) with (live b). rewrite Forall_forall in Hlive, Hlv |- *. intros bf Hin.
    destruct (Hlive bf Hin) as (arr & Harr & Hle). exists arr. by rewrite Hlv.
  - change (live (upd_jobs _ _ _ _ _)) with (live b). rewrite !bind_app. cbn. rewrite Hrec, Hdis, !app_nil_r, Hfifo. f_equal. f_equal.
    clear -Hlv. induction Hlv as [|bf bfs Hbf _ IH]; [done|]. cbn. by rewrite IH, (buf_read_other (ba_arrays b) arrays).
  - rewrite !bind_app. cbn. rewrite Hdis, !app_nil_r, Hjobs, Hj. unfold pending. rewrite !bind_app, !fmap_app. cbn. rewrite fmap_app, !fmap_app, Hw.
    rewrite fmap_app. fold (pending (ba_arrays b) l) (pending (ba_arrays b) r) (pending arrays l) (pending arrays r).
    rewrite (jobs_frame (ba_arrays b) arrays l), (jobs_frame (ba_arrays b) arrays r); [solve_Permutation|by apply Forall_forall..].
  - rewrite Hst, Hstore, bind_app, foldl_app. cbn. by rewrite app_nil_r.
  - rewrite Hj in Hb1. rewrite !length_app in *. cbn in *. destruct j'; cbn; split; try done; lia.
  - apply Forall_app. split; [done|]. constructor; [|done]. by destruct lbl.
Qed.

Lemma rec_inv_step s0 tr b l b' :
  (0 < ba_maxSize b)%nat → rec_inv s0 tr b → rec_step b l b' → rec_inv s0 (tr ++ [l]) b' ∧ ba_maxSize b' = ba_maxSize b.
Proof.
  intros Hmax Hinv Hs. pose proof (ri_pc _ _ _ Hinv) as Hpc. pose proof (ri_owned _ _ _ Hinv) as [_ Hlt]. unfold pc_ok in Hpc.
  destruct Hs as [b e b' Hr|b e ch Hsel Hch|b Hsel|b Hsel|b last choice b' Hd Hdis|b jl jr bf now Hj|b jl jr bf store ok Hj Hw|b jl jr bf Hj].
  all: try rewrite Hsel in Hpc.
  - split; [by eapply inv_record|]. unfold RecordEvent in Hr. repeat case_match; by simplify_eq.
  - pose proof (buf_append_spec (ba_arrays b) (ba_buffer b) e) as Hok. unfold receive. destruct (buf_append _ _ _ _) as [arrays buffer] eqn:Happ.
    split; [|done]. pose proof (ri_live _ _ _ Hinv) as Hlv. unfold live in Hlv. rewrite Hsel in Hlv. destruct (Hok ltac:(by apply Forall_cons_1 in Hlv as [? _])) as (_ & _ & Hn & _).
    eapply (inv_loop s0 tr b [e]); try done; [by cbn; rewrite Happ|by destruct (_ <=? _)%nat|].
    unfold pc_ok. cbn. destruct (Nat.leb_spec (ba_maxSize b) (bf_len buffer)); cbn; (split; [lia|tauto]).
  - unfold tick. destruct (Nat.ltb_spec 0 (bf_len (ba_buffer b))).
    + split; [|done]. eapply (inv_loop s0 tr b []); try done. unfold pc_ok. cbn. split; [lia|tauto].
    + split; [|done]. destruct b. cbn in *. subst. by eapply (inv_loop s0 tr _ [] _ _ _ _ Selecting Hinv).
  - unfold ctx_done. pose proof (append_all_spec (ba_ch b) (ba_arrays b) (ba_buffer b)) as Hok. destruct (append_all _ _ _) as [arrays buffer] eqn:Happ.
    split; [|done]. eapply (inv_loop s0 tr b (ba_ch b)); try done; [by rewrite app_nil_r| |].
    + destruct (Nat.ltb_spec 0 (bf_len buffer)); [done|]. intros _. lia.
    + unfold pc_ok. cbn. destruct (bf_len buffer) as [|n]; [done|]. split_and!; [lia|done|done].
  - split; [by eapply inv_dispatch|]. unfold dispatch, pool_get in Hdis. repeat case_match; simplify_eq/=; try done. by destruct (ba_pool b !! _); simplify_eq/=.
  - split; [|done]. assert (Ha : (bf_array bf < length (ba_arrays b))%nat).
    { rewrite Forall_forall in Hlt. apply Hlt. unfold owned, others. rewrite Hj, fmap_app. set_solver. }
    destruct (stamp_spec (ba_arrays b) bf now Ha) as (H1 & H2 & _ & H4).
    apply (inv_job s0 tr b jl jr (JStamp bf) (Some (JWrite bf))); try done. cbn. rewrite H1. unfold strips. rewrite <- list_fmap_compose.
    by apply reflexive_eq.
  - split; [|done]. apply (inv_job s0 tr b jl jr (JWrite bf) (Some (JPut bf))); try done. cbn. by rewrite Hw.
  - split; [|done]. apply (inv_job s0 tr b jl jr (JPut bf) None); try done. cbn. solve_Permutation.
Qed.

Lemma rec_run_inv store n tr b :
  (0 < n)%nat → rec_run (NewRecorder store n) tr b → rec_inv store tr b ∧ ba_maxSize b = n.
Proof.
  intros Hn. induction 1 as [|tr b l b' _ [Hinv Hm] Hs].
  - split; [|done]. split; cbn; try done.
    + unfold owned, live, others. cbn. split; [apply NoDup_singleton|repeat constructor].
    + repeat constructor. eexists. split; [done|]. cbn. lia.
    + split; lia.
  - rewrite <- Hm in Hn. destruct (rec_inv_step _ _ _ _ _ Hn Hinv Hs) as [H1 H2]. split; [done|congruence].
Qed.

(** ** Coming to an end *)

Definition effort (j : job) : nat := match j with JStamp _ => 3 | JWrite _ => 2 | JPut _ => 1 end.

Lemma jobs_finish b0 k : ∀ tr b,
  sum_list_with effort (ba_jobs b) = k → rec_run b0 tr b →
  ∃ tr' b', rec_run b0 (tr ++ tr') b' ∧ tr' ≫= records = [] ∧ ba_jobs b' = [] ∧ ba_pc b' = ba_pc b ∧ ba_ch b' = ba_ch b.
Proof.
  induction k as [k IH] using lt_wf_ind. intros tr b Hk Hrun. destruct (ba_jobs b) as [|j jobs] eqn:Hj.
  { exists [], b. rewrite app_nil_r. by split_and!. }
  assert (∃ l b', rec_step b l b' ∧ records l = [] ∧ (sum_list_with effort (ba_jobs b') < k)%nat ∧ ba_pc b' = ba_pc b ∧ ba_ch b' = ba_ch b)
    as (l & b' & Hs & Hl & Hlt & Hpc & Hch).
  { cbn in Hk. destruct j as [bf|bf|bf]; cbn in Hk.
    - eexists _, _. split; [by apply (rs_stamp b [] jobs bf 0)|]. cbn. split_and!; try done. lia.
    - destruct (write (ba_store b) (buf_read (ba_arrays b) bf)) as [store ok] eqn:Hw.
      eexists _, _. split; [by apply (rs_write b [] jobs bf store ok)|]. cbn. split_and!; try done. lia.
    - eexists _, _. split; [by apply (rs_put b [] jobs bf)|]. cbn. split_and!; try done. lia. }
  destruct (IH _ Hlt (tr ++ [l]) b' eq_refl) as (tr' & b'' & Hr & Hrec & Hn & Hp & Hc); [by eapply rr_snoc|].
  exists (l :: tr'), b''. rewrite cons_middle, app_assoc. split_and!; [done|cbn; by rewrite Hl|done|congruence|congruence].
Qed.

(** The loop comes back to its select, unless it has ended. *)
Lemma loop_returns b0 tr b :
  rec_run b0 tr b →
  ∃ tr' b', rec_run b0 (tr ++ tr') b' ∧ tr' ≫= records = [] ∧ (ba_pc b' = Selecting ∨ ba_pc b' = Finished) ∧ (ba_pc b = Dispatching true ∨ ba_pc b = Finished → ba_pc b' = Finished).
Proof.
  intros Hrun. destruct (ba_pc b) as [|last|] eqn:Hpc.
  1, 3: (exists [], b; rewrite app_nil_r; split_and!; [done|done|by auto|by intros [?|?]; congruence]).
  destruct (jobs_finish b0 _ _ _ eq_refl Hrun) as (tr' & b' & Hr & Hrec & Hj & Hp & _). rewrite Hpc in Hp.
  destruct (dispatch b' last None) as [b''|] eqn:Hd.
  2: { unfold dispatch in Hd. rewrite Hj in Hd. cbn in Hd. by destruct last. }
  exists (tr' ++ [LDispatch (buf_read (ba_arrays b') (ba_buffer b')) last]), b''. rewrite app_assoc. split_and!.
  - eapply rr_snoc; [done|by econstructor].
  - by rewrite bind_app, Hrec.
  - unfold dispatch in Hd. rewrite Hj in Hd. cbn in Hd. destruct last; simplify_eq; cbn; auto.
  - intros [[= ->]|?]; [|done]. unfold dispatch in Hd. rewrite Hj in Hd. cbn in Hd. by simplify_eq.
Qed.

Lemma recorder_ends b0 tr b :
  rec_run b0 tr b → ∃ tr' b', rec_run b0 (tr ++ tr') b' ∧ tr' ≫= records = [] ∧ ba_pc b' = Finished ∧ ba_jobs b' = [].
Proof.
  intros Hrun. destruct (loop_returns _ _ _ Hrun) as (tr1 & b1 & Hr1 & Hrec1 & Hpc1 & _).
  assert (∃ tr2 b2, rec_run b0 (tr ++ tr2) b2 ∧ tr2 ≫= records = [] ∧ ba_pc b2 = Finished) as (tr2 & b2 & Hr2 & Hrec2 & Hpc2).
  { destruct Hpc1 as [Hsel|Hfin]; [|by exists tr1, b1].
    assert (Hr : rec_run b0 ((tr ++ tr1) ++ [LOther]) (ctx_done b1)) by (eapply rr_snoc; [done|by constructor]).
    destruct (loop_returns _ _ _ Hr) as (tr2 & b2 & Hr2 & Hrec2 & Hpc2 & Hlast). exists (tr1 ++ [LOther] ++ tr2), b2.
    rewrite !bind_app, Hrec1, Hrec2. rewrite <- !app_assoc in Hr2. split_and!; [done|done|]. apply Hlast. unfold ctx_done.
    destruct (append_all _ _ _) as [arrays buffer]. cbn. destruct (bf_len buffer); cbn; auto. }
  destruct (jobs_finish _ _ _ _ eq_refl Hr2) as (tr3 & b3 & Hr3 & Hrec3 & Hj & Hp & _). exists (tr2 ++ tr3), b3.
  rewrite app_assoc, bind_app, Hrec2, Hrec3, Hp. by split_and!.
Qed.

Lemma strips_concat ds : strips (concat ds) = concat (strips <$> ds).
Proof. induction ds as [|d ds IH]; [done|]. unfold strips in *. cbn. by rewrite fmap_app, IH. Qed.

Lemma finished_writes s0 tr b :
  rec_inv s0 tr b → ba_pc b = Finished → ba_jobs b = [] → strips (tr ≫= records) ≡ₚ strips (concat (tr ≫= writes)).
Proof.
  intros [_ _ F3 F4 _ _ _ F8] Hfin Hj. unfold live, pc_ok in F3, F8. rewrite Hfin in F3, F8. destruct F8 as [_ Hch].
  rewrite Hch in F3. cbn in F3. rewrite !app_nil_r in F3. rewrite Hj in F4. unfold pending in F4. cbn in F4. rewrite app_nil_r in F4.
  by rewrite F3, !strips_concat, F4.
Qed.

(** C21: The recorder writes every event it accepts, once and unchanged but for the time
    of the recording, although buffers are reused while goroutines work on them. In
    every interleaving: the events recorded are, in order, those of the batches handed
    over, those in the buffer and those in the channel; the batches handed over are those
    written and those in the hands of a goroutine; no more than ten are being written; a
    batch is not empty and, except for the last one, not larger than the limit; no two
    of the loop, the goroutines and the pool have the same array. And it can always be
    brought to its end, where all has been written. *)
Theorem recorder_conserves_events store n tr b :
  (0 < n)%nat → rec_run (NewRecorder store n) tr b →
  tr ≫= records = concat (tr ≫= dispatches) ++ (live b ≫= buf_read (ba_arrays b)) ++ ba_ch b ∧
  strips <$> (tr ≫= dispatches) ≡ₚ strips <$> (tr ≫= writes) ++ pending (ba_arrays b) (ba_jobs b) ∧
  ba_store b = foldl (λ s d, (write s d).1) store (tr ≫= writes) ∧
  (length (ba_jobs b) ≤ max_writes)%nat ∧ Forall (label_small n) tr ∧ NoDup (owned b) ∧
  ∃ tr' b', rec_run (NewRecorder store n) (tr ++ tr') b' ∧ tr' ≫= records = [] ∧ ba_pc b' = Finished ∧ ba_jobs b' = [] ∧
    strips (tr ≫= records) ≡ₚ strips (concat ((tr ++ tr') ≫= writes)) ∧
    ba_store b' = foldl (λ s d, (write s d).1) store ((tr ++ tr') ≫= writes).
Proof.
  intros Hn Hrun. destruct (rec_run_inv _ _ _ _ Hn Hrun) as [[[H1 _] _ H3 H4 H5 [H6 _] H7 _] Hm]. rewrite Hm in H7. split_and!; try done.
  destruct (recorder_ends _ _ _ Hrun) as (tr' & b' & Hr & Hrec & Hfin & Hj). exists tr', b'. split_and!; try done.
  - destruct (rec_run_inv _ _ _ _ Hn Hr) as [Hinv _]. rewrite <- (finished_writes _ _ _ Hinv Hfin Hj), bind_app, Hrec. by rewrite app_nil_r.
  - by destruct (rec_run_inv _ _ _ _ Hn Hr) as [[_ _ _ _ ? _ _ _] _].
Qed.

(** After [ctx.Done] the channel is closed: an event that is recorded then makes its
    caller panic. *)
Lemma record_after_done b e : RecordEvent (ctx_done b) e = Some Panic.
Proof. unfold ctx_done. by destruct (append_all _ _ _). Qed.

(** A full channel makes the caller wait. *)
Lemma record_waits b e : ba_chClosed b = false → length (ba_ch b) = (ba_maxSize b * 2)%nat → RecordEvent b e = None.
Proof. intros Hc Hl. unfold RecordEvent. by rewrite Hc, Hl, Nat.ltb_irrefl. Qed.
End recorder.

(** ** Recording into the in-memory store *)

Definition write_memory (s : InMemoryStore) (d : list StoredEvent) : InMemoryStore * bool := (WriteBatch s d, true).

Lemma writes_memory ds (s : InMemoryStore) : foldl (λ s d, (write_memory s d).1) s ds = fold_left WriteBatch ds s.
Proof. revert s. induction ds as [|d ds IH]; intros s; [done|]. apply IH. Qed.

Lemma strips_filter symbol l :
  strips (filter (λ ev, se_Symbol ev = symbol) l) = filter (λ ev, se_Symbol ev = symbol) (strips l).
Proof.
  unfold strips. induction l as [|e l IH]; [done|]. cbn [fmap list_fmap]. rewrite !filter_cons. cbn [strip set_RecordingTime se_Symbol].
  case_decide; cbn; by rewrite IH.
Qed.

(** Recording into the in-memory store and stopping leaves, for every symbol, one
    partition that holds exactly the recorded events of the symbol, sorted, whatever the
    order in which the concurrent writes took place. *)
Lemma recorded_events_reach_store grow n tr b :
  (0 < n)%nat → rec_run write_memory grow (NewRecorder NewInMemoryStore n) tr b → ba_pc b = Finished → ba_jobs b = [] →
  ∀ symbol, strips (default [] (ba_store b !! symbol)) ≡ₚ filter (λ ev, se_Symbol ev = symbol) (strips (tr ≫= records)) ∧
    StronglySorted event_le (default [] (ba_store b !! symbol)).
Proof.
  intros Hn Hrun Hfin Hj symbol. destruct (rec_run_inv _ _ _ _ _ _ Hn Hrun) as [Hinv _]. pose proof (ri_store _ _ _ _ Hinv) as Hst.
  rewrite writes_memory in Hst. destruct (write_batches_partition (tr ≫= writes) symbol) as [Hp Hs]. rewrite Hst. split; [|done].
  rewrite (finished_writes _ _ _ _ Hinv Hfin Hj), <- strips_filter. unfold strips. by rewrite Hp.
Qed.

(** ** An example *)

Definition aapl (n : Z) : StoredEvent := mkStored "e" 1 "X" "AAPL" "trade" n n [] zero_time.

Lemma rec_run_cons {S} (write : S → list StoredEvent → S * bool) grow b0 b1 b l l1 tr :
  rec_step write grow b0 l1 b1 → l = l1 → rec_run write grow b1 tr b → rec_run write grow b0 (l :: tr) b.
Proof.
  intros Hs ->. induction 1 as [|tr b l' b' _ IH Hs']; [by apply (rr_snoc _ _ _ [] _ _ _ (rr_nil _ _ _))|].
  change (l1 :: tr ++ [l']) with ((l1 :: tr) ++ [l']). by eapply rr_snoc.
Qed.
Tactic Notation "rec_go" uconstr(c) := eapply rec_run_cons; [eapply c; reflexivity|reflexivity|]; cbv.

(** Two events in batches of one; the second goes into the buffer of the first. *)
Definition two_events : list rec_label :=
  [LRecord (aapl 2); LOther; LDispatch [aapl 2] false; LOther; LWrite [set_RecordingTime 7 (aapl 2)] true; LOther;
   LRecord (aapl 1); LOther; LDispatch [aapl 1] false; LOther; LWrite [set_RecordingTime 8 (aapl 1)] true; LOther; LOther].

Lemma two_events_run {S} (f : S → list StoredEvent → S) (s : S) :
  ∃ b, rec_run (λ s d, (f s d, true)) (λ n, n) (NewRecorder s 1) two_events b ∧ ba_pc b = Finished ∧ ba_jobs b = [].
Proof.
  eexists. split.
  - unfold two_events. rec_go rs_record. rec_go rs_receive. rec_go (rs_dispatch _ _ _ _ None). rec_go (rs_stamp _ _ _ [] [] _ 7).
    rec_go (rs_write _ _ _ [] []). rec_go (rs_put _ _ _ [] []). rec_go rs_record. rec_go rs_receive. rec_go (rs_dispatch _ _ _ _ (Some 0%nat)).
    rec_go (rs_stamp _ _ _ [] [] _ 8). rec_go (rs_write _ _ _ [] []). rec_go (rs_put _ _ _ [] []). rec_go rs_done. apply rr_nil.
  - split; reflexivity.
Qed.

Lemma recorder_conserves_events_witness :
  ∃ b, rec_run write_memory (λ n, n) (NewRecorder NewInMemoryStore 1) two_events b ∧ NoDup (owned b).
Proof.
  destruct (two_events_run WriteBatch NewInMemoryStore) as (b & Hrun & _).
  destruct (recorder_conserves_events write_memory (λ n, n) NewInMemoryStore 1 two_events b ltac:(lia) Hrun) as (_ & _ & _ & _ & _ & Hnd & _).
  exists b. split; [exact Hrun|exact Hnd].
Defined.

Lemma recorded_events_reach_store_witness :
  ∃ b, rec_run write_memory (λ n, n) (NewRecorder NewInMemoryStore 1) two_events b ∧
    strips (default [] (ba_store b !! "AAPL")) ≡ₚ strips [aapl 2; aapl 1].
Proof.
  destruct (two_events_run WriteBatch NewInMemoryStore) as (b & Hrun & Hfin & Hj). exists b. split; [exact Hrun|].
  exact (proj1 (recorded_events_reach_store (λ n, n) 1 two_events b ltac:(lia) Hrun Hfin Hj "AAPL")).
Defined.
