(* ===== verification/Components.v ===== *)
(** * Components: starting and stopping the parts of a process

    [internal/platform/lifecycle]: the [Component] interface as a class, the manager
    that starts components in order and stops what it started in reverse, and the group
    that starts its members together. A component acts on the world; the goroutine in
    which the manager calls it and the deadline it waits for are in the answer of the
    call: the error it returned in time, or that the context was done first. *)

From S2P Require Import Prelude.

(** What a call of [Start] or [Stop] comes to for the manager: [Answered None] is nil;
    [Expired] carries the error of the context. *)
Inductive call := Answered (err : option string) | Expired (cause : string).

(** [Component]; [c_Timeout] is [Some] for a [TimeoutComponent]. The calls get the
    timeout that bounds them. *)
Class Component (W C : Type) := {
  c_Name : C → string;
  c_Timeout : C → option Z;
  c_Start : W → C → Z → W * call;
  c_Stop : W → C → Z → W * call;
}.

Section manager.
Context {W C H : Type} `{!Component W C}.
(** A hook of [OnStartupComplete]. *)
Context (run_hook : W → H → W).

Record Manager := mkManager { m_components : list C; m_started : list C; m_startupHooks : list H }.

Definition NewManager : Manager := mkManager [] [] [].
Definition OnStartupComplete (m : Manager) (hook : H) : Manager :=
  mkManager (m_components m) (m_started m) (m_startupHooks m ++ [hook]).
Definition Register (m : Manager) (c : C) : Manager :=
  mkManager (m_components m ++ [c]) (m_started m) (m_startupHooks m).

Definition effTimeout (c : C) (timeoutPerComponent : Z) : Z := default timeoutPerComponent (c_Timeout c).

Definition start_one (w : W) (c : C) (timeout : Z) : W * option string :=
  match c_Start w c (effTimeout c timeout) with
  | (w, Answered err) => (w, err)
  | (w, Expired cause) => (w, Some ("component " +:+ c_Name c +:+ " startup timed out: " +:+ cause))
  end.
Definition stop_one (w : W) (c : C) (timeout : Z) : W * option string :=
  match c_Stop w c (effTimeout c timeout) with
  | (w, Answered err) => (w, err)
  | (w, Expired cause) => (w, Some ("component " +:+ c_Name c +:+ " shutdown timed out: " +:+ cause))
  end.

(** The errors so far and one more. *)
Definition join_errors (finalErr stopErr : option string) : option string :=
  match stopErr, finalErr with
  | None, _ => finalErr
  | Some e, None => Some e
  | Some e, Some f => Some (f +:+ "; " +:+ e)
  end.

(** The loop of [rollbackUnlocked], over what was started from the last to the first. *)
Fixpoint stop_each (w : W) (cs : list C) (timeout : Z) (finalErr : option string) : W * option string :=
  match cs with
  | [] => (w, finalErr)
  | c :: cs => let '(w, err) := stop_one w c timeout in stop_each w cs timeout (join_errors finalErr err)
  end.
Definition rollbackUnlocked (w : W) (m : Manager) (timeout : Z) : W * Manager * option string :=
  let '(w, err) := stop_each w (reverse (m_started m)) timeout None in
  (w, mkManager (m_components m) [] (m_startupHooks m), err).

(** The loop of [StartAll]. *)
Fixpoint start_each (w : W) (m : Manager) (cs : list C) (timeout : Z) : W * Manager * option string :=
  match cs with
  | [] => (w, m, None)
  | c :: cs =>
      match start_one w c timeout with
      | (w, Some e) =>
          let '(w, m, _) := rollbackUnlocked w m timeout in
          (w, m, Some ("failed to start component " +:+ c_Name c +:+ ": " +:+ e))
      | (w, None) => start_each w (mkManager (m_components m) (m_started m ++ [c]) (m_startupHooks m)) cs timeout
      end
  end.
Definition StartAll (w : W) (m : Manager) (timeout : Z) : W * Manager * option string :=
  match start_each w m (m_components m) timeout with
  | (w, m, None) => (foldl run_hook w (m_startupHooks m), m, None)
  | failed => failed
  end.
Definition StopAll (w : W) (m : Manager) (timeout : Z) : W * Manager * option string := rollbackUnlocked w m timeout.

(** ** What the manager calls, in which order *)

Inductive lc_call := CStart (c : C) | CStop (c : C) | CHook (h : H).
End manager.
Arguments lc_call : clear implicits.

(** A world that keeps the calls. *)
#[export] Instance Logged {W C H} `{!Component W C} : Component (W * list (lc_call C H)) C := {|
  c_Name := c_Name;
  c_Timeout := c_Timeout;
  c_Start w c t := let '(w', r) := c_Start w.1 c t in ((w', w.2 ++ [CStart c]), r);
  c_Stop w c t := let '(w', r) := c_Stop w.1 c t in ((w', w.2 ++ [CStop c]), r);
|}.

Section order.
Context {W C H : Type} `{!Component W C} (run_hook : W → H → W).

Definition log_hook (w : W * list (lc_call C H)) (h : H) : W * list (lc_call C H) := (run_hook w.1 h, w.2 ++ [CHook h]).

(** A call on a logged world. *)
Lemma start_one_logged (w : W * list (lc_call C H)) c t :
  start_one w c t = let '(w', e) := start_one w.1 c t in ((w', w.2 ++ [CStart c]), e).
Proof. unfold start_one. cbn. change (effTimeout (W := W * list (lc_call C H)) c t) with (effTimeout c t). by destruct (c_Start w.1 c _) as [w' []]. Qed.
Lemma stop_one_logged (w : W * list (lc_call C H)) c t :
  stop_one w c t = let '(w', e) := stop_one w.1 c t in ((w', w.2 ++ [CStop c]), e).
Proof. unfold stop_one. cbn. change (effTimeout (W := W * list (lc_call C H)) c t) with (effTimeout c t). by destruct (c_Stop w.1 c _) as [w' []]. Qed.

Lemma stop_each_calls cs t : ∀ (w : W * list (lc_call C H)) e, (stop_each w cs t e).1.2 = w.2 ++ (CStop <$> cs).
Proof.
  induction cs as [|c cs IH]; intros w e; cbn; [by rewrite app_nil_r|]. rewrite stop_one_logged. destruct (stop_one w.1 c t) as [w' e'].
  rewrite IH. cbn. by rewrite <- app_assoc.
Qed.

Lemma rollback_calls (w : W * list (lc_call C H)) (m : Manager (H := H)) t :
  let '(w', m', _) := rollbackUnlocked w m t in
  w'.2 = w.2 ++ (CStop <$> reverse (m_started m)) ∧ m' = mkManager (m_components m) [] (m_startupHooks m).
Proof.
  unfold rollbackUnlocked. pose proof (stop_each_calls (reverse (m_started m)) t w None) as Hc.
  by destruct (stop_each w _ t None) as [w' e].
Qed.

Lemma start_each_calls cs t : ∀ (w : W * list (lc_call C H)) (m : Manager (H := H)),
  let '(w', m', err) := start_each w m cs t in
  m_components m' = m_components m ∧ m_startupHooks m' = m_startupHooks m ∧
  match err with
  | None => w'.2 = w.2 ++ (CStart <$> cs) ∧ m_started m' = m_started m ++ cs
  | Some _ => ∃ pre c post, cs = pre ++ c :: post ∧
      w'.2 = w.2 ++ (CStart <$> pre ++ [c]) ++ (CStop <$> reverse (m_started m ++ pre)) ∧ m_started m' = []
  end.
Proof.
  induction cs as [|c cs IH]; intros w m; cbn [start_each]; [by rewrite !app_nil_r|]. rewrite start_one_logged.
  destruct (start_one w.1 c t) as [w1 [e|]]; cbn.
  - pose proof (rollback_calls (w1, w.2 ++ [CStart c]) m t) as Hr. destruct (rollbackUnlocked _ m t) as [[w2 m2] e2].
    destruct Hr as [Hr ->]. split_and!; try done. exists [], c, cs. rewrite Hr. cbn. by rewrite app_nil_r, <- app_assoc.
  - specialize (IH (w1, w.2 ++ [CStart c]) (mkManager (m_components m) (m_started m ++ [c]) (m_startupHooks m))).
    destruct (start_each _ _ cs t) as [[w2 m2] [e|]]; cbn in IH.
    + destruct IH as (H1 & H2 & pre & c' & post & -> & Hl & Hs). split_and!; try done. exists (c :: pre), c', post. split_and!; try done.
      rewrite Hl. cbn. by rewrite <- !app_assoc.
    + destruct IH as (H1 & H2 & Hl & Hs). split_and!; try done; [rewrite Hl|rewrite Hs]; by rewrite <- app_assoc.
Qed.

Lemma hooks_logged hs (w : W * list (lc_call C H)) : (foldl log_hook w hs).2 = w.2 ++ (CHook <$> hs).
Proof. revert w. induction hs as [|h hs IH]; intros w; cbn; [by rewrite app_nil_r|]. rewrite IH. cbn. by rewrite <- app_assoc. Qed.
End order.

(** ** What runs afterwards *)

(** The contract of a component: a start that succeeds makes its parts run, one that
    fails or is late leaves nothing running, and a stop ends its parts. *)
Class ComponentLaws (W C : Type) `{!Component W C} (running : W → gset string) (parts : C → gset string) := {
  start_runs w c t w' : c_Start w c t = (w', Answered None) → running w' = running w ∪ parts c;
  start_fails w c t w' r : c_Start w c t = (w', r) → r ≠ Answered None → running w' = running w;
  stop_ends w c t w' r : c_Stop w c t = (w', r) → running w' = running w ∖ parts c;
}.

Section running.
Context {W C H : Type} `{!Component W C} (running : W → gset string) (parts : C → gset string).
Context `{!ComponentLaws W C running parts}.

Definition all_parts (cs : list C) : gset string := ⋃ (parts <$> cs).

Lemma start_one_runs w c t w' e :
  start_one w c t = (w', e) → running w' = match e with None => running w ∪ parts c | Some _ => running w end.
Proof.
  unfold start_one. destruct (c_Start w c (effTimeout c t)) as [w1 [[e1|]|cause]] eqn:Hs; intros [= <- <-].
  - by eapply start_fails.
  - by eapply start_runs.
  - by eapply start_fails.
Qed.

Lemma stop_one_ends w c t : running (stop_one w c t).1 = running w ∖ parts c.
Proof.
  unfold stop_one. destruct (c_Stop w c (effTimeout c t)) as [w1 r] eqn:Hs. pose proof (stop_ends _ _ _ _ _ Hs). by destruct r.
Qed.

Lemma stop_each_ends cs t : ∀ w e, running (stop_each w cs t e).1 = running w ∖ all_parts cs.
Proof.
  unfold all_parts. induction cs as [|c cs IH]; intros w e; cbn; [set_solver|]. pose proof (stop_one_ends w c t) as Hs.
  destruct (stop_one w c t) as [w' e']. rewrite IH. cbn in Hs. rewrite Hs. set_solver.
Qed.

Lemma rollback_ends w (m : Manager (H := H)) t :
  running (rollbackUnlocked w m t).1.1 = running w ∖ all_parts (m_started m).
Proof.
  unfold rollbackUnlocked. pose proof (stop_each_ends (reverse (m_started m)) t w None) as Hs. destruct (stop_each w _ t None) as [w' e].
  cbn in *. rewrite Hs. unfold all_parts. f_equal. by rewrite reverse_Permutation.
Qed.

Lemma start_each_runs cs t base : ∀ w (m : Manager (H := H)),
  base ## all_parts (m_started m ++ cs) → running w = base ∪ all_parts (m_started m) →
  let '(w', _, err) := start_each w m cs t in
  running w' = match err with None => base ∪ all_parts (m_started m ++ cs) | Some _ => base end.
Proof.
  induction cs as [|c cs IH]; intros w m Hd Hw; cbn [start_each]; [by rewrite app_nil_r|].
  destruct (start_one w c t) as [w1 [e|]] eqn:Hs; apply start_one_runs in Hs; cbn.
  - pose proof (rollback_ends w1 m t) as Hr. destruct (rollbackUnlocked w1 m t) as [[w2 m2] e2]. cbn in Hr. rewrite Hr, Hs, Hw.
    unfold all_parts in *. rewrite fmap_app, union_list_app_L in Hd. clear -Hd. set_solver.
  - specialize (IH w1 (mkManager (m_components m) (m_started m ++ [c]) (m_startupHooks m))). cbn in IH. rewrite <- app_assoc in IH. cbn in IH.
    apply IH; [done|]. rewrite Hs, Hw. unfold all_parts. rewrite fmap_app, union_list_app_L. cbn. clear. set_solver.
Qed.
End running.

#[export] Instance Logged_laws {W C H} `{!Component W C} (running : W → gset string) (parts : C → gset string)
    `{!ComponentLaws W C running parts} : ComponentLaws (W * list (lc_call C H)) C (running ∘ fst) parts.
Proof.
  split; intros w c t w'; cbn.
  - destruct (c_Start w.1 c t) as [w1 r] eqn:Hs. intros [= <- ->]. by eapply start_runs.
  - intros r. destruct (c_Start w.1 c t) as [w1 r1] eqn:Hs. intros [= <- ->] Hr. by eapply start_fails.
  - intros r. destruct (c_Stop w.1 c t) as [w1 r1] eqn:Hs. intros [= <- ->]. by eapply stop_ends.
Qed.

Section manager_laws.
Context {W C H : Type} `{!Component W C} (run_hook : W → H → W) (running : W → gset string) (parts : C → gset string).
Context `{!ComponentLaws W C running parts}.
Context (hooks_keep : ∀ w h, running (run_hook w h) = running w).

Lemma hooks_running hs (w : W * list (lc_call C H)) : running (foldl (log_hook run_hook) w hs).1 = running w.1.
Proof. revert w. induction hs as [|h hs IH]; intros w; cbn; [done|]. rewrite IH. cbn. apply hooks_keep. Qed.

End manager_laws.

(** ** Functions as components (component.go) *)

Record FuncComponent (W : Type) := mkFunc {
  fc_ComponentName : string;
  fc_StartFunc : option (W → Z → W * call);
  fc_StopFunc : option (W → Z → W * call);
}.
Arguments mkFunc {W}.
Arguments fc_ComponentName {W}.
Arguments fc_StartFunc {W}.
Arguments fc_StopFunc {W}.

#[export] Instance FuncComponent_Component {W} : Component W (FuncComponent W) := {|
  c_Name := fc_ComponentName;
  c_Timeout _ := None;
  c_Start w f t := match fc_StartFunc f with Some start => start w t | None => (w, Answered None) end;
  c_Stop w f t := match fc_StopFunc f with Some stop => stop w t | None => (w, Answered None) end;
|}.

(** ** Groups (component_group.go) *)

Record ComponentGroup (C : Type) := mkGroup { g_GroupName : string; g_components : list C }.
Arguments mkGroup {C}.
Arguments g_GroupName {C}.
Arguments g_components {C}.

Section group.
Context {W C : Type} `{!Component W C}.
(** The order in which the members' calls take effect. *)
Context (sched : list C → list C).

Fixpoint group_calls (f : W → C → Z → W * call) (w : W) (cs : list C) (t : Z) : W * list (C * call) :=
  match cs with
  | [] => (w, [])
  | c :: cs => let '(w, r) := f w c t in let '(w, rs) := group_calls f w cs t in (w, (c, r) :: rs)
  end.

(** What is in the channel of errors. *)
Definition group_errors (g : ComponentGroup C) (what : string) (rs : list (C * call)) : list string :=
  omap (λ cr, match cr.2 with
              | Answered (Some e) => Some ("group " +:+ g_GroupName g +:+ ": failed to " +:+ what +:+ " " +:+ c_Name cr.1 +:+ ": " +:+ e)
              | _ => None
              end) rs.

(** The group waits for every member; while one has not returned it has not either. *)
Definition group_answer (rs : list (C * call)) (err : option string) : call :=
  match head (omap (λ cr, match cr.2 with Expired cause => Some cause | _ => None end) rs) with
  | Some cause => Expired cause
  | None => Answered err
  end.

#[export] Instance ComponentGroup_Component : Component W (ComponentGroup C) := {|
  c_Name := g_GroupName;
  c_Timeout _ := None;
  c_Start w g t :=
    let '(w, rs) := group_calls c_Start w (sched (g_components g)) t in (w, group_answer rs (head (group_errors g "start" rs)));
  c_Stop w g t :=
    let '(w, rs) := group_calls c_Stop w (sched (g_components g)) t in
    (w, group_answer rs (foldl (λ f e, join_errors f (Some e)) None (group_errors g "stop" rs)));
|}.

Context (running : W → gset string) (parts : C → gset string) `{!ComponentLaws W C running parts}.
Context (sched_perm : ∀ l, sched l ≡ₚ l).

Lemma group_stops cs t : ∀ w, running (group_calls c_Stop w cs t).1 = running w ∖ all_parts parts cs.
Proof.
  unfold all_parts. induction cs as [|c cs IH]; intros w; cbn; [clear; set_solver|]. destruct (c_Stop w c t) as [w1 r] eqn:Hs.
  apply stop_ends in Hs. specialize (IH w1). destruct (group_calls c_Stop w1 cs t) as [w2 rs]. cbn in *. rewrite IH, Hs. clear. set_solver.
Qed.

(** The members that started run, whatever the others did. *)
Lemma group_starts cs t : ∀ w,
  let '(w', rs) := group_calls c_Start w cs t in
  running w' = running w ∪ all_parts parts (omap (λ cr, match cr.2 with Answered None => Some cr.1 | _ => None end) rs) ∧ rs.*1 = cs.
Proof.
  unfold all_parts. induction cs as [|c cs IH]; intros w; cbn; [split; [clear; set_solver|done]|]. destruct (c_Start w c t) as [w1 r] eqn:Hs.
  specialize (IH w1). destruct (group_calls c_Start w1 cs t) as [w2 rs]. destruct IH as [IH1 IH2]. rewrite IH1. cbn. split; [|by f_equal].
  destruct r as [[e|]|cause]; [apply start_fails in Hs; [|done]|apply start_runs in Hs|apply start_fails in Hs; [|done]]; rewrite Hs; cbn; try done.
  clear. set_solver.
Qed.

(** A group meets the contract when it starts and when it stops; when it fails, the
    members that started still run. *)
Lemma group_start_runs w g t w' : c_Start w g t = (w', Answered None) → running w' = running w ∪ all_parts parts (g_components g).
Proof.
  cbn. pose proof (group_starts (sched (g_components g)) t w) as Hg. destruct (group_calls c_Start w _ t) as [w1 rs]. destruct Hg as [Hr Hrs].
  unfold group_answer. destruct (head (omap _ rs)) eqn:Hexp; [done|]. intros [= <- Herr]. rewrite Hr. f_equal. unfold all_parts.
  rewrite <- (sched_perm (g_components g)), <- Hrs. f_equal. clear -Hexp Herr. induction rs as [|[c r] rs IH]; [done|]. unfold group_errors in *. cbn in *.
  destruct r as [[e|]|cause]; cbn in *; try done. f_equal. by apply IH.
Qed.

Lemma group_stop_ends w g t w' r : c_Stop w g t = (w', r) → running w' = running w ∖ all_parts parts (g_components g).
Proof.
  cbn. pose proof (group_stops (sched (g_components g)) t w) as Hg. destruct (group_calls c_Stop w _ t) as [w1 rs]. intros [= <- _]. cbn in Hg.
  rewrite Hg. f_equal. unfold all_parts. by rewrite sched_perm.
Qed.
End group.

(** ** Services that answer as told *)

Record Service := mkService { sv_name : string; sv_start : call; sv_stop : call }.

Definition service_func (s : Service) : FuncComponent (gset string) :=
  mkFunc (sv_name s)
    (Some (λ w _, (match sv_start s with Answered None => w ∪ {[ sv_name s ]} | _ => w end, sv_start s)))
    (Some (λ w _, (w ∖ {[ sv_name s ]}, sv_stop s))).

#[export] Instance Service_Component : Component (gset string) Service := {|
  c_Name := sv_name;
  c_Timeout _ := None;
  c_Start w s t := c_Start w (service_func s) t;
  c_Stop w s t := c_Stop w (service_func s) t;
|}.

#[export] Instance Service_laws : ComponentLaws (gset string) Service id (λ s, {[ sv_name s ]}).
Proof.
  split; cbn.
  - intros w c t w' [= <- ->]. done.
  - intros w c t w' r [= <- <-] Hr. by destruct (sv_start c) as [[]|].
  - intros w c t w' r [= <- <-]. done.
Qed.

Definition healthy (name : string) : Service := mkService name (Answered None) (Answered None).
Definition broken (name : string) : Service := mkService name (Answered (Some "port in use")) (Answered None).

Definition three_services : Manager (C := Service) (H := string) :=
  Register (Register (Register (OnStartupComplete NewManager "ready") (healthy "store")) (healthy "bus")) (broken "http").


(** A group in which one member fails: the manager has not started the group, so it
    does not stop it, and the other member keeps running. *)
Lemma failed_group_keeps_running :
  let m := Register (NewManager (H := string)) (mkGroup "listeners" [healthy "ws"; broken "http"]) in
  let '(w, m', err) := StartAll (Component0 := ComponentGroup_Component id) (λ w _, w) (∅ : gset string) m 5 in
  err ≠ None ∧ m_started m' = [] ∧ w = {[ "ws" ]}.
Proof. vm_compute. split; [done|]. split; reflexivity. Qed.
