(* ===== verification/ClientSdk.v ===== *)
(** * ClientSdk: the client library and what a gateway makes of its messages

    [pkg/client/client.go]: a client that keeps its subscriptions and the last number
    of each symbol, reads events from a websocket, and connects again when it loses it.
    The goroutines are the read loop, the one that reconnects, and those that call the
    client; a state has what each of the former is about to do, and a step is what
    happens between two points where they meet (the lock, the socket, the channels). A
    connection is a number; what a dial, a read or a write comes to is part of the step,
    and what is written is its label, so that the messages of a connection can be given
    to the gateway's side of it. *)

From S2P Require Import Prelude Bytes Float64 MarketEvent TopicManager Router Snapshot WsPump WsClient.

(** ** Options *)

Record Options := mkOptions {
  op_Reconnect : bool;
  op_MaxReconnectAttempts : Z;
  op_InitialBackoff : Z;
  op_MaxBackoff : Z;
  op_DialTimeout : Z;
}.

Definition DefaultOptions : Options := mkOptions true 0 1000000000 30000000000 5000000000.
Definition sdk_dialTimeout : Z := 5000000000.
Definition msgBuffer : nat := 256.

(** The format of a connection: the server's choice, JSON without one. *)
Definition negotiated_format (negotiated : string) : Format :=
  match SelectProtocol [negotiated] with Some (f, _) => f | None => FormatJSON end.

(** The delay after one more failure. *)
Definition next_backoff (o : Options) (backoff : Z) : Z :=
  let backoff := i64 (backoff * 2) in if op_MaxBackoff o <? backoff then op_MaxBackoff o else backoff.
Definition dial_timeout (o : Options) : Z := if op_DialTimeout o =? 0 then sdk_dialTimeout else op_DialTimeout o.

(** ** Messages *)

Definition plain_message (action : string) (symbols : list string) : ClientMessage :=
  mkClientMessage action symbols "" "" "" f64_zero ∅ 0 0.

(** [writeSubscribe], the automatic pong, and what is sent after a reconnect. *)
Definition subscribe_message (symbols : list string) : ClientMessage := plain_message "subscribe" symbols.
Definition pong_message (timestamp : Z) : ClientMessage := mkClientMessage "pong" [] "" "" "" f64_zero ∅ 0 timestamp.
Definition resume_message (subs : list string) (resumeSeq : gmap string Z) (now : Z) : option ClientMessage :=
  if (length subs =? 0)%nat then None
  else if bool_decide (resumeSeq = ∅) then Some (subscribe_message subs)
  else Some (mkClientMessage "reconnect" subs "" "" "" f64_zero resumeSeq now 0).

Section sdk.
Context {Ev : Type} (ev_symbol : Ev → string) (ev_seq : Ev → option Z).

(** What a message of the server decodes to. *)
Inductive inbound := InEvent (e : Ev) | InPing (timestamp : Z) | InOther.

(** The read loop: at its top; in [Read]; at the send of an event; after an error. The
    reconnecting goroutine: at its top; asleep; dialling; connected; about to write;
    about to leave. A caller of [Subscribe] about to write. *)
Inductive thread :=
  | RTop
  | RRead (conn : option nat)
  | RSend (e : Ev)
  | RError
  | KTop (attempts backoff : Z)
  | KSleep (attempts backoff : Z)
  | KDial (attempts backoff : Z)
  | KConnected (attempts backoff : Z) (conn : nat)
  | KWrite (attempts backoff : Z) (conn : nat) (m : ClientMessage)
  | KExit
  | CWrite (symbols : list string).

Record SdkClient := mkSdk {
  sc_opts : Options;
  sc_conn : option nat;
  sc_format : Format;
  sc_msgCh : list Ev;
  sc_done : bool;
  sc_subscriptions : list string;
  sc_reconnecting : bool;
  sc_cancelled : bool;
  sc_closing : bool;
  sc_resumeSeq : gmap string Z;
  sc_nextConn : nat;
  sc_threads : list thread;
}.

(** [Connect] once the dial succeeded. *)
Definition Connect (o : Options) (negotiated : string) : SdkClient :=
  mkSdk o (Some 0%nat) (negotiated_format negotiated) [] false [] false false false ∅ 1 [RTop].

Definition set_threads (c : SdkClient) (ts : list thread) : SdkClient :=
  mkSdk (sc_opts c) (sc_conn c) (sc_format c) (sc_msgCh c) (sc_done c) (sc_subscriptions c) (sc_reconnecting c) (sc_cancelled c)
    (sc_closing c) (sc_resumeSeq c) (sc_nextConn c) ts.
Definition set_conn (c : SdkClient) (conn : option nat) (ts : list thread) : SdkClient :=
  mkSdk (sc_opts c) conn (sc_format c) (sc_msgCh c) (sc_done c) (sc_subscriptions c) (sc_reconnecting c) (sc_cancelled c)
    (sc_closing c) (sc_resumeSeq c) (sc_nextConn c) ts.

(** [Subscribe] under the lock: the new symbols are recorded; [seen] is not extended,
    so a symbol given twice is recorded twice. Without a connection it returns
    [ErrDisconnected], else it goes on to write. *)
Definition sdk_Subscribe (c : SdkClient) (symbols : list string) : SdkClient :=
  mkSdk (sc_opts c) (sc_conn c) (sc_format c) (sc_msgCh c) (sc_done c)
    (sc_subscriptions c ++ filter (λ s, s ∉ sc_subscriptions c) symbols) (sc_reconnecting c) (sc_cancelled c) (sc_closing c)
    (sc_resumeSeq c) (sc_nextConn c) (sc_threads c ++ match sc_conn c with Some _ => [CWrite symbols] | None => [] end).

(** [Close] under the lock. *)
Definition sdk_Close (c : SdkClient) : SdkClient :=
  if sc_closing c then c
  else
    let o := sc_opts c in
    mkSdk (mkOptions false (op_MaxReconnectAttempts o) (op_InitialBackoff o) (op_MaxBackoff o) (op_DialTimeout o))
      (sc_conn c) (sc_format c) (sc_msgCh c) (sc_done c) (sc_subscriptions c) false true true (sc_resumeSeq c) (sc_nextConn c)
      (sc_threads c).

(** [shutdown], at most once: both channels are closed. *)
Definition sdk_shutdown (c : SdkClient) (ts : list thread) : SdkClient :=
  mkSdk (sc_opts c) (sc_conn c) (sc_format c) (sc_msgCh c) true (sc_subscriptions c) (sc_reconnecting c) (sc_cancelled c)
    (sc_closing c) (sc_resumeSeq c) (sc_nextConn c) ts.

(** [reconnect] under the lock: nothing when it is under way. *)
Definition sdk_reconnect (c : SdkClient) (ts : list thread) : SdkClient :=
  if sc_reconnecting c then set_threads c ts
  else
    mkSdk (sc_opts c) None (sc_format c) (sc_msgCh c) (sc_done c) (sc_subscriptions c) true false (sc_closing c)
      (sc_resumeSeq c) (sc_nextConn c) (ts ++ [KTop 0 (op_InitialBackoff (sc_opts c))]).

(** The last number of a symbol, when it is positive. *)
Definition note_seq (resume : gmap string Z) (e : Ev) : gmap string Z :=
  match ev_seq e with
  | Some seq => if 0 <? u64 seq then <[ev_symbol e := u64 seq]> resume else resume
  | None => resume
  end.

(** A message has been read. *)
Definition sdk_received (c : SdkClient) (e : Ev) (ts : list thread) : SdkClient :=
  mkSdk (sc_opts c) (sc_conn c) (sc_format c) (sc_msgCh c) (sc_done c) (sc_subscriptions c) (sc_reconnecting c) (sc_cancelled c)
    (sc_closing c) (note_seq (sc_resumeSeq c) e) (sc_nextConn c) ts.

(** The lock after a dial: the connection, its format and copies of what to resume. *)
Definition sdk_connected (c : SdkClient) (conn : nat) (negotiated : string) (ts : list thread) : SdkClient :=
  mkSdk (sc_opts c) (Some conn) (negotiated_format negotiated) (sc_msgCh c) (sc_done c) (sc_subscriptions c) (sc_reconnecting c)
    (sc_cancelled c) (sc_closing c) (sc_resumeSeq c) (sc_nextConn c) ts.

(** ** The steps *)

Inductive sdk_label :=
  | SSubscribe (symbols : list string)
  | SWrite (conn : nat) (m : ClientMessage)
  | SOpen (conn : nat)
  | SRead (e : Ev)
  | SDeliver (e : Ev)
  | STake (e : Ev)
  | SClose
  | SManual
  | STau.

(** [None] is a panic. *)
Inductive sdk_step : SdkClient → sdk_label → option SdkClient → Prop :=
  | ss_subscribe c symbols : sdk_step c (SSubscribe symbols) (Some (sdk_Subscribe c symbols))
  | ss_write c l r symbols conn :
      sc_threads c = l ++ CWrite symbols :: r → sc_conn c = Some conn →
      sdk_step c (SWrite conn (subscribe_message symbols)) (Some (set_threads c (l ++ r)))
  | ss_no_write c l r symbols : sc_threads c = l ++ CWrite symbols :: r → sdk_step c STau (Some (set_threads c (l ++ r)))
  | ss_close c : sdk_step c SClose (Some (sdk_Close c))
  | ss_manual c : sdk_step c SManual (Some (sdk_reconnect c (sc_threads c)))
  | ss_take c e q :
      sc_msgCh c = e :: q →
      sdk_step c (STake e)
        (Some (mkSdk (sc_opts c) (sc_conn c) (sc_format c) q (sc_done c) (sc_subscriptions c) (sc_reconnecting c) (sc_cancelled c)
                 (sc_closing c) (sc_resumeSeq c) (sc_nextConn c) (sc_threads c)))
  | ss_top c l r :
      sc_threads c = l ++ RTop :: r →
      sdk_step c STau (Some (if sc_closing c then sdk_shutdown c (l ++ r) else set_threads c (l ++ RRead (sc_conn c) :: r)))
  | ss_nil c l r : sc_threads c = l ++ RRead None :: r → sdk_step c STau None
  | ss_event c l r conn e :
      sc_threads c = l ++ RRead (Some conn) :: r → sdk_step c (SRead e) (Some (sdk_received c e (l ++ RSend e :: r)))
  | ss_ping c l r conn timestamp conn' :
      sc_threads c = l ++ RRead (Some conn) :: r → sc_conn c = Some conn' →
      sdk_step c (SWrite conn' (pong_message timestamp)) (Some (set_threads c (l ++ RTop :: r)))
  | ss_other c l r conn :
      sc_threads c = l ++ RRead (Some conn) :: r → sdk_step c STau (Some (set_threads c (l ++ RTop :: r)))
  | ss_send c l r e :
      sc_threads c = l ++ RSend e :: r → sc_done c = false → (length (sc_msgCh c) < msgBuffer)%nat →
      sdk_step c (SDeliver e)
        (Some (mkSdk (sc_opts c) (sc_conn c) (sc_format c) (sc_msgCh c ++ [e]) (sc_done c) (sc_subscriptions c) (sc_reconnecting c)
                 (sc_cancelled c) (sc_closing c) (sc_resumeSeq c) (sc_nextConn c) (l ++ RTop :: r)))
  | ss_send_closed c l r e : sc_threads c = l ++ RSend e :: r → sc_done c = true → sdk_step c STau None
  | ss_send_stop c l r e :
      sc_threads c = l ++ RSend e :: r → sc_closing c = true → sdk_step c STau (Some (sdk_shutdown c (l ++ r)))
  | ss_error c l r conn : sc_threads c = l ++ RRead (Some conn) :: r → sdk_step c STau (Some (set_threads c (l ++ RError :: r)))
  | ss_after_error c l r :
      sc_threads c = l ++ RError :: r →
      sdk_step c STau
        (Some (if op_Reconnect (sc_opts c) && negb (sc_closing c) then sdk_reconnect c (l ++ r) else sdk_shutdown c (l ++ r)))
  | ss_ktop c l r attempts backoff :
      sc_threads c = l ++ KTop attempts backoff :: r →
      sdk_step c STau
        (Some (if sc_cancelled c || ((0 <? op_MaxReconnectAttempts (sc_opts c)) && (op_MaxReconnectAttempts (sc_opts c) <=? attempts))
               then sdk_shutdown c (l ++ KExit :: r) else set_threads c (l ++ KSleep (attempts + 1) backoff :: r)))
  | ss_kcancel c l r attempts backoff :
      sc_threads c = l ++ KSleep attempts backoff :: r → sc_cancelled c = true →
      sdk_step c STau (Some (sdk_shutdown c (l ++ KExit :: r)))
  | ss_kwake c l r attempts backoff :
      sc_threads c = l ++ KSleep attempts backoff :: r → sdk_step c STau (Some (set_threads c (l ++ KDial attempts backoff :: r)))
  | ss_kfail c l r attempts backoff :
      sc_threads c = l ++ KDial attempts backoff :: r →
      sdk_step c STau (Some (set_threads c (l ++ KTop attempts (next_backoff (sc_opts c) backoff) :: r)))
  | ss_kdial c l r attempts backoff :
      sc_threads c = l ++ KDial attempts backoff :: r →
      sdk_step c (SOpen (sc_nextConn c))
        (Some (mkSdk (sc_opts c) (sc_conn c) (sc_format c) (sc_msgCh c) (sc_done c) (sc_subscriptions c) (sc_reconnecting c)
                 (sc_cancelled c) (sc_closing c) (sc_resumeSeq c) (S (sc_nextConn c)) (l ++ KConnected attempts backoff (sc_nextConn c) :: r)))
  | ss_kconnected c l r attempts backoff conn negotiated now :
      sc_threads c = l ++ KConnected attempts backoff conn :: r →
      sdk_step c STau
        (Some (sdk_connected c conn negotiated
                 (l ++ match resume_message (sc_subscriptions c) (sc_resumeSeq c) now with
                       | Some m => [KWrite attempts backoff conn m]
                       | None => [RTop; KExit]
                       end ++ r)))
  | ss_kwrite c l r attempts backoff conn m :
      sc_threads c = l ++ KWrite attempts backoff conn m :: r →
      sdk_step c (SWrite conn m) (Some (set_threads c (l ++ RTop :: KExit :: r)))
  | ss_kwrite_fail c l r attempts backoff conn m :
      sc_threads c = l ++ KWrite attempts backoff conn m :: r → sc_conn c ≠ None →
      sdk_step c STau (Some (set_conn c None (l ++ KTop attempts (next_backoff (sc_opts c) backoff) :: r)))
  | ss_kwrite_nil c l r attempts backoff conn m :
      sc_threads c = l ++ KWrite attempts backoff conn m :: r → sc_conn c = None → sdk_step c STau None
  | ss_kexit c l r :
      sc_threads c = l ++ KExit :: r →
      sdk_step c STau
        (Some (mkSdk (sc_opts c) (sc_conn c) (sc_format c) (sc_msgCh c) (sc_done c) (sc_subscriptions c) false (sc_cancelled c)
                 (sc_closing c) (sc_resumeSeq c) (sc_nextConn c) (l ++ r))).

Inductive sdk_run (o : Options) (negotiated : string) : list sdk_label → SdkClient → Prop :=
  | sr_nil : sdk_run o negotiated [] (Connect o negotiated)
  | sr_snoc tr c l c' : sdk_run o negotiated tr c → sdk_step c l (Some c') → sdk_run o negotiated (tr ++ [l]) c'.

(** ** What a run has recorded *)

Definition asked (l : sdk_label) : list string := match l with SSubscribe symbols => symbols | _ => [] end.
Definition got (l : sdk_label) : list Ev := match l with SRead e => [e] | _ => [] end.
Definition delivered (l : sdk_label) : list Ev := match l with SDeliver e => [e] | _ => [] end.
Definition manual (l : sdk_label) : bool := match l with SManual => true | _ => false end.

(** The goroutines that read or will. *)
Definition reading (t : thread) : bool := match t with RTop | RRead _ | RSend _ | RError => true | _ => false end.
Definition needs_conn (t : thread) : bool := match t with KWrite _ _ _ _ => true | _ => reading t end.
Definition active (t : thread) : bool := match t with KExit | CWrite _ => false | _ => true end.
Definition actives (ts : list thread) : nat := sum_list_with (λ t, if active t then 1%nat else 0%nat) ts.
Definition unsent (t : thread) : list Ev := match t with RSend e => [e] | _ => [] end.
End sdk.

Ltac sdk_cases Hs :=
  inversion Hs; subst; clear Hs;
  unfold sdk_Subscribe, sdk_Close, sdk_shutdown, sdk_reconnect, sdk_received, sdk_connected, set_threads, set_conn in *;
  repeat case_match; cbn in *.

Section laws.
Context {Ev : Type} (ev_symbol : Ev → string) (ev_seq : Ev → option Z).
#[local] Abbreviation run_ := (sdk_run ev_symbol ev_seq).

(** What the client keeps is what it was asked for and what it read. *)
Lemma sdk_keeps o n tr c :
  run_ o n tr c →
  (∀ s, s ∈ sc_subscriptions c ↔ s ∈ tr ≫= asked) ∧ sc_resumeSeq c = foldl (note_seq ev_symbol ev_seq) ∅ (tr ≫= got).
Proof.
  induction 1 as [|tr c l c' Hrun [IH1 IH2] Hs]; [done|]. rewrite !bind_app, foldl_app, <- IH2. clear IH2 Hrun.
  sdk_cases Hs; rewrite ?app_nil_r; split; try done.
  all: intros s; rewrite !elem_of_app, list_elem_of_filter, <- IH1; destruct (decide (s ∈ sc_subscriptions c)); tauto.
Qed.

Lemma actives_app (ts ts' : list (thread (Ev := Ev))) : actives (ts ++ ts') = (actives ts + actives ts')%nat.
Proof. apply sum_list_with_app. Qed.
Lemma actives_cons (t : thread (Ev := Ev)) ts : actives (t :: ts) = ((if active t then 1 else 0) + actives ts)%nat.
Proof. done. Qed.

(** Without active goroutines no one reads. *)
Lemma actives_0 (P : thread (Ev := Ev) → Prop) ts : (∀ t, active t = false → P t) → actives ts = 0%nat → Forall P ts.
Proof.
  intros HP. induction ts as [|t ts IH]; intros H0; [constructor|]. rewrite actives_cons in H0. destruct (active t) eqn:Ht; [lia|].
  constructor; [by apply HP|apply IH; lia].
Qed.

(** A goroutine reads or resumes only with a connection. *)
Definition has_conn (conn : option nat) (t : thread (Ev := Ev)) : Prop :=
  (needs_conn t = true → conn ≠ None) ∧ t ≠ RRead None.

Record sdk_inv (c : SdkClient (Ev := Ev)) : Prop := {
  sv_one : (actives (sc_threads c) ≤ 1)%nat;
  sv_done : sc_done c = true → actives (sc_threads c) = 0%nat;
  sv_conn : Forall (has_conn (sc_conn c)) (sc_threads c);
  sv_closing : sc_closing c = true → sc_cancelled c = true ∧ op_Reconnect (sc_opts c) = false;
}.

(** The goroutine that takes a step is the only active one. *)
Lemma others_idle c l t r :
  sdk_inv c → sc_threads c = l ++ t :: r → active t = true →
  actives (l ++ r) = 0%nat ∧ sc_done c = false ∧ (∀ conn, Forall (has_conn conn) (l ++ r)) ∧ has_conn (sc_conn c) t.
Proof.
  intros [H1 H2 H3 _] Ht Ha. rewrite Ht in *. rewrite actives_app, actives_cons, Ha in H1, H2.
  assert (H0 : actives (l ++ r) = 0%nat) by (rewrite actives_app; lia). split_and!; [done| | |].
  - destruct (sc_done c); [|done]. specialize (H2 eq_refl). lia.
  - intros conn. apply actives_0; [|done]. intros t' Ht'. destruct t'; try discriminate Ht'; by split.
  - apply Forall_app in H3 as [_ [H3 _]%Forall_cons_1]. exact H3.
Qed.

(** A step that puts other goroutines in the place of an active one. *)
Lemma inv_replace c l t r ts o' conn' fmt' ch' done' subs' rec' can' clo' res' next' :
  sdk_inv c → sc_threads c = l ++ t :: r → active t = true →
  (actives ts ≤ 1)%nat → (done' = true → actives ts = 0%nat) → Forall (has_conn conn') ts →
  (clo' = true → can' = true ∧ op_Reconnect o' = false) →
  sdk_inv (mkSdk o' conn' fmt' ch' done' subs' rec' can' clo' res' next' (l ++ ts ++ r)).
Proof.
  intros Hinv Ht Ha H1 H2 H3 H4. destruct (others_idle c l t r Hinv Ht Ha) as (H0 & _ & Hf & _).
  rewrite actives_app in H0. specialize (Hf conn'). apply Forall_app in Hf as [Hl Hr].
  split; cbn [sc_threads sc_done sc_conn sc_closing sc_cancelled sc_opts]; rewrite ?actives_app.
  - lia.
  - intros Hd. specialize (H2 Hd). lia.
  - by rewrite !Forall_app.
  - done.
Qed.

(** A step that only takes an idle goroutine away. *)
Lemma inv_drop c l t r ch' subs' rec' :
  sdk_inv c → sc_threads c = l ++ t :: r → active t = false →
  sdk_inv (mkSdk (sc_opts c) (sc_conn c) (sc_format c) ch' (sc_done c) subs' rec' (sc_cancelled c) (sc_closing c) (sc_resumeSeq c) (sc_nextConn c) (l ++ r)).
Proof.
  intros [H1 H2 H3 H4] Ht Ha. rewrite Ht in *. rewrite actives_app, actives_cons, Ha in H1, H2. apply Forall_app in H3 as [H3 [_ H3']%Forall_cons_1].
  split; cbn [sc_threads sc_done sc_conn sc_closing sc_cancelled sc_opts]; rewrite ?actives_app; [lia|done|by apply Forall_app|done].
Qed.

Lemma inv_subscribe c symbols : sdk_inv c → sdk_inv (sdk_Subscribe c symbols).
Proof.
  intros [H1 H2 H3 H4]. split; cbn [sdk_Subscribe sc_threads sc_done sc_conn sc_closing sc_cancelled sc_opts]; [| | |done].
  - rewrite actives_app. destruct (sc_conn c); cbn; lia.
  - intros Hd. rewrite actives_app, (H2 Hd). by destruct (sc_conn c).
  - apply Forall_app. split; [done|]. destruct (sc_conn c); by repeat constructor.
Qed.

Lemma inv_close c : sdk_inv c → sdk_inv (sdk_Close c).
Proof. intros [H1 H2 H3 H4]. unfold sdk_Close. destruct (sc_closing c) eqn:Hc; [by split; rewrite ?Hc|split; cbn; auto]. Qed.

Lemma inv_reconnect c l t r : sdk_inv c → sc_threads c = l ++ t :: r → active t = true → sc_closing c = false → sdk_inv (sdk_reconnect c (l ++ r)).
Proof.
  intros Hinv Ht Ha Hc. destruct (others_idle c l t r Hinv Ht Ha) as (H0 & Hnd & Hoth & _). unfold sdk_reconnect. destruct (sc_reconnecting c).
  - split; cbn [set_threads sc_threads sc_done sc_conn sc_closing sc_cancelled sc_opts]; [lia|done|done|apply Hinv].
  - split; cbn [sc_threads sc_done sc_conn sc_closing sc_cancelled sc_opts]; rewrite ?(actives_app (l ++ r)), ?H0; [cbn; lia|by rewrite Hnd| |].
    + apply Forall_app. split; [done|]. by repeat constructor.
    + by rewrite Hc.
Qed.

#[local] Ltac sdk_swap ts :=
  match goal with Hinv : sdk_inv ?c, Ht : sc_threads ?c = ?l ++ ?t :: ?r, Hrd' : _ → sc_conn ?c ≠ None |- _ =>
    apply (inv_replace c l t r ts); [exact Hinv|exact Ht|done|cbn; lia| | |];
    first [ done | exact (sv_closing _ Hinv) | congruence | by repeat constructor | constructor; [|constructor]; split; [by auto|intros [=]; by apply Hrd'] | idtac ]
  end.

Lemma sdk_inv_step c l c' :
  manual l = false → sdk_inv c → sdk_step ev_symbol ev_seq c l c' → ∃ c1, c' = Some c1 ∧ sdk_inv c1.
Proof.
  intros Hm Hinv Hs. pose proof (sv_closing _ Hinv) as Hcl.
  destruct Hs as [c symbols|c l r symbols conn Ht Hc|c l r symbols Ht|c|c|c e q Hq|c l r Ht|c l r Ht|c l r conn e Ht|c l r conn ts conn' Ht Hc
    |c l r conn Ht|c l r e Ht Hd Hlen|c l r e Ht Hd|c l r e Ht Hclo|c l r conn Ht|c l r Ht|c l r k b Ht|c l r k b Ht Hcan|c l r k b Ht
    |c l r k b Ht|c l r k b Ht|c l r k b conn neg now Ht|c l r k b conn m Ht|c l r k b conn m Ht Hc|c l r k b conn m Ht Hc|c l r Ht].
  all: try (destruct (others_idle _ _ _ _ Hinv Ht eq_refl) as (H0 & Hnd & Hoth & [Hrd Hnn]); cbn in Hrd).
  all: try discriminate Hm; try (by destruct Hnn); try (by rewrite Hnd in Hd); try (by destruct (Hrd eq_refl Hc)).
  all: eexists; (split; [reflexivity|]).
  - by apply inv_subscribe.
  - by eapply inv_drop.
  - by eapply inv_drop.
  - by apply inv_close.
  - destruct Hinv as [H1 H2 H3 H4]. by split.
  - destruct (sc_closing c); [sdk_swap (@nil (thread (Ev := Ev)))|sdk_swap [RRead (Ev := Ev) (sc_conn c)]].
  - sdk_swap [RSend e].
  - sdk_swap [RTop (Ev := Ev)].
  - sdk_swap [RTop (Ev := Ev)].
  - sdk_swap [RTop (Ev := Ev)].
  - sdk_swap (@nil (thread (Ev := Ev))).
  - sdk_swap [RError (Ev := Ev)].
  - destruct (op_Reconnect (sc_opts c) && negb (sc_closing c)) eqn:Hre; [|sdk_swap (@nil (thread (Ev := Ev)))].
    apply andb_true_iff in Hre as [_ Hre%negb_true_iff]. by apply (inv_reconnect c l RError r).
  - destruct (_ || _); [sdk_swap [KExit (Ev := Ev)]|sdk_swap [KSleep (Ev := Ev) (k + 1) b]].
  - sdk_swap [KExit (Ev := Ev)].
  - sdk_swap [KDial (Ev := Ev) k b].
  - sdk_swap [KTop (Ev := Ev) k (next_backoff (sc_opts c) b)].
  - sdk_swap [KConnected (Ev := Ev) k b (sc_nextConn c)].
  - destruct (resume_message _ _ _) as [m|]; [sdk_swap [KWrite (Ev := Ev) k b conn m]|sdk_swap [RTop (Ev := Ev); KExit]].
  - sdk_swap [RTop (Ev := Ev); KExit].
  - sdk_swap [KTop (Ev := Ev) k (next_backoff (sc_opts c) b)].
  - by eapply inv_drop.
Qed.

Lemma sdk_run_inv o n tr c : existsb manual tr = false → run_ o n tr c → sdk_inv c.
Proof.
  intros Hm. induction 1 as [|tr c l c' Hrun IH Hs].
  - split; cbn; [lia|done|by repeat constructor|done].
  - rewrite existsb_app in Hm. apply orb_false_iff in Hm as [Hm1 Hm2]. cbn in Hm2. rewrite orb_false_r in Hm2.
    destruct (sdk_inv_step c l (Some c') Hm2 (IH Hm1) Hs) as (c1 & [= ->] & Hinv). done.
Qed.

(** *** Events in order *)

Definition takes (l : sdk_label (Ev := Ev)) : list Ev := match l with STake e => [e] | _ => [] end.

Lemma sdk_queue o n tr c : run_ o n tr c → (tr ≫= takes) ++ sc_msgCh c = tr ≫= delivered.
Proof.
  induction 1 as [|tr c l c' _ IH Hs]; [done|]. rewrite !bind_app, <- IH. clear IH.
  sdk_cases Hs; rewrite ?app_nil_r; try done; by rewrite <- ?app_assoc; try match goal with H : sc_msgCh _ = _ |- _ => rewrite H end.
Qed.

(** The idle goroutines hold no event. *)
Lemma idle_unsent (ts : list (thread (Ev := Ev))) : actives ts = 0%nat → ts ≫= unsent = [].
Proof.
  induction ts as [|t ts IH]; [done|]. rewrite actives_cons. destruct t; cbn; try lia; intros H0; by apply IH.
Qed.

(** What was read is delivered, but for the event that a goroutine holds, or held when
    the client was closed. *)
Definition in_order (tr : list (sdk_label (Ev := Ev))) (c : SdkClient (Ev := Ev)) : Prop :=
  (tr ≫= delivered) ++ (sc_threads c ≫= unsent) = tr ≫= got ∨
  sc_done c = true ∧ (tr ≫= delivered) `prefix_of` (tr ≫= got).

Lemma in_order_active tr c l t r :
  sdk_inv c → sc_threads c = l ++ t :: r → active t = true → in_order tr c →
  (tr ≫= delivered) ++ unsent t = tr ≫= got ∧ l ≫= unsent = [] ∧ r ≫= unsent = [] ∧ sc_done c = false.
Proof.
  intros Hinv Ht Ha Hord. destruct (others_idle c l t r Hinv Ht Ha) as (H0 & Hnd & _). rewrite actives_app in H0.
  assert (Hl : l ≫= unsent = []) by (apply idle_unsent; lia). assert (Hr : r ≫= unsent = []) by (apply idle_unsent; lia). split_and!; try done.
  destruct Hord as [Hord|[Hd _]]; [|congruence]. rewrite Ht, bind_app in Hord. cbn in Hord. by rewrite Hl, Hr, app_nil_r in Hord.
Qed.

Lemma sdk_in_order_step tr c l c' :
  manual l = false → sdk_inv c → in_order tr c → sdk_step ev_symbol ev_seq c l (Some c') → in_order (tr ++ [l]) c'.
Proof.
  intros Hl Hinv Hord Hs. unfold in_order. rewrite !bind_app. inversion Hs; subst; clear Hs.
  all: cbn [mbind list_bind delivered got app]; rewrite ?app_nil_r.
  all: try match goal with Ht : sc_threads ?c = ?l ++ ?t :: ?r |- _ =>
      destruct (in_order_active tr c l t r Hinv Ht eq_refl Hord) as (Heq & Hl0 & Hr0 & Hnd); cbn [unsent] in Heq; rewrite ?app_nil_r in Heq;
      unfold sdk_shutdown, sdk_reconnect, sdk_received, sdk_connected, set_threads, set_conn; repeat case_match;
      cbn [sc_threads sc_done]; rewrite ?bind_app; cbn [mbind list_bind unsent app]; rewrite ?bind_app, ?Hl0, ?Hr0, ?app_nil_r, <- ?Heq;
      try (by left); try (right; split; [done|]; by apply prefix_app_r) end.
  all: try discriminate Hl; unfold in_order in Hord.
  all: try match goal with Ht : sc_threads ?c = _ |- _ => rewrite Ht, bind_app in Hord end.
  - cbn. rewrite bind_app. destruct (sc_conn c); cbn; by rewrite app_nil_r.
  - cbn. by rewrite bind_app.
  - cbn. by rewrite bind_app.
  - unfold sdk_Close. by destruct (sc_closing c).
  - exact Hord.
  - cbn. by rewrite bind_app.
Qed.

Lemma sdk_in_order o n tr c : existsb manual tr = false → run_ o n tr c → in_order tr c.
Proof.
  intros Hm. induction 1 as [|tr c l c' Hrun IH Hs]; [by left|]. rewrite existsb_app in Hm. apply orb_false_iff in Hm as [Hm Hl].
  cbn in Hl. rewrite orb_false_r in Hl. eapply sdk_in_order_step; [done|by eapply sdk_run_inv|by apply IH|done].
Qed.

(** *** Closing *)

(** How far the active goroutine of a closing client is from its end. *)
Definition to_end (t : thread (Ev := Ev)) : nat :=
  match t with RTop | RSend _ | RError | KTop _ _ => 1 | RRead _ => 2 | KSleep _ _ | KDial _ _ => 2 | KWrite _ _ _ _ => 2 | KConnected _ _ _ => 3 | _ => 0 end.

Lemma closing_ends o n k : ∀ tr c t l r,
  to_end t = k → run_ o n tr c → existsb manual tr = false → sc_closing c = true → sc_threads c = l ++ t :: r → active t = true →
  ∃ tr' c', run_ o n (tr ++ tr') c' ∧ sc_done c' = true.
Proof.
  induction k as [k IH] using lt_wf_ind. intros tr c t l r Hk Hrun Hm Hc Ht Ha.
  pose proof (sdk_run_inv _ _ _ _ Hm Hrun) as Hinv. destruct (sv_closing _ Hinv Hc) as [Hcan Hor]. destruct (others_idle _ _ _ _ Hinv Ht Ha) as (_ & _ & _ & Hcn).
  assert (Hend : ∀ lbl c', sdk_step ev_symbol ev_seq c lbl (Some c') → sc_done c' = true → ∃ tr' c', run_ o n (tr ++ tr') c' ∧ sc_done c' = true).
  { intros lbl c' Hs Hd. exists [lbl], c'. split; [by eapply sr_snoc|done]. }
  assert (Hgo : ∀ lbl c' t' l' r', sdk_step ev_symbol ev_seq c lbl (Some c') → manual lbl = false → sc_closing c' = true →
    sc_threads c' = l' ++ t' :: r' → active t' = true → (to_end t' < k)%nat → ∃ tr' c', run_ o n (tr ++ tr') c' ∧ sc_done c' = true).
  { intros lbl c' t' l' r' Hs Hml Hc' Ht' Ha' Hlt. destruct (IH _ Hlt (tr ++ [lbl]) c' t' l' r') as (tr' & c'' & Hr & Hd); try done.
    - by eapply sr_snoc.
    - rewrite existsb_app, Hm. cbn. by rewrite Hml.
    - exists (lbl :: tr'), c''. rewrite cons_middle, app_assoc. done. }
  destruct t as [|conn|e| |a b|a b|a b|a b conn|a b conn m| |]; cbn in Ha, Hk; try done.
  - eapply Hend; [by apply (ss_top _ _ c l r)|]. by rewrite Hc.
  - destruct conn as [conn|]; [|by destruct Hcn]. eapply (Hgo _ _ RError); [by apply (ss_error _ _ c l r conn)|done|done|done|done|cbn; lia].
  - eapply Hend; [by apply (ss_send_stop _ _ c l r e)|done].
  - eapply Hend; [by apply (ss_after_error _ _ c l r)|]. by rewrite Hor.
  - eapply Hend; [by apply (ss_ktop _ _ c l r a b)|]. by rewrite Hcan.
  - eapply Hend; [by apply (ss_kcancel _ _ c l r a b)|done].
  - eapply (Hgo _ _ (KTop a (next_backoff (sc_opts c) b))); [by apply (ss_kfail _ _ c l r a b)|done|done|done|done|cbn; lia].
  - destruct (resume_message (sc_subscriptions c) (sc_resumeSeq c) 0) as [m|] eqn:Hres.
    + eapply (Hgo _ _ (KWrite a b conn m)); [by apply (ss_kconnected _ _ c l r a b conn "" 0)|done|done|cbn; by rewrite Hres|done|cbn; lia].
    + eapply (Hgo _ _ RTop); [by apply (ss_kconnected _ _ c l r a b conn "" 0)|done|done|cbn; by rewrite Hres|done|cbn; lia].
  - eapply (Hgo _ _ RTop); [by apply (ss_kwrite _ _ c l r a b conn m)|done|done|done|done|cbn; lia].
Qed.

(** A client that is not told to reconnect by hand reads alone: in every
    interleaving of its goroutines with its callers at most one goroutine reads or
    reconnects, none panics (no read of a missing connection, no send on a closed
    channel), the events are delivered in the order in which they were read, nothing is
    delivered after the end; and a client that is being closed can end, if a goroutine
    is left to do it. *)
Lemma client_reads_alone o n tr c :
  existsb manual tr = false → run_ o n tr c →
  (actives (sc_threads c) ≤ 1)%nat ∧ (∀ l c', manual l = false → sdk_step ev_symbol ev_seq c l c' → c' ≠ None) ∧
  (tr ≫= takes) ++ sc_msgCh c = tr ≫= delivered ∧ (tr ≫= delivered) `prefix_of` (tr ≫= got) ∧
  (sc_done c = true → actives (sc_threads c) = 0%nat) ∧
  (sc_closing c = true → actives (sc_threads c) = 1%nat → ∃ tr' c', run_ o n (tr ++ tr') c' ∧ sc_done c' = true).
Proof.
  intros Hm Hrun. pose proof (sdk_run_inv _ _ _ _ Hm Hrun) as Hinv. split_and!.
  - apply Hinv.
  - intros l c' Hl Hs. by destruct (sdk_inv_step c l c' Hl Hinv Hs) as (c1 & -> & _).
  - by apply (sdk_queue o n).
  - destruct (sdk_in_order _ _ _ _ Hm Hrun) as [<-|[_ ?]]; [by apply prefix_app_r|done].
  - apply Hinv.
  - intros Hc Ha. assert (∃ l t r, sc_threads c = l ++ t :: r ∧ active t = true) as (l & t & r & Ht & Hat).
    { clear -Ha. induction (sc_threads c) as [|t ts IH]; [done|]. rewrite actives_cons in Ha. destruct (active t) eqn:Hat; [by exists [], t, ts|].
      destruct (IH Ha) as (l & t' & r & -> & ?). by exists (t :: l), t', r. }
    by eapply closing_ends.
Qed.

(** Without an active goroutine a client that has not ended never does, whatever its
    callers do. *)
Lemma lost_client_stays c l c' :
  actives (sc_threads c) = 0%nat → sc_done c = false → manual l = false → sdk_step ev_symbol ev_seq c l (Some c') →
  actives (sc_threads c') = 0%nat ∧ sc_done c' = false.
Proof.
  intros H0 Hd Hm Hs. inversion Hs; subst; clear Hs; try discriminate Hm.
  all: try match goal with Ht : sc_threads _ = _ |- _ => rewrite Ht, actives_app, actives_cons in H0; cbn [active] in H0; try lia end.
  all: cbn [set_threads sdk_Subscribe sc_threads sc_done]; rewrite ?actives_app; try done; try (split; [lia|done]).
  - by rewrite H0; destruct (sc_conn c).
  - unfold sdk_Close. by destruct (sc_closing c).
Qed.
End laws.

(** ** Back-off *)

Lemma backoff_doubles o k :
  0 < op_InitialBackoff o ≤ op_MaxBackoff o → op_MaxBackoff o < 2 ^ 62 →
  Nat.iter k (next_backoff o) (op_InitialBackoff o) = Z.min (op_MaxBackoff o) (op_InitialBackoff o * 2 ^ Z.of_nat k).
Proof.
  intros Hi Hmax. induction k as [|k IH].
  { change (Nat.iter 0 (next_backoff o) (op_InitialBackoff o)) with (op_InitialBackoff o). rewrite Z.pow_0_r. lia. }
  rewrite Nat.iter_succ, IH, Nat2Z.inj_succ, Z.pow_succ_r by lia. set (x := 2 ^ Z.of_nat k). assert (Hx : 0 < x) by (apply Z.pow_pos_nonneg; lia).
  assert (Hpos : 0 < op_InitialBackoff o * x) by nia. unfold next_backoff. rewrite i64_small by (unfold in_i64; lia).
  destruct (Z.ltb_spec (op_MaxBackoff o) (Z.min (op_MaxBackoff o) (op_InitialBackoff o * x) * 2)); lia.
Qed.

(** ** The gateway's side of a connection *)

Section composition.
Context {Ev : Type} (ev_symbol : Ev → string) (ev_seq : Ev → option Z).
Context {E : Type} `{!MarketEventOps E}.
Context {M H LEv : Type} `{!LocalManager M H LEv, !LocalManagerLaws M H LEv, !FreshHandle M H LEv}.
Context (time_Parse : string → result Z string).

(** A subscription asks for no replay of the log. *)
Lemma sendControl_requests (c : @Client E H) msg : wc_walRequests (sendControl c msg) = wc_walRequests c.
Proof. unfold sendControl. by case_match. Qed.

Lemma keep_local_requests sx symbols : ∀ c : @Client E H, wc_walRequests (keep_local sx c symbols).1 = wc_walRequests c.
Proof.
  induction symbols as [|s symbols IH]; intros c; [done|]. cbn [keep_local]. case_bool_decide.
  - specialize (IH c). by destruct (keep_local sx c symbols).
  - by rewrite IH, sendControl_requests.
Qed.

Lemma push_snapshots_requests cached : ∀ c c' : @Client E H, push_snapshots c cached = Ret c' → wc_walRequests c' = wc_walRequests c.
Proof.
  induction cached as [|[ce|] cached IH]; intros c c'; [by intros [= <-]| |done]. cbn [push_snapshots]. intros Hp%IH. by rewrite Hp, sendControl_requests.
Qed.

Lemma handleSubscribe_requests sx (c : @Client E H) (m : M) symbols c' m' :
  handleSubscribe sx c m symbols = Ret (c', m') → wc_walRequests c' = wc_walRequests c.
Proof.
  unfold handleSubscribe, sendError. case_match; [intros [= <- <-]; apply sendControl_requests|].
  case_match; [intros [= <- <-]; apply sendControl_requests|].
  pose proof (keep_local_requests sx symbols c) as Hk. destruct (keep_local sx c symbols) as [c1 valid]. cbn in Hk.
  case_match; [by intros [= <- <-]|]. unfold resubscribe. destruct (mg_Subscribe _ _ _) as [[m2 h]|]; [|done].
  set (c2 := sendControl _ _). assert (Hc2 : wc_walRequests c2 = wc_walRequests c) by (by unfold c2; rewrite sendControl_requests).
  destruct (sx_snap sx) as [snap|]; [|by intros [= <- <-]]. destruct (push_snapshots c2 _) as [c4|] eqn:Hp; [|done].
  intros [= <- <-]. apply push_snapshots_requests in Hp. congruence.
Qed.

(** The first message of a connection, and the table that it leaves. *)
Lemma first_message_table (sx : @services E) id (m : M) T cm s m' w :
  mg_table m T → T !! id = None → client_run time_Parse sx (newClient id) m [ClMessage cm None None] = Ret (s, m') →
  want_after time_Parse sx None cm = Some w → mg_table m' (<[id := w]> T).
Proof.
  intros Ht Hid Hsrv Hw. cbn [client_run] in Hsrv. destruct (client_step time_Parse sx (newClient id) m (ClMessage cm None None)) as [[s1 m1]|] eqn:Hst; [|done].
  injection Hsrv as -> ->. assert (H0 : subscribed (newClient (E := E) (H := H) id) m T None) by (by split).
  destruct (client_step_ok time_Parse sx _ _ _ _ _ _ _ H0 Hst) as [[Hs1 _ _] Hs2]. injection Hs2 as Hidc _. cbn in Hidc.
  cbn [want_input] in Hs1. by rewrite Hw, Hidc in Hs1.
Qed.

Lemma want_subscribe (sx : @services E) subs :
  subs ≠ [] → (length subs ≤ 100)%nat → Forall (served sx) subs →
  want_after time_Parse sx None (subscribe_message subs) = Some (list_to_set subs).
Proof.
  intros Hne Hlen Hserved. unfold want_after. cbn [cm_Action cm_Symbols subscribe_message plain_message].
  rewrite (filter_all (served sx) subs Hserved), (bool_decide_eq_true_2 (length subs ≤ 100)%nat Hlen), (bool_decide_eq_true_2 (subs ≠ []) Hne). done.
Qed.

(** The gateway can serve what the client asks for. *)
Definition can_resume (sx : @services E) (subs : list string) (resumeSeq : gmap string Z) : Prop :=
  if bool_decide (resumeSeq = ∅) then (length subs ≤ 100)%nat ∧ Forall (served sx) subs else sx_hasWal sx = true.

(** The last positive number of a symbol among some events. *)
Definition number_of (symbol : string) (e : Ev) : option Z :=
  match ev_seq e with
  | Some seq => if bool_decide (ev_symbol e = symbol ∧ 0 < u64 seq) then Some (u64 seq) else None
  | None => None
  end.
Definition last_number (symbol : string) (evs : list Ev) : option Z := last (omap (number_of symbol) evs).

Lemma numbers_are_last evs symbol : foldl (note_seq ev_symbol ev_seq) ∅ evs !! symbol = last_number symbol evs.
Proof.
  unfold last_number. induction evs as [|e evs IH] using rev_ind; [done|]. rewrite foldl_app, omap_app. cbn. unfold number_of, note_seq at 1.
  destruct (ev_seq e) as [seq|]; [|by rewrite app_nil_r]. destruct (Z.ltb_spec 0 (u64 seq)) as [Hs|Hs].
  - destruct (decide (ev_symbol e = symbol)) as [<-|Hne].
    + rewrite bool_decide_eq_true_2 by done. by rewrite lookup_insert_eq, last_snoc.
    + rewrite bool_decide_eq_false_2 by (by intros [? _]). by rewrite lookup_insert_ne, app_nil_r.
  - rewrite bool_decide_eq_false_2 by (intros [_ ?]; lia). by rewrite app_nil_r.
Qed.

End composition.

(** ** Sessions of a client *)

Definition trade_of (symbol : string) (seq : Z) : string * Z := (symbol, seq).
Definition sdk_seq (e : string * Z) : option Z := Some e.2.

Tactic Notation "sdk_then" hyp(H) uconstr(c) :=
  eapply sr_snoc in H; [|eapply c; reflexivity]; cbn in H.

(** A subscription, a numbered event, the loss of the connection and a dial. *)
Definition lost_connection : list (sdk_label (Ev := string * Z)) :=
  [SSubscribe ["AAPL"; "IBM"]; SWrite 0 (subscribe_message ["AAPL"; "IBM"]); STau; SRead (trade_of "AAPL" 7); SDeliver (trade_of "AAPL" 7);
   STau; STau; STau; STau; STau; SOpen 1].

Lemma lost_connection_run :
  ∃ c, sdk_run fst sdk_seq DefaultOptions "" lost_connection c ∧ sc_subscriptions c = ["AAPL"; "IBM"] ∧
    sc_resumeSeq c = {["AAPL" := 7]} ∧ sc_closing c = false.
Proof.
  pose proof (sr_nil fst sdk_seq DefaultOptions "") as Hr.
  sdk_then Hr (ss_subscribe _ _ _ ["AAPL"; "IBM"]). sdk_then Hr (ss_write _ _ _ [RTop] [] _ 0%nat).
  sdk_then Hr (ss_top _ _ _ [] []). sdk_then Hr (ss_event _ _ _ [] [] 0%nat (trade_of "AAPL" 7)).
  eapply sr_snoc in Hr; [|eapply (ss_send _ _ _ [] []); [reflexivity|reflexivity|cbn; unfold msgBuffer; lia]]. cbn in Hr.
  sdk_then Hr (ss_top _ _ _ [] []). sdk_then Hr (ss_error _ _ _ [] [] 0%nat). sdk_then Hr (ss_after_error _ _ _ [] []).
  sdk_then Hr (ss_ktop _ _ _ [] []). sdk_then Hr (ss_kwake _ _ _ [] []). sdk_then Hr (ss_kdial _ _ _ [] []).
  eexists. split; [exact Hr|]. cbn. split; [reflexivity|]. split; [|reflexivity]. vm_compute. reflexivity.
Qed.

Lemma client_reads_alone_witness :
  ∃ c, sdk_run fst sdk_seq DefaultOptions "" lost_connection c ∧ (actives (sc_threads c) ≤ 1)%nat ∧ sc_msgCh c = [trade_of "AAPL" 7].
Proof.
  destruct lost_connection_run as (c & Hrun & _).
  destruct (client_reads_alone fst sdk_seq DefaultOptions "" lost_connection c eq_refl Hrun) as (H1 & _ & H3 & _).
  exists c. split; [exact Hrun|]. split; [exact H1|exact H3].
Defined.

Definition resume_cm : ClientMessage := mkClientMessage "reconnect" ["AAPL"; "IBM"] "" "" "" f64_zero {["AAPL" := 7]} 5 0.
Definition resume_run : outcome (@Client (string * Z) handle * MemoryManager (list string) (string * Z)) :=
  client_run demo_parse demo_services (newClient "carol") tm_empty [ClMessage resume_cm None None].
Definition resume_final : @Client (string * Z) handle * MemoryManager (list string) (string * Z) :=
  match resume_run with Ret r => r | Panic => (newClient "", tm_empty) end.


(** ** What goes wrong *)

(** A second [Subscribe] sends only its own symbols, and the gateway replaces the
    subscription: the client believes in both symbols, the gateway has the second. *)
Definition two_subscribes : list (sdk_label (Ev := string * Z)) :=
  [SSubscribe ["AAPL"]; SWrite 0 (subscribe_message ["AAPL"]); SSubscribe ["IBM"]; SWrite 0 (subscribe_message ["IBM"])].

Lemma second_subscribe_replaces :
  (∃ c, sdk_run fst sdk_seq DefaultOptions "" two_subscribes c ∧ sc_subscriptions c = ["AAPL"; "IBM"]) ∧
  foldl (want_input demo_parse demo_services) None
    [ClMessage (subscribe_message ["AAPL"]) None None; ClMessage (subscribe_message ["IBM"]) None None] = Some {["IBM"]}.
Proof.
  split; [|vm_compute; reflexivity]. pose proof (sr_nil fst sdk_seq DefaultOptions "") as Hr.
  sdk_then Hr (ss_subscribe _ _ _ ["AAPL"]). sdk_then Hr (ss_write _ _ _ [RTop] [] _ 0%nat).
  sdk_then Hr (ss_subscribe _ _ _ ["IBM"]). sdk_then Hr (ss_write _ _ _ [RTop] [] _ 0%nat).
  eexists. split; [exact Hr|]. vm_compute. reflexivity.
Qed.

(** A gateway without a log refuses the reconnect, and the client is subscribed to
    nothing. *)
Lemma reconnect_without_log_is_lost {E} `{!MarketEventOps E} (sx : @services E) parse subs resumeSeq now cm :
  sx_hasWal sx = false → resumeSeq ≠ ∅ → resume_message subs resumeSeq now = Some cm → want_after parse sx None cm = None.
Proof.
  intros Hw Hr. unfold resume_message. destruct (_ =? _)%nat; [done|]. rewrite bool_decide_eq_false_2 by done. intros [= <-].
  unfold want_after. cbn. by rewrite Hw.
Qed.

(** The goroutine that has reconnected starts the read loop before it clears its flag.
    When the new connection fails in between, the read loop takes the reconnect to be
    under way and leaves: no one reads, no one reconnects, and [Close] waits for ever. *)
Definition lost_race : list (sdk_label (Ev := string * Z)) :=
  [STau; STau; STau; STau; STau; SOpen 1; STau; STau; STau; STau; STau; SClose].

Lemma reconnect_race_loses_client :
  ∃ c, sdk_run fst sdk_seq DefaultOptions "" lost_race c ∧ sc_threads c = [] ∧ sc_closing c = true ∧ sc_done c = false.
Proof.
  pose proof (sr_nil fst sdk_seq DefaultOptions "") as Hr.
  sdk_then Hr (ss_top _ _ _ [] []). sdk_then Hr (ss_error _ _ _ [] [] 0%nat). sdk_then Hr (ss_after_error _ _ _ [] []).
  sdk_then Hr (ss_ktop _ _ _ [] []). sdk_then Hr (ss_kwake _ _ _ [] []). sdk_then Hr (ss_kdial _ _ _ [] []).
  sdk_then Hr (ss_kconnected _ _ _ [] [] _ _ 1%nat "" 0). sdk_then Hr (ss_top _ _ _ [] [KExit]).
  sdk_then Hr (ss_error _ _ _ [] [KExit] 1%nat). sdk_then Hr (ss_after_error _ _ _ [] [KExit]). sdk_then Hr (ss_kexit _ _ _ [] []).
  sdk_then Hr (ss_close). eexists. split; [exact Hr|]. vm_compute. repeat split.
Qed.

(** [Reconnect] by hand clears the connection under a running read loop, which reads it
    again after its next message. *)
Definition manual_race : list (sdk_label (Ev := string * Z)) := [STau; SManual; STau; STau].

Lemma manual_reconnect_panics :
  ∃ c, sdk_run fst sdk_seq DefaultOptions "" manual_race c ∧ sdk_step fst sdk_seq c STau None.
Proof.
  pose proof (sr_nil fst sdk_seq DefaultOptions "") as Hr.
  sdk_then Hr (ss_top _ _ _ [] []). sdk_then Hr (ss_manual). sdk_then Hr (ss_other _ _ _ [] [KTop 0 1000000000] 0%nat).
  sdk_then Hr (ss_top _ _ _ [] [KTop 0 1000000000]).
  eexists. split; [exact Hr|]. by apply (ss_nil _ _ _ [] [KTop 0 1000000000]).
Qed.
