(* ===== verification/ReconnectClient.v ===== *)
(** * ReconnectClient: the reconnecting client of the websocket package

    [internal/websocket/reconnect.go]. One goroutine dials, subscribes to what is
    registered and reads until the connection is lost; callers register symbols and
    write to the connection that there is. A state has where the goroutine is, and a
    step is what it or a caller does between two points where they meet. The delays are
    those of the back-off function, a parameter of the client in the source too; here
    they pass unseen. *)

From S2P Require Import Prelude Bytes Float64 MarketEvent TopicManager Router Snapshot WsPump WsClient ClientSdk.

Definition eventsBuffer : nat := 256.

Section reconnect.
Context {Ev : Type}.

(** Where [run] is: at its top; waiting; dialling; about to copy the registry; about to
    write it; reading; at the send of an event; past its end. *)
Inductive rc_point :=
  | PTop
  | PWait
  | PDial
  | PCopy (conn : nat)
  | PResub (conn : nat) (symbols : list string)
  | PRead (conn : nat)
  | PSend (conn : nat) (e : Ev)
  | PExit.

Record ReconnectClient := mkReconnect {
  rc_subscriptions : gset string;
  rc_conn : option nat;
  rc_events : list Ev;
  rc_stopCh : bool;
  rc_attempt : Z;
  rc_first : bool;
  rc_nextConn : nat;
  rc_pc : rc_point;
}.

(** [NewReconnectClient] and [Start]. *)
Definition NewReconnectClient : ReconnectClient := mkReconnect ∅ None [] false 0 true 0 PTop.

Definition rc_upd (rc : ReconnectClient) (conn : option nat) (attempt : Z) (first : bool) (pc : rc_point) : ReconnectClient :=
  mkReconnect (rc_subscriptions rc) conn (rc_events rc) (rc_stopCh rc) attempt first (rc_nextConn rc) pc.
Definition rc_goto (rc : ReconnectClient) (pc : rc_point) : ReconnectClient := rc_upd rc (rc_conn rc) (rc_attempt rc) (rc_first rc) pc.
Definition with_subscriptions (rc : ReconnectClient) (subs : gset string) : ReconnectClient :=
  mkReconnect subs (rc_conn rc) (rc_events rc) (rc_stopCh rc) (rc_attempt rc) (rc_first rc) (rc_nextConn rc) (rc_pc rc).

(** [Subscribe] and [Unsubscribe], which hold the lock of the registry while they write;
    an unsubscription names no symbols. *)
Definition rc_Subscribe (rc : ReconnectClient) (symbols : list string) : ReconnectClient * option ClientMessage :=
  (with_subscriptions rc (rc_subscriptions rc ∪ list_to_set symbols),
   match rc_conn rc with Some _ => Some (subscribe_message symbols) | None => None end).
Definition rc_Unsubscribe (rc : ReconnectClient) (symbols : list string) : ReconnectClient * option ClientMessage :=
  (with_subscriptions rc (rc_subscriptions rc ∖ list_to_set symbols),
   match rc_conn rc with Some _ => Some (plain_message "unsubscribe" []) | None => None end).

(** [Stop] up to its wait: a second one closes a closed channel. *)
Definition rc_Stop (rc : ReconnectClient) : outcome ReconnectClient :=
  if rc_stopCh rc then Panic
  else Ret (mkReconnect (rc_subscriptions rc) None (rc_events rc) true (rc_attempt rc) (rc_first rc) (rc_nextConn rc) (rc_pc rc)).

(** [connect]: a dial that fails, or succeeds while the client is told to stop. *)
Definition rc_dialled (rc : ReconnectClient) (ok : bool) : ReconnectClient :=
  let next := mkReconnect (rc_subscriptions rc) (rc_conn rc) (rc_events rc) (rc_stopCh rc) (rc_attempt rc) (rc_first rc)
                (if ok then S (rc_nextConn rc) else rc_nextConn rc) (rc_pc rc) in
  if ok && negb (rc_stopCh rc) then rc_upd next (Some (rc_nextConn rc)) 0 (rc_first rc) (PCopy (rc_nextConn rc))
  else rc_upd next (rc_conn rc) (i64 (rc_attempt rc + 1)) false PTop.

(** The end of [readPump]. *)
Definition read_ended (rc : ReconnectClient) (conn : nat) : ReconnectClient :=
  rc_upd rc (if decide (rc_conn rc = Some conn) then None else rc_conn rc) (rc_attempt rc) (rc_first rc) PTop.

(** ** The steps *)

Inductive rc_label :=
  | RSubscribe (symbols : list string)
  | RUnsubscribe (symbols : list string)
  | RWrite (conn : nat) (m : ClientMessage)
  | RDialled (ok : bool)
  | RReceived (e : Ev)
  | RDelivered (e : Ev)
  | RTaken (e : Ev)
  | RStop
  | RTau.

(** A label for each write that is tried; a call that writes is two labels. A failed
    write is logged and changes nothing; a message that does not decode is passed over. *)
Inductive rc_step : ReconnectClient → list rc_label → ReconnectClient → Prop :=
  | rcs_subscribe rc symbols :
      rc_step rc (RSubscribe symbols :: match rc_conn rc, (rc_Subscribe rc symbols).2 with Some k, Some m => [RWrite k m] | _, _ => [] end)
        (rc_Subscribe rc symbols).1
  | rcs_unsubscribe rc symbols :
      rc_step rc (RUnsubscribe symbols :: match rc_conn rc, (rc_Unsubscribe rc symbols).2 with Some k, Some m => [RWrite k m] | _, _ => [] end)
        (rc_Unsubscribe rc symbols).1
  | rcs_stop rc rc' : rc_Stop rc = Ret rc' → rc_step rc [RStop] rc'
  | rcs_take rc e q :
      rc_events rc = e :: q →
      rc_step rc [RTaken e] (mkReconnect (rc_subscriptions rc) (rc_conn rc) q (rc_stopCh rc) (rc_attempt rc) (rc_first rc) (rc_nextConn rc) (rc_pc rc))
  | rcs_top rc :
      rc_pc rc = PTop →
      rc_step rc [RTau]
        (if rc_stopCh rc then rc_upd rc None (rc_attempt rc) (rc_first rc) PExit
         else rc_goto rc (if rc_first rc then PDial else PWait))
  | rcs_wait_stop rc : rc_pc rc = PWait → rc_stopCh rc = true → rc_step rc [RTau] (rc_upd rc None (rc_attempt rc) (rc_first rc) PExit)
  | rcs_wait rc : rc_pc rc = PWait → rc_step rc [RTau] (rc_goto rc PDial)
  | rcs_dial rc ok : rc_pc rc = PDial → rc_step rc [RDialled ok] (rc_dialled rc ok)
  | rcs_copy rc conn :
      rc_pc rc = PCopy conn →
      rc_step rc [RTau]
        (rc_upd rc (rc_conn rc) (rc_attempt rc) (match elements (rc_subscriptions rc) with [] => false | _ => rc_first rc end)
           (match elements (rc_subscriptions rc) with [] => PRead conn | symbols => PResub conn symbols end))
  | rcs_resub rc conn symbols :
      rc_pc rc = PResub conn symbols →
      rc_step rc [RWrite conn (subscribe_message symbols)] (rc_upd rc (rc_conn rc) (rc_attempt rc) false (PRead conn))
  | rcs_read rc conn e : rc_pc rc = PRead conn → rc_step rc [RReceived e] (rc_goto rc (PSend conn e))
  | rcs_invalid rc conn : rc_pc rc = PRead conn → rc_step rc [RTau] rc
  | rcs_error rc conn : rc_pc rc = PRead conn → rc_step rc [RTau] (read_ended rc conn)
  | rcs_send rc conn e :
      rc_pc rc = PSend conn e → (length (rc_events rc) < eventsBuffer)%nat →
      rc_step rc [RDelivered e]
        (mkReconnect (rc_subscriptions rc) (rc_conn rc) (rc_events rc ++ [e]) (rc_stopCh rc) (rc_attempt rc) (rc_first rc) (rc_nextConn rc) (PRead conn))
  | rcs_send_stop rc conn e : rc_pc rc = PSend conn e → rc_stopCh rc = true → rc_step rc [RTau] (read_ended rc conn).

Inductive rc_run : list rc_label → ReconnectClient → Prop :=
  | rcr_nil : rc_run [] NewReconnectClient
  | rcr_snoc tr rc ls rc' : rc_run tr rc → rc_step rc ls rc' → rc_run (tr ++ ls) rc'.

(** ** What a run has done *)

Definition register1 (subs : gset string) (l : rc_label) : gset string :=
  match l with RSubscribe symbols => subs ∪ list_to_set symbols | RUnsubscribe symbols => subs ∖ list_to_set symbols | _ => subs end.
Definition registered (tr : list rc_label) : gset string := foldl register1 ∅ tr.
Definition received (l : rc_label) : list Ev := match l with RReceived e => [e] | _ => [] end.
Definition rdelivered (l : rc_label) : list Ev := match l with RDelivered e => [e] | _ => [] end.
Definition rtaken (l : rc_label) : list Ev := match l with RTaken e => [e] | _ => [] end.
Definition held (pc : rc_point) : list Ev := match pc with PSend _ e => [e] | _ => [] end.

Lemma registry_registered tr rc : rc_run tr rc → rc_subscriptions rc = registered tr.
Proof.
  induction 1 as [|tr rc ls rc' _ IH Hs]; [done|]. unfold registered in *. rewrite foldl_app, <- IH. clear IH.
  destruct Hs; unfold rc_Stop, rc_dialled, read_ended in *; repeat case_match; simplify_eq; done.
Qed.

(** An event is lost only when the client is told to stop while the goroutine holds it. *)
Definition stopping (rc : ReconnectClient) : Prop := rc_stopCh rc = true ∧ (rc_pc rc = PTop ∨ rc_pc rc = PExit).

Lemma events_in_order tr rc :
  rc_run tr rc →
  (tr ≫= rtaken) ++ rc_events rc = tr ≫= rdelivered ∧
  ((tr ≫= rdelivered) ++ held (rc_pc rc) = tr ≫= received ∨ stopping rc ∧ (tr ≫= rdelivered) `prefix_of` (tr ≫= received)).
Proof.
  unfold stopping. induction 1 as [|tr rc ls rc' _ [IH1 IH2] Hs]; [split; [done|by left]|]. rewrite !bind_app.
  destruct Hs; unfold rc_Stop, rc_dialled, read_ended in *; repeat case_match; simplify_eq; cbn in *; rewrite ?app_nil_r in *.
  all: repeat match goal with H : rc_pc _ = _ |- _ => rewrite H in * end; cbn in *; rewrite ?app_nil_r in *.
  all: try (split; [done|]; by intuition congruence).
  all: rewrite <- ?IH1, ?app_nil_r in *; rewrite <- ?app_assoc; try (match goal with H : rc_events _ = _ |- _ => rewrite H in * end).
  all: split; [done|].
  - by rewrite <- (app_assoc _ (e :: q)) in IH2.
  - left. destruct IH2 as [<-|[[_ [?|?]] _]]; [by rewrite app_assoc|done|done].
  - right. split_and!; [done|by left|]. destruct IH2 as [<-|[[_ [?|?]] _]]; [by apply prefix_app_r|done|done].
  - right. split_and!; [done|by left|]. destruct IH2 as [<-|[[_ [?|?]] _]]; [by apply prefix_app_r|done|done].
Qed.

(** A client that is told to stop comes to its end. *)
Definition to_exit (pc : rc_point) : nat :=
  match pc with PTop | PWait => 1 | PDial => 2 | PRead _ | PSend _ _ => 2 | PResub _ _ => 3 | PCopy _ => 4 | PExit => 0 end.

Lemma stop_ends k : ∀ tr rc,
  to_exit (rc_pc rc) = k → rc_run tr rc → rc_stopCh rc = true → ∃ tr' rc', rc_run (tr ++ tr') rc' ∧ rc_pc rc' = PExit.
Proof.
  induction k as [k IH] using lt_wf_ind. intros tr rc Hk Hrun Hst.
  assert (Hgo : ∀ ls rc', rc_step rc ls rc' → rc_stopCh rc' = true → (to_exit (rc_pc rc') < k)%nat → ∃ tr' rc', rc_run (tr ++ tr') rc' ∧ rc_pc rc' = PExit).
  { intros ls rc' Hs Hst' Hlt. destruct (IH _ Hlt (tr ++ ls) rc' eq_refl) as (tr' & rc'' & Hr & Hp); [by eapply rcr_snoc|done|].
    exists (ls ++ tr'), rc''. by rewrite app_assoc. }
  destruct (rc_pc rc) as [| | |conn|conn symbols|conn|conn e|] eqn:Hpc; cbn in Hk.
  - eapply Hgo; [by apply rcs_top|rewrite Hst; done|rewrite Hst; cbn; lia].
  - eapply Hgo; [by apply rcs_wait_stop|done|cbn; lia].
  - eapply Hgo; [by apply (rcs_dial rc false)|done|cbn; lia].
  - eapply Hgo; [by apply (rcs_copy rc conn)|done|]. cbn. destruct (elements (rc_subscriptions rc)); cbn; lia.
  - eapply Hgo; [by apply (rcs_resub rc conn symbols)|done|cbn; lia].
  - eapply Hgo; [by apply (rcs_error rc conn)|done|cbn; lia].
  - eapply Hgo; [by apply (rcs_send_stop rc conn e)|done|cbn; lia].
  - exists [], rc. by rewrite app_nil_r.
Qed.
End reconnect.

Section gateway.
Context {Ev E : Type} `{!MarketEventOps E}.
Context {M H LEv : Type} `{!LocalManager M H LEv, !LocalManagerLaws M H LEv, !FreshHandle M H LEv}.
Context (time_Parse : string → result Z string).

(** The reconnecting client restores what is registered. Its registry is what was
    subscribed and not unsubscribed since; its events are delivered in the order in
    which they came, none lost but at most the one it holds when it is told to stop, and
    then it comes to its end. On a new connection the goroutine, undisturbed, writes a
    message that makes the gateway subscribe the connection to exactly the registry
    when that is not empty, not more than a subscription can hold, and served there. *)
Lemma reconnect_client_restores tr (rc : ReconnectClient (Ev := Ev)) :
  rc_run tr rc →
  rc_subscriptions rc = registered tr ∧ (tr ≫= rtaken) ++ rc_events rc = tr ≫= rdelivered ∧
  ((tr ≫= rdelivered) ++ held (rc_pc rc) = tr ≫= received ∨ stopping rc ∧ (tr ≫= rdelivered) `prefix_of` (tr ≫= received)) ∧
  (rc_stopCh rc = true → ∃ tr' rc', rc_run (tr ++ tr') rc' ∧ rc_pc rc' = PExit) ∧
  ∀ conn, rc_pc rc = PCopy conn → registered tr ≠ ∅ →
    ∃ cm rc1 rc2, rc_step rc [RTau] rc1 ∧ rc_step rc1 [RWrite conn cm] rc2 ∧ rc_pc rc2 = PRead conn ∧
      ∀ (sx : @services E) id (m : M) T s m',
        (size (registered tr) ≤ 100)%nat → Forall (served sx) (elements (registered tr)) → mg_table m T → T !! id = None →
        client_run time_Parse sx (newClient id) m [ClMessage cm None None] = Ret (s, m') → mg_table m' (<[id := registered tr]> T).
Proof.
  intros Hrun. pose proof (registry_registered _ _ Hrun) as Hreg. destruct (events_in_order _ _ Hrun) as [H1 H2]. split_and!; try done.
  { intros Hst. by eapply stop_ends. }
  intros conn Hpc Hne. destruct (elements (registered tr)) as [|s0 subs] eqn:Hel; [by apply elements_empty_inv, leibniz_equiv in Hel|].
  eexists (subscribe_message (s0 :: subs)), _, _. split; [by apply (rcs_copy rc conn)|]. rewrite Hreg, Hel. split; [by apply rcs_resub|]. split; [done|].
  intros sx id m T s m' Hsz Hserved Ht Hid Hsrv. assert (Hset : list_to_set (s0 :: subs) = registered tr) by (by rewrite <- Hel, list_to_set_elements_L).
  rewrite <- Hset. eapply first_message_table; [done|done|exact Hsrv|]. apply want_subscribe; [done| |done]. by rewrite <- Hel.
Qed.
End gateway.

(** ** Sessions *)

Tactic Notation "rc_then" hyp(H) uconstr(c) := eapply rcr_snoc in H; [|eapply c; reflexivity]; cbn in H.

(** A client that was connected, and connects again. *)
Definition second_connection : list (rc_label (Ev := Z)) :=
  [RSubscribe ["IBM"]; RTau; RDialled true; RTau; RWrite 0 (subscribe_message ["IBM"]); RReceived 5; RDelivered 5; RTau; RTau; RTau; RDialled true].

Lemma second_connection_run : ∃ rc, rc_run second_connection rc ∧ rc_pc rc = PCopy 1.
Proof.
  pose proof (rcr_nil (Ev := Z)) as Hr. rc_then Hr (rcs_subscribe _ ["IBM"]). rc_then Hr rcs_top. rc_then Hr (rcs_dial _ true).
  rc_then Hr (rcs_copy _ 0%nat). rc_then Hr (rcs_resub _ 0%nat ["IBM"]). rc_then Hr (rcs_read _ 0%nat 5).
  eapply rcr_snoc in Hr; [|eapply (rcs_send _ 0%nat 5); [reflexivity|cbn; unfold eventsBuffer; lia]]. cbn in Hr.
  rc_then Hr (rcs_error _ 0%nat). rc_then Hr rcs_top. rc_then Hr rcs_wait. rc_then Hr (rcs_dial _ true). eexists. split; [exact Hr|]. reflexivity.
Qed.

Lemma reconnect_client_restores_witness :
  ∃ rc cm rc1 rc2, rc_run second_connection rc ∧ rc_events rc = [5] ∧ rc_step rc [RTau] rc1 ∧ rc_step rc1 [RWrite 1 cm] rc2.
Proof.
  destruct second_connection_run as (rc & Hrun & Hpc).
  destruct (reconnect_client_restores (E := string * Z) (M := MemoryManager (list string) (string * Z)) demo_parse second_connection rc Hrun)
    as (_ & H2 & _ & _ & H5).
  destruct (H5 1%nat Hpc ltac:(vm_compute; discriminate)) as (cm & rc1 & rc2 & Hs1 & Hs2 & _).
  exists rc, cm, rc1, rc2. split; [exact Hrun|]. split; [exact H2|]. split; [exact Hs1|exact Hs2].
Defined.

(** ** What goes wrong *)

(** An unsubscription names no symbols: the gateway drops the whole subscription while
    the registry keeps the other symbols. *)
Lemma unsubscribe_drops_everything :
  let rc := mkReconnect (Ev := Z) {["AAPL"; "IBM"]} (Some 0%nat) [] false 0 false 1 (PRead 0) in
  rc_subscriptions (rc_Unsubscribe rc ["AAPL"]).1 = {["IBM"]} ∧
  ∃ cm, (rc_Unsubscribe rc ["AAPL"]).2 = Some cm ∧ want_after demo_parse demo_services (Some {["AAPL"; "IBM"]}) cm = None.
Proof. split; [vm_compute; reflexivity|]. eexists. split; [reflexivity|]. vm_compute. reflexivity. Qed.

(** A subscription between the copy of the registry and its write comes first on the
    connection and is replaced by the older registry. *)
Definition resubscribe_race : list (rc_label (Ev := Z)) :=
  [RSubscribe ["AAPL"]; RTau; RDialled true; RTau; RSubscribe ["IBM"]; RWrite 0 (subscribe_message ["IBM"]); RWrite 0 (subscribe_message ["AAPL"])].

Lemma resubscribe_race_loses_symbol :
  (∃ rc, rc_run resubscribe_race rc ∧ rc_subscriptions rc = {["AAPL"; "IBM"]}) ∧
  foldl (want_input demo_parse demo_services) None
    [ClMessage (subscribe_message ["IBM"]) None None; ClMessage (subscribe_message ["AAPL"]) None None] = Some {["AAPL"]}.
Proof.
  split; [|vm_compute; reflexivity]. pose proof (rcr_nil (Ev := Z)) as Hr. rc_then Hr (rcs_subscribe _ ["AAPL"]). rc_then Hr rcs_top.
  rc_then Hr (rcs_dial _ true). rc_then Hr (rcs_copy _ 0%nat). rc_then Hr (rcs_subscribe _ ["IBM"]). rc_then Hr (rcs_resub _ 0%nat ["AAPL"]).
  eexists. split; [exact Hr|]. vm_compute. reflexivity.
Qed.

Lemma second_stop_panics {Ev} (rc rc' : ReconnectClient (Ev := Ev)) : rc_Stop rc = Ret rc' → rc_Stop rc' = Panic.
Proof. unfold rc_Stop. destruct (rc_stopCh rc); [done|]. by intros [= <-]. Qed.
