(* ===== verification/GatewaySession.v ===== *)
(** * GatewaySession: from the log to the live stream

    [internal/gateway/session.go] and [handler.go]: a session buffers the live messages
    while the log is read, then sends what was read, what was buffered and what comes
    in, leaving out what has been sent; the handler of a reconnect passes it on to the
    connection. The goroutines are the session, the one that reads the log, the handler
    and whoever broadcasts; a step is what one of them does between two meetings at a
    channel. The replayer is the service of [Replay], over any log. *)

From S2P Require Import Prelude Bytes WalCodec WalSegment WalLog WalManager Allocator Replay.

Definition session_buffer : nat := 4096.

Record ConnectResponse := mkConnectResponse { cr_Success : bool; cr_Error : string }.

Section session.
Context {E : Type} (err_string : E → string).

(** The session: in its [select]; with messages left to offer; returned. *)
Inductive session_pc := GSelect | GOffer (rest : list Message) | GReturned.

(** The handler: waiting for the answer; streaming; holding a message; returned. *)
Inductive handler_pc :=
  | HWait
  | HStream
  | HHolds (m : Message)
  | HReturned (why : string).

(** [NewSession], the variables of [Run], and where the two goroutines are; [se_result]
    is the channel on which the log's answer comes, [se_read] that it was sent. *)
Record GwSession := mkSession {
  se_LiveCh : list Message;
  se_SendCh : list Message;
  se_RespCh : option ConnectResponse;
  se_result : option (result (list Message) E);
  se_read : bool;
  se_buffer : list Message;
  se_isReplaying : bool;
  se_expectedSeq : Z;
  se_cancelled : bool;
  se_pc : session_pc;
  se_handler : handler_pc;
}.

Definition NewSession (resumeFrom : Z) : GwSession :=
  mkSession [] [] None None false [] true resumeFrom false GSelect HWait.

Definition set_live (s : GwSession) (live : list Message) : GwSession :=
  mkSession live (se_SendCh s) (se_RespCh s) (se_result s) (se_read s) (se_buffer s) (se_isReplaying s) (se_expectedSeq s)
    (se_cancelled s) (se_pc s) (se_handler s).
Definition set_answer (s : GwSession) (answer : option (result (list Message) E)) : GwSession :=
  mkSession (se_LiveCh s) (se_SendCh s) (se_RespCh s) answer true (se_buffer s) (se_isReplaying s) (se_expectedSeq s)
    (se_cancelled s) (se_pc s) (se_handler s).
Definition set_resp (s : GwSession) (resp : option ConnectResponse) : GwSession :=
  mkSession (se_LiveCh s) (se_SendCh s) resp (se_result s) (se_read s) (se_buffer s) (se_isReplaying s) (se_expectedSeq s)
    (se_cancelled s) (se_pc s) (se_handler s).
Definition set_run (s : GwSession) (buffer : list Message) (replaying : bool) (expected : Z) (pc : session_pc) : GwSession :=
  mkSession (se_LiveCh s) (se_SendCh s) (se_RespCh s) (se_result s) (se_read s) buffer replaying expected
    (se_cancelled s) pc (se_handler s).
Definition set_handler (s : GwSession) (send : list Message) (h : handler_pc) : GwSession :=
  mkSession (se_LiveCh s) send (se_RespCh s) (se_result s) (se_read s) (se_buffer s) (se_isReplaying s) (se_expectedSeq s)
    (se_cancelled s) (se_pc s) h.
Definition cancel (s : GwSession) : GwSession :=
  mkSession (se_LiveCh s) (se_SendCh s) (se_RespCh s) (se_result s) (se_read s) (se_buffer s) (se_isReplaying s) (se_expectedSeq s)
    true (se_pc s) (se_handler s).

(** A live message is taken: buffered, or next to be offered. *)
Definition take_live (s : GwSession) (m : Message) : GwSession :=
  if se_isReplaying s then set_run s (se_buffer s ++ [m]) true (se_expectedSeq s) GSelect
  else set_run s (se_buffer s) false (se_expectedSeq s) (GOffer [m]).

(** The answer of the log is taken. The two loops over what was read and what was
    buffered are one over both; nothing else reads the variables they end with. *)
Definition take_answer (s : GwSession) (answer : result (list Message) E) : GwSession :=
  match answer with
  | Err e => set_run (set_resp s (Some (mkConnectResponse false (err_string e)))) (se_buffer s) (se_isReplaying s) (se_expectedSeq s) GReturned
  | Ok msgs => set_run (set_resp s (Some (mkConnectResponse true ""))) [] false (se_expectedSeq s) (GOffer (msgs ++ se_buffer s))
  end.

(** The next message of a loop: passed over when it was sent, else sent. *)
Definition offer_next (s : GwSession) (m : Message) (rest : list Message) : GwSession :=
  if se_expectedSeq s <=? Sequence m
  then set_run (set_handler s (se_SendCh s ++ [m]) (se_handler s)) (se_buffer s) (se_isReplaying s) (u64 (Sequence m + 1)) (GOffer rest)
  else set_run s (se_buffer s) (se_isReplaying s) (se_expectedSeq s) (GOffer rest).

(** The handler gets the answer and passes it on. *)
Definition respond (s : GwSession) (resp : ConnectResponse) (failure : option string) : GwSession :=
  set_handler (set_resp s None) (se_SendCh s)
    (match failure with
     | Some e => HReturned ("failed to send response: " +:+ e)
     | None => if cr_Success resp then HStream else HReturned ("reconnect rejected: " +:+ cr_Error resp)
     end).

Inductive session_label :=
  | GLive (m : Message)
  | GRead (answer : result (list Message) E)
  | GAnswered (resp : ConnectResponse)
  | GStreamed (m : Message)
  | GCancel
  | GTau.

Inductive session_step : GwSession → session_label → GwSession → Prop :=
  | gs_live s m : (length (se_LiveCh s) < session_buffer)%nat → session_step s (GLive m) (set_live s (se_LiveCh s ++ [m]))
  | gs_read s answer : se_read s = false → session_step s (GRead answer) (set_answer s (Some answer))
  | gs_cancel s : session_step s GCancel (cancel s)
  | gs_done s : se_pc s = GSelect → se_cancelled s = true → session_step s GTau (set_run s (se_buffer s) (se_isReplaying s) (se_expectedSeq s) GReturned)
  | gs_take s m q : se_pc s = GSelect → se_LiveCh s = m :: q → session_step s GTau (take_live (set_live s q) m)
  | gs_answer s answer : se_pc s = GSelect → se_result s = Some answer → session_step s GTau (take_answer (set_answer s None) answer)
  | gs_offer s m rest :
      se_pc s = GOffer (m :: rest) → (se_expectedSeq s ≤ Sequence m → (length (se_SendCh s) < session_buffer)%nat) →
      session_step s GTau (offer_next s m rest)
  | gs_offered s : se_pc s = GOffer [] → session_step s GTau (set_run s (se_buffer s) (se_isReplaying s) (se_expectedSeq s) GSelect)
  | gs_respond s resp failure :
      se_handler s = HWait → se_RespCh s = Some resp → session_step s (GAnswered resp) (respond s resp failure)
  | gs_handler_done s : se_handler s = HWait ∨ se_handler s = HStream → se_cancelled s = true → session_step s GTau (set_handler s (se_SendCh s) (HReturned "context canceled"))
  | gs_get s m q : se_handler s = HStream → se_SendCh s = m :: q → session_step s GTau (set_handler s q (HHolds m))
  | gs_stream s m : se_handler s = HHolds m → session_step s (GStreamed m) (set_handler s (se_SendCh s) HStream)
  | gs_stream_fail s m e :
      se_handler s = HHolds m → session_step s GTau (set_handler s (se_SendCh s) (HReturned ("failed to send stream message: " +:+ e))).

Inductive session_run (resumeFrom : Z) : list session_label → GwSession → Prop :=
  | gr_nil : session_run resumeFrom [] (NewSession resumeFrom)
  | gr_snoc tr s l s' : session_run resumeFrom tr s → session_step s l s' → session_run resumeFrom (tr ++ [l]) s'.

(** ** What a run has seen *)

Definition live_of (l : session_label) : list Message := match l with GLive m => [m] | _ => [] end.
Definition read_of (l : session_label) : list (result (list Message) E) := match l with GRead a => [a] | _ => [] end.
Definition streamed_of (l : session_label) : list Message := match l with GStreamed m => [m] | _ => [] end.

(** What a loop sends of some messages, and the number it ends with. *)
Fixpoint emit (expected : Z) (ms : list Message) : list Message :=
  match ms with
  | [] => []
  | m :: ms => if expected <=? Sequence m then m :: emit (u64 (Sequence m + 1)) ms else emit expected ms
  end.
Fixpoint emit_end (expected : Z) (ms : list Message) : Z :=
  match ms with
  | [] => expected
  | m :: ms => if expected <=? Sequence m then emit_end (u64 (Sequence m + 1)) ms else emit_end expected ms
  end.

Lemma emit_app e ms ms' : emit e (ms ++ ms') = emit e ms ++ emit (emit_end e ms) ms'.
Proof. revert e. induction ms as [|m ms IH]; intros e; [done|]. cbn. case_match; cbn; by rewrite IH. Qed.

Lemma emit_end_app e ms ms' : emit_end e (ms ++ ms') = emit_end (emit_end e ms) ms'.
Proof. revert e. induction ms as [|m ms IH]; intros e; [done|]. cbn. by case_match. Qed.

(** What the handler has of a session: what it holds, and what is on its channel. *)
Definition holds_of (h : handler_pc) : list Message := match h with HHolds m => [m] | _ => [] end.
Definition rest_of (pc : session_pc) : list Message := match pc with GOffer rest => rest | _ => [] end.

(** ** Invariants *)

#[local] Abbreviation lives tr := (tr ≫= live_of).
#[local] Abbreviation reads tr := (tr ≫= read_of).
#[local] Abbreviation streamed tr := (tr ≫= streamed_of).

(** Before the answer nothing is sent and every live message is kept; after it what is
    sent, with what is still to come of the messages seen, is what one loop over them
    sends. [lost] is the message the handler has, or had when it failed to send it. *)
Definition before_answer (resumeFrom : Z) (tr : list session_label) (s : GwSession) (lost : list Message) : Prop :=
  streamed tr = [] ∧ lost = [] ∧ se_SendCh s = [] ∧ se_expectedSeq s = resumeFrom ∧ se_buffer s ++ se_LiveCh s = lives tr ∧
  (se_pc s = GSelect ∨ se_pc s = GReturned) ∧ (se_handler s = HWait ∨ ∃ why, se_handler s = HReturned why) ∧
  (se_read s = false ∧ reads tr = [] ∧ se_result s = None ∨
   ∃ a, se_read s = true ∧ reads tr = [a] ∧ (se_result s = Some a ∨ se_result s = None ∧ ∃ e, a = Err e)).

Definition after_answer (resumeFrom : Z) (tr : list session_label) (s : GwSession) (lost : list Message) : Prop :=
  ∃ ms, reads tr = [Ok ms] ∧ se_read s = true ∧ se_result s = None ∧ (se_handler s = HWait → se_RespCh s = Some (mkConnectResponse true "")) ∧
    emit resumeFrom (ms ++ lives tr) = streamed tr ++ lost ++ se_SendCh s ++ emit (se_expectedSeq s) (rest_of (se_pc s) ++ se_LiveCh s) ∧
    emit_end resumeFrom (ms ++ lives tr) = emit_end (se_expectedSeq s) (rest_of (se_pc s) ++ se_LiveCh s).

Record session_inv (resumeFrom : Z) (tr : list session_label) (s : GwSession) (lost : list Message) : Prop := {
  si_lost : lost = holds_of (se_handler s) ∨ (∃ why, se_handler s = HReturned why) ∧ (length lost ≤ 1)%nat;
  si_streams : if se_isReplaying s then before_answer resumeFrom tr s lost else after_answer resumeFrom tr s lost;
  si_returned : se_pc s = GReturned → se_cancelled s = true ∨ ∃ e, reads tr = [Err e];
  si_resp : se_isReplaying s = true → ∀ resp, se_RespCh s = Some resp → cr_Success resp = false;
}.

Ltac session_cbn :=
  unfold before_answer, after_answer, take_live, take_answer, offer_next, respond, set_live, set_answer, set_resp, set_run, set_handler, cancel in *;
  cbn [se_LiveCh se_SendCh se_RespCh se_result se_read se_buffer se_isReplaying se_expectedSeq se_cancelled se_pc se_handler holds_of rest_of] in *.


Lemma seen_live tr m : lives (tr ++ [GLive m]) = lives tr ++ [m] ∧ reads (tr ++ [GLive m]) = reads tr ∧ streamed (tr ++ [GLive m]) = streamed tr.
Proof. rewrite !bind_app. cbn. by rewrite !app_nil_r. Qed.

Lemma session_inv_live r tr s lost m : session_inv r tr s lost → session_inv r (tr ++ [GLive m]) (set_live s (se_LiveCh s ++ [m])) lost.
Proof.
  intros [H1 H2 H3 H4]. destruct (seen_live tr m) as (Hl & Hr & Hst). split; [done| |by rewrite Hr|done].
  session_cbn. rewrite Hl, Hr, Hst. destruct (se_isReplaying s).
  - destruct H2 as (? & ? & ? & ? & <- & H2). rewrite app_assoc. split_and!; try done; apply H2.
  - destruct H2 as (ms & ? & ? & ? & ? & H2 & H2'). exists ms. rewrite !(app_assoc ms), !(app_assoc (rest_of (se_pc s))).
    rewrite !(emit_app _ (_ ++ _)), !(emit_end_app _ (_ ++ _)), H2', H2, <- !app_assoc. done.
Qed.

(** What is seen does not change with a step of the session or the handler. *)
Definition unseen (l : session_label) : Prop := live_of l = [] ∧ read_of l = [] ∧ streamed_of l = [].

Lemma seen_unseen tr l : unseen l → lives (tr ++ [l]) = lives tr ∧ reads (tr ++ [l]) = reads tr ∧ streamed (tr ++ [l]) = streamed tr.
Proof. intros (Hl & Hr & Hs). rewrite !bind_app. cbn. by rewrite Hl, Hr, Hs, !app_nil_r. Qed.

Lemma session_inv_unseen r tr s lost l : unseen l → session_inv r tr s lost → session_inv r (tr ++ [l]) s lost.
Proof.
  intros (Hl & Hr & Hst)%(seen_unseen tr). intros [H1 H2 H3 H4]. split; [done| |by rewrite Hr|done].
  unfold before_answer, after_answer in *. by rewrite Hl, Hr, Hst.
Qed.

Lemma session_inv_read r tr s lost a : se_read s = false → session_inv r tr s lost → session_inv r (tr ++ [GRead a]) (set_answer s (Some a)) lost.
Proof.
  intros Hrd [H1 H2 H3 H4]. unfold before_answer, after_answer in H2. destruct (se_isReplaying s) eqn:Hre; [|destruct H2 as (? & ? & ? & ?); congruence].
  destruct H2 as (? & ? & ? & ? & ? & ? & ? & [(_ & Hreads & _)|(? & ? & _)]); [|congruence].
  split; [done| | |by intros _; apply H4].
  - session_cbn. rewrite Hre, !bind_app. cbn. rewrite Hreads, !app_nil_r. split_and!; try done. right. exists a. split_and!; try done. by left.
  - session_cbn. intros Hpc. left. destruct (H3 Hpc) as [?|[e ?]]; congruence.
Qed.

Lemma session_inv_take r tr s lost m q :
  se_pc s = GSelect → se_LiveCh s = m :: q → session_inv r tr s lost → session_inv r tr (take_live (set_live s q) m) lost.
Proof.
  intros Hpc Hq [H1 H2 H3 H4]. unfold take_live. cbn [set_live se_isReplaying]. destruct (se_isReplaying s) eqn:Hre; split; session_cbn; try done.
  - destruct H2 as (? & ? & ? & ? & <- & H2). rewrite Hq, <- app_assoc. split_and!; try done; [by left|apply H2|apply H2].
  - by rewrite Hpc, Hq in H2.
Qed.

Lemma session_inv_answer r tr s lost a :
  se_pc s = GSelect → se_result s = Some a → session_inv r tr s lost → session_inv r tr (take_answer (set_answer s None) a) lost.
Proof.
  intros Hpc Ha [H1 H2 H3 H4]. unfold before_answer, after_answer in H2. destruct (se_isReplaying s) eqn:Hre; [|destruct H2 as (? & ? & ? & ? & _); congruence].
  destruct H2 as (Hst & -> & Hsend & Hexp & Hlive & _ & Hh & [(_ & _ & ?)|(a' & _ & Hreads & Ha')]); [congruence|].
  assert (a' = a) as -> by (destruct Ha' as [?|[? _]]; congruence). destruct a as [ms|e]; split; session_cbn; try done.
  - exists ms. split_and!; try done; rewrite ?Hst, ?Hsend, Hexp, <- Hlive; cbn; by rewrite <- !app_assoc.
  - rewrite Hre. split_and!; try done; [by right|]. right. exists (Err e). split_and!; try done. right. split; [done|by exists e].
  - intros _. right. by exists e.
  - by intros _ resp [= <-].
Qed.

Lemma session_inv_offer r tr s lost m rest : se_pc s = GOffer (m :: rest) → session_inv r tr s lost → session_inv r tr (offer_next s m rest) lost.
Proof.
  intros Hpc [H1 H2 H3 H4]. unfold offer_next. destruct (se_isReplaying s) eqn:Hre.
  { destruct H2 as (_ & _ & _ & _ & _ & [?|?] & _); congruence. }
  destruct H2 as (ms & Hreads & Hread & Hres & Hresp & He & Hend). rewrite Hpc in He, Hend. cbn in He, Hend.
  destruct (se_expectedSeq s <=? Sequence m); split; session_cbn; rewrite ?Hre; try done; exists ms; split_and!; try done.
  rewrite He. by rewrite <- !app_assoc.
Qed.

Lemma session_inv_step r tr s lost l s' :
  session_inv r tr s lost → session_step s l s' → ∃ lost', session_inv r (tr ++ [l]) s' lost'.
Proof.
  intros Hinv Hs.
  destruct Hs as [s m Hl|s a Hr|s|s Hpc Hc|s m q Hpc Hq|s a Hpc Ha|s m rest Hpc Hroom|s Hpc|s resp failure Hh Hr|s Hh Hc|s m q Hh Hq|s m Hh|s m e Hh].
  1: exists lost; by apply session_inv_live.
  1: exists lost; by apply session_inv_read.
  3: exists lost; apply session_inv_unseen; [done|by apply session_inv_take].
  3: exists lost; apply session_inv_unseen; [done|by apply session_inv_answer].
  3: exists lost; apply session_inv_unseen; [done|by apply session_inv_offer].
  all: destruct Hinv as [H1 H2 H3 H4].
  - exists lost. apply session_inv_unseen; [done|]. split; session_cbn; try done. by left.
  - exists lost. apply session_inv_unseen; [done|]. split; session_cbn; try done; [|by left]. rewrite Hpc in H2. case_match; [|done].
    split_and!; try apply H2. by right.
  - exists lost. apply session_inv_unseen; [done|]. split; session_cbn; try done. rewrite Hpc in H2. case_match; [|done].
    split_and!; try apply H2. by left.
  - exists []. apply session_inv_unseen; [done|]. rewrite Hh in H1. destruct H1 as [->|[[why ?] _]]; [|done].
    split; session_cbn; try done; [destruct failure; [by right; eauto|]; destruct (cr_Success resp); [by left|right; eauto]|].
    destruct (se_isReplaying s) eqn:Hre.
    + rewrite (H4 eq_refl _ Hr). split_and!; try apply H2. right. destruct failure; eauto.
    + destruct H2 as (ms & ? & ? & ? & ? & ? & ?). exists ms. split_and!; try done. destruct failure; [done|]. by destruct (cr_Success resp).
  - exists lost. apply session_inv_unseen; [done|].
    assert (lost = []) as -> by (destruct Hh as [Hh|Hh]; rewrite Hh in H1; destruct H1 as [->|[[why ?] _]]; done).
    split; session_cbn; try done; [right; split; [eauto|cbn; lia]|]. case_match; [split_and!; try apply H2; eauto|].
    destruct H2 as (ms & ? & ? & ? & ? & ? & ?). by exists ms.
  - rewrite Hh in H1. destruct H1 as [->|[[why ?] _]]; [|done]. exists [m]. apply session_inv_unseen; [done|].
    split; session_cbn; try done; [by left|]. rewrite Hq in H2. case_match; [by destruct H2 as (_ & _ & ? & _)|].
    destruct H2 as (ms & ? & ? & ? & ? & H2 & ?). exists ms. by split_and!.
  - rewrite Hh in H1. destruct H1 as [->|[[why ?] _]]; [|done]. exists []. assert (Hre : se_isReplaying s = false).
    { destruct (se_isReplaying s); [|done]. by destruct H2 as (_ & ? & _). }
    split; session_cbn; rewrite ?Hre in *; rewrite ?bind_app; cbn; rewrite ?app_nil_r; [by left| |done|done].
    destruct H2 as (ms & ? & ? & ? & ? & H2 & ?). exists ms. split_and!; try done. rewrite H2. by rewrite <- !app_assoc.
  - rewrite Hh in H1. destruct H1 as [->|[[why ?] _]]; [|done]. exists [m]. apply session_inv_unseen; [done|].
    split; session_cbn; try done; [right; split; [eauto|cbn; lia]|]. case_match; [by destruct H2 as (_ & ? & _)|].
    destruct H2 as (ms & ? & ? & ? & ? & ? & ?). by exists ms.
Qed.

Lemma session_run_inv r tr s : session_run r tr s → ∃ lost, session_inv r tr s lost.
Proof.
  induction 1 as [|tr s l s' _ [lost IH] Hs]; [|by eapply session_inv_step].
  exists []. split; cbn; [by left| |done|done]. split_and!; try done; [by left|by left|by left].
Qed.


(** ** Progress *)

(** The work that is left: the answer, what was kept or is to be offered, and what the
    handler has. *)
Definition answer_work (s : GwSession) : nat := match se_result s with Some (Ok ms) => 6 + 4 * length ms | _ => 0 end.
Definition pc_work (pc : session_pc) : nat := match pc with GOffer rest => 1 + 3 * length rest | _ => 0 end.
Definition handler_work (h : handler_pc) : nat := match h with HWait | HHolds _ => 1 | _ => 0 end.
Definition session_work (s : GwSession) : nat :=
  answer_work s + 6 * length (se_LiveCh s) + 4 * length (se_buffer s) + pc_work (se_pc s) + 2 * length (se_SendCh s) + handler_work (se_handler s).

Definition running (s : GwSession) : Prop := se_cancelled s = false ∧ ∀ why, se_handler s ≠ HReturned why.

Lemma session_progress r tr s ms :
  session_run r tr s → reads tr = [Ok ms] → running s →
  streamed tr = emit r (ms ++ lives tr) ∨
  ∃ l s', session_step s l s' ∧ live_of l = [] ∧ read_of l = [] ∧ running s' ∧ (session_work s' < session_work s)%nat.
Proof.
  intros Hrun Hreads [Hc Hh]. destruct (session_run_inv _ _ _ Hrun) as [lost [H1 H2 H3 H4]].
  assert (Hpc : se_pc s ≠ GReturned) by (intros [?|[e ?]]%H3; congruence). unfold running, session_work.
  destruct (se_isReplaying s) eqn:Hre.
  { destruct H2 as (_ & _ & _ & _ & _ & [Hpc'|?] & [Hw|[why ?]] & [(_ & ? & _)|(a & _ & Ha & Hres)]); try congruence; try (by destruct (Hh why)).
    rewrite Hreads in Ha. injection Ha as <-. destruct Hres as [Hres|(_ & ? & [=])].
    right. exists GTau, (take_answer (set_answer s None) (Ok ms)). split; [by apply gs_answer|]. session_cbn. unfold answer_work. rewrite Hres, Hpc'. cbn.
    rewrite length_app. split_and!; try done. lia. }
  destruct H2 as (ms' & Hms & _ & Hres & Hresp & He & _). rewrite Hreads in Hms. injection Hms as <-.
  destruct (se_handler s) as [| |m|why] eqn:Hhd; [| | |by destruct (Hh why)].
  - right. eexists _, _. split; [apply (gs_respond s (mkConnectResponse true "") None); auto|]. session_cbn. split_and!; try done. unfold answer_work. cbn. lia.
  - destruct H1 as [->|[[why ?] _]]; [|done]. destruct (se_SendCh s) as [|m q] eqn:Hsend.
    2:{ right. eexists _, _. split; [by apply (gs_get s m q)|]. session_cbn. split_and!; try done. unfold answer_work. cbn. lia. }
    destruct (se_pc s) as [|[|m rest]|] eqn:Hpcs; [| | |done].
    + destruct (se_LiveCh s) as [|m q] eqn:Hlive; [left; rewrite He; cbn; by rewrite app_nil_r|].
      right. eexists _, _. split; [by apply (gs_take s m q)|]. unfold take_live. cbn [set_live se_isReplaying]. rewrite Hre. session_cbn. rewrite Hhd, Hsend.
      split_and!; try done. unfold answer_work. cbn. lia.
    + right. eexists _, _. split; [by apply gs_offered|]. session_cbn. rewrite Hhd, Hsend. split_and!; try done. unfold answer_work. cbn. lia.
    + right. eexists _, _. split; [apply (gs_offer s m rest); [done|by rewrite Hsend; unfold session_buffer; cbn; lia]|]. unfold offer_next.
      case_match; session_cbn; rewrite Hhd, ?Hsend; (split_and!; [done|done|done|done|]); unfold answer_work; cbn; lia.
  - right. eexists _, _. split; [by apply (gs_stream s m)|]. session_cbn. split_and!; try done. unfold answer_work. cbn. lia.
Qed.

Lemma session_drains k : ∀ r tr s ms,
  session_work s = k → session_run r tr s → reads tr = [Ok ms] → running s →
  ∃ tr' s', session_run r (tr ++ tr') s' ∧ lives tr' = [] ∧ streamed (tr ++ tr') = emit r (ms ++ lives tr).
Proof.
  induction k as [k IH] using lt_wf_ind. intros r tr s ms Hk Hrun Hreads Hr.
  destruct (session_progress r tr s ms Hrun Hreads Hr) as [Hdone|(l & s' & Hs & Hl & Hrd & Hr' & Hlt)]; [exists [], s; by rewrite app_nil_r|].
  destruct (IH _ ltac:(rewrite <- Hk; exact Hlt) r (tr ++ [l]) s' ms eq_refl) as (tr' & s'' & Hrun' & Hl' & Hst); [by eapply gr_snoc| |done|].
  { rewrite bind_app. cbn. by rewrite Hrd, app_nil_r. }
  exists (l :: tr'), s''. replace (tr ++ l :: tr') with ((tr ++ [l]) ++ tr') by (by rewrite <- app_assoc). split_and!; [done|by cbn; rewrite Hl|].
  rewrite Hst, bind_app. cbn. by rewrite Hl, app_nil_r.
Qed.


(** ** Numbered messages *)

(** Messages with consecutive positive numbers from [f] on, none the last of its type. *)
Definition numbered (f : Z) (ms : list Message) : Prop :=
  0 < f ∧ f + Z.of_nat (length ms) < 2 ^ 64 ∧ ∀ i m, ms !! i = Some m → Sequence m = f + Z.of_nat i.

Lemma numbered_cons f m ms : numbered f (m :: ms) → Sequence m = f ∧ numbered (f + 1) ms.
Proof.
  intros (H0 & H1 & H2). cbn [length] in H1. split; [rewrite (H2 0%nat m eq_refl); lia|]. split_and!; [lia|lia|].
  intros i x Hx. rewrite (H2 (S i) x Hx). lia.
Qed.

Lemma numbered_drop f ms d : numbered f ms → (d ≤ length ms)%nat → numbered (f + Z.of_nat d) (drop d ms).
Proof.
  intros (H0 & H1 & H2) Hd. split_and!; [lia|rewrite length_drop; lia|]. intros i m. rewrite lookup_drop. intros Hm. rewrite (H2 _ _ Hm). lia.
Qed.

Lemma numbered_take f ms k : numbered f ms → numbered f (take k ms).
Proof.
  intros (H0 & H1 & H2). split_and!; [done|rewrite length_take; lia|]. intros i m [Hm _]%lookup_take_Some. by apply H2.
Qed.

(** A loop passes over what is numbered lower and sends the rest. *)
Lemma emit_numbered d : ∀ f ms, numbered f ms →
  emit (f + Z.of_nat d) ms = drop d ms ∧ emit_end (f + Z.of_nat d) ms = Z.max (f + Z.of_nat d) (f + Z.of_nat (length ms)).
Proof.
  intros f ms. revert d f. induction ms as [|m ms IH]; intros d f Hn; [cbn; split; [by rewrite drop_nil|lia]|].
  pose proof Hn as (H0 & H1 & _). cbn [length] in H1. apply numbered_cons in Hn as [Hm Hn]. cbn [emit emit_end]. destruct d as [|d].
  - rewrite Hm. rewrite (proj2 (Z.leb_le _ _)) by lia. rewrite u64_small by (unfold in_u64; lia).
    destruct (IH 0%nat (f + 1) Hn) as [IH1 IH2]. rewrite Z.add_0_r in IH1, IH2. cbn [drop length] in *. rewrite IH1, IH2. split; [done|lia].
  - rewrite Hm. rewrite (proj2 (Z.leb_gt _ _)) by lia.
    destruct (IH d (f + 1) Hn) as [IH1 IH2]. replace (f + Z.of_nat (S d)) with (f + 1 + Z.of_nat d) by lia. cbn [drop length]. rewrite IH1, IH2.
    split; [done|lia].
Qed.

(** What is logged, followed by what is broadcast from an earlier point on. *)
Lemma emit_log_then_live f all d k n j :
  numbered f all → (d ≤ k)%nat → (n ≤ k ≤ length all)%nat → (n + j ≤ length all)%nat →
  emit (f + Z.of_nat d) (drop d (take k all) ++ take j (drop n all)) = drop d (take (k `max` (n + j)) all).
Proof.
  intros Hn Hd Hk Hj. rewrite emit_app.
  assert (Hlog : numbered (f + Z.of_nat d) (drop d (take k all))) by (apply numbered_drop; [by apply numbered_take|rewrite length_take; lia]).
  destruct (emit_numbered 0 _ _ Hlog) as [E1 E2]. rewrite Z.add_0_r in E1, E2. rewrite E1, E2, length_drop, length_take, drop_0.
  assert (Hlive : numbered (f + Z.of_nat n) (take j (drop n all))) by (apply numbered_take, numbered_drop; [done|lia]).
  replace (Z.max _ _) with (f + Z.of_nat n + Z.of_nat (k - n)) by lia. destruct (emit_numbered (k - n) _ _ Hlive) as [-> _].
  rewrite (skipn_firstn_comm (k - n) j), drop_drop. replace (n + (k - n))%nat with k by lia.
  destruct (decide (n + j ≤ k)%nat) as [Hle|Hgt].
  - replace (j - (k - n))%nat with 0%nat by lia. replace (k `max` (n + j))%nat with k by lia. by rewrite take_0, app_nil_r.
  - replace (k `max` (n + j))%nat with (k + (j - (k - n)))%nat by lia. rewrite <- (take_take_drop all k (j - (k - n))).
    rewrite drop_app_le by (rewrite length_take; lia). done.
Qed.

(** ** What holds of any replayer *)

(** Nothing is streamed twice or out of order. *)
Lemma emit_sorted ms : ∀ e,
  Forall (λ m, 0 ≤ Sequence m < 2 ^ 64 - 1) ms →
  Forall (λ m, e ≤ Sequence m) (emit e ms) ∧ StronglySorted (λ x y, Sequence x < Sequence y) (emit e ms).
Proof.
  induction ms as [|m ms IH]; intros e Hf; [by split; constructor|]. apply Forall_cons_1 in Hf as [Hm Hf]. cbn [emit].
  destruct (Z.leb_spec e (Sequence m)) as [He|He]; [|by apply IH].
  rewrite u64_small by (unfold in_u64; lia). destruct (IH (Sequence m + 1) Hf) as [H1 H2]. split.
  - constructor; [done|]. eapply Forall_impl; [exact H1|]. cbn. intros x Hx. lia.
  - constructor; [done|]. eapply Forall_impl; [exact H1|]. cbn. intros x Hx. lia.
Qed.

Lemma streamed_prefix r tr s : session_run r tr s →
  streamed tr = [] ∨ ∃ ms, reads tr = [Ok ms] ∧ streamed tr `prefix_of` emit r (ms ++ lives tr).
Proof.
  intros Hrun. destruct (session_run_inv _ _ _ Hrun) as [lost [_ H2 _ _]]. destruct (se_isReplaying s); [left; apply H2|right].
  destruct H2 as (ms & Hr & _ & _ & _ & He & _). exists ms. split; [done|]. rewrite He. by apply prefix_app_r.
Qed.

Lemma session_never_repeats r tr s :
  session_run r tr s → Forall (λ m, 0 ≤ Sequence m < 2 ^ 64 - 1) (lives tr) →
  (∀ ms, Ok ms ∈ reads tr → Forall (λ m, 0 ≤ Sequence m < 2 ^ 64 - 1) ms) →
  Forall (λ m, r ≤ Sequence m) (streamed tr) ∧ StronglySorted (λ x y, Sequence x < Sequence y) (streamed tr).
Proof.
  intros Hrun Hl Hr. destruct (streamed_prefix _ _ _ Hrun) as [->|(ms & Hms & [post Hpre])]; [by split; constructor|].
  destruct (emit_sorted (ms ++ lives tr) r) as [H1 H2]; [apply Forall_app; split; [apply Hr; rewrite Hms; by left|done]|].
  rewrite Hpre in H1, H2. apply Forall_app in H1 as [H1 _]. split; [done|]. by apply StronglySorted_app_1_l in H2.
Qed.

(** A replay that is refused streams nothing. *)
Lemma rejected_streams_nothing r tr s e : session_run r tr s → reads tr = [Err e] → streamed tr = [].
Proof. intros Hrun He. destruct (streamed_prefix _ _ _ Hrun) as [?|(ms & Hms & _)]; [done|congruence]. Qed.
End session.

(** ** The session over the log *)

Section log.
Context {L R : Type} `{!WalLog L R, !WalLogLaws L R} (err_string : ReplayError → string).

(** What a replay of a log with consecutive numbers returns. *)
Lemma replay_of_numbered fuel l a f all k r :
  numbered f all → wl_holds l (take k all) → (k ≤ length all)%nat → (k < fuel)%nat → wl_first l ≤ r → f ≤ r < f + Z.of_nat k →
  f + Z.of_nat k - 1 ≤ Allocator_Current a →
  Service_Replay fuel l a r = Some (Ok (drop (Z.to_nat (r - f)) (take k all))).
Proof.
  intros Hn Hh Hk Hfuel Hfirst Hr Hcur. rewrite (Service_Replay_spec fuel l a (take k all) r Hh) by (rewrite length_take; lia).
  unfold replay_spec. pose proof Hn as (H0 & _ & Hnum). rewrite (proj2 (Z.eqb_neq _ _)) by lia.
  rewrite !(proj2 (Z.ltb_ge _ _)) by lia. set (d := Z.to_nat (r - f)).
  assert (Hfl : filter (λ x, r ≤ Sequence x ≤ Allocator_Current a) (take k all) = drop d (take k all)).
  { rewrite <- (take_drop d (take k all)) at 1. rewrite filter_app, filter_none, filter_all; [done| |].
    - apply Forall_lookup. intros i m. rewrite lookup_drop. intros [Hm Hi]%lookup_take_Some. rewrite (Hnum _ _ Hm). lia.
    - apply Forall_lookup. intros i m [[Hm Hi]%lookup_take_Some Hd]%lookup_take_Some. rewrite (Hnum _ _ Hm). lia. }
  rewrite Hfl. destruct (drop d (take k all)) as [|m ms] eqn:Hd.
  - apply (f_equal length) in Hd. rewrite length_drop, length_take in Hd. cbn in Hd. lia.
  - assert (Hm : take k all !! d = Some m) by (by rewrite <- (Nat.add_0_r d), <- lookup_drop, Hd).
    apply lookup_take_Some in Hm as [Hm _]. rewrite (Hnum _ _ Hm), (proj2 (Z.eqb_eq _ _)) by lia. done.
Qed.

(** C11: A reconnect streams the log and goes on live without a seam. Let the messages
    be logged with consecutive numbers, the log hold the first [k] of them when it is
    asked, and every message after the first [n], logged before it is broadcast, be
    offered to the session from the start on. Then in every interleaving of reader,
    broadcaster, session and handler what has been streamed is a prefix of the messages
    from the one asked for to the last one logged or broadcast, each once, in order; and
    a session that is neither cancelled nor fails to send can always go on to stream all
    of them. *)
Theorem session_streams_the_log fuel l a f all k n r tr s :
  session_run err_string r tr s →
  numbered f all → wl_holds l (take k all) → wl_first l ≤ r → f ≤ r < f + Z.of_nat k → (n ≤ k ≤ length all)%nat → (k < fuel)%nat →
  f + Z.of_nat k - 1 ≤ Allocator_Current a →
  Forall (λ answer, Service_Replay fuel l a r = Some answer) (tr ≫= read_of) → (tr ≫= live_of) `prefix_of` drop n all →
  let due := drop (Z.to_nat (r - f)) (take (k `max` (n + length (tr ≫= live_of))) all) in
  (tr ≫= streamed_of) `prefix_of` due ∧
  (running s → tr ≫= read_of ≠ [] →
   ∃ tr' s', session_run err_string r (tr ++ tr') s' ∧ tr' ≫= live_of = [] ∧ (tr ++ tr') ≫= streamed_of = due).
Proof.
  intros Hrun Hn Hh Hfirst Hr Hk Hfuel Hcur Hans Hpre due.
  rewrite (replay_of_numbered fuel l a f all k r) in Hans by (done || lia). set (log := drop (Z.to_nat (r - f)) (take k all)) in *.
  assert (Hdue : emit r (log ++ (tr ≫= live_of)) = due).
  { unfold due, log. destruct Hpre as [post Hpost]. set (live := tr ≫= live_of) in *.
    assert (Hlive : live = take (length live) (drop n all)) by (rewrite Hpost; symmetry; apply take_app_length).
    assert (Hlen : (n + length live ≤ length all)%nat) by (apply (f_equal length) in Hpost; rewrite length_drop, length_app in Hpost; lia).
    rewrite Hlive at 1. replace r with (f + Z.of_nat (Z.to_nat (r - f))) at 1 by lia. apply emit_log_then_live; [done|lia|lia|lia]. }
  assert (Hok : ∀ x, x ∈ tr ≫= read_of → x = Ok log) by (intros x Hx; by eapply Forall_forall in Hans; [injection Hans as <-|exact Hx]).
  split.
  - destruct (streamed_prefix err_string r tr s Hrun) as [->|(ms & Hms & Hst)]; [apply prefix_nil|].
    assert (Ok ms = Ok log) as [= ->] by (apply Hok; rewrite Hms; by left). by rewrite Hdue in Hst.
  - intros Hrs Hne. destruct (session_run_inv err_string r tr s Hrun) as [lost [_ H2 _ _]].
    assert (∃ x, tr ≫= read_of = [x]) as [x Hx].
    { destruct (se_isReplaying s); [destruct H2 as (_ & _ & _ & _ & _ & _ & _ & [(_ & ? & _)|(x & _ & ? & _)]); [done|by exists x]|].
      destruct H2 as (ms & ? & _). by exists (Ok ms). }
    assert (x = Ok log) as -> by (apply Hok; rewrite Hx; by left).
    destruct (session_drains err_string _ r tr s log eq_refl Hrun Hx Hrs) as (tr' & s' & ? & ? & Hst). exists tr', s'. by rewrite <- Hdue.
Qed.
End log.

(** ** A session *)

Definition session_all : list Message := map stored demo_msgs ++ [stored (demo_msg 7)].
Definition no_text (e : ReplayError) : string := "".

(** The sixth message is logged and broadcast before the log is read from the fourth on,
    the seventh afterwards. *)
Definition session_trace : list (session_label (E := ReplayError)) :=
  [GLive (stored (demo_msg 6)); GTau; GRead (Ok (drop 3 (map stored demo_msgs))); GTau; GLive (stored (demo_msg 7))].

Tactic Notation "gs_then" hyp(H) uconstr(c) :=
  eapply gr_snoc in H; [|eapply c; first [reflexivity | cbn; unfold session_buffer; lia]]; cbn -[stored demo_msgs] in H.

Lemma session_trace_run : ∃ s, session_run no_text 4 session_trace s ∧ running s.
Proof.
  pose proof (gr_nil no_text 4) as Hr. gs_then Hr (gs_live _ _ (stored (demo_msg 6))). gs_then Hr gs_take.
  gs_then Hr (gs_read _ _ (Ok (drop 3 (map stored demo_msgs)))). gs_then Hr gs_answer. gs_then Hr (gs_live _ _ (stored (demo_msg 7))).
  eexists. split; [exact Hr|]. by split.
Qed.

Lemma session_streams_the_log_witness :
  ∃ tr' s', session_run no_text 4 (session_trace ++ tr') s' ∧ (session_trace ++ tr') ≫= streamed_of = drop 3 session_all.
Proof.
  destruct session_trace_run as (s & Hrun & Hrs).
  destruct (session_streams_the_log no_text 7 demo_log (mkAllocator 6) 1 session_all 6 5 4 session_trace s Hrun) as [_ Hgo].
  - split_and!; [lia|cbn; lia|]. intros i m Hm. do 7 (destruct i as [|i]; [injection Hm as <-; vm_compute; reflexivity|]). discriminate Hm.
  - exact demo_log_holds.
  - vm_compute. discriminate.
  - lia.
  - cbn. lia.
  - lia.
  - cbn. lia.
  - constructor; [vm_compute; reflexivity|constructor].
  - exists []. reflexivity.
  - destruct (Hgo Hrs) as (tr' & s' & H1 & _ & H2); [discriminate|]. exists tr', s'. split; [exact H1|exact H2].
Defined.

(** ** What goes wrong *)

(** A session whose handler is gone and whose channel is full is stuck in its send, which
    does not watch the context: no step of anyone ends it. *)
Lemma blocked_session_leaks {E} (err_string : E → string) s l s' m rest why :
  se_pc s = GOffer (m :: rest) → se_expectedSeq s ≤ Sequence m → (session_buffer ≤ length (se_SendCh s))%nat → se_handler s = HReturned why →
  session_step err_string s l s' →
  se_pc s' = GOffer (m :: rest) ∧ se_expectedSeq s' = se_expectedSeq s ∧ se_SendCh s' = se_SendCh s ∧ se_handler s' = HReturned why.
Proof.
  intros Hpc He Hfull Hh Hs. destruct Hs; try congruence; try done; try (by destruct H as [?|?]; congruence).
  rewrite Hpc in H. injection H as <- <-. specialize (H0 He). lia.
Qed.
