(* ===== verification/Discovery.v ===== *)
(** * Discovery: the registry of gateways in Redis

    [internal/discovery/registry.go]. A gateway writes its description under a key that
    expires, adds its name to a set, and refreshes the key; a listing reads the set and
    the keys, and drops names whose key is gone. Several processes do so at once, and
    each call is several Redis commands: a state has the commands that the goroutines of
    all processes are about to send, and a step is one command. Redis is any keyspace
    that honours the documented effect of the commands used, and JSON any encoding. *)

From S2P Require Import Prelude.

(** ** Redis *)

Inductive rvalue := RStr (data : string) | RSet (members : gset string).

(** An entry that expires is gone from its time on. *)
Definition unexpired (now : Z) (e : option (rvalue * option Z)) : option (rvalue * option Z) :=
  match e with Some (v, Some t) => if now <? t then Some (v, Some t) else None | _ => e end.

(** What SADD and SREM make of an entry: a string is refused, an empty set is removed. *)
Definition sadd_entry (e : option (rvalue * option Z)) (m : string) : option (rvalue * option Z) :=
  match e with
  | None => Some (RSet {[m]}, None)
  | Some (RSet s, t) => Some (RSet ({[m]} ∪ s), t)
  | Some (RStr _, _) => e
  end.
Definition srem_entry (e : option (rvalue * option Z)) (m : string) : option (rvalue * option Z) :=
  match e with
  | Some (RSet s, t) => if decide (s ∖ {[m]} = ∅) then None else Some (RSet (s ∖ {[m]}), t)
  | _ => e
  end.

Class Redis (D : Type) := {
  rd_entry : D → Z → string → option (rvalue * option Z);
  rd_Set : D → Z → string → string → Z → D;
  rd_SAdd : D → Z → string → string → D;
  rd_SRem : D → Z → string → string → D;
  rd_Del : D → Z → string → D;
}.

Class RedisLaws (D : Type) `{!Redis D} := {
  rd_empty : D;
  entry_empty : ∀ now k, rd_entry rd_empty now k = None;
  entry_later : ∀ d now now' k, now ≤ now' → rd_entry d now' k = unexpired now' (rd_entry d now k);
  entry_set : ∀ d now k v ttl k', 0 < ttl →
    rd_entry (rd_Set d now k v ttl) now k' = if decide (k' = k) then Some (RStr v, Some (now + ttl)) else rd_entry d now k';
  entry_sadd : ∀ d now k m k', rd_entry (rd_SAdd d now k m) now k' = if decide (k' = k) then sadd_entry (rd_entry d now k) m else rd_entry d now k';
  entry_srem : ∀ d now k m k', rd_entry (rd_SRem d now k m) now k' = if decide (k' = k) then srem_entry (rd_entry d now k) m else rd_entry d now k';
  entry_del : ∀ d now k k', rd_entry (rd_Del d now k) now k' = if decide (k' = k) then None else rd_entry d now k';
}.

(** ** The registry *)

Definition keyPrefix : string := "rtmds:gateways:".
Definition activeSetKey : string := "rtmds:gateways:active".
Definition defaultTTL : Z := 30 * Second.
Definition defaultHeartbeatInterval : Z := 10 * Second.
Definition keyFor (id : string) : string := keyPrefix +:+ id.

Record GatewayInfo := mkInfo {
  gi_ID : string;
  gi_Addr : string;
  gi_Port : Z;
  gi_Status : string;
  gi_StartedAt : Z;
  gi_LastHeartbeat : Z;
}.

Definition with_heartbeat (info : GatewayInfo) (now : Z) : GatewayInfo :=
  mkInfo (gi_ID info) (gi_Addr info) (gi_Port info) (gi_Status info) (gi_StartedAt info) now.

Section discovery.
Context {D : Type} `{!Redis D} (marshal : GatewayInfo → option string) (unmarshal : string → option GatewayInfo) (ttl : Z).

(** A goroutine and the command it is about to send: the two of [Register]; the two of
    [Deregister]; those of [List], which ends with the names to remove; the heartbeat
    waiting, and about to write. *)
Inductive dthread :=
  | TSet (info : GatewayInfo)
  | TSadd (id : string)
  | TDel (id : string)
  | TSrem (id : string)
  | TMembers
  | TMget (ids : list string)
  | TClean (stale : list string) (gateways : list GatewayInfo)
  | HBWait (hb : nat) (info : GatewayInfo)
  | HBSet (hb : nat) (info : GatewayInfo).

(** Redis, its clock, the goroutines, and of each registry (a process has one) the
    cancel function of its heartbeat; heartbeats are numbered, [ds_stopped] has the
    cancelled ones. *)
Record Discovery := mkDiscovery {
  ds_redis : D;
  ds_now : Z;
  ds_threads : list dthread;
  ds_cancel : gmap nat nat;
  ds_stopped : gset nat;
  ds_nextHb : nat;
}.

Definition ds_with (s : Discovery) (redis : D) (ts : list dthread) : Discovery :=
  mkDiscovery redis (ds_now s) ts (ds_cancel s) (ds_stopped s) (ds_nextHb s).

(** [StartHeartbeat] and [StopHeartbeat] under the lock. *)
Definition stop_heartbeat (s : Discovery) (reg : nat) : gset nat :=
  match ds_cancel s !! reg with Some hb => ds_stopped s ∪ {[hb]} | None => ds_stopped s end.
Definition StartHeartbeat (s : Discovery) (reg : nat) (info : GatewayInfo) : Discovery :=
  mkDiscovery (ds_redis s) (ds_now s) (ds_threads s ++ [HBWait (ds_nextHb s) info]) (<[reg := ds_nextHb s]> (ds_cancel s))
    (stop_heartbeat s reg) (S (ds_nextHb s)).
Definition StopHeartbeat (s : Discovery) (reg : nat) (ts : list dthread) : Discovery :=
  mkDiscovery (ds_redis s) (ds_now s) ts (delete reg (ds_cancel s)) (stop_heartbeat s reg) (ds_nextHb s).

(** Reading: SMEMBERS, MGET (nil for what is no string), GET and SCARD. *)
Definition SMembers (s : Discovery) : option (gset string) :=
  match rd_entry (ds_redis s) (ds_now s) activeSetKey with
  | None => Some ∅
  | Some (RSet m, _) => Some m
  | Some (RStr _, _) => None
  end.
Definition MGet1 (s : Discovery) (id : string) : option string :=
  match rd_entry (ds_redis s) (ds_now s) (keyFor id) with Some (RStr data, _) => Some data | _ => None end.

(** The loop of [List] over the values: the names to remove and the gateways. *)
Definition fetch_listed (s : Discovery) (ids : list string) : list string * list GatewayInfo :=
  (filter (λ id, MGet1 s id = None) ids, omap (λ id, MGet1 s id ≫= unmarshal) ids).

(** [Count] and [Get]; an error is the wrong type of value, or a malformed entry. *)
Definition Registry_Count (s : Discovery) : result Z string :=
  match SMembers s with Some m => Ok (Z.of_nat (size m)) | None => Err "registry: count scard" end.
Definition Registry_Get (s : Discovery) (id : string) : result (option GatewayInfo) string :=
  match rd_entry (ds_redis s) (ds_now s) (keyFor id) with
  | None => Ok None
  | Some (RStr data, _) => match unmarshal data with Some info => Ok (Some info) | None => Err "unmarshal" end
  | Some (RSet _, _) => Err "get"
  end.

Inductive dlabel :=
  | DRegister (info : GatewayInfo)
  | DStart (reg : nat) (info : GatewayInfo)
  | DStop (reg : nat)
  | DDeregister (reg : nat) (id : string)
  | DList
  | DTick (d : Z)
  | DWritten (t : Z) (info : GatewayInfo)
  | DJoined (id : string)
  | DMembers (ids : list string)
  | DFetched (ids : list string) (gateways : list GatewayInfo)
  | DListed (gateways : list GatewayInfo)
  | DTau.

(** One command or one call. A command can fail, which ends a call, but not a heartbeat
    or the removals of a listing; of two commands sent together the second is carried
    out also when the first fails. *)
Inductive dstep : Discovery → dlabel → Discovery → Prop :=
  | ds_register s info : marshal info ≠ None → dstep s (DRegister info) (ds_with s (ds_redis s) (ds_threads s ++ [TSet info]))
  | ds_start s reg info : dstep s (DStart reg info) (StartHeartbeat s reg info)
  | ds_stop s reg : dstep s (DStop reg) (StopHeartbeat s reg (ds_threads s))
  | ds_deregister s reg id : dstep s (DDeregister reg id) (StopHeartbeat s reg (ds_threads s ++ [TDel id]))
  | ds_list s : dstep s DList (ds_with s (ds_redis s) (ds_threads s ++ [TMembers]))
  | ds_tick s d : 0 ≤ d → dstep s (DTick d) (mkDiscovery (ds_redis s) (ds_now s + d) (ds_threads s) (ds_cancel s) (ds_stopped s) (ds_nextHb s))
  | ds_set s l r info data :
      ds_threads s = l ++ TSet info :: r → marshal info = Some data →
      dstep s (DWritten (ds_now s) info)
        (ds_with s (rd_Set (ds_redis s) (ds_now s) (keyFor (gi_ID info)) data ttl) (l ++ TSadd (gi_ID info) :: r))
  | ds_set_fail s l r info :
      ds_threads s = l ++ TSet info :: r → dstep s DTau (ds_with s (ds_redis s) (l ++ TSadd (gi_ID info) :: r))
  | ds_sadd s l r id :
      ds_threads s = l ++ TSadd id :: r → dstep s (DJoined id) (ds_with s (rd_SAdd (ds_redis s) (ds_now s) activeSetKey id) (l ++ r))
  | ds_del s l r id :
      ds_threads s = l ++ TDel id :: r → dstep s DTau (ds_with s (rd_Del (ds_redis s) (ds_now s) (keyFor id)) (l ++ TSrem id :: r))
  | ds_del_fail s l r id : ds_threads s = l ++ TDel id :: r → dstep s DTau (ds_with s (ds_redis s) (l ++ TSrem id :: r))
  | ds_srem s l r id :
      ds_threads s = l ++ TSrem id :: r → dstep s DTau (ds_with s (rd_SRem (ds_redis s) (ds_now s) activeSetKey id) (l ++ r))
  | ds_members s l r m ids :
      ds_threads s = l ++ TMembers :: r → SMembers s = Some m → ids ≡ₚ elements m →
      dstep s (DMembers ids) (ds_with s (ds_redis s) (l ++ match ids with [] => TClean [] [] | _ => TMget ids end :: r))
  | ds_mget s l r ids :
      ds_threads s = l ++ TMget ids :: r →
      dstep s (DFetched ids (fetch_listed s ids).2) (ds_with s (ds_redis s) (l ++ TClean (fetch_listed s ids).1 (fetch_listed s ids).2 :: r))
  | ds_clean s l r id stale gateways :
      ds_threads s = l ++ TClean (id :: stale) gateways :: r →
      dstep s DTau (ds_with s (rd_SRem (ds_redis s) (ds_now s) activeSetKey id) (l ++ TClean stale gateways :: r))
  | ds_clean_fail s l r id stale gateways :
      ds_threads s = l ++ TClean (id :: stale) gateways :: r → dstep s DTau (ds_with s (ds_redis s) (l ++ TClean stale gateways :: r))
  | ds_listed s l r gateways :
      ds_threads s = l ++ TClean [] gateways :: r → dstep s (DListed gateways) (ds_with s (ds_redis s) (l ++ r))
  | ds_fail s l r t :
      ds_threads s = l ++ t :: r → match t with TClean _ _ | HBWait _ _ | HBSet _ _ => False | _ => True end →
      dstep s DTau (ds_with s (ds_redis s) (l ++ r))
  | ds_hb_end s l r hb info :
      ds_threads s = l ++ HBWait hb info :: r → hb ∈ ds_stopped s → dstep s DTau (ds_with s (ds_redis s) (l ++ r))
  | ds_hb_tick s l r hb info (healthy : bool) clock :
      ds_threads s = l ++ HBWait hb info :: r →
      dstep s DTau (ds_with s (ds_redis s) (l ++ (if healthy then HBSet hb (with_heartbeat info clock) else HBWait hb info) :: r))
  | ds_hb_set s l r hb info data :
      ds_threads s = l ++ HBSet hb info :: r → marshal info = Some data →
      dstep s (DWritten (ds_now s) info)
        (ds_with s (rd_Set (ds_redis s) (ds_now s) (keyFor (gi_ID info)) data ttl) (l ++ HBWait hb info :: r))
  | ds_hb_fail s l r hb info :
      ds_threads s = l ++ HBSet hb info :: r → dstep s DTau (ds_with s (ds_redis s) (l ++ HBWait hb info :: r)).

Context `{!RedisLaws D}.

Definition NewDiscovery (now : Z) : Discovery := mkDiscovery rd_empty now [] ∅ ∅ 0.

Inductive drun (now : Z) : list dlabel → Discovery → Prop :=
  | dr_nil : drun now [] (NewDiscovery now)
  | dr_snoc tr s l s' : drun now tr s → dstep s l s' → drun now (tr ++ [l]) s'.

(** ** What the commands change *)

Definition view (s : Discovery) (k : string) : option (rvalue * option Z) := rd_entry (ds_redis s) (ds_now s) k.

Inductive deffect (s s' : Discovery) (l : dlabel) : Prop :=
  | E_none : (∀ k, view s' k = view s k) → ds_now s' = ds_now s → deffect s s' l
  | E_tick d : 0 ≤ d → ds_now s' = ds_now s + d → (∀ k, view s' k = unexpired (ds_now s') (view s k)) → deffect s s' l
  | E_set info data :
      l = DWritten (ds_now s) info → marshal info = Some data → TSet info ∈ ds_threads s ∨ (∃ hb, HBSet hb info ∈ ds_threads s) →
      ds_now s' = ds_now s →
      (∀ k, view s' k = if decide (k = keyFor (gi_ID info)) then Some (RStr data, Some (ds_now s + ttl)) else view s k) → deffect s s' l
  | E_sadd id :
      ds_now s' = ds_now s → (∀ k, view s' k = if decide (k = activeSetKey) then sadd_entry (view s k) id else view s k) → deffect s s' l
  | E_srem id :
      TSrem id ∈ ds_threads s ∨ (∃ stale gs, TClean (id :: stale) gs ∈ ds_threads s) → ds_now s' = ds_now s →
      (∀ k, view s' k = if decide (k = activeSetKey) then srem_entry (view s k) id else view s k) → deffect s s' l
  | E_del id :
      TDel id ∈ ds_threads s → ds_now s' = ds_now s → (∀ k, view s' k = if decide (k = keyFor id) then None else view s k) → deffect s s' l.

Lemma in_threads (s : Discovery) l t r : ds_threads s = l ++ t :: r → t ∈ ds_threads s.
Proof. intros ->. apply elem_of_app. right. by left. Qed.

Lemma dstep_effect s l s' : 0 < ttl → dstep s l s' → deffect s s' l.
Proof.
  intros Httl Hs. destruct Hs; try (by apply E_none).
  - eapply (E_tick _ _ _ d); [done|done|]. intros k. apply entry_later. cbn. lia.
  - eapply E_set; [done|done|left; by eapply in_threads|done|]. intros k. by apply entry_set.
  - apply (E_sadd _ _ _ id); [done|]. intros k. unfold view. cbn. rewrite entry_sadd. case_decide; by subst.
  - apply (E_del _ _ _ id); [by eapply in_threads|done|]. intros k. apply entry_del.
  - apply (E_srem _ _ _ id); [left; by eapply in_threads|done|]. intros k. unfold view. cbn. rewrite entry_srem. case_decide; by subst.
  - apply (E_srem _ _ _ id); [right; do 2 eexists; by eapply in_threads|done|]. intros k. unfold view. cbn. rewrite entry_srem. case_decide; by subst.
  - eapply E_set; [done|done|right; eexists; by eapply in_threads|done|]. intros k. by apply entry_set.
Qed.

(** ** Invariants *)

(** A gateway named like the set would overwrite it. *)
Definition proper_name (id : string) : Prop := id ≠ "active".
Definition proper_label (l : dlabel) : Prop :=
  match l with DRegister info | DStart _ info => proper_name (gi_ID info) | DDeregister _ id => proper_name id | _ => True end.
Definition proper_thread (t : dthread) : Prop :=
  match t with TSet info | HBWait _ info | HBSet _ info => proper_name (gi_ID info) | TDel id => proper_name id | _ => True end.

Lemma keyFor_active id : proper_name id → keyFor id ≠ activeSetKey.
Proof. intros Hid He. cbn in He. injection He as He. by apply Hid. Qed.
Lemma keyFor_inj id id' : keyFor id = keyFor id' → id = id'.
Proof. intros He. cbn in He. by injection He. Qed.

Lemma proper_threads_step s l s' :
  proper_label l → Forall proper_thread (ds_threads s) → dstep s l s' → Forall proper_thread (ds_threads s').
Proof.
  intros Hl Hf Hs. destruct Hs; cbn; try done.
  all: try (apply Forall_app; split; [done|]; by repeat constructor).
  all: match goal with H : ds_threads _ = _ |- _ => rewrite H in Hf end; apply Forall_app in Hf as [Hf1 [Hf2 Hf3]%Forall_cons_1].
  all: apply Forall_app; split; [done|]; try done; constructor; try done.
  - by destruct ids.
  - by destruct healthy.
Qed.

(** An entry of a gateway was written less than the time to live ago. *)
Definition written_entry (tr : list dlabel) (now : Z) (id : string) (e : rvalue * option Z) : Prop :=
  ∃ info t data, e = (RStr data, Some (t + ttl)) ∧ marshal info = Some data ∧ gi_ID info = id ∧ DWritten t info ∈ tr ∧ t ≤ now < t + ttl.

Record dinv (tr : list dlabel) (s : Discovery) : Prop := {
  di_set : view s activeSetKey = None ∨ ∃ m, view s activeSetKey = Some (RSet m, None);
  di_keys : ∀ id e, proper_name id → view s (keyFor id) = Some e → written_entry tr (ds_now s) id e;
  di_threads : Forall proper_thread (ds_threads s);
}.

Lemma written_snoc tr l now id e : written_entry tr now id e → written_entry (tr ++ [l]) now id e.
Proof. intros (info & t & data & ? & ? & ? & Hin & ?). exists info, t, data. split_and!; try done; [|lia..]. apply elem_of_app. by left. Qed.

Lemma dinv_step tr s l s' : 0 < ttl → proper_label l → dinv tr s → dstep s l s' → dinv (tr ++ [l]) s'.
Proof.
  intros Httl Hl [H1 H2 H3] Hs. pose proof (proper_threads_step s l s' Hl H3 Hs) as H3'.
  destruct (dstep_effect s l s' Httl Hs) as [Hv Hn|d Hd Hn Hv|info data -> Hm Ht Hn Hv|id Hn Hv|id Ht Hn Hv|id Ht Hn Hv];
    split; try done; rewrite ?Hn, ?Hv.
  - done.
  - intros id e Hid. rewrite Hv. intros He. by apply written_snoc, H2.
  - destruct H1 as [->|[m ->]]; [by left|right; by exists m].
  - intros id e Hid. rewrite Hv. intros He. destruct (view s (keyFor id)) as [e0|] eqn:He0; [|done].
    destruct (H2 id e0 Hid He0) as (info & t & data & -> & ? & ? & ? & ?). cbn in He. rewrite Hn in He.
    destruct (Z.ltb_spec (ds_now s + d) (t + ttl)); [|done]. injection He as <-. apply written_snoc. exists info, t, data. split_and!; try done; lia.
  - assert (Hp : proper_name (gi_ID info)) by (destruct Ht as [Ht|[hb Ht]]; exact (proj1 (Forall_forall _ _) H3 _ Ht)).
    rewrite decide_False; [done|]. intros He. by destruct (keyFor_active _ Hp).
  - intros id e Hid. rewrite Hv. case_decide as Hk.
    + apply keyFor_inj in Hk as ->. intros [= <-]. exists info, (ds_now s), data. split_and!; try done; try lia. apply elem_of_app. right. by left.
    + intros He. by apply written_snoc, H2.
  - rewrite decide_True by done. right. destruct H1 as [->|[m ->]]; by eexists.
  - intros id' e Hid. rewrite Hv. rewrite decide_False by (by apply keyFor_active). intros He. by apply written_snoc, H2.
  - rewrite decide_True by done. destruct H1 as [->|[m ->]]; [by left|]. cbn. case_decide; [by left|]. right. by eexists.
  - intros id' e Hid. rewrite Hv. rewrite decide_False by (by apply keyFor_active). intros He. by apply written_snoc, H2.
  - pose proof (proj1 (Forall_forall _ _) H3 _ Ht) as Hp. cbn in Hp. rewrite decide_False; [done|]. intros He. by destruct (keyFor_active _ Hp).
  - intros id' e Hid. rewrite Hv. case_decide; [done|]. intros He. by apply written_snoc, H2.
Qed.

Lemma drun_inv now tr s : 0 < ttl → Forall proper_label tr → drun now tr s → dinv tr s.
Proof.
  intros Httl. intros Hp Hrun. revert Hp. induction Hrun as [|tr s l s' _ IH Hs]; intros Hp.
  - split; [|intros id e _|done]; unfold view; cbn; rewrite entry_empty; [by left|done].
  - apply Forall_app in Hp as [Hp [Hl _]%Forall_cons_1]. eapply dinv_step; eauto.
Qed.

Lemma MGet1_sadd s id ts g : proper_name g → MGet1 (ds_with s (rd_SAdd (ds_redis s) (ds_now s) activeSetKey id) ts) g = MGet1 s g.
Proof. intros Hg. unfold MGet1. cbn [ds_with ds_redis ds_now]. by rewrite entry_sadd, decide_False by (by apply keyFor_active). Qed.

(** ** A gateway that is kept alive *)

Definition removes (g : string) (t : dthread) : Prop :=
  match t with TDel id | TSrem id => id = g | TClean stale _ => g ∈ stale | _ => False end.
Definition key_live (s : Discovery) (g : string) : Prop := MGet1 s g ≠ None.
Definition is_member (s : Discovery) (g : string) : Prop := ∃ m, SMembers s = Some m ∧ g ∈ m.

(** Registered at a moment when nobody is about to remove it, and since then neither
    deregistered nor without a live key. *)
Inductive alive_since (now : Z) (g : string) : list dlabel → Discovery → Prop :=
  | al_join tr s s' :
      drun now tr s → dstep s (DJoined g) s' → key_live s' g → Forall (λ t, ¬ removes g t) (ds_threads s') →
      alive_since now g (tr ++ [DJoined g]) s'
  | al_step tr s l s' :
      alive_since now g tr s → dstep s l s' → key_live s' g → (∀ reg, l ≠ DDeregister reg g) → alive_since now g (tr ++ [l]) s'.

Lemma alive_run now g tr s : alive_since now g tr s → drun now tr s.
Proof. induction 1; by eapply dr_snoc. Qed.

Lemma alive_threads s l s' g :
  key_live s g → (∀ reg, l ≠ DDeregister reg g) → Forall (λ t, ¬ removes g t) (ds_threads s) → dstep s l s' →
  Forall (λ t, ¬ removes g t) (ds_threads s').
Proof.
  intros Hlive Hl Hf Hs. destruct Hs; cbn; try done.
  all: try (apply Forall_app; split; [done|]; constructor; [by intros []|constructor]).
  { apply Forall_app. split; [done|]. constructor; [|constructor]. cbn. intros ->. by apply (Hl reg). }
  all: match goal with H : ds_threads _ = _ |- _ => rewrite H in Hf end; apply Forall_app in Hf as [Hf1 [Hf2 Hf3]%Forall_cons_1].
  all: apply Forall_app; split; [done|]; try done; constructor; try done; try (by intros []); cbn in *.
  - destruct ids; cbn; [by intros []%not_elem_of_nil|done].
  - rewrite list_elem_of_filter. intros [? _]. by apply Hlive.
  - intros Hin. apply Hf2. by right.
  - intros Hin. apply Hf2. by right.
  - by destruct healthy.
Qed.

Lemma member_view s g : is_member s g ↔ ∃ m t, view s activeSetKey = Some (RSet m, t) ∧ g ∈ m.
Proof.
  unfold is_member, SMembers, view. split.
  - intros (m & Hm & Hg). destruct (rd_entry _ _ _) as [[[data|m'] t]|]; simplify_eq; [by exists m, t|set_solver].
  - intros (m & t & -> & Hg). by exists m.
Qed.

Lemma alive_is_member now g tr s :
  0 < ttl → Forall proper_label tr → alive_since now g tr s → is_member s g ∧ key_live s g ∧ Forall (λ t, ¬ removes g t) (ds_threads s).
Proof.
  intros Httl Hp Hal. revert Hp. induction Hal as [tr s s' Hrun Hs Hlive Hthr|tr s l s' Hal IH Hs Hlive Hl];
    intros [Hp [Hpl _]%Forall_cons_1]%Forall_app; pose proof (drun_inv now tr s Httl Hp) as Hinv.
  - specialize (Hinv Hrun). split_and!; [|done|done]. apply member_view. inversion Hs; subst. unfold view. cbn. rewrite entry_sadd, decide_True by done.
    destruct (di_set _ _ Hinv) as [Hv|[m Hv]]; unfold view in Hv; rewrite Hv; cbn; do 2 eexists; (split; [reflexivity|set_solver]).
  - destruct (IH Hp) as (Hm & Hlive0 & Hthr). specialize (Hinv (alive_run _ _ _ _ Hal)). split_and!; [|done|by eapply alive_threads].
    apply member_view. apply member_view in Hm as (m & t & Hv & Hg). destruct (di_set _ _ Hinv) as [?|[m' Hv']]; [congruence|].
    rewrite Hv in Hv'. injection Hv' as <- ->.
    destruct (dstep_effect s l s' Httl Hs) as [He _|d _ _ He|info data _ _ Ht _ He|id _ He|id Ht _ He|id Ht _ He]; rewrite He, ?Hv.
    + by exists m, None.
    + by exists m, None.
    + rewrite decide_False; [by exists m, None|]. intros Hk. symmetry in Hk. apply keyFor_active in Hk; [done|].
      destruct Ht as [Ht|[hb Ht]]; exact (proj1 (Forall_forall _ _) (di_threads _ _ Hinv) _ Ht).
    + rewrite decide_True by done. exists ({[id]} ∪ m), None. split; [done|set_solver].
    + rewrite decide_True by done. assert (id ≠ g).
      { intros ->. destruct Ht as [Ht|(stale & gs & Ht)]; apply (proj1 (Forall_forall _ _) Hthr _ Ht); cbn; [done|by left]. }
      exists (m ∖ {[id]}), None. cbn. rewrite decide_False by set_solver. split; [done|set_solver].
    + rewrite decide_False; [by exists m, None|]. intros Hk. symmetry in Hk. apply keyFor_active in Hk; [done|].
      exact (proj1 (Forall_forall _ _) (di_threads _ _ Hinv) _ Ht).
Qed.

(** What a live key of a run holds. *)
Lemma key_written tr s id data :
  dinv tr s → MGet1 s id = Some data →
  ∃ info t, marshal info = Some data ∧ gi_ID info = id ∧ DWritten t info ∈ tr ∧ t ≤ ds_now s < t + ttl.
Proof.
  intros Hinv. unfold MGet1. destruct (decide (id = "active")) as [->|Hid].
  { change (keyFor "active") with activeSetKey. by destruct (di_set _ _ Hinv) as [Hv|[m Hv]]; unfold view in Hv; rewrite Hv. }
  destruct (rd_entry _ _ _) as [e|] eqn:He; [|done]. destruct (di_keys _ _ Hinv id e Hid He) as (info & t & data' & -> & ? & ? & ? & ?).
  intros [= <-]. by exists info, t.
Qed.

(** C13: A listing shows the gateways that are alive. In every interleaving of the
    commands of any number of processes, a gateway that a listing fetches was written,
    by its registration or a heartbeat, less than the time to live ago; and a gateway
    that registered when nobody was removing it, and has not deregistered or let its key
    expire since, is in what SMEMBERS answers, is among the gateways fetched when its
    name is asked for, and is found by [Get]. *)
Theorem discovery_lists_live_gateways now tr s :
  0 < ttl → drun now tr s → Forall proper_label tr →
  (∀ t info data, DWritten t info ∈ tr → marshal info = Some data → unmarshal data = Some info) →
  (∀ ids gateways s', dstep s (DFetched ids gateways) s' →
     Forall (λ info, gi_ID info ∈ ids ∧ ∃ t, DWritten t info ∈ tr ∧ t ≤ ds_now s < t + ttl) gateways) ∧
  (∀ g, alive_since now g tr s →
     (∀ ids s', dstep s (DMembers ids) s' → g ∈ ids) ∧
     (∀ ids gateways s', dstep s (DFetched ids gateways) s' → g ∈ ids → ∃ info, gi_ID info = g ∧ info ∈ gateways) ∧
     ∃ info, Registry_Get s g = Ok (Some info) ∧ gi_ID info = g).
Proof.
  intros Httl Hrun Hp Hjson. pose proof (drun_inv now tr s Httl Hp Hrun) as Hinv. split.
  - intros ids gateways s' Hs. inversion Hs; subst. apply Forall_forall. intros info. cbn. rewrite list_elem_of_omap.
    intros (id & Hid & (data & Hd & Hu)%bind_Some). destruct (key_written tr s id data Hinv Hd) as (info' & t & Hm & <- & Hin & Ht).
    rewrite (Hjson t info' data Hin Hm) in Hu. injection Hu as <-. split; [done|]. by exists t.
  - intros g Hal. destruct (alive_is_member now g tr s Httl Hp Hal) as (Hmem & Hlive & _).
    destruct (MGet1 s g) as [data|] eqn:Hd; [|done]. destruct (key_written tr s g data Hinv Hd) as (info & t & Hm & Hid & Hin & Ht).
    pose proof (Hjson t info data Hin Hm) as Hu. split_and!.
    + intros ids s' Hs. destruct Hmem as (m & HM & Hg). inversion Hs; subst. match goal with H : ids ≡ₚ _ |- _ => rewrite H end.
      apply elem_of_elements. congruence.
    + intros ids gateways s' Hs Hg. exists info. split; [done|]. inversion Hs; subst. cbn. apply list_elem_of_omap. exists (gi_ID info).
      split; [done|]. by rewrite Hd.
    + exists info. split; [|done]. unfold MGet1 in Hd. unfold Registry_Get. destruct (rd_entry _ _ _) as [[[data'|?] ?]|]; simplify_eq. by rewrite Hu.
Qed.
End discovery.

(** ** A keyspace *)

#[local] Abbreviation keyspace := (list (string * (rvalue * option Z))).

Fixpoint ks_entry (d : keyspace) (k : string) : option (rvalue * option Z) :=
  match d with [] => None | (k', e) :: d => if decide (k = k') then Some e else ks_entry d k end.
Definition ks_put (d : keyspace) (k : string) (e : option (rvalue * option Z)) : keyspace :=
  match e with Some e => [(k, e)] | None => [] end ++ filter (λ p, p.1 ≠ k) d.

Lemma ks_entry_put d k e k' : ks_entry (ks_put d k e) k' = if decide (k' = k) then e else ks_entry d k'.
Proof.
  assert (Hf : ks_entry (filter (λ p, p.1 ≠ k) d) k' = if decide (k' = k) then None else ks_entry d k').
  { induction d as [|[k0 e0] d IH]; [by case_decide|]. rewrite filter_cons. cbn [fst ks_entry].
    repeat case_decide; subst; cbn [ks_entry]; rewrite ?IH; repeat case_decide; naive_solver. }
  unfold ks_put. destruct e as [e|]; cbn [app ks_entry]; rewrite Hf; by repeat case_decide.
Qed.

#[export] Instance keyspace_Redis : Redis keyspace := {
  rd_entry d now k := unexpired now (ks_entry d k);
  rd_Set d now k v ttl := ks_put d k (Some (RStr v, Some (now + ttl)));
  rd_SAdd d now k m := ks_put d k (sadd_entry (unexpired now (ks_entry d k)) m);
  rd_SRem d now k m := ks_put d k (srem_entry (unexpired now (ks_entry d k)) m);
  rd_Del d now k := ks_put d k None;
}.

(** What a command leaves of an unexpired entry is unexpired. *)
Lemma unexpired_later now now' e : now ≤ now' → unexpired now' (unexpired now e) = unexpired now' e.
Proof. intros H. destruct e as [[v [t|]]|]; [|done|done]. cbn. destruct (Z.ltb_spec now t); [done|]. by rewrite (proj2 (Z.ltb_ge _ _)) by lia. Qed.
Lemma unexpired_sadd now e m : unexpired now (sadd_entry (unexpired now e) m) = sadd_entry (unexpired now e) m.
Proof. destruct e as [[[d|s] [t|]]|]; cbn; try done; destruct (now <? t) eqn:Ht; cbn; by rewrite ?Ht. Qed.
Lemma unexpired_srem now e m : unexpired now (srem_entry (unexpired now e) m) = srem_entry (unexpired now e) m.
Proof.
  destruct e as [[[d|s] [t|]]|]; cbn; try done; [destruct (now <? t) eqn:Ht; cbn; by rewrite ?Ht| |by case_decide].
  destruct (now <? t) eqn:Ht; [|done]. cbn. case_decide; [done|]. cbn. by rewrite Ht.
Qed.

#[export] Instance keyspace_RedisLaws : RedisLaws keyspace.
Proof.
  refine (Build_RedisLaws keyspace _ [] _ _ _ _ _ _).
  - done.
  - intros d now now' k Hn. cbn. by rewrite unexpired_later.
  - intros d now k v ttl k' Httl. cbn [rd_entry rd_Set keyspace_Redis]. rewrite ks_entry_put. case_decide; [|done]. cbn.
    by rewrite (proj2 (Z.ltb_lt _ _)) by lia.
  - intros d now k m k'. cbn [rd_entry rd_SAdd keyspace_Redis]. rewrite ks_entry_put. case_decide; [apply unexpired_sadd|done].
  - intros d now k m k'. cbn [rd_entry rd_SRem keyspace_Redis]. rewrite ks_entry_put. case_decide; [apply unexpired_srem|done].
  - intros d now k k'. cbn [rd_entry rd_Del keyspace_Redis]. rewrite ks_entry_put. by case_decide.
Defined.

(** ** Runs *)

Definition gw1 : GatewayInfo := mkInfo "gw1" "10.0.0.1" 8080 "healthy" 0 0.
Definition json1 (info : GatewayInfo) : option string := Some (gi_ID info).
Definition unjson1 (data : string) : option GatewayInfo := Some (mkInfo data "10.0.0.1" 8080 "healthy" 0 0).
#[local] Abbreviation drun1 := (drun (D := keyspace) json1 unjson1 defaultTTL 0).

(** Runs are built step by step, with their states in normal form. *)
Ltac d_norm H :=
  match type of H with drun _ _ _ _ ?tr ?s =>
    let tr' := eval vm_compute in tr in let s' := eval vm_compute in s in
    replace tr with tr' in H by (vm_compute; reflexivity); replace s with s' in H by (vm_compute; reflexivity)
  end.
Tactic Notation "d_then" hyp(H) uconstr(c) := eapply dr_snoc in H; [|eapply c; first [reflexivity | done | lia]]; d_norm H.

(** One gateway registers, and a listing begins. *)
Definition registration : list dlabel := [DRegister gw1; DWritten 0 gw1].
Definition listing : list dlabel := (registration ++ [DJoined "gw1"]) ++ [DList].

Lemma registration_run : ∃ s, drun1 registration s ∧ ds_threads s = [TSadd "gw1"] ∧ MGet1 s "gw1" = Some "gw1" ∧ ds_now s = 0.
Proof.
  pose proof (dr_nil (D := keyspace) json1 unjson1 defaultTTL 0) as Hr. d_then Hr (ds_register _ _ _ _ gw1).
  d_then Hr (ds_set _ _ _ _ [] []). eexists. split; [exact Hr|]. by vm_compute.
Qed.

Lemma listing_alive : ∃ s, alive_since json1 unjson1 defaultTTL 0 "gw1" listing s ∧ ds_threads s = [TMembers].
Proof.
  destruct registration_run as (s & Hrun & Hthr & Hget & Hnow). eexists. split.
  - eapply al_step; [eapply al_join; [exact Hrun|apply (ds_sadd _ _ _ _ [] []); exact Hthr| |constructor]|apply ds_list| |done].
    + unfold key_live. by rewrite MGet1_sadd, Hget.
    + unfold key_live. change (MGet1 (ds_with s (rd_SAdd (ds_redis s) (ds_now s) activeSetKey "gw1") ([] ++ [])) "gw1" ≠ None). by rewrite MGet1_sadd, Hget.
  - reflexivity.
Qed.

Lemma discovery_lists_live_gateways_witness :
  ∃ s, drun1 listing s ∧ (∀ ids s', dstep json1 unjson1 defaultTTL s (DMembers ids) s' → "gw1" ∈ ids) ∧ Registry_Get unjson1 s "gw1" = Ok (Some gw1).
Proof.
  destruct listing_alive as (s & Hal & _). pose proof (alive_run _ _ _ _ _ _ _ Hal) as Hrun. exists s. split; [exact Hrun|].
  destruct (discovery_lists_live_gateways json1 unjson1 defaultTTL 0 listing s) as [_ H].
  - reflexivity.
  - exact Hrun.
  - repeat constructor; discriminate.
  - intros t info data Hin [= <-]. unfold listing, registration in Hin.
    apply elem_of_app in Hin as [[Hin|Hin]%elem_of_app|Hin]; repeat (apply elem_of_cons in Hin as [[=]|Hin]; subst; try reflexivity); by apply not_elem_of_nil in Hin.
  - destruct (H "gw1" Hal) as (H1 & _ & info & H3 & H4). split; [exact H1|]. rewrite H3. unfold Registry_Get, unjson1 in H3.
    repeat case_match; simplify_eq. cbn in H4. by rewrite H4.
Defined.

(** ** What goes wrong *)

Definition deregisters (l : dlabel) : bool := match l with DDeregister _ _ => true | _ => false end.

(** A gateway misses its heartbeats, a listing drops its name, and then it beats again:
    its key lives, but no listing shows it, since a heartbeat does not add the name. *)
Lemma revived_gateway_is_not_listed :
  ∃ tr s, drun1 tr s ∧ existsb deregisters tr = false ∧ ds_threads s = [HBWait 0 (with_heartbeat gw1 (30 * Second))] ∧
    Registry_Get unjson1 s "gw1" = Ok (Some gw1) ∧ SMembers s = Some ∅.
Proof.
  pose proof (dr_nil (D := keyspace) json1 unjson1 defaultTTL 0) as Hr. d_then Hr (ds_register _ _ _ _ gw1).
  d_then Hr (ds_set _ _ _ _ [] []). d_then Hr (ds_sadd _ _ _ _ [] []). d_then Hr (ds_start _ _ _ _ 0%nat gw1). d_then Hr (ds_tick _ _ _ _ (30 * Second)).
  d_then Hr ds_list. eapply dr_snoc in Hr; [|eapply (ds_members _ _ _ _ [HBWait 0 gw1] [] {["gw1"]} ["gw1"]); [reflexivity|vm_compute; reflexivity|by vm_compute]]; d_norm Hr.
  d_then Hr (ds_mget _ _ _ _ [HBWait 0 gw1] []). d_then Hr (ds_clean _ _ _ _ [HBWait 0 gw1] [] "gw1" [] []).
  d_then Hr (ds_listed _ _ _ _ [HBWait 0 gw1] [] []). d_then Hr (ds_hb_tick _ _ _ _ [] [] 0%nat gw1 true (30 * Second)).
  d_then Hr (ds_hb_set _ _ _ _ [] []). do 2 eexists. split; [exact Hr|]. split_and!; vm_compute; reflexivity.
Qed.

(** A listing that found the key gone removes the name also when the gateway has
    registered again in between. *)
Lemma stale_listing_removes_registered :
  ∃ tr s, drun1 tr s ∧ existsb deregisters tr = false ∧ Registry_Get unjson1 s "gw1" = Ok (Some gw1) ∧ SMembers s = Some ∅ ∧ ds_threads s = [TClean [] []].
Proof.
  pose proof (dr_nil (D := keyspace) json1 unjson1 defaultTTL 0) as Hr. d_then Hr (ds_register _ _ _ _ gw1).
  d_then Hr (ds_set _ _ _ _ [] []). d_then Hr (ds_sadd _ _ _ _ [] []). d_then Hr (ds_tick _ _ _ _ (30 * Second)).
  d_then Hr ds_list. eapply dr_snoc in Hr; [|eapply (ds_members _ _ _ _ [] [] {["gw1"]} ["gw1"]); [reflexivity|vm_compute; reflexivity|by vm_compute]]; d_norm Hr.
  d_then Hr (ds_mget _ _ _ _ [] []). d_then Hr (ds_register _ _ _ _ gw1). d_then Hr (ds_set _ _ _ _ [TClean ["gw1"] []] [] gw1 "gw1").
  d_then Hr (ds_sadd _ _ _ _ [TClean ["gw1"] []] []). d_then Hr (ds_clean _ _ _ _ [] [] "gw1" [] []).
  do 2 eexists. split; [exact Hr|]. split_and!; vm_compute; reflexivity.
Qed.

(** [Count] counts names whose keys have expired. *)
Lemma count_counts_expired :
  ∃ tr s, drun1 tr s ∧ Registry_Count s = Ok 1 ∧ Registry_Get unjson1 s "gw1" = Ok None.
Proof.
  pose proof (dr_nil (D := keyspace) json1 unjson1 defaultTTL 0) as Hr. d_then Hr (ds_register _ _ _ _ gw1).
  d_then Hr (ds_set _ _ _ _ [] []). d_then Hr (ds_sadd _ _ _ _ [] []). d_then Hr (ds_tick _ _ _ _ (30 * Second)).
  do 2 eexists. split; [exact Hr|]. split_and!; vm_compute; reflexivity.
Qed.

(** A heartbeat that is under way when its gateway deregisters writes the key again. *)
Lemma late_heartbeat_revives :
  ∃ tr s, drun1 tr s ∧ existsb deregisters tr = true ∧ ds_threads s = [HBWait 0 gw1] ∧ ds_stopped s = {[0%nat]} ∧
    Registry_Get unjson1 s "gw1" = Ok (Some gw1).
Proof.
  pose proof (dr_nil (D := keyspace) json1 unjson1 defaultTTL 0) as Hr. d_then Hr (ds_register _ _ _ _ gw1).
  d_then Hr (ds_set _ _ _ _ [] []). d_then Hr (ds_sadd _ _ _ _ [] []). d_then Hr (ds_start _ _ _ _ 0%nat gw1).
  d_then Hr (ds_hb_tick _ _ _ _ [] [] 0%nat gw1 true 0). d_then Hr (ds_deregister _ _ _ _ 0%nat "gw1"). d_then Hr (ds_del _ _ _ _ [HBSet 0 gw1] []).
  d_then Hr (ds_srem _ _ _ _ [HBSet 0 gw1] []). d_then Hr (ds_hb_set _ _ _ _ [] []).
  do 2 eexists. split; [exact Hr|]. split_and!; vm_compute; reflexivity.
Qed.
