(* ===== verification/Normalization.v ===== *)
(** * Normalization: from an exchange's message to a quote

    [internal/normalization], the mappers of [internal/adapters] and the raw message of
    [pkg/marketdata/raw.go]: a message is mapped by its adapter, its symbol brought to
    canonical form, and the quote checked by rules. Upper case beyond ASCII
    ([unicode.ToUpper]) and the conversion of a float that no int64 holds, which Go
    leaves to the implementation, are parameters. *)

From Stdlib Require Import Strings.Ascii Floats.SpecFloat.
From S2P Require Import Prelude Bytes WalCodec WalIndex WalSegment WalLog WalManager Sequencer Float64 MarketEvent Bus Pipeline.

(** ** Raw messages *)

(** The ticks of the equity feeds, which differ in the names of their fields, and of the
    crypto feed. *)
Record RawTick := mkTick { rt_Sym : string; rt_Prc : float64; rt_Vol : Z; rt_Time : Z }.
Record CryptoTick := mkCryptoTick { ct_Pair : string; ct_Amount : float64; ct_Qty : float64; ct_TS : Z }.

Inductive raw_payload :=
  | PNasdaq (t : RawTick)
  | PNyse (t : RawTick)
  | PCrypto (t : CryptoTick)
  | PQuote (q : Quote)
  | POther.

Record RawMessage := mkRaw { rm_Provider : string; rm_Payload : raw_payload; rm_ReceivedAt : Z }.

Definition QuoteTypeTrade : string := "trade".
Definition UnixMilli (ms : Z) : Z := ms * 1000000.
Definition UnixMicro (us : Z) : Z := us * 1000.

(** The float64 nearest to 0.05. *)
Definition f64_0_05 : float64 := f64_lit 7205759403792794 (-57).

(** The integer part of a float, when an int64 holds it. *)
Definition f64_trunc (x : float64) : option Z :=
  match x with
  | S754_zero _ => Some 0
  | S754_finite sign m e =>
      let z := (if sign then -1 else 1) * Z.shiftl (Zpos m) e in
      let z := if e <? 0 then Z.sgn z * Z.shiftr (Zpos m) (- e) else z in
      if (- 2 ^ 63 <=? z) && (z <? 2 ^ 63) then Some z else None
  | _ => None
  end.

Section normalization.
Context (unicode_upper : string → string) (conv_other : float64 → Z).

Definition int64_of (x : float64) : Z := match f64_trunc x with Some z => z | None => conv_other x end.

(** ** Mappers *)

Definition nasdaq_Map (raw : RawMessage) : result Quote string :=
  match rm_Payload raw with
  | PNasdaq t =>
      Ok (mkQuote (rt_Sym t) QuoteTypeTrade 0 (rt_Prc t) (f64_sub (rt_Prc t) f64_0_05) (f64_add (rt_Prc t) f64_0_05) (rt_Vol t)
            (UnixMilli (rt_Time t)) (rm_Provider raw))
  | _ => Err "expected nasdaq.RawTick"
  end.

Definition nyse_Map (raw : RawMessage) : result Quote string :=
  match rm_Payload raw with
  | PNyse t => Ok (mkQuote (rt_Sym t) QuoteTypeTrade 0 (rt_Prc t) f64_zero f64_zero (rt_Vol t) (UnixMilli (rt_Time t)) (rm_Provider raw))
  | _ => Err "expected nyse.RawTick"
  end.

Definition crypto_Map (raw : RawMessage) : result Quote string :=
  match rm_Payload raw with
  | PCrypto t =>
      Ok (mkQuote (ct_Pair t) QuoteTypeTrade 0 (ct_Amount t) f64_zero f64_zero (int64_of (f64_mul (ct_Qty t) (f64_of_Z 1000000)))
            (UnixMicro (ct_TS t)) (rm_Provider raw))
  | _ => Err "expected crypto.RawTick"
  end.

Definition simulator_Map (raw : RawMessage) : result Quote string :=
  match rm_Payload raw with
  | PQuote q =>
      Ok (mkQuote (q_Symbol q) (q_Type q) (q_Seq q) (q_Price q) (q_Bid q) (q_Ask q) (q_Volume q) (q_Timestamp q) (rm_Provider raw))
  | _ => Err "expected marketdata.Quote"
  end.

(** ** Symbols *)

Definition is_lower (a : ascii) : bool := (97 <=? Z.of_N (Ascii.N_of_ascii a)) && (Z.of_N (Ascii.N_of_ascii a) <=? 122).
Definition is_slash (a : ascii) : bool := Ascii.eqb a "/".
Definition is_ascii (a : ascii) : bool := Z.of_N (Ascii.N_of_ascii a) <? 128.
Definition upper1 (a : ascii) : ascii := if is_lower a then Ascii.ascii_of_N (Ascii.N_of_ascii a - 32) else a.
Definition unslash1 (a : ascii) : ascii := if is_slash a then "-"%char else a.

Fixpoint string_map (f : ascii → ascii) (s : string) : string :=
  match s with "" => "" | String a s => String (f a) (string_map f s) end.
Fixpoint string_any (f : ascii → bool) (s : string) : bool :=
  match s with "" => false | String a s => f a || string_any f s end.

(** [strings.ToUpper] and [strings.ReplaceAll(s, "/", "-")]. *)
Definition ToUpper (s : string) : string :=
  if negb (string_any (λ a, negb (is_ascii a)) s) then string_map upper1 s else unicode_upper s.
Definition unslash (s : string) : string := string_map unslash1 s.

(** The symbol in canonical form, with the fast path. *)
Definition canonical (s : string) : string :=
  if string_any is_lower s || string_any is_slash s then unslash (ToUpper s) else s.

(** ** Rules *)

Inductive rule_error := MissingSymbol | MissingType | InvalidPrice (p : float64) | InvalidVolume (v : Z) | MissingTimestamp.

Definition Rule : Type := Quote → option rule_error.
Definition RequireSymbol : Rule := λ q, if String.eqb (q_Symbol q) "" then Some MissingSymbol else None.
Definition RequireQuoteType : Rule := λ q, if String.eqb (q_Type q) "" then Some MissingType else None.
Definition RequirePositivePrice : Rule := λ q, if f64_leb (q_Price q) f64_zero then Some (InvalidPrice (q_Price q)) else None.
Definition RequireValidVolume : Rule :=
  λ q, if String.eqb (q_Type q) QuoteTypeTrade && (q_Volume q <=? 0) then Some (InvalidVolume (q_Volume q)) else None.
Definition RequireTimestamp : Rule := λ q, if q_Timestamp q =? zero_time then Some MissingTimestamp else None.

Definition RuleEngine : Type := list Rule.
Definition NewDefaultValidator : RuleEngine := [RequireSymbol; RequireQuoteType; RequirePositivePrice; RequireValidVolume; RequireTimestamp].

Fixpoint Validate (e : RuleEngine) (q : Quote) : option rule_error :=
  match e with
  | [] => None
  | rule :: e => match rule q with Some err => Some err | None => Validate e q end
  end.

(** ** The pipeline *)

Inductive normalize_error := MappingError (e : string) | ValidationError (e : rule_error).

Definition with_symbol (q : Quote) (symbol : string) : Quote :=
  mkQuote symbol (q_Type q) (q_Seq q) (q_Price q) (q_Bid q) (q_Ask q) (q_Volume q) (q_Timestamp q) (q_Provider q).

Definition Normalize (mapper : RawMessage → result Quote string) (validator : option RuleEngine) (raw : RawMessage)
    : result Quote normalize_error :=
  match mapper raw with
  | Err e => Err (MappingError e)
  | Ok quote =>
      let quote := with_symbol quote (canonical (q_Symbol quote)) in
      match validator with
      | None => Ok quote
      | Some v => match Validate v quote with Some e => Err (ValidationError e) | None => Ok quote end
      end
  end.

(** ** What the rules and the canonical form mean *)

Record valid_quote (q : Quote) : Prop := {
  vq_symbol : q_Symbol q ≠ "";
  vq_type : q_Type q ≠ "";
  vq_price : f64_leb (q_Price q) f64_zero = false;
  vq_volume : q_Type q = QuoteTypeTrade → 0 < q_Volume q;
  vq_time : q_Timestamp q ≠ zero_time;
}.

Lemma Validate_default q : Validate NewDefaultValidator q = None ↔ valid_quote q.
Proof.
  unfold NewDefaultValidator, RequireSymbol, RequireQuoteType, RequirePositivePrice, RequireValidVolume, RequireTimestamp. cbn [Validate].
  destruct (String.eqb_spec (q_Symbol q) ""); [by split; [|intros []]|]. destruct (String.eqb_spec (q_Type q) ""); [by split; [|intros []]|].
  destruct (f64_leb (q_Price q) f64_zero) eqn:Hp; [split; [done|intros []; congruence]|].
  destruct (String.eqb_spec (q_Type q) QuoteTypeTrade) as [Ht|Ht], (Z.leb_spec (q_Volume q) 0) as [Hv|Hv]; cbn [andb].
  1: { split; [done|]. intros [_ _ _ H _]. specialize (H Ht). lia. }
  all: destruct (Z.eqb_spec (q_Timestamp q) zero_time); split; try done; try (by intros []); intros _; by split.
Qed.

(** An error is that of the first rule broken. *)
Lemma Validate_first e q err :
  Validate e q = Some err → ∃ pre rule post, e = pre ++ rule :: post ∧ Forall (λ r, r q = None) pre ∧ rule q = Some err.
Proof.
  induction e as [|rule e IH]; [done|]. cbn [Validate]. destruct (rule q) as [err'|] eqn:Hr.
  - intros [= <-]. by exists [], rule, e.
  - intros (pre & rule' & post & -> & Hpre & Hrule)%IH. exists (rule :: pre), rule', post. split_and!; [done|by constructor|done].
Qed.

(** A character that no canonical symbol has. *)
Definition foreign (a : ascii) : bool := is_lower a || is_slash a.

Lemma string_any_or f g s : string_any (λ a, f a || g a) s = string_any f s || string_any g s.
Proof. induction s as [|a s IH]; [done|]. cbn. rewrite IH. destruct (f a), (g a), (string_any f s), (string_any g s); done. Qed.

Lemma string_any_map f g s : string_any f (string_map g s) = string_any (λ a, f (g a)) s.
Proof. induction s as [|a s IH]; [done|]. cbn. by rewrite IH. Qed.
Lemma string_any_none f s : (∀ a, f a = false) → string_any f s = false.
Proof. intros Hf. induction s as [|a s IH]; [done|]. cbn. by rewrite Hf. Qed.
Lemma string_map_map f g s : string_map f (string_map g s) = string_map (λ a, f (g a)) s.
Proof. induction s as [|a s IH]; [done|]. cbn. by rewrite IH. Qed.
Lemma string_map_id f s : string_any foreign s = false → (∀ a, foreign a = false → f a = a) → string_map f s = s.
Proof.
  intros Hs Hf. induction s as [|a s IH]; [done|]. cbn in *. apply orb_false_iff in Hs as [Ha Hs]. rewrite Hf, IH by done. done.
Qed.

(** Every character, checked one by one. *)
Lemma upper1_native a : foreign (unslash1 (upper1 a)) = false.
Proof. destruct a as [[] [] [] [] [] [] [] []]; reflexivity. Qed.
Lemma native_kept a : foreign a = false → unslash1 (upper1 a) = a.
Proof. destruct a as [[] [] [] [] [] [] [] []]; intros H; first [reflexivity | discriminate H]. Qed.

Definition ascii_symbol (s : string) : Prop := string_any (λ a, negb (is_ascii a)) s = false.

(** The fast path is the slow path. *)
Lemma canonical_reference s : ascii_symbol s → canonical s = unslash (ToUpper s).
Proof.
  intros Hs. unfold canonical. destruct (_ || _) eqn:Hf; [done|]. rewrite <- string_any_or in Hf. change (string_any foreign s = false) in Hf.
  unfold unslash, ToUpper. rewrite Hs. cbn [negb]. rewrite string_map_map. symmetry. apply string_map_id; [done|]. apply native_kept.
Qed.

Lemma canonical_native s : ascii_symbol s → string_any foreign (canonical s) = false.
Proof.
  intros Hs. rewrite canonical_reference by done. unfold unslash, ToUpper. rewrite Hs. cbn [negb]. rewrite string_map_map, string_any_map.
  apply string_any_none, upper1_native.
Qed.

Lemma canonical_again s : string_any foreign s = false → canonical s = s.
Proof. intros Hs. unfold canonical. rewrite <- string_any_or. change (string_any (λ a, is_lower a || is_slash a) s) with (string_any foreign s). by rewrite Hs. Qed.

Lemma Normalize_valid mapper raw q' : Normalize mapper (Some NewDefaultValidator) raw = Ok q' → valid_quote q'.
Proof.
  unfold Normalize. destruct (mapper raw); [|done]. destruct (Validate _ _) eqn:Hv; [done|]. intros [= <-]. by apply Validate_default.
Qed.

End normalization.

(** ** What goes wrong *)

(** A price that is not a number is not below or equal to zero, and is accepted. *)
Lemma nan_price_accepted upper :
  ∃ q, Normalize upper (nasdaq_Map) (Some NewDefaultValidator) (mkRaw "nasdaq" (PNasdaq (mkTick "AAPL" S754_nan 100 1)) 0) = Ok q ∧ q_Price q = S754_nan.
Proof. eexists. split; [reflexivity|]. done. Qed.

(** The letter with the UTF-8 bytes C3 A9 keeps its case alone, but not before a lower
    case ASCII letter: the fast path looks at ASCII letters only. *)
Lemma fast_path_misses_unicode upper :
  let e := String (ascii_of_N 195) (String (ascii_of_N 169) "") in
  canonical upper e = e ∧ canonical upper (e +:+ "a") = unslash (upper (e +:+ "a")).
Proof. done. Qed.
