(* ===== verification/Exchange.v ===== *)
(** * Exchange: adapters, and the manager that merges their feeds

    [internal/exchange] and the adapters of [internal/adapters]: factories by name, the
    manager that builds the enabled adapters, starts them, normalizes what they deliver
    and merges it into one channel. An adapter is an instance of the class of its
    interface; what connecting and starting come to is an argument. After the start, the
    goroutines of the adapters, the consumer and the one that closes the merged channel
    interleave: a step is what one of them does between two meetings at a channel. *)

From S2P Require Import Prelude Bytes WalCodec WalIndex WalSegment WalLog WalManager Sequencer Float64 MarketEvent Bus Pipeline Normalization.

(** The custom settings of a configuration, which only the simulator's factory reads,
    are left out. *)
Record AdapterConfig := mkAdapterConfig {
  ac_Name : string;
  ac_Enabled : bool;
  ac_Endpoint : string;
  ac_Symbols : list string;
  ac_ReconnectDelay : Z;
}.

(** The interface of an adapter: an error is [Some] text. *)
Class ExchangeAdapter (A : Type) := {
  ea_Name : A → string;
  ea_Subscribe : A → list string → A * option string;
  ea_Unsubscribe : A → list string → A * option string;
  ea_Mapper : A → RawMessage → result Quote string;
}.

(** ** The mock adapters *)

Inductive mock_kind := Nasdaq | Nyse | Crypto.
Record Adapter := mkAdapter { ad_kind : mock_kind; ad_symbols : list string }.

Definition mock_name (k : mock_kind) : string := match k with Nasdaq => "nasdaq" | Nyse => "nyse" | Crypto => "crypto" end.
Definition mock_no_unsubscribe (k : mock_kind) : string :=
  match k with
  | Nasdaq => "unsubscribe not implemented in mock"
  | Nyse => "unsubscribe not implemented in nyse mock"
  | Crypto => "unsubscribe not implemented in crypto mock"
  end.

(** One message of a tick of [Run], at a price that the adapter draws. *)
Definition mock_message (k : mock_kind) (sym : string) (price : float64) (now_ms now_us : Z) : RawMessage :=
  mkRaw (mock_name k)
    (match k with
     | Nasdaq => PNasdaq (mkTick sym price 100 now_ms)
     | Nyse => PNyse (mkTick sym price 50 now_ms)
     | Crypto => PCrypto (mkCryptoTick sym price (f64_lit 1 (-1)) now_us)
     end) (UnixMicro now_us).

Definition mock_Map (conv_other : float64 → Z) (k : mock_kind) : RawMessage → result Quote string :=
  match k with Nasdaq => nasdaq_Map | Nyse => nyse_Map | Crypto => crypto_Map conv_other end.

#[export] Instance mock_adapter (conv_other : float64 → Z) : ExchangeAdapter Adapter := {
  ea_Name a := mock_name (ad_kind a);
  ea_Subscribe a symbols := (mkAdapter (ad_kind a) (ad_symbols a ++ symbols), None);
  ea_Unsubscribe a symbols := (a, Some (mock_no_unsubscribe (ad_kind a)));
  ea_Mapper a := mock_Map conv_other (ad_kind a);
}.

Section manager.
Context {A : Type} `{!ExchangeAdapter A} (unicode_upper : string → string).

(** ** The registry of factories *)

Definition AdapterFactory : Type := AdapterConfig → result A string.
Definition factories : Type := gmap string AdapterFactory.

Definition Register_factory (fs : factories) (name : string) (factory : AdapterFactory) : outcome factories :=
  match fs !! name with Some _ => Panic | None => Ret (<[name := factory]> fs) end.
Definition GetFactory (fs : factories) (name : string) : result AdapterFactory string :=
  match fs !! name with Some f => Ok f | None => Err ("exchange: adapter " +:+ name +:+ " not found") end.

(** ** The manager *)

Definition mergedBuffer : nat := Z.to_nat 10000.
Definition rawBuffer : nat := 100.

Record ExchangeManager := mkExchangeManager { em_configs : list AdapterConfig; em_adapters : list A }.

(** The loop of [NewManager]. *)
Fixpoint build_adapters (fs : factories) (configs : list AdapterConfig) : result (list A) string :=
  match configs with
  | [] => Ok []
  | cfg :: configs =>
      if negb (ac_Enabled cfg) then build_adapters fs configs
      else
        match GetFactory fs (ac_Name cfg) with
        | Err e => Err ("failed to get factory for " +:+ ac_Name cfg +:+ ": " +:+ e)
        | Ok factory =>
            match factory cfg with
            | Err e => Err ("failed to create adapter " +:+ ac_Name cfg +:+ ": " +:+ e)
            | Ok adapter => match build_adapters fs configs with Ok l => Ok (adapter :: l) | Err e => Err e end
            end
        end
  end.
Definition NewExchangeManager (fs : factories) (configs : list AdapterConfig) : result ExchangeManager string :=
  match build_adapters fs configs with Ok l => Ok (mkExchangeManager configs l) | Err e => Err e end.

(** [Subscribe] and [Unsubscribe]: every adapter is called, the errors are joined. *)
Fixpoint each_adapter (call : A → A * option string) (adapters : list A) : list A * list string :=
  match adapters with
  | [] => ([], [])
  | a :: adapters =>
      let '(a', err) := call a in
      let '(l, errs) := each_adapter call adapters in
      (a' :: l, match err with Some e => ("adapter " +:+ ea_Name a +:+ ": " +:+ e) :: errs | None => errs end)
  end.
Definition Exchange_Subscribe (m : ExchangeManager) (symbols : list string) : ExchangeManager * list string :=
  let '(l, errs) := each_adapter (λ a, ea_Subscribe a symbols) (em_adapters m) in (mkExchangeManager (em_configs m) l, errs).
Definition Exchange_Unsubscribe (m : ExchangeManager) (symbols : list string) : ExchangeManager * list string :=
  let '(l, errs) := each_adapter (λ a, ea_Unsubscribe a symbols) (em_adapters m) in (mkExchangeManager (em_configs m) l, errs).

(** The loop of [Run]: adapter [i] with configuration [i]; [answers] says of each adapter
    whether it connects and whether it runs. The result says which ones stream. *)
Fixpoint start_adapters (configs : list AdapterConfig) (i : nat) (adapters : list A) (answers : list (bool * bool))
    : outcome (list (A * bool)) :=
  match adapters, answers with
  | a :: adapters, (connects, runs) :: answers =>
      match configs !! i with
      | None => Panic
      | Some cfg =>
          let started :=
            if negb connects then (a, false)
            else
              let '(a, err) := if (0 <? length (ac_Symbols cfg))%nat then ea_Subscribe a (ac_Symbols cfg) else (a, None) in
              match err with Some _ => (a, false) | None => (a, runs) end in
          match start_adapters configs (S i) adapters answers with Ret l => Ret (started :: l) | Panic => Panic end
      end
  | _, _ => Ret []
  end.
Definition Run_start (m : ExchangeManager) (answers : list (bool * bool)) : outcome (list (A * bool)) :=
  start_adapters (em_configs m) 0 (em_adapters m) answers.

(** ** Merging *)

Inductive merge_pc := MRead | MSend (q : Quote) | MDone.

(** The channel of an adapter that streams, whether the adapter has closed it, and its
    goroutine in the manager. *)
Record source := mkSource { so_raw : list RawMessage; so_closed : bool; so_pc : merge_pc }.

Record Merge := mkMerge { me_sources : list source; me_merged : list Quote; me_closed : bool; me_cancelled : bool }.

Definition NewMerge (n : nat) : Merge := mkMerge (replicate n (mkSource [] false MRead)) [] false false.

Definition set_source (m : Merge) (i : nat) (s : source) : Merge :=
  mkMerge (<[i := s]> (me_sources m)) (me_merged m) (me_closed m) (me_cancelled m).

Inductive merge_label :=
  | MRaw (i : nat) (raw : RawMessage)
  | MGot (i : nat) (raw : RawMessage)
  | MSent (i : nat) (q : Quote)
  | MTaken (q : Quote)
  | MEnd (i : nat)
  | MCancel
  | MTau.

(** The pipeline of an adapter: its mapper and the default rules; what it refuses is
    dropped. *)
Definition normalize_for (adapters : list A) (i : nat) (raw : RawMessage) : option Quote :=
  a ← adapters !! i;
  match Normalize unicode_upper (ea_Mapper a) (Some NewDefaultValidator) raw with Ok q => Some q | Err _ => None end.

Context (norm : nat → RawMessage → option Quote).

(** [None] is a send on the closed channel. *)
Inductive merge_step (m : Merge) : merge_label → option Merge → Prop :=
  | ms_raw i s raw :
      me_sources m !! i = Some s → so_closed s = false → (length (so_raw s) < rawBuffer)%nat →
      merge_step m (MRaw i raw) (Some (set_source m i (mkSource (so_raw s ++ [raw]) false (so_pc s))))
  | ms_end i s : me_sources m !! i = Some s → merge_step m (MEnd i) (Some (set_source m i (mkSource (so_raw s) true (so_pc s))))
  | ms_got i s raw raws :
      me_sources m !! i = Some s → so_pc s = MRead → so_raw s = raw :: raws →
      merge_step m (MGot i raw)
        (Some (set_source m i (mkSource raws (so_closed s) (match norm i raw with Some q => MSend q | None => MRead end))))
  | ms_over i s :
      me_sources m !! i = Some s → so_pc s = MRead → so_raw s = [] → so_closed s = true →
      merge_step m MTau (Some (set_source m i (mkSource [] true MDone)))
  | ms_sent i s q :
      me_sources m !! i = Some s → so_pc s = MSend q → (length (me_merged m) < mergedBuffer)%nat → me_closed m = false →
      merge_step m (MSent i q)
        (Some (mkMerge (<[i := mkSource (so_raw s) (so_closed s) MRead]> (me_sources m)) (me_merged m ++ [q]) false (me_cancelled m)))
  | ms_panic i s q : me_sources m !! i = Some s → so_pc s = MSend q → me_closed m = true → merge_step m MTau None
  | ms_cancel : merge_step m MCancel (Some (mkMerge (me_sources m) (me_merged m) (me_closed m) true))
  | ms_done i s :
      me_sources m !! i = Some s → so_pc s ≠ MDone → me_cancelled m = true →
      merge_step m MTau (Some (set_source m i (mkSource (so_raw s) (so_closed s) MDone)))
  | ms_taken q r : me_merged m = q :: r → merge_step m (MTaken q) (Some (mkMerge (me_sources m) r (me_closed m) (me_cancelled m)))
  | ms_close :
      Forall (λ s, so_pc s = MDone) (me_sources m) → me_closed m = false →
      merge_step m MTau (Some (mkMerge (me_sources m) (me_merged m) true (me_cancelled m))).

Inductive merge_run (n : nat) : list merge_label → Merge → Prop :=
  | mr_nil : merge_run n [] (NewMerge n)
  | mr_snoc tr m l m' : merge_run n tr m → merge_step m l (Some m') → merge_run n (tr ++ [l]) m'.

(** ** What a run has done *)

Definition put_by (i : nat) (l : merge_label) : list RawMessage := match l with MRaw j raw => if decide (j = i) then [raw] else [] | _ => [] end.
Definition got_by (i : nat) (l : merge_label) : list RawMessage := match l with MGot j raw => if decide (j = i) then [raw] else [] | _ => [] end.
Definition sent_by (i : nat) (l : merge_label) : list Quote := match l with MSent j q => if decide (j = i) then [q] else [] | _ => [] end.
Definition sent_any (l : merge_label) : list Quote := match l with MSent _ q => [q] | _ => [] end.
Definition taken_of (l : merge_label) : list Quote := match l with MTaken q => [q] | _ => [] end.
Definition held_by (pc : merge_pc) : list Quote := match pc with MSend q => [q] | _ => [] end.

(** What a source has delivered is normalized and sent in order; the goroutine may drop
    the quote that it holds when it is cancelled. *)
Record source_ok (tr : list merge_label) (cancelled : bool) (i : nat) (s : source) : Prop := {
  sk_raw : tr ≫= put_by i = (tr ≫= got_by i) ++ so_raw s;
  sk_sent : omap (norm i) (tr ≫= got_by i) = (tr ≫= sent_by i) ++ held_by (so_pc s) ∨
            cancelled = true ∧ so_pc s = MDone ∧ ∃ q, omap (norm i) (tr ≫= got_by i) = (tr ≫= sent_by i) ++ [q];
  sk_done : so_pc s = MDone → cancelled = true ∨ so_closed s = true ∧ so_raw s = [];
}.

Record merge_inv (tr : list merge_label) (m : Merge) : Prop := {
  mi_merged : (tr ≫= taken_of) ++ me_merged m = tr ≫= sent_any;
  mi_sources : ∀ i s, me_sources m !! i = Some s → source_ok tr (me_cancelled m) i s;
  mi_closed : me_closed m = true → Forall (λ s, so_pc s = MDone) (me_sources m);
}.

(** Labels of other sources leave a source as it is. *)
Definition about (l : merge_label) : option nat := match l with MRaw i _ | MGot i _ | MSent i _ => Some i | _ => None end.

Lemma source_ok_other tr c c' i s l :
  about l ≠ Some i → (c = true → c' = true) → source_ok tr c i s → source_ok (tr ++ [l]) c' i s.
Proof.
  intros Hl Hc [H1 H2 H3]. assert (Hn : put_by i l = [] ∧ got_by i l = [] ∧ sent_by i l = []) by (destruct l; cbn in *; repeat case_decide; naive_solver).
  destruct Hn as (Hp & Hg & Hs). split; rewrite ?bind_app; cbn; rewrite ?Hp, ?Hg, ?Hs, ?app_nil_r; naive_solver.
Qed.

(** Every other source of a state is as before. *)
Lemma sources_insert tr m i s s' l c :
  merge_inv tr m → me_sources m !! i = Some s → (me_cancelled m = true → c = true) → (∀ j, about l = Some j → j = i) →
  source_ok (tr ++ [l]) c i s' → ∀ j t, <[i := s']> (me_sources m) !! j = Some t → source_ok (tr ++ [l]) c j t.
Proof.
  intros Hinv Hi Hc Hl Hok j t. destruct (decide (j = i)) as [->|Hne].
  - rewrite list_lookup_insert_eq by (by eapply lookup_lt_Some). by intros [= <-].
  - rewrite list_lookup_insert_ne by done. intros Hj. eapply source_ok_other; [by intros ?%Hl|exact Hc|]. by apply (mi_sources _ _ Hinv).
Qed.

Lemma closed_insert (sources : list source) i s s' (closed : bool) :
  (closed = true → Forall (λ s, so_pc s = MDone) sources) → sources !! i = Some s → (so_pc s = MDone → so_pc s' = MDone) →
  closed = true → Forall (λ s, so_pc s = MDone) (<[i := s']> sources).
Proof.
  intros Hc Hi Hs Ht. specialize (Hc Ht). apply Forall_insert; [done|]. apply Hs. exact (proj1 (Forall_lookup _ _) Hc _ _ Hi).
Qed.

Lemma merge_inv_step tr m l o : merge_inv tr m → merge_step m l o → ∃ m', o = Some m' ∧ merge_inv (tr ++ [l]) m'.
Proof.
  intros Hinv Hs. pose proof Hinv as [H1 H2 H3].
  destruct Hs as [i s raw Hi Hcl Hlen|i s Hi|i s raw raws Hi Hpc Hraw|i s Hi Hpc Hraw Hcl|i s q Hi Hpc Hlen Hcl|i s q Hi Hpc Hcl| |i s Hi Hpc Hcan|q r Hq|Hall Hcl].
  all: try (pose proof (H2 _ _ Hi) as [K1 K2 K3]).
  6: { pose proof (proj1 (Forall_lookup _ _) (H3 Hcl) _ _ Hi) as Hd. cbn in Hd. congruence. }
  all: eexists; (split; [reflexivity|]); split; cbn [set_source me_sources me_merged me_closed me_cancelled].
  all: try (by rewrite !bind_app; cbn; rewrite ?app_nil_r).
  all: try (by apply (closed_insert _ i s); [exact H3|exact Hi|cbn; congruence]).
  all: try (by rewrite !bind_app; cbn; rewrite ?app_nil_r, <- H1, ?Hq, <- ?app_assoc).
  all: try done.
  all: try (intros j t Hj; apply (source_ok_other tr (me_cancelled m)); [done|done|by apply H2]).
  all: eapply sources_insert; [exact Hinv|exact Hi|done|by intros j [= <-]|].
  all: split; rewrite ?bind_app; cbn; rewrite ?(decide_True (P := i = i)) by done; rewrite ?app_nil_r; cbn.
  all: try done.
  - by rewrite K1, <- app_assoc.
  - intros [?|[? _]]%K3; [by left|congruence].
  - intros [?|[? ?]]%K3; [by left|by right].
  - by rewrite K1, Hraw, <- app_assoc.
  - left. rewrite omap_app. destruct K2 as [->|(_ & ? & _)]; [|congruence]. rewrite Hpc. cbn. rewrite app_nil_r. by destruct (norm i raw).
  - by destruct (norm i raw).
  - by rewrite K1, Hraw, app_nil_r.
  - left. destruct K2 as [->|(_ & ? & _)]; [|congruence]. rewrite Hpc. cbn. by rewrite app_nil_r.
  - intros _. by right.
  - left. destruct K2 as [->|(_ & ? & _)]; [|congruence]. by rewrite Hpc.
  - destruct K2 as [K2|(_ & ? & _)]; [|congruence]. destruct (so_pc s) as [|q|]; cbn in K2; [left; by rewrite app_nil_r in K2|right; eauto|done].
  - intros _. by left.
Qed.

Lemma merge_run_inv n tr m : merge_run n tr m → merge_inv tr m.
Proof.
  induction 1 as [|tr m l m' _ IH Hs]; [|by destruct (merge_inv_step _ _ _ _ IH Hs) as (m1 & [= ->] & ?)].
  split; cbn; [done| |done]. intros i s [-> _]%lookup_replicate. split; [done|by left|done].
Qed.

(** ** Progress *)

Definition pc_weight (pc : merge_pc) : nat := match pc with MSend _ => 2 | _ => 0 end.
Definition source_weight (s : source) : nat := 3 * length (so_raw s) + pc_weight (so_pc s).
Definition merge_work (m : Merge) : nat := sum_list_with source_weight (me_sources m) + length (me_merged m).

Lemma weight_insert (sources : list source) i s s' :
  sources !! i = Some s → (sum_list_with source_weight (<[i := s']> sources) + source_weight s = sum_list_with source_weight sources + source_weight s')%nat.
Proof.
  intros Hi. rewrite insert_take_drop by (by eapply lookup_lt_Some). rewrite <- (take_drop_middle sources i s Hi) at 3.
  rewrite !sum_list_with_app. cbn [sum_list_with]. lia.
Qed.

(** Everything that was put has been normalized, sent and taken. *)
Definition settled (tr : list merge_label) (m : Merge) : Prop :=
  me_merged m = [] ∧ Forall (λ s, so_raw s = [] ∧ held_by (so_pc s) = []) (me_sources m).

Definition no_input (l : merge_label) : Prop := match l with MRaw _ _ | MEnd _ | MCancel => False | _ => True end.

Lemma merge_progress n tr m :
  merge_run n tr m → me_cancelled m = false → 
  settled tr m ∨ ∃ l m', merge_step m l (Some m') ∧ no_input l ∧ me_cancelled m' = false ∧ (merge_work m' < merge_work m)%nat.
Proof.
  intros Hrun Hcan. pose proof (merge_run_inv _ _ _ Hrun) as [_ H2 H3]. unfold settled, merge_work.
  destruct (me_merged m) as [|q r] eqn:Hq.
  2:{ right. eexists _, _. split; [by apply ms_taken|]. cbn. rewrite ?Hq. split_and!; [done|done|lia]. }
  destruct (decide (Forall (λ s, so_raw s = [] ∧ held_by (so_pc s) = []) (me_sources m))) as [|Hex]; [by left|right].
  apply not_Forall_Exists in Hex; [|apply _]. apply Exists_exists in Hex as (s & Hin & Hs). apply list_elem_of_lookup in Hin as [i Hi].
  destruct (H2 i s Hi) as [_ _ K3]. destruct (so_pc s) as [|q|] eqn:Hpc.
  - destruct (so_raw s) as [|raw raws] eqn:Hraw; [exfalso; apply Hs; by rewrite Hraw, Hpc|]. eexists _, _. split; [by apply (ms_got m i s raw raws)|]. cbn. split_and!; [done|done|].
    rewrite Hq. pose proof (weight_insert _ i s (mkSource raws (so_closed s) (match norm i raw with Some q => MSend q | None => MRead end)) Hi) as Hw.
    unfold source_weight in *. cbn in *. rewrite Hraw, Hpc in Hw. cbn in Hw. destruct (norm i raw); cbn in *; lia.
  - eexists _, _. split; [apply (ms_sent m i s q Hi Hpc)|].
    + rewrite Hq. unfold mergedBuffer. cbn. lia.
    + destruct (me_closed m) eqn:Hcl; [|done]. pose proof (proj1 (Forall_lookup _ _) (H3 eq_refl) _ _ Hi) as Hd. cbn in Hd. congruence.
    + cbn. split_and!; [done|done|]. rewrite Hq. pose proof (weight_insert _ i s (mkSource (so_raw s) (so_closed s) MRead) Hi) as Hw.
      unfold source_weight in *. cbn in *. rewrite Hpc in Hw. cbn in *. lia.
  - destruct (K3 eq_refl) as [?|[_ Hraw]]; [congruence|]. exfalso. apply Hs. by rewrite Hraw, Hpc.
Qed.

Lemma merge_drains k : ∀ n tr m,
  merge_work m = k → merge_run n tr m → me_cancelled m = false →
  ∃ tr' m', merge_run n (tr ++ tr') m' ∧ Forall no_input tr' ∧ settled (tr ++ tr') m' ∧ me_cancelled m' = false.
Proof.
  induction k as [k IH] using lt_wf_ind. intros n tr m Hk Hrun Hcan.
  destruct (merge_progress n tr m Hrun Hcan) as [Hdone|(l & m' & Hs & Hl & Hcan' & Hlt)].
  - exists [], m. rewrite app_nil_r. split_and!; [done|constructor|done|done].
  - destruct (IH _ ltac:(rewrite <- Hk; exact Hlt) n (tr ++ [l]) m' eq_refl) as (tr' & m'' & Hrun' & Hl' & Hst & ?); [by eapply mr_snoc|done|].
    exists (l :: tr'), m''. replace (tr ++ l :: tr') with ((tr ++ [l]) ++ tr') by (by rewrite <- app_assoc). split_and!; [done|by constructor|done|done].
Qed.

(** ** The merged feed *)

Lemma merge_sources_length n tr m : merge_run n tr m → length (me_sources m) = n.
Proof.
  induction 1 as [|tr m l m' _ IH Hs]; [apply length_replicate|]. inversion Hs; subst; cbn; rewrite ?length_insert; done.
Qed.

(** Every quote that was sent comes from a message that normalization accepted. *)
Lemma sent_normalized n tr m : merge_run n tr m → Forall (λ q, ∃ i raw, norm i raw = Some q) (tr ≫= sent_any).
Proof.
  induction 1 as [|tr m l m' Hrun IH Hs]; [constructor|]. rewrite bind_app. apply Forall_app. split; [done|].
  pose proof (merge_run_inv _ _ _ Hrun) as [_ H2 _]. inversion Hs; subst; cbn; try constructor; [|constructor].
  destruct (H2 i s ltac:(done)) as [_ K2 _]. destruct K2 as [K2|(_ & ? & _)]; [|congruence].
  assert (Hq : q ∈ omap (norm i) (tr ≫= got_by i)).
  { rewrite K2. apply elem_of_app. right. match goal with H : so_pc s = _ |- _ => rewrite H end. by left. }
  apply list_elem_of_omap in Hq as (raw & _ & ?). by exists i, raw.
Qed.

Lemma no_input_puts i tr : Forall no_input tr → tr ≫= put_by i = [].
Proof. induction 1 as [|l tr Hl _ IH]; [done|]. cbn. rewrite IH. by destruct l. Qed.

Lemma settled_sent n tr m i :
  merge_run n tr m → me_cancelled m = false → settled tr m → (i < n)%nat → tr ≫= sent_by i = omap (norm i) (tr ≫= put_by i).
Proof.
  intros Hrun Hcan [_ Hst] Hi. destruct (lookup_lt_is_Some_2 (me_sources m) i) as [s Hs]; [by rewrite (merge_sources_length _ _ _ Hrun)|].
  destruct (mi_sources _ _ (merge_run_inv _ _ _ Hrun) i s Hs) as [K1 K2 _]. destruct (proj1 (Forall_lookup _ _) Hst _ _ Hs) as [Hraw Hheld].
  rewrite K1, Hraw, app_nil_r. destruct K2 as [->|(? & _)]; [by rewrite Hheld, app_nil_r|congruence].
Qed.

Lemma sent_prefix n tr m i : merge_run n tr m → (i < n)%nat → (tr ≫= sent_by i) `prefix_of` omap (norm i) (tr ≫= put_by i).
Proof.
  intros Hrun Hi. destruct (lookup_lt_is_Some_2 (me_sources m) i) as [s Hs]; [by rewrite (merge_sources_length _ _ _ Hrun)|].
  destruct (mi_sources _ _ (merge_run_inv _ _ _ Hrun) i s Hs) as [K1 K2 _]. rewrite K1, omap_app. apply prefix_app_r.
  destruct K2 as [->|(_ & _ & q & ->)]; by apply prefix_app_r.
Qed.
End manager.

Section feed.
Context {A : Type} `{!ExchangeAdapter A} (unicode_upper : string → string).

(** C22: The manager merges its feeds. In every interleaving of the adapters, their
    goroutines, the consumer, the closing goroutine and a cancellation no goroutine sends
    on the closed channel, and the channel is closed only when all goroutines are done;
    the consumer gets what was sent, in order, and only valid quotes; what a goroutine
    sends is what its adapter delivered, normalized, in order, without what normalization
    refuses; and unless it is cancelled everything delivered can always be brought to the
    consumer. *)
Theorem exchange_merges_feeds (adapters : list A) n tr m :
  let norm := normalize_for unicode_upper adapters in
  merge_run norm n tr m →
  (∀ l o, merge_step norm m l o → o ≠ None) ∧
  (me_closed m = true → Forall (λ s, so_pc s = MDone) (me_sources m)) ∧
  (tr ≫= taken_of) ++ me_merged m = tr ≫= sent_any ∧ Forall valid_quote (tr ≫= sent_any) ∧
  (∀ i, (i < n)%nat → (tr ≫= sent_by i) `prefix_of` omap (norm i) (tr ≫= put_by i)) ∧
  (me_cancelled m = false →
   ∃ tr' m', merge_run norm n (tr ++ tr') m' ∧ Forall no_input tr' ∧ (tr ++ tr') ≫= taken_of = (tr ++ tr') ≫= sent_any ∧
     ∀ i, (i < n)%nat → (tr ++ tr') ≫= sent_by i = omap (norm i) (tr ≫= put_by i)).
Proof.
  intros norm Hrun. pose proof (merge_run_inv _ _ _ _ Hrun) as Hinv. split_and!.
  - intros l o Hs. by destruct (merge_inv_step _ _ _ _ _ Hinv Hs) as (m' & -> & _).
  - apply Hinv.
  - apply Hinv.
  - eapply Forall_impl; [by eapply sent_normalized|]. cbn. intros q (i & raw & (a & _ & Hq)%bind_Some).
    destruct (Normalize _ _ _ _) as [q'|] eqn:Hn; [|done]. injection Hq as <-. by eapply Normalize_valid.
  - intros i Hi. by eapply sent_prefix.
  - intros Hcan. destruct (merge_drains norm _ n tr m eq_refl Hrun Hcan) as (tr' & m' & Hrun' & Hno & Hst & Hcan'). exists tr', m'. split_and!; [done|done| |].
    + pose proof (mi_merged _ _ _ (merge_run_inv _ _ _ _ Hrun')) as Hm. destruct Hst as [Hq _]. by rewrite Hq, app_nil_r in Hm.
    + intros i Hi. rewrite (settled_sent _ _ _ _ i Hrun' Hcan' Hst Hi), bind_app, (no_input_puts i tr' Hno), app_nil_r. done.
Qed.
End feed.

Section start.
Context {A : Type} `{!ExchangeAdapter A}.

(** The configuration of every adapter that was built can be indexed. *)
Lemma build_length (fs : factories) configs (l : list A) : build_adapters fs configs = Ok l → (length l ≤ length configs)%nat.
Proof.
  revert l. induction configs as [|cfg configs IH]; intros l; cbn [build_adapters]; [by intros [= <-]|].
  destruct (ac_Enabled cfg); cbn [negb]; [|intros Hl%IH; cbn; lia].
  destruct (GetFactory fs (ac_Name cfg)) as [factory|]; [|done]. destruct (factory cfg); [|done].
  destruct (build_adapters fs configs) as [l'|] eqn:Hb; [|done]. intros [= <-]. specialize (IH l' eq_refl). cbn. lia.
Qed.

Lemma start_in_range configs (adapters : list A) : ∀ i answers,
  (i + length adapters ≤ length configs)%nat → start_adapters configs i adapters answers ≠ Panic.
Proof.
  induction adapters as [|a adapters IH]; intros i answers Hlen; [done|]. cbn [start_adapters length] in *. destruct answers as [|[connects runs] answers]; [done|].
  destruct (lookup_lt_is_Some_2 configs i) as [cfg ->]; [lia|]. specialize (IH (S i) answers ltac:(lia)). by destruct (start_adapters _ _ _ _).
Qed.

Lemma run_start_never_panics fs configs (m : ExchangeManager) answers : NewExchangeManager fs configs = Ok m → Run_start m answers ≠ Panic.
Proof.
  unfold NewExchangeManager. destruct (build_adapters fs configs) as [l|] eqn:Hb; [|done]. intros [= <-]. apply start_in_range. cbn. by eapply build_length.
Qed.
End start.

(** ** A feed *)

Definition no_conv (x : float64) : Z := 0.
Definition feed_adapters : list Adapter := [mkAdapter Nasdaq ["AAPL"]; mkAdapter Crypto ["btc/usd"]].
Definition feed_norm : nat → RawMessage → option Quote := normalize_for (A := Adapter) (ExchangeAdapter0 := mock_adapter no_conv) id feed_adapters.
Definition feed_msg : RawMessage := mock_message Crypto "btc/usd" (f64_of_Z 50000) 1700000000000 1700000000000000.
Definition feed_trace : list merge_label := [MRaw 1 feed_msg; MRaw 1 (mkRaw "crypto" POther 0); MGot 1 feed_msg].

Lemma feed_trace_run : ∃ m, merge_run feed_norm 2 feed_trace m ∧ me_cancelled m = false.
Proof.
  pose proof (mr_nil feed_norm 2) as Hr.
  eapply mr_snoc in Hr; [|eapply (ms_raw _ _ 1%nat _ feed_msg); [reflexivity|reflexivity|unfold rawBuffer; cbn; lia]].
  eapply mr_snoc in Hr; [|eapply (ms_raw _ _ 1%nat _ (mkRaw "crypto" POther 0)); [reflexivity|reflexivity|unfold rawBuffer; cbn; lia]].
  eapply mr_snoc in Hr; [|eapply (ms_got _ _ 1%nat _ feed_msg); reflexivity].
  eexists. split; [exact Hr|reflexivity].
Qed.

(** A crypto pair arrives in canonical form, an unknown payload is dropped. *)
Lemma exchange_merges_feeds_witness :
  ∃ tr' m', merge_run feed_norm 2 (feed_trace ++ tr') m' ∧ q_Symbol <$> ((feed_trace ++ tr') ≫= sent_by 1) = ["BTC-USD"].
Proof.
  destruct feed_trace_run as (m & Hrun & Hcan).
  destruct (exchange_merges_feeds (A := Adapter) (ExchangeAdapter0 := mock_adapter no_conv) id feed_adapters 2 feed_trace m Hrun) as (_ & _ & _ & _ & _ & Hgo).
  destruct (Hgo Hcan) as (tr' & m' & H1 & _ & _ & H2). exists tr', m'. split; [exact H1|]. rewrite (H2 1%nat) by lia. vm_compute. reflexivity.
Defined.

(** ** What goes wrong *)

Definition mock_factory (k : mock_kind) : AdapterConfig → result Adapter string := λ _, Ok (mkAdapter k []).
Definition two_configs : list AdapterConfig :=
  [mkAdapterConfig "nasdaq" false "" ["AAPL"] 0; mkAdapterConfig "nyse" true "" ["IBM"] 0].

(** Disabled configurations are skipped when the adapters are built, but not when they
    are indexed: the adapter for IBM is subscribed to AAPL. *)
Lemma disabled_config_shifts_symbols :
  let fs := <["nasdaq" := mock_factory Nasdaq]> (<["nyse" := mock_factory Nyse]> ∅) in
  ∃ m, NewExchangeManager fs two_configs = Ok m ∧
    Run_start (ExchangeAdapter0 := mock_adapter no_conv) m [(true, true)] = Ret [(mkAdapter Nyse ["AAPL"], true)].
Proof. eexists. split; vm_compute; reflexivity. Qed.
