(* ===== verification/Metadata.v ===== *)
(** * Metadata: the instrument cache and its repository

    [internal/metadata]: reference data of instruments, kept in a repository and served
    from three indexes that are built aside and swapped whole, so that a lookup sees one
    load or the other. A lookup is one load of the pointer and therefore one step. The
    repository in memory iterates its map in any order. Instruments are not changed once
    they are stored; extensions are left out. *)

From S2P Require Import Prelude Float64.

Record Instrument := mkInstrument {
  in_CanonicalSymbol : string;
  in_ExchangeSymbol : string;
  in_Exchange : string;
  in_AssetClass : string;
  in_BaseCurrency : string;
  in_QuoteCurrency : string;
  in_TradingStatus : string;
  in_TickSize : float64;
  in_LotSize : float64;
  in_InstrumentName : string;
}.

(** ** The cache *)

Record cacheData := mkCache {
  cd_bySymbol : gmap string Instrument;
  cd_byExchange : gmap string (list Instrument);
  cd_byAssetClass : gmap string (list Instrument);
}.

Definition NewInstrumentCache : cacheData := mkCache ∅ ∅ ∅.

(** Appending to a slice of a map: a missing one is empty. *)
Definition push (k : string) (inst : Instrument) (index : gmap string (list Instrument)) : gmap string (list Instrument) :=
  <[k := default [] (index !! k) ++ [inst]]> index.
Definition index1 (c : cacheData) (inst : Instrument) : cacheData :=
  mkCache (<[in_CanonicalSymbol inst := inst]> (cd_bySymbol c)) (push (in_Exchange inst) inst (cd_byExchange c))
    (push (in_AssetClass inst) inst (cd_byAssetClass c)).
Definition Replace (old : cacheData) (instruments : list Instrument) : cacheData := foldl index1 NewInstrumentCache instruments.

Definition GetBySymbol (c : cacheData) (symbol : string) : result Instrument string :=
  match cd_bySymbol c !! symbol with Some inst => Ok inst | None => Err ("symbol not found: " +:+ symbol) end.
Definition GetByExchange (c : cacheData) (exchange : string) : list Instrument := default [] (cd_byExchange c !! exchange).
Definition GetByAssetClass (c : cacheData) (class : string) : list Instrument := default [] (cd_byAssetClass c !! class).

(** ** The repository in memory *)

Abbreviation repository := (gmap string Instrument).
Definition NewInMemoryRepository (seeds : list Instrument) : repository :=
  foldl (λ (repo : repository) seed, <[in_CanonicalSymbol seed := seed]> repo) ∅ seeds.
Definition repository_Save (repo : repository) (inst : option Instrument) : repository * option string :=
  match inst with
  | None => (repo, Some "invalid instrument data")
  | Some i => if String.eqb (in_CanonicalSymbol i) "" then (repo, Some "invalid instrument data") else (<[in_CanonicalSymbol i := i]> repo, None)
  end.

(** ** The service *)

Record MetadataService := mkMetadata { ms_repo : repository; ms_cache : cacheData }.
Definition NewMetadataService (repo : repository) : MetadataService := mkMetadata repo NewInstrumentCache.

(** [LoadCache] with the answer of the repository. *)
Definition LoadCache (s : MetadataService) (answer : result (list Instrument) string) : MetadataService * option string :=
  match answer with
  | Err e => (s, Some ("failed to load instruments: " +:+ e))
  | Ok instruments => (mkMetadata (ms_repo s) (Replace (ms_cache s) instruments), None)
  end.

(** The states of a service, with the contents that the repository had at the last
    successful load. *)
Inductive metadata_run (seeds : list Instrument) : MetadataService → repository → Prop :=
  | md_new : metadata_run seeds (NewMetadataService (NewInMemoryRepository seeds)) ∅
  | md_save s C inst : metadata_run seeds s C → metadata_run seeds (mkMetadata (repository_Save (ms_repo s) inst).1 (ms_cache s)) C
  | md_load s C l :
      metadata_run seeds s C → l ≡ₚ (map_to_list (ms_repo s)).*2 → metadata_run seeds (LoadCache s (Ok l)).1 (ms_repo s)
  | md_fail s C e : metadata_run seeds s C → metadata_run seeds (LoadCache s (Err e)).1 C.

(** ** What the indexes hold *)

Lemma foldl_bySymbol l c s :
  cd_bySymbol (foldl index1 c l) !! s =
    match last (filter (λ i, in_CanonicalSymbol i = s) l) with Some i => Some i | None => cd_bySymbol c !! s end.
Proof.
  induction l as [|i l IH] using rev_ind; [done|]. rewrite foldl_app, filter_app, filter_cons, filter_nil. cbn [foldl index1 cd_bySymbol].
  destruct (decide (in_CanonicalSymbol i = s)) as [<-|Hne]; [by rewrite lookup_insert_eq, last_snoc|]. by rewrite lookup_insert_ne, app_nil_r.
Qed.

Lemma push_default k i index k' : default [] (push k i index !! k') = default [] (index !! k') ++ if decide (k = k') then [i] else [].
Proof. unfold push. case_decide as Hk; [subst; by rewrite lookup_insert_eq|by rewrite lookup_insert_ne, app_nil_r]. Qed.

Lemma foldl_byExchange l c e :
  default [] (cd_byExchange (foldl index1 c l) !! e) = default [] (cd_byExchange c !! e) ++ filter (λ i, in_Exchange i = e) l.
Proof.
  induction l as [|i l IH] using rev_ind; [by rewrite app_nil_r|]. rewrite foldl_app, filter_app, filter_cons, filter_nil. cbn [foldl index1 cd_byExchange].
  by rewrite push_default, IH, app_assoc.
Qed.

Lemma foldl_byAssetClass l c e :
  default [] (cd_byAssetClass (foldl index1 c l) !! e) = default [] (cd_byAssetClass c !! e) ++ filter (λ i, in_AssetClass i = e) l.
Proof.
  induction l as [|i l IH] using rev_ind; [by rewrite app_nil_r|]. rewrite foldl_app, filter_app, filter_cons, filter_nil. cbn [foldl index1 cd_byAssetClass].
  by rewrite push_default, IH, app_assoc.
Qed.

(** Entries of the repository are stored under their own symbol. *)
Definition repo_ok (repo : repository) : Prop := map_Forall (λ s i, in_CanonicalSymbol i = s) repo.

Lemma NewInMemoryRepository_ok seeds : repo_ok (NewInMemoryRepository seeds).
Proof.
  unfold NewInMemoryRepository. assert (H : repo_ok ∅) by apply map_Forall_empty. revert H. generalize (∅ : repository).
  induction seeds as [|i seeds IH]; intros repo H; [done|]. apply IH. by apply map_Forall_insert_2.
Qed.

Lemma repository_Save_ok repo inst : repo_ok repo → repo_ok (repository_Save repo inst).1.
Proof. intros H. destruct inst as [i|]; [|done]. cbn. case_match; [done|]. by apply map_Forall_insert_2. Qed.

Lemma metadata_run_repo seeds s C : metadata_run seeds s C → repo_ok (ms_repo s).
Proof. induction 1; cbn; [apply NewInMemoryRepository_ok|by apply repository_Save_ok|done|done]. Qed.

(** The instruments of a symbol in a listing of the repository. *)
Lemma listed_symbol (repo : repository) l s :
  repo_ok repo → l ≡ₚ (map_to_list repo).*2 → filter (λ i, in_CanonicalSymbol i = s) l = option_list (repo !! s).
Proof.
  intros Hok Hl. assert (Hperm : filter (λ i, in_CanonicalSymbol i = s) l ≡ₚ option_list (repo !! s)).
  { rewrite Hl. clear l Hl. destruct (repo !! s) as [i|] eqn:Hs.
    - rewrite <- (insert_delete_id repo s i Hs), map_to_list_insert by apply lookup_delete_eq. rewrite fmap_cons, filter_cons, decide_True by (by apply (Hok s)).
      rewrite filter_none; [done|]. apply Forall_forall. intros j ([s' j'] & -> & Hin)%list_elem_of_fmap.
      apply elem_of_map_to_list, lookup_delete_Some in Hin as [Hne Hj]. cbn. rewrite (Hok s' j' Hj). congruence.
    - cbn. rewrite filter_none; [done|]. apply Forall_forall. intros j ([s' j'] & -> & Hin)%list_elem_of_fmap. apply elem_of_map_to_list in Hin.
      cbn. rewrite (Hok s' j' Hin). congruence. }
  destruct (repo !! s) as [i|]; cbn in *; [by apply Permutation_singleton_r in Hperm|by apply Permutation_nil_r in Hperm].
Qed.

(** Lookups answer from one load. After any saves, loads and failed loads, a lookup by
    symbol answers exactly the instrument that the repository had under that symbol at
    the last load that succeeded, and a lookup by exchange or asset class exactly its
    instruments of that kind, each once: the three indexes never disagree. *)
Lemma metadata_answers_last_load seeds s C :
  metadata_run seeds s C →
  (∀ symbol, GetBySymbol (ms_cache s) symbol =
     match C !! symbol with Some inst => Ok inst | None => Err ("symbol not found: " +:+ symbol) end) ∧
  (∀ exchange, GetByExchange (ms_cache s) exchange ≡ₚ filter (λ i, in_Exchange i = exchange) (map_to_list C).*2) ∧
  (∀ class, GetByAssetClass (ms_cache s) class ≡ₚ filter (λ i, in_AssetClass i = class) (map_to_list C).*2).
Proof.
  induction 1 as [|s C inst _ IH|s C l Hrun _ Hl|s C e _ IH]; [by rewrite map_to_list_empty|done| |done].
  pose proof (metadata_run_repo _ _ _ Hrun) as Hok. cbn [LoadCache fst ms_cache]. unfold Replace, GetBySymbol, GetByExchange, GetByAssetClass.
  split_and!.
  - intros symbol. rewrite foldl_bySymbol, (listed_symbol _ l symbol Hok Hl). by destruct (ms_repo s !! symbol).
  - intros exchange. rewrite foldl_byExchange. cbn. by rewrite Hl.
  - intros class. rewrite foldl_byAssetClass. cbn. by rewrite Hl.
Qed.

(** ** A load *)

Definition btc : Instrument :=
  mkInstrument "BTC-USD" "BTCUSD" "binance" "Crypto" "BTC" "USD" "Trading" f64_one f64_one "Bitcoin".

Lemma metadata_answers_last_load_witness :
  GetBySymbol (LoadCache (NewMetadataService (NewInMemoryRepository [btc])) (Ok [btc])).1.(ms_cache) "BTC-USD" = Ok btc ∧
  GetBySymbol NewInstrumentCache "BTC-USD" = Err "symbol not found: BTC-USD".
Proof.
  destruct (metadata_answers_last_load [btc] _ _ (md_load [btc] _ _ [btc] (md_new [btc]) ltac:(vm_compute; reflexivity))) as [H1 _].
  destruct (metadata_answers_last_load [btc] _ _ (md_new [btc])) as [H2 _].
  split; [rewrite H1; vm_compute; reflexivity|exact (H2 "BTC-USD")].
Defined.

(** ** What goes wrong *)

(** With two instruments of one symbol, which a repository of another kind may answer,
    the indexes disagree: the lookup by exchange answers one that the lookup by symbol
    does not. *)
Lemma duplicate_symbols_disagree :
  let b1 := mkInstrument "BTC-USD" "XBT" "kraken" "Crypto" "BTC" "USD" "Trading" f64_one f64_one "Bitcoin" in
  let c := Replace NewInstrumentCache [b1; btc] in
  GetBySymbol c "BTC-USD" = Ok btc ∧ GetByExchange c "kraken" = [b1].
Proof. by vm_compute. Qed.
