(* ===== verification/Health.v ===== *)
(** * Health: probes

    [internal/healthcheck]: the heartbeat that worker loops mark, and the registry that
    runs its checks concurrently and aggregates them. What a check answers, and how long
    it takes, is an argument of its step; durations are kept, the clock of the result is
    not. *)

From S2P Require Import Prelude.

(** ** The heartbeat *)

Definition Mark (now : Z) : Z := now.

(** [lastBeat] is in nanoseconds since 1970, as the clock is here. *)
Definition IsAlive (lastBeat now within : Z) : bool := if lastBeat =? 0 then false else time_sub now lastBeat <? within.

Record Status := mkStatus { st_Name : string; st_OK : bool; st_Detail : string; st_Duration : Z }.
Record Check := mkCheck { ck_Name : string; ck_Timeout : Z }.

Definition errDetail (err : option string) : string := default "" err.

(** [LivenessCheck]: its answer for a heartbeat, up to the text of the error. *)
Definition liveness_name : string := "liveness-heartbeat".
Definition LivenessCheck (lastBeat now maxStaleness : Z) : option string :=
  if negb (IsAlive lastBeat now maxStaleness) then Some "heartbeat stale" else None.

(** The status code of [LiveHandler], with or without a heartbeat. *)
Definition LiveHandler (hb : option Z) (now : Z) : Z :=
  match hb with Some lastBeat => if negb (IsAlive lastBeat now (10 * Second)) then 503 else 200 | None => 200 end.

(** ** Checks

    The answer of a check from what its dependency answers; [RedisCheck] also says
    whether its callback is called. *)

Definition RedisCheck (client_nil : bool) (ping : option string) (has_onFail : bool) : option string * bool :=
  if client_nil then (Some "redis client is nil", has_onFail) else (ping, bool_decide (ping ≠ None) && has_onFail).
Definition PostgresCheckWithQuery (row : result Z string) : option string :=
  match row with
  | Err e => Some ("postgres query failed: " +:+ e)
  | Ok v => if negb (v =? 1) then Some "postgres query returned unexpected value" else None
  end.
Definition SnapshotCheck (ready : bool) : option string := if negb ready then Some "snapshot service not ready" else None.
Definition GatewayCheck : option string := None.

(** ** The registry *)

Record HealthResult := mkHealthResult { hr_Status : string; hr_Checks : list Status }.

(** [Run]: a goroutine for each check, [None] once it has appended its status. *)
Record check_run := mkCheckRun { cr_pending : list (option Check); cr_results : list Status }.

Definition start_run (checks : list Check) : check_run := mkCheckRun (Some <$> checks) [].
Definition finish_check (r : check_run) (i : nat) (c : Check) (err : option string) (d : Z) : check_run :=
  mkCheckRun (<[i := None]> (cr_pending r)) (cr_results r ++ [mkStatus (ck_Name c) (bool_decide (err = None)) (errDetail err) d]).

(** A step: check [i] answers. *)
Inductive check_step (answer : Check → option string) (r : check_run) : check_run → Prop :=
  | cs_done i c d : cr_pending r !! i = Some (Some c) → check_step answer r (finish_check r i c (answer c) d).

Definition all_done (r : check_run) : Prop := Forall (λ p, p = None) (cr_pending r).

(** After [wg.Wait]. *)
Definition aggregate (r : check_run) : HealthResult :=
  mkHealthResult (if forallb st_OK (cr_results r) then "ok" else "degraded") (cr_results r).

Definition handler_status (statusCode : Z) (res : HealthResult) : Z := if String.eqb (hr_Status res) "ok" then statusCode else 503.

(** ** Results *)

Definition outcome_of (answer : Check → option string) (c : Check) : string * bool := (ck_Name c, bool_decide (answer c = None)).
Definition reported (s : Status) : string * bool := (st_Name s, st_OK s).

(** What has been reported, and what is pending, are the checks. *)
Lemma reported_perm answer checks r :
  rtc (check_step answer) (start_run checks) r →
  (reported <$> cr_results r) ++ (outcome_of answer <$> omap id (cr_pending r)) ≡ₚ outcome_of answer <$> checks.
Proof.
  revert r. apply rtc_ind_r; [cbn; induction checks as [|c checks IH]; [done|cbn; by f_equiv]|]. intros r r' _ Hs IH.
  rewrite <- IH. destruct Hs as [i c d Hi]. cbn. clear IH. rewrite fmap_app, <- app_assoc. f_equiv. cbn.
  rewrite insert_take_drop by (by eapply lookup_lt_Some). rewrite <- (take_drop_middle _ _ _ Hi) at 3.
  rewrite !omap_app, !fmap_app. cbn. change (reported _) with (outcome_of answer c). by rewrite Permutation_middle.
Qed.

Lemma pending_none (ps : list (option Check)) : Forall (λ p, p = None) ps → omap id ps = [].
Proof. induction 1 as [|p ps -> _ IH]; [done|]. cbn. by rewrite IH. Qed.

Lemma checks_finish answer : ∀ k r, length (omap id (cr_pending r)) = k → ∃ r', rtc (check_step answer) r r' ∧ all_done r'.
Proof.
  induction k as [|k IH]; intros r Hk.
  - exists r. split; [done|]. apply Forall_forall. intros [c|] Hp; [|done]. exfalso.
    assert (Hin : c ∈ omap id (cr_pending r)) by (apply list_elem_of_omap; by exists (Some c)). destruct (omap id (cr_pending r)); [by apply not_elem_of_nil in Hin|done].
  - destruct (omap id (cr_pending r)) as [|c l] eqn:Ho; [done|]. assert (Hin : c ∈ omap id (cr_pending r)) by (rewrite Ho; by left).
    apply list_elem_of_omap in Hin as ([c'|] & Hin & [= ->]). apply list_elem_of_lookup in Hin as [i Hi].
    destruct (IH (finish_check r i c (answer c) 0)) as (r' & Hr & Hd).
    { cbn. apply (f_equal length) in Ho. rewrite <- (take_drop_middle _ _ _ Hi), omap_app, length_app in Ho. cbn in Ho, Hk.
      rewrite insert_take_drop by (by eapply lookup_lt_Some). rewrite omap_app, length_app. cbn. lia. }
    exists r'. split; [|done]. eapply rtc_l; [by apply (cs_done _ _ i c 0)|done].
Qed.

(** The health probe reports every check. However the checks interleave, they can all
    finish, and when they have, the result has each registered check exactly once with
    its own verdict; the status is ok, and the probe answers its status code, if and only
    if every check passed, and 503 otherwise. *)
Lemma health_result_aggregates answer checks r :
  rtc (check_step answer) (start_run checks) r →
  (∃ r', rtc (check_step answer) r r' ∧ all_done r') ∧
  (all_done r →
   (reported <$> hr_Checks (aggregate r)) ≡ₚ (outcome_of answer <$> checks) ∧
   (hr_Status (aggregate r) = "ok" ↔ Forall (λ c, answer c = None) checks) ∧
   (∀ code, handler_status code (aggregate r) = if decide (Forall (λ c, answer c = None) checks) then code else 503)).
Proof.
  intros Hrun. split; [by eapply checks_finish|]. intros Hd. pose proof (reported_perm _ _ _ Hrun) as Hp. rewrite (pending_none _ Hd), app_nil_r in Hp.
  assert (Hok : forallb st_OK (cr_results r) = true ↔ Forall (λ c, answer c = None) checks).
  { assert (H1 : Forall (λ p : string * bool, p.2 = true) (reported <$> cr_results r) ↔ forallb st_OK (cr_results r) = true).
    { rewrite Forall_fmap, forallb_forall, Forall_forall. split; intros H s Hs; apply H; by apply list_elem_of_In. }
    rewrite <- H1, Hp, Forall_fmap. apply Forall_proper; [|done]. intros c. cbn. by rewrite bool_decide_eq_true. }
  assert (Hst : hr_Status (aggregate r) = "ok" ↔ Forall (λ c, answer c = None) checks) by (rewrite <- Hok; cbn; by destruct (forallb _ _)).
  split_and!; [done|done|]. intros code. unfold handler_status. destruct (String.eqb_spec (hr_Status (aggregate r)) "ok") as [He|He].
  - by rewrite decide_True by (by apply Hst).
  - rewrite decide_False; [done|]. by intros ?%Hst.
Qed.

(** ** The heartbeat *)

(** A heartbeat is alive exactly while less than the limit has passed since its last
    mark, once it has been marked. *)
Lemma heartbeat_alive now lastBeat within :
  lastBeat ≠ 0 → in_i64 (now - lastBeat) → (IsAlive lastBeat now within = true ↔ now < lastBeat + within).
Proof. intros H0 Hr. unfold IsAlive. rewrite (proj2 (Z.eqb_neq _ _)), time_sub_small by done. rewrite Z.ltb_lt. lia. Qed.

Definition demo_checks : list Check := [mkCheck "redis" Second; mkCheck "postgres" (2 * Second)].
Definition demo_answer (c : Check) : option string := if String.eqb (ck_Name c) "redis" then Some "refused" else None.
Definition demo_run : check_run :=
  let r := finish_check (start_run demo_checks) 1 (mkCheck "postgres" (2 * Second)) None 7 in
  finish_check r 0 (mkCheck "redis" Second) (Some "refused") 9.

Lemma health_result_aggregates_witness :
  handler_status 200 (aggregate demo_run) = 503 ∧ (reported <$> hr_Checks (aggregate demo_run)) ≡ₚ [("redis", false); ("postgres", true)].
Proof.
  destruct (health_result_aggregates demo_answer demo_checks demo_run) as [_ H].
  - eapply rtc_l; [apply (cs_done demo_answer _ 1 (mkCheck "postgres" (2 * Second)) 7); reflexivity|].
    eapply rtc_l; [apply (cs_done demo_answer _ 0 (mkCheck "redis" Second) 9); reflexivity|]. apply rtc_refl.
  - destruct H as (H1 & _ & H3); [repeat constructor|]. split; [|exact H1]. rewrite H3. reflexivity.
Defined.
