(* ===== verification/MessagePool.v ===== *)
(** * MessagePool: serialized messages in recycled buffers

    [pkg/protocol/manager.go], [message.go], [pool.go] and [registry.go]: an event is
    serialized once into every format that a client uses, into buffers of a global pool,
    and the message is shared by reference counting; the last release gives the buffers
    back. Buffers are addresses into a store, since a message and the pool can share
    them; serializations, releases and clients interleave. The serializers are functions
    of the event; the pool may lose buffers at any time and hands out any it has. *)

From S2P Require Import Prelude Bytes Float64 MarketEvent TopicManager Router Snapshot WsPump.

Section pool.
Context {Ev B : Type}.

Definition Serializer : Type := Ev → result (list B) string.

(** ** The manager of formats; [Registry] is the map of serializers alone *)

Record SerManager := mkSerManager { sm_codecs : Format → option Serializer; sm_activeCounts : Format → Z }.

Definition fmt_upd {T} (g : Format → T) (f : Format) (v : T) : Format → T := λ f', if decide (f' = f) then v else g f'.
Definition NewSerManager : SerManager := mkSerManager (λ _, None) (λ _, 0).
Definition RegisterCodec (m : SerManager) (f : Format) (c : Serializer) : SerManager :=
  mkSerManager (fmt_upd (sm_codecs m) f (Some c)) (sm_activeCounts m).
Definition TrackClient (m : SerManager) (f : Format) : SerManager :=
  mkSerManager (sm_codecs m) (fmt_upd (sm_activeCounts m) f (i64 (sm_activeCounts m f + 1))).
Definition UntrackClient (m : SerManager) (f : Format) : SerManager :=
  mkSerManager (sm_codecs m)
    (if 0 <? sm_activeCounts m f then fmt_upd (sm_activeCounts m) f (i64 (sm_activeCounts m f - 1)) else sm_activeCounts m).

Definition Lookup_serializer (m : SerManager) (f : Format) : result Serializer string :=
  match sm_codecs m f with Some c => Ok c | None => Err "serializer for format not found" end.

Definition is_active (m : SerManager) (f : Format) : bool :=
  (0 <? sm_activeCounts m f) && match sm_codecs m f with Some _ => true | None => false end.
Definition all_formats : list Format := [FormatJSON; FormatProtobuf; FormatFlatBuffers].
Definition active_formats (m : SerManager) : list Format := filter (λ f, is_active m f = true) all_formats.

(** ** Buffers *)

Record BytesBuffer := mkBuffer { bb_bytes : list B; bb_cap : Z }.
Definition maxPooledCap : Z := 65536.
Definition newBuffer : BytesBuffer := mkBuffer [] 1024.

(** [PutBuffer]: a large buffer is left to the collector. *)
Definition PutBuffer (hp : list BytesBuffer * list nat) (b : nat) : list BytesBuffer * list nat :=
  match hp.1 !! b with
  | None => hp
  | Some buf => if maxPooledCap <? bb_cap buf then hp else (<[b := mkBuffer [] (bb_cap buf)]> hp.1, hp.2 ++ [b])
  end.
Definition put_all (hp : list BytesBuffer * list nat) (bs : list nat) : list BytesBuffer * list nat := foldl PutBuffer hp bs.

(** ** Messages *)

Record PooledMessage := mkPooled { pm_payloads : list (Format * nat); pm_buffers : list nat; pm_refCount : Z }.

Fixpoint find_format {T} (f : Format) (l : list (Format * T)) : option T :=
  match l with [] => None | (f', x) :: l => if decide (f' = f) then Some x else find_format f l end.

Definition Payload (heap : list BytesBuffer) (m : PooledMessage) (f : Format) : result (list B) string :=
  match find_format f (pm_payloads m) with
  | Some b => match heap !! b with Some buf => Ok (bb_bytes buf) | None => Err "payload not available in format" end
  | None => Err "payload not available in format"
  end.
Definition Retain (m : PooledMessage) : PooledMessage := mkPooled (pm_payloads m) (pm_buffers m) (i32 (pm_refCount m + 1)).
Definition Release (hp : list BytesBuffer * list nat) (m : PooledMessage) : outcome (PooledMessage * (list BytesBuffer * list nat)) :=
  let val := i32 (pm_refCount m - 1) in
  let m := mkPooled (pm_payloads m) (pm_buffers m) val in
  if val <? 0 then Panic else if val =? 0 then Ret (m, put_all hp (pm_buffers m)) else Ret (m, hp).

(** ** Serializations

    One that is under way: its event, the formats left, the buffers it has taken, the
    payloads so far, and what the serializers answered. *)
Record serialization := mkSerialization {
  sz_event : Ev;
  sz_todo : list Format;
  sz_buffers : list nat;
  sz_payloads : list (Format * nat);
  sz_answers : list (Format * list B);
}.

Record PoolState := mkPoolState {
  ps_manager : SerManager;
  ps_heap : list BytesBuffer;
  ps_pool : list nat;
  ps_running : list serialization;
  ps_msgs : list PooledMessage;
}.

Definition ps_with (s : PoolState) (hp : list BytesBuffer * list nat) (running : list serialization) (msgs : list PooledMessage) : PoolState :=
  mkPoolState (ps_manager s) hp.1 hp.2 running msgs.
Definition ps_manage (s : PoolState) (m : SerManager) : PoolState := mkPoolState m (ps_heap s) (ps_pool s) (ps_running s) (ps_msgs s).

Definition NewPoolState : PoolState := mkPoolState NewSerManager [] [] [] [].

(** [GetBuffer]: one of the pool, or a new one. *)
Inductive get_buffer (heap : list BytesBuffer) (pool : list nat) : nat → list BytesBuffer → list nat → Prop :=
  | gb_pooled l b r : pool = l ++ b :: r → get_buffer heap pool b heap (l ++ r)
  | gb_new : get_buffer heap pool (length heap) (heap ++ [newBuffer]) pool.

(** One turn of the loop of [Serialize], after the buffer was taken; [cap] is the capacity
    after the write. *)
Definition encode (s : PoolState) (l r : list serialization) (z : serialization) (f : Format) (todo : list Format)
    (b : nat) (heap : list BytesBuffer) (pool : list nat) (cap : Z) : outcome PoolState :=
  match sm_codecs (ps_manager s) f with
  | None => Panic
  | Some codec =>
      match codec (sz_event z) with
      | Err _ => Ret (ps_with s (put_all (heap, pool) (sz_buffers z ++ [b])) (l ++ r) (ps_msgs s))
      | Ok bs =>
          let heap := alter (λ buf, mkBuffer (bb_bytes buf ++ bs) (Z.max cap (bb_cap buf))) b heap in
          Ret (ps_with s (heap, pool)
                 (l ++ mkSerialization (sz_event z) todo (sz_buffers z ++ [b]) (sz_payloads z ++ [(f, b)]) (sz_answers z ++ [(f, bs)]) :: r)
                 (ps_msgs s))
      end
  end.

Inductive pool_label := PMade (answers : list (Format * list B)) | PRetained (k : nat) | PReleased (k : nat) | PNone | PTau.

(** A caller retains or releases only a message that it holds: one with references. *)
Inductive pmsg_step (s : PoolState) : pool_label → outcome PoolState → Prop :=
  | pp_register f c : pmsg_step s PTau (Ret (ps_manage s (RegisterCodec (ps_manager s) f c)))
  | pp_track f : pmsg_step s PTau (Ret (ps_manage s (TrackClient (ps_manager s) f)))
  | pp_untrack f : pmsg_step s PTau (Ret (ps_manage s (UntrackClient (ps_manager s) f)))
  | pp_none : active_formats (ps_manager s) = [] → pmsg_step s PNone (Ret s)
  | pp_begin e formats :
      formats ≡ₚ active_formats (ps_manager s) → formats ≠ [] →
      pmsg_step s PTau (Ret (ps_with s (ps_heap s, ps_pool s) (ps_running s ++ [mkSerialization e formats [] [] []]) (ps_msgs s)))
  | pp_encode l z r f todo b heap pool cap :
      ps_running s = l ++ z :: r → sz_todo z = f :: todo → get_buffer (ps_heap s) (ps_pool s) b heap pool →
      pmsg_step s PTau (encode s l r z f todo b heap pool cap)
  | pp_made l z r :
      ps_running s = l ++ z :: r → sz_todo z = [] →
      pmsg_step s (PMade (sz_answers z))
        (Ret (ps_with s (ps_heap s, ps_pool s) (l ++ r) (ps_msgs s ++ [mkPooled (sz_payloads z) (sz_buffers z) 1])))
  | pp_retain k l m r :
      ps_msgs s = l ++ m :: r → length l = k → 0 < pm_refCount m →
      pmsg_step s (PRetained k) (Ret (ps_with s (ps_heap s, ps_pool s) (ps_running s) (l ++ Retain m :: r)))
  | pp_release k l m r :
      ps_msgs s = l ++ m :: r → length l = k → 0 < pm_refCount m →
      pmsg_step s (PReleased k)
        (match Release (ps_heap s, ps_pool s) m with
         | Panic => Panic
         | Ret (m, hp) => Ret (ps_with s hp (ps_running s) (l ++ m :: r))
         end)
  | pp_collect l b r : ps_pool s = l ++ b :: r → pmsg_step s PTau (Ret (ps_with s (ps_heap s, l ++ r) (ps_running s) (ps_msgs s))).

Inductive pmsg_run : list pool_label → PoolState → Prop :=
  | pr_nil : pmsg_run [] NewPoolState
  | pr_snoc tr s l s' : pmsg_run tr s → pmsg_step s l (Ret s') → pmsg_run (tr ++ [l]) s'.

Definition made_by (l : pool_label) : list (list (Format * list B)) := match l with PMade a => [a] | _ => [] end.
Definition refs_by (k : nat) (l : pool_label) : Z :=
  match l with PRetained j => if decide (j = k) then 1 else 0 | PReleased j => if decide (j = k) then -1 else 0 | _ => 0 end.

(** ** Buffers and their owners *)

Definition is_empty (heap : list BytesBuffer) (b : nat) : Prop := ∃ buf, heap !! b = Some buf ∧ bb_bytes buf = [].

(** Giving buffers back: those kept are empty, the others untouched. *)
Lemma put_all_spec bs : ∀ heap pool, NoDup bs →
  ∃ heap' kept, put_all (heap, pool) bs = (heap', pool ++ kept) ∧ kept `sublist_of` bs ∧ length heap' = length heap ∧
    (∀ x, x ∉ bs → heap' !! x = heap !! x) ∧ Forall (is_empty heap') kept.
Proof.
  induction bs as [|b bs IH]; intros heap pool Hnd.
  - exists heap, []. cbn. rewrite app_nil_r. split_and!; [done|done|done|done|constructor].
  - apply NoDup_cons in Hnd as [Hb Hnd]. cbn [put_all foldl]. unfold PutBuffer at 2. cbn [fst snd].
    assert (Hskip : ∃ heap' kept, put_all (heap, pool) bs = (heap', pool ++ kept) ∧ kept `sublist_of` b :: bs ∧ length heap' = length heap ∧
      (∀ x, x ∉ b :: bs → heap' !! x = heap !! x) ∧ Forall (is_empty heap') kept).
    { destruct (IH heap pool Hnd) as (heap' & kept & H1 & H2 & H3 & H4 & H5). exists heap', kept. split_and!; try done; [by apply sublist_cons|].
      intros x Hx. apply H4. by intros ?; apply Hx; right. }
    destruct (heap !! b) as [buf|] eqn:Hbuf; [|exact Hskip]. destruct (maxPooledCap <? bb_cap buf); [exact Hskip|]. clear Hskip.
    destruct (IH (<[b := mkBuffer [] (bb_cap buf)]> heap) (pool ++ [b]) Hnd) as (heap' & kept & H1 & H2 & H3 & H4 & H5).
    exists heap', (b :: kept). unfold put_all in H1. rewrite length_insert in H3. rewrite H1, <- app_assoc. split_and!; [done|by apply sublist_skip|done| |].
    + intros x Hx. rewrite H4 by (by intros ?; apply Hx; right). apply list_lookup_insert_ne. intros ->. apply Hx. by left.
    + constructor; [|done]. eexists. rewrite H4 by done. rewrite list_lookup_insert_eq by (by eapply lookup_lt_Some). by split.
Qed.

(** A buffer that is taken is empty and nobody else's. *)
Lemma get_buffer_spec heap pool b heap1 pool1 rest :
  get_buffer heap pool b heap1 pool1 → NoDup (pool ++ rest) → Forall (λ x, (x < length heap)%nat) (pool ++ rest) → Forall (is_empty heap) pool →
  NoDup (b :: pool1 ++ rest) ∧ Forall (λ x, (x < length heap1)%nat) (b :: pool1 ++ rest) ∧ is_empty heap1 b ∧ Forall (is_empty heap1) pool1 ∧
  (length heap ≤ length heap1)%nat ∧ ∀ x, (x < length heap)%nat → heap1 !! x = heap !! x.
Proof.
  intros Hg Hnd Hr He. destruct Hg as [l b r ->|].
  - assert (Hp : (l ++ b :: r) ++ rest ≡ₚ b :: (l ++ r) ++ rest) by (rewrite <- !app_assoc; cbn; by rewrite <- Permutation_middle).
    rewrite Hp in Hnd, Hr. apply Forall_app in He as [He1 [He2 He3]%Forall_cons_1]. split_and!; try done. by apply Forall_app.
  - assert (Hnew : length heap ∉ pool ++ rest) by (intros Hin; apply (proj1 (Forall_forall _ _) Hr) in Hin; lia).
    assert (Hold : ∀ x, (x < length heap)%nat → (heap ++ [newBuffer]) !! x = heap !! x) by (intros x Hx; by apply lookup_app_l).
    split_and!; [by constructor| | | |rewrite length_app; lia|done].
    + rewrite length_app. cbn. constructor; [lia|]. eapply Forall_impl; [exact Hr|]. cbn. lia.
    + exists newBuffer. split; [|done]. by rewrite lookup_app_r, Nat.sub_diag by lia.
    + apply Forall_app in Hr as [Hr _]. apply Forall_forall. intros x Hx. pose proof (proj1 (Forall_forall _ _) He x Hx) as (buf & Hb & ?).
      exists buf. split; [|done]. by rewrite Hold by (by eapply lookup_lt_Some).
Qed.

(** The payloads hold what the serializers answered. *)
Definition holds (heap : list BytesBuffer) (ps : list (Format * nat)) (answers : list (Format * list B)) : Prop :=
  Forall2 (λ x y, x.1 = y.1 ∧ ∃ buf, heap !! x.2 = Some buf ∧ bb_bytes buf = y.2) ps answers.

Lemma holds_frame heap heap' ps answers : (∀ b, b ∈ ps.*2 → heap' !! b = heap !! b) → holds heap ps answers → holds heap' ps answers.
Proof.
  intros Hf Hh. unfold holds in *. induction Hh as [|[f b] [f' bs] ps answers [H1 H2] _ IH]; constructor.
  - cbn in *. split; [done|]. by rewrite Hf by (by left).
  - apply IH. intros b' Hb'. apply Hf. by right.
Qed.

Lemma holds_find heap ps answers f :
  holds heap ps answers →
  match find_format f ps with Some b => ∃ buf, heap !! b = Some buf ∧ find_format f answers = Some (bb_bytes buf) | None => find_format f answers = None end.
Proof.
  induction 1 as [|[f1 b] [f2 bs] ps answers [H1 H2] _ IH]; [done|]. cbn in *. subst. case_decide; [|done]. destruct H2 as (buf & ? & <-). by exists buf.
Qed.

Definition live (m : PooledMessage) : list nat := if 0 <? pm_refCount m then pm_buffers m else [].
Definition owned (s : PoolState) : list nat := ps_pool s ++ (ps_running s ≫= sz_buffers) ++ (ps_msgs s ≫= live).

Definition run_ok (mgr : SerManager) (heap : list BytesBuffer) (z : serialization) : Prop :=
  sz_buffers z = (sz_payloads z).*2 ∧ holds heap (sz_payloads z) (sz_answers z) ∧ Forall (λ f, sm_codecs mgr f ≠ None) (sz_todo z).
Definition msg_ok (heap : list BytesBuffer) (m : PooledMessage) (answers : list (Format * list B)) : Prop :=
  pm_buffers m = (pm_payloads m).*2 ∧ (0 < pm_refCount m → holds heap (pm_payloads m) answers).

Record pinv (tr : list pool_label) (s : PoolState) : Prop := {
  iv_nodup : NoDup (owned s);
  iv_range : Forall (λ b, (b < length (ps_heap s))%nat) (owned s);
  iv_pool : Forall (is_empty (ps_heap s)) (ps_pool s);
  iv_run : Forall (run_ok (ps_manager s) (ps_heap s)) (ps_running s);
  iv_msgs : Forall2 (msg_ok (ps_heap s)) (ps_msgs s) (tr ≫= made_by);
}.

Lemma runs_frame mgr heap heap' zs :
  (∀ b, b ∈ zs ≫= sz_buffers → heap' !! b = heap !! b) → Forall (run_ok mgr heap) zs → Forall (run_ok mgr heap') zs.
Proof.
  intros Hf Hok. induction Hok as [|z zs (H1 & H2 & H3) _ IH]; constructor.
  - split_and!; [done| |done]. eapply holds_frame; [|exact H2]. intros b Hb. apply Hf. cbn. apply elem_of_app. left. by rewrite H1.
  - apply IH. intros b Hb. apply Hf. cbn. apply elem_of_app. by right.
Qed.

Lemma msgs_frame heap heap' ms answers :
  (∀ b, b ∈ ms ≫= live → heap' !! b = heap !! b) → Forall2 (msg_ok heap) ms answers → Forall2 (msg_ok heap') ms answers.
Proof.
  intros Hf Hok. induction Hok as [|m a ms answers (H1 & H2) _ IH]; constructor.
  - split; [done|]. intros Hr. eapply holds_frame; [|by apply H2]. intros b Hb. apply Hf. cbn. apply elem_of_app. left.
    unfold live. rewrite (proj2 (Z.ltb_lt _ _) Hr). by rewrite H1.
  - apply IH. intros b Hb. apply Hf. cbn. apply elem_of_app. by right.
Qed.

Lemma Forall_sub {T} (P : T → Prop) l k : l `sublist_of` k → Forall P k → Forall P l.
Proof. induction 1; intros Hf; [done| |]; apply Forall_cons_1 in Hf as [? ?]; auto. Qed.

(** Codecs are only added. *)
Lemma runs_codecs mgr mgr' heap zs :
  (∀ f, sm_codecs mgr f ≠ None → sm_codecs mgr' f ≠ None) → Forall (run_ok mgr heap) zs → Forall (run_ok mgr' heap) zs.
Proof. intros Hc Hok. eapply Forall_impl; [exact Hok|]. intros z (H1 & H2 & H3). split_and!; [done|done|]. by eapply Forall_impl. Qed.

(** Where the buffers go: out of what is owned, some may be lost. *)
Lemma pinv_shrink tr l s s' heap :
  pinv tr s → made_by l = [] → ps_heap s' = heap → ps_heap s = heap → (∀ f, sm_codecs (ps_manager s) f ≠ None → sm_codecs (ps_manager s') f ≠ None) →
  ps_running s' = ps_running s → ps_msgs s' = ps_msgs s → ps_pool s' `sublist_of` ps_pool s → pinv (tr ++ [l]) s'.
Proof.
  intros [H1 H2 H3 H4 H5] Hl Hh' Hh Hc Hr Hm Hp. assert (Hsub : owned s' `sublist_of` owned s) by (unfold owned; rewrite Hr, Hm; by apply sublist_app).
  split; rewrite ?Hh', ?Hr, ?Hm; rewrite Hh in *.
  - by eapply sublist_NoDup.
  - by eapply Forall_sub.
  - by eapply Forall_sub.
  - by eapply runs_codecs.
  - rewrite bind_app. cbn. by rewrite Hl, !app_nil_r.
Qed.

(** Buffers that are given back leave the others alone. *)
Lemma return_buffers heap pool bs others :
  NoDup (pool ++ bs ++ others) → Forall (λ b, (b < length heap)%nat) (pool ++ bs ++ others) → Forall (is_empty heap) pool →
  ∃ heap' pool', put_all (heap, pool) bs = (heap', pool') ∧ NoDup (pool' ++ others) ∧ Forall (λ b, (b < length heap')%nat) (pool' ++ others) ∧
    Forall (is_empty heap') pool' ∧ ∀ x, x ∈ others → heap' !! x = heap !! x.
Proof.
  intros Hnd Hr He. pose proof Hnd as (Hpool & Hdisj & (Hbs & Hdisj' & _)%NoDup_app)%NoDup_app.
  destruct (put_all_spec bs heap pool Hbs) as (heap' & kept & -> & Hsub & Hlen & Hsame & Hempty). exists heap', (pool ++ kept).
  assert (Hs : (pool ++ kept) ++ others `sublist_of` pool ++ bs ++ others) by (rewrite <- app_assoc; by repeat apply sublist_app).
  split_and!; [done|exact (sublist_NoDup _ _ Hnd Hs)|rewrite Hlen; exact (Forall_sub _ _ _ Hs Hr)| |].
  - apply Forall_app. split; [|done]. apply Forall_forall. intros x Hx. destruct (proj1 (Forall_forall _ _) He x Hx) as (buf & Hb & ?).
    exists buf. split; [|done]. rewrite Hsame; [done|]. intros Hin. apply (Hdisj x Hx). apply elem_of_app. by left.
  - intros x Hx. apply Hsame. intros Hin. by apply (Hdisj' x Hin).
Qed.

Lemma pinv_begin tr s e formats :
  pinv tr s → formats ≡ₚ active_formats (ps_manager s) →
  pinv (tr ++ [PTau]) (ps_with s (ps_heap s, ps_pool s) (ps_running s ++ [mkSerialization e formats [] [] []]) (ps_msgs s)).
Proof.
  intros [H1 H2 H3 H4 H5] Hf. split; unfold owned in *; cbn; rewrite ?bind_app; cbn; rewrite ?app_nil_r; try done.
  apply Forall_app. split; [done|]. constructor; [|constructor]. split_and!; [done|constructor|]. cbn. rewrite Hf. apply Forall_forall. intros f.
  unfold active_formats. rewrite list_elem_of_filter. intros [Ha _]. unfold is_active in Ha. destruct (sm_codecs _ f); [done|]. by rewrite andb_false_r in Ha.
Qed.

(** The owners of a state, with one serialization singled out. *)
Lemma owned_running s l z r rest :
  ps_running s = l ++ z :: r → rest = sz_buffers z ++ ((l ++ r) ≫= sz_buffers) ++ (ps_msgs s ≫= live) → owned s ≡ₚ ps_pool s ++ rest.
Proof. intros Hr ->. unfold owned. rewrite Hr, !bind_app, bind_cons. solve_Permutation. Qed.

Lemma pinv_encode tr s l z r f todo b heap1 pool1 cap o :
  pinv tr s → ps_running s = l ++ z :: r → sz_todo z = f :: todo → get_buffer (ps_heap s) (ps_pool s) b heap1 pool1 →
  o = encode s l r z f todo b heap1 pool1 cap → ∃ s', o = Ret s' ∧ pinv (tr ++ [PTau]) s'.
Proof.
  intros [H1 H2 H3 H4 H5] Hrun Htodo Hget ->. pose proof (owned_running s l z r _ Hrun eq_refl) as Hown. set (rest := sz_buffers z ++ _) in Hown.
  rewrite Hown in H1, H2. destruct (get_buffer_spec _ _ _ _ _ rest Hget H1 H2 H3) as (Hnd & Hrange & Hb & Hpool & Hlen & Hsame).
  apply Forall_app in H2 as [_ H2]. rewrite Hrun in H4. apply Forall_app in H4 as [H4l [(K1 & K2 & K3) H4r]%Forall_cons_1].
  rewrite Htodo in K3. apply Forall_cons_1 in K3 as [Hcodec K3]. pose proof (Forall_app_2 _ _ _ H4l H4r) as Hothers.
  assert (Hrest : ∀ x, x ∈ rest → heap1 !! x = ps_heap s !! x) by (intros x Hx; apply Hsame; exact (proj1 (Forall_forall _ _) H2 x Hx)).
  unfold encode. destruct (sm_codecs (ps_manager s) f) as [codec|]; [|done]. destruct (codec (sz_event z)) as [bs|err].
  - eexists. split; [reflexivity|]. set (heap2 := alter _ b heap1). apply NoDup_cons in Hnd as [Hb' Hnd].
    assert (Hne : ∀ x, x ∈ pool1 ++ rest → heap2 !! x = heap1 !! x) by (intros x Hx; apply list_lookup_alter_ne; intros ->; done).
    assert (Hr2 : ∀ x, x ∈ rest → heap2 !! x = ps_heap s !! x) by (intros x Hx; rewrite Hne by (apply elem_of_app; by right); by apply Hrest).
    assert (Hown' : pool1 ++ ((l ++ mkSerialization (sz_event z) todo (sz_buffers z ++ [b]) (sz_payloads z ++ [(f, b)]) (sz_answers z ++ [(f, bs)]) :: r)
      ≫= sz_buffers) ++ (ps_msgs s ≫= live) ≡ₚ b :: pool1 ++ rest) by (unfold rest; rewrite !bind_app, bind_cons; cbn; solve_Permutation).
    split; unfold owned; cbn [ps_with ps_pool ps_running ps_msgs ps_heap ps_manager fst snd].
    + rewrite Hown'. by constructor.
    + rewrite Hown'. unfold heap2. by rewrite length_alter.
    + apply Forall_forall. intros x Hx. destruct (proj1 (Forall_forall _ _) Hpool x Hx) as (buf & ? & ?). exists buf. split; [|done].
      rewrite Hne; [done|]. apply elem_of_app. by left.
    + assert (Hf : Forall (run_ok (ps_manager s) heap2) (l ++ r)).
      { eapply runs_frame; [|exact Hothers]. intros x Hx. apply Hr2. unfold rest. rewrite !elem_of_app. tauto. }
      apply Forall_app in Hf as [Hfl Hfr]. apply Forall_app. split; [done|]. constructor; [|done]. split_and!; cbn; [by rewrite K1, fmap_app| |done].
      apply Forall2_app; [eapply holds_frame; [|exact K2]; intros x Hx; apply Hr2; unfold rest; rewrite !elem_of_app, K1; tauto|].
      constructor; [|constructor]. split; [done|]. destruct Hb as (buf & Hb & He). cbn. unfold heap2. rewrite list_lookup_alter_eq, Hb. eexists.
      split; [reflexivity|]. cbn. by rewrite He.
    + rewrite bind_app. cbn. rewrite !app_nil_r. eapply msgs_frame; [|exact H5]. intros x Hx. apply Hr2. unfold rest. rewrite !elem_of_app. tauto.
  - set (others := ((l ++ r) ≫= sz_buffers) ++ (ps_msgs s ≫= live)).
    assert (Hp : b :: pool1 ++ rest ≡ₚ pool1 ++ (sz_buffers z ++ [b]) ++ others) by (unfold rest, others; solve_Permutation). rewrite Hp in Hnd, Hrange.
    destruct (return_buffers heap1 pool1 _ others Hnd Hrange Hpool) as (heap' & pool' & Hput & Hnd' & Hrange' & Hempty & Hkeep).
    eexists. split; [reflexivity|]. rewrite Hput.
    assert (Hr2 : ∀ x, x ∈ others → heap' !! x = ps_heap s !! x).
    { intros x Hx. rewrite Hkeep by done. apply Hrest. unfold rest. apply elem_of_app. by right. }
    split; unfold owned; cbn [ps_with ps_pool ps_running ps_msgs ps_heap ps_manager fst snd]; [done|done|done| |].
    + eapply runs_frame; [|exact Hothers]. intros x Hx. apply Hr2. unfold others. apply elem_of_app. by left.
    + rewrite bind_app. cbn. rewrite !app_nil_r. eapply msgs_frame; [|exact H5]. intros x Hx. apply Hr2. unfold others. apply elem_of_app. by right.
Qed.

Lemma pinv_made tr s l z r :
  pinv tr s → ps_running s = l ++ z :: r →
  pinv (tr ++ [PMade (sz_answers z)]) (ps_with s (ps_heap s, ps_pool s) (l ++ r) (ps_msgs s ++ [mkPooled (sz_payloads z) (sz_buffers z) 1])).
Proof.
  intros [H1 H2 H3 H4 H5] Hrun. pose proof (owned_running s l z r _ Hrun eq_refl) as Hown. rewrite Hrun in H4.
  apply Forall_app in H4 as [H4l [(K1 & K2 & _) H4r]%Forall_cons_1].
  assert (Hown' : ps_pool s ++ ((l ++ r) ≫= sz_buffers) ++ (ps_msgs s ++ [mkPooled (sz_payloads z) (sz_buffers z) 1]) ≫= live ≡ₚ owned s)
    by (rewrite Hown, (bind_app live); cbn; solve_Permutation).
  split; unfold owned; cbn [ps_with ps_pool ps_running ps_msgs ps_heap ps_manager fst snd].
  - by rewrite Hown'.
  - by rewrite Hown'.
  - done.
  - by apply Forall_app.
  - rewrite bind_app. cbn. apply Forall2_app; [done|]. constructor; [|constructor]. by split.
Qed.

(** The owners of a state, with one message singled out. *)
Lemma owned_msgs s l m r : ps_msgs s = l ++ m :: r → owned s ≡ₚ ps_pool s ++ live m ++ (ps_running s ≫= sz_buffers) ++ ((l ++ r) ≫= live).
Proof. intros Hm. unfold owned. rewrite Hm, !bind_app, bind_cons. solve_Permutation. Qed.

(** A message whose count stays positive keeps its buffers. *)
Lemma pinv_count tr s l m r lbl ref :
  pinv tr s → ps_msgs s = l ++ m :: r → made_by lbl = [] → 0 < pm_refCount m → 0 < ref →
  pinv (tr ++ [lbl]) (ps_with s (ps_heap s, ps_pool s) (ps_running s) (l ++ mkPooled (pm_payloads m) (pm_buffers m) ref :: r)).
Proof.
  intros [H1 H2 H3 H4 H5] Hm Hl Hpos Href. pose proof (owned_msgs s l m r Hm) as Hown.
  assert (Hown' : owned (ps_with s (ps_heap s, ps_pool s) (ps_running s) (l ++ mkPooled (pm_payloads m) (pm_buffers m) ref :: r)) ≡ₚ owned s).
  { rewrite Hown. rewrite (owned_msgs _ l (mkPooled (pm_payloads m) (pm_buffers m) ref) r) by done. unfold live at 1 3. cbn [pm_refCount pm_buffers].
    by rewrite !(proj2 (Z.ltb_lt _ _)) by done. }
  split; cbn [ps_with ps_pool ps_running ps_msgs ps_heap ps_manager fst snd]; [by rewrite Hown'|by rewrite Hown'|done|done|].
  rewrite bind_app. cbn. rewrite Hl, !app_nil_r. rewrite Hm in H5. apply Forall2_app_inv_l in H5 as (a1 & a2 & Ha1 & Ha2 & ->).
  inversion Ha2 as [|? a ? a3 [K1 K2] Ha3]; subst. apply Forall2_app; [done|]. constructor; [|done]. split; [done|]. intros _. by apply K2.
Qed.

Lemma pinv_last tr s l m r k :
  pinv tr s → ps_msgs s = l ++ m :: r → 0 < pm_refCount m →
  ∃ hp, put_all (ps_heap s, ps_pool s) (pm_buffers m) = hp ∧
    pinv (tr ++ [PReleased k]) (ps_with s hp (ps_running s) (l ++ mkPooled (pm_payloads m) (pm_buffers m) 0 :: r)).
Proof.
  intros [H1 H2 H3 H4 H5] Hm Hpos. pose proof (owned_msgs s l m r Hm) as Hown. unfold live in Hown at 1. rewrite (proj2 (Z.ltb_lt _ _) Hpos) in Hown.
  set (others := (ps_running s ≫= sz_buffers) ++ ((l ++ r) ≫= live)) in Hown. rewrite Hown in H1, H2.
  destruct (return_buffers _ _ _ others H1 H2 H3) as (heap' & pool' & -> & Hnd & Hrange & Hempty & Hkeep). eexists. split; [reflexivity|].
  assert (Hown' : owned (ps_with s (heap', pool') (ps_running s) (l ++ mkPooled (pm_payloads m) (pm_buffers m) 0 :: r)) ≡ₚ pool' ++ others)
    by (by rewrite (owned_msgs _ l (mkPooled (pm_payloads m) (pm_buffers m) 0) r) by done).
  split; cbn [ps_with ps_pool ps_running ps_msgs ps_heap ps_manager fst snd]; [by rewrite Hown'|by rewrite Hown'|done| |].
  - eapply runs_frame; [|exact H4]. intros x Hx. apply Hkeep. apply elem_of_app. by left.
  - rewrite bind_app. cbn. rewrite !app_nil_r. rewrite Hm in H5. apply Forall2_app_inv_l in H5 as (a1 & a2 & Ha1 & Ha2 & ->).
    inversion Ha2 as [|? a ? a3 [K1 K2] Ha3]; subst. apply Forall2_app; [|constructor].
    + eapply msgs_frame; [|exact Ha1]. intros x Hx. apply Hkeep. unfold others. rewrite bind_app, !elem_of_app. tauto.
    + split; [done|]. cbn. lia.
    + eapply msgs_frame; [|exact Ha3]. intros x Hx. apply Hkeep. unfold others. rewrite bind_app, !elem_of_app. tauto.
Qed.

(** ** The counts *)

Definition names (n : nat) (l : pool_label) : Prop := match l with PRetained j | PReleased j => (j < n)%nat | _ => True end.
Definition count_of (k : nat) (tr : list pool_label) : Z := 1 + foldr Z.add 0 (refs_by k <$> tr).

Record prefs (tr : list pool_label) (s : PoolState) : Prop := {
  rf_count : ∀ k m, ps_msgs s !! k = Some m → pm_refCount m = count_of k tr ∧ 0 ≤ pm_refCount m ≤ 1 + Z.of_nat (length tr);
  rf_names : Forall (names (length (ps_msgs s))) tr;
}.

Lemma count_snoc k tr l : count_of k (tr ++ [l]) = count_of k tr + refs_by k l.
Proof.
  unfold count_of. rewrite fmap_app. cbn. induction tr as [|l' tr IH]; cbn; lia.
Qed.

Lemma count_fresh k tr : Forall (names k) tr → count_of k tr = 1.
Proof.
  intros Hn. induction tr as [|l tr IH] using rev_ind; [done|]. apply Forall_app in Hn as [Hn [Hl _]%Forall_cons_1]. rewrite count_snoc, IH by done.
  destruct l; cbn in *; try lia; rewrite decide_False by lia; lia.
Qed.

Lemma prefs_same tr s s' l : prefs tr s → ps_msgs s' = ps_msgs s → (∀ k, refs_by k l = 0) → names 0 l → prefs (tr ++ [l]) s'.
Proof.
  intros [H1 H2] Hm Hl Hn. split; rewrite Hm.
  - intros k m Hk. destruct (H1 k m Hk) as [-> Hb]. rewrite count_snoc, Hl, length_app. cbn. split; lia.
  - apply Forall_app. split; [done|]. constructor; [|constructor]. by destruct l; cbn in *; try lia.
Qed.

Lemma prefs_count tr s s' l m r lbl ref :
  prefs tr s → ps_msgs s = l ++ m :: r → ps_msgs s' = l ++ mkPooled (pm_payloads m) (pm_buffers m) ref :: r →
  (∀ k, refs_by k lbl = if decide (k = length l) then ref - pm_refCount m else 0) → names (length (ps_msgs s)) lbl → 0 ≤ ref ≤ pm_refCount m + 1 →
  prefs (tr ++ [lbl]) s'.
Proof.
  intros [H1 H2] Hm Hm' Hl Hn Href. assert (Hlen : length (ps_msgs s') = length (ps_msgs s)) by (by rewrite Hm, Hm', !length_app). split; rewrite ?Hlen.
  - intros k m' Hk. rewrite count_snoc, Hl, length_app. cbn [length]. rewrite Hm' in Hk. case_decide as Hkl.
    + subst k. rewrite list_lookup_middle in Hk by done. injection Hk as <-. cbn [pm_refCount].
      destruct (H1 (length l) m) as [Hc Hb]; [rewrite Hm; by apply list_lookup_middle|]. rewrite <- Hc. split; lia.
    + destruct (H1 k m') as [-> Hb]; [|split; lia]. rewrite Hm. apply lookup_app_Some in Hk as [Hk|[Hge Hk]]; [by apply lookup_app_l_Some|].
      rewrite lookup_app_r by done. destruct (k - length l)%nat as [|d] eqn:Hd; [lia|]. done.
  - apply Forall_app. split; [done|]. by constructor.
Qed.

Lemma pool_inv_step tr s lbl o :
  Z.of_nat (length tr) < 2 ^ 31 - 2 → pinv tr s → prefs tr s → pmsg_step s lbl o → ∃ s', o = Ret s' ∧ pinv (tr ++ [lbl]) s' ∧ prefs (tr ++ [lbl]) s'.
Proof.
  intros Hbound Hp Hr Hs. destruct Hs as [f c|f|f|Hn|e formats Hf Hne|l z r f todo b heap pool cap Hrun Htodo Hget|l z r Hrun Htodo|k l m r Hm Hk Hpos|k l m r Hm Hk Hpos|l b r Hpool].
  1-4: eexists; split; [reflexivity|]; split; [|by eapply prefs_same]; eapply pinv_shrink; try done.
  - intros f' Hc. cbn. unfold fmt_upd. by case_decide.
  - eexists. split; [reflexivity|]. split; [by apply pinv_begin|by eapply prefs_same].
  - destruct (pinv_encode tr s l z r f todo b heap pool cap _ Hp Hrun Htodo Hget eq_refl) as (s' & He & Hp'). exists s'. split_and!; [done|done|].
    eapply prefs_same; [exact Hr| |done|done]. unfold encode in He. repeat case_match; simplify_eq; done.
  - eexists. split; [reflexivity|]. split; [by apply pinv_made|]. destruct Hr as [H1 H2]. split; cbn.
    + intros k m Hk. rewrite count_snoc, length_app. cbn. apply lookup_app_Some in Hk as [Hk|[Hge Hk]].
      * destruct (H1 k m Hk) as [-> ?]. split; lia.
      * apply list_lookup_singleton_Some in Hk as [Hk0 <-]. cbn. replace k with (length (ps_msgs s)) by lia. rewrite count_fresh by done. split; lia.
    + rewrite length_app. apply Forall_app. split; [|by repeat constructor]. eapply Forall_impl; [exact H2|]. intros [| | | |]; cbn; lia.
  - destruct (rf_count _ _ Hr k m) as [_ Hb]; [rewrite Hm; by apply list_lookup_middle|]. eexists. split; [reflexivity|]. unfold Retain. rewrite i32_small by lia.
    split; [apply pinv_count; done || lia|]. eapply (prefs_count _ _ _ l m r); [exact Hr|exact Hm|done| | |lia].
    + intros k'. cbn. rewrite Hk. repeat case_decide; try congruence; lia.
    + cbn. rewrite Hm, length_app. cbn. lia.
  - destruct (rf_count _ _ Hr k m) as [_ Hb]; [rewrite Hm; by apply list_lookup_middle|]. unfold Release. rewrite i32_small by lia.
    rewrite (proj2 (Z.ltb_ge _ _)) by lia. cbn [pm_buffers].
    assert (Hrefs : ∀ s' , ps_msgs s' = l ++ mkPooled (pm_payloads m) (pm_buffers m) (pm_refCount m - 1) :: r → prefs (tr ++ [PReleased k]) s').
    { intros s' Hm'. eapply (prefs_count _ _ _ l m r); [exact Hr|exact Hm|exact Hm'| | |lia].
      - intros k'. cbn. rewrite Hk. repeat case_decide; try congruence; lia.
      - cbn. rewrite Hm, length_app. cbn. lia. }
    destruct (Z.eqb_spec (pm_refCount m - 1) 0) as [H0|H0].
    + destruct (pinv_last tr s l m r k Hp Hm Hpos) as (hp & -> & Hp'). eexists. split; [reflexivity|]. rewrite H0 in *. split; [done|by apply Hrefs].
    + eexists. split; [reflexivity|]. split; [apply pinv_count; done || lia|by apply Hrefs].
  - eexists. split; [reflexivity|]. split; [|by eapply prefs_same]. eapply pinv_shrink; try done. cbn. rewrite Hpool. apply sublist_app; [done|by apply sublist_cons].
Qed.

Lemma pmsg_run_inv tr s : Z.of_nat (length tr) < 2 ^ 31 - 1 → pmsg_run tr s → pinv tr s ∧ prefs tr s.
Proof.
  intros Hb Hrun. revert Hb. induction Hrun as [|tr s l s' Hrun IH Hs]; intros Hb.
  - split; split; cbn; try done; constructor.
  - rewrite length_app in Hb. cbn in Hb. destruct IH as [IH1 IH2]; [lia|].
    destruct (pool_inv_step tr s l (Ret s') ltac:(lia) IH1 IH2 Hs) as (s1 & [= ->] & ? & ?). done.
Qed.

(** C23: A message stays what it was while someone holds it. In every interleaving of
    serializations, clients that retain and release what they hold, and the collector,
    with fewer than 2^31 - 2 steps, no step panics, no buffer belongs to two live
    messages, serializations or the pool at once, and pooled buffers are empty; a message
    counts one reference and its retains less its releases, and as long as one is left
    its payload in every format is what the serializer answered. *)
Theorem pooled_messages_are_stable tr s :
  Z.of_nat (length tr) < 2 ^ 31 - 2 → pmsg_run tr s →
  (∀ l o, pmsg_step s l o → o ≠ Panic) ∧ NoDup (owned s) ∧ Forall (is_empty (ps_heap s)) (ps_pool s) ∧
  length (ps_msgs s) = length (tr ≫= made_by) ∧
  (∀ k m answers, ps_msgs s !! k = Some m → (tr ≫= made_by) !! k = Some answers →
     pm_refCount m = count_of k tr ∧
     (0 < pm_refCount m → ∀ f, Payload (ps_heap s) m f = match find_format f answers with Some bs => Ok bs | None => Err "payload not available in format" end)).
Proof.
  intros Hb Hrun. destruct (pmsg_run_inv tr s ltac:(lia) Hrun) as [Hp Hr]. split_and!.
  - intros l o Hs. by destruct (pool_inv_step tr s l o Hb Hp Hr Hs) as (s' & -> & _).
  - apply Hp.
  - apply Hp.
  - by eapply Forall2_length, iv_msgs.
  - intros k m answers Hm Ha. split; [by apply (rf_count _ _ Hr)|]. intros Hpos f.
    destruct (Forall2_lookup_lr _ _ _ _ _ _ (iv_msgs _ _ Hp) Hm Ha) as [_ Hh]. specialize (Hh Hpos). unfold Payload.
    pose proof (holds_find _ _ _ f Hh) as Hf. destruct (find_format f (pm_payloads m)) as [b|]; [destruct Hf as (buf & -> & ->)|rewrite Hf]; done.
Qed.
End pool.

(** ** A message *)

Definition demo_codec : Serializer (Ev := Z) (B := Z) := λ e, Ok [e; e].
Lemma pr_next {Ev B} tr (s s' : PoolState (Ev := Ev) (B := B)) l o : pmsg_run tr s → pmsg_step s l o → o = Ret s' → pmsg_run (tr ++ [l]) s'.
Proof. intros Hr Hs ->. by eapply pr_snoc. Qed.
Tactic Notation "p_then" hyp(H) uconstr(c) := eapply pr_next in H; [|eapply c; try reflexivity; done|reflexivity]; cbn in H.

(** A client of the JSON format, an event, a second holder, and one release. *)
Definition message_trace : list (pool_label (B := Z)) :=
  [PTau; PTau; PTau; PTau; PMade [(FormatJSON, [7; 7])]; PRetained 0; PReleased 0].

Lemma message_trace_run :
  ∃ s : PoolState (Ev := Z), pmsg_run message_trace s ∧ ps_msgs s = [mkPooled [(FormatJSON, 0%nat)] [0%nat] 1].
Proof.
  pose proof (pr_nil (Ev := Z) (B := Z)) as Hr. p_then Hr (pp_register _ FormatJSON demo_codec). p_then Hr (pp_track _ FormatJSON).
  p_then Hr (pp_begin _ 7 [FormatJSON]).
  eapply pr_next in Hr; [|eapply (pp_encode _ [] _ [] FormatJSON [] _ _ _ 1024); [reflexivity|reflexivity|apply gb_new]|reflexivity]. cbn in Hr.
  p_then Hr (pp_made _ [] _ []). p_then Hr (pp_retain _ 0%nat [] _ []). p_then Hr (pp_release _ 0%nat [] _ []).
  eexists. split; [exact Hr|]. reflexivity.
Qed.

Lemma pooled_messages_are_stable_witness :
  ∃ s m, pmsg_run (Ev := Z) message_trace s ∧ ps_msgs s !! 0%nat = Some m ∧ Payload (ps_heap s) m FormatJSON = Ok [7; 7].
Proof.
  destruct message_trace_run as (s & Hrun & Hm). eexists s, _. split; [exact Hrun|]. split; [rewrite Hm; reflexivity|].
  destruct (pooled_messages_are_stable message_trace s) as (_ & _ & _ & _ & H).
  - cbn. lia.
  - exact Hrun.
  - destruct (H 0%nat _ [(FormatJSON, [7; 7])] ltac:(rewrite Hm; reflexivity) eq_refl) as [_ H2]. exact (H2 ltac:(cbn; lia) FormatJSON).
Defined.

(** A release too many panics, and leaves the count below zero. *)
Lemma over_release_panics {B} (hp : list (BytesBuffer (B := B)) * list nat) m : pm_refCount m = 0 → Release hp m = Panic.
Proof. intros H0. unfold Release. by rewrite H0. Qed.
