(* ===== verification/Config.v ===== *)
(** * Config: defaults, decoding and validation of the configuration

    [internal/config]: the configuration as records ([config.go]), the built-in
    defaults, the hook that splits a list, the check of unknown keys, the validation
    that collects every error and the loader; the type of secrets ([secret.go]) and
    their rotation ([secret_rotation.go]); the state that is written to disk
    ([persist.go]). How files and environment variables are read and merged is the
    library's (Viper), a parameter of the loader; the errors are the source's texts
    without the values printed into them. *)

From Stdlib Require Import Strings.Ascii Strings.String Floats.SpecFloat.
From stdpp Require Import pretty.
From S2P Require Import Prelude Bytes Float64 Discovery WalCodec WalIndex WalSegment WalLog WalManager Sequencer MarketEvent Bus Pipeline Normalization Exchange.

(** ** Secrets *)

Record SecretString := NewSecretString { ss_value : string }.
Definition Value (s : SecretString) : string := ss_value s.
Definition Secret_String (s : SecretString) : string := "***".
Definition IsEmpty (s : SecretString) : bool := String.eqb (ss_value s) "".
Definition Redacted (s : SecretString) : string :=
  if IsEmpty s then "(empty)" else "(set, length=" +:+ pretty (Z.of_nat (String.length (ss_value s))) +:+ ")".

(** ** Data *)

Record ServerConfig := mkServer {
  sv_Host : string; sv_Port : Z; sv_GatewayID : string; sv_ReadTimeout : Z; sv_WriteTimeout : Z; sv_ShutdownTimeout : Z }.
Record RedisConfig := mkRedis { rd_Enabled : bool; rd_Addr : string; rd_Password : SecretString; rd_DB : Z }.
Record FeedConfig := mkFeed { fd_Enabled : bool; fd_Symbols : list string; fd_ReconnectDelay : Z; fd_TickInterval : Z; fd_BenchmarkMode : bool }.
Record LogConfig := mkLogConfig { lg_Level : string; lg_Format : string }.
Record MetricsConfig := mkMetrics { mt_Enabled : bool; mt_Path : string }.
Record DatabaseConfig := mkDatabase {
  db_Enabled : bool; db_Host : string; db_Port : Z; db_User : string; db_Password : SecretString; db_DBName : string; db_SSLMode : string;
  db_MaxOpenConns : Z; db_MaxIdleConns : Z; db_MaxLifetime : Z }.
Record DiscoveryConfig := mkDiscoveryConfig { dc_Enabled : bool; dc_TTL : Z; dc_HeartbeatInterval : Z }.
Record SnapshotConfig := mkSnapshotConfig { sn_Enabled : bool; sn_CheckpointPath : string; sn_CheckpointInterval : Z; sn_MaxAge : Z }.
Record TracingConfig := mkTracing { tr_Enabled : bool; tr_Endpoint : string; tr_SampleRatio : float64 }.
Record ProfilingConfig := mkProfiling { pf_Enabled : bool; pf_MutexFraction : Z; pf_BlockRate : Z }.

Record AppConfig := mkAppConfig {
  cf_Server : ServerConfig;
  cf_Redis : RedisConfig;
  cf_Feed : FeedConfig;
  cf_Log : LogConfig;
  cf_Metrics : MetricsConfig;
  cf_Discovery : DiscoveryConfig;
  cf_Database : DatabaseConfig;
  cf_Snapshot : SnapshotConfig;
  cf_Tracing : TracingConfig;
  cf_Adapters : list AdapterConfig;
  cf_Profiling : ProfilingConfig;
}.

(** ** Defaults *)

Definition default_adapters : list AdapterConfig :=
  [mkAdapterConfig "simulator" true "" ["AAPL"; "MSFT"; "GOOG"; "AMZN"; "TSLA"] 0; mkAdapterConfig "nasdaq" true "" ["META"; "NFLX"] 0;
   mkAdapterConfig "nyse" true "" ["IBM"; "JPM"] 0; mkAdapterConfig "crypto" true "" ["BTC-USD"; "ETH-USD"] 0].

(** The float64 nearest to 0.01. *)
Definition f64_0_01 : float64 := f64_lit 5764607523034235 (-59).

Definition default_config : AppConfig :=
  mkAppConfig
    (mkServer "0.0.0.0" 9090 "" (10 * Second) (10 * Second) (15 * Second))
    (mkRedis false "localhost:6379" (NewSecretString "") 0)
    (mkFeed true ["AAPL"; "MSFT"; "GOOG"; "AMZN"; "TSLA"] (5 * Second) 0 false)
    (mkLogConfig "info" "json")
    (mkMetrics true "/metrics")
    (mkDiscoveryConfig false (30 * Second) (10 * Second))
    (mkDatabase false "localhost" 5432 "postgres" (NewSecretString "") "rtmds" "disable" 10 5 (5 * Minute))
    (mkSnapshotConfig true "data/snapshot.json" (30 * Second) (24 * Hour))
    (mkTracing false "localhost:4318" f64_0_01)
    default_adapters
    (mkProfiling false 0 0).

(** ** Lists *)

(** [strings.Split] at a character, and [strings.TrimSpace], whose treatment of text
    beyond ASCII is a parameter. *)
Fixpoint split_on (c : ascii) (s : string) : list string :=
  match s with
  | "" => [""]
  | String a s => if Ascii.eqb a c then "" :: split_on c s else match split_on c s with p :: ps => String a p :: ps | [] => [String a ""] end
  end.
Definition TrimSpace_text (trim_unicode : string → string) (s : string) : string :=
  if string_any (λ a, negb (is_ascii a)) s then trim_unicode s else TrimSpace s.

(** The hook for a list given as one string. *)
Definition decodeStringToSlice (trim_unicode : string → string) (s : string) : list string :=
  if String.eqb s "" then [] else filter (λ p, p ≠ "") (TrimSpace_text trim_unicode <$> split_on "," s).

(** ** Keys *)

Definition knownKeys : list string :=
  ["server.host"; "server.port"; "server.gateway_id"; "server.read_timeout"; "server.write_timeout"; "server.shutdown_timeout";
   "redis.enabled"; "redis.addr"; "redis.password"; "redis.db";
   "feed.enabled"; "feed.symbols"; "feed.reconnect_delay"; "feed.tick_interval"; "feed.benchmark_mode";
   "log.level"; "log.format"; "metrics.enabled"; "metrics.path";
   "database.enabled"; "database.host"; "database.port"; "database.user"; "database.password"; "database.dbname";
   "database.sslmode"; "database.max_open_conns"; "database.max_idle_conns"; "database.max_lifetime";
   "snapshot.enabled"; "snapshot.checkpoint_path"; "snapshot.checkpoint_interval"; "snapshot.max_age";
   "discovery.enabled"; "discovery.ttl"; "discovery.heartbeat_interval";
   "tracing.enabled"; "tracing.endpoint"; "tracing.sample_ratio"; "exchange.adapters";
   "profiling.enabled"; "profiling.mutex_fraction"; "profiling.block_rate"].

(** The keys that have a default; the library decodes these and the keys of the file. *)
Definition defaultKeys : list string :=
  ["server.host"; "server.port"; "server.gateway_id"; "server.read_timeout"; "server.write_timeout"; "server.shutdown_timeout";
   "redis.enabled"; "redis.addr"; "redis.db"; "feed.enabled"; "feed.symbols"; "feed.reconnect_delay"; "feed.tick_interval";
   "feed.benchmark_mode"; "exchange.adapters"; "log.level"; "log.format"; "metrics.enabled"; "metrics.path"; "discovery.enabled";
   "discovery.ttl"; "discovery.heartbeat_interval"; "database.enabled"; "database.host"; "database.port"; "database.user";
   "database.password"; "database.dbname"; "database.sslmode"; "database.max_open_conns"; "database.max_idle_conns";
   "database.max_lifetime"; "snapshot.enabled"; "snapshot.checkpoint_path"; "snapshot.checkpoint_interval"; "snapshot.max_age";
   "tracing.enabled"; "tracing.endpoint"; "tracing.sample_ratio"; "profiling.enabled"; "profiling.mutex_fraction"; "profiling.block_rate"].

(** [validateUnknownKeys]: the keys that are set and not known. *)
Definition validateUnknownKeys (keys : list (string * bool)) : list string := (filter (λ k, k.2 = true ∧ k.1 ∉ knownKeys) keys).*1.

(** ** Addresses *)

Fixpoint first_pos (c : ascii) (l : list ascii) : option nat :=
  match l with [] => None | a :: l => if Ascii.eqb a c then Some 0%nat else S <$> first_pos c l end.
Fixpoint last_pos (c : ascii) (l : list ascii) : option nat :=
  match l with
  | [] => None
  | a :: l => match last_pos c l with Some i => Some (S i) | None => if Ascii.eqb a c then Some 0%nat else None end
  end.
Definition has_char (c : ascii) (l : list ascii) : bool := existsb (Ascii.eqb c) l.

(** Whether [net.SplitHostPort] answers an error. *)
Definition SplitHostPort_fails (hostport : string) : bool :=
  let hp := list_ascii_of_string hostport in
  let brackets (j k : nat) := has_char "[" (drop j hp) || has_char "]" (drop k hp) in
  match last_pos ":" hp with
  | None => true
  | Some i =>
      if match hp with a :: _ => Ascii.eqb a "[" | [] => false end then
        match first_pos "]" hp with
        | None => true
        | Some e => if (e + 1 =? i)%nat then brackets 1%nat (e + 1)%nat else true
        end
      else has_char ":" (take i hp) || brackets 0%nat 0%nat
  end.

(** ** Validation *)

Definition check (b : bool) (msg : string) : list string := if b then [msg] else [].
Definition one_of (l : list string) (s : string) : bool := existsb (String.eqb s) l.

Definition validate_server (s : ServerConfig) : list string :=
  check ((sv_Port s <? 1) || (65535 <? sv_Port s)) "server.port is out of range [1, 65535]" ++
  check (sv_ReadTimeout s <=? 0) "server.read_timeout must be positive" ++
  check (sv_WriteTimeout s <=? 0) "server.write_timeout must be positive" ++
  check (sv_ShutdownTimeout s <=? 0) "server.shutdown_timeout must be positive" ++
  check (sv_ShutdownTimeout s <? sv_ReadTimeout s) "server.shutdown_timeout should be >= read_timeout for graceful shutdown".

Definition validate_redis (r : RedisConfig) : list string :=
  if rd_Enabled r then
    check (String.eqb (rd_Addr r) "") "redis.addr must not be empty when redis is enabled" ++
    check (SplitHostPort_fails (rd_Addr r)) "redis.addr is not a valid host:port" ++
    check ((rd_DB r <? 0) || (15 <? rd_DB r)) "redis.db is out of range [0, 15]"
  else [].

Definition validate_feed (f : FeedConfig) : list string :=
  if fd_Enabled f then
    check (length (fd_Symbols f) =? 0)%nat "feed.symbols must not be empty when feed is enabled" ++
    (fd_Symbols f ≫= λ sym, check (String.eqb sym "") "feed.symbols must not be empty" ++ check (10 <? String.length sym)%nat "feed.symbols exceeds max length 10") ++
    check (fd_ReconnectDelay f <=? 0) "feed.reconnect_delay must be positive"
  else [].

Definition validate_log (l : LogConfig) : list string :=
  check (negb (one_of ["debug"; "info"; "warn"; "error"] (lg_Level l))) "log.level must be one of: debug, info, warn, error" ++
  check (negb (one_of ["json"; "text"] (lg_Format l))) "log.format must be one of: json, text".

Definition validate_database (d : DatabaseConfig) : list string :=
  if db_Enabled d then
    check (String.eqb (db_Host d) "") "database.host must not be empty when database is enabled" ++
    check ((db_Port d <? 1) || (65535 <? db_Port d)) "database.port is out of range [1, 65535]" ++
    check (String.eqb (db_User d) "") "database.user must not be empty when database is enabled" ++
    check (String.eqb (db_DBName d) "") "database.dbname must not be empty when database is enabled" ++
    check (negb (one_of ["disable"; "require"; "verify-ca"; "verify-full"] (db_SSLMode d))) "database.sslmode must be one of: disable, require, verify-ca, verify-full" ++
    check (db_MaxOpenConns d <? 0) "database.max_open_conns must be non-negative" ++
    check (db_MaxIdleConns d <? 0) "database.max_idle_conns must be non-negative" ++
    check ((db_MaxOpenConns d <? db_MaxIdleConns d) && (0 <? db_MaxOpenConns d)) "database.max_idle_conns should be <= max_open_conns" ++
    check (db_MaxLifetime d <=? 0) "database.max_lifetime must be positive"
  else [].

Definition validate_snapshot (s : SnapshotConfig) : list string :=
  if sn_Enabled s then
    check (String.eqb (sn_CheckpointPath s) "") "snapshot.checkpoint_path must not be empty when snapshot is enabled" ++
    check (sn_CheckpointInterval s <=? 0) "snapshot.checkpoint_interval must be positive" ++
    check (sn_MaxAge s <=? 0) "snapshot.max_age must be positive"
  else [].

Definition validate_discovery (d : DiscoveryConfig) (redis : bool) : list string :=
  check (dc_Enabled d && negb redis) "discovery.enabled requires redis.enabled to be true" ++
  if dc_Enabled d then
    check (dc_TTL d <=? 0) "discovery.ttl must be positive" ++
    check (dc_HeartbeatInterval d <=? 0) "discovery.heartbeat_interval must be positive" ++
    check (dc_TTL d <=? dc_HeartbeatInterval d) "discovery.heartbeat_interval should be < ttl for reliable registration"
  else [].

Definition validate_rest (c : AppConfig) : list string :=
  check (mt_Enabled (cf_Metrics c) && String.eqb (mt_Path (cf_Metrics c)) "") "metrics.path must not be empty when metrics is enabled" ++
  (if tr_Enabled (cf_Tracing c) then
     check (String.eqb (tr_Endpoint (cf_Tracing c)) "") "tracing.endpoint must not be empty when tracing is enabled" ++
     check (f64_ltb (tr_SampleRatio (cf_Tracing c)) f64_zero || f64_ltb f64_one (tr_SampleRatio (cf_Tracing c))) "tracing.sample_ratio must be in range [0.0, 1.0]"
   else []) ++
  (if pf_Enabled (cf_Profiling c) then
     check (pf_MutexFraction (cf_Profiling c) <? 0) "profiling.mutex_fraction must be non-negative" ++
     check (pf_BlockRate (cf_Profiling c) <? 0) "profiling.block_rate must be non-negative"
   else []).

(** [validate]: every error; none is success. *)
Definition validate (c : AppConfig) : list string :=
  validate_server (cf_Server c) ++ validate_redis (cf_Redis c) ++ validate_feed (cf_Feed c) ++ validate_log (cf_Log c) ++
  validate_database (cf_Database c) ++ validate_snapshot (cf_Snapshot c) ++ validate_discovery (cf_Discovery c) (rd_Enabled (cf_Redis c)) ++
  validate_rest c.

(** ** Loading *)

(** What the library offers: the result of reading the file, the keys it knows with
    whether each is set, and the result of decoding into the records with the hooks of
    the package. *)
Record Viper := mkViper { vp_read : option string; vp_keys : list (string * bool); vp_unmarshal : result AppConfig string }.

Inductive LoadError := LReadFile (e : string) | LUnknownKeys (ks : list string) | LUnmarshal (e : string) | LInvalid (es : list string).

Definition Load (v : Viper) (cfgFile : string) : result AppConfig LoadError :=
  let decode :=
    match vp_unmarshal v with
    | Err e => Err (LUnmarshal e)
    | Ok c => match validate c with [] => Ok c | es => Err (LInvalid es) end
    end in
  if String.eqb cfgFile "" then decode
  else match vp_read v with
       | Some e => Err (LReadFile e)
       | None => match validateUnknownKeys (vp_keys v) with [] => decode | ks => Err (LUnknownKeys ks) end
       end.
Definition LoadFile (v : Viper) (path : string) : result AppConfig LoadError := Load v path.
Definition LoadEnv (v : Viper) : result AppConfig LoadError := Load v "".

(** ** Derived values *)

Definition DSN (c : DatabaseConfig) : string :=
  "host=" +:+ db_Host c +:+ " port=" +:+ pretty (db_Port c) +:+ " user=" +:+ db_User c +:+ " password=" +:+ Value (db_Password c) +:+
  " dbname=" +:+ db_DBName c +:+ " sslmode=" +:+ db_SSLMode c.
Definition Addr (s : ServerConfig) : string := sv_Host s +:+ ":" +:+ pretty (sv_Port s).
Definition GetGatewayID (s : ServerConfig) : string := if String.eqb (sv_GatewayID s) "" then "gateway-" +:+ pretty (sv_Port s) else sv_GatewayID s.


(** The summary that is logged, a map of sections. *)
Inductive SummaryValue := SvString (s : string) | SvInt (n : Z) | SvDuration (d : Z) | SvBool (b : bool) | SvStrings (l : list string) | SvFloat (f : float64).

Definition Summary (c : AppConfig) : gmap string (gmap string SummaryValue) :=
  let s := cf_Server c in let r := cf_Redis c in let f := cf_Feed c in let d := cf_Database c in let sn := cf_Snapshot c in
  let di := cf_Discovery c in let t := cf_Tracing c in let p := cf_Profiling c in
  list_to_map
    [("server", list_to_map
        [("host", SvString (sv_Host s)); ("port", SvInt (sv_Port s)); ("read_timeout", SvDuration (sv_ReadTimeout s));
         ("write_timeout", SvDuration (sv_WriteTimeout s)); ("shutdown_timeout", SvDuration (sv_ShutdownTimeout s))]);
     ("redis", list_to_map [("enabled", SvBool (rd_Enabled r)); ("addr", SvString (rd_Addr r)); ("db", SvInt (rd_DB r))]);
     ("feed", list_to_map
        [("enabled", SvBool (fd_Enabled f)); ("symbols", SvStrings (fd_Symbols f)); ("benchmark_mode", SvBool (fd_BenchmarkMode f));
         ("tick_interval", SvDuration (fd_TickInterval f))]);
     ("log", list_to_map [("level", SvString (lg_Level (cf_Log c))); ("format", SvString (lg_Format (cf_Log c)))]);
     ("database", list_to_map
        [("enabled", SvBool (db_Enabled d)); ("host", SvString (db_Host d)); ("port", SvInt (db_Port d)); ("user", SvString (db_User d));
         ("dbname", SvString (db_DBName d)); ("sslmode", SvString (db_SSLMode d)); ("max_open_conns", SvInt (db_MaxOpenConns d));
         ("max_idle_conns", SvInt (db_MaxIdleConns d))]);
     ("snapshot", list_to_map
        [("enabled", SvBool (sn_Enabled sn)); ("checkpoint_path", SvString (sn_CheckpointPath sn));
         ("checkpoint_interval", SvDuration (sn_CheckpointInterval sn)); ("max_age", SvDuration (sn_MaxAge sn))]);
     ("discovery", list_to_map
        [("enabled", SvBool (dc_Enabled di)); ("ttl", SvDuration (dc_TTL di)); ("heartbeat_interval", SvDuration (dc_HeartbeatInterval di))]);
     ("tracing", list_to_map
        [("enabled", SvBool (tr_Enabled t)); ("endpoint", SvString (tr_Endpoint t)); ("sample_ratio", SvFloat (tr_SampleRatio t))]);
     ("profiling", list_to_map
        [("enabled", SvBool (pf_Enabled p)); ("mutex_fraction", SvInt (pf_MutexFraction p)); ("block_rate", SvInt (pf_BlockRate p))])].

(** ** Rotation of secrets *)

Record SecretFile := mkSecretFile { sf_Path : string; sf_OnChange : bool; sf_Interval : Z }.

(** The default of the interval, as [NewSecretRotator] fills it in; [sf_OnChange] says
    whether there is a callback. *)
Definition NewSecretRotator (secrets : list SecretFile) : list SecretFile :=
  (λ s, if sf_Interval s <=? 0 then mkSecretFile (sf_Path s) (sf_OnChange s) (30 * Second) else s) <$> secrets.

(** An event of the watcher; [fse_write] and [fse_create] are the bits of [Op]. *)
Record FsEvent := mkFsEvent { fse_Name : string; fse_write : bool; fse_create : bool }.

(** The calls of callbacks one step makes, as path and value, given what reading a file
    answers. *)
Definition reloadSecret (trim_unicode : string → string) (files : string → option string) (s : SecretFile) : list (string * string) :=
  match files (sf_Path s) with
  | None => []
  | Some data => if sf_OnChange s then [(sf_Path s, TrimSpace_text trim_unicode data)] else []
  end.
Definition handleEvent (trim_unicode : string → string) (secrets : list SecretFile) (files : string → option string) (e : FsEvent) : list (string * string) :=
  if negb (fse_write e) && negb (fse_create e) then []
  else secrets ≫= λ s, if String.eqb (fse_Name e) (sf_Path s) then reloadSecret trim_unicode files s else [].

(** One step of [Watch]: an event, or the tick of the poller of one secret. *)
Inductive RotatorInput := RotEvent (e : FsEvent) | RotTick (i : nat).
Definition rotator_step (trim_unicode : string → string) (secrets : list SecretFile) (files : string → option string) (i : RotatorInput) : list (string * string) :=
  match i with
  | RotEvent e => handleEvent trim_unicode secrets files e
  | RotTick i => match secrets !! i with Some s => reloadSecret trim_unicode files s | None => [] end
  end.

(** ** Persisted state *)

Record PersistedState := mkPersistedState {
  pst_Version : Z; pst_PersistedAt : Z; pst_LastCursorTS : Z; pst_LastCursorID : Z; pst_ActiveSymbols : list string }.

(** What the calls of the operating system answer: the directory, the temporary file
    (on failure with what was left in it, if anything), the renaming and the removal. *)
Record OsResults := mkOsResults { os_mkdir : bool; os_write : result unit (option (list byte)); os_rename : bool; os_remove : bool }.

Definition stamped (st : PersistedState) (now : Z) : PersistedState :=
  mkPersistedState 1 now (pst_LastCursorTS st) (pst_LastCursorID st) (pst_ActiveSymbols st).

(** [PersistState] on the files by path; no error is [None]. *)
Definition PersistState (marshal : PersistedState → option (list byte)) (os : OsResults) (fs : gmap string (list byte))
    (path : string) (st : PersistedState) (now : Z) : gmap string (list byte) * option string :=
  match marshal (stamped st now) with
  | None => (fs, Some "config: marshal state")
  | Some data =>
      if os_mkdir os then
        let tmpPath := path +:+ ".tmp" in
        match os_write os with
        | Err partial => (match partial with Some p => <[tmpPath := p]> fs | None => fs end, Some "config: write")
        | Ok _ =>
            let fs := <[tmpPath := data]> fs in
            if os_rename os then (<[path := data]> (delete tmpPath fs), None)
            else (if os_remove os then delete tmpPath fs else fs, Some "config: rename")
        end
      else (fs, Some "config: mkdir")
  end.

(** [LoadPersistedState]; [readable] is false when reading a file that exists fails. *)
Definition LoadPersistedState (unmarshal : list byte → option PersistedState) (fs : gmap string (list byte)) (path : string) (readable : bool) :
    result (option PersistedState) string :=
  match fs !! path with
  | None => Ok None
  | Some data =>
      if readable then
        match unmarshal data with
        | None => Err "config: unmarshal state"
        | Some st => if pst_Version st =? 1 then Ok (Some st) else Err "config: unsupported state version"
        end
      else Err "config: read state"
  end.

(** ** What the checks accept *)

Definition free_of (cs : list ascii) (s : string) : Prop := Forall (λ a, a ∉ cs) (list_ascii_of_string s).

(** A host and a port that a colon separates, the host in brackets if it has colons. *)
Definition valid_hostport (s : string) : Prop :=
  ∃ host port, free_of [":"; "["; "]"]%char port ∧
    ((s = host +:+ ":" +:+ port ∧ free_of [":"; "["; "]"]%char host) ∨
     (s = "[" +:+ host +:+ "]:" +:+ port ∧ free_of ["["; "]"]%char host)).

(** A sample ratio that the check lets through: a number between zero and one, or NaN. *)
Definition ratio_ok (r : float64) : Prop := r = S754_nan ∨ (f64_leb f64_zero r = true ∧ f64_leb r f64_one = true).

Definition server_ok (s : ServerConfig) : Prop :=
  1 ≤ sv_Port s ≤ 65535 ∧ 0 < sv_ReadTimeout s ≤ sv_ShutdownTimeout s ∧ 0 < sv_WriteTimeout s.
Definition redis_ok (r : RedisConfig) : Prop := rd_Enabled r = true → valid_hostport (rd_Addr r) ∧ 0 ≤ rd_DB r ≤ 15.
Definition feed_ok (f : FeedConfig) : Prop :=
  fd_Enabled f = true → fd_Symbols f ≠ [] ∧ Forall (λ sym, 1 ≤ String.length sym ≤ 10)%nat (fd_Symbols f) ∧ 0 < fd_ReconnectDelay f.
Definition log_ok (l : LogConfig) : Prop := lg_Level l ∈ ["debug"; "info"; "warn"; "error"] ∧ lg_Format l ∈ ["json"; "text"].
Definition database_ok (d : DatabaseConfig) : Prop :=
  db_Enabled d = true →
  db_Host d ≠ "" ∧ 1 ≤ db_Port d ≤ 65535 ∧ db_User d ≠ "" ∧ db_DBName d ≠ "" ∧
  db_SSLMode d ∈ ["disable"; "require"; "verify-ca"; "verify-full"] ∧
  0 ≤ db_MaxOpenConns d ∧ 0 ≤ db_MaxIdleConns d ∧ (db_MaxOpenConns d = 0 ∨ db_MaxIdleConns d ≤ db_MaxOpenConns d) ∧ 0 < db_MaxLifetime d.
Definition snapshot_ok (s : SnapshotConfig) : Prop :=
  sn_Enabled s = true → sn_CheckpointPath s ≠ "" ∧ 0 < sn_CheckpointInterval s ∧ 0 < sn_MaxAge s.
Definition discovery_ok (d : DiscoveryConfig) (redis : bool) : Prop :=
  dc_Enabled d = true → redis = true ∧ 0 < dc_HeartbeatInterval d < dc_TTL d.
Definition rest_ok (c : AppConfig) : Prop :=
  (mt_Enabled (cf_Metrics c) = true → mt_Path (cf_Metrics c) ≠ "") ∧
  (tr_Enabled (cf_Tracing c) = true → tr_Endpoint (cf_Tracing c) ≠ "" ∧ ratio_ok (tr_SampleRatio (cf_Tracing c))) ∧
  (pf_Enabled (cf_Profiling c) = true → 0 ≤ pf_MutexFraction (cf_Profiling c) ∧ 0 ≤ pf_BlockRate (cf_Profiling c)).

Definition config_ok (c : AppConfig) : Prop :=
  server_ok (cf_Server c) ∧ redis_ok (cf_Redis c) ∧ feed_ok (cf_Feed c) ∧ log_ok (cf_Log c) ∧ database_ok (cf_Database c) ∧
  snapshot_ok (cf_Snapshot c) ∧ discovery_ok (cf_Discovery c) (rd_Enabled (cf_Redis c)) ∧ rest_ok c.

(** ** Lemmas on the checks *)

Lemma check_nil b msg : check b msg = [] ↔ b = false.
Proof. by destruct b. Qed.
Lemma one_of_elem l s : one_of l s = true ↔ s ∈ l.
Proof.
  unfold one_of. rewrite existsb_exists. setoid_rewrite String.eqb_eq. setoid_rewrite <- list_elem_of_In.
  split; [by intros (? & ? & ->)|by exists s].
Qed.
Lemma if_nil {A} (b : bool) (l : list A) : (if b then l else []) = [] ↔ (b = true → l = []).
Proof. destruct b; naive_solver. Qed.
Lemma eqb_nonempty s : String.eqb s "" = false ↔ s ≠ "".
Proof. apply String.eqb_neq. Qed.

(** Reads a conjunction of passed checks as conditions on the values. *)
Ltac read_checks :=
  rewrite ?app_nil, ?if_nil, ?app_nil, ?check_nil, ?orb_false_iff, ?andb_false_iff, ?negb_false_iff, ?one_of_elem, ?eqb_nonempty,
    ?Z.ltb_ge, ?Z.leb_gt, ?Nat.eqb_neq, ?Nat.ltb_ge.

Lemma has_char_false c l : has_char c l = false ↔ c ∉ l.
Proof.
  unfold has_char. rewrite <- not_true_iff_false, existsb_exists. setoid_rewrite Ascii.eqb_eq. setoid_rewrite <- list_elem_of_In. naive_solver.
Qed.

Lemma first_pos_spec c l :
  match first_pos c l with Some i => l = take i l ++ c :: drop (S i) l ∧ c ∉ take i l | None => c ∉ l end.
Proof.
  induction l as [|a l IH]; cbn; [apply not_elem_of_nil|]. destruct (Ascii.eqb_spec a c) as [->|Ha].
  - split; [done|apply not_elem_of_nil].
  - destruct (first_pos c l) as [i|]; cbn; [|set_solver]. destruct IH as [Hl Hc]. split; [by f_equal|set_solver].
Qed.
Lemma last_pos_spec c l :
  match last_pos c l with Some i => l = take i l ++ c :: drop (S i) l ∧ c ∉ drop (S i) l | None => c ∉ l end.
Proof.
  induction l as [|a l IH]; cbn; [apply not_elem_of_nil|]. destruct (last_pos c l) as [i|].
  - destruct IH as [Hl Hc]. split; [cbn; by f_equal|done].
  - destruct (Ascii.eqb_spec a c) as [->|Ha]; [done|set_solver].
Qed.
Lemma last_pos_app c l r : c ∉ r → last_pos c (l ++ c :: r) = Some (length l).
Proof.
  intros Hr. induction l as [|a l IH]; cbn; [|by rewrite IH].
  pose proof (last_pos_spec c r) as H. destruct (last_pos c r) as [i|]; [|by rewrite Ascii.eqb_refl].
  destruct H as [H _]. contradict Hr. rewrite H. set_solver.
Qed.
Lemma first_pos_app c l r : c ∉ l → first_pos c (l ++ c :: r) = Some (length l).
Proof.
  induction l as [|a l IH]; intros Hl; cbn; [by rewrite Ascii.eqb_refl|].
  destruct (Ascii.eqb_spec a c) as [->|]; [set_solver|]. rewrite IH by set_solver. done.
Qed.

Lemma free_of_cons c cs s : free_of (c :: cs) s ↔ (c ∉ list_ascii_of_string s) ∧ free_of cs s.
Proof.
  unfold free_of. rewrite !Forall_forall. split.
  - intros H. split; [intros Hc; apply (H c Hc), list_elem_of_here|]. intros a Ha Hin. by apply (H a Ha), list_elem_of_further.
  - intros [Hc H] a Ha [->|Hin]%elem_of_cons; [done|]. by apply (H a Ha).
Qed.
Lemma free_of_nil s : free_of [] s.
Proof. apply Forall_true. intros a. apply not_elem_of_nil. Qed.
Lemma chars_app s t : list_ascii_of_string (s +:+ t) = list_ascii_of_string s ++ list_ascii_of_string t.
Proof. induction s as [|a s IH]; [done|]. change (String a s +:+ t) with (String a (s +:+ t)). cbn. by rewrite IH. Qed.
Lemma chars_of l : list_ascii_of_string (string_of_list_ascii l) = l.
Proof. apply list_ascii_of_string_of_list_ascii. Qed.
Lemma chars_inj s t : list_ascii_of_string s = list_ascii_of_string t → s = t.
Proof. intros H. rewrite <- (string_of_list_ascii_of_string s), H. apply string_of_list_ascii_of_string. Qed.

Lemma not_elem_take (a : ascii) n l : a ∉ l → a ∉ take n l.
Proof. intros H Hin. apply H. rewrite <- (take_drop n l). set_solver. Qed.
Lemma not_elem_drop (a : ascii) n l : a ∉ l → a ∉ drop n l.
Proof. intros H Hin. apply H. rewrite <- (take_drop n l). set_solver. Qed.
Lemma free_chars cs l : (∀ c, c ∈ cs → c ∉ l) → free_of cs (string_of_list_ascii l).
Proof. intros H. unfold free_of. rewrite chars_of, Forall_forall. intros a Ha Hc. by apply (H a). Qed.

Lemma SplitHostPort_plain l i :
  l = take i l ++ ":"%char :: drop (S i) l → ":"%char ∉ drop (S i) l → ":"%char ∉ take i l → "["%char ∉ l → "]"%char ∉ l →
  valid_hostport (string_of_list_ascii l).
Proof.
  intros Hl Hp Hc H1 H2. exists (string_of_list_ascii (take i l)), (string_of_list_ascii (drop (S i) l)). split.
  { apply free_chars. intros c Hin. rewrite !elem_of_cons, elem_of_nil in Hin. destruct Hin as [->|[->|[->|[]]]]; auto using not_elem_drop. }
  left. split.
  - apply chars_inj. rewrite !chars_app, !chars_of. exact Hl.
  - apply free_chars. intros c Hin. rewrite !elem_of_cons, elem_of_nil in Hin. destruct Hin as [->|[->|[->|[]]]]; auto using not_elem_take.
Qed.

Lemma SplitHostPort_brackets l i :
  l = take i l ++ "]"%char :: ":"%char :: drop (S (S i)) l → ":"%char ∉ drop (S (S i)) l → "]"%char ∉ take i l → "["%char ∉ l →
  "]"%char ∉ drop (S i) l → valid_hostport (string_of_list_ascii ("["%char :: l)).
Proof.
  intros Hl Hp Hc H1 H2. exists (string_of_list_ascii (take i l)), (string_of_list_ascii (drop (S (S i)) l)). split.
  { apply free_chars. intros c Hin. rewrite !elem_of_cons, elem_of_nil in Hin. destruct Hin as [->|[->|[->|[]]]]; auto using not_elem_drop.
    replace (S (S i)) with (S i + 1)%nat by lia. rewrite <- drop_drop. by apply not_elem_drop. }
  right. split.
  - apply chars_inj. rewrite !chars_app, !chars_of. cbn [list_ascii_of_string app]. f_equal. exact Hl.
  - apply free_chars. intros c Hin. rewrite !elem_of_cons, elem_of_nil in Hin. destruct Hin as [->|[->|[]]]; auto using not_elem_take.
Qed.

Lemma drop_at (a : ascii) n l : l = take n l ++ a :: drop (S n) l → drop n l = a :: drop (S n) l.
Proof. intros H. rewrite <- (take_drop n l) in H at 1. by apply app_inv_head in H. Qed.

(** [net.SplitHostPort] accepts exactly the addresses of the described form. *)
Lemma SplitHostPort_accepts s : SplitHostPort_fails s = false ↔ valid_hostport s.
Proof.
  split.
  - rewrite <- (string_of_list_ascii_of_string s) at 2. unfold SplitHostPort_fails. set (l := list_ascii_of_string s).
    pose proof (last_pos_spec ":" l) as Hl. destruct (last_pos ":" l) as [i|]; [|done]. destruct Hl as [Hl Hp].
    destruct (match l with a :: _ => Ascii.eqb a "[" | [] => false end) eqn:Hb.
    + pose proof (first_pos_spec "]" l) as Hf. destruct (first_pos "]" l) as [e|]; [|done]. destruct Hf as [Hf He].
      destruct (Nat.eqb_spec (e + 1) i) as [<-|]; [|done]. rewrite orb_false_iff, !has_char_false. intros [H1 H2].
      destruct l as [|a l0]; [done|]. apply Ascii.eqb_eq in Hb as ->. destruct e as [|e]; [done|].
      apply (SplitHostPort_brackets l0 e); cbn in *; rewrite ?drop_0, ?Nat.add_1_r in *; try done; [|set_solver].
      injection Hl as Hl%drop_at. injection Hf as Hf. rewrite Hf at 1. by rewrite Hl.
    + rewrite !orb_false_iff, !has_char_false. intros (Hc & H1 & H2). rewrite !drop_0 in *. by apply (SplitHostPort_plain l i).
  - unfold SplitHostPort_fails. intros (host & port & Hp & [[-> Hh]|[-> Hh]]); rewrite !free_of_cons in *; rewrite !chars_app; cbn [list_ascii_of_string app].
    + rewrite last_pos_app by apply Hp. set (h := list_ascii_of_string host) in *. set (p := list_ascii_of_string port) in *.
      assert (match h ++ ":"%char :: p with a :: _ => Ascii.eqb a "[" | [] => false end = false) as ->.
      { destruct h as [|a h]; [done|]. cbn. apply Ascii.eqb_neq. set_solver. }
      rewrite take_app_length, !orb_false_iff, !has_char_false, !drop_0. set_solver.
    + set (h := list_ascii_of_string host) in *. set (p := list_ascii_of_string port) in *.
      assert (Hl : last_pos ":" ("["%char :: h ++ "]"%char :: ":"%char :: p) = Some (S (S (length h)))).
      { pose proof (last_pos_app ":" ("["%char :: h ++ ["]"%char]) p (proj1 Hp)) as H.
        cbn [app length] in H. rewrite <- app_assoc, length_app, Nat.add_1_r in H. exact H. }
      assert (Hf : first_pos "]" ("["%char :: h ++ "]"%char :: ":"%char :: p) = Some (S (length h))).
      { apply (first_pos_app "]" ("["%char :: h) (":"%char :: p)). set_solver. }
      rewrite Hl, Hf. cbn [Ascii.eqb Bool.eqb]. rewrite Nat.add_1_r, Nat.eqb_refl, orb_false_iff, !has_char_false. split; [cbn; set_solver|].
      change ("["%char :: h ++ "]"%char :: ":"%char :: p) with (("["%char :: h) ++ "]"%char :: ":"%char :: p).
      rewrite cons_middle, app_assoc, drop_app_length'; [set_solver|]. rewrite length_app. cbn. lia.
Qed.

Lemma f64_not_ltb x y : x ≠ S754_nan → y ≠ S754_nan → f64_ltb x y = false ↔ f64_leb y x = true.
Proof.
  intros Hx Hy. unfold f64_ltb, f64_leb, SFltb, SFleb.
  assert (SFcompare y x = CompOpp <$> SFcompare x y) as ->.
  { destruct x as [[]|[]| |[] m e], y as [[]|[]| |[] m' e']; try done; cbn;
      rewrite (Z.compare_antisym e e'), (Pos.compare_antisym m m' : Pos.compare_cont Eq m' m = CompOpp (Pos.compare_cont Eq m m'));
      destruct (e ?= e')%Z; try done; by destruct (Pos.compare_cont Eq m m'). }
  destruct (SFcompare x y) as [[]|] eqn:Hc; cbn; try done. by destruct x as [[]|[]| |[] m e], y as [[]|[]| |[] m' e'].
Qed.
Lemma ratio_checked r : f64_ltb r f64_zero = false ∧ f64_ltb f64_one r = false ↔ ratio_ok r.
Proof.
  unfold ratio_ok. assert (r = S754_nan ∨ r ≠ S754_nan) as [->|Hr] by (destruct r; auto); [by split; [left|]|].
  rewrite (f64_not_ltb r f64_zero), (f64_not_ltb f64_one r) by done. naive_solver.
Qed.

(** ** Each section's checks *)

Lemma validate_server_ok s : validate_server s = [] ↔ server_ok s.
Proof. unfold validate_server, server_ok. read_checks. lia. Qed.

Lemma valid_hostport_nonempty s : valid_hostport s → s ≠ "".
Proof. intros (host & port & _ & [[-> _]|[-> _]]); [by destruct host|done]. Qed.
Lemma validate_redis_ok r : validate_redis r = [] ↔ redis_ok r.
Proof.
  unfold validate_redis, redis_ok. read_checks. rewrite SplitHostPort_accepts.
  pose proof (valid_hostport_nonempty (rd_Addr r)). naive_solver lia.
Qed.

Lemma symbols_checked l :
  (l ≫= λ sym, check (String.eqb sym "") "feed.symbols must not be empty" ++ check (10 <? String.length sym)%nat "feed.symbols exceeds max length 10") = [] ↔
  Forall (λ sym, 1 ≤ String.length sym ≤ 10)%nat l.
Proof.
  induction l as [|sym l IH]; [done|]. rewrite bind_cons, Forall_cons, <- IH. read_checks.
  destruct sym; cbn; naive_solver lia.
Qed.
Lemma validate_feed_ok f : validate_feed f = [] ↔ feed_ok f.
Proof.
  unfold validate_feed, feed_ok. rewrite if_nil, !app_nil, symbols_checked. read_checks.
  destruct (fd_Symbols f); cbn; naive_solver.
Qed.
Lemma validate_log_ok l : validate_log l = [] ↔ log_ok l.
Proof. unfold validate_log, log_ok. by read_checks. Qed.
Lemma validate_database_ok d : validate_database d = [] ↔ database_ok d.
Proof. unfold validate_database, database_ok. read_checks. split; intros H Hd; specialize (H Hd); destruct_and!; split_and!; try done; lia. Qed.
Lemma validate_snapshot_ok s : validate_snapshot s = [] ↔ snapshot_ok s.
Proof. unfold validate_snapshot, snapshot_ok. by read_checks. Qed.
Lemma validate_discovery_ok d redis : validate_discovery d redis = [] ↔ discovery_ok d redis.
Proof. unfold validate_discovery, discovery_ok. read_checks. destruct (dc_Enabled d), redis; intuition (try done; lia). Qed.
Lemma validate_rest_ok c : validate_rest c = [] ↔ rest_ok c.
Proof.
  unfold validate_rest, rest_ok. read_checks. rewrite ratio_checked.
  destruct (mt_Enabled (cf_Metrics c)); intuition done.
Qed.

Lemma validate_config_ok c : validate c = [] ↔ config_ok c.
Proof.
  unfold validate, config_ok. rewrite !app_nil, validate_server_ok, validate_redis_ok, validate_feed_ok, validate_log_ok, validate_database_ok,
    validate_snapshot_ok, validate_discovery_ok, validate_rest_ok.
  done.
Qed.

Lemma validateUnknownKeys_nil keys : validateUnknownKeys keys = [] ↔ ∀ k, (k, true) ∈ keys → k ∈ knownKeys.
Proof.
  unfold validateUnknownKeys. split.
  - intros H%fmap_nil_inv k Hk. destruct (decide (k ∈ knownKeys)) as [|Hn]; [done|].
    assert (Hin : (k, true) ∈ filter (λ k, k.2 = true ∧ k.1 ∉ knownKeys) keys) by by apply list_elem_of_filter.
    rewrite H in Hin. by apply not_elem_of_nil in Hin.
  - intros H. induction keys as [|[k b] keys IH]; [done|]. rewrite filter_cons_False; [apply IH; intros k' Hk'; apply H; by right|].
    cbn. intros [-> Hn]. apply Hn, H. by left.
Qed.

Lemma default_config_ok : validate default_config = [].
Proof. vm_compute. reflexivity. Qed.

(** Every key but the password of Redis has a default. *)
Lemma redis_password_has_no_default : filter (λ k, k ∉ defaultKeys) knownKeys = ["redis.password"].
Proof. vm_compute. reflexivity. Qed.

(** A sample ratio that is not a number is accepted. *)
Lemma nan_ratio_accepted :
  validate (mkAppConfig (cf_Server default_config) (cf_Redis default_config) (cf_Feed default_config) (cf_Log default_config) (cf_Metrics default_config)
    (cf_Discovery default_config) (cf_Database default_config) (cf_Snapshot default_config) (mkTracing true "localhost:4318" S754_nan)
    default_adapters (cf_Profiling default_config)) = [].
Proof. vm_compute. reflexivity. Qed.

(** A gateway without a configured ID gets one that discovery can register. *)
Lemma GetGatewayID_proper s : proper_name (GetGatewayID s) ↔ sv_GatewayID s ≠ "active".
Proof.
  unfold GetGatewayID, proper_name. destruct (String.eqb_spec (sv_GatewayID s) "") as [->|]; [|done]. split; [done|]. by intros _ H.
Qed.


(** ** Lists round trip *)

Lemma split_on_free c p : free_of [c] p → split_on c p = [p].
Proof.
  unfold free_of. induction p as [|a p IH]; [done|]. cbn. intros [Ha Hp]%Forall_cons.
  destruct (Ascii.eqb_spec a c) as [->|]; [set_solver|]. by rewrite IH.
Qed.
Lemma split_on_app c p s : free_of [c] p → split_on c (p +:+ String c s) = p :: split_on c s.
Proof.
  unfold free_of. induction p as [|a p IH]; [change (("" : string) +:+ String c s) with (String c s); cbn; by rewrite Ascii.eqb_refl|].
  change (String a p +:+ String c s) with (String a (p +:+ String c s)). cbn. intros [Ha Hp]%Forall_cons.
  destruct (Ascii.eqb_spec a c) as [->|]; [set_solver|]. by rewrite IH.
Qed.
Lemma split_on_concat l : l ≠ [] → Forall (free_of [","%char]) l → split_on "," (String.concat "," l) = l.
Proof.
  induction l as [|p [|q l] IH]; intros Hn Hf; [done|by apply split_on_free; inversion Hf|].
  apply Forall_cons in Hf as [Hp Hf]. change (String.concat "," (p :: q :: l)) with (p +:+ String ","%char (String.concat "," (q :: l))).
  rewrite split_on_app by done. f_equal. by apply IH.
Qed.

(** A list of symbols without commas and surrounding spaces survives being written as
    one environment variable. *)
Lemma decode_joined_symbols tu l :
  Forall (λ p, p ≠ "" ∧ free_of [","%char] p ∧ TrimSpace_text tu p = p) l → decodeStringToSlice tu (String.concat "," l) = l.
Proof.
  intros Hl. unfold decodeStringToSlice. destruct (String.eqb_spec (String.concat "," l) "") as [He|He].
  { destruct l as [|p [|q l]]; [done| |]; cbn in He; apply Forall_cons in Hl as [[Hp _] _]; [done|]. by destruct p. }
  rewrite split_on_concat; [|by intros ->|by eapply Forall_impl; [exact Hl|naive_solver]].
  clear He. induction Hl as [|p l (Hp & _ & Ht) _ IH]; [done|]. rewrite fmap_cons, Ht, filter_cons_True by done. by rewrite IH.
Qed.

(** ** Secrets stay out of the logs *)

Definition with_secrets (c : AppConfig) (redis database : SecretString) : AppConfig :=
  let r := cf_Redis c in let d := cf_Database c in
  mkAppConfig (cf_Server c) (mkRedis (rd_Enabled r) (rd_Addr r) redis (rd_DB r)) (cf_Feed c) (cf_Log c) (cf_Metrics c) (cf_Discovery c)
    (mkDatabase (db_Enabled d) (db_Host d) (db_Port d) (db_User d) database (db_DBName d) (db_SSLMode d) (db_MaxOpenConns d) (db_MaxIdleConns d) (db_MaxLifetime d))
    (cf_Snapshot c) (cf_Tracing c) (cf_Adapters c) (cf_Profiling c).

(** The logged summary and the validation errors do not depend on the passwords. *)
Lemma summary_hides_secrets c redis database :
  Summary (with_secrets c redis database) = Summary c ∧ validate (with_secrets c redis database) = validate c.
Proof. done. Qed.

(** Every callback of the rotator gets the trimmed contents of its file, and a tick of a
    secret's poller delivers it. *)
Lemma rotator_delivers_contents tu secrets files i path value :
  (path, value) ∈ rotator_step tu secrets files i → ∃ data, files path = Some data ∧ value = TrimSpace_text tu data.
Proof.
  assert (Hr : ∀ s, (path, value) ∈ reloadSecret tu files s → ∃ data, files path = Some data ∧ value = TrimSpace_text tu data).
  { intros s. unfold reloadSecret. destruct (files (sf_Path s)) as [data|] eqn:Hd; [|set_solver]. destruct (sf_OnChange s); [|set_solver].
    intros [= -> ->]%list_elem_of_singleton. by exists data. }
  destruct i as [e|i]; cbn; [|destruct (secrets !! i); [apply Hr|set_solver]].
  unfold handleEvent. destruct (negb (fse_write e) && negb (fse_create e)); [set_solver|].
  intros (s & Hs & _)%list_elem_of_bind. destruct (String.eqb (fse_Name e) (sf_Path s)); [by apply (Hr s)|set_solver].
Qed.

(** ** The persisted state survives failures and crashes *)

Lemma tmp_path_differs path : path +:+ ".tmp" ≠ path.
Proof. intros H%(f_equal list_ascii_of_string). rewrite chars_app in H. apply (f_equal length) in H. rewrite length_app in H. cbn in H. lia. Qed.

(** The files when the process dies while the state is written: before or during the
    write of the temporary file, before the renaming, or after it. *)
Definition persist_crash (fs : gmap string (list byte)) (path : string) (data : list byte) (k : nat) (partial : option (list byte)) : gmap string (list byte) :=
  match k with
  | O => match partial with Some p => <[path +:+ ".tmp" := p]> fs | None => fs end
  | S O => <[path +:+ ".tmp" := data]> fs
  | _ => <[path := data]> (delete (path +:+ ".tmp") fs)
  end.

Lemma persist_state_atomic marshal unmarshal os fs path st now data :
  marshal (stamped st now) = Some data → unmarshal data = Some (stamped st now) →
  let load fs := LoadPersistedState unmarshal fs path true in
  let '(fs', err) := PersistState marshal os fs path st now in
  load fs' = (if err is Some _ then load fs else Ok (Some (stamped st now))) ∧
  (∀ k partial, load (persist_crash fs path data k partial) = load fs ∨ load (persist_crash fs path data k partial) = Ok (Some (stamped st now))).
Proof.
  intros Hm Hu load. pose proof (tmp_path_differs path) as Ht.
  assert (Hsame : ∀ fs', fs' !! path = fs !! path → load fs' = load fs) by (intros fs' H; unfold load, LoadPersistedState; by rewrite H).
  assert (Hnew : ∀ fs0, load (<[path := data]> fs0) = Ok (Some (stamped st now))).
  { intros fs0. unfold load, LoadPersistedState. by rewrite lookup_insert_eq, Hu. }
  assert (Hcrash : ∀ k partial, load (persist_crash fs path data k partial) = load fs ∨ load (persist_crash fs path data k partial) = Ok (Some (stamped st now))).
  { intros [|[|k]] [p|]; cbn; try (right; apply Hnew); left; apply Hsame; by rewrite ?lookup_insert_ne by done. }
  unfold PersistState. rewrite Hm. destruct os as [[] [[]|[p|]] [] []]; cbn; (split; [|done]); try apply Hnew;
    apply Hsame; by rewrite ?lookup_delete_ne, ?lookup_insert_ne by done.
Qed.
