(* ===== verification/Transport.v ===== *)
(** * Transport: the HTTP endpoints of a gateway

    [internal/transport]: the queries of the event log ([replay.go]) with the limit on
    concurrent queries of a client, the export that streams it page by page
    ([export.go]), and the probes of [router.go]. A response is its status, the content
    type its header was sent with, and the pieces written to its body. What the
    repository answers to each query is a parameter, and so are [time.Parse], the text of
    a time and of a number, and whether writes to the connection succeed. Spans are left
    out. *)

From Stdlib Require Import Strings.Ascii Strings.String Sorting.Sorted.
From stdpp Require Import pretty.
From S2P Require Import Prelude Bytes Float64 WalManager MarketEvent Snapshot EventStore ReplaySession EventLog Normalization Config Health.

(** ** The limit on concurrent queries *)

Definition maxConcurrentQueriesPerClient : Z := 3.

Record concurrencyLimiter := mkLimiter { cl_active : gmap string Z; cl_maxPerIP : Z }.

Definition newConcurrencyLimiter (perClient : Z) : concurrencyLimiter := mkLimiter ∅ perClient.

Definition acquire (cl : concurrencyLimiter) (clientIP : string) : concurrencyLimiter * bool :=
  let n := default 0 (cl_active cl !! clientIP) in
  if cl_maxPerIP cl <=? n then (cl, false)
  else (mkLimiter (<[clientIP := n + 1]> (cl_active cl)) (cl_maxPerIP cl), true).

Definition release (cl : concurrencyLimiter) (clientIP : string) : concurrencyLimiter :=
  let n := default 0 (cl_active cl !! clientIP) - 1 in
  let active := <[clientIP := n]> (cl_active cl) in
  mkLimiter (if n <=? 0 then delete clientIP active else active) (cl_maxPerIP cl).

(** ** Requests and responses *)

(** The headers and query parameters that the handlers read; one that is not given is
    empty. *)
Record HttpRequest := mkHttpRequest {
  hq_XForwardedFor : string;
  hq_XRealIP : string;
  hq_RemoteAddr : string;
  hq_symbol : string;
  hq_from : string;
  hq_to : string;
  hq_cursor : string;
  hq_limit : string;
  hq_format : string;
}.

Inductive piece :=
  | PError (msg : string)
  | PResult (r : ReplayResult)
  | PRecord (fields : list string)
  | PEvent (e : EventRow).

(** A header is sent once, by the first [WriteHeader], [Write] or [Flush]. *)
Record ResponseWriter := mkResponseWriter { rw_header : string; rw_sent : option (Z * string); rw_body : list piece }.

Definition new_response : ResponseWriter := mkResponseWriter "" None [].
Definition set_content_type (w : ResponseWriter) (ct : string) : ResponseWriter := mkResponseWriter ct (rw_sent w) (rw_body w).
Definition WriteHeader (w : ResponseWriter) (status : Z) : ResponseWriter :=
  match rw_sent w with Some _ => w | None => mkResponseWriter (rw_header w) (Some (status, rw_header w)) (rw_body w) end.
Definition http_Write (w : ResponseWriter) (ps : list piece) : ResponseWriter :=
  let w := WriteHeader w 200 in mkResponseWriter (rw_header w) (rw_sent w) (rw_body w ++ ps).

Definition writeError (w : ResponseWriter) (status : Z) (msg : string) : ResponseWriter :=
  http_Write (WriteHeader (set_content_type w "application/json") status) [PError msg].

(** The host that [net.SplitHostPort] answers when it succeeds. *)
Definition split_host (hostport : string) : string :=
  let hp := list_ascii_of_string hostport in
  let i := default 0%nat (last_pos ":" hp) in
  string_of_list_ascii
    match hp with
    | a :: r => if Ascii.eqb a "[" then take (default 0%nat (first_pos "]" r)) r else take i hp
    | [] => []
    end.

Section handlers.
(** [strings.TrimSpace] beyond ASCII; [time.Parse] with [time.RFC3339Nano]. *)
Context (trim_unicode : string → string) (time_Parse : string → result Z string).

Definition getClientIP (r : HttpRequest) : string :=
  if negb (String.eqb (hq_XForwardedFor r) "") then TrimSpace_text trim_unicode (default "" (head (split_on "," (hq_XForwardedFor r))))
  else if negb (String.eqb (hq_XRealIP r) "") then TrimSpace_text trim_unicode (hq_XRealIP r)
  else if SplitHostPort_fails (hq_RemoteAddr r) then hq_RemoteAddr r else split_host (hq_RemoteAddr r).

(** [strconv.ParseInt(s, 10, 64)], and [strconv.Atoi], which answers the same. *)
Definition ParseInt (s : string) : option Z :=
  match s with
  | "" => None
  | String a u =>
      if Ascii.eqb a "-" then n ← ParseUint u; if n <=? 2 ^ 63 then Some (- n) else None
      else n ← ParseUint (if Ascii.eqb a "+" then u else s); if n <? 2 ^ 63 then Some n else None
  end.

(** [strings.SplitN(s, ",", 2)]: the parts before and after the first comma. *)
Fixpoint cut_comma (s : string) : option (string * string) :=
  match s with
  | "" => None
  | String a s => if Ascii.eqb a "," then Some ("", s) else match cut_comma s with Some (l, r) => Some (String a l, r) | None => None end
  end.

Definition parseCursor (s : string) : result Cursor string :=
  match cut_comma s with
  | None => Err "format must be 'timestamp,event_id'"
  | Some (l, r) =>
      match time_Parse (TrimSpace_text trim_unicode l) with
      | Err e => Err ("invalid timestamp: " +:+ e)
      | Ok ts =>
          match ParseInt (TrimSpace_text trim_unicode r) with
          | None => Err "invalid event_id"
          | Some eid => Ok (mkCursor ts eid)
          end
      end
  end.

(** A time parameter: the zero time when it is not given. *)
Definition time_param (name text : string) : result Z string :=
  if String.eqb text "" then Ok zero_time
  else match time_Parse text with Ok t => Ok t | Err e => Err ("invalid '" +:+ name +:+ "' parameter: " +:+ e) end.
Definition cursor_param (text : string) : result Cursor string :=
  if String.eqb text "" then Ok zero_cursor
  else match parseCursor text with Ok c => Ok c | Err e => Err ("invalid 'cursor' parameter: " +:+ e) end.
Definition limit_param (text : string) : result Z string :=
  if String.eqb text "" then Ok 0
  else match ParseInt text with
       | Some l => if l <? 1 then Err "invalid 'limit' parameter: must be between 1 and 1000" else Ok l
       | None => Err "invalid 'limit' parameter: must be between 1 and 1000"
       end.

(** The parameters of [handleReplay], in the order they are checked. *)
Definition replay_query (r : HttpRequest) : result ReplayQuery string :=
  match time_param "from" (hq_from r) with
  | Err e => Err e
  | Ok from =>
      match time_param "to" (hq_to r) with
      | Err e => Err e
      | Ok to =>
          match cursor_param (hq_cursor r) with
          | Err e => Err e
          | Ok c => match limit_param (hq_limit r) with Err e => Err e | Ok l => Ok (mkQuery (hq_symbol r) from to c l) end
          end
      end
  end.

(** What the repository answers to the queries of one request, in turn. *)
Context (repo : nat → ReplayQuery → result ReplayResult string).

(** The work of [handleReplay] between [acquire] and [release]. *)
Definition serve_replay (r : HttpRequest) : ResponseWriter :=
  match replay_query r with
  | Err e => writeError new_response 400 e
  | Ok q =>
      match repo 0 q with
      | Err e => writeError new_response 500 ("query failed: " +:+ e)
      | Ok result => http_Write (set_content_type new_response "application/json") [PResult result]
      end
  end.

(** ** Export *)

Definition maxExportEvents : Z := 100000.

(** [%g] of a number, and [time.RFC3339Nano] of a time. *)
Context (format_g : float64 → string) (format_time : Z → string).

Definition formatFloat (f : float64) : string := if f64_eqb f f64_zero then "" else format_g f.

Definition csv_header : piece :=
  PRecord ["event_id"; "timestamp"; "symbol"; "event_type"; "price"; "bid"; "ask"; "volume"; "exchange"; "provider"].
Definition csv_record (e : EventRow) : piece :=
  PRecord [pretty (er_EventID e); format_time (er_Timestamp e); er_Symbol e; er_EventType e; formatFloat (er_Price e); formatFloat (er_Bid e);
           formatFloat (er_Ask e); pretty (er_Volume e); er_Exchange e; er_Provider e].

(** How many pieces of the flush after each page reach the connection when it fails;
    [None] when it succeeds. *)
Context (flush_fails : nat → option nat).

(** The loop of the export as records: [pending] is in the buffer of the CSV writer.
    [None] is no more fuel. *)
Fixpoint csv_loop (fuel page : nat) (q : ReplayQuery) (totalExported : Z) (pending : list piece) (w : ResponseWriter) : option ResponseWriter :=
  match fuel with
  | O => None
  | S fuel =>
      if maxExportEvents <=? totalExported then Some w
      else match repo page q with
           | Err e => Some (writeError w 500 ("query failed: " +:+ e))
           | Ok result =>
               let pending := pending ++ (csv_record <$> rr_Events result) in
               match flush_fails page with
               | Some k => Some (http_Write w (take k pending))
               | None =>
                   let w := http_Write w pending in
                   let totalExported := totalExported + Z.of_nat (length (rr_Events result)) in
                   match rr_HasMore result, rr_NextCursor result with
                   | true, Some c => csv_loop fuel (S page) (mkQuery (rq_Symbol q) (rq_From q) (rq_To q) c (rq_Limit q)) totalExported [] w
                   | _, _ => Some w
                   end
               end
           end
  end.

(** [Encode] of each event. *)
Definition write_events (w : ResponseWriter) (es : list EventRow) : ResponseWriter :=
  match es with [] => w | _ => http_Write w (PEvent <$> es) end.

(** The loop of the export as lines of JSON, which goes on when writes fail. *)
Fixpoint json_loop (fuel page : nat) (q : ReplayQuery) (totalExported : Z) (w : ResponseWriter) : option ResponseWriter :=
  match fuel with
  | O => None
  | S fuel =>
      if maxExportEvents <=? totalExported then Some w
      else match repo page q with
           | Err e => Some (writeError w 500 ("query failed: " +:+ e))
           | Ok result =>
               let w := write_events w (rr_Events result) in
               let totalExported := totalExported + Z.of_nat (length (rr_Events result)) in
               match rr_HasMore result, rr_NextCursor result with
               | true, Some c => json_loop fuel (S page) (mkQuery (rq_Symbol q) (rq_From q) (rq_To q) c (rq_Limit q)) totalExported w
               | _, _ => Some w
               end
           end
  end.

(** The work of [handleReplayExport] between [acquire] and [release]. The CSV header is
    in the buffer of the writer when the response is flushed. *)
Definition serve_export (fuel : nat) (r : HttpRequest) : option ResponseWriter :=
  match time_param "from" (hq_from r) with
  | Err e => Some (writeError new_response 400 e)
  | Ok from =>
      match time_param "to" (hq_to r) with
      | Err e => Some (writeError new_response 400 e)
      | Ok to =>
          let q := mkQuery (hq_symbol r) from to zero_cursor 1000 in
          let format := if String.eqb (hq_format r) "" then "csv" else hq_format r in
          if negb (String.eqb format "csv") && negb (String.eqb format "json") then
            Some (writeError new_response 400 "invalid 'format' parameter: must be 'csv' or 'json'")
          else if String.eqb format "csv" then
            csv_loop fuel 0 q 0 [csv_header] (WriteHeader (set_content_type new_response "text/csv; charset=utf-8") 200)
          else json_loop fuel 0 q 0 (set_content_type new_response "application/x-ndjson; charset=utf-8")
      end
  end.

(** A request under the limit: refused, or served between [acquire] and the deferred
    [release]; the server sends a header that the handler has not sent. *)
Definition limited (serve : HttpRequest → option ResponseWriter) (cl : concurrencyLimiter) (r : HttpRequest) : concurrencyLimiter * option ResponseWriter :=
  let ip := getClientIP r in
  match acquire cl ip with
  | (cl, false) =>
      (cl, Some (writeError new_response 429
         ("concurrent query limit exceeded (max " +:+ pretty maxConcurrentQueriesPerClient +:+ " per client)")))
  | (cl, true) => let w := serve r in (release cl ip, (λ w, WriteHeader w 200) <$> w)
  end.
Definition handleReplay : concurrencyLimiter → HttpRequest → concurrencyLimiter * option ResponseWriter := limited (λ r, Some (serve_replay r)).
Definition handleReplayExport (fuel : nat) : concurrencyLimiter → HttpRequest → concurrencyLimiter * option ResponseWriter := limited (serve_export fuel).
End handlers.

(** ** Probes (router.go)

    The status code of each probe. A report is in the order of the iteration over the
    map. *)

Record HealthStatus := mkHealthStatus { hs_OK : bool; hs_Detail : string }.
Definition health_OK : HealthStatus := mkHealthStatus true "".
Definition health_Degraded (detail : string) : HealthStatus := mkHealthStatus true detail.
Definition health_Unhealthy (detail : string) : HealthStatus := mkHealthStatus false detail.

Definition handleHealth : Z := 200.
Definition handleHealthDetail (report : list (string * HealthStatus)) : Z * string :=
  if forallb (λ s, hs_OK s.2) report then (200, "ok") else (503, "degraded").
(** The error is the detail of the first component that is not healthy. *)
Definition handleReady (reporter : option (list (string * HealthStatus))) : Z * option string :=
  match reporter with
  | None => (200, None)
  | Some report => match list_find (λ s, hs_OK s.2 = false) report with Some (_, s) => (503, Some (hs_Detail s.2)) | None => (200, None) end
  end.
Definition handleLiveness (heartbeat : option Z) (now : Z) : Z :=
  match heartbeat with Some hb => if negb (IsAlive hb now (10 * Second)) then 503 else 200 | None => 200 end.
Definition handleReadiness (result : option HealthResult) : Z :=
  match result with None => 200 | Some res => if negb (String.eqb (hr_Status res) "ok") then 503 else 200 end.
Definition handleGateways {G} (list_answer : result (list G) string) : Z * result (list G * nat) string :=
  match list_answer with Err e => (500, Err e) | Ok gateways => (200, Ok (gateways, length gateways)) end.
(** The request is decoded by [body]; [SetLogLevel] answers an error or nothing. *)
Definition handleLogLevelChange (is_post : bool) (body : result string string) (SetLogLevel : string → option string) : Z * option string :=
  if negb is_post then (405, None)
  else match body with
       | Err _ => (400, None)
       | Ok level => match SetLogLevel level with Some _ => (400, None) | None => (200, Some level) end
       end.

(** ** Requests in flight

    Handlers run concurrently: a request starts when [acquire] allows it and ends with
    its [release]. *)

Inductive limiter_step (s : concurrencyLimiter * list string) : concurrencyLimiter * list string → Prop :=
  | ls_start ip cl : acquire s.1 ip = (cl, true) → limiter_step s (cl, ip :: s.2)
  | ls_refuse ip cl : acquire s.1 ip = (cl, false) → limiter_step s (cl, s.2)
  | ls_end l ip r : s.2 = l ++ ip :: r → limiter_step s (release s.1 ip, l ++ r).

Definition in_flight (ip : string) (l : list string) : Z := Z.of_nat (length (filter (λ x, x = ip) l)).

(** An entry for each client with requests in flight, and its number. *)
Definition limiter_inv (s : concurrencyLimiter * list string) : Prop :=
  cl_maxPerIP s.1 = maxConcurrentQueriesPerClient ∧
  ∀ ip, cl_active s.1 !! ip = (if decide (ip ∈ s.2) then Some (in_flight ip s.2) else None) ∧ in_flight ip s.2 ≤ maxConcurrentQueriesPerClient.

Lemma in_flight_cons ip x l : in_flight ip (x :: l) = in_flight ip l + (if decide (x = ip) then 1 else 0).
Proof. unfold in_flight. rewrite filter_cons. destruct (decide (x = ip)); cbn; lia. Qed.
Lemma in_flight_perm ip l l' : l ≡ₚ l' → in_flight ip l = in_flight ip l'.
Proof. intros H. unfold in_flight. by rewrite H. Qed.
Lemma in_flight_pos ip l : ip ∈ l ↔ 0 < in_flight ip l.
Proof.
  unfold in_flight. split.
  - intros H. assert (Hf : ip ∈ filter (λ x, x = ip) l) by by apply list_elem_of_filter. destruct (filter _ l); [by apply not_elem_of_nil in Hf|cbn; lia].
  - destruct (filter (λ x, x = ip) l) as [|y r] eqn:E; [done|]. intros _.
    assert (Hy : y ∈ filter (λ x, x = ip) l) by (rewrite E; by left). by apply list_elem_of_filter in Hy as [-> Hy].
Qed.

Lemma limiter_count s ip : limiter_inv s → default 0 (cl_active s.1 !! ip) = in_flight ip s.2.
Proof.
  intros [_ H]. destruct (H ip) as [-> _]. destruct (decide (ip ∈ s.2)) as [|Hn]; [done|].
  rewrite in_flight_pos in Hn. cbn. unfold in_flight in *. lia.
Qed.

Lemma limiter_inv_perm cl l l' : l ≡ₚ l' → limiter_inv (cl, l) → limiter_inv (cl, l').
Proof.
  intros Hp [Hm H]. split; [done|]. intros ip. destruct (H ip) as [H1 H2]. cbn in *. rewrite <- (in_flight_perm ip _ _ Hp). split; [|done].
  rewrite H1. destruct (decide (ip ∈ l)), (decide (ip ∈ l')); try done; by rewrite Hp in *.
Qed.

Lemma acquire_inv cl l ip cl' : limiter_inv (cl, l) → acquire cl ip = (cl', true) → limiter_inv (cl', ip :: l).
Proof.
  intros Hinv. pose proof (limiter_count _ ip Hinv) as Hc. destruct Hinv as [Hm H]. cbn in *. unfold acquire. rewrite Hc, Hm.
  destruct (Z.leb_spec maxConcurrentQueriesPerClient (in_flight ip l)) as [|Hlt]; [done|]. intros [= <-]. split; [done|]. intros ip'. cbn.
  rewrite in_flight_cons. destruct (H ip') as [H1 H2]. destruct (decide (ip = ip')) as [<-|Hne].
  - rewrite lookup_insert_eq, decide_True by (by left). split; [done|lia].
  - rewrite lookup_insert_ne, H1 by done. rewrite Z.add_0_r. split; [|done].
    destruct (decide (ip' ∈ l)), (decide (ip' ∈ ip :: l)); set_solver.
Qed.

Lemma release_inv cl l ip : limiter_inv (cl, ip :: l) → limiter_inv (release cl ip, l).
Proof.
  intros Hinv. pose proof (limiter_count _ ip Hinv) as Hc. destruct Hinv as [Hm H]. cbn in *. unfold release. rewrite Hc.
  rewrite in_flight_cons, decide_True by done. split; [done|]. intros ip'. cbn. destruct (H ip') as [H1 H2]. rewrite in_flight_cons in H1, H2.
  assert (Hz : 0 ≤ in_flight ip' l) by (unfold in_flight; lia). pose proof (in_flight_pos ip' l) as Hpos.
  destruct (decide (ip = ip')) as [<-|Hne].
  - split; [|lia]. replace (in_flight ip l + 1 - 1) with (in_flight ip l) by lia. destruct (Z.leb_spec (in_flight ip l) 0).
    + rewrite lookup_delete_eq, decide_False; [done|]. rewrite Hpos. lia.
    + rewrite lookup_insert_eq, decide_True; [done|]. apply Hpos. lia.
  - rewrite Z.add_0_r in *. split; [|done].
    destruct (_ <=? 0); rewrite ?lookup_delete_ne, lookup_insert_ne, H1 by done;
      destruct (decide (ip' ∈ ip :: l)), (decide (ip' ∈ l)); set_solver.
Qed.

(** C36: A client never has more than three queries running. In every interleaving of
    requests that start, are refused and end, the limiter has an entry exactly for each
    client with requests in flight, which is their number and at most three; a request is
    refused if and only if its client has three in flight; and when all have ended the
    limiter is empty again. *)
Theorem replay_queries_bounded cl flight :
  rtc limiter_step (newConcurrencyLimiter maxConcurrentQueriesPerClient, []) (cl, flight) →
  (∀ ip, cl_active cl !! ip = (if decide (ip ∈ flight) then Some (in_flight ip flight) else None)) ∧
  (∀ ip, in_flight ip flight ≤ 3) ∧
  (∀ ip, (acquire cl ip).2 = false ↔ in_flight ip flight = 3) ∧
  (flight = [] → cl = newConcurrencyLimiter maxConcurrentQueriesPerClient).
Proof.
  intros Hrun. assert (Hinv : limiter_inv (cl, flight)).
  { remember (cl, flight) as s eqn:Hs. clear Hs. revert s Hrun. apply rtc_ind_r; [by split|]. intros [cl0 l0] [cl1 l1] _ Hs IH.
    inversion Hs as [ip cl' Ha|ip cl' Ha|l ip r Hl]; subst; cbn in *.
    - by eapply acquire_inv.
    - unfold acquire in Ha. destruct (_ <=? _); by simplify_eq.
    - apply release_inv, (limiter_inv_perm _ (l ++ ip :: r)); [by rewrite Permutation_middle|]. by rewrite <- Hl. }
  pose proof Hinv as [Hm H]. cbn in *. split_and!.
  - intros ip. apply H.
  - intros ip. apply H.
  - intros ip. pose proof (limiter_count _ ip Hinv) as Hc. cbn in Hc. unfold acquire. rewrite Hc, Hm. destruct (H ip) as [_ Hle].
    unfold maxConcurrentQueriesPerClient in *. destruct (Z.leb_spec 3 (in_flight ip flight)); cbn; split; intros; (done || lia).
  - intros ->. destruct cl as [active m]. cbn in *. subst. unfold newConcurrencyLimiter. f_equal. apply map_eq. intros ip.
    rewrite lookup_empty. by rewrite (proj1 (H ip)), decide_False by apply not_elem_of_nil.
Qed.

Lemma replay_queries_bounded_witness :
  let cl := (acquire (acquire (newConcurrencyLimiter maxConcurrentQueriesPerClient) "a").1 "a").1 in
  (∀ ip, in_flight ip ["a"; "a"] ≤ 3) ∧ ((acquire (release cl "a") "a").2 = false ↔ in_flight "a" ["a"] = 3).
Proof.
  intros cl. destruct (replay_queries_bounded cl ["a"; "a"]) as (_ & H & _).
  { eapply rtc_l; [apply (ls_start _ "a"); reflexivity|]. eapply rtc_l; [apply (ls_start _ "a"); reflexivity|]. apply rtc_refl. }
  split; [exact H|]. destruct (replay_queries_bounded (release cl "a") ["a"]) as (_ & _ & H' & _); [|apply H'].
  eapply rtc_l; [apply (ls_start _ "a"); reflexivity|]. eapply rtc_l; [apply (ls_start _ "a"); reflexivity|].
  eapply rtc_l; [apply (ls_end _ [] "a" ["a"]); reflexivity|]. apply rtc_refl.
Defined.

(** ** Exports *)

Section export.
Context (db_time : Z → Z).
Hypothesis db_time_idem : ∀ t, db_time (db_time t) = db_time t.
Context (time_Parse : string → result Z string) (format_g : float64 → string) (format_time : Z → string).
Implicit Types (t : Table) (w : ResponseWriter).

(** The repository over a table that does not change meanwhile; writes succeed. *)
Definition table_repo (t : Table) (page : nat) (q : ReplayQuery) : result ReplayResult string := Ok (QueryEvents db_time t q).
Definition no_failure (page : nat) : option nat := None.

Lemma http_Write_app w a b : http_Write (http_Write w a) b = http_Write w (a ++ b).
Proof. unfold http_Write, WriteHeader. destruct w as [h [[]|] body]; cbn; by rewrite app_assoc. Qed.

Let per_page : nat := Z.to_nat (query_limit 1000).

Lemma per_page_1000 : Z.of_nat per_page = 1000.
Proof. done. Qed.

Lemma take_pages {A} k (l : list A) : take (per_page * S k) l = take per_page l ++ take (per_page * k) (drop per_page l).
Proof. rewrite take_take_drop. f_equal. lia. Qed.

(** With [k] pages left under the limit, the loop writes what is pending and then the
    rows of [k] pages. *)
Lemma csv_loop_streams t symbol from to : table_wf db_time t → ∀ k fuel page pre rest c pending w,
  (k < fuel)%nat → stream_rows db_time t symbol from to = pre ++ rest →
  filter (after_cursor db_time c) (stream_rows db_time t symbol from to) = rest →
  csv_loop (table_repo t) format_g format_time no_failure fuel page (mkQuery symbol from to c 1000) (maxExportEvents - 1000 * Z.of_nat k) pending w =
  Some (match k with O => w | S _ => http_Write w (pending ++ (csv_record format_g format_time <$> take (per_page * k) rest)) end).
Proof.
  intros Hwf k. induction k as [|k IH]; intros [|fuel] page pre rest c pending w Hf Hpre Hrest; try lia; cbn [csv_loop].
  { by rewrite (proj2 (Z.leb_le _ _)) by lia. }
  rewrite (proj2 (Z.leb_gt _ _)) by lia. unfold table_repo at 1, no_failure at 1.
  rewrite (QueryEvents_page db_time t symbol from to c 1000 rest Hwf Hrest). fold per_page. pose proof per_page_1000 as Hp.
  destruct (decide (per_page < length rest)%nat) as [Hlt|Hge].
  - rewrite bool_decide_eq_true_2 by done.
    destruct (page_next db_time db_time_idem t symbol from to per_page pre rest Hwf Hpre ltac:(lia)) as (pg & r & Hpage & Hdec & Hnext).
    assert (Hlast : last (take per_page rest) = Some r) by (rewrite Hpage; apply last_snoc). rewrite Hlast.
    cbn [fmap option_fmap option_map rr_Events rr_NextCursor rr_HasMore rq_Symbol rq_From rq_To rq_Limit].
    rewrite length_take, Nat.min_l by lia.
    replace (maxExportEvents - 1000 * Z.of_nat (S k) + Z.of_nat per_page) with (maxExportEvents - 1000 * Z.of_nat k) by lia.
    rewrite (IH fuel (S page) (pre ++ take per_page rest) (drop per_page rest)) by (done || lia).
    rewrite take_pages, fmap_app, app_assoc. destruct k as [|k]; [|by rewrite http_Write_app].
    by rewrite Nat.mul_0_r, take_0, app_nil_r.
  - rewrite bool_decide_eq_false_2 by done. cbn [rr_Events rr_NextCursor rr_HasMore]. by rewrite take_ge by lia.
Qed.

Lemma write_events_app w a b : write_events (write_events w a) b = write_events w (a ++ b).
Proof. destruct a as [|e a], b as [|e' b]; try done; cbn [write_events app]; [by rewrite app_nil_r|]. by rewrite http_Write_app, <- fmap_app. Qed.

Lemma json_loop_streams t symbol from to : table_wf db_time t → ∀ k fuel page pre rest c w,
  (k < fuel)%nat → stream_rows db_time t symbol from to = pre ++ rest →
  filter (after_cursor db_time c) (stream_rows db_time t symbol from to) = rest →
  json_loop (table_repo t) fuel page (mkQuery symbol from to c 1000) (maxExportEvents - 1000 * Z.of_nat k) w =
  Some (write_events w (take (per_page * k) rest)).
Proof.
  intros Hwf k. induction k as [|k IH]; intros [|fuel] page pre rest c w Hf Hpre Hrest; try lia; cbn [json_loop].
  { by rewrite (proj2 (Z.leb_le _ _)), Nat.mul_0_r, take_0 by lia. }
  rewrite (proj2 (Z.leb_gt _ _)) by lia. unfold table_repo at 1.
  rewrite (QueryEvents_page db_time t symbol from to c 1000 rest Hwf Hrest). fold per_page. pose proof per_page_1000 as Hp.
  destruct (decide (per_page < length rest)%nat) as [Hlt|Hge].
  - rewrite bool_decide_eq_true_2 by done.
    destruct (page_next db_time db_time_idem t symbol from to per_page pre rest Hwf Hpre ltac:(lia)) as (pg & r & Hpage & Hdec & Hnext).
    assert (Hlast : last (take per_page rest) = Some r) by (rewrite Hpage; apply last_snoc). rewrite Hlast.
    cbn [fmap option_fmap option_map rr_Events rr_NextCursor rr_HasMore rq_Symbol rq_From rq_To rq_Limit].
    rewrite length_take, Nat.min_l by lia.
    replace (maxExportEvents - 1000 * Z.of_nat (S k) + Z.of_nat per_page) with (maxExportEvents - 1000 * Z.of_nat k) by lia.
    rewrite (IH fuel (S page) (pre ++ take per_page rest) (drop per_page rest)) by (done || lia).
    by rewrite take_pages, write_events_app.
  - rewrite bool_decide_eq_false_2 by done. cbn [rr_Events rr_NextCursor rr_HasMore]. by rewrite take_ge by lia.
Qed.
(** An export streams the log. Whatever was written and whatever the database
    answered, an export over the table answers 200 with the content type of its format
    and, after the column names in CSV, exactly the first 100,000 rows of the symbol and
    range, each once, in the order of time and number; 101 turns of the loop are enough,
    and the slot of the client is free again. *)
Lemma export_streams_rows trim_unicode batches req from to cl fuel :
  Forall (λ b, Forall burns_ok b.2) batches →
  time_param time_Parse "from" (hq_from req) = Ok from → time_param time_Parse "to" (hq_to req) = Ok to →
  hq_format req ∈ [""; "csv"; "json"] → (101 ≤ fuel)%nat →
  let t := written db_time batches in let ip := getClientIP trim_unicode req in
  (acquire cl ip).2 = true →
  ∃ rows w, handleReplayExport trim_unicode time_Parse (table_repo t) format_g format_time no_failure fuel cl req = (release (acquire cl ip).1 ip, Some w) ∧
    rows ≡ₚ filter (in_filters db_time (mkQuery (hq_symbol req) from to zero_cursor 0)) (pg_rows t) ∧ StronglySorted row_lt rows ∧
    if String.eqb (hq_format req) "json" then
      rw_sent w = Some (200, "application/x-ndjson; charset=utf-8") ∧ rw_body w = PEvent <$> take (Z.to_nat maxExportEvents) rows
    else
      rw_sent w = Some (200, "text/csv; charset=utf-8") ∧
      rw_body w = csv_header :: (csv_record format_g format_time <$> take (Z.to_nat maxExportEvents) rows).
Proof.
  intros Hb Hfrom Hto Hfmt Hfuel t ip Hacq. pose proof (written_wf db_time batches Hb) as Hwf. fold t in Hwf.
  set (rows := stream_rows db_time t (hq_symbol req) from to).
  assert (Hall : filter (after_cursor db_time zero_cursor) rows = rows) by (apply filter_all, Forall_forall; intros r _; by left).
  assert (Hn : Z.to_nat maxExportEvents = (per_page * 100)%nat) by (pose proof per_page_1000; unfold maxExportEvents; lia).
  pose proof (csv_loop_streams t (hq_symbol req) from to Hwf 100 fuel 0 [] rows zero_cursor [csv_header]
    (WriteHeader (set_content_type new_response "text/csv; charset=utf-8") 200) ltac:(lia) eq_refl Hall) as Hcsv.
  pose proof (json_loop_streams t (hq_symbol req) from to Hwf 100 fuel 0 [] rows zero_cursor
    (set_content_type new_response "application/x-ndjson; charset=utf-8") ltac:(lia) eq_refl Hall) as Hjson.
  change (maxExportEvents - 1000 * Z.of_nat 100) with 0 in Hcsv, Hjson. rewrite <- Hn in Hcsv, Hjson.
  exists rows. unfold handleReplayExport, limited. fold ip. destruct (acquire cl ip) as [cl' ok] eqn:Ha. cbn in Hacq. subst ok.
  unfold serve_export. rewrite Hfrom, Hto. cbn [fst].
  assert (Hrows : rows ≡ₚ filter (in_filters db_time (mkQuery (hq_symbol req) from to zero_cursor 0)) (pg_rows t) ∧ StronglySorted row_lt rows).
  { split; [apply merge_sort_Permutation|]. by apply stream_rows_ok. }
  destruct Hrows as [Hr1 Hr2]. rewrite !elem_of_cons, elem_of_nil in Hfmt. destruct Hfmt as [->|[->|[->|[]]]]; cbn [String.eqb Ascii.eqb Bool.eqb negb andb].
  - rewrite Hcsv. eexists. split_and!; done.
  - rewrite Hcsv. eexists. split_and!; done.
  - rewrite Hjson. eexists. split_and!; [done|done|done| |]; by destruct (take (Z.to_nat maxExportEvents) rows).
Qed.
End export.

(** *** An export *)

Definition demo_parse (s : string) : result Z string := if String.eqb s "t9" then Ok 9000 else Err "cannot parse".
Definition demo_request : HttpRequest := mkHttpRequest "" "" "10.0.0.1:5000" "AAPL" "" "t9" "" "" "".
Definition demo_limiter : concurrencyLimiter := newConcurrencyLimiter maxConcurrentQueriesPerClient.

Lemma export_streams_rows_witness :
  ∃ w, handleReplayExport id demo_parse (table_repo micros (written micros two_batches)) (λ _, "1") (λ t, pretty t) no_failure 101 demo_limiter demo_request
      = (demo_limiter, Some w) ∧
    rw_sent w = Some (200, "text/csv; charset=utf-8") ∧ length (rw_body w) = 4%nat.
Proof.
  destruct (export_streams_rows micros micros_idem demo_parse (λ _, "1") (λ t, pretty t) id two_batches demo_request zero_time 9000 demo_limiter 101)
    as (rows & w & H1 & Hp & _ & H2 & H3); try reflexivity.
  { constructor; [constructor; [done|constructor]|]. constructor; [constructor|constructor]. }
  { by left. }
  exists w. split; [exact H1|]. split; [exact H2|]. rewrite H3. cbn [length].
  apply Permutation_length in Hp. rewrite length_fmap, length_take, Hp. vm_compute. reflexivity.
Defined.

(** ** Cursors round trip *)

Lemma parse_pretty_go (x : N) : ∀ s, (0 < x)%N → Z.of_N x < 2 ^ 64 → parse_uint_loop (pretty_N_go x s) 0 = parse_uint_loop s (Z.of_N x).
Proof.
  induction (N.lt_wf_0 x) as [x _ IH]. intros s Hx Hb. rewrite pretty_N_go_step by done.
  pose proof (N.mod_lt x 10 ltac:(done)) as Hm. pose proof (N.div_mod x 10 ltac:(done)) as Hd.
  assert (Hdig : ∀ n, parse_uint_loop (String (pretty_N_char (x `mod` 10)) s) n =
    if n * 10 + Z.of_N (x `mod` 10) <? 2 ^ 64 then parse_uint_loop s (n * 10 + Z.of_N (x `mod` 10)) else None).
  { intros n. cbn [parse_uint_loop]. generalize dependent (x `mod` 10)%N. intros d Hd' _.
    assert (Hc : Z.of_nat (nat_of_ascii (pretty_N_char d)) - 48 = Z.of_N d).
    { clear -Hd'. destruct d as [|[[[|[]|]|[|[]|]|]|[[|[]|]|[|[]|]|]|]]; try done; lia. }
    rewrite Hc. by rewrite (proj2 (Z.leb_le 0 _)), (proj2 (Z.leb_le _ 9)) by lia. }
  assert (Hz : Z.of_N x = Z.of_N (x `div` 10) * 10 + Z.of_N (x `mod` 10)) by lia.
  destruct (decide (x `div` 10 = 0)%N) as [H0|H0].
  - rewrite H0, pretty_N_go_0, Hdig. rewrite H0 in Hz. rewrite (proj2 (Z.ltb_lt _ _)) by lia. f_equal. lia.
  - assert (Hlt : (x `div` 10 < x)%N) by (apply N.div_lt; lia). rewrite IH by lia. rewrite Hdig, <- Hz. by rewrite (proj2 (Z.ltb_lt _ _)) by lia.
Qed.

Lemma string_any_pretty_go f (x : N) : (∀ d, (d < 10)%N → f (pretty_N_char d) = false) → ∀ s, string_any f (pretty_N_go x s) = string_any f s.
Proof.
  intros Hf. induction (N.lt_wf_0 x) as [x _ IH]. intros s. destruct (decide (x = 0)%N) as [->|Hx]; [by rewrite pretty_N_go_0|].
  rewrite pretty_N_go_step by lia. rewrite IH by (apply N.div_lt; lia). cbn. by rewrite Hf by (by apply N.mod_lt).
Qed.

Lemma digit_char d : (d < 10)%N → is_space (pretty_N_char d) = false ∧ is_ascii (pretty_N_char d) = true ∧ pretty_N_char d ≠ "+"%char ∧ pretty_N_char d ≠ "-"%char.
Proof. intros H. destruct d as [|[[[|[]|]|[|[]|]|]|[[|[]|]|[|[]|]|]|]]; try done; lia. Qed.

Lemma string_any_pretty_pos f p : (∀ d, (d < 10)%N → f (pretty_N_char d) = false) → string_any f (pretty (Npos p)) = false.
Proof. intros Hf. unfold pretty, pretty_N. by rewrite decide_False, string_any_pretty_go by done. Qed.
Lemma string_any_pretty f (z : Z) : (∀ d, (d < 10)%N → f (pretty_N_char d) = false) → f "-"%char = false → string_any f (pretty z) = false.
Proof.
  intros Hf Hm. destruct z as [|p|p]; [cbn; rewrite orb_false_r; by apply (Hf 0%N)| |].
  - by apply (string_any_pretty_pos f p).
  - change (string_any f (String "-" (pretty (Npos p))) = false). cbn. rewrite Hm. by apply (string_any_pretty_pos f p).
Qed.

Lemma trim_free s : string_any is_space s = false → TrimSpace s = s.
Proof.
  intros Hs. unfold TrimSpace. assert (Hl : trim_left s = s) by (destruct s; [done|cbn in *; by destruct (is_space _)]). rewrite Hl. clear Hl.
  induction s as [|a s IH]; [done|]. cbn in *. apply orb_false_iff in Hs as [Ha Hs]. rewrite IH by done. destruct s; [by rewrite Ha|done].
Qed.

Lemma ParseInt_pretty z : - 2 ^ 63 ≤ z < 2 ^ 63 → ParseInt (pretty z) = Some z.
Proof.
  intros Hz. assert (Hpos : ∀ p, Zpos p < 2 ^ 64 → ParseUint (pretty (Npos p)) = Some (Zpos p)).
  { intros p Hp. unfold pretty, pretty_N. rewrite decide_False by done. pose proof (parse_pretty_go (Npos p) "" ltac:(lia) Hp) as H.
    unfold ParseUint. destruct (pretty_N_go (Npos p) "") eqn:E; [cbn in H; done|exact H]. }
  destruct z as [|p|p]; [done| |].
  - change (pretty (Zpos p)) with (pretty (Npos p)). specialize (Hpos p ltac:(lia)).
    assert (Hs : string_any (λ a, Ascii.eqb a "-" || Ascii.eqb a "+") (pretty (Npos p)) = false).
    { apply string_any_pretty_pos. intros d (_ & _ & H1 & H2)%digit_char.
      by rewrite (proj2 (Ascii.eqb_neq _ _) H1), (proj2 (Ascii.eqb_neq _ _) H2). }
    destruct (pretty (Npos p)) as [|a u]; [done|]. cbn in Hs. apply orb_false_iff in Hs as [[Hm Hp]%orb_false_iff _].
    unfold ParseInt. rewrite Hm, Hp, Hpos. cbn. by rewrite (proj2 (Z.ltb_lt _ _)) by lia.
  - change (pretty (Zneg p)) with (String "-" (pretty (Npos p))). unfold ParseInt. cbn [Ascii.eqb Bool.eqb]. rewrite Hpos by lia.
    cbn. by rewrite (proj2 (Z.leb_le _ _)) by lia.
Qed.

Lemma TrimSpace_pretty tu (z : Z) : TrimSpace_text tu (pretty z) = pretty z.
Proof.
  unfold TrimSpace_text. rewrite string_any_pretty; [|by intros d (_ & -> & _)%digit_char|done].
  apply trim_free, string_any_pretty; [|done]. by intros d (H & _)%digit_char.
Qed.

Lemma cut_comma_app l r : free_of [","%char] l → cut_comma (l +:+ String "," r) = Some (l, r).
Proof.
  unfold free_of. induction l as [|a l IH]; [done|]. cbn [list_ascii_of_string]. intros [Ha Hl]%Forall_cons.
  change (String a l +:+ String "," r) with (String a (l +:+ String "," r)). cbn [cut_comma].
  destruct (Ascii.eqb_spec a ",") as [->|]; [set_solver|]. by rewrite IH.
Qed.

(** A client that sends back the cursor of a page, as the time and the number, gets the
    page that follows: the handler reads the same cursor. *)
Lemma parseCursor_roundtrip tu time_Parse format_time c :
  time_Parse (format_time (cu_Timestamp c)) = Ok (cu_Timestamp c) → free_of [","%char] (format_time (cu_Timestamp c)) →
  TrimSpace_text tu (format_time (cu_Timestamp c)) = format_time (cu_Timestamp c) → - 2 ^ 63 ≤ cu_EventID c < 2 ^ 63 →
  parseCursor tu time_Parse (format_time (cu_Timestamp c) +:+ String "," (pretty (cu_EventID c))) = Ok c.
Proof.
  intros Hp Hf Ht Hid. unfold parseCursor. rewrite cut_comma_app, Ht, Hp, TrimSpace_pretty, ParseInt_pretty by done. by destruct c.
Qed.

(** ** What a failing query looks like *)

(** A CSV export whose first query fails has sent the header of a success: the client
    sees 200 and an error in place of the table, without even the column names. *)
Lemma failed_csv_export_is_200 tu fuel e :
  serve_export demo_parse (λ _ _, Err e) (λ _, "") (λ _, "") no_failure (S fuel) demo_request =
    Some (mkResponseWriter "application/json" (Some (200, "text/csv; charset=utf-8")) [PError ("query failed: " +:+ e)]) ∧
  (handleReplay tu demo_parse (λ _ _, Err e) demo_limiter demo_request).2 =
    Some (mkResponseWriter "application/json" (Some (500, "application/json")) [PError ("query failed: " +:+ e)]).
Proof. done. Qed.
