(* ===== verification/Admin.v ===== *)
(** * Admin: the administrative interface and the HTTP pipeline

    [internal/platform/admin]: who may call what ([middleware/auth.go]), the commands
    and their bus ([commands]), the handlers, the audit of every operation
    ([middleware/audit.go]) and the routes ([api/router.go]); how [internal/transport]
    mounts them; and the recovery of panics in [internal/middleware]. A request is a
    function of the state behind the commands, which it may change, and of the audit log.
    JSON is decoded by the library; what the command of a payload is, is modelled. *)

From Stdlib Require Import Strings.Ascii Strings.String.
From S2P Require Import Prelude Bytes Float64 WalManager MarketEvent Normalization Config.

(** ** Roles and tokens (middleware/auth.go) *)

Definition RoleViewer : string := "viewer".
Definition RoleOperator : string := "operator".
Definition RoleAdministrator : string := "administrator".

Definition isAuthorized (actual required : string) : bool :=
  if String.eqb required RoleViewer then String.eqb actual RoleViewer || String.eqb actual RoleOperator || String.eqb actual RoleAdministrator
  else if String.eqb required RoleOperator then String.eqb actual RoleOperator || String.eqb actual RoleAdministrator
  else if String.eqb required RoleAdministrator then String.eqb actual RoleAdministrator
  else false.

Record StaticTokenAuthenticator := mkTokens { ta_AdminToken : string; ta_OperatorToken : string; ta_ViewerToken : string }.

(** Identity and role. *)
Definition AuthenticateToken (s : StaticTokenAuthenticator) (token : string) : result (string * string) string :=
  if String.eqb token (ta_AdminToken s) then Ok ("admin-user", RoleAdministrator)
  else if String.eqb token (ta_OperatorToken s) then Ok ("operator-user", RoleOperator)
  else if String.eqb token (ta_ViewerToken s) then Ok ("viewer-user", RoleViewer)
  else Err "invalid token".

(** [strings.HasPrefix] with [strings.TrimPrefix]: what follows the prefix. *)
Fixpoint after_prefix (p s : string) : option string :=
  match p, s with
  | "", _ => Some s
  | String a p, String b s => if Ascii.eqb a b then after_prefix p s else None
  | String _ _, "" => None
  end.
Definition TrimPrefix (s p : string) : string := default s (after_prefix p s).

(** ** Requests *)

Inductive json_value := JString (s : string) | JNumber (f : float64) | JOther.

Record AdminRequest := mkAdminRequest {
  ar_Path : string;
  ar_Authorization : string;
  ar_RemoteAddr : string;
  ar_XForwardedFor : string;
  ar_RequestID : string;
  ar_CorrelationID : string;
  ar_payload : gmap string json_value;
}.

(** What becomes of a request: the handler responds, or panics. *)
Inductive outcome := Responded (status : Z) | Panicked.

(** ** State

    What the commands act on: the two controllers, nil or with their flag; the replay
    controller, nil or with a state; the level of the logger and the profiling rates. *)
Record AdminState {R : Type} := mkAdminState {
  as_publisher : option bool;
  as_maintenance : option bool;
  as_replay : option R;
  as_level : string;
  as_mutexFraction : Z;
  as_blockRate : Z;
}.
Arguments AdminState : clear implicits.
Arguments mkAdminState {R}.

Record AuditEvent := mkAuditEvent {
  au_UserIdentity : string;
  au_SourceIP : string;
  au_RequestID : string;
  au_CorrelationID : string;
  au_Action : string;
  au_TargetService : string;
  au_Outcome : string;
  au_ErrorMessage : string;
}.

Definition OutcomeSuccess : string := "SUCCESS".
Definition OutcomeFailure : string := "FAILURE".

(** ** Commands *)

Inductive Command :=
  | PausePublisher | ResumePublisher
  | EnableMaintenance | DisableMaintenance
  | PauseReplay | ResumeReplay | SeekReplay (ts : Z)
  | SetLogLevel (requested : string)
  | SetProfilingRates (mutexFraction blockRate : Z).

Definition command_name (c : Command) : string :=
  match c with
  | PausePublisher => "PausePublisher"
  | ResumePublisher => "ResumePublisher"
  | EnableMaintenance => "EnableMaintenanceMode"
  | DisableMaintenance => "DisableMaintenanceMode"
  | PauseReplay => "PauseReplayCommand"
  | ResumeReplay => "ResumeReplayCommand"
  | SeekReplay _ => "SeekReplayCommand"
  | SetLogLevel _ => "SetLogLevel"
  | SetProfilingRates _ _ => "SetProfilingRates"
  end.

(** [MockPublisherController] and [MockMaintenanceController]: a swap of the flag, with
    an error when it was set already. *)
Definition swap_flag (old new : bool) (error : string) : bool * option string := (new, if Bool.eqb old new then Some error else None).
Definition publisher_Pause (paused : bool) : bool * option string := swap_flag paused true "publisher is already paused".
Definition publisher_Resume (paused : bool) : bool * option string := swap_flag paused false "publisher is not paused".
Definition maintenance_Enable (m : bool) : bool * option string := swap_flag m true "maintenance mode is already enabled".
Definition maintenance_Disable (m : bool) : bool * option string := swap_flag m false "maintenance mode is not enabled".

Section admin.
(** The replay controller is an interface: its operations, with an error or none.
    Conversions of the library: lower case and trimming beyond ASCII, [time.Parse], and a
    number as an [int]. *)
Context {R : Type} (replay_Pause replay_Resume : R → R * option string) (replay_Seek : R → Z → R * option string).
Context (unicode_lower trim_unicode : string → string) (time_Parse : string → result Z string) (int_of_f64 : float64 → Z).
Abbreviation State := (AdminState R).
Implicit Types (st : State) (r : AdminRequest).

Definition set_publisher st (b : bool) : State := mkAdminState (Some b) (as_maintenance st) (as_replay st) (as_level st) (as_mutexFraction st) (as_blockRate st).
Definition set_maintenance st (b : bool) : State := mkAdminState (as_publisher st) (Some b) (as_replay st) (as_level st) (as_mutexFraction st) (as_blockRate st).
Definition set_replay st (x : R) : State := mkAdminState (as_publisher st) (as_maintenance st) (Some x) (as_level st) (as_mutexFraction st) (as_blockRate st).
Definition set_level st (l : string) : State := mkAdminState (as_publisher st) (as_maintenance st) (as_replay st) l (as_mutexFraction st) (as_blockRate st).
Definition set_rates st (m b : Z) : State :=
  mkAdminState (as_publisher st) (as_maintenance st) (as_replay st) (as_level st)
    (if 0 <=? m then m else as_mutexFraction st) (if 0 <=? b then b else as_blockRate st).

(** ASCII lower case. *)
Definition lower1 (a : ascii) : ascii :=
  let n := N_of_ascii a in if ((65 <=? n) && (n <=? 90))%N then ascii_of_N (n + 32) else a.
Definition ToLower (s : string) : string :=
  if string_any (λ a, negb (is_ascii a)) s then unicode_lower s else string_map lower1 s.

(** A command that may panic: [None]. *)
Definition on_controller {A} (nil_error : string) (c : option A) (op : A → A * option string) (upd : A → State) st : State * option string :=
  match c with None => (st, Some nil_error) | Some a => let '(a, err) := op a in (upd a, err) end.
Definition on_replay st (op : R → R * option string) : option (State * option string) :=
  match as_replay st with None => None | Some x => let '(x, err) := op x in Some (set_replay st x, err) end.

Definition Execute st (c : Command) : option (State * option string) :=
  match c with
  | PausePublisher => Some (on_controller "publisher controller is nil" (as_publisher st) publisher_Pause (set_publisher st) st)
  | ResumePublisher => Some (on_controller "publisher controller is nil" (as_publisher st) publisher_Resume (set_publisher st) st)
  | EnableMaintenance => Some (on_controller "maintenance controller is nil" (as_maintenance st) maintenance_Enable (set_maintenance st) st)
  | DisableMaintenance => Some (on_controller "maintenance controller is nil" (as_maintenance st) maintenance_Disable (set_maintenance st) st)
  | PauseReplay => on_replay st replay_Pause
  | ResumeReplay => on_replay st replay_Resume
  | SeekReplay ts => on_replay st (λ x, replay_Seek x ts)
  | SetLogLevel requested =>
      let req := ToLower (TrimSpace_text trim_unicode requested) in
      if one_of ["debug"; "info"; "warn"; "error"] req then Some (set_level st req, None)
      else Some (st, Some "invalid log level requested")
  | SetProfilingRates m b => Some (set_rates st m b, None)
  end.

(** *** The bus with the commands that [NewRouter] registers *)

Definition string_field (p : gmap string json_value) (k : string) : string := match p !! k with Some (JString s) => s | _ => "" end.
Definition int_field (p : gmap string json_value) (k : string) : Z := match p !! k with Some (JNumber f) => int_of_f64 f | _ => -1 end.

Definition factories (path : string) (p : gmap string json_value) : option Command :=
  if String.eqb path "publisher/pause" then Some PausePublisher
  else if String.eqb path "publisher/resume" then Some ResumePublisher
  else if String.eqb path "maintenance/enable" then Some EnableMaintenance
  else if String.eqb path "maintenance/disable" then Some DisableMaintenance
  else if String.eqb path "replay/pause" then Some PauseReplay
  else if String.eqb path "replay/resume" then Some ResumeReplay
  else if String.eqb path "replay/seek" then
    Some (SeekReplay (match time_Parse (string_field p "timestamp") with Ok t => t | Err _ => zero_time end))
  else if String.eqb path "configuration/log-level" then Some (SetLogLevel (string_field p "level"))
  else if String.eqb path "configuration/profiling" then Some (SetProfilingRates (int_field p "mutex_fraction") (int_field p "block_rate"))
  else None.

(** The name of the command, or the error; [None] is a panic. *)
Definition DispatchByPath st (path : string) (p : gmap string json_value) : option (State * result string string) :=
  match factories path p with
  | None => Some (st, Err ("no command registered for path: " +:+ path))
  | Some c =>
      match Execute st c with
      | None => None
      | Some (st, Some e) => Some (st, Err ("failed to execute command " +:+ command_name c +:+ ": " +:+ e))
      | Some (st, None) => Some (st, Ok (command_name c))
      end
  end.

(** [strings.Contains]. *)
Fixpoint contains (sub s : string) : bool :=
  match after_prefix sub s with
  | Some _ => true
  | None => match s with "" => false | String _ s => contains sub s end
  end.

(** [strings.Trim(path, "/")]. *)
Fixpoint trim_slash_left (s : string) : string := match s with String "/" s => trim_slash_left s | _ => s end.
Fixpoint trim_slash_right (s : string) : string :=
  match s with "" => "" | String a s => let t := trim_slash_right s in if Ascii.eqb a "/" && String.eqb t "" then "" else String a t end.

Definition HandleDispatch st r : State * outcome :=
  let path := trim_slash_right (trim_slash_left (TrimPrefix (ar_Path r) "/operations/")) in
  match DispatchByPath st path (ar_payload r) with
  | None => (st, Panicked)
  | Some (st, Err e) => (st, Responded (if contains "no command registered" e then 404 else 409))
  | Some (st, Ok _) => (st, Responded 200)
  end.

(** ** Middleware *)

Definition StatusText (status : Z) : string := if status =? 404 then "Not Found" else if status =? 409 then "Conflict" else "".

(** [Audit]: after the handler, unless it panics, one event. *)
Definition Audit (who actionName targetService : string) r (served : State * outcome) : State * outcome * list AuditEvent :=
  match served with
  | (st, Panicked) => (st, Panicked, [])
  | (st, Responded status) =>
      let sourceIp := if String.eqb (ar_XForwardedFor r) "" then ar_RemoteAddr r else default "" (head (split_on "," (ar_XForwardedFor r))) in
      let failed := 400 <=? status in
      (st, Responded status,
       [mkAuditEvent who sourceIp (ar_RequestID r) (ar_CorrelationID r) actionName targetService
          (if failed then OutcomeFailure else OutcomeSuccess) (if failed then StatusText status else "")])
  end.

(** The caller that [Authenticate] puts into the context, or none. *)
Definition authenticate (auth : StaticTokenAuthenticator) r : option (string * string) :=
  match after_prefix "Bearer " (ar_Authorization r) with
  | None => None
  | Some token => match AuthenticateToken auth token with Ok c => Some c | Err _ => None end
  end.

(** ** Routes (api/router.go) *)

Inductive endpoint := Inspection | Diagnostics | Pprof | Operations.

Definition pprof_prefix : string := "/diagnostics/debug/pprof/".

(** The role that a route requires and its handler; patterns that end in a slash match
    what starts with them. The multiplexer redirects a path that is not clean before it
    comes here. *)
Definition route (path : string) : option (string * endpoint) :=
  if one_of ["/inspection/runtime"; "/inspection/configuration"] path then Some (RoleViewer, Inspection)
  else if one_of ["/diagnostics/goroutines"; "/diagnostics/memory"] path then Some (RoleViewer, Diagnostics)
  else if bool_decide (is_Some (after_prefix pprof_prefix path)) then Some (RoleAdministrator, Pprof)
  else if bool_decide (is_Some (after_prefix "/operations/" path)) then Some (RoleOperator, Operations)
  else None.

(** What the handlers that only read answer. *)
Context (read_status : endpoint → AdminRequest → Z).

(** A request to the administrative interface. *)
Definition admin_serve (auth : StaticTokenAuthenticator) st r : State * outcome * list AuditEvent :=
  match route (ar_Path r) with
  | None => (st, Responded 404, [])
  | Some (required, e) =>
      match authenticate auth r with
      | None => (st, Responded 401, [])
      | Some (who, role) =>
          if isAuthorized role required then
            match e with
            | Operations => Audit who "DynamicDispatch" "platform" r (HandleDispatch st r)
            | _ => (st, Responded (read_status e r), [])
            end
          else (st, Responded 403, [])
      end
  end.

(** Requests in turn: the state and the audit log. *)
Fixpoint admin_run (auth : StaticTokenAuthenticator) st (rs : list AdminRequest) : State * list AuditEvent :=
  match rs with
  | [] => (st, [])
  | r :: rs => let '(st, _, evs) := admin_serve auth st r in let '(st, log) := admin_run auth st rs in (st, evs ++ log)
  end.

(** ** Access *)

Lemma after_prefix_app p s t : after_prefix p s = Some t ↔ s = p +:+ t.
Proof.
  revert s. induction p as [|a p IH]; intros s; cbn; [split; [by intros [= ->]|by intros ->]|].
  destruct s as [|b s]; [done|]. change (String a p +:+ t) with (String a (p +:+ t)). destruct (Ascii.eqb_spec a b) as [->|Hab].
  - rewrite IH. split; [by intros ->|by intros [= ->]].
  - split; [done|]. by intros [= -> _].
Qed.

(** A caller with a token of an operator or an administrator. *)
Definition operator_token (auth : StaticTokenAuthenticator) r (who : string) : Prop :=
  ∃ token role, ar_Authorization r = "Bearer " +:+ token ∧ AuthenticateToken auth token = Ok (who, role) ∧ role ∈ [RoleOperator; RoleAdministrator].

Lemma operator_authorized role : isAuthorized role RoleOperator = true ↔ role ∈ [RoleOperator; RoleAdministrator].
Proof. unfold isAuthorized. cbn [String.eqb Ascii.eqb Bool.eqb RoleOperator RoleViewer]. rewrite orb_true_iff, !String.eqb_eq. set_solver. Qed.

Lemma authenticate_token auth r who role :
  authenticate auth r = Some (who, role) → ∃ token, ar_Authorization r = "Bearer " +:+ token ∧ AuthenticateToken auth token = Ok (who, role).
Proof.
  unfold authenticate. destruct (after_prefix _ _) as [token|] eqn:Hp; [|done]. destruct (AuthenticateToken auth token) as [c|] eqn:Ha; [|done].
  intros [= ->]. exists token. by rewrite after_prefix_app in Hp.
Qed.

Lemma route_required path required e : route path = Some (required, e) → e = Operations → required = RoleOperator.
Proof. unfold route. intros H ->. repeat case_match; by simplify_eq. Qed.

Lemma HandleDispatch_panic st r st' : HandleDispatch st r = (st', Panicked) → st' = st.
Proof. unfold HandleDispatch. destruct (DispatchByPath _ _ _) as [[? []]|]; by intros [= <-]. Qed.

(** What one request can do: nothing without authority, and an audited operation with
    it. *)
Lemma admin_serve_cases auth st r :
  (∃ status, admin_serve auth st r = (st, Responded status, [])) ∨
  (∃ who st' out, operator_token auth r who ∧ HandleDispatch st r = (st', out) ∧
     admin_serve auth st r = Audit who "DynamicDispatch" "platform" r (st', out)).
Proof.
  unfold admin_serve. destruct (route (ar_Path r)) as [[required e]|] eqn:Hr; [|left; eauto].
  destruct (authenticate auth r) as [[who role]|] eqn:Ha; [|left; eauto].
  destruct (isAuthorized role required) eqn:Hz; [|left; eauto]. destruct e; try (left; by eauto).
  right. rewrite (route_required _ _ _ Hr eq_refl), operator_authorized in Hz. apply authenticate_token in Ha as (token & H1 & H2).
  destruct (HandleDispatch st r) as [st' out]. exists who, st', out. split; [by exists token, role|done].
Qed.

(** C39: Only operators operate, and what they do is audited. Over any requests to the
    administrative interface, without a token of an operator or administrator the state
    behind the commands is what it was and the audit log is empty. A single request that
    changes the state, or is audited, carries such a token and, unless the handler
    panics and changes nothing, adds exactly one entry: the caller of that token, and
    failure if and only if the status is at least 400. *)
Theorem operations_authorized_and_audited auth :
  (∀ st rs, Forall (λ r, ∀ who, ~ operator_token auth r who) rs → admin_run auth st rs = (st, [])) ∧
  (∀ st r st' out evs, admin_serve auth st r = (st', out, evs) → st' ≠ st ∨ evs ≠ [] →
     ∃ who status e, operator_token auth r who ∧ out = Responded status ∧ evs = [e] ∧ au_UserIdentity e = who ∧
       au_Outcome e = (if 400 <=? status then OutcomeFailure else OutcomeSuccess)).
Proof.
  split.
  - intros st rs Hrs. induction Hrs as [|r rs Hr _ IH]; [done|]. cbn [admin_run].
    destruct (admin_serve_cases auth st r) as [[status ->]|(who & _ & _ & Ht & _)]; [by rewrite IH|]. by destruct (Hr who).
  - intros st r st' out evs Hs Hch. destruct (admin_serve_cases auth st r) as [[status Hn]|(who & st1 & out1 & Ht & Hd & Ha)].
    { rewrite Hn in Hs. simplify_eq. by destruct Hch. }
    rewrite Ha in Hs. destruct out1 as [status|]; cbn in Hs; simplify_eq.
    + by eexists who, status, _.
    + apply HandleDispatch_panic in Hd as ->. by destruct Hch.
Qed.
End admin.

(** ** How the server mounts it (transport/router.go) *)

Definition envOrDefault (value fallback : string) : string := if negb (String.eqb value "") then value else fallback.

Definition server_tokens (env : string → string) : StaticTokenAuthenticator :=
  mkTokens (envOrDefault (env "RTMDS_ADMIN_TOKEN") "admin") (envOrDefault (env "RTMDS_OPERATOR_TOKEN") "operator")
    (envOrDefault (env "RTMDS_VIEWER_TOKEN") "viewer").

(** Both controllers are mocks, the replay controller is not set, and the level is one
    that no logger reads. *)
Definition server_state {R} (mutexFraction blockRate : Z) : AdminState R := mkAdminState (Some false) (Some false) None "info" mutexFraction blockRate.

(** The role that the server requires for a path; the profiler and the change of the
    level are mounted outside the administrative interface. *)
Definition server_requires (is_post : bool) (path : string) : option string :=
  if is_post && String.eqb path "/admin/log-level" then None
  else match after_prefix "/debug" path with
       | Some _ => None
       | None => match after_prefix "/admin" path with Some p => fst <$> route p | None => None end
       end.

(** *** Examples *)

Definition bearer (token path : string) : AdminRequest := mkAdminRequest path ("Bearer " +:+ token) "10.0.0.9:40000" "" "" "" ∅.
Definition demo_tokens : StaticTokenAuthenticator := mkTokens "a-token" "o-token" "v-token".
Abbreviation demo_serve := (admin_serve (λ x : unit, (x, None)) (λ x, (x, None)) (λ x _, (x, None)) id id (λ _, Err "bad time") (λ _, 0) (λ _ _, 200)).
Abbreviation demo_runs := (admin_run (λ x : unit, (x, None)) (λ x, (x, None)) (λ x _, (x, None)) id id (λ _, Err "bad time") (λ _, 0) (λ _ _, 200)).

Lemma operations_authorized_and_audited_witness :
  demo_runs demo_tokens (server_state 0 0) [bearer "v-token" "/operations/publisher/pause"; bearer "v-token" "/inspection/runtime"] = (server_state 0 0, []) ∧
  ∃ who status e, operator_token demo_tokens (bearer "o-token" "/operations/publisher/pause") who ∧
    (demo_serve demo_tokens (server_state 0 0) (bearer "o-token" "/operations/publisher/pause")).1.2 = Responded status ∧ au_UserIdentity e = who ∧ status = 200.
Proof.
  destruct (operations_authorized_and_audited (λ x : unit, (x, None)) (λ x, (x, None)) (λ x _, (x, None)) id id (λ _, Err "bad time") (λ _, 0) (λ _ _, 200) demo_tokens)
    as [H1 H2]. split.
  - apply (H1 (server_state 0 0) [_; _]). constructor; [|constructor; [|constructor]].
    all: intros who (token & role & Ha%after_prefix_app & Ht & Hr); vm_compute in Ha; injection Ha as <-; vm_compute in Ht; injection Ht as <- <-.
    all: rewrite !elem_of_cons, elem_of_nil in Hr; by destruct Hr as [?|[?|[]]].
  - destruct (H2 (server_state 0 0) (bearer "o-token" "/operations/publisher/pause") _ _ _ eq_refl) as (who & status & e & Ht & Ho & _ & Hw & _); [by left|].
    exists who, status, e. split_and!; [done|exact Ho|done|]. vm_compute in Ho. congruence.
Defined.

(** Without configured tokens anybody is an administrator. *)
Lemma default_token_is_administrator path :
  authenticate (server_tokens (λ _, "")) (bearer "admin" path) = Some ("admin-user", RoleAdministrator).
Proof. done. Qed.

(** A replay command panics, since the server has no replay controller, and the panic
    goes past the audit. *)
Lemma replay_command_panics :
  demo_serve demo_tokens (server_state 0 0) (bearer "o-token" "/operations/replay/pause") = (server_state 0 0, Panicked, []).
Proof. vm_compute. reflexivity. Qed.

(** A seek with a time that cannot be parsed seeks to the zero time. *)
Lemma seek_ignores_bad_time (p : gmap string json_value) :
  factories (λ _, Err "bad time") (λ _, 0) "replay/seek" p = Some (SeekReplay zero_time).
Proof. done. Qed.

(** The profiles need an administrator under [/admin] and nobody under [/debug]; the level
    of the logs needs an operator as an operation and nobody as a route of its own. *)
Lemma profiler_and_level_are_open :
  server_requires false "/admin/diagnostics/debug/pprof/heap" = Some RoleAdministrator ∧ server_requires false "/debug/pprof/heap" = None ∧
  server_requires true "/admin/operations/configuration/log-level" = Some RoleOperator ∧ server_requires true "/admin/log-level" = None.
Proof. done. Qed.

(** ** The pipeline around every handler (internal/middleware/http.go) *)

(** What a handler has done: the status it has written, if any, and whether it panics. *)
Record handled := mkHandled { hd_status : option Z; hd_panics : bool }.

(** The status that the client gets, the level of the log line, and whether the metrics
    count the request. A status that was never written is 0 for the log and 200 for the
    client. *)
Definition prometheus_counts (h : handled) : bool := negb (hd_panics h).
Definition recoveryMiddleware (h : handled) : handled :=
  if hd_panics h then mkHandled (match hd_status h with None => Some 500 | s => s end) false else h.
Definition log_level (h : handled) : string :=
  let status := default 0 (hd_status h) in if 500 <=? status then "error" else if 400 <=? status then "warn" else "debug".
Definition client_status (h : handled) : Z := default 200 (hd_status (recoveryMiddleware h)).

(** No panic leaves the pipeline: one before the header is answered with 500 and logged as
    an error. *)
Lemma recovery_answers h :
  hd_panics (recoveryMiddleware h) = false ∧
  (hd_panics h = true → hd_status h = None → client_status h = 500 ∧ log_level (recoveryMiddleware h) = "error") ∧
  (hd_panics h = false → recoveryMiddleware h = h).
Proof. destruct h as [[s|] []]; split_and!; done. Qed.

(** A handler that panics after its header looks to the client, and to the log, like one
    that has finished. *)
Lemma late_panic_looks_complete status :
  recoveryMiddleware (mkHandled (Some status) true) = recoveryMiddleware (mkHandled (Some status) false).
Proof. done. Qed.
