(* ===== verification/Simulator.v ===== *)
(** * Simulator: synthetic quotes

    [pkg/marketdata/simulator]: the configuration and its check, the subscriptions with
    their prices, the random walk, and the two ways of running: one goroutine that ticks,
    with bursts, and one goroutine for each symbol without a limit; and its adapter
    ([internal/adapters/simulator]). Random numbers are arguments. A run is the sequence
    of what the goroutines, the consumer and callers of [Subscribe] and [Unsubscribe]
    do. *)

From Stdlib Require Import Strings.String Floats.SpecFloat.
From S2P Require Import Prelude Bytes Float64 MarketEvent Bus Pipeline Normalization Exchange.

(** ** Configuration *)

Record BurstConfig := mkBurst { bc_Multiplier : float64; bc_DurationMs : Z; bc_PeriodMs : Z }.

Record SimConfig := mkSimConfig {
  si_TickInterval : Z;
  si_Unlimited : bool;
  si_Seed : Z;
  si_Burst : BurstConfig;
  si_BasePrice : float64;
  si_Volatility : float64;
}.

(** The float64 nearest to 0.02, 0.9995 and 1.0005. *)
Definition f64_0_02 : float64 := f64_lit 5764607523034235 (-58).
Definition f64_0_9995 : float64 := f64_lit 9002695655113622 (-53).
Definition f64_1_0005 : float64 := f64_lit 4505851427184181 (-52).

Definition Microsecond : Z := 1000.
Definition no_burst : BurstConfig := mkBurst f64_zero 0 0.
Definition SimDefaultConfig : SimConfig := mkSimConfig (500 * Millisecond) false 0 no_burst (f64_of_Z 100) f64_0_02.
Definition BenchmarkConfig : SimConfig := mkSimConfig (100 * Microsecond) false 0 no_burst (f64_of_Z 100) f64_0_02.
Definition MaxThroughputConfig : SimConfig := mkSimConfig 0 true 42 no_burst (f64_of_Z 100) f64_0_02.

(** The error of [Validate], or none. *)
Definition SimConfig_Validate (c : SimConfig) : option string :=
  if negb (si_Unlimited c) && (si_TickInterval c <=? 0) then Some "simulator: TickInterval must be positive"
  else if f64_leb (si_BasePrice c) f64_zero then Some "simulator: BasePrice must be positive"
  else if f64_ltb (si_Volatility c) f64_zero || f64_ltb f64_one (si_Volatility c) then Some "simulator: Volatility must be in [0, 1]"
  else if f64_ltb (bc_Multiplier (si_Burst c)) f64_zero then Some "simulator: Burst.Multiplier must be >= 0"
  else None.

(** ** Subscriptions and prices *)

Record Simulator := mkSimulator {
  sim_cfg : SimConfig;
  sim_symbols : list string;
  sim_prices : gmap string float64;
  sim_started : bool;
  sim_dropped : Z;
}.

Definition set_subs (s : Simulator) (symbols : list string) (prices : gmap string float64) : Simulator :=
  mkSimulator (sim_cfg s) symbols prices (sim_started s) (sim_dropped s).

Definition subscribe1 (s : Simulator) (sym : string) : Simulator :=
  match sim_prices s !! sym with
  | Some _ => s
  | None => set_subs s (sim_symbols s ++ [sym]) (<[sym := si_BasePrice (sim_cfg s)]> (sim_prices s))
  end.
Definition subscribeUnlocked (s : Simulator) (symbols : list string) : Simulator := foldl subscribe1 s symbols.

Definition NewSimulator (cfg : SimConfig) (symbols : list string) : result Simulator string :=
  match SimConfig_Validate cfg with
  | Some e => Err e
  | None => Ok (subscribeUnlocked (mkSimulator cfg [] ∅ false 0) symbols)
  end.

Definition Sim_Unsubscribe (s : Simulator) (symbols : list string) : Simulator :=
  set_subs s (filter (λ sym, sym ∉ symbols) (sim_symbols s)) (foldl (λ m sym, delete sym m) (sim_prices s) symbols).

(** The change of a price for a random number of [rand.Float64]. *)
Definition price_delta (cfg : SimConfig) (price rand : float64) : float64 :=
  f64_mul (f64_mul price (si_Volatility cfg)) (f64_sub (f64_mul rand (f64_of_Z 2)) f64_one).

Definition nextPrice (s : Simulator) (symbol : string) (rand : float64) : Simulator * float64 :=
  let prev := default f64_zero (sim_prices s !! symbol) in
  let next := f64_add prev (price_delta (sim_cfg s) prev rand) in
  let next := if f64_leb next f64_zero then prev else next in
  (set_subs s (sim_symbols s) (<[symbol := next]> (sim_prices s)), next).

(** [n] is what [rand.Intn(10000)] answers. *)
Definition sim_quote (sym : string) (price : float64) (n now : Z) : Quote :=
  mkQuote sym QuoteTypeTrade 0 price (f64_mul price f64_0_9995) (f64_mul price f64_1_0005) (n + 100) now "simulator".

(** ** Running at a fixed rate *)

Definition out_buffer (unlimited : bool) : Z := if unlimited then 65536 else 4096.

(** [Run] succeeds once. *)
Definition Run_simulator (s : Simulator) : result Simulator string :=
  if sim_started s then Err "simulator: Run already started"
  else Ok (mkSimulator (sim_cfg s) (sim_symbols s) (sim_prices s) true (sim_dropped s)).

Record burst_state := mkBurstState { bu_inBurst : bool; bu_burstEnd : Z; bu_nextBurst : Z }.

Definition bursts (c : SimConfig) : bool := f64_ltb f64_zero (bc_Multiplier (si_Burst c)) && (0 <? bc_PeriodMs (si_Burst c)).
Definition burst_init (c : SimConfig) (now : Z) : burst_state :=
  mkBurstState false zero_time (if bursts c then now + bc_PeriodMs (si_Burst c) * Millisecond else zero_time).

(** The state after a tick at [t], and the new interval of the ticker if it is reset. *)
Definition burst_step (conv_other : float64 → Z) (c : SimConfig) (b : burst_state) (t : Z) : burst_state * option Z :=
  if bursts c then
    if negb (bu_inBurst b) && (bu_nextBurst b <? t) then
      (mkBurstState true (t + bc_DurationMs (si_Burst c) * Millisecond) (bu_nextBurst b),
       Some (int64_of conv_other (f64_div (f64_of_Z (si_TickInterval c)) (bc_Multiplier (si_Burst c)))))
    else if bu_inBurst b && (bu_burstEnd b <? t) then
      (mkBurstState false (bu_burstEnd b) (t + bc_PeriodMs (si_Burst c) * Millisecond), Some (si_TickInterval c))
    else (b, None)
  else (b, None).

(** The goroutine: waiting for a tick, about to take the next of the symbols, about to
    send, done, or panicked in [ticker.Reset]. *)
Inductive sim_pc := SIdle | SEmit (now : Z) (syms : list string) | SSend (q : Quote) (now : Z) (syms : list string) | SDone | SPanic.

Record SimRun := mkSimRun {
  sr_sim : Simulator;
  sr_pc : sim_pc;
  sr_burst : burst_state;
  sr_out : list Quote;
  sr_closed : bool;
  sr_cancelled : bool;
}.

Inductive sim_label := LTick (now : Z) | LQuote (q : Quote) | LSent (q : Quote) | LDropped (q : Quote) | LLost (q : Quote) | LTaken (q : Quote)
  | LSubscribe (syms : list string) | LUnsubscribe (syms : list string) | LCancel | LTau.

Definition sr_with (w : SimRun) (s : Simulator) (pc : sim_pc) (out : list Quote) : SimRun :=
  mkSimRun s pc (sr_burst w) out (sr_closed w) (sr_cancelled w).
Definition drop_one (s : Simulator) : Simulator := mkSimulator (sim_cfg s) (sim_symbols s) (sim_prices s) (sim_started s) (i64 (sim_dropped s + 1)).
Definition sr_end (w : SimRun) : SimRun := mkSimRun (sr_sim w) SDone (sr_burst w) (sr_out w) true (sr_cancelled w).

(** [ticker.Reset] panics on an interval that is not positive. *)
Definition after_tick (reset : option Z) (now : Z) (syms : list string) : sim_pc :=
  match reset with Some d => if d <=? 0 then SPanic else SEmit now syms | None => SEmit now syms end.

Section fixed_rate.
Context (conv_other : float64 → Z).

Inductive sim_step (w : SimRun) : sim_label → SimRun → Prop :=
  | ss_tick t now b reset :
      sr_pc w = SIdle → burst_step conv_other (sim_cfg (sr_sim w)) (sr_burst w) t = (b, reset) →
      sim_step w (LTick now)
        (mkSimRun (sr_sim w) (after_tick reset now (sim_symbols (sr_sim w))) b (sr_out w) (sr_closed w) (sr_cancelled w))
  | ss_quote now sym syms rand n s price :
      sr_pc w = SEmit now (sym :: syms) → 0 ≤ n < 10000 → nextPrice (sr_sim w) sym rand = (s, price) →
      sim_step w (LQuote (sim_quote sym price n now)) (sr_with w s (SSend (sim_quote sym price n now) now syms) (sr_out w))
  | ss_sent q now syms :
      sr_pc w = SSend q now syms → Z.of_nat (length (sr_out w)) < out_buffer false →
      sim_step w (LSent q) (sr_with w (sr_sim w) (SEmit now syms) (sr_out w ++ [q]))
  | ss_dropped q now syms :
      sr_pc w = SSend q now syms → out_buffer false ≤ Z.of_nat (length (sr_out w)) → sr_cancelled w = false →
      sim_step w (LDropped q) (sr_with w (drop_one (sr_sim w)) (SEmit now syms) (sr_out w))
  | ss_lost q now syms : sr_pc w = SSend q now syms → sr_cancelled w = true → sim_step w (LLost q) (sr_end w)
  | ss_round now : sr_pc w = SEmit now [] → sim_step w LTau (sr_with w (sr_sim w) SIdle (sr_out w))
  | ss_end : sr_pc w = SIdle → sr_cancelled w = true → sim_step w LTau (sr_end w)
  | ss_taken q out : sr_out w = q :: out → sim_step w (LTaken q) (sr_with w (sr_sim w) (sr_pc w) out)
  | ss_cancel : sim_step w LCancel (mkSimRun (sr_sim w) (sr_pc w) (sr_burst w) (sr_out w) (sr_closed w) true)
  | ss_subscribe syms : sim_step w (LSubscribe syms) (sr_with w (subscribeUnlocked (sr_sim w) syms) (sr_pc w) (sr_out w))
  | ss_unsubscribe syms : sim_step w (LUnsubscribe syms) (sr_with w (Sim_Unsubscribe (sr_sim w) syms) (sr_pc w) (sr_out w)).

(** A caller that does not unsubscribe in the middle of a round. *)
Definition idle (pc : sim_pc) : Prop := match pc with SEmit _ _ | SSend _ _ _ => False | _ => True end.
Definition calm (w : SimRun) (l : sim_label) : Prop := match l with LUnsubscribe _ => idle (sr_pc w) | _ => True end.

Inductive sim_run (w0 : SimRun) (quiet : bool) : list sim_label → SimRun → Prop :=
  | sr_nil : sim_run w0 quiet [] w0
  | sr_snoc tr w l w' : sim_run w0 quiet tr w → sim_step w l w' → (quiet = true → calm w l) → sim_run w0 quiet (tr ++ [l]) w'.

(** *** What a run has done *)

Definition generated (l : sim_label) : list Quote := match l with LQuote q => [q] | _ => [] end.
Definition sent (l : sim_label) : list Quote := match l with LSent q => [q] | _ => [] end.
Definition dropped (l : sim_label) : list Quote := match l with LDropped q => [q] | _ => [] end.
Definition lost (l : sim_label) : list Quote := match l with LLost q => [q] | _ => [] end.
Definition taken (l : sim_label) : list Quote := match l with LTaken q => [q] | _ => [] end.
Definition held (pc : sim_pc) : list Quote := match pc with SSend q _ _ => [q] | _ => [] end.

Definition sim_start (s : Simulator) (now : Z) : SimRun := mkSimRun s SIdle (burst_init (sim_cfg s) now) [] false false.

Record conserved (s0 : Simulator) (tr : list sim_label) (w : SimRun) : Prop := {
  co_fifo : (tr ≫= taken) ++ sr_out w = tr ≫= sent;
  co_order : ∃ g, tr ≫= generated = g ++ held (sr_pc w) ∧ (tr ≫= sent) `sublist_of` g;
  co_count : length (tr ≫= generated) = (length (tr ≫= sent) + length (tr ≫= dropped) + length (tr ≫= lost) + length (held (sr_pc w)))%nat;
  co_lost : length (tr ≫= lost) = 0%nat ∨ (length (tr ≫= lost) = 1%nat ∧ sr_pc w = SDone);
  co_dropped : sim_dropped (sr_sim w) = i64 (sim_dropped s0 + Z.of_nat (length (tr ≫= dropped)));
  co_closed : sr_closed w = true ↔ sr_pc w = SDone;
  co_cfg : sim_cfg (sr_sim w) = sim_cfg s0;
}.

Lemma subscribe_fields symbols : ∀ s, sim_cfg (subscribeUnlocked s symbols) = sim_cfg s ∧ sim_dropped (subscribeUnlocked s symbols) = sim_dropped s.
Proof.
  induction symbols as [|sym symbols IH]; intros s; [done|]. unfold subscribeUnlocked. cbn [foldl]. fold (subscribeUnlocked (subscribe1 s sym) symbols).
  destruct (IH (subscribe1 s sym)) as [-> ->]. unfold subscribe1. by destruct (sim_prices s !! sym).
Qed.

Lemma after_tick_cases reset now syms : after_tick reset now syms = SPanic ∨ after_tick reset now syms = SEmit now syms.
Proof. unfold after_tick. destruct reset as [d|]; [destruct (d <=? 0)|]; auto. Qed.

Lemma conserved_run s0 now quiet tr w : in_i64 (sim_dropped s0) → sim_run (sim_start s0 now) quiet tr w → conserved s0 tr w.
Proof.
  intros Hs0. induction 1 as [|tr w l w' _ [Hf (g & Hg & Hs) Hc Hl Hd Hcl Hcf] Hstep _].
  { split; try done; [by exists []|by left|]. cbn. by rewrite Z.add_0_r, i64_small. }
  assert (Hsub : (tr ≫= sent) `sublist_of` tr ≫= generated) by (rewrite Hg; by apply sublist_inserts_r).
  destruct Hstep as [t t' b reset Hpc Hb|t' sym syms rand n s price Hpc Hn Hnp|q t' syms Hpc Hlen|q t' syms Hpc Hlen Hcan|q t' syms Hpc Hcan|t' Hpc|Hpc Hcan|q out Hout| |syms|syms].
  2: unfold nextPrice in Hnp; injection Hnp as <- Hprice; clear Hprice.
  all: try rewrite Hpc in Hg, Hc, Hl, Hcl; cbn in Hg, Hc, Hl, Hcl; rewrite ?app_nil_r in Hg.
  1: destruct (after_tick_cases reset t' (sim_symbols (sr_sim w))) as [-> | ->].
  all: split; rewrite ?bind_app; cbn; rewrite ?app_nil_r, ?length_app; cbn; try done; try lia.
  all: try (destruct (subscribe_fields syms (sr_sim w)) as [-> ->]; done).
  all: try (first [by exists g | exists (tr ≫= generated); by rewrite ?app_nil_r]).
  all: try (destruct Hl as [Hl|[Hl ?]]; [by left|done]).
  all: try (by split; [intros H%Hcl|]).
  - by rewrite app_assoc, Hf.
  - exists (tr ≫= generated). rewrite app_nil_r. split; [done|]. rewrite Hg. by apply sublist_app.
  - rewrite Hd, i64_add. f_equal. lia.
  - destruct Hl as [Hl|[_ ?]]; [|done]. right. split; [lia|done].
  - rewrite <- app_assoc. cbn. by rewrite <- Hout.
  - by rewrite (proj2 (subscribe_fields _ _)).
  - by rewrite (proj1 (subscribe_fields _ _)).
Qed.
(** *** Prices *)

Record priced (s : Simulator) : Prop := {
  pr_unique : NoDup (sim_symbols s);
  pr_dom : ∀ sym, sym ∈ sim_symbols s ↔ is_Some (sim_prices s !! sym);
  pr_pos : ∀ sym p, sim_prices s !! sym = Some p → f64_leb p f64_zero = false;
  pr_base : f64_leb (si_BasePrice (sim_cfg s)) f64_zero = false;
  pr_named : "" ∉ sim_symbols s;
}.

Lemma priced_subscribe symbols : ∀ s, priced s → "" ∉ symbols → priced (subscribeUnlocked s symbols).
Proof.
  induction symbols as [|sym symbols IH]; intros s Hp Hn; [done|]. apply not_elem_of_cons in Hn as [Hsym Hn]. apply IH; [|done].
  unfold subscribe1. destruct (sim_prices s !! sym) eqn:Hs; [done|]. destruct Hp as [H1 H2 H3 H4 H5].
  assert (Hnew : sym ∉ sim_symbols s) by (rewrite H2, Hs; by intros []). split; cbn; [| | |done|set_solver].
  - apply NoDup_app. split_and!; [done|set_solver|apply NoDup_singleton].
  - intros sym'. rewrite elem_of_app, list_elem_of_singleton, H2, lookup_insert_is_Some'. naive_solver.
  - intros sym' p. rewrite lookup_insert_Some. intros [[_ <-]|[_ H]]; [done|by eapply H3].
Qed.

Lemma delete_all_lookup symbols : ∀ (m : gmap string float64) sym,
  foldl (λ m sym, delete sym m) m symbols !! sym = if decide (sym ∈ symbols) then None else m !! sym.
Proof.
  induction symbols as [|x symbols IH]; intros m sym; [done|]. cbn [foldl]. rewrite IH.
  destruct (decide (sym ∈ symbols)), (decide (sym ∈ x :: symbols)); try set_solver.
  - assert (sym = x) as -> by set_solver. by rewrite lookup_delete_eq.
  - rewrite lookup_delete_ne; [done|set_solver].
Qed.

Lemma priced_unsubscribe s symbols : priced s → priced (Sim_Unsubscribe s symbols).
Proof.
  intros [H1 H2 H3 H4 H5]. split; cbn; [by apply NoDup_filter| | |done|].
  - intros sym. rewrite list_elem_of_filter, H2, delete_all_lookup. destruct (decide (sym ∈ symbols)); [|naive_solver].
    split; [by intros []|by intros []].
  - intros sym p. rewrite delete_all_lookup. destruct (decide _); [done|]. apply H3.
  - rewrite list_elem_of_filter. by intros [].
Qed.

Lemma priced_next s sym rand : priced s → sym ∈ sim_symbols s →
  priced (nextPrice s sym rand).1 ∧ f64_leb (nextPrice s sym rand).2 f64_zero = false ∧ sim_symbols (nextPrice s sym rand).1 = sim_symbols s.
Proof.
  intros [H1 H2 H3 H4 H5] Hs. unfold nextPrice. pose proof Hs as [prev Hprev]%H2. rewrite Hprev. cbn [default fst snd sim_symbols set_subs].
  set (next := f64_add _ _). assert (Hpos : f64_leb (if f64_leb next f64_zero then prev else next) f64_zero = false).
  { destruct (f64_leb next f64_zero) eqn:E; [by eapply H3|done]. }
  split_and!; [|done|done]. split; cbn; try done.
  - intros sym'. rewrite H2, lookup_insert_is_Some'. split; [by right|]. intros [<-|]; [by rewrite Hprev|done].
  - intros sym' p. rewrite lookup_insert_Some. intros [[_ <-]|[_ H]]; [done|by eapply H3].
Qed.

Lemma priced_new cfg symbols s : NewSimulator cfg symbols = Ok s → "" ∉ symbols → priced s.
Proof.
  unfold NewSimulator, SimConfig_Validate. destruct (negb _ && _); [done|]. destruct (f64_leb (si_BasePrice cfg) f64_zero) eqn:Hb; [done|].
  destruct (_ || _); [done|]. destruct (f64_ltb _ _); [done|]. intros [= <-] Hn. apply priced_subscribe; [|done].
  split; cbn; [constructor| |done|done|apply not_elem_of_nil]. intros sym. rewrite lookup_empty. split; [by intros ?%not_elem_of_nil|by intros []].
Qed.
(** Clocks that run and symbols that have names. *)
Definition sane (l : sim_label) : Prop := match l with LTick now => now ≠ zero_time | LSubscribe syms => "" ∉ syms | _ => True end.

Definition pending (pc : sim_pc) : list string := match pc with SEmit _ syms | SSend _ _ syms => syms | _ => [] end.
Definition timed (pc : sim_pc) : Prop := match pc with SEmit now _ | SSend _ now _ => now ≠ zero_time | _ => True end.

Record sound (tr : list sim_label) (w : SimRun) : Prop := {
  so_priced : priced (sr_sim w);
  so_pending : pending (sr_pc w) ⊆ sim_symbols (sr_sim w);
  so_timed : timed (sr_pc w);
  so_valid : Forall valid_quote (tr ≫= generated);
}.

Lemma subscribe_grows symbols : ∀ s, sim_symbols s ⊆ sim_symbols (subscribeUnlocked s symbols).
Proof.
  induction symbols as [|sym symbols IH]; intros s; [done|]. etransitivity; [|apply IH]. unfold subscribe1. destruct (sim_prices s !! sym); [done|]. cbn. set_solver.
Qed.

Lemma sound_run s0 now tr w : priced s0 → sim_run (sim_start s0 now) true tr w → Forall sane tr → sound tr w.
Proof.
  intros Hp. induction 1 as [|tr w l w' _ IH Hstep Hcalm]; [intros _; split; [done|apply list_subseteq_nil|done|constructor]|]. intros [Ht [Hl _]%Forall_cons]%Forall_app. specialize (Hcalm eq_refl).
  destruct (IH Ht) as [Hpr Hpe Hti Hva]. clear IH.
  destruct Hstep as [t t' b reset Hpc Hb|t' sym syms rand n s price Hpc Hn Hnp|q t' syms Hpc Hlen|q t' syms Hpc Hlen Hcan|q t' syms Hpc Hcan|t' Hpc|Hpc Hcan|q out Hout| |syms|syms].
  all: try rewrite Hpc in Hpe, Hti; cbn in Hpe, Hti.
  2: { pose proof (priced_next (sr_sim w) sym rand Hpr ltac:(set_solver)) as (H1 & H2 & H3). rewrite Hnp in H1, H2, H3. cbn [fst snd] in H1, H2, H3.
       split; cbn; [done|rewrite H3; set_solver|done|]. rewrite bind_app, Forall_app. split; [done|]. cbn. constructor; [|constructor].
       split; cbn; [|done|done|lia|done]. intros ->. apply (pr_named _ Hpr). set_solver. }
  1: destruct (after_tick_cases reset t' (sim_symbols (sr_sim w))) as [-> | ->].
  all: split; rewrite ?bind_app; cbn; rewrite ?app_nil_r; try done; try apply list_subseteq_nil.
  - by destruct Hpr.
  - by apply priced_subscribe.
  - etransitivity; [exact Hpe|]. apply subscribe_grows.
  - by apply priced_unsubscribe.
  - cbn in Hcalm. unfold idle in Hcalm. destruct (sr_pc w); try done; apply list_subseteq_nil.
Qed.
Lemma subscribe_running s symbols : sim_started (subscribeUnlocked s symbols) = sim_started s.
Proof.
  revert s. induction symbols as [|sym symbols IH]; intros s; [done|]. cbn. etransitivity; [apply IH|]. unfold subscribe1. by destruct (sim_prices s !! sym).
Qed.

Lemma new_started cfg symbols s s' :
  NewSimulator cfg symbols = Ok s → Run_simulator s = Ok s' → s' = mkSimulator (sim_cfg s) (sim_symbols s) (sim_prices s) true 0.
Proof.
  unfold NewSimulator. destruct (SimConfig_Validate cfg); [done|]. intros [= <-]. unfold Run_simulator. rewrite subscribe_running. intros [= <-].
  by rewrite (proj2 (subscribe_fields _ _)).
Qed.

(** The simulator accounts for every quote. In every interleaving of its goroutine
    with the consumer, subscriptions and the cancellation: the consumer takes what was
    sent, in the order it was generated; every quote that was generated is sent, counted
    as dropped when the channel is full, about to be sent, or given up by the
    cancellation, which happens once at most; and the channel is closed exactly when the
    goroutine has ended. If nobody unsubscribes in the middle of a round, times are set
    and symbols have names, then every quote satisfies all the rules of normalization,
    and the subscribed symbols are, each once, those that have a price. *)
Lemma simulator_accounts_for_quotes cfg symbols s s' now quiet tr w :
  NewSimulator cfg symbols = Ok s → Run_simulator s = Ok s' → sim_run (sim_start s' now) quiet tr w →
  (tr ≫= taken) ++ sr_out w = tr ≫= sent ∧ (tr ≫= sent) `sublist_of` (tr ≫= generated) ∧
  length (tr ≫= generated) = (length (tr ≫= sent) + length (tr ≫= dropped) + length (tr ≫= lost) + length (held (sr_pc w)))%nat ∧
  sim_dropped (sr_sim w) = i64 (Z.of_nat (length (tr ≫= dropped))) ∧ (length (tr ≫= lost) ≤ 1)%nat ∧
  (sr_closed w = true ↔ sr_pc w = SDone) ∧
  (quiet = true → "" ∉ symbols → Forall sane tr →
     Forall valid_quote (tr ≫= generated) ∧ NoDup (sim_symbols (sr_sim w)) ∧
     ∀ sym, sym ∈ sim_symbols (sr_sim w) ↔ is_Some (sim_prices (sr_sim w) !! sym)).
Proof.
  intros Hnew Hrun Hr. pose proof (new_started _ _ _ _ Hnew Hrun) as ->. set (s0 := mkSimulator _ _ _ true 0) in *. split_and!.
  1-6: destruct (conserved_run s0 _ _ _ _ ltac:(done) Hr) as [Hf (g & Hg & Hs) Hc Hl Hd Hcl _]; try done.
  - rewrite Hg. by apply sublist_inserts_r.
  - by destruct Hl as [->|[-> _]]; lia.
  - intros -> Hn Hsane. assert (Hp : priced s0).
    { destruct (priced_new _ _ _ Hnew Hn). by split. }
    destruct (sound_run _ _ _ _ Hp Hr Hsane) as [[H1 H2 _ _ _] _ _ Hv]. done.
Qed.
End fixed_rate.

(** *** A run *)

Definition sim_aapl : Simulator := mkSimulator SimDefaultConfig ["AAPL"] {["AAPL" := f64_of_Z 100]} true 0.
Definition f64_half : float64 := f64_lit 1 (-1).
Definition aapl_quote (price : float64) : Quote := sim_quote "AAPL" price 7 5.
(** A tick, a quote at the same price, its delivery. *)
Definition one_round : list sim_label := [LTick 5; LQuote (aapl_quote (f64_of_Z 100)); LSent (aapl_quote (f64_of_Z 100)); LTau; LTaken (aapl_quote (f64_of_Z 100))].

Lemma one_round_run : ∃ w, sim_run (λ _, 0) (sim_start sim_aapl 0) true one_round w.
Proof.
  pose proof (sr_nil (λ _, 0) (sim_start sim_aapl 0) true) as H.
  eapply sr_snoc in H; [|eapply (ss_tick _ _ 5 5); reflexivity|done]. eapply sr_snoc in H; [|eapply (ss_quote _ _ 5 "AAPL" [] f64_half 7); [reflexivity|done|vm_compute; reflexivity]|done].
  eapply sr_snoc in H; [|eapply ss_sent; [reflexivity|done]|done]. eapply sr_snoc in H; [|eapply ss_round; reflexivity|done].
  eapply sr_snoc in H; [|eapply ss_taken; reflexivity|done]. eexists. exact H.
Qed.

Lemma simulator_accounts_for_quotes_witness :
  ∃ w, sim_run (λ _, 0) (sim_start sim_aapl 0) true one_round w ∧ sr_out w = [] ∧ sim_dropped (sr_sim w) = 0 ∧ Forall valid_quote (one_round ≫= generated).
Proof.
  destruct one_round_run as [w Hw].
  destruct (simulator_accounts_for_quotes (λ _, 0) SimDefaultConfig ["AAPL"] (mkSimulator SimDefaultConfig ["AAPL"] {["AAPL" := f64_of_Z 100]} false 0) sim_aapl 0 true one_round w)
    as (H1 & _ & _ & H4 & _ & _ & H7); [vm_compute; reflexivity|reflexivity|exact Hw|].
  exists w. split; [exact Hw|]. split; [|split; [exact H4|apply H7; [reflexivity|set_solver|]]].
  - cbn in H1. by apply (app_inv_head [aapl_quote (f64_of_Z 100)]) in H1.
  - constructor; [cbn; discriminate|]. repeat (constructor; [exact I|]). constructor.
Defined.

(** ** What goes wrong *)

(** A symbol that is unsubscribed in the middle of a round is quoted at zero, and keeps a
    price: subscribing it again has no effect. *)
Lemma unsubscribed_symbol_is_stuck :
  ~ valid_quote (aapl_quote f64_zero) ∧
  ∃ w, sim_run (λ _, 0) (sim_start sim_aapl 0) false
    [LTick 5; LUnsubscribe ["AAPL"]; LQuote (aapl_quote f64_zero); LSubscribe ["AAPL"]] w ∧ sim_symbols (sr_sim w) = [].
Proof.
  split; [by intros []|]. pose proof (sr_nil (λ _, 0) (sim_start sim_aapl 0) false) as H.
  eapply sr_snoc in H; [|eapply (ss_tick _ _ 5 5); reflexivity|done]. eapply sr_snoc in H; [|eapply (ss_unsubscribe _ _ ["AAPL"])|done].
  eapply sr_snoc in H; [|eapply (ss_quote _ _ 5 "AAPL" [] f64_half 7); [reflexivity|done|vm_compute; reflexivity]|done].
  eapply sr_snoc in H; [|eapply (ss_subscribe _ _ ["AAPL"])|done]. eexists. split; [exact H|]. vm_compute. reflexivity.
Qed.

(** A multiplier that makes the interval of a burst shorter than a nanosecond is accepted,
    and the first burst panics. *)
Definition fast_burst : SimConfig := mkSimConfig 1000 false 0 (mkBurst (f64_of_Z 2000) 10 1) (f64_of_Z 100) f64_0_02.
Lemma fast_burst_panics :
  ∃ s, NewSimulator fast_burst ["AAPL"] = Ok s ∧
  ∃ w, sim_run (λ _, 0) (sim_start s 0) true [LTick 5] w ∧ sr_pc w = SPanic.
Proof.
  eexists. split; [vm_compute; reflexivity|]. pose proof (sr_nil (λ _, 0) (sim_start (subscribeUnlocked (mkSimulator fast_burst [] ∅ false 0) ["AAPL"]) 0) true) as H.
  eapply sr_snoc in H; [|eapply (ss_tick _ _ 2000000 5); [reflexivity|vm_compute; reflexivity]|done]. eexists. split; [exact H|]. vm_compute. reflexivity.
Qed.

(** ** Running without a limit

    A goroutine for each symbol, with a price of its own. *)

Inductive hot_pc := HLoop | HSend (q : Quote) | HDone.
Record HotWorker := mkHotWorker { hw_sym : string; hw_price : float64; hw_pc : hot_pc }.
Record HotRun := mkHotRun { ho_workers : list HotWorker; ho_out : list Quote; ho_closed : bool; ho_dropped : Z; ho_cancelled : bool }.

Definition runUnlimited (cfg : SimConfig) (syms : list string) : HotRun :=
  mkHotRun ((λ sym, mkHotWorker sym (si_BasePrice cfg) HLoop) <$> syms) [] false 0 false.

Definition hot_price (cfg : SimConfig) (price rand : float64) : float64 :=
  let price := f64_add price (price_delta cfg price rand) in if f64_leb price f64_zero then si_BasePrice cfg else price.

Definition hot_with (h : HotRun) (i : nat) (w : HotWorker) (out : list Quote) (dropped : Z) : HotRun :=
  mkHotRun (<[i := w]> (ho_workers h)) out (ho_closed h) dropped (ho_cancelled h).

(** [None] is a send on the closed channel. *)
Inductive hot_step (cfg : SimConfig) (h : HotRun) : sim_label → option HotRun → Prop :=
  | hs_quote i w rand n now :
      ho_workers h !! i = Some w → hw_pc w = HLoop → ho_cancelled h = false → 0 ≤ n < 10000 →
      let price := hot_price cfg (hw_price w) rand in
      let q := sim_quote (hw_sym w) price n now in
      hot_step cfg h (LQuote q) (Some (hot_with h i (mkHotWorker (hw_sym w) price (HSend q)) (ho_out h) (ho_dropped h)))
  | hs_sent i w q :
      ho_workers h !! i = Some w → hw_pc w = HSend q → ho_closed h = false → Z.of_nat (length (ho_out h)) < out_buffer true →
      hot_step cfg h (LSent q) (Some (hot_with h i (mkHotWorker (hw_sym w) (hw_price w) HLoop) (ho_out h ++ [q]) (ho_dropped h)))
  | hs_panic i w q : ho_workers h !! i = Some w → hw_pc w = HSend q → ho_closed h = true → hot_step cfg h LTau None
  | hs_dropped i w q :
      ho_workers h !! i = Some w → hw_pc w = HSend q → out_buffer true ≤ Z.of_nat (length (ho_out h)) → ho_cancelled h = false →
      hot_step cfg h (LDropped q) (Some (hot_with h i (mkHotWorker (hw_sym w) (hw_price w) HLoop) (ho_out h) (i64 (ho_dropped h + 1))))
  | hs_lost i w q :
      ho_workers h !! i = Some w → hw_pc w = HSend q → ho_cancelled h = true →
      hot_step cfg h (LLost q) (Some (hot_with h i (mkHotWorker (hw_sym w) (hw_price w) HDone) (ho_out h) (ho_dropped h)))
  | hs_done i w :
      ho_workers h !! i = Some w → hw_pc w = HLoop → ho_cancelled h = true →
      hot_step cfg h LTau (Some (hot_with h i (mkHotWorker (hw_sym w) (hw_price w) HDone) (ho_out h) (ho_dropped h)))
  | hs_close :
      Forall (λ w, hw_pc w = HDone) (ho_workers h) → ho_closed h = false →
      hot_step cfg h LTau (Some (mkHotRun (ho_workers h) (ho_out h) true (ho_dropped h) (ho_cancelled h)))
  | hs_taken q out : ho_out h = q :: out → hot_step cfg h (LTaken q) (Some (mkHotRun (ho_workers h) out (ho_closed h) (ho_dropped h) (ho_cancelled h)))
  | hs_cancel : hot_step cfg h LCancel (Some (mkHotRun (ho_workers h) (ho_out h) (ho_closed h) (ho_dropped h) true)).

Inductive hot_run (cfg : SimConfig) (syms : list string) : list sim_label → HotRun → Prop :=
  | hr_nil : hot_run cfg syms [] (runUnlimited cfg syms)
  | hr_snoc tr h l h' : hot_run cfg syms tr h → hot_step cfg h l (Some h') → hot_run cfg syms (tr ++ [l]) h'.

Definition hot_held (pc : hot_pc) : list Quote := match pc with HSend q => [q] | _ => [] end.
Definition all_held (ws : list HotWorker) : list Quote := ws ≫= λ w, hot_held (hw_pc w).

Lemma all_held_insert ws i w w' : ws !! i = Some w → hot_held (hw_pc w) ++ all_held (<[i := w']> ws) ≡ₚ hot_held (hw_pc w') ++ all_held ws.
Proof.
  intros Hi. unfold all_held. rewrite (insert_take_drop ws i w') by (by eapply lookup_lt_Some). rewrite <- (take_drop_middle ws i w Hi) at 3.
  rewrite !bind_app. cbn. solve_Permutation.
Qed.

Record hot_inv (cfg : SimConfig) (tr : list sim_label) (h : HotRun) : Prop := {
  hi_fifo : (tr ≫= taken) ++ ho_out h = tr ≫= sent;
  hi_all : tr ≫= generated ≡ₚ (tr ≫= sent) ++ (tr ≫= dropped) ++ (tr ≫= lost) ++ all_held (ho_workers h);
  hi_dropped : ho_dropped h = i64 (Z.of_nat (length (tr ≫= dropped)));
  hi_closed : ho_closed h = true → Forall (λ w, hw_pc w = HDone) (ho_workers h);
  hi_prices : Forall (λ w, f64_leb (hw_price w) f64_zero = false) (ho_workers h) ∧ Forall (λ q, f64_leb (q_Price q) f64_zero = false) (tr ≫= generated);
}.

Lemma hot_price_positive cfg price rand : f64_leb (si_BasePrice cfg) f64_zero = false → f64_leb (hot_price cfg price rand) f64_zero = false.
Proof. intros Hb. unfold hot_price. set (p := f64_add _ _). by destruct (f64_leb p f64_zero) eqn:E. Qed.

Lemma closed_open h i w : (ho_closed h = true → Forall (λ w, hw_pc w = HDone) (ho_workers h)) → ho_workers h !! i = Some w → hw_pc w ≠ HDone → ho_closed h = false.
Proof. intros Hc Hi Hpc. destruct (ho_closed h); [|done]. specialize (Hc eq_refl). rewrite Forall_lookup in Hc. by apply Hc in Hi. Qed.

Lemma hot_run_inv cfg syms tr h : f64_leb (si_BasePrice cfg) f64_zero = false → hot_run cfg syms tr h → hot_inv cfg tr h.
Proof.
  intros Hb. induction 1 as [|tr h l h' _ [Hf Ha Hd Hc [Hp Hq]] Hs].
  { split; cbn; try done.
    - unfold all_held. induction syms as [|sym syms IH]; [done|exact IH].
    - split; [|constructor]. by apply Forall_fmap, Forall_true. }
  assert (Hi : ∀ i w w', ho_workers h !! i = Some w → (hw_price w' = hw_price w ∨ f64_leb (hw_price w') f64_zero = false) →
    Forall (λ w, f64_leb (hw_price w) f64_zero = false) (<[i := w']> (ho_workers h))).
  { intros i w w' Hw Hor. apply Forall_insert; [done|]. destruct Hor as [-> |]; [|done]. by apply (Forall_lookup_1 _ _ _ _ Hp Hw). }
  inversion Hs as [i w rand n now Hw Hpc Hcan Hn|i w q Hw Hpc Hcl Hlen| |i w q Hw Hpc Hlen Hcan|i w q Hw Hpc Hcan|i w Hw Hpc Hcan|Hall Hcl|q out Ho|]; subst.
  all: try match goal with Hw : ho_workers ?h !! ?i = Some ?w |- _ =>
    assert (Hopen : ho_closed h = false) by (apply (closed_open h i w Hc Hw); congruence) end.
  all: split; rewrite ?bind_app;
    cbn [hot_with ho_workers ho_out ho_closed ho_dropped ho_cancelled mbind list_bind app generated sent dropped lost taken]; rewrite ?app_nil_r; try done.
  all: try (by intros ?; congruence).
  all: try match goal with
    Hw : ho_workers _ !! ?i = Some ?w, Hpc : hw_pc ?w = _ |- context [all_held (<[?i := ?w']> _)] =>
      pose proof (all_held_insert _ _ _ w' Hw) as HP; rewrite Hpc in HP; cbn [hot_held hw_pc app] in HP end.
  all: try match goal with Hw : ho_workers _ !! ?i = Some ?w |- _ => split; [apply (Hi _ _ _ Hw); by left|done] end.
  - rewrite Ha, HP. solve_Permutation.
  - split; [apply (Hi _ _ _ Hw); right; by apply hot_price_positive|]. apply Forall_app. split; [done|]. constructor; [by apply hot_price_positive|constructor].
  - by rewrite app_assoc, Hf.
  - rewrite Ha, <- HP. solve_Permutation.
  - rewrite Ha, <- HP. solve_Permutation.
  - rewrite Hd, i64_add, length_app. f_equal. cbn. lia.
  - rewrite Ha, <- HP. solve_Permutation.
  - rewrite Ha, HP. done.
  - rewrite <- app_assoc. cbn. by rewrite <- Ho.
Qed.

(** Without a limit too, every quote that was generated is sent, dropped and counted,
    given up by the cancellation, or about to be sent; no goroutine sends on the closed
    channel, and no price is zero or below. *)
Lemma unlimited_accounts_for_quotes cfg syms tr h :
  SimConfig_Validate cfg = None → hot_run cfg syms tr h →
  (tr ≫= taken) ++ ho_out h = tr ≫= sent ∧
  tr ≫= generated ≡ₚ (tr ≫= sent) ++ (tr ≫= dropped) ++ (tr ≫= lost) ++ all_held (ho_workers h) ∧
  ho_dropped h = i64 (Z.of_nat (length (tr ≫= dropped))) ∧
  (∀ l, ~ hot_step cfg h l None) ∧ Forall (λ q, f64_leb (q_Price q) f64_zero = false) (tr ≫= generated).
Proof.
  intros Hv Hr. assert (Hb : f64_leb (si_BasePrice cfg) f64_zero = false).
  { unfold SimConfig_Validate in Hv. destruct (negb _ && _); [done|]. by destruct (f64_leb _ _). }
  destruct (hot_run_inv _ _ _ _ Hb Hr) as [H1 H2 H3 H4 [_ H5]]. split_and!; try done.
  intros l Hs. inversion Hs as [| |i w q Hw Hpc Hcl| | | | | |]. pose proof (closed_open h i w H4 Hw) as Ho. rewrite Hpc, Hcl in Ho. by specialize (Ho ltac:(done)).
Qed.

(** ** The adapter *)

#[export] Instance simulator_adapter : ExchangeAdapter Simulator := {
  ea_Name _ := "simulator";
  ea_Subscribe s symbols := (subscribeUnlocked s symbols, None);
  ea_Unsubscribe s symbols := (Sim_Unsubscribe s symbols, None);
  ea_Mapper _ := simulator_Map;
}.

(** What [Run] of the adapter makes of a quote. *)
Definition sim_raw (q : Quote) (now : Z) : RawMessage := mkRaw "simulator" (PQuote q) now.

(** The factory: the interval in milliseconds may be set. *)
Definition simulator_factory (conv_other : float64 → Z) (tick_interval_ms : option float64) : result Simulator string :=
  let interval := match tick_interval_ms with Some v => int64_of conv_other (f64_mul v (f64_of_Z Millisecond)) | None => 500 * Millisecond end in
  NewSimulator (mkSimConfig interval (si_Unlimited SimDefaultConfig) (si_Seed SimDefaultConfig) (si_Burst SimDefaultConfig)
    (si_BasePrice SimDefaultConfig) (si_Volatility SimDefaultConfig)) [].

Lemma string_map_empty f s : string_map f s = "" → s = "".
Proof. by destruct s. Qed.

(** A quote that satisfies the rules, for an ASCII symbol, passes normalization. *)
Lemma simulated_quote_is_accepted unicode_upper q now :
  valid_quote q → ascii_symbol (q_Symbol q) →
  ∃ q', Normalize unicode_upper (ea_Mapper sim_aapl) (Some NewDefaultValidator) (sim_raw q now) = Ok q' ∧
    q_Symbol q' = canonical unicode_upper (q_Symbol q) ∧ q_Price q' = q_Price q ∧ q_Volume q' = q_Volume q ∧ q_Timestamp q' = q_Timestamp q.
Proof.
  intros [H1 H2 H3 H4 H5] Ha. unfold Normalize. cbn [ea_Mapper simulator_adapter simulator_Map sim_raw rm_Payload]. set (q' := with_symbol _ _).
  assert (Hv : Validate NewDefaultValidator q' = None).
  { apply Validate_default. split; try done. cbn. rewrite canonical_reference by done. unfold unslash, ToUpper. rewrite Ha. cbn [negb]. by intros ?%string_map_empty%string_map_empty. }
  rewrite Hv. by exists q'.
Qed.
