(* ===== verification/Codec.v ===== *)
(** * Codec: the three formats of an event

    [pkg/protocol/json_serializer.go], [protobuf_serializer.go] and
    [flatbuffers_serializer.go]. What is built and read is translated: the fields of the
    messages, the slots of the tables, the envelope; the encoding libraries are
    arguments that turn a message or a table into bytes and back. The protobuf
    serializer recycles messages and slabs in pools, so its calls are steps over a store
    of arrays that interleave. *)

From Stdlib Require Import Strings.Byte.
From S2P Require Import Prelude Bytes Float64 MarketEvent Pipeline Normalization EventPublisher.
#[local] Open Scope Z_scope.

(** ** Events

    A type switch tells a pointer from a value; both implement the interface. *)
Inductive go_event :=
  | QuotePtr (q : Quote)
  | QuoteVal (q : Quote)
  | BarPtr (b : Bar)
  | BarVal (b : Bar)
  | PingMessage (timestamp : Z)
  | PongMessage (timestamp : Z)
  | GoAwayMessage (reason : string).

Definition ev_symbol (e : go_event) : string :=
  match e with QuotePtr q | QuoteVal q => q_Symbol q | BarPtr b | BarVal b => b_Symbol b | _ => "" end.
Definition ev_type (e : go_event) : string :=
  match e with
  | QuotePtr q | QuoteVal q => q_Type q
  | BarPtr _ | BarVal _ => "bar"
  | PingMessage _ => "ping"
  | PongMessage _ => "pong"
  | GoAwayMessage _ => "goaway"
  end.
(** The methods [GetTimestamp] and [GetSeq], where the type has them. *)
Definition ev_time (e : go_event) : option Z :=
  match e with QuotePtr q | QuoteVal q => Some (q_Timestamp q) | BarPtr b | BarVal b => Some (b_Timestamp b) | _ => None end.
Definition ev_seq (e : go_event) : option Z := match e with QuotePtr q | QuoteVal q => Some (q_Seq q) | _ => None end.

(** [Time.UnixMilli]. *)
Definition to_millis (t : Z) : Z := t / 1000000.

Definition header_time (e : go_event) : Z := match ev_time e with Some t => to_millis t | None => 0 end.
Definition header_seq (e : go_event) : Z := match ev_seq e with Some s => u64 s | None => 0 end.

(** ** Protobuf messages *)

Record PbTick := mkTick { tk_Price : float64; tk_Volume : float64; tk_Side : Z; tk_Exchange : string; tk_TradeId : string }.
Record PbSnapshot := mkSnap {
  sp_LastPrice : float64; sp_LastVolume : float64; sp_High : float64; sp_Low : float64; sp_Open : float64; sp_Close : float64; sp_OrderBook : bool }.
Inductive PbPayload := PTick (t : PbTick) | PSnapshot (s : PbSnapshot).
Record PbEvent := mkPbEvent { pb_Symbol : string; pb_Timestamp : Z; pb_Sequence : Z; pb_Payload : option PbPayload }.

(** [Reset]. *)
Definition zero_tick : PbTick := mkTick f64_zero f64_zero 0 "" "".
Definition zero_snap : PbSnapshot := mkSnap f64_zero f64_zero f64_zero f64_zero f64_zero f64_zero false.
Definition zero_msg : PbEvent := mkPbEvent "" 0 0 None.

(** Steps 1 and 2 of [Serialize], over the objects that the pools gave. *)
Definition fill_msg (msg : PbEvent) (e : go_event) : PbEvent := mkPbEvent (ev_symbol e) (header_time e) (header_seq e) None.
Definition fill_tick (t : PbTick) (q : Quote) : PbTick := mkTick (q_Price q) (f64_of_Z (q_Volume q)) 0 (q_Provider q) (tk_TradeId t).
Definition fill_snap (s : PbSnapshot) (b : Bar) : PbSnapshot :=
  mkSnap (sp_LastPrice s) (f64_of_Z (b_Volume b)) (b_High b) (b_Low b) (b_Open b) (b_Close b) (sp_OrderBook s).
Definition set_payload (msg : PbEvent) (p : option PbPayload) : PbEvent := mkPbEvent (pb_Symbol msg) (pb_Timestamp msg) (pb_Sequence msg) p.

(** The message of an event, built from new objects. *)
Definition pb_of (e : go_event) : PbEvent :=
  set_payload (fill_msg zero_msg e)
    match e with
    | QuotePtr q => Some (PTick (fill_tick zero_tick q))
    | BarPtr b => Some (PSnapshot (fill_snap zero_snap b))
    | _ => None
    end.

Definition QuoteTypeQuote : string := "quote".

Section reading.
Context (conv_other : float64 → Z).

(** [Deserialize] from the message on. *)
Definition pb_read (m : PbEvent) : result go_event string :=
  match pb_Payload m with
  | Some (PTick t) =>
      let type := if f64_eqb (tk_Volume t) f64_zero then QuoteTypeQuote else QuoteTypeTrade in
      Ok (QuotePtr (mkQuote (pb_Symbol m) type (i64 (pb_Sequence m)) (tk_Price t) f64_zero f64_zero (int64_of conv_other (tk_Volume t))
                      (UnixMilli (pb_Timestamp m)) (tk_Exchange t)))
  | Some (PSnapshot s) =>
      Ok (BarPtr (mkBar (pb_Symbol m) (sp_Open s) (sp_High s) (sp_Low s) (sp_Close s) (int64_of conv_other (sp_LastVolume s))
                    (UnixMilli (pb_Timestamp m)) ""))
  | None => Err "protobuf unknown payload type"
  end.

Section protobuf.
Context (marshal : PbEvent → result (list byte) string) (unmarshal : list byte → result PbEvent string).
Definition pb_Serialize (e : go_event) : result (list byte) string :=
  match marshal (pb_of e) with Ok b => Ok b | Err err => Err ("protobuf encode: " +:+ err) end.
Definition pb_Deserialize (data : list byte) : result go_event string :=
  match unmarshal data with Ok m => pb_read m | Err err => Err ("protobuf decode: " +:+ err) end.
End protobuf.

(** ** FlatBuffers tables

    The builder leaves a scalar out that equals its default, and an accessor answers the
    default for a slot that is not there. *)
Definition slot_f64 (x : float64) : option float64 := if f64_eqb x f64_zero then None else Some x.
Definition slot_Z (x : Z) : option Z := if x =? 0 then None else Some x.
Definition get_f64 (o : option float64) : float64 := default f64_zero o.
Definition get_Z (o : option Z) : Z := default 0 o.

Inductive FbPayload :=
  | FbTick (price volume : option float64) (side : option Z) (exchange : string)
  | FbSnapshot (open high low close lastVolume : option float64).
Record FbEvent := mkFbEvent { fb_Symbol : string; fb_Timestamp : option Z; fb_Sequence : option Z; fb_Payload : option FbPayload }.

(** The table that [Serialize] builds; the type tag of the payload is its constructor. *)
Definition fb_build (e : go_event) : result FbEvent string :=
  let event p := Ok (mkFbEvent (ev_symbol e) (slot_Z (header_time e)) (slot_Z (header_seq e)) (Some p)) in
  match e with
  | QuotePtr q => event (FbTick (slot_f64 (q_Price q)) (slot_f64 (f64_of_Z (q_Volume q))) (slot_Z 0) (q_Provider q))
  | BarPtr b => event (FbSnapshot (slot_f64 (b_Open b)) (slot_f64 (b_High b)) (slot_f64 (b_Low b)) (slot_f64 (b_Close b)) (slot_f64 (f64_of_Z (b_Volume b))))
  | _ => Err "flatbuffers: unsupported event type"
  end.
Definition fb_read (t : FbEvent) : result go_event string :=
  let ts := UnixMilli (get_Z (fb_Timestamp t)) in
  match fb_Payload t with
  | Some (FbTick price volume _ exchange) =>
      Ok (QuotePtr (mkQuote (fb_Symbol t) QuoteTypeTrade (i64 (get_Z (fb_Sequence t))) (get_f64 price) f64_zero f64_zero
                      (int64_of conv_other (get_f64 volume)) ts exchange))
  | Some (FbSnapshot open high low close lastVolume) =>
      Ok (BarPtr (mkBar (fb_Symbol t) (get_f64 open) (get_f64 high) (get_f64 low) (get_f64 close) (int64_of conv_other (get_f64 lastVolume)) ts ""))
  | None => Err "flatbuffers: unknown payload type"
  end.

Section flatbuffers.
Context (finish : FbEvent → list byte) (root : list byte → FbEvent).
Definition fb_Serialize (e : go_event) : result (list byte) string := match fb_build e with Ok t => Ok (finish t) | Err err => Err err end.
Definition fb_Deserialize (data : list byte) : result go_event string := fb_read (root data).
End flatbuffers.
End reading.

(** ** JSON *)

Section json.
(** [jiter.Marshal] of an event; the parse of the envelope into the type and the raw
    payload; [jiter.Get] of the type; the parses of the concrete types. *)
Context (json_Marshal : go_event → result (list byte) string).
Context (parse_envelope : list byte → result (string * list byte) string) (get_type : list byte → option string).
Context (parse_quote : list byte → result Quote string) (parse_bar : list byte → result Bar string).
Context (parse_ping parse_pong : list byte → result Z string) (parse_goaway : list byte → result string string).

Definition json_envelope (type : string) (payload : list byte) : list byte :=
  bytes_of_string (envelope_type +:+ type +:+ envelope_payload) ++ payload ++ [close_brace].

Definition json_Serialize (e : go_event) : result (list byte) string :=
  match json_Marshal e with Err err => Err ("json encode: " +:+ err) | Ok payload => Ok (json_envelope (ev_type e) payload) end.

Definition parsed {T} (what : string) (r : result T string) (f : T → go_event) : result go_event string :=
  match r with Ok x => Ok (f x) | Err err => Err ("json deserialize " +:+ what +:+ ": " +:+ err) end.
Definition deserializeTyped (typStr : string) (data : list byte) : result go_event string :=
  if String.eqb typStr "quote" || String.eqb typStr "trade" then parsed "Quote" (parse_quote data) QuotePtr
  else if String.eqb typStr "bar" then parsed "Bar" (parse_bar data) BarPtr
  else if String.eqb typStr "ping" then parsed "Ping" (parse_ping data) PingMessage
  else if String.eqb typStr "pong" then parsed "Pong" (parse_pong data) PongMessage
  else if String.eqb typStr "goaway" then parsed "GoAway" (parse_goaway data) GoAwayMessage
  else Err "unknown event type for JSON deserialize".
Definition deserializeBare (data : list byte) : result go_event string :=
  match get_type data with
  | None => match parse_bar data with Ok b => Ok (BarPtr b) | Err _ => Err "json deserialize: cannot determine event type" end
  | Some typ => deserializeTyped typ data
  end.
Definition json_Deserialize (data : list byte) : result go_event string :=
  match parse_envelope data with
  | Err _ => deserializeBare data
  | Ok (typ, payload) => deserializeTyped typ (if decide (payload = []) then data else payload)
  end.
End json.

(** ** The protobuf serializer with its pools

    A slab is an address into a store of arrays, since a slice that has been put back can
    still be read. [sync.Pool] hands out any object that it has, or a new one, and may
    lose objects at any time. *)

Record Array := mkArray { ar_bytes : list byte; ar_cap : Z }.
Definition maxSlabCap : Z := 65536.

Definition pool_get {T} (new : T) (pool : list T) (x : T) (pool' : list T) : Prop := (x = new ∧ pool' = pool) ∨ pool ≡ₚ x :: pool'.

(** What [MarshalAppend] returned: a slice of an array and its length, or the error with
    the array of the slice. *)
Definition encoded : Type := result (nat * nat) (string * nat).

(** A call of [Serialize]: its objects are filled; it has a slab; it has marshalled; it
    has given its message back; it has put the slab back and copies its slice. [hit] is a
    history variable: whether another call has written into the array since. *)
Inductive pb_pc :=
  | PBegin
  | PBuilt (msg : PbEvent)
  | PSlab (msg : PbEvent) (slab : nat)
  | PMarshalled (msg : PbEvent) (r : encoded)
  | PReturned (r : encoded)
  | PCopy (arr len : nat) (hit : bool)
  | PDone (out : result (list byte) string) (hit : bool).

Record PbState := mkPbState {
  p_msgs : list PbEvent;
  p_ticks : list PbTick;
  p_snaps : list PbSnapshot;
  p_slabs : list nat;
  p_heap : list Array;
  p_calls : list (go_event * pb_pc);
}.

Definition encoded_array (r : encoded) : nat := match r with Ok (a, _) => a | Err (_, a) => a end.
(** The objects of a message. *)
Definition payload_ticks (m : PbEvent) : list PbTick := match pb_Payload m with Some (PTick t) => [t] | _ => [] end.
Definition payload_snaps (m : PbEvent) : list PbSnapshot := match pb_Payload m with Some (PSnapshot s) => [s] | _ => [] end.

(** A write into array [a] hits the calls that still copy from it. *)
Definition mark (a : nat) (c : go_event * pb_pc) : go_event * pb_pc :=
  match c with (e, PCopy a' len hit) => (e, PCopy a' len (hit || bool_decide (a' = a))) | c => c end.

(** An append over the array: what was behind stays. *)
Definition overwrite (ar : Array) (b : list byte) : Array := mkArray (b ++ drop (length b) (ar_bytes ar)) (ar_cap ar).

Section pooled.
Context (marshal : PbEvent → result (list byte) string).

Inductive pb_step : PbState → PbState → Prop :=
  | pb_build_quote s l r q msg msgs t ticks :
      p_calls s = l ++ (QuotePtr q, PBegin) :: r → pool_get zero_msg (p_msgs s) msg msgs → pool_get zero_tick (p_ticks s) t ticks →
      pb_step s (mkPbState msgs ticks (p_snaps s) (p_slabs s) (p_heap s)
        (l ++ (QuotePtr q, PBuilt (set_payload (fill_msg msg (QuotePtr q)) (Some (PTick (fill_tick t q))))) :: r))
  | pb_build_bar s l r b msg msgs t snaps :
      p_calls s = l ++ (BarPtr b, PBegin) :: r → pool_get zero_msg (p_msgs s) msg msgs → pool_get zero_snap (p_snaps s) t snaps →
      pb_step s (mkPbState msgs (p_ticks s) snaps (p_slabs s) (p_heap s)
        (l ++ (BarPtr b, PBuilt (set_payload (fill_msg msg (BarPtr b)) (Some (PSnapshot (fill_snap t b))))) :: r))
  | pb_build_other s l r e msg msgs :
      p_calls s = l ++ (e, PBegin) :: r → (∀ q, e ≠ QuotePtr q) → (∀ b, e ≠ BarPtr b) → pool_get zero_msg (p_msgs s) msg msgs →
      pb_step s (mkPbState msgs (p_ticks s) (p_snaps s) (p_slabs s) (p_heap s) (l ++ (e, PBuilt (fill_msg msg e)) :: r))
  | pb_slab_pooled s l r e msg a slabs :
      p_calls s = l ++ (e, PBuilt msg) :: r → p_slabs s ≡ₚ a :: slabs →
      pb_step s (mkPbState (p_msgs s) (p_ticks s) (p_snaps s) slabs (p_heap s) (l ++ (e, PSlab msg a) :: r))
  | pb_slab_new s l r e msg :
      p_calls s = l ++ (e, PBuilt msg) :: r →
      pb_step s (mkPbState (p_msgs s) (p_ticks s) (p_snaps s) (p_slabs s) (p_heap s ++ [mkArray [] 256]) (l ++ (e, PSlab msg (length (p_heap s))) :: r))
  | pb_marshal_fits s l r e msg a ar b :
      p_calls s = l ++ (e, PSlab msg a) :: r → p_heap s !! a = Some ar → marshal msg = Ok b → Z.of_nat (length b) ≤ ar_cap ar →
      pb_step s (mkPbState (p_msgs s) (p_ticks s) (p_snaps s) (p_slabs s) (<[a := overwrite ar b]> (p_heap s))
        ((mark a <$> l) ++ (e, PMarshalled msg (Ok (a, length b))) :: (mark a <$> r)))
  | pb_marshal_grows s l r e msg a ar b cap :
      p_calls s = l ++ (e, PSlab msg a) :: r → p_heap s !! a = Some ar → marshal msg = Ok b → ar_cap ar < Z.of_nat (length b) ≤ cap →
      pb_step s (mkPbState (p_msgs s) (p_ticks s) (p_snaps s) (p_slabs s) (p_heap s ++ [mkArray b cap])
        (l ++ (e, PMarshalled msg (Ok (length (p_heap s), length b))) :: r))
  | pb_marshal_fails s l r e msg a ar bs err :
      p_calls s = l ++ (e, PSlab msg a) :: r → p_heap s !! a = Some ar → marshal msg = Err err →
      pb_step s (mkPbState (p_msgs s) (p_ticks s) (p_snaps s) (p_slabs s) (<[a := mkArray bs (ar_cap ar)]> (p_heap s))
        ((mark a <$> l) ++ (e, PMarshalled msg (Err (err, a))) :: (mark a <$> r)))
  | pb_release s l r e msg enc :
      p_calls s = l ++ (e, PMarshalled msg enc) :: r →
      pb_step s (mkPbState (p_msgs s ++ [zero_msg]) (p_ticks s ++ ((λ _, zero_tick) <$> payload_ticks msg)) (p_snaps s ++ ((λ _, zero_snap) <$> payload_snaps msg))
        (p_slabs s) (p_heap s) (l ++ (e, PReturned enc) :: r))
  | pb_put s l r e enc ar :
      p_calls s = l ++ (e, PReturned enc) :: r → p_heap s !! encoded_array enc = Some ar →
      pb_step s (mkPbState (p_msgs s) (p_ticks s) (p_snaps s) (if ar_cap ar <=? maxSlabCap then p_slabs s ++ [encoded_array enc] else p_slabs s) (p_heap s)
        (l ++ (e, match enc with Ok (a, n) => PCopy a n false | Err (err, _) => PDone (Err ("protobuf encode: " +:+ err)) false end) :: r))
  | pb_copy s l r e a n hit ar :
      p_calls s = l ++ (e, PCopy a n hit) :: r → p_heap s !! a = Some ar →
      pb_step s (mkPbState (p_msgs s) (p_ticks s) (p_snaps s) (p_slabs s) (p_heap s) (l ++ (e, PDone (Ok (take n (ar_bytes ar))) hit) :: r))
  | pb_collect s msgs ticks snaps slabs :
      msgs `sublist_of` p_msgs s → ticks `sublist_of` p_ticks s → snaps `sublist_of` p_snaps s → slabs `sublist_of` p_slabs s →
      pb_step s (mkPbState msgs ticks snaps slabs (p_heap s) (p_calls s)).

Definition pb_init (es : list go_event) : PbState := mkPbState [] [] [] [] [] ((λ e, (e, PBegin)) <$> es).
End pooled.

(** ** What survives

    A pointer for a value, and of a quote and a bar what the binary formats keep: the
    time to the millisecond, no bid and ask, no provider of a bar. *)
Definition as_ptr (e : go_event) : go_event := match e with QuoteVal q => QuotePtr q | BarVal b => BarPtr b | e => e end.
Definition kept_time (t : Z) : Z := to_millis t * 1000000.
Definition kept_quote (type : string) (q : Quote) : Quote :=
  mkQuote (q_Symbol q) type (q_Seq q) (q_Price q) f64_zero f64_zero (q_Volume q) (kept_time (q_Timestamp q)) (q_Provider q).
Definition kept_bar (b : Bar) : Bar :=
  mkBar (b_Symbol b) (b_Open b) (b_High b) (b_Low b) (b_Close b) (b_Volume b) (kept_time (b_Timestamp b)) "".
Definition pb_type (q : Quote) : string := if q_Volume q =? 0 then QuoteTypeQuote else QuoteTypeTrade.

(** Volumes that a float64 holds exactly. *)
Definition exact_volume (z : Z) : Prop := - 2 ^ 53 < z < 2 ^ 53.
(** No negative zero, which FlatBuffers takes for the default. *)
Definition plain_zero (x : float64) : Prop := x ≠ S754_zero true.

Lemma f64_trunc_int z : exact_volume z → f64_trunc (f64_of_Z z) = Some z.
Proof.
  intros Hz. unfold exact_volume in Hz. rewrite f64_of_Z_int by done.
  assert (H : ∀ s v, Z.pos v < 2 ^ 53 → f64_trunc (int_float s v) = Some (if s : bool then Z.neg v else Z.pos v)).
  { clear. intros s v Hv. pose proof (digits2_le v Hv) as Hd. unfold int_float. set (d := Z.pos (digits2_pos v)) in *.
    pose proof (Z.pow_pos_nonneg 2 (53 - d) ltac:(lia) ltac:(lia)) as Hp. cbn.
    rewrite Z2Pos.id by lia.
    assert (Hs : (if d - 53 <? 0 then Z.sgn ((if s then -1 else 1) * Z.shiftl (Z.pos v * 2 ^ (53 - d)) (d - 53)) * Z.shiftr (Z.pos v * 2 ^ (53 - d)) (- (d - 53))
                  else (if s then -1 else 1) * Z.shiftl (Z.pos v * 2 ^ (53 - d)) (d - 53)) = (if s then Z.neg v else Z.pos v)).
    { assert (H1 : Z.shiftr (Z.pos v * 2 ^ (53 - d)) (53 - d) = Z.pos v) by (rewrite Z.shiftr_div_pow2, Z.div_mul by lia; done).
      assert (H2 : Z.shiftl (Z.pos v * 2 ^ (53 - d)) (d - 53) = Z.pos v).
      { rewrite <- H1 at 2. unfold Z.shiftr. f_equal. lia. }
      replace (- (d - 53)) with (53 - d) by lia. rewrite H1, H2. destruct s, (d - 53 <? 0); lia. }
    rewrite Hs. destruct s.
    all: rewrite (proj2 (Z.leb_le _ _)), (proj2 (Z.ltb_lt _ _)) by lia; done. }
  destruct z as [|v|v]; cbn [int_f64]; [done|by rewrite H by lia|by rewrite H by lia].
Qed.

Lemma int64_of_int conv_other z : exact_volume z → int64_of conv_other (f64_of_Z z) = z.
Proof. intros Hz. unfold int64_of. by rewrite f64_trunc_int. Qed.
Lemma eqb_zero_int z : exact_volume z → f64_eqb (f64_of_Z z) f64_zero = (z =? 0).
Proof.
  intros Hz. unfold f64_zero. destruct (f64_of_Z_scaled z Hz) as [Hv Hs], (f64_of_Z_scaled 0 ltac:(lia)) as [Hv0 Hs0].
  rewrite f64_eqb_scaled, Hs, Hs0 by done. apply eq_true_iff_eq. rewrite !Z.eqb_eq.
  pose proof (Z.pow_pos_nonneg 2 1074 ltac:(lia) ltac:(lia)). generalize dependent (2 ^ 1074). intros; nia.
Qed.
Lemma get_slot_f64 x : plain_zero x → get_f64 (slot_f64 x) = x.
Proof.
  unfold plain_zero, slot_f64, get_f64. intros Hx. destruct (f64_eqb x f64_zero) eqn:E; [|done]. cbn.
  destruct x as [[]|[]| |[] m e]; try done; by cbn in E.
Qed.
Lemma get_slot_Z x : get_Z (slot_Z x) = x.
Proof. unfold slot_Z, get_Z. destruct (x =? 0) eqn:E; [apply Z.eqb_eq in E; by subst|done]. Qed.
Lemma plain_zero_int z : exact_volume z → plain_zero (f64_of_Z z).
Proof. intros Hz. rewrite f64_of_Z_int by done. unfold plain_zero. by destruct z. Qed.

Create Rewrite HintDb codec.
#[local] Hint Rewrite int64_of_int eqb_zero_int get_slot_Z i64_u64 using done : codec.
#[local] Hint Rewrite get_slot_f64 using (first [done|by apply plain_zero_int]) : codec.

Lemma pb_read_quote conv_other q : exact_volume (q_Volume q) → in_i64 (q_Seq q) → pb_read conv_other (pb_of (QuotePtr q)) = Ok (QuotePtr (kept_quote (pb_type q) q)).
Proof. intros Hv Hs. unfold pb_read, kept_quote, pb_type; cbn. unfold header_seq, header_time; cbn. by autorewrite with codec. Qed.
Lemma pb_read_bar conv_other b : exact_volume (b_Volume b) → pb_read conv_other (pb_of (BarPtr b)) = Ok (BarPtr (kept_bar b)).
Proof. intros Hv. unfold pb_read, kept_bar; cbn. unfold header_time; cbn. by autorewrite with codec. Qed.
Lemma fb_read_quote conv_other q t :
  exact_volume (q_Volume q) → in_i64 (q_Seq q) → plain_zero (q_Price q) → fb_build (QuotePtr q) = Ok t →
  fb_read conv_other t = Ok (QuotePtr (kept_quote QuoteTypeTrade q)).
Proof. intros Hv Hs Hp [= <-]. unfold fb_read, kept_quote; cbn. unfold header_seq, header_time; cbn. by autorewrite with codec. Qed.
Lemma fb_read_bar conv_other b t :
  exact_volume (b_Volume b) → Forall plain_zero [b_Open b; b_High b; b_Low b; b_Close b] → fb_build (BarPtr b) = Ok t →
  fb_read conv_other t = Ok (BarPtr (kept_bar b)).
Proof.
  intros Hv Hz [= <-]. repeat (apply Forall_cons in Hz as [? Hz]). unfold fb_read, kept_bar; cbn. unfold header_time; cbn. by autorewrite with codec.
Qed.

(** ** Every interleaving of calls *)

Section interleaving.
Context (marshal : PbEvent → result (list byte) string).

(** The array that a call has for itself. *)
Definition held (c : go_event * pb_pc) : list nat :=
  match c.2 with PSlab _ a => [a] | PMarshalled _ r | PReturned r => [encoded_array r] | _ => [] end.
Definition owned (calls : list (go_event * pb_pc)) : list nat := concat (held <$> calls).

Definition enc_ok (heap : list Array) (e : go_event) (r : encoded) : Prop :=
  match r with
  | Ok (a, n) => ∃ ar b, heap !! a = Some ar ∧ marshal (pb_of e) = Ok b ∧ n = length b ∧ take n (ar_bytes ar) = b
  | Err (err, _) => marshal (pb_of e) = Err err
  end.

Definition call_ok (heap : list Array) (c : go_event * pb_pc) : Prop :=
  match c with
  | (e, PBegin) => True
  | (e, PBuilt msg) | (e, PSlab msg _) => msg = pb_of e
  | (e, PMarshalled msg r) => msg = pb_of e ∧ enc_ok heap e r
  | (e, PReturned r) => enc_ok heap e r
  | (e, PCopy a n hit) => (a < length heap)%nat ∧ (hit = false → enc_ok heap e (Ok (a, n)))
  | (e, PDone out hit) => hit = false → out = pb_Serialize marshal e
  end.

Record pb_inv (s : PbState) : Prop := {
  pi_msgs : Forall (eq zero_msg) (p_msgs s);
  pi_ticks : Forall (eq zero_tick) (p_ticks s);
  pi_snaps : Forall (eq zero_snap) (p_snaps s);
  pi_owned : NoDup (owned (p_calls s) ++ p_slabs s);
  pi_heap : Forall (λ a, (a < length (p_heap s))%nat) (owned (p_calls s) ++ p_slabs s);
  pi_calls : Forall (call_ok (p_heap s)) (p_calls s);
}.

Lemma pool_get_clean {T} (new : T) pool x pool' : Forall (eq new) pool → pool_get new pool x pool' → x = new ∧ Forall (eq new) pool'.
Proof. intros H [[-> ->]|Hp]; [done|]. rewrite Hp in H. by apply Forall_cons in H as [<- H]. Qed.

Lemma owned_app l c r : owned (l ++ c :: r) = owned l ++ held c ++ owned r.
Proof. unfold owned. by rewrite fmap_app, concat_app. Qed.
Lemma held_mark a c : held (mark a c) = held c.
Proof. by destruct c as [e []]. Qed.
Lemma owned_mark a l : owned (mark a <$> l) = owned l.
Proof. unfold owned. rewrite <-list_fmap_compose. f_equal. apply list_fmap_ext. intros ? c _. apply held_mark. Qed.

(** A store that grew, and one whose array [a] was written. *)
Lemma enc_ok_grow heap x e r : enc_ok heap e r → enc_ok (heap ++ [x]) e r.
Proof. destruct r as [[a n]|[err a]]; [|done]. intros (ar & b & Ha & H). exists ar, b. split; [by apply lookup_app_l_Some|done]. Qed.
Lemma call_ok_grow heap x c : call_ok heap c → call_ok (heap ++ [x]) c.
Proof. destruct c as [e []]; cbn; rewrite ?length_app; try done; [|by apply enc_ok_grow|]; intros [H1 H2]; (split; [done || lia|]); [by apply enc_ok_grow|].
  intros H. by apply (enc_ok_grow _ x _ (Ok (_, _))), H2. Qed.
Lemma enc_ok_write heap a x e r : encoded_array r ≠ a → enc_ok heap e r → enc_ok (<[a := x]> heap) e r.
Proof. destruct r as [[a' n]|[err a']]; [|done]. cbn. intros Hne (ar & b & Ha & H). exists ar, b. split; [by rewrite list_lookup_insert_ne by done|done]. Qed.
Lemma call_ok_write heap a x c : a ∉ held c → call_ok heap c → call_ok (<[a := x]> heap) (mark a c).
Proof.
  destruct c as [e []]; cbn; rewrite ?length_insert; try done.
  - intros Hn [H1 H2]. split; [done|]. apply enc_ok_write; [set_solver|done].
  - intros Hn H. apply enc_ok_write; [set_solver|done].
  - intros _ [H1 H2]. split; [done|]. rewrite orb_false_iff, bool_decide_eq_false. intros [Hh Hne].
    by apply (enc_ok_write _ _ _ _ (Ok (_, _))), H2.
Qed.

Lemma NoDup_sub {X} (l k : list X) : l ⊆+ k → NoDup k → NoDup l.
Proof. intros [k' ->]%submseteq_Permutation H. by apply NoDup_app in H as (? & _ & _). Qed.
Lemma Forall_submseteq {X} (P : X → Prop) l k : l ⊆+ k → Forall P k → Forall P l.
Proof. intros [k' ->]%submseteq_Permutation H. by apply Forall_app in H as [? _]. Qed.

(** What every step does: the pools stay clean, the other calls stay right over the new
    store, and the arrays of the call and the pool are those from before or new. *)
Lemma pb_inv_step s s' l c r l' c' r' fresh :
  pb_inv s → p_calls s = l ++ c :: r → p_calls s' = l' ++ c' :: r' → owned l' = owned l → owned r' = owned r →
  Forall (eq zero_msg) (p_msgs s') → Forall (eq zero_tick) (p_ticks s') → Forall (eq zero_snap) (p_snaps s') →
  held c' ++ p_slabs s' ⊆+ fresh ++ held c ++ p_slabs s → (fresh = [] ∨ fresh = [length (p_heap s)]) →
  (length (p_heap s) + length fresh <= length (p_heap s'))%nat →
  Forall (call_ok (p_heap s')) l' → Forall (call_ok (p_heap s')) r' → call_ok (p_heap s') c' →
  pb_inv s'.
Proof.
  intros [_ _ _ I4 I5 _] Hc Hc' Hl Hr Hm Ht Hsn Hsub Hf Hlen Hol Hor Hoc.
  rewrite Hc, owned_app in I4, I5.
  assert (Hsub' : owned (l' ++ c' :: r') ++ p_slabs s' ⊆+ fresh ++ (owned l ++ held c ++ owned r) ++ p_slabs s).
  { rewrite owned_app, Hl, Hr.
    assert (P1 : (owned l ++ held c' ++ owned r) ++ p_slabs s' ≡ₚ (owned l ++ owned r) ++ held c' ++ p_slabs s') by solve_Permutation.
    assert (P2 : fresh ++ (owned l ++ held c ++ owned r) ++ p_slabs s ≡ₚ (owned l ++ owned r) ++ fresh ++ held c ++ p_slabs s) by solve_Permutation.
    rewrite P1, P2. by apply submseteq_skips_l. }
  assert (I4' : NoDup (fresh ++ (owned l ++ held c ++ owned r) ++ p_slabs s)).
  { destruct Hf as [->| ->]; [done|]. apply NoDup_cons. split; [|done]. intros Hin. rewrite Forall_forall in I5. apply I5 in Hin. lia. }
  assert (I5' : Forall (λ a, (a < length (p_heap s'))%nat) (fresh ++ (owned l ++ held c ++ owned r) ++ p_slabs s)).
  { apply Forall_app. split; [destruct Hf as [->| ->]; [by constructor|]; cbn in Hlen; constructor; [lia|by constructor]|].
    eapply Forall_impl; [exact I5|]. cbn. lia. }
  constructor; [done..| | |]; rewrite Hc'.
  - by eapply NoDup_sub.
  - by eapply Forall_submseteq.
  - apply Forall_app. split; [done|]. by apply Forall_cons.
Qed.

Lemma calls_split s l c r : pb_inv s → p_calls s = l ++ c :: r → Forall (call_ok (p_heap s)) l ∧ call_ok (p_heap s) c ∧ Forall (call_ok (p_heap s)) r.
Proof. intros I Hc. pose proof (pi_calls _ I) as H. rewrite Hc in H. apply Forall_app in H as [? H]. by apply Forall_cons in H as [??]. Qed.

(** A step that leaves the store and the other calls as they are. *)
Lemma pb_inv_local s l c r c' msgs ticks snaps slabs :
  pb_inv s → p_calls s = l ++ c :: r →
  Forall (eq zero_msg) msgs → Forall (eq zero_tick) ticks → Forall (eq zero_snap) snaps →
  held c' ++ slabs ⊆+ held c ++ p_slabs s → call_ok (p_heap s) c' →
  pb_inv (mkPbState msgs ticks snaps slabs (p_heap s) (l ++ c' :: r)).
Proof.
  intros I Hc Hm Ht Hsn Hsub Hok. destruct (calls_split s l c r I Hc) as (Hl & _ & Hr).
  eapply (pb_inv_step s _ l c r l c' r []); try done; [by left|cbn; lia].
Qed.
(** A step that adds an array. *)
Lemma pb_inv_new s l c r c' x :
  pb_inv s → p_calls s = l ++ c :: r → held c' ⊆+ length (p_heap s) :: held c → call_ok (p_heap s ++ [x]) c' →
  pb_inv (mkPbState (p_msgs s) (p_ticks s) (p_snaps s) (p_slabs s) (p_heap s ++ [x]) (l ++ c' :: r)).
Proof.
  intros I Hc Hsub Hok. destruct (calls_split s l c r I Hc) as (Hl & _ & Hr). pose proof I as [I1 I2 I3 _ _ _].
  eapply (pb_inv_step s _ l c r l c' r [length (p_heap s)]); try done; cbn.
  - exact (submseteq_skips_r (p_slabs s) _ _ Hsub).
  - by right.
  - rewrite length_app. cbn. lia.
  - eapply Forall_impl; [exact Hl|]. intros. by apply call_ok_grow.
  - eapply Forall_impl; [exact Hr|]. intros. by apply call_ok_grow.
Qed.
(** A step that writes the call's own array. *)
Lemma pb_inv_write s l c r c' a x :
  pb_inv s → p_calls s = l ++ c :: r → held c = [a] → held c' = [a] → call_ok (<[a := x]> (p_heap s)) c' →
  pb_inv (mkPbState (p_msgs s) (p_ticks s) (p_snaps s) (p_slabs s) (<[a := x]> (p_heap s)) ((mark a <$> l) ++ c' :: (mark a <$> r))).
Proof.
  intros I Hc Hh Hh' Hok. destruct (calls_split s l c r I Hc) as (Hl & _ & Hr). pose proof I as [I1 I2 I3 I4 _ _].
  rewrite Hc, owned_app, Hh in I4.
  assert (Hno : ∀ l0, (∀ b, b ∈ owned l0 → b ∈ owned l ++ owned r) → Forall (call_ok (p_heap s)) l0 → Forall (call_ok (<[a:=x]> (p_heap s))) (mark a <$> l0)).
  { intros l0 Hin H0. apply Forall_fmap, Forall_forall. intros d Hd. rewrite Forall_forall in H0. apply call_ok_write; [|by apply H0].
    intros Had. assert (Ho : a ∈ owned l0) by (apply list_elem_of_In, in_concat; exists (held d); rewrite <- !list_elem_of_In; split; [by apply list_elem_of_fmap_2|done]).
    apply Hin in Ho. assert (P : (owned l ++ [a] ++ owned r) ++ p_slabs s ≡ₚ a :: (owned l ++ owned r) ++ p_slabs s) by solve_Permutation.
    rewrite P in I4. apply NoDup_cons in I4 as [I4 _]. set_solver. }
  eapply (pb_inv_step s _ l c r _ c' _ []); try done; cbn; try apply owned_mark.
  - by rewrite Hh, Hh'.
  - by left.
  - rewrite length_insert. lia.
  - apply Hno; [set_solver|done].
  - apply Hno; [set_solver|done].
Qed.

Lemma Forall_eq_sublist {X} (x : X) l k : l `sublist_of` k → Forall (eq x) k → Forall (eq x) l.
Proof. intros H. apply Forall_submseteq. by apply sublist_submseteq. Qed.

Lemma pb_step_inv s s' : pb_inv s → pb_step marshal s s' → pb_inv s'.
Proof.
  intros I H. pose proof I as [I1 I2 I3 I4 I5 I6].
  destruct H as [s l r q msg msgs t ticks Hc Hm Ht | s l r b msg msgs t snaps Hc Hm Ht | s l r e msg msgs Hc Hq Hb Hm | s l r e msg a slabs Hc Hs | s l r e msg Hc
    | s l r e msg a ar b Hc Ha Hm Hb | s l r e msg a ar b cap Hc Ha Hm Hb | s l r e msg a ar bs err Hc Ha Hm | s l r e msg enc Hc
    | s l r e enc ar Hc Ha | s l r e a n hit ar Hc Ha | s msgs ticks snaps slabs Hm Ht Hs Hsl];
    try (destruct (calls_split s _ _ _ I Hc) as (Hl & Hok & Hr); cbn in Hok).
  - apply pool_get_clean in Hm as [-> Hm]; [|done]. apply pool_get_clean in Ht as [-> Ht]; [|done]. by eapply pb_inv_local.
  - apply pool_get_clean in Hm as [-> Hm]; [|done]. apply pool_get_clean in Ht as [-> Ht]; [|done]. by eapply pb_inv_local.
  - apply pool_get_clean in Hm as [-> Hm]; [|done]. eapply pb_inv_local; try done. cbn. destruct e; naive_solver.
  - eapply pb_inv_local; try done. cbn. by rewrite Hs.
  - eapply pb_inv_new; try done.
  - eapply pb_inv_write; try done. cbn. split; [done|]. exists (overwrite ar b), b.
    rewrite list_lookup_insert_eq by (by eapply lookup_lt_Some). subst msg. split_and!; [done|done|done|]. cbn. by rewrite take_app_length.
  - eapply pb_inv_new; try done; [cbn; by apply submseteq_skip, submseteq_nil_l|]. cbn. split; [done|]. exists (mkArray b cap), b. subst msg.
    rewrite lookup_app_r, Nat.sub_diag by lia. split_and!; [done|done|done|]. cbn. by rewrite firstn_all.
  - eapply pb_inv_write; try done. cbn. by subst msg.
  - destruct Hok as [-> Hok]. eapply pb_inv_local; try done.
    + apply Forall_app. by repeat constructor.
    + apply Forall_app. split; [done|]. apply Forall_fmap. by apply Forall_true.
    + apply Forall_app. split; [done|]. apply Forall_fmap. by apply Forall_true.
  - assert (Hlt : (encoded_array enc < length (p_heap s))%nat) by (by eapply lookup_lt_Some).
    eapply pb_inv_local; try done.
    + destruct enc as [[a n]|[err a]]; cbn; destruct (ar_cap ar <=? maxSlabCap); first [by apply submseteq_cons|by apply Permutation_submseteq, Permutation_app_comm].
    + destruct enc as [[a n]|[err a]]; cbn in *; [done|]. intros _. unfold pb_Serialize. by rewrite Hok.
  - eapply pb_inv_local; try done. cbn. intros Hh. destruct Hok as [_ Hok]. destruct (Hok Hh) as (ar' & b & Ha' & Hm & -> & Hb).
    unfold pb_Serialize. rewrite Hm. congruence.
  - constructor; cbn; try by eapply Forall_eq_sublist; done.
    + eapply NoDup_sub; [|exact I4]. by apply submseteq_skips_l, sublist_submseteq.
    + eapply Forall_submseteq; [|exact I5]. by apply submseteq_skips_l, sublist_submseteq.
    + done.
Qed.

Lemma pb_init_inv es : pb_inv (pb_init es).
Proof.
  assert (Ho : owned ((λ e, (e, PBegin)) <$> es) = []) by (by induction es).
  constructor; cbn -[owned]; rewrite ?Ho; cbn; try by constructor. apply Forall_fmap. by apply Forall_true.
Qed.
Lemma pb_reachable_inv es s : rtc (pb_step marshal) (pb_init es) s → pb_inv s.
Proof. intros H. pattern s. revert s H. apply rtc_ind_r; [apply pb_init_inv|]. intros s s' _ Hs I. by eapply pb_step_inv. Qed.

(** The steps that a call has left. *)
Definition left_of (c : go_event * pb_pc) : nat :=
  match c.2 with PBegin => 6 | PBuilt _ => 5 | PSlab _ _ => 4 | PMarshalled _ _ => 3 | PReturned _ => 2 | PCopy _ _ _ => 1 | PDone _ _ => 0 end%nat.
Definition all_left (calls : list (go_event * pb_pc)) : nat := sum_list (left_of <$> calls).

Lemma all_left_app l c r : all_left (l ++ c :: r) = (all_left l + (left_of c + all_left r))%nat.
Proof. unfold all_left. rewrite fmap_app. induction (left_of <$> l); cbn in *; lia. Qed.
Lemma all_left_mark a l : all_left (mark a <$> l) = all_left l.
Proof. unfold all_left. rewrite <-list_fmap_compose. f_equal. apply list_fmap_ext. by intros ? [? []] _. Qed.
Lemma events_mark a l : (mark a <$> l).*1 = l.*1.
Proof. rewrite <-list_fmap_compose. apply list_fmap_ext. by intros ? [? []] _. Qed.

#[local] Ltac counted := unfold left_of; cbn [snd]; lia.
Lemma call_moves s l e pc r :
  pb_inv s → p_calls s = l ++ (e, pc) :: r → left_of (e, pc) ≠ 0%nat →
  ∃ s', pb_step marshal s s' ∧ (p_calls s').*1 = (p_calls s).*1 ∧ (all_left (p_calls s') < all_left (p_calls s))%nat.
Proof.
  intros I Hc Hn. destruct (calls_split s l _ r I Hc) as (_ & Hok & _). pose proof (pi_heap _ I) as Hh. rewrite Hc, owned_app in Hh.
  assert (Hheld : ∀ a, a ∈ held (e, pc) → ∃ ar, p_heap s !! a = Some ar).
  { intros a Ha. apply lookup_lt_is_Some. rewrite Forall_forall in Hh. apply Hh. set_solver. }
  destruct pc as [|msg|msg a|msg enc|enc|a n hit|out hit]; cbn in Hn; [..|done].
  - assert (∃ s', pb_step marshal s s' ∧ ∃ msg, p_calls s' = l ++ (e, PBuilt msg) :: r) as (s' & Hs & msg & Hc').
    { destruct e as [q|q|b|b|t|t|g]; eexists.
      all: split; [first [eapply pb_build_quote; [exact Hc|left; done|left; done] | eapply pb_build_bar; [exact Hc|left; done|left; done]
                 | eapply pb_build_other; [exact Hc|done|done|left; done]]|eexists; reflexivity]. }
    exists s'. rewrite Hc, Hc', !all_left_app, !fmap_app. split_and!; [done|done|counted].
  - eexists. split; [by apply pb_slab_new|]. cbn [p_calls]. rewrite Hc, !all_left_app, !fmap_app. split; [done|counted].
  - destruct (Hheld a) as [ar Ha]; [by left|]. destruct (marshal msg) as [b|err] eqn:Hm.
    + destruct (decide (Z.of_nat (length b) ≤ ar_cap ar)).
      * eexists. split; [by eapply pb_marshal_fits|]. cbn [p_calls]. rewrite Hc, !all_left_app, !all_left_mark, !fmap_app, !fmap_cons, !events_mark. split; [done|counted].
      * eexists. split; [eapply (pb_marshal_grows _ _ _ _ _ _ _ _ _ (Z.of_nat (length b))); [done..|lia]|].
        cbn [p_calls]. rewrite Hc, !all_left_app, !fmap_app. split; [done|counted].
    + eexists. split; [by eapply (pb_marshal_fails _ _ _ _ _ _ _ _ [])|].
      cbn [p_calls]. rewrite Hc, !all_left_app, !all_left_mark, !fmap_app, !fmap_cons, !events_mark. split; [done|counted].
  - eexists. split; [by eapply pb_release|]. cbn [p_calls]. rewrite Hc, !all_left_app, !fmap_app. split; [done|counted].
  - destruct (Hheld (encoded_array enc)) as [ar Ha]; [by left|]. eexists. split; [by eapply pb_put|].
    cbn [p_calls]. rewrite Hc, !all_left_app, !fmap_app. split; [done|]. destruct enc as [[]|[]]; counted.
  - destruct Hok as [Hlt _]. apply lookup_lt_is_Some in Hlt as [ar Ha]. eexists. split; [by eapply pb_copy|].
    cbn [p_calls]. rewrite Hc, !all_left_app, !fmap_app. split; [done|counted].
Qed.

Lemma calls_complete s :
  pb_inv s → ∃ s', rtc (pb_step marshal) s s' ∧ (p_calls s').*1 = (p_calls s).*1 ∧ Forall (λ c, ∃ out hit, c.2 = PDone out hit) (p_calls s').
Proof.
  remember (all_left (p_calls s)) as k eqn:Hk. revert s Hk. induction (lt_wf k) as [k _ IH]. intros s -> I.
  destruct (decide (Forall (λ c, left_of c = 0%nat) (p_calls s))) as [Hd|Hd].
  - exists s. split_and!; [apply rtc_refl|done|]. eapply Forall_impl; [exact Hd|]. intros [e []]; cbn; try done. eauto.
  - apply not_Forall_Exists in Hd; [|apply _]. apply Exists_exists in Hd as ([e pc] & Hin & Hn). apply list_elem_of_split in Hin as (l & r & Hc).
    destruct (call_moves s l e pc r I Hc Hn) as (s1 & H1 & He & Hlt).
    destruct (IH _ Hlt s1 eq_refl) as (s' & H' & He' & Hd'); [by eapply pb_step_inv|].
    exists s'. split_and!; [by eapply rtc_l|congruence|done].
Qed.
End interleaving.

(** C24: in every interleaving of calls of the protobuf serializer, the objects in its
    pools are empty and no array has two owners among the calls that write and the pool;
    the message that a call marshals is the one that new objects would give; what a call
    returns is the encoding of its event, unless another call wrote into its array
    between the return of the slab and the copy; and all calls can be completed. *)
Theorem pooled_serializer_is_exact marshal es s :
  rtc (pb_step marshal) (pb_init es) s →
  Forall (eq zero_msg) (p_msgs s) ∧ Forall (eq zero_tick) (p_ticks s) ∧ Forall (eq zero_snap) (p_snaps s) ∧
  NoDup (owned (p_calls s) ++ p_slabs s) ∧
  (∀ e msg, (e, PBuilt msg) ∈ p_calls s ∨ (∃ a, (e, PSlab msg a) ∈ p_calls s) → msg = pb_of e) ∧
  (∀ e out, (e, PDone out false) ∈ p_calls s → out = pb_Serialize marshal e) ∧
  ∃ s', rtc (pb_step marshal) s s' ∧ (p_calls s').*1 = (p_calls s).*1 ∧ Forall (λ c, ∃ out hit, c.2 = PDone out hit) (p_calls s').
Proof.
  intros Hr. pose proof (pb_reachable_inv marshal es s Hr) as I. pose proof (pi_calls _ _ I) as Hc. rewrite Forall_forall in Hc.
  split_and!; try apply I; [| |by apply (calls_complete marshal)].
  - intros e msg [H|[a H]]; by apply Hc in H.
  - intros e out H. apply Hc in H. by apply H.
Qed.

(** Two calls, the second with the slab of a first one that is back in the pool: the
    second has the array from the pool and returns its own encoding. *)
Definition sym_quote (symbol : string) : Quote := mkQuote symbol QuoteTypeTrade 1 f64_one f64_zero f64_zero 5 0 "sim".
(** An encoding that is the symbol. *)
Definition sym_marshal (m : PbEvent) : result (list byte) string := Ok (bytes_of_string (pb_Symbol m)).

Definition two_quotes : list go_event := [QuotePtr (sym_quote "AAPL"); QuotePtr (sym_quote "MSFT")].
Definition done_with_slab (out1 : string) (pc2 : pb_pc) : PbState :=
  mkPbState [zero_msg] [zero_tick] [] [0%nat] [mkArray (bytes_of_string "AAPL") 256]
    [(QuotePtr (sym_quote "AAPL"), PDone (Ok (bytes_of_string out1)) false); (QuotePtr (sym_quote "MSFT"), pc2)].

Ltac pb_run tac := eapply rtc_l; [tac|cbn].

(** The first call up to the return of its slab. *)
Definition slab_returned : PbState :=
  mkPbState [zero_msg] [zero_tick] [] [0%nat] [mkArray (bytes_of_string "AAPL") 256]
    [(QuotePtr (sym_quote "AAPL"), PCopy 0 4 false); (QuotePtr (sym_quote "MSFT"), PBegin)].
Lemma first_call_returns_slab : rtc (pb_step sym_marshal) (pb_init two_quotes) slab_returned.
Proof.
  pb_run ltac:(eapply (pb_build_quote _ _ [] _ _ zero_msg [] zero_tick []); [reflexivity|by left|by left]).
  pb_run ltac:(eapply (pb_slab_new _ _ []); reflexivity).
  pb_run ltac:(eapply (pb_marshal_fits _ _ [] _ _ _ 0%nat); [reflexivity|reflexivity|reflexivity|cbn; lia]).
  pb_run ltac:(eapply (pb_release _ _ []); reflexivity).
  pb_run ltac:(eapply (pb_put _ _ []); reflexivity). apply rtc_refl.
Qed.
(** It copies before the second call begins. *)
Lemma pooled_serializer_is_exact_witness :
  (QuotePtr (sym_quote "AAPL"), PDone (Ok (bytes_of_string "AAPL")) false) ∈ p_calls (done_with_slab "AAPL" PBegin) ∧
  Ok (bytes_of_string "AAPL") = pb_Serialize sym_marshal (QuotePtr (sym_quote "AAPL")).
Proof.
  assert (Hr : rtc (pb_step sym_marshal) (pb_init two_quotes) (done_with_slab "AAPL" PBegin)).
  { eapply rtc_r; [apply first_call_returns_slab|].
    exact (pb_copy sym_marshal slab_returned [] [(QuotePtr (sym_quote "MSFT"), PBegin)] _ 0 4 false (mkArray (bytes_of_string "AAPL") 256) eq_refl eq_refl). }
  destruct (pooled_serializer_is_exact sym_marshal two_quotes (done_with_slab "AAPL" PBegin) Hr) as (_ & _ & _ & _ & _ & H & _).
  split; [left|]. apply H. left.
Defined.

(** The slab goes back to the pool before the copy is made: a second call takes it in
    between and writes its event into it, and the first call returns the bytes of the
    second event. *)
Lemma slab_reuse_corrupts :
  ∃ s, rtc (pb_step sym_marshal) (pb_init two_quotes) s ∧
    (QuotePtr (sym_quote "AAPL"), PDone (Ok (bytes_of_string "MSFT")) true) ∈ p_calls s.
Proof.
  eexists. split.
  - etrans; [apply first_call_returns_slab|]. unfold slab_returned.
    pb_run ltac:(eapply (pb_build_quote _ _ [_] _ _ zero_msg [] zero_tick []); [reflexivity|by right|by right]).
    pb_run ltac:(eapply (pb_slab_pooled _ _ [_] _ _ _ 0%nat []); reflexivity).
    pb_run ltac:(eapply (pb_marshal_fits _ _ [_] _ _ _ 0%nat); [reflexivity|reflexivity|reflexivity|cbn; lia]).
    pb_run ltac:(eapply (pb_copy _ _ []); reflexivity). apply rtc_refl.
  - cbn. left.
Qed.

(** ** Round trips *)

Definition known_types : list string := ["quote"; "trade"; "bar"; "ping"; "pong"; "goaway"].

(** What the JSON library is relied on for: the raw payload of the envelope is what was
    put into it, and a value that was marshalled is parsed back. *)
Record json_laws (json_Marshal : go_event → result (list byte) string) (parse_envelope : list byte → result (string * list byte) string)
    (parse_quote : list byte → result Quote string) (parse_bar : list byte → result Bar string)
    (parse_ping parse_pong : list byte → result Z string) (parse_goaway : list byte → result string string) : Prop := {
  jl_envelope : ∀ e p, json_Marshal e = Ok p → ev_type e ∈ known_types → parse_envelope (json_envelope (ev_type e) p) = Ok (ev_type e, p);
  jl_payload : ∀ e p, json_Marshal e = Ok p → p ≠ [];
  jl_parse : ∀ e p, json_Marshal e = Ok p →
    match e with
    | QuotePtr q | QuoteVal q => parse_quote p = Ok q
    | BarPtr b | BarVal b => parse_bar p = Ok b
    | PingMessage t => parse_ping p = Ok t
    | PongMessage t => parse_pong p = Ok t
    | GoAwayMessage r => parse_goaway p = Ok r
    end;
}.

(** A quote has one of the types that are parsed as a quote. *)
Definition typed (e : go_event) : Prop := match e with QuotePtr q | QuoteVal q => q_Type q = "quote" ∨ q_Type q = "trade" | _ => True end.

Lemma json_roundtrip json_Marshal parse_envelope get_type parse_quote parse_bar parse_ping parse_pong parse_goaway e data :
  json_laws json_Marshal parse_envelope parse_quote parse_bar parse_ping parse_pong parse_goaway → typed e →
  json_Serialize json_Marshal e = Ok data →
  json_Deserialize parse_envelope get_type parse_quote parse_bar parse_ping parse_pong parse_goaway data = Ok (as_ptr e).
Proof.
  intros L Ht. unfold json_Serialize. destruct (json_Marshal e) as [p|] eqn:Em; [|done]. intros [= <-].
  assert (Hk : ev_type e ∈ known_types) by (destruct e; cbn in *; try destruct Ht as [-> | ->]; set_solver).
  unfold json_Deserialize. rewrite (jl_envelope _ _ _ _ _ _ _ L _ _ Em Hk). rewrite decide_False by (by eapply (jl_payload _ _ _ _ _ _ _ L)).
  pose proof (jl_parse _ _ _ _ _ _ _ L _ _ Em) as Hp. unfold deserializeTyped, parsed.
  destruct e; cbn in *; try (destruct Ht as [-> | ->]); cbn; by rewrite Hp.
Qed.


(** Libraries for a concrete run: bytes that are the binary digits of a code for the
    message or the table, and a JSON library that knows one quote. *)
#[local] Instance f64_eq_dec : EqDecision float64.
Proof. unfold float64. solve_decision. Defined.
#[local] Instance f64_countable : Countable float64.
Proof.
  refine (inj_countable' (λ x : float64, match x with S754_zero b => inl (inl b) | S754_infinity b => inl (inr b) | S754_nan => inr (inl ()) | S754_finite b m e => inr (inr (b, m, e)) end)
    (λ c, match c with inl (inl b) => S754_zero b | inl (inr b) => S754_infinity b | inr (inl _) => S754_nan | inr (inr (b, m, e)) => S754_finite b m e end) _).
  by intros [].
Defined.
#[local] Instance PbTick_eq_dec : EqDecision PbTick.
Proof. solve_decision. Defined.
#[local] Instance PbSnapshot_eq_dec : EqDecision PbSnapshot.
Proof. solve_decision. Defined.
#[local] Instance PbPayload_eq_dec : EqDecision PbPayload.
Proof. solve_decision. Defined.
#[local] Instance PbEvent_eq_dec : EqDecision PbEvent.
Proof. solve_decision. Defined.
#[local] Instance PbEvent_countable : Countable PbEvent.
Proof.
  refine (inj_countable' (λ m, (pb_Symbol m, pb_Timestamp m, pb_Sequence m,
      match pb_Payload m with
      | Some (PTick t) => Some (inl (tk_Price t, tk_Volume t, tk_Side t, tk_Exchange t, tk_TradeId t))
      | Some (PSnapshot s) => Some (inr (sp_LastPrice s, sp_LastVolume s, sp_High s, sp_Low s, sp_Open s, sp_Close s, sp_OrderBook s))
      | None => None
      end))
    (λ c, match c with
      | (a, b, d, Some (inl (p, v, i, x, y))) => mkPbEvent a b d (Some (PTick (mkTick p v i x y)))
      | (a, b, d, Some (inr (p, v, h, l, o, c, k))) => mkPbEvent a b d (Some (PSnapshot (mkSnap p v h l o c k)))
      | (a, b, d, None) => mkPbEvent a b d None
      end) _).
  by intros [a b d [[[]|[]]|]].
Defined.
#[local] Instance FbPayload_eq_dec : EqDecision FbPayload.
Proof. solve_decision. Defined.
#[local] Instance FbEvent_eq_dec : EqDecision FbEvent.
Proof. solve_decision. Defined.
#[local] Instance FbEvent_countable : Countable FbEvent.
Proof.
  refine (inj_countable' (λ m, (fb_Symbol m, fb_Timestamp m, fb_Sequence m,
      match fb_Payload m with
      | Some (FbTick p v i x) => Some (inl (p, v, i, x))
      | Some (FbSnapshot o h l c v) => Some (inr (o, h, l, c, v))
      | None => None
      end))
    (λ c, match c with
      | (a, b, d, Some (inl (p, v, i, x))) => mkFbEvent a b d (Some (FbTick p v i x))
      | (a, b, d, Some (inr (o, h, l, c, v))) => mkFbEvent a b d (Some (FbSnapshot o h l c v))
      | (a, b, d, None) => mkFbEvent a b d None
      end) _).
  by intros [a b d [[]|]].
Defined.
#[local] Instance Quote_eq_dec : EqDecision Quote.
Proof. solve_decision. Defined.

Fixpoint digits (p : positive) : list byte := match p with xH => [] | xO p => x00 :: digits p | xI p => x01 :: digits p end.
Fixpoint from_digits (b : list byte) : positive := match b with [] => xH | x00 :: b => xO (from_digits b) | _ :: b => xI (from_digits b) end.
Lemma from_to_digits p : from_digits (digits p) = p.
Proof. induction p; cbn; congruence. Qed.

Definition demo_marshal (m : PbEvent) : result (list byte) string := Ok (digits (encode m)).
Definition demo_unmarshal (b : list byte) : result PbEvent string := match decode (from_digits b) with Some m => Ok m | None => Err "bad message" end.
Definition demo_finish (t : FbEvent) : list byte := digits (encode t).
Definition demo_root (b : list byte) : FbEvent := default (mkFbEvent "" None None None) (decode (from_digits b)).
Definition demo_quote : Quote := mkQuote "AAPL" "trade" 7 f64_one f64_one f64_one 100 1700000000123456789 "sim".
Definition demo_json : list byte := bytes_of_string "{}".
Definition demo_json_Marshal (e : go_event) : result (list byte) string :=
  match e with QuotePtr q => if decide (q = demo_quote) then Ok demo_json else Err "unsupported" | _ => Err "unsupported" end.
Definition demo_envelope (d : list byte) : result (string * list byte) string :=
  if decide (d = json_envelope "trade" demo_json) then Ok ("trade", demo_json) else Err "bad envelope".
Definition demo_parse (d : list byte) : result Quote string := if decide (d = demo_json) then Ok demo_quote else Err "bad quote".
Definition demo_fails {T} (d : list byte) : result T string := Err "unsupported".

Lemma demo_json_laws : json_laws demo_json_Marshal demo_envelope demo_parse demo_fails demo_fails demo_fails demo_fails.
Proof.
  assert (H : ∀ e p, demo_json_Marshal e = Ok p → e = QuotePtr demo_quote ∧ p = demo_json).
  { intros [q|q|b|b|t|t|r] p; cbn; try done. destruct (decide (q = demo_quote)) as [->|]; [|done]. by intros [= <-]. }
  constructor.
  - intros e p [-> ->]%H _. unfold demo_envelope. by rewrite decide_True.
  - by intros e p [-> ->]%H.
  - intros e p [-> ->]%H. unfold demo_parse. by rewrite decide_True.
Qed.


(** The type switches of the binary serializers know pointers only, while the pipeline
    publishes values: the protobuf encoding of such a quote has no payload and is refused
    by the decoder, and FlatBuffers does not encode it. *)
Lemma value_quote_is_lost conv_other marshal unmarshal finish q data :
  (∀ m b, marshal m = Ok b → unmarshal b = Ok m) →
  (pb_Serialize marshal (QuoteVal q) = Ok data → pb_Deserialize conv_other unmarshal data = Err "protobuf unknown payload type") ∧
  fb_Serialize finish (QuoteVal q) = Err "flatbuffers: unsupported event type".
Proof.
  intros Hpb. split; [|done]. unfold pb_Serialize, pb_Deserialize. destruct (marshal _) as [b|] eqn:E; [|done]. intros [= <-]. by rewrite (Hpb _ _ E).
Qed.

(** A quote with a volume comes back from the binary formats as a trade. *)
Lemma quote_becomes_trade conv_other q :
  q_Type q = QuoteTypeQuote → exact_volume (q_Volume q) → q_Volume q ≠ 0 → in_i64 (q_Seq q) →
  ∃ q', pb_read conv_other (pb_of (QuotePtr q)) = Ok (QuotePtr q') ∧ q_Type q' = QuoteTypeTrade ∧ q_Bid q' = f64_zero.
Proof.
  intros Ht Hv H0 Hs. eexists. split; [by apply pb_read_quote|]. cbn. unfold pb_type. by rewrite (proj2 (Z.eqb_neq _ _)).
Qed.
