(* ===== verification/App.v ===== *)
(** * App: the composition of a process

    [internal/app]: [wire] builds the components of a process for its mode and its
    configuration and registers them with their hooks; [Run] starts them in order, runs
    the server and the pipeline, and stops the components in reverse. The hooks are
    functions on a history: the log lines of the lifecycle and the calls that the hooks
    make on the parts they close over, whose answers are an argument. *)

From S2P Require Import Prelude Float64 Gateway Health Normalization Exchange Config Discovery Topology Simulator Transport.
From stdpp Require Import sorting pretty.
#[local] Open Scope Z_scope.

(** ** Calls and hooks *)

(** The contexts that are handed on: [Run]'s own, and the one that [startup] gets, which
    is done ten seconds after [Run] began. *)
Inductive app_ctx := StartCtx | RunCtx | ShutdownCtx | Background.
Definition startup_timeout : Z := 10 * Second.

(** The calls; a call that leaves a goroutine behind has the context that ends it. *)
Inductive app_call :=
  | RunMigrations
  | Repo_Close
  | Wal_Close
  | Snap_Start (ctx : app_ctx)
  | Snap_LoadCheckpoint
  | Wal_Replay (ctx : app_ctx)
  | Snap_MarkReady
  | Snap_Stop
  | Gateway_Shutdown (ctx : app_ctx)
  | RedisPub_Close
  | RedisSub_Start (ctx : app_ctx)
  | RedisSub_Stop
  | Router_StartReconciler (ctx : app_ctx) (interval : Z)
  | Registry_Register (ctx : app_ctx) (id : string)
  | Registry_StartHeartbeat (ctx : app_ctx) (id : string)
  | Registry_StopHeartbeat
  | Registry_Deregister (ctx : app_ctx) (id : string)
  | Engine_Start (ctx : app_ctx)
  | Engine_Stop
  | Server_Shutdown (ctx : app_ctx)
  | Tracer_Shutdown (ctx : app_ctx)
  | SetHealthy (b : bool).

(** What the process has done so far: the lines that [startup] and [shutdown] log, and
    the calls. *)
Inductive entry := Starting (name : string) | Stopping (name : string) | Called (c : app_call).
Definition history : Type := list entry.

(** An error is [Some] text; a hook may panic. *)
Definition hook : Type := history → outcome (history * option string).

(** What the health functions ask the components for. *)
Record Probes := mkProbes {
  pr_eventLogCount : option string;
  pr_snapReady : bool;
  pr_clients : Z;
  pr_redisPing : option string;
  pr_subStale : bool;
  pr_gateways : result Z string;
}.

Record component := mkComponent {
  c_name : string;
  c_start : option hook;
  c_stop : option hook;
  c_health : option (Probes → HealthStatus);
  c_order : Z;
}.

Inductive Mode := ModeMonolith | ModePublisher | ModeGateway.
#[export] Instance Mode_eq_dec : EqDecision Mode.
Proof. solve_decision. Defined.

(** The publishers of the pipeline, from the one that it calls to the last. [LWal] says
    whether the manager of the log was created. *)
Inductive layer := LSnapshot | LWal (manager : bool) | LPersisting | LRedis (workers queueSize : Z) | LTopic | LDummy.
Inductive seq_kind := RedisSeq | MemorySeq.

Record App := mkApp {
  ap_mode : Mode;
  ap_cfg : AppConfig;
  ap_gateway : bool;
  ap_redisSub : bool;
  ap_registry : bool;
  ap_eventLog : bool;
  ap_pipeline : option (list layer * seq_kind);
  ap_checks : list string;
  ap_components : list component;
  ap_started : list string;
}.

(** ** The hooks *)

Section hooks.
Context (answer : history → app_call → option string).

Definition perform (h : history) (c : app_call) : history * option string := (h ++ [Called c], answer h c).
(** A call whose error is dropped or logged. *)
Definition tell (h : history) (c : app_call) : history := (perform h c).1.
Definition done_with (h : history) : outcome (history * option string) := Ret (h, None).
(** A hook that makes the calls and answers nil. *)
Definition hook_tell (cs : list app_call) : hook := λ h, done_with (fold_left tell cs h).

Definition start_eventlog : hook := λ h,
  match perform h RunMigrations with
  | (h, Some e) => Ret (h, Some ("eventlog migrations: " +:+ e))
  | (h, None) => done_with h
  end.

(** [Recover] of [recovery/wal_recovery.go]: a manager that could not be created is a
    nil pointer in a non-nil interface, whose reader panics. *)
Definition WAL_Recover (manager : bool) : hook := λ h,
  match perform h Snap_LoadCheckpoint with
  | (h, Some e) => Ret (h, Some ("failed to load snapshot: " +:+ e))
  | (h, None) => if manager then Ret (perform h (Wal_Replay StartCtx)) else Panic
  end.
Definition start_snapshot (manager : bool) : hook := λ h,
  match WAL_Recover manager (tell h (Snap_Start StartCtx)) with
  | Panic => Panic
  | Ret (h, _) => done_with (tell h Snap_MarkReady)
  end.

Definition start_discovery (id : string) : hook := λ h,
  match perform h (Registry_Register Background id) with
  | (h, Some e) => Ret (h, Some ("discovery register: " +:+ e))
  | (h, None) => done_with h
  end.
Definition stop_discovery (id : string) : hook := hook_tell [Registry_StopHeartbeat; Registry_Deregister ShutdownCtx id].

Definition stop_server : hook := λ h,
  match perform h (Server_Shutdown ShutdownCtx) with
  | (h, Some e) => Ret (h, Some ("http server shutdown: " +:+ e))
  | (h, None) => done_with h
  end.

(** ** The components *)

Definition always_ok : option (Probes → HealthStatus) := Some (λ _, health_OK).

Definition tracing_component : component :=
  mkComponent "tracing" None (Some (hook_tell [Tracer_Shutdown ShutdownCtx])) always_ok 5.
Definition metrics_component : component := mkComponent "metrics" None (Some (hook_tell [])) always_ok 10.
Definition eventlog_component : component :=
  mkComponent "event-log" (Some start_eventlog) (Some (hook_tell [Repo_Close]))
    (Some (λ p, match pr_eventLogCount p with Some e => health_Degraded ("event log query failed: " +:+ e) | None => health_OK end)) 11.
Definition topicmanager_component : component := mkComponent "topic-manager" None (Some (hook_tell [])) always_ok 20.
Definition wal_component : component := mkComponent "wal" (Some (hook_tell [])) (Some (hook_tell [Wal_Close])) always_ok 12.
Definition snapshot_component (manager : bool) : component :=
  mkComponent "snapshot-service" (Some (start_snapshot manager)) (Some (hook_tell [Snap_Stop]))
    (Some (λ p, if negb (pr_snapReady p) then health_Degraded "warming up" else health_OK)) 25.
Definition gateway_component : component :=
  mkComponent "websocket-gateway" None (Some (hook_tell [Gateway_Shutdown ShutdownCtx]))
    (Some (λ p, if maxConnections <=? pr_clients p then health_Degraded "at connection limit" else health_OK)) 30.
Definition exchange_component : component := mkComponent "exchange-manager" None (Some (hook_tell [])) always_ok 40.
Definition redis_publisher_component : component :=
  mkComponent "redis-publisher" None (Some (hook_tell [RedisPub_Close]))
    (Some (λ p, match pr_redisPing p with Some e => health_Unhealthy ("redis unreachable: " +:+ e) | None => health_OK end)) 15.
Definition pipeline_component : component := mkComponent "pipeline" None (Some (hook_tell [])) always_ok 50.
Definition redis_subscriber_component : component :=
  mkComponent "redis-subscriber" None (Some (hook_tell [RedisSub_Stop]))
    (Some (λ p, if pr_subStale p then health_Unhealthy "market data stream is stale" else health_OK)) 25.
Definition router_component : component :=
  mkComponent "distributed-router-background" (Some (hook_tell [Router_StartReconciler StartCtx (5 * Second)]))
    (Some (hook_tell [])) always_ok 26.
Definition discovery_component (id : string) : component :=
  mkComponent "service-discovery" (Some (start_discovery id)) (Some (stop_discovery id))
    (Some (λ p, match pr_gateways p with
                | Err e => health_Degraded ("discovery query failed: " +:+ e)
                | Ok n => if n =? 0 then health_Degraded "no gateways registered" else health_OK
                end)) 28.
Definition routing_component : component :=
  mkComponent "routing-engine" (Some (hook_tell [Engine_Start StartCtx])) (Some (hook_tell [Engine_Stop])) always_ok 29.
Definition server_component : component := mkComponent "http-server" None (Some stop_server) always_ok 60.

(** ** Wiring *)

(** What the constructors answer that reach outside of the process. *)
Record WireEnv := mkWireEnv {
  we_tracing : option string;
  we_postgres : option string;
  we_wal : option string;
  we_redisPing : option string;
  we_listen : option string;
}.

Definition serves (m : Mode) : bool := bool_decide (m = ModeMonolith) || bool_decide (m = ModeGateway).
Definition feeds (m : Mode) (cfg : AppConfig) : bool :=
  (bool_decide (m = ModeMonolith) || bool_decide (m = ModePublisher)) && fd_Enabled (cf_Feed cfg).

(** The float64 nearest to 0.1. *)
Definition f64_0_1 : float64 := f64_lit 7205759403792794 (-56).
(** The interval in milliseconds that [wire] sets for the simulator, if it sets one. *)
Definition legacy_tick_interval (f : FeedConfig) : option float64 :=
  if fd_BenchmarkMode f then Some f64_0_1
  else if 0 <? fd_TickInterval f then Some (f64_of_Z (Z.quot (fd_TickInterval f) Millisecond))
  else None.

(** The chain of publishers, with and without Redis. *)
Definition wire_publisher (m : Mode) (cfg : AppConfig) (wal_ok : bool) : list layer :=
  let base := if rd_Enabled (cf_Redis cfg)
              then if fd_BenchmarkMode (cf_Feed cfg) then LRedis 32 262144 else LRedis 4 8192
              else if serves m then LTopic else LDummy in
  (if serves m then [LSnapshot] else []) ++ [LWal wal_ok] ++ (if db_Enabled (cf_Database cfg) then [LPersisting] else []) ++ [base].

Definition only_if {A} (b : bool) (l : list A) : list A := if b then l else [].

(** The components in the order in which they are registered. *)
Definition wired_components (m : Mode) (cfg : AppConfig) (wal_ok : bool) : list component :=
  let redis := rd_Enabled (cf_Redis cfg) in
  let id := GetGatewayID (cf_Server cfg) in
  let discovery := serves m && dc_Enabled (cf_Discovery cfg) && redis in
  [tracing_component; metrics_component] ++
  only_if (db_Enabled (cf_Database cfg)) [eventlog_component] ++
  only_if (serves m) [topicmanager_component] ++
  only_if wal_ok [wal_component] ++
  only_if (serves m) [snapshot_component wal_ok; gateway_component] ++
  only_if (feeds m cfg) ([exchange_component] ++ only_if redis [redis_publisher_component] ++ [pipeline_component]) ++
  only_if (serves m && redis) [redis_subscriber_component; router_component] ++
  only_if discovery [discovery_component id; routing_component] ++
  [server_component].

Definition wired_checks (m : Mode) (cfg : AppConfig) : list string :=
  only_if (rd_Enabled (cf_Redis cfg)) ["redis"] ++ only_if (db_Enabled (cf_Database cfg)) ["postgres"] ++
  only_if (serves m) ["snapshot"; "websocket-gateway"].

Section wiring.
Context {A : Type} `{!ExchangeAdapter A}.
(** The registered adapters, given the interval that is set for the simulator. *)
Context (adapters : option float64 → factories (A := A)).

(** [wire]: the first constructor that fails ends it. *)
Definition wire (m : Mode) (cfg : AppConfig) (env : WireEnv) : result App string :=
  let redis := rd_Enabled (cf_Redis cfg) in
  let db := db_Enabled (cf_Database cfg) in
  let wal_ok := match we_wal env with None => true | Some _ => false end in
  match we_tracing env with Some e => Err ("tracing init: " +:+ e) | None =>
  match (if db then we_postgres env else None) with Some e => Err ("eventlog: " +:+ e) | None =>
  match (if redis then we_redisPing env else None) with Some e => Err ("redis ping: " +:+ e) | None =>
  match (if feeds m cfg then match NewExchangeManager (adapters (legacy_tick_interval (cf_Feed cfg))) (cf_Adapters cfg) with Err e => Some e | Ok _ => None end
         else None) with Some e => Err ("exchange manager: " +:+ e) | None =>
  match we_listen env with Some e => Err ("listen: " +:+ e) | None =>
  Ok (mkApp m cfg (serves m) (serves m && redis) (serves m && dc_Enabled (cf_Discovery cfg) && redis) db
        (if feeds m cfg then Some (wire_publisher m cfg wal_ok, if redis then RedisSeq else MemorySeq) else None)
        (wired_checks m cfg) (wired_components m cfg wal_ok) [])
  end end end end end.

Definition newApp (cfg : AppConfig) (m : Mode) (env : WireEnv) : result App string :=
  match wire m cfg env with Ok a => Ok a | Err e => Err ("app: wire: " +:+ e) end.
End wiring.
End hooks.

(** ** Running *)

Section running.
Context (answer : history → app_call → option string).

Definition with_started (a : App) (started : list string) : App :=
  mkApp (ap_mode a) (ap_cfg a) (ap_gateway a) (ap_redisSub a) (ap_registry a) (ap_eventLog a) (ap_pipeline a) (ap_checks a) (ap_components a) started.

Definition registerComponent (cs : list component) (c : component) : list component := cs ++ [c].

Definition HealthReport (a : App) (p : Probes) : list (string * HealthStatus) :=
  omap (λ c, match c_health c with Some health => Some (c_name c, health p) | None => None end) (ap_components a).

(** [sort.Slice] leaves components of one order in any sequence. *)
Definition by_order (c d : component) : Prop := c_order c ≤ c_order d.
#[export] Instance by_order_dec c d : Decision (by_order c d).
Proof. unfold by_order. apply _. Defined.
Definition sortComponents (components sorted : list component) : Prop := sorted ≡ₚ components ∧ StronglySorted by_order sorted.

(** The loop of [startup] over the sorted components. *)
Fixpoint start_components (h : history) (started : list string) (cs : list component) : outcome (history * list string * option string) :=
  match cs with
  | [] => Ret (h, started, None)
  | c :: cs =>
      let h := h ++ [Starting (c_name c)] in
      match (match c_start c with Some start => start h | None => Ret (h, None) end) with
      | Panic => Panic
      | Ret (h, Some e) => Ret (h, started, Some ("start " +:+ c_name c +:+ ": " +:+ e))
      | Ret (h, None) => start_components h (started ++ [c_name c]) cs
      end
  end.
Definition startup (a : App) (sorted : list component) (h : history) : outcome (history * App * option string) :=
  match start_components h (ap_started a) sorted with
  | Panic => Panic
  | Ret (h, started, err) => Ret (h, with_started a started, err)
  end.

Definition put_component (m : gmap string component) (c : component) : gmap string component := <[c_name c := c]> m.
Definition componentMap (cs : list component) : gmap string component := fold_left put_component cs ∅.
(** The loop of [shutdown], over the names from the last to the first. *)
Fixpoint stop_components (cm : gmap string component) (h : history) (names : list string) : outcome history :=
  match names with
  | [] => Ret h
  | name :: names =>
      match cm !! name with
      | Some (mkComponent _ _ (Some stop) _ _) =>
          match stop (h ++ [Stopping name]) with
          | Panic => Panic
          | Ret (h, _) => stop_components cm h names
          end
      | _ => stop_components cm h names
      end
  end.
Definition shutdown (a : App) (h : history) : outcome history := stop_components (componentMap (ap_components a)) h (reverse (ap_started a)).

(** ** Run

    A goroutine of the group and its result; [Serve] answers [None] for
    [http.ErrServerClosed], which the goroutine takes for nil. *)
Inductive task := Running | Returned (err : option string).
#[export] Instance task_eq_dec : EqDecision task.
Proof. solve_decision. Defined.

Inductive run_pc := RStart | RWait | RDone (err : option string) | RPanic.
Record RunState := mkRunState {
  r_app : App;
  r_hist : history;
  r_pc : run_pc;
  r_cancelled : bool;      (* ctx *)
  r_server : task;
  r_closing : bool;        (* the goroutine that waits for runCtx has called Shutdown *)
  r_pipe : option task;
  r_err : option string;   (* the first error of the group *)
}.

Definition Run_init (a : App) : RunState := mkRunState a [] RStart false Running false None None.

(** What [Run] does between the startup and the group. *)
Definition after_startup (a : App) (h : history) : history :=
  let id := GetGatewayID (cf_Server (ap_cfg a)) in
  let h := if ap_redisSub a then tell answer h (RedisSub_Start RunCtx) else h in
  let h := if ap_registry a then tell answer h (Registry_StartHeartbeat RunCtx id) else h in
  tell answer h (SetHealthy true).

Definition Run_start (s : RunState) (sorted : list component) : RunState :=
  match startup (r_app s) sorted (r_hist s) with
  | Panic => mkRunState (r_app s) (r_hist s) RPanic (r_cancelled s) Running false None None
  | Ret (h, a, Some e) => mkRunState a h (RDone (Some ("startup failed: " +:+ e))) (r_cancelled s) Running false None None
  | Ret (h, a, None) =>
      mkRunState a (after_startup a h) RWait (r_cancelled s) Running false (match ap_pipeline a with Some _ => Some Running | None => None end) None
  end.

(** The context of the group is done when its parent is, and at the first error. *)
Definition runCtx_done (s : RunState) : bool := r_cancelled s || match r_err s with Some _ => true | None => false end.
Definition first_err (s : RunState) (err : option string) : option string := match r_err s with Some e => Some e | None => err end.

Definition server_returns (s : RunState) (err : option string) : RunState :=
  mkRunState (r_app s) (r_hist s) (r_pc s) (r_cancelled s) (Returned err) (r_closing s) (r_pipe s) (first_err s err).
Definition pipeline_returns (s : RunState) (err : option string) : RunState :=
  mkRunState (r_app s) (r_hist s) (r_pc s) (r_cancelled s) (r_server s) (r_closing s) (Some (Returned err)) (first_err s err).
Definition begin_closing (s : RunState) : RunState :=
  mkRunState (r_app s) (tell answer (r_hist s) (Server_Shutdown Background)) (r_pc s) (r_cancelled s) (r_server s) true (r_pipe s) (r_err s).

(** After [g.Wait]. *)
Definition Run_end (s : RunState) : RunState :=
  let ended h pc := mkRunState (r_app s) h pc (r_cancelled s) (r_server s) (r_closing s) (r_pipe s) (r_err s) in
  match r_err s with
  | Some e => ended (r_hist s) (RDone (Some e))
  | None =>
      match shutdown (r_app s) (tell answer (r_hist s) (SetHealthy false)) with
      | Panic => ended (r_hist s) RPanic
      | Ret h => ended h (RDone None)
      end
  end.

Definition all_returned (s : RunState) : Prop :=
  (∃ e, r_server s = Returned e) ∧ r_pipe s ≠ Some Running.

(** The signal; the server, which fails or is closed; the goroutine that closes it; the
    pipeline, whose feed ends, cannot be started, or is cancelled; the end. *)
Inductive run_step : RunState → RunState → Prop :=
  | RunStart s sorted :
      r_pc s = RStart → sortComponents (ap_components (r_app s)) sorted → run_step s (Run_start s sorted)
  | RunCancel s :
      run_step s (mkRunState (r_app s) (r_hist s) (r_pc s) true (r_server s) (r_closing s) (r_pipe s) (r_err s))
  | RunServeFails s e :
      r_pc s = RWait → r_server s = Running → run_step s (server_returns s (Some ("http server: " +:+ e)))
  | RunClose s :
      r_pc s = RWait → r_closing s = false → runCtx_done s = true → run_step s (begin_closing s)
  | RunServeClosed s :
      r_pc s = RWait → r_server s = Running → r_closing s = true → run_step s (server_returns s None)
  | RunPipelineFails s e :
      r_pc s = RWait → r_pipe s = Some Running → run_step s (pipeline_returns s (Some ("pipeline: " +:+ e)))
  | RunPipelineEnds s :
      r_pc s = RWait → r_pipe s = Some Running → run_step s (pipeline_returns s None)
  | RunReturns s :
      r_pc s = RWait → all_returned s → run_step s (Run_end s).
End running.

(** ** The registry that routing sees

    [discoveryRegistryAdapter]: without a registry the list is empty. *)
Definition gateway_metadata (info : GatewayInfo) : GatewayMetadata :=
  mkGateway (gi_ID info) (gi_Addr info +:+ ":" +:+ pretty (gi_Port info))
    (if String.eqb (gi_Status info) "healthy" then StateOnline else StateOffline) (gi_LastHeartbeat info).
Definition adapter_List (listing : option (result (list GatewayInfo) string)) : result (list GatewayMetadata) string :=
  match listing with
  | None => Ok []
  | Some (Err e) => Err e
  | Some (Ok infos) => Ok (gateway_metadata <$> infos)
  end.

(** ** The lifecycle lines of a history *)

Definition starting (h : history) : list string := omap (λ e, match e with Starting n => Some n | _ => None end) h.
Definition stopping (h : history) : list string := omap (λ e, match e with Stopping n => Some n | _ => None end) h.

#[local] Arguments starting : simpl never.
#[local] Arguments stopping : simpl never.

(** A history that went on by calls alone. *)
Definition same_lines (h h' : history) : Prop := starting h' = starting h ∧ stopping h' = stopping h.
#[export] Instance same_lines_preorder : PreOrder same_lines.
Proof. split; [done|]. intros x y z [??] [??]. split; congruence. Qed.
Definition quiet (f : hook) : Prop := ∀ h h' e, f h = Ret (h', e) → same_lines h h'.
Definition total_hook (f : hook) : Prop := ∀ h, ∃ h' e, f h = Ret (h', e).

Record component_ok (c : component) : Prop := {
  ok_start : ∀ f, c_start c = Some f → quiet f;
  ok_stop : ∃ f, c_stop c = Some f ∧ quiet f ∧ total_hook f;
}.

Section lifecycle.
Context (answer : history → app_call → option string).

Lemma tell_same h c : same_lines h (tell answer h c).
Proof. unfold tell, perform, same_lines, starting, stopping; cbn. by rewrite !omap_app, !app_nil_r. Qed.
Lemma tell_all_same cs h : same_lines h (fold_left (tell answer) cs h).
Proof. revert h. induction cs as [|c cs IH]; intros h; [done|]. cbn. etrans; [apply tell_same|apply IH]. Qed.
Lemma perform_same h c h' e : perform answer h c = (h', e) → same_lines h h'.
Proof. unfold perform. intros [= <- <-]. apply tell_same. Qed.

Lemma hook_tell_quiet cs : quiet (hook_tell answer cs).
Proof. intros h h' e [= <- <-]. apply tell_all_same. Qed.
Lemma hook_tell_total cs : total_hook (hook_tell answer cs).
Proof. intros h. by do 2 eexists. Qed.

(** A hook that answers what one call answered. *)
Ltac one_call := intros h h' e; unfold start_eventlog, start_discovery, stop_server, done_with;
  destruct (perform answer h _) as [h1 [?|]] eqn:Hp; intros [= <- <-]; by eapply perform_same.
Lemma start_eventlog_quiet : quiet (start_eventlog answer).
Proof. one_call. Qed.
Lemma start_discovery_quiet id : quiet (start_discovery answer id).
Proof. one_call. Qed.
Lemma stop_server_quiet : quiet (stop_server answer).
Proof. one_call. Qed.
Lemma stop_server_total : total_hook (stop_server answer).
Proof. intros h. unfold stop_server, done_with. destruct (perform _ _ _) as [h1 [?|]]; by do 2 eexists. Qed.
Lemma start_snapshot_quiet b : quiet (start_snapshot answer b).
Proof.
  intros h h' e. unfold start_snapshot, WAL_Recover, done_with.
  pose proof (tell_same h (Snap_Start StartCtx)) as H0. set (h0 := tell _ _ _) in *.
  destruct (perform answer h0 Snap_LoadCheckpoint) as [h1 [?|]] eqn:Hp; apply perform_same in Hp.
  - intros [= <- <-]. etrans; [exact H0|]. etrans; [exact Hp|]. apply tell_same.
  - destruct b; [|done]. destruct (perform answer h1 (Wal_Replay StartCtx)) as [h2 ?] eqn:Hp2; apply perform_same in Hp2.
    intros [= <- <-]. etrans; [exact H0|]. etrans; [exact Hp|]. etrans; [exact Hp2|]. apply tell_same.
Qed.

Create HintDb app.
#[local] Hint Resolve hook_tell_quiet hook_tell_total start_eventlog_quiet start_discovery_quiet stop_server_quiet stop_server_total start_snapshot_quiet : app.

(** ** The wired components *)

Lemma only_if_Forall {X} (P : X → Prop) b l : Forall P l → Forall P (only_if b l).
Proof. by destruct b. Qed.

(** What holds of every component that can be wired holds of those that are. *)
Lemma wired_Forall (P : component → Prop) m cfg wal_ok :
  Forall P [tracing_component answer; metrics_component answer; eventlog_component answer; topicmanager_component answer; wal_component answer;
    snapshot_component answer wal_ok; gateway_component answer; exchange_component answer; redis_publisher_component answer; pipeline_component answer;
    redis_subscriber_component answer; router_component answer; discovery_component answer (GetGatewayID (cf_Server cfg)); routing_component answer;
    server_component answer] →
  Forall P (wired_components answer m cfg wal_ok).
Proof.
  intros H. repeat (apply Forall_cons in H as [? H]). unfold wired_components.
  repeat (apply Forall_app_2 || apply only_if_Forall || apply Forall_cons_2 || apply Forall_nil_2); done.
Qed.

Lemma wired_ok m cfg wal_ok : Forall component_ok (wired_components answer m cfg wal_ok).
Proof.
  apply wired_Forall. unfold discovery_component, stop_discovery.
  repeat (apply Forall_cons_2; [split; [intros f Hf; simplify_eq/=; auto with app|eexists; split_and!; [reflexivity|auto with app|auto with app]]|]).
  apply Forall_nil_2.
Qed.

Definition orders : list (string * Z) :=
  [("tracing", 5); ("metrics", 10); ("event-log", 11); ("wal", 12); ("redis-publisher", 15); ("topic-manager", 20); ("snapshot-service", 25);
   ("redis-subscriber", 25); ("distributed-router-background", 26); ("service-discovery", 28); ("routing-engine", 29); ("websocket-gateway", 30);
   ("exchange-manager", 40); ("pipeline", 50); ("http-server", 60)].
Definition order_of (name : string) : option Z := snd <$> find (λ p, String.eqb p.1 name) orders.
Lemma wired_orders m cfg wal_ok : Forall (λ c, order_of (c_name c) = Some (c_order c)) (wired_components answer m cfg wal_ok).
Proof. apply wired_Forall. repeat (apply Forall_cons_2; [done|]). apply Forall_nil_2. Qed.

Lemma wired_names m cfg wal_ok : NoDup (c_name <$> wired_components answer m cfg wal_ok).
Proof.
  unfold wired_components, feeds, serves.
  destruct (db_Enabled _), (rd_Enabled _), (fd_Enabled _), (dc_Enabled _), wal_ok, m; cbn; by apply (bool_decide_unpack _).
Qed.

(** ** Starting and stopping *)

Lemma starting_line h n : starting (h ++ [Starting n]) = starting h ++ [n] ∧ stopping (h ++ [Starting n]) = stopping h.
Proof. unfold starting, stopping. by rewrite !omap_app, app_nil_r. Qed.
Lemma stopping_line h n : starting (h ++ [Stopping n]) = starting h ∧ stopping (h ++ [Stopping n]) = stopping h ++ [n].
Proof. unfold starting, stopping. by rewrite !omap_app, app_nil_r. Qed.

(** The loop logs the components in turn, up to one that fails. *)
Lemma start_components_lines cs h st h' st' err :
  Forall component_ok cs → start_components h st cs = Ret (h', st', err) →
  stopping h' = stopping h ∧ (∃ k, starting h' = starting h ++ take k (c_name <$> cs)) ∧
  (err = None → starting h' = starting h ++ (c_name <$> cs) ∧ st' = st ++ (c_name <$> cs)).
Proof.
  revert h st. induction cs as [|c cs IH]; intros h st Hok; cbn.
  { intros [= <- <- <-]. split_and!; [done|exists 0%nat; by rewrite app_nil_r|by rewrite !app_nil_r]. }
  apply Forall_cons in Hok as [Hc Hok]. destruct (starting_line h (c_name c)) as [HS HT].
  assert (Hq : ∀ h1 e, match c_start c with Some f => f (h ++ [Starting (c_name c)]) | None => Ret (h ++ [Starting (c_name c)], None) end = Ret (h1, e) →
    same_lines (h ++ [Starting (c_name c)]) h1).
  { intros h1 e. destruct (c_start c) as [f|] eqn:Ef; [by apply (ok_start _ Hc)|]. by intros [= <- <-]. }
  destruct (match c_start c with Some _ => _ | None => _ end) as [[h1 [e|]]|]; [| |done];
    destruct (Hq _ _ eq_refl) as [Q1 Q2]; rewrite HS in Q1; rewrite HT in Q2.
  - intros [= <- <- <-]. split_and!; [done|exists 1%nat; by rewrite Q1|done].
  - intros H. apply IH in H as (H1 & [k Hk] & H3); [|done]. rewrite Q1 in Hk, H3. split_and!; [congruence| |].
    + exists (S k). by rewrite Hk, <-app_assoc.
    + intros He. destruct (H3 He) as [-> ->]. by rewrite <- !app_assoc.
Qed.

(** Only a hook can make it panic. *)
Lemma start_components_panic cs h st :
  start_components h st cs = Panic → ∃ c f h0, c ∈ cs ∧ c_start c = Some f ∧ f h0 = Panic.
Proof.
  revert h st. induction cs as [|c cs IH]; intros h st; cbn; [done|].
  destruct (c_start c) as [f|] eqn:Hf.
  - destruct (f (h ++ [Starting (c_name c)])) as [[h' [e|]]|] eqn:E; [done| |].
    + intros H. destruct (IH _ _ H) as (d & g & h0 & ? & ? & ?). exists d, g, h0. set_solver.
    + intros _. exists c, f, (h ++ [Starting (c_name c)]). set_solver.
  - intros H. destruct (IH _ _ H) as (d & g & h0 & ? & ? & ?). exists d, g, h0. set_solver.
Qed.

Lemma componentMap_lookup cs m c :
  NoDup (c_name <$> cs) → c ∈ cs → fold_left put_component cs m !! c_name c = Some c.
Proof.
  revert m. induction cs as [|d cs IH]; intros m Hn Hin; [by apply elem_of_nil in Hin|]. cbn in *.
  apply NoDup_cons in Hn as [Hd Hn]. apply elem_of_cons in Hin as [->|Hin]; [|by apply IH].
  assert (Hk : ∀ m', m' !! c_name d = Some d → fold_left put_component cs m' !! c_name d = Some d).
  { clear -Hd. induction cs as [|e cs IH]; intros m' Hm; [done|]. cbn in *. apply not_elem_of_cons in Hd as [He Hd].
    apply IH; [done|]. unfold put_component. by rewrite lookup_insert_ne by done. }
  apply Hk. unfold put_component. by rewrite lookup_insert_eq.
Qed.

Lemma stop_components_lines cm names h :
  (∀ n, n ∈ names → ∃ c, cm !! n = Some c ∧ component_ok c) →
  ∃ h', stop_components cm h names = Ret h' ∧ starting h' = starting h ∧ stopping h' = stopping h ++ names.
Proof.
  revert h. induction names as [|n names IH]; intros h Hc; cbn.
  { exists h. by rewrite app_nil_r. }
  destruct (Hc n) as (c & Hn & Hok); [set_solver|]. rewrite Hn. destruct (ok_stop _ Hok) as (f & Hf & Hq & Ht).
  destruct c; cbn in Hf; subst. destruct (Ht (h ++ [Stopping n])) as (h1 & e & H1). rewrite H1.
  destruct (IH h1) as (h' & -> & HS & HT); [set_solver|]. exists h'. split; [done|].
  destruct (Hq _ _ _ H1) as [Q1 Q2], (stopping_line h n) as [L1 L2].
  rewrite HS, HT, Q1, Q2, L1, L2. by rewrite <-app_assoc.
Qed.

Lemma shutdown_lines a sorted h :
  Forall component_ok (ap_components a) → NoDup (c_name <$> ap_components a) → sorted ≡ₚ ap_components a →
  ap_started a = c_name <$> sorted →
  ∃ h', shutdown a h = Ret h' ∧ starting h' = starting h ∧ stopping h' = stopping h ++ reverse (c_name <$> sorted).
Proof.
  intros Hok Hn Hp Hs. unfold shutdown. rewrite Hs. apply stop_components_lines. intros n Hin.
  rewrite elem_of_reverse in Hin. apply list_elem_of_fmap in Hin as (c & -> & Hin).
  exists c. rewrite Hp in Hin. split; [by apply componentMap_lookup|]. by eapply Forall_forall in Hok.
Qed.

(** ** The invariant of a run *)

(** [a0] is what was wired; what the run knows of it does not change, but for what has
    been started. *)
Record run_inv (a0 : App) (sorted : list component) (s : RunState) : Prop := {
  ri_components : ap_components (r_app s) = ap_components a0;
  ri_start : r_pc s = RStart → r_app s = a0 ∧ r_hist s = [] ∧ r_err s = None ∧ r_server s = Running ∧ r_closing s = false;
  ri_prefix : starting (r_hist s) `prefix_of` (c_name <$> sorted);
  ri_wait : r_pc s = RWait → starting (r_hist s) = c_name <$> sorted ∧ ap_started (r_app s) = c_name <$> sorted;
  ri_done : r_pc s = RDone None → r_cancelled s = true ∧ starting (r_hist s) = c_name <$> sorted ∧ stopping (r_hist s) = reverse (c_name <$> sorted);
  ri_quiet : r_pc s ≠ RDone None → stopping (r_hist s) = [];
  ri_closing : r_closing s = true → runCtx_done s = true;
  ri_server : r_server s = Returned None → r_closing s = true;
  ri_failed : ∀ e, r_server s = Returned (Some e) → is_Some (r_err s);
  ri_panic : r_pc s = RPanic → ∃ c f h, c ∈ ap_components a0 ∧ c_start c = Some f ∧ f h = Panic;
}.

Lemma first_err_is_Some s err : is_Some (r_err s) → is_Some (first_err s err).
Proof. unfold first_err. intros [e ->]. by eexists. Qed.
Lemma runCtx_done_true s : runCtx_done s = true ↔ r_cancelled s = true ∨ is_Some (r_err s).
Proof. unfold runCtx_done. rewrite orb_true_iff. destruct (r_err s); naive_solver. Qed.

Lemma after_startup_same a h : same_lines h (after_startup answer a h).
Proof. unfold after_startup. destruct (ap_redisSub a), (ap_registry a); repeat (etrans; [|apply tell_same]); done. Qed.

Lemma Run_start_inv a0 sorted s :
  Forall component_ok (ap_components a0) → sortComponents (ap_components a0) sorted →
  r_pc s = RStart → ap_started a0 = [] → run_inv a0 sorted s → run_inv a0 sorted (Run_start answer s sorted).
Proof.
  intros Hok [Hp _] Hpc Hst I. destruct (ri_start _ _ _ I Hpc) as (Ha & Hh & He & Hsv & Hcl).
  assert (Hok' : Forall component_ok sorted) by (by rewrite Hp).
  unfold Run_start, startup. rewrite Ha, Hh.
  destruct (start_components [] (ap_started a0) sorted) as [[[h st] [e|]]|] eqn:E.
  - apply start_components_lines in E as (H1 & [k H2] & _); [|done].
    constructor; cbn; try done. exists (drop k (c_name <$> sorted)). rewrite H2. exact (eq_sym (take_drop _ _)).
  - apply start_components_lines in E as (H1 & _ & H3); [|done]. destruct (H3 eq_refl) as [H4 H5]. rewrite Hst in H5.
    destruct (after_startup_same (with_started a0 st) h) as [Q1 Q2]; cbn in *.
    constructor; cbn; try done; [by rewrite Q1, H4|intros _; by rewrite Q1, H4|intros _; by rewrite Q2, H1].
  - constructor; cbn; try done; [by apply prefix_nil|]. intros _.
    apply start_components_panic in E as (c & f & h & Hin & Hf & Hh'). exists c, f, h. by rewrite <-Hp.
Qed.

(** While the group runs only its own part of the state changes. *)
Lemma run_wait_frame a0 sorted s s' :
  run_inv a0 sorted s → r_pc s = RWait → r_pc s' = RWait → r_app s' = r_app s → same_lines (r_hist s) (r_hist s') →
  (r_closing s' = true → runCtx_done s' = true) → (r_server s' = Returned None → r_closing s' = true) →
  (∀ e, r_server s' = Returned (Some e) → is_Some (r_err s')) →
  run_inv a0 sorted s'.
Proof.
  intros I Hpc Hpc' Ha [HS HT] Hc Hsv Hf. destruct (ri_wait _ _ _ I Hpc) as [W1 W2].
  constructor; rewrite ?Ha, ?HS, ?HT, ?Hpc'; try done.
  - apply (ri_components _ _ _ I).
  - apply (ri_prefix _ _ _ I).
  - intros _. apply (ri_quiet _ _ _ I). by rewrite Hpc.
Qed.

Lemma runCtx_done_grows s err : runCtx_done s = true → r_cancelled s = true ∨ is_Some (first_err s err).
Proof. rewrite runCtx_done_true. intros [?|?]; [by left|right; by apply first_err_is_Some]. Qed.

Lemma Run_end_inv a0 sorted s :
  Forall component_ok (ap_components a0) → NoDup (c_name <$> ap_components a0) → sorted ≡ₚ ap_components a0 →
  run_inv a0 sorted s → r_pc s = RWait → all_returned s → run_inv a0 sorted (Run_end answer s).
Proof.
  intros Hok Hn Hp I Hpc [[e He] _]. destruct (ri_wait _ _ _ I Hpc) as [W1 W2]. pose proof (ri_components _ _ _ I) as C.
  assert (Hq : stopping (r_hist s) = []) by (apply (ri_quiet _ _ _ I); by rewrite Hpc).
  unfold Run_end. destruct (r_err s) as [err|] eqn:Ee.
  - constructor; cbn; try done; try apply I. intros H. apply runCtx_done_true. cbn. right. by eexists.
  - destruct (shutdown_lines (r_app s) sorted (tell answer (r_hist s) (SetHealthy false))) as (h' & -> & S1 & S2);
      [by rewrite C|by rewrite C|by rewrite C|done|].
    destruct (tell_same (r_hist s) (SetHealthy false)) as [T1 T2]. rewrite T1, W1 in S1. rewrite T2, Hq in S2.
    assert (Hcan : r_cancelled s = true).
    { destruct e as [e|]; [destruct (ri_failed _ _ _ I _ He) as [? E]; congruence|].
      apply (ri_server _ _ _ I), (ri_closing _ _ _ I), runCtx_done_true in He as [?|[? E]]; [done|congruence]. }
    constructor; cbn; try done; try apply I.
    + by rewrite S1.
    + intros _. apply runCtx_done_true. by left.
    + intros e0 H. destruct (ri_failed _ _ _ I _ H). congruence.
Qed.

Lemma run_step_inv a0 sorted s s' :
  Forall component_ok (ap_components a0) → NoDup (c_name <$> ap_components a0) → sorted ≡ₚ ap_components a0 →
  run_inv a0 sorted s → r_pc s ≠ RStart → run_step answer s s' → run_inv a0 sorted s'.
Proof.
  intros Hok Hn Hp I Hne Hstep. pose proof (ri_closing _ _ _ I) as I7. pose proof (ri_server _ _ _ I) as I8. pose proof (ri_failed _ _ _ I) as I9.
  destruct Hstep as [| s | s e Hpc Hsv | s Hpc Hcl Hd | s Hpc Hsv Hcl | s e Hpc Hpp | s Hpc Hpp | s Hpc Hall]; [done|..];
    [|eapply run_wait_frame; try done; cbn..|by apply Run_end_inv].
  - destruct I. constructor; cbn; try done. naive_solver.
  - intros H. apply runCtx_done_true. cbn. by apply runCtx_done_grows, I7.
  - intros e0 _. unfold first_err. destruct (r_err s); by eexists.
  - apply tell_same.
  - intros H. apply runCtx_done_true. cbn. by apply runCtx_done_grows, I7.
  - intros H. apply runCtx_done_true. cbn. by apply runCtx_done_grows, I7.
  - intros e0 H. by eapply first_err_is_Some, I9.
  - intros H. apply runCtx_done_true. cbn. by apply runCtx_done_grows, I7.
  - intros e0 H. by eapply first_err_is_Some, I9.
Qed.

#[export] Instance by_order_trans : Transitive by_order.
Proof. intros x y z. unfold by_order. lia. Qed.
#[export] Instance by_order_total : Total by_order.
Proof. intros x y. unfold by_order. lia. Qed.

Lemma sortComponents_exists cs : ∃ sorted, sortComponents cs sorted.
Proof. exists (merge_sort by_order cs). split; [apply merge_sort_Permutation|apply StronglySorted_merge_sort; apply _]. Qed.

Lemma Run_init_inv a sorted : run_inv a sorted (Run_init a).
Proof. constructor; cbn; try done. apply prefix_nil. Qed.

(** Before the components are sorted the invariant does not depend on how. *)
Lemma reachable_inv a s :
  Forall component_ok (ap_components a) → NoDup (c_name <$> ap_components a) → ap_started a = [] →
  rtc (run_step answer) (Run_init a) s →
  (r_pc s = RStart ∧ ∀ sorted, run_inv a sorted s) ∨
  (r_pc s ≠ RStart ∧ ∃ sorted, sortComponents (ap_components a) sorted ∧ run_inv a sorted s).
Proof.
  intros Hok Hn Hst. revert s. apply rtc_ind_r; [left; split; [done|]; intros; apply Run_init_inv|]. intros s s' _ Hstep IH.
  destruct IH as [[Hpc IH]|(Hpc & sorted & Hs & I)].
  - inversion Hstep; subst; try congruence.
    + assert (Ha : r_app s = a) by apply (ri_start _ _ _ (IH sorted) Hpc). right. split.
      * unfold Run_start. by destruct (startup _ _ _) as [[[??] [?|]]|].
      * exists sorted. rewrite <-Ha at 1. split; [done|]. rewrite Ha in *. by apply Run_start_inv.
    + left. split; [done|]. intros sorted. destruct (IH sorted). constructor; cbn; try done. naive_solver.
  - right. split; [|exists sorted; split; [done|]; destruct Hs; by eapply run_step_inv].
    inversion Hstep; subst; cbn; try congruence. unfold Run_end. destruct (r_err s); [done|]. by destruct (shutdown _ _).
Qed.

(** The group can always be brought to its end; without an error, by a cancellation. *)
Lemma run_can_end a s :
  Forall component_ok (ap_components a) → NoDup (c_name <$> ap_components a) → ap_started a = [] →
  rtc (run_step answer) (Run_init a) s → r_pc s = RWait → ∃ s', rtc (run_step answer) s s' ∧ r_pc s' = RDone (r_err s).
Proof.
  intros Hok Hn Hst Hr Hpc.
  set (s1 := mkRunState (r_app s) (r_hist s) (r_pc s) true (r_server s) (r_closing s) (r_pipe s) (r_err s)).
  assert (H1 : run_step answer s s1) by constructor.
  assert (∃ s2, rtc (run_step answer) s1 s2 ∧ r_pc s2 = RWait ∧ r_closing s2 = true ∧ r_err s2 = r_err s ∧ r_cancelled s2 = true) as (s2 & H2 & P2 & C2 & E2 & X2).
  { destruct (r_closing s) eqn:Hc; [exists s1; split_and!; [apply rtc_refl|exact Hpc|done|done|done]|].
    exists (begin_closing answer s1). split_and!; [|exact Hpc|done|done|done]. by apply rtc_once, RunClose. }
  assert (∃ s3, rtc (run_step answer) s2 s3 ∧ r_pc s3 = RWait ∧ r_err s3 = r_err s ∧ (∃ e, r_server s3 = Returned e)) as (s3 & H3 & P3 & E3 & V3).
  { destruct (r_server s2) as [|e] eqn:Hv; [|exists s2; split_and!; [apply rtc_refl|done|done|by exists e]]. exists (server_returns s2 None). split; [by apply rtc_once, RunServeClosed|].
    cbn. split_and!; [done| |by eexists]. unfold first_err. rewrite E2. by destruct (r_err s). }
  assert (∃ s4, rtc (run_step answer) s3 s4 ∧ r_pc s4 = RWait ∧ r_err s4 = r_err s ∧ all_returned s4) as (s4 & H4 & P4 & E4 & V4).
  { destruct (decide (r_pipe s3 = Some Running)) as [Hv|Hv]; [|exists s3; split_and!; [apply rtc_refl|done|done|by split]]. exists (pipeline_returns s3 None).
    split; [by apply rtc_once, RunPipelineEnds|]. cbn. split_and!; [done| |by split]. unfold first_err. rewrite E3. by destruct (r_err s). }
  assert (H04 : rtc (run_step answer) s s4) by (eapply rtc_l; [exact H1|]; etrans; [exact H2|]; etrans; [exact H3|exact H4]).
  exists (Run_end answer s4). split; [eapply rtc_r; [exact H04|by apply RunReturns]|].
  destruct (reachable_inv a s4) as [[? _]|(_ & sorted & [Hp _] & I)]; [done..|by etrans|congruence|].
  destruct (ri_wait _ _ _ I P4) as [_ W]. pose proof (ri_components _ _ _ I) as C.
  unfold Run_end. rewrite E4. destruct (r_err s) as [e|]; [done|].
  by destruct (shutdown_lines (r_app s4) sorted (tell answer (r_hist s4) (SetHealthy false))) as (h' & -> & _ & _); [by rewrite C..|done|].
Qed.

(** ** What uses what

    The second component of a pair has the first in its hooks, its publishers or its
    handlers. *)
Definition uses : list (string * string) :=
  [("event-log", "snapshot-service"); ("wal", "snapshot-service"); ("topic-manager", "websocket-gateway"); ("snapshot-service", "websocket-gateway");
   ("wal", "websocket-gateway"); ("event-log", "websocket-gateway"); ("exchange-manager", "pipeline"); ("redis-publisher", "pipeline"); ("wal", "pipeline");
   ("event-log", "pipeline"); ("snapshot-service", "pipeline"); ("topic-manager", "pipeline"); ("topic-manager", "redis-subscriber");
   ("redis-subscriber", "distributed-router-background"); ("service-discovery", "routing-engine"); ("websocket-gateway", "http-server");
   ("event-log", "http-server"); ("service-discovery", "http-server"); ("tracing", "http-server"); ("metrics", "http-server")].

Definition before (x y : string) (l : list string) : Prop := ∃ l1 l2 l3, l = l1 ++ x :: l2 ++ y :: l3.

Lemma sorted_before cs c d :
  StronglySorted by_order cs → c ∈ cs → d ∈ cs → c_order c < c_order d → before (c_name c) (c_name d) (c_name <$> cs).
Proof.
  intros Hs Hc Hd Hlt. apply list_elem_of_split in Hc as (l1 & l2 & ->).
  assert (Hd2 : d ∈ l2).
  { apply elem_of_app in Hd as [Hd|Hd]; [|apply elem_of_cons in Hd as [->|?]; [lia|done]].
    exfalso. assert (H : by_order d c) by (eapply StronglySorted_app_1_elem_of; [exact Hs|done|set_solver]). unfold by_order in H. lia. }
  apply list_elem_of_split in Hd2 as (l3 & l4 & ->).
  exists (c_name <$> l1), (c_name <$> l3), (c_name <$> l4). by rewrite fmap_app, fmap_cons, fmap_app, fmap_cons.
Qed.

Lemma wired_uses m cfg wal_ok sorted x y :
  sortComponents (wired_components answer m cfg wal_ok) sorted → (x, y) ∈ uses → x ∈ (c_name <$> sorted) → y ∈ (c_name <$> sorted) →
  before x y (c_name <$> sorted).
Proof.
  intros [Hp Hs] Hu Hx Hy.
  assert (Ho : Forall (λ c, order_of (c_name c) = Some (c_order c)) sorted) by (rewrite Hp; apply wired_orders).
  apply list_elem_of_fmap in Hx as (c & -> & Hc), Hy as (d & -> & Hd). apply sorted_before; [done..|].
  assert (Hall : Forall (λ p, match order_of p.1, order_of p.2 with Some i, Some j => Z.lt i j | _, _ => False end) uses)
    by (repeat (apply Forall_cons_2; [done|]); apply Forall_nil_2).
  rewrite Forall_forall in Hall. rewrite Forall_forall in Ho. specialize (Hall _ Hu). cbn [fst snd] in Hall. by rewrite (Ho c Hc), (Ho d Hd) in Hall.
Qed.
End lifecycle.

(** A start hook can panic only in a process whose log could not be opened. *)
Lemma wired_start_panics answer m cfg wal_ok c f h :
  c ∈ wired_components answer m cfg wal_ok → c_start c = Some f → f h = Panic → wal_ok = false.
Proof.
  intros Hc Hf Hp. destruct wal_ok; [|done]. exfalso. revert f h Hf Hp. pattern c. revert c Hc. apply Forall_forall, wired_Forall.
  repeat (apply Forall_cons_2; [intros f h Hf Hp; cbn in Hf; simplify_eq;
    unfold start_eventlog, start_snapshot, WAL_Recover, start_discovery, hook_tell, done_with in Hp; repeat case_match; simplify_eq|]).
  apply Forall_nil_2.
Qed.


(** A process in the mode of a gateway over the default configuration with Redis and
    discovery. *)
Definition gateway_config : AppConfig :=
  let c := default_config in
  mkAppConfig (cf_Server c) (mkRedis true "localhost:6379" (NewSecretString "") 0) (cf_Feed c) (cf_Log c) (cf_Metrics c)
    (mkDiscoveryConfig true (30 * Second) (10 * Second)) (cf_Database c) (cf_Snapshot c) (cf_Tracing c) (cf_Adapters c) (cf_Profiling c).
Definition good_env : WireEnv := mkWireEnv None None None None None.
Definition all_nil : history → app_call → option string := λ _ _, None.
Definition no_adapters : option float64 → factories (A := Simulator) := λ _, ∅.
Definition wired_app (answer : history → app_call → option string) (m : Mode) (cfg : AppConfig) (env : WireEnv) : App :=
  match wire answer no_adapters m cfg env with Ok a => a | Err _ => mkApp m cfg false false false false None [] [] [] end.
Definition gateway_app : App := wired_app all_nil ModeGateway gateway_config good_env.

(** Cancelled at once: started, closed and stopped. *)
Definition gateway_sorted : list component := merge_sort by_order (ap_components gateway_app).
Definition gateway_ran : RunState :=
  let s := Run_start all_nil (Run_init gateway_app) gateway_sorted in
  let s := mkRunState (r_app s) (r_hist s) (r_pc s) true (r_server s) (r_closing s) (r_pipe s) (r_err s) in
  Run_end all_nil (server_returns (begin_closing all_nil s) None).

Lemma gateway_runs : rtc (run_step all_nil) (Run_init gateway_app) gateway_ran.
Proof.
  eapply rtc_l; [apply (RunStart _ _ gateway_sorted); [done|]|].
  { split; [apply merge_sort_Permutation|apply StronglySorted_merge_sort; apply _]. }
  eapply rtc_l; [apply RunCancel|]. eapply rtc_l; [by apply RunClose|]. eapply rtc_l; [by apply RunServeClosed|].
  apply rtc_once, RunReturns; [done|]. split; [by eexists|done].
Qed.


(** ** Health *)

Definition unhealthy (p : Probes) (c : component) : bool := match c_health c with Some health => negb (hs_OK (health p)) | None => false end.

Lemma ready_503 report : (handleReady (Some report)).1 = 503 ↔ existsb (λ s, negb (hs_OK s.2)) report = true.
Proof.
  unfold handleReady. destruct (list_find _ report) as [[i s]|] eqn:E; cbn; rewrite existsb_exists.
  - apply list_find_Some in E as (H1 & H2 & _). split; [intros _|done]. exists s. rewrite H2. split; [|done].
    apply list_elem_of_In. by eapply list_elem_of_lookup_2.
  - split; [done|]. intros (s & Hs & Ho). apply list_find_None in E. rewrite Forall_forall in E.
    destruct (E s); [by apply list_elem_of_In|]. by destruct (hs_OK s.2).
Qed.
Lemma report_unhealthy a p : existsb (λ s, negb (hs_OK s.2)) (HealthReport a p) = existsb (unhealthy p) (ap_components a).
Proof.
  unfold HealthReport. induction (ap_components a) as [|c cs IH]; [done|]. cbn. unfold unhealthy at 1.
  destruct (c_health c); cbn; by rewrite IH.
Qed.
Lemma existsb_only_if {X} (f : X → bool) b l : existsb f (only_if b l) = b && existsb f l.
Proof. by destruct b. Qed.

(** All but the two are at most degraded. *)
Lemma others_healthy answer id wal_ok p :
  Forall (λ c, unhealthy p c = false) [tracing_component answer; metrics_component answer; eventlog_component answer; topicmanager_component answer;
    wal_component answer; snapshot_component answer wal_ok; gateway_component answer; exchange_component answer; pipeline_component answer;
    router_component answer; discovery_component answer id; routing_component answer; server_component answer].
Proof. repeat (apply Forall_cons_2; [unfold unhealthy; cbn; by repeat case_match|]). apply Forall_nil_2. Qed.

Lemma wired_unhealthy answer m cfg wal_ok p :
  existsb (unhealthy p) (wired_components answer m cfg wal_ok) =
    rd_Enabled (cf_Redis cfg) && (feeds m cfg && bool_decide (is_Some (pr_redisPing p)) || serves m && pr_subStale p).
Proof.
  assert (Hp : unhealthy p (redis_publisher_component answer) = bool_decide (is_Some (pr_redisPing p))) by (unfold unhealthy; cbn; by destruct (pr_redisPing p)).
  assert (Hs : unhealthy p (redis_subscriber_component answer) = pr_subStale p) by (unfold unhealthy; cbn; by destruct (pr_subStale p)).
  pose proof (others_healthy answer (GetGatewayID (cf_Server cfg)) wal_ok p) as H. repeat (apply Forall_cons in H as [? H]).
  unfold wired_components. rewrite !existsb_app, !existsb_only_if, !existsb_app, existsb_only_if. cbn [existsb].
  repeat match goal with E : unhealthy _ _ = _ |- _ => rewrite E; clear E end.
  by destruct (db_Enabled _), (rd_Enabled _), (feeds _ _), (serves _), (dc_Enabled _), wal_ok, (pr_subStale p), (bool_decide _).
Qed.

(** [/ready] answers 503 exactly when the publisher of the process cannot reach Redis or
    its subscriber has stale data; every other component is at most degraded. *)
Lemma ready_unless_redis_fails {A} `{!ExchangeAdapter A} (adapters : option float64 → factories (A := A)) answer m cfg env a p :
  wire answer adapters m cfg env = Ok a →
  (handleReady (Some (HealthReport a p))).1 = 503 ↔
    rd_Enabled (cf_Redis cfg) = true ∧ ((feeds m cfg = true ∧ is_Some (pr_redisPing p)) ∨ (serves m = true ∧ pr_subStale p = true)).
Proof.
  intros Hw. assert (Hc : ap_components a = wired_components answer m cfg (match we_wal env with None => true | Some _ => false end))
    by (unfold wire in Hw; repeat case_match; by simplify_eq/=).
  rewrite ready_503, report_unhealthy, Hc, wired_unhealthy, andb_true_iff, orb_true_iff, !andb_true_iff, bool_decide_eq_true. done.
Qed.

(** ** Deviations *)

(** When a component cannot be started, those that were are left running: here the
    registration of the gateway fails, after five components have been started. *)
Definition register_fails : history → app_call → option string := λ _ c, match c with Registry_Register _ _ => Some "refused" | _ => None end.
Definition failed_start : RunState :=
  let a := wired_app register_fails ModeGateway gateway_config good_env in
  Run_start register_fails (Run_init a) (merge_sort by_order (ap_components a)).
Lemma failed_start_leaves_running :
  r_pc failed_start = RDone (Some "startup failed: start service-discovery: discovery register: refused") ∧
  Called (Snap_Start StartCtx) ∈ r_hist failed_start ∧ ¬ (Called Snap_Stop ∈ r_hist failed_start) ∧
  stopping (r_hist failed_start) = [] ∧ (5 < length (ap_started (r_app failed_start)))%nat.
Proof.
  split; [vm_compute; reflexivity|]. split; [|split; [|vm_compute; split; [reflexivity|lia]]].
  - apply list_elem_of_In. vm_compute. tauto.
  - rewrite list_elem_of_In. vm_compute. intuition discriminate.
Qed.

(** When the server fails, [Run] returns its error and nothing is stopped: the gateway
    stays registered, its clients are not drained, the log is not closed. *)
Lemma failed_server_skips_shutdown s e :
  r_pc s = RWait → r_server s = Running → r_pipe s = None → r_err s = None →
  let s' := Run_end all_nil (server_returns s (Some ("http server: " +:+ e))) in
  r_pc s' = RDone (Some ("http server: " +:+ e)) ∧ r_hist s' = r_hist s.
Proof. intros Hpc Hsv Hpp He. unfold Run_end, server_returns, first_err; cbn. by rewrite He. Qed.

(** A gateway whose log cannot be opened is wired and panics when it is started: the
    failed constructor leaves a nil pointer in a variable that is then compared with
    nil as an interface, so that the recovery from the log is chosen. *)
Definition no_log : WireEnv := mkWireEnv None None (Some "permission denied") None None.
Lemma missing_log_panics :
  let a := wired_app all_nil ModeGateway gateway_config no_log in
  ap_gateway a = true ∧ r_pc (Run_start all_nil (Run_init a) (merge_sort by_order (ap_components a))) = RPanic.
Proof. vm_compute. split; reflexivity. Qed.

(** The loops of the snapshot service, the reconciler and the routing engine get the
    context of the startup, which is done after ten seconds; by default the first
    periodic checkpoint would be after thirty. The Redis subscriber and the heartbeat
    get the context of the run. *)
Lemma startup_context_ends_loops :
  Called (Snap_Start StartCtx) ∈ r_hist gateway_ran ∧ Called (Router_StartReconciler StartCtx (5 * Second)) ∈ r_hist gateway_ran ∧
  Called (Engine_Start StartCtx) ∈ r_hist gateway_ran ∧ Called (RedisSub_Start RunCtx) ∈ r_hist gateway_ran ∧
  startup_timeout < sn_CheckpointInterval (cf_Snapshot gateway_config).
Proof. rewrite !list_elem_of_In. split_and!; [vm_compute; tauto..|done]. Qed.

(** The interval of the feed is handed to the simulator in whole milliseconds: one below
    a millisecond becomes zero, which the simulator refuses. In benchmark mode it is a
    hundred microseconds. *)
Definition feed_with (interval : Z) (benchmark : bool) : FeedConfig := mkFeed true ["AAPL"] 0 interval benchmark.
Lemma sub_millisecond_interval_is_refused conv_other :
  simulator_factory conv_other (legacy_tick_interval (feed_with (500 * Microsecond) false)) = Err "simulator: TickInterval must be positive".
Proof. vm_compute. reflexivity. Qed.
Lemma benchmark_interval conv_other s :
  simulator_factory conv_other (legacy_tick_interval (feed_with 0 true)) = Ok s → si_TickInterval (sim_cfg s) = 100 * Microsecond.
Proof. vm_compute. by intros [= <-]. Qed.

(** A process without a pipeline never marks the heartbeat that it was created with: its
    liveness probe fails after ten seconds, although nothing is wrong. *)
Lemma gateway_liveness_fails now :
  ap_pipeline gateway_app = None ∧ (0 < now → in_i64 (now + 10 * Second) → handleLiveness (Some (Mark now)) (now + 10 * Second) = 503).
Proof.
  split; [vm_compute; reflexivity|]. intros H0 Hr. unfold handleLiveness, Mark.
  assert (Hd : IsAlive now (now + 10 * Second) (10 * Second) = false); [|by rewrite Hd].
  apply not_true_is_false. rewrite heartbeat_alive; [lia|lia|]. unfold in_i64 in *. unfold Second, Millisecond, Microsecond in *. lia.
Qed.

(** The snapshot publisher comes before the log, the log before the table, the table
    before the bus. *)
Lemma publisher_chain m cfg wal_ok :
  serves m = true → db_Enabled (cf_Database cfg) = true → rd_Enabled (cf_Redis cfg) = true → fd_BenchmarkMode (cf_Feed cfg) = false →
  wire_publisher m cfg wal_ok = [LSnapshot; LWal wal_ok; LPersisting; LRedis 4 8192].
Proof. unfold wire_publisher. by intros -> -> -> ->. Qed.
