(* ===== verification/LoadTest.v ===== *)
(** * LoadTest: measuring a deployment

    [internal/loadtest]: the collector of latencies, whose aggregates are updated by
    compare-and-swap loops and whose samples are spread over shards, with the statistics
    that are computed from them; and the pool that connects its clients and counts what
    they receive. Every atomic operation of a call is a step, so that any number of calls
    interleave. Connections, the clock and printing are the environment. *)

From Stdlib Require Import Floats.SpecFloat.
From S2P Require Import Prelude Float64 RateLimit Normalization.

(** ** The collector (latency.go) *)

Definition shardCount : nat := 16.
Definition MaxInt64 : Z := 2 ^ 63 - 1.

Record LatencyCollector := mkCollector { lc_min : Z; lc_max : Z; lc_sum : Z; lc_total : Z; lc_shards : list (list Z) }.

Definition NewLatencyCollector : LatencyCollector := mkCollector MaxInt64 0 0 0 (replicate shardCount []).

Definition set_min (lc : LatencyCollector) (v : Z) : LatencyCollector := mkCollector v (lc_max lc) (lc_sum lc) (lc_total lc) (lc_shards lc).
Definition set_max (lc : LatencyCollector) (v : Z) : LatencyCollector := mkCollector (lc_min lc) v (lc_sum lc) (lc_total lc) (lc_shards lc).
Definition add_sum (lc : LatencyCollector) (ns : Z) : LatencyCollector :=
  mkCollector (lc_min lc) (lc_max lc) (i64 (lc_sum lc + ns)) (lc_total lc) (lc_shards lc).
Definition add_total (lc : LatencyCollector) : LatencyCollector := mkCollector (lc_min lc) (lc_max lc) (lc_sum lc) (i64 (lc_total lc + 1)) (lc_shards lc).
Definition append_sample (lc : LatencyCollector) (shard : nat) (d : Z) : LatencyCollector :=
  mkCollector (lc_min lc) (lc_max lc) (lc_sum lc) (lc_total lc) (alter (λ l, l ++ [d]) shard (lc_shards lc)).

(** Where a call of [Record] is: before the load of a loop, or before its
    compare-and-swap with the value it loaded. *)
Inductive record_pc := RMin | RMinCAS (old : Z) | RMax | RMaxCAS (old : Z) | RSum | RTotal | RAppend | RDone.

(** One atomic operation of a call; [shard] is picked from the address of the argument. *)
Definition record_step (lc : LatencyCollector) (d : Z) (pc : record_pc) (shard : nat) : LatencyCollector * record_pc :=
  match pc with
  | RMin => (lc, if lc_min lc <=? d then RMax else RMinCAS (lc_min lc))
  | RMinCAS old => if lc_min lc =? old then (set_min lc d, RMax) else (lc, RMin)
  | RMax => (lc, if d <=? lc_max lc then RSum else RMaxCAS (lc_max lc))
  | RMaxCAS old => if lc_max lc =? old then (set_max lc d, RSum) else (lc, RMax)
  | RSum => (add_sum lc d, RTotal)
  | RTotal => (add_total lc, RAppend)
  | RAppend => (append_sample lc shard d, RDone)
  | RDone => (lc, RDone)
  end.

Record Recording := mkRecording { rc_collector : LatencyCollector; rc_calls : list (Z * record_pc) }.
Inductive recording_step (s : Recording) : Recording → Prop :=
  | rec_call l d pc r shard lc pc' :
      rc_calls s = l ++ (d, pc) :: r → pc ≠ RDone → (shard < shardCount)%nat →
      record_step (rc_collector s) d pc shard = (lc, pc') →
      recording_step s (mkRecording lc (l ++ (d, pc') :: r)).
Definition recording_init (ds : list Z) : Recording := mkRecording NewLatencyCollector ((λ d, (d, RMin)) <$> ds).

(** ** Statistics *)

(** [int(math.Ceil(x))] for a finite x. *)
Definition ceil_int (conv_other : float64 → Z) (x : float64) : Z :=
  let z := int64_of conv_other x in if f64_ltb (f64_of_Z z) x then z + 1 else z.
Definition percentileIndex (conv_other : float64 → Z) (n : Z) (pct : float64) : Z :=
  let idx := ceil_int conv_other (f64_mul pct (f64_of_Z n)) - 1 in
  let idx := if idx <? 0 then 0 else idx in
  if n <=? idx then n - 1 else idx.

(** The float64 nearest to 0.5, 0.95, 0.99 and 0.999. *)
Definition f64_0_50 : float64 := f64_lit 1 (-1).
Definition f64_0_95 : float64 := f64_lit 8556839292003942 (-53).
Definition f64_0_99 : float64 := f64_lit 8917127262193582 (-53).
Definition f64_0_999 : float64 := f64_lit 8998192055486251 (-53).

Record LatencyStats := mkStats { ls_Min : Z; ls_Max : Z; ls_Mean : Z; ls_P50 : Z; ls_P95 : Z; ls_P99 : Z; ls_P999 : Z; ls_Count : Z }.
Definition zero_stats : LatencyStats := mkStats 0 0 0 0 0 0 0 0.

(** [Stats]; the index of a percentile is in the range of the slice. *)
Definition LatencyCollector_Stats (conv_other : float64 → Z) (lc : LatencyCollector) : LatencyStats :=
  if lc_total lc =? 0 then zero_stats
  else
    let all := merge_sort Z.le (concat (lc_shards lc)) in
    let n := Z.of_nat (length all) in
    if n =? 0 then mkStats (lc_min lc) (lc_max lc) 0 0 0 0 0 (lc_total lc)
    else
      let at_ pct := default 0 (all !! Z.to_nat (percentileIndex conv_other n pct)) in
      mkStats (lc_min lc) (lc_max lc) (Z.quot (lc_sum lc) n) (at_ f64_0_50) (at_ f64_0_95) (at_ f64_0_99) (at_ f64_0_999) (lc_total lc).

(** ** The reference: statistics of the samples *)

Definition least (ds : list Z) : Z := foldr Z.min MaxInt64 ds.
(** The maximum starts at zero. *)
Definition greatest (ds : list Z) : Z := foldr Z.max 0 ds.
Definition total_of (ds : list Z) : Z := foldr Z.add 0 ds.

Definition stats_of (conv_other : float64 → Z) (ds : list Z) : LatencyStats :=
  match ds with
  | [] => zero_stats
  | _ =>
      let all := merge_sort Z.le ds in
      let n := Z.of_nat (length ds) in
      let at_ pct := default 0 (all !! Z.to_nat (percentileIndex conv_other n pct)) in
      mkStats (least ds) (greatest ds) (Z.quot (i64 (total_of ds)) n) (at_ f64_0_50) (at_ f64_0_95) (at_ f64_0_99) (at_ f64_0_999) n
  end.

(** ** Every interleaving of calls *)

(** The stages that a call has passed. *)
Definition past_min (c : Z * record_pc) : bool := match c.2 with RMin | RMinCAS _ => false | _ => true end.
Definition past_max (c : Z * record_pc) : bool := match c.2 with RMin | RMinCAS _ | RMax | RMaxCAS _ => false | _ => true end.
Definition past_sum (c : Z * record_pc) : bool := match c.2 with RTotal | RAppend | RDone => true | _ => false end.
Definition past_total (c : Z * record_pc) : bool := match c.2 with RAppend | RDone => true | _ => false end.
Definition sample_kept (c : Z * record_pc) : bool := match c.2 with RDone => true | _ => false end.

(** The samples of the calls that have passed a stage. *)
Definition taken_by (stage : Z * record_pc → bool) (cs : list (Z * record_pc)) : list Z := (filter (λ c, stage c = true) cs).*1.

Lemma taken_by_app stage l c r : taken_by stage (l ++ c :: r) ≡ₚ (if stage c then [c.1] else []) ++ taken_by stage (l ++ r).
Proof.
  unfold taken_by. rewrite !filter_app, !fmap_app, filter_cons. destruct (stage c) eqn:E.
  - rewrite decide_True by done. cbn. by rewrite Permutation_middle.
  - by rewrite decide_False by done.
Qed.

#[export] Instance least_perm : Proper ((≡ₚ) ==> (=)) least.
Proof. intros l l' H. unfold least. induction H; cbn; [done|congruence|lia|congruence]. Qed.
#[export] Instance greatest_perm : Proper ((≡ₚ) ==> (=)) greatest.
Proof. intros l l' H. unfold greatest. induction H; cbn; [done|congruence|lia|congruence]. Qed.
#[export] Instance total_of_perm : Proper ((≡ₚ) ==> (=)) total_of.
Proof. intros l l' H. unfold total_of. induction H; cbn; [done|congruence|lia|congruence]. Qed.

(** What a pending compare-and-swap has seen is worse than the sample. *)
Definition pc_ok (c : Z * record_pc) : Prop := match c.2 with RMinCAS old => c.1 < old | RMaxCAS old => old < c.1 | _ => True end.

Record recording_inv (ds : list Z) (s : Recording) : Prop := {
  ri_calls : (rc_calls s).*1 = ds;
  ri_pcs : Forall pc_ok (rc_calls s);
  ri_min : lc_min (rc_collector s) = least (taken_by past_min (rc_calls s));
  ri_max : lc_max (rc_collector s) = greatest (taken_by past_max (rc_calls s));
  ri_sum : lc_sum (rc_collector s) = i64 (total_of (taken_by past_sum (rc_calls s)));
  ri_total : lc_total (rc_collector s) = i64 (Z.of_nat (length (taken_by past_total (rc_calls s))));
  ri_shards : length (lc_shards (rc_collector s)) = shardCount;
  ri_samples : concat (lc_shards (rc_collector s)) ≡ₚ taken_by sample_kept (rc_calls s);
}.

Lemma concat_alter (k : nat) (x : Z) ls : (k < length ls)%nat → concat (alter (λ l, l ++ [x]) k ls) ≡ₚ x :: concat ls.
Proof.
  revert k. induction ls as [|l ls IH]; intros k Hk; [cbn in Hk; lia|]. destruct k as [|k]; cbn in *.
  - rewrite <- app_assoc. symmetry. apply Permutation_middle.
  - change (list_alter (λ l, l ++ [x]) k ls) with (alter (λ l, l ++ [x]) k ls). rewrite IH by lia. symmetry. apply Permutation_middle.
Qed.

Lemma recording_step_inv ds s s' : recording_inv ds s → recording_step s s' → recording_inv ds s'.
Proof.
  intros I [l d pc r shard lc pc' Hc Hpc Hk Hs]. destruct I as [I1 I2 I3 I4 I5 I6 I7 I8].
  rewrite Hc in I1, I2, I3, I4, I5, I6, I8. rewrite taken_by_app in I3, I4, I5, I6, I8.
  apply Forall_app in I2 as [Fl F2]. apply Forall_cons in F2 as [Fc Fr].
  assert (Hcalls : (l ++ (d, pc') :: r).*1 = ds) by (rewrite <- I1, !fmap_app; done).
  constructor; cbn [rc_calls rc_collector]; rewrite ?taken_by_app; [done|..].
  - apply Forall_app. split; [done|]. apply Forall_cons. split; [|done].
    destruct pc; cbn in Hs; repeat case_match; simplify_eq; unfold pc_ok; cbn; try done; lia.
  - destruct pc; cbn in *; repeat case_match; simplify_eq; cbn in *; try done; lia.
  - destruct pc; cbn in *; repeat case_match; simplify_eq; cbn in *; try done; lia.
  - destruct pc; cbn in *; repeat case_match; simplify_eq; cbn in *; try done. rewrite I5, i64_add. f_equal. lia.
  - destruct pc; cbn in *; repeat case_match; simplify_eq; cbn in *; try done. rewrite I6, i64_add. f_equal. lia.
  - destruct pc; cbn in *; repeat case_match; simplify_eq; cbn in *; try done. by rewrite length_alter.
  - destruct pc; cbn in *; repeat case_match; simplify_eq; cbn in *; try done. by rewrite concat_alter, I8 by (rewrite I7; done).
Qed.

Lemma recording_init_inv ds : recording_inv ds (recording_init ds).
Proof.
  assert (Ht : ∀ stage, (∀ d, stage (d, RMin) = false) → taken_by stage ((λ d, (d, RMin)) <$> ds) = []).
  { intros stage Hst. unfold taken_by. induction ds as [|d ds IH]; [done|]. cbn. rewrite decide_False by (by rewrite Hst). apply IH. }
  constructor; cbn -[taken_by least greatest total_of]; rewrite ?Ht by done; try done.
  - rewrite <- list_fmap_compose. apply list_fmap_id.
  - apply Forall_fmap. by apply Forall_true.
Qed.
Lemma recording_reachable_inv ds s : rtc recording_step (recording_init ds) s → recording_inv ds s.
Proof. revert s. apply rtc_ind_r; [apply recording_init_inv|]. intros s s' _ Hs I. by eapply recording_step_inv. Qed.

Lemma taken_by_all stage cs : Forall (λ c, stage c = true) cs → taken_by stage cs = cs.*1.
Proof. intros H. unfold taken_by. induction H as [|c cs Hc _ IH]; [done|]. cbn. rewrite decide_True by done. cbn. by f_equal. Qed.

Definition all_recorded (s : Recording) : Prop := Forall (λ c, c.2 = RDone) (rc_calls s).

(** The statistics depend on the samples and not on how they are spread. *)
Lemma recorded_stats conv_other ds s :
  recording_inv ds s → all_recorded s → Z.of_nat (length ds) < 2 ^ 63 → LatencyCollector_Stats conv_other (rc_collector s) = stats_of conv_other ds.
Proof.
  intros [I1 I2 I3 I4 I5 I6 I7 I8] Hd Hn.
  assert (Ht : ∀ stage, (∀ d, stage (d, RDone) = true) → taken_by stage (rc_calls s) = ds).
  { intros stage Hst. rewrite taken_by_all, I1; [done|]. eapply Forall_impl; [exact Hd|]. intros [d pc] H. cbn in H. by subst. }
  rewrite (Ht past_min) in I3 by done. rewrite (Ht past_max) in I4 by done. rewrite (Ht past_sum) in I5 by done.
  rewrite (Ht past_total) in I6 by done. rewrite (Ht sample_kept) in I8 by done. rewrite i64_small in I6 by (unfold in_i64; lia).
  unfold LatencyCollector_Stats, stats_of. rewrite I3, I4, I5, I6.
  assert (Hsort : merge_sort Z.le (concat (lc_shards (rc_collector s))) = merge_sort Z.le ds).
  { apply (StronglySorted_unique Z.le); [apply StronglySorted_merge_sort; apply _..|]. by rewrite !merge_sort_Permutation. }
  rewrite Hsort. replace (length (merge_sort Z.le ds)) with (length ds) by (by rewrite merge_sort_Permutation).
  destruct ds as [|d ds]; [done|]. by rewrite (proj2 (Z.eqb_neq _ 0)) by (cbn; lia).
Qed.

(** *** The calls can be completed *)

(** The call alone comes from one place to another. *)
Definition solo (l : list (Z * record_pc)) (d : Z) (r : list (Z * record_pc)) (pc pc' : record_pc) (lc lc' : LatencyCollector) : Prop :=
  rtc recording_step (mkRecording lc (l ++ (d, pc) :: r)) (mkRecording lc' (l ++ (d, pc') :: r)).
Lemma solo_step l d r pc pc' lc lc' : pc ≠ RDone → record_step lc d pc 0 = (lc', pc') → solo l d r pc pc' lc lc'.
Proof. intros Hpc Hs. apply rtc_once. eapply (rec_call _ l d pc r 0%nat); [done|done|unfold shardCount; lia|done]. Qed.

Lemma solo_trans l d r pc1 pc2 pc3 lc1 lc2 lc3 : solo l d r pc1 pc2 lc1 lc2 → solo l d r pc2 pc3 lc2 lc3 → solo l d r pc1 pc3 lc1 lc3.
Proof. unfold solo. intros H1 H2. by etrans. Qed.

Lemma call_completes l d r pc lc : ∃ lc', solo l d r pc RDone lc lc'.
Proof.
  assert (H1 : ∀ lc, ∃ lc', solo l d r RSum RDone lc lc').
  { intros lc0. eexists. eapply solo_trans; [by apply solo_step|]. eapply solo_trans; [by apply solo_step|]. by apply solo_step. }
  assert (H2 : ∀ lc, ∃ lc', solo l d r RMax RDone lc lc').
  { intros lc0. destruct (d <=? lc_max lc0) eqn:E.
    - destruct (H1 lc0) as [lc' H]. exists lc'. eapply solo_trans; [|exact H]. apply solo_step; [done|]. cbn. by rewrite E.
    - destruct (H1 (set_max lc0 d)) as [lc' H]. exists lc'. eapply solo_trans; [|eapply solo_trans; [|exact H]].
      + apply solo_step; [done|]. cbn. by rewrite E.
      + apply solo_step; [done|]. cbn. by rewrite Z.eqb_refl. }
  assert (H3 : ∀ lc, ∃ lc', solo l d r RMin RDone lc lc').
  { intros lc0. destruct (lc_min lc0 <=? d) eqn:E.
    - destruct (H2 lc0) as [lc' H]. exists lc'. eapply solo_trans; [|exact H]. apply solo_step; [done|]. cbn. by rewrite E.
    - destruct (H2 (set_min lc0 d)) as [lc' H]. exists lc'. eapply solo_trans; [|eapply solo_trans; [|exact H]].
      + apply solo_step; [done|]. cbn. by rewrite E.
      + apply solo_step; [done|]. cbn. by rewrite Z.eqb_refl. }
  destruct pc as [|old| |old| | | |]; [apply H3| |apply H2| |apply H1| | |by exists lc; apply rtc_refl].
  - destruct (lc_min lc =? old) eqn:E; [destruct (H2 (set_min lc d)) as [lc' H]|destruct (H3 lc) as [lc' H]];
      exists lc'; (eapply solo_trans; [|exact H]); (apply solo_step; [done|]); cbn; by rewrite E.
  - destruct (lc_max lc =? old) eqn:E; [destruct (H1 (set_max lc d)) as [lc' H]|destruct (H2 lc) as [lc' H]];
      exists lc'; (eapply solo_trans; [|exact H]); (apply solo_step; [done|]); cbn; by rewrite E.
  - eexists. eapply solo_trans; [by apply solo_step|]. by apply solo_step.
  - eexists. by apply solo_step.
Qed.

Lemma calls_complete_from pre cs lc :
  ∃ lc', rtc recording_step (mkRecording lc (pre ++ cs)) (mkRecording lc' (pre ++ ((λ c, (c.1, RDone)) <$> cs))).
Proof.
  revert pre lc. induction cs as [|[d pc] cs IH]; intros pre lc; [exists lc; apply rtc_refl|].
  destruct (call_completes pre d cs pc lc) as [lc1 H1]. destruct (IH (pre ++ [(d, RDone)]) lc1) as [lc' H']. exists lc'.
  etrans; [exact H1|]. by rewrite <- !app_assoc in H'.
Qed.

(** In every interleaving of calls of [Record] every one can be completed, and once all
    are, the statistics are those of the samples: least and greatest, the mean and the
    percentiles of the sorted samples, and their number. *)
Lemma latencies_are_exact conv_other ds s :
  rtc recording_step (recording_init ds) s → Z.of_nat (length ds) < 2 ^ 63 →
  (all_recorded s → LatencyCollector_Stats conv_other (rc_collector s) = stats_of conv_other ds) ∧
  ∃ s', rtc recording_step s s' ∧ all_recorded s' ∧ LatencyCollector_Stats conv_other (rc_collector s') = stats_of conv_other ds.
Proof.
  intros Hr Hn. split; [intros Hd; by apply recorded_stats; [apply recording_reachable_inv|..]|].
  destruct s as [lc cs]. destruct (calls_complete_from [] cs lc) as [lc' H]. cbn [app] in H.
  assert (Hd : all_recorded (mkRecording lc' ((λ c, (c.1, RDone)) <$> cs))) by (unfold all_recorded; cbn; apply Forall_fmap; by apply Forall_true).
  eexists. split_and!; [exact H|exact Hd|]. apply recorded_stats; [apply recording_reachable_inv; by etrans|done..].
Qed.

(** ** Percentiles *)

Lemma percentileIndex_range conv_other n pct : 0 < n → 0 ≤ percentileIndex conv_other n pct < n.
Proof. intros Hn. unfold percentileIndex. repeat case_match; lia. Qed.

Lemma least_le ds d : d ∈ ds → least ds ≤ d.
Proof. unfold least. induction 1 as [d ds|d e ds _ IH]; cbn; lia. Qed.
Lemma greatest_ge ds d : d ∈ ds → d ≤ greatest ds.
Proof. unfold greatest. induction 1 as [d ds|d e ds _ IH]; cbn; lia. Qed.

(** A reported percentile is a sample, so that it lies between the minimum and the
    maximum, and there are as many samples up to it as its place says. *)
Lemma percentile_is_sample conv_other ds pct :
  ds ≠ [] → ∃ v, merge_sort Z.le ds !! Z.to_nat (percentileIndex conv_other (Z.of_nat (length ds)) pct) = Some v ∧ v ∈ ds ∧
    least ds ≤ v ≤ greatest ds ∧
    percentileIndex conv_other (Z.of_nat (length ds)) pct < Z.of_nat (length (filter (λ d, d ≤ v) ds)).
Proof.
  intros Hne. set (n := Z.of_nat (length ds)). assert (Hn : 0 < n) by (destruct ds; [done|unfold n; cbn; lia]).
  destruct (percentileIndex_range conv_other n pct Hn) as [H0 Hlt]. set (i := percentileIndex conv_other n pct) in *.
  pose proof (merge_sort_Permutation Z.le ds) as Hp.
  destruct (lookup_lt_is_Some_2 (merge_sort Z.le ds) (Z.to_nat i)) as [v Hv]; [rewrite Hp; unfold n in Hlt; lia|].
  assert (Hin : v ∈ ds) by (rewrite <- Hp; by eapply list_elem_of_lookup_2).
  exists v. split_and!; [done|done|by apply least_le|by apply greatest_ge|].
  rewrite <- Hp. pose proof (StronglySorted_merge_sort Z.le ds) as Hs.
  assert (Hle : Forall (λ d, d ≤ v) (take (S (Z.to_nat i)) (merge_sort Z.le ds))).
  { apply Forall_forall. intros d Hd. apply list_elem_of_lookup in Hd as [j Hj]. apply lookup_take_Some in Hj as [Hj Hji].
    destruct (decide (j = Z.to_nat i)) as [->|Hji']; [rewrite Hv in Hj; by injection Hj as ->|].
    rewrite <- (take_drop (Z.to_nat i) (merge_sort Z.le ds)) in Hs. eapply (StronglySorted_app_1_elem_of _ _ _ _ _ Hs).
    - apply list_elem_of_lookup. exists j. by rewrite lookup_take_lt by lia.
    - apply list_elem_of_lookup. exists 0%nat. by rewrite lookup_drop, Nat.add_0_r. }
  rewrite <- (take_drop (S (Z.to_nat i)) (merge_sort Z.le ds)), filter_app, length_app.
  replace (filter (λ d, d ≤ v) (take (S (Z.to_nat i)) (merge_sort Z.le ds))) with (take (S (Z.to_nat i)) (merge_sort Z.le ds)).
  - rewrite length_take, Nat.min_l; [lia|]. apply lookup_lt_Some in Hv. lia.
  - symmetry. induction Hle as [|x l Hx _ IH]; [done|]. cbn. rewrite decide_True by done. by f_equal.
Qed.

(** The maximum of latencies that are all negative, as with clocks that disagree, is
    zero. *)
Lemma negative_latency_max ds : Forall (λ d, d < 0) ds → greatest ds = 0.
Proof. unfold greatest. induction 1; cbn; lia. Qed.

(** ** Connecting the clients (pool.go) *)

Definition maxConcurrent : nat := 100.

(** A goroutine of the first phase: it waits for the semaphore, connects, has counted its
    result, and has left. *)
Inductive conn_pc := CWaiting | CConnecting | CCounted (ok : bool) | CGone (ok : bool).
Record ConnectPhase := mkPool { pl_clients : list conn_pc; pl_succeeded : Z; pl_failed : Z }.

Definition holds_slot (c : conn_pc) : bool := match c with CConnecting | CCounted _ => true | _ => false end.
Definition slots_used (cs : list conn_pc) : nat := length (filter (λ c, holds_slot c = true) cs).
Definition conn_counted (ok : bool) (c : conn_pc) : bool := match c with CCounted b | CGone b => Bool.eqb b ok | _ => false end.
Definition conn_results (ok : bool) (cs : list conn_pc) : Z := Z.of_nat (length (filter (λ c, conn_counted ok c = true) cs)).

Inductive connect_step (s : ConnectPhase) : ConnectPhase → Prop :=
  | cs_slot l r :
      pl_clients s = l ++ CWaiting :: r → (slots_used (pl_clients s) < maxConcurrent)%nat →
      connect_step s (mkPool (l ++ CConnecting :: r) (pl_succeeded s) (pl_failed s))
  | cs_connected l r :
      pl_clients s = l ++ CConnecting :: r → connect_step s (mkPool (l ++ CCounted true :: r) (pl_succeeded s + 1) (pl_failed s))
  | cs_failed l r :
      pl_clients s = l ++ CConnecting :: r → connect_step s (mkPool (l ++ CCounted false :: r) (pl_succeeded s) (pl_failed s + 1))
  | cs_leave l ok r :
      pl_clients s = l ++ CCounted ok :: r → connect_step s (mkPool (l ++ CGone ok :: r) (pl_succeeded s) (pl_failed s)).
Definition NewPool (connections : nat) : ConnectPhase := mkPool (replicate connections CWaiting) 0 0.

Lemma count_split (f : conn_pc → bool) l c r :
  length (filter (λ c, f c = true) (l ++ c :: r)) = (length (filter (λ c, f c = true) (l ++ r)) + (if f c then 1 else 0))%nat.
Proof.
  rewrite !filter_app, !length_app, filter_cons. destruct (f c) eqn:E.
  - rewrite decide_True by done. cbn. lia.
  - rewrite decide_False by done. lia.
Qed.

(** In every interleaving at most a hundred connections are being made; the counters are
    the numbers of results; and when all goroutines have left they add up to the
    connections. *)
Lemma connections_are_counted n s :
  rtc connect_step (NewPool n) s →
  (slots_used (pl_clients s) ≤ maxConcurrent)%nat ∧ pl_succeeded s = conn_results true (pl_clients s) ∧ pl_failed s = conn_results false (pl_clients s) ∧
  (Forall (λ c, ∃ ok, c = CGone ok) (pl_clients s) → pl_succeeded s + pl_failed s = Z.of_nat n).
Proof.
  intros Hr.
  assert (I : length (pl_clients s) = n ∧ (slots_used (pl_clients s) ≤ maxConcurrent)%nat ∧
    pl_succeeded s = conn_results true (pl_clients s) ∧ pl_failed s = conn_results false (pl_clients s)).
  { revert s Hr. apply rtc_ind_r.
    - cbn. rewrite length_replicate. unfold slots_used, conn_results.
      assert (H : ∀ f : conn_pc → bool, f CWaiting = false → filter (λ c, f c = true) (replicate n CWaiting) = []).
      { intros f Hf. induction n; [done|]. cbn. by rewrite decide_False by (by rewrite Hf). }
      rewrite !H by done. split_and!; [done|cbn; lia|done|done].
    - intros s s' _ Hs (IL & I1 & I2 & I3).
      destruct Hs as [l r Hc Hlt|l r Hc|l r Hc|l ok r Hc]; cbn; unfold slots_used, conn_results in *; rewrite Hc in *; rewrite !length_app in *;
        rewrite !count_split in *; cbn in *; try destruct ok; cbn in *; split_and!; try lia. }
  destruct I as (IL & I1 & I2 & I3). split_and!; [done..|]. intros Hg. rewrite I2, I3, <- IL. clear -Hg. unfold conn_results.
  induction Hg as [|c cs [ok ->] _ IH]; [done|].
  pose proof (count_split (conn_counted true) [] (CGone ok) cs) as C1. pose proof (count_split (conn_counted false) [] (CGone ok) cs) as C2.
  cbn [app] in C1, C2. rewrite C1, C2. destruct ok; cbn in *; lia.
Qed.

(** ** What a client receives (client.go) *)

(** A turn of the read loop: whether the context was done at its start, the clock when the
    message was handled, and the result of [ReadMessage]. *)
Inductive ws_read := ReadClosed | ReadError | ReadMsg (msg : string).
Record Turn := mkTurn { tn_done : bool; tn_now : Z; tn_read : ws_read }.

(** What a client adds to the shared counters, and the latencies that it records. *)
Record Received := mkReceived { rv_errors : Z; rv_received : Z; rv_latencies : list Z }.

Section read_loop.
  (** Decoding of a message: nothing when it is not an object of the protocol, else the
      time in its payload, the zero time when there is none or it cannot be parsed. *)
  Context (timestamp : string → option Z).

Definition handle_read (now : Z) (msg : string) (c : Received) : Received :=
  match timestamp msg with
  | None => mkReceived (rv_errors c + 1) (rv_received c) (rv_latencies c)
  | Some ts =>
      let lat := if ts =? zero_time then [] else [time_sub now ts] in
      mkReceived (rv_errors c) (rv_received c + 1) (rv_latencies c ++ lat)
  end.

Fixpoint load_client_run (turns : list Turn) (c : Received) : Received :=
  match turns with
  | [] => c
  | t :: rest =>
      if tn_done t then c
      else
        match tn_read t with
        | ReadClosed => c
        | ReadError => mkReceived (rv_errors c + 1) (rv_received c) (rv_latencies c)
        | ReadMsg msg => load_client_run rest (handle_read (tn_now t) msg c)
        end
  end.

(** The messages that are read: those before the loop ends. *)
Fixpoint read_by (turns : list Turn) : list (Z * string) :=
  match turns with
  | mkTurn false now (ReadMsg msg) :: rest => (now, msg) :: read_by rest
  | _ => []
  end.
Fixpoint ends_in_error (turns : list Turn) : bool :=
  match turns with
  | mkTurn false _ (ReadMsg _) :: rest => ends_in_error rest
  | mkTurn false _ ReadError :: _ => true
  | _ => false
  end.
Definition decodes (m : Z * string) : bool := match timestamp m.2 with Some _ => true | None => false end.
Definition latency_of (m : Z * string) : option Z := ts ← timestamp m.2; if ts =? zero_time then None else Some (time_sub m.1 ts).

(** A client counts every message that it reads, once, as received or as an error, and
    the error that ends it; the latencies are those of the messages with a time, in
    order. *)
Lemma client_counts_messages turns c :
  load_client_run turns c =
  mkReceived (rv_errors c + Z.of_nat (length (filter (λ m, decodes m = false) (read_by turns))) + (if ends_in_error turns then 1 else 0))
    (rv_received c + Z.of_nat (length (filter (λ m, decodes m = true) (read_by turns))))
    (rv_latencies c ++ omap latency_of (read_by turns)).
Proof.
  assert (E : ∀ c n, n = 0 → mkReceived (rv_errors c + 0 + n) (rv_received c + 0) (rv_latencies c ++ []) = c).
  { intros [? ? ?] n ->. cbn. by rewrite !Z.add_0_r, app_nil_r. }
  revert c. induction turns as [|[[] now r] rest IH]; intros c; cbn [load_client_run tn_done tn_read tn_now]; [by rewrite E..|].
  destruct r as [| |msg]; cbn [load_client_run tn_done tn_read tn_now]; [by rewrite E|cbn; by rewrite app_nil_r, !Z.add_0_r|].
  rewrite IH. unfold handle_read. cbn [read_by ends_in_error omap list_omap]. unfold decodes, latency_of. cbn [snd fst].
  rewrite !filter_cons. cbn [snd fst]. destruct (timestamp msg) as [ts|] eqn:Et; cbn [rv_errors rv_received rv_latencies mbind option_bind].
  - rewrite decide_False, decide_True by done. destruct (ts =? zero_time); cbn [length app]; rewrite <- ?app_assoc; f_equal; try lia; by rewrite ?app_nil_r.
  - rewrite decide_True, decide_False by done. cbn [length]. f_equal; lia.
Qed.
End read_loop.

(** ** The result of a run (pool.go) *)

Record LoadResult := mkLoadResult {
  lr_Attempted : Z; lr_Succeeded : Z; lr_Failed : Z; lr_Sent : Z; lr_Received : Z; lr_MsgPerSec : float64;
  lr_Latency : LatencyStats; lr_Errors : list Z }.

(** [Run] after its first phase: the counters at the end of the test, the state of the
    collector then, and the configured duration. The texts of errors are their number;
    an error comes with the result so far. *)
Definition Pool_Run (conv_other : float64 → Z) (connections : nat) (p : ConnectPhase) (received errors : Z)
    (lc : LatencyCollector) (duration : Z) : result LoadResult LoadResult :=
  if pl_succeeded p =? 0 then Err (mkLoadResult (Z.of_nat connections) (pl_succeeded p) (pl_failed p) 0 0 f64_zero zero_stats [])
  else
    let elapsed := Duration_Seconds duration in
    let rate := if f64_ltb f64_zero elapsed then f64_div (f64_of_Z received) elapsed else f64_zero in
    Ok (mkLoadResult (Z.of_nat connections) (pl_succeeded p) (pl_failed p) 0 received rate
      (LatencyCollector_Stats conv_other lc) (if 0 <? errors then [errors] else [])).

(** The result is refused exactly when no client was connected; otherwise it has the
    connections, and the statistics of the recorded samples. *)
Lemma run_reports_measurements conv_other n p ds s received errors duration :
  rtc connect_step (NewPool n) p → Forall (λ c, ∃ ok, c = CGone ok) (pl_clients p) →
  rtc recording_step (recording_init ds) s → all_recorded s → Z.of_nat (length ds) < 2 ^ 63 →
  match Pool_Run conv_other n p received errors (rc_collector s) duration with
  | Err _ => Forall (λ c, c = CGone false) (pl_clients p)
  | Ok r =>
      lr_Attempted r = lr_Succeeded r + lr_Failed r ∧ 0 < lr_Succeeded r ∧ lr_Received r = received ∧
      lr_Latency r = stats_of conv_other ds
  end.
Proof.
  intros Hp Hg Hr Hd Hn. destruct (connections_are_counted n p Hp) as (_ & Hs & _ & Hsum). specialize (Hsum Hg).
  destruct (latencies_are_exact conv_other ds s Hr Hn) as [Hst _]. unfold Pool_Run. destruct (Z.eqb_spec (pl_succeeded p) 0) as [E|E].
  - rewrite Hs in E. unfold conn_results in E. clear -E Hg. induction Hg as [|c cs [ok ->] _ IH]; [constructor|].
    pose proof (count_split (conn_counted true) [] (CGone ok) cs) as C. cbn [app] in C. rewrite C in E. destruct ok; cbn in E; [lia|].
    constructor; [done|]. apply IH. lia.
  - cbn. split_and!; [lia| |done|by apply Hst]. rewrite Hs in *. unfold conn_results in *. lia.
Qed.
