(* ===== verification/Chaos.v ===== *)
(** * Chaos: experiments that disturb a deployment

    [internal/platform/chaos]: the runner of experiments with its polling of validators,
    its teardown and its suite, proved against the interfaces of experiments and
    validators; the experiment that pauses Redis and the one that burns processors; the
    validator over Prometheus. [testing/chaos]: the engine that disturbs connections.
    The world that experiments act on, the clock, signals and random numbers are
    arguments. *)

From stdpp Require Import relations.
From S2P Require Import Prelude Float64.

(** ** Interfaces (experiment.go) *)

Record ValidationOutcome := mkValidation { vr_Success : bool; vr_Reason : string }.

(** An operation gets whether its context is done; it can panic. *)
Class ChaosValidator (W V : Type) := { v_Name : V → string; v_Assert : V → bool → W → W * outcome (ValidationOutcome * option string) }.
Class Experiment (W X : Type) := {
  x_Name : X → string;
  x_Setup : X → bool → W → W * outcome (option string);
  x_InjectFault : X → bool → W → W * outcome (option string);
  x_Teardown : X → bool → W → W * outcome (option string);
}.

Record ChaosResult := mkChaosResult {
  cr_ExperimentName : string;
  cr_SetupError : option string;
  cr_InjectionError : option string;
  cr_TeardownError : option string;
  cr_ValidationErrors : list string;
  cr_Validations : list ValidationOutcome;
}.

Definition isSome {A} (o : option A) : bool := match o with Some _ => true | None => false end.
Definition Passed (r : ChaosResult) : bool :=
  if isSome (cr_SetupError r) || isSome (cr_InjectionError r) || isSome (cr_TeardownError r) || negb (bool_decide (cr_ValidationErrors r = []))
  then false
  else forallb vr_Success (cr_Validations r).

(** ** The runner (runner.go) *)

Definition poll_timeout : Z := 30 * Second.
Definition poll_pause : Z := 2 * Second.

Section runner.
Context {W V X : Type} `{!ChaosValidator W V} `{!Experiment W X}.

(** One turn over the validators; a flag says whether all have passed. *)
Fixpoint poll_round (done : bool) (vs : list V) (passed : list bool) (rs : list ValidationOutcome) (w : W)
  : W * outcome (list bool * list ValidationOutcome * bool) :=
  match vs, passed, rs with
  | v :: vs, p :: passed, r :: rs =>
      let next w p' r' ok :=
        match poll_round done vs passed rs w with
        | (w, Ret (ps, rs, all)) => (w, Ret (p' :: ps, r' :: rs, ok && all))
        | (w, Panic) => (w, Panic)
        end in
      if p then next w p r true
      else
        match v_Assert v done w with
        | (w, Panic) => (w, Panic)
        | (w, Ret (_, Some err)) => next w false (mkValidation false err) false
        | (w, Ret (res, None)) => if vr_Success res then next w true res true else next w false res false
        end
  | _, _, _ => (w, Ret ([], [], true))
  end.

(** The loop: [now k] is the clock at the start of its turn k and [done k] whether the
    context is done then. Nothing is returned when the fuel runs out. *)
Fixpoint poll_loop (fuel k : nat) (now : nat → Z) (done : nat → bool) (deadline : Z) (vs : list V)
    (passed : list bool) (rs : list ValidationOutcome) (w : W) : option (W * outcome (list ValidationOutcome)) :=
  match fuel with
  | O => None
  | S fuel =>
      if negb (now k <? deadline) then Some (w, Ret rs)
      else if done k then Some (w, Ret rs)
      else
        match poll_round (done k) vs passed rs w with
        | (w, Panic) => Some (w, Panic)
        | (w, Ret (passed, rs, all)) =>
            if all then Some (w, Ret rs) else poll_loop fuel (S k) now done deadline vs passed rs w
        end
  end.

Definition pollValidators (fuel : nat) (start : Z) (now : nat → Z) (done : nat → bool) (vs : list V) (timeout : Z) (w : W)
  : option (W * outcome (list ValidationOutcome)) :=
  poll_loop fuel 0 now done (time_add start timeout) vs (replicate (length vs) false) (replicate (length vs) (mkValidation false "")) w.

(** The deferred teardown, with the background context. *)
Definition with_teardown (x : X) (w : W) (res : ChaosResult) (panicking : bool) : W * outcome ChaosResult :=
  match x_Teardown x false w with
  | (w, Panic) => (w, Panic)
  | (w, Ret err) =>
      (w, if panicking then Panic
          else Ret (mkChaosResult (cr_ExperimentName res) (cr_SetupError res) (cr_InjectionError res) err (cr_ValidationErrors res) (cr_Validations res)))
  end.

(** What happens around a run: whether its context is done at the start and at the
    injection (a signal cancels it), and the clock and the context during the polling. *)
Record RunEnv := mkRunEnv { re_done : bool; re_done_inject : bool; re_start : Z; re_now : nat → Z; re_done_poll : nat → bool }.

Definition Chaos_Run (fuel : nat) (e : RunEnv) (x : X) (vs : list V) (w : W) : option (W * outcome ChaosResult) :=
  let res := mkChaosResult (x_Name x) None None None [] [] in
  match x_Setup x (re_done e) w with
  | (w, Panic) => Some (w, Panic)
  | (w, Ret (Some err)) =>
      match x_Teardown x false w with
      | (w, Panic) => Some (w, Panic)
      | (w, Ret _) => Some (w, Ret (mkChaosResult (x_Name x) (Some err) None None [] []))
      end
  | (w, Ret None) =>
      match x_InjectFault x (re_done_inject e) w with
      | (w, Panic) => Some (with_teardown x w res true)
      | (w, Ret (Some err)) => Some (with_teardown x w (mkChaosResult (x_Name x) None (Some err) None [] []) false)
      | (w, Ret None) =>
          match pollValidators fuel (re_start e) (re_now e) (re_done_poll e) vs poll_timeout w with
          | None => None
          | Some (w, Panic) => Some (with_teardown x w res true)
          | Some (w, Ret rs) => Some (with_teardown x w (mkChaosResult (x_Name x) None None None [] rs) false)
          end
      end
  end.

(** *** The suite *)

(** The channel of signals holds one. Before an experiment a signal may arrive; during it
    a signal may arrive that its goroutine takes, which cancels the context of that run,
    or one that stays. *)
Record SuiteEnv := mkSuiteEnv { se_before : bool; se_taken : bool; se_left : bool; se_run : RunEnv }.
Inductive SuiteEnd := Finished (rs : list ChaosResult) | Exited | SuitePanic.

Definition cancelled_env (taken : bool) (e : RunEnv) : RunEnv :=
  mkRunEnv (re_done e) (re_done_inject e || taken) (re_start e) (re_now e) (λ k, re_done_poll e k || taken).

(** [RunSuite] over the experiments in the order of the iteration; [Fatal] exits. *)
Fixpoint RunSuite (fuel : nat) (pending : bool) (todo : list (X * list V * SuiteEnv)) (rs : list ChaosResult) (w : W) : option (W * SuiteEnd) :=
  match todo with
  | [] => Some (w, Finished rs)
  | (x, vs, e) :: todo =>
      if pending || se_before e then Some (w, Exited)
      else
        match Chaos_Run fuel (cancelled_env (se_taken e) (se_run e)) x vs w with
        | None => None
        | Some (w, Panic) => Some (w, SuitePanic)
        | Some (w, Ret r) => RunSuite fuel (se_left e) todo (rs ++ [r]) w
        end
  end.

(** ** What polling reports *)

Definition same_verdicts (passed : list bool) (rs : list ValidationOutcome) : Prop := Forall2 (λ p r, vr_Success r = p) passed rs.

Lemma unpassed_verdicts n : same_verdicts (replicate n false) (replicate n (mkValidation false "")).
Proof. unfold same_verdicts. apply Forall2_replicate. done. Qed.

Lemma poll_round_verdicts done vs passed rs w w' passed' rs' all :
  length passed = length vs → same_verdicts passed rs →
  poll_round done vs passed rs w = (w', Ret (passed', rs', all)) →
  length passed' = length vs ∧ same_verdicts passed' rs' ∧ all = forallb id passed' ∧ Forall2 (λ p p', p = true → p' = true) passed passed'.
Proof.
  revert passed rs w w' passed' rs' all. induction vs as [|v vs IH]; intros passed rs w w' passed' rs' all Hl Hv H.
  - destruct passed; [|done]. cbn in H. simplify_eq. split_and!; [done|constructor|done|constructor].
  - destruct passed as [|p passed]; [done|]. apply Forall2_cons_inv_l in Hv as (r & rs0 & Hr & Hv & ->). cbn in H, Hl. injection Hl as Hl.
    assert (step : ∀ w1 p1 r1, vr_Success r1 = p1 → (p = true → p1 = true) →
      (let '(w2, o) := poll_round done vs passed rs0 w1 in
       match o with Ret (ps, rs2, all2) => (w2, Ret (p1 :: ps, r1 :: rs2, p1 && all2)) | Panic => (w2, Panic) end) = (w', Ret (passed', rs', all)) →
      length passed' = S (length vs) ∧ same_verdicts passed' rs' ∧ all = forallb id passed' ∧ Forall2 (λ p p', p = true → p' = true) (p :: passed) passed').
    { intros w1 p1 r1 H1 H2 H3. destruct (poll_round done vs passed rs0 w1) as [w2 [[[ps rs2] all2]|]] eqn:E; [|done].
      injection H3 as <- <- <- <-. destruct (IH _ _ _ _ _ _ _ Hl Hv E) as (L & S' & A & M).
      split_and!; [cbn; by rewrite L|by constructor|cbn; by rewrite A|by constructor]. }
    destruct p; [apply (step w true r); [done|done|]|
      destruct (v_Assert v done w) as [w1 [[res [err|]]|]]; [apply (step w1 false (mkValidation false err)); [done|done|]| |done];
      [|destruct (vr_Success res) eqn:Es; [apply (step w1 true res)|apply (step w1 false res)]; try done]].
    all: rewrite <- H; by destruct (poll_round _ _ _ _ _) as [? [[[] ?]|]].
Qed.

(** The loop ends when the clock advances: [n] turns of two seconds reach the deadline. *)
Lemma poll_loop_ends n k now done deadline vs passed rs w :
  (∀ i, now i + poll_pause ≤ now (S i)) → deadline ≤ now k + Z.of_nat n * poll_pause →
  ∃ r, poll_loop (S n) k now done deadline vs passed rs w = Some r.
Proof.
  intros Hc. revert k passed rs w. induction n as [|n IH]; intros k passed rs w Hd.
  - cbn. rewrite (proj2 (Z.ltb_ge _ _)) by lia. by eexists.
  - cbn [poll_loop]. destruct (negb (now k <? deadline)); [by eexists|]. destruct (done k); [by eexists|].
    destruct (poll_round false vs passed rs w) as [w1 [[[ps rs1] all]|]]; [|by eexists]. destruct all; [by eexists|].
    apply IH. specialize (Hc k). unfold poll_pause in *. lia.
Qed.

Lemma poll_loop_verdicts fuel k now done deadline vs passed rs w w' rs' :
  length passed = length vs → same_verdicts passed rs →
  poll_loop fuel k now done deadline vs passed rs w = Some (w', Ret rs') →
  length rs' = length vs ∧ Forall2 (λ r r', vr_Success r = true → vr_Success r' = true) rs rs'.
Proof.
  revert k passed rs w. induction fuel as [|fuel IH]; intros k passed rs w Hl Hv H; [done|].
  assert (Hsame : length rs = length vs ∧ Forall2 (λ r r', vr_Success r = true → vr_Success r' = true) rs rs).
  { split; [by rewrite <- (Forall2_length _ _ _ Hv)|]. by apply Forall_Forall2_diag, Forall_true. }
  cbn [poll_loop] in H. destruct (negb (now k <? deadline)); [by simplify_eq|]. destruct (done k) eqn:Ed; [by simplify_eq|].
  destruct (poll_round false vs passed rs w) as [w1 [[[ps rs1] all]|]] eqn:Er; [|done].
  destruct (poll_round_verdicts _ _ _ _ _ _ _ _ _ Hl Hv Er) as (L & S' & A & M).
  assert (Hm : Forall2 (λ r r', vr_Success r = true → vr_Success r' = true) rs rs1).
  { unfold same_verdicts in *. clear -Hv S' M. revert passed ps Hv S' M. induction rs as [|r rs IHr] in rs1 |- *; intros passed ps Hv S' M.
    - apply Forall2_nil_inv_r in Hv as ->. apply Forall2_nil_inv_l in M as ->. apply Forall2_nil_inv_l in S' as ->. constructor.
    - apply Forall2_cons_inv_r in Hv as (p & ? & Hp & Hv & ->). apply Forall2_cons_inv_l in M as (p1 & ? & Hp1 & M & ->).
      apply Forall2_cons_inv_l in S' as (r1 & ? & Hr1 & S' & ->). constructor; [by subst; auto|]. by eapply IHr. }
  destruct all; [simplify_eq; split; [by rewrite <- (Forall2_length _ _ _ S')|done]|].
  destruct (IH _ _ _ _ L S' H) as [L' M']. split; [done|]. eapply Forall2_trans; [|exact Hm|exact M']. cbn. auto.
Qed.

(** ** Teardown *)

(** What a run does before its teardown. *)
Inductive acts (x : X) (vs : list V) : W → W → Prop :=
  | acts_setup d w : acts x vs w (x_Setup x d w).1
  | acts_inject d w : acts x vs w (x_InjectFault x d w).1
  | acts_assert v d w : v ∈ vs → acts x vs w (v_Assert v d w).1.

Lemma poll_round_acts x all done vs passed rs w : vs ⊆ all → rtc (acts x all) w (poll_round done vs passed rs w).1.
Proof.
  revert passed rs w. induction vs as [|v vs IH]; intros passed rs w Hs; [by destruct passed, rs|].
  destruct passed as [|p passed]; [done|]. destruct rs as [|r rs]; [done|]. cbn.
  assert (Hvs : vs ⊆ all) by (intros y Hy; apply Hs; by right). assert (Hv : v ∈ all) by (apply Hs; by left).
  pose proof (acts_assert x all v done w Hv) as Ha. destruct p.
  - specialize (IH passed rs w Hvs). by destruct (poll_round _ _ _ _ _) as [? [[[] ?]|]].
  - destruct (v_Assert v done w) as [w1 [[res [err|]]|]]; cbn in *; [| |by apply rtc_once].
    all: specialize (IH passed rs w1 Hvs); try destruct (vr_Success res);
      destruct (poll_round _ _ _ _ _) as [? [[[] ?]|]]; cbn in *; by eapply rtc_l.
Qed.

Lemma poll_round_keeps done vs passed rs w : (∀ v d w, (v_Assert v d w).1 = w) → (poll_round done vs passed rs w).1 = w.
Proof.
  intros Hv. revert passed rs w. induction vs as [|v vs IH]; intros passed rs w; [by destruct passed, rs|].
  destruct passed as [|p passed]; [done|]. destruct rs as [|r rs]; [done|]. cbn. specialize (Hv v done w). destruct p.
  - specialize (IH passed rs w). by destruct (poll_round _ _ _ _ _) as [? [[[] ?]|]].
  - destruct (v_Assert v done w) as [w1 [[res [err|]]|]]; cbn in *; [| |done].
    all: subst w1; specialize (IH passed rs w); try destruct (vr_Success res); by destruct (poll_round _ _ _ _ _) as [? [[[] ?]|]].
Qed.

Lemma poll_loop_acts x fuel k now done deadline vs passed rs w r :
  poll_loop fuel k now done deadline vs passed rs w = Some r → rtc (acts x vs) w r.1.
Proof.
  revert k passed rs w. induction fuel as [|fuel IH]; intros k passed rs w H; [done|]. cbn [poll_loop] in H.
  destruct (negb (now k <? deadline)); [by simplify_eq|]. destruct (done k); [by simplify_eq|].
  pose proof (poll_round_acts x vs false vs passed rs w (reflexivity _)) as Ha.
  destruct (poll_round false vs passed rs w) as [w1 [[[ps rs1] all]|]]; cbn in Ha; [|by simplify_eq].
  destruct all; [by simplify_eq|]. etrans; [exact Ha|]. by eapply IH.
Qed.

(** Validators that only observe leave the world as it is. *)
Lemma poll_loop_keeps fuel k now done deadline vs passed rs w r :
  (∀ v d w, (v_Assert v d w).1 = w) → poll_loop fuel k now done deadline vs passed rs w = Some r → r.1 = w.
Proof.
  intros Hv. revert k passed rs w. induction fuel as [|fuel IH]; intros k passed rs w H; [done|]. cbn [poll_loop] in H.
  destruct (negb (now k <? deadline)); [by simplify_eq|]. destruct (done k); [by simplify_eq|].
  pose proof (poll_round_keeps false vs passed rs w Hv) as Ha.
  destruct (poll_round false vs passed rs w) as [w1 [[[ps rs1] all]|]]; cbn in Ha; [|by simplify_eq].
  destruct all; [by simplify_eq|]. by rewrite (IH _ _ _ _ H).
Qed.

(** Unless its setup panics, a run ends with one teardown after everything else that it
    does, on every path: errors, a failed or panicking injection, cancellation. *)
Lemma run_tears_down fuel e x vs w w' o :
  Chaos_Run fuel e x vs w = Some (w', o) →
  ((x_Setup x (re_done e) w).2 = Panic ∧ o = Panic ∧ w' = (x_Setup x (re_done e) w).1) ∨
  ∃ w1, rtc (acts x vs) w w1 ∧ w' = (x_Teardown x false w1).1.
Proof.
  intros H. unfold Chaos_Run in H. pose proof (acts_setup x vs (re_done e) w) as H1.
  destruct (x_Setup x (re_done e) w) as [w1 [[err|]|]]; cbn in H1; [| |left; by simplify_eq].
  - right. exists w1. split; [by apply rtc_once|]. by destruct (x_Teardown x false w1) as [? []]; simplify_eq.
  - right. pose proof (acts_inject x vs (re_done_inject e) w1) as H2.
    assert (Htd : ∀ w2 res b, Some (with_teardown x w2 res b) = Some (w', o) → rtc (acts x vs) w1 w2 →
      ∃ w1, rtc (acts x vs) w w1 ∧ w' = (x_Teardown x false w1).1).
    { intros w2 res b Ht Hr. exists w2. split; [by eapply rtc_l|]. unfold with_teardown in Ht. by destruct (x_Teardown x false w2) as [? []]; simplify_eq. }
    destruct (x_InjectFault x (re_done_inject e) w1) as [w2 [[err|]|]]; cbn in H2; [by eapply Htd, rtc_once| |by eapply Htd, rtc_once].
    destruct (pollValidators _ _ _ _ _ _ w2) as [[w3 [rs|]]|] eqn:Ep; [| |done];
      (eapply Htd; [exact H|]; eapply rtc_l; [exact H2|]; exact (poll_loop_acts x _ _ _ _ _ _ _ _ _ _ Ep)).
Qed.

(** A run ends within sixteen turns of polling, and passes exactly when its steps had no
    error and every validator has succeeded. *)
Lemma run_reports fuel e x vs w :
  (16 ≤ fuel)%nat → re_start e ≤ re_now e 0 → (∀ i, re_now e i + poll_pause ≤ re_now e (S i)) →
  ∃ w' o, Chaos_Run fuel e x vs w = Some (w', o) ∧
    ∀ r, o = Ret r → (Passed r = true ↔ cr_SetupError r = None ∧ cr_InjectionError r = None ∧ cr_TeardownError r = None ∧
      length (cr_Validations r) = length vs ∧ Forall (λ v, vr_Success v = true) (cr_Validations r)).
Proof.
  intros Hf Hs Hc. unfold Chaos_Run.
  assert (Hp : ∀ w, ∃ r, pollValidators fuel (re_start e) (re_now e) (re_done_poll e) vs poll_timeout w = Some r ∧
    ∀ rs, r.2 = Ret rs → length rs = length vs).
  { intros w1. destruct fuel as [|n]; [lia|].
    destruct (poll_loop_ends n 0 (re_now e) (re_done_poll e) (time_add (re_start e) poll_timeout) vs (replicate (length vs) false)
      (replicate (length vs) (mkValidation false "")) w1 Hc) as [[w2 o] Hr].
    { unfold time_add, poll_timeout, poll_pause, Second, Millisecond in *. lia. }
    exists (w2, o). split; [exact Hr|]. cbn. intros rs ->.
    refine (proj1 (poll_loop_verdicts _ _ _ _ _ _ _ _ _ _ _ _ _ Hr)); [apply length_replicate|apply unpassed_verdicts]. }
  assert (Hpass : ∀ r, cr_ValidationErrors r = [] → Passed r = true ↔ cr_SetupError r = None ∧ cr_InjectionError r = None ∧ cr_TeardownError r = None ∧
    Forall (λ v, vr_Success v = true) (cr_Validations r)).
  { intros [nm [a|] [b|] [c|] ve l] E; cbn in E; subst; unfold Passed; cbn; try naive_solver.
    rewrite forallb_forall, Forall_forall. setoid_rewrite list_elem_of_In. naive_solver. }
  assert (Htd : ∀ w2 res b, cr_ValidationErrors res = [] →
    (isSome (cr_SetupError res) = false → isSome (cr_InjectionError res) = false → b = false → length (cr_Validations res) = length vs) →
    ∃ w' o, Some (with_teardown x w2 res b) = Some (w', o) ∧ ∀ r, o = Ret r →
      (Passed r = true ↔ cr_SetupError r = None ∧ cr_InjectionError r = None ∧ cr_TeardownError r = None ∧
        length (cr_Validations r) = length vs ∧ Forall (λ v, vr_Success v = true) (cr_Validations r))).
  { intros w2 res b He Hl. unfold with_teardown. destruct (x_Teardown x false w2) as [w3 [err|]]; do 2 eexists; (split; [done|]); [|done].
    intros r Hr. destruct b; [done|]. injection Hr as <-. rewrite Hpass by done. cbn.
    destruct (cr_SetupError res), (cr_InjectionError res); naive_solver. }
  destruct (x_Setup x (re_done e) w) as [w1 [[err|]|]]; [| |by exists w1, Panic].
  - destruct (x_Teardown x false w1) as [w2 [td|]]; do 2 eexists; (split; [done|]); [|done]. intros r [= <-]. cbn. naive_solver.
  - destruct (x_InjectFault x (re_done_inject e) w1) as [w2 [[err|]|]]; [by apply Htd| |].
    + destruct (Hp w2) as ([w3 [rs|]] & -> & Hl); [|by apply Htd]. apply Htd; [done|]. intros _ _ _. by apply Hl.
    + by apply Htd.
Qed.

(** An interrupt that the goroutine of an experiment takes ends that experiment; the
    suite goes on with the next. *)
Lemma taken_interrupt_goes_on fuel x vs e todo w w' r rs :
  se_before e = false → se_left e = false → Chaos_Run fuel (cancelled_env (se_taken e) (se_run e)) x vs w = Some (w', Ret r) →
  RunSuite fuel false ((x, vs, e) :: todo) rs w = RunSuite fuel false todo (rs ++ [r]) w'.
Proof. intros Hb Hl Hr. cbn [RunSuite]. by rewrite Hb, Hr, Hl. Qed.


End runner.

(** ** Pausing Redis (infra/redis_outage.go) *)

(** The commands of Docker that are used: the status that [inspect] prints, and [pause]
    and [unpause] with whether they succeed; the first two end with their context. *)
Class Docker (D : Type) := {
  dk_inspect : string → bool → D → option string;
  dk_pause : string → bool → D → D * bool;
  dk_unpause : string → bool → D → D * bool;
  dk_status : string → D → option string;
}.

Definition line_end : string := String (Ascii.ascii_of_nat 10) EmptyString.
Definition status_running : string := String.append "running" line_end.
Definition status_paused : string := String.append "paused" line_end.

(** A container that is up runs or is paused. A pause may fail and may still have its
    effect, when its context ends the command; to unpause restores. *)
Definition is_up {D} `{!Docker D} (c : string) (d : D) : Prop := dk_status c d = Some status_running ∨ dk_status c d = Some status_paused.
Class DockerLaws (D : Type) `{!Docker D} := {
  dk_inspect_law c done d s : dk_inspect c done d = Some s → dk_status c d = Some s;
  dk_pause_law c done d : is_up c d → is_up c (dk_pause c done d).1;
  dk_unpause_law c d : is_up c d → dk_status c (dk_unpause c false d).1 = Some status_running;
}.

Record RedisOutage := mkRedisOutage { ro_ContainerName : string; ro_Duration : Z }.

Section outage.
Context {D : Type} `{!Docker D}.

Definition Outage_Setup (e : RedisOutage) (done : bool) (d : D) : D * outcome (option string) :=
  match dk_inspect (ro_ContainerName e) done d with
  | None => (d, Ret (Some "failed to inspect container"))
  | Some out => (d, Ret (if String.eqb out status_running then None else Some "container is not running"))
  end.
Definition Outage_InjectFault (e : RedisOutage) (done : bool) (d : D) : D * outcome (option string) :=
  let '(d, ok) := dk_pause (ro_ContainerName e) done d in (d, Ret (if ok then None else Some "failed to pause container")).
Definition Outage_Teardown (e : RedisOutage) (done : bool) (d : D) : D * outcome (option string) :=
  let '(d, ok) := dk_unpause (ro_ContainerName e) done d in (d, Ret (if ok then None else Some "failed to unpause container")).

#[export] Instance outage_experiment : Experiment D RedisOutage :=
  {| x_Name := λ _, "Infrastructure: Redis Outage"; x_Setup := Outage_Setup; x_InjectFault := Outage_InjectFault; x_Teardown := Outage_Teardown |}.

(** A container that runs before the experiment runs after it, whatever fails, with
    validators that only observe. *)
Lemma outage_is_restored `{!DockerLaws D} {V} `{!ChaosValidator D V} fuel env e (vs : list V) d d' o :
  (∀ v done d, (v_Assert v done d).1 = d) → dk_status (ro_ContainerName e) d = Some status_running →
  Chaos_Run fuel env e vs d = Some (d', o) → dk_status (ro_ContainerName e) d' = Some status_running.
Proof.
  intros Hv Hd H. destruct (run_tears_down _ _ _ _ _ _ _ H) as [[Hp _]|(d1 & Hr & ->)].
  - cbn in Hp. unfold Outage_Setup in Hp. by case_match.
  - cbn. unfold Outage_Teardown. pose proof (dk_unpause_law (ro_ContainerName e) d1) as Hu.
    destruct (dk_unpause (ro_ContainerName e) false d1) as [d2 b]. cbn in *. apply Hu. clear Hu H.
    revert d1 Hr. apply (rtc_ind_r (is_up _)); [by left|]. intros y z _ Hs Hy. destruct Hs as [dn w|dn w|v dn w _].
    + cbn. unfold Outage_Setup. by case_match.
    + cbn. unfold Outage_InjectFault. pose proof (dk_pause_law (ro_ContainerName e) dn w Hy) as Hpause. by destruct (dk_pause _ dn w).
    + by rewrite Hv.
Qed.

(** A container that was paused before is found not to run, and the teardown of the
    refused experiment unpauses it. *)
Lemma refused_outage_unpauses `{!DockerLaws D} {V} `{!ChaosValidator D V} fuel env e (vs : list V) d :
  dk_inspect (ro_ContainerName e) (re_done env) d = Some status_paused →
  ∃ d' r, Chaos_Run fuel env e vs d = Some (d', Ret r) ∧ isSome (cr_SetupError r) = true ∧ cr_TeardownError r = None ∧
    dk_status (ro_ContainerName e) d' = Some status_running.
Proof.
  intros Hi. pose proof (dk_inspect_law _ _ _ _ Hi) as Hs. pose proof (dk_unpause_law (ro_ContainerName e) d (or_intror Hs)) as Hu.
  unfold Chaos_Run. cbn. unfold Outage_Setup. rewrite Hi. cbn. unfold Outage_Teardown.
  destruct (dk_unpause (ro_ContainerName e) false d) as [d' b]. cbn in Hu. by do 2 eexists.
Qed.
End outage.

(** A table of containers is such a Docker. *)
#[export] Instance table_docker : Docker (gmap string string) := {|
  dk_inspect := λ c done d, if done then None else d !! c;
  dk_pause := λ c done d, if negb done && bool_decide (d !! c = Some status_running) then (<[c := status_paused]> d, true) else (d, false);
  dk_unpause := λ c done d, if negb done && bool_decide (d !! c = Some status_paused) then (<[c := status_running]> d, true) else (d, false);
  dk_status := λ c d, d !! c |}.
#[export] Instance table_docker_laws : DockerLaws (gmap string string).
Proof.
  split; unfold is_up; cbn.
  - intros c [] d s H; [done|exact H].
  - intros c done d H. case_match; [|done]. cbn. rewrite lookup_insert_eq. by right.
  - intros c d H. case_bool_decide as E; cbn; [by rewrite lookup_insert_eq|]. by destruct H.
Qed.

(** ** Burning processors (perf/stress.go) *)

(** The channel that stops the workers: absent, open or closed; and the workers. *)
Record CPUStress := mkCPUStress { cp_Workers : Z; cp_Duration : Z }.
Record Stress := mkStress { cp_stopCh : option bool; cp_spinning : nat }.

Definition Stress_Setup (e : CPUStress) (done : bool) (s : Stress) : Stress * outcome (option string) :=
  (mkStress (Some false) (cp_spinning s), Ret None).
Definition Stress_InjectFault (e : CPUStress) (done : bool) (s : Stress) : Stress * outcome (option string) :=
  (mkStress (cp_stopCh s) (cp_spinning s + Z.to_nat (cp_Workers e)), Ret None).
Definition Stress_Teardown (e : CPUStress) (done : bool) (s : Stress) : Stress * outcome (option string) :=
  match cp_stopCh s with
  | Some false => (mkStress (Some true) (cp_spinning s), Ret None)
  | _ => (s, Panic)
  end.
(** A worker that finds the channel closed ends. *)
Definition worker_turn (s : Stress) : Stress :=
  match cp_stopCh s with Some true => mkStress (cp_stopCh s) (pred (cp_spinning s)) | _ => s end.

#[export] Instance stress_experiment : Experiment Stress CPUStress :=
  {| x_Name := λ _, "Performance: CPU Exhaustion"; x_Setup := Stress_Setup; x_InjectFault := Stress_InjectFault; x_Teardown := Stress_Teardown |}.

(** After a run of the experiment, however it ends, its channel is closed and every
    worker ends. *)
Lemma stress_ends {V} `{!ChaosValidator Stress V} fuel env e (vs : list V) s s' o :
  (∀ v done s, (v_Assert v done s).1 = s) → Chaos_Run fuel env e vs s = Some (s', o) →
  cp_stopCh s' = Some true ∧ cp_spinning s' = (cp_spinning s + Z.to_nat (cp_Workers e))%nat ∧
  cp_spinning (Nat.iter (cp_spinning s') worker_turn s') = 0%nat.
Proof.
  intros Hv H. assert (E : cp_stopCh s' = Some true ∧ cp_spinning s' = (cp_spinning s + Z.to_nat (cp_Workers e))%nat).
  { unfold Chaos_Run in H. cbn in H.
    destruct (pollValidators _ _ _ _ _ _ _) as [[w r]|] eqn:Ep; [|done].
    assert (w = mkStress (Some false) (cp_spinning s + Z.to_nat (cp_Workers e))) as ->.
    { apply (poll_loop_keeps _ _ _ _ _ _ _ _ _ _ Hv Ep). }
    destruct r; unfold with_teardown in H; cbn in H; by simplify_eq. }
  destruct E as [E1 E2]. split_and!; [done|done|]. clear -E1. destruct s' as [ch n]. cbn [cp_stopCh cp_spinning] in *. subst.
  assert (Hn : ∀ k, (k ≤ n)%nat → Nat.iter k worker_turn (mkStress (Some true) n) = mkStress (Some true) (n - k)).
  { induction k as [|k IH]; intros Hk; [cbn; f_equal; lia|].
    rewrite Nat.iter_succ, IH by lia. unfold worker_turn. cbn. f_equal. lia. }
  rewrite Hn by lia. cbn. lia.
Qed.

(** ** The validator over Prometheus (validation/verifier.go) *)

(** What a query can come to: no request, no answer, a status other than 200, a body that
    cannot be decoded, or the values of its results. *)
Inductive json_scalar := JStr (s : string) | JOther.
Inductive prom_answer := PNoRequest (err : string) | PNoAnswer (err : string) | PStatus (code : Z) | PBadBody (err : string) | PResult (values : list (list json_scalar)).

Section metric.
Context (ParseFloat : string → result float64 string) (show_status : Z → string) (show_value : float64 → string).

Definition Metric_Assert (Condition : float64 → bool) (answer : prom_answer) : ValidationOutcome * option string :=
  match answer with
  | PNoRequest err => (mkValidation false "", Some err)
  | PNoAnswer err => (mkValidation false "failed to connect to prometheus", Some err)
  | PStatus code => (mkValidation false (String.append "prometheus returned status: " (show_status code)), None)
  | PBadBody err => (mkValidation false "failed to decode prometheus response", Some err)
  | PResult [] => (mkValidation false "no data returned from prometheus query", None)
  | PResult (value :: _) =>
      match value with
      | _ :: v :: _ =>
          match v with
          | JOther => (mkValidation false "value is not a string", None)
          | JStr valStr =>
              match ParseFloat valStr with
              | Err err => (mkValidation false "failed to parse metric value", Some err)
              | Ok val =>
                  if negb (Condition val)
                  then (mkValidation false (String.append "Metric value " (String.append (show_value val) " did not satisfy the boundary condition")), None)
                  else (mkValidation true "Metric boundary satisfied", None)
              end
          end
      | _ => (mkValidation false "invalid value format from prometheus", None)
      end
  end.

(** The validator succeeds exactly when the first result has a value that satisfies its
    condition, and an error is never a success. *)
Lemma metric_succeeds Condition answer :
  (vr_Success (Metric_Assert Condition answer).1 = true ↔
    ∃ t valStr rest more val, answer = PResult ((t :: JStr valStr :: rest) :: more) ∧ ParseFloat valStr = Ok val ∧ Condition val = true) ∧
  (isSome (Metric_Assert Condition answer).2 = true → vr_Success (Metric_Assert Condition answer).1 = false).
Proof.
  split; [split|].
  - destruct answer as [err|err|code|err|[|[|t [|[valStr|] rest]] more]]; cbn; intros H; try discriminate H.
    destruct (ParseFloat valStr) as [val|err] eqn:Ep; [|done]. exists t, valStr, rest, more, val. by destruct (Condition val).
  - intros (t & valStr & rest & more & val & -> & Hp & Hc). cbn. by rewrite Hp, Hc.
  - destruct answer as [err|err|code|err|[|[|t [|[valStr|] rest]] more]]; cbn; try done.
    destruct (ParseFloat valStr) as [val|err]; [|done]. by destruct (Condition val).
Qed.
End metric.

(** [LogValidator]. *)
Definition Log_Assert (MockFound : bool) : ValidationOutcome * option string :=
  if negb MockFound then (mkValidation false "Expected log signature was not found in the aggregator", None)
  else (mkValidation true "Log signature successfully matched", None).

(** ** The engine that disturbs connections (testing/chaos/engine.go) *)

Record FaultConfig := mkFaultConfig { cf_Drop : float64; cf_Delay : float64; cf_MaxDelay : Z; cf_Disconnect : float64 }.
Definition no_chaos : FaultConfig := mkFaultConfig f64_zero f64_zero 0 f64_zero.

(** The engine with the connections it tracks; [en_closed] are the sockets that were
    closed, [en_next] names the next. *)
Record ChaosEngine := mkChaosEngine {
  en_cfg : FaultConfig; en_conns : gset nat;
  en_drops : Z; en_delays : Z; en_disconnects : Z;
  en_closed : gset nat; en_next : nat }.
Definition NewChaosEngine : ChaosEngine := mkChaosEngine no_chaos ∅ 0 0 0 ∅ 0.

Definition SetFaults (e : ChaosEngine) (cfg : FaultConfig) : ChaosEngine :=
  mkChaosEngine cfg (en_conns e) (en_drops e) (en_delays e) (en_disconnects e) (en_closed e) (en_next e).
Definition addConn (e : ChaosEngine) (c : nat) : ChaosEngine :=
  mkChaosEngine (en_cfg e) ({[c]} ∪ en_conns e) (en_drops e) (en_delays e) (en_disconnects e) (en_closed e) (en_next e).
Definition removeConn (e : ChaosEngine) (c : nat) : ChaosEngine :=
  mkChaosEngine (en_cfg e) (en_conns e ∖ {[c]}) (en_drops e) (en_delays e) (en_disconnects e) (en_closed e) (en_next e).
Definition close_socket (e : ChaosEngine) (cs : gset nat) : ChaosEngine :=
  mkChaosEngine (en_cfg e) (en_conns e) (en_drops e) (en_delays e) (en_disconnects e) (cs ∪ en_closed e) (en_next e).
Definition count_faults (e : ChaosEngine) (drops delays disconnects : Z) : ChaosEngine :=
  mkChaosEngine (en_cfg e) (en_conns e) (i64 (en_drops e + drops)) (i64 (en_delays e + delays)) (i64 (en_disconnects e + disconnects)) (en_closed e) (en_next e).

(** [Chaos_Accept] of a connection that arrived. *)
Definition Chaos_Accept (e : ChaosEngine) : ChaosEngine * nat :=
  let c := en_next e in
  (addConn (mkChaosEngine (en_cfg e) (en_conns e) (en_drops e) (en_delays e) (en_disconnects e) (en_closed e) (S c)) c, c).
Definition DisconnectClients (e : ChaosEngine) : ChaosEngine :=
  let e := close_socket e (en_conns e) in mkChaosEngine (en_cfg e) ∅ (en_drops e) (en_delays e) (en_disconnects e) (en_closed e) (en_next e).
Definition Conn_Close (e : ChaosEngine) (c : nat) : ChaosEngine := close_socket (removeConn e c) {[c]}.

Inductive chaos_err := ErrChaosDrop | ErrChaosDisconnect.

(** [applyChaos]: the random numbers of its three draws, of which those are used that are
    reached; the delay is below the maximum. *)
Definition applyChaos (e : ChaosEngine) (r1 r2 r3 : float64) : ChaosEngine * option chaos_err :=
  let cfg := en_cfg e in
  if f64_eqb (cf_Disconnect cfg) f64_zero && f64_eqb (cf_Drop cfg) f64_zero && f64_eqb (cf_Delay cfg) f64_zero then (e, None)
  else if f64_ltb f64_zero (cf_Disconnect cfg) && f64_ltb r1 (cf_Disconnect cfg) then (count_faults e 0 0 1, Some ErrChaosDisconnect)
  else if f64_ltb f64_zero (cf_Drop cfg) && f64_ltb r2 (cf_Drop cfg) then (count_faults e 1 0 0, Some ErrChaosDrop)
  else if f64_ltb f64_zero (cf_Delay cfg) && f64_ltb r3 (cf_Delay cfg) then ((if 0 <? cf_MaxDelay cfg then count_faults e 0 1 0 else e), None)
  else (e, None).

(** What a read or write of the socket gives. *)
Inductive io_result := IoOk (n : Z) | IoErr (err : string).

Definition Conn_Read (e : ChaosEngine) (c : nat) (r1 r2 r3 : float64) (socket : io_result) : ChaosEngine * io_result :=
  match applyChaos e r1 r2 r3 with
  | (e, Some ErrChaosDisconnect) => (Conn_Close e c, IoErr "EOF")
  | (e, Some ErrChaosDrop) => (e, IoErr "chaos: message dropped")
  | (e, None) => match socket with IoOk n => (e, IoOk n) | IoErr err => (removeConn e c, IoErr err) end
  end.
Definition Conn_Write (e : ChaosEngine) (c : nat) (len : Z) (r1 r2 r3 : float64) (socket : io_result) : ChaosEngine * io_result :=
  match applyChaos e r1 r2 r3 with
  | (e, Some ErrChaosDisconnect) => (Conn_Close e c, IoErr "io: read/write on closed pipe")
  | (e, Some ErrChaosDrop) => (e, IoOk len)
  | (e, None) => match socket with IoOk n => (e, IoOk n) | IoErr err => (removeConn e c, IoErr err) end
  end.

(** The float64 of a decimal tenth. *)
Definition tenth (k : Z) : float64 := f64_div (f64_of_Z k) (f64_of_Z 10).

(** A tick of [RandomFailures] with its random numbers; a pause changes nothing. *)
Definition random_failure (e : ChaosEngine) (r d1 d2 : float64) (delay : Z) : ChaosEngine :=
  if f64_ltb r (tenth 1) then DisconnectClients e
  else if f64_ltb r (tenth 2) then e
  else if f64_ltb r (tenth 5) then
    SetFaults e (mkFaultConfig f64_zero (f64_mul d1 (tenth 2)) (delay * Millisecond) (f64_mul d2 (f64_div (f64_of_Z 2) (f64_of_Z 100))))
  else if f64_ltb r (tenth 6) then SetFaults e no_chaos
  else e.

(** ** Any sequence of operations *)

Inductive engine_op :=
  | OConfig (cfg : FaultConfig) | OAccept | ORead (c : nat) (r1 r2 r3 : float64) (socket : io_result)
  | OWrite (c : nat) (len : Z) (r1 r2 r3 : float64) (socket : io_result) | OClose (c : nat) | ODisconnect
  | OTick (r d1 d2 : float64) (delay : Z).
Definition chaos_op (e : ChaosEngine) (o : engine_op) : ChaosEngine :=
  match o with
  | OConfig cfg => SetFaults e cfg
  | OAccept => (Chaos_Accept e).1
  | ORead c r1 r2 r3 socket => (Conn_Read e c r1 r2 r3 socket).1
  | OWrite c len r1 r2 r3 socket => (Conn_Write e c len r1 r2 r3 socket).1
  | OClose c => Conn_Close e c
  | ODisconnect => DisconnectClients e
  | OTick r d1 d2 delay => random_failure e r d1 d2 delay
  end.

(** The connections whose socket has failed in an operation. *)
Definition broken_by (e : ChaosEngine) (o : engine_op) : gset nat :=
  match o with
  | ORead c r1 r2 r3 (IoErr _) | OWrite c _ r1 r2 r3 (IoErr _) => if isSome (applyChaos e r1 r2 r3).2 then ∅ else {[c]}
  | _ => ∅
  end.

(** The program uses a connection only after it was accepted. *)
Definition chaos_op_ok (e : ChaosEngine) (o : engine_op) : Prop :=
  match o with ORead c _ _ _ _ | OWrite c _ _ _ _ _ | OClose c => (c < en_next e)%nat | _ => True end.
Inductive chaos_reaches : ChaosEngine → gset nat → Prop :=
  | reaches_new : chaos_reaches NewChaosEngine ∅
  | reaches_op e broken o : chaos_reaches e broken → chaos_op_ok e o → chaos_reaches (chaos_op e o) (broken_by e o ∪ broken).

(** Every accepted connection is tracked, closed or broken; what is tracked was accepted
    and is not closed. *)
Record conns_tracked (broken : gset nat) (e : ChaosEngine) : Prop := {
  tr_all c : (c < en_next e)%nat → c ∈ en_conns e ∨ c ∈ en_closed e ∨ c ∈ broken;
  tr_conns c : c ∈ en_conns e → (c < en_next e)%nat ∧ c ∉ en_closed e;
  tr_closed c : c ∈ en_closed e → (c < en_next e)%nat;
}.

Lemma applyChaos_keeps e r1 r2 r3 :
  en_conns (applyChaos e r1 r2 r3).1 = en_conns e ∧ en_closed (applyChaos e r1 r2 r3).1 = en_closed e ∧ en_next (applyChaos e r1 r2 r3).1 = en_next e.
Proof. unfold applyChaos. by repeat case_match. Qed.

Lemma tracked_close broken e c : (c < en_next e)%nat → conns_tracked broken e → conns_tracked broken (Conn_Close e c).
Proof.
  intros Hc [H1 H2 H3]. split; cbn; intros k Hk.
  - specialize (H1 k Hk). destruct (decide (k = c)); set_solver.
  - specialize (H2 k). set_solver.
  - apply elem_of_union in Hk as [->%elem_of_singleton|Hk]; [done|by apply H3].
Qed.
Lemma tracked_remove broken e c : conns_tracked broken e → conns_tracked ({[c]} ∪ broken) (removeConn e c).
Proof.
  intros [H1 H2 H3]. split; cbn; intros k Hk.
  - specialize (H1 k Hk). destruct (decide (k = c)); set_solver.
  - specialize (H2 k). set_solver.
  - by apply H3.
Qed.
Lemma tracked_io broken e c r1 r2 r3 socket drop eof :
  (c < en_next e)%nat → conns_tracked broken e →
  conns_tracked (match socket with IoErr _ => if isSome (applyChaos e r1 r2 r3).2 then ∅ else {[c]} | _ => ∅ end ∪ broken)
    (match applyChaos e r1 r2 r3 with
     | (e, Some ErrChaosDisconnect) => (Conn_Close e c, eof)
     | (e, Some ErrChaosDrop) => (e, drop)
     | (e, None) => match socket with IoOk n => (e, IoOk n) | IoErr err => (removeConn e c, IoErr err) end
     end).1.
Proof.
  intros Hc H. pose proof (applyChaos_keeps e r1 r2 r3) as (K1 & K2 & K3). destruct (applyChaos e r1 r2 r3) as [e' err]. cbn in K1, K2, K3.
  assert (H' : conns_tracked broken e') by (destruct H; split; by rewrite ?K1, ?K2, ?K3).
  destruct err as [[]|], socket; cbn; rewrite ?union_empty_l_L; try done; try (apply tracked_close; [by rewrite K3|done]).
  by apply tracked_remove.
Qed.
Lemma tracked_disconnect broken e : conns_tracked broken e → conns_tracked broken (DisconnectClients e).
Proof.
  intros [H1 H2 H3]. split; cbn; intros k Hk.
  - specialize (H1 k Hk). set_solver.
  - set_solver.
  - apply elem_of_union in Hk as [Hk|Hk]; [by apply H2|by apply H3].
Qed.
Lemma tracked_config broken e cfg : conns_tracked broken e → conns_tracked broken (SetFaults e cfg).
Proof. by intros [H1 H2 H3]; split. Qed.

Lemma tracked_step broken e o : chaos_op_ok e o → conns_tracked broken e → conns_tracked (broken_by e o ∪ broken) (chaos_op e o).
Proof.
  intros Ho H. destruct o as [cfg| |c r1 r2 r3 socket|c len r1 r2 r3 socket|c| |r d1 d2 delay]; cbn [chaos_op broken_by chaos_op_ok] in *;
    rewrite ?union_empty_l_L.
  - by apply tracked_config.
  - destruct H as [H1 H2 H3]. split; cbn; intros k Hk.
    + destruct (decide (k = en_next e)) as [->|Hn]; [set_solver|]. destruct (H1 k) as [|]; [lia|set_solver|by right].
    + apply elem_of_union in Hk as [->%elem_of_singleton|Hk]; [split; [lia|]|destruct (H2 k Hk); split; [lia|done]].
      intros Hk%H3. lia.
    + specialize (H3 k Hk). lia.
  - by apply tracked_io.
  - by apply tracked_io.
  - by apply tracked_close.
  - by apply tracked_disconnect.
  - unfold random_failure. repeat case_match; [by apply tracked_disconnect|done|by apply tracked_config|by apply tracked_config|done].
Qed.

Lemma reaches_tracked e broken : chaos_reaches e broken → conns_tracked broken e.
Proof. induction 1 as [|e broken o _ IH Ho]; [split; cbn; [lia|set_solver..]|by apply tracked_step]. Qed.

(** To disconnect the clients closes every connection that was accepted and whose socket
    has not failed, whatever happened before. *)
Lemma disconnect_closes_all e broken c :
  chaos_reaches e broken → (c < en_next e)%nat → c ∉ broken → c ∈ en_closed (DisconnectClients e).
Proof. intros H%reaches_tracked Hc Hb. destruct (tr_all _ _ H c Hc) as [|[|]]; cbn; set_solver. Qed.

(** Without configured faults a connection gives what its socket gives, and nothing is
    counted. *)
Lemma quiet_engine_is_transparent e c r1 r2 r3 socket :
  en_cfg e = no_chaos → (Conn_Read e c r1 r2 r3 socket).2 = socket ∧
  en_drops (Conn_Read e c r1 r2 r3 socket).1 = en_drops e ∧ en_disconnects (Conn_Read e c r1 r2 r3 socket).1 = en_disconnects e.
Proof. intros Hc. unfold Conn_Read, applyChaos. rewrite Hc. cbn. by destruct socket. Qed.
