(* ===== verification/Sanitizer.v ===== *)
(** * Sanitizer: secrets in log lines

    [internal/log/sanitizer.go]: the redaction of the values of sensitive fields in a raw
    log line, over its bytes. The lower case of a line that is not ASCII is an argument,
    since it can have another length. *)

From S2P Require Import Prelude.

Abbreviation text := (list Ascii.ascii).
Abbreviation t s := (String.list_ascii_of_string s) (only parsing).

Definition sensitivePatterns : list text :=
  [t "password"; t "secret"; t "token"; t "api_key"; t "apikey"; t "authorization"; t "auth"; t "credential";
   t "private_key"; t "privatekey"; t "access_key"; t "accesskey"].

(** ** strings *)

Definition ascii_char (c : Ascii.ascii) : bool := (Ascii.nat_of_ascii c <? 128)%nat.
Definition lower_char (c : Ascii.ascii) : Ascii.ascii :=
  let n := Ascii.nat_of_ascii c in if (65 <=? n)%nat && (n <=? 90)%nat then Ascii.ascii_of_nat (n + 32) else c.

Fixpoint is_prefix (p s : text) : bool :=
  match p, s with
  | [], _ => true
  | _ :: _, [] => false
  | a :: p, b :: s => Ascii.eqb a b && is_prefix p s
  end.
(** [strings.Index]. *)
Fixpoint index_of (s p : text) : option nat :=
  if is_prefix p s then Some 0%nat
  else match s with [] => None | _ :: s => S <$> index_of s p end.
(** The number of characters from the start that satisfy a condition. *)
Fixpoint span_while (f : Ascii.ascii → bool) (s : text) : nat :=
  match s with c :: s => if f c then S (span_while f s) else 0%nat | [] => 0%nat end.

Definition quote : Ascii.ascii := Ascii.ascii_of_nat 34.
Definition colon : Ascii.ascii := Ascii.ascii_of_nat 58.
Definition space : Ascii.ascii := Ascii.ascii_of_nat 32.
Definition comma : Ascii.ascii := Ascii.ascii_of_nat 44.
Definition brace : Ascii.ascii := Ascii.ascii_of_nat 125.
Definition redacted : text := quote :: t "[REDACTED]" ++ [quote].

Section sanitize.
Context (unicode_lower : text → text).

(** [strings.ToLower]. *)
Definition lower_text (s : text) : text := if forallb ascii_char s then lower_char <$> s else unicode_lower s.

(** The slices of a string panic out of its range. *)
Definition slice_from (s : text) (n : nat) : outcome text := if (n <=? length s)%nat then Ret (drop n s) else Panic.
Definition slice_to (s : text) (n : nat) : outcome text := if (n <=? length s)%nat then Ret (take n s) else Panic.

(** The place of the value after a match at [idx]: its start and end in the line, or
    nothing when the loop is left. The scan back to the start of the key has no effect. *)
Definition value_range (lower : text) (idx : nat) : option (nat * nat) :=
  match index_of (drop idx lower) [colon] with
  | None => None
  | Some colonIdx =>
      let valueStart := (idx + colonIdx + 1)%nat in
      let valueStart := (valueStart + span_while (Ascii.eqb space) (drop valueStart lower))%nat in
      match lower !! valueStart with
      | None => None
      | Some c =>
          if Ascii.eqb c quote then
            match index_of (drop (valueStart + 1) lower) [quote] with
            | None => None
            | Some valueEnd => Some (valueStart, (valueStart + 1 + valueEnd + 1)%nat)
            end
          else Some (valueStart, (valueStart + span_while (λ c, negb (Ascii.eqb c comma) && negb (Ascii.eqb c brace)) (drop valueStart lower))%nat)
      end
  end.

Fixpoint redact_loop (fuel : nat) (pattern result : text) (searchFrom : nat) : option (outcome text) :=
  match fuel with
  | O => None
  | S fuel =>
      let lower := lower_text result in
      match slice_from lower searchFrom with
      | Panic => Some Panic
      | Ret rest =>
          match index_of rest (lower_text pattern) with
          | None => Some (Ret result)
          | Some i =>
              match value_range lower (i + searchFrom) with
              | None => Some (Ret result)
              | Some (valueStart, valueEnd) =>
                  match slice_to result valueStart, slice_from result valueEnd with
                  | Ret before, Ret after => redact_loop fuel pattern (before ++ redacted ++ after) (valueStart + length redacted)
                  | _, _ => Some Panic
                  end
              end
          end
      end
  end.
(** Every turn leaves less of the line to search. *)
Definition redactPattern (s pattern : text) : option (outcome text) := redact_loop (S (length s)) pattern s 0.

Fixpoint redact_all (patterns : list text) (s : text) : option (outcome text) :=
  match patterns with
  | [] => Some (Ret s)
  | p :: patterns =>
      match redactPattern s p with
      | Some (Ret s) => redact_all patterns s
      | o => o
      end
  end.
Definition SanitizeString (s : text) : option (outcome text) := redact_all sensitivePatterns s.

Definition IsSensitive (fieldName : text) : bool := existsb (λ p, bool_decide (is_Some (index_of (lower_text fieldName) p))) sensitivePatterns.

(** ** Positions *)

Lemma is_prefix_length p s : is_prefix p s = true → (length p ≤ length s)%nat.
Proof. revert s. induction p as [|a p IH]; intros [|b s] H; cbn in *; try done; [lia|]. apply andb_true_iff in H as [_ H%IH]. lia. Qed.
Lemma index_of_bound s p i : index_of s p = Some i → (i + length p ≤ length s)%nat.
Proof.
  revert i. induction s as [|c s IH]; intros i H; cbn in H.
  - destruct p; cbn in H; simplify_eq. cbn. lia.
  - destruct (is_prefix p (c :: s)) eqn:E; [apply is_prefix_length in E; cbn in *; by simplify_eq|].
    destruct (index_of s p) as [j|] eqn:Ej; cbn in H; simplify_eq. specialize (IH j eq_refl). cbn. lia.
Qed.
Lemma span_while_bound f s : (span_while f s ≤ length s)%nat.
Proof. induction s as [|c s IH]; cbn; [lia|]. destruct (f c); lia. Qed.

Lemma value_range_bound lower idx a b : value_range lower idx = Some (a, b) → (idx < a ∧ a ≤ b ∧ b ≤ length lower)%nat.
Proof.
  unfold value_range. intros H. destruct (index_of (drop idx lower) [colon]) as [ci|] eqn:E; [|done].
  apply index_of_bound in E. rewrite length_drop in E. cbn in E.
  set (v := (idx + ci + 1 + span_while (Ascii.eqb space) (drop (idx + ci + 1) lower))%nat) in *.
  destruct (lower !! v) as [c|] eqn:Ec; [|done]. apply lookup_lt_Some in Ec. assert (idx < v)%nat by (unfold v; lia).
  destruct (Ascii.eqb c quote).
  - destruct (index_of (drop (v + 1) lower) [quote]) as [e|] eqn:Ee; [|done]. apply index_of_bound in Ee. rewrite length_drop in Ee. cbn in Ee.
    injection H as <- <-. lia.
  - injection H as <- <-. match goal with |- context [span_while ?f (drop v lower)] => pose proof (span_while_bound f (drop v lower)) as Hb end.
    rewrite length_drop in Hb. lia.
Qed.

(** *** Lines of ASCII *)

Abbreviation ascii_text s := (forallb ascii_char s = true).

Lemma lower_text_ascii s : ascii_text s → lower_text s = lower_char <$> s.
Proof. intros H. unfold lower_text. by rewrite H. Qed.
Lemma lower_text_length s : ascii_text s → length (lower_text s) = length s.
Proof. intros H. by rewrite lower_text_ascii, length_fmap. Qed.
Lemma ascii_app a b : forallb ascii_char (a ++ b) = forallb ascii_char a && forallb ascii_char b.
Proof. apply forallb_app. Qed.
Lemma ascii_redact s a b : ascii_text s → ascii_text (take a s ++ redacted ++ drop b s).
Proof.
  intros H. rewrite !ascii_app.
  assert (Ht : ascii_text (take a s)) by (rewrite <- (take_drop a s), ascii_app in H; by apply andb_true_iff in H as [? _]).
  assert (Hd : ascii_text (drop b s)) by (rewrite <- (take_drop b s), ascii_app in H; by apply andb_true_iff in H as [_ ?]).
  by rewrite Ht, Hd.
Qed.

(** The loop ends: every turn leaves less to search. *)
Lemma redact_loop_ends fuel pattern result from :
  ascii_text result → (from ≤ length result)%nat → (length result - from < fuel)%nat →
  ∃ r, redact_loop fuel pattern result from = Some (Ret r) ∧ ascii_text r.
Proof.
  revert result from. induction fuel as [|fuel IH]; intros result from Ha Hf Hm; [lia|]. cbn [redact_loop].
  unfold slice_from at 1. rewrite lower_text_length, (proj2 (Nat.leb_le _ _)) by done.
  destruct (index_of _ _) as [i|]; [|by eexists]. destruct (value_range _ _) as [[a b]|] eqn:Ev; [|by eexists].
  apply value_range_bound in Ev. rewrite lower_text_length in Ev by done. unfold slice_to, slice_from. rewrite !(proj2 (Nat.leb_le _ _)) by lia.
  apply IH; [by apply ascii_redact|rewrite !length_app, length_take, length_drop; cbn [length redacted]; lia..].
Qed.
Lemma redact_all_ends patterns s : ascii_text s → ∃ r, redact_all patterns s = Some (Ret r).
Proof.
  revert s. induction patterns as [|p patterns IH]; intros s Ha; [by eexists|]. cbn [redact_all].
  destruct (redact_loop_ends (S (length s)) p s 0 Ha) as (r & Hr & Har); [lia..|]. unfold redactPattern. rewrite Hr. by apply IH.
Qed.

(** More fuel gives the same. *)
Lemma redact_loop_mono fuel fuel' pattern result from r :
  redact_loop fuel pattern result from = Some r → (fuel ≤ fuel')%nat → redact_loop fuel' pattern result from = Some r.
Proof.
  revert fuel' result from. induction fuel as [|fuel IH]; intros [|fuel'] result from H Hf; [done|done|lia|]. cbn [redact_loop] in *.
  destruct (slice_from _ _); [|done]. destruct (index_of _ _); [|done]. destruct (value_range _ _) as [[]|]; [|done].
  destruct (slice_to _ _); [|done]. destruct (slice_from result _); [|done]. apply IH; [done|lia].
Qed.
Lemma redact_loop_fuel fuel fuel' pattern result from :
  ascii_text result → (from ≤ length result)%nat → (length result - from < fuel)%nat → (length result - from < fuel')%nat →
  redact_loop fuel pattern result from = redact_loop fuel' pattern result from.
Proof.
  intros Ha Hf H H'. destruct (redact_loop_ends (S (length result - from)) pattern result from Ha Hf) as (r & Hr & _); [lia|].
  by rewrite (redact_loop_mono _ fuel _ _ _ _ Hr), (redact_loop_mono _ fuel' _ _ _ _ Hr) by lia.
Qed.

(** *** The value of a sensitive field *)

Lemma is_prefix_app p s r : (length p ≤ length s)%nat → is_prefix p (s ++ r) = is_prefix p s.
Proof. revert s. induction p as [|a p IH]; intros [|b s] H; cbn in *; try done; [lia|]. by rewrite IH by lia. Qed.
Lemma index_of_app s r p i : index_of s p = Some i → index_of (s ++ r) p = Some i.
Proof.
  revert i. induction s as [|c s IH]; intros i H; pose proof (index_of_bound _ _ _ H) as Hb.
  - destruct p; [|cbn in Hb; lia]. cbn in H. simplify_eq. by destruct r.
  - cbn [index_of app] in *. change (c :: s ++ r) with ((c :: s) ++ r). rewrite is_prefix_app by lia.
    destruct (is_prefix p (c :: s)); [done|]. destruct (index_of s p) as [j|]; [|done]. by rewrite (IH j).
Qed.
Lemma index_of_char s c r : c ∉ s → index_of (s ++ c :: r) [c] = Some (length s).
Proof.
  induction s as [|d s IH]; intros Hn; cbn; [by rewrite Ascii.eqb_refl|].
  rewrite (proj2 (Ascii.eqb_neq c d)) by set_solver. cbn. by rewrite IH by set_solver.
Qed.
Lemma lower_char_inv c d : lower_char c = d → d = quote ∨ d = colon → c = d.
Proof. intros <-. destruct c as [[] [] [] [] [] [] [] []]; cbn; intros [H|H]; done. Qed.
Lemma lower_not_in c (s : text) : c = quote ∨ c = colon → c ∉ s → c ∉ lower_char <$> s.
Proof. intros Hc Hn (d & Hd & Hin)%list_elem_of_fmap. symmetry in Hd. apply lower_char_inv in Hd; [|done]. by subst. Qed.

(** A line with a quoted value after a field name, a colon and spaces. *)
Definition line (name : text) (k : nat) (value rest : text) : text := name ++ colon :: replicate k space ++ quote :: value ++ quote :: rest.

Lemma ascii_spaces k : ascii_text (replicate k space).
Proof. by induction k. Qed.
Lemma ascii_line name k value rest : forallb ascii_char (line name k value rest) = forallb ascii_char name && (forallb ascii_char value && forallb ascii_char rest).
Proof. unfold line. rewrite ascii_app. cbn [forallb]. rewrite ascii_app, ascii_spaces. cbn [forallb]. rewrite ascii_app. done. Qed.

Lemma lower_line name k value rest :
  lower_char <$> line name k value rest =
  (lower_char <$> name) ++ colon :: replicate k space ++ quote :: (lower_char <$> value) ++ quote :: (lower_char <$> rest).
Proof. unfold line. rewrite fmap_app, fmap_cons, fmap_app, fmap_cons, fmap_app, fmap_cons, fmap_replicate. done. Qed.

Lemma span_replicate (k : nat) s : hd_error s ≠ Some space → span_while (Ascii.eqb space) (replicate k space ++ s) = k.
Proof.
  intros Hs. induction k as [|k IH]; cbn [replicate app span_while]; [|by rewrite Ascii.eqb_refl, IH].
  destruct s as [|c s]; [done|]. cbn [span_while].
  destruct (Ascii.eqb_spec space c) as [<-|]; [by destruct Hs|done].
Qed.

(** The value found after a match in the name is the quoted one. *)
Lemma value_range_line name k value rest i :
  (i ≤ length name)%nat → colon ∉ drop i name → quote ∉ value →
  value_range (lower_char <$> line name k value rest) i =
  Some ((length name + 1 + k)%nat, (length name + 1 + k + 1 + length value + 1)%nat).
Proof.
  intros Hi Hc Hq. unfold value_range. rewrite lower_line. set (ln := lower_char <$> name).
  assert (Hln : length ln = length name) by apply length_fmap. set (tail := replicate k space ++ _).
  rewrite drop_app_le by lia. rewrite index_of_char by (unfold ln; rewrite <- fmap_drop; by apply lower_not_in; [right|]).
  rewrite length_drop, Hln. replace (i + (length name - i) + 1)%nat with (length (ln ++ [colon])) by (rewrite length_app; cbn; lia).
  change (ln ++ colon :: tail) with (ln ++ [colon] ++ tail). rewrite (app_assoc ln [colon] tail), drop_app_length.
  assert (Hsp : span_while (Ascii.eqb space) tail = k) by by apply span_replicate. rewrite !Hsp. clear Hsp. set (n := length (ln ++ [colon])).
  assert (Hn : n = (length name + 1)%nat) by (unfold n; rewrite length_app; cbn; lia).
  rewrite lookup_app_r by (fold n; lia). fold n. replace (n + k - n)%nat with (length (replicate k space)) by (rewrite length_replicate; lia).
  unfold tail. rewrite list_lookup_middle by done. rewrite Ascii.eqb_refl.
  rewrite drop_app_ge by (fold n; lia). fold n. rewrite drop_app_ge by (rewrite length_replicate; lia). rewrite length_replicate.
  replace (n + k + 1 - n - k)%nat with 1%nat by lia. cbn [drop]. rewrite drop_0.
  rewrite index_of_char by (apply lower_not_in; [by left|done]). rewrite length_fmap, Hn. done.
Qed.

Lemma redact_first_value fuel pattern name k value rest i :
  ascii_text (line name k value rest) → index_of (lower_char <$> name) (lower_text pattern) = Some i → colon ∉ drop i name → quote ∉ value →
  redact_loop (S fuel) pattern (line name k value rest) 0 =
  redact_loop fuel pattern (name ++ colon :: replicate k space ++ redacted ++ rest) (length name + 1 + k + length redacted).
Proof.
  intros Ha Hi Hc Hq. pose proof (index_of_bound _ _ _ Hi) as Hb. rewrite length_fmap in Hb. cbn [redact_loop]. unfold slice_from at 1. cbn [Nat.leb]. rewrite drop_0.
  rewrite lower_text_ascii by done. rewrite lower_line at 1. rewrite (index_of_app _ _ _ _ Hi), Nat.add_0_r.
  rewrite value_range_line by (done || lia).
  assert (Hlen : length (line name k value rest) = (length name + 1 + k + 1 + length value + 1 + length rest)%nat).
  { unfold line. rewrite length_app. cbn. rewrite length_app, length_replicate. cbn. rewrite length_app. cbn. lia. }
  unfold slice_to, slice_from. rewrite !(proj2 (Nat.leb_le _ _)) by lia. f_equal.
  set (pre := name ++ colon :: replicate k space).
  assert (Hpre : length pre = (length name + 1 + k)%nat) by (unfold pre; rewrite length_app; cbn; rewrite length_replicate; lia).
  assert (E : line name k value rest = pre ++ (quote :: value ++ [quote]) ++ rest) by (unfold line, pre; rewrite <- !app_assoc; cbn; by rewrite <- !app_assoc).
  rewrite E, <- Hpre, take_app_length, drop_app_ge by lia. replace (length pre + 1 + length value + 1 - length pre)%nat with (length (quote :: value ++ [quote])).
  - rewrite drop_app_length. unfold pre. by rewrite <- !app_assoc.
  - cbn. rewrite length_app. cbn. lia.
Qed.

(** One pattern: the line after it does not depend on the value. *)
Lemma redactPattern_hides pattern name k v1 v2 rest i :
  ascii_text (line name k v1 rest) → ascii_text (line name k v2 rest) →
  index_of (lower_char <$> name) (lower_text pattern) = Some i → colon ∉ drop i name → quote ∉ v1 → quote ∉ v2 →
  redactPattern (line name k v1 rest) pattern = redactPattern (line name k v2 rest) pattern.
Proof.
  intros A1 A2 Hi Hc H1 H2. unfold redactPattern. rewrite !(redact_first_value _ _ _ _ _ _ i) by done.
  assert (Ha : ascii_text (name ++ colon :: replicate k space ++ redacted ++ rest)).
  { rewrite ascii_line in A1. apply andb_true_iff in A1 as [An [Av Ar]%andb_true_iff].
    rewrite ascii_app, An. cbn [forallb]. rewrite !ascii_app, ascii_spaces, Ar. done. }
  assert (Hl : length (name ++ colon :: replicate k space ++ redacted ++ rest) = (length name + 1 + k + length redacted + length rest)%nat).
  { rewrite length_app. cbn [length]. rewrite !length_app, length_replicate. lia. }
  apply redact_loop_fuel; [done|lia|..]; rewrite Hl; unfold line; rewrite length_app; cbn [length]; rewrite length_app; cbn [length]; rewrite length_app; cbn [length]; lia.
Qed.

Lemma redactPattern_absent pattern s : ascii_text s → index_of (lower_char <$> s) (lower_text pattern) = None → redactPattern s pattern = Some (Ret s).
Proof. intros Ha Hi. unfold redactPattern. cbn [redact_loop]. rewrite lower_text_ascii by done. unfold slice_from at 1. cbn [Nat.leb]. by rewrite drop_0, Hi. Qed.

Lemma redact_all_absent before after s :
  ascii_text s → Forall (λ p, index_of (lower_char <$> s) (lower_text p) = None) before → redact_all (before ++ after) s = redact_all after s.
Proof. intros Ha. induction 1 as [|p before Hp _ IH]; [done|]. cbn [redact_all app]. by rewrite redactPattern_absent. Qed.

(** The sanitized line exists and does not depend on the quoted value of the first
    sensitive field: whatever secret without quotes is logged there, the line is the
    same, when no pattern that is tried before occurs in it. *)
Lemma sanitized_hides_secret before pattern after name k v1 v2 rest i :
  sensitivePatterns = before ++ pattern :: after →
  ascii_text (line name k v1 rest) → ascii_text (line name k v2 rest) →
  Forall (λ p, index_of (lower_char <$> line name k v1 rest) (lower_text p) = None ∧ index_of (lower_char <$> line name k v2 rest) (lower_text p) = None) before →
  index_of (lower_char <$> name) (lower_text pattern) = Some i → colon ∉ drop i name → quote ∉ v1 → quote ∉ v2 →
  SanitizeString (line name k v1 rest) = SanitizeString (line name k v2 rest) ∧ ∃ r, SanitizeString (line name k v1 rest) = Some (Ret r).
Proof.
  intros Hs A1 A2 Hb Hi Hc H1 H2. split; [|by apply redact_all_ends]. unfold SanitizeString. rewrite Hs.
  rewrite !redact_all_absent; [|done|by eapply Forall_impl; [exact Hb|]; intros ? []|done|by eapply Forall_impl; [exact Hb|]; intros ? []].
  cbn [redact_all]. by rewrite (redactPattern_hides pattern name k v1 v2 rest i).
Qed.

End sanitize.

(** ** Lines *)

Definition q (s : string) : text := quote :: t s ++ [quote].

(** Two lines that differ in a token are sanitized to the same line. *)
Example token_is_hidden lower :
  SanitizeString lower (line (t "{" ++ q "access_Token") 1 (t "abc123") (t "," ++ q "n" ++ t ":1}")) =
  SanitizeString lower (line (t "{" ++ q "access_Token") 1 (t "other") (t "," ++ q "n" ++ t ":1}")).
Proof.
  refine (proj1 (sanitized_hides_secret lower [t "password"; t "secret"] (t "token") _ _ _ _ _ _ 9%nat _ _ _ _ _ _ _ _)); try reflexivity.
  - repeat constructor.
  - apply (bool_decide_unpack _). by vm_compute.
  - apply (bool_decide_unpack _). by vm_compute.
  - apply (bool_decide_unpack _). by vm_compute.
Qed.
Example token_line lower :
  SanitizeString lower (line (t "{" ++ q "token") 0 (t "abc123") (t "}")) = Some (Ret (t "{" ++ q "token" ++ t ":" ++ q "[REDACTED]" ++ t "}")).
Proof. reflexivity. Qed.

(** What follows an escaped quote in a secret stays in the line. *)
Example escaped_quote_leaks lower :
  SanitizeString lower (t "{" ++ q "password" ++ t ":" ++ quote :: t "ab" ++ Ascii.ascii_of_nat 92 :: quote :: t "cd" ++ quote :: t "}") =
  Some (Ret (t "{" ++ q "password" ++ t ":" ++ q "[REDACTED]" ++ t "cd" ++ quote :: t "}")).
Proof. reflexivity. Qed.

(** A pattern in a value redacts the field after it. *)
Example pattern_in_value_redacts_next lower :
  SanitizeString lower (t "{" ++ q "msg" ++ t ":" ++ q "auth ok" ++ t "," ++ q "price" ++ t ":10}") =
  Some (Ret (t "{" ++ q "msg" ++ t ":" ++ q "auth ok" ++ t "," ++ q "price" ++ t ":" ++ q "[REDACTED]" ++ t "}")).
Proof. reflexivity. Qed.

(** The letter U+023A has two bytes and its lower case U+2C65 three: the end of an
    unquoted value in the lower case of the line is beyond the line, and the slice
    panics. *)
Definition u023A : text := Ascii.ascii_of_nat <$> [200; 186]%nat.
Definition u2C65 : text := Ascii.ascii_of_nat <$> [226; 177; 165]%nat.
Lemma longer_lower_case_panics lower :
  lower (u023A ++ t "password:x") = u2C65 ++ t "password:x" → SanitizeString lower (u023A ++ t "password:x") = Some Panic.
Proof.
  intros H. unfold SanitizeString, sensitivePatterns. cbn [redact_all]. unfold redactPattern. cbn [redact_loop].
  assert (E : lower_text lower (u023A ++ t "password:x") = u2C65 ++ t "password:x") by (rewrite <- H; reflexivity). by rewrite E.
Qed.
