(* ===== verification/Delivery.v ===== *)
(** * Delivery: what reaches a gateway from Redis and from a replay

    [internal/distribution/redisbus/subscriber.go]: the commands that the subscriber has
    sent, against the channels that Redis then serves, and the loop that reads messages.
    [internal/websocket/replay_handler.go]: the publisher that turns recorded events back
    into market events and offers them to the channel of a client's replay. *)

From Stdlib Require Import Strings.Byte.
From S2P Require Import Prelude Bytes Float64 MarketEvent Bus WireEnvelope RedisBus Router EventStore Pipeline EventLog EventPublisher.

(** ** The channels at Redis *)

(** What Redis serves after a list of commands that it carries out. *)
Definition serve (served : gset string) (cmd : RedisCommand) : gset string :=
  match cmd with
  | CmdSubscribe chs => list_to_set chs ∪ served
  | CmdUnsubscribe chs => served ∖ list_to_set chs
  end.
Definition served_channels (cmds : list RedisCommand) : gset string := fold_left serve cmds ∅.

(** [Start]: the connection, and one command for the channels there are. *)
Definition RedisSub_Start (s : RedisSub) : RedisSub :=
  if rd_connected s then s
  else
    mkRedisSub (rd_prefix s) (rd_channels s) true
      (rd_commands s ++ (match elements (rd_channels s) with [] => [] | syms => [CmdSubscribe ((λ sym, rd_prefix s +:+ sym) <$> syms)] end)).

Definition NewSubscriber (prefix : string) : RedisSub := mkRedisSub prefix ∅ false [].

Inductive sub_call := CallStart | CallSubscribe (symbol : string) | CallBatch (symbols : list string) | CallUnsubscribe (symbol : string).
Definition sub_apply (s : RedisSub) (c : sub_call) : RedisSub :=
  match c with
  | CallStart => RedisSub_Start s
  | CallSubscribe sym => RedisSub_Subscribe s sym
  | CallBatch syms => RedisSub_SubscribeBatch s syms
  | CallUnsubscribe sym => RedisSub_Unsubscribe s sym
  end.

Definition channels_of (prefix : string) (syms : gset string) : gset string := set_map (λ sym, prefix +:+ sym) syms.

Lemma channels_of_union prefix a b : channels_of prefix (a ∪ b) = channels_of prefix a ∪ channels_of prefix b.
Proof. apply set_map_union_L. Qed.
Lemma channels_of_list prefix l : channels_of prefix (list_to_set l) = list_to_set ((λ sym, prefix +:+ sym) <$> l).
Proof. apply set_eq. intros x. unfold channels_of. rewrite elem_of_map, elem_of_list_to_set, list_elem_of_fmap. by setoid_rewrite elem_of_list_to_set. Qed.

#[global] Instance prefixed_inj prefix : Inj (=) (=) (λ sym, prefix +:+ sym).
Proof. intros a b H. by apply (inj (String.append prefix)) in H. Qed.

Lemma channels_of_remove prefix a sym : channels_of prefix (a ∖ {[sym]}) = channels_of prefix a ∖ {[prefix +:+ sym]}.
Proof.
  apply set_eq. intros x. unfold channels_of. rewrite elem_of_difference, !elem_of_map, elem_of_singleton. split.
  - intros (y & -> & [Hy Hn]%elem_of_difference). split; [by exists y|]. intros E%(inj (λ sym, prefix +:+ sym)). set_solver.
  - intros [(y & -> & Hy) Hn]. exists y. split; [done|]. apply elem_of_difference. split; [done|]. intros ->%elem_of_singleton. done.
Qed.

Lemma served_snoc cmds cmd : served_channels (cmds ++ [cmd]) = serve (served_channels cmds) cmd.
Proof. unfold served_channels. by rewrite fold_left_app. Qed.

(** The subscriber's set, once it is connected, is what Redis serves. *)
Definition in_step (s : RedisSub) : Prop :=
  if rd_connected s then served_channels (rd_commands s) = channels_of (rd_prefix s) (rd_channels s) else rd_commands s = [].

Lemma rd_send_in_step s channels cmd :
  in_step s → serve (channels_of (rd_prefix s) (rd_channels s)) cmd = channels_of (rd_prefix s) channels → in_step (rd_send s channels cmd).
Proof.
  unfold in_step, rd_send. cbn [rd_connected rd_commands rd_prefix rd_channels]. destruct (rd_connected s); [|done].
  intros H Hc. by rewrite served_snoc, H.
Qed.

Lemma batch_add_served prefix syms c0 c chs :
  channels_of prefix c = list_to_set chs ∪ channels_of prefix c0 →
  channels_of prefix (fold_left (batch_add prefix) syms (c, chs)).1 = list_to_set (fold_left (batch_add prefix) syms (c, chs)).2 ∪ channels_of prefix c0.
Proof.
  revert c chs. induction syms as [|x syms IH]; intros c chs H; [exact H|]. cbn [fold_left batch_add]. case_decide; [by apply IH|].
  apply IH. rewrite channels_of_union, H, list_to_set_app_L. replace ({[x]} : gset string) with (list_to_set [x] : gset string) by set_solver.
  rewrite channels_of_list. set_solver.
Qed.

Lemma sub_apply_in_step s c : in_step s → in_step (sub_apply s c).
Proof.
  intros H. destruct c as [|sym|syms|sym]; cbn [sub_apply].
  - unfold RedisSub_Start. destruct (rd_connected s) eqn:Ec; [done|]. unfold in_step in *. rewrite Ec in H. cbn [rd_connected rd_commands rd_prefix rd_channels]. rewrite H. cbn [app].
    destruct (elements (rd_channels s)) as [|x l] eqn:El.
    + apply elements_empty_inv, leibniz_equiv in El. by rewrite El.
    + rewrite <- El. unfold served_channels. cbn [fold_left serve]. rewrite <- channels_of_list, list_to_set_elements_L. set_solver.
  - apply rd_send_in_step; [done|]. cbn [serve]. rewrite channels_of_union. replace ({[sym]} : gset string) with (list_to_set [sym] : gset string) at 1 by set_solver.
    by rewrite channels_of_list.
  - unfold RedisSub_SubscribeBatch. destruct syms as [|x syms]; [done|].
    pose proof (batch_add_served (rd_prefix s) (x :: syms) (rd_channels s) (rd_channels s) []) as Hb.
    destruct (fold_left _ _ _) as [c chs]. cbn [fst snd] in Hb. specialize (Hb ltac:(cbn; set_solver)).
    destruct chs as [|y chs].
    + unfold in_step in *. cbn [rd_connected rd_commands rd_prefix rd_channels]. destruct (rd_connected s); [|done]. rewrite H, Hb. cbn. set_solver.
    + apply rd_send_in_step; [done|]. cbn [serve]. by rewrite Hb.
  - apply rd_send_in_step; [done|]. cbn [serve]. rewrite channels_of_remove. cbn. set_solver.
Qed.

(** After any sequence of calls, with a start anywhere, Redis serves exactly the channels
    of the subscribed symbols; before the start nothing was sent. *)
Lemma served_channels_are_subscribed prefix calls :
  let s := fold_left sub_apply calls (NewSubscriber prefix) in
  if rd_connected s then served_channels (rd_commands s) = channels_of (rd_prefix s) (rd_channels s) else rd_commands s = [].
Proof.
  cbn zeta. change (in_step (fold_left sub_apply calls (NewSubscriber prefix))).
  assert (H : in_step (NewSubscriber prefix)) by done. revert H. generalize (NewSubscriber prefix).
  induction calls as [|c calls IH]; intros s H; [done|]. cbn. by apply IH, sub_apply_in_step.
Qed.

(** A call changes the set under one lock and sends its command under another. When a
    subscription comes between the two of an unsubscription, the symbol is subscribed and
    Redis does not serve it. *)
Definition set_only (s : RedisSub) (channels : gset string) : RedisSub := mkRedisSub (rd_prefix s) channels (rd_connected s) (rd_commands s).
Definition send_only (s : RedisSub) (cmd : RedisCommand) : RedisSub := rd_send s (rd_channels s) cmd.
Lemma calls_are_two_sections s sym :
  RedisSub_Subscribe s sym = send_only (set_only s ({[sym]} ∪ rd_channels s)) (CmdSubscribe [rd_prefix s +:+ sym]) ∧
  RedisSub_Unsubscribe s sym = send_only (set_only s (rd_channels s ∖ {[sym]})) (CmdUnsubscribe [rd_prefix s +:+ sym]).
Proof. done. Qed.
Lemma interleaved_calls_part s sym :
  rd_connected s = true →
  let s1 := set_only s (rd_channels s ∖ {[sym]}) in
  let s2 := RedisSub_Subscribe s1 sym in
  let s3 := send_only s2 (CmdUnsubscribe [rd_prefix s +:+ sym]) in
  sym ∈ rd_channels s3 ∧ (rd_prefix s +:+ sym) ∉ served_channels (rd_commands s3).
Proof.
  intros Hc. cbn zeta. unfold RedisSub_Subscribe, send_only, rd_send, set_only.
  cbn [rd_connected rd_commands rd_prefix rd_channels]. rewrite !Hc, !served_snoc. cbn [serve list_to_set]. split; set_solver.
Qed.

(** ** The loop of the subscriber *)

(** What the select receives: a message, a tick, the end of the channel or of the
    context; with the clock. *)
Inductive listen_input := LnMessage (now : Z) (payload : list byte) | LnTick (now : Z) | LnClosed | LnDone.

Section listen.
Context {E : Type} `{!MarketEventOps E}.

(** The subscriber's loop: the counter, the staleness, what was handed to the manager and
    how often the callback was called. *)
Record Listener := mkListener { ln_received : Z; ln_stale : StaleState; ln_published : list (MarketEvent E); ln_calls : nat; ln_ended : bool }.

Definition listen_turn (l : Listener) (i : listen_input) : Listener :=
  if ln_ended l then l
  else
    match i with
    | LnMessage now payload =>
        let st := record_message (ln_stale l) now in
        match handleMessage payload with
        | None => mkListener (ln_received l) st (ln_published l) (ln_calls l) false
        | Some ev => mkListener (u64 (ln_received l + 1)) st (ln_published l ++ [ev]) (ln_calls l) false
        end
    | LnTick now =>
        let '(st, fired) := checkStaleness (ln_stale l) now in
        mkListener (ln_received l) st (ln_published l) (if fired then S (ln_calls l) else ln_calls l) false
    | LnClosed | LnDone => mkListener (ln_received l) (ln_stale l) (ln_published l) (ln_calls l) true
    end.
Definition listen (threshold : Z) (hasCallback : bool) (inputs : list listen_input) : Listener :=
  fold_left listen_turn inputs (mkListener 0 (mkStale 0 false threshold hasCallback) [] 0 false).

(** The inputs before the end of the loop, and the events in them. *)
Fixpoint before_end (inputs : list listen_input) : list listen_input :=
  match inputs with
  | (LnMessage _ _ | LnTick _) as i :: rest => i :: before_end rest
  | _ => []
  end.
Definition event_of (i : listen_input) : option (MarketEvent E) := match i with LnMessage _ payload => handleMessage payload | _ => None end.

Lemma ended_stays l inputs : ln_ended l = true → fold_left listen_turn inputs l = l.
Proof. intros H. induction inputs as [|i inputs IH]; [done|]. cbn. unfold listen_turn at 2. by rewrite H. Qed.

Lemma listen_from l inputs :
  ln_ended l = false →
  ln_published (fold_left listen_turn inputs l) = ln_published l ++ omap event_of (before_end inputs) ∧
  (0 ≤ ln_received l < 2 ^ 64 → ln_received (fold_left listen_turn inputs l) = u64 (ln_received l + Z.of_nat (length (omap event_of (before_end inputs))))) ∧
  ((ln_calls l ≤ if st_fired (ln_stale l) then 1 else 0)%nat →
   (ln_calls (fold_left listen_turn inputs l) ≤ if st_fired (ln_stale (fold_left listen_turn inputs l)) then 1 else 0)%nat).
Proof.
  revert l. induction inputs as [|i inputs IH]; intros l Hl.
  { cbn. rewrite app_nil_r, Z.add_0_r. split_and!; [done| |done]. intros H. unfold u64. by rewrite Z.mod_small. }
  assert (Hend : listen_turn l i = mkListener (ln_received l) (ln_stale l) (ln_published l) (ln_calls l) true →
    before_end (i :: inputs) = [] →
    ln_published (fold_left listen_turn (i :: inputs) l) = ln_published l ++ omap event_of (before_end (i :: inputs)) ∧
    (0 ≤ ln_received l < 2 ^ 64 → ln_received (fold_left listen_turn (i :: inputs) l) = u64 (ln_received l + Z.of_nat (length (omap event_of (before_end (i :: inputs)))))) ∧
    ((ln_calls l ≤ if st_fired (ln_stale l) then 1 else 0)%nat →
     (ln_calls (fold_left listen_turn (i :: inputs) l) ≤ if st_fired (ln_stale (fold_left listen_turn (i :: inputs) l)) then 1 else 0)%nat)).
  { intros Ht Hb. rewrite Hb. cbn [fold_left]. rewrite Ht, ended_stays by done. cbn. rewrite app_nil_r, Z.add_0_r.
    split_and!; [done| |done]. intros H. unfold u64. by rewrite Z.mod_small. }
  destruct i as [now payload|now| |].
  - cbn [fold_left before_end]. unfold listen_turn at 2 4 6 8. rewrite Hl. cbn [omap list_omap event_of].
    destruct (handleMessage payload) as [ev|] eqn:Em.
    + destruct (IH (mkListener (u64 (ln_received l + 1)) (record_message (ln_stale l) now) (ln_published l ++ [ev]) (ln_calls l) false)) as (I1 & I2 & I3); [done|].
      cbn [ln_published ln_received ln_calls ln_stale] in *. split_and!.
      * rewrite I1, <- app_assoc. done.
      * intros _. rewrite I2 by (apply Z.mod_pos_bound; lia). cbn [length]. unfold u64. rewrite Zplus_mod_idemp_l. f_equal. lia.
      * intros Hc. by apply I3.
    + destruct (IH (mkListener (ln_received l) (record_message (ln_stale l) now) (ln_published l) (ln_calls l) false)) as (I1 & I2 & I3); [done|].
      by split_and!.
  - cbn [fold_left before_end]. unfold listen_turn at 2 4 6 8. rewrite Hl. cbn [omap list_omap event_of].
    destruct (checkStaleness (ln_stale l) now) as [st fired] eqn:Es.
    destruct (IH (mkListener (ln_received l) st (ln_published l) (if fired then S (ln_calls l) else ln_calls l) false)) as (I1 & I2 & I3); [done|].
    split_and!; [done|done|]. intros Hc. apply I3. cbn. clear -Hc Es. unfold checkStaleness in Es.
    repeat case_match; simplify_eq; cbn in *; destruct (st_fired (ln_stale l)); cbn in *; lia.
  - apply Hend; [|done]. unfold listen_turn. by rewrite Hl.
  - apply Hend; [|done]. unfold listen_turn. by rewrite Hl.
Qed.

(** The loop hands the manager exactly the events of the messages that it reads before
    its end, in order, and counts them; the callback is called at most once. *)
Lemma listener_forwards threshold hasCallback inputs :
  let l := listen threshold hasCallback inputs in
  ln_published l = omap event_of (before_end inputs) ∧ ln_received l = u64 (Z.of_nat (length (ln_published l))) ∧ (ln_calls l ≤ 1)%nat.
Proof.
  cbn zeta. unfold listen.
  destruct (listen_from (mkListener 0 (mkStale 0 false threshold hasCallback) [] 0 false) inputs eq_refl) as (H1 & H2 & H3).
  rewrite H1, H2 by (cbn; lia). split_and!; [done|done|]. specialize (H3 ltac:(cbn; lia)). destruct (st_fired _) in H3; lia.
Qed.

(** An outage of Redis before the first message is not reported: without one nothing is
    stale. *)
Lemma silent_start_is_not_stale threshold hasCallback inputs :
  Forall (λ i, match i with LnMessage _ _ => False | _ => True end) inputs → ln_calls (listen threshold hasCallback inputs) = 0%nat.
Proof.
  intros H. unfold listen. enough (G : ∀ l, st_lastMessageAt (ln_stale l) = 0 → ln_calls (fold_left listen_turn inputs l) = ln_calls l) by (by rewrite G).
  induction H as [|i inputs Hi _ IH]; intros l Hl; [done|]. cbn. unfold listen_turn at 2.
  destruct (ln_ended l); [by apply IH|]. destruct i as [| now| |]; [done| |by rewrite IH..].
  unfold checkStaleness. rewrite Hl. cbn. destruct (negb _); by rewrite IH.
Qed.
End listen.

(** ** Recorded events in a replay (replay_handler.go) *)

Inductive reconstruct_error := errNoPayload | errUnknownEventType | UnmarshalError.
Definition replayBuffer : nat := Z.to_nat 1024.

Section replay_publisher.
(** [json.Unmarshal] of a quote and of a bar. *)
Context (unmarshal_quote : list byte → option Quote) (unmarshal_bar : list byte → option Bar).

Definition reconstructMarketEvent (ev : EventStore.StoredEvent) : result any_event reconstruct_error :=
  match se_Payload ev with
  | [] => Err errNoPayload
  | _ =>
      let ty := EventStore.se_EventType ev in
      if String.eqb ty "quote" || String.eqb ty "trade" || String.eqb ty "" then
        match unmarshal_quote (se_Payload ev) with Some q => Ok (EvQuote q) | None => Err UnmarshalError end
      else if String.eqb ty "bar" then
        match unmarshal_bar (se_Payload ev) with Some b => Ok (EvBar b) | None => Err UnmarshalError end
      else Err errUnknownEventType
  end.

(** The channel of a replay, with what the client has taken from it; the events that were
    not sent are counted. An event is encoded as it is wrapped ([NewCachedEvent]), which
    keeps it. *)
Record ReplayChan := mkReplayChan { rp_taken : list any_event; rp_buffer : list any_event; rp_dropped : nat; rp_failed : nat }.
Definition new_replay_chan : ReplayChan := mkReplayChan [] [] 0 0.

Definition PublishEvent (c : ReplayChan) (ev : EventStore.StoredEvent) : ReplayChan :=
  match reconstructMarketEvent ev with
  | Err _ => mkReplayChan (rp_taken c) (rp_buffer c) (rp_dropped c) (S (rp_failed c))
  | Ok e =>
      if (length (rp_buffer c) <? replayBuffer)%nat then mkReplayChan (rp_taken c) (rp_buffer c ++ [e]) (rp_dropped c) (rp_failed c)
      else mkReplayChan (rp_taken c) (rp_buffer c) (S (rp_dropped c)) (rp_failed c)
  end.

(** The clock publishes, the write pump takes. *)
Inductive feed_step : ReplayChan * list EventStore.StoredEvent → ReplayChan * list EventStore.StoredEvent → Prop :=
  | feed_publish c done ev : feed_step (c, done) (PublishEvent c ev, done ++ [ev])
  | feed_take c done e rest : rp_buffer c = e :: rest → feed_step (c, done) (mkReplayChan (rp_taken c ++ [e]) rest (rp_dropped c) (rp_failed c), done).

Definition reconstructed (ev : EventStore.StoredEvent) : option any_event := match reconstructMarketEvent ev with Ok e => Some e | Err _ => None end.

(** In every interleaving of the replay and its client, the client gets the recorded
    events in their order, each at most once; every event is delivered, buffered, dropped
    or could not be reconstructed; and all are delivered when none was dropped. *)
Lemma replay_feed_delivers c done :
  rtc feed_step (new_replay_chan, []) (c, done) →
  (rp_taken c ++ rp_buffer c) `sublist_of` omap reconstructed done ∧ (length (rp_buffer c) ≤ replayBuffer)%nat ∧
  (length (rp_taken c ++ rp_buffer c) + rp_dropped c + rp_failed c = length done)%nat ∧
  (rp_dropped c = 0%nat → rp_taken c ++ rp_buffer c = omap reconstructed done).
Proof.
  intros H. set (P := λ s : ReplayChan * list EventStore.StoredEvent,
    (rp_taken s.1 ++ rp_buffer s.1) `sublist_of` omap reconstructed s.2 ∧ (length (rp_buffer s.1) ≤ replayBuffer)%nat ∧
    (length (rp_taken s.1 ++ rp_buffer s.1) + rp_dropped s.1 + rp_failed s.1 = length s.2)%nat ∧
    (rp_dropped s.1 = 0%nat → rp_taken s.1 ++ rp_buffer s.1 = omap reconstructed s.2)).
  enough (G : P (c, done)) by exact G. revert H. generalize (c, done). apply rtc_ind_r.
  { unfold P. cbn. split_and!; [constructor|lia|done|done]. }
  intros s s' _ Hs (I1 & I2 & I3 & I4). destruct Hs as [c0 done0 ev|c0 done0 e rest Hb]; unfold P; cbn [fst snd] in *.
  - rewrite omap_app, (length_app done0). cbn [omap list_omap length]. unfold PublishEvent, reconstructed at 2 4.
    destruct (reconstructMarketEvent ev) as [e|err]; [destruct (Nat.ltb_spec (length (rp_buffer c0)) replayBuffer)|]; cbn [rp_taken rp_buffer rp_dropped rp_failed].
    + rewrite app_assoc. split_and!; [by apply sublist_app|rewrite !length_app in *; cbn [length]; lia|rewrite !length_app in *; cbn [length]; lia|]. intros Hd. by rewrite I4.
    + split_and!; [by apply sublist_inserts_r|done|lia|done].
    + rewrite app_nil_r. split_and!; [done|done|lia|done].
  - rewrite Hb in *. cbn [rp_taken rp_buffer rp_dropped rp_failed]. rewrite <- app_assoc. cbn [app]. split_and!; [done|cbn in I2; lia|done|done].
Qed.

(** What was persisted is replayed: the row of a quote or bar is reconstructed to it. *)
Context (marshal : any_event → option (list byte)) (db_time : Z → Z).

Lemma persisted_event_is_replayed be id raw :
  marshal (be_event be) = Some raw → unmarshal_quote [] = None → unmarshal_bar [] = None →
  match be_event be with
  | EvQuote q => (q_Type q = "quote" ∨ q_Type q = "trade" ∨ q_Type q = "") ∧ unmarshal_quote raw = Some q
  | EvBar b => unmarshal_bar raw = Some b
  | EvOther _ _ => False
  end →
  reconstructMarketEvent (eventlogToModel (prepare db_time id (toStoredEvent marshal be))) = Ok (be_event be).
Proof.
  intros Hm Hq Hb He. unfold reconstructMarketEvent, eventlogToModel, toStoredEvent. rewrite Hm.
  destruct (be_event be) as [q|b|]; [destruct He as [Ht He]|..|done]; cbn; (destruct raw as [|x raw]; [congruence|]); rewrite He; [|done].
  by destruct Ht as [->|[->| ->]].
Qed.

(** An event that could not be marshalled is kept as [null], which unmarshals to nothing:
    it is replayed as an empty quote. *)
Lemma unmarshalled_event_is_replayed_empty q now id zero :
  marshal (EvQuote q) = None → (q_Type q = "quote" ∨ q_Type q = "trade") → unmarshal_quote (bytes_of_string "null") = Some zero →
  reconstructMarketEvent (eventlogToModel (prepare db_time id (toStoredEvent marshal (mkBuffered (EvQuote q) now)))) = Ok (EvQuote zero).
Proof.
  intros Hm Ht Hz. unfold reconstructMarketEvent, eventlogToModel, toStoredEvent. cbn [be_event]. rewrite Hm. cbn in Hz |- *. rewrite Hz.
  by destruct Ht as [->| ->].
Qed.
End replay_publisher.
