(* ===== verification/Endpoints.v ===== *)
(** * Endpoints: handlers over the services

    [internal/metadata/api.go] and [internal/orderbook/api.go]: the answers of the HTTP
    handlers, with the paging of a listing; [internal/orderbook/publisher.go]; the
    adapter that makes an HTTP server a component
    ([internal/platform/lifecycle/adapters]); and the carrier of correlation headers
    ([internal/correlation/propagation]). *)

From S2P Require Import Prelude Float64 OrderBook Metadata.

(** ** Instruments (metadata/api.go) *)

(** A status and the value that is encoded as the body; an error is its text. *)
Inductive answer (A : Type) := Answer (status : Z) (body : A) | Failure (status : Z) (text : string).
Arguments Answer {A} _ _.
Arguments Failure {A} _ _.

Definition handleGetSymbol (s : MetadataService) (symbol : string) : answer Instrument :=
  match GetBySymbol (ms_cache s) symbol with Ok inst => Answer 200 inst | Err e => Failure 404 e end.

(** The parameters as [strconv.Atoi] reads them: nothing on an error. *)
Definition page_limit (limitStr : option Z) : Z := match limitStr with Some l => if 0 <? l then l else 100 | None => 100 end.
Definition page_offset (offsetStr : option Z) : Z := match offsetStr with Some o => if 0 <=? o then o else 0 | None => 0 end.

(** [insts[offset:end]]: the slice panics when its end is before its start. *)
Definition respondPaginatedJSON {A} (limitStr offsetStr : option Z) (insts : list A) : outcome (list A) :=
  let limit := page_limit limitStr in
  let offset := page_offset offsetStr in
  let n := Z.of_nat (length insts) in
  if n <=? offset then Ret []
  else
    let end_ := i64 (offset + limit) in
    let end_ := if n <? end_ then n else end_ in
    if end_ <? offset then Panic else Ret (take (Z.to_nat (end_ - offset)) (drop (Z.to_nat offset) insts)).

Definition handleGetExchange (s : MetadataService) (exchange : string) (limitStr offsetStr : option Z) : outcome (answer (list Instrument)) :=
  match respondPaginatedJSON limitStr offsetStr (GetByExchange (ms_cache s) exchange) with Ret l => Ret (Answer 200 l) | Panic => Panic end.
Definition handleGetAssetClass (s : MetadataService) (class : string) (limitStr offsetStr : option Z) : outcome (answer (list Instrument)) :=
  match respondPaginatedJSON limitStr offsetStr (GetByAssetClass (ms_cache s) class) with Ret l => Ret (Answer 200 l) | Panic => Panic end.

(** [handleRefresh] answers before the cache is loaded; the load is a later step. *)
Definition handleRefresh (s : MetadataService) : MetadataService * answer string := (s, Answer 202 "accepted").
Definition refresh_later (s : MetadataService) (loaded : result (list Instrument) string) : MetadataService := (LoadCache s loaded).1.

(** A page is the part of the listing that its parameters name, unless their sum leaves
    the range of an int. *)
Lemma page_is_slice {A} (l : list A) limitStr offsetStr :
  page_offset offsetStr + page_limit limitStr < 2 ^ 63 →
  respondPaginatedJSON limitStr offsetStr l =
  Ret (take (Z.to_nat (page_limit limitStr)) (drop (Z.to_nat (page_offset offsetStr)) l)).
Proof.
  intros H. unfold respondPaginatedJSON. set (o := page_offset offsetStr) in *. set (n := page_limit limitStr) in *.
  assert (Ho : 0 ≤ o) by (unfold o, page_offset; repeat case_match; lia).
  assert (Hn : 0 < n) by (unfold n, page_limit; repeat case_match; lia).
  destruct (Z.leb_spec (Z.of_nat (length l)) o); [by rewrite drop_ge by lia; rewrite take_nil|].
  rewrite i64_small by (unfold in_i64; lia). destruct (Z.ltb_spec (Z.of_nat (length l)) (o + n)).
  - rewrite (proj2 (Z.ltb_ge _ _)) by lia. f_equal. rewrite !take_ge; [done|rewrite length_drop; lia..].
  - rewrite (proj2 (Z.ltb_ge _ _)) by lia. do 2 f_equal. lia.
Qed.

(** The pages of a size, one after the other, are the listing. *)
Fixpoint pages {A} (fuel : nat) (size offset : Z) (l : list A) : outcome (list A) :=
  match fuel with
  | O => Ret []
  | S fuel =>
      match respondPaginatedJSON (Some size) (Some offset) l with
      | Panic => Panic
      | Ret [] => Ret []
      | Ret page => match pages fuel size (offset + size) l with Ret rest => Ret (page ++ rest) | Panic => Panic end
      end
  end.
Lemma pages_from {A} (l : list A) fuel size offset :
  0 < size → 0 ≤ offset → size + Z.of_nat (length l) < 2 ^ 62 → offset ≤ Z.of_nat (length l) + size →
  Z.of_nat (length l) < offset + Z.of_nat fuel * size →
  pages fuel size offset l = Ret (drop (Z.to_nat offset) l).
Proof.
  intros Hs. revert offset. induction fuel as [|fuel IH]; intros offset Ho Hb Hm Hf; [cbn; rewrite drop_ge by lia; done|].
  cbn [pages]. rewrite page_is_slice; cbn [page_offset page_limit]; rewrite (proj2 (Z.ltb_lt 0 size) Hs), (proj2 (Z.leb_le 0 offset) Ho); [|lia].
  destruct (decide (Z.of_nat (length l) ≤ offset)) as [Hge|Hlt].
  - rewrite drop_ge by lia. by rewrite take_nil.
  - assert (Hne : take (Z.to_nat size) (drop (Z.to_nat offset) l) ≠ []).
    { intros E. apply (f_equal length) in E. rewrite length_take, length_drop in E. cbn in E. lia. }
    destruct (decide (Z.of_nat (length l) ≤ offset + size)) as [Hlast|Hmore].
    + assert (Hrest : pages fuel size (offset + size) l = Ret []).
      { destruct fuel as [|fuel]; [done|]. cbn [pages].
        assert (E : respondPaginatedJSON (Some size) (Some (offset + size)) l = Ret []).
        { unfold respondPaginatedJSON. cbn [page_offset]. by rewrite (proj2 (Z.leb_le 0 (offset + size))), (proj2 (Z.leb_le _ (offset + size))) by lia. }
        by rewrite E. }
      rewrite Hrest. rewrite take_ge in * by (rewrite length_drop; lia). destruct (drop (Z.to_nat offset) l); [done|]. by rewrite app_nil_r.
    + rewrite Nat2Z.inj_succ, Z.mul_succ_l in Hf. rewrite IH by lia. rewrite Z2Nat.inj_add, <- drop_drop by lia.
      destruct (take (Z.to_nat size) (drop (Z.to_nat offset) l)) as [|x page] eqn:E; [done|]. rewrite <- E. by rewrite take_drop.
Qed.

(** A client that asks for page after page gets every instrument of an exchange once, in
    the order of the index. *)
Lemma pages_are_complete s exchange size :
  0 < size → size + Z.of_nat (length (GetByExchange (ms_cache s) exchange)) < 2 ^ 62 →
  pages (S (length (GetByExchange (ms_cache s) exchange))) size 0 (GetByExchange (ms_cache s) exchange) = Ret (GetByExchange (ms_cache s) exchange).
Proof. intros Hs Hb. rewrite pages_from by nia. by rewrite drop_0. Qed.

(** The largest limit with an offset wraps: the handler panics. *)
Lemma huge_limit_panics {A} (l : list A) offset :
  0 < offset < Z.of_nat (length l) → Z.of_nat (length l) < 2 ^ 63 → respondPaginatedJSON (Some (2 ^ 63 - 1)) (Some offset) l = Panic.
Proof.
  intros Ho Hl. unfold respondPaginatedJSON. cbn [page_offset page_limit]. rewrite (proj2 (Z.leb_le 0 offset)), (proj2 (Z.leb_gt _ offset)) by lia.
  change (0 <? 2 ^ 63 - 1) with true. cbn iota.
  assert (E : i64 (offset + (2 ^ 63 - 1)) = offset - 1 - 2 ^ 63).
  { unfold i64. replace (offset + (2 ^ 63 - 1) + 2 ^ 63) with (offset - 1 + 1 * 2 ^ 64) by lia. rewrite Z.mod_add, Z.mod_small by lia. lia. }
  rewrite E. destruct (Z.ltb_spec (Z.of_nat (length l)) (offset - 1 - 2 ^ 63)); [lia|].
  by rewrite (proj2 (Z.ltb_lt (offset - 1 - 2 ^ 63) offset)) by lia.
Qed.

(** ** Order books (orderbook/api.go, publisher.go) *)

Definition handleGetSnapshot (m : BookManager) (show_error : BookError → string) (symbol : string) : answer OrderBook :=
  match GetSnapshot m symbol with Ok b => Answer 200 b | Err e => Failure 404 (show_error e) end.

(** [MockPublisher] keeps the increments; [RedisPublisher] fails on what cannot be
    marshalled, and otherwise publishes nothing and reports success. *)
Definition Mock_PublishIncrement {I} (published : list I) (inc : I) : list I * option string := (published ++ [inc], None).
Definition Redis_PublishIncrement {I} (marshal : I → result (list Byte.byte) string) (sent : list I) (inc : I) : list I * option string :=
  match marshal inc with Err e => (sent, Some ("failed to serialize increment: " +:+ e)) | Ok _ => (sent, None) end.

(** Whatever is published through Redis, nothing is sent. *)
Lemma redis_increments_are_lost {I} marshal (incs : list I) : (foldl (λ sent inc, (Redis_PublishIncrement marshal sent inc).1) [] incs) = [].
Proof. induction incs as [|inc incs IH] using rev_ind; [done|]. rewrite foldl_app, IH. cbn. unfold Redis_PublishIncrement. by destruct (marshal inc). Qed.

(** ** An HTTP server as a component (lifecycle/adapters/http.go) *)

(** [Start]: the goroutine of the server, which fails to bind or serves, and the select,
    which takes what is ready then: an error, the end of the context, or the default. *)
Inductive server_pc := SrvSpawned | SrvFailed (err : string) | SrvServing.
Inductive start_step (bind : option string) (ctx : option string) : server_pc * option (option string) → server_pc * option (option string) → Prop :=
  | st_listen r : start_step bind ctx (SrvSpawned, r) (match bind with Some err => SrvFailed err | None => SrvServing end, r)
  | st_error err : start_step bind ctx (SrvFailed err, None) (SrvFailed err, Some (Some err))
  | st_done pc cause : ctx = Some cause → start_step bind ctx (pc, None) (pc, Some (Some cause))
  | st_default pc : ctx = None → (∀ err, pc ≠ SrvFailed err) → start_step bind ctx (pc, None) (pc, Some None).

(** A start that reports an error has one; but a port that is in use is reported only
    when the goroutine has failed before the select, which does not wait. *)
Lemma start_errors_are_real bind ctx pc r :
  rtc (start_step bind ctx) (SrvSpawned, None) (pc, Some (Some r)) → bind = Some r ∨ ctx = Some r.
Proof.
  set (P := λ s : server_pc * option (option string), (∀ e, s.1 = SrvFailed e → bind = Some e) ∧ (∀ e, s.2 = Some (Some e) → bind = Some e ∨ ctx = Some e)).
  intros H. enough (G : P (pc, Some (Some r))) by by apply G. revert H. generalize (pc, Some (Some r)). apply rtc_ind_r; [by split|].
  intros s s' _ Hs [H1 H2]. destruct Hs as [r0|err|pc0 cause Hc|pc0 Hc Hn]; split; cbn in *; try done; try naive_solver.
  destruct bind; naive_solver.
Qed.
Lemma bind_failure_is_missed err :
  rtc (start_step (Some err) None) (SrvSpawned, None) (SrvFailed err, Some None).
Proof. eapply rtc_l; [by apply st_default|]. apply rtc_once. apply (st_listen (Some err) None). Qed.

(** ** Correlation headers (correlation/propagation/redis.go) *)

(** The flat slice of keys and values. *)
Abbreviation FastCarrier := (list string).
Definition NewFastCarrier : FastCarrier := [].
Fixpoint Carrier_Get (pairs : FastCarrier) (key : string) : outcome string :=
  match pairs with
  | [] => Ret ""
  | k :: rest =>
      if String.eqb k key then match rest with v :: _ => Ret v | [] => Panic end
      else match rest with _ :: rest => Carrier_Get rest key | [] => Ret "" end
  end.
Fixpoint Carrier_Set (pairs : FastCarrier) (key value : string) : outcome FastCarrier :=
  match pairs with
  | [] => Ret [key; value]
  | k :: rest =>
      match rest with
      | [] => if String.eqb k key then Panic else Ret [k; key; value]
      | v :: rest =>
          if String.eqb k key then Ret (k :: value :: rest)
          else match Carrier_Set rest key value with Ret rest => Ret (k :: v :: rest) | Panic => Panic end
      end
  end.
Fixpoint Carrier_Keys (pairs : FastCarrier) : list string :=
  match pairs with k :: _ :: rest => k :: Carrier_Keys rest | [k] => [k] | [] => [] end.

(** The carrier as a map. *)
Fixpoint carrier_map (pairs : FastCarrier) : gmap string string :=
  match pairs with k :: v :: rest => <[k := v]> (carrier_map rest) | _ => ∅ end.
Definition carrier_ok (pairs : FastCarrier) : Prop := Nat.Even (length pairs) ∧ NoDup (Carrier_Keys pairs).

Lemma pairs_ind (P : FastCarrier → Prop) : P [] → (∀ k v rest, Nat.Even (length rest) → P rest → P (k :: v :: rest)) → ∀ l, Nat.Even (length l) → P l.
Proof.
  intros H0 H2 l. remember (length l) as n eqn:En. revert l En. induction n as [n IH] using lt_wf_ind. intros [|k [|v l]] En [m Hm]; cbn in En; [done|lia|].
  assert (Hl : Nat.Even (length l)) by (exists (m - 1)%nat; lia). apply H2; [done|]. by apply (IH (length l)); [lia|..].
Qed.

Lemma carrier_map_None pairs key : Nat.Even (length pairs) → carrier_map pairs !! key = None ↔ key ∉ Carrier_Keys pairs.
Proof.
  revert pairs. apply pairs_ind; [cbn; rewrite lookup_empty; set_solver|]. intros k v rest _ IH. cbn. rewrite lookup_insert_None, IH. set_solver.
Qed.

(** The carrier refines a finite map: no operation panics, what is set is got, and the
    keys are those of the map, once each. *)
Lemma carrier_refines_map pairs key value :
  carrier_ok pairs →
  Carrier_Get pairs key = Ret (default "" (carrier_map pairs !! key)) ∧
  (∃ pairs', Carrier_Set pairs key value = Ret pairs' ∧ carrier_ok pairs' ∧ carrier_map pairs' = <[key := value]> (carrier_map pairs)) ∧
  (∀ k, k ∈ Carrier_Keys pairs ↔ is_Some (carrier_map pairs !! k)).
Proof.
  intros [He Hn]. split_and!.
  - revert pairs He Hn. apply (pairs_ind (λ pairs, NoDup (Carrier_Keys pairs) → _)); [done|]. intros k v rest _ IH Hn. cbn in Hn |- *.
    apply NoDup_cons in Hn as [_ Hn]. destruct (String.eqb_spec k key) as [->|Hk]; [by rewrite lookup_insert_eq|]. by rewrite lookup_insert_ne, IH.
  - revert pairs He Hn. apply (pairs_ind (λ pairs, NoDup (Carrier_Keys pairs) → _)).
    + intros _. exists [key; value]. split_and!; [done| |done]. split; [by exists 1%nat|]. cbn. apply NoDup_singleton.
    + intros k v rest He IH Hn. cbn in Hn |- *. apply NoDup_cons in Hn as [Hk Hn]. destruct (String.eqb_spec k key) as [->|Hne].
      * exists (key :: value :: rest). split_and!; [done| |by cbn; rewrite insert_insert_eq]. split; [|by apply NoDup_cons].
        destruct He as [m Hm]. exists (S m). cbn. lia.
      * destruct (IH Hn) as (rest' & -> & [He' Hn'] & Hm). exists (k :: v :: rest'). split_and!; [done| |cbn; by rewrite Hm, insert_insert_ne].
        split; [destruct He' as [m Hm']; exists (S m); cbn; lia|]. cbn. apply NoDup_cons. split; [|done].
        apply carrier_map_None; [done|]. rewrite Hm, lookup_insert_ne by done. by apply carrier_map_None.
  - intros k. pose proof (carrier_map_None pairs k He) as Hk. rewrite <- not_eq_None_Some, Hk. split; [auto|]. apply dec_stable.
Qed.
